(* ===== verification/_CoqProject ===== *)
-Q . S2P
Prelude.v
StdMap.v
Atomics.v
SpinLocks.v
SpscQueue.v
Proglog.v
Orderbook.v
OrderbookSpec.v
OrderbookInv.v
OrderbookStep.v
OrderbookRefine.v
OrderbookApi.v
OrderbookProps.v
Fenwick.v
MinStackQueue.v
Num.v
NumR.v
UtilFuns.v
Eigen.v
EigenR.v
NormalDistribution.v
NormalProps.v
Particles.v
ParticlesProps.v
StochVol.v
StochVolProps.v
Simd.v
PacketMath.v
PacketMathProps.v
MersenneTwister.v
MersenneProps.v
FloatBits.v
FloatBitsProps.v
FloatNum.v
SinCos.v
SinCosLanes.v
SinCosPackets.v
PolyBound.v
SinCosR.v
RandomEngine.v
RandomEngineProps.v
PacketFilter.v
RandUtils.v
Neon.v
Avx512.v
Isas.v
PLog.v
PLogR.v
PLogLanes.v
Basic.v
BasicProps.v
Alias.v
AliasProps.v
Discrete.v
UniformIntProps.v
DiscreteProps.v
CacheStore.v
Reject.v
Continuous.v
GammaBeta.v
RejectProps.v
ContinuousProps.v
GammaProps.v
DiscreteReal.v
DiscreteRealProps.v
Poisson.v
BinomialV.v
PoissonProps.v
BinomialProps.v
BinomialVProps.v
Evaluate.v
Expressions.v
ExpressionsProps.v
MatrixOps.v
Multinomial.v
MultinomialProps.v
MvNormal.v
WishartFactor.v
MatrixR.v
MvNormalProps.v
