(* ===== verification/Prelude.v ===== *)
(** A verification of the C and C++ programs of this repository: an order book,
    a Fenwick tree, the minimum of a sliding window with stacks and with a queue,
    a stochastic volatility model with its particle filter, and the random number
    library EigenRand that ships with it; and of the programs in Rust in which
    threads share a lock or a queue, and the two logs of proglog in Go.

    * How to read it

    Every component is a file or more: definitions that translate the code, with
    the names of the code and executable, and, after them or in a file of its own
    whose name ends in Props, what holds of them.  C++ outcomes are values: a function returns
    [Ret v], [Throw e] for an exception, [Undef u] where the language leaves the
    behaviour undefined (or where an [eigen_assert] fails), and [OutOfFuel] from
    a loop whose fuel was too small; every theorem about a loop proves that the
    given fuel is enough.  State that several calls change is threaded through
    the monad [M] of this file.  Integers are [Z] with the wrap-around or the
    overflow of their type written out.

    * The order book (src/codealongs/cpp_orderbook/main.cpp)

    [StdMap] is std::map as a sorted list.  [Orderbook] holds the classes and
    the functions of the matching engine, with the three containers and a store
    of the orders that std::shared_ptr refers to.  The code reads through
    references into destroyed nodes, which C++ leaves undefined; the model answers
    such a read with what the node held and records it, and the theorems say how
    many there are and where, so that what they say of trades and orders holds of
    a run in which these reads still see the old contents.  [OrderbookApi] has
    GetOrderInfos, Size and main.  [OrderbookSpec] is the abstract book: two
    sorted lists of price levels.  [OrderbookInv], [OrderbookStep] and
    [OrderbookRefine] prove the representation invariant, its preservation by
    every step and the simulation; [OrderbookProps] the properties: refinement
    with the account of the recorded reads, reachable states are well formed and not crossed, matching ends, trades are
    at acceptable prices, quantities are conserved, price-time priority, what
    cancel and modify do, a round trip, the levels of GetOrderInfos.

    * Algorithms (src/algorithms-data-structures/c++)

    [Fenwick] is fenwick_tree/main.cpp on 32-bit ints with array bounds; queries
    are prefix sums after construction and after every update.  [MinStackQueue]
    is both programs of minimum_stack_and_queue, from the characters of their
    input to the number that they print: both print the minimum.

    * Threads (src/algorithms-data-structures/rust)

    [Atomics] is what the programs use of std::sync::atomic: threads with views of
    timestamped messages, plain memory whose races are detected, and schedules.
    [SpinLocks] is spin-lock and spin-lock-2, each operation of a thread at its
    point of the code.  By an invariant over all schedules, with any number of
    threads and rounds, there is no data race, one thread at a time has the lock
    and main prints the number of all increments; and from every state that can be
    reached the threads can finish.  [SpscQueue] is spsc-queue, with the slots of
    its buffer as plain memory: no slot is read before it is filled or filled before
    it is read and the numbers come out in order, with one slot or more, and the
    threads can finish with two slots or more.

    * proglog (src/distributed-services-with-go/proglog/internal)

    [Proglog] has the store of log/store.go, over a model of os.File with system
    calls that fail and of bufio.Writer: on a handle that writes at the end of its
    file it is a sequence of bytes to its callers, records are read back, also after
    reopening, and with failing calls everything is as specified or an error.  Then the log and the handlers of server, with the
    decoding of JSON as a parameter: what is produced is consumed.

    * The volatility model (src/stoch-vola/model/lib and include)

    [Num] is the arithmetic on double as a type class, with binary64 as the
    instance that computes and, in [NumR], the reals as the instance of the
    theorems.  [UtilFuns]: mean, standard deviation, quantile, in exact arithmetic,
    and where binary64 departs from it.
    [Eigen] is the interface of the matrices, [EigenR] an implementation that
    satisfies it.  [NormalDistribution] and [NormalProps] are the two classes of
    normal distributions; [Particles] and [ParticlesProps] the particle matrix
    with its constructors and its append and resample operations; [StochVol] and [StochVolProps] the
    particle filter and the likelihood.

    * EigenRand (src/stoch-vola/model/external/EigenRand/EigenRand)

    [Simd] is the part of the SSE and AVX instruction sets that the library
    uses, on lists of 32-bit lanes.  [PacketMath] is arch/SSE/MorePacketMath.h
    and arch/AVX/MorePacketMath.h with their compile-time variants; Eigen's own
    packet operations are the class [EigenPackets] with laws.  [PacketMathProps]
    proves that the variants agree, and makes both packet types instances of the
    interface [IntPacket] that the engine is written against.  [MersenneTwister]
    is the vectorised engine of PacketRandomEngine.h and the scalar engine of the
    standard; [MersenneProps] proves that every 64-bit lane of the
    one is the other.  [RandomEngine] and [RandomEngineProps] are the engine
    traits, AlignedArray, the parallel adaptor and the wrappers: the results of
    an engine do not depend on the instruction set.  [FloatBits] and
    [FloatBitsProps] turn random bits into numbers of [0, 1).

    [SinCos] is psincos and _psin of MorePacketMath.h on the bits of packets, with
    the conversions between double and 64-bit integers, and the function sincos
    that they compute in one lane.  [FloatNum] relates words, numbers and the signs
    in between; [SinCosLanes] proves the masks and signs right against laws of a
    packet type, [SinCosPackets] proves the laws for the packet types of SSE and
    AVX.  [PolyBound] is a checker of bounds on polynomials that computes with
    integers; [SinCosR] uses it to prove that sincos, over the reals, is within 3e-9
    of the sine and the cosine.  [PLog] and [PLogLanes] are plog of
    the SSE, AVX and NEON files, and psin of the NEON file, in the same way: the
    function in one lane, the masks and the exponent against laws, and the laws of
    the packet types; [PLogR] proves that the logarithm is within 1.4e-9 over the
    reals.

    [PacketFilter] is CompressMask, as a queue that loses and repeats nothing.
    [RandUtils]: drawing packets of bits, and the functors.  [Neon] and [Avx512] are
    the files of the other two instruction sets, integer packets, filters and draws;
    the former proves them equal to those of SSE, the latter that mask registers
    select lanes as masks do, and [Isas] states what holds on every instruction set:
    the stream of a filter, and psincos.  [Basic] and [BasicProps] are Dists/Basic.h.  [Alias] and
    [AliasProps] are the alias method of Dists/Discrete.h: in exact arithmetic its table
    encodes the weights exactly before the probabilities are converted to the stored
    type, and within the error of that conversion after it.  [Discrete], [UniformIntProps] and
    [DiscreteProps]: uniform integers by rejection, and draws by weights, scalar
    calls against packet operations; [DiscreteReal] and [DiscreteRealProps] the
    same with float and double precision.  [CacheStore] is the store for a packet
    between two calls, byte by byte.

    [Reject] has the loops that reject candidates, one by one or in packets with a
    queue of the accepted ones, written against interfaces of uniform numbers, of
    packet mathematics and of the filter; [RejectProps] proves what they return,
    and that the filters of PacketFilter.h on the bits of floats are
    such a filter.  [Continuous] and [GammaBeta] are Dists/NormalExp.h, [Poisson]
    and [BinomialV] the rest of Dists/Discrete.h and Dists/GammaPoisson.h.
    [ContinuousProps], [GammaProps], [PoissonProps], [BinomialProps] and
    [BinomialVProps] show over the reals what distribution the draws have:
    inversion of the distribution function, acceptance bounds proportional to
    density over proposal, counts of arrivals and of successes, and where the code
    departs from it.

    [Expressions] is the other half of those files: the functions and the members
    generate and generateLike, which return an expression of Eigen that holds a
    generator by value or by reference, and the expression of a generator with one
    or two arrays of parameters, CwiseHeteroBinaryOp.h.  [ExpressionsProps] shows
    what evaluating one stores: every coefficient is the scalar's function of its
    own random number and of its own parameters, whatever the order of evaluation;
    the generator of a function is a copy, that of a member keeps what it cached.

    [MatrixOps] is what MvDists uses of Eigen's matrices besides [Eigen]: storage,
    blocks, and products and decompositions as parameters; [Evaluate] is how Eigen
    fills an expression of random numbers, some coefficients one at a time and the
    others in packets, in an order that is a parameter.  [Multinomial] and
    [MvNormal] are the two files of MvDists.  [MultinomialProps]: samples count
    the values drawn, matrices of samples are chains of binomial numbers, with
    what goes wrong when few trials are left.  [MatrixR] states the documented
    laws of the decompositions, with square matrices as a setoid of functions of
    two indices, and an instance that satisfies them; [WishartFactor] follows the
    random numbers through the storage of the matrices to their place below the
    diagonal; [MvNormalProps] concludes that normal vectors are affine images,
    Wishart matrices Gram matrices of a factor times a random triangle, and
    inverse Wishart matrices the inverses of such.

    * Fuel and bounds

    The fuel of a loop is an explicit argument where the source has no bound
    ([candidate_loop], [packet_loop]: 31 candidates for each word drawn;
    [until_accepted], [until_full], [small_loop], [small_packet], [fill_lanes]: the
    trials up to the accepted one, or up to those that fill a packet) and a
    bound derived from the data elsewhere (the number of orders for matching,
    the number of slots for the alias table, the size of the array for the
    Fenwick tree; a buffered write takes at most two rounds).  Tables have at most 2^32 slots, where [ceil(log2(n))] is
    exact.

    * Interfaces

    Code that is not in the repository is a parameter: Eigen's matrices and
    packets, the distributions of the standard library, <cmath>.  Each has a
    class of operations, a class of laws that state its documentation, and an
    instance that satisfies the laws, on which the witnesses compute.

    * Not modelled

    The rounding errors of psincos and of plog (their accuracy is proved over the
    reals, their operations on floats are exactly those of the functions in one
    lane); ptruncate, psqrt and the casts of the packet types; the templates
    UnaryGenBase::generate and BinaryGenBase::generate, whose operands are made
    from an ArrayBase by a conversion inside Eigen; the assertion of debug builds
    that a rejection loop ends within 100 rounds.  Allocation never fails.  Formatted output of the threads is not a shared
    resource, and that a thread which spins is scheduled again is left to the
    schedule.  The references that push and pop make of the whole buffer
    are not memory accesses.  The experiment with Tokio, the operators in Go, the
    tests, benchmarks and build files are outside the development. *)

(** Shared vocabulary of the development: machine integers, the outcomes of
    C++ code (a value, a thrown exception, undefined behaviour), the error
    and state monads the components are written in, and the list lemmas and
    tactics that several components use. *)

From stdpp Require Export base tactics list sorting gmap strings.
From Stdlib Require Export ZArith Lia.

#[global] Open Scope Z_scope.

(** ** Machine integers

    A [w]-bit unsigned integer is the [Z] in [0, 2^w); conversions and
    unsigned arithmetic reduce modulo [2^w].  A signed 32-bit integer is the
    [Z] in [-2^31, 2^31); its overflow is undefined behaviour. *)

Definition u32 (z : Z) : Z := z mod 2 ^ 32.
Definition u64 (z : Z) : Z := z mod 2 ^ 64.

(** Conversion to a signed 32-bit integer. *)
Definition i32 (z : Z) : Z := (z + 2 ^ 31) mod 2 ^ 32 - 2 ^ 31.

Definition INT_MIN : Z := - 2 ^ 31.
Definition INT_MAX : Z := 2 ^ 31 - 1.

Definition in_int (z : Z) : bool := (INT_MIN <=? z) && (z <=? INT_MAX).

(** ** Outcomes *)

(** Exceptions of the standard library that the code throws or lets through. *)
Inductive exn :=
  | logic_error
  | out_of_range
  | bad_array_new_length
  | invalid_argument (what : string)
  | runtime_error (what : string).

(** Undefined behaviours, and Eigen's [eigen_assert] failures, that stop the
    abstract machine ([distribution_precondition] is the construction of a
    <random> distribution outside the preconditions of its constructor). *)
Inductive ub :=
  | null_dereference
  | empty_front
  | invalid_iterator
  | index_out_of_bounds (i : Z)
  | signed_overflow
  | float_to_int_range
  | eigen_assertion
  | shift_out_of_range
  | indeterminate_value
  | distribution_precondition.

Inductive outcome (A : Type) :=
  | Ret (a : A)
  | Throw (e : exn)
  | Undef (u : ub)
  | OutOfFuel.
Arguments Ret {A} a.
Arguments Throw {A} e.
Arguments Undef {A} u.
Arguments OutOfFuel {A}.

#[global] Instance exn_eq_dec : EqDecision exn.
Proof. solve_decision. Defined.
#[global] Instance ub_eq_dec : EqDecision ub.
Proof. solve_decision. Defined.
#[global] Instance outcome_eq_dec {A} `{EqDecision A} : EqDecision (outcome A).
Proof. solve_decision. Defined.

#[global] Instance outcome_ret : MRet outcome := λ A a, Ret a.
#[global] Instance outcome_bind : MBind outcome := λ A B f m,
  match m with
  | Ret a => f a
  | Throw e => Throw e
  | Undef u => Undef u
  | OutOfFuel => OutOfFuel
  end.
#[global] Instance outcome_fmap : FMap outcome := λ A B f m,
  match m with
  | Ret a => Ret (f a)
  | Throw e => Throw e
  | Undef u => Undef u
  | OutOfFuel => OutOfFuel
  end.

(** Whether the code ran to a normal return. *)
Definition returns {A} (o : outcome A) : Prop := ∃ a, o = Ret a.

(** ** The state monad

    [M S A] threads a state [S]; an exception keeps the state it was thrown
    in, as in C++. *)

Definition M (S A : Type) : Type := S → outcome A * S.

#[global] Instance M_ret {S} : MRet (M S) := λ A a s, (Ret a, s).
#[global] Instance M_bind {S} : MBind (M S) := λ A B f m s,
  match m s with
  | (Ret a, s') => f a s'
  | (Throw e, s') => (Throw e, s')
  | (Undef u, s') => (Undef u, s')
  | (OutOfFuel, s') => (OutOfFuel, s')
  end.

Definition gets {S A} (f : S → A) : M S A := λ s, (Ret (f s), s).
Definition modify {S} (f : S → S) : M S unit := λ s, (Ret tt, f s).
Definition lift {S A} (o : outcome A) : M S A := λ s, (o, s).
Definition from_option {S A} (u : ub) (o : option A) : M S A :=
  λ s, (match o with Some a => Ret a | None => Undef u end, s).
Definition when {S} (b : bool) (m : M S unit) : M S unit := λ s, if b then m s else (Ret tt, s).

Lemma bind_Ret {S A B} (m : M S A) (f : A → M S B) s a s' :
  m s = (Ret a, s') → (m ≫= f) s = f a s'.
Proof. intros H. unfold mbind, M_bind. by rewrite H. Qed.

Lemma gets_bind {S A B} (g : S → A) (f : A → M S B) s : (gets g ≫= f) s = f (g s) s.
Proof. done. Qed.

Lemma modify_bind {S B} (g : S → S) (f : unit → M S B) s : (modify g ≫= f) s = f tt (g s).
Proof. done. Qed.

Lemma lift_Ret_bind {S A B} (a : A) (f : A → M S B) s : (lift (Ret a) ≫= f) s = f a s.
Proof. done. Qed.

Lemma from_option_Some_bind {S A B} u (a : A) (f : A → M S B) s :
  (from_option u (Some a) ≫= f) s = f a s.
Proof. done. Qed.

Lemma mret_bind {S A B} (a : A) (f : A → M S B) s : ((mret a : M S A) ≫= f) s = f a s.
Proof. done. Qed.

Lemma bind_assoc {S A B C} (m : M S A) (f : A → M S B) (g : B → M S C) s :
  ((m ≫= f) ≫= g) s = (m ≫= λ a, f a ≫= g) s.
Proof. unfold mbind, M_bind. destruct (m s) as [[] ?]; done. Qed.

Lemma when_true_bind {S B} (m : M S unit) (f : unit → M S B) s :
  (when true m ≫= f) s = (m ≫= f) s.
Proof. done. Qed.

Lemma when_false_bind {S B} (m : M S unit) (f : unit → M S B) s :
  (when false m ≫= f) s = f tt s.
Proof. done. Qed.

Create Rewrite HintDb run.
#[export] Hint Rewrite @gets_bind @modify_bind @lift_Ret_bind @from_option_Some_bind
  @mret_bind @bind_assoc @when_true_bind @when_false_bind : run.

(** Symbolic execution of a monadic program on a state. *)
Ltac run_simpl := repeat (progress (autorewrite with run; cbn beta iota)).

(** Run the first call of a program, whose result [tac] establishes. *)
Tactic Notation "run" "by" tactic3(tac) := erewrite bind_Ret; [|tac]; cbn beta iota.

(** ** Integer lemmas *)

Lemma u32_range z : 0 <= u32 z < 2 ^ 32.
Proof. apply Z.mod_pos_bound. lia. Qed.

Lemma u32_id z : 0 <= z < 2 ^ 32 → u32 z = z.
Proof. apply Z.mod_small. Qed.

Lemma i32_id z : INT_MIN <= z <= INT_MAX → i32 z = z.
Proof. unfold i32, INT_MIN, INT_MAX. intros Hz. rewrite Z.mod_small; lia. Qed.

Lemma u32_idemp z : u32 (u32 z) = u32 z.
Proof. apply Z.mod_mod. lia. Qed.

Lemma u32_add_l a b : u32 (u32 a + b) = u32 (a + b).
Proof. apply Z.add_mod_idemp_l. lia. Qed.

Lemma u64_small z : 0 <= z < 2 ^ 64 → u64 z = z.
Proof. apply Z.mod_small. Qed.
Lemma u32_u64 z : u32 (u64 z) = u32 z.
Proof.
  unfold u32, u64. apply Z.mod_mod_divide.
  exists (2 ^ 32). reflexivity.
Qed.

Lemma in_int_spec z : in_int z = true ↔ INT_MIN <= z <= INT_MAX.
Proof. unfold in_int. rewrite andb_true_iff, !Z.leb_le. lia. Qed.

Create Rewrite HintDb ints.
#[export] Hint Rewrite u32_idemp u32_u64 u32_add_l : ints.

(** Exhaust the boolean comparisons of a context into arithmetic. *)
Ltac zbool :=
  repeat match goal with
  | H : _ && _ = true |- _ => apply andb_true_iff in H as [? ?]
  | H : _ || _ = false |- _ => apply orb_false_iff in H as [? ?]
  | H : (_ <=? _) = true |- _ => apply Z.leb_le in H
  | H : (_ <=? _) = false |- _ => apply Z.leb_gt in H
  | H : (_ <? _) = true |- _ => apply Z.ltb_lt in H
  | H : (_ <? _) = false |- _ => apply Z.ltb_ge in H
  | H : (_ >? _) = true |- _ => rewrite Z.gtb_ltb in H
  | H : (_ >? _) = false |- _ => rewrite Z.gtb_ltb in H
  | H : (_ >=? _) = true |- _ => rewrite Z.geb_leb in H
  | H : (_ >=? _) = false |- _ => rewrite Z.geb_leb in H
  | H : (_ =? _) = true |- _ => apply Z.eqb_eq in H
  | H : (_ =? _) = false |- _ => apply Z.eqb_neq in H
  end.

(** ** List lemmas *)

(** Sum of a list of integers. *)
Definition zsum (l : list Z) : Z := foldr Z.add 0 l.

Lemma zsum_app l k : zsum (l ++ k) = zsum l + zsum k.
Proof. unfold zsum. induction l; simpl; lia. Qed.

Lemma zsum_cons x l : zsum (x :: l) = x + zsum l.
Proof. done. Qed.

Lemma zsum_nonneg l : Forall (λ x, 0 <= x) l → 0 <= zsum l.
Proof. unfold zsum. induction 1; simpl; lia. Qed.

#[export] Hint Rewrite zsum_app zsum_cons : ints.

Lemma omap_ext_in {A B} (f g : A → option B) (l : list A) :
  (∀ x, x ∈ l → f x = g x) → omap f l = omap g l.
Proof.
  intros Hfg. apply list_omap_ext, Forall2_same_length_lookup. split; [done|].
  intros i x y Hx Hy. rewrite Hx in Hy. injection Hy as <-.
  apply Hfg. by eapply list_elem_of_lookup_2.
Qed.

Lemma omap_cons_Some {A B} (f : A → option B) x y (l : list A) :
  f x = Some y → omap f (x :: l) = y :: omap f l.
Proof. intros H. simpl. by rewrite H. Qed.

(** The elements of a list whose condition holds. *)
Fixpoint chosen {A} (bs : list bool) (v : list A) : list A :=
  match bs, v with
  | b :: bs, x :: v => if b then x :: chosen bs v else chosen bs v
  | _, _ => []
  end.

Lemma chosen_fmap {A B} (f : A → B) bs v : chosen bs (f <$> v) = f <$> chosen bs v.
Proof. revert v. induction bs as [|[|] bs IH]; intros [|x v]; cbn; by rewrite ?IH. Qed.

Lemma chosen_filter {A} (f : A → bool) v : chosen (f <$> v) v = filter (λ x, f x = true) v.
Proof.
  induction v as [|x v IH]; [done|]. cbn [fmap list_fmap chosen].
  destruct (f x) eqn:E; [rewrite filter_cons_True by done|rewrite filter_cons_False by congruence]; by rewrite <-IH.
Qed.

Lemma filter_all {A} (P : A → Prop) `{∀ x, Decision (P x)} (l : list A) :
  (∀ x, x ∈ l → P x) → filter P l = l.
Proof.
  induction l as [|x l IH]; intros HP; [done|].
  rewrite filter_cons_True by (apply HP; set_solver). f_equal. apply IH. set_solver.
Qed.

(** Removing the one element of a list that fails [P]. *)
Lemma filter_one {A} (P : A → Prop) `{∀ x, Decision (P x)} (l k : list A) x :
  ¬ P x → (∀ y, y ∈ l ++ k → P y) → filter P (l ++ x :: k) = l ++ k.
Proof.
  intros Hx Hl. rewrite filter_app, filter_cons_False by done.
  rewrite !filter_all; [done| |]; intros; apply Hl; set_solver.
Qed.

(** ** Signed arithmetic and arrays *)

(** The [int] operations: a result outside the type is undefined behaviour. *)
Definition to_int (z : Z) : outcome Z := if in_int z then Ret z else Undef signed_overflow.
Definition int_add (a b : Z) : outcome Z := to_int (a + b).
Definition int_sub (a b : Z) : outcome Z := to_int (a - b).
Definition int_neg (a : Z) : outcome Z := to_int (- a).

(** [a[i]] as a value and as a target of assignment. *)
Definition array_get {A} (a : list A) (i : Z) : outcome A :=
  if i <? 0 then Undef (index_out_of_bounds i)
  else match a !! Z.to_nat i with
       | Some x => Ret x
       | None => Undef (index_out_of_bounds i)
       end.
Definition array_set {A} (a : list A) (i : Z) (x : A) : outcome (list A) :=
  if (i <? 0) || (Z.of_nat (length a) <=? i) then Undef (index_out_of_bounds i)
  else Ret (<[Z.to_nat i := x]> a).

#[global] Arguments to_int : simpl never.
#[global] Arguments int_add : simpl never.
#[global] Arguments int_sub : simpl never.
#[global] Arguments int_neg : simpl never.
#[global] Arguments array_get : simpl never.
#[global] Arguments array_set : simpl never.

Lemma to_int_ok z : in_int z = true → to_int z = Ret z.
Proof. unfold to_int. by intros ->. Qed.

Lemma int_add_ok a b : INT_MIN <= a + b <= INT_MAX → int_add a b = Ret (a + b).
Proof. intros H. by apply to_int_ok, in_int_spec. Qed.
Lemma int_sub_ok a b : INT_MIN <= a - b <= INT_MAX → int_sub a b = Ret (a - b).
Proof. intros H. by apply to_int_ok, in_int_spec. Qed.
Lemma int_neg_ok a : INT_MIN <= - a <= INT_MAX → int_neg a = Ret (- a).
Proof. intros H. by apply to_int_ok, in_int_spec. Qed.

(** Arithmetic with the bounds of [int] in view. *)
Ltac int_lia := unfold INT_MIN, INT_MAX in *; lia.

Lemma array_get_ok {A} (a : list A) i x :
  0 <= i → a !! Z.to_nat i = Some x → array_get a i = Ret x.
Proof. intros Hi Hx. unfold array_get. destruct (_ <? _) eqn:E; zbool; [lia|]. by rewrite Hx. Qed.

Lemma array_get_out {A} (a : list A) i :
  i < 0 ∨ Z.of_nat (length a) <= i → array_get a i = Undef (index_out_of_bounds i).
Proof.
  intros Hi. unfold array_get. destruct (_ <? _) eqn:E; [done|]; zbool.
  rewrite lookup_ge_None_2; [done|]. lia.
Qed.

Lemma array_set_ok {A} (a : list A) i x :
  0 <= i < Z.of_nat (length a) → array_set a i x = Ret (<[Z.to_nat i := x]> a).
Proof.
  intros Hi. unfold array_set.
  destruct (i <? 0) eqn:E1, (_ <=? i) eqn:E2; zbool; done || lia.
Qed.

(** [((size_t)-1) >> (64 - k)] is a mask of [k] bits. *)
Lemma low_bits_mask k : 0 < k < 64 → Z.shiftr (2 ^ 64 - 1) (64 - k) = 2 ^ k - 1.
Proof.
  intros Hk. rewrite Z.shiftr_div_pow2 by lia. symmetry.
  assert (2 ^ 64 = 2 ^ (64 - k) * 2 ^ k) as -> by (rewrite <-Z.pow_add_r by lia; f_equal; lia).
  assert (0 < 2 ^ (64 - k)) by (apply Z.pow_pos_nonneg; lia).
  apply (Z.div_unique_pos _ _ _ (2 ^ (64 - k) - 1)); nia.
Qed.

(** The low bits of a number, as the code masks them. *)
Lemma land_low_bits x k : 0 <= k → Z.land x (2 ^ k - 1) = x mod 2 ^ k.
Proof. intros Hk. rewrite <-Z.land_ones by done. by rewrite Z.ones_equiv, Z.sub_1_r. Qed.

Lemma mod_pow2_mod x a b : 0 <= a <= b → (x mod 2 ^ b) mod 2 ^ a = x mod 2 ^ a.
Proof.
  intros Hab. apply Z.mod_mod_divide.
  exists (2 ^ (b - a)). rewrite <-Z.pow_add_r by lia. f_equal. lia.
Qed.
