(* ===== verification/StdMap.v ===== *)
(** [std::map<K, V, Compare>] as the list of its (key, value) pairs in the
    order of iteration, with the comparator as a type class.  [begin()] is the
    head of the list; a reference obtained from [operator[]], [at] or
    [*begin()] is the key it was obtained at, read with [map_find] and written
    with [map_set]. *)

From S2P Require Import Prelude.

(** The requirements of [std::map] on its comparator (a strict weak order
    whose equivalence is equality). *)
Class Comparator {K : Type} (lt : K → K → bool) : Prop := {
  cmp_irrefl k : lt k k = false;
  cmp_trans a b c : lt a b = true → lt b c = true → lt a c = true;
  cmp_total a b : lt a b = false → lt b a = false → a = b;
}.

(** [std::less<Price>] and [std::greater<Price>]. *)
Definition std_less (a b : Z) : bool := a <? b.
Definition std_greater (a b : Z) : bool := b <? a.

#[export] Instance std_less_comparator : Comparator std_less.
Proof. split; unfold std_less; intros; zbool; [lia| |lia]. apply Z.ltb_lt; lia. Qed.

#[export] Instance std_greater_comparator : Comparator std_greater.
Proof. split; unfold std_greater; intros; zbool; [lia| |lia]. apply Z.ltb_lt; lia. Qed.

Section Operations.
Context {K V : Type} (lt : K → K → bool).

Fixpoint map_find (k : K) (m : list (K * V)) : option V :=
  match m with
  | [] => None
  | (k', v) :: m' =>
      if lt k' k then map_find k m' else if lt k k' then None else Some v
  end.

(** [m[k]]: value-initialise an absent key. *)
Fixpoint map_index (dflt : V) (k : K) (m : list (K * V)) : list (K * V) :=
  match m with
  | [] => [(k, dflt)]
  | (k', v) :: m' =>
      if lt k' k then (k', v) :: map_index dflt k m'
      else if lt k k' then (k, dflt) :: m else m
  end.

(** A write through a reference to the value of key [k]. *)
Fixpoint map_set (k : K) (v : V) (m : list (K * V)) : list (K * V) :=
  match m with
  | [] => []
  | (k', v') :: m' =>
      if lt k' k then (k', v') :: map_set k v m'
      else if lt k k' then m else (k', v) :: m'
  end.

(** [m.erase(k)] by key. *)
Fixpoint map_erase (k : K) (m : list (K * V)) : list (K * V) :=
  match m with
  | [] => []
  | (k', v') :: m' =>
      if lt k' k then (k', v') :: map_erase k m'
      else if lt k k' then m else m'
  end.
End Operations.

Section Laws.
Context {K V : Type} (lt : K → K → bool) `{!Comparator lt}.
Implicit Types (m : list (K * V)) (k : K) (v : V).

Definition key_lt (a b : K * V) : Prop := lt a.1 b.1 = true.
Definition map_sorted m : Prop := StronglySorted key_lt m.

Lemma map_sorted_nil : map_sorted [].
Proof. constructor. Qed.

Lemma map_sorted_cons k v m :
  map_sorted ((k, v) :: m) ↔ map_sorted m ∧ Forall (λ kv, lt k kv.1 = true) m.
Proof.
  split; [intros H; by apply StronglySorted_inv in H|].
  intros [??]. by constructor.
Qed.

Lemma map_sorted_app m1 m2 :
  map_sorted (m1 ++ m2) ↔
  map_sorted m1 ∧ map_sorted m2 ∧
  Forall (λ a, Forall (λ b, lt a.1 b.1 = true) m2) m1.
Proof.
  induction m1 as [|[k v] m1 IH]; simpl.
  { split; [intros; repeat split; [constructor|done|constructor]|by intros (_&?&_)]. }
  rewrite !map_sorted_cons, IH, Forall_app, Forall_cons. simpl. tauto.
Qed.

Lemma map_find_mid k v m1 m2 :
  map_sorted (m1 ++ (k, v) :: m2) → map_find lt k (m1 ++ (k, v) :: m2) = Some v.
Proof.
  induction m1 as [|[k' w] m1 IH]; simpl; [by rewrite cmp_irrefl|].
  rewrite map_sorted_cons. intros [Hm Hall].
  rewrite Forall_app, Forall_cons in Hall. simpl in Hall.
  destruct Hall as (_ & -> & _). auto.
Qed.

Lemma map_set_mid k v v' m1 m2 :
  map_sorted (m1 ++ (k, v) :: m2) →
  map_set lt k v' (m1 ++ (k, v) :: m2) = m1 ++ (k, v') :: m2.
Proof.
  induction m1 as [|[k' w] m1 IH]; simpl; [by rewrite cmp_irrefl|].
  rewrite map_sorted_cons. intros [Hm Hall].
  rewrite Forall_app, Forall_cons in Hall. simpl in Hall.
  destruct Hall as (_ & -> & _). by rewrite IH.
Qed.

Lemma map_erase_mid k v m1 m2 :
  map_sorted (m1 ++ (k, v) :: m2) →
  map_erase lt k (m1 ++ (k, v) :: m2) = m1 ++ m2.
Proof.
  induction m1 as [|[k' w] m1 IH]; simpl; [by rewrite cmp_irrefl|].
  rewrite map_sorted_cons. intros [Hm Hall].
  rewrite Forall_app, Forall_cons in Hall. simpl in Hall.
  destruct Hall as (_ & -> & _). by rewrite IH.
Qed.

Lemma map_find_elem k v m : map_sorted m → map_find lt k m = Some v ↔ (k, v) ∈ m.
Proof.
  intros Hm. split.
  - clear Hm. induction m as [|[k' w] m IH]; [done|]. simpl.
    rewrite elem_of_cons. destruct (lt k' k) eqn:E1; [auto|].
    destruct (lt k k') eqn:E2; [done|]. intros [= ->].
    rewrite (cmp_total k' k E1 E2). auto.
  - intros (m1 & m2 & ->)%list_elem_of_split. by apply map_find_mid.
Qed.

Lemma map_find_None k m :
  map_sorted m → map_find lt k m = None →
  ∃ m1 m2, m = m1 ++ m2 ∧
    (∀ d, map_index lt d k m = m1 ++ (k, d) :: m2) ∧
    Forall (λ a, lt a.1 k = true) m1 ∧ Forall (λ b, lt k b.1 = true) m2.
Proof.
  induction m as [|[k' w] m IH]; [intros; by exists [], []|].
  rewrite map_sorted_cons. simpl. intros [Hm Hall]. destruct (lt k' k) eqn:E1.
  - intros Hf. destruct (IH Hm Hf) as (m1 & m2 & -> & Hi & H1 & H2).
    exists ((k', w) :: m1), m2. repeat split; [|by constructor|done].
    intros d. by rewrite Hi.
  - destruct (lt k k') eqn:E2; [|done]. intros _.
    exists [], ((k', w) :: m). repeat split; [constructor|].
    constructor; [done|]. eapply Forall_impl; [exact Hall|].
    intros [??] ?. by eapply cmp_trans.
Qed.

Lemma map_index_Some k v d m :
  map_sorted m → map_find lt k m = Some v → map_index lt d k m = m.
Proof.
  induction m as [|[k' w] m IH]; [done|]. rewrite map_sorted_cons. simpl.
  intros [Hm _]. destruct (lt k' k); [intros; by rewrite IH|].
  by destruct (lt k k').
Qed.

Lemma map_sorted_replace k v v' m1 m2 :
  map_sorted (m1 ++ (k, v) :: m2) → map_sorted (m1 ++ (k, v') :: m2).
Proof.
  rewrite !map_sorted_app, !map_sorted_cons. intros (?&[??]&H3).
  split_and!; try done. eapply Forall_impl; [exact H3|].
  intros [??] [??]%Forall_cons. by constructor.
Qed.

Lemma map_sorted_remove kv m1 m2 :
  map_sorted (m1 ++ kv :: m2) → map_sorted (m1 ++ m2).
Proof.
  destruct kv. rewrite !map_sorted_app, !map_sorted_cons. intros (?&[??]&H3).
  split_and!; try done. eapply Forall_impl; [exact H3|].
  by intros ? [??]%Forall_cons.
Qed.

Lemma map_sorted_insert k v m1 m2 :
  map_sorted (m1 ++ m2) →
  Forall (λ a, lt a.1 k = true) m1 → Forall (λ b, lt k b.1 = true) m2 →
  map_sorted (m1 ++ (k, v) :: m2).
Proof.
  rewrite !map_sorted_app, !map_sorted_cons. intros (?&?&H3) H1 H2.
  split_and!; try done. rewrite Forall_forall in H1, H3 |- *.
  intros a Ha. constructor; [by apply H1|by apply H3].
Qed.
End Laws.
