(* ===== verification/Atomics.v ===== *)
(** Threads that share atomic and plain memory, for the Rust programs of
    algorithms-data-structures/rust: the orderings of [std::sync::atomic], and a
    machine that runs a schedule.

    An atomic location keeps every message that was written to it, at its
    timestamp.  A thread has a view: for each location the timestamp below which
    it cannot read any more, and for each thread how many of its accesses to plain
    memory happen before the point where it is.  A message carries the view that an
    acquiring load joins.  A load may take any message that the view allows; a
    store goes to any free timestamp above the view, not only to the last one; a
    [swap] goes directly behind the message that it reads.  This is the fragment of
    the C++20 model that Rust adopts without fences, sequential consistency and
    read cycles (no thread reads what depends on its own later store).

    Two accesses to the same plain location, one of them a write, neither of which
    happens before the other, are a data race, which is undefined behaviour. *)

From S2P Require Import Prelude.

(** ** Programs *)

Inductive Ordering := Relaxed | Release | Acquire | AcqRel.

Definition acquires (o : Ordering) : bool := match o with Acquire | AcqRel => true | _ => false end.
Definition releases (o : Ordering) : bool := match o with Release | AcqRel => true | _ => false end.

(** The next operation of a thread, with the point where it goes on: on atomic
    locations [L] with values [A], and on plain locations [N] with values [D]. *)
Inductive operation (L A N D P : Type) :=
  | load (l : L) (o : Ordering) (k : A → P)
  | store (l : L) (a : A) (o : Ordering) (k : P)
  | swap (l : L) (a : A) (o : Ordering) (k : A → P)
  | read (x : N) (k : D → P)
  | write (x : N) (d : D) (k : P)
  | finished.
#[global] Arguments load {L A N D P} l o k.
#[global] Arguments store {L A N D P} l a o k.
#[global] Arguments swap {L A N D P} l a o k.
#[global] Arguments read {L A N D P} x k.
#[global] Arguments write {L A N D P} x d k.
#[global] Arguments finished {L A N D P}.

(** ** Views *)

Record view (L : Type) := mk_view { seen : L → nat; clock : nat → nat }.
#[global] Arguments mk_view {L} _ _.
#[global] Arguments seen {L} _ _.
#[global] Arguments clock {L} _ _.

Definition no_view {L} : view L := mk_view (λ _, 0%nat) (λ _, 0%nat).
Definition join {L} (v w : view L) : view L :=
  mk_view (λ l, seen v l `max` seen w l)%nat (λ t, clock v t `max` clock w t)%nat.

(** The view after [l] was accessed at [ts], and after an access of thread [t] to
    plain memory. *)
Definition observe {L} `{EqDecision L} (l : L) (ts : nat) (v : view L) : view L :=
  mk_view (λ l', if decide (l' = l) then (seen v l `max` ts)%nat else seen v l') (clock v).
Definition tick {L} (t : nat) (v : view L) : view L :=
  mk_view (seen v) (λ u, if decide (u = t) then S (clock v t) else clock v u).

(** Everything in [v] happens before what has the view [w]. *)
Definition below {L} (v w : view L) : Prop :=
  (∀ l, (seen v l <= seen w l)%nat) ∧ (∀ t, (clock v t <= clock w t)%nat).

(** ** States *)

Record message (L A : Type) := mk_message { m_value : A; m_view : view L }.
#[global] Arguments mk_message {L A} _ _.
#[global] Arguments m_value {L A} _.
#[global] Arguments m_view {L A} _.

(** A plain location: its value, unless it is not initialised, and the accesses
    that a new one can race with, by thread and clock: the last write, and the
    last read of each thread since. *)
Record cell (D : Type) := mk_cell { c_value : option D; c_write : nat * nat; c_reads : nat → nat }.
#[global] Arguments mk_cell {D} _ _ _.
#[global] Arguments c_value {D} _.
#[global] Arguments c_write {D} _.
#[global] Arguments c_reads {D} _ _.

(** [cells x] is [None] when there is no such location. *)
Record state (L A N D P : Type) := mk_state {
  history : L → nat → option (message L A);
  cells : N → option (cell D);
  threads : list (P * view L);
}.
#[global] Arguments mk_state {L A N D P} _ _ _.
#[global] Arguments history {L A N D P} _ _ _.
#[global] Arguments cells {L A N D P} _ _.
#[global] Arguments threads {L A N D P} _.

Inductive failure := data_race | uninitialised | no_such_location.
Inductive result (S : Type) := next (s : S) | impossible | undefined (f : failure).
#[global] Arguments next {S} s.
#[global] Arguments impossible {S}.
#[global] Arguments undefined {S} f.

Section Machine.
Context {L A N D P : Type} `{EqDecision L} `{EqDecision N} (code : P → operation L A N D P).

Definition insert_message (h : L → nat → option (message L A)) (l : L) (ts : nat) (m : message L A) :
    L → nat → option (message L A) :=
  λ l' ts', if decide (l' = l ∧ ts' = ts) then Some m else h l' ts'.
Definition insert_cell (c : N → option (cell D)) (x : N) (y : cell D) : N → option (cell D) :=
  λ x', if decide (x' = x) then Some y else c x'.

(** The view of a thread that has read [m] at [ts], and the view that a message
    at [ts] of a thread with the view [v] carries. *)
Definition view_after_read (o : Ordering) (l : L) (ts : nat) (m : message L A) (v : view L) : view L :=
  let v := observe l ts v in if acquires o then join v (m_view m) else v.
Definition released (o : Ordering) (l : L) (ts : nat) (v : view L) : view L :=
  if releases o then v else observe l ts no_view.

(** The write, and every read, of a cell happens before what has the view [v];
    [n] bounds the numbers of the threads. *)
Definition write_before (c : cell D) (v : view L) : bool :=
  bool_decide ((c_write c).2 <= clock v (c_write c).1)%nat.
Definition reads_before (n : nat) (c : cell D) (v : view L) : bool :=
  forallb (λ u, bool_decide (c_reads c u <= clock v u)%nat) (seq 0 n).

(** Thread [t] performs its next operation, a load or a swap by reading the
    message at [ts], a store by writing one there. *)
Definition perform (t ts : nat) (s : state L A N D P) : result (state L A N D P) :=
  match threads s !! t with
  | None => impossible
  | Some (p, v) =>
      let go h c p v := next (mk_state h c (<[t := (p, v)]> (threads s))) in
      match code p with
      | finished => impossible
      | load l o k =>
          match history s l ts with
          | Some m =>
              if bool_decide (seen v l <= ts)%nat
              then go (history s) (cells s) (k (m_value m)) (view_after_read o l ts m v)
              else impossible
          | None => impossible
          end
      | store l a o k =>
          match history s l ts with
          | None =>
              if bool_decide (seen v l < ts)%nat then
                let v := observe l ts v in
                go (insert_message (history s) l ts (mk_message a (released o l ts v))) (cells s) k v
              else impossible
          | Some _ => impossible
          end
      | swap l a o k =>
          match history s l ts, history s l (S ts) with
          | Some m, None =>
              if bool_decide (seen v l <= ts)%nat then
                let v := observe l (S ts) (view_after_read o l ts m v) in
                go (insert_message (history s) l (S ts) (mk_message a (join (m_view m) (released o l (S ts) v))))
                  (cells s) (k (m_value m)) v
              else impossible
          | _, _ => impossible
          end
      | read x k =>
          match cells s x with
          | None => undefined no_such_location
          | Some c =>
              if write_before c v then
                match c_value c with
                | None => undefined uninitialised
                | Some d =>
                    let v := tick t v in
                    go (history s)
                      (insert_cell (cells s) x (mk_cell (c_value c) (c_write c)
                         (λ u, if decide (u = t) then clock v t else c_reads c u)))
                      (k d) v
                end
              else undefined data_race
          end
      | write x d k =>
          match cells s x with
          | None => undefined no_such_location
          | Some c =>
              if write_before c v && reads_before (length (threads s)) c v then
                let v := tick t v in
                go (history s) (insert_cell (cells s) x (mk_cell (Some d) (t, clock v t) (λ _, 0%nat))) k v
              else undefined data_race
          end
      end
  end.

(** A schedule: the threads that run, one operation at a time, and the
    timestamps that they use. *)
Fixpoint run (schedule : list (nat * nat)) (s : state L A N D P) : result (state L A N D P) :=
  match schedule with
  | [] => next s
  | (t, ts) :: schedule =>
      match perform t ts s with
      | next s => run schedule s
      | impossible => impossible
      | undefined f => undefined f
      end
  end.

(** All threads have finished; the scope that has spawned them joins them, and
    what follows has seen what they have. *)
Definition all_finished (s : state L A N D P) : bool :=
  forallb (λ th, match code th.1 with finished => true | _ => false end) (threads s).
Definition joined (s : state L A N D P) : view L := foldr (λ th, join th.2) no_view (threads s).

End Machine.

(** ** Lemmas *)

Section Lemmas.
Context {L A N D P : Type} `{EqDecision L} `{EqDecision N} (code : P → operation L A N D P).

Lemma run_app s s1 sched sched' : run code sched s = next s1 → run code (sched ++ sched') s = run code sched' s1.
Proof.
  revert s. induction sched as [|[t ts] sched IH]; intros s; cbn; [by intros [= ->]|].
  destruct (perform code t ts s); [apply IH|done..].
Qed.

(** What holds of the first state and is kept by every step, which moreover is
    not undefined, holds of every state that a schedule reaches. *)
Lemma run_invariant (inv : state L A N D P → Prop) sched s :
  (∀ s t ts, inv s → match perform code t ts s with next s' => inv s' | impossible => True | undefined _ => False end) →
  inv s → match run code sched s with next s' => inv s' | impossible => True | undefined _ => False end.
Proof.
  intros Hstep. revert s. induction sched as [|[t ts] sched IH]; intros s Hs; [done|]. cbn.
  specialize (Hstep s t ts Hs). destruct (perform code t ts s) as [s'| |f]; [by apply IH|done..].
Qed.

Lemma unfinished_thread (s : state L A N D P) : all_finished code s = false →
  ∃ t p v, threads s !! t = Some (p, v) ∧ match code p with finished => true | _ => false end = false.
Proof.
  unfold all_finished. induction (threads s) as [|[p v] l IH]; [done|]. cbn.
  destruct (match code p with finished => true | _ => false end) eqn:Hp; [|by exists 0%nat, p, v].
  intros (t & q & w & Ht & Hq)%IH. by exists (S t), q, w.
Qed.

(** When, in the states of an invariant, some step decreases a measure as long as
    threads have not finished, a schedule lets all of them finish. *)
Lemma can_finish (inv : state L A N D P → Prop) (measure : state L A N D P → nat) s :
  (∀ s t ts, inv s → match perform code t ts s with next s' => inv s' | impossible => True | undefined _ => False end) →
  (∀ s, inv s → all_finished code s = false → ∃ t ts s', perform code t ts s = next s' ∧ (measure s' < measure s)%nat) →
  inv s → ∃ schedule s', run code schedule s = next s' ∧ all_finished code s' = true ∧ inv s'.
Proof.
  intros Hstep Hadvance. remember (measure s) as k eqn:Hk. revert s Hk.
  induction k as [k IH] using lt_wf_ind. intros s -> Hs.
  destruct (all_finished code s) eqn:Hfin; [by exists [], s|].
  destruct (Hadvance s Hs Hfin) as (t & ts & s1 & Hp & Hlt).
  pose proof (Hstep s t ts Hs) as Hs1. rewrite Hp in Hs1.
  destruct (IH _ Hlt s1 eq_refl Hs1) as (schedule & s' & Hrun & Hend & Hs').
  exists ((t, ts) :: schedule), s'. cbn. by rewrite Hp.
Qed.

Lemma below_refl (v : view L) : below v v.
Proof. by split. Qed.
Lemma below_trans (u v w : view L) : below u v → below v w → below u w.
Proof. intros [H1 H2] [H3 H4]. split; intros i; etrans; eauto. Qed.
Lemma below_join_l (v w : view L) : below v (join v w).
Proof. split; intros i; cbn; lia. Qed.
Lemma below_join_r (v w : view L) : below w (join v w).
Proof. split; intros i; cbn; lia. Qed.
Lemma below_observe l ts (v : view L) : below v (observe l ts v).
Proof. split; intros i; cbn; [destruct (decide _); subst|]; lia. Qed.
Lemma below_tick t (v : view L) : below v (tick t v).
Proof. split; intros i; cbn; [|destruct (decide _); subst]; lia. Qed.

Lemma observe_seen l ts (v : view L) : seen (observe l ts v) l = (seen v l `max` ts)%nat.
Proof. cbn. by rewrite decide_True. Qed.
Lemma observe_other l l' ts (v : view L) : l' ≠ l → seen (observe l ts v) l' = seen v l'.
Proof. intros Hl. cbn. by rewrite decide_False. Qed.

Lemma insert_message_same (h : L → nat → option (message L A)) l ts m : insert_message h l ts m l ts = Some m.
Proof. unfold insert_message. by rewrite decide_True. Qed.
Lemma insert_message_other (h : L → nat → option (message L A)) l ts m l' ts' :
  l' ≠ l ∨ ts' ≠ ts → insert_message h l ts m l' ts' = h l' ts'.
Proof. intros Hne. unfold insert_message. rewrite decide_False; [done|]. intros [-> ->]. by destruct Hne. Qed.

(** What happens before all that the threads have seen. *)
Lemma below_joined (s : state L A N D P) t p v : threads s !! t = Some (p, v) → below v (joined s).
Proof.
  unfold joined. revert t. induction (threads s) as [|th l IH]; intros [|t]; cbn; [done|done|..].
  - intros [= ->]. apply below_join_l.
  - intros Ht. eapply below_trans; [by eapply IH|apply below_join_r].
Qed.
Lemma below_join (u v w : view L) : below u w → below v w → below (join u v) w.
Proof. intros [H1 H2] [H3 H4]. split; intros i; cbn; [specialize (H1 i); specialize (H3 i)|specialize (H2 i); specialize (H4 i)]; lia. Qed.
(** Reading a message. *)
Lemma after_read_limit o (l : L) ts (m : message L A) v lim : below v lim → (ts <= seen lim l)%nat → below (m_view m) lim →
  below (view_after_read o l ts m v) lim.
Proof.
  intros [H1 H2] Hts Hm. assert (below (observe l ts v) lim) as Hv.
  { split; [|apply H2]. intros l'. cbn. specialize (H1 l'). destruct (decide _); subst; lia. }
  unfold view_after_read. destruct (acquires o); [by apply below_join|done].
Qed.
Lemma below_after_read o l ts (m : message L A) v : below v (view_after_read o l ts m v).
Proof.
  unfold view_after_read. destruct (acquires o); [|apply below_observe].
  eapply below_trans; [apply (below_observe l ts)|apply below_join_l].
Qed.
Lemma after_read_seen o l ts (m : message L A) v : (ts <= seen (view_after_read o l ts m v) l)%nat.
Proof.
  unfold view_after_read. pose proof (observe_seen l ts v). destruct (acquires o); [|lia].
  pose proof (proj1 (below_join_l (observe l ts v) (m_view m)) l). lia.
Qed.

Lemma joined_step (s : state L A N D P) (h : L → nat → option (message L A)) (c : N → option (cell D)) t p v p' v' :
  threads s !! t = Some (p, v) → below v v' → below (joined s) (joined (mk_state h c (<[t := (p', v')]> (threads s)))).
Proof.
  unfold joined. cbn [threads]. revert t. induction (threads s) as [|th l IH]; intros [|t]; cbn; [done|done|..].
  - intros [= ->] Hv. apply below_join; [eapply below_trans; [exact Hv|apply below_join_l]|apply below_join_r].
  - intros Ht Hv. apply below_join; [apply below_join_l|]. eapply below_trans; [by eapply IH|apply below_join_r].
Qed.

End Lemmas.

#[export] Hint Resolve below_refl below_join_l below_join_r below_observe below_tick : core.
