(* ===== verification/SpinLocks.v ===== *)
(** algorithms-data-structures/rust/spin-lock and spin-lock-2: a lock that spins on
    a flag, and the two programs in which threads increment a counter under it.
    For every schedule there is no data race, one thread at a time holds the lock,
    and no increment is lost; and the threads can always finish. *)

From S2P Require Import Prelude.
From S2P Require Import Atomics.

(** ** The programs *)

(** The member [lock] of [SpinLock], and the counter behind the [UnsafeCell]. *)
Inductive atomics := lock_flag.
Inductive plain := counter.
#[global] Instance atomics_eq_dec : EqDecision atomics.
Proof. solve_decision. Defined.
#[global] Instance plain_eq_dec : EqDecision plain.
Proof. solve_decision. Defined.

(** Where a thread is: in round [i] of its loop, before the lock, before reading
    the counter, before writing it, and before unlocking; and in [main] after the
    scope. *)
Inductive point :=
  | locking (i : nat)
  | reading (i : nat)
  | writing (i : nat) (x : Z)
  | unlocking (i : nat)
  | ended
  | main_reading
  | main_locking
  | main_guarded
  | main_unlocking (x : Z)
  | printed (x : Z).

Module SpinLock.
(** [while self.lock.swap(true, Acquire) { spin_loop(); }]: it goes on at [k], or
    tries again at [retry]. *)
Definition lock (retry k : point) : operation atomics bool plain Z point :=
  swap lock_flag true Acquire (λ old, if old then retry else k).
Definition unlock (k : point) : operation atomics bool plain Z point :=
  store lock_flag false Release k.
End SpinLock.

(** The same in spin-lock-2, where the lock returns a guard, whose [drop] unlocks. *)
Module LockGuard.
Definition lock := SpinLock.lock.
Definition deref (k : Z → point) : operation atomics bool plain Z point := read counter k.
Definition drop (k : point) : operation atomics bool plain Z point :=
  store lock_flag false Release k.
End LockGuard.

Section Programs.
Context (rounds : nat).

(** The point where round [i] starts, or where the loop ends. *)
Definition round (i : nat) : point := if (i <? rounds)%nat then locking i else ended.

(** The closures of both programs, [*ptr += 1] being a read and a write (which wraps
    around, as without overflow checks), and what
    [main] does after the scope: the first program reads the counter, the second
    locks it. *)
Definition code (p : point) : operation atomics bool plain Z point :=
  match p with
  | locking i => SpinLock.lock (locking i) (reading i)
  | reading i => read counter (writing i)
  | writing i x => write counter (i32 (x + 1)) (unlocking i)
  | unlocking i => SpinLock.unlock (round (i + 1))
  | main_reading => read counter printed
  | main_locking => LockGuard.lock main_locking main_guarded
  | main_guarded => LockGuard.deref main_unlocking
  | main_unlocking x => LockGuard.drop (printed x)
  | ended | printed _ => finished
  end.

#[local] Abbreviation machine := (state atomics bool plain Z point).

(** [SpinLock::new()], the counter with value 0, and [n] spawned threads; the
    initial writes happen before all of them. *)
Definition start (n : nat) : machine :=
  mk_state (λ _ ts, if decide (ts = 0%nat) then Some (mk_message false no_view) else None)
    (λ _, Some (mk_cell (Some 0) (0%nat, 0%nat) (λ _, 0%nat)))
    (replicate n (round 0, no_view)).

(** [main] after the threads are joined. *)
Definition after_scope (p : point) (s : machine) : machine :=
  mk_state (history s) (cells s) (threads s ++ [(p, joined s)]).

(** ** The invariant *)

Definition critical (p : point) : bool :=
  match p with reading _ | writing _ _ | unlocking _ | main_guarded | main_unlocking _ => true | _ => false end.

(** The increments that a thread has made. *)
Definition made (p : point) : nat :=
  match p with
  | locking i | reading i | writing i _ => i
  | unlocking i => S i
  | ended => rounds
  | _ => 0
  end.
Definition total (s : machine) : Z := Z.of_nat (sum_list_with (λ th, made th.1) (threads s)).

(** [critical] points belong to the holder of the lock; a thread that is about to
    write has read the value that is still there. *)
Definition well_placed (p : point) (value : Z) : Prop :=
  match p with
  | locking i | reading i | unlocking i => (i < rounds)%nat
  | writing i x => (i < rounds)%nat ∧ x = value
  | main_unlocking x | printed x => x = value
  | ended | main_locking | main_guarded => True
  | main_reading => False
  end.
Definition is_main (p : point) : bool :=
  match p with main_reading | main_locking | main_guarded | main_unlocking _ | printed _ => true | _ => false end.
Definition is_working (p : point) : bool :=
  match p with locking _ | reading _ | writing _ _ | unlocking _ => true | _ => false end.

(** All accesses to the counter happen before what has the view [v]. *)
Definition cell_before (c : cell Z) (v : view atomics) : Prop :=
  ((c_write c).2 <= clock v (c_write c).1)%nat ∧ ∀ u, (c_reads c u <= clock v u)%nat.

#[local] Abbreviation flag s := (history s lock_flag).

(** The flag, whose last message is at [last].  A message that says unlocked has
    been taken by a swap, which stands directly behind it, unless it is the last
    one and nobody holds the lock; then its view covers the counter.  The holder's
    view covers the counter, and from that view on there is no gap in which an
    unlocking message could be put before the last one. *)
Record flag_inv (s : machine) (h : option nat) (last : nat) (c : cell Z) : Prop := {
  fi_last : is_Some (flag s last);
  fi_above : ∀ ts, (last < ts)%nat → flag s ts = None;
  fi_views : ∀ t p v, threads s !! t = Some (p, v) → (seen v lock_flag <= last)%nat;
  fi_messages : ∀ ts m, flag s ts = Some m → (seen (m_view m) lock_flag <= last)%nat;
  fi_taken : ∀ ts m, flag s ts = Some m → m_value m = false →
    is_Some (flag s (S ts)) ∨ (h = None ∧ ts = last ∧ cell_before c (m_view m));
  fi_free : h = None → ∃ m, flag s last = Some m ∧ m_value m = false;
  fi_held : ∀ t p v, h = Some t → threads s !! t = Some (p, v) →
    cell_before c v ∧ ∀ ts, (seen v lock_flag <= ts <= last)%nat → is_Some (flag s ts);
  fi_joined : cell_before c (joined s);
}.

Record inv (s : machine) (h : option nat) (last : nat) (c : cell Z) (value : Z) : Prop := {
  inv_flag : flag_inv s h last c;
  inv_cell : cells s counter = Some c;
  inv_value : c_value c = Some value ∧ value = i32 (total s);
  inv_holder : ∀ t p v, threads s !! t = Some (p, v) → critical p = true ↔ h = Some t;
  inv_points : ∀ t p v, threads s !! t = Some (p, v) → well_placed p value;
  inv_exists : ∀ t, h = Some t → is_Some (threads s !! t);
  inv_main : ∀ t p v t' p' v', threads s !! t = Some (p, v) → threads s !! t' = Some (p', v') →
    is_main p = true → is_working p' = false;
}.

Lemma cell_before_mono c v w : cell_before c v → below v w → cell_before c w.
Proof.
  intros [Hw Hr] [_ Hc]. split; [|intros u; specialize (Hr u)]; (etrans; [eassumption|apply Hc]).
Qed.

Lemma start_inv n : inv (start n) None 0 (mk_cell (Some 0) (0%nat, 0%nat) (λ _, 0%nat)) 0.
Proof.
  assert (∀ t p v, threads (start n) !! t = Some (p, v) → p = round 0 ∧ v = no_view) as Hth.
  { intros t p v Ht. apply lookup_replicate in Ht as [[= -> ->] _]. done. }
  split.
  - split; cbn.
    + by rewrite decide_True.
    + intros ts Hts. by rewrite decide_False by lia.
    + by intros t p v [_ ->]%Hth.
    + intros ts m. destruct (decide _); [|done]. by intros [= <-].
    + intros ts m. destruct (decide (ts = 0)%nat) as [->|]; [|done]. intros [= <-] _. right. by split_and!; [..|split].
    + intros _. rewrite decide_True by done. by eexists.
    + done.
    + split; cbn; [lia|]. intros u. lia.
  - done.
  - split; [done|]. unfold total. cbn [threads start].
    assert (sum_list_with (λ th, made th.1) (replicate n (round 0, no_view (L := atomics))) = 0%nat) as ->; [|done].
    induction n as [|n IH]; [done|]. cbn. rewrite IH by (intros t p v Ht; apply lookup_replicate in Ht as [[= -> ->] _]; done).
    unfold round. destruct (0 <? rounds)%nat eqn:E; cbn; [done|]. apply Nat.ltb_ge in E. lia.
  - intros t p v [-> _]%Hth. unfold round. destruct (_ <? _)%nat; cbn; split; done.
  - intros t p v [-> _]%Hth. unfold round. destruct (_ <? _)%nat eqn:Hr; [by apply Nat.ltb_lt in Hr|done].
  - done.
  - intros t p v t' p' v' [-> _]%Hth _. unfold round. by destruct (_ <? _)%nat.
Qed.

(** ** Steps of the lock *)

#[local] Abbreviation moved s t p v := (<[t := (p, v)]> (threads s)).

Lemma lookup_moved (s : machine) t q w t' p v :
  moved s t q w !! t' = Some (p, v) → (t' = t ∧ p = q ∧ v = w) ∨ (t' ≠ t ∧ threads s !! t' = Some (p, v)).
Proof.
  intros [(<- & [= <- <-] & _)|(Hne & Hq)]%list_lookup_insert_Some; [by left|by right].
Qed.

(** The view of a thread after a swap that has read the message [m] at [ts]. *)
Definition swapped (ts : nat) (m : message atomics bool) (v : view atomics) : view atomics :=
  observe lock_flag (S ts) (view_after_read Acquire lock_flag ts m v).
Definition swap_message (ts : nat) (m : message atomics bool) (v : view atomics) : message atomics bool :=
  mk_message true (join (m_view m) (released Acquire lock_flag (S ts) (swapped ts m v))).

Lemma swapped_seen ts m v : (seen v lock_flag <= ts)%nat →
  seen (swapped ts m v) lock_flag = (seen (m_view m) lock_flag `max` S ts)%nat.
Proof.
  intros Hv. unfold swapped, view_after_read. rewrite observe_seen.
  cbn [acquires]. unfold join. cbn [seen]. rewrite observe_seen. lia.
Qed.
Lemma swap_message_seen ts m v :
  seen (m_view (swap_message ts m v)) lock_flag = (seen (m_view m) lock_flag `max` S ts)%nat.
Proof.
  unfold swap_message, released, join. cbn [m_view releases seen]. rewrite observe_seen. cbn. lia.
Qed.
Lemma below_swapped ts m v : below v (swapped ts m v) ∧ below (m_view m) (swapped ts m v).
Proof.
  split; (eapply below_trans; [|apply below_observe]); cbn; [|apply below_join_r].
  eapply below_trans; [apply (below_observe lock_flag ts)|apply below_join_l].
Qed.

Section Step.
Context (s : machine) (h : option nat) (last : nat) (c : cell Z) (Hinv : flag_inv s h last c).
Context (t : nat) (p p' : point) (v : view atomics) (Ht : threads s !! t = Some (p, v)).

Lemma swap_busy ts m :
  h ≠ Some t → flag s ts = Some m → m_value m = true → flag s (S ts) = None → (seen v lock_flag <= ts)%nat →
  flag_inv (mk_state (insert_message (history s) lock_flag (S ts) (swap_message ts m v)) (cells s)
    (moved s t p' (swapped ts m v))) h (last `max` S ts) c.
Proof.
  intros Hh Hm Htrue Hfree Hv. destruct Hinv as [F1 F2 F3 F4 F5 F6 F7 F8].
  assert (ts <= last)%nat as Hts by (destruct (decide (last < ts)%nat) as [Hlt|]; [by rewrite F2 in Hm|lia]).
  pose proof (F4 _ _ Hm) as Hmv.
  split; cbn [history cells threads].
  - destruct (decide (last < S ts)%nat).
    + rewrite Nat.max_r by lia. rewrite insert_message_same. done.
    + rewrite Nat.max_l by lia. rewrite insert_message_other; [done|right]. intros ->. rewrite Hfree in F1. by destruct F1.
  - intros ts' Hts'. rewrite insert_message_other by (right; lia). apply F2. lia.
  - intros t' q w [(-> & -> & ->)|(Hne & Hq)]%lookup_moved.
    + rewrite swapped_seen by done. lia.
    + specialize (F3 _ _ _ Hq). lia.
  - intros ts' m'. unfold insert_message. destruct (decide _) as [[_ ->]|].
    + intros [= <-]. rewrite swap_message_seen. lia.
    + intros Hm'. specialize (F4 _ _ Hm'). lia.
  - intros ts' m'. unfold insert_message at 1. destruct (decide _) as [[_ ->]|]; [by intros [= <-]|].
    intros Hm' Hf. destruct (F5 _ _ Hm' Hf) as [Hs|(-> & -> & Hc)].
    + left. unfold insert_message. by destruct (decide _).
    + right. split; [done|]. split; [|done]. destruct (decide (S ts <= last)%nat); [lia|].
      assert (ts = last) as -> by lia. rewrite Hm in Hm'. injection Hm' as <-. by rewrite Htrue in Hf.
  - intros ->. destruct (F6 eq_refl) as (m0 & Hm0 & Hf). assert (ts ≠ last) as Hne by (intros ->; congruence).
    assert (S ts ≠ last) by (intros <-; congruence). exists m0. rewrite Nat.max_l by lia.
    rewrite insert_message_other by (right; lia). done.
  - intros t' q w -> [(-> & -> & ->)|(Hne & Hq)]%lookup_moved; [done|].
    destruct (F7 _ _ _ eq_refl Hq) as [Hc Hgap]. split; [done|]. intros ts' Hts'.
    unfold insert_message. destruct (decide _) as [|Hn]; [done|]. apply Hgap. assert (ts' ≠ S ts) by naive_solver. lia.
  - eapply cell_before_mono; [exact F8|]. eapply joined_step; [exact Ht|apply below_swapped].
Qed.

Lemma swap_acquires ts m :
  flag s ts = Some m → m_value m = false → flag s (S ts) = None → (seen v lock_flag <= ts)%nat →
  h = None ∧ flag_inv (mk_state (insert_message (history s) lock_flag (S ts) (swap_message ts m v)) (cells s)
    (moved s t p' (swapped ts m v))) (Some t) (S last) c.
Proof.
  intros Hm Hfalse Hfree Hv. destruct Hinv as [F1 F2 F3 F4 F5 F6 F7 F8].
  destruct (F5 _ _ Hm Hfalse) as [Hs|(-> & -> & Hc)]; [rewrite Hfree in Hs; by destruct Hs|]. split; [done|].
  pose proof (F4 _ _ Hm) as Hmv.
  split; cbn [history cells threads].
  - by rewrite insert_message_same.
  - intros ts' Hts'. rewrite insert_message_other by (right; lia). apply F2. lia.
  - intros t' q w [(-> & -> & ->)|(Hne & Hq)]%lookup_moved.
    + rewrite swapped_seen by done. lia.
    + specialize (F3 _ _ _ Hq). lia.
  - intros ts' m'. unfold insert_message. destruct (decide _) as [[_ ->]|].
    + intros [= <-]. rewrite swap_message_seen. lia.
    + intros Hm'. specialize (F4 _ _ Hm'). lia.
  - intros ts' m'. unfold insert_message at 1. destruct (decide _) as [[_ ->]|]; [by intros [= <-]|].
    intros Hm' Hf. left. unfold insert_message. destruct (decide _) as [|Hne]; [done|].
    destruct (F5 _ _ Hm' Hf) as [Hs|(_ & -> & _)]; [done|]. destruct Hne. done.
  - done.
  - intros t' q w [= <-] [(_ & -> & ->)|(Hne & Hq)]%lookup_moved; [|done].
    split; [eapply cell_before_mono; [exact Hc|apply below_swapped]|].
    intros ts'. rewrite swapped_seen by done. intros Hts'. assert (ts' = S last) as -> by lia.
    by rewrite insert_message_same.
  - eapply cell_before_mono; [exact F8|]. eapply joined_step; [exact Ht|apply below_swapped].
Qed.

Lemma unlocks ts :
  h = Some t → flag s ts = None → (seen v lock_flag < ts)%nat →
  flag_inv (mk_state (insert_message (history s) lock_flag ts (mk_message false (observe lock_flag ts v))) (cells s)
    (moved s t p' (observe lock_flag ts v))) None ts c.
Proof.
  intros -> Hfree Hv. destruct Hinv as [F1 F2 F3 F4 F5 F6 F7 F8].
  destruct (F7 _ _ _ eq_refl Ht) as [Hc Hgap].
  assert (last < ts)%nat as Hlast.
  { destruct (decide (last < ts)%nat); [done|]. destruct (Hgap ts) as [m Hm]; [lia|]. by rewrite Hfree in Hm. }
  assert (cell_before c (observe lock_flag ts v)) as Hc' by (eapply cell_before_mono; [exact Hc|apply below_observe]).
  split; cbn [history cells threads].
  - by rewrite insert_message_same.
  - intros ts' Hts'. rewrite insert_message_other by (right; lia). apply F2. lia.
  - intros t' q w [(-> & -> & ->)|(Hne & Hq)]%lookup_moved.
    + rewrite observe_seen. lia.
    + specialize (F3 _ _ _ Hq). lia.
  - intros ts' m'. unfold insert_message. destruct (decide _) as [[_ ->]|].
    + intros [= <-]. cbn [m_view]. rewrite observe_seen. lia.
    + intros Hm'. specialize (F4 _ _ Hm'). lia.
  - intros ts' m'. unfold insert_message at 1. destruct (decide _) as [[_ ->]|].
    + intros [= <-] _. by right.
    + intros Hm' Hf. left. unfold insert_message. destruct (decide _) as [|Hne]; [done|].
      by destruct (F5 _ _ Hm' Hf) as [Hs|(? & _)].
  - intros _. rewrite insert_message_same. by eexists.
  - done.
  - eapply cell_before_mono; [exact F8|]. eapply joined_step; [done|apply below_observe].
Qed.

(** The holder reads or writes the counter. *)
Lemma accesses c' cells' :
  h = Some t → (∀ w, below (tick t v) w → cell_before c' w) →
  flag_inv (mk_state (history s) cells' (moved s t p' (tick t v))) h last c'.
Proof.
  intros -> Hc'. destruct Hinv as [F1 F2 F3 F4 F5 F6 F7 F8]. pose proof (lookup_lt_Some _ _ _ Ht) as Hlt.
  split; cbn [history cells threads]; try done.
  - intros t' q w [(-> & -> & ->)|(Hne & Hq)]%lookup_moved; [exact (F3 t p v Ht)|exact (F3 t' q w Hq)].
  - intros ts m Hm Hf. by destruct (F5 _ _ Hm Hf) as [Hs|(? & _)]; [left|].
  - intros t' q w [= <-] [(_ & -> & ->)|(Hne & Hq)]%lookup_moved; [|done].
    destruct (F7 _ _ _ eq_refl Ht) as [_ Hgap]. split; [apply Hc', below_refl|done].
  - apply Hc'. eapply (below_joined (mk_state (history s) cells' (moved s t p' (tick t v))) t).
    cbn [threads]. rewrite list_lookup_insert. by rewrite decide_True.
Qed.

End Step.
(** ** Steps of the programs *)

Lemma sum_insert {A} (f : A → nat) l t x y : l !! t = Some x →
  (sum_list_with f (<[t := y]> l) + f x = sum_list_with f l + f y)%nat.
Proof.
  revert t. induction l as [|z l IH]; intros [|t] Ht; [done|done|..].
  - injection Ht as ->. change (<[0%nat := y]> (x :: l)) with (y :: l). cbn [sum_list_with]. lia.
  - change (<[S t := y]> (z :: l)) with (z :: <[t := y]> l). cbn [sum_list_with]. specialize (IH t Ht). lia.
Qed.

Lemma total_moved s hist cs t p v p' v' :
  threads s !! t = Some (p, v) →
  total (mk_state hist cs (moved s t p' v')) + Z.of_nat (made p) = total s + Z.of_nat (made p').
Proof.
  intros Ht. unfold total. cbn [threads].
  pose proof (sum_insert (λ th, made th.1) _ _ _ (p', v') Ht) as Hsum. cbn [fst] in Hsum. lia.
Qed.

Lemma same_total s hist cs t p v p' v' :
  threads s !! t = Some (p, v) → made p' = made p → total s = total (mk_state hist cs (moved s t p' v')).
Proof. intros Ht Hm. pose proof (total_moved s hist cs t p v p' v' Ht). rewrite Hm in *. lia. Qed.

Lemma i32_succ z : i32 (i32 z + 1) = i32 (z + 1).
Proof.
  unfold i32. f_equal. replace ((z + 2 ^ 31) mod 2 ^ 32 - 2 ^ 31 + 1 + 2 ^ 31) with ((z + 2 ^ 31) mod 2 ^ 32 + 1) by lia.
  rewrite Zplus_mod_idemp_l. f_equal. lia.
Qed.

(** How the invariant of the threads follows from the one of the flag when thread
    [t] goes from [p] to [p']. *)
Lemma inv_moved s s' h h' last last' c c' value value' t p v p' v' :
  inv s h last c value → threads s !! t = Some (p, v) → threads s' = moved s t p' v' →
  flag_inv s' h' last' c' → cells s' counter = Some c' →
  c_value c' = Some value' → value' = i32 (total s') →
  value' = value ∨ (is_working p = true ∧ h = Some t) →
  (critical p' = true ↔ h' = Some t) → (∀ t', t' ≠ t → h = Some t' ↔ h' = Some t') →
  well_placed p' value' → is_main p' = is_main p → (is_working p' = true → is_working p = true) →
  inv s' h' last' c' value'.
Proof.
  intros [Hf Hcell Hval Hcrit Hwell Hex Hmain] Ht Hs Hf' Hcell' Hc' Hv' Hsame Hp' Hothers Hw' Hm' Hk'.
  split; try done; rewrite Hs.
  - intros t' q w [(-> & -> & ->)|(Hne & Hq)]%lookup_moved; [done|]. rewrite (Hcrit _ _ _ Hq). by apply Hothers.
  - intros t' q w [(-> & -> & ->)|(Hne & Hq)]%lookup_moved; [done|].
    destruct Hsame as [->|[Hwork ->]]; [by eapply Hwell|].
    pose proof (Hwell _ _ _ Hq) as Hq'. pose proof (Hmain _ _ _ _ _ _ Hq Ht) as Hqm. pose proof (Hcrit _ _ _ Hq) as Hqc.
    rewrite Hwork in Hqm.
    assert (critical q = false) as Hn.
    { destruct (critical q); [|done]. destruct Hqc as [Hqc _]. specialize (Hqc eq_refl). by injection Hqc as ->. }
    destruct q; try done. by specialize (Hqm eq_refl).
  - intros t' Hh. destruct (decide (t' = t)) as [->|Hne].
    + rewrite list_lookup_insert_eq by (by eapply lookup_lt_Some). by eexists.
    + rewrite list_lookup_insert_ne by done. apply Hex. by apply Hothers.
  - intros t1 q1 w1 t2 q2 w2 [(-> & -> & ->)|(Hne1 & Hq1)]%lookup_moved [(-> & -> & ->)|(Hne2 & Hq2)]%lookup_moved Hq;
      [..|exact (Hmain _ _ _ _ _ _ Hq1 Hq2 Hq)].
    + by destruct p'; cbn in Hq |- *.
    + rewrite Hm' in Hq. exact (Hmain _ _ _ _ _ _ Ht Hq2 Hq).
    + pose proof (Hmain _ _ _ _ _ _ Hq1 Ht Hq) as Hn. destruct (is_working p') eqn:E; [|done].
      rewrite Hk' in Hn by done. done.
Qed.

Definition progresses (s : machine) (r : result machine) : Prop :=
  match r with
  | next s' => ∃ h last c value, inv s' h last c value
  | impossible => True
  | undefined _ => False
  end.

Ltac others := intros t' Hne; split; (intros [= ->] || done); by destruct Hne.

(** A thread that tries to lock goes on at [k] with the lock, or tries again. *)
Lemma lock_step s h last c value t ts p v k :
  inv s h last c value → threads s !! t = Some (p, v) → code p = SpinLock.lock p k →
  critical p = false → critical k = true → well_placed k value → is_main k = is_main p →
  (is_working k = true → is_working p = true) → made k = made p →
  progresses s (perform code t ts s).
Proof.
  intros Hi Ht Hcode Hp Hk Hwk Hmk Hkk Hmade. unfold perform. rewrite Ht, Hcode. unfold SpinLock.lock.
  destruct (flag s ts) as [m|] eqn:Hm; [|done]. destruct (flag s (S ts)) eqn:Hfree; [done|].
  destruct (bool_decide _) eqn:Hv; [|done]. apply bool_decide_eq_true in Hv.
  pose proof Hi as [Hf Hcell [Hval Htot] Hcrit Hwell _ Hmain].
  pose proof (Hcrit _ _ _ Ht) as Hnc. rewrite Hp in Hnc.
  fold (swapped ts m v). fold (swap_message ts m v). cbn [progresses].
  destruct (m_value m) eqn:Hmv.
  - eexists h, _, c, value. eapply inv_moved; [exact Hi|exact Ht|reflexivity| |exact Hcell|exact Hval| |by left|by rewrite Hp| |
      by eapply Hwell|done|done].
    + apply (swap_busy s h last c Hf t p p v Ht); try done. intros Hh. by apply Hnc in Hh.
    + rewrite Htot at 1. f_equal. by apply (same_total s _ _ t p v).
    + done.
  - destruct (swap_acquires s h last c Hf t p k v Ht ts m Hm Hmv Hfree Hv) as [-> Hf'].
    eexists (Some t), _, c, value. eapply inv_moved; [exact Hi|exact Ht|reflexivity|exact Hf'|exact Hcell|exact Hval| |by left| | |
      done|done|done].
    + rewrite Htot at 1. f_equal. by apply (same_total s _ _ t p v).
    + by rewrite Hk.
    + others.
Qed.

(** The holder reads the counter, writes it, and unlocks. *)
Lemma read_step s h last c value t ts p v k :
  inv s h last c value → threads s !! t = Some (p, v) → code p = read counter k →
  critical p = true → critical (k value) = true → well_placed (k value) value → is_main (k value) = is_main p →
  (is_working (k value) = true → is_working p = true) → made (k value) = made p →
  progresses s (perform code t ts s).
Proof.
  intros Hi Ht Hcode Hp Hk Hwk Hmk Hkk Hmade. unfold perform. rewrite Ht, Hcode.
  pose proof Hi as [Hf Hcell [Hval Htot] Hcrit Hwell _ Hmain]. rewrite Hcell.
  apply (Hcrit _ _ _ Ht) in Hp as ->. destruct (fi_held _ _ _ _ Hf _ _ _ eq_refl Ht) as [[Hw Hr] Hgap].
  unfold write_before. rewrite bool_decide_true by done. rewrite Hval. cbn [progresses].
  exists (Some t), last, (mk_cell (Some value) (c_write c) (λ u, if decide (u = t) then clock (tick t v) t else c_reads c u)), value.
  eapply inv_moved; [exact Hi|exact Ht|reflexivity| | |reflexivity| |by left|by rewrite Hk|done|done|done|done].
  - apply (accesses s (Some t) last c Hf t p _ v Ht); [done|]. intros w [_ Hclock].
    assert (∀ u, (clock v u <= clock (tick t v) u)%nat) as Htick by (intros u; apply (below_tick t v)).
    split; cbn [c_write c_reads].
    + specialize (Hclock (c_write c).1). specialize (Htick (c_write c).1). lia.
    + intros u. specialize (Hclock u). specialize (Htick u). specialize (Hr u). destruct (decide (u = t)) as [->|]; lia.
  - cbn [cells]. unfold insert_cell. by rewrite decide_True.
  - rewrite Htot at 1. f_equal. by apply (same_total s _ _ t p v).
Qed.

Lemma write_step s h last c value t ts i x v :
  inv s h last c value → threads s !! t = Some (writing i x, v) → progresses s (perform code t ts s).
Proof.
  intros Hi Ht. unfold perform. rewrite Ht. cbn [code].
  pose proof Hi as [Hf Hcell [Hval Htot] Hcrit Hwell _ Hmain]. rewrite Hcell.
  pose proof (proj1 (Hcrit _ _ _ Ht) eq_refl) as ->. destruct (fi_held _ _ _ _ Hf _ _ _ eq_refl Ht) as [[Hw Hr] Hgap].
  destruct (Hwell _ _ _ Ht) as [Hi' ->].
  assert (write_before c v && reads_before (length (threads s)) c v = true) as ->.
  { unfold write_before, reads_before. rewrite bool_decide_true by done. cbn [andb]. apply forallb_forall.
    intros u _. by apply bool_decide_eq_true. }
  cbn [progresses].
  exists (Some t), last, (mk_cell (Some (i32 (value + 1))) (t, clock (tick t v) t) (λ _, 0%nat)), (i32 (value + 1)).
  eapply inv_moved; [exact Hi|exact Ht|reflexivity| | |reflexivity| |by right| |done|exact Hi'|done|done].
  - apply (accesses s (Some t) last c Hf t (writing i value) _ v Ht); [done|]. intros w [_ Hclock].
    split; cbn [c_write c_reads]; [apply Hclock|intros u; lia].
  - cbn [cells]. unfold insert_cell. by rewrite decide_True.
  - pose proof (total_moved s (history s) (insert_cell (cells s) counter (mk_cell (Some (i32 (value + 1)))
      (t, clock (tick t v) t) (λ _, 0%nat))) t _ v (unlocking i) (tick t v) Ht) as Hmv.
    cbn [made] in Hmv. rewrite Htot at 1. rewrite i32_succ. f_equal. lia.
  - by split.
Qed.

Lemma unlock_step s h last c value t ts p v k :
  inv s h last c value → threads s !! t = Some (p, v) → code p = store lock_flag false Release k →
  critical p = true → critical k = false → well_placed k value → is_main k = is_main p →
  (is_working k = true → is_working p = true) → made k = made p →
  progresses s (perform code t ts s).
Proof.
  intros Hi Ht Hcode Hp Hk Hwk Hmk Hkk Hmade. unfold perform. rewrite Ht, Hcode.
  destruct (flag s ts) as [m|] eqn:Hm; [done|].
  destruct (bool_decide _) eqn:Hv; [|done]. apply bool_decide_eq_true in Hv.
  pose proof Hi as [Hf Hcell [Hval Htot] Hcrit Hwell _ Hmain].
  apply (Hcrit _ _ _ Ht) in Hp as ->. cbn [progresses released releases].
  eexists None, ts, c, value. eapply inv_moved; [exact Hi|exact Ht|reflexivity| |exact Hcell|exact Hval| |by left| | |done|done|done].
  - by apply (unlocks s (Some t) last c Hf t p k v Ht ts).
  - rewrite Htot at 1. f_equal. by apply (same_total s _ _ t p v).
  - by rewrite Hk.
  - others.
Qed.

Lemma step_inv s h last c value t ts : inv s h last c value → progresses s (perform code t ts s).
Proof.
  intros Hi. destruct (threads s !! t) as [[p v]|] eqn:Ht; [|unfold perform; by rewrite Ht].
  pose proof (inv_points _ _ _ _ _ Hi _ _ _ Ht) as Hp.
  destruct p as [i|i|i x|i| | | | |x|x]; cbn [well_placed] in Hp.
  - by apply (lock_step s h last c value t ts (locking i) v (reading i)).
  - by apply (read_step s h last c value t ts (reading i) v (writing i)).
  - by eapply write_step.
  - apply (unlock_step s h last c value t ts (unlocking i) v (round (i + 1))); try done; unfold round;
      (destruct (i + 1 <? rounds)%nat eqn:Hr; [apply Nat.ltb_lt in Hr|apply Nat.ltb_ge in Hr]; cbn; [try done|try done]).
    all: lia.
  - unfold perform. by rewrite Ht.
  - done.
  - by apply (lock_step s h last c value t ts main_locking v main_guarded).
  - by apply (read_step s h last c value t ts main_guarded v main_unlocking).
  - by apply (unlock_step s h last c value t ts (main_unlocking x) v (printed x)).
  - unfold perform. by rewrite Ht.
Qed.

(** ** After the scope *)

Lemma perform_moves t ts s s' : perform code t ts s = next s' →
  ∃ p v p' v', threads s !! t = Some (p, v) ∧ threads s' = moved s t p' v' ∧ is_main p' = is_main p ∧
    (is_working p = false → made p' = made p ∧ is_working p' = false).
Proof.
  unfold perform. destruct (threads s !! t) as [[p v]|]; [|done]. intros Hs. exists p, v.
  destruct p as [i|i|i x|i| | | | |x|x]; cbn in Hs; unfold SpinLock.lock, SpinLock.unlock, LockGuard.lock, LockGuard.deref,
    LockGuard.drop in Hs; repeat case_match; simplify_eq; eexists _, _; (split; [reflexivity|]);
    (split; [reflexivity|]); unfold round; repeat case_match; done.
Qed.

Lemma finished_threads s h last c value :
  inv s h last c value → all_finished code s = true →
  (∀ t p v, threads s !! t = Some (p, v) → is_main p = false) →
  h = None ∧ total s = Z.of_nat (length (threads s) * rounds) ∧
  (∀ t p v, threads s !! t = Some (p, v) → p = ended).
Proof.
  intros Hi Hfin Hmain.
  assert (∀ t p v, threads s !! t = Some (p, v) → p = ended) as Hend.
  { intros t p v Ht. pose proof (Hmain _ _ _ Ht). unfold all_finished in Hfin.
    rewrite forallb_forall in Hfin. specialize (Hfin (p, v)). cbn [fst] in Hfin.
    assert (In (p, v) (threads s)) as Hin by (by apply list_elem_of_In, (list_elem_of_lookup_2 _ t)).
    specialize (Hfin Hin). by destruct p. }
  split_and!; [|..|done].
  - destruct h as [t|]; [|done]. destruct (inv_exists _ _ _ _ _ Hi t eq_refl) as [[p v] Ht].
    pose proof (proj2 (inv_holder _ _ _ _ _ Hi _ _ _ Ht) eq_refl) as Hc. by rewrite (Hend _ _ _ Ht) in Hc.
  - unfold total. f_equal. clear Hi Hfin Hmain. induction (threads s) as [|[p v] l IH]; [done|].
    cbn. rewrite IH by (intros t; apply (Hend (S t))). by rewrite (Hend 0%nat p v eq_refl).
Qed.

Lemma joined_seen (s : machine) last :
  (∀ t p v, threads s !! t = Some (p, v) → (seen v lock_flag <= last)%nat) → (seen (joined s) lock_flag <= last)%nat.
Proof.
  unfold joined. induction (threads s) as [|[p v] l IH]; intros Hv; cbn; [lia|].
  pose proof (Hv 0%nat p v eq_refl) as H0. specialize (IH (λ t, Hv (S t))). lia.
Qed.

(** [main] joins the threads' views and takes part as one more thread. *)
Lemma after_scope_inv s last c value :
  inv s None last c value → (∀ t p v, threads s !! t = Some (p, v) → p = ended) →
  inv (after_scope main_locking s) None last c value.
Proof.
  intros [[F1 F2 F3 F4 F5 F6 F7 F8] Hcell [Hval Htot] Hcrit Hwell Hex Hmain] Hend.
  assert (∀ t p v, threads (after_scope main_locking s) !! t = Some (p, v) →
    threads s !! t = Some (p, v) ∨ (p = main_locking ∧ v = joined s)) as Hth.
  { intros t p v Ht. cbn [after_scope threads] in Ht. apply lookup_app_Some in Ht as [Ht|[_ Ht]]; [by left|].
    apply list_lookup_singleton_Some in Ht as [_ [= -> ->]]. by right. }
  split.
  - split; try done.
    + intros t p v [Ht|[-> ->]]%Hth; [by eapply F3|]. by apply joined_seen.
    + eapply cell_before_mono; [exact F8|]. apply (below_joined _ (length (threads s)) main_locking).
      cbn [after_scope threads]. by rewrite lookup_app_r, Nat.sub_diag by lia.
  - done.
  - split; [done|]. rewrite Htot. f_equal. unfold total. cbn [after_scope threads].
    rewrite sum_list_with_app. cbn. lia.
  - intros t p v [Ht|[-> ->]]%Hth; [by eapply Hcrit|done].
  - intros t p v [Ht|[-> ->]]%Hth; [by eapply Hwell|done].
  - done.
  - intros t p v t' p' v' _ [->%Hend|[-> _]]%Hth _; done.
Qed.

(** What every state of the scope, with [n] threads, satisfies. *)
Definition scope_inv (n : nat) (s : machine) : Prop :=
  (∃ h last c value, inv s h last c value) ∧ length (threads s) = n ∧
  ∀ t p v, threads s !! t = Some (p, v) → is_main p = false.

Lemma scope_step n s t ts : scope_inv n s →
  match perform code t ts s with next s' => scope_inv n s' | impossible => True | undefined _ => False end.
Proof.
  intros [(h & last & c & value & Hi) [Hn Hmain]]. pose proof (step_inv s h last c value t ts Hi) as Hp.
  destruct (perform code t ts s) as [s'| |f] eqn:E; [|done|done]. split; [exact Hp|].
  destruct (perform_moves _ _ _ _ E) as (p & v & p' & v' & Ht & Hs & Hm & _). rewrite Hs. split.
  - by rewrite length_insert.
  - intros t' q w [(-> & -> & ->)|(Hne & Hq)]%lookup_moved; [|by eapply Hmain]. rewrite Hm. by eapply Hmain.
Qed.

Lemma start_scope n : scope_inv n (start n).
Proof.
  split; [|split].
  - eexists _, _, _, _. apply start_inv.
  - cbn. apply length_replicate.
  - intros t p v Ht. apply lookup_replicate in Ht as [[= -> ->] _]. unfold round. by destruct (_ <? _)%nat.
Qed.

(** The states of [main] after a scope whose threads have made [k] increments. *)
Definition main_inv (k : Z) (s : machine) : Prop :=
  (∃ h last c value, inv s h last c value) ∧ total s = k ∧
  ∀ t p v, threads s !! t = Some (p, v) → is_working p = false.

Lemma main_step k s t ts : main_inv k s →
  match perform code t ts s with next s' => main_inv k s' | impossible => True | undefined _ => False end.
Proof.
  intros [(h & last & c & value & Hi) [Hk Hwork]]. pose proof (step_inv s h last c value t ts Hi) as Hp.
  destruct (perform code t ts s) as [s'| |f] eqn:E; [|done|done]. split; [exact Hp|].
  destruct (perform_moves _ _ _ _ E) as (p & v & p' & v' & Ht & Hs & Hm & Hmade).
  destruct (Hmade (Hwork _ _ _ Ht)) as [Hsame Hidle]. split.
  - pose proof (same_total s (history s') (cells s') t p v p' v' Ht Hsame) as Htot. rewrite <-Hs in Htot.
    destruct s'. cbn in Htot. by rewrite <-Htot.
  - rewrite Hs. intros t' q w [(-> & -> & ->)|(Hne & Hq)]%lookup_moved; [done|by eapply Hwork].
Qed.

Lemma after_scope_main n s last c value :
  inv s None last c value → total s = Z.of_nat n → (∀ t p v, threads s !! t = Some (p, v) → p = ended) →
  main_inv (Z.of_nat n) (after_scope main_locking s).
Proof.
  intros Hi Htot Hend. split; [eexists _, _, _, _; by eapply after_scope_inv|]. split.
  - rewrite <-Htot. unfold total. cbn [after_scope threads]. rewrite sum_list_with_app. cbn. lia.
  - intros t p v Ht. cbn [after_scope threads] in Ht. apply lookup_app_Some in Ht as [Ht|[_ Ht]].
    + by rewrite (Hend _ _ _ Ht).
    + by apply list_lookup_singleton_Some in Ht as [_ [= <- _]].
Qed.

Definition in_section (s : machine) (t : nat) : Prop := ∃ p v, threads s !! t = Some (p, v) ∧ critical p = true.

(** C14. For every schedule, with any number of threads and rounds: nothing is
    undefined, in particular there is no data race; at most one thread is between
    [lock] and [unlock]; and after the scope [main] prints the number of all
    increments, in the first program by reading the counter without the lock, in
    the second one by locking it. *)
Theorem spin_locks_exclude n schedule :
  match run code schedule (start n) with
  | next s =>
      (∀ t t', in_section s t → in_section s t' → t = t') ∧
      (all_finished code s = true →
        (∃ s' v, perform code n 0 (after_scope main_reading s) = next s' ∧
           threads s' !! n = Some (printed (i32 (Z.of_nat (n * rounds))), v)) ∧
        ∀ schedule', match run code schedule' (after_scope main_locking s) with
          | next s' => ∀ x v, threads s' !! n = Some (printed x, v) → x = i32 (Z.of_nat (n * rounds))
          | impossible => True
          | undefined _ => False
          end)
  | impossible => True
  | undefined _ => False
  end.
Proof.
  pose proof (run_invariant code (scope_inv n) schedule (start n) (scope_step n) (start_scope n)) as Hrun.
  destruct (run code schedule (start n)) as [s| |f]; [|done|done].
  destruct Hrun as [(h & last & c & value & Hi) [Hn Hmain]]. split.
  { intros t t' (p & v & Ht & Hp) (p' & v' & Ht' & Hp').
    apply (inv_holder _ _ _ _ _ Hi _ _ _ Ht) in Hp. apply (inv_holder _ _ _ _ _ Hi _ _ _ Ht') in Hp'. congruence. }
  intros Hfin. destruct (finished_threads _ _ _ _ _ Hi Hfin Hmain) as (-> & Htot & Hend). rewrite Hn in Htot. split.
  - pose proof Hi as [Hf Hcell [Hval Hv] _ _ _ _]. unfold perform. cbn [after_scope threads history cells].
    rewrite lookup_app_r, <-Hn, Nat.sub_diag by lia. cbn. rewrite Hcell.
    unfold write_before. rewrite bool_decide_true by apply (fi_joined _ _ _ _ Hf). rewrite Hval.
    eexists _, _. split; [reflexivity|]. cbn [threads].
    rewrite list_lookup_insert_eq by (rewrite length_app; cbn; lia). by rewrite Hv, Htot, Hn.
  - intros schedule'. pose proof (run_invariant code (main_inv (Z.of_nat (n * rounds))) schedule'
      (after_scope main_locking s) (main_step _) (after_scope_main _ _ _ _ _ Hi Htot Hend)) as Hrun.
    destruct (run code schedule' (after_scope main_locking s)) as [s'| |f]; [|done|done].
    destruct Hrun as [(h & last' & c' & value' & Hi') [Hk _]].
    intros x v Hx. pose proof (inv_points _ _ _ _ _ Hi' _ _ _ Hx) as Hp. cbn in Hp.
    pose proof (inv_value _ _ _ _ _ Hi') as [_ Hv']. by rewrite Hp, Hv', Hk.
Qed.

(** ** Progress *)

(** The operations that a thread has left, if it never spins. *)
Definition work (p : point) : nat :=
  match p with
  | locking i => 4 * (rounds - i)
  | reading i => 4 * (rounds - i) - 1
  | writing i _ => 4 * (rounds - i) - 2
  | unlocking i => 4 * (rounds - i) - 3
  | main_locking => 3
  | main_guarded => 2
  | main_unlocking _ | main_reading => 1
  | ended | printed _ => 0
  end.
Definition works (s : machine) : nat := sum_list_with (λ th, work th.1) (threads s).

Lemma works_moved s hist cs t p v p' v' : threads s !! t = Some (p, v) → (work p' < work p)%nat →
  (works (mk_state hist cs (moved s t p' v')) < works s)%nat.
Proof.
  intros Ht Hw. unfold works. cbn [threads].
  pose proof (sum_insert (λ th, work th.1) _ _ _ (p', v') Ht) as Hsum. cbn [fst] in Hsum. lia.
Qed.

(** A step that brings the threads closer to their ends. *)
Definition advances (s : machine) : Prop :=
  ∃ t ts s', perform code t ts s = next s' ∧ (works s' < works s)%nat.

Lemma free_advances s last c value t p v k :
  inv s None last c value → threads s !! t = Some (p, v) → code p = SpinLock.lock p k → (work k < work p)%nat → advances s.
Proof.
  intros Hi Ht Hcode Hw. pose proof (inv_flag _ _ _ _ _ Hi) as [F1 F2 F3 F4 F5 F6 F7 F8].
  destruct (F6 eq_refl) as (m & Hm & Hf). exists t, last. unfold perform. rewrite Ht, Hcode. unfold SpinLock.lock.
  rewrite Hm, (F2 (S last)) by lia. rewrite bool_decide_true by (by eapply F3). rewrite Hf.
  eexists. split; [reflexivity|]. by eapply works_moved.
Qed.

Lemma holder_advances s t last c value : inv s (Some t) last c value → advances s.
Proof.
  intros Hi. destruct (inv_exists _ _ _ _ _ Hi t eq_refl) as [[p v] Ht].
  pose proof (proj2 (inv_holder _ _ _ _ _ Hi _ _ _ Ht) eq_refl) as Hp.
  pose proof (inv_points _ _ _ _ _ Hi _ _ _ Ht) as Hw. pose proof (inv_flag _ _ _ _ _ Hi) as Hf.
  destruct (fi_held _ _ _ _ Hf _ _ _ eq_refl Ht) as [[Hcw Hcr] _].
  pose proof (fi_views _ _ _ _ Hf _ _ _ Ht) as Hseen. pose proof (fi_above _ _ _ _ Hf (S last) ltac:(lia)) as Hfree.
  exists t, (S last). unfold perform. rewrite Ht.
  destruct p as [i|i|i x|i| | | | |x|x]; cbn in Hp, Hw; try done; cbn [code]; unfold SpinLock.unlock, LockGuard.deref, LockGuard.drop;
    rewrite ?Hfree, ?(inv_cell _ _ _ _ _ Hi), ?(proj1 (inv_value _ _ _ _ _ Hi)); unfold write_before;
    rewrite ?(bool_decide_true (seen v lock_flag < S last)%nat) by lia; rewrite ?(bool_decide_true (_ <= clock v _)%nat) by done.
  2: assert (reads_before (length (threads s)) c v = true) as -> by
       (apply forallb_forall; intros u _; by apply bool_decide_eq_true).
  all: eexists; (split; [reflexivity|]); eapply works_moved; [exact Ht|]; cbn; unfold round; repeat case_match; cbn; lia.
Qed.

Lemma can_advance s : (∃ h last c value, inv s h last c value) → all_finished code s = false → advances s.
Proof.
  intros ([t|] & last & c & value & Hi) Hfin; [by eapply holder_advances|].
  apply unfinished_thread in Hfin as (t & p & v & Ht & Hp).
  pose proof (inv_points _ _ _ _ _ Hi _ _ _ Ht) as Hw. pose proof (inv_holder _ _ _ _ _ Hi _ _ _ Ht) as Hc.
  assert (critical p = false) as Hn by (destruct (critical p); [by destruct Hc as [Hc _]; specialize (Hc eq_refl)|done]).
  destruct p as [i|i|i x|i| | | | |x|x]; try done; cbn in Hw.
  - eapply (free_advances _ _ _ _ t _ v (reading i)); [exact Hi|exact Ht|done|]. cbn. lia.
  - eapply (free_advances _ _ _ _ t _ v main_guarded); [exact Hi|exact Ht|done|]. cbn. lia.
Qed.

(** C15. No thread is ever stuck: from every state that a schedule reaches, another
    schedule lets all threads finish, and then [main] of the second program print
    the number of all increments. *)
Theorem spin_locks_finish n schedule s :
  run code schedule (start n) = next s →
  ∃ schedule1 s1 schedule2 s2 v, run code schedule1 s = next s1 ∧ all_finished code s1 = true ∧
    run code schedule2 (after_scope main_locking s1) = next s2 ∧
    threads s2 !! n = Some (printed (i32 (Z.of_nat (n * rounds))), v).
Proof.
  intros Hrun. pose proof (run_invariant code (scope_inv n) schedule (start n) (scope_step n) (start_scope n)) as HJ.
  rewrite Hrun in HJ. destruct (can_finish code (scope_inv n) works s) as (schedule1 & s1 & Hrun1 & Hend1 & HJ1);
    [apply scope_step|intros ? [? _]; by apply can_advance|done|].
  destruct HJ1 as [(h & last & c & value & Hi) [Hn Hmain]].
  destruct (finished_threads _ _ _ _ _ Hi Hend1 Hmain) as (-> & Htot & Hall). rewrite Hn in Htot.
  set (J s' := main_inv (Z.of_nat (n * rounds)) s' ∧ ∃ p v, threads s' !! n = Some (p, v) ∧ is_main p = true).
  destruct (can_finish code J works (after_scope main_locking s1)) as (schedule2 & s2 & Hrun2 & Hend2 & [Hm2 (p & v & Hp & Hpm)]).
  - intros s' t ts [Hm (p & v & Hp & Hpm)]. pose proof (main_step _ s' t ts Hm) as Hm'.
    destruct (perform code t ts s') as [s''| |f] eqn:E; [|done|done]. split; [done|].
    destruct (perform_moves _ _ _ _ E) as (q & w & q' & w' & Ht & Hs & Hq & _). rewrite Hs.
    destruct (decide (t = n)) as [->|Hne].
    + rewrite list_lookup_insert_eq by (by eapply lookup_lt_Some). simplify_eq. eexists _, _. split; [done|]. congruence.
    + rewrite list_lookup_insert_ne by done. by exists p, v.
  - intros s' [[? _] _]. by apply can_advance.
  - split; [by eapply after_scope_main|]. exists main_locking, (joined s1). split; [|done].
    cbn [after_scope threads]. by rewrite lookup_app_r, <-Hn, Nat.sub_diag by lia.
  - destruct Hm2 as [(h & last2 & c2 & value2 & Hi2) [Hk _]].
    pose proof (inv_points _ _ _ _ _ Hi2 _ _ _ Hp) as Hx.
    assert (∃ x, p = printed x) as [x ->].
    { unfold all_finished in Hend2. rewrite forallb_forall in Hend2. specialize (Hend2 (p, v)).
      assert (In (p, v) (threads s2)) as Hin by (by apply list_elem_of_In, (list_elem_of_lookup_2 _ n)).
      specialize (Hend2 Hin). destruct p; try done. by eexists. }
    exists schedule1, s1, schedule2, s2, v. split_and!; try done.
    pose proof (inv_value _ _ _ _ _ Hi2) as [_ Hv]. cbn in Hx. by rewrite Hp, Hx, Hv, Hk.
Qed.

End Programs.

(** As in the programs, two threads that each make five rounds; here after the
    first has taken the lock and read the counter. *)
Lemma spin_locks_finish_witness :
  ∃ s, run (code 5) [(0%nat, 0%nat); (0%nat, 0%nat)] (start 5 2) = next s ∧
    (threads s).*1 = [writing 0 0; locking 0] ∧
    ∃ schedule1 s1 schedule2 s2 v, run (code 5) schedule1 s = next s1 ∧ all_finished (code 5) s1 = true ∧
      run (code 5) schedule2 (after_scope main_locking s1) = next s2 ∧ threads s2 !! 2%nat = Some (printed 10, v).
Proof.
  eexists. split; [reflexivity|]. split; [reflexivity|].
  apply (spin_locks_finish 5 2 [(0%nat, 0%nat); (0%nat, 0%nat)]). reflexivity.
Defined.
