(* ===== verification/SpscQueue.v ===== *)
(** algorithms-data-structures/rust/spsc-queue: a bounded queue between a thread
    that pushes and a thread that pops, and the program that sends numbers through
    it.  For every schedule there is no data race, no slot is read before it is
    filled or filled before it is read, and the numbers come out in order, each
    once; and the threads can always finish when the queue has two slots or more. *)

From S2P Require Import Prelude.
From S2P Require Import Atomics.

(** ** The program *)

(** The two indices of [SPSCQueue]; the plain locations are the slots of the buffer. *)
Inductive indices := write_idx | read_idx.
#[global] Instance indices_eq_dec : EqDecision indices.
Proof. solve_decision. Defined.

Module SPSCQueue.

(** Where a thread is in [push] and in [pop]: before the operation of that name,
    with the variables of the function that are still used. *)
Inductive push_point :=
  | load_write_idx
  | check_read_idx (write_idx : nat)
  | write_item (write_idx : nat)
  | store_write_idx (write_idx : nat).
Inductive pop_point :=
  | load_read_idx
  | check_write_idx (read_idx : nat)
  | read_item (read_idx : nat)
  | store_read_idx (read_idx : nat) (result : Z).

Section Code.
Context (capacity : nat).

(** [next_write_idx] and [next_read_idx]. *)
Definition next_idx (i : nat) : nat := if (i + 1 =? capacity)%nat then 0%nat else (i + 1)%nat.

(** The next operation of [push(item)] and of [pop()]; the calls go on at [go] and
    return to [ret]. *)
Definition push {P} (item : Z) (go : push_point → P) (ret : bool → P) (p : push_point) : operation indices nat nat Z P :=
  match p with
  | load_write_idx => load write_idx Relaxed (λ w, go (check_read_idx w))
  | check_read_idx w => load read_idx Acquire (λ r, if (next_idx w =? r)%nat then ret false else go (write_item w))
  | write_item w => write w item (go (store_write_idx w))
  | store_write_idx w => store write_idx (next_idx w) Release (ret true)
  end.
Definition pop {P} (go : pop_point → P) (ret : option Z → P) (p : pop_point) : operation indices nat nat Z P :=
  match p with
  | load_read_idx => load read_idx Relaxed (λ r, go (check_write_idx r))
  | check_write_idx r => load write_idx Acquire (λ w, if (r =? w)%nat then ret None else go (read_item r))
  | read_item r => read r (λ d, go (store_read_idx r d))
  | store_read_idx r d => store read_idx (next_idx r) Release (ret (Some d))
  end.

(** [SPSCQueue::new(capacity)]: the memory in which both indices are 0 and no slot
    is initialised, with the threads that share it; all of this happens before them. *)
Definition new {P} (threads : list (P * view indices)) : state indices nat nat Z P :=
  mk_state (λ _ ts, if decide (ts = 0%nat) then Some (mk_message 0%nat no_view) else None)
    (λ x, if (x <? capacity)%nat then Some (mk_cell None (0%nat, 0%nat) (λ _, 0%nat)) else None) threads.

End Code.
End SPSCQueue.
Import SPSCQueue.

(** A thread that pushes the number [i], and one that has printed [out]. *)
Inductive point :=
  | producing (i : nat) (p : push_point)
  | pushed_all
  | consuming (out : list Z) (p : pop_point)
  | printed_all (out : list Z).

Section Program.
Context (capacity items : nat).

(** [for i in 0..items { while !queue.push(i) {} }] *)
Definition produce (i : nat) : point := if (i <? items)%nat then producing i load_write_idx else pushed_all.
(** [for _ in 0..items { loop { if let Some(data) = queue.pop() { println!("{}", data); break; } } }] *)
Definition consume (out : list Z) : point :=
  if (length out <? items)%nat then consuming out load_read_idx else printed_all out.

Definition code (p : point) : operation indices nat nat Z point :=
  match p with
  | producing i p =>
      push capacity (Z.of_nat i) (producing i) (λ ok, if ok then produce (i + 1) else producing i load_write_idx) p
  | consuming out p =>
      pop capacity (consuming out)
        (λ r, match r with Some data => consume (out ++ [data]) | None => consuming out load_read_idx end) p
  | pushed_all | printed_all _ => finished
  end.

#[local] Abbreviation machine := (state indices nat nat Z point).

Definition start : machine := new capacity [(produce 0, no_view); (consume [], no_view)].

End Program.

(** ** The invariant *)

Section Invariant.
Context (capacity items : nat) (Hcap : (0 < capacity)%nat).

#[local] Abbreviation machine := (state indices nat nat Z point).
#[local] Abbreviation slot k := (k mod capacity)%nat.

Lemma next_slot k : next_idx capacity (slot k) = slot (S k).
Proof.
  unfold next_idx. pose proof (Nat.mod_upper_bound k capacity). pose proof (Nat.div_mod_eq k capacity) as Hk.
  destruct (Nat.eqb_spec (slot k + 1) capacity) as [E|E].
  - apply (Nat.mod_unique _ _ (S (k / capacity))); lia.
  - apply (Nat.mod_unique _ _ (k / capacity)); lia.
Qed.

(** Numbers in the same slot are [capacity] apart. *)
Lemma same_slot j k : slot j = slot k → (j < k)%nat → (j + capacity <= k)%nat.
Proof.
  intros Hs Hlt. pose proof (Nat.div_mod_eq j capacity). pose proof (Nat.div_mod_eq k capacity).
  destruct (decide (k / capacity <= j / capacity)%nat); nia.
Qed.
Lemma slot_add k : slot (k + capacity) = slot k.
Proof. rewrite <-(Nat.mul_1_l capacity) at 1. apply Nat.Div0.mod_add. Qed.

(** What the threads have done: the numbers that the producer has pushed, for which
    it has a slot, and that it has written; and those that the consumer has
    printed, that it knows to be there, and that it has read. *)
Definition pushed (p : point) : nat := match p with producing i _ => i | _ => items end.
Definition reserved (p : point) : nat :=
  match p with producing i (write_item _ | store_write_idx _) => S i | _ => pushed p end.
Definition written (p : point) : nat := match p with producing i (store_write_idx _) => S i | _ => pushed p end.
Definition output (p : point) : list Z := match p with consuming out _ | printed_all out => out | _ => [] end.
Definition popped (p : point) : nat := length (output p).
Definition claimed (p : point) : nat :=
  match p with consuming out (read_item _ | store_read_idx _ _) => S (length out) | _ => popped p end.
Definition taken (p : point) : nat := match p with consuming out (store_read_idx _ _) => S (length out) | _ => popped p end.

(** The messages on the index [l], which only thread [t] stores: [times] are their
    timestamps, [last] the last of them.  Message [k] is the index after [k] calls,
    and is released by a thread that has accessed [k] slots. *)
Record track (h : indices → nat → option (message indices nat)) (l : indices) (t n : nat)
    (times : list nat) (last : nat) : Prop := {
  tr_length : length times = S n;
  tr_last : times !! n = Some last;
  tr_at : ∀ k ts, times !! k = Some ts → ∃ m, h l ts = Some m ∧ m_value m = slot k ∧ (k <= clock (m_view m) t)%nat;
  tr_in : ∀ ts m, h l ts = Some m → ∃ k, times !! k = Some ts;
  tr_sorted : ∀ j k ts ts', times !! j = Some ts → times !! k = Some ts' → (j < k)%nat → (ts < ts')%nat;
}.

Lemma track_le h l t n times last k ts : track h l t n times last → times !! k = Some ts → (k <= n)%nat ∧ (ts <= last)%nat.
Proof.
  intros [T1 T2 _ _ T5] Hk. pose proof (lookup_lt_Some _ _ _ Hk). split; [lia|].
  destruct (decide (k = n)) as [->|]; [naive_solver|]. apply Nat.lt_le_incl, (T5 k n); [done..|lia].
Qed.

Lemma track_index h l t n times last ts m : track h l t n times last → h l ts = Some m →
  ∃ k, times !! k = Some ts ∧ (k <= n)%nat ∧ (ts <= last)%nat ∧ m_value m = slot k ∧ (k <= clock (m_view m) t)%nat.
Proof.
  intros Ht Hm. destruct (tr_in _ _ _ _ _ _ Ht _ _ Hm) as [k Hk]. exists k.
  destruct (track_le _ _ _ _ _ _ _ _ Ht Hk), (tr_at _ _ _ _ _ _ Ht _ _ Hk) as (m' & Hm' & Hv).
  rewrite Hm in Hm'. by injection Hm' as <-.
Qed.

(** Later messages are about more calls. *)
Lemma track_order h l t n times last j k ts ts' : track h l t n times last →
  times !! j = Some ts → times !! k = Some ts' → (ts <= ts')%nat → (j <= k)%nat.
Proof.
  intros Ht Hj Hk Hle. destruct (decide (k < j)%nat) as [Hlt|]; [|lia].
  pose proof (tr_sorted _ _ _ _ _ _ Ht _ _ _ _ Hk Hj Hlt). lia.
Qed.

Lemma track_last_index h l t n times last k : track h l t n times last → times !! k = Some last → k = n.
Proof.
  intros Ht Hk. destruct (track_le _ _ _ _ _ _ _ _ Ht Hk).
  pose proof (track_order _ _ _ _ _ _ n k last last Ht (tr_last _ _ _ _ _ _ Ht) Hk). lia.
Qed.

Lemma track_store h l t n times last ts m : track h l t n times last → (last < ts)%nat →
  m_value m = slot (S n) → (S n <= clock (m_view m) t)%nat →
  track (insert_message h l ts m) l t (S n) (times ++ [ts]) ts.
Proof.
  intros Ht Hlt Hval Hclock. pose proof Ht as [T1 T2 T3 T4 T5]. split.
  - rewrite length_app. cbn. lia.
  - rewrite lookup_app_r, T1, Nat.sub_diag by lia. done.
  - intros k ts' [Hk|[Hge Hk]]%lookup_app_Some.
    + destruct (T3 _ _ Hk) as (m' & Hm' & Hv). exists m'. split; [|done].
      rewrite insert_message_other; [done|]. right. pose proof (track_le _ _ _ _ _ _ _ _ Ht Hk). lia.
    + apply list_lookup_singleton_Some in Hk as [Hk <-]. exists m. rewrite insert_message_same.
      by assert (k = S n) as -> by lia.
  - intros ts' m'. unfold insert_message. destruct (decide _) as [[_ ->]|].
    + intros _. exists (S n). by rewrite lookup_app_r, T1, Nat.sub_diag by lia.
    + intros (k & Hk)%T4. exists k. by apply lookup_app_l_Some.
  - intros j k ts1 ts2 [Hj|[Hj Hts1]]%lookup_app_Some [Hk|[Hk Hts2]]%lookup_app_Some Hjk.
    + by apply (T5 j k).
    + apply list_lookup_singleton_Some in Hts2 as [_ <-]. pose proof (track_le _ _ _ _ _ _ _ _ Ht Hj). lia.
    + pose proof (lookup_lt_Some _ _ _ Hk). lia.
    + apply list_lookup_singleton_Some in Hts1 as [? _], Hts2 as [? _]. lia.
Qed.

Lemma track_other h l l' t n times last ts m : l ≠ l' → track h l t n times last →
  track (insert_message h l' ts m) l t n times last.
Proof.
  intros Hl [T1 T2 T3 T4 T5].
  assert (∀ x, insert_message h l' ts m l x = h l x) as E by (intros x; apply insert_message_other; by left).
  split; [done|done| | |done].
  - intros k x Hk. destruct (T3 _ _ Hk) as (m' & Hm' & ?). exists m'. by rewrite E.
  - intros x m'. rewrite E. apply T4.
Qed.

(** What is in slot [x] when [W] numbers are written and [R] are read: the last one
    written there, if any; and who has read it since. *)
Record slot_inv (W R x : nat) (c : cell Z) : Prop := {
  sl_write :
    (c_write c = (0%nat, 0%nat) ∧ c_value c = None ∧ ∀ j, (j < W)%nat → slot j ≠ x) ∨
    (∃ j, c_write c = (0%nat, S j) ∧ c_value c = Some (Z.of_nat j) ∧ (j < W)%nat ∧ slot j = x ∧
       ∀ j', (j < j')%nat → (j' < W)%nat → slot j' ≠ x);
  sl_reads : ∀ u, c_reads c u = 0%nat ∨ (u = 1%nat ∧ ∃ j, c_reads c u = S j ∧ (j < R)%nat ∧ slot j = x);
}.

(** What any thread or message can have seen. *)
Definition limit (lw lr W R : nat) : view indices :=
  mk_view (λ l, match l with write_idx => lw | read_idx => lr end) (λ t, match t with 0 => W | 1 => R | _ => 0 end)%nat.

Definition numbers (n : nat) : list Z := Z.of_nat <$> seq 0 n.

Definition producer_at (p : point) : Prop :=
  match p with
  | producing i at_ => (i < items)%nat ∧
      match at_ with load_write_idx => True | check_read_idx x | write_item x | store_write_idx x => x = slot i end
  | pushed_all => True
  | _ => False
  end.
Definition consumer_at (q : point) : Prop :=
  match q with
  | consuming out at_ => (length out < items)%nat ∧ out = numbers (length out) ∧
      match at_ with
      | load_read_idx => True
      | check_write_idx x | read_item x => x = slot (length out)
      | store_read_idx x d => x = slot (length out) ∧ d = Z.of_nat (length out)
      end
  | printed_all out => out = numbers items
  | _ => False
  end.

(** The producer is at [p] with the view [v], the consumer at [q] with the view
    [w].  Whatever index the producer may still read tells it of at least the space
    that it relies on, and whatever the consumer may read, of at least the numbers
    that it relies on; and what they rely on happened before. *)
Record inv (s : machine) (ws rs : list nat) (lw lr : nat) (p : point) (v : view indices)
    (q : point) (w : view indices) : Prop := {
  q_threads : threads s = [(p, v); (q, w)];
  q_writes : track (history s) write_idx 0 (pushed p) ws lw;
  q_reads : track (history s) read_idx 1 (popped q) rs lr;
  q_messages : ∀ l ts m, history s l ts = Some m → below (m_view m) (limit lw lr (written p) (taken q));
  q_producer : below v (limit lw lr (written p) (taken q)) ∧ (lw <= seen v write_idx)%nat ∧ (written p <= clock v 0)%nat;
  q_consumer : below w (limit lw lr (written p) (taken q)) ∧ (lr <= seen w read_idx)%nat ∧ (taken q <= clock w 1)%nat;
  q_space : ∀ k ts, rs !! k = Some ts → (seen v read_idx <= ts)%nat → (reserved p < k + capacity)%nat;
  q_items : ∀ k ts, ws !! k = Some ts → (seen w write_idx <= ts)%nat → (claimed q <= k)%nat;
  q_emptied : (reserved p < clock v 1 + capacity)%nat;
  q_filled : (claimed q <= clock w 0)%nat;
  q_cells : ∀ x, (x < capacity)%nat → ∃ c, cells s x = Some c ∧ slot_inv (written p) (taken q) x c;
  q_points : producer_at p ∧ consumer_at q;
}.

Definition good (s : machine) : Prop := ∃ ws rs lw lr p v q w, inv s ws rs lw lr p v q w.

Lemma counts p q : (pushed p <= written p)%nat ∧ (written p <= reserved p)%nat ∧ (popped q <= taken q)%nat ∧ (taken q <= claimed q)%nat.
Proof.
  split_and!; try (by destruct p as [i []| | |]; cbn; lia); destruct q as [| |out []|]; unfold popped; cbn; lia.
Qed.

Lemma below_limit v lw lr W R lw' lr' W' R' : below v (limit lw lr W R) →
  (lw <= lw')%nat → (lr <= lr')%nat → (W <= W')%nat → (R <= R')%nat → below v (limit lw' lr' W' R').
Proof.
  intros [H1 H2] H3 H4 H5 H6. split.
  - intros l. specialize (H1 l). destruct l; cbn in *; lia.
  - intros t. specialize (H2 t). destruct t as [|[|t]]; cbn in *; lia.
Qed.

(** The producer is at most a full queue ahead of what the consumer has popped, and
    the consumer relies on no number that is not pushed. *)
Lemma in_range s ws rs lw lr p v q w : inv s ws rs lw lr p v q w →
  (reserved p < popped q + capacity)%nat ∧ (claimed q <= pushed p)%nat.
Proof.
  intros Hi. split.
  - apply (q_space _ _ _ _ _ _ _ _ _ Hi _ lr); [by eapply tr_last, q_reads|]. apply (q_producer _ _ _ _ _ _ _ _ _ Hi).
  - apply (q_items _ _ _ _ _ _ _ _ _ Hi _ lw); [by eapply tr_last, q_writes|]. apply (q_consumer _ _ _ _ _ _ _ _ _ Hi).
Qed.

Lemma start_good : good (start capacity items).
Proof.
  assert (∀ l t, track (history (start capacity items)) l t 0 [0%nat] 0) as Htrack.
  { intros l t. split; cbn; try done.
    - intros [|k] ts; [|done]. intros [= <-]. rewrite decide_True by done. eexists. split; [done|]. cbn.
      split; [|lia]. symmetry. by apply Nat.Div0.mod_0_l.
    - intros ts m. destruct (decide _) as [->|]; [|done]. by exists 0%nat.
    - intros [|j] [|k]; cbn; try done; lia. }
  assert (pushed (produce items 0) = 0 ∧ written (produce items 0) = 0 ∧ reserved (produce items 0) = 0)%nat as (E1 & E2 & E3).
  { unfold produce. destruct (Nat.ltb_spec 0 items); cbn; lia. }
  assert (popped (consume items []) = 0 ∧ claimed (consume items []) = 0 ∧ taken (consume items []) = 0)%nat as (E4 & E5 & E6).
  { unfold consume, popped. destruct (Nat.ltb_spec (@length Z []) items); cbn; lia. }
  exists [0%nat], [0%nat], 0%nat, 0%nat, (produce items 0), no_view, (consume items []), no_view.
  split; rewrite ?E1, ?E2, ?E3, ?E4, ?E5, ?E6; try done.
  - intros l ts m. cbn. destruct (decide _); [|done]. intros [= <-]. split; intros []; cbn; lia.
  - split_and!; [split; intros []; cbn; lia|cbn; lia..].
  - split_and!; [split; intros []; cbn; lia|cbn; lia..].
  - intros. lia.
  - intros. lia.
  - intros x Hx. unfold start, new. cbn [cells]. apply Nat.ltb_lt in Hx as ->.
    eexists. split; [done|]. split; cbn; [left; split_and!; try done; lia|].
    intros u. by left.
  - unfold produce, consume. split.
    + by destruct (Nat.ltb_spec 0 items).
    + destruct (Nat.ltb_spec (@length Z []) items); cbn in *; [done|]. by assert (items = 0)%nat as -> by lia.
Qed.

(** ** Steps *)

(** The fields of an invariant that a step does not touch. *)
Lemma keep_view v v' lw lr W R W' R' (l : indices) (t n m : nat) :
  below v (limit lw lr W R) ∧ (n <= seen v l)%nat ∧ (m <= clock v t)%nat → below v v' →
  below v' (limit lw lr W' R') → below v' (limit lw lr W' R') ∧ (n <= seen v' l)%nat ∧ (m <= clock v' t)%nat.
Proof. intros (_ & Hn & Hm) [H1 H2] Hv. specialize (H1 l). specialize (H2 t). split_and!; [done|lia..]. Qed.

Section Steps.
Context (s : machine) (ws rs : list nat) (lw lr : nat) (p : point) (v : view indices) (q : point) (w : view indices).
Context (Hi : inv s ws rs lw lr p v q w).

Lemma producer_moves p' v' :
  pushed p' = pushed p → written p' = written p → below v v' → below v' (limit lw lr (written p) (taken q)) →
  (∀ k ts, rs !! k = Some ts → (seen v' read_idx <= ts)%nat → (reserved p' < k + capacity)%nat) →
  (reserved p' < clock v' 1 + capacity)%nat → producer_at p' →
  inv (mk_state (history s) (cells s) [(p', v'); (q, w)]) ws rs lw lr p' v' q w.
Proof.
  intros E1 E2 Hv Hlim Hspace Hemptied Hat. destruct Hi. split; rewrite ?E1, ?E2; try done.
  - by eapply keep_view.
  - by split; [|apply q_points0].
Qed.
Lemma consumer_moves q' w' :
  popped q' = popped q → taken q' = taken q → below w w' → below w' (limit lw lr (written p) (taken q)) →
  (∀ k ts, ws !! k = Some ts → (seen w' write_idx <= ts)%nat → (claimed q' <= k)%nat) →
  (claimed q' <= clock w' 0)%nat → consumer_at q' →
  inv (mk_state (history s) (cells s) [(p, v); (q', w')]) ws rs lw lr p v q' w'.
Proof.
  intros E1 E2 Hv Hlim Hitems Hfilled Hat. destruct Hi. split; rewrite ?E1, ?E2; try done.
  - by eapply keep_view.
  - by split; [apply q_points0|].
Qed.

(** A thread that reads an index: its view stays within the limit. *)
Lemma write_idx_read ts m : history s write_idx ts = Some m →
  ∃ k, ws !! k = Some ts ∧ (k <= pushed p)%nat ∧ (ts <= lw)%nat ∧ m_value m = slot k ∧ (k <= clock (m_view m) 0)%nat.
Proof. apply track_index. apply Hi. Qed.
Lemma read_idx_read ts m : history s read_idx ts = Some m →
  ∃ k, rs !! k = Some ts ∧ (k <= popped q)%nat ∧ (ts <= lr)%nat ∧ m_value m = slot k ∧ (k <= clock (m_view m) 1)%nat.
Proof. apply track_index. apply Hi. Qed.

Lemma producer_reads o l ts m : history s l ts = Some m →
  below (view_after_read o l ts m v) (limit lw lr (written p) (taken q)).
Proof.
  intros Hm. apply after_read_limit; [apply Hi| |by eapply q_messages].
  destruct l; [apply write_idx_read in Hm as (k & _ & _ & ? & _)|apply read_idx_read in Hm as (k & _ & _ & ? & _)]; done.
Qed.
Lemma consumer_reads o l ts m : history s l ts = Some m →
  below (view_after_read o l ts m w) (limit lw lr (written p) (taken q)).
Proof.
  intros Hm. apply after_read_limit; [apply Hi| |by eapply q_messages].
  destruct l; [apply write_idx_read in Hm as (k & _ & _ & ? & _)|apply read_idx_read in Hm as (k & _ & _ & ? & _)]; done.
Qed.

End Steps.

(** The producer reads its own index, and the consumer's. *)
Lemma load_own_write s ws rs lw lr i v q w ts m :
  inv s ws rs lw lr (producing i load_write_idx) v q w → history s write_idx ts = Some m →
  (seen v write_idx <= ts)%nat →
  let v' := view_after_read Relaxed write_idx ts m v in
  inv (mk_state (history s) (cells s) [(producing i (check_read_idx (m_value m)), v'); (q, w)])
    ws rs lw lr (producing i (check_read_idx (m_value m))) v' q w.
Proof.
  intros Hi Hm Hts v'. destruct (write_idx_read _ _ _ _ _ _ _ _ _ Hi _ _ Hm) as (k & Hk & Hkn & Hle & -> & _).
  pose proof (q_producer _ _ _ _ _ _ _ _ _ Hi) as (_ & Hlw & _). assert (ts = lw) as -> by lia.
  pose proof (track_last_index _ _ _ _ _ _ _ (q_writes _ _ _ _ _ _ _ _ _ Hi) Hk) as ->.
  pose proof (below_after_read Relaxed write_idx lw m v) as Hb. fold v' in Hb.
  eapply producer_moves; [exact Hi|try done..].
  - by eapply producer_reads.
  - intros k x Hx Hv. apply (q_space _ _ _ _ _ _ _ _ _ Hi k x Hx). pose proof (proj1 Hb read_idx). lia.
  - pose proof (q_emptied _ _ _ _ _ _ _ _ _ Hi) as He. pose proof (proj2 Hb 1%nat). cbn in *. lia.
  - split; [apply (q_points _ _ _ _ _ _ _ _ _ Hi)|done].
Qed.

Lemma check_space s ws rs lw lr i x v q w ts m :
  inv s ws rs lw lr (producing i (check_read_idx x)) v q w → history s read_idx ts = Some m →
  (seen v read_idx <= ts)%nat →
  let v' := view_after_read Acquire read_idx ts m v in
  let p' := if (next_idx capacity x =? m_value m)%nat then producing i load_write_idx else producing i (write_item x) in
  inv (mk_state (history s) (cells s) [(p', v'); (q, w)]) ws rs lw lr p' v' q w.
Proof.
  intros Hi Hm Hts v'. destruct (read_idx_read _ _ _ _ _ _ _ _ _ Hi _ _ Hm) as (k & Hk & Hkn & Hle & -> & Hclock).
  destruct (q_points _ _ _ _ _ _ _ _ _ Hi) as [[Hit ->] _]. rewrite next_slot. cbn zeta.
  pose proof (below_after_read Acquire read_idx ts m v) as Hb. fold v' in Hb.
  pose proof (producer_reads _ _ _ _ _ _ _ _ _ Hi Acquire read_idx ts m Hm) as Hlim. fold v' in Hlim.
  assert (ts <= seen v' read_idx)%nat as Hseen by apply after_read_seen.
  pose proof (q_space _ _ _ _ _ _ _ _ _ Hi k ts Hk Hts) as Hs. cbn in Hs.
  destruct (Nat.eqb_spec (slot (S i)) (slot k)) as [E|E].
  - eapply producer_moves; [exact Hi|try done..].
    + intros j y Hy Hv. apply (q_space _ _ _ _ _ _ _ _ _ Hi j y Hy). pose proof (proj1 Hb read_idx). lia.
    + pose proof (q_emptied _ _ _ _ _ _ _ _ _ Hi) as He. pose proof (proj2 Hb 1%nat). cbn in *. lia.
  - assert (S i < k + capacity)%nat as Hroom.
    { assert (S i ≠ k + capacity)%nat; [intros Heq; apply E; rewrite Heq; apply slot_add|lia]. }
    eapply producer_moves; [exact Hi|try done..].
    + intros j y Hy Hv. cbn. assert (k <= j)%nat; [|lia].
      eapply track_order; [eapply q_reads, Hi|exact Hk|exact Hy|lia].
    + assert (clock (m_view m) 1 <= clock v' 1)%nat by apply below_join_r. cbn -[v']. lia.
Qed.

(** The producer fills its slot, and publishes its new index. *)
Lemma fill_allowed s ws rs lw lr i v q w c :
  inv s ws rs lw lr (producing i (write_item (slot i))) v q w → slot_inv i (taken q) (slot i) c →
  write_before c v = true ∧ reads_before 2 c v = true.
Proof.
  intros Hi [Hw Hr]. destruct (in_range _ _ _ _ _ _ _ _ _ Hi) as [_ Hc]. cbn [pushed] in Hc.
  pose proof (counts (producing i (write_item (slot i))) q) as (_ & _ & _ & Ht).
  pose proof (q_emptied _ _ _ _ _ _ _ _ _ Hi) as He. cbn [reserved] in He.
  pose proof (q_producer _ _ _ _ _ _ _ _ _ Hi) as (_ & _ & Hclock). cbn [written pushed] in Hclock. split.
  - apply bool_decide_eq_true. destruct Hw as [[-> _]|(j & -> & _ & Hj & _)]; cbn; lia.
  - apply forallb_forall. intros u _. apply bool_decide_eq_true.
    destruct (Hr u) as [->|(-> & j & -> & Hj & Hs)]; [lia|]. pose proof (same_slot j i Hs). lia.
Qed.

Lemma fill_slot s ws rs lw lr i v q w c :
  inv s ws rs lw lr (producing i (write_item (slot i))) v q w → cells s (slot i) = Some c →
  let v' := tick 0 v in
  inv (mk_state (history s) (insert_cell (cells s) (slot i) (mk_cell (Some (Z.of_nat i)) (0%nat, clock v' 0) (λ _, 0%nat)))
    [(producing i (store_write_idx (slot i)), v'); (q, w)]) ws rs lw lr (producing i (store_write_idx (slot i))) v' q w.
Proof.
  intros Hi Hc v'. destruct Hi as [Q1 Q2 Q3 Q4 (Q5 & Q5' & Q5'') (Q6 & Q6' & Q6'') Q7 Q8 Q9 Q10 Q11 [Q12 Q13]].
  cbn [pushed reserved written] in *. pose proof (proj2 Q5 0%nat) as Hle. cbn in Hle.
  assert (clock v' 0 = S i) as Hclock by (unfold v'; cbn [tick clock]; rewrite decide_True by done; lia).
  split; cbn [pushed reserved written threads history cells]; try done.
  - intros l ts m Hm. eapply below_limit; [by eapply Q4|lia..].
  - split_and!; [|exact Q5'|by rewrite Hclock]. split; [exact (proj1 Q5)|].
    intros [|t]; [by rewrite Hclock|]. pose proof (proj2 Q5 (S t)) as H. cbn in *. done.
  - split_and!; [|done..]. eapply below_limit; [exact Q6|lia..].
  - intros x Hx. unfold insert_cell. destruct (decide (x = slot i)) as [->|Hne].
    + eexists. split; [done|]. rewrite Hclock. split; cbn; [|by left].
      right. exists i. split_and!; try done; lia.
    + destruct (Q11 x Hx) as (c' & Hc' & [Hw Hr]). exists c'. split; [done|]. split; [|done].
      destruct Hw as [(H1 & H2 & H3)|(j & H1 & H2 & H3 & H4 & H5)]; [left|right; exists j]; split_and!; try done.
      * intros j Hj. destruct (decide (j = i)) as [->|]; [done|]. apply H3. lia.
      * lia.
      * intros j' Hj Hj'. destruct (decide (j' = i)) as [->|]; [done|]. apply H5; lia.
Qed.

Lemma publish s ws rs lw lr i x v q w ts :
  inv s ws rs lw lr (producing i (store_write_idx x)) v q w → (seen v write_idx < ts)%nat →
  let v' := observe write_idx ts v in let p' := produce items (i + 1) in
  inv (mk_state (insert_message (history s) write_idx ts (mk_message (next_idx capacity x) v')) (cells s)
    [(p', v'); (q, w)]) (ws ++ [ts]) rs ts lr p' v' q w.
Proof.
  intros Hi Hts v' p'. destruct Hi as [Q1 Q2 Q3 Q4 (Q5 & Q5' & Q5'') (Q6 & Q6' & Q6'') Q7 Q8 Q9 Q10 Q11 [[Q12 ->] Q13]].
  cbn [pushed reserved written] in *. rewrite next_slot.
  assert (pushed p' = S i ∧ written p' = S i ∧ reserved p' = S i) as (E1 & E2 & E3).
  { unfold p', produce. destruct (Nat.ltb_spec (i + 1) items); cbn; lia. }
  assert (below v' (limit ts lr (S i) (taken q))) as Hlim.
  { split; [|exact (proj2 Q5)]. intros [].
    - unfold v'. rewrite observe_seen. cbn. lia.
    - exact (proj1 Q5 read_idx). }
  split; rewrite ?E1, ?E2, ?E3; cbn [threads history cells]; try done.
  - apply (track_store _ _ _ _ _ lw); [done|lia|done|exact Q5''].
  - by apply track_other.
  - intros l ts' m. unfold insert_message. destruct (decide _); [by intros [= <-]|].
    intros Hm. eapply below_limit; [by eapply Q4|lia..].
  - split_and!; [done| |exact Q5'']. unfold v'. rewrite observe_seen. lia.
  - split_and!; [|done..]. eapply below_limit; [exact Q6|lia..].
  - intros k ts' [Hk|[Hge Hk]]%lookup_app_Some Hseen; [by eapply Q8|].
    rewrite (tr_length _ _ _ _ _ _ Q2) in Hge.
    pose proof (Q8 i lw (tr_last _ _ _ _ _ _ Q2) (proj1 Q6 write_idx)). lia.
  - split; [|done]. unfold p', produce. by destruct (Nat.ltb_spec (i + 1) items).
Qed.


(** The consumer in the same way. *)
Lemma load_own_read s ws rs lw lr p v out w ts m :
  inv s ws rs lw lr p v (consuming out load_read_idx) w → history s read_idx ts = Some m → (seen w read_idx <= ts)%nat →
  let w' := view_after_read Relaxed read_idx ts m w in
  inv (mk_state (history s) (cells s) [(p, v); (consuming out (check_write_idx (m_value m)), w')])
    ws rs lw lr p v (consuming out (check_write_idx (m_value m))) w'.
Proof.
  intros Hi Hm Hts w'. destruct (read_idx_read _ _ _ _ _ _ _ _ _ Hi _ _ Hm) as (k & Hk & Hkn & Hle & -> & _).
  pose proof (q_consumer _ _ _ _ _ _ _ _ _ Hi) as (_ & Hlr & _). assert (ts = lr) as -> by lia.
  pose proof (track_last_index _ _ _ _ _ _ _ (q_reads _ _ _ _ _ _ _ _ _ Hi) Hk) as ->.
  pose proof (below_after_read Relaxed read_idx lr m w) as Hb. fold w' in Hb.
  destruct (q_points _ _ _ _ _ _ _ _ _ Hi) as [_ (Hlen & Hout & _)].
  eapply consumer_moves; [exact Hi|try done..].
  - by eapply consumer_reads.
  - intros k x Hx Hw. apply (q_items _ _ _ _ _ _ _ _ _ Hi k x Hx). pose proof (proj1 Hb write_idx). lia.
  - pose proof (q_filled _ _ _ _ _ _ _ _ _ Hi) as He. pose proof (proj2 Hb 0%nat). cbn in *. lia.
Qed.

Lemma check_items s ws rs lw lr p v out x w ts m :
  inv s ws rs lw lr p v (consuming out (check_write_idx x)) w → history s write_idx ts = Some m →
  (seen w write_idx <= ts)%nat →
  let w' := view_after_read Acquire write_idx ts m w in
  let q' := if (x =? m_value m)%nat then consuming out load_read_idx else consuming out (read_item x) in
  inv (mk_state (history s) (cells s) [(p, v); (q', w')]) ws rs lw lr p v q' w'.
Proof.
  intros Hi Hm Hts w'. destruct (write_idx_read _ _ _ _ _ _ _ _ _ Hi _ _ Hm) as (k & Hk & Hkn & Hle & -> & Hclock).
  destruct (q_points _ _ _ _ _ _ _ _ _ Hi) as [_ (Hlen & Hout & ->)]. cbn zeta.
  pose proof (below_after_read Acquire write_idx ts m w) as Hb. fold w' in Hb.
  pose proof (consumer_reads _ _ _ _ _ _ _ _ _ Hi Acquire write_idx ts m Hm) as Hlim. fold w' in Hlim.
  assert (ts <= seen w' write_idx)%nat as Hseen by apply after_read_seen.
  pose proof (q_items _ _ _ _ _ _ _ _ _ Hi k ts Hk Hts) as Hs. cbn in Hs. unfold popped in Hs. cbn in Hs.
  destruct (Nat.eqb_spec (slot (length out)) (slot k)) as [E|E].
  - eapply consumer_moves; [exact Hi|try done..].
    + intros j y Hy Hw. apply (q_items _ _ _ _ _ _ _ _ _ Hi j y Hy). pose proof (proj1 Hb write_idx). lia.
    + pose proof (q_filled _ _ _ _ _ _ _ _ _ Hi) as He. pose proof (proj2 Hb 0%nat). cbn in *. lia.
  - assert (length out < k)%nat as Hmore by (destruct (decide (k = length out)) as [->|]; [done|lia]).
    eapply consumer_moves; [exact Hi|try done..].
    + intros j y Hy Hw. cbn. assert (k <= j)%nat; [|lia].
      eapply track_order; [eapply q_writes, Hi|exact Hk|exact Hy|lia].
    + assert (clock (m_view m) 0 <= clock w' 0)%nat by apply below_join_r. cbn -[w']. lia.
Qed.

Lemma take_allowed s ws rs lw lr p v out w c :
  inv s ws rs lw lr p v (consuming out (read_item (slot (length out)))) w →
  slot_inv (written p) (length out) (slot (length out)) c →
  write_before c w = true ∧ c_value c = Some (Z.of_nat (length out)).
Proof.
  intros Hi [Hw _]. destruct (in_range _ _ _ _ _ _ _ _ _ Hi) as [Hr Hc]. unfold popped in Hr. cbn [claimed output] in Hc, Hr.
  pose proof (counts p (consuming out (read_item (slot (length out))))) as (Hp1 & Hp2 & _).
  pose proof (q_filled _ _ _ _ _ _ _ _ _ Hi) as He. cbn [claimed] in He.
  destruct Hw as [(_ & _ & Hnone)|(j & Hcw & Hval & Hj & Hs & Hlast)]; [by destruct (Hnone (length out)); [lia|]|].
  assert (j = length out) as ->.
  { destruct (decide (j < length out)%nat); [by destruct (Hlast (length out)); [lia..|]|].
    destruct (decide (length out < j)%nat); [|lia]. pose proof (same_slot (length out) j (eq_sym Hs)). lia. }
  split; [|done]. apply bool_decide_eq_true. rewrite Hcw. cbn. lia.
Qed.

Lemma take_slot s ws rs lw lr p v out w c :
  inv s ws rs lw lr p v (consuming out (read_item (slot (length out)))) w → cells s (slot (length out)) = Some c →
  let w' := tick 1 w in let q' := consuming out (store_read_idx (slot (length out)) (Z.of_nat (length out))) in
  inv (mk_state (history s) (insert_cell (cells s) (slot (length out)) (mk_cell (c_value c) (c_write c)
      (λ u, if decide (u = 1%nat) then clock w' 1 else c_reads c u))) [(p, v); (q', w')]) ws rs lw lr p v q' w'.
Proof.
  intros Hi Hc w' q'. destruct Hi as [Q1 Q2 Q3 Q4 (Q5 & Q5' & Q5'') (Q6 & Q6' & Q6'') Q7 Q8 Q9 Q10 Q11 [Q12 (Q13 & Q14 & _)]].
  unfold q' in *. cbn [taken claimed] in *. unfold popped in *. cbn [output] in *.
  pose proof (proj2 Q6 1%nat) as Hle. cbn in Hle.
  assert (clock w' 1 = S (length out)) as Hclock by (unfold w'; cbn [tick clock]; rewrite decide_True by done; lia).
  split; cbn [taken claimed]; unfold popped; cbn [output threads history cells]; try done.
  - intros l ts m Hm. eapply below_limit; [by eapply Q4|lia..].
  - split_and!; [|done..]. eapply below_limit; [exact Q5|lia..].
  - split_and!; [|exact Q6'|by rewrite Hclock]. split; [exact (proj1 Q6)|].
    intros [|[|t]]; [exact (proj2 Q6 0%nat)|by rewrite Hclock|exact (proj2 Q6 (S (S t)))].
  - intros x Hx. destruct (Q11 x Hx) as (c' & Hc' & [Hw Hr]). unfold insert_cell. destruct (decide (x = _)) as [->|Hne].
    + rewrite Hc in Hc'. injection Hc' as <-. eexists. split; [done|]. split; cbn [c_write c_value c_reads]; [done|].
      intros u. destruct (decide (u = 1%nat)) as [->|]; [right|by destruct (Hr u) as [?|[? _]]; [left|]].
      split; [done|]. exists (length out). rewrite Hclock. split_and!; [done|lia|done].
    + exists c'. split; [done|]. split; [done|]. intros u. destruct (Hr u) as [?|(? & j & ? & ? & ?)]; [by left|right].
      split; [done|]. exists j. split_and!; [done|lia|done].
Qed.

Lemma numbers_S n : numbers (S n) = numbers n ++ [Z.of_nat n].
Proof. unfold numbers. by rewrite seq_S, fmap_app. Qed.
Lemma length_numbers n : length (numbers n) = n.
Proof. unfold numbers. by rewrite length_fmap, length_seq. Qed.

Lemma give_back s ws rs lw lr p v out x d w ts :
  inv s ws rs lw lr p v (consuming out (store_read_idx x d)) w → (seen w read_idx < ts)%nat →
  let w' := observe read_idx ts w in let q' := consume items (out ++ [d]) in
  inv (mk_state (insert_message (history s) read_idx ts (mk_message (next_idx capacity x) w')) (cells s)
    [(p, v); (q', w')]) ws (rs ++ [ts]) lw ts p v q' w'.
Proof.
  intros Hi Hts w' q'.
  destruct Hi as [Q1 Q2 Q3 Q4 (Q5 & Q5' & Q5'') (Q6 & Q6' & Q6'') Q7 Q8 Q9 Q10 Q11 [Q12 (Q13 & Q14 & -> & ->)]].
  cbn [taken claimed] in *. unfold popped in *. cbn [output] in *. rewrite next_slot.
  set (out' := out ++ [Z.of_nat (length out)]) in *.
  assert (length out' = S (length out)) as Hlen by (unfold out'; rewrite length_app; cbn; lia).
  assert (out' = numbers (S (length out))) as Hout' by (unfold out'; by rewrite numbers_S, <-Q14).
  assert (output q' = out' ∧ taken q' = S (length out) ∧ claimed q' = S (length out)) as (E1 & E2 & E3).
  { unfold q', consume. destruct (Nat.ltb_spec (length out') items); cbn; unfold popped; cbn; rewrite ?Hlen; done. }
  assert (below w' (limit lw ts (written p) (S (length out)))) as Hlim.
  { split; [|exact (proj2 Q6)]. intros [].
    - exact (proj1 Q6 write_idx).
    - unfold w'. rewrite observe_seen. cbn. lia. }
  split; unfold popped; rewrite ?E1, ?E2, ?E3, ?Hlen; cbn [threads history cells]; try done.
  - by apply track_other.
  - apply (track_store _ _ _ _ _ lr); [done|lia|done|exact Q6''].
  - intros l ts' m. unfold insert_message. destruct (decide _); [by intros [= <-]|].
    intros Hm. eapply below_limit; [by eapply Q4|lia..].
  - split_and!; [|done..]. eapply below_limit; [exact Q5|lia..].
  - split_and!; [done| |exact Q6'']. unfold w'. rewrite observe_seen. lia.
  - intros k ts' [Hk|[Hge Hk]]%lookup_app_Some Hseen; [by eapply Q7|].
    rewrite (tr_length _ _ _ _ _ _ Q3) in Hge.
    pose proof (Q7 (length out) lr (tr_last _ _ _ _ _ _ Q3) (proj1 Q5 read_idx)). lia.
  - split; [done|]. unfold q', consume. destruct (Nat.ltb_spec (length out') items) as [Hlt|Hge]; cbn.
    + split_and!; [done|by rewrite Hlen|done].
    + rewrite Hout'. f_equal. lia.
Qed.

Lemma producer_step s ws rs lw lr p v q w ts : inv s ws rs lw lr p v q w →
  match perform (code capacity items) 0 ts s with next s' => good s' | impossible => True | undefined _ => False end.
Proof.
  intros Hi. pose proof (proj1 (q_points _ _ _ _ _ _ _ _ _ Hi)) as Hp. pose proof (q_threads _ _ _ _ _ _ _ _ _ Hi) as Ht.
  unfold perform. rewrite Ht. cbn [lookup list_lookup].
  destruct p as [i [|x|x|x]| | |]; cbn [code push]; try done; destruct Hp as [Hp Hx].
  - destruct (history s write_idx ts) as [m|] eqn:Hm; [|done]. case_bool_decide; [|done].
    do 8 eexists. by apply load_own_write.
  - destruct (history s read_idx ts) as [m|] eqn:Hm; [|done]. case_bool_decide; [|done].
    do 8 eexists. pose proof (check_space _ _ _ _ _ _ _ _ _ _ _ _ Hi Hm ltac:(done)) as Hi'. exact Hi'.
  - subst x. pose proof (Nat.mod_upper_bound i capacity ltac:(lia)) as Hlt.
    destruct (q_cells _ _ _ _ _ _ _ _ _ Hi _ Hlt) as (c & Hc & Hs). rewrite Hc.
    destruct (fill_allowed _ _ _ _ _ _ _ _ _ _ Hi Hs) as [-> Hr]. cbn [length]. rewrite Hr. cbn [andb].
    do 8 eexists. by eapply fill_slot.
  - destruct (history s write_idx ts) as [m|] eqn:Hm; [done|]. case_bool_decide; [|done].
    do 8 eexists. pose proof (publish _ _ _ _ _ _ _ _ _ _ _ Hi ltac:(done)) as Hi'. exact Hi'.
Qed.

Lemma consumer_step s ws rs lw lr p v q w ts : inv s ws rs lw lr p v q w →
  match perform (code capacity items) 1 ts s with next s' => good s' | impossible => True | undefined _ => False end.
Proof.
  intros Hi. pose proof (proj2 (q_points _ _ _ _ _ _ _ _ _ Hi)) as Hq. pose proof (q_threads _ _ _ _ _ _ _ _ _ Hi) as Ht.
  unfold perform. rewrite Ht. cbn [lookup list_lookup].
  destruct q as [| |out [|x|x|x d]|]; cbn [code pop]; try done; destruct Hq as (Hq & Hout & Hx).
  - destruct (history s read_idx ts) as [m|] eqn:Hm; [|done]. case_bool_decide; [|done].
    do 8 eexists. by apply load_own_read.
  - destruct (history s write_idx ts) as [m|] eqn:Hm; [|done]. case_bool_decide; [|done].
    do 8 eexists. pose proof (check_items _ _ _ _ _ _ _ _ _ _ _ _ Hi Hm ltac:(done)) as Hi'. exact Hi'.
  - subst x. pose proof (Nat.mod_upper_bound (length out) capacity ltac:(lia)) as Hlt.
    destruct (q_cells _ _ _ _ _ _ _ _ _ Hi _ Hlt) as (c & Hc & Hs). rewrite Hc.
    destruct (take_allowed _ _ _ _ _ _ _ _ _ _ Hi Hs) as [-> Hval]. rewrite Hval.
    do 8 eexists. pose proof (take_slot _ _ _ _ _ _ _ _ _ _ Hi Hc) as Hi'. cbn zeta in Hi'. rewrite Hval in Hi'. exact Hi'.
  - destruct (history s read_idx ts) as [m|] eqn:Hm; [done|]. case_bool_decide; [|done].
    do 8 eexists. pose proof (give_back _ _ _ _ _ _ _ _ _ _ _ _ Hi ltac:(done)) as Hi'. exact Hi'.
Qed.

Lemma good_step s t ts : good s →
  match perform (code capacity items) t ts s with next s' => good s' | impossible => True | undefined _ => False end.
Proof.
  intros (ws & rs & lw & lr & p & v & q & w & Hi). destruct t as [|[|t]]; [by eapply producer_step|by eapply consumer_step|].
  unfold perform. by rewrite (q_threads _ _ _ _ _ _ _ _ _ Hi).
Qed.

Lemma all_printed s : good s → all_finished (code capacity items) s = true →
  ∃ v w, threads s = [(pushed_all, v); (printed_all (numbers items), w)].
Proof.
  intros (ws & rs & lw & lr & p & v & q & w & Hi) Hfin. pose proof (q_points _ _ _ _ _ _ _ _ _ Hi) as [Hp Hq].
  unfold all_finished in Hfin. rewrite (q_threads _ _ _ _ _ _ _ _ _ Hi) in *. cbn in Hfin. exists v, w.
  destruct p as [i []| | |]; try done; destruct q as [| |out []|out]; try done. cbn in Hq. by rewrite Hq.
Qed.

(** ** Progress *)

(** The operations that a thread has left, if every call succeeds. *)
Definition work (p : point) : nat :=
  match p with
  | producing i at_ =>
      4 * (items - i) - match at_ with load_write_idx => 0 | check_read_idx _ => 1 | write_item _ => 2 | store_write_idx _ => 3 end
  | consuming out at_ =>
      4 * (items - length out) -
        match at_ with load_read_idx => 0 | check_write_idx _ => 1 | read_item _ => 2 | store_read_idx _ _ => 3 end
  | _ => 0
  end.
Definition works (s : machine) : nat := sum_list_with (λ th, work th.1) (threads s).
Definition advances (s : machine) : Prop :=
  ∃ t ts s', perform (code capacity items) t ts s = next s' ∧ (works s' < works s)%nat.

Lemma work_produce i : (i < items)%nat → (work (produce items (i + 1)) < 4 * (items - i) - 3)%nat.
Proof. intros Hi. unfold produce. destruct (Nat.ltb_spec (i + 1) items); cbn -[Nat.mul Nat.sub]; lia. Qed.
Lemma work_consume out d : (length out < items)%nat → (work (consume items (out ++ [d])) < 4 * (items - length out) - 3)%nat.
Proof.
  intros Hi. unfold consume. rewrite length_app. cbn [length].
  destruct (Nat.ltb_spec (length out + 1) items); cbn -[Nat.mul Nat.sub]; rewrite ?length_app; cbn -[Nat.mul Nat.sub]; lia.
Qed.

Lemma no_message h l t n times last ts : track h l t n times last → (last < ts)%nat → h l ts = None.
Proof.
  intros Ht Hlt. destruct (h l ts) as [m|] eqn:Hm; [|done].
  destruct (track_index _ _ _ _ _ _ _ _ Ht Hm) as (k & _ & _ & Hle & _). lia.
Qed.

(** When the queue is empty and can hold a number, the producer gets on with the
    indices stored last. *)
Lemma producer_advances s ws rs lw lr p v q w : inv s ws rs lw lr p v q w → (1 < capacity)%nat →
  pushed p = popped q → p ≠ pushed_all → advances s.
Proof.
  intros Hi Hcap1 Heq Hp. pose proof (q_points _ _ _ _ _ _ _ _ _ Hi) as [Hat _]. pose proof (q_threads _ _ _ _ _ _ _ _ _ Hi) as Ht.
  pose proof (q_producer _ _ _ _ _ _ _ _ _ Hi) as ([Hv _] & _ & _). pose proof (Hv write_idx) as Hvw. pose proof (Hv read_idx) as Hvr.
  cbn in Hvw, Hvr. pose proof (q_writes _ _ _ _ _ _ _ _ _ Hi) as Hw. pose proof (q_reads _ _ _ _ _ _ _ _ _ Hi) as Hr.
  destruct p as [i [|x|x|x]| | |]; try done; destruct Hat as [Hit Hx].
  - destruct (tr_at _ _ _ _ _ _ Hw _ _ (tr_last _ _ _ _ _ _ Hw)) as (m & Hm & _). exists 0%nat, lw.
    unfold perform. rewrite Ht. cbn [lookup list_lookup code push]. rewrite Hm, bool_decide_true by done.
    eexists. split; [reflexivity|]. unfold works. rewrite Ht. cbn -[Nat.mul Nat.sub]. lia.
  - destruct (tr_at _ _ _ _ _ _ Hr _ _ (tr_last _ _ _ _ _ _ Hr)) as (m & Hm & Hval & _). exists 0%nat, lr.
    unfold perform. rewrite Ht. cbn [lookup list_lookup code push]. rewrite Hm, bool_decide_true by done.
    subst x. rewrite Hval, next_slot, <-Heq. cbn [pushed]. destruct (Nat.eqb_spec (slot (S i)) (slot i)) as [E|_].
    { pose proof (same_slot i (S i) (eq_sym E)). lia. }
    eexists. split; [reflexivity|]. unfold works. rewrite Ht. cbn -[Nat.mul Nat.sub]. lia.
  - subst x. destruct (q_cells _ _ _ _ _ _ _ _ _ Hi (slot i) (Nat.mod_upper_bound i capacity ltac:(lia))) as (c & Hc & Hs).
    destruct (fill_allowed _ _ _ _ _ _ _ _ _ _ Hi Hs) as [Hbw Hbr]. exists 0%nat, 0%nat.
    unfold perform. rewrite Ht. cbn [lookup list_lookup code push length]. rewrite Hc, Hbw, Hbr. cbn [andb].
    eexists. split; [reflexivity|]. unfold works. rewrite Ht. cbn -[Nat.mul Nat.sub]. lia.
  - exists 0%nat, (S lw). unfold perform. rewrite Ht. cbn [lookup list_lookup code push].
    rewrite (no_message _ _ _ _ _ _ _ Hw), bool_decide_true by lia.
    eexists. split; [reflexivity|]. unfold works. rewrite Ht. cbn -[Nat.mul Nat.sub work]. pose proof (work_produce i Hit). cbn -[Nat.mul Nat.sub]. lia.
Qed.

(** When the queue is not empty, so does the consumer. *)
Lemma consumer_advances s ws rs lw lr p v q w : inv s ws rs lw lr p v q w → (popped q < pushed p)%nat → advances s.
Proof.
  intros Hi Hmore. pose proof (q_points _ _ _ _ _ _ _ _ _ Hi) as [Hpat Hat]. pose proof (q_threads _ _ _ _ _ _ _ _ _ Hi) as Ht.
  pose proof (q_consumer _ _ _ _ _ _ _ _ _ Hi) as ([Hv _] & _ & _). pose proof (Hv write_idx) as Hvw. pose proof (Hv read_idx) as Hvr.
  cbn in Hvw, Hvr. pose proof (q_writes _ _ _ _ _ _ _ _ _ Hi) as Hw. pose proof (q_reads _ _ _ _ _ _ _ _ _ Hi) as Hr.
  destruct (in_range _ _ _ _ _ _ _ _ _ Hi) as [Hroom _]. pose proof (counts p q) as (Hpw & Hwr & _).
  destruct q as [| |out [|x|x|x d]|out]; try done.
  5: { exfalso. cbn in Hat. unfold popped in Hmore. cbn in Hmore. subst out. rewrite length_numbers in Hmore.
       destruct p as [i at_| | |]; cbn in Hmore, Hpat; lia. }
  all: destruct Hat as (Hit & Hout & Hx); unfold popped in *; cbn [output] in *.
  - destruct (tr_at _ _ _ _ _ _ Hr _ _ (tr_last _ _ _ _ _ _ Hr)) as (m & Hm & _). exists 1%nat, lr.
    unfold perform. rewrite Ht. cbn [lookup list_lookup code pop]. rewrite Hm, bool_decide_true by done.
    eexists. split; [reflexivity|]. unfold works. rewrite Ht. cbn -[Nat.mul Nat.sub]. lia.
  - destruct (tr_at _ _ _ _ _ _ Hw _ _ (tr_last _ _ _ _ _ _ Hw)) as (m & Hm & Hval & _). exists 1%nat, lw.
    unfold perform. rewrite Ht. cbn [lookup list_lookup code pop]. rewrite Hm, bool_decide_true by done.
    subst x. rewrite Hval. destruct (Nat.eqb_spec (slot (length out)) (slot (pushed p))) as [E|_].
    { pose proof (same_slot _ _ E Hmore). lia. }
    eexists. split; [reflexivity|]. unfold works. rewrite Ht. cbn -[Nat.mul Nat.sub]. lia.
  - subst x. destruct (q_cells _ _ _ _ _ _ _ _ _ Hi (slot (length out)) (Nat.mod_upper_bound (length out) capacity ltac:(lia))) as (c & Hc & Hs).
    destruct (take_allowed _ _ _ _ _ _ _ _ _ _ Hi Hs) as [Hbw Hval]. exists 1%nat, 0%nat.
    unfold perform. rewrite Ht. cbn [lookup list_lookup code pop]. rewrite Hc, Hbw, Hval.
    eexists. split; [reflexivity|]. unfold works. rewrite Ht. cbn -[Nat.mul Nat.sub]. lia.
  - exists 1%nat, (S lr). unfold perform. rewrite Ht. cbn [lookup list_lookup code pop].
    rewrite (no_message _ _ _ _ _ _ _ Hr), bool_decide_true by lia.
    eexists. split; [reflexivity|]. unfold works. rewrite Ht. cbn -[Nat.mul Nat.sub work]. pose proof (work_consume out d Hit).
    cbn -[Nat.mul Nat.sub]. lia.
Qed.

Lemma queue_can_advance s : (1 < capacity)%nat → good s → all_finished (code capacity items) s = false → advances s.
Proof.
  intros Hcap1 (ws & rs & lw & lr & p & v & q & w & Hi) Hfin.
  destruct (in_range _ _ _ _ _ _ _ _ _ Hi) as [_ Hc]. pose proof (counts p q) as (_ & _ & Hct & Htc).
  destruct (decide (popped q < pushed p)%nat) as [Hlt|Hge]; [by eapply consumer_advances|].
  eapply producer_advances; [exact Hi|done|lia|]. intros ->.
  apply not_true_iff_false in Hfin. apply Hfin. unfold all_finished. rewrite (q_threads _ _ _ _ _ _ _ _ _ Hi).
  pose proof (q_points _ _ _ _ _ _ _ _ _ Hi) as [_ Hq]. unfold popped in *. cbn [pushed] in *.
  destruct q as [| |out at_|out]; try done. cbn in *. lia.
Qed.

End Invariant.

(** C16. For every schedule, number of items and capacity from 1 on: nothing is undefined,
    so that no slot outside the buffer and no uninitialised one is accessed and there is
    no data race (with capacity 0, which [new] accepts, the first push writes outside the
    buffer: [no_slots_undefined]); the numbers that are printed are the first ones that were pushed, in
    order, and fewer than the capacity are in the queue; and when the threads have
    finished, all numbers have been printed. *)
Theorem queue_in_order capacity items schedule :
  (0 < capacity)%nat →
  match run (code capacity items) schedule (start capacity items) with
  | next s =>
      ∃ p v q w, threads s = [(p, v); (q, w)] ∧ output q = numbers (length (output q)) ∧
        (length (output q) <= pushed items p < length (output q) + capacity)%nat ∧
        (all_finished (code capacity items) s = true → q = printed_all (numbers items))
  | impossible => True
  | undefined _ => False
  end.
Proof.
  intros Hcap.
  pose proof (run_invariant _ (good capacity items) schedule _ (good_step capacity items Hcap) (start_good capacity items Hcap)) as Hrun.
  destruct (run _ schedule _) as [s| |f]; [|done|done]. pose proof Hrun as (ws & rs & lw & lr & p & v & q & w & Hi).
  exists p, v, q, w. pose proof (q_threads _ _ _ _ _ _ _ _ _ _ _ Hi) as Ht. split; [done|].
  destruct (in_range _ _ _ _ _ _ _ _ _ _ _ Hi) as [Hr Hc]. destruct (counts capacity items Hcap p q) as (H1 & H2 & H3 & H4).
  unfold popped in *. pose proof (proj2 (q_points _ _ _ _ _ _ _ _ _ _ _ Hi)) as Hq. split_and!; [|lia..|].
  - destruct q as [| |out at_|out]; try done; [by destruct Hq as (_ & Hout & _)|]. cbn in *. subst out. by rewrite length_numbers.
  - intros Hfin. destruct (all_printed _ _ _ Hrun Hfin) as (v' & w' & Ht'). rewrite Ht in Ht'. by injection Ht'.
Qed.

(** C17. From every state that a schedule reaches, another one lets both threads finish
    with all numbers printed in order, if the queue has two slots or more. *)
Theorem queue_finishes capacity items schedule s :
  (1 < capacity)%nat → run (code capacity items) schedule (start capacity items) = next s →
  ∃ schedule' s' v w, run (code capacity items) schedule' s = next s' ∧
    threads s' = [(pushed_all, v); (printed_all (numbers items), w)].
Proof.
  intros Hcap Hrun. assert (0 < capacity)%nat as Hcap0 by lia.
  pose proof (run_invariant _ (good capacity items) schedule _ (good_step capacity items Hcap0) (start_good capacity items Hcap0)) as Hs.
  rewrite Hrun in Hs.
  destruct (can_finish _ (good capacity items) (works items) s (good_step capacity items Hcap0)) as (schedule' & s' & Hrun' & Hend & Hs').
  - intros s0 Hs0 Hfin. by apply (queue_can_advance capacity items Hcap0).
  - done.
  - destruct (all_printed _ _ _ Hs' Hend) as (v & w & Ht). by exists schedule', s', v, w.
Qed.

(** As in the program, 200 numbers through a queue with 100 slots. *)
Lemma queue_in_order_witness : (0 < 100)%nat ∧
  match run (code 100 200) [(0%nat, 0%nat)] (start 100 200) with
  | next s =>
      ∃ p v q w, threads s = [(p, v); (q, w)] ∧ output q = numbers (length (output q)) ∧
        (length (output q) <= pushed 200 p < length (output q) + 100)%nat ∧
        (all_finished (code 100 200) s = true → q = printed_all (numbers 200))
  | impossible => True
  | undefined _ => False
  end.
Proof. split; [lia|]. apply (queue_in_order 100 200 [(0%nat, 0%nat)]). lia. Defined.

Lemma queue_finishes_witness :
  ∃ s, run (code 100 200) [(0%nat, 0%nat); (1%nat, 0%nat)] (start 100 200) = next s ∧
    ∃ schedule' s' v w, run (code 100 200) schedule' s = next s' ∧
      threads s' = [(pushed_all, v); (printed_all (numbers 200), w)].
Proof. eexists. split; [reflexivity|]. apply (queue_finishes 100 200 [(0%nat, 0%nat); (1%nat, 0%nat)]); [lia|reflexivity]. Defined.

(** A queue without slots writes outside its buffer, since the index after 0 is not
    the capacity. *)
Lemma no_slots_undefined items : (0 < items)%nat →
  run (code 0 items) [(0, 0); (0, 0); (0, 0)]%nat (start 0 items) = undefined no_such_location.
Proof. intros Hi. unfold start, produce. destruct items; [lia|reflexivity]. Qed.

(** The type lets safe code push from two threads, which is a data race. *)
Lemma two_producers_race :
  run (code 2 2) [(0, 0); (1, 0); (0, 0); (1, 0); (0, 0); (1, 0)]%nat
    (new 2 [(produce 2 0, no_view); (produce 2 0, no_view)]) = undefined data_race.
Proof. reflexivity. Qed.
