(* ===== verification/Proglog.v ===== *)
(** distributed-services-with-go/proglog: the log of records in a file
    (internal/log/store.go) and the log in memory behind two HTTP handlers
    (internal/server).  The store, which buffers its writes, behaves as one sequence
    of bytes; a record is read back from the position that Append has returned for
    it, also after the file is closed and opened again; when writes fail, reads
    return the right record or an error, and the file holds a prefix of the records.

    Every method of the two logs holds its mutex to the end, so that concurrent
    calls take place one after the other. *)

From S2P Require Import Prelude.

(** ** What the code uses of the packages os, bufio and encoding/binary *)

Inductive error := EOF | ErrClosed | ErrNegativeOffset | ErrIO.
#[global] Instance error_eq_dec : EqDecision error.
Proof. solve_decision. Defined.

(** Conversion to [int64]. *)
Definition i64 (x : Z) : Z := (x + 2 ^ 63) mod 2 ^ 64 - 2 ^ 63.

(** What a call returns, with an error or without, or that it panics. *)
Inductive result (A : Type) := ok (a : A) | fails (e : error) | panics.
#[global] Arguments ok {A} a.
#[global] Arguments fails {A} e.
#[global] Arguments panics {A}.

Module File.
(** An open file: its bytes, where the handle writes, unless it was opened to append,
    and what the system calls to come do: a number is that of the bytes after which
    a call fails; without one it succeeds. *)
Record t := mk {
  contents : list Z;
  offset : nat;
  append_mode : bool;
  closed : bool;
  faults : list (option nat);
}.

Definition after_call (f : t) : t :=
  mk (contents f) (offset f) (append_mode f) (closed f) (tail (faults f)).
Definition fault (f : t) : option nat := default None (head (faults f)).

(** [f.Write(b)]: how many bytes are written, and the error. *)
Definition put (c : list Z) (at_ : nat) (b : list Z) : list Z :=
  take at_ (c ++ replicate (at_ - length c) 0) ++ b ++ drop (at_ + length b) c.
Definition Write (f : t) (b : list Z) : nat * option error * t :=
  if closed f then (0%nat, Some ErrClosed, f) else
  let '(n, e) := match fault f with
                 | Some k => if (k <? length b)%nat then (k, Some ErrIO) else (length b, None)
                 | None => (length b, None)
                 end in
  let at_ := if append_mode f then length (contents f) else offset f in
  (n, e, mk (put (contents f) at_ (take n b)) (at_ + n) (append_mode f) false (tail (faults f))).

(** [f.ReadAt(b, off)] with [n] bytes in [b]: the bytes that are read. *)
Definition bytes_at (c : list Z) (n : nat) (off : Z) : list Z := take n (drop (Z.to_nat off) c).
Definition ReadAt (f : t) (n : nat) (off : Z) : list Z * option error * t :=
  if off <? 0 then ([], Some ErrNegativeOffset, f)
  else if (n =? 0)%nat then ([], None, f)
  else if closed f then ([], Some ErrClosed, f)
  else
    let d := bytes_at (contents f) n off in
    let f' := after_call f in
    match fault f with
    | Some k => (take k d, Some ErrIO, f')
    | None => (d, if (length d <? n)%nat then Some EOF else None, f')
    end.

Definition Close (f : t) : option error * t :=
  if closed f then (Some ErrClosed, f)
  else (None, mk (contents f) (offset f) (append_mode f) true (faults f)).
End File.

Module Writer.
(** [bufio.Writer]: the bytes in its buffer, and the first error, which stays. *)
Record t := mk { buffered : list Z; err : option error }.

Definition buf_size : nat := 4096.

Definition Flush (b : t) (f : File.t) : option error * t * File.t :=
  match err b with
  | Some e => (Some e, b, f)
  | None =>
      if (length (buffered b) =? 0)%nat then (None, b, f) else
      let '(n, e, f) := File.Write f (buffered b) in
      match e with
      | Some e => (Some e, mk (drop n (buffered b)) (Some e), f)
      | None => (None, mk [] None, f)
      end
  end.

(** [b.Write(p)]: while [p] does not fit, it is written past an empty buffer, or fills
    the buffer, which is flushed. *)
Fixpoint fill (fuel : nat) (b : t) (f : File.t) (nn : nat) (p : list Z) : option (t * File.t * nat * list Z) :=
  if (buf_size - length (buffered b) <? length p)%nat && bool_decide (err b = None) then
    match fuel with
    | O => None
    | S fuel =>
        if (length (buffered b) =? 0)%nat then
          let '(n, e, f) := File.Write f p in
          fill fuel (mk (buffered b) e) f (nn + n) (drop n p)
        else
          let n := (buf_size - length (buffered b))%nat in
          let '(_, b, f) := Flush (mk (buffered b ++ take n p) (err b)) f in
          fill fuel b f (nn + n) (drop n p)
    end
  else Some (b, f, nn, p).
Definition Write (b : t) (f : File.t) (p : list Z) : nat * option error * t * File.t :=
  match fill 2 b f 0 p with
  | Some (b, f, nn, p) =>
      match err b with
      | Some e => (nn, Some e, b, f)
      | None => ((nn + length p)%nat, None, mk (buffered b ++ p) None, f)
      end
  | None => (0%nat, None, b, f)  (* the loop takes at most two rounds *)
  end.
End Writer.

(** [binary.BigEndian]: the bytes of an integer, the highest first. *)
Fixpoint be_bytes (n : nat) (x : Z) : list Z :=
  match n with O => [] | S n => (x / 256 ^ Z.of_nat n) mod 256 :: be_bytes n x end.
Definition be_value (b : list Z) : Z := foldl (λ v x, v * 256 + x) 0 b.

(** ** internal/log/store.go *)

Definition lenWidth : nat := 8.

Record store := mk_store { store_file : File.t; store_buf : Writer.t; store_size : Z }.

Definition newStore (f : File.t) : result store :=
  match File.fault f with
  | Some _ => fails ErrIO
  | None => ok (mk_store (File.after_call f) (Writer.mk [] None) (u64 (Z.of_nat (length (File.contents f)))))
  end.

Section Store.
(** The longest slice that [make] returns; for longer ones it panics. *)
Context (max_alloc : Z).

Definition Append (s : store) (p : list Z) : result (Z * Z) * store :=
  let pos := store_size s in
  let '(_, e, b, f) := Writer.Write (store_buf s) (store_file s) (be_bytes lenWidth (u64 (Z.of_nat (length p)))) in
  match e with
  | Some e => (fails e, mk_store f b (store_size s))
  | None =>
      let '(w, e, b, f) := Writer.Write b f p in
      match e with
      | Some e => (fails e, mk_store f b (store_size s))
      | None =>
          let w := u64 (Z.of_nat (w + lenWidth)) in
          (ok (w, pos), mk_store f b (u64 (store_size s + w)))
      end
  end.

Definition Read (s : store) (pos : Z) : result (list Z) * store :=
  let '(e, b, f) := Writer.Flush (store_buf s) (store_file s) in
  match e with
  | Some e => (fails e, mk_store f b (store_size s))
  | None =>
      let '(size, e, f) := File.ReadAt f lenWidth (i64 pos) in
      match e with
      | Some e => (fails e, mk_store f b (store_size s))
      | None =>
          if max_alloc <? be_value size then (panics, mk_store f b (store_size s)) else
          let '(d, e, f) := File.ReadAt f (Z.to_nat (be_value size)) (i64 (u64 (pos + Z.of_nat lenWidth))) in
          match e with
          | Some e => (fails e, mk_store f b (store_size s))
          | None => (ok d, mk_store f b (store_size s))
          end
      end
  end.

(** The bytes that are put into an argument of length [n], and the error. *)
Definition ReadAt (s : store) (n : nat) (off : Z) : (list Z * option error) * store :=
  let '(e, b, f) := Writer.Flush (store_buf s) (store_file s) in
  match e with
  | Some e => (([], Some e), mk_store f b (store_size s))
  | None => let '(d, e, f) := File.ReadAt f n off in ((d, e), mk_store f b (store_size s))
  end.

Definition Close (s : store) : option error * store :=
  let '(e, b, f) := Writer.Flush (store_buf s) (store_file s) in
  match e with
  | Some e => (Some e, mk_store f b (store_size s))
  | None => let '(e, f) := File.Close f in (e, mk_store f b (store_size s))
  end.

(** Calls on a store, and what they return. *)
Inductive call := call_append (p : list Z) | call_read (pos : Z) | call_read_at (n : nat) (off : Z).
Inductive reply :=
  | append_returns (r : result (Z * Z))
  | read_returns (r : result (list Z))
  | read_at_returns (r : list Z * option error).

Definition perform_call (s : store) (c : call) : reply * store :=
  match c with
  | call_append p => let '(r, s) := Append s p in (append_returns r, s)
  | call_read pos => let '(r, s) := Read s pos in (read_returns r, s)
  | call_read_at n off => let '(r, s) := ReadAt s n off in (read_at_returns r, s)
  end.
Fixpoint perform_calls (s : store) (cs : list call) : list reply * store :=
  match cs with
  | [] => ([], s)
  | c :: cs => let '(r, s) := perform_call s c in let '(rs, s) := perform_calls s cs in (r :: rs, s)
  end.

(** ** The specification: a sequence of bytes *)

Definition frame (p : list Z) : list Z := be_bytes lenWidth (Z.of_nat (length p)) ++ p.

Definition spec_read_at (log : list Z) (n : nat) (off : Z) : list Z * option error :=
  if off <? 0 then ([], Some ErrNegativeOffset)
  else let d := File.bytes_at log n off in (d, if (length d <? n)%nat then Some EOF else None).
Definition spec_read (log : list Z) (pos : Z) : result (list Z) :=
  match spec_read_at log lenWidth (i64 pos) with
  | (_, Some e) => fails e
  | (size, None) =>
      if max_alloc <? be_value size then panics else
      match spec_read_at log (Z.to_nat (be_value size)) (i64 (u64 (pos + Z.of_nat lenWidth))) with
      | (_, Some e) => fails e
      | (d, None) => ok d
      end
  end.
Definition spec_call (log : list Z) (c : call) : reply * list Z :=
  match c with
  | call_append p => (append_returns (ok (Z.of_nat (length (frame p)), Z.of_nat (length log))), log ++ frame p)
  | call_read pos => (read_returns (spec_read log pos), log)
  | call_read_at n off => (read_at_returns (spec_read_at log n off), log)
  end.
Fixpoint spec_calls (log : list Z) (cs : list call) : list reply * list Z :=
  match cs with
  | [] => ([], log)
  | c :: cs => let '(r, log) := spec_call log c in let '(rs, log) := spec_calls log cs in (r :: rs, log)
  end.

(** ** Bytes *)

Lemma be_value_app n x v : foldl (λ v x, v * 256 + x) v (be_bytes n x) = v * 256 ^ Z.of_nat n + x mod 256 ^ Z.of_nat n.
Proof.
  revert v. induction n as [|n IH]; intros v; [cbn; rewrite Z.mod_1_r; lia|].
  cbn [be_bytes foldl]. rewrite IH, Nat2Z.inj_succ, Z.pow_succ_r by lia.
  pose proof (Z.pow_pos_nonneg 256 (Z.of_nat n) ltac:(lia) ltac:(lia)) as Hp.
  rewrite (Z.mul_comm 256), Z.rem_mul_r by lia. lia.
Qed.
Lemma be_value_bytes x : 0 <= x < 2 ^ 64 → be_value (be_bytes lenWidth x) = x.
Proof. intros Hx. unfold be_value. rewrite be_value_app. change (256 ^ Z.of_nat lenWidth) with (2 ^ 64). rewrite Z.mod_small; lia. Qed.
Lemma length_be_bytes n x : length (be_bytes n x) = n.
Proof. induction n as [|n IH]; cbn; [done|by rewrite IH]. Qed.
Lemma length_frame p : length (frame p) = (lenWidth + length p)%nat.
Proof. unfold frame. by rewrite length_app, length_be_bytes. Qed.
Lemma i64_small x : 0 <= x < 2 ^ 63 → i64 x = x.
Proof. intros Hx. unfold i64. rewrite Z.mod_small; lia. Qed.

Lemma bytes_at_frame l p l' : File.bytes_at (l ++ p ++ l') (length p) (Z.of_nat (length l)) = p.
Proof. unfold File.bytes_at. by rewrite Nat2Z.id, drop_app_length, take_app_length. Qed.

(** The record at a position of the sequence is read. *)
Lemma spec_read_frame l p l' :
  Z.of_nat (length (l ++ frame p ++ l')) < 2 ^ 63 → Z.of_nat (length p) <= max_alloc →
  spec_read (l ++ frame p ++ l') (Z.of_nat (length l)) = ok p.
Proof.
  intros Hlen Hp. rewrite !length_app, length_frame in Hlen. unfold lenWidth in Hlen. unfold spec_read.
  rewrite i64_small by lia.
  assert (spec_read_at (l ++ frame p ++ l') lenWidth (Z.of_nat (length l)) = (be_bytes lenWidth (Z.of_nat (length p)), None)) as ->.
  { unfold spec_read_at. rewrite (proj2 (Z.ltb_ge _ _)) by lia. unfold frame. rewrite <-(app_assoc _ p).
    rewrite <-(length_be_bytes lenWidth (Z.of_nat (length p))) at 1 3.
    rewrite bytes_at_frame, Nat.ltb_irrefl. done. }
  rewrite be_value_bytes by lia. rewrite (proj2 (Z.ltb_ge _ _)) by lia.
  rewrite u64_small, i64_small by (unfold lenWidth; lia).
  assert (spec_read_at (l ++ frame p ++ l') (Z.to_nat (Z.of_nat (length p))) (Z.of_nat (length l) + Z.of_nat lenWidth) = (p, None)) as ->; [|done].
  unfold spec_read_at. rewrite (proj2 (Z.ltb_ge _ _)) by lia. rewrite Nat2Z.id.
  replace (Z.of_nat (length l) + Z.of_nat lenWidth) with (Z.of_nat (length (l ++ be_bytes lenWidth (Z.of_nat (length p)))))
    by (rewrite length_app, length_be_bytes; lia).
  unfold frame. rewrite <-(app_assoc _ p), app_assoc, bytes_at_frame, Nat.ltb_irrefl. done.
Qed.

(** ** The file and the buffer *)

(** An open file whose handle writes at its end. *)
Definition appending (f : File.t) : Prop :=
  File.closed f = false ∧ (File.append_mode f = true ∨ File.offset f = length (File.contents f)).
Definition healthy (f : File.t) : Prop := File.faults f = [].

Lemma put_end c b : File.put c (length c) b = c ++ b.
Proof.
  unfold File.put. rewrite Nat.sub_diag. cbn [replicate]. rewrite app_nil_r, firstn_all, drop_ge by lia. by rewrite app_nil_r.
Qed.

Lemma file_write f b n e f' : appending f → File.Write f b = (n, e, f') →
  appending f' ∧ File.contents f' = File.contents f ++ take n b ∧ (n <= length b)%nat ∧
  (e = None → n = length b) ∧ (healthy f → e = None ∧ healthy f').
Proof.
  intros [Hopen Hend] Hw. unfold File.Write in Hw. rewrite Hopen in Hw.
  assert ((if File.append_mode f then length (File.contents f) else File.offset f) = length (File.contents f)) as Hat
    by (destruct Hend as [->| ->]; [|destruct (File.append_mode f)]; done).
  cbv zeta in Hw. rewrite Hat in Hw. unfold File.fault, healthy, appending in *.
  revert Hw. destruct (head (File.faults f)) as [[k|]|] eqn:Hf; cbn [default from_option id].
  1: destruct (Nat.ltb_spec k (length b)).
  all: rewrite put_end; intros [= <- <- <-]; cbn [File.contents File.closed File.append_mode File.offset File.faults].
  all: split_and!; try done; try lia; try (intros Hh; rewrite Hh in *; done).
  all: try (right; rewrite length_app, length_take; lia).
Qed.

Lemma flush b f e b' f' : appending f → Writer.err b = None → Writer.Flush b f = (e, b', f') →
  appending f' ∧ File.contents f' ++ Writer.buffered b' = File.contents f ++ Writer.buffered b ∧
  (length (Writer.buffered b') <= length (Writer.buffered b))%nat ∧ Writer.err b' = e ∧
  (e = None → Writer.buffered b' = []) ∧ (healthy f → e = None ∧ healthy f').
Proof.
  intros Hf Herr Hw. unfold Writer.Flush in Hw. rewrite Herr in Hw.
  destruct (Nat.eqb_spec (length (Writer.buffered b)) 0) as [H0|H0].
  { injection Hw as <- <- <-. apply nil_length_inv in H0. by split_and!. }
  destruct (File.Write f (Writer.buffered b)) as [[n e1] f1] eqn:E.
  destruct (file_write _ _ _ _ _ Hf E) as (Ha & Hc & Hn & Hfull & Hh).
  destruct e1 as [e1|]; injection Hw as <- <- <-; cbn [Writer.buffered Writer.err].
  - split_and!; try done.
    + by rewrite Hc, <-app_assoc, take_drop.
    + rewrite length_drop. lia.
  - rewrite (Hfull eq_refl) in *. split_and!; try done.
    + by rewrite Hc, firstn_all, app_nil_r.
    + cbn. lia.
Qed.

(** The loop of [Writer.Write] in which nothing is left to do. *)
Lemma fill_stops fuel b f nn p :
  (length p <= Writer.buf_size - length (Writer.buffered b))%nat ∨ Writer.err b ≠ None →
  Writer.fill fuel b f nn p = Some (b, f, nn, p).
Proof.
  intros H. destruct fuel; cbn [Writer.fill];
    (destruct (Nat.ltb_spec (Writer.buf_size - length (Writer.buffered b)) (length p)); [|done]);
    (destruct H as [H|H]; [lia|by rewrite bool_decide_false]).
Qed.

Lemma fill_round fuel b f nn p :
  Writer.fill (S fuel) b f nn p =
    if (Writer.buf_size - length (Writer.buffered b) <? length p)%nat && bool_decide (Writer.err b = None) then
      if (length (Writer.buffered b) =? 0)%nat then
        let '(n, e, f) := File.Write f p in Writer.fill fuel (Writer.mk (Writer.buffered b) e) f (nn + n) (drop n p)
      else
        let n := (Writer.buf_size - length (Writer.buffered b))%nat in
        let '(_, b, f) := Writer.Flush (Writer.mk (Writer.buffered b ++ take n p) (Writer.err b)) f in
        Writer.fill fuel b f (nn + n) (drop n p)
    else Some (b, f, nn, p).
Proof. reflexivity. Qed.

(** What [Writer.Write] has taken of its argument [p]: [q], of length [nn]; the rest
    is left. *)
Definition taken_from (b : Writer.t) (f : File.t) (p : list Z) (b' : Writer.t) (f' : File.t) (nn : nat) (r : list Z) : Prop :=
  ∃ q, p = q ++ r ∧ nn = length q ∧ appending f' ∧
    File.contents f' ++ Writer.buffered b' = (File.contents f ++ Writer.buffered b) ++ q ∧
    (length (Writer.buffered b') <= Writer.buf_size)%nat ∧
    (Writer.err b' = None → length r <= Writer.buf_size - length (Writer.buffered b'))%nat ∧
    (healthy f → Writer.err b' = None ∧ healthy f').

Lemma fill_direct fuel b f nn p : appending f → Writer.buffered b = [] → Writer.err b = None → (0 < fuel)%nat →
  ∃ b' f' n r, Writer.fill fuel b f nn p = Some (b', f', (nn + n)%nat, r) ∧ taken_from b f p b' f' n r.
Proof.
  intros Hf Hb Herr Hfuel. destruct (decide (length p <= Writer.buf_size)%nat) as [Hfit|Hlong].
  { exists b, f, 0%nat, p. rewrite Nat.add_0_r. split; [apply fill_stops; left; rewrite Hb; cbn [length]; lia|].
    exists []. rewrite app_nil_r. split_and!; try done; rewrite Hb; cbn [length]; lia. }
  destruct fuel as [|fuel]; [lia|]. cbn [Writer.fill]. rewrite Hb, Herr. cbn [length Nat.eqb].
  rewrite (proj2 (Nat.ltb_lt _ _)) by lia. cbn [andb]. rewrite bool_decide_true by done.
  destruct (File.Write f p) as [[n e] f1] eqn:E. destruct (file_write _ _ _ _ _ Hf E) as (Ha & Hc & Hn & Hfull & Hh).
  exists (Writer.mk [] e), f1, n, (drop n p). split.
  - apply fill_stops. destruct e as [e|]; [by right|left]. rewrite (Hfull eq_refl), drop_all. cbn [length]. lia.
  - exists (take n p). rewrite take_drop, length_take. cbn [Writer.buffered Writer.err].
    split_and!; try done; [lia|by rewrite Hb, !app_nil_r|cbn [length]; lia|].
    intros ->. rewrite (Hfull eq_refl), drop_all. cbn [length]. lia.
Qed.

Lemma fill_takes b f p : appending f → Writer.err b = None → (length (Writer.buffered b) <= Writer.buf_size)%nat →
  ∃ b' f' n r, Writer.fill 2 b f 0 p = Some (b', f', n, r) ∧ taken_from b f p b' f' n r.
Proof.
  intros Hf Herr Hlen. destruct (decide (Writer.buffered b = [])) as [Hb|Hb]; [by apply (fill_direct 2); try done; lia|].
  destruct (decide (length p <= Writer.buf_size - length (Writer.buffered b))%nat) as [Hfit|Hlong].
  { exists b, f, 0%nat, p. split; [apply fill_stops; by left|]. exists []. rewrite app_nil_r. by split_and!. }
  set (n := (Writer.buf_size - length (Writer.buffered b))%nat) in *.
  rewrite fill_round. cbv zeta. fold n.
  rewrite (proj2 (Nat.ltb_lt _ _)) by lia. rewrite bool_decide_true by done. cbn [andb].
  destruct (Nat.eqb_spec (length (Writer.buffered b)) 0) as [H0|_]; [by apply nil_length_inv in H0|].
  destruct (Writer.Flush _ f) as [[e b1] f1] eqn:E.
  apply flush in E as (Ha & Hc & Hl & He & Hempty & Hh); [|done|by cbn]. cbn [Writer.buffered] in *.
  assert (length (take n p) = n) as Hn by (rewrite length_take; lia).
  rewrite length_app, Hn in Hl. rewrite app_assoc in Hc.
  destruct e as [e|].
  - exists b1, f1, (0 + n)%nat, (drop n p). split; [apply fill_stops; right; by rewrite He|].
    exists (take n p). rewrite take_drop. split_and!; try done; [unfold n in Hl; lia|by rewrite He|].
    intros H. by destruct (Hh H).
  - destruct (fill_direct 1 b1 f1 (0 + n) (drop n p)) as (b2 & f2 & n2 & r & Hfill & q & Hq & -> & Ha2 & Hc2 & Hl2 & Hr & Hh2);
      [done|by apply Hempty|done|lia|].
    exists b2, f2, (0 + n + length q)%nat, r. split; [done|]. exists (take n p ++ q).
    rewrite length_app, Hn, <-app_assoc, <-Hq, take_drop, Hc2, Hc, <-!app_assoc. split_and!; try done.
    intros H. by apply Hh2, Hh.
Qed.

Lemma buffered_write b f p nn e b' f' :
  appending f → Writer.err b = None → (length (Writer.buffered b) <= Writer.buf_size)%nat →
  Writer.Write b f p = (nn, e, b', f') →
  Writer.err b' = e ∧ appending f' ∧ (length (Writer.buffered b') <= Writer.buf_size)%nat ∧
  (∃ q, q `prefix_of` p ∧ File.contents f' ++ Writer.buffered b' = (File.contents f ++ Writer.buffered b) ++ q ∧
     (e = None → q = p ∧ nn = length p)) ∧
  (healthy f → e = None ∧ healthy f').
Proof.
  intros Hf Herr Hlen Hw. destruct (fill_takes b f p Hf Herr Hlen) as (b1 & f1 & n & r & Hfill & q & -> & -> & Ha & Hc & Hl & Hr & Hh).
  unfold Writer.Write in Hw. rewrite Hfill in Hw. destruct (Writer.err b1) as [e1|] eqn:He; injection Hw as <- <- <- <-.
  - split_and!; try done. exists q. split; [by apply prefix_app_r|]. by split.
  - cbn [Writer.buffered Writer.err]. specialize (Hr eq_refl). rewrite length_app. split_and!; try done; [lia|].
    exists (q ++ r). split; [done|]. rewrite length_app, !app_assoc, Hc. by split.
Qed.

(** ** The store *)

(** The store stands for the bytes [log], some of them still in the buffer; or a write
    has failed, and the file has a first part of them. *)
Record rep (s : store) (log : list Z) : Prop := {
  rep_file : appending (store_file s);
  rep_buffer : (length (Writer.buffered (store_buf s)) <= Writer.buf_size)%nat;
  rep_err : Writer.err (store_buf s) = None;
  rep_bytes : File.contents (store_file s) ++ Writer.buffered (store_buf s) = log;
  rep_size : store_size s = Z.of_nat (length log);
}.
Definition failed (s : store) (log : list Z) : Prop :=
  Writer.err (store_buf s) ≠ None ∧ File.contents (store_file s) `prefix_of` log.

Definition is_error (r : reply) : Prop :=
  match r with append_returns (fails _) | read_returns (fails _) | read_at_returns (_, Some _) => True | _ => False end.
Definition is_append (c : call) : bool := match c with call_append _ => true | _ => false end.

(** What a call does to the store of [log]: as specified, or it reads and fails, or a
    write fails; when no system call fails, as specified. *)
Definition acts (s : store) (log : list Z) (c : call) (r : reply) (s' : store) : Prop :=
  ((rep s' (spec_call log c).2 ∧ (r = (spec_call log c).1 ∨ is_append c = false ∧ is_error r)) ∨
     (failed s' (spec_call log c).2 ∧ is_error r)) ∧
  (healthy (store_file s) → rep s' (spec_call log c).2 ∧ r = (spec_call log c).1 ∧ healthy (store_file s')).

Lemma file_read f n off d e f' : appending f → File.ReadAt f n off = (d, e, f') →
  File.contents f' = File.contents f ∧ appending f' ∧
  ((d, e) = spec_read_at (File.contents f) n off ∨ e ≠ None) ∧
  (healthy f → (d, e) = spec_read_at (File.contents f) n off ∧ healthy f').
Proof.
  intros Hf. pose proof Hf as [Hopen _]. unfold File.ReadAt, spec_read_at. rewrite Hopen.
  destruct (off <? 0); [intros [= <- <- <-]; split_and!; by try left|].
  destruct (Nat.eqb_spec n 0) as [->|_]; [intros [= <- <- <-]; split_and!; by try left|].
  unfold File.fault, healthy. destruct (File.faults f) as [|[k|] l] eqn:Hfaults;
    cbn [head tail default from_option id]; intros [= <- <- <-];
    (split; [done|split; [done|split; [first [by left|by right]|intros ?; first [discriminate|split; [done|cbn; by rewrite Hfaults]]]]]).
Qed.

Lemma flush_store s log e b f : rep s log → Writer.Flush (store_buf s) (store_file s) = (e, b, f) →
  (e = None ∧ rep (mk_store f b (store_size s)) log ∧ File.contents f = log ∨
     e ≠ None ∧ failed (mk_store f b (store_size s)) log) ∧
  (healthy (store_file s) → e = None ∧ healthy f).
Proof.
  intros [R1 R2 R3 R4 R5] E. destruct (flush _ _ _ _ _ R1 R3 E) as (Ha & Hc & Hl & He & Hempty & Hh). split; [|done].
  rewrite R4 in Hc. destruct e as [e|]; [right|left].
  - split; [done|]. split; cbn; [by rewrite He|]. rewrite <-Hc. by apply prefix_app_r.
  - rewrite (Hempty eq_refl), app_nil_r in *. split_and!; try done. split; cbn; rewrite ?(Hempty eq_refl), ?app_nil_r; try done.
    cbn. lia.
Qed.

Lemma write_store s log p nn e b f : rep s log → Writer.Write (store_buf s) (store_file s) p = (nn, e, b, f) →
  appending f ∧ (length (Writer.buffered b) <= Writer.buf_size)%nat ∧ Writer.err b = e ∧
  (e = None → nn = length p ∧ File.contents f ++ Writer.buffered b = log ++ p) ∧
  File.contents f `prefix_of` log ++ p ∧ (healthy (store_file s) → e = None ∧ healthy f).
Proof.
  intros [R1 R2 R3 R4 R5] E. destruct (buffered_write _ _ _ _ _ _ _ R1 R3 R2 E) as (He & Ha & Hl & (q & [r ->] & Hc & Hq) & Hh).
  rewrite R4 in Hc. split_and!; try done.
  - intros H. destruct (Hq H) as [Hqp ->]. split; [done|]. by rewrite Hc, <-Hqp.
  - exists (Writer.buffered b ++ r). by rewrite !app_assoc, Hc.
Qed.

Lemma append_acts s log p : rep s log → Z.of_nat (length (log ++ frame p)) < 2 ^ 63 →
  acts s log (call_append p) (perform_call s (call_append p)).1 (perform_call s (call_append p)).2.
Proof.
  intros Hrep Hlen. pose proof (rep_size _ _ Hrep) as Hsize. rewrite length_app, length_frame in Hlen.
  unfold acts. cbn [perform_call spec_call fst snd]. unfold Append.
  destruct (Writer.Write (store_buf s) (store_file s) (be_bytes lenWidth _)) as [[[n1 e1] b1] f1] eqn:E1.
  rewrite u64_small in E1 by (unfold lenWidth in Hlen; lia).
  destruct (write_store _ _ _ _ _ _ _ Hrep E1) as (Ha1 & Hl1 & He1 & Hok1 & Hp1 & Hh1).
  destruct e1 as [e1|]; cbn [fst snd].
  { split; [right; split; [split; [cbn; by rewrite He1|]|done]|intros H; by destruct (Hh1 H)].
    etrans; [exact Hp1|]. unfold frame. rewrite app_assoc. by apply prefix_app_r. }
  destruct (Hok1 eq_refl) as [_ Hb1].
  assert (rep (mk_store f1 b1 (Z.of_nat (length (log ++ be_bytes lenWidth (Z.of_nat (length p))))))
    (log ++ be_bytes lenWidth (Z.of_nat (length p)))) as Hrep1 by done.
  destruct (Writer.Write b1 f1 p) as [[[n2 e2] b2] f2] eqn:E2.
  destruct (write_store _ _ _ _ _ _ _ Hrep1 E2) as (Ha2 & Hl2 & He2 & Hok2 & Hp2 & Hh2). cbn [store_file] in *.
  rewrite <-app_assoc in Hp2, Hok2. fold (frame p) in Hp2, Hok2. destruct e2 as [e2|]; cbn [fst snd].
  { split; [right; split; [split; [cbn; by rewrite He2|done]|done]|]. intros H. destruct (Hh1 H) as [_ H1]. by destruct (Hh2 H1). }
  destruct (Hok2 eq_refl) as [-> Hb2].
  assert (u64 (Z.of_nat (length p + lenWidth)) = Z.of_nat (length (frame p))) as ->
    by (rewrite length_frame, u64_small; unfold lenWidth in *; lia).
  assert (rep (mk_store f2 b2 (u64 (store_size s + Z.of_nat (length (frame p))))) (log ++ frame p)) as Hrep2.
  { pose proof (length_frame p) as Hfr. unfold lenWidth in *. split; cbn [store_file store_buf store_size]; try done.
    rewrite Hsize, length_app, u64_small by lia. lia. }
  rewrite Hsize in *. split; [left; split; [done|by left]|]. intros H. destruct (Hh1 H) as [_ H1]. by destruct (Hh2 H1).
Qed.

Lemma read_acts s log pos : rep s log → acts s log (call_read pos) (perform_call s (call_read pos)).1 (perform_call s (call_read pos)).2.
Proof.
  intros Hrep. unfold acts. cbn [perform_call spec_call fst snd]. unfold Read.
  destruct (Writer.Flush (store_buf s) (store_file s)) as [[e b] f] eqn:E.
  destruct (flush_store _ _ _ _ _ Hrep E) as [[(-> & Hrep1 & Hc)|[He Hfail]] Hh]; cbn [fst snd].
  2: { destruct e as [e|]; [|done]. split; [by right|]. intros H. by destruct (Hh H). }
  pose proof Hrep1 as [R1 R2 R3 R4 R5]. cbn in R1, R2, R3, R4, R5. unfold spec_read.
  assert (∀ f', File.contents f' = File.contents f → appending f' → rep (mk_store f' b (store_size s)) log) as Hsame.
  { intros f' Hc' Hf'. split; cbn; try done. by rewrite Hc'. }
  destruct (File.ReadAt f lenWidth (i64 pos)) as [[d1 e1] f1] eqn:E1.
  destruct (file_read _ _ _ _ _ _ R1 E1) as (Hc1 & Ha1 & Hd1 & Hh1). rewrite Hc in Hd1, Hh1. destruct e1 as [e1|]; cbn [fst snd].
  { split; [left; split; [by apply Hsame|]; right; by split|].
    intros H. destruct (Hh1 (proj2 (Hh H))) as [Hd Hf1]. rewrite <-Hd. split; [by apply Hsame|done]. }
  destruct Hd1 as [Hd1|]; [|done]. rewrite <-Hd1. destruct (max_alloc <? be_value d1); cbn [fst snd].
  { split; [left; split; [by apply Hsame|by left]|]. intros H. destruct (Hh1 (proj2 (Hh H))) as [_ Hf1]. split; [by apply Hsame|done]. }
  destruct (File.ReadAt f1 _ _) as [[d2 e2] f2] eqn:E2.
  destruct (file_read _ _ _ _ _ _ Ha1 E2) as (Hc2 & Ha2 & Hd2 & Hh2). rewrite Hc1, Hc in Hd2, Hh2.
  assert (rep (mk_store f2 b (store_size s)) log) as Hrep2 by (apply Hsame; [by rewrite Hc2|done]).
  assert (healthy (store_file s) → healthy f1) as Hf1 by (intros H; apply (Hh1 (proj2 (Hh H)))).
  destruct e2 as [e2|]; cbn [fst snd].
  - split; [left; split; [done|]; right; by split|]. intros H. destruct (Hh2 (Hf1 H)) as [Hd Hf2]. by rewrite <-Hd.
  - destruct Hd2 as [Hd2|]; [|done]. rewrite <-Hd2. split; [left; split; [done|by left]|]. intros H. by destruct (Hh2 (Hf1 H)).
Qed.

Lemma read_at_acts s log n off : rep s log →
  acts s log (call_read_at n off) (perform_call s (call_read_at n off)).1 (perform_call s (call_read_at n off)).2.
Proof.
  intros Hrep. unfold acts. cbn [perform_call spec_call fst snd]. unfold ReadAt.
  destruct (Writer.Flush (store_buf s) (store_file s)) as [[e b] f] eqn:E.
  destruct (flush_store _ _ _ _ _ Hrep E) as [[(-> & Hrep1 & Hc)|[He Hfail]] Hh]; cbn [fst snd].
  2: { destruct e as [e|]; [|done]. split; [by right|]. intros H. by destruct (Hh H). }
  pose proof Hrep1 as [R1 R2 R3 R4 R5]. cbn in R1, R2, R3, R4, R5.
  destruct (File.ReadAt f n off) as [[d e] f1] eqn:E1.
  destruct (file_read _ _ _ _ _ _ R1 E1) as (Hc1 & Ha1 & Hd1 & Hh1). rewrite Hc in Hd1, Hh1. cbn [fst snd].
  assert (rep (mk_store f1 b (store_size s)) log) as Hrep2 by (split; cbn; try done; by rewrite Hc1).
  split.
  - left. split; [done|]. destruct Hd1 as [->|He]; [by left|right]. split; [done|]. by destruct e.
  - intros H. destruct (Hh1 (proj2 (Hh H))) as [-> Hf1]. done.
Qed.

Lemma call_acts s log c : rep s log → Z.of_nat (length (spec_call log c).2) < 2 ^ 63 →
  acts s log c (perform_call s c).1 (perform_call s c).2.
Proof. intros Hrep Hlen. destruct c; [by apply append_acts|by apply read_acts|by apply read_at_acts]. Qed.

(** ** Sequences of calls *)

Lemma spec_calls_prefix log cs : log `prefix_of` (spec_calls log cs).2.
Proof.
  revert log. induction cs as [|c cs IH]; intros log; [done|]. cbn. specialize (IH (spec_call log c).2).
  destruct (spec_call log c) as [r log'] eqn:E. destruct (spec_calls log' cs) as [rs log''] eqn:E'. cbn in *. rewrite E' in IH.
  etrans; [|exact IH]. destruct c; injection E as _ <-; [by apply prefix_app_r|done..].
Qed.
Lemma spec_calls_snd log c cs : (spec_calls log (c :: cs)).2 = (spec_calls (spec_call log c).2 cs).2.
Proof. cbn. destruct (spec_call log c) as [r log']. cbn. by destruct (spec_calls log' cs). Qed.
Lemma spec_calls_fst log c cs : (spec_calls log (c :: cs)).1 = (spec_call log c).1 :: (spec_calls (spec_call log c).2 cs).1.
Proof. cbn. destruct (spec_call log c) as [r log']. cbn. by destruct (spec_calls log' cs). Qed.
Lemma perform_calls_snd s c cs : (perform_calls s (c :: cs)).2 = (perform_calls (perform_call s c).2 cs).2.
Proof. cbn. destruct (perform_call s c) as [r s']. cbn. by destruct (perform_calls s' cs). Qed.
Lemma perform_calls_fst s c cs : (perform_calls s (c :: cs)).1 = (perform_call s c).1 :: (perform_calls (perform_call s c).2 cs).1.
Proof. cbn. destruct (perform_call s c) as [r s']. cbn. by destruct (perform_calls s' cs). Qed.

Lemma length_specified log cs : length (spec_calls log cs).1 = length cs.
Proof. revert log. induction cs as [|c cs IH]; intros log; [done|]. rewrite spec_calls_fst. cbn [length]. by rewrite IH. Qed.
Lemma length_performed s cs : length (perform_calls s cs).1 = length cs.
Proof. revert s. induction cs as [|c cs IH]; intros s; [done|]. rewrite perform_calls_fst. cbn [length]. by rewrite IH. Qed.

Lemma spec_call_length log c cs :
  Z.of_nat (length (spec_calls log (c :: cs)).2) < 2 ^ 63 → Z.of_nat (length (spec_call log c).2) < 2 ^ 63.
Proof. rewrite spec_calls_snd. pose proof (prefix_length _ _ (spec_calls_prefix (spec_call log c).2 cs)). lia. Qed.

(** Without failures the store does what is specified. *)
Lemma healthy_calls s log cs : rep s log → healthy (store_file s) → Z.of_nat (length (spec_calls log cs).2) < 2 ^ 63 →
  (perform_calls s cs).1 = (spec_calls log cs).1 ∧ rep (perform_calls s cs).2 (spec_calls log cs).2 ∧
  healthy (store_file (perform_calls s cs).2).
Proof.
  revert s log. induction cs as [|c cs IH]; intros s log Hrep Hh Hlen; [done|].
  destruct (call_acts s log c Hrep (spec_call_length _ _ _ Hlen)) as [_ Hacts]. destruct (Hacts Hh) as (Hrep' & Hr & Hh').
  rewrite spec_calls_snd in Hlen. destruct (IH _ _ Hrep' Hh' Hlen) as (H1 & H2 & H3).
  rewrite perform_calls_fst, perform_calls_snd, spec_calls_fst, spec_calls_snd. by rewrite Hr, H1.
Qed.

(** After a failed write every call fails and the file stays as it is. *)
Lemma failed_call s log c : failed s log → is_error (perform_call s c).1 ∧ failed (perform_call s c).2 log.
Proof.
  intros [He Hp]. destruct (Writer.err (store_buf s)) as [e|] eqn:E; [|done].
  destruct c as [p|pos|n off]; cbn; unfold Append, Read, ReadAt, Writer.Flush, Writer.Write.
  - rewrite fill_stops by (right; by rewrite E). rewrite E. cbn. split; [done|]. by split; cbn; [rewrite E|].
  - rewrite E. cbn. split; [done|]. by split; cbn; [rewrite E|].
  - rewrite E. cbn. split; [done|]. by split; cbn; [rewrite E|].
Qed.
Lemma failed_calls s log cs : failed s log → Forall is_error (perform_calls s cs).1 ∧ failed (perform_calls s cs).2 log.
Proof.
  revert s. induction cs as [|c cs IH]; intros s Hs; [done|]. rewrite perform_calls_fst, perform_calls_snd.
  destruct (failed_call s log c Hs) as [Hr Hs']. destruct (IH _ Hs') as [Hrs Hf]. by split; [constructor|].
Qed.

Definition as_specified (r r' : reply) : Prop := r = r' ∨ is_error r.

Lemma failing_calls s log cs : rep s log → Z.of_nat (length (spec_calls log cs).2) < 2 ^ 63 →
  Forall2 as_specified (perform_calls s cs).1 (spec_calls log cs).1 ∧
  File.contents (store_file (perform_calls s cs).2) `prefix_of` (spec_calls log cs).2 ∧
  ∀ i j e r, (i < j)%nat → (perform_calls s cs).1 !! i = Some (append_returns (fails e)) →
    (perform_calls s cs).1 !! j = Some r → is_error r.
Proof.
  revert s log. induction cs as [|c cs IH]; intros s log Hrep Hlen.
  { split; [constructor|]. split; [|done]. exists (Writer.buffered (store_buf s)). symmetry. apply Hrep. }
  destruct (call_acts s log c Hrep (spec_call_length _ _ _ Hlen)) as [Hacts _]. pose proof Hlen as Hlen'.
  rewrite spec_calls_snd in Hlen'.
  rewrite perform_calls_fst, perform_calls_snd, spec_calls_fst, spec_calls_snd. destruct Hacts as [[Hrep' Hr]|[Hf Hr]].
  - destruct (IH _ _ Hrep' Hlen') as (H1 & H2 & H3). split; [|split; [done|]].
    + constructor; [|done]. destruct Hr as [Hr|[_ Hr]]; [by left|by right].
    + intros [|i] [|j] e r Hij Hi Hj; try lia; [|apply (H3 i j e r); [lia|done..]].
      cbn in Hi. injection Hi as Hi. rewrite Hi in Hr. exfalso.
      destruct c as [p| |]; cbn in Hi, Hr; [|by repeat case_match..]. by destruct Hr as [?|[? _]].
  - destruct (failed_calls _ _ cs Hf) as [Hall Hlast]. split; [|split].
    + constructor; [by right|]. apply Forall2_same_length_lookup_2; [by rewrite length_performed, length_specified|].
      intros i r r' Hi _. right. by eapply Forall_lookup_1.
    + etrans; [apply Hlast|apply spec_calls_prefix].
    + intros [|i] [|j] e r Hij Hi Hj; try lia; cbn in Hj; eapply Forall_lookup_1; eauto.
Qed.

Lemma spec_calls_app log cs cs' : (spec_calls log (cs ++ cs')).2 = (spec_calls (spec_calls log cs).2 cs').2.
Proof.
  revert log. induction cs as [|c cs IH]; intros log; [done|]. rewrite <-app_comm_cons, !spec_calls_snd. apply IH.
Qed.

Lemma new_store_rep_any f s : appending f → newStore f = ok s → Z.of_nat (length (File.contents f)) < 2 ^ 63 →
  rep s (File.contents f).
Proof.
  intros Hf Hs Hlen. unfold newStore in Hs. destruct (File.fault f); [done|]. injection Hs as <-.
  split; cbn; [done|lia|done|by rewrite app_nil_r|apply u64_small; lia].
Qed.
Lemma new_store_rep f : appending f → healthy f → Z.of_nat (length (File.contents f)) < 2 ^ 63 →
  ∃ s, newStore f = ok s ∧ rep s (File.contents f) ∧ healthy (store_file s).
Proof.
  intros Hf Hh Hlen. assert (∃ s, newStore f = ok s ∧ healthy (store_file s)) as (s & Hs & Hhs).
  { unfold newStore, File.fault. unfold healthy in *. rewrite Hh. cbn. eexists. split; [done|]. cbn. by rewrite Hh. }
  exists s. split; [done|]. split; [by apply new_store_rep_any|done].
Qed.

Lemma close_store s log : rep s log → healthy (store_file s) → ∃ s', Close s = (None, s') ∧ File.contents (store_file s') = log.
Proof.
  intros Hrep Hh. unfold Close. destruct (Writer.Flush (store_buf s) (store_file s)) as [[e b] f] eqn:E.
  destruct (flush_store _ _ _ _ _ Hrep E) as [[(-> & [[Hopen _] _ _ _ _] & Hc)|[He _]] Hhe]; [|by destruct (Hhe Hh)].
  cbn in Hopen. unfold File.Close. rewrite Hopen. eexists. split; [done|]. done.
Qed.

Lemma perform_append s p : perform_call s (call_append p) = (append_returns (Append s p).1, (Append s p).2).
Proof. unfold perform_call. by destruct (Append s p). Qed.

Lemma append_rep s log p : rep s log → healthy (store_file s) → Z.of_nat (length (log ++ frame p)) < 2 ^ 63 →
  ∃ s', Append s p = (ok (Z.of_nat (length p) + 8, Z.of_nat (length log)), s') ∧ rep s' (log ++ frame p) ∧
    healthy (store_file s').
Proof.
  intros Hrep Hh Hlen. destruct (append_acts _ _ p Hrep Hlen) as [_ Ha]. specialize (Ha Hh).
  rewrite perform_append in Ha. destruct (Append s p) as [r s']. destruct Ha as (Hrep' & Hr & Hh').
  cbn [fst snd spec_call] in *. exists s'. split; [|done].
  assert (r = ok (Z.of_nat (length (frame p)), Z.of_nat (length log))) as -> by congruence.
  rewrite length_frame, Nat2Z.inj_add, Z.add_comm. done.
Qed.

Lemma read_rep s l p l' : rep s (l ++ frame p ++ l') → healthy (store_file s) →
  Z.of_nat (length (l ++ frame p ++ l')) < 2 ^ 63 → Z.of_nat (length p) <= max_alloc →
  (Read s (Z.of_nat (length l))).1 = ok p.
Proof.
  intros Hrep Hh Hlen Hp. destruct (read_acts _ _ (Z.of_nat (length l)) Hrep) as [_ Ha]. specialize (Ha Hh).
  cbn [perform_call spec_call fst snd] in Ha. destruct (Read s (Z.of_nat (length l))) as [r s'] eqn:E. cbn [fst snd] in *.
  destruct Ha as (_ & Hr & _). rewrite spec_read_frame in Hr by done. by injection Hr.
Qed.

(** A store made from a file whose handle writes at its end and in which no system
    call fails is the sequence of the file's bytes and of those that are appended:
    every call, at every position, returns what is specified for the sequence, and
    closing the store leaves it in the file. *)
Theorem store_implements_bytes f cs :
  appending f → healthy f → Z.of_nat (length (spec_calls (File.contents f) cs).2) < 2 ^ 63 →
  ∃ s s', newStore f = ok s ∧ (perform_calls s cs).1 = (spec_calls (File.contents f) cs).1 ∧
    Close (perform_calls s cs).2 = (None, s') ∧ File.contents (store_file s') = (spec_calls (File.contents f) cs).2.
Proof.
  intros Hf Hh Hlen. destruct (new_store_rep f Hf Hh) as (s & Hs & Hrep & Hh0).
  { pose proof (prefix_length _ _ (spec_calls_prefix (File.contents f) cs)). lia. }
  destruct (healthy_calls _ _ _ Hrep Hh0 Hlen) as (Hr & Hrep' & Hh').
  destruct (close_store _ _ Hrep' Hh') as (s' & Hclose & Hc). by exists s, s'.
Qed.

(** C18. For a store on an open handle that writes at the end of its file (one opened to
    append, or one that stands at the end of the file), when no system call fails, for a
    record no longer than what [make] gives and a log that stays below 2^63 bytes: a record
    that [Append] has stored is read back from the position that it has returned, whatever
    calls of the store come before and in between; and again from the closed file by a new
    store on a handle opened to append, wherever that handle stands.  On a handle that
    writes elsewhere the records overwrite what is there ([store_overwrites]). *)
Theorem store_roundtrip f cs p cs' n :
  appending f → healthy f → Z.of_nat (length p) <= max_alloc →
  Z.of_nat (length (spec_calls (File.contents f) (cs ++ call_append p :: cs')).2) < 2 ^ 63 →
  ∃ s s1 s2 s3 pos, newStore f = ok s ∧
    Append (perform_calls s cs).2 p = (ok (Z.of_nat (length p) + 8, pos), s1) ∧
    (Read (perform_calls s1 cs').2 pos).1 = ok p ∧
    Close (perform_calls s1 cs').2 = (None, s2) ∧
    newStore (File.mk (File.contents (store_file s2)) n true false []) = ok s3 ∧ (Read s3 pos).1 = ok p.
Proof.
  intros Hf Hh Hp Hlen. rewrite spec_calls_app in Hlen. set (log := (spec_calls (File.contents f) cs).2) in *.
  pose proof (spec_call_length _ _ _ Hlen) as Hlen1. rewrite spec_calls_snd in Hlen. cbn [spec_call snd] in Hlen, Hlen1.
  destruct (spec_calls_prefix (log ++ frame p) cs') as [rest Hrest]. rewrite <-app_assoc in Hrest.
  pose proof (prefix_length _ _ (spec_calls_prefix (File.contents f) cs)) as Hpre. fold log in Hpre.
  rewrite length_app in Hlen1.
  destruct (new_store_rep f Hf Hh ltac:(lia)) as (s & Hs & Hrep & Hh0).
  destruct (healthy_calls s _ cs Hrep Hh0 ltac:(fold log; lia)) as (_ & Hrep1 & Hh1). fold log in Hrep1.
  destruct (append_rep _ _ p Hrep1 Hh1 ltac:(rewrite length_app; lia)) as (s1 & E & Hrep2 & Hh2).
  destruct (healthy_calls _ _ cs' Hrep2 Hh2 Hlen) as (_ & Hrep3 & Hh3). rewrite Hrest in Hrep3, Hlen.
  destruct (close_store _ _ Hrep3 Hh3) as (s2 & Hclose & Hc2).
  destruct (new_store_rep (File.mk (File.contents (store_file s2)) n true false [])) as (s3 & Hs3 & Hrep4 & Hh4);
    [by split; [|left]|done|cbn; rewrite Hc2; lia|]. cbn [File.contents] in Hrep4. rewrite Hc2 in Hrep4.
  exists s, s1, s2, s3, (Z.of_nat (length log)). split_and!; [exact Hs|exact E| |exact Hclose|exact Hs3|];
    by apply (read_rep _ log p rest).
Qed.

(** C19. For a store on an open handle that writes at the end of its file (one opened to
    append, or one that stands at the end of the file) and a log that stays below 2^63
    bytes, whatever system calls fail after the store was made: every call returns what is
    specified or an error, and the file is left with a first part of the specified bytes;
    once an [Append] has failed, so does every later call.  On a handle that writes
    elsewhere this does not hold ([store_overwrites]). *)
Theorem store_failures f cs s :
  appending f → newStore f = ok s → Z.of_nat (length (spec_calls (File.contents f) cs).2) < 2 ^ 63 →
  Forall2 as_specified (perform_calls s cs).1 (spec_calls (File.contents f) cs).1 ∧
  File.contents (store_file (perform_calls s cs).2) `prefix_of` (spec_calls (File.contents f) cs).2 ∧
  ∀ i j e r, (i < j)%nat → (perform_calls s cs).1 !! i = Some (append_returns (fails e)) →
    (perform_calls s cs).1 !! j = Some r → is_error r.
Proof.
  intros Hf Hs Hlen. apply failing_calls; [|done].
  apply (new_store_rep_any f s Hf Hs). pose proof (prefix_length _ _ (spec_calls_prefix (File.contents f) cs)). lia.
Qed.

End Store.

#[local] Abbreviation empty_file := (File.mk [] 0 true false []).

Lemma store_implements_bytes_witness :
  ∃ s s', newStore empty_file = ok s ∧
    (perform_calls (2 ^ 48) s [call_append [1; 2]; call_read 0; call_read 10]).1 =
      [append_returns (ok (10, 0)); read_returns (ok [1; 2]); read_returns (fails EOF)] ∧
    Close (perform_calls (2 ^ 48) s [call_append [1; 2]; call_read 0; call_read 10]).2 = (None, s') ∧
    File.contents (store_file s') = [0; 0; 0; 0; 0; 0; 0; 2; 1; 2].
Proof.
  apply (store_implements_bytes (2 ^ 48) empty_file [call_append [1; 2]; call_read 0; call_read 10]);
    [by split; [|left]|reflexivity|reflexivity].
Defined.

Lemma store_roundtrip_witness :
  ∃ s s1 s2 s3 pos, newStore empty_file = ok s ∧
    Append (perform_calls (2 ^ 48) s [call_append [7]]).2 [1; 2] = (ok (2 + 8, pos), s1) ∧
    (Read (2 ^ 48) (perform_calls (2 ^ 48) s1 [call_read 3; call_append []]).2 pos).1 = ok [1; 2] ∧
    Close (perform_calls (2 ^ 48) s1 [call_read 3; call_append []]).2 = (None, s2) ∧
    newStore (File.mk (File.contents (store_file s2)) 0 true false []) = ok s3 ∧ (Read (2 ^ 48) s3 pos).1 = ok [1; 2].
Proof.
  apply (store_roundtrip (2 ^ 48) empty_file [call_append [7]] [1; 2] [call_read 3; call_append []] 0);
    [by split; [|left]|reflexivity|done|reflexivity].
Defined.

(** The disk is full after five bytes when the first record is flushed. *)
Lemma store_failures_witness :
  let f := File.mk [] 0 true false [None; Some 5%nat] in
  let cs := [call_append [1; 2]; call_read 0; call_append [3]] in
  ∃ s, newStore f = ok s ∧
    (Forall2 as_specified (perform_calls (2 ^ 48) s cs).1 (spec_calls (2 ^ 48) (File.contents f) cs).1 ∧
     File.contents (store_file (perform_calls (2 ^ 48) s cs).2) `prefix_of` (spec_calls (2 ^ 48) (File.contents f) cs).2 ∧
     ∀ i j e r, (i < j)%nat → (perform_calls (2 ^ 48) s cs).1 !! i = Some (append_returns (fails e)) →
       (perform_calls (2 ^ 48) s cs).1 !! j = Some r → is_error r) ∧
    (perform_calls (2 ^ 48) s cs).1 = [append_returns (ok (10, 0)); read_returns (fails ErrIO); append_returns (fails ErrIO)].
Proof.
  intros f cs. eexists. split; [reflexivity|]. split; [|reflexivity].
  apply (store_failures (2 ^ 48) f cs); [by split; [|left]|reflexivity|reflexivity].
Defined.

(** The position of a record is the size of the file, but a handle that was not opened
    to append may stand elsewhere: here the second record overwrites the first, and
    its position is past the end. *)
Lemma store_overwrites :
  let f := File.mk (frame [1; 2]) 0 false false [] in
  ∃ s, newStore f = ok s ∧
    (perform_calls (2 ^ 48) s [call_append [3; 4]; call_read 10; call_read 0]).1 =
      [append_returns (ok (10, 10)); read_returns (fails EOF); read_returns (ok [3; 4])].
Proof. eexists. split; reflexivity. Qed.

(** [Read] takes the eight bytes at any position for a length; [make] panics when it
    is too large. *)
Lemma store_read_panics :
  ∃ s, newStore empty_file = ok s ∧
    (perform_calls (2 ^ 48) s [call_append (replicate 8 255); call_read 8]).1 = [append_returns (ok (16, 0)); read_returns panics].
Proof. eexists. split; reflexivity. Qed.

(** ** internal/server/log.go *)

Module Log.

Record Record_t := mk_record { Value : list Z; Offset : Z }.
Definition t := list Record_t.
Definition NewLog : t := [].

Definition Append (c : t) (record : Record_t) : Z * t :=
  let record := mk_record (Value record) (u64 (Z.of_nat (length c))) in
  (Offset record, c ++ [record]).

(** [None] for [ErrOffsetNotFound]. *)
Definition Read (c : t) (offset : Z) : option Record_t :=
  if u64 (Z.of_nat (length c)) <=? offset then None else c !! Z.to_nat offset.

End Log.

(** ** internal/server/http.go *)

(** An [http.ResponseWriter]: the status once it is sent, what is written, and
    whether the connection takes it. *)
Inductive payload := json_offset (o : Z) | json_record (r : Log.Record_t) | plain_text (s : string).
Record response := mk_response { status : option Z; body : list payload; accepts : bool }.

Definition WriteHeader (w : response) (code : Z) : response :=
  mk_response (Some (default code (status w))) (body w) (accepts w).
Definition write_body (w : response) (p : payload) : option string * response :=
  let w := WriteHeader w 200 in
  if accepts w then (None, mk_response (status w) (body w ++ [p]) true) else (Some "write failed"%string, w).
Definition http_Error (w : response) (s : string) (code : Z) : response :=
  (write_body (WriteHeader w code) (plain_text s)).2.

Section Server.
(** What [json.Decoder] makes of the body of a request: the record of a
    [ProduceRequest], the offset of a [ConsumeRequest], or an error. *)
Context {Body : Type} (decode_produce : Body → string + Log.Record_t) (decode_consume : Body → string + Z).

Definition handleProduce (log : Log.t) (w : response) (r : Body) : response * Log.t :=
  match decode_produce r with
  | inl err => (http_Error w err 400, log)
  | inr record =>
      let '(off, log) := Log.Append log record in
      match write_body w (json_offset off) with
      | (Some err, w) => (http_Error w err 500, log)
      | (None, w) => (w, log)
      end
  end.

Definition handleConsume (log : Log.t) (w : response) (r : Body) : response * Log.t :=
  match decode_consume r with
  | inl err => (http_Error w err 400, log)
  | inr offset =>
      match Log.Read log offset with
      | None => (http_Error w "offset not found" 404, log)
      | Some record =>
          match write_body w (json_record record) with
          | (Some err, w) => (http_Error w err 500, log)
          | (None, w) => (w, log)
          end
      end
  end.

(** The routes of [NewHTTPServer], for requests with a new response each. *)
Inductive request := POST (r : Body) | GET (r : Body).
Definition handle (log : Log.t) (req : request * bool) : response * Log.t :=
  let w := mk_response None [] req.2 in
  match req.1 with POST r => handleProduce log w r | GET r => handleConsume log w r end.
Fixpoint serve (log : Log.t) (reqs : list (request * bool)) : list response * Log.t :=
  match reqs with
  | [] => ([], log)
  | req :: reqs =>
      let '(w, log) := handle log req in
      let '(ws, log) := serve log reqs in (w :: ws, log)
  end.

Lemma handle_prefix log req : log `prefix_of` (handle log req).2.
Proof.
  unfold handle, handleProduce, handleConsume, Log.Append. destruct req as [[r|r] a]; cbn [fst snd].
  - destruct (decode_produce r); [done|]. cbn. destruct a; cbn; by eexists.
  - destruct (decode_consume r); [done|]. destruct (Log.Read log z); [|done]. cbn. by destruct a.
Qed.
Lemma serve_prefix log reqs : log `prefix_of` (serve log reqs).2.
Proof.
  revert log. induction reqs as [|req reqs IH]; intros log; [done|]. cbn. pose proof (handle_prefix log req) as H.
  destruct (handle log req) as [w log']. specialize (IH log'). destruct (serve log' reqs). cbn in *. by etrans.
Qed.

Lemma log_read_index (c : Log.t) i r : c !! i = Some r → Z.of_nat (length c) < 2 ^ 64 → Log.Read c (Z.of_nat i) = Some r.
Proof.
  intros Hi Hc. pose proof (lookup_lt_Some _ _ _ Hi). unfold Log.Read. rewrite u64_small by lia.
  rewrite (proj2 (Z.leb_gt _ _)) by lia. by rewrite Nat2Z.id.
Qed.

Lemma produced log b r a : decode_produce b = inr r →
  handle log (POST b, a) =
    (mk_response (Some 200) (if a then [json_offset (u64 (Z.of_nat (length log)))] else []) a,
     log ++ [Log.mk_record (Log.Value r) (u64 (Z.of_nat (length log)))]).
Proof. intros Hb. unfold handle, handleProduce. cbn [fst]. rewrite Hb. by destruct a. Qed.

(** A record that is produced gets the number of the records before it as its offset,
    also when the answer is lost; and that offset is answered with the value of the
    record from then on, whatever else is requested.  Offsets that are not given out
    are answered with 404, bodies that are no JSON with 400, and neither changes the
    log. *)
Theorem consume_after_produce log b r reqs b' ok_ :
  decode_produce b = inr r →
  let '(w, log1) := handle log (POST b, ok_) in
  let log2 := (serve log1 reqs).2 in
  Z.of_nat (length log2) < 2 ^ 64 →
  w = mk_response (Some 200) (if ok_ then [json_offset (Z.of_nat (length log))] else []) ok_ ∧
  match decode_consume b' with
  | inl err => handle log2 (GET b', true) = (mk_response (Some 400) [plain_text err] true, log2)
  | inr o =>
      (o = Z.of_nat (length log) → handle log2 (GET b', true) =
         (mk_response (Some 200) [json_record (Log.mk_record (Log.Value r) o)] true, log2)) ∧
      (Z.of_nat (length log2) <= o → handle log2 (GET b', true) =
         (mk_response (Some 404) [plain_text "offset not found"] true, log2))
  end.
Proof.
  intros Hb. rewrite (produced _ _ _ _ Hb).
  set (rec := Log.mk_record (Log.Value r) (u64 (Z.of_nat (length log)))).
  cbv zeta. intros Hlen. destruct (serve_prefix (log ++ [rec]) reqs) as [rest Hrest]. rewrite Hrest in *.
  assert (u64 (Z.of_nat (length log)) = Z.of_nat (length log)) as Hu by (rewrite !length_app in Hlen; apply u64_small; cbn in *; lia).
  rewrite Hu. split; [done|]. unfold handle, handleConsume. cbn [fst snd]. destruct (decode_consume b') as [err|o]; [done|].
  split.
  - intros ->. rewrite (log_read_index _ (length log) rec); [|by rewrite <-app_assoc; apply list_lookup_middle|done].
    cbn. unfold rec. by rewrite Hu.
  - intros Ho. unfold Log.Read. rewrite u64_small by lia. by rewrite (proj2 (Z.leb_le _ _)).
Qed.

End Server.

(** With texts as bodies: a number of letters for the record, and for the offset. *)
Lemma consume_after_produce_witness :
  let decode_produce := λ s, if decide (s = ""%string) then inl "EOF"%string else inr (Log.mk_record [Z.of_nat (String.length s)] 5) in
  let decode_consume := λ s, if decide (s = "?"%string) then inl "bad"%string else inr (Z.of_nat (String.length s)) in
  let '(w, log1) := handle decode_produce decode_consume [] (POST "abc"%string, true) in
  let log2 := (serve decode_produce decode_consume log1 [(POST ""%string, true); (POST "de"%string, false)]).2 in
  Z.of_nat (length log2) < 2 ^ 64 ∧
  (w = mk_response (Some 200) [json_offset 0] true ∧
   match decode_consume ""%string with
   | inl err => handle decode_produce decode_consume log2 (GET ""%string, true) = (mk_response (Some 400) [plain_text err] true, log2)
   | inr o =>
       (o = 0 → handle decode_produce decode_consume log2 (GET ""%string, true) =
          (mk_response (Some 200) [json_record (Log.mk_record [3] o)] true, log2)) ∧
       (Z.of_nat (length log2) <= o → handle decode_produce decode_consume log2 (GET ""%string, true) =
          (mk_response (Some 404) [plain_text "offset not found"] true, log2))
   end).
Proof.
  intros dp dc. split; [reflexivity|].
  apply (consume_after_produce dp dc [] "abc"%string (Log.mk_record [3] 5) [(POST ""%string, true); (POST "de"%string, false)] ""%string true);
    reflexivity.
Defined.
