(* ===== verification/Orderbook.v ===== *)
(** The matching engine of codealongs/cpp_orderbook/main.cpp: its data, the
    shared store of [Order] objects, and its operations in the state monad,
    one definition per member function.

    Lifetimes.  The code holds references into containers ([bid], [bids],
    [order], ...).  Every access through such a reference checks that the
    list node, map node or hash node it designates is still in its container;
    an access after the node was erased is recorded in [violations] and then
    goes on with the value the node held when it was erased, so that what the
    code computes and where it breaks the lifetime rules are both visible. *)

From S2P Require Import Prelude.
From S2P Require Import StdMap.

Inductive OrderType := GoodTillCancel | FillAndKill.
Inductive Side := Buy | Sell.

#[export] Instance OrderType_eq_dec : EqDecision OrderType.
Proof. solve_decision. Defined.
#[export] Instance Side_eq_dec : EqDecision Side.
Proof. solve_decision. Defined.

Abbreviation Price := Z (only parsing).     (* std::int32_t *)
Abbreviation Quantity := Z (only parsing).  (* std::uint32_t *)
Abbreviation OrderId := Z (only parsing).   (* std::uint64_t *)

Module LevelInfo.
Record t := mk { price_ : Price; quantity_ : Quantity }.
End LevelInfo.

Module OrderbookLevelInfos.
Record t := mk { bids_ : list LevelInfo.t; asks_ : list LevelInfo.t }.
Definition GetBids (x : t) : list LevelInfo.t := bids_ x.
Definition GetAsks (x : t) : list LevelInfo.t := asks_ x.
End OrderbookLevelInfos.

Module Order.
Record t := mk {
  orderType_ : OrderType;
  orderId_ : OrderId;
  side_ : Side;
  price_ : Price;
  initialQuantity_ : Quantity;
  remainingQuantity_ : Quantity;
}.

#[global] Instance t_eq_dec : EqDecision t.
Proof. solve_decision. Defined.

Definition create (orderType : OrderType) (orderId : OrderId) (side : Side)
    (price : Price) (quantity : Quantity) : t :=
  mk orderType orderId side price quantity quantity.

Definition GetOrderId (o : t) : OrderId := orderId_ o.
Definition GetSide (o : t) : Side := side_ o.
Definition GetPrice (o : t) : Price := price_ o.
Definition GetOrderType (o : t) : OrderType := orderType_ o.
Definition GetInitialQuantity (o : t) : Quantity := initialQuantity_ o.
Definition GetRemainingQuantity (o : t) : Quantity := remainingQuantity_ o.
Definition GetFilledQuantity (o : t) : Quantity :=
  u32 (GetInitialQuantity o - GetRemainingQuantity o).
Definition IsFilled (o : t) : bool := GetRemainingQuantity o =? 0.

Definition Fill (quantity : Quantity) (o : t) : outcome t :=
  if quantity >? GetRemainingQuantity o then Throw logic_error
  else Ret (mk (orderType_ o) (orderId_ o) (side_ o) (price_ o) (initialQuantity_ o)
               (u32 (remainingQuantity_ o - quantity))).
End Order.

(** A [shared_ptr<Order>] is the address of the object; a [std::list] node is
    identified by the iterator that designates it. *)
Abbreviation OrderPointer := positive.
Abbreviation Iterator := positive.
Abbreviation OrderPointers := (list (Iterator * OrderPointer)).

Module OrderModify.
Record t := mk {
  orderId_ : OrderId;
  price_ : Price;
  side_ : Side;
  quantity_ : Quantity;
}.

Definition GetOrderId (m : t) : OrderId := orderId_ m.
Definition GetPrice (m : t) : Price := price_ m.
Definition GetSide (m : t) : Side := side_ m.
Definition GetQuantity (m : t) : Quantity := quantity_ m.

(** The object that [ToOrderPointer] allocates. *)
Definition to_order (type : OrderType) (m : t) : Order.t :=
  Order.create type (GetOrderId m) (GetSide m) (GetPrice m) (GetQuantity m).
End OrderModify.

Module TradeInfo.
Record t := mk { orderId_ : OrderId; price_ : Price; quantity_ : Quantity }.
#[global] Instance t_eq_dec : EqDecision t.
Proof. solve_decision. Defined.
End TradeInfo.

Module Trade.
Record t := mk { bidTrade_ : TradeInfo.t; askTrade_ : TradeInfo.t }.
#[global] Instance t_eq_dec : EqDecision t.
Proof. solve_decision. Defined.
Definition GetBidTrade (x : t) : TradeInfo.t := bidTrade_ x.
Definition GetAskTrade (x : t) : TradeInfo.t := askTrade_ x.
End Trade.

Abbreviation Trades := (list Trade.t).

Record OrderEntry := mkEntry { order_ : OrderPointer; location_ : Iterator }.

(** Accesses through references to nodes that were erased. *)
Inductive Violation :=
  | dangling_node (n : Iterator)
  | dangling_level (side : Side) (price : Price)
  | dangling_entry (id : OrderId).

(** The three members of [class Orderbook], the store of [Order] objects, the
    allocators of list nodes and objects, and the recorded violations. *)
Record Orderbook := mkBook {
  bids_ : list (Price * OrderPointers);  (* std::map, std::greater *)
  asks_ : list (Price * OrderPointers);  (* std::map, std::less *)
  orders_ : gmap OrderId OrderEntry;     (* std::unordered_map *)
  heap : gmap OrderPointer Order.t;
  next_node : Iterator;
  next_loc : OrderPointer;
  violations : list Violation;
}.

Definition empty_book : Orderbook := mkBook [] [] ∅ ∅ 1 1 [].

Abbreviation OB := (M Orderbook).

(** ** The store and the containers *)

Definition with_orders (m : gmap OrderId OrderEntry) (s : Orderbook) : Orderbook :=
  mkBook (bids_ s) (asks_ s) m (heap s) (next_node s) (next_loc s) (violations s).
Definition with_heap (h : gmap OrderPointer Order.t) (s : Orderbook) : Orderbook :=
  mkBook (bids_ s) (asks_ s) (orders_ s) h (next_node s) (next_loc s) (violations s).
Definition with_next_node (n : Iterator) (s : Orderbook) : Orderbook :=
  mkBook (bids_ s) (asks_ s) (orders_ s) (heap s) n (next_loc s) (violations s).
Definition with_next_loc (p : OrderPointer) (s : Orderbook) : Orderbook :=
  mkBook (bids_ s) (asks_ s) (orders_ s) (heap s) (next_node s) p (violations s).
Definition log (v : Violation) (s : Orderbook) : Orderbook :=
  mkBook (bids_ s) (asks_ s) (orders_ s) (heap s) (next_node s) (next_loc s)
    (violations s ++ [v]).

(** The side's map and its comparator. *)
Definition cmp (side : Side) : Price → Price → bool :=
  match side with Buy => std_greater | Sell => std_less end.
Definition levels (side : Side) (s : Orderbook) : list (Price * OrderPointers) :=
  match side with Buy => bids_ s | Sell => asks_ s end.
Definition with_levels (side : Side) (m : list (Price * OrderPointers))
    (s : Orderbook) : Orderbook :=
  match side with
  | Buy => mkBook m (asks_ s) (orders_ s) (heap s) (next_node s) (next_loc s) (violations s)
  | Sell => mkBook (bids_ s) m (orders_ s) (heap s) (next_node s) (next_loc s) (violations s)
  end.

(** All list nodes of one side, in the order of iteration. *)
Definition flat (m : list (Price * OrderPointers)) : OrderPointers := concat m.*2.

Definition node_live (side : Side) (n : Iterator) (s : Orderbook) : bool :=
  bool_decide (n ∈ (flat (levels side s)).*1).

(** [p->...]: the object a [shared_ptr] points to. *)
Definition deref (p : OrderPointer) : OB Order.t :=
  λ s, from_option null_dereference (heap s !! p) s.
Definition store (p : OrderPointer) (o : Order.t) : OB unit :=
  modify (λ s, with_heap (<[p := o]> (heap s)) s).

(** Accesses through references to a list node, a map node, a hash node. *)
Definition use_node (side : Side) (n : Iterator) : OB unit :=
  λ s, (Ret tt, if node_live side n s then s else log (dangling_node n) s).
Definition use_entry (id : OrderId) : OB unit :=
  λ s, (Ret tt, match orders_ s !! id with
                | Some _ => s
                | None => log (dangling_entry id) s
                end).

(** [ref->...] where [ref] is an [OrderPointer&] into a list node. *)
Definition arrow (side : Side) (ref : Iterator * OrderPointer) : OB Order.t :=
  use_node side ref.1 ;; deref ref.2.

(** A read of the list in the map node of [price].  The code erases a map
    node only when its list is empty, so a read of an erased one finds the
    empty list. *)
Definition read_level (side : Side) (price : Price) : OB OrderPointers :=
  λ s, match map_find (cmp side) price (levels side s) with
       | Some l => (Ret l, s)
       | None => (Ret [], log (dangling_level side price) s)
       end.

Definition pop_front (side : Side) (price : Price) : OB unit :=
  l ← read_level side price;
  modify (λ s, with_levels side (map_set (cmp side) price (tail l) (levels side s)) s).

(** [if (level.empty()) levels.erase(price)]. *)
Definition erase_if_empty (side : Side) (price : Price) : OB unit :=
  l ← read_level side price;
  when (bool_decide (l = []))
    (modify (λ s, with_levels side (map_erase (cmp side) price (levels side s)) s)).

Definition orders_erase (id : OrderId) : OB unit :=
  modify (λ s, with_orders (delete id (orders_ s)) s).

Definition contains (id : OrderId) (s : Orderbook) : bool :=
  bool_decide (is_Some (orders_ s !! id)).

(** [levels.at(price)]. *)
Definition at_level (side : Side) (price : Price) : OB OrderPointers :=
  orders ← gets (λ s, map_find (cmp side) price (levels side s));
  lift (match orders with Some l => Ret l | None => Throw out_of_range end).

(** [orders.erase(iterator)] on the list of [price]. *)
Definition list_erase (side : Side) (price : Price) (orders : OrderPointers)
    (iterator : Iterator) : OB unit :=
  if bool_decide (iterator ∈ orders.*1)
  then modify (λ s, with_levels side
         (map_set (cmp side) price (filter (λ e, e.1 ≠ iterator) orders) (levels side s)) s)
  else lift (Undef invalid_iterator).

Definition make_shared (o : Order.t) : OB OrderPointer :=
  λ s, (Ret (next_loc s),
        with_next_loc (Pos.succ (next_loc s)) (with_heap (<[next_loc s := o]> (heap s)) s)).

(** ** Member functions of [Orderbook] *)

Definition CanMatch (side : Side) (price : Price) (s : Orderbook) : bool :=
  match side with
  | Buy =>
      match asks_ s with
      | [] => false
      | (bestAsk, _) :: _ => price >=? bestAsk
      end
  | Sell =>
      match bids_ s with
      | [] => false
      | (bestBid, _) :: _ => price <=? bestBid
      end
  end.

Definition CancelOrder (orderId : OrderId) : OB unit :=
  entry ← gets (λ s, orders_ s !! orderId);
  match entry with
  | None => mret tt
  | Some entry =>
      orders_erase orderId ;;
      use_entry orderId ;; o1 ← deref (order_ entry);
      let side := Order.GetSide o1 in
      use_entry orderId ;; o2 ← deref (order_ entry);
      let price := Order.GetPrice o2 in
      orders ← at_level side price;
      use_entry orderId ;;
      list_erase side price orders (location_ entry) ;;
      erase_if_empty side price
  end.

(** [bid->Fill(quantity)]. *)
Definition fill_order (side : Side) (ref : Iterator * OrderPointer) (quantity : Quantity) : OB unit :=
  o ← arrow side ref;
  o' ← lift (Order.Fill quantity o);
  store ref.2 o'.

(** [if (bid->IsFilled()) { bids.pop_front(); orders_.erase(bid->GetOrderId()); }]. *)
Definition remove_if_filled (side : Side) (price : Price) (ref : Iterator * OrderPointer) : OB unit :=
  o ← arrow side ref;
  when (Order.IsFilled o)
    (pop_front side price ;;
     o' ← arrow side ref;
     orders_erase (Order.GetOrderId o')).

Definition trade_info (side : Side) (ref : Iterator * OrderPointer) (quantity : Quantity) : OB TradeInfo.t :=
  o ← arrow side ref;
  o' ← arrow side ref;
  mret (TradeInfo.mk (Order.GetOrderId o) (Order.GetPrice o') quantity).

(** The body of the inner loop, for [bid = bids.front()] and [ask = asks.front()]. *)
Definition match_front (bidPrice askPrice : Price) (bid ask : Iterator * OrderPointer)
    (trades : Trades) : OB Trades :=
  bo ← arrow Buy bid;
  ao ← arrow Sell ask;
  let quantity := Z.min (Order.GetRemainingQuantity bo) (Order.GetRemainingQuantity ao) in
  fill_order Buy bid quantity ;;
  fill_order Sell ask quantity ;;
  remove_if_filled Buy bidPrice bid ;;
  remove_if_filled Sell askPrice ask ;;
  erase_if_empty Buy bidPrice ;;
  erase_if_empty Sell askPrice ;;
  bt ← trade_info Buy bid quantity;
  st ← trade_info Sell ask quantity;
  mret (trades ++ [Trade.mk bt st]).

(** [while (bids.size() && asks.size()) { ... }]. *)
Fixpoint match_level (fuel : nat) (bidPrice askPrice : Price) (trades : Trades) : OB Trades :=
  match fuel with
  | O => lift OutOfFuel
  | S fuel =>
      bids ← read_level Buy bidPrice;
      match bids with
      | [] => mret trades
      | bid :: _ =>
          asks ← read_level Sell askPrice;
          match asks with
          | [] => mret trades
          | ask :: _ =>
              trades ← match_front bidPrice askPrice bid ask trades;
              match_level fuel bidPrice askPrice trades
          end
      end
  end.

(** [while (true) { ... }]. *)
Fixpoint match_levels (fuel inner : nat) (trades : Trades) : OB Trades :=
  match fuel with
  | O => lift OutOfFuel
  | S fuel =>
      bids ← gets bids_;
      asks ← gets asks_;
      match bids, asks with
      | (bidPrice, _) :: _, (askPrice, _) :: _ =>
          if bidPrice <? askPrice then mret trades
          else trades ← match_level inner bidPrice askPrice trades;
               match_levels fuel inner trades
      | _, _ => mret trades
      end
  end.

(** The cancellation of a fill-and-kill order left at the front of a side. *)
Definition cancel_front (side : Side) : OB unit :=
  m ← gets (levels side);
  match m with
  | [] => mret tt
  | (_, orders) :: _ =>
      front ← from_option empty_front (head orders);
      o ← arrow side front;
      when (bool_decide (Order.GetOrderType o = FillAndKill))
        (o' ← arrow side front; CancelOrder (Order.GetOrderId o'))
  end.

(** Every iteration of the inner loop removes a resting order, and every
    iteration of the outer loop removes a level. *)
Definition match_fuel (s : Orderbook) : nat :=
  S (length (flat (bids_ s)) + length (flat (asks_ s)) + length (bids_ s) + length (asks_ s)).

Definition MatchOrders : OB Trades :=
  fuel ← gets match_fuel;
  trades ← match_levels fuel fuel [];
  cancel_front Buy ;;
  cancel_front Sell ;;
  mret trades.

(** [auto& orders = levels[price]; orders.push_back(order);
     iterator = std::next(orders.begin(), orders.size() - 1)]. *)
Definition push_back (side : Side) (price : Price) (order : OrderPointer) : OB Iterator :=
  modify (λ s, with_levels side (map_index (cmp side) [] price (levels side s)) s) ;;
  orders ← read_level side price;
  node ← gets next_node;
  modify (λ s, with_next_node (Pos.succ node)
    (with_levels side (map_set (cmp side) price (orders ++ [(node, order)]) (levels side s)) s)) ;;
  orders ← read_level side price;
  from_option invalid_iterator (fst <$> orders !! (length orders - 1)%nat).

Definition AddOrder (order : OrderPointer) : OB Trades :=
  o ← deref order;
  present ← gets (contains (Order.GetOrderId o));
  if (present : bool) then mret [] else
  can ← gets (CanMatch (Order.GetSide o) (Order.GetPrice o));
  if bool_decide (Order.GetOrderType o = FillAndKill) && negb can then mret [] else
  iterator ← push_back (Order.GetSide o) (Order.GetPrice o) order;
  modify (λ s, with_orders (<[Order.GetOrderId o := mkEntry order iterator]> (orders_ s)) s) ;;
  MatchOrders.

Definition MatchOrder (order : OrderModify.t) : OB Trades :=
  entry ← gets (λ s, orders_ s !! OrderModify.GetOrderId order);
  match entry with
  | None => mret []
  | Some existing =>
      CancelOrder (OrderModify.GetOrderId order) ;;
      use_entry (OrderModify.GetOrderId order) ;;
      existingOrder ← deref (order_ existing);
      p ← make_shared (OrderModify.to_order (Order.GetOrderType existingOrder) order);
      AddOrder p
  end.

Definition Size (s : Orderbook) : nat := size (orders_ s).

(** [std::accumulate] with a [Quantity] accumulator: the [std::size_t] sum of
    the lambda is converted back to 32 bits at every step. *)
Definition CreateLevelInfos (h : gmap OrderPointer Order.t) (price : Price)
    (orders : OrderPointers) : outcome LevelInfo.t :=
  total ← foldl (λ acc e,
      runningSum ← acc;
      match h !! e.2 with
      | Some o => Ret (u32 (u64 (runningSum + Order.GetRemainingQuantity o)))
      | None => Undef null_dereference
      end) (Ret 0) orders;
  Ret (LevelInfo.mk price total).

Definition GetOrderInfos (s : Orderbook) : outcome OrderbookLevelInfos.t :=
  bidInfos ← mapM (λ lvl, CreateLevelInfos (heap s) lvl.1 lvl.2) (bids_ s);
  askInfos ← mapM (λ lvl, CreateLevelInfos (heap s) lvl.1 lvl.2) (asks_ s);
  Ret (OrderbookLevelInfos.mk bidInfos askInfos).

(** [main]: the two sizes it prints. *)
Definition main : OB (nat * nat) :=
  order ← make_shared (Order.create GoodTillCancel 1 Buy 100 10);
  AddOrder order ;;
  n1 ← gets Size;
  CancelOrder 1 ;;
  n2 ← gets Size;
  mret (n1, n2).
