(* ===== verification/OrderbookSpec.v ===== *)
(** What the order book promises, without levels, nodes, maps or pointers:
    each side is one list of orders by price-time priority, and matching is
    the repeated trade between the two heads.  The theorems of this file are
    about the specification; Refinement.v proves that the code implements it. *)

From S2P Require Import Prelude.
From S2P Require Import StdMap.
From S2P Require Import Orderbook.

Module Spec.

(** Both sides, best price first and, within a price, earliest first. *)
Record book := mk { bids : list Order.t; asks : list Order.t }.

Definition side_of (side : Side) (b : book) : list Order.t :=
  match side with Buy => bids b | Sell => asks b end.

Definition reduce (q : Quantity) (o : Order.t) : Order.t :=
  Order.mk (Order.orderType_ o) (Order.orderId_ o) (Order.side_ o) (Order.price_ o)
    (Order.initialQuantity_ o) (Order.remainingQuantity_ o - q).

Definition qty (b a : Order.t) : Quantity :=
  Z.min (Order.remainingQuantity_ b) (Order.remainingQuantity_ a).

Definition trade (b a : Order.t) : Trade.t :=
  Trade.mk (TradeInfo.mk (Order.orderId_ b) (Order.price_ b) (qty b a))
           (TradeInfo.mk (Order.orderId_ a) (Order.price_ a) (qty b a)).

(** The head after it traded [q]: gone when it is filled. *)
Definition after (q : Quantity) (o : Order.t) (l : list Order.t) : list Order.t :=
  if Order.IsFilled (reduce q o) then l else reduce q o :: l.

(** Trade the two heads while their prices cross. *)
Fixpoint match_orders (bs : list Order.t) : list Order.t → Trades * book :=
  match bs with
  | [] => λ as', ([], mk [] as')
  | b0 :: bs' =>
      (fix go (b : Order.t) (as' : list Order.t) : Trades * book :=
        match as' with
        | [] => ([], mk (b :: bs') [])
        | a :: as'' =>
            if Order.price_ b <? Order.price_ a then ([], mk (b :: bs') (a :: as''))
            else
              let r := if Order.IsFilled (reduce (qty b a) b)
                       then match_orders bs' (after (qty b a) a as'')
                       else go (reduce (qty b a) b) as'' in
              (trade b a :: r.1, r.2)
        end) b0
  end.

(** Time priority: behind the orders of the same price. *)
Fixpoint place (side : Side) (o : Order.t) (l : list Order.t) : list Order.t :=
  match l with
  | [] => [o]
  | x :: l' =>
      if cmp side (Order.price_ o) (Order.price_ x) then o :: l else x :: place side o l'
  end.

Definition place_in (o : Order.t) (b : book) : book :=
  match Order.side_ o with
  | Buy => mk (place Buy o (bids b)) (asks b)
  | Sell => mk (bids b) (place Sell o (asks b))
  end.

Definition can_match (side : Side) (price : Price) (b : book) : bool :=
  match side, bids b, asks b with
  | Buy, _, a :: _ => Order.price_ a <=? price
  | Sell, x :: _, _ => price <=? Order.price_ x
  | _, _, _ => false
  end.

Definition ids (b : book) : list OrderId := Order.orderId_ <$> bids b ++ asks b.

Definition is_fak (o : Order.t) : Prop := Order.orderType_ o = FillAndKill.
#[global] Instance is_fak_dec o : Decision (is_fak o).
Proof. unfold is_fak. apply _. Defined.

Definition drop_fak (b : book) : book :=
  mk (filter (λ o, ¬ is_fak o) (bids b)) (filter (λ o, ¬ is_fak o) (asks b)).

Definition add (o : Order.t) (b : book) : Trades * book :=
  if bool_decide (Order.orderId_ o ∈ ids b) then ([], b)
  else if bool_decide (is_fak o) && negb (can_match (Order.side_ o) (Order.price_ o) b) then ([], b)
  else
    let b' := place_in o b in
    let r := match_orders (bids b') (asks b') in
    (r.1, drop_fak r.2).

Definition cancel (id : OrderId) (b : book) : book :=
  mk (filter (λ o, Order.orderId_ o ≠ id) (bids b))
     (filter (λ o, Order.orderId_ o ≠ id) (asks b)).

(** Cancel and replace, with the type of the order that was there. *)
Definition modify (m : OrderModify.t) (b : book) : Trades * book :=
  match filter (λ o, Order.orderId_ o = OrderModify.orderId_ m) (bids b ++ asks b) with
  | [] => ([], b)
  | o :: _ => add (OrderModify.to_order (Order.orderType_ o) m) (cancel (OrderModify.orderId_ m) b)
  end.

(** ** Matching *)

Definition ok (o : Order.t) : Prop :=
  0 <= Order.remainingQuantity_ o <= Order.initialQuantity_ o.

Lemma reduce_filled q o : Order.IsFilled (reduce q o) = (Order.remainingQuantity_ o =? q).
Proof.
  unfold Order.IsFilled, Order.GetRemainingQuantity, reduce. simpl.
  destruct (_ =? 0) eqn:E1, (_ =? q) eqn:E2; zbool; lia.
Qed.

(** At least one head is filled by a trade. *)
Lemma one_filled b a :
  Order.IsFilled (reduce (qty b a) b) = false → Order.IsFilled (reduce (qty b a) a) = true.
Proof. rewrite !reduce_filled, Z.eqb_neq, Z.eqb_eq. unfold qty. lia. Qed.

(** The unfolding equation of matching. *)
Lemma match_orders_eq b bs a as' :
  match_orders (b :: bs) (a :: as') =
  if Order.price_ b <? Order.price_ a then ([], mk (b :: bs) (a :: as'))
  else
    let r := match_orders (after (qty b a) b bs) (after (qty b a) a as') in
    (trade b a :: r.1, r.2).
Proof.
  destruct (Order.IsFilled (reduce (qty b a) b)) eqn:E.
  - unfold after at 1. rewrite E. simpl. by rewrite E.
  - unfold after. rewrite E, (one_filled _ _ E). simpl. by rewrite E.
Qed.

Lemma match_orders_nil_l as' : match_orders [] as' = ([], mk [] as').
Proof. done. Qed.
Lemma match_orders_nil_r bs : match_orders bs [] = ([], mk bs []).
Proof. by destruct bs. Qed.

#[global] Arguments match_orders : simpl never.

(** Induction along the iterations of matching. *)
Lemma match_orders_ind (P : list Order.t → list Order.t → Trades * book → Prop) :
  (∀ as', P [] as' ([], mk [] as')) →
  (∀ bs, P bs [] ([], mk bs [])) →
  (∀ b bs a as', Order.price_ b < Order.price_ a →
     P (b :: bs) (a :: as') ([], mk (b :: bs) (a :: as'))) →
  (∀ b bs a as' r, Order.price_ a <= Order.price_ b →
     r = match_orders (after (qty b a) b bs) (after (qty b a) a as') →
     P (after (qty b a) b bs) (after (qty b a) a as') r →
     P (b :: bs) (a :: as') (trade b a :: r.1, r.2)) →
  ∀ bs as', P bs as' (match_orders bs as').
Proof.
  intros H1 H2 H3 H4 bs as'.
  remember (length bs + length as')%nat as n eqn:Hn. revert bs as' Hn.
  induction (lt_wf n) as [n _ IH]. intros [|b bs] [|a as'] ->; [apply H1|apply H1|apply H2|].
  rewrite match_orders_eq. destruct (_ <? _) eqn:E; zbool; [by apply H3|].
  apply H4; [done..|]. eapply IH; [|reflexivity]. unfold after.
  destruct (Order.IsFilled (reduce _ b)) eqn:Eb; simpl.
  - destruct (Order.IsFilled (reduce _ a)); simpl; lia.
  - rewrite (one_filled _ _ Eb). lia.
Qed.

(** ** Priority order and quiet books *)

(** No order precedes one of a strictly better price. *)
Definition sorted (side : Side) (l : list Order.t) : Prop :=
  StronglySorted (λ x y, cmp side (Order.price_ y) (Order.price_ x) = false) l.

Definition uncrossed (b : book) : Prop :=
  ∀ x y, x ∈ bids b → y ∈ asks b → Order.price_ x < Order.price_ y.

(** A book between two calls: uncrossed, and without fill-and-kill orders. *)
Record quiet (b : book) : Prop := {
  quiet_uncrossed : uncrossed b;
  quiet_no_fak : Forall (λ o, ¬ is_fak o) (bids b ++ asks b);
}.

Lemma after_elem q b l x : x ∈ tail (after q b l) → x ∈ l.
Proof. unfold after. destruct (Order.IsFilled _); [destruct l; set_solver|done]. Qed.

(** Matching only removes orders from the heads and reduces the new heads. *)
Lemma match_orders_tails bs as' :
  (∀ x, x ∈ tail (bids (match_orders bs as').2) → x ∈ tail bs) ∧
  (∀ x, x ∈ tail (asks (match_orders bs as').2) → x ∈ tail as').
Proof.
  apply match_orders_ind; simpl; try done. clear bs as'.
  intros b bs a as' r _ _ [IH1 IH2]. split; intros x Hx; eapply after_elem; eauto.
Qed.

(** Nothing is left to trade. *)
Lemma match_orders_stops bs as' :
  let r := match_orders bs as' in match_orders (bids r.2) (asks r.2) = ([], r.2).
Proof.
  apply (match_orders_ind (λ _ _ r, match_orders (bids r.2) (asks r.2) = ([], r.2)));
    simpl; try done.
  - intros l. apply match_orders_nil_r.
  - intros b l a k Hlt. rewrite match_orders_eq.
    destruct (_ <? _) eqn:E; zbool; [done|lia].
Qed.

Lemma sorted_after side q b l : sorted side (b :: l) → sorted side (after q b l).
Proof.
  unfold sorted, after. intros [Hs Hall]%StronglySorted_inv.
  destruct (Order.IsFilled _); [done|]. by constructor.
Qed.

Lemma match_orders_sorted bs as' :
  sorted Buy bs → sorted Sell as' →
  sorted Buy (bids (match_orders bs as').2) ∧ sorted Sell (asks (match_orders bs as').2).
Proof.
  apply (match_orders_ind (λ bs as' r, sorted Buy bs → sorted Sell as' →
    sorted Buy (bids r.2) ∧ sorted Sell (asks r.2))); simpl.
  - intros l _ Hl. split; [constructor|done].
  - intros l Hl _. split; [done|constructor].
  - done.
  - intros b l a k r _ _ IH Hb Ha. apply IH; by apply sorted_after.
Qed.

Lemma stopped_uncrossed b :
  sorted Buy (bids b) → sorted Sell (asks b) →
  match_orders (bids b) (asks b) = ([], b) → uncrossed b.
Proof.
  destruct b as [[|b bs] [|a as']]; simpl; intros Hb Ha Hm x y Hx Hy; simpl in Hx, Hy;
    try by apply not_elem_of_nil in Hx || apply not_elem_of_nil in Hy.
  change (match_orders (b :: bs) (a :: as') = ([], mk (b :: bs) (a :: as'))) in Hm.
  rewrite match_orders_eq in Hm. destruct (_ <? _) eqn:E; [|done]. zbool.
  apply StronglySorted_inv in Hb as [_ Hb], Ha as [_ Ha]. rewrite Forall_forall in Hb, Ha.
  assert (Order.price_ x <= Order.price_ b).
  { apply elem_of_cons in Hx as [->|Hx]; [lia|]. specialize (Hb _ Hx).
    unfold cmp, std_greater in Hb. zbool. lia. }
  assert (Order.price_ a <= Order.price_ y).
  { apply elem_of_cons in Hy as [->|Hy]; [lia|]. specialize (Ha _ Hy).
    unfold cmp, std_less in Ha. zbool. lia. }
  lia.
Qed.

Lemma drop_fak_quiet b : uncrossed b → quiet (drop_fak b).
Proof.
  intros Hu. split.
  - intros x y [_ Hx]%list_elem_of_filter [_ Hy]%list_elem_of_filter. auto.
  - simpl. apply Forall_app. split; apply Forall_forall; by intros x [? _]%list_elem_of_filter.
Qed.

Lemma cancel_quiet id b : quiet b → quiet (cancel id b).
Proof.
  intros [Hu Hf]. split.
  - intros x y [_ Hx]%list_elem_of_filter [_ Hy]%list_elem_of_filter. auto.
  - simpl. rewrite Forall_app, !Forall_forall in Hf |- *. destruct Hf as [Hf1 Hf2].
    split; intros x [_ Hx]%list_elem_of_filter; auto.
Qed.

(** An order that can match trades. *)
Lemma can_match_trades o b :
  can_match (Order.side_ o) (Order.price_ o) b = true →
  (∀ x, x ∈ side_of (Order.side_ o) b → cmp (Order.side_ o) (Order.price_ o) (Order.price_ x) = true) →
  side_of (Order.side_ o) (place_in o b) = o :: side_of (Order.side_ o) b ∧
  (match_orders (bids (place_in o b)) (asks (place_in o b))).1 ≠ [].
Proof.
  unfold can_match, place_in. intros Hc Hbest.
  assert (∀ side l, (∀ x, x ∈ l → cmp side (Order.price_ o) (Order.price_ x) = true) →
    place side o l = o :: l) as Hplace.
  { intros side [|x l] Hx; [done|]. simpl. by rewrite Hx by set_solver. }
  destruct (Order.side_ o); simpl in *; rewrite Hplace by done; split; try done.
  - destruct (asks b) as [|a l]; [done|]. zbool. rewrite match_orders_eq.
    destruct (_ <? _) eqn:E; zbool; [lia|done].
  - destruct (bids b) as [|x l]; [done|]. zbool. rewrite match_orders_eq.
    destruct (_ <? _) eqn:E; zbool; [lia|done].
Qed.

(** In a quiet book, an order that can match is better than its whole side. *)
Lemma can_match_best side pr b x :
  quiet b → can_match side pr b = true → x ∈ side_of side b →
  cmp side pr (Order.price_ x) = true.
Proof.
  intros [Hu _] Hc Hx. unfold can_match in Hc. destruct side; simpl in *.
  - destruct (asks b) as [|a l] eqn:E; [done|]. zbool.
    assert (Order.price_ x < Order.price_ a) by (apply Hu; [done|rewrite E; by left]).
    unfold std_greater. apply Z.ltb_lt. lia.
  - destruct (bids b) as [|a l] eqn:E; [done|]. zbool.
    assert (Order.price_ a < Order.price_ x) by (apply Hu; [rewrite E; by left|done]).
    unfold std_less. apply Z.ltb_lt. lia.
Qed.

Abbreviation no_fak := (Forall (λ o, ¬ is_fak o)).

Lemma no_fak_tail l : no_fak l → no_fak (tail l).
Proof. intros H. destruct H; [constructor|done]. Qed.

Lemma no_fak_after q b l : no_fak (b :: l) → no_fak (after q b l).
Proof.
  intros [Hb Hl]%Forall_cons. unfold after. destruct (Order.IsFilled _); [done|].
  by constructor.
Qed.

Lemma no_fak_place side o l : ¬ is_fak o → no_fak l → no_fak (place side o l).
Proof.
  intros Ho. induction 1; simpl; [by repeat constructor|].
  destruct (cmp _ _ _); repeat constructor; auto.
Qed.

Lemma match_orders_no_fak bs as' :
  no_fak bs → no_fak as' →
  no_fak (bids (match_orders bs as').2 ++ asks (match_orders bs as').2).
Proof.
  apply (match_orders_ind (λ bs as' r, no_fak bs → no_fak as' → no_fak (bids r.2 ++ asks r.2)));
    simpl.
  - done.
  - intros l Hl _. by rewrite app_nil_r.
  - intros b l a k _ Hb Ha. change (no_fak ((b :: l) ++ (a :: k))). by apply Forall_app.
  - intros b l a k r _ _ IH Hb Ha. apply IH; by apply no_fak_after.
Qed.

(** Placing an order that may be fill-and-kill only if it can match. *)
Lemma place_tails o b :
  quiet b → (is_fak o → can_match (Order.side_ o) (Order.price_ o) b = true) →
  no_fak (tail (bids (place_in o b))) ∧ no_fak (tail (asks (place_in o b))).
Proof.
  intros Hq Hcan. pose proof (quiet_no_fak b Hq) as [Hfb Hfa]%Forall_app.
  destruct (decide (is_fak o)) as [Ho|Ho].
  - destruct (can_match_trades o b (Hcan Ho)) as [Hside _].
    { intros x. by apply can_match_best; [|apply Hcan]. }
    unfold place_in in *. destruct (Order.side_ o); simpl in *; rewrite ?Hside; simpl;
      auto using no_fak_tail.
  - unfold place_in. destruct (Order.side_ o); simpl; auto using no_fak_tail, no_fak_place.
Qed.

Lemma place_no_fak o b :
  ¬ is_fak o → quiet b → no_fak (bids (place_in o b)) ∧ no_fak (asks (place_in o b)).
Proof.
  intros Ho Hq. pose proof (quiet_no_fak b Hq) as [Hfb Hfa]%Forall_app.
  unfold place_in. destruct (Order.side_ o); simpl; auto using no_fak_place.
Qed.

(** ** Quantities *)

Definition open_quantity (l : list Order.t) : Z := zsum (Order.remainingQuantity_ <$> l).
Definition traded (ts : Trades) : Z := zsum ((λ t, TradeInfo.quantity_ (Trade.bidTrade_ t)) <$> ts).

Lemma open_cons o l : open_quantity (o :: l) = Order.remainingQuantity_ o + open_quantity l.
Proof. done. Qed.

Lemma open_after q o l : open_quantity (after q o l) = open_quantity (o :: l) - q.
Proof.
  unfold after. rewrite open_cons. destruct (Order.IsFilled _) eqn:E; [|rewrite open_cons; simpl; lia].
  rewrite reduce_filled in E. zbool. lia.
Qed.

(** What each side loses is what was traded. *)
Lemma match_orders_conserves bs as' :
  let r := match_orders bs as' in
  open_quantity bs = open_quantity (bids r.2) + traded r.1 ∧
  open_quantity as' = open_quantity (asks r.2) + traded r.1.
Proof.
  apply (match_orders_ind (λ bs as' r,
    open_quantity bs = open_quantity (bids r.2) + traded r.1 ∧
    open_quantity as' = open_quantity (asks r.2) + traded r.1)); cbn [fst snd bids asks];
    try (intros; change (traded []) with 0; split; lia).
  intros b l a k r _ _ [IH1 IH2]. rewrite open_after in IH1, IH2.
  unfold traded in *. rewrite fmap_cons, zsum_cons. simpl. lia.
Qed.

Lemma open_place side o l :
  open_quantity (place side o l) = Order.remainingQuantity_ o + open_quantity l.
Proof.
  induction l as [|x l IH]; cbn [place]; [done|].
  destruct (cmp _ _ _); rewrite !open_cons; lia.
Qed.

(** ** The trades *)

(** A trade is for one quantity, at a bid price not below the ask price. *)
Definition fair (t : Trade.t) : Prop :=
  TradeInfo.quantity_ (Trade.bidTrade_ t) = TradeInfo.quantity_ (Trade.askTrade_ t) ∧
  TradeInfo.price_ (Trade.askTrade_ t) <= TradeInfo.price_ (Trade.bidTrade_ t).

Lemma match_orders_fair bs as' : Forall fair (match_orders bs as').1.
Proof.
  apply (match_orders_ind (λ _ _ r, Forall fair r.1)); cbn [fst snd]; try constructor; done.
Qed.

Definition crossfree (bs as' : list Order.t) : Prop :=
  ∀ x y, x ∈ bs → y ∈ as' → Order.price_ x < Order.price_ y.

Lemma crossfree_no_trade bs as' : crossfree bs as' → (match_orders bs as').1 = [].
Proof.
  intros Hc. destruct bs as [|b bs], as' as [|a as']; try done.
  rewrite match_orders_eq. destruct (_ <? _) eqn:E; [done|]. zbool.
  specialize (Hc b a). assert (Order.price_ b < Order.price_ a) by (apply Hc; by left). lia.
Qed.

Lemma after_cases q o l : after q o l = l ∨ after q o l = reduce q o :: l.
Proof. unfold after. destruct (Order.IsFilled _); auto. Qed.

Lemma after_prices q o l x :
  x ∈ after q o l → ∃ y, y ∈ o :: l ∧ Order.price_ x = Order.price_ y.
Proof.
  unfold after. destruct (Order.IsFilled _); intros Hx; [exists x; set_solver|].
  apply elem_of_cons in Hx as [->|Hx]; [exists o; set_solver|exists x; set_solver].
Qed.

(** Everything left in the book was in it, with the same identity and terms. *)
Definition same_terms (x y : Order.t) : Prop :=
  Order.orderId_ x = Order.orderId_ y ∧ Order.orderType_ x = Order.orderType_ y ∧
  Order.side_ x = Order.side_ y ∧ Order.price_ x = Order.price_ y.

Lemma after_from q o l x : x ∈ after q o l → ∃ y, y ∈ o :: l ∧ same_terms x y.
Proof.
  assert (∀ y, same_terms y y) as Hrefl by (by intros y; split_and!).
  destruct (after_cases q o l) as [->| ->]; intros Hx; [exists x; set_solver|].
  apply elem_of_cons in Hx as [->|Hx]; [exists o|exists x]; (split; [set_solver|done]).
Qed.

Lemma match_orders_from bs as' :
  let r := match_orders bs as' in
  (∀ x, x ∈ bids r.2 → ∃ y, y ∈ bs ∧ same_terms x y) ∧
  (∀ x, x ∈ asks r.2 → ∃ y, y ∈ as' ∧ same_terms x y).
Proof.
  apply (match_orders_ind (λ bs as' r,
    (∀ x, x ∈ bids r.2 → ∃ y, y ∈ bs ∧ same_terms x y) ∧
    (∀ x, x ∈ asks r.2 → ∃ y, y ∈ as' ∧ same_terms x y))); cbn [fst snd bids asks];
    [split; intros x Hx; by exists x..|].
  intros b l a k r _ _ [IH1 IH2].
  split; intros x Hx; [apply IH1 in Hx as (y & Hy & Hs)|apply IH2 in Hx as (y & Hy & Hs)];
    apply after_from in Hy as (z & Hz & Hs'); exists z; (split; [done|]);
    unfold same_terms in *; intuition congruence.
Qed.

(** Matching an order against a crossfree book trades that order only. *)
Lemma match_orders_bid_incoming bs as' id :
  crossfree (tail bs) as' → (∀ o, head bs = Some o → Order.orderId_ o = id) →
  Forall (λ t, TradeInfo.orderId_ (Trade.bidTrade_ t) = id) (match_orders bs as').1.
Proof.
  apply (match_orders_ind (λ bs as' r, crossfree (tail bs) as' →
    (∀ o, head bs = Some o → Order.orderId_ o = id) →
    Forall (λ t, TradeInfo.orderId_ (Trade.bidTrade_ t) = id) r.1));
    cbn [fst snd tail head]; [intros; constructor..|].
  intros b l a k r _ Hr IH Hc Hid. constructor; [by apply Hid|].
  assert (crossfree l (after (qty b a) a k)) as Hl.
  { intros x y Hx (z & Hz & ->)%after_prices. by apply Hc. }
  subst r. destruct (after_cases (qty b a) b l) as [E|E]; rewrite E in IH |- *.
  - by rewrite crossfree_no_trade.
  - apply IH; [done|]. intros o [= <-]. exact (Hid b eq_refl).
Qed.

Lemma match_orders_ask_incoming bs as' id :
  crossfree bs (tail as') → (∀ o, head as' = Some o → Order.orderId_ o = id) →
  Forall (λ t, TradeInfo.orderId_ (Trade.askTrade_ t) = id) (match_orders bs as').1.
Proof.
  apply (match_orders_ind (λ bs as' r, crossfree bs (tail as') →
    (∀ o, head as' = Some o → Order.orderId_ o = id) →
    Forall (λ t, TradeInfo.orderId_ (Trade.askTrade_ t) = id) r.1));
    cbn [fst snd tail head]; [intros; constructor..|].
  intros b l a k r _ Hr IH Hc Hid. constructor; [by apply Hid|].
  assert (crossfree (after (qty b a) b l) k) as Hl.
  { intros x y (z & Hz & ->)%after_prices Hy. by apply Hc. }
  subst r. destruct (after_cases (qty b a) a k) as [E|E]; rewrite E in IH |- *.
  - by rewrite crossfree_no_trade.
  - apply IH; [done|]. intros o [= <-]. exact (Hid a eq_refl).
Qed.

(** ** Adding *)

(** Where [place] puts an order in a list in priority order. *)
Lemma place_split side o l :
  sorted side l →
  ∃ l1 l2, l = l1 ++ l2 ∧ place side o l = l1 ++ o :: l2 ∧
    Forall (λ x, cmp side (Order.price_ o) (Order.price_ x) = false) l1 ∧
    Forall (λ x, cmp side (Order.price_ o) (Order.price_ x) = true) l2.
Proof.
  induction 1 as [|x l Hl IH Hx]; simpl; [by exists [], []|].
  destruct (cmp side (Order.price_ o) (Order.price_ x)) eqn:E.
  - exists [], (x :: l). split_and!; try done. constructor; [done|].
    rewrite Forall_forall in Hx |- *. intros y Hy. specialize (Hx y Hy).
    revert Hx E. destruct side; simpl; unfold std_greater, std_less; intros; zbool;
      apply Z.ltb_lt; lia.
  - destruct IH as (l1 & l2 & -> & -> & H1 & H2). exists (x :: l1), l2.
    split_and!; try done. by constructor.
Qed.

(** An incoming order that crosses nothing rests. *)
Lemma add_no_cross o b :
  quiet b → ¬ is_fak o → Order.orderId_ o ∉ ids b →
  can_match (Order.side_ o) (Order.price_ o) b = false →
  sorted Buy (bids b) → sorted Sell (asks b) →
  add o b = ([], place_in o b).
Proof.
  intros Hq Hfak Hid Hcan Hsb Hsa. unfold add.
  rewrite bool_decide_eq_false_2, (bool_decide_eq_false_2 (is_fak o)) by done.
  cbn [andb negb].
  assert (crossfree (bids (place_in o b)) (asks (place_in o b))) as Hc.
  { unfold place_in, can_match in *. pose proof (quiet_uncrossed b Hq) as Hu.
    destruct (Order.side_ o); simpl in *.
    - destruct (place_split Buy o (bids b) Hsb) as (l1 & l2 & Hl & -> & _ & _).
      intros x y Hx Hy. assert (x = o ∨ x ∈ bids b) as [->|Hxb] by (rewrite Hl; set_solver).
      + destruct (asks b) as [|a l]; [by apply not_elem_of_nil in Hy|]. zbool.
        apply StronglySorted_inv in Hsa as [_ Ha]. rewrite Forall_forall in Ha.
        apply elem_of_cons in Hy as [->|Hy]; [lia|]. specialize (Ha y Hy).
        unfold cmp, std_less in Ha. zbool. lia.
      + by apply Hu.
    - destruct (place_split Sell o (asks b) Hsa) as (l1 & l2 & Hl & -> & _ & _).
      intros x y Hx Hy. assert (y = o ∨ y ∈ asks b) as [->|Hyb] by (rewrite Hl; set_solver).
      + destruct (bids b) as [|a l]; [by apply not_elem_of_nil in Hx|]. zbool.
        apply StronglySorted_inv in Hsb as [_ Hb]. rewrite Forall_forall in Hb.
        apply elem_of_cons in Hx as [->|Hx]; [lia|]. specialize (Hb x Hx).
        unfold cmp, std_greater in Hb. zbool. lia.
      + by apply Hu. }
  rewrite crossfree_no_trade by done. f_equal.
  assert ((match_orders (bids (place_in o b)) (asks (place_in o b))).2 = place_in o b) as ->.
  { destruct (place_in o b) as [[|x bs] [|a as']]; try done. simpl in *.
    rewrite match_orders_eq. destruct (_ <? _) eqn:E; [done|]. zbool.
    assert (Order.price_ x < Order.price_ a) by (apply Hc; by left). lia. }
  destruct (place_no_fak o b Hfak Hq). unfold drop_fak. rewrite !filter_all.
  - by destruct (place_in o b).
  - by apply Forall_forall.
  - by apply Forall_forall.
Qed.

Lemma place_elem side o l x : x ∈ place side o l ↔ x = o ∨ x ∈ l.
Proof.
  induction l as [|y l IH]; simpl; [set_solver|].
  destruct (cmp _ _ _); set_solver.
Qed.

(** A fill-and-kill order is not in the book after it was added. *)
Lemma add_fak_gone o b :
  is_fak o → Order.orderId_ o ∉ ids b → Order.orderId_ o ∉ ids (add o b).2.
Proof.
  intros Hfak Hid. unfold add. rewrite bool_decide_eq_false_2 by done.
  destruct (_ && _); [done|]. cbn [snd]. intros (x & Hx & Hin)%list_elem_of_fmap. unfold drop_fak in Hin.
  destruct (match_orders_from (bids (place_in o b)) (asks (place_in o b))) as [Hfb Hfa].
  assert (∃ y, y ∈ bids (place_in o b) ++ asks (place_in o b) ∧ same_terms x y ∧ ¬ is_fak x)
    as (y & Hy & (Hyid & Hty & _) & Hnf).
  { simpl in Hin. apply elem_of_app in Hin as [[Hn Hin]%list_elem_of_filter|[Hn Hin]%list_elem_of_filter].
    - destruct (Hfb x Hin) as (y & ? & ?). exists y. rewrite elem_of_app. auto.
    - destruct (Hfa x Hin) as (y & ? & ?). exists y. rewrite elem_of_app. auto. }
  assert (y = o ∨ y ∈ bids b ++ asks b) as [->|Hyb].
  { unfold place_in in Hy. destruct (Order.side_ o); simpl in Hy;
      rewrite elem_of_app, place_elem in Hy; rewrite elem_of_app; tauto. }
  - apply Hnf. unfold is_fak in *. congruence.
  - apply Hid. rewrite Hx, Hyid. by apply list_elem_of_fmap_2.
Qed.

(** The added order is one of the two parties of every trade. *)
Definition incoming (o : Order.t) (t : Trade.t) : Prop :=
  match Order.side_ o with
  | Buy => TradeInfo.orderId_ (Trade.bidTrade_ t) = Order.orderId_ o
  | Sell => TradeInfo.orderId_ (Trade.askTrade_ t) = Order.orderId_ o
  end.

Lemma add_trades o b :
  quiet b → sorted Buy (bids b) → sorted Sell (asks b) →
  Forall (λ t, fair t ∧ incoming o t) (add o b).1.
Proof.
  intros Hq Hsb Hsa. destruct (decide (Order.orderId_ o ∈ ids b)) as [Hid|Hid].
  { unfold add. rewrite (bool_decide_eq_true_2 _ Hid). constructor. }
  destruct (can_match (Order.side_ o) (Order.price_ o) b) eqn:Hc.
  - unfold add. rewrite (bool_decide_eq_false_2 _ Hid), Hc, andb_false_r. cbn [fst].
    destruct (can_match_trades o b Hc) as [Hside _].
    { intros x. by apply can_match_best. }
    apply Forall_and. split; [apply match_orders_fair|].
    unfold place_in, incoming in *. pose proof (quiet_uncrossed b Hq).
    destruct (Order.side_ o); simpl in *; rewrite Hside.
    + apply match_orders_bid_incoming; [done|]. by intros x [= <-].
    + apply match_orders_ask_incoming; [done|]. by intros x [= <-].
  - destruct (decide (is_fak o)) as [Hf|Hf].
    + unfold add. rewrite (bool_decide_eq_false_2 _ Hid), (bool_decide_eq_true_2 _ Hf), Hc.
      constructor.
    + by rewrite add_no_cross.
Qed.

(** Adding a good-till-cancel order neither creates nor loses quantity. *)
Lemma add_conserves o b side :
  quiet b → ¬ is_fak o → Order.orderId_ o ∉ ids b →
  open_quantity (side_of side (add o b).2) + traded (add o b).1 =
  open_quantity (side_of side b) + (if decide (Order.side_ o = side) then Order.remainingQuantity_ o else 0).
Proof.
  intros Hq Hf Hid. unfold add.
  rewrite (bool_decide_eq_false_2 _ Hid), (bool_decide_eq_false_2 _ Hf). cbn [andb fst snd].
  destruct (match_orders_conserves (bids (place_in o b)) (asks (place_in o b))) as [Hb Ha].
  destruct (place_no_fak o b Hf Hq) as [Hnb Hna].
  pose proof (match_orders_no_fak _ _ Hnb Hna) as [Hrb Hra]%Forall_app.
  unfold drop_fak. rewrite Forall_forall in Hrb, Hra. rewrite !filter_all by done.
  unfold place_in in *. destruct side, (Order.side_ o); simpl in *;
    rewrite ?open_place in *; lia.
Qed.

(** Cancelling the order just rested restores the book. *)
Lemma cancel_place o b :
  Order.orderId_ o ∉ ids b → sorted Buy (bids b) → sorted Sell (asks b) →
  cancel (Order.orderId_ o) (place_in o b) = b.
Proof.
  intros Hid Hsb Hsa. unfold ids in Hid. rewrite fmap_app, not_elem_of_app in Hid.
  destruct Hid as [Hb Ha].
  assert (∀ l : list Order.t, (Order.orderId_ o ∉ Order.orderId_ <$> l) →
    ∀ x, x ∈ l → Order.orderId_ x ≠ Order.orderId_ o) as Hne.
  { intros l Hl x Hx Heq. apply Hl. rewrite <-Heq. by apply list_elem_of_fmap_2. }
  unfold cancel, place_in. destruct (Order.side_ o); simpl.
  - destruct (place_split Buy o (bids b) Hsb) as (l1 & l2 & Hl & -> & _ & _).
    rewrite filter_one, <-Hl, filter_all; [by destruct b|by apply Hne|naive_solver|].
    rewrite <-Hl. by apply Hne.
  - destruct (place_split Sell o (asks b) Hsa) as (l1 & l2 & Hl & -> & _ & _).
    rewrite filter_one, <-Hl, filter_all; [by destruct b|by apply Hne|naive_solver|].
    rewrite <-Hl. by apply Hne.
Qed.

End Spec.
