(* ===== verification/OrderbookInv.v ===== *)
(** The well-formedness invariant of the order book and the effect of each of
    its building blocks on a well-formed state: the equations that the
    symbolic execution of the member functions rests on. *)

From S2P Require Import Prelude.
From S2P Require Import StdMap.
From S2P Require Import Orderbook.
From S2P Require Import OrderbookSpec.

#[export] Instance cmp_comparator side : Comparator (cmp side).
Proof. destruct side; apply _. Qed.

(** ** Projections of updated states *)

Definition other (side : Side) : Side := match side with Buy => Sell | Sell => Buy end.

Lemma levels_with_levels side m s : levels side (with_levels side m s) = m.
Proof. by destruct side. Qed.
Lemma levels_with_levels_ne side side' m s :
  side ≠ side' → levels side (with_levels side' m s) = levels side s.
Proof. by destruct side, side'. Qed.
Lemma levels_with_orders side m s : levels side (with_orders m s) = levels side s.
Proof. by destruct side. Qed.
Lemma levels_with_heap side h s : levels side (with_heap h s) = levels side s.
Proof. by destruct side. Qed.
Lemma levels_with_next_node side n s : levels side (with_next_node n s) = levels side s.
Proof. by destruct side. Qed.
Lemma levels_with_next_loc side n s : levels side (with_next_loc n s) = levels side s.
Proof. by destruct side. Qed.
Lemma levels_log side v s : levels side (log v s) = levels side s.
Proof. by destruct side. Qed.
Lemma heap_with_levels side m s : heap (with_levels side m s) = heap s.
Proof. by destruct side. Qed.
Lemma orders_with_levels side m s : orders_ (with_levels side m s) = orders_ s.
Proof. by destruct side. Qed.
Lemma next_node_with_levels side m s : next_node (with_levels side m s) = next_node s.
Proof. by destruct side. Qed.
Lemma next_loc_with_levels side m s : next_loc (with_levels side m s) = next_loc s.
Proof. by destruct side. Qed.
Lemma violations_with_levels side m s : violations (with_levels side m s) = violations s.
Proof. by destruct side. Qed.
Lemma with_levels_levels side s : with_levels side (levels side s) s = s.
Proof. by destruct side, s. Qed.
Lemma with_levels_twice side m m' s : with_levels side m (with_levels side m' s) = with_levels side m s.
Proof. by destruct side. Qed.

Create Rewrite HintDb book.
#[export] Hint Rewrite levels_with_levels levels_with_orders levels_with_heap
  levels_with_next_node levels_with_next_loc levels_log heap_with_levels
  orders_with_levels next_node_with_levels next_loc_with_levels
  violations_with_levels : book.
#[export] Hint Rewrite levels_with_levels_ne using (done || congruence) : book.

Lemma flat_nil : flat [] = [].
Proof. done. Qed.
Lemma flat_cons pr l m : flat ((pr, l) :: m) = l ++ flat m.
Proof. done. Qed.
Lemma flat_app m1 m2 : flat (m1 ++ m2) = flat m1 ++ flat m2.
Proof. unfold flat. by rewrite fmap_app, concat_app. Qed.
#[export] Hint Rewrite flat_nil flat_cons flat_app : book.

Lemma elem_of_flat e m : e ∈ flat m ↔ ∃ pr l, (pr, l) ∈ m ∧ e ∈ l.
Proof.
  induction m as [|[pr l] m IH]; simpl.
  { split; [by intros ?%not_elem_of_nil|by intros (?&?&?%not_elem_of_nil&?)]. }
  rewrite flat_cons, elem_of_app, IH. split.
  - intros [?|(pr' & l' & ? & ?)]; [exists pr, l|exists pr', l']; rewrite elem_of_cons; auto.
  - intros (pr' & l' & [[= -> ->]|?]%elem_of_cons & ?); eauto.
Qed.

(** ** The invariant *)

(** Both sides' list nodes. *)
Definition nodes (s : Orderbook) : OrderPointers := flat (bids_ s) ++ flat (asks_ s).

(** An order's quantities are 32-bit and what remains is part of what was ordered. *)
Definition order_ok (o : Order.t) : Prop :=
  0 <= Order.remainingQuantity_ o <= Order.initialQuantity_ o ∧
  Order.initialQuantity_ o < 2 ^ 32.

(** Node [e] of the level of [pr] holds an order of that side and price that
    the hash map finds at this very node. *)
Definition rests (s : Orderbook) (side : Side) (pr : Price) (e : Iterator * OrderPointer) : Prop :=
  ∃ o, heap s !! e.2 = Some o ∧ Order.side_ o = side ∧ Order.price_ o = pr ∧
    order_ok o ∧ orders_ s !! Order.orderId_ o = Some (mkEntry e.2 e.1).

Record wf (s : Orderbook) : Prop := {
  wf_sorted side : map_sorted (cmp side) (levels side s);
  wf_nonempty side : Forall (λ lv, lv.2 ≠ []) (levels side s);
  wf_rests side pr l e : (pr, l) ∈ levels side s → e ∈ l → rests s side pr e;
  wf_indexed id en : orders_ s !! id = Some en →
    ∃ o, heap s !! order_ en = Some o ∧ Order.orderId_ o = id ∧
      (location_ en, order_ en) ∈ flat (levels (Order.side_ o) s);
  wf_nodup : NoDup (nodes s).*1;
  wf_next_node : Forall (λ e, (e.1 < next_node s)%positive) (nodes s);
  wf_next_loc p : is_Some (heap s !! p) → (p < next_loc s)%positive;
}.

Lemma elem_of_nodes e s : e ∈ nodes s ↔ ∃ side, e ∈ flat (levels side s).
Proof.
  unfold nodes. rewrite elem_of_app. split.
  - intros [?|?]; [by exists Buy|by exists Sell].
  - intros [[] ?]; auto.
Qed.

Lemma wf_flat s side e :
  wf s → e ∈ flat (levels side s) →
  ∃ o, heap s !! e.2 = Some o ∧ Order.side_ o = side ∧ order_ok o ∧
    orders_ s !! Order.orderId_ o = Some (mkEntry e.2 e.1).
Proof.
  intros Hwf (pr & l & Hl & He)%elem_of_flat.
  destruct (wf_rests s Hwf _ _ _ _ Hl He) as (o & ?&?&?&?&?). by exists o.
Qed.

(** An object rests at most once. *)
Lemma wf_pointer_node s e e' :
  wf s → e ∈ nodes s → e' ∈ nodes s → e.2 = e'.2 → e = e'.
Proof.
  intros Hwf [side He]%elem_of_nodes [side' He']%elem_of_nodes Heq.
  destruct (wf_flat _ _ _ Hwf He) as (o & Ho & _ & _ & Hi).
  destruct (wf_flat _ _ _ Hwf He') as (o' & Ho' & _ & _ & Hi').
  destruct e, e'; simpl in *. subst. rewrite Ho in Ho'. injection Ho' as <-.
  rewrite Hi in Hi'. congruence.
Qed.

Lemma wf_log v s : wf s → wf (log v s).
Proof.
  intros [H1 H2 H3 H4 H5 H6 H7]. split; [..|done|done|done].
  - intros side. rewrite levels_log. apply H1.
  - intros side. rewrite levels_log. apply H2.
  - intros side pr l e. rewrite levels_log. apply H3.
  - intros id en Hid. destruct (H4 id en Hid) as (o & ?&?&?).
    exists o. by rewrite levels_log.
Qed.

Lemma wf_empty : wf empty_book.
Proof.
  split; simpl.
  - intros []; constructor.
  - intros []; constructor.
  - intros [] pr l e ?%not_elem_of_nil; done.
  - by intros id en ?%lookup_empty_Some.
  - constructor.
  - constructor.
  - intros p [? ?%lookup_empty_Some]. done.
Qed.

(** ** Building blocks *)

Lemma map_find_head side pr (l : OrderPointers) m : map_find (cmp side) pr ((pr, l) :: m) = Some l.
Proof. simpl. by rewrite !cmp_irrefl. Qed.
Lemma map_set_head side pr (l l' : OrderPointers) m :
  map_set (cmp side) pr l' ((pr, l) :: m) = (pr, l') :: m.
Proof. simpl. by rewrite !cmp_irrefl. Qed.
Lemma map_erase_head side pr (l : OrderPointers) m : map_erase (cmp side) pr ((pr, l) :: m) = m.
Proof. simpl. by rewrite !cmp_irrefl. Qed.
#[export] Hint Rewrite map_find_head map_set_head map_erase_head : book.

(** The state after an access through a reference to a list node. *)
Definition touch (side : Side) (n : Iterator) (s : Orderbook) : Orderbook :=
  if node_live side n s then s else log (dangling_node n) s.

Lemma arrow_eq side n p s o :
  heap s !! p = Some o → arrow side (n, p) s = (Ret o, touch side n s).
Proof.
  intros Ho. unfold arrow, use_node, touch, deref, mbind, M_bind. simpl.
  destruct (node_live side n s); simpl; by rewrite Ho.
Qed.

Lemma node_live_head side n p pr l m s :
  levels side s = (pr, (n, p) :: l) :: m → node_live side n s = true.
Proof.
  intros Hm. unfold node_live. rewrite Hm. apply bool_decide_eq_true_2.
  set_solver.
Qed.

Lemma touch_live side n s : node_live side n s = true → touch side n s = s.
Proof. unfold touch. by intros ->. Qed.
Lemma touch_dead side n s :
  node_live side n s = false → touch side n s = log (dangling_node n) s.
Proof. unfold touch. by intros ->. Qed.

Lemma read_level_eq side pr l s :
  map_find (cmp side) pr (levels side s) = Some l → read_level side pr s = (Ret l, s).
Proof. unfold read_level. by intros ->. Qed.

(** What remains of a level's list: the map node goes with its last order. *)
Definition keep (pr : Price) (l : OrderPointers) : list (Price * OrderPointers) :=
  match l with [] => [] | _ => [(pr, l)] end.

Lemma flat_keep pr l : flat (keep pr l) = l.
Proof. destruct l; [done|]. cbn. by rewrite app_nil_r. Qed.
#[export] Hint Rewrite flat_keep : book.

Lemma erase_if_empty_eq side pr l m1 m2 s :
  map_sorted (cmp side) (levels side s) →
  levels side s = m1 ++ (pr, l) :: m2 →
  erase_if_empty side pr s = (Ret tt, with_levels side (m1 ++ keep pr l ++ m2) s).
Proof.
  intros Hs Hm. rewrite Hm in Hs. unfold erase_if_empty.
  erewrite bind_Ret; [|apply read_level_eq; rewrite Hm; exact (map_find_mid _ _ _ _ _ Hs)].
  unfold when. case_bool_decide as Hl.
  - unfold modify. rewrite Hm, (map_erase_mid _ _ _ _ _ Hs). by subst l.
  - rewrite <-(with_levels_levels side s) at 1. rewrite Hm. by destruct l.
Qed.

Lemma erase_if_empty_head side pr l m s :
  levels side s = (pr, l) :: m →
  erase_if_empty side pr s = (Ret tt, with_levels side (keep pr l ++ m) s).
Proof.
  intros Hm. unfold erase_if_empty.
  erewrite bind_Ret; [|apply read_level_eq; by rewrite Hm, map_find_head].
  unfold when. case_bool_decide as Hl.
  - unfold modify. rewrite Hm, map_erase_head. by subst l.
  - rewrite <-(with_levels_levels side s) at 1. rewrite Hm. by destruct l.
Qed.

Lemma pop_front_eq side pr l m s :
  levels side s = (pr, l) :: m →
  pop_front side pr s = (Ret tt, with_levels side ((pr, tail l) :: m) s).
Proof.
  intros Hm. unfold pop_front.
  erewrite bind_Ret; [|apply read_level_eq; by rewrite Hm, map_find_head].
  unfold modify. by rewrite Hm, map_set_head.
Qed.

Lemma Fill_ok q o :
  order_ok o → 0 <= q <= Order.remainingQuantity_ o → Order.Fill q o = Ret (Spec.reduce q o).
Proof.
  intros [??] ?. unfold Order.Fill, Order.GetRemainingQuantity.
  destruct (_ >? _) eqn:E; zbool; [lia|]. by rewrite u32_id by lia.
Qed.

Lemma reduce_ok q o :
  order_ok o → 0 <= q <= Order.remainingQuantity_ o → order_ok (Spec.reduce q o).
Proof. unfold order_ok. simpl. lia. Qed.

Lemma fill_order_eq side n p pr l m o q s :
  levels side s = (pr, (n, p) :: l) :: m →
  heap s !! p = Some o → order_ok o → 0 <= q <= Order.remainingQuantity_ o →
  fill_order side (n, p) q s = (Ret tt, with_heap (<[p := Spec.reduce q o]> (heap s)) s).
Proof.
  intros Hm Ho Hok Hq. unfold fill_order.
  erewrite bind_Ret; [|by apply arrow_eq].
  rewrite touch_live by (by eapply node_live_head).
  erewrite bind_Ret; [|by rewrite Fill_ok]. done.
Qed.

Lemma remove_if_filled_eq side n p pr l m o s :
  levels side s = (pr, (n, p) :: l) :: m →
  heap s !! p = Some o →
  n ∉ (l ++ flat m).*1 →
  remove_if_filled side pr (n, p) s =
  (Ret tt, if Order.IsFilled o
           then with_orders (delete (Order.orderId_ o) (orders_ s))
                  (log (dangling_node n) (with_levels side ((pr, l) :: m) s))
           else s).
Proof.
  intros Hm Ho Hn. unfold remove_if_filled.
  erewrite bind_Ret; [|by apply arrow_eq].
  rewrite touch_live by (by eapply node_live_head).
  unfold when. destruct (Order.IsFilled o); [|done].
  erewrite bind_Ret; [|by apply pop_front_eq]. simpl.
  erewrite bind_Ret; [|apply arrow_eq; autorewrite with book; exact Ho].
  rewrite touch_dead.
  2: { unfold node_live. rewrite levels_with_levels, flat_cons.
       by apply bool_decide_eq_false_2. }
  unfold orders_erase, modify. simpl. by rewrite orders_with_levels.
Qed.

Lemma trade_info_eq side n p o q s :
  heap s !! p = Some o →
  trade_info side (n, p) q s =
  (Ret (TradeInfo.mk (Order.orderId_ o) (Order.price_ o) q), touch side n (touch side n s)).
Proof.
  intros Ho. unfold trade_info.
  erewrite bind_Ret; [|by apply arrow_eq].
  erewrite bind_Ret; [|apply arrow_eq; unfold touch; by destruct (node_live _ _ _)].
  done.
Qed.

(** ** Preservation *)

(** Writing an object that keeps its identity, side and price. *)
Lemma wf_store s p o o' :
  wf s → heap s !! p = Some o →
  Order.orderId_ o' = Order.orderId_ o → Order.side_ o' = Order.side_ o →
  Order.price_ o' = Order.price_ o → order_ok o' →
  wf (with_heap (<[p := o']> (heap s)) s).
Proof.
  intros [H1 H2 H3 H4 H5 H6 H7] Ho Hid Hside Hprice Hok. split.
  - intros side. rewrite levels_with_heap. apply H1.
  - intros side. rewrite levels_with_heap. apply H2.
  - intros side pr l e. rewrite levels_with_heap. intros Hl He.
    destruct (H3 side pr l e Hl He) as (x & Hx & <- & <- & Hxok & Hi).
    unfold rests. simpl. destruct (decide (p = e.2)) as [->|Hne].
    + rewrite lookup_insert_eq. exists o'. rewrite Ho in Hx. injection Hx as <-.
      by rewrite Hid.
    + rewrite lookup_insert_ne by done. by exists x.
  - intros id en Hen. destruct (H4 id en Hen) as (x & Hx & Hxid & Hin). simpl.
    destruct (decide (p = order_ en)) as [->|Hne].
    + rewrite lookup_insert_eq. exists o'. rewrite Ho in Hx. injection Hx as <-.
      by rewrite levels_with_heap, Hside, Hid.
    + rewrite lookup_insert_ne by done. exists x. by rewrite levels_with_heap.
  - exact H5.
  - exact H6.
  - intros q. simpl. rewrite lookup_insert. case_decide as E; [subst|apply H7].
    intros _. apply H7. by eexists.
Qed.

(** Removing a node together with its hash-map entry (and its map node when
    its list becomes empty). *)
Definition unlink (side : Side) (m : list (Price * OrderPointers)) (id : OrderId)
    (s : Orderbook) : Orderbook :=
  with_orders (delete id (orders_ s)) (with_levels side m s).

Lemma levels_unlink side m id s : levels side (unlink side m id s) = m.
Proof. unfold unlink. by autorewrite with book. Qed.
Lemma levels_unlink_ne side side' m id s :
  side' ≠ side → levels side' (unlink side m id s) = levels side' s.
Proof. intros. unfold unlink. by autorewrite with book. Qed.
Lemma heap_unlink side m id s : heap (unlink side m id s) = heap s.
Proof. by destruct side. Qed.
Lemma orders_unlink side m id s : orders_ (unlink side m id s) = delete id (orders_ s).
Proof. done. Qed.
#[export] Hint Rewrite levels_unlink heap_unlink orders_unlink : book.
#[export] Hint Rewrite levels_unlink_ne using (done || congruence) : book.

Section Unlink.
Context (s : Orderbook) (side : Side) (m1 m2 : list (Price * OrderPointers)) (pr : Price)
  (l1 l2 : OrderPointers) (n : Iterator) (p : OrderPointer) (o : Order.t).
Context (Hwf : wf s) (Hm : levels side s = m1 ++ (pr, l1 ++ (n, p) :: l2) :: m2)
  (Ho : heap s !! p = Some o).

Let m' := m1 ++ keep pr (l1 ++ l2) ++ m2.

Lemma flat_before : flat (levels side s) = (flat m1 ++ l1) ++ (n, p) :: (l2 ++ flat m2).
Proof. rewrite Hm. autorewrite with book. by rewrite <-!app_assoc. Qed.

Lemma flat_after : flat m' = (flat m1 ++ l1) ++ (l2 ++ flat m2).
Proof. unfold m'. autorewrite with book. by rewrite <-!app_assoc. Qed.

Lemma nodes_unlink_sublist id : sublist (nodes (unlink side m' id s)) (nodes s).
Proof.
  assert (sublist (flat m') (flat (levels side s))) as Hsub.
  { rewrite flat_before, flat_after. apply sublist_app; [done|by constructor]. }
  unfold nodes. destruct side; simpl in *; by apply sublist_app.
Qed.

Lemma unlink_level pr' l' e side' :
  (pr', l') ∈ levels side' (unlink side m' (Order.orderId_ o) s) → e ∈ l' →
  ∃ l, (pr', l) ∈ levels side' s ∧ e ∈ l ∧ e.1 ≠ n.
Proof.
  pose proof (wf_nodup s Hwf) as Hnd. unfold nodes in Hnd.
  pose proof flat_before as Hb. pose proof flat_after as Ha.
  destruct (decide (side' = side)) as [->|Hne].
  - rewrite levels_unlink. intros Hl He.
    assert (e ∈ flat m') as Hef by (apply elem_of_flat; eauto).
    assert (e.1 ≠ n) as Hen.
    { intros <-. rewrite Ha in Hef.
      assert (NoDup (flat (levels side s)).*1) as Hnd'.
      { destruct side; simpl in *; rewrite fmap_app in Hnd;
          apply NoDup_app in Hnd; naive_solver. }
      rewrite Hb, fmap_app, fmap_cons in Hnd'. simpl in Hnd'.
      apply NoDup_app in Hnd' as (_ & Hd & Hc). apply NoDup_cons in Hc as [Hc _].
      apply (list_elem_of_fmap_2 fst) in Hef.
      rewrite fmap_app, elem_of_app in Hef. destruct Hef as [Hef|Hef]; [|done].
      apply (Hd _ Hef). set_solver. }
    unfold m' in Hl. rewrite !elem_of_app in Hl. destruct Hl as [Hl|[Hl|Hl]].
    + exists l'. rewrite Hm, elem_of_app. auto.
    + exists (l1 ++ (n, p) :: l2). rewrite Hm, elem_of_app, elem_of_cons.
      assert (pr' = pr ∧ l' = l1 ++ l2) as [-> ->].
      { destruct (l1 ++ l2); [by apply not_elem_of_nil in Hl|].
        apply list_elem_of_singleton in Hl. naive_solver. }
      set_solver.
    + exists l'. rewrite Hm, elem_of_app, elem_of_cons. auto.
  - rewrite levels_unlink_ne by done. intros Hl He. exists l'. split_and!; [done..|].
    intros <-. assert (e ∈ flat (levels side' s)) as Hef by (apply elem_of_flat; eauto).
    assert (e.1 ∈ (flat (levels side s)).*1) as Hin.
    { rewrite Hb, fmap_app, fmap_cons. set_solver. }
    apply (list_elem_of_fmap_2 fst) in Hef.
    rewrite fmap_app in Hnd. apply NoDup_app in Hnd as (_ & Hd & _).
    destruct side, side'; simpl in *; naive_solver.
Qed.

Lemma wf_unlink : wf (unlink side m' (Order.orderId_ o) s).
Proof.
  pose proof nodes_unlink_sublist (Order.orderId_ o) as Hsub.
  pose proof flat_before as Hb. pose proof flat_after as Ha.
  pose proof (wf_sorted s Hwf side) as Hsorted. rewrite Hm in Hsorted.
  pose proof (wf_nonempty s Hwf side) as Hne. rewrite Hm in Hne.
  destruct (wf_flat s side (n, p) Hwf) as (o' & Ho' & Hoside & _ & Hi).
  { rewrite Hb. set_solver. }
  simpl in *. assert (o' = o) as -> by congruence. clear Ho'.
  split.
  - intros side'. destruct (decide (side' = side)) as [->|Hs].
    + rewrite levels_unlink. unfold m'. destruct (l1 ++ l2); simpl.
      * by eapply map_sorted_remove.
      * by eapply map_sorted_replace.
    + rewrite levels_unlink_ne by done. by apply wf_sorted.
  - intros side'. destruct (decide (side' = side)) as [->|Hs].
    + rewrite levels_unlink. unfold m'.
      apply Forall_app in Hne as [? [_ ?]%Forall_cons].
      apply Forall_app. split; [done|]. apply Forall_app. split; [|done].
      destruct (l1 ++ l2); repeat constructor; done.
    + rewrite levels_unlink_ne by done. by apply wf_nonempty.
  - intros side' pr' l' e Hl He.
    destruct (unlink_level _ _ _ _ Hl He) as (l & Hl' & He' & Hen).
    destruct (wf_rests s Hwf _ _ _ _ Hl' He') as (x & Hx & ? & ? & ? & Hxi).
    exists x. rewrite heap_unlink. split_and!; try done.
    rewrite orders_unlink, lookup_delete_ne; [done|]. intros Heq. rewrite <-Heq, Hi in Hxi. naive_solver.
  - intros id en. rewrite orders_unlink, lookup_delete_Some. intros [Hid Hen].
    destruct (wf_indexed s Hwf _ _ Hen) as (x & Hx & Hxid & Hin).
    exists x. rewrite heap_unlink. split_and!; [done..|].
    destruct (decide (Order.side_ x = side)) as [Hxs|?]; [|by rewrite levels_unlink_ne].
    rewrite Hxs in *. rewrite levels_unlink, Ha. rewrite Hb in Hin.
    assert ((location_ en, order_ en) ≠ (n, p)) as Hnp by (intros [= ? ?]; congruence).
    clear -Hin Hnp. set_solver.
  - eapply sublist_NoDup; [apply (wf_nodup s Hwf)|]. by apply fmap_sublist.
  - pose proof (wf_next_node s Hwf) as Hnn. rewrite Forall_forall in Hnn |- *.
    intros e He. unfold unlink. simpl. autorewrite with book. apply Hnn.
    eapply elem_of_submseteq; [exact He|by apply sublist_submseteq].
  - intros q. rewrite heap_unlink. unfold unlink. simpl. autorewrite with book.
    apply (wf_next_loc s Hwf).
Qed.
End Unlink.
