(* ===== verification/OrderbookStep.v ===== *)
(** The abstraction from the order book's state to the specification's
    priority lists, and one iteration of the inner matching loop: its exact
    final state, the accesses to erased nodes it makes, and its refinement of
    the specification's trade between the two heads. *)

From S2P Require Import Prelude.
From S2P Require Import StdMap.
From S2P Require Import Orderbook.
From S2P Require Import OrderbookSpec.
From S2P Require Import OrderbookInv.

(** ** The abstraction *)

Definition resting (side : Side) (s : Orderbook) : list Order.t :=
  omap (λ e, heap s !! e.2) (flat (levels side s)).

Definition view (s : Orderbook) : Spec.book := Spec.mk (resting Buy s) (resting Sell s).

Lemma side_of_view side s : Spec.side_of side (view s) = resting side s.
Proof. by destruct side. Qed.

Lemma elem_of_resting o side s :
  o ∈ resting side s ↔ (∃ e, e ∈ flat (levels side s) ∧ heap s !! e.2 = Some o).
Proof. unfold resting. by rewrite list_elem_of_omap. Qed.

Lemma resting_nil side s : wf s → resting side s = [] → levels side s = [].
Proof.
  intros Hwf Hr. destruct (levels side s) as [|[pr l] m] eqn:Hm; [done|].
  pose proof (wf_nonempty s Hwf side) as Hne. rewrite Hm in Hne.
  apply Forall_cons in Hne as [Hl _]. destruct l as [|e l]; [done|].
  destruct (wf_flat s side e Hwf) as (o & Ho & _); [rewrite Hm, flat_cons; set_solver|].
  unfold resting in Hr. rewrite Hm, flat_cons in Hr. simpl in Hr. by rewrite Ho in Hr.
Qed.

(** The head of a side, seen in the levels and in the view. *)
Lemma resting_head side s pr l m :
  wf s → levels side s = (pr, l) :: m →
  ∃ n p l' o, l = (n, p) :: l' ∧ heap s !! p = Some o ∧
    Order.price_ o = pr ∧ Order.side_ o = side ∧ order_ok o ∧
    orders_ s !! Order.orderId_ o = Some (mkEntry p n) ∧
    (n ∉ (l' ++ flat m).*1) ∧
    resting side s = o :: omap (λ e, heap s !! e.2) (l' ++ flat m).
Proof.
  intros Hwf Hm. pose proof (wf_nonempty s Hwf side) as Hne.
  rewrite Hm in Hne. apply Forall_cons in Hne as [Hl _]. simpl in Hl.
  destruct l as [|[n p] l']; [done|].
  destruct (wf_rests s Hwf side pr ((n, p) :: l') (n, p)) as (o & Ho & ? & ? & ? & ?);
    [rewrite Hm; set_solver|set_solver|].
  exists n, p, l', o. split_and!; try done.
  - pose proof (wf_nodup s Hwf) as Hnd. unfold nodes in Hnd.
    assert (NoDup (flat (levels side s)).*1) as Hnd'.
    { destruct side; simpl in *; rewrite fmap_app in Hnd; apply NoDup_app in Hnd; tauto. }
    rewrite Hm in Hnd'. by apply NoDup_cons in Hnd' as [? _].
  - unfold resting. rewrite Hm, flat_cons. simpl in *. by rewrite Ho.
Qed.

(** Writing to an object seen at one place of a side changes that place only. *)
Lemma omap_store s p o' (l : OrderPointers) :
  (p ∉ l.*2) → omap (λ e, <[p := o']> (heap s) !! e.2) l = omap (λ e, heap s !! e.2) l.
Proof.
  intros Hp. apply omap_ext_in. intros e He. apply lookup_insert_ne.
  intros ->. apply Hp. by apply list_elem_of_fmap_2.
Qed.

Lemma wf_pointer_fresh s side n p (A B : OrderPointers) :
  wf s → flat (levels side s) = A ++ (n, p) :: B → (p ∉ A.*2) ∧ (p ∉ B.*2).
Proof.
  intros Hwf Hf. pose proof (wf_nodup s Hwf) as Hnd. unfold nodes in Hnd.
  assert (NoDup (flat (levels side s))) as Hnd'.
  { apply (NoDup_fmap_1 fst). destruct side; simpl in *;
      rewrite fmap_app in Hnd; apply NoDup_app in Hnd; tauto. }
  assert (∀ e, e ∈ A ++ B → e.2 ≠ p) as Hp.
  { intros e He Hep. assert (e = (n, p)) as ->.
    { apply (wf_pointer_node s); [done| | |done]; apply elem_of_nodes; exists side; rewrite Hf.
      all: set_solver. }
    rewrite Hf in Hnd'. apply NoDup_app in Hnd' as (_ & Hd & Hc).
    apply NoDup_cons in Hc as [Hc _].
    apply elem_of_app in He as [He|He]; [|done]. apply (Hd _ He). set_solver. }
  split; intros ([n' p'] & Heq & He)%list_elem_of_fmap; simpl in Heq; subst p'.
  all: eapply Hp; [apply elem_of_app; eauto|done].
Qed.

Lemma resting_store s side n p A B o' :
  wf s → flat (levels side s) = A ++ (n, p) :: B →
  resting side (with_heap (<[p := o']> (heap s)) s) =
  omap (λ e, heap s !! e.2) A ++ o' :: omap (λ e, heap s !! e.2) B.
Proof.
  intros Hwf Hf. destruct (wf_pointer_fresh _ _ _ _ _ _ Hwf Hf).
  unfold resting. rewrite levels_with_heap, Hf, omap_app. simpl.
  by rewrite lookup_insert_eq, !omap_store.
Qed.

Lemma resting_store_ne s side side' n p o' :
  wf s → (n, p) ∈ flat (levels side s) → side' ≠ side →
  resting side' (with_heap (<[p := o']> (heap s)) s) = resting side' s.
Proof.
  intros Hwf Hin Hne. unfold resting. rewrite levels_with_heap. apply omap_store.
  intros ([n' p'] & Heq & He)%list_elem_of_fmap. simpl in Heq. subst p'.
  destruct (wf_flat _ _ _ Hwf Hin) as (o & Ho & Hs & _).
  destruct (wf_flat _ _ _ Hwf He) as (x & Hx & Hs' & _). simpl in *. congruence.
Qed.

Lemma resting_log side v s : resting side (log v s) = resting side s.
Proof. unfold resting. by rewrite levels_log. Qed.

Lemma resting_unlink_ne side side' m id s :
  side' ≠ side → resting side' (unlink side m id s) = resting side' s.
Proof. intros. unfold resting. by rewrite levels_unlink_ne, heap_unlink. Qed.

(** ** One iteration of the inner loop *)

Definition logs (vs : list Violation) (s : Orderbook) : Orderbook :=
  mkBook (bids_ s) (asks_ s) (orders_ s) (heap s) (next_node s) (next_loc s)
    (violations s ++ vs).

Lemma log_logs v s : log v s = logs [v] s.
Proof. done. Qed.
Lemma logs_nil s : logs [] s = s.
Proof. destruct s. unfold logs. simpl. by rewrite app_nil_r. Qed.
Lemma logs_logs v1 v2 s : logs v2 (logs v1 s) = logs (v1 ++ v2) s.
Proof. unfold logs. simpl. by rewrite app_assoc. Qed.
Lemma levels_logs side vs s : levels side (logs vs s) = levels side s.
Proof. by destruct side. Qed.
Lemma heap_logs vs s : heap (logs vs s) = heap s.
Proof. done. Qed.
Lemma resting_logs side vs s : resting side (logs vs s) = resting side s.
Proof. unfold resting. by rewrite levels_logs, heap_logs. Qed.
Lemma wf_logs vs s : wf s → wf (logs vs s).
Proof.
  revert s. induction vs as [|v vs IH] using rev_ind; intros s Hwf; [by rewrite logs_nil|].
  rewrite <-logs_logs, <-log_logs. by apply wf_log, IH.
Qed.
#[export] Hint Rewrite levels_logs resting_logs : book.

(** The effect of [remove_if_filled] and [erase_if_empty] on the head of a side. *)
Definition settle (side : Side) (pr : Price) (l : OrderPointers)
    (m : list (Price * OrderPointers)) (o : Order.t) (s : Orderbook) : Orderbook :=
  if Order.IsFilled o then unlink side (keep pr l ++ m) (Order.orderId_ o) s else s.

Lemma settle_props side pr n p l m o s :
  wf s → levels side s = (pr, (n, p) :: l) :: m → heap s !! p = Some o →
  wf (settle side pr l m o s) ∧
  resting side (settle side pr l m o s) =
    (if Order.IsFilled o then id else cons o) (omap (λ e, heap s !! e.2) (l ++ flat m)) ∧
  levels side (settle side pr l m o s) =
    (if Order.IsFilled o then keep pr l else [(pr, (n, p) :: l)]) ++ m ∧
  heap (settle side pr l m o s) = heap s ∧
  (∀ side', side' ≠ side →
     resting side' (settle side pr l m o s) = resting side' s ∧
     levels side' (settle side pr l m o s) = levels side' s).
Proof.
  intros Hwf Hm Ho. unfold settle. destruct (Order.IsFilled o).
  - split_and!.
    + apply (wf_unlink s side [] m pr [] l n p o Hwf Hm Ho).
    + unfold resting. by rewrite levels_unlink, heap_unlink, flat_app, flat_keep.
    + by rewrite levels_unlink.
    + by rewrite heap_unlink.
    + intros side' Hne. by rewrite resting_unlink_ne, levels_unlink_ne.
  - split_and!; try done.
    unfold resting. rewrite Hm, flat_cons. simpl. by rewrite Ho.
Qed.

Definition dangling (filled : bool) (n : Iterator) : list Violation :=
  if filled then [dangling_node n] else [].

Definition front_violations (bn an : Iterator) (bf af : bool) : list Violation :=
  dangling bf bn ++ dangling af an ++
  dangling bf bn ++ dangling bf bn ++ dangling af an ++ dangling af an.

Lemma node_live_levels side n s :
  node_live side n s = bool_decide (n ∈ (flat (levels side s)).*1).
Proof. done. Qed.

Section Iteration.
Context (s : Orderbook) (bp ap : Price) (bn an : Iterator) (bpt apt : OrderPointer)
  (bl al : OrderPointers) (bm am : list (Price * OrderPointers)) (bo ao : Order.t).
Context (Hwf : wf s)
  (Hb : bids_ s = (bp, (bn, bpt) :: bl) :: bm)
  (Ha : asks_ s = (ap, (an, apt) :: al) :: am)
  (Hbo : heap s !! bpt = Some bo) (Hao : heap s !! apt = Some ao).

Let q := Spec.qty bo ao.
Let bo' := Spec.reduce q bo.
Let ao' := Spec.reduce q ao.

(** The state after the two fills. *)
Let s1 := with_heap (<[apt := ao']> (<[bpt := bo']> (heap s))) s.

Definition iterated : Orderbook :=
  logs (front_violations bn an (Order.IsFilled bo') (Order.IsFilled ao'))
    (settle Sell ap al am ao' (settle Buy bp bl bm bo' s1)).

Lemma heads_facts :
  Order.price_ bo = bp ∧ Order.price_ ao = ap ∧
  Order.side_ bo = Buy ∧ Order.side_ ao = Sell ∧
  order_ok bo ∧ order_ok ao ∧ bpt ≠ apt ∧
  (bn ∉ (bl ++ flat bm).*1) ∧ (an ∉ (al ++ flat am).*1) ∧
  0 <= q <= Order.remainingQuantity_ bo ∧ q <= Order.remainingQuantity_ ao.
Proof.
  destruct (resting_head Buy s _ _ _ Hwf Hb) as (n & p & l & o & [= <- <- <-] & Ho & ? & Hs1 & Hok1 & _ & ? & _).
  destruct (resting_head Sell s _ _ _ Hwf Ha) as (n' & p' & l' & o' & [= <- <- <-] & Ho' & ? & Hs2 & Hok2 & _ & ? & _).
  rewrite Hbo in Ho. rewrite Hao in Ho'. injection Ho as <-. injection Ho' as <-.
  destruct Hok1, Hok2. unfold q, Spec.qty. split_and!; try done; try lia.
  intros ->. congruence.
Qed.

Lemma fills_eq {A} (k : OB A) :
  (fill_order Buy (bn, bpt) q ;; fill_order Sell (an, apt) q ;; k) s = k s1.
Proof.
  destruct heads_facts as (_ & _ & _ & _ & Hokb & Hoka & Hne & _ & _ & Hq & Hq').
  erewrite bind_Ret; [|eapply fill_order_eq; [exact Hb|exact Hbo|done|done]].
  erewrite bind_Ret; [done|].
  etrans; [eapply fill_order_eq; [simpl; exact Ha| |done|lia]|reflexivity].
  simpl. by rewrite lookup_insert_ne.
Qed.

Definition settled : Orderbook :=
  logs (dangling (Order.IsFilled bo') bn ++ dangling (Order.IsFilled ao') an)
    (settle Sell ap al am ao' (settle Buy bp bl bm bo' s1)).

Lemma settle_eq {A} (k : OB A) :
  (remove_if_filled Buy bp (bn, bpt) ;; remove_if_filled Sell ap (an, apt) ;;
   erase_if_empty Buy bp ;; erase_if_empty Sell ap ;; k) s1 = k settled.
Proof.
  destruct heads_facts as (_ & _ & _ & _ & _ & _ & Hne & Hbn & Han & _).
  erewrite bind_Ret; [|eapply remove_if_filled_eq; [simpl; exact Hb| |done]].
  2: { simpl. by rewrite lookup_insert_ne, lookup_insert_eq. }
  set (s2 := if Order.IsFilled bo' then _ else _).
  assert (asks_ s2 = asks_ s ∧ heap s2 = heap s1) as [Ha2 Hh2].
  { unfold s2. by destruct (Order.IsFilled bo'). }
  erewrite bind_Ret.
  2: { eapply remove_if_filled_eq; [simpl; by rewrite Ha2, Ha| |done].
       rewrite Hh2. simpl. by rewrite lookup_insert_eq. }
  set (s3 := if Order.IsFilled ao' then _ else _).
  assert (bids_ s3 = (bp, if Order.IsFilled bo' then bl else (bn, bpt) :: bl) :: bm) as Hb3.
  { unfold s3, s2. by destruct (Order.IsFilled ao'), (Order.IsFilled bo'). }
  assert (asks_ s3 = (ap, if Order.IsFilled ao' then al else (an, apt) :: al) :: am) as Ha3.
  { unfold s3. destruct (Order.IsFilled ao'); [done|]. by rewrite Ha2. }
  erewrite bind_Ret; [|apply erase_if_empty_head, Hb3].
  erewrite bind_Ret; [|apply erase_if_empty_head; simpl; exact Ha3].
  f_equal. unfold settled, settle, s3, s2, s1, unlink, logs. simpl.
  destruct (Order.IsFilled ao'), (Order.IsFilled bo'); simpl;
    rewrite ?app_nil_r, <-?app_assoc, ?Ha, ?Hb; done.
Qed.

Lemma settled_live side n p l m o' :
  levels side settled = (if Order.IsFilled o' then keep (Order.price_ o') l
                         else [(Order.price_ o', (n, p) :: l)]) ++ m →
  (n ∉ (l ++ flat m).*1) →
  node_live side n settled = negb (Order.IsFilled o').
Proof.
  intros Hl Hn. rewrite node_live_levels, Hl.
  destruct (Order.IsFilled o'); autorewrite with book; simpl;
    [by apply bool_decide_eq_false_2|apply bool_decide_eq_true_2; set_solver].
Qed.

Lemma touch_settled side n filled vs :
  node_live side n settled = negb filled →
  touch side n (logs vs settled) = logs (vs ++ dangling filled n) settled.
Proof.
  intros Hl. unfold touch, node_live. rewrite levels_logs. fold (node_live side n settled).
  rewrite Hl. destruct filled; simpl; [by rewrite log_logs, logs_logs|by rewrite app_nil_r].
Qed.

Lemma touch_settled_nil side n filled :
  node_live side n settled = negb filled →
  touch side n settled = logs (dangling filled n) settled.
Proof. intros Hl. rewrite <-(logs_nil settled) at 1. by rewrite (touch_settled _ _ filled). Qed.

Lemma levels_settled :
  levels Buy settled =
    (if Order.IsFilled bo' then keep bp bl else [(bp, (bn, bpt) :: bl)]) ++ bm ∧
  levels Sell settled =
    (if Order.IsFilled ao' then keep ap al else [(ap, (an, apt) :: al)]) ++ am ∧
  heap settled = heap s1.
Proof.
  unfold settled, settle.
  destruct (Order.IsFilled bo'), (Order.IsFilled ao'); simpl; by rewrite ?Ha, ?Hb.
Qed.

Lemma match_front_eq ts :
  match_front bp ap (bn, bpt) (an, apt) ts s = (Ret (ts ++ [Spec.trade bo ao]), iterated).
Proof.
  destruct heads_facts as (Hpb & Hpa & _ & _ & _ & _ & Hne & Hbn & Han & _).
  destruct levels_settled as (Hlb & Hla & Hh).
  assert (node_live Buy bn settled = negb (Order.IsFilled bo')) as Hvb.
  { eapply settled_live; [|exact Hbn]. simpl. by rewrite Hpb. }
  assert (node_live Sell an settled = negb (Order.IsFilled ao')) as Hva.
  { eapply settled_live; [|exact Han]. simpl. by rewrite Hpa. }
  unfold match_front.
  erewrite bind_Ret; [|apply arrow_eq, Hbo].
  rewrite touch_live by (eapply node_live_head; exact Hb).
  erewrite bind_Ret; [|apply arrow_eq, Hao].
  rewrite touch_live by (eapply node_live_head; exact Ha).
  change (Z.min _ _) with q. rewrite fills_eq, settle_eq.
  erewrite bind_Ret.
  2: { apply trade_info_eq with (o := bo'). rewrite Hh. simpl.
       by rewrite lookup_insert_ne, lookup_insert_eq. }
  rewrite (touch_settled_nil _ _ _ Hvb), (touch_settled _ _ _ _ Hvb).
  erewrite bind_Ret.
  2: { apply trade_info_eq with (o := ao'). rewrite heap_logs, Hh. simpl.
       by rewrite lookup_insert_eq. }
  do 2 rewrite (touch_settled _ _ _ _ Hva).
  unfold mret, M_ret, settled, iterated, front_violations.
  rewrite logs_logs. by rewrite <-!app_assoc.
Qed.

Lemma s1_facts :
  wf s1 ∧ levels Buy s1 = levels Buy s ∧ levels Sell s1 = levels Sell s ∧
  heap s1 !! bpt = Some bo' ∧ heap s1 !! apt = Some ao' ∧
  omap (λ e, heap s1 !! e.2) (bl ++ flat bm) = omap (λ e, heap s !! e.2) (bl ++ flat bm) ∧
  omap (λ e, heap s1 !! e.2) (al ++ flat am) = omap (λ e, heap s !! e.2) (al ++ flat am).
Proof.
  destruct heads_facts as (_ & _ & Hsb & Hsa & Hokb & Hoka & Hne & _ & _ & Hq & Hq').
  set (sb := with_heap (<[bpt := bo']> (heap s)) s).
  assert (wf sb) as Hwfb by (eapply wf_store; eauto using reduce_ok).
  assert (heap sb !! apt = Some ao) as Hao' by (simpl; by rewrite lookup_insert_ne).
  assert (flat (levels Buy s) = [] ++ (bn, bpt) :: (bl ++ flat bm)) as Hfb by (simpl; by rewrite Hb).
  assert (flat (levels Sell s) = [] ++ (an, apt) :: (al ++ flat am)) as Hfa by (simpl; by rewrite Ha).
  destruct (wf_pointer_fresh _ _ _ _ _ _ Hwf Hfb) as [_ Hpb].
  destruct (wf_pointer_fresh _ _ _ _ _ _ Hwf Hfa) as [_ Hpa].
  assert (∀ side e, e ∈ flat (levels side s) → ∃ o, heap s !! e.2 = Some o ∧ Order.side_ o = side)
    as Hside by (intros side e He; destruct (wf_flat _ _ _ Hwf He); naive_solver).
  split_and!; [|done|done| |simpl; by rewrite lookup_insert_eq| |].
  - change s1 with (with_heap (<[apt := ao']> (heap sb)) sb).
    eapply wf_store; eauto. apply reduce_ok; [done|lia].
  - simpl. by rewrite lookup_insert_ne, lookup_insert_eq.
  - apply omap_ext_in. intros e He. simpl.
    destruct (Hside Buy e) as (x & Hx & Hxs); [rewrite Hfb; set_solver|].
    rewrite !lookup_insert_ne; [done| |intros ->; congruence].
    intros ->. apply Hpb. by apply list_elem_of_fmap_2.
  - apply omap_ext_in. intros e He. simpl.
    destruct (Hside Sell e) as (x & Hx & Hxs); [rewrite Hfa; set_solver|].
    rewrite !lookup_insert_ne; [done|intros ->; congruence|].
    intros ->. apply Hpa. by apply list_elem_of_fmap_2.
Qed.

Lemma resting_heads :
  resting Buy s = bo :: omap (λ e, heap s !! e.2) (bl ++ flat bm) ∧
  resting Sell s = ao :: omap (λ e, heap s !! e.2) (al ++ flat am).
Proof.
  unfold resting. simpl. rewrite Ha, Hb, !flat_cons. simpl. by rewrite Hbo, Hao.
Qed.

(** The iteration refines the specification's trade between the heads. *)
Lemma iterated_facts :
  wf iterated ∧
  resting Buy iterated = Spec.after q bo (tail (resting Buy s)) ∧
  resting Sell iterated = Spec.after q ao (tail (resting Sell s)) ∧
  bids_ iterated = keep bp (if Order.IsFilled bo' then bl else (bn, bpt) :: bl) ++ bm ∧
  asks_ iterated = keep ap (if Order.IsFilled ao' then al else (an, apt) :: al) ++ am ∧
  violations iterated =
    violations s ++ front_violations bn an (Order.IsFilled bo') (Order.IsFilled ao').
Proof.
  destruct s1_facts as (Hwf1 & Hl1b & Hl1a & Hh1b & Hh1a & Ho1b & Ho1a).
  destruct resting_heads as [-> ->]. cbn [tail].
  destruct (settle_props Buy bp bn bpt bl bm bo' s1) as (Hwf2 & Hr2 & Hl2 & Hh2 & Hf2);
    [done|by rewrite Hl1b|done|].
  destruct (Hf2 Sell) as [Hr2' Hl2']; [done|].
  destruct (settle_props Sell ap an apt al am ao' (settle Buy bp bl bm bo' s1))
    as (Hwf3 & Hr3 & Hl3 & Hh3 & Hf3); [done|by rewrite Hl2', Hl1a|by rewrite Hh2|].
  destruct (Hf3 Buy) as [Hr3' Hl3']; [done|].
  unfold iterated. split_and!.
  - by apply wf_logs.
  - rewrite resting_logs, Hr3', Hr2, Ho1b. unfold Spec.after. fold bo'.
    by destruct (Order.IsFilled bo').
  - rewrite resting_logs, Hr3, Hh2, Ho1a. unfold Spec.after. fold ao'.
    by destruct (Order.IsFilled ao').
  - etrans; [exact Hl3'|]. rewrite Hl2. by destruct (Order.IsFilled bo').
  - etrans; [exact Hl3|]. by destruct (Order.IsFilled ao').
  - simpl. f_equal. unfold settle. by destruct (Order.IsFilled ao'), (Order.IsFilled bo').
Qed.
End Iteration.
