(* ===== verification/OrderbookRefine.v ===== *)
(** The order book of main.cpp implements the specification: matching,
    adding, cancelling and replacing orders compute on the levels what the
    specification computes on its priority lists, and keep the invariant. *)

From S2P Require Import Prelude.
From S2P Require Import StdMap.
From S2P Require Import Orderbook.
From S2P Require Import OrderbookSpec.
From S2P Require Import OrderbookInv.
From S2P Require Import OrderbookStep.

(** ** The loops of [MatchOrders] *)

Lemma read_level_erased side pr (l : OrderPointers) m s :
  map_sorted (cmp side) ((pr, l) :: m) → levels side s = m →
  read_level side pr s = (Ret [], logs [dangling_level side pr] s).
Proof.
  rewrite map_sorted_cons. intros [_ Hall] Hm. unfold read_level. rewrite Hm.
  destruct m as [|[pr' l'] m]; [done|]. simpl.
  apply Forall_cons in Hall as [Hlt _]. simpl in Hlt.
  destruct (cmp side pr' pr) eqn:E; [|by rewrite Hlt].
  pose proof (cmp_trans _ _ _ Hlt E) as Hc. by rewrite cmp_irrefl in Hc.
Qed.

Lemma keep_cons pr l : l ≠ [] → keep pr l = [(pr, l)].
Proof. by destruct l. Qed.

(** ** Accesses to erased nodes, by kind *)

Definition is_node (v : Violation) : Prop := match v with dangling_node _ => True | _ => False end.
Definition is_level (v : Violation) : Prop := match v with dangling_level _ _ => True | _ => False end.
Definition is_entry (v : Violation) : Prop := match v with dangling_entry _ => True | _ => False end.
#[global] Instance is_node_dec v : Decision (is_node v).
Proof. destruct v; apply _. Defined.
#[global] Instance is_level_dec v : Decision (is_level v).
Proof. destruct v; apply _. Defined.
#[global] Instance is_entry_dec v : Decision (is_entry v).
Proof. destruct v; apply _. Defined.

Definition node_accesses (vs : list Violation) : nat := length (filter is_node vs).
Definition level_accesses (vs : list Violation) : nat := length (filter is_level vs).
Definition entry_accesses (vs : list Violation) : nat := length (filter is_entry vs).

Lemma node_accesses_app vs ws :
  node_accesses (vs ++ ws) = (node_accesses vs + node_accesses ws)%nat.
Proof. unfold node_accesses. by rewrite filter_app, length_app. Qed.
Lemma level_accesses_app vs ws :
  level_accesses (vs ++ ws) = (level_accesses vs + level_accesses ws)%nat.
Proof. unfold level_accesses. by rewrite filter_app, length_app. Qed.
Lemma entry_accesses_app vs ws :
  entry_accesses (vs ++ ws) = (entry_accesses vs + entry_accesses ws)%nat.
Proof. unfold entry_accesses. by rewrite filter_app, length_app. Qed.
Lemma accesses_level side pr :
  node_accesses [dangling_level side pr] = 0%nat ∧
  level_accesses [dangling_level side pr] = 1%nat ∧
  entry_accesses [dangling_level side pr] = 0%nat.
Proof. done. Qed.

Create Rewrite HintDb accesses.
#[export] Hint Rewrite node_accesses_app level_accesses_app entry_accesses_app : accesses.

Lemma accesses_total vs :
  length vs = (node_accesses vs + level_accesses vs + entry_accesses vs)%nat.
Proof.
  unfold node_accesses, level_accesses, entry_accesses.
  induction vs as [|v vs IH]; [done|]. rewrite !filter_cons.
  destruct v; simpl; rewrite IH; lia.
Qed.

(** The accesses [vs] of matching that filled [filled] orders, cancelled
    [killed] fill-and-kill orders and made [trades] trades. *)
Record logged (filled killed trades : nat) (vs : list Violation) : Prop := {
  logged_nodes : node_accesses vs = (3 * filled)%nat;
  logged_entries : entry_accesses vs = (3 * killed)%nat;
  logged_levels : (level_accesses vs <= trades)%nat;
  logged_level : trades ≠ 0%nat → level_accesses vs ≠ 0%nat;
}.

(** What a run of matching from [s] to [s'] that produced [ts] guarantees. *)
Record matched (s : Orderbook) (ts : Trades) (s' : Orderbook) : Prop := {
  matched_wf : wf s';
  matched_spec :
    Spec.match_orders (resting Buy s) (resting Sell s) =
    (ts ++ (Spec.match_orders (resting Buy s') (resting Sell s')).1,
     (Spec.match_orders (resting Buy s') (resting Sell s')).2);
  matched_nodes : (length (nodes s') <= length (nodes s))%nat;
  matched_filled :
    (node_accesses (violations s') + 3 * length (nodes s') =
     node_accesses (violations s) + 3 * length (nodes s))%nat;
  matched_entries : entry_accesses (violations s') = entry_accesses (violations s);
  matched_levels :
    (level_accesses (violations s) <= level_accesses (violations s') <=
     level_accesses (violations s) + length ts)%nat;
  matched_violations : ∃ vs, violations s' = violations s ++ vs ∧
    (3 * length ts <= length vs)%nat ∧ (ts = [] → vs = []);
}.

Lemma matched_refl s : wf s → matched s [] s.
Proof.
  intros Hwf. split; try done; [| |].
  - by destruct (Spec.match_orders _ _).
  - simpl. lia.
  - exists []. by rewrite app_nil_r.
Qed.

Lemma matched_trans s1 ts1 s2 ts2 s3 :
  matched s1 ts1 s2 → matched s2 ts2 s3 → matched s1 (ts1 ++ ts2) s3.
Proof.
  intros [_ Hs1 Hn1 Hf1 Hen1 Hlv1 (vs1 & Hv1 & Hl1 & He1)]
    [Hwf Hs2 Hn2 Hf2 Hen2 Hlv2 (vs2 & Hv2 & Hl2 & He2)]. split.
  - done.
  - rewrite Hs1, Hs2. simpl. by rewrite app_assoc.
  - lia.
  - lia.
  - congruence.
  - rewrite length_app. lia.
  - exists (vs1 ++ vs2). rewrite Hv2, Hv1, !length_app, app_assoc. split_and!; [done|lia|].
    intros [-> ->]%app_eq_nil. by rewrite He1, He2.
Qed.

(** The read of the inner loop's condition that finds its map node erased. *)
Lemma matched_level s t s' side pr :
  matched s [t] s' → level_accesses (violations s') = level_accesses (violations s) →
  matched s [t] (logs [dangling_level side pr] s').
Proof.
  intros [Hwf Hs Hn Hf Hen Hlv (ws & Hv & Hl & He)] Hsame.
  destruct (accesses_level side pr) as (Hcn & Hcl & Hce). split.
  - by apply wf_logs.
  - by rewrite !resting_logs.
  - done.
  - cbn [violations logs]. autorewrite with accesses. change (nodes (logs _ s')) with (nodes s'). lia.
  - cbn [violations logs]. autorewrite with accesses. lia.
  - cbn [violations logs]. autorewrite with accesses. simpl length. lia.
  - exists (ws ++ [dangling_level side pr]). simpl. rewrite Hv, length_app, app_assoc.
    split_and!; [done|simpl in *; lia|done].
Qed.

Lemma nodes_heads s bp bl bm ap al am :
  bids_ s = (bp, bl) :: bm → asks_ s = (ap, al) :: am →
  length (nodes s) = (length bl + length al + (length (flat bm) + length (flat am)))%nat.
Proof. intros Hb Ha. unfold nodes. rewrite Hb, Ha, !flat_cons, !length_app. lia. Qed.

Lemma front_violations_length bn an bf af :
  (bf = true ∨ af = true) → (3 <= length (front_violations bn an bf af))%nat.
Proof. destruct bf, af; simpl; naive_solver lia. Qed.

Lemma front_violations_accesses bn an bf af :
  node_accesses (front_violations bn an bf af) = (3 * (Nat.b2n bf + Nat.b2n af))%nat ∧
  level_accesses (front_violations bn an bf af) = 0%nat ∧
  entry_accesses (front_violations bn an bf af) = 0%nat.
Proof. by destruct bf, af. Qed.

(** One iteration. *)
Lemma match_front_matched s bp ap b a bl al bm am ts :
  wf s → bids_ s = (bp, b :: bl) :: bm → asks_ s = (ap, a :: al) :: am → ap <= bp →
  ∃ t s' bl' al',
    match_front bp ap b a ts s = (Ret (ts ++ [t]), s') ∧ matched s [t] s' ∧
    level_accesses (violations s') = level_accesses (violations s) ∧
    bids_ s' = keep bp bl' ++ bm ∧ asks_ s' = keep ap al' ++ am ∧
    (length bl' + length al' < length (b :: bl) + length (a :: al))%nat.
Proof.
  intros Hwf Hb Ha Hcross.
  destruct (resting_head Buy s _ _ _ Hwf Hb) as (bn & bpt & ? & bo & [= -> <-] & Hbo & Hpb & _ & _ & _ & _ & Hrb).
  destruct (resting_head Sell s _ _ _ Hwf Ha) as (an & apt & ? & ao & [= -> <-] & Hao & Hpa & _ & _ & _ & _ & Hra).
  pose proof (match_front_eq s _ _ _ _ _ _ _ _ _ _ _ _ Hwf Hb Ha Hbo Hao ts) as Heq.
  pose proof (iterated_facts s _ _ _ _ _ _ _ _ _ _ _ _ Hwf Hb Ha Hbo Hao) as Hit.
  cbv zeta in Hit. set (s' := iterated s _ _ _ _ _ _ _ _ _ _ _ _) in *.
  destruct Hit as (Hwf' & Hrb' & Hra' & Hb' & Ha' & Hv').
  rewrite Hrb in Hrb'. rewrite Hra in Hra'. cbn [tail] in Hrb', Hra'.
  set (q := Spec.qty bo ao) in *.
  assert (Order.IsFilled (Spec.reduce q bo) = true ∨ Order.IsFilled (Spec.reduce q ao) = true) as Hone.
  { destruct (Order.IsFilled (Spec.reduce q bo)) eqn:E; [auto|right; by apply Spec.one_filled]. }
  eexists _, s', _, _. split; [exact Heq|].
  assert (length (if Order.IsFilled (Spec.reduce q bo) then bl else (bn, bpt) :: bl) +
          length (if Order.IsFilled (Spec.reduce q ao) then al else (an, apt) :: al) <
          length ((bn, bpt) :: bl) + length ((an, apt) :: al))%nat as Hlen.
  { destruct (Order.IsFilled (Spec.reduce q bo)), (Order.IsFilled (Spec.reduce q ao));
      simpl; naive_solver lia. }
  pose proof (front_violations_accesses bn an (Order.IsFilled (Spec.reduce q bo))
    (Order.IsFilled (Spec.reduce q ao))) as (Hcn & Hcl & Hce).
  assert (level_accesses (violations s') = level_accesses (violations s)) as Hsame.
  { rewrite Hv'. autorewrite with accesses. lia. }
  split; [|split_and!; eauto].
  assert (length (nodes s') + Nat.b2n (Order.IsFilled (Spec.reduce q bo)) +
          Nat.b2n (Order.IsFilled (Spec.reduce q ao)) = length (nodes s))%nat as Hcount.
  { rewrite (nodes_heads s _ _ _ _ _ _ Hb Ha). unfold nodes.
    rewrite Hb', Ha', !flat_app, !flat_keep, !length_app.
    destruct (Order.IsFilled (Spec.reduce q bo)), (Order.IsFilled (Spec.reduce q ao)); simpl; lia. }
  split.
  - exact Hwf'.
  - rewrite Hrb, Hra, Hrb', Hra', Spec.match_orders_eq, Hpb, Hpa.
    by destruct (bp <? ap) eqn:E; zbool; [lia|].
  - lia.
  - rewrite Hv'. autorewrite with accesses. lia.
  - rewrite Hv'. autorewrite with accesses. lia.
  - rewrite Hsame. simpl length. lia.
  - eexists. split; [exact Hv'|]. split; [|done]. simpl length at 1.
    by apply front_violations_length.
Qed.

(** The inner loop returns, and empties the front level of a side. *)
Lemma match_level_matched fuel : ∀ s bp ap bl al bm am ts,
  wf s → bids_ s = (bp, bl) :: bm → asks_ s = (ap, al) :: am → ap <= bp →
  (length bl + length al < fuel)%nat →
  ∃ ts' s', match_level fuel bp ap ts s = (Ret (ts ++ ts'), s') ∧ matched s ts' s' ∧
    (level_accesses (violations s) < level_accesses (violations s'))%nat ∧
    (length (bids_ s') + length (asks_ s') < length (bids_ s) + length (asks_ s))%nat.
Proof.
  induction fuel as [|fuel IH]; intros s bp ap bl al bm am ts Hwf Hb Ha Hcross Hfuel; [lia|].
  pose proof (wf_nonempty s Hwf Buy) as Hneb. pose proof (wf_nonempty s Hwf Sell) as Hnea.
  pose proof (wf_sorted s Hwf Buy) as Hsb. pose proof (wf_sorted s Hwf Sell) as Hsa.
  simpl in Hneb, Hnea, Hsb, Hsa. rewrite Hb in Hneb, Hsb. rewrite Ha in Hnea, Hsa.
  apply Forall_cons in Hneb as [Hneb _]. apply Forall_cons in Hnea as [Hnea _].
  simpl in Hneb, Hnea. destruct bl as [|b bl]; [done|]. destruct al as [|a al]; [done|].
  cbn [match_level].
  run by (apply read_level_eq; simpl; by rewrite Hb, (map_find_head Buy)).
  run by (apply read_level_eq; simpl; by rewrite Ha, (map_find_head Sell)).
  destruct (match_front_matched s bp ap b a bl al bm am ts Hwf Hb Ha Hcross)
    as (t & s' & bl' & al' & Heq & Hm & Hsame & Hb' & Ha' & Hlen).
  run by exact Heq. destruct fuel as [|fuel]; [lia|].
  destruct (decide (bl' = [])) as [->|Hbl]; [|destruct (decide (al' = [])) as [->|Hal]].
  - exists [t], (logs [dangling_level Buy bp] s'). split_and!.
    + cbn [match_level]. run by (by eapply (read_level_erased Buy)). done.
    + by apply matched_level.
    + cbn [violations logs]. autorewrite with accesses. by rewrite (proj1 (proj2 (accesses_level _ _))); lia.
    + simpl. rewrite Hb', Ha', Hb, Ha. destruct al'; simpl; lia.
  - exists [t], (logs [dangling_level Sell ap] s'). split_and!.
    + cbn [match_level]. rewrite keep_cons in Hb' by done. simpl in Hb'. destruct bl'; [done|].
      run by (apply read_level_eq; simpl; by rewrite Hb', (map_find_head Buy)).
      run by (by eapply (read_level_erased Sell)). done.
    + by apply matched_level.
    + cbn [violations logs]. autorewrite with accesses. by rewrite (proj1 (proj2 (accesses_level _ _))); lia.
    + simpl. rewrite Hb', Ha', Hb, Ha. destruct bl'; simpl; lia.
  - rewrite keep_cons in Hb' by done. rewrite keep_cons in Ha' by done. simpl in Hb', Ha'.
    destruct (IH s' bp ap bl' al' bm am (ts ++ [t]) (matched_wf _ _ _ Hm) Hb' Ha' Hcross)
      as (ts' & s'' & Heq' & Hm' & Hlv' & Hlen'); [simpl in *; lia|].
    exists (t :: ts'), s''. split_and!.
    + by rewrite Heq', <-app_assoc.
    + by apply (matched_trans s [t] s' ts').
    + lia.
    + rewrite Hb', Ha' in Hlen'. rewrite Hb, Ha. simpl in *. lia.
Qed.

(** The outer loop returns, and ends where the specification stops. *)
Lemma match_levels_matched inner fuel : ∀ s ts,
  wf s → (length (bids_ s) + length (asks_ s) < fuel)%nat → (length (nodes s) < inner)%nat →
  ∃ ts' s', match_levels fuel inner ts s = (Ret (ts ++ ts'), s') ∧ matched s ts' s' ∧
    Spec.match_orders (resting Buy s') (resting Sell s') = ([], view s') ∧
    (ts' ≠ [] → (level_accesses (violations s) < level_accesses (violations s'))%nat).
Proof.
  induction fuel as [|fuel IH]; intros s ts Hwf Hfuel Hinner; [lia|].
  cbn [match_levels]. rewrite !gets_bind.
  destruct (bids_ s) as [|[bp bl] bm] eqn:Hb.
  { exists [], s. rewrite app_nil_r. split_and!; [done|by apply matched_refl| |done].
    unfold view, resting. simpl. by rewrite Hb. }
  destruct (asks_ s) as [|[ap al] am] eqn:Ha.
  { exists [], s. rewrite app_nil_r. split_and!; [done|by apply matched_refl| |done].
    unfold view, resting. simpl. rewrite Ha. apply Spec.match_orders_nil_r. }
  destruct (bp <? ap) eqn:E; zbool.
  - exists [], s. rewrite app_nil_r. split_and!; [done|by apply matched_refl| |done].
    destruct (resting_head Buy s _ _ _ Hwf Hb) as (?&?&?& bo &_&_& Hpb &_&_&_&_& Hrb).
    destruct (resting_head Sell s _ _ _ Hwf Ha) as (?&?&?& ao &_&_& Hpa &_&_&_&_& Hra).
    unfold view. rewrite Hrb, Hra, Spec.match_orders_eq, Hpb, Hpa.
    destruct (bp <? ap) eqn:E'; zbool; [done|lia].
  - destruct (match_level_matched inner s bp ap bl al bm am ts Hwf Hb Ha E)
      as (ts1 & s1 & Heq1 & Hm1 & Hlv1 & Hlen1).
    { rewrite (nodes_heads s _ _ _ _ _ _ Hb Ha) in Hinner. lia. }
    run by exact Heq1.
    destruct (IH s1 (ts ++ ts1)) as (ts2 & s2 & Heq2 & Hm2 & Hend & _).
    { by eapply matched_wf. }
    { rewrite Hb, Ha in Hlen1. simpl in *. lia. }
    { pose proof (matched_nodes _ _ _ Hm1). lia. }
    exists (ts1 ++ ts2), s2. split_and!; [by rewrite app_assoc| |done|].
    + by eapply matched_trans.
    + intros _. pose proof (matched_levels _ _ _ Hm2). lia.
Qed.

(** ** Cancellation *)

(** Where an indexed order rests. *)
Lemma wf_locate s id en :
  wf s → orders_ s !! id = Some en →
  ∃ o m1 m2 l1 l2,
    heap s !! order_ en = Some o ∧ Order.orderId_ o = id ∧
    levels (Order.side_ o) s =
      m1 ++ (Order.price_ o, l1 ++ (location_ en, order_ en) :: l2) :: m2.
Proof.
  intros Hwf Hen. destruct (wf_indexed s Hwf _ _ Hen) as (o & Ho & Hid & Hin).
  apply elem_of_flat in Hin as (pr & l & Hl & Hin).
  destruct (wf_rests s Hwf _ _ _ _ Hl Hin) as (o' & Ho' & _ & Hpr & _). simpl in Ho'.
  assert (o' = o) as -> by congruence. subst pr.
  apply list_elem_of_split in Hl as (m1 & m2 & Hm).
  apply list_elem_of_split in Hin as (l1 & l2 & ->).
  by exists o, m1, m2, l1, l2.
Qed.

Section Located.
Context (s : Orderbook) (en : OrderEntry) (o : Order.t)
  (m1 m2 : list (Price * OrderPointers)) (l1 l2 : OrderPointers).
Context (Hwf : wf s) (Hen : orders_ s !! Order.orderId_ o = Some en)
  (Ho : heap s !! order_ en = Some o)
  (Hm : levels (Order.side_ o) s =
        m1 ++ (Order.price_ o, l1 ++ (location_ en, order_ en) :: l2) :: m2).

Definition cancelled : Orderbook :=
  logs (replicate 3 (dangling_entry (Order.orderId_ o)))
    (unlink (Order.side_ o) (m1 ++ keep (Order.price_ o) (l1 ++ l2) ++ m2) (Order.orderId_ o) s).

Lemma located_flat :
  flat (levels (Order.side_ o) s) =
  (flat m1 ++ l1) ++ (location_ en, order_ en) :: (l2 ++ flat m2).
Proof. by eapply flat_before. Qed.

Lemma located_other e :
  e ∈ (flat m1 ++ l1) ++ (l2 ++ flat m2) → e.1 ≠ location_ en ∧ e.2 ≠ order_ en.
Proof.
  destruct (wf_pointer_fresh _ _ _ _ _ _ Hwf located_flat) as [Hp1 Hp2].
  intros He. assert (e.2 ≠ order_ en) as Hp.
  { intros Heq. apply elem_of_app in He as [He|He]; [apply Hp1|apply Hp2];
      rewrite <-Heq; by apply list_elem_of_fmap_2. }
  split; [|done]. intros Hn. apply Hp.
  pose proof (wf_nodup s Hwf) as Hnd. unfold nodes in Hnd.
  assert (NoDup (flat (levels (Order.side_ o) s)).*1) as Hnd'.
  { destruct (Order.side_ o); simpl in *; rewrite fmap_app in Hnd;
      apply NoDup_app in Hnd; tauto. }
  rewrite located_flat, fmap_app, fmap_cons in Hnd'. simpl in Hnd'.
  apply NoDup_app in Hnd' as (_ & Hd & [Hc _]%NoDup_cons).
  exfalso. apply (list_elem_of_fmap_2 fst) in He. rewrite Hn, fmap_app in He.
  apply elem_of_app in He as [He|He]; [|done]. apply (Hd _ He). set_solver.
Qed.

(** Every other resting order has another identifier. *)
Lemma located_ids side e x :
  e ∈ flat (levels side s) → heap s !! e.2 = Some x →
  Order.orderId_ x = Order.orderId_ o → side = Order.side_ o ∧ e = (location_ en, order_ en).
Proof.
  intros He Hx Hid. destruct (wf_flat _ _ _ Hwf He) as (x' & Hx' & Hs & _ & Hi).
  assert (x' = x) as -> by congruence. rewrite Hid, Hen in Hi. injection Hi as Hi.
  rewrite Hi in Ho. simpl in Ho. assert (x = o) as -> by congruence.
  split; [done|]. rewrite Hi. by destruct e.
Qed.

Lemma resting_cancelled side :
  resting side cancelled =
  filter (λ x, Order.orderId_ x ≠ Order.orderId_ o) (resting side s).
Proof.
  unfold cancelled. rewrite resting_logs. destruct (decide (side = Order.side_ o)) as [->|Hne].
  - unfold resting. rewrite levels_unlink, heap_unlink, located_flat.
    rewrite (flat_after m1 m2 (Order.price_ o) l1 l2).
    rewrite (omap_app _ (flat m1 ++ l1)), (omap_app _ (flat m1 ++ l1)).
    rewrite (omap_cons_Some _ (location_ en, order_ en) o) by done.
    symmetry. apply filter_one; [naive_solver|]. intros x Hx Hid.
    rewrite <-omap_app in Hx. apply list_elem_of_omap in Hx as (e & He & Hx).
    destruct (located_other e He) as [Hn _].
    destruct (located_ids (Order.side_ o) e x) as [_ ->]; try done.
    rewrite located_flat. clear -He. set_solver.
  - rewrite resting_unlink_ne by done. symmetry. apply filter_all.
    intros x (e & He & Hx)%elem_of_resting Hid.
    by destruct (located_ids side e x He Hx Hid).
Qed.

Lemma wf_cancelled : wf cancelled.
Proof. apply wf_logs. by eapply wf_unlink. Qed.

Lemma use_entry_erased id s' :
  orders_ s' !! id = None → use_entry id s' = (Ret tt, logs [dangling_entry id] s').
Proof. unfold use_entry. by intros ->. Qed.

Lemma CancelOrder_eq : CancelOrder (Order.orderId_ o) s = (Ret tt, cancelled).
Proof.
  pose proof (wf_sorted s Hwf (Order.side_ o)) as Hs. rewrite Hm in Hs.
  set (s1 := with_orders (delete (Order.orderId_ o) (orders_ s)) s).
  assert (∀ vs, use_entry (Order.orderId_ o) (logs vs s1) =
                (Ret tt, logs (vs ++ [dangling_entry (Order.orderId_ o)]) s1)) as Hu.
  { intros vs. rewrite <-logs_logs. apply use_entry_erased. simpl. apply lookup_delete_eq. }
  assert (∀ vs, deref (order_ en) (logs vs s1) = (Ret o, logs vs s1)) as Hd.
  { intros vs. unfold deref, Prelude.from_option. simpl. by rewrite Ho. }
  assert (∀ vs, levels (Order.side_ o) (logs vs s1) = levels (Order.side_ o) s) as Hl.
  { intros vs. unfold s1. by autorewrite with book. }
  assert (filter (λ e, e.1 ≠ location_ en) (l1 ++ (location_ en, order_ en) :: l2) = l1 ++ l2)
    as Hfilter.
  { apply filter_one; [naive_solver|]. intros e He. apply located_other. set_solver. }
  unfold CancelOrder. rewrite gets_bind, Hen.
  run by reflexivity. change (with_orders _ s) with s1. rewrite <-(logs_nil s1).
  run by apply Hu. run by apply Hd. run by apply Hu. run by apply Hd.
  unfold Order.GetSide, Order.GetPrice.
  run by (unfold at_level; rewrite gets_bind, Hl, Hm, (map_find_mid _ _ _ _ _ Hs); reflexivity).
  run by apply Hu. cbn [app].
  assert (location_ en ∈ (l1 ++ (location_ en, order_ en) :: l2).*1) as Hin.
  { rewrite fmap_app, fmap_cons. set_solver. }
  run by (unfold list_erase; rewrite bool_decide_eq_true_2 by exact Hin; reflexivity).
  rewrite Hl, Hm, Hfilter, (map_set_mid _ _ _ _ _ _ Hs).
  erewrite erase_if_empty_eq; [|rewrite levels_with_levels|rewrite levels_with_levels; reflexivity].
  2: { by eapply map_sorted_replace. }
  f_equal. unfold cancelled, unlink, s1. by destruct (Order.side_ o).
Qed.
End Located.

(** [CancelOrder] returns, removes the order from its side and from the hash
    map, and reads the erased hash node three times. *)
Lemma CancelOrder_cancels s id :
  wf s →
  ∃ s', CancelOrder id s = (Ret tt, s') ∧ wf s' ∧ view s' = Spec.cancel id (view s) ∧
    orders_ s' = delete id (orders_ s) ∧ heap s' = heap s ∧ next_loc s' = next_loc s ∧
    violations s' =
      violations s ++ (if contains id s then replicate 3 (dangling_entry id) else []).
Proof.
  intros Hwf. destruct (orders_ s !! id) as [en|] eqn:Hen.
  - destruct (wf_locate s id en Hwf Hen) as (o & m1 & m2 & l1 & l2 & Ho & <- & Hm).
    exists (cancelled s o m1 m2 l1 l2).
    rewrite (CancelOrder_eq s en o m1 m2 l1 l2 Hwf Hen Ho Hm).
    unfold contains. rewrite Hen, bool_decide_eq_true_2 by eauto.
    split_and!; [done|by eapply wf_cancelled| |done| | |].
    + unfold view, Spec.cancel. simpl.
      by rewrite !(resting_cancelled s en o m1 m2 l1 l2 Hwf Hen Ho Hm).
    + unfold cancelled. by rewrite heap_logs, heap_unlink.
    + simpl. unfold unlink. simpl. by rewrite next_loc_with_levels.
    + simpl. f_equal. unfold unlink. simpl. by rewrite violations_with_levels.
  - exists s. unfold CancelOrder. rewrite gets_bind, Hen. unfold contains.
    rewrite Hen, bool_decide_eq_false_2 by (by intros [? [=]]). rewrite app_nil_r.
    split_and!; try done; [|by rewrite delete_id].
    assert (∀ side, filter (λ o, Order.orderId_ o ≠ id) (resting side s) = resting side s) as Hf.
    { intros side. apply filter_all. intros x (e & He & Hx)%elem_of_resting Hid.
      destruct (wf_flat _ _ _ Hwf He) as (x' & Hx' & _ & _ & Hi). congruence. }
    unfold view, Spec.cancel. simpl. by rewrite !Hf.
Qed.

Lemma fmap_omap_NoDup {A B C} (f : A → option B) (g : B → C) (l : list A) :
  NoDup l →
  (∀ x y a b, x ∈ l → y ∈ l → f x = Some a → f y = Some b → g a = g b → x = y) →
  NoDup (g <$> omap f l).
Proof.
  induction 1 as [|x l Hx Hnd IH]; intros Hinj; [constructor|].
  assert (NoDup (g <$> omap f l)) as HIH by (apply IH; set_solver).
  simpl. destruct (f x) as [a|] eqn:Ha; [|done]. simpl. constructor; [|done].
  intros (b & Hab & (y & Hy & Hb)%list_elem_of_omap)%list_elem_of_fmap.
  assert (x = y) as <- by (eapply Hinj; set_solver). done.
Qed.

(** Identifiers are unique in the book. *)
Lemma wf_ids s : wf s → NoDup (Spec.ids (view s)).
Proof.
  intros Hwf. unfold Spec.ids, view. simpl. unfold resting. simpl. rewrite <-omap_app.
  apply fmap_omap_NoDup; [apply (NoDup_fmap_1 fst), (wf_nodup s Hwf)|].
  intros x y a b Hx Hy Ha Hb Hid.
  apply elem_of_nodes in Hx as [sx Hx], Hy as [sy Hy].
  destruct (wf_flat _ _ _ Hwf Hx) as (a' & Ha' & _ & _ & Hia).
  destruct (wf_flat _ _ _ Hwf Hy) as (b' & Hb' & _ & _ & Hib).
  destruct x, y; simpl in *. congruence.
Qed.

(** An order is indexed exactly when its identifier is in the view. *)
Lemma contains_view s id : wf s → contains id s = bool_decide (id ∈ Spec.ids (view s)).
Proof.
  intros Hwf. unfold contains. apply bool_decide_ext. unfold Spec.ids, view. simpl. split.
  - intros [en Hen]. destruct (wf_indexed s Hwf _ _ Hen) as (o & Ho & <- & Hin).
    apply list_elem_of_fmap_2. rewrite elem_of_app.
    assert (o ∈ resting (Order.side_ o) s) as Hr by (apply elem_of_resting; eauto).
    destruct (Order.side_ o); auto.
  - intros (o & -> & Hin)%list_elem_of_fmap.
    assert (∃ side, o ∈ resting side s) as [side Hr].
    { apply elem_of_app in Hin as [?|?]; [by exists Buy|by exists Sell]. }
    apply elem_of_resting in Hr as (e & He & Ho).
    destruct (wf_flat _ _ _ Hwf He) as (o' & Ho' & _ & _ & Hi).
    assert (o' = o) as -> by congruence. by eexists.
Qed.

(** The number of orders in a view is the number of list nodes. *)
Lemma omap_length {A B} (f : A → option B) (l : list A) :
  (∀ x, x ∈ l → is_Some (f x)) → length (omap f l) = length l.
Proof.
  induction l as [|x l IH]; intros Hf; [done|]. destruct (Hf x) as [y Hy]; [by left|].
  simpl. rewrite Hy. simpl. f_equal. apply IH. intros z Hz. apply Hf. by right.
Qed.

Lemma ids_length s : wf s → length (Spec.ids (view s)) = length (nodes s).
Proof.
  intros Hwf. unfold Spec.ids, view. simpl. unfold resting. simpl.
  rewrite length_fmap, <-omap_app. apply omap_length. intros e He.
  apply elem_of_nodes in He as [side He].
  destruct (wf_flat _ _ _ Hwf He) as (o & Ho & _). by exists o.
Qed.

Lemma cancel_length id b :
  NoDup (Spec.ids b) → id ∈ Spec.ids b →
  S (length (Spec.ids (Spec.cancel id b))) = length (Spec.ids b).
Proof.
  unfold Spec.ids, Spec.cancel. simpl. rewrite <-filter_app, !length_fmap.
  generalize (Spec.bids b ++ Spec.asks b) as l. intros l Hnd (o & -> & Hin)%list_elem_of_fmap.
  apply list_elem_of_split in Hin as (l1 & l2 & ->).
  rewrite fmap_app, fmap_cons in Hnd. apply NoDup_app in Hnd as (_ & Hd & [Hc _]%NoDup_cons).
  rewrite filter_one.
  - rewrite !length_app. simpl. lia.
  - naive_solver.
  - intros x [Hx|Hx]%elem_of_app Heq.
    + apply (Hd (Order.orderId_ x)); [by apply list_elem_of_fmap_2|]. rewrite Heq. by left.
    + apply Hc. rewrite <-Heq. by apply list_elem_of_fmap_2.
Qed.

(** ** The cancellation of what a fill-and-kill order left *)

Definition drop_front (side : Side) (b : Spec.book) : Spec.book :=
  match Spec.side_of side b with
  | o :: _ => if decide (Spec.is_fak o) then Spec.cancel (Order.orderId_ o) b else b
  | [] => b
  end.

Lemma accesses_entries id :
  node_accesses (replicate 3 (dangling_entry id)) = 0%nat ∧
  level_accesses (replicate 3 (dangling_entry id)) = 0%nat ∧
  entry_accesses (replicate 3 (dangling_entry id)) = 3%nat.
Proof. done. Qed.

Lemma cancel_front_spec side s :
  wf s →
  ∃ s', cancel_front side s = (Ret tt, s') ∧ wf s' ∧ view s' = drop_front side (view s) ∧
    ∃ vs, violations s' = violations s ++ vs ∧
      (Forall (λ o, ¬ Spec.is_fak o) (resting side s) → vs = []) ∧
      node_accesses vs = 0%nat ∧ level_accesses vs = 0%nat ∧
      (entry_accesses vs + 3 * length (Spec.ids (view s')) = 3 * length (Spec.ids (view s)))%nat.
Proof.
  intros Hwf. unfold cancel_front, drop_front. rewrite gets_bind, side_of_view.
  destruct (levels side s) as [|[pr l] m] eqn:Hm.
  { exists s. unfold resting. rewrite Hm. split_and!; try done.
    exists []. by rewrite app_nil_r. }
  destruct (resting_head side s pr l m Hwf Hm) as (n & p & l' & o & -> & Ho & _ & _ & _ & Hi & _ & Hr).
  rewrite Hr. cbn [head]. run by reflexivity.
  assert (touch side n s = s) as Ht by (apply touch_live; by eapply node_live_head).
  run by (apply arrow_eq, Ho). rewrite Ht. unfold when, Order.GetOrderType, Spec.is_fak.
  destruct (decide (Order.orderType_ o = FillAndKill)) as [Hfak|Hfak];
    [rewrite bool_decide_eq_true_2 by done|rewrite bool_decide_eq_false_2 by done].
  - run by (apply arrow_eq, Ho). rewrite Ht.
    destruct (CancelOrder_cancels s (Order.orderId_ o) Hwf) as (s' & ? & ? & Hv' & _ & _ & _ & Hv).
    assert (contains (Order.orderId_ o) s = true) as Hc by (apply bool_decide_eq_true_2; eauto).
    pose proof (contains_view s (Order.orderId_ o) Hwf) as Hin. rewrite Hc in Hin.
    symmetry in Hin. apply bool_decide_eq_true_1 in Hin. rewrite Hc in Hv.
    pose proof (cancel_length _ _ (wf_ids s Hwf) Hin) as Hlen.
    destruct (accesses_entries (Order.orderId_ o)) as (? & ? & He).
    exists s'. split_and!; [done..|]. eexists. split; [exact Hv|]. split_and!; try done.
    + by intros [? _]%Forall_cons.
    + rewrite He, Hv'. lia.
  - exists s. split_and!; try done. exists []. by rewrite app_nil_r.
Qed.

(** [MatchOrders] returns, and does what the specification's matching does. *)
Lemma MatchOrders_spec s :
  wf s →
  ∃ s', let r := Spec.match_orders (resting Buy s) (resting Sell s) in
    MatchOrders s = (Ret r.1, s') ∧ wf s' ∧
    NoDup (Spec.ids r.2) ∧ view s' = drop_front Sell (drop_front Buy r.2) ∧
    ∃ vs, violations s' = violations s ++ vs ∧ (3 * length r.1 <= length vs)%nat ∧
      (r.1 = [] → Forall (λ o, ¬ Spec.is_fak o) (Spec.bids r.2 ++ Spec.asks r.2) → vs = []) ∧
      logged (length (Spec.ids (view s)) - length (Spec.ids r.2))
        (length (Spec.ids r.2) - length (Spec.ids (view s'))) (length r.1) vs.
Proof.
  intros Hwf. cbv zeta. unfold MatchOrders. rewrite gets_bind.
  destruct (match_levels_matched (match_fuel s) (match_fuel s) s [] Hwf)
    as (ts & s1 & Heq & Hm & Hend & Hlev).
  { unfold match_fuel. lia. }
  { unfold match_fuel, nodes. rewrite length_app. lia. }
  run by exact Heq. destruct Hm as [Hwf1 Hspec Hn Hf Hent Hlv (vs1 & Hv1 & Hl1 & He1)].
  rewrite Hspec, Hend. cbn [fst snd]. rewrite app_nil_r.
  destruct (cancel_front_spec Buy s1 Hwf1)
    as (s2 & Heq2 & Hwf2 & Hview2 & vs2 & Hv2 & He2 & Hn2 & Hlv2 & Hent2).
  run by exact Heq2.
  destruct (cancel_front_spec Sell s2 Hwf2)
    as (s3 & Heq3 & Hwf3 & Hview3 & vs3 & Hv3 & He3 & Hn3 & Hlv3 & Hent3).
  run by exact Heq3. exists s3. split_and!; [done|done|by apply wf_ids|by rewrite Hview3, Hview2|].
  exists (vs1 ++ vs2 ++ vs3). rewrite Hv3, Hv2, Hv1, !length_app, !app_assoc.
  split_and!; [done|lia| |].
  - intros Hts [Hf1 Hf2]%Forall_app. simpl in Hf1, Hf2.
    rewrite He1, He2 by done. simpl. apply He3.
    rewrite <-side_of_view, Hview2. unfold drop_front. rewrite side_of_view.
    destruct (resting Buy s1) as [|o l]; [done|]. apply Forall_cons in Hf1 as [Ho _].
    by rewrite decide_False.
  - rewrite Hv1 in Hf, Hent, Hlv, Hlev. rewrite (ids_length s), (ids_length s1) in * by done.
    autorewrite with accesses in *.
    split; autorewrite with accesses; [lia|lia|lia|].
    intros Hts. assert (ts ≠ []) as Hne by (by intros ->). specialize (Hlev Hne). lia.
Qed.
