(* ===== verification/OrderbookApi.v ===== *)
(** The public member functions [AddOrder], [CancelOrder] and [MatchOrder]
    refine the specification and keep the invariant of a book at rest. *)

From S2P Require Import Prelude.
From S2P Require Import StdMap.
From S2P Require Import Orderbook.
From S2P Require Import OrderbookSpec.
From S2P Require Import OrderbookInv.
From S2P Require Import OrderbookStep.
From S2P Require Import OrderbookRefine.

(** ** Resting a new order *)

(** The slot of a price in a side's map. *)
Lemma level_slot side pr m :
  map_sorted (cmp side) m → Forall (λ lv, lv.2 ≠ []) m →
  ∃ m1 l m2, m = m1 ++ keep pr l ++ m2 ∧ map_index (cmp side) [] pr m = m1 ++ (pr, l) :: m2 ∧
    map_sorted (cmp side) (m1 ++ (pr, l) :: m2).
Proof.
  intros Hs Hne. destruct (map_find (cmp side) pr m) as [l|] eqn:Hf.
  - pose proof (proj1 (map_find_elem _ _ _ _ Hs) Hf) as (m1 & m2 & ->)%list_elem_of_split.
    exists m1, l, m2. rewrite (map_index_Some _ _ _ _ _ Hs Hf).
    apply Forall_app in Hne as [_ [Hl _]%Forall_cons]. by rewrite keep_cons.
  - destruct (map_find_None _ _ _ Hs Hf) as (m1 & m2 & -> & Hi & H1 & H2).
    exists m1, [], m2. split_and!; [done|apply Hi|by apply map_sorted_insert].
Qed.

Section Rest.
Context (s : Orderbook) (p : OrderPointer) (o : Order.t)
  (m1 m2 : list (Price * OrderPointers)) (l : OrderPointers).
Context (Hwf : wf s) (Ho : heap s !! p = Some o) (Hok : order_ok o)
  (Hfree : orders_ s !! Order.orderId_ o = None)
  (Hm : levels (Order.side_ o) s = m1 ++ keep (Order.price_ o) l ++ m2)
  (Hidx : map_index (cmp (Order.side_ o)) [] (Order.price_ o) (levels (Order.side_ o) s) =
          m1 ++ (Order.price_ o, l) :: m2)
  (Hsort : map_sorted (cmp (Order.side_ o)) (m1 ++ (Order.price_ o, l) :: m2)).

Let side := Order.side_ o.
Let node := (next_node s, p).

(** The state after [push_back] and [orders_.insert]. *)
Definition rested : Orderbook :=
  with_orders (<[Order.orderId_ o := mkEntry p (next_node s)]> (orders_ s))
    (with_next_node (Pos.succ (next_node s))
      (with_levels side (m1 ++ (Order.price_ o, l ++ [node]) :: m2) s)).

Lemma push_back_eq :
  push_back side (Order.price_ o) p s =
  (Ret (next_node s),
   with_next_node (Pos.succ (next_node s))
     (with_levels side (m1 ++ (Order.price_ o, l ++ [node]) :: m2) s)).
Proof.
  unfold push_back, side. run by reflexivity. rewrite Hidx.
  run by (apply read_level_eq; rewrite levels_with_levels; exact (map_find_mid _ _ _ _ _ Hsort)).
  rewrite gets_bind, next_node_with_levels.
  run by (unfold modify; rewrite levels_with_levels, (map_set_mid _ _ _ _ _ _ Hsort),
          with_levels_twice; reflexivity).
  run by (apply read_level_eq; rewrite levels_with_next_node, levels_with_levels;
          exact (map_find_mid _ _ _ _ _ (map_sorted_replace _ _ _ _ _ _ Hsort))).
  rewrite length_app, Nat.add_sub. unfold Prelude.from_option.
  by rewrite lookup_app_r, Nat.sub_diag by lia.
Qed.

Lemma flat_rest_before : flat (levels side s) = (flat m1 ++ l) ++ flat m2.
Proof. unfold side. rewrite Hm. autorewrite with book. by rewrite app_assoc. Qed.

Lemma levels_rested : levels side rested = m1 ++ (Order.price_ o, l ++ [node]) :: m2.
Proof. unfold rested. by autorewrite with book. Qed.

Lemma levels_rested_ne side' : side' ≠ side → levels side' rested = levels side' s.
Proof. intros. unfold rested. by autorewrite with book. Qed.

Lemma heap_rested : heap rested = heap s.
Proof. unfold rested. simpl. by rewrite heap_with_levels. Qed.

Lemma flat_rest_after : flat (levels side rested) = (flat m1 ++ l) ++ node :: flat m2.
Proof. rewrite levels_rested. autorewrite with book. by rewrite <-!app_assoc. Qed.

Lemma nodes_rested : nodes rested ≡ₚ node :: nodes s.
Proof.
  assert (flat (levels side rested) ≡ₚ node :: flat (levels side s)) as Hp.
  { rewrite flat_rest_after, flat_rest_before. by rewrite Permutation_middle. }
  pose proof (levels_rested_ne (other side)) as Hr. unfold nodes.
  revert Hp Hr. generalize rested side. intros s' [] Hp Hr; simpl in Hp, Hr; rewrite Hp, Hr by done.
  - done.
  - by rewrite <-Permutation_middle.
Qed.

Lemma node_fresh : (next_node s ∉ (nodes s).*1).
Proof.
  intros (e & Heq & He)%list_elem_of_fmap. pose proof (wf_next_node s Hwf) as Hn.
  rewrite Forall_forall in Hn. specialize (Hn e He). rewrite <-Heq in Hn. lia.
Qed.

Lemma rested_level side' pr' l' e :
  (pr', l') ∈ levels side' rested → e ∈ l' →
  (e = node ∧ side' = side ∧ pr' = Order.price_ o) ∨
  ∃ l0, (pr', l0) ∈ levels side' s ∧ e ∈ l0.
Proof.
  intros Hl He. destruct (decide (side' = side)) as [->|Hne].
  - rewrite levels_rested, elem_of_app, elem_of_cons in Hl. unfold side. rewrite Hm.
    destruct Hl as [Hl|[[= -> ->]|Hl]].
    + right. exists l'. rewrite elem_of_app. auto.
    + apply elem_of_app in He as [He|He%list_elem_of_singleton]; [|by left].
      right. exists l. rewrite !elem_of_app. split; [|done].
      right; left. destruct l; [by apply not_elem_of_nil in He|]. set_solver.
    + right. exists l'. rewrite !elem_of_app. auto.
  - right. rewrite levels_rested_ne in Hl by done. eauto.
Qed.

Lemma wf_rested : wf rested.
Proof.
  split.
  - intros side'. destruct (decide (side' = side)) as [->|Hne].
    + rewrite levels_rested. by eapply map_sorted_replace.
    + rewrite levels_rested_ne by done. by apply wf_sorted.
  - intros side'. destruct (decide (side' = side)) as [->|Hne].
    + rewrite levels_rested. pose proof (wf_nonempty s Hwf side) as Hn.
      unfold side in Hn. rewrite Hm in Hn. apply Forall_app in Hn as [? [_ ?]%Forall_app].
      apply Forall_app. split; [done|]. constructor; [|done]. simpl. by destruct l.
    + rewrite levels_rested_ne by done. by apply wf_nonempty.
  - intros side' pr' l' e Hl He. unfold rests. rewrite heap_rested.
    change (orders_ rested) with (<[Order.orderId_ o := mkEntry p (next_node s)]> (orders_ s)).
    destruct (rested_level _ _ _ _ Hl He) as [(-> & -> & ->)|(l0 & Hl0 & He0)].
    + exists o. rewrite lookup_insert_eq. done.
    + destruct (wf_rests s Hwf _ _ _ _ Hl0 He0) as (x & ? & ? & ? & ? & Hx).
      exists x. split_and!; try done. rewrite lookup_insert_ne; congruence.
  - intros id en. rewrite heap_rested.
    change (orders_ rested) with (<[Order.orderId_ o := mkEntry p (next_node s)]> (orders_ s)).
    rewrite lookup_insert. case_decide as E.
    + intros [= <-]. exists o. simpl. split_and!; [done..|]. fold side.
      rewrite flat_rest_after. set_solver.
    + intros Hen. destruct (wf_indexed s Hwf _ _ Hen) as (x & ? & ? & Hin).
      exists x. split_and!; [done..|].
      destruct (decide (Order.side_ x = side)) as [Hs|Hs].
      * rewrite Hs in *. rewrite flat_rest_after. rewrite flat_rest_before in Hin.
        clear -Hin. set_solver.
      * by rewrite levels_rested_ne.
  - rewrite nodes_rested. simpl. constructor; [apply node_fresh|apply (wf_nodup s Hwf)].
  - rewrite nodes_rested. constructor; simpl; [lia|].
    eapply Forall_impl; [apply (wf_next_node s Hwf)|]. simpl. lia.
  - intros q. rewrite heap_rested. unfold rested. simpl.
    rewrite next_loc_with_levels. apply (wf_next_loc s Hwf).
Qed.

Lemma place_app side' x X Y :
  Forall (λ y, cmp side' (Order.price_ x) (Order.price_ y) = false) X →
  Forall (λ y, cmp side' (Order.price_ x) (Order.price_ y) = true) Y →
  Spec.place side' x (X ++ Y) = X ++ x :: Y.
Proof.
  intros HX HY. induction HX as [|y X Hy HX IH]; simpl.
  - destruct HY as [|y Y Hy HY]; [done|]. simpl. by rewrite Hy.
  - by rewrite Hy, IH.
Qed.

(** The prices of the orders in part of a side. *)
Lemma prices_of (P : Price → Prop) m (part : OrderPointers) :
  (∀ pr0 l0, (pr0, l0) ∈ m → P pr0) → (∀ e, e ∈ part → e ∈ flat m) →
  (∀ pr0 l0, (pr0, l0) ∈ m → (∃ l1, (pr0, l1) ∈ levels side s ∧ ∀ e, e ∈ l0 → e ∈ l1)) →
  Forall (λ y, P (Order.price_ y)) (omap (λ e, heap s !! e.2) part).
Proof.
  intros HP Hpart Hsub. rewrite Forall_forall.
  intros x (e & He & Hx)%list_elem_of_omap.
  apply Hpart, elem_of_flat in He as (pr0 & l0 & Hl0 & He).
  destruct (Hsub _ _ Hl0) as (l1 & Hl1 & He1).
  destruct (wf_rests s Hwf _ _ _ _ Hl1 (He1 _ He)) as (x' & Hx' & _ & Hpr & _).
  assert (x' = x) as -> by congruence. rewrite Hpr. by eapply HP.
Qed.

Lemma resting_rested side' :
  resting side' rested =
  if decide (side' = side) then Spec.place side o (resting side s) else resting side' s.
Proof.
  case_decide as E; [subst side'|].
  2: { unfold resting. by rewrite levels_rested_ne, heap_rested. }
  apply map_sorted_app in Hsort as (_ & [_ H2]%map_sorted_cons & H1).
  unfold resting. rewrite flat_rest_after, flat_rest_before, heap_rested.
  rewrite (omap_app _ (flat m1 ++ l) (flat m2)), (omap_app _ (flat m1 ++ l) (node :: _)).
  rewrite (omap_cons_Some _ node o) by done. symmetry. apply place_app.
  - apply (prices_of (λ pr, cmp side (Order.price_ o) pr = false) (m1 ++ keep (Order.price_ o) l)).
    + intros pr0 l0 [Hin|Hin]%elem_of_app.
      * rewrite Forall_forall in H1. specialize (H1 _ Hin).
        apply Forall_cons in H1 as [Hlt _]. simpl in Hlt.
        destruct (cmp side (Order.price_ o) pr0) eqn:E; [|done].
        pose proof (cmp_trans _ _ _ Hlt E) as Hc. by rewrite cmp_irrefl in Hc.
      * destruct l; [by apply not_elem_of_nil in Hin|].
        apply list_elem_of_singleton in Hin as [= -> _]. apply cmp_irrefl.
    + intros e. by rewrite flat_app, flat_keep.
    + intros pr0 l0 Hin. exists l0. unfold side. rewrite Hm, app_assoc, elem_of_app. auto.
  - apply (prices_of (λ pr, cmp side (Order.price_ o) pr = true) m2).
    + intros pr0 l0 Hin. rewrite Forall_forall in H2. by apply (H2 (pr0, l0)).
    + done.
    + intros pr0 l0 Hin. exists l0. unfold side. rewrite Hm, !elem_of_app. auto.
Qed.
End Rest.

(** ** A book at rest *)

(** The state between two calls: well-formed, uncrossed, and without
    fill-and-kill orders. *)
Record at_rest (s : Orderbook) : Prop := {
  at_rest_wf : wf s;
  at_rest_quiet : Spec.quiet (view s);
}.

Lemma at_rest_empty : at_rest empty_book.
Proof.
  split; [apply wf_empty|]. split; [|constructor].
  by intros x y ?%not_elem_of_nil.
Qed.

Lemma SSorted_all {A} (R : A → A → Prop) (l : list A) :
  (∀ x y, x ∈ l → y ∈ l → R x y) → StronglySorted R l.
Proof.
  induction l as [|x l IH]; intros HR; constructor; [apply IH; set_solver|].
  apply Forall_forall. set_solver.
Qed.

(** Each side of the view is in priority order. *)
Lemma view_sorted side s : wf s → Spec.sorted side (resting side s).
Proof.
  intros Hwf. unfold resting.
  assert (∀ pr l e o, (pr, l) ∈ levels side s → e ∈ l → heap s !! e.2 = Some o →
    Order.price_ o = pr) as Hpr.
  { intros pr l e o Hl He Ho.
    destruct (wf_rests s Hwf _ _ _ _ Hl He) as (o' & Ho' & _ & <- & _). congruence. }
  pose proof (wf_sorted s Hwf side) as Hs. revert Hpr Hs.
  induction (levels side s) as [|[pr l] m IH]; intros Hpr Hs; [constructor|].
  apply map_sorted_cons in Hs as [Hs Hall]. rewrite flat_cons, omap_app.
  apply StronglySorted_app_2; cycle 1.
  - apply SSorted_all. intros x y (e & He & Hx)%list_elem_of_omap (e' & He' & Hy)%list_elem_of_omap.
    rewrite (Hpr pr l e x), (Hpr pr l e' y) by set_solver. apply cmp_irrefl.
  - apply IH; [|done]. intros pr' l' e o Hl. apply (Hpr pr' l'). set_solver.
  - intros x y (e & He & Hx)%list_elem_of_omap (e' & He' & Hy)%list_elem_of_omap.
    apply elem_of_flat in He' as (pr' & l' & Hl' & He').
    rewrite (Hpr pr l e x), (Hpr pr' l' e' y) by set_solver.
    rewrite Forall_forall in Hall. specialize (Hall _ Hl'). simpl in Hall.
    destruct (cmp side pr' pr) eqn:E; [|done].
    pose proof (cmp_trans _ _ _ Hall E) as Hc. by rewrite cmp_irrefl in Hc.
Qed.

Lemma CanMatch_view side pr s :
  wf s → CanMatch side pr s = Spec.can_match side pr (view s).
Proof.
  intros Hwf. unfold CanMatch, Spec.can_match, view. simpl.
  pose proof (resting_head Buy s) as Hb. pose proof (resting_head Sell s) as Ha. simpl in Hb, Ha.
  assert (∀ sd, levels sd s = [] → resting sd s = []) as Hnil.
  { intros sd Hl. unfold resting. by rewrite Hl. }
  destruct side.
  - destruct (asks_ s) as [|[best l] m] eqn:E.
    + rewrite (Hnil Sell E). by destruct (resting Buy s).
    + destruct (Ha best l m Hwf eq_refl) as (? & ? & ? & o & _ & _ & <- & _ & _ & _ & _ & ->).
      rewrite Z.geb_leb. by destruct (resting Buy s).
  - destruct (bids_ s) as [|[best l] m] eqn:E.
    + by rewrite (Hnil Buy E).
    + destruct (Hb best l m Hwf eq_refl) as (? & ? & ? & o & _ & _ & <- & _ & _ & _ & _ & ->).
      done.
Qed.

(** With unique identifiers, the two cancellations at the fronts drop exactly
    the fill-and-kill orders when these can only be at the fronts. *)
Lemma cancel_head_filter o l :
  NoDup (Order.orderId_ <$> o :: l) →
  filter (λ x, Order.orderId_ x ≠ Order.orderId_ o) (o :: l) = l.
Proof.
  intros [Hn _]%NoDup_cons. rewrite filter_cons_False by naive_solver.
  apply filter_all. intros x Hx Heq. apply Hn. rewrite <-Heq. by apply list_elem_of_fmap_2.
Qed.

Lemma filter_no_fak l : Forall (λ o, ¬ Spec.is_fak o) l → filter (λ o, ¬ Spec.is_fak o) l = l.
Proof. rewrite Forall_forall. apply filter_all. Qed.

Lemma drop_fronts b :
  NoDup (Spec.ids b) →
  Forall (λ o, ¬ Spec.is_fak o) (tail (Spec.bids b)) →
  Forall (λ o, ¬ Spec.is_fak o) (tail (Spec.asks b)) →
  drop_front Sell (drop_front Buy b) = Spec.drop_fak b.
Proof.
  destruct b as [bs as']. unfold Spec.ids. simpl. intros Hnd Hb Ha.
  assert (drop_front Buy (Spec.mk bs as') =
          Spec.mk (filter (λ o, ¬ Spec.is_fak o) bs) as') as ->.
  { unfold drop_front. simpl. destruct bs as [|o bs]; [done|]. simpl in Hb.
    case_decide as Hf; [rewrite filter_cons_False by naive_solver|
                        rewrite filter_cons_True by done].
    - unfold Spec.cancel. simpl Spec.bids. simpl Spec.asks. rewrite fmap_app in Hnd.
      apply NoDup_app in Hnd as (Hn1 & Hd & _).
      rewrite cancel_head_filter, filter_no_fak by done. f_equal. apply filter_all.
      intros x Hx Heq. apply (Hd (Order.orderId_ o)); [set_solver|].
      rewrite <-Heq. by apply list_elem_of_fmap_2.
    - by rewrite filter_no_fak. }
  unfold drop_front, Spec.drop_fak. simpl. destruct as' as [|o as']; [done|]. simpl in Ha.
  rewrite fmap_app in Hnd. apply NoDup_app in Hnd as (_ & Hd & Hn2).
  case_decide as Hf; [rewrite filter_cons_False by naive_solver|rewrite filter_cons_True by done].
  - unfold Spec.cancel. simpl Spec.bids. simpl Spec.asks.
    rewrite cancel_head_filter, (filter_no_fak as') by done. f_equal. apply filter_all.
    intros x [_ Hx]%list_elem_of_filter Heq.
    apply (Hd (Order.orderId_ x)); [by apply list_elem_of_fmap_2|]. rewrite Heq.
    apply elem_of_cons. by left.
  - by rewrite (filter_no_fak as').
Qed.

(** ** [AddOrder] *)

Lemma view_rested s p o m1 m2 l :
  wf s → heap s !! p = Some o →
  levels (Order.side_ o) s = m1 ++ keep (Order.price_ o) l ++ m2 →
  map_index (cmp (Order.side_ o)) [] (Order.price_ o) (levels (Order.side_ o) s) =
    m1 ++ (Order.price_ o, l) :: m2 →
  map_sorted (cmp (Order.side_ o)) (m1 ++ (Order.price_ o, l) :: m2) →
  view (rested s p o m1 m2 l) = Spec.place_in o (view s).
Proof.
  intros Hwf Ho Hm Hi Hs. unfold view at 1.
  rewrite !(resting_rested s p o m1 m2 l Hwf Ho Hm Hi Hs).
  unfold Spec.place_in, view. simpl. by destruct (Order.side_ o).
Qed.

(** The accesses to erased nodes between two states: none when nothing was
    traded, and at least three for each trade otherwise. *)
Definition violations_of (s s' : Orderbook) (ts : Trades) : Prop :=
  ∃ vs, violations s' = violations s ++ vs ∧
    (3 * length ts <= length vs)%nat ∧ (ts = [] → vs = []).

(** The accesses of adding [o] to [b]: none when the order is refused;
    otherwise three to the list node of every order that is filled, three to
    the hash node of every fill-and-kill order that is then cancelled, and
    for every trade at most one to the map node of an emptied level, with one
    at least when anything was traded. *)
Definition add_log (o : Order.t) (b : Spec.book) (vs : list Violation) : Prop :=
  if bool_decide (Order.orderId_ o ∈ Spec.ids b) then vs = []
  else if bool_decide (Spec.is_fak o) &&
          negb (Spec.can_match (Order.side_ o) (Order.price_ o) b) then vs = []
  else
    let b' := Spec.place_in o b in
    let r := Spec.match_orders (Spec.bids b') (Spec.asks b') in
    logged (length (Spec.ids b') - length (Spec.ids r.2))
      (length (Spec.ids r.2) - length (Spec.ids (Spec.drop_fak r.2))) (length r.1) vs.

Lemma MatchOrders_place s1 s p o m1 m2 l :
  at_rest s → heap s !! p = Some o → order_ok o →
  orders_ s !! Order.orderId_ o = None →
  (Spec.is_fak o → Spec.can_match (Order.side_ o) (Order.price_ o) (view s) = true) →
  levels (Order.side_ o) s = m1 ++ keep (Order.price_ o) l ++ m2 →
  map_index (cmp (Order.side_ o)) [] (Order.price_ o) (levels (Order.side_ o) s) =
    m1 ++ (Order.price_ o, l) :: m2 →
  map_sorted (cmp (Order.side_ o)) (m1 ++ (Order.price_ o, l) :: m2) →
  s1 = rested s p o m1 m2 l →
  let b' := Spec.place_in o (view s) in
  let r := Spec.match_orders (Spec.bids b') (Spec.asks b') in
  ∃ s', MatchOrders s1 = (Ret r.1, s') ∧ at_rest s' ∧ view s' = Spec.drop_fak r.2 ∧
    violations_of s s' r.1 ∧
    ∃ vs, violations s' = violations s ++ vs ∧
      logged (length (Spec.ids b') - length (Spec.ids r.2))
        (length (Spec.ids r.2) - length (Spec.ids (Spec.drop_fak r.2))) (length r.1) vs.
Proof.
  intros [Hwf Hq] Ho Hok Hfree Hcan Hm Hi Hs -> b' r.
  pose proof (wf_rested s p o m1 m2 l Hwf Ho Hok Hfree Hm Hi Hs) as Hwf1.
  pose proof (view_rested s p o m1 m2 l Hwf Ho Hm Hi Hs) as Hv1. fold b' in Hv1.
  destruct (MatchOrders_spec _ Hwf1) as (s' & Heq & Hwf' & Hnd & Hview & vs & Hvs & Hlen & Hnone & Hlog).
  rewrite <-!side_of_view, Hv1 in Heq, Hnd, Hview, Hlen, Hnone, Hlog. cbn [Spec.side_of] in *.
  fold r in Heq, Hnd, Hview, Hlen, Hnone, Hlog.
  destruct (Spec.place_tails o (view s) Hq Hcan) as [Htb Hta]. fold b' in Htb, Hta.
  destruct (Spec.match_orders_tails (Spec.bids b') (Spec.asks b')) as [Hsb Hsa]. fold r in Hsb, Hsa.
  assert (view s' = Spec.drop_fak r.2) as Hdrop.
  { rewrite Hview. apply drop_fronts; [done| |]; apply Forall_forall; intros x Hx.
    - rewrite Forall_forall in Htb. auto.
    - rewrite Forall_forall in Hta. auto. }
  assert (violations s' = violations s ++ vs) as Hvs'.
  { rewrite Hvs. unfold rested. simpl. by rewrite violations_with_levels. }
  rewrite Hdrop in Hlog. exists s'. split_and!; [done| |done| |by exists vs].
  - split; [done|]. rewrite Hdrop. apply Spec.drop_fak_quiet.
    destruct (Spec.match_orders_sorted (Spec.bids b') (Spec.asks b')) as [Hb Ha].
    + rewrite <-Hv1. by apply (view_sorted Buy).
    + rewrite <-Hv1. by apply (view_sorted Sell).
    + apply Spec.stopped_uncrossed; [done..|]. apply Spec.match_orders_stops.
  - exists vs. split_and!; [done|done|].
    + intros Hts. apply Hnone; [done|]. destruct (decide (Spec.is_fak o)) as [Hfak|Hfak].
      * exfalso. destruct (Spec.can_match_trades o (view s) (Hcan Hfak)) as [_ Hne]; [|by apply Hne].
        intros y. by apply Spec.can_match_best; [|apply Hcan].
      * destruct (Spec.place_no_fak o (view s) Hfak Hq). by apply Spec.match_orders_no_fak.
Qed.

(** [AddOrder] computes what the specification computes, and leaves a book at rest. *)
Lemma AddOrder_spec s p o :
  at_rest s → heap s !! p = Some o → order_ok o →
  ∃ s', let r := Spec.add o (view s) in
    AddOrder p s = (Ret r.1, s') ∧ at_rest s' ∧ view s' = r.2 ∧ violations_of s s' r.1 ∧
    ∃ vs, violations s' = violations s ++ vs ∧ add_log o (view s) vs.
Proof.
  intros Hrest Ho Hok. destruct Hrest as [Hwf Hq]. cbv zeta. unfold AddOrder, Spec.add, add_log.
  run by (unfold deref, Prelude.from_option; rewrite Ho; reflexivity).
  unfold Order.GetOrderId, Order.GetOrderType, Order.GetSide, Order.GetPrice.
  rewrite gets_bind, (contains_view s _ Hwf).
  assert (violations_of s s []) as Hnone by (exists []; rewrite app_nil_r; by split_and!).
  assert (∃ vs, violations s = violations s ++ vs ∧ vs = []) as Hnil.
  { exists []. by rewrite app_nil_r. }
  case_bool_decide as Hin; [by exists s|].
  rewrite gets_bind, (CanMatch_view _ _ s Hwf). fold (Spec.is_fak o).
  destruct (bool_decide (Spec.is_fak o) && _) eqn:Ekill; [by exists s|].
  assert (orders_ s !! Order.orderId_ o = None) as Hfree.
  { apply eq_None_not_Some. intros Hsome. pose proof (contains_view s (Order.orderId_ o) Hwf) as Hc.
    unfold contains in Hc. by rewrite (bool_decide_eq_true_2 _ Hsome), (bool_decide_eq_false_2 _ Hin) in Hc. }
  destruct (level_slot (Order.side_ o) (Order.price_ o) (levels (Order.side_ o) s))
    as (m1 & l & m2 & Hm & Hi & Hs); [by apply wf_sorted|by apply wf_nonempty|].
  run by (exact (push_back_eq s p o m1 m2 l Hi Hs)). run by reflexivity.
  eapply MatchOrders_place; try done.
  - intros Hfak. rewrite bool_decide_eq_true_2 in Ekill by done.
    by destruct (Spec.can_match _ _ _).
  - unfold rested. simpl. by rewrite orders_with_levels.
Qed.

(** ** [CancelOrder] and [MatchOrder] *)

Lemma CancelOrder_spec s id :
  at_rest s →
  ∃ s', CancelOrder id s = (Ret tt, s') ∧ at_rest s' ∧ view s' = Spec.cancel id (view s) ∧
    violations s' =
      violations s ++ (if contains id s then replicate 3 (dangling_entry id) else []).
Proof.
  intros [Hwf Hq]. destruct (CancelOrder_cancels s id Hwf) as (s' & ? & ? & Hv & _ & _ & _ & ?).
  exists s'. split_and!; try done. split; [done|]. rewrite Hv. by apply Spec.cancel_quiet.
Qed.

Lemma wf_make_shared s o :
  wf s →
  let s' := (make_shared o s).2 in
  wf s' ∧ view s' = view s ∧ orders_ s' = orders_ s ∧ heap s' !! next_loc s = Some o.
Proof.
  intros Hwf. simpl. assert (heap s !! next_loc s = None) as Hnew.
  { apply eq_None_not_Some. intros H. pose proof (wf_next_loc s Hwf _ H). lia. }
  assert (∀ q x, heap s !! q = Some x → <[next_loc s := o]> (heap s) !! q = Some x) as Hold.
  { intros q x Hx. rewrite lookup_insert_ne; [done|]. congruence. }
  assert (∀ side, levels side (with_next_loc (Pos.succ (next_loc s))
    (with_heap (<[next_loc s := o]> (heap s)) s)) = levels side s) as Hl by (by intros []).
  split_and!; [split|..].
  - intros side. rewrite Hl. by apply wf_sorted.
  - intros side. rewrite Hl. by apply wf_nonempty.
  - intros side pr l e. rewrite Hl. intros He Hel.
    destruct (wf_rests s Hwf _ _ _ _ He Hel) as (x & ? & ?). exists x. split; [by apply Hold|done].
  - intros id en Hen. destruct (wf_indexed s Hwf _ _ Hen) as (x & ? & ?).
    exists x. rewrite Hl. split; [by apply Hold|done].
  - apply (wf_nodup s Hwf).
  - apply (wf_next_node s Hwf).
  - intros q. simpl. rewrite lookup_insert. case_decide; [subst; lia|].
    intros Hq. pose proof (wf_next_loc s Hwf _ Hq). lia.
  - unfold view, resting. f_equal; rewrite Hl; apply omap_ext_in; intros e He; simpl.
    + destruct (wf_flat s Buy e Hwf He) as (x & Hx & _). rewrite Hx. by apply Hold.
    + destruct (wf_flat s Sell e Hwf He) as (x & Hx & _). rewrite Hx. by apply Hold.
  - done.
  - simpl. apply lookup_insert_eq.
Qed.

(** The first order with an identifier, in a view. *)
Lemma view_find s en o :
  wf s → orders_ s !! Order.orderId_ o = Some en → heap s !! order_ en = Some o →
  filter (λ x, Order.orderId_ x = Order.orderId_ o) (resting Buy s ++ resting Sell s) = [o].
Proof.
  intros Hwf Hen Ho.
  destruct (wf_locate s _ en Hwf Hen) as (o' & m1 & m2 & l1 & l2 & Ho' & _ & Hm).
  assert (o' = o) as -> by congruence.
  assert (o ∈ resting Buy s ++ resting Sell s) as Hin.
  { assert (o ∈ resting (Order.side_ o) s) as Hr.
    { apply elem_of_resting. exists (location_ en, order_ en). split; [|done].
      rewrite Hm, flat_app, flat_cons. set_solver. }
    apply elem_of_app. destruct (Order.side_ o); auto. }
  pose proof (wf_ids s Hwf) as Hnd. unfold Spec.ids, view in Hnd. simpl in Hnd.
  apply list_elem_of_split in Hin as (k1 & k2 & Hk). rewrite Hk in Hnd |- *.
  rewrite fmap_app, fmap_cons in Hnd. apply NoDup_app in Hnd as (_ & Hd & [Hc _]%NoDup_cons).
  rewrite filter_app, filter_cons_True by done.
  assert (∀ k, (∀ x, x ∈ k → Order.orderId_ x ≠ Order.orderId_ o) →
    filter (λ x, Order.orderId_ x = Order.orderId_ o) k = []) as Hnil.
  { induction k as [|x k IH]; intros Hx; [done|].
    rewrite filter_cons_False by (apply Hx; by left). apply IH. intros y Hy. apply Hx. by right. }
  rewrite !Hnil; [done| |].
  - intros x Hx Heq. apply Hc. rewrite <-Heq. by apply list_elem_of_fmap_2.
  - intros x Hx Heq. apply (Hd (Order.orderId_ x)); [by apply list_elem_of_fmap_2|].
    rewrite Heq. by left.
Qed.

Definition modify_ok (m : OrderModify.t) : Prop := 0 <= OrderModify.quantity_ m < 2 ^ 32.

(** The accesses of [MatchOrder]: none on an unknown identifier; otherwise
    four to the erased hash node and those of adding the new order. *)
Definition modify_log (m : OrderModify.t) (b : Spec.book) (vs : list Violation) : Prop :=
  match filter (λ o, Order.orderId_ o = OrderModify.orderId_ m) (Spec.bids b ++ Spec.asks b) with
  | [] => vs = []
  | o :: _ => ∃ ws, vs = replicate 4 (dangling_entry (OrderModify.orderId_ m)) ++ ws ∧
      add_log (OrderModify.to_order (Order.orderType_ o) m)
        (Spec.cancel (OrderModify.orderId_ m) b) ws
  end.

Lemma MatchOrder_spec s m :
  at_rest s → modify_ok m →
  ∃ s', let r := Spec.modify m (view s) in
    MatchOrder m s = (Ret r.1, s') ∧ at_rest s' ∧ view s' = r.2 ∧
    (∃ vs, violations s' = violations s ++ vs ∧
      if contains (OrderModify.orderId_ m) s
      then replicate 4 (dangling_entry (OrderModify.orderId_ m)) `prefix_of` vs
      else vs = []) ∧
    ∃ vs, violations s' = violations s ++ vs ∧ modify_log m (view s) vs.
Proof.
  intros Hrest Hm. pose proof (at_rest_wf s Hrest) as Hwf. cbv zeta.
  unfold MatchOrder, OrderModify.GetOrderId. rewrite gets_bind.
  set (id := OrderModify.orderId_ m).
  pose proof (contains_view s id Hwf) as Hcv. unfold contains in *.
  destruct (orders_ s !! id) as [en|] eqn:Hen.
  - destruct (wf_locate s id en Hwf Hen) as (o & _ & _ & _ & _ & Ho & Hid & _).
    destruct (CancelOrder_cancels s id Hwf) as (s1 & Heq1 & Hwf1 & Hv1 & Ho1 & Hh1 & _ & Hvio1).
    run by exact Heq1.
    run by (apply use_entry_erased; rewrite Ho1; apply lookup_delete_eq).
    run by (unfold deref, Prelude.from_option; rewrite heap_logs, Hh1, Ho; reflexivity).
    unfold Order.GetOrderType. set (o' := OrderModify.to_order (Order.orderType_ o) m).
    pose proof (wf_logs [dangling_entry id] s1 Hwf1) as Hwf2.
    destruct (wf_make_shared _ o' Hwf2) as (Hwf3 & Hv3 & _ & Ho3).
    run by (unfold make_shared; reflexivity).
    set (s3 := with_next_loc _ _) in *. change ((make_shared o' _).2) with s3 in Hwf3, Hv3, Ho3.
    assert (view s3 = Spec.cancel id (view s)) as Hv.
    { rewrite Hv3, <-Hv1. unfold view. by rewrite !resting_logs. }
    destruct (AddOrder_spec s3 (next_loc (logs [dangling_entry id] s1)) o')
      as (s' & Heq & Hrest' & Hview' & _ & vs & Hvs & Hlog).
    { split; [done|]. rewrite Hv. by apply Spec.cancel_quiet, at_rest_quiet. }
    { exact Ho3. }
    { unfold o', order_ok, OrderModify.to_order, Order.create, OrderModify.GetQuantity. simpl.
      unfold modify_ok in Hm. lia. }
    assert (violations s' = violations s ++ replicate 4 (dangling_entry id) ++ vs) as Hvs'.
    { rewrite Hvs. change (violations s3) with (violations s1 ++ [dangling_entry id]).
      rewrite Hvio1. unfold contains. rewrite Hen, bool_decide_eq_true_2 by eauto.
      by rewrite <-!app_assoc. }
    pose proof Hen as Hen'. rewrite <-Hid in Hen'. pose proof (view_find s en o Hwf Hen' Ho) as Hfind.
    rewrite Hid in Hfind. change (resting Buy s) with (Spec.bids (view s)) in Hfind.
    change (resting Sell s) with (Spec.asks (view s)) in Hfind.
    assert (Spec.modify m (view s) = Spec.add o' (view s3)) as ->.
    { unfold Spec.modify. fold id. by rewrite Hfind, Hv. }
    exists s'. split_and!; [done..| |].
    + exists (replicate 4 (dangling_entry id) ++ vs). split; [done|].
      rewrite bool_decide_eq_true_2 by eauto. by apply prefix_app_r.
    + exists (replicate 4 (dangling_entry id) ++ vs). split; [done|].
      unfold modify_log. fold id. rewrite Hfind. exists vs. by rewrite <-Hv.
  - assert (filter (λ o, Order.orderId_ o = id) (Spec.bids (view s) ++ Spec.asks (view s)) = [])
      as Hfind.
    { destruct (filter _ _) as [|x l] eqn:E; [done|].
      assert (x ∈ x :: l) as Hx by (by left). rewrite <-E in Hx.
      apply list_elem_of_filter in Hx as [Hx1 Hx2].
      rewrite (bool_decide_eq_false_2 _ (is_Some_None)) in Hcv.
      symmetry in Hcv. apply bool_decide_eq_false_1 in Hcv. destruct Hcv.
      unfold Spec.ids. rewrite <-Hx1. by apply list_elem_of_fmap_2. }
    unfold Spec.modify, modify_log. fold id. rewrite Hfind.
    exists s. split_and!; try done.
    + exists []. rewrite app_nil_r. split; [done|]. by rewrite (bool_decide_eq_false_2 _ (is_Some_None)).
    + exists []. by rewrite app_nil_r.
Qed.

(** ** Sequences of calls *)

(** What a client does with the book. *)
Inductive call :=
  | Add (type : OrderType) (id : OrderId) (side : Side) (price : Price) (quantity : Quantity)
  | Cancel (id : OrderId)
  | Modify (m : OrderModify.t).

Definition valid (c : call) : Prop :=
  match c with
  | Add _ _ _ _ quantity => 0 <= quantity < 2 ^ 32
  | Cancel _ => True
  | Modify m => modify_ok m
  end.

Definition perform (c : call) : OB Trades :=
  match c with
  | Add type id side price quantity =>
      p ← make_shared (Order.create type id side price quantity); AddOrder p
  | Cancel id => CancelOrder id ;; mret []
  | Modify m => MatchOrder m
  end.

Definition spec_perform (c : call) (b : Spec.book) : Trades * Spec.book :=
  match c with
  | Add type id side price quantity => Spec.add (Order.create type id side price quantity) b
  | Cancel id => ([], Spec.cancel id b)
  | Modify m => Spec.modify m b
  end.

Fixpoint run_calls (cs : list call) : OB (list Trades) :=
  match cs with
  | [] => mret []
  | c :: cs => ts ← perform c; tss ← run_calls cs; mret (ts :: tss)
  end.

Fixpoint spec_calls (cs : list call) (b : Spec.book) : list Trades * Spec.book :=
  match cs with
  | [] => ([], b)
  | c :: cs =>
      let r := spec_perform c b in
      let rs := spec_calls cs r.2 in (r.1 :: rs.1, rs.2)
  end.

(** The accesses to erased nodes of a call, and of a sequence of calls. *)
Definition call_log (c : call) (b : Spec.book) (vs : list Violation) : Prop :=
  match c with
  | Add type id side price quantity =>
      add_log (Order.create type id side price quantity) b vs
  | Cancel id =>
      vs = if bool_decide (id ∈ Spec.ids b) then replicate 3 (dangling_entry id) else []
  | Modify m => modify_log m b vs
  end.

Fixpoint calls_log (cs : list call) (b : Spec.book) (vs : list Violation) : Prop :=
  match cs with
  | [] => vs = []
  | c :: cs => ∃ ws vs', vs = ws ++ vs' ∧ call_log c b ws ∧ calls_log cs (spec_perform c b).2 vs'
  end.

Lemma perform_spec c s :
  valid c → at_rest s →
  ∃ s', perform c s = (Ret (spec_perform c (view s)).1, s') ∧ at_rest s' ∧
    view s' = (spec_perform c (view s)).2 ∧
    ∃ vs, violations s' = violations s ++ vs ∧ call_log c (view s) vs.
Proof.
  intros Hc Hs. destruct c as [type id side price quantity|id|m]; simpl in *.
  - set (o := Order.create type id side price quantity).
    destruct (wf_make_shared s o (at_rest_wf s Hs)) as (Hwf & Hv & _ & Ho).
    run by (unfold make_shared; reflexivity).
    set (s1 := with_next_loc _ _). change ((make_shared o s).2) with s1 in Hwf, Hv, Ho.
    destruct (AddOrder_spec s1 (next_loc s) o) as (s' & Heq & Hs' & Hv' & _ & Hlog); [|done| |].
    + split; [done|]. rewrite Hv. by apply at_rest_quiet.
    + unfold o, order_ok. simpl. lia.
    + exists s'. by rewrite <-Hv.
  - destruct (CancelOrder_spec s id Hs) as (s' & Heq & Hs' & Hv & Hvs).
    exists s'. run by exact Heq. split_and!; [done..|].
    rewrite (contains_view s id (at_rest_wf s Hs)) in Hvs. by eexists.
  - destruct (MatchOrder_spec s m Hs Hc) as (s' & Heq & Hs' & Hv & _ & Hlog). by exists s'.
Qed.

Lemma run_calls_spec cs s :
  Forall valid cs → at_rest s →
  ∃ s', run_calls cs s = (Ret (spec_calls cs (view s)).1, s') ∧ at_rest s' ∧
    view s' = (spec_calls cs (view s)).2 ∧
    ∃ vs, violations s' = violations s ++ vs ∧ calls_log cs (view s) vs.
Proof.
  intros Hcs. revert s. induction Hcs as [|c cs Hc _ IH]; intros s Hs; simpl.
  { exists s. split_and!; try done. exists []. by rewrite app_nil_r. }
  destruct (perform_spec c s Hc Hs) as (s1 & Heq1 & Hs1 & Hv1 & ws & Hws & Hlog1).
  run by exact Heq1.
  destruct (IH s1 Hs1) as (s' & Heq & Hs' & Hv & vs & Hvs & Hlog). rewrite Hv1 in Heq, Hv, Hlog.
  exists s'. run by exact Heq. split_and!; [done..|]. exists (ws ++ vs).
  rewrite Hvs, Hws, app_assoc. split; [done|]. by exists ws, vs.
Qed.

(** The states a client can see. *)
Inductive reachable : Orderbook → Prop :=
  | reachable_empty : reachable empty_book
  | reachable_step s c ts s' :
      reachable s → valid c → perform c s = (Ret ts, s') → reachable s'.

Lemma reachable_at_rest s : reachable s → at_rest s.
Proof.
  induction 1 as [|s c ts s' _ IH Hc Hp]; [apply at_rest_empty|].
  destruct (perform_spec c s Hc IH) as (s'' & Heq & Hs & _). congruence.
Qed.
