(* ===== verification/OrderbookProps.v ===== *)
(** The properties of the order book, stated on the member functions as the
    code calls them, with their witnesses on concrete books. *)

From S2P Require Import Prelude.
From S2P Require Import StdMap.
From S2P Require Import Orderbook.
From S2P Require Import OrderbookSpec.
From S2P Require Import OrderbookInv.
From S2P Require Import OrderbookStep.
From S2P Require Import OrderbookRefine.
From S2P Require Import OrderbookApi.

(** ** Concrete books for the witnesses *)

Definition book_calls : list call :=
  [Add GoodTillCancel 1 Buy 100 10; Add GoodTillCancel 2 Buy 101 5; Add GoodTillCancel 3 Sell 105 7].

Definition book0 : Orderbook := (run_calls book_calls empty_book).2.

(** [book0] with an order allocated and not yet added. *)
Definition with_order (o : Order.t) : Orderbook := (make_shared o book0).2.

Lemma at_rest_make_shared s o : at_rest s → at_rest (make_shared o s).2.
Proof.
  intros [Hwf Hq]. destruct (wf_make_shared s o Hwf) as (? & Hv & _).
  split; [done|]. by rewrite Hv.
Qed.

Lemma at_rest_book0 : at_rest book0.
Proof.
  destruct (run_calls_spec book_calls empty_book) as (s' & Heq & Hs' & _).
  - unfold book_calls, valid. repeat constructor; lia.
  - apply at_rest_empty.
  - unfold book0. by rewrite Heq.
Qed.

Lemma at_rest_with_order o : at_rest (with_order o).
Proof. apply at_rest_make_shared, at_rest_book0. Qed.

Definition seller : Order.t := Order.create GoodTillCancel 9 Sell 100 12.
Definition killer : Order.t := Order.create FillAndKill 9 Sell 100 40.
Definition quiet_seller : Order.t := Order.create GoodTillCancel 9 Sell 105 12.

Lemma AddOrder_outcome s p o ts s' :
  at_rest s → heap s !! p = Some o → order_ok o → AddOrder p s = (Ret ts, s') →
  ts = (Spec.add o (view s)).1 ∧ view s' = (Spec.add o (view s)).2 ∧ at_rest s' ∧
  violations_of s s' ts.
Proof.
  intros Hs Ho Hok Heq. destruct (AddOrder_spec s p o Hs Ho Hok) as (s'' & Heq' & ? & ? & ? & _).
  rewrite Heq in Heq'. injection Heq' as -> <-. done.
Qed.

Lemma free_ids s id : at_rest s → orders_ s !! id = None → id ∉ Spec.ids (view s).
Proof.
  intros [Hwf _] Hn Hin. pose proof (contains_view s id Hwf) as Hc. unfold contains in Hc.
  rewrite Hn, (bool_decide_eq_true_2 _ Hin) in Hc. done.
Qed.

Ltac conc := vm_compute; repeat (split || constructor || discriminate || reflexivity).

(** ** Refinement *)

(** C1. Every sequence of valid calls on a new order book runs to its end
    without an exception, a null pointer, an invalid iterator, an empty level
    or exhausted fuel, and produces the trades and the resting orders that
    the price-time priority specification produces.  The code also reads
    through references into the list, map and hash nodes it has erased, which
    C++ leaves undefined; the model answers such a read with what the node
    held and records it, so the trades and orders are those of a run in which
    these reads still see the old contents.  The recorded reads are exactly
    accounted for, call by call: adding an order that is refused makes none;
    another makes three to the list node of each order that is filled, three
    to the hash node of each fill-and-kill order cancelled at the end of
    matching, and, when there is a trade, between one and the number of
    trades to the map node of an emptied level; cancelling an order of the
    book makes three to its hash node and modifying one makes four, besides
    those of the order it adds; on an unknown identifier neither makes any. *)
Theorem orderbook_implements_spec cs :
  Forall valid cs →
  ∃ s', run_calls cs empty_book = (Ret (spec_calls cs (Spec.mk [] [])).1, s') ∧
    view s' = (spec_calls cs (Spec.mk [] [])).2 ∧
    calls_log cs (Spec.mk [] []) (violations s').
Proof.
  intros Hcs.
  destruct (run_calls_spec cs empty_book Hcs at_rest_empty) as (s' & Heq & _ & Hv & vs & Hvs & Hlog).
  exists s'. split_and!; [done..|]. by rewrite Hvs.
Qed.

Lemma orderbook_implements_spec_witness :
  let cs := book_calls ++ [Add FillAndKill 4 Sell 100 20; Cancel 3] in
  ∃ s', run_calls cs empty_book = (Ret (spec_calls cs (Spec.mk [] [])).1, s') ∧
    view s' = (spec_calls cs (Spec.mk [] [])).2 ∧
    calls_log cs (Spec.mk [] []) (violations s').
Proof. apply orderbook_implements_spec. unfold valid, book_calls. simpl. repeat constructor; lia. Defined.

(** The kinds of accesses that the last two calls make: two orders are filled,
    the rest of the fill-and-kill order is cancelled, two levels are emptied
    one after the other, and the order 3 is cancelled. *)
Example recorded_accesses :
  let vs := violations
    (run_calls (book_calls ++ [Add FillAndKill 4 Sell 100 20; Cancel 3]) empty_book).2 in
  (node_accesses vs, level_accesses vs, entry_accesses vs) = (6, 2, 6)%nat.
Proof. vm_compute. reflexivity. Qed.

(** C2. In every state a client can reach, the two maps are sorted by their
    comparators, no level is empty, the hash map indexes exactly the resting
    orders at their own list nodes, the best bid is below the best ask and no
    fill-and-kill order rests. *)
Theorem reachable_invariant s :
  reachable s →
  wf s ∧
  (∀ x y, x ∈ resting Buy s → y ∈ resting Sell s → Order.price_ x < Order.price_ y) ∧
  (∀ side x, x ∈ resting side s → Order.orderType_ x = GoodTillCancel).
Proof.
  intros [Hwf [Hu Hf]]%reachable_at_rest. split_and!; [done|exact Hu|].
  intros side x Hx. rewrite Forall_forall in Hf.
  assert (¬ Spec.is_fak x) as Hn.
  { apply Hf. simpl. rewrite elem_of_app. destruct side; auto. }
  unfold Spec.is_fak in Hn. by destruct (Order.orderType_ x).
Qed.

Lemma reachable_invariant_witness :
  let s := (perform (Add GoodTillCancel 1 Buy 100 10) empty_book).2 in
  wf s ∧
  (∀ x y, x ∈ resting Buy s → y ∈ resting Sell s → Order.price_ x < Order.price_ y) ∧
  (∀ side x, x ∈ resting side s → Order.orderType_ x = GoodTillCancel).
Proof.
  apply reachable_invariant.
  apply (reachable_step empty_book (Add GoodTillCancel 1 Buy 100 10) []);
    [constructor|simpl; lia|reflexivity].
Defined.

(** C3. The two nested loops of [MatchOrders] terminate and the function
    returns, from any well-formed book, crossed or not. *)
Theorem MatchOrders_terminates s : wf s → ∃ ts s', MatchOrders s = (Ret ts, s') ∧ wf s'.
Proof. intros Hwf. destruct (MatchOrders_spec s Hwf) as (s' & Heq & Hwf' & _). eauto. Qed.

Lemma MatchOrders_terminates_witness : ∃ ts s', MatchOrders book0 = (Ret ts, s') ∧ wf s'.
Proof. apply MatchOrders_terminates, at_rest_wf, at_rest_book0. Defined.

(** ** [AddOrder] *)

(** C4. Every trade of [AddOrder] is for one quantity on both sides, at a bid
    price that is not below the ask price, and one of its two parties is the
    added order. *)
Theorem AddOrder_trades s p o ts s' :
  at_rest s → heap s !! p = Some o → order_ok o → AddOrder p s = (Ret ts, s') →
  Forall (λ t, Spec.fair t ∧ Spec.incoming o t) ts.
Proof.
  intros Hs Ho Hok Heq. destruct (AddOrder_outcome _ _ _ _ _ Hs Ho Hok Heq) as (-> & _).
  pose proof (at_rest_wf s Hs) as Hwf.
  apply Spec.add_trades; [by apply at_rest_quiet|by apply (view_sorted Buy)|by apply (view_sorted Sell)].
Qed.

Lemma AddOrder_trades_witness :
  Forall (λ t, Spec.fair t ∧ Spec.incoming seller t)
    [Spec.trade (Order.create GoodTillCancel 2 Buy 101 5) seller;
     Spec.trade (Order.create GoodTillCancel 1 Buy 100 10)
       (Order.create GoodTillCancel 9 Sell 100 7)].
Proof.
  apply (AddOrder_trades (with_order seller) 4 seller _ (AddOrder 4 (with_order seller)).2
    (at_rest_with_order seller)); [reflexivity|conc|vm_compute; reflexivity].
Defined.

(** C5. Adding a good-till-cancel order neither creates nor loses quantity: on
    both sides the open quantity after the call plus the traded quantity is
    the open quantity before it, plus the order's own on its side. *)
Theorem AddOrder_conserves s p o ts s' side :
  at_rest s → heap s !! p = Some o → order_ok o → Order.orderType_ o = GoodTillCancel →
  orders_ s !! Order.orderId_ o = None → AddOrder p s = (Ret ts, s') →
  Spec.open_quantity (resting side s') + Spec.traded ts =
  Spec.open_quantity (resting side s) +
    (if decide (Order.side_ o = side) then Order.remainingQuantity_ o else 0).
Proof.
  intros Hs Ho Hok Hgtc Hfree Heq.
  destruct (AddOrder_outcome _ _ _ _ _ Hs Ho Hok Heq) as (-> & Hv & _).
  rewrite <-!side_of_view, Hv. apply Spec.add_conserves; [by apply at_rest_quiet| |by apply free_ids].
  unfold Spec.is_fak. by rewrite Hgtc.
Qed.

Lemma AddOrder_conserves_witness :
  Spec.open_quantity (resting Buy (AddOrder 4 (with_order seller)).2) + 12 = 15 + 0.
Proof.
  apply (AddOrder_conserves (with_order seller) 4 seller
    [Spec.trade (Order.create GoodTillCancel 2 Buy 101 5) seller;
     Spec.trade (Order.create GoodTillCancel 1 Buy 100 10) (Order.create GoodTillCancel 9 Sell 100 7)]
    (AddOrder 4 (with_order seller)).2 Buy (at_rest_with_order seller));
    [reflexivity|conc|reflexivity|reflexivity|vm_compute; reflexivity].
Defined.

(** C6. A good-till-cancel order that crosses nothing trades nothing and rests
    by price-time priority: behind every order of its side that is not worse,
    in front of every order that is worse, whose order is unchanged. *)
Theorem AddOrder_priority s p o :
  at_rest s → heap s !! p = Some o → order_ok o → Order.orderType_ o = GoodTillCancel →
  orders_ s !! Order.orderId_ o = None → CanMatch (Order.side_ o) (Order.price_ o) s = false →
  ∃ s' l1 l2, AddOrder p s = (Ret [], s') ∧
    resting (Order.side_ o) s = l1 ++ l2 ∧ resting (Order.side_ o) s' = l1 ++ o :: l2 ∧
    Forall (λ x, cmp (Order.side_ o) (Order.price_ o) (Order.price_ x) = false) l1 ∧
    Forall (λ x, cmp (Order.side_ o) (Order.price_ o) (Order.price_ x) = true) l2.
Proof.
  intros Hs Ho Hok Hgtc Hfree Hcan. pose proof (at_rest_wf s Hs) as Hwf.
  destruct (AddOrder_spec s p o Hs Ho Hok) as (s' & Heq & _ & Hv & _).
  pose proof (view_sorted (Order.side_ o) s Hwf) as Hsort.
  assert (Spec.add o (view s) = ([], Spec.place_in o (view s))) as Hadd.
  { apply Spec.add_no_cross.
    - by apply at_rest_quiet.
    - unfold Spec.is_fak. by rewrite Hgtc.
    - by apply free_ids.
    - by rewrite <-CanMatch_view.
    - by apply (view_sorted Buy).
    - by apply (view_sorted Sell). }
  rewrite Hadd in Heq, Hv.
  destruct (Spec.place_split (Order.side_ o) o _ Hsort) as (l1 & l2 & Hl & Hp & ? & ?).
  exists s', l1, l2. split_and!; try done. rewrite <-side_of_view, Hv, <-Hp.
  unfold Spec.place_in. by destruct (Order.side_ o).
Qed.

Lemma AddOrder_priority_witness :
  ∃ s' l1 l2, AddOrder 4 (with_order quiet_seller) = (Ret [], s') ∧
    resting Sell (with_order quiet_seller) = l1 ++ l2 ∧ resting Sell s' = l1 ++ quiet_seller :: l2 ∧
    Forall (λ x, cmp Sell 105 (Order.price_ x) = false) l1 ∧
    Forall (λ x, cmp Sell 105 (Order.price_ x) = true) l2.
Proof.
  apply (AddOrder_priority (with_order quiet_seller) 4 quiet_seller (at_rest_with_order quiet_seller));
    [reflexivity|conc|reflexivity|reflexivity|reflexivity].
Defined.

(** A fill-and-kill order never rests: whatever it trades, after the call
    its identifier is in neither side of the book nor in the hash map. *)
Theorem AddOrder_fill_and_kill s p o ts s' :
  at_rest s → heap s !! p = Some o → order_ok o → Order.orderType_ o = FillAndKill →
  orders_ s !! Order.orderId_ o = None → AddOrder p s = (Ret ts, s') →
  (Order.orderId_ o ∉ Spec.ids (view s')) ∧ orders_ s' !! Order.orderId_ o = None.
Proof.
  intros Hs Ho Hok Hfak Hfree Heq.
  destruct (AddOrder_outcome _ _ _ _ _ Hs Ho Hok Heq) as (_ & Hv & Hs' & _).
  assert (Order.orderId_ o ∉ Spec.ids (view s')) as Hn.
  { rewrite Hv. apply Spec.add_fak_gone; [exact Hfak|by apply free_ids]. }
  split; [done|]. apply eq_None_not_Some. intros Hsome.
  pose proof (contains_view s' (Order.orderId_ o) (at_rest_wf s' Hs')) as Hc.
  unfold contains in Hc. by rewrite (bool_decide_eq_true_2 _ Hsome), (bool_decide_eq_false_2 _ Hn) in Hc.
Qed.

Lemma AddOrder_fill_and_kill_witness :
  let s' := (AddOrder 4 (with_order killer)).2 in
  (9 ∉ Spec.ids (view s')) ∧ orders_ s' !! 9 = None.
Proof.
  apply (AddOrder_fill_and_kill (with_order killer) 4 killer
    [Spec.trade (Order.create GoodTillCancel 2 Buy 101 5) killer;
     Spec.trade (Order.create GoodTillCancel 1 Buy 100 10) (Order.create FillAndKill 9 Sell 100 35)]
    (AddOrder 4 (with_order killer)).2 (at_rest_with_order killer));
    [reflexivity|conc|reflexivity|reflexivity|vm_compute; reflexivity].
Defined.

(** [AddOrder] refuses an order whose identifier is in use, and a
    fill-and-kill order that crosses nothing: no trade, and not one member of
    the book or byte of the store changes. *)
Theorem AddOrder_refuses s p o :
  heap s !! p = Some o →
  is_Some (orders_ s !! Order.orderId_ o) ∨
    (Order.orderType_ o = FillAndKill ∧ CanMatch (Order.side_ o) (Order.price_ o) s = false) →
  AddOrder p s = (Ret [], s).
Proof.
  intros Ho Hor. unfold AddOrder.
  run by (unfold deref, Prelude.from_option; rewrite Ho; reflexivity). rewrite gets_bind.
  unfold contains, Order.GetOrderId. case_bool_decide as Hin; [done|].
  destruct Hor as [?|[Hfak Hcan]]; [done|]. rewrite gets_bind.
  unfold Order.GetSide, Order.GetPrice, Order.GetOrderType. by rewrite Hfak, Hcan.
Qed.

Lemma AddOrder_refuses_witness :
  AddOrder 4 (with_order (Order.create FillAndKill 9 Sell 102 1)) =
    (Ret [], with_order (Order.create FillAndKill 9 Sell 102 1)).
Proof.
  apply (AddOrder_refuses _ 4 (Order.create FillAndKill 9 Sell 102 1)); [reflexivity|].
  right. split; reflexivity.
Defined.

(** ** [CancelOrder] and [MatchOrder] *)

(** [CancelOrder] returns; it removes exactly the order with that
    identifier from the two sides and from the hash map, and leaves the
    remaining orders in their order.  On an order that is in the book it
    dereferences the erased hash node three times (its [order] and [iterator]
    are references into the entry that [orders_.erase] destroyed); on an
    unknown identifier it does nothing. *)
Theorem CancelOrder_removes s id :
  at_rest s →
  ∃ s', CancelOrder id s = (Ret tt, s') ∧ at_rest s' ∧
    (∀ side, resting side s' = filter (λ o, Order.orderId_ o ≠ id) (resting side s)) ∧
    orders_ s' = delete id (orders_ s) ∧
    violations s' =
      violations s ++ (if contains id s then replicate 3 (dangling_entry id) else []).
Proof.
  intros [Hwf Hq]. destruct (CancelOrder_cancels s id Hwf) as (s' & ? & ? & Hv & ? & _ & _ & ?).
  exists s'. split_and!; try done.
  - split; [done|]. rewrite Hv. by apply Spec.cancel_quiet.
  - intros side. rewrite <-!side_of_view, Hv. by destruct side.
Qed.

Lemma CancelOrder_removes_witness :
  ∃ s', CancelOrder 2 book0 = (Ret tt, s') ∧ at_rest s' ∧
    (∀ side, resting side s' = filter (λ o, Order.orderId_ o ≠ 2) (resting side book0)) ∧
    orders_ s' = delete 2 (orders_ book0) ∧
    violations s' =
      violations book0 ++ (if contains 2 book0 then replicate 3 (dangling_entry 2) else []).
Proof. apply (CancelOrder_removes book0 2 at_rest_book0). Defined.

(** C8. Adding an order that crosses nothing and cancelling it gives back the
    same resting orders on both sides. *)
Theorem add_cancel_roundtrip s p o :
  at_rest s → heap s !! p = Some o → order_ok o → Order.orderType_ o = GoodTillCancel →
  orders_ s !! Order.orderId_ o = None → CanMatch (Order.side_ o) (Order.price_ o) s = false →
  ∃ s1 s2, AddOrder p s = (Ret [], s1) ∧ CancelOrder (Order.orderId_ o) s1 = (Ret tt, s2) ∧
    view s2 = view s.
Proof.
  intros Hs Ho Hok Hgtc Hfree Hcan. pose proof (at_rest_wf s Hs) as Hwf.
  pose proof (view_sorted Buy s Hwf) as Hsb. pose proof (view_sorted Sell s Hwf) as Hsa.
  destruct (AddOrder_spec s p o Hs Ho Hok) as (s1 & Heq & Hs1 & Hv1 & _).
  destruct (CancelOrder_spec s1 (Order.orderId_ o) Hs1) as (s2 & Heq2 & _ & Hv2 & _).
  assert (Spec.add o (view s) = ([], Spec.place_in o (view s))) as Hadd.
  { apply Spec.add_no_cross; try done; [by apply at_rest_quiet| |by apply free_ids|].
    - unfold Spec.is_fak. by rewrite Hgtc.
    - by rewrite <-CanMatch_view. }
  rewrite Hadd in Heq, Hv1. exists s1, s2. split_and!; [done..|].
  rewrite Hv2, Hv1. apply Spec.cancel_place; [by apply free_ids|done..].
Qed.

Lemma add_cancel_roundtrip_witness :
  ∃ s1 s2, AddOrder 4 (with_order quiet_seller) = (Ret [], s1) ∧ CancelOrder 9 s1 = (Ret tt, s2) ∧
    view s2 = view (with_order quiet_seller).
Proof.
  apply (add_cancel_roundtrip (with_order quiet_seller) 4 quiet_seller (at_rest_with_order quiet_seller));
    [reflexivity|conc|reflexivity|reflexivity|reflexivity].
Defined.

(** C7. [MatchOrder] (the modification of an order) is a cancellation followed
    by the addition of an order with the new terms and the old order's type;
    on an unknown identifier it changes nothing.  When the order exists it
    first makes four accesses to the erased hash node: three in
    [CancelOrder], and its own [existingOrder->GetOrderType()]. *)
Theorem MatchOrder_replaces s m :
  at_rest s → modify_ok m →
  ∃ s', MatchOrder m s = (Ret (Spec.modify m (view s)).1, s') ∧ at_rest s' ∧
    view s' = (Spec.modify m (view s)).2 ∧
    ∃ vs, violations s' = violations s ++ vs ∧
      if contains (OrderModify.orderId_ m) s
      then replicate 4 (dangling_entry (OrderModify.orderId_ m)) `prefix_of` vs
      else vs = [].
Proof.
  intros Hs Hm. destruct (MatchOrder_spec s m Hs Hm) as (s' & ? & ? & ? & ? & _). by exists s'.
Qed.

Lemma MatchOrder_replaces_witness :
  let m := OrderModify.mk 2 104 Buy 6 in
  ∃ s', MatchOrder m book0 = (Ret (Spec.modify m (view book0)).1, s') ∧ at_rest s' ∧
    view s' = (Spec.modify m (view book0)).2 ∧
    ∃ vs, violations s' = violations book0 ++ vs ∧
      if contains 2 book0 then replicate 4 (dangling_entry 2) `prefix_of` vs else vs = [].
Proof. apply (MatchOrder_replaces book0 (OrderModify.mk 2 104 Buy 6) at_rest_book0). conc. Defined.

(** ** Lifetimes *)

(** [AddOrder] accesses erased nodes if and only if it trades: no access
    when it produces no trade, and at least three accesses for every trade it
    produces ([bid]/[ask] after [pop_front], in [orders_.erase] and in the
    trade that is recorded). *)
Theorem AddOrder_lifetimes s p o ts s' :
  at_rest s → heap s !! p = Some o → order_ok o → AddOrder p s = (Ret ts, s') →
  ∃ vs, violations s' = violations s ++ vs ∧
    (3 * length ts <= length vs)%nat ∧ (ts = [] ↔ vs = []).
Proof.
  intros Hs Ho Hok Heq.
  destruct (AddOrder_outcome _ _ _ _ _ Hs Ho Hok Heq) as (_ & _ & _ & vs & Hvs & Hlen & Hnone).
  exists vs. split_and!; [done..|]. split; [done|]. intros ->. destruct ts; [done|]. simpl in Hlen. lia.
Qed.

Lemma AddOrder_lifetimes_witness :
  ∃ vs, violations (AddOrder 4 (with_order seller)).2 = [] ++ vs ∧
    (3 * 2 <= length vs)%nat ∧
    ([Spec.trade (Order.create GoodTillCancel 2 Buy 101 5) seller;
      Spec.trade (Order.create GoodTillCancel 1 Buy 100 10) (Order.create GoodTillCancel 9 Sell 100 7)] = []
     ↔ vs = []).
Proof.
  apply (AddOrder_lifetimes (with_order seller) 4 seller
    [Spec.trade (Order.create GoodTillCancel 2 Buy 101 5) seller;
     Spec.trade (Order.create GoodTillCancel 1 Buy 100 10) (Order.create GoodTillCancel 9 Sell 100 7)]
    (AddOrder 4 (with_order seller)).2 (at_rest_with_order seller));
    [reflexivity|conc|vm_compute; reflexivity].
Defined.

(** ** [GetOrderInfos] *)

(** The quantity resting at a level. *)
Definition level_total (s : Orderbook) (l : OrderPointers) : Z :=
  zsum (Order.remainingQuantity_ <$> omap (λ e, heap s !! e.2) l).

Lemma accumulate_eq h (l : OrderPointers) acc :
  (∀ e, e ∈ l → is_Some (h !! e.2)) →
  foldl (λ acc e,
      runningSum ← acc;
      match (h : gmap OrderPointer Order.t) !! e.2 with
      | Some o => Ret (u32 (u64 (runningSum + Order.GetRemainingQuantity o)))
      | None => Undef null_dereference
      end) (Ret (u32 acc)) l =
  Ret (u32 (acc + zsum (Order.remainingQuantity_ <$> omap (λ e, h !! e.2) l))).
Proof.
  revert acc. induction l as [|e l IH]; intros acc Hl.
  - simpl. by rewrite Z.add_0_r.
  - destruct (Hl e) as [o Ho]; [by left|]. rewrite (omap_cons_Some _ _ o) by done.
    cbn [foldl]. rewrite Ho. unfold mbind, outcome_bind, Order.GetRemainingQuantity.
    rewrite u32_u64, u32_add_l. etrans; [apply IH; intros e' He'; apply Hl; by right|].
    rewrite fmap_cons, zsum_cons. do 2 f_equal. lia.
Qed.

Lemma level_infos_eq s side :
  wf s →
  mapM (λ lvl, CreateLevelInfos (heap s) lvl.1 lvl.2) (levels side s) =
  Ret ((λ lvl, LevelInfo.mk lvl.1 (u32 (level_total s lvl.2))) <$> levels side s).
Proof.
  intros Hwf.
  assert (∀ pr l e, (pr, l) ∈ levels side s → e ∈ l → is_Some (heap s !! e.2)) as Hsome.
  { intros pr l e Hl He. destruct (wf_rests s Hwf _ _ _ _ Hl He) as (o & Ho & _). by eexists. }
  induction (levels side s) as [|[pr l] m IH]; [done|]. cbn [mapM fmap list_fmap].
  assert (CreateLevelInfos (heap s) pr l = Ret (LevelInfo.mk pr (u32 (level_total s l)))) as Hl.
  { unfold CreateLevelInfos. pose proof (accumulate_eq (heap s) l 0) as Ha.
    change (u32 0) with 0 in Ha. rewrite Ha; [done|]. intros e He. eapply Hsome; [by left|done]. }
  simpl. rewrite Hl. rewrite IH; [done|]. intros pr' l' e Hin. eapply Hsome. by right.
Qed.

(** [GetOrderInfos] lists the levels of each side from the best price,
    each with the sum of the remaining quantities of its orders modulo 2^32;
    where that sum fits in 32 bits it is the level's quantity. *)
Theorem GetOrderInfos_levels s :
  wf s →
  GetOrderInfos s = Ret (OrderbookLevelInfos.mk
    ((λ lvl, LevelInfo.mk lvl.1 (u32 (level_total s lvl.2))) <$> bids_ s)
    ((λ lvl, LevelInfo.mk lvl.1 (u32 (level_total s lvl.2))) <$> asks_ s)) ∧
  ∀ side pr l, (pr, l) ∈ levels side s → level_total s l < 2 ^ 32 →
    u32 (level_total s l) = level_total s l.
Proof.
  intros Hwf. split.
  - unfold GetOrderInfos. pose proof (level_infos_eq s Buy Hwf) as Hb.
    pose proof (level_infos_eq s Sell Hwf) as Ha. cbn [levels] in Hb, Ha. rewrite Hb. simpl.
    by rewrite Ha.
  - intros side pr l Hl Hlt. apply u32_id. split; [|done]. apply zsum_nonneg, Forall_forall.
    intros q (o & -> & (e & He & Ho)%list_elem_of_omap)%list_elem_of_fmap.
    destruct (wf_rests s Hwf _ _ _ _ Hl He) as (o' & Ho' & _ & _ & [Hok _] & _).
    assert (o' = o) as -> by congruence. lia.
Qed.

Lemma GetOrderInfos_levels_witness :
  GetOrderInfos book0 = Ret (OrderbookLevelInfos.mk
    ((λ lvl, LevelInfo.mk lvl.1 (u32 (level_total book0 lvl.2))) <$> bids_ book0)
    ((λ lvl, LevelInfo.mk lvl.1 (u32 (level_total book0 lvl.2))) <$> asks_ book0)) ∧
  ∀ side pr l, (pr, l) ∈ levels side book0 → level_total book0 l < 2 ^ 32 →
    u32 (level_total book0 l) = level_total book0 l.
Proof. apply (GetOrderInfos_levels book0), at_rest_wf, at_rest_book0. Defined.

(** Two orders of 2^31 at one price. *)
Definition wide_book : Orderbook :=
  (run_calls [Add GoodTillCancel 1 Buy 100 (2 ^ 31); Add GoodTillCancel 2 Buy 100 (2 ^ 31)]
     empty_book).2.

(** The level quantity wraps around: with two resting orders of 2^31 units
    each at one price, [GetOrderInfos] reports a level of quantity 0. *)
Theorem GetOrderInfos_wraps :
  reachable wide_book ∧ resting Buy wide_book =
    [Order.create GoodTillCancel 1 Buy 100 (2 ^ 31); Order.create GoodTillCancel 2 Buy 100 (2 ^ 31)] ∧
  GetOrderInfos wide_book = Ret (OrderbookLevelInfos.mk [LevelInfo.mk 100 0] []).
Proof.
  split_and!; [|reflexivity|reflexivity].
  apply (reachable_step (perform (Add GoodTillCancel 1 Buy 100 (2 ^ 31)) empty_book).2
           (Add GoodTillCancel 2 Buy 100 (2 ^ 31)) []); [|simpl; lia|vm_compute; reflexivity].
  apply (reachable_step empty_book (Add GoodTillCancel 1 Buy 100 (2 ^ 31)) []);
    [constructor|simpl; lia|vm_compute; reflexivity].
Qed.

(** ** [Order::Fill] *)

(** [Fill] throws [logic_error] exactly when asked for more than what
    remains; otherwise it moves the quantity from remaining to filled without
    wrapping around, keeps every other field, and the order is filled exactly
    when all of what remained was asked for. *)
Theorem Fill_behaviour q o :
  order_ok o → 0 <= q →
  if q >? Order.remainingQuantity_ o then Order.Fill q o = Throw logic_error
  else ∃ o', Order.Fill q o = Ret o' ∧ order_ok o' ∧ Spec.same_terms o o' ∧
    Order.GetRemainingQuantity o' = Order.GetRemainingQuantity o - q ∧
    Order.GetFilledQuantity o' = Order.GetFilledQuantity o + q ∧
    Order.IsFilled o' = (q =? Order.remainingQuantity_ o).
Proof.
  intros Hok Hq. destruct (q >? _) eqn:E.
  - unfold Order.Fill, Order.GetRemainingQuantity. by rewrite E.
  - zbool. exists (Spec.reduce q o). assert (0 <= q <= Order.remainingQuantity_ o) as Hr by lia.
    rewrite Fill_ok by done. pose proof (reduce_ok q o Hok Hr). destruct Hok.
    split_and!; try done.
    + unfold Order.GetFilledQuantity, Order.GetInitialQuantity, Order.GetRemainingQuantity. simpl.
      rewrite !u32_id by lia. lia.
    + rewrite Spec.reduce_filled. apply Z.eqb_sym.
Qed.

Lemma Fill_behaviour_witness :
  ∃ o', Order.Fill 5 seller = Ret o' ∧ order_ok o' ∧ Spec.same_terms seller o' ∧
    Order.GetRemainingQuantity o' = 12 - 5 ∧ Order.GetFilledQuantity o' = 0 + 5 ∧
    Order.IsFilled o' = (5 =? 12).
Proof. apply (Fill_behaviour 5 seller); [conc|lia]. Defined.

(** [main] prints the sizes 1 and 0, and its [CancelOrder] makes the three
    accesses to the erased hash node. *)
Theorem main_sizes :
  (main empty_book).1 = Ret (1%nat, 0%nat) ∧
  violations (main empty_book).2 = replicate 3 (dangling_entry 1).
Proof. split; reflexivity. Qed.
