(* ===== verification/Fenwick.v ===== *)
(** The Fenwick tree of algorithms-data-structures/c++/fenwick_tree/main.cpp,
    on 32-bit [int]s: [update_tree], [get_sum] and [construct_tree] with their
    array accesses and signed overflows, and the prefix sums they compute. *)

From S2P Require Import Prelude.

(** ** The code *)

(** [index & (-index)]. *)
Definition low_bit (index : Z) : outcome Z :=
  neg ← int_neg index;
  Ret (Z.land index neg).

(** [while (index <= n) { fenwick_tree[index] += val; index += index & (-index); }]. *)
Fixpoint update_loop (fuel : nat) (fenwick_tree : list Z) (n index val : Z) : outcome (list Z) :=
  match fuel with
  | O => OutOfFuel
  | S fuel =>
      if index <=? n then
        old ← array_get fenwick_tree index;
        new ← int_add old val;
        fenwick_tree ← array_set fenwick_tree index new;
        b ← low_bit index;
        index ← int_add index b;
        update_loop fuel fenwick_tree n index val
      else Ret fenwick_tree
  end.

Definition update_tree (fuel : nat) (fenwick_tree : list Z) (n index val : Z) : outcome (list Z) :=
  index ← int_add index 1;
  update_loop fuel fenwick_tree n index val.

(** [while (index > 0) { sum += fenwick_tree[index]; index -= index & (-index); }]. *)
Fixpoint sum_loop (fuel : nat) (fenwick_tree : list Z) (index sum : Z) : outcome Z :=
  match fuel with
  | O => OutOfFuel
  | S fuel =>
      if index >? 0 then
        x ← array_get fenwick_tree index;
        sum ← int_add sum x;
        b ← low_bit index;
        index ← int_sub index b;
        sum_loop fuel fenwick_tree index sum
      else Ret sum
  end.

Definition get_sum (fuel : nat) (fenwick_tree : list Z) (index : Z) : outcome Z :=
  index ← int_add index 1;
  sum_loop fuel fenwick_tree index 0.

(** [for (int i = 0; i < n; i++) update_tree(fenwick_tree, n, i, arr[i]);], for
    the [todo] iterations left from [i] on. *)
Fixpoint construct_loop (todo fuel : nat) (fenwick_tree arr : list Z) (n i : Z) : outcome (list Z) :=
  match todo with
  | O => Ret fenwick_tree
  | S todo =>
      x ← array_get arr i;
      fenwick_tree ← update_tree fuel fenwick_tree n i x;
      construct_loop todo fuel fenwick_tree arr n (i + 1)
  end.

(** [new int[n + 1]{0}], which throws when there is no room for the initialiser,
    and the loop over [i]. *)
Definition construct_tree (fuel : nat) (arr : list Z) (n : Z) : outcome (list Z) :=
  m ← int_add n 1;
  if m <? 1 then Throw bad_array_new_length else
  construct_loop (Z.to_nat n) fuel (replicate (Z.to_nat m) 0) arr n 0.

Definition freq : list Z := [2; 1; 1; 3; 2; 3; 4; 5; 6; 7; 8; 9].

(** What [main] prints after the label. *)
Definition main (fuel : nat) : outcome Z :=
  let n := Z.of_nat (length freq) in
  fenwick_tree ← construct_tree fuel freq n;
  get_sum fuel fenwick_tree 5.

(** ** The lowest set bit *)

Definition lb (i : Z) : Z := Z.land i (- i).

Lemma lb_double i : lb (2 * i) = 2 * lb i.
Proof.
  unfold lb. replace (- (2 * i)) with (2 * - i) by lia.
  rewrite !(Z.mul_comm 2), <-!(Z.shiftl_mul_pow2 _ 1) by lia. symmetry. apply Z.shiftl_land.
Qed.

Lemma lb_odd i : lb (2 * i + 1) = 1.
Proof.
  unfold lb. replace (- (2 * i + 1)) with (2 * Z.lnot i + 1) by (unfold Z.lnot; lia).
  apply Z.bits_inj'. intros n Hn. rewrite Z.land_spec.
  destruct (Z.eq_dec n 0) as [->|Hn0]; [by rewrite !Z.testbit_odd_0|].
  replace n with (Z.succ (n - 1)) by lia.
  rewrite !Z.testbit_odd_succ, Z.lnot_spec, andb_negb_r by lia.
  symmetry. change 1 with (2 * 0 + 1). rewrite Z.testbit_odd_succ by lia. apply Z.bits_0.
Qed.

Lemma lb_form i :
  0 < i → ∃ k a, 0 <= k ∧ 0 <= a ∧ i = (2 * a + 1) * 2 ^ k ∧ lb i = 2 ^ k.
Proof.
  intros Hi. destruct i as [|p|]; [lia| |lia]. clear Hi. induction p as [p _|p IH|].
  - exists 0, (Z.pos p). split_and!; [lia|lia|lia|apply (lb_odd (Z.pos p))].
  - destruct IH as (k & a & Hk & Ha & Hp & Hl). exists (k + 1), a.
    rewrite Z.pow_add_r by lia. split_and!; [lia|lia|lia|].
    change (Z.pos p~0) with (2 * Z.pos p). rewrite lb_double. lia.
  - exists 0, 0. done.
Qed.

Lemma lb_bounds i : 0 < i → 0 < lb i <= i.
Proof.
  intros Hi. destruct (lb_form i Hi) as (k & a & Hk & Ha & -> & ->).
  pose proof (Z.pow_pos_nonneg 2 k ltac:(lia) Hk). nia.
Qed.

Lemma lb_range i : 0 <= i → 0 <= lb i <= i.
Proof.
  intros Hi. destruct (decide (i = 0)) as [->|]; [done|]. pose proof (lb_bounds i). lia.
Qed.

Lemma lb_pow k c : 0 <= k → lb (2 ^ k * c) = 2 ^ k * lb c.
Proof.
  revert k. apply natlike_ind; [by rewrite !Z.mul_1_l|]. intros k Hk IH.
  by rewrite Z.pow_succ_r, <-!Z.mul_assoc, lb_double, IH by lia.
Qed.

Lemma lb_pow_ge k c : 0 <= k → 0 < c → 2 ^ k <= lb (2 ^ k * c).
Proof.
  intros Hk Hc. rewrite lb_pow by done. pose proof (lb_bounds c Hc).
  pose proof (Z.pow_pos_nonneg 2 k ltac:(lia) Hk). nia.
Qed.

(** Each iteration at least doubles the lowest set bit. *)
Lemma lb_up p : 0 < p → 2 * lb p <= lb (p + lb p).
Proof.
  intros Hp. destruct (lb_form p Hp) as (k & a & Hk & Ha & Hpk & ->).
  replace (p + 2 ^ k) with (2 ^ Z.succ k * (a + 1)) by (rewrite Z.pow_succ_r; lia).
  rewrite <-Z.pow_succ_r by done. apply lb_pow_ge; lia.
Qed.

Lemma lb_down p : 0 < p → 0 < p - lb p → 2 * lb p <= lb (p - lb p).
Proof.
  intros Hp. destruct (lb_form p Hp) as (k & a & Hk & Ha & Hpk & ->).
  pose proof (Z.pow_pos_nonneg 2 k ltac:(lia) Hk) as HP.
  replace (p - 2 ^ k) with (2 ^ Z.succ k * a) by (rewrite Z.pow_succ_r; lia).
  rewrite <-Z.pow_succ_r by done. intros Hpos. apply lb_pow_ge; [lia|].
  rewrite Z.pow_succ_r in Hpos by done. nia.
Qed.

(** The node [i] of the tree covers the positions [i - lb i + 1 .. i]. *)
Definition covers (i p : Z) : Prop := i - lb i < p <= i.

(** From a covered position, the walk upwards stays covered until it arrives. *)
Lemma covers_step i p : 0 < p < i → covers i p ↔ covers i (p + lb p).
Proof.
  intros Hp. unfold covers.
  destruct (lb_form p) as (k & a & Hk & Ha & Hpk & ->); [lia|].
  destruct (lb_form i) as (m & c & Hm & Hc & Him & ->); [lia|].
  pose proof (Z.pow_pos_nonneg 2 k ltac:(lia) Hk) as HP.
  pose proof (Z.pow_pos_nonneg 2 m ltac:(lia) Hm) as HQ.
  destruct (Z.lt_trichotomy k m) as [Hkm|[->|Hkm]].
  - replace (2 ^ m) with (2 ^ k * (2 * 2 ^ (m - k - 1))) in *.
    2: { rewrite <-(Z.pow_succ_r 2 (m - k - 1)), <-Z.pow_add_r by lia. f_equal. lia. }
    set (P := 2 ^ k) in *. set (t := 2 ^ (m - k - 1)) in *.
    assert (p = P * (2 * a + 1)) as -> by lia.
    assert (i = P * (4 * (c * t) + 2 * t)) as -> by lia. clear Him Hpk.
    replace (P * (4 * (c * t) + 2 * t) - P * (2 * t)) with (P * (4 * (c * t))) by lia.
    replace (P * (2 * a + 1) + P) with (P * (2 * a + 2)) in * by lia.
    destruct Hp as [_ Hp]. rewrite <-!Z.mul_lt_mono_pos_l, <-!Z.mul_le_mono_pos_l in * by done.
    generalize dependent (c * t). intros. lia.
  - set (P := 2 ^ m) in *. assert (p = P * (2 * a + 1)) as -> by lia.
    assert (i = P * (2 * c + 1)) as -> by lia.
    replace (P * (2 * c + 1) - P) with (P * (2 * c)) by lia.
    replace (P * (2 * a + 1) + P) with (P * (2 * a + 2)) in * by lia.
    destruct Hp as [_ Hp]. rewrite <-!Z.mul_lt_mono_pos_l, <-!Z.mul_le_mono_pos_l in * by done. lia.
  - replace (2 ^ k) with (2 ^ m * (2 * 2 ^ (k - m - 1))) in *.
    2: { rewrite <-(Z.pow_succ_r 2 (k - m - 1)), <-Z.pow_add_r by lia. f_equal. lia. }
    set (P := 2 ^ m) in *. set (t := 2 ^ (k - m - 1)) in *.
    assert (p = P * (4 * (a * t) + 2 * t)) as -> by lia.
    assert (i = P * (2 * c + 1)) as -> by lia.
    replace (P * (2 * c + 1) - P) with (P * (2 * c)) by lia.
    replace (P * (4 * (a * t) + 2 * t) + P * (2 * t)) with (P * (4 * (a * t) + 4 * t)) by lia.
    destruct Hp as [_ Hp]. rewrite <-!Z.mul_lt_mono_pos_l, <-!Z.mul_le_mono_pos_l in * by done.
    generalize dependent (a * t). intros. lia.
Qed.

Lemma low_bit_ok i : 0 < i <= INT_MAX → low_bit i = Ret (lb i).
Proof.
  intros Hi. unfold low_bit. by rewrite int_neg_ok by int_lia.
Qed.

(** ** The contents of the tree *)

(** The sum of the first [k] elements. *)
Definition prefix (arr : list Z) (k : Z) : Z := zsum (take (Z.to_nat k) arr).

(** The array of a tree for [n] positions, as a function of the position. *)
Definition holds (tree : list Z) (n : Z) (f : Z → Z) : Prop :=
  length tree = S (Z.to_nat n) ∧ ∀ j, 0 <= j <= n → tree !! Z.to_nat j = Some (f j).

(** Every node holds the sum of the positions it covers. *)
Definition represents (tree arr : list Z) (n : Z) : Prop :=
  holds tree n (λ j, prefix arr j - prefix arr (j - lb j)).

Definition covb (i p : Z) : bool := (i - lb i <? p) && (p <=? i).

Lemma covb_spec i p : covb i p = true ↔ covers i p.
Proof. unfold covb, covers. rewrite andb_true_iff, Z.ltb_lt, Z.leb_le. done. Qed.

Lemma covb_eq i p p' : (covers i p ↔ covers i p') → covb i p = covb i p'.
Proof. intros H. apply eq_bool_prop_intro. rewrite !Is_true_true, !covb_spec. done. Qed.

Lemma covb_after i p : i < p → covb i p = false.
Proof. intros. unfold covb. destruct (p <=? i) eqn:E; zbool; [lia|]. by rewrite andb_false_r. Qed.

Lemma covb_self i : 0 < i → covb i i = true.
Proof. intros Hi. apply covb_spec. unfold covers. pose proof (lb_bounds i Hi). lia. Qed.

Lemma holds_ext tree n f g : (∀ j, 0 <= j <= n → f j = g j) → holds tree n f → holds tree n g.
Proof. intros Hfg [Hl Hf]. split; [done|]. intros j Hj. rewrite <-Hfg by done. by apply Hf. Qed.

Lemma holds_set tree n f p v :
  holds tree n f → 0 <= p <= n →
  holds (<[Z.to_nat p := v]> tree) n (λ j, if j =? p then v else f j).
Proof.
  intros [Hl Hf] Hp. split; [by rewrite length_insert|]. intros j Hj.
  destruct (j =? p) eqn:E; zbool.
  - subst. apply list_lookup_insert_eq. lia.
  - rewrite list_lookup_insert_ne by lia. by apply Hf.
Qed.

(** The update loop returns, and adds [val] to the nodes that cover [p]. *)
Lemma update_loop_ok n val fuel : ∀ p tree f,
  holds tree n f → 0 < p → 2 * n <= INT_MAX →
  (∀ j, p <= j <= n → covb j p = true → in_int (f j + val) = true) →
  n < 2 ^ Z.of_nat fuel * lb p →
  ∃ tree', update_loop (S fuel) tree n p val = Ret tree' ∧
    holds tree' n (λ j, f j + (if covb j p then val else 0)).
Proof.
  induction fuel as [|fuel IH]; intros p tree f Hh Hp Hn Hin Hfuel;
    pose proof (lb_bounds p Hp) as Hlb; cbn [update_loop]; destruct (p <=? n) eqn:E; zbool;
    [lia| | |];
    [exists tree; split; [done|]; eapply holds_ext; [|exact Hh]; intros j Hj; simpl;
     rewrite covb_after by lia; lia| |
     exists tree; split; [done|]; eapply holds_ext; [|exact Hh]; intros j Hj; simpl;
     rewrite covb_after by lia; lia].
  destruct Hh as [Hlen Hf].
  rewrite (array_get_ok tree p (f p)) by (try apply Hf; lia). cbn [mbind outcome_bind].
  rewrite int_add_ok by (apply in_int_spec, Hin; [lia|by apply covb_self]). cbn [mbind outcome_bind].
  rewrite array_set_ok by lia. cbn [mbind outcome_bind].
  rewrite low_bit_ok by lia. cbn [mbind outcome_bind].
  rewrite int_add_ok by int_lia. cbn [mbind outcome_bind].
  assert (∀ j, p < j → covb j p = covb j (p + lb p)) as Hcov.
  { intros j Hj. apply covb_eq, covers_step. lia. }
  destruct (IH (p + lb p) (<[Z.to_nat p := f p + val]> tree) _
    (holds_set tree n f p (f p + val) (conj Hlen Hf) ltac:(lia)))
    as (tree' & Heq & Hh'); [lia|lia| | |].
  - intros j Hj Hc. destruct (j =? p) eqn:Ej; zbool; [lia|]. apply Hin; [lia|].
    by rewrite Hcov by lia.
  - pose proof (lb_up p Hp). rewrite Nat2Z.inj_succ, Z.pow_succ_r in Hfuel by lia.
    pose proof (Z.pow_pos_nonneg 2 (Z.of_nat fuel)). nia.
  - exists tree'. split; [done|]. eapply holds_ext; [|exact Hh']. intros j Hj. simpl.
    destruct (j =? p) eqn:Ej; zbool.
    + subst j. rewrite covb_self, covb_after by lia. lia.
    + destruct (Z.lt_ge_cases j p); [rewrite !covb_after by lia; done|].
      by rewrite Hcov by lia.
Qed.

Lemma prefix_0 arr : prefix arr 0 = 0.
Proof. done. Qed.

Lemma prefix_succ arr i x :
  0 <= i → arr !! Z.to_nat i = Some x → prefix arr (i + 1) = prefix arr i + x.
Proof.
  intros Hi Hx. unfold prefix. replace (Z.to_nat (i + 1)) with (S (Z.to_nat i)) by lia.
  rewrite (take_S_r _ _ x Hx), zsum_app, zsum_cons. unfold zsum. simpl. lia.
Qed.

Lemma prefix_insert arr i x y k :
  0 <= i → arr !! Z.to_nat i = Some x →
  prefix (<[Z.to_nat i := y]> arr) k = prefix arr k + (if i <? k then y - x else 0).
Proof.
  intros Hi Hx. unfold prefix.
  destruct (list_elem_of_split_length _ _ _ Hx) as (l1 & l2 & -> & Hl). rewrite Hl.
  assert (<[length l1 := y]> (l1 ++ x :: l2) = l1 ++ y :: l2) as ->.
  { replace (length l1) with (length l1 + 0)%nat at 1 by lia. by rewrite insert_app_r. }
  destruct (i <? k) eqn:E; zbool.
  - rewrite !take_app, !zsum_app. destruct (Z.to_nat k - length l1)%nat as [|d] eqn:Ed; [lia|].
    cbn [take]. rewrite !zsum_cons. lia.
  - rewrite !take_app_le by lia. lia.
Qed.

(** ** Construction, queries and updates *)

(** Every sum of contiguous elements is an [int]. *)
Definition sums_fit (arr : list Z) (n : Z) : Prop :=
  ∀ a b, 0 <= a <= b → b <= n → in_int (prefix arr b - prefix arr a) = true.

Lemma prefix_split arr a b :
  0 <= a <= b → prefix arr b = prefix arr a + zsum (take (Z.to_nat (b - a)) (drop (Z.to_nat a) arr)).
Proof.
  intros Hab. unfold prefix. rewrite <-zsum_app, take_take_drop. do 2 f_equal. lia.
Qed.

(** Elements of one sign whose total is an [int]. *)
Lemma sums_fit_nonneg arr n :
  Forall (λ x, 0 <= x) arr → zsum arr <= INT_MAX → sums_fit arr n.
Proof.
  intros Hpos Htot a b Hab Hb. apply in_int_spec.
  assert (zsum arr = prefix arr b + zsum (drop (Z.to_nat b) arr)) as Heq.
  { unfold prefix. by rewrite <-zsum_app, take_drop. }
  pose proof (zsum_nonneg _ (Forall_drop _ (Z.to_nat b) _ Hpos)).
  pose proof (zsum_nonneg _ (Forall_take _ (Z.to_nat a) _ Hpos)).
  rewrite (prefix_split arr a b) in * by done. fold (prefix arr a) in *.
  pose proof (zsum_nonneg _
    (Forall_take _ (Z.to_nat (b - a)) _ (Forall_drop _ (Z.to_nat a) _ Hpos))). int_lia.
Qed.

(** The tree after the first [i] elements. *)
Definition partial (arr : list Z) (i j : Z) : Z :=
  prefix arr (Z.min j i) - prefix arr (Z.min (j - lb j) i).

Lemma partial_succ arr i j x :
  0 <= i → 0 <= j → arr !! Z.to_nat i = Some x →
  partial arr (i + 1) j = partial arr i j + (if covb j (i + 1) then x else 0).
Proof.
  intros Hi Hj Hx. unfold partial, covb.
  pose proof (lb_range j Hj) as Hlb. pose proof (prefix_succ arr i x Hi Hx) as Hs.
  assert (∀ k, prefix arr (Z.min k (i + 1)) = prefix arr (Z.min k i) + if i <? k then x else 0)
    as Hmin.
  { intros k. destruct (i <? k) eqn:E; zbool.
    - by rewrite !Z.min_r by lia.
    - rewrite !Z.min_l by lia. lia. }
  rewrite !Hmin. replace (j - lb j <? i + 1) with (negb (i <? j - lb j)).
  2: { destruct (i <? _) eqn:E1, (_ <? i + 1) eqn:E2; zbool; done || lia. }
  destruct (i <? j - lb j) eqn:E1, (i <? j) eqn:E2, (i + 1 <=? j) eqn:E3; zbool; simpl; lia.
Qed.

(** The fuel that [n] positions need. *)
Definition enough (fuel : nat) (n : Z) : Prop := n < 2 ^ Z.of_nat fuel.

Lemma update_tree_ok n fuel p tree f val :
  holds tree n f → 0 <= p < n → 2 * n <= INT_MAX →
  (∀ j, 0 <= j <= n → covb j (p + 1) = true → in_int (f j + val) = true) →
  enough fuel n →
  ∃ tree', update_tree (S fuel) tree n p val = Ret tree' ∧
    holds tree' n (λ j, f j + (if covb j (p + 1) then val else 0)).
Proof.
  unfold enough. intros Hh Hp Hn Hin Hfuel. unfold update_tree.
  rewrite int_add_ok by int_lia. cbn [mbind outcome_bind].
  apply update_loop_ok; try done; try lia.
  - intros j Hj. apply Hin. lia.
  - pose proof (lb_bounds (p + 1)). nia.
Qed.

Lemma construct_loop_ok arr n fuel todo : ∀ i tree,
  holds tree n (partial arr i) → 0 <= i → i + Z.of_nat todo = n →
  n <= Z.of_nat (length arr) → 2 * n <= INT_MAX → sums_fit arr n → enough fuel n →
  ∃ tree', construct_loop todo (S fuel) tree arr n i = Ret tree' ∧ holds tree' n (partial arr n).
Proof.
  induction todo as [|todo IH]; intros i tree Hh Hi Hn Hlen Hmax Hfit Hfuel.
  { exists tree. simpl. by replace i with n in Hh by lia. }
  destruct (lookup_lt_is_Some_2 arr (Z.to_nat i)) as [x Hx]; [lia|].
  cbn [construct_loop]. rewrite (array_get_ok arr i x Hi Hx). cbn [mbind outcome_bind].
  destruct (update_tree_ok n fuel i tree _ x Hh) as (tree1 & -> & Hh1); [lia|lia| |done|].
  { intros j Hj Hc. pose proof (partial_succ arr i j x Hi ltac:(lia) Hx) as Hs.
    rewrite Hc in Hs. rewrite <-Hs. unfold partial. pose proof (lb_range j). apply Hfit; lia. }
  cbn [mbind outcome_bind]. apply IH; try done; try lia.
  eapply holds_ext; [|exact Hh1]. intros j Hj. simpl. symmetry. apply partial_succ; [done|lia|done].
Qed.

Lemma construct_tree_ok arr n fuel :
  0 <= n <= Z.of_nat (length arr) → 2 * n <= INT_MAX → sums_fit arr n → enough fuel n →
  ∃ tree, construct_tree (S fuel) arr n = Ret tree ∧ represents tree arr n.
Proof.
  intros Hn Hmax Hfit Hfuel. unfold construct_tree.
  rewrite int_add_ok by int_lia. cbn [mbind outcome_bind].
  destruct (n + 1 <? 1) eqn:E; zbool; [lia|].
  destruct (construct_loop_ok arr n fuel (Z.to_nat n) 0 (replicate (Z.to_nat (n + 1)) 0))
    as (tree & Heq & Hh); try done; try lia.
  - split; [rewrite length_replicate; lia|]. intros j Hj.
    rewrite lookup_replicate_2 by lia. unfold partial. pose proof (lb_range j).
    by rewrite !Z.min_r, Z.sub_diag by lia.
  - exists tree. split; [done|]. eapply holds_ext; [|exact Hh]. intros j Hj. simpl. unfold partial.
    pose proof (lb_range j). by rewrite !Z.min_l by lia.
Qed.

(** The walk downwards adds up disjoint ranges. *)
Lemma sum_loop_ok arr n tree k fuel : ∀ i sum,
  represents tree arr n → 0 <= i <= k → k <= n → n <= INT_MAX → sums_fit arr n →
  sum = prefix arr k - prefix arr i → i = 0 ∨ i < 2 ^ Z.of_nat fuel * lb i →
  sum_loop (S fuel) tree i sum = Ret (prefix arr k).
Proof.
  induction fuel as [|fuel IH]; intros i sum Hr Hi Hk Hmax Hfit Hsum Hfuel;
    cbn [sum_loop]; destruct (i >? 0) eqn:E; zbool;
    [pose proof (lb_bounds i E); lia
    |assert (i = 0) as -> by lia; rewrite prefix_0 in Hsum; f_equal; lia| 
    |assert (i = 0) as -> by lia; rewrite prefix_0 in Hsum; f_equal; lia].
  pose proof (lb_bounds i E) as Hlb. pose proof Hr as [_ Hf].
  rewrite (array_get_ok tree i _ (proj1 Hi) (Hf i ltac:(lia))). cbn [mbind outcome_bind].
  rewrite int_add_ok.
  2: { apply in_int_spec. subst sum.
       replace (prefix arr k - prefix arr i + (prefix arr i - prefix arr (i - lb i)))
         with (prefix arr k - prefix arr (i - lb i)) by lia. apply Hfit; lia. }
  cbn [mbind outcome_bind]. rewrite low_bit_ok by lia. cbn [mbind outcome_bind].
  rewrite int_sub_ok by int_lia. cbn [mbind outcome_bind]. apply IH; try done; try lia.
  destruct Hfuel as [->|Hfuel]; [lia|].
  destruct (Z.eq_dec (i - lb i) 0) as [|Hne]; [by left|right].
  pose proof (lb_down i E). rewrite Nat2Z.inj_succ, Z.pow_succ_r in Hfuel by lia.
  pose proof (Z.pow_pos_nonneg 2 (Z.of_nat fuel)). nia.
Qed.

Lemma get_sum_ok arr n tree fuel i :
  represents tree arr n → -1 <= i < n → n <= INT_MAX → sums_fit arr n → enough fuel n →
  get_sum (S fuel) tree i = Ret (prefix arr (i + 1)).
Proof.
  unfold enough. intros Hr Hi Hmax Hfit Hfuel. unfold get_sum.
  rewrite int_add_ok by int_lia. cbn [mbind outcome_bind].
  apply (sum_loop_ok arr n); try done; try lia.
  destruct (Z.eq_dec (i + 1) 0) as [|Hne]; [by left|right].
  pose proof (lb_bounds (i + 1)). nia.
Qed.

(** ** Properties *)

(** For [n] elements whose contiguous sums are all [int]s (and [n] at most
    half of [INT_MAX]), [construct_tree] returns, and [get_sum] on its tree
    returns the sum of the elements [0..i], for every [i] from [-1] on; the
    loops take at most [log2 n + 2] iterations each. *)
Theorem construct_get_sum fuel arr n :
  0 <= n <= Z.of_nat (length arr) → 2 * n <= INT_MAX → sums_fit arr n → enough fuel n →
  ∃ tree, construct_tree (S fuel) arr n = Ret tree ∧
    ∀ i, -1 <= i < n → get_sum (S fuel) tree i = Ret (zsum (take (Z.to_nat (i + 1)) arr)).
Proof.
  intros Hn Hmax Hfit Hfuel.
  destruct (construct_tree_ok arr n fuel) as (tree & Ht & Hr); try done.
  exists tree. split; [done|]. intros i Hi. apply (get_sum_ok arr n); done || int_lia.
Qed.

(** C9. Updating position [p] by [val] in the tree of an array gives the tree
    of the array with [val] added at [p], so later sums see the new element. *)
Theorem update_tree_get_sum fuel tree arr n p x val :
  represents tree arr n → 0 <= p < n → arr !! Z.to_nat p = Some x → 2 * n <= INT_MAX →
  sums_fit (<[Z.to_nat p := x + val]> arr) n → enough fuel n →
  ∃ tree', update_tree (S fuel) tree n p val = Ret tree' ∧
    represents tree' (<[Z.to_nat p := x + val]> arr) n ∧
    ∀ i, -1 <= i < n → get_sum (S fuel) tree' i =
      Ret (prefix arr (i + 1) + if p <=? i then val else 0).
Proof.
  intros Hr Hp Hx Hmax Hfit Hfuel.
  set (arr' := <[Z.to_nat p := x + val]> arr) in *.
  assert (∀ k, prefix arr' k = prefix arr k + if p <? k then val else 0) as Hpre.
  { intros k. unfold arr'. rewrite (prefix_insert _ _ x) by (done || lia).
    by replace (x + val - x) with val by lia. }
  assert (∀ j, 0 <= j → prefix arr' j - prefix arr' (j - lb j) =
    prefix arr j - prefix arr (j - lb j) + (if covb j (p + 1) then val else 0)) as Hnode.
  { intros j Hj. rewrite !Hpre. unfold covb. pose proof (lb_range j Hj).
    destruct (p <? j) eqn:E1, (p <? j - lb j) eqn:E2, (j - lb j <? p + 1) eqn:E3,
      (p + 1 <=? j) eqn:E4; zbool; simpl; lia. }
  destruct (update_tree_ok n fuel p tree _ val Hr) as (tree' & Ht & Hh); try done.
  { intros j Hj Hc. specialize (Hnode j ltac:(lia)). rewrite Hc in Hnode.
    rewrite <-Hnode. pose proof (lb_range j). apply Hfit; lia. }
  assert (represents tree' arr' n) as Hr'.
  { eapply holds_ext; [|exact Hh]. intros j Hj. simpl. by rewrite Hnode by lia. }
  exists tree'. split_and!; [done|done|]. intros i Hi.
  rewrite (get_sum_ok arr' n) by (done || int_lia). rewrite Hpre. f_equal. f_equal.
  destruct (p <? i + 1) eqn:E1, (p <=? i) eqn:E2; zbool; done || lia.
Qed.

(** Called with index [-1], [update_tree] never returns: it adds [val] to
    [fenwick_tree[0]] for ever, or until that overflows. *)
Theorem update_tree_minus_one_diverges fuel tree n val :
  0 <= n → ¬ returns (update_tree fuel tree n (-1) val).
Proof.
  intros Hn. unfold update_tree. rewrite int_add_ok by int_lia. cbn [mbind outcome_bind].
  revert tree. change (-1 + 1) with 0.
  induction fuel as [|fuel IH]; intros tree [r Hr]; [done|]. cbn [update_loop] in Hr.
  replace (0 <=? n) with true in Hr by (symmetry; by apply Z.leb_le).
  destruct (array_get tree 0) as [old| | |]; try done. cbn [mbind outcome_bind] in Hr.
  destruct (int_add old val) as [new| | |]; try done. cbn [mbind outcome_bind] in Hr.
  destruct (array_set tree 0 new) as [tree'| | |]; try done. apply (IH tree'). by exists r.
Qed.

(** Indices outside the tree: a query past the last position and an update
    below [-1] access the array out of bounds, an update past the last position
    changes nothing and a query below [-1] is [0]. *)
Theorem fenwick_out_of_range fuel tree n index val :
  length tree = S (Z.to_nat n) → 0 <= n → INT_MIN <= index < INT_MAX →
  (n <= index → get_sum (S fuel) tree index = Undef (index_out_of_bounds (index + 1)) ∧
    update_tree (S fuel) tree n index val = Ret tree) ∧
  (index < -1 → get_sum (S fuel) tree index = Ret 0 ∧
    update_tree (S fuel) tree n index val = Undef (index_out_of_bounds (index + 1))).
Proof.
  intros Hlen Hn Hi. unfold get_sum, update_tree.
  rewrite !int_add_ok by int_lia. cbn [mbind outcome_bind sum_loop update_loop].
  split; intros H;
    destruct (index + 1 >? 0) eqn:E1, (index + 1 <=? n) eqn:E2; zbool; try lia;
    (split; [|done]) || (split; [done|]); by rewrite array_get_out by lia.
Qed.

(** ** The properties at concrete inputs *)

Example main_prints : main 5 = Ret 12.
Proof. vm_compute. reflexivity. Qed.

Lemma construct_get_sum_witness :
  ∃ tree, construct_tree 5 freq 12 = Ret tree ∧
    ∀ i, -1 <= i < 12 → get_sum 5 tree i = Ret (zsum (take (Z.to_nat (i + 1)) freq)).
Proof.
  apply (construct_get_sum 4 freq 12).
  - vm_compute. split; discriminate.
  - by vm_compute.
  - apply sums_fit_nonneg; [unfold freq; repeat constructor; discriminate|by vm_compute].
  - by vm_compute.
Defined.

Lemma update_tree_get_sum_witness :
  ∃ tree', update_tree 3 [0; 2; 1] 2 0 5 = Ret tree' ∧ represents tree' [7; -1] 2 ∧
    ∀ i, -1 <= i < 2 → get_sum 3 tree' i = Ret (prefix [2; -1] (i + 1) + if 0 <=? i then 5 else 0).
Proof.
  apply (update_tree_get_sum 2 [0; 2; 1] [2; -1] 2 0 2 5); try done.
  - split; [done|]. intros j Hj.
    assert (j = 0 ∨ j = 1 ∨ j = 2) as [->|[->| ->]] by lia; by vm_compute.
  - intros a b Ha Hb. assert (a = 0 ∨ a = 1 ∨ a = 2) as [->|[->| ->]] by lia;
      assert (b = 0 ∨ b = 1 ∨ b = 2) as [->|[->| ->]] by lia; by vm_compute.
Defined.

Lemma update_tree_minus_one_diverges_witness : ¬ returns (update_tree 100 [0; 2; 1] 2 (-1) 5).
Proof. apply (update_tree_minus_one_diverges 100 [0; 2; 1] 2 5). lia. Defined.

Lemma fenwick_out_of_range_witness :
  get_sum 2 [0; 2; 1] 2 = Undef (index_out_of_bounds 3) ∧
  update_tree 2 [0; 2; 1] 2 2 5 = Ret [0; 2; 1].
Proof.
  apply (fenwick_out_of_range 1 [0; 2; 1] 2 2 5); [reflexivity|lia|by vm_compute|lia].
Defined.
