(* ===== verification/MinStackQueue.v ===== *)
(** The two minimum programs of
    algorithms-data-structures/c++/minimum_stack_and_queue: [main_queue.cpp]
    (a monotone deque) and [main_stack.cpp] (a stack of running minima), with
    the formatted input they share. *)

From S2P Require Import Prelude.
From Stdlib Require Import Ascii.

(** ** Formatted input

    [std::getline] and [std::istringstream >> int] of the standard library,
    in the "C" locale and base 10. *)

(** The characters up to the first newline. *)
Fixpoint getline (input : list ascii) : list ascii :=
  match input with
  | [] => []
  | c :: input => if Ascii.eqb c "010"%char then [] else c :: getline input
  end.

Definition isspace (c : ascii) : bool :=
  let n := nat_of_ascii c in (n =? 32)%nat || ((9 <=? n)%nat && (n <=? 13)%nat).

Definition digit (c : ascii) : option Z :=
  let n := nat_of_ascii c in
  if (48 <=? n)%nat && (n <=? 57)%nat then Some (Z.of_nat n - 48) else None.

Fixpoint skip_space (s : list ascii) : list ascii :=
  match s with
  | [] => []
  | c :: s' => if isspace c then skip_space s' else s
  end.

(** The longest run of digits, as its value and what follows it. *)
Fixpoint read_digits (acc : Z) (s : list ascii) : Z * list ascii :=
  match s with
  | [] => (acc, [])
  | c :: s' =>
      match digit c with
      | Some d => read_digits (10 * acc + d) s'
      | None => (acc, s)
      end
  end.

Definition read_unsigned (s : list ascii) : option (Z * list ascii) :=
  match s with
  | c :: _ => if digit c is Some _ then Some (read_digits 0 s) else None
  | [] => None
  end.

(** [iss >> x]: the value and the rest of the stream, or [None] when the
    failbit is set (no digits, or a value that is not an [int]). *)
Definition read_int (s : list ascii) : option (Z * list ascii) :=
  '(v, rest) ← match skip_space s with
               | "-"%char :: s' => '(n, r) ← read_unsigned s'; Some (- n, r)
               | "+"%char :: s' => read_unsigned s'
               | s' => read_unsigned s'
               end;
  if in_int v then Some (v, rest) else None.

(** The successive values of [x] in [while (iss >> x)]. *)
Fixpoint read_loop (fuel : nat) (s : list ascii) : list Z :=
  match fuel with
  | O => []
  | S fuel =>
      match read_int s with
      | Some (x, s') => x :: read_loop fuel s'
      | None => []
      end
  end.

(** Every successful extraction consumes a character. *)
Definition read_ints (s : list ascii) : list Z := read_loop (S (length s)) s.

(** ** main_queue.cpp *)

(** [while (!q.empty() && q.back() > x) q.pop_back();], on the deque with its
    back at the head of the list. *)
Fixpoint pop_greater (q : list Z) (x : Z) : list Z :=
  match q with
  | [] => []
  | y :: q' => if y >? x then pop_greater q' x else q
  end.

(** The body of [while (iss >> x)]. *)
Definition queue_step (q : list Z) (x : Z) : list Z := x :: pop_greater q x.

Definition main_queue (input : list ascii) : outcome Z :=
  let q := foldl queue_step [] (read_ints (getline input)) in
  match last q with
  | Some minimum => Ret minimum
  | None => Undef empty_front
  end.

(** ** main_stack.cpp *)

Definition stack_step (st : list (Z * Z)) (x : Z) : list (Z * Z) :=
  let new_min := match st with
                 | [] => x
                 | (_, m) :: _ => Z.min x m
                 end in
  (x, new_min) :: st.

Definition main_stack (input : list ascii) : outcome Z :=
  let st := foldl stack_step [] (read_ints (getline input)) in
  match st with
  | (_, minimum) :: _ => Ret minimum
  | [] => Undef empty_front
  end.

(** ** The monotone deque *)

(** The elements that no later element is below, last one first. *)
Fixpoint suffix_minima (xs : list Z) : list Z :=
  match xs with
  | [] => []
  | x :: xs =>
      if forallb (λ y, x <=? y) xs then suffix_minima xs ++ [x] else suffix_minima xs
  end.

(** [m] is the least element of [xs]. *)
Definition least (m : Z) (xs : list Z) : Prop := m ∈ xs ∧ Forall (λ y, m <= y) xs.

Lemma least_unique m m' xs : least m xs → least m' xs → m = m'.
Proof.
  intros [Hm Hle] [Hm' Hle']. rewrite Forall_forall in Hle, Hle'.
  specialize (Hle m' Hm'). specialize (Hle' m Hm). lia.
Qed.

Lemma forallb_Forall {A} (p : A → bool) (P : A → Prop) xs :
  (∀ x, p x = true ↔ P x) → forallb p xs = true ↔ Forall P xs.
Proof.
  intros Hp. rewrite Forall_forall, forallb_forall. setoid_rewrite <-list_elem_of_In.
  naive_solver.
Qed.

Lemma pop_greater_app q r x :
  pop_greater (q ++ r) x =
    if forallb (λ y, y >? x) q then pop_greater r x else pop_greater q x ++ r.
Proof. induction q as [|y q IH]; simpl; [done|]. destruct (y >? x); simpl; [exact IH|done]. Qed.

Lemma pop_greater_all q x : forallb (λ y, y >? x) q = true → pop_greater q x = [].
Proof. intros H. rewrite <-(app_nil_r q), pop_greater_app, H. done. Qed.

Lemma suffix_minima_elem xs y : y ∈ suffix_minima xs → y ∈ xs.
Proof. induction xs as [|x xs IH]; simpl; [done|]. destruct (forallb _ xs); set_solver. Qed.

Lemma suffix_minima_snoc xs x :
  suffix_minima (xs ++ [x]) = queue_step (suffix_minima xs) x.
Proof.
  induction xs as [|y xs IH]; [done|]. simpl. rewrite forallb_app. simpl. rewrite andb_true_r, IH.
  destruct (forallb (λ z, y <=? z) xs) eqn:E; simpl; [|done]. unfold queue_step.
  rewrite pop_greater_app. simpl. destruct (y <=? x) eqn:Hyx; zbool.
  - replace (y >? x) with false by (symmetry; rewrite Z.gtb_ltb; apply Z.ltb_ge; lia).
    destruct (forallb _ (suffix_minima xs)) eqn:Ha; [by rewrite pop_greater_all|done].
  - replace (y >? x) with true by (symmetry; rewrite Z.gtb_ltb; apply Z.ltb_lt; lia).
    assert (forallb (λ z, z >? x) (suffix_minima xs) = true) as Ha.
    { apply (forallb_Forall _ (λ z, x < z)); [intros; rewrite Z.gtb_ltb; apply Z.ltb_lt|].
      apply (forallb_Forall _ (λ z, y <= z)) in E; [|intros; apply Z.leb_le].
      rewrite Forall_forall in *. intros z Hz%suffix_minima_elem. specialize (E z Hz). lia. }
    by rewrite Ha, pop_greater_all.
Qed.

Lemma queue_minima xs : foldl queue_step [] xs = suffix_minima xs.
Proof.
  induction xs as [|x xs IH] using rev_ind; [done|].
  by rewrite foldl_snoc, IH, suffix_minima_snoc.
Qed.

Lemma suffix_minima_last xs : xs ≠ [] → ∃ m, last (suffix_minima xs) = Some m ∧ least m xs.
Proof.
  induction xs as [|x xs IH]; intros Hne; [done|]. simpl.
  destruct (forallb (λ y, x <=? y) xs) eqn:E.
  - apply (forallb_Forall _ (λ z, x <= z)) in E; [|intros; apply Z.leb_le].
    exists x. rewrite last_snoc. split; [done|]. split; [by left|]. by constructor.
  - destruct xs as [|y xs']; [done|]. destruct IH as (m & Hl & Hm & Hle); [done|].
    exists m. split; [done|]. split; [by right|]. constructor; [|done].
    apply not_true_iff_false in E. rewrite (forallb_Forall _ (λ z, x <= z)) in E by (intros; apply Z.leb_le).
    rewrite Forall_forall in Hle. destruct (Z.le_gt_cases m x); [done|]. destruct E.
    apply Forall_forall. intros z Hz. specialize (Hle z Hz). lia.
Qed.

(** ** The stack of minima *)

Definition stack_ok (st : list (Z * Z)) : Prop :=
  ∀ i x m, st !! i = Some (x, m) → least m (drop i st).*1.

Lemma stack_step_ok st x : stack_ok st → stack_ok (stack_step st x).
Proof.
  intros Hst [|i] y m; [|apply Hst]. simpl. intros [= <- <-].
  destruct st as [|[z m] st]; simpl; [repeat constructor; set_solver|].
  destruct (Hst 0%nat z m eq_refl) as [Hm Hle]. simpl in Hm, Hle. split.
  - destruct (Z.min_spec x m) as [[? ->]|[? ->]]; set_solver.
  - constructor; [lia|]. eapply Forall_impl; [exact Hle|]. simpl. intros. lia.
Qed.

Lemma stack_minima xs :
  (foldl stack_step [] xs).*1 = reverse xs ∧ stack_ok (foldl stack_step [] xs).
Proof.
  induction xs as [|x xs [IH1 IH2]] using rev_ind.
  - split; [done|]. intros i x m Hi. simpl in Hi. by rewrite lookup_nil in Hi.
  - rewrite foldl_snoc. split; [|by apply stack_step_ok]. rewrite reverse_snoc, <-IH1. done.
Qed.

(** ** Printing, to state what is read *)

Definition digit_char (d : Z) : ascii := ascii_of_nat (48 + Z.to_nat d).

Fixpoint print_digits (fuel : nat) (n : Z) (acc : list ascii) : list ascii :=
  match fuel with
  | O => acc
  | S fuel =>
      if n <? 10 then digit_char n :: acc
      else print_digits fuel (n / 10) (digit_char (n mod 10) :: acc)
  end.

(** Ten digits are enough for the magnitude of an [int]. *)
Definition print_int (x : Z) : list ascii :=
  if x <? 0 then "-"%char :: print_digits 10 (- x) [] else print_digits 10 x [].

(** Integers separated by spaces. *)
Definition print_line (xs : list Z) : list ascii := concat ((λ x, print_int x ++ [" "%char]) <$> xs).

Lemma digit_cases (P : Z → Prop) :
  P 0 → P 1 → P 2 → P 3 → P 4 → P 5 → P 6 → P 7 → P 8 → P 9 → ∀ d, 0 <= d < 10 → P d.
Proof.
  intros ?????????? d Hd.
  assert (d = 0 ∨ d = 1 ∨ d = 2 ∨ d = 3 ∨ d = 4 ∨ d = 5 ∨ d = 6 ∨ d = 7 ∨ d = 8 ∨ d = 9)
    as Hcases by lia.
  by repeat (destruct Hcases as [->|Hcases]; [done|]); subst.
Qed.

Lemma digit_digit_char d : 0 <= d < 10 → digit (digit_char d) = Some d.
Proof. revert d. by apply digit_cases. Qed.

Lemma print_digits_head fuel n acc :
  0 <= n → (0 < fuel)%nat → ∃ d r, 0 <= d < 10 ∧ print_digits fuel n acc = digit_char d :: r.
Proof.
  revert n acc. induction fuel as [|fuel IH]; intros n acc Hn Hf; [lia|]. simpl.
  destruct (n <? 10) eqn:E; zbool; [exists n, acc; split; [lia|done]|].
  destruct fuel as [|fuel].
  - exists (n mod 10), acc. split; [apply Z.mod_pos_bound; lia|done].
  - apply IH; [by apply Z.div_pos|lia].
Qed.

Lemma read_print_digits fuel n acc :
  0 <= n < 10 ^ Z.of_nat fuel → (0 < fuel)%nat →
  read_digits 0 (print_digits fuel n acc) = read_digits n acc.
Proof.
  revert n acc. induction fuel as [|fuel IH]; intros n acc Hn Hf; [lia|]. cbn [print_digits].
  destruct (n <? 10) eqn:E; zbool.
  - cbn [read_digits]. by rewrite digit_digit_char by lia.
  - rewrite Nat2Z.inj_succ, Z.pow_succ_r in Hn by lia. rewrite IH.
    + cbn [read_digits]. rewrite digit_digit_char by (apply Z.mod_pos_bound; lia).
      f_equal. rewrite <-Z.div_mod; lia.
    + split; [apply Z.div_pos; lia|]. apply Z.div_lt_upper_bound; lia.
    + destruct fuel; simpl in Hn; lia.
Qed.

Lemma print_digits_app fuel n acc rest :
  print_digits fuel n acc ++ rest = print_digits fuel n (acc ++ rest).
Proof.
  revert n acc. induction fuel as [|fuel IH]; intros n acc; simpl; [done|].
  destruct (n <? 10); [done|]. apply IH.
Qed.

Lemma read_print_unsigned n rest :
  0 <= n < 10 ^ 10 →
  read_unsigned (print_digits 10 n [] ++ " "%char :: rest) = Some (n, " "%char :: rest).
Proof.
  intros Hn. rewrite print_digits_app, app_nil_l. unfold read_unsigned.
  destruct (print_digits_head 10 n (" "%char :: rest)) as (d & r & Hd & Heq); [lia..|].
  rewrite Heq, digit_digit_char by done. rewrite <-Heq, read_print_digits by (simpl; lia). done.
Qed.

Lemma skip_digit d r : 0 <= d < 10 → skip_space (digit_char d :: r) = digit_char d :: r.
Proof. revert d. by apply digit_cases. Qed.

Lemma read_print_int x rest :
  in_int x = true → read_int (print_int x ++ " "%char :: rest) = Some (x, " "%char :: rest).
Proof.
  intros Hx. pose proof Hx as Hr%in_int_spec. unfold read_int, print_int.
  destruct (x <? 0) eqn:E; zbool.
  - cbn [app skip_space]. change (isspace "-") with false. cbn iota.
    rewrite read_print_unsigned by int_lia. cbn [mbind option_bind].
    rewrite Z.opp_involutive. by rewrite Hx.
  - pose proof (read_print_unsigned x rest ltac:(int_lia)) as Hu.
    destruct (print_digits_head 10 x []) as (d & r & Hd & Heq); [lia..|].
    rewrite Heq in *. cbn [app] in *. rewrite skip_digit by done.
    match goal with |- context [match digit_char d with _ => _ end] => idtac end.
    replace (match digit_char d :: (r ++ " "%char :: rest) with
             | "-"%char :: s' => '(n, r) ← read_unsigned s'; Some (- n, r)
             | "+"%char :: s' => read_unsigned s'
             | s' => read_unsigned s'
             end) with (read_unsigned (digit_char d :: r ++ " "%char :: rest)).
    2: { clear -Hd. revert d Hd. by apply digit_cases. }
    rewrite Hu. cbn [mbind option_bind]. by rewrite Hx.
Qed.

Definition no_newline (s : list ascii) : Prop := Forall (λ c, Ascii.eqb c "010"%char = false) s.

Lemma print_digits_no_newline fuel n acc :
  0 <= n → no_newline acc → no_newline (print_digits fuel n acc).
Proof.
  assert (∀ d, 0 <= d < 10 → Ascii.eqb (digit_char d) "010"%char = false) as Hd
    by by apply digit_cases.
  revert n acc. induction fuel as [|fuel IH]; intros n acc Hn Hacc; simpl; [done|].
  destruct (n <? 10) eqn:E; zbool; [constructor; [apply Hd; lia|done]|].
  apply IH; [by apply Z.div_pos|]. constructor; [by apply Hd, Z.mod_pos_bound|done].
Qed.

Lemma print_line_no_newline xs : no_newline (print_line xs).
Proof.
  induction xs as [|x xs IH]; [by constructor|]. unfold print_line. simpl.
  rewrite <-app_assoc. apply Forall_app. split; [|by constructor]. unfold print_int.
  destruct (x <? 0) eqn:E; zbool; [constructor; [done|]|];
    (apply print_digits_no_newline; [lia|by constructor]).
Qed.

Lemma getline_no_newline s rest : no_newline s → getline (s ++ "010"%char :: rest) = s.
Proof. induction 1 as [|c s Hc _ IH]; simpl; [done|]. by rewrite Hc, IH. Qed.

Lemma read_loop_space fuel s : read_loop fuel (" "%char :: s) = read_loop fuel s.
Proof. by destruct fuel. Qed.

Lemma read_print_loop xs fuel :
  Forall (λ x, in_int x = true) xs → (length xs < fuel)%nat →
  read_loop fuel (print_line xs) = xs.
Proof.
  intros Hxs. revert fuel. induction Hxs as [|x xs Hx _ IH]; intros [|fuel] Hf; simpl in Hf;
    try lia; [done|].
  unfold print_line. cbn [fmap list_fmap concat read_loop]. rewrite <-app_assoc. cbn [app].
  rewrite read_print_int by done. f_equal. rewrite read_loop_space. apply IH. lia.
Qed.

Lemma print_line_length xs : (length xs <= length (print_line xs))%nat.
Proof.
  induction xs as [|x xs IH]; [done|]. unfold print_line in *.
  rewrite fmap_cons. cbn [concat]. rewrite !length_app. simpl. lia.
Qed.

(** ** Properties *)

(** C10. Both programs print the least of the integers that the first
    line of the input starts with; when it starts with none, they read the
    front of an empty container, which is undefined. *)
Theorem minimum_programs input :
  (∀ m, least m (read_ints (getline input)) → main_queue input = Ret m ∧ main_stack input = Ret m) ∧
  (read_ints (getline input) = [] →
     main_queue input = Undef empty_front ∧ main_stack input = Undef empty_front) ∧
  (read_ints (getline input) ≠ [] → ∃ m, least m (read_ints (getline input))).
Proof.
  unfold main_queue, main_stack. rewrite queue_minima.
  set (xs := read_ints (getline input)). split_and!.
  - intros m Hm. assert (xs ≠ []) as Hne by (intros Heq; rewrite Heq in Hm; by destruct Hm as [Hm%elem_of_nil _]).
    destruct (suffix_minima_last xs Hne) as (m' & -> & Hm').
    destruct (stack_minima xs) as [Hfst Hok].
    destruct (foldl stack_step [] xs) as [|[x m''] st].
    + apply (f_equal reverse) in Hfst. rewrite reverse_involutive in Hfst. by destruct Hne.
    + pose proof (Hok 0%nat x m'' eq_refl) as Hm''. change (drop 0 ?l) with l in Hm''.
      rewrite Hfst in Hm''. assert (least m'' xs) as Hl.
      { destruct Hm'' as [Hin Hle]. split; [by rewrite elem_of_reverse in Hin|].
        by rewrite Forall_reverse in Hle. }
      by rewrite (least_unique m m' xs), (least_unique m'' m' xs).
  - intros ->. done.
  - intros Hne. destruct (suffix_minima_last xs Hne) as (m & _ & Hm). by exists m.
Qed.

(** The deque holds, from back to front, exactly the elements that no
    later element is below; its front is the least of all of them. *)
Theorem queue_holds_suffix_minima xs :
  foldl queue_step [] xs = suffix_minima xs ∧
  (∀ m, last (foldl queue_step [] xs) = Some m → least m xs).
Proof.
  rewrite queue_minima. split; [done|]. intros m Hm.
  destruct xs as [|x xs]; [done|].
  destruct (suffix_minima_last (x :: xs)) as (m' & Hm' & ?); [done|]. congruence.
Qed.

(** Formatted input reads back every list of [int]s printed in decimal and
    separated by spaces, up to the end of the line. *)
Theorem read_ints_print xs rest :
  Forall (λ x, in_int x = true) xs →
  read_ints (getline (print_line xs ++ "010"%char :: rest)) = xs.
Proof.
  intros Hxs. rewrite getline_no_newline by apply print_line_no_newline.
  apply read_print_loop; [done|]. pose proof (print_line_length xs). lia.
Qed.

(** Reading stops at the first token that is not an [int]: the rest of the
    line is ignored by both programs. *)
Example read_stops_at_overflow :
  read_ints (String.list_ascii_of_string "7 -3 2147483648 1") = [7; -3].
Proof. reflexivity. Qed.

Lemma queue_holds_suffix_minima_witness :
  foldl queue_step [] [3; 1; 2] = suffix_minima [3; 1; 2] ∧ least 1 [3; 1; 2].
Proof.
  destruct (queue_holds_suffix_minima [3; 1; 2]) as [Heq Hl].
  split; [exact Heq|apply Hl; reflexivity].
Defined.

Lemma minimum_programs_witness :
  main_queue (String.list_ascii_of_string "3 -12 +5") = Ret (-12) ∧
  main_stack (String.list_ascii_of_string "3 -12 +5") = Ret (-12).
Proof.
  apply (minimum_programs (String.list_ascii_of_string "3 -12 +5")). vm_compute.
  split; [set_solver|]. repeat constructor; discriminate.
Defined.

Lemma read_ints_print_witness :
  read_ints (getline (print_line [10; -2147483648; 0] ++ "010"%char :: [])) = [10; -2147483648; 0].
Proof. apply (read_ints_print [10; -2147483648; 0] []). repeat constructor. Defined.
