(* ===== verification/Num.v ===== *)
(** The arithmetic of the statistics code, as type classes: the operations on
    [double] that the code uses ([Num]), the functions of <cmath> ([Libm]), and
    the laws of an exact ordered field that the theorems on real numbers use
    ([RealNum]).  The instance [b64] is IEEE-754 binary64 with rounding to
    nearest, on which the definitions compute. *)

From S2P Require Import Prelude.
From Stdlib Require Import SpecFloat.

(** ** Operations *)

Class Num (F : Type) := {
  fadd : F → F → F;
  fsub : F → F → F;
  fmul : F → F → F;
  fdiv : F → F → F;
  fneg : F → F;
  fsqrt : F → F;
  fltb : F → F → bool;
  fleb : F → F → bool;
  of_Z : Z → F;           (* conversion from an integer type *)
  half : F;               (* the literal 0.5 *)
  ftrunc : F → option Z;  (* truncation toward zero, [None] for NaN and infinities *)
}.

(** The functions of <cmath> whose results the language does not determine to
    the last bit. *)
Class Libm (F : Type) := {
  fexp : F → F;
  flog : F → F;
  ftanh : F → F;
  fpow : F → F → F;
  M_PI : F;
}.

Declare Scope num_scope.
Delimit Scope num_scope with num.
Infix "+" := fadd : num_scope.
Infix "-" := fsub : num_scope.
Infix "*" := fmul : num_scope.
Infix "/" := fdiv : num_scope.
Notation "- x" := (fneg x) : num_scope.
Infix "<?" := fltb : num_scope.
Infix "<=?" := fleb : num_scope.

Section Vocabulary.
Context {F : Type} `{Num F}.

(** [data.size()] as an operand of floating-point arithmetic. *)
Definition of_size {A} (l : list A) : F := of_Z (Z.of_nat (length l)).

(** A sequential sum, left to right from 0.0. *)
Definition sum_from_zero (l : list F) : F := foldl fadd (of_Z 0) l.

(** [static_cast<size_t>(x)]: undefined outside the range of the type. *)
Definition to_size (x : F) : outcome Z :=
  match ftrunc x with
  | Some z => if (0 <=? z) && (z <? 2 ^ 64) then Ret z else Undef float_to_int_range
  | None => Undef float_to_int_range
  end.

(** [(int)x]. *)
Definition real_to_int (x : F) : outcome Z :=
  match ftrunc x with
  | Some z => if in_int z then Ret z else Undef float_to_int_range
  | None => Undef float_to_int_range
  end.

(** [std::min]. *)
Definition fmin (x y : F) : F := if fltb y x then y else x.

Lemma to_size_ok x z : ftrunc x = Some z → 0 <= z < 2 ^ 64 → to_size x = Ret z.
Proof.
  intros Hx Hz. unfold to_size. rewrite Hx.
  destruct (0 <=? z) eqn:E1, (z <? 2 ^ 64) eqn:E2; zbool; done || lia.
Qed.

(** [std::sort] with [operator<]. *)
Fixpoint insert_sorted (x : F) (l : list F) : list F :=
  match l with
  | [] => [x]
  | y :: l' => if fltb y x then y :: insert_sorted x l' else x :: l
  end.

Definition std_sort (l : list F) : list F := foldr insert_sorted [] l.

Lemma insert_sorted_perm x l : insert_sorted x l ≡ₚ x :: l.
Proof.
  induction l as [|y l IH]; simpl; [done|]. destruct (fltb y x); [|done].
  rewrite IH. constructor.
Qed.

Lemma std_sort_perm l : std_sort l ≡ₚ l.
Proof. induction l as [|x l IH]; simpl; [done|]. by rewrite insert_sorted_perm, IH. Qed.

Lemma std_sort_length l : length (std_sort l) = length l.
Proof. apply Permutation_length, std_sort_perm. Qed.

End Vocabulary.

(** ** IEEE-754 binary64 *)

Definition b64_of_Z (z : Z) : spec_float := binary_normalize 53 1024 z 0 false.

Definition b64_trunc (x : spec_float) : option Z :=
  match x with
  | S754_zero _ => Some 0
  | S754_finite s m e =>
      let a := if 0 <=? e then Z.pos m * 2 ^ e else Z.pos m / 2 ^ (- e) in
      Some (if s then - a else a)
  | S754_infinity _ | S754_nan => None
  end.

#[export] Instance b64 : Num spec_float := {
  fadd := SFadd 53 1024;
  fsub := SFsub 53 1024;
  fmul := SFmul 53 1024;
  fdiv := SFdiv 53 1024;
  fneg := SFopp;
  fsqrt := SFsqrt 53 1024;
  fltb := SFltb;
  fleb := SFleb;
  of_Z := b64_of_Z;
  half := SFdiv 53 1024 (b64_of_Z 1) (b64_of_Z 2);
  ftrunc := b64_trunc;
}.

(** The product of [0.1] and [3], and the sum of [0.1] and [0.2], in binary64. *)
Example b64_rounds :
  let tenth := fdiv (b64_of_Z 1) (b64_of_Z 10) in
  fltb (b64_of_Z 3) (fmul tenth (b64_of_Z 30)) = false ∧
  fadd tenth (fmul tenth (b64_of_Z 2)) ≠ fdiv (b64_of_Z 3) (b64_of_Z 10).
Proof. vm_compute. split; [done|discriminate]. Qed.
