(* ===== verification/NumR.v ===== *)
(** The exact arithmetic: real numbers as an instance of [Num] and [Libm], the
    reading of its comparisons and conversions, and the lemmas on sums and on
    sorted lists that the theorems on real numbers share. *)

From S2P Require Import Prelude.
From S2P Require Import Num.
From Stdlib Require Import Reals Lra.

#[local] Open Scope R_scope.

Definition R_trunc (x : R) : Z := if Rle_dec 0 x then Int_part x else Z.opp (Int_part (- x)).

#[export] Instance R_num : Num R := {
  fadd := Rplus;
  fsub := Rminus;
  fmul := Rmult;
  fdiv := Rdiv;
  fneg := Ropp;
  fsqrt := sqrt;
  fltb := λ x y, if Rlt_dec x y then true else false;
  fleb := λ x y, if Rle_dec x y then true else false;
  of_Z := IZR;
  half := / 2;
  ftrunc := λ x, Some (R_trunc x);
}.

(** [pow(x, y)]: an integer power where [y] is an integer. *)
Definition R_pow (x y : R) : R :=
  if Req_EM_T y (IZR (Int_part y)) then powerRZ x (Int_part y) else Rpower x y.

#[export] Instance R_libm : Libm R := {
  fexp := exp;
  flog := ln;
  ftanh := tanh;
  fpow := R_pow;
  M_PI := PI;
}.

Lemma R_fltb_true x y : fltb x y = true ↔ x < y.
Proof. simpl. destruct (Rlt_dec x y); split; (done || lra). Qed.

Lemma R_fltb_false x y : fltb x y = false ↔ y <= x.
Proof. simpl. destruct (Rlt_dec x y); split; (done || lra). Qed.

Lemma R_fleb_true x y : fleb x y = true ↔ x <= y.
Proof. simpl. destruct (Rle_dec x y); split; (done || lra). Qed.

Lemma R_fleb_false x y : fleb x y = false ↔ y < x.
Proof. simpl. destruct (Rle_dec x y); split; (done || lra). Qed.

Lemma Int_part_unique x z : IZR z <= x < IZR z + 1 → Int_part x = z.
Proof.
  intros Hz. pose proof (base_Int_part x) as [H1 H2].
  assert (IZR z < IZR (Int_part x + 1)) as Ha by (rewrite plus_IZR; lra).
  assert (IZR (Int_part x) < IZR (z + 1)) as Hb by (rewrite plus_IZR; lra).
  apply lt_IZR in Ha, Hb. lia.
Qed.

Lemma R_trunc_spec x : 0 <= x → (0 <= R_trunc x)%Z ∧ IZR (R_trunc x) <= x < IZR (R_trunc x) + 1.
Proof.
  intros Hx. unfold R_trunc. destruct (Rle_dec 0 x); [|lra].
  pose proof (base_Int_part x) as [H1 H2]. split; [|lra].
  assert (IZR 0 < IZR (Int_part x + 1)) as Hlt by (rewrite plus_IZR; simpl; lra).
  apply lt_IZR in Hlt. lia.
Qed.

Lemma R_pow_2 x : R_pow x 2 = x * x.
Proof.
  unfold R_pow. rewrite (Int_part_unique 2 2) by (simpl; lra).
  destruct (Req_EM_T 2 2); [simpl; ring|done].
Qed.

Lemma tanh_0 : tanh 0 = 0.
Proof. unfold tanh, sinh. rewrite Ropp_0. unfold Rdiv. ring. Qed.

(** ** Sums *)

Definition rsum (l : list R) : R := foldr Rplus 0 l.

Lemma rsum_cons x l : rsum (x :: l) = x + rsum l.
Proof. done. Qed.

Lemma length_R_nil : IZR (Z.of_nat 0) = 0.
Proof. done. Qed.

Lemma length_R {A} (x : A) (l : list A) :
  IZR (Z.of_nat (length (x :: l))) = IZR (Z.of_nat (length l)) + 1.
Proof. cbn [length]. by rewrite Nat2Z.inj_succ, succ_IZR. Qed.

Lemma fold_sum (f : R → R) l a :
  foldl (λ acc x, fadd acc (f x)) a l = a + rsum (f <$> l).
Proof.
  revert a. induction l as [|x l IH]; intros a; cbn [foldl]; [unfold rsum; simpl; lra|].
  rewrite IH, fmap_cons, rsum_cons. simpl. lra.
Qed.

Lemma fold_sum_id l a : foldl fadd a l = a + rsum l.
Proof.
  revert a. induction l as [|x l IH]; intros a; cbn [foldl]; [unfold rsum; simpl; lra|].
  rewrite IH, rsum_cons. simpl. lra.
Qed.

Lemma rsum_ext (f g : R → R) l : (∀ x, f x = g x) → rsum (f <$> l) = rsum (g <$> l).
Proof.
  intros Hfg. induction l as [|x l IH]; [done|]. by rewrite !fmap_cons, !rsum_cons, Hfg, IH.
Qed.

Lemma rsum_scale a l : rsum ((λ x, a * x) <$> l) = a * rsum l.
Proof.
  induction l as [|x l IH]; [unfold rsum; simpl; lra|]. rewrite fmap_cons, !rsum_cons, IH. lra.
Qed.

Lemma rsum_affine a b l :
  rsum ((λ x, a * x + b) <$> l) = a * rsum l + b * IZR (Z.of_nat (length l)).
Proof.
  induction l as [|x l IH]; [unfold rsum; simpl; rewrite length_R_nil; lra|].
  rewrite fmap_cons, !rsum_cons, length_R, IH. lra.
Qed.

Lemma rsum_bounds m M l :
  Forall (λ x, m <= x <= M) l →
  m * IZR (Z.of_nat (length l)) <= rsum l <= M * IZR (Z.of_nat (length l)).
Proof.
  induction 1 as [|x l Hx Hl IH]; [unfold rsum; simpl; rewrite length_R_nil; lra|]. rewrite rsum_cons, length_R. lra.
Qed.

Lemma rsum_nonneg l : Forall (λ x, 0 <= x) l → 0 <= rsum l.
Proof. induction 1; rewrite ?rsum_cons; [unfold rsum; simpl; lra|lra]. Qed.

Lemma rsum_zero l : Forall (λ x, 0 <= x) l → rsum l = 0 → Forall (λ x, x = 0) l.
Proof.
  induction 1 as [|x l Hx Hl IH]; rewrite ?rsum_cons; intros Hs; [constructor|].
  pose proof (rsum_nonneg l Hl). constructor; [lra|]. apply IH. lra.
Qed.

Lemma size_pos {A} (l : list A) : l ≠ [] → 0 < IZR (Z.of_nat (length l)).
Proof. intros Hl. apply (IZR_lt 0). destruct l; [done|]. simpl. lia. Qed.

(** ** Sums over indices *)

Definition sum_below (N : nat) (g : nat → R) : R := rsum (g <$> seq 0 N).

Lemma rsum_app l k : rsum (l ++ k) = rsum l + rsum k.
Proof. induction l as [|x l IH]; cbn [app]; [unfold rsum; simpl; lra|]. rewrite !rsum_cons, IH. lra. Qed.

Lemma sum_below_0 g : sum_below 0 g = 0.
Proof. done. Qed.

Lemma sum_below_S N g : sum_below (S N) g = sum_below N g + g N.
Proof. unfold sum_below. rewrite seq_S, fmap_app, rsum_app. cbn. lra. Qed.

Lemma sum_below_ext N g h : (∀ j, (j < N)%nat → g j = h j) → sum_below N g = sum_below N h.
Proof.
  induction N as [|N IH]; intros Hj; [done|]. rewrite !sum_below_S, IH by auto with lia. f_equal. auto with lia.
Qed.

Lemma sum_below_le N g h : (∀ j, (j < N)%nat → g j <= h j) → sum_below N g <= sum_below N h.
Proof.
  induction N as [|N IH]; intros Hj; [rewrite ?sum_below_0, ?length_R_nil; lra|]. rewrite !sum_below_S.
  pose proof (Hj N ltac:(lia)). specialize (IH ltac:(auto with lia)). lra.
Qed.

Lemma sum_below_plus N g h : sum_below N (λ j, g j + h j) = sum_below N g + sum_below N h.
Proof. induction N as [|N IH]; [rewrite ?sum_below_0, ?length_R_nil; lra|]. rewrite !sum_below_S, IH. lra. Qed.

Lemma sum_below_const N c : sum_below N (λ _, c) = c * IZR (Z.of_nat N).
Proof.
  induction N as [|N IH]; [rewrite ?sum_below_0, ?length_R_nil; lra|].
  rewrite sum_below_S, IH, Nat2Z.inj_succ, succ_IZR. lra.
Qed.

(** Sums that differ at one index, and at two. *)
Lemma sum_below_one N g h u :
  (u < N)%nat → (∀ j, (j < N)%nat → j ≠ u → g j = h j) →
  sum_below N g = sum_below N h + (g u - h u).
Proof.
  induction N as [|N IH]; intros Hu Hj; [lia|]. rewrite !sum_below_S.
  destruct (decide (u = N)) as [->|].
  - rewrite (sum_below_ext N g h) by (intros; apply Hj; lia). lra.
  - rewrite IH, (Hj N) by (lia || (intros; apply Hj; lia)). lra.
Qed.

Lemma sum_below_two N g h u o :
  (u < N)%nat → (o < N)%nat → u ≠ o → (∀ j, (j < N)%nat → j ≠ u → j ≠ o → g j = h j) →
  sum_below N g = sum_below N h + (g u - h u) + (g o - h o).
Proof.
  intros Hu Ho Huo Hj. set (k := λ j, if decide (j = u) then g u else h j).
  rewrite (sum_below_one N g k o), (sum_below_one N k h u); try done; unfold k.
  - rewrite (decide_True (P := u = u)), (decide_False (P := o = u)) by done. lra.
  - intros j _ Hne. by rewrite decide_False.
  - intros j Hlt Hne. destruct (decide (j = u)) as [->|]; auto.
Qed.

Lemma sum_below_point N u c :
  (u < N)%nat → sum_below N (λ j, if decide (j = u) then c else 0) = c.
Proof.
  intros Hu. rewrite (sum_below_one N _ (λ _, 0) u), sum_below_const by (done || (intros; by rewrite decide_False)).
  rewrite decide_True by done. lra.
Qed.

(** A sum of terms of which none is below 1 is at least its length, and exceeds
    it unless all are 1; the same from above. *)
Lemma sum_below_all_one N g :
  (∀ j, (j < N)%nat → 1 <= g j) → sum_below N g = IZR (Z.of_nat N) → ∀ j, (j < N)%nat → g j = 1.
Proof.
  intros Hg Hs j Hj. pose proof (Hg j Hj).
  pose proof (sum_below_le N (λ k, 1 + (if decide (k = j) then g j - 1 else 0)) g) as Hle.
  rewrite sum_below_plus, sum_below_const, sum_below_point in Hle by done.
  cut (g j - 1 <= 0); [lra|]. apply Rle_trans with (sum_below N g - IZR (Z.of_nat N)); [|lra].
  cut (1 * IZR (Z.of_nat N) + (g j - 1) <= sum_below N g); [lra|]. apply Hle.
  intros k Hk. case_decide as E; [subst; lra|]. pose proof (Hg k Hk). lra.
Qed.

Lemma sum_below_lt N g u :
  (u < N)%nat → (∀ j, (j < N)%nat → g j <= 1) → g u < 1 → sum_below N g < IZR (Z.of_nat N).
Proof.
  intros Hu Hg Hlt.
  assert (sum_below N g <= sum_below N (λ k, 1 + (if decide (k = u) then g u - 1 else 0))) as Hle.
  { apply sum_below_le. intros k Hk. case_decide as E; [subst; lra|]. pose proof (Hg k Hk). lra. }
  rewrite sum_below_plus, sum_below_const, sum_below_point in Hle by done. lra.
Qed.

(** ** Sorting *)

Lemma insert_sorted_sorted x l : StronglySorted Rle l → StronglySorted Rle (insert_sorted x l).
Proof.
  induction 1 as [|y l Hl IH Hy]; cbn [insert_sorted]; [constructor; constructor|].
  destruct (fltb y x) eqn:E.
  - apply R_fltb_true in E. constructor; [done|]. rewrite insert_sorted_perm.
    constructor; [lra|done].
  - apply R_fltb_false in E. constructor; [by constructor|]. constructor; [done|].
    eapply Forall_impl; [exact Hy|]. simpl. intros. lra.
Qed.

Lemma std_sort_sorted l : StronglySorted Rle (std_sort l).
Proof. induction l as [|x l IH]; [constructor|]. by apply insert_sorted_sorted. Qed.

#[export] Instance Rle_anti_symm : AntiSymm (=) Rle.
Proof. intros x y ??. lra. Qed.

Lemma sorted_perm_eq l k :
  StronglySorted Rle l → StronglySorted Rle k → l ≡ₚ k → l = k.
Proof. intros Hl Hk Hp. by apply (StronglySorted_unique Rle). Qed.
