(* ===== verification/UtilFuns.v ===== *)
(** stoch-vola/model/lib/statistics/util_funs.cpp: [mean], [standardDeviation]
    and [quantile], over any arithmetic; and what they compute in exact arithmetic. *)

From S2P Require Import Prelude.
From S2P Require Import Num.
From Stdlib Require Import SpecFloat.
From S2P Require Import NumR.
From Stdlib Require Import Reals Lra.

Section Code.
Context {F : Type} `{Num F}.

Definition empty_message : string := "Data vector is empty.".
Definition ddof_message : string :=
  "Degrees of freedom must be greater than or equal to zero.".
Definition quantile_message : string := "Quantile must be between 0 and 1.".

Definition mean (data : list F) : outcome F :=
  if bool_decide (length data = 0%nat) then Throw (invalid_argument empty_message)
  else
    let sum := foldl fadd (of_Z 0) data in
    Ret (fdiv sum (of_size data)).

(** [ddof] is converted to [size_t] and subtracted from [data.size()]. *)
Definition standardDeviation (data : list F) (ddof : Z) : outcome F :=
  if ddof <? 0 then Throw (invalid_argument ddof_message)
  else if (length data <? 2)%nat then Ret (of_Z 0)
  else
    meanValue ← mean data;
    let sumSquares := foldl (λ acc value,
      fadd acc (fmul (fsub value meanValue) (fsub value meanValue))) (of_Z 0) data in
    Ret (fsqrt (fdiv sumSquares (of_Z (u64 (Z.of_nat (length data) - ddof))))).

Definition quantile (data : list F) (q : F) : outcome F :=
  if bool_decide (length data = 0%nat) then Throw (invalid_argument empty_message)
  else if fltb q (of_Z 0) || fltb (of_Z 1) q then Throw (invalid_argument quantile_message)
  else
    let sortedData := std_sort data in
    let pos := fmul q (of_Z (u64 (Z.of_nat (length sortedData) - 1))) in
    lowerIndex ← to_size pos;
    let upperIndex := u64 (lowerIndex + 1) in
    let weight := fsub pos (of_Z lowerIndex) in
    if Z.of_nat (length sortedData) <=? upperIndex
    then array_get sortedData lowerIndex
    else
      lower ← array_get sortedData lowerIndex;
      upper ← array_get sortedData upperIndex;
      Ret (fadd (fmul lower (fsub (of_Z 1) weight)) (fmul upper weight)).

(** ** Error paths *)

(** The argument checks, in any arithmetic: an empty vector, a
    negative number of degrees of freedom and a quantile outside [0, 1] throw
    [invalid_argument] with the messages of the code, and fewer than two
    values have standard deviation 0. *)
Theorem util_funs_checks :
  mean [] = Throw (invalid_argument empty_message) ∧
  (∀ q, quantile [] q = Throw (invalid_argument empty_message)) ∧
  (∀ data q, data ≠ [] → fltb q (of_Z 0) = true ∨ fltb (of_Z 1) q = true →
     quantile data q = Throw (invalid_argument quantile_message)) ∧
  (∀ data ddof, ddof < 0 → standardDeviation data ddof = Throw (invalid_argument ddof_message)) ∧
  (∀ data ddof, 0 <= ddof → (length data < 2)%nat → standardDeviation data ddof = Ret (of_Z 0)) ∧
  (∀ data, data ≠ [] → returns (mean data)).
Proof.
  split_and!; try done.
  - intros data q Hne Hq. unfold quantile. rewrite bool_decide_eq_false_2.
    + destruct (fltb q (of_Z 0)); simpl; [done|]. by destruct Hq as [| ->].
    + by intros ?%length_zero_iff_nil.
  - intros data ddof Hd. unfold standardDeviation.
    by rewrite (proj2 (Z.ltb_lt _ _) Hd).
  - intros data ddof Hd Hl. unfold standardDeviation.
    rewrite (proj2 (Z.ltb_ge _ _) Hd). by rewrite (proj2 (Nat.ltb_lt _ _) Hl).
  - intros data Hne. unfold mean. rewrite bool_decide_eq_false_2; [by eexists|].
    by intros ?%length_zero_iff_nil.
Qed.

End Code.

(** ** On binary64 *)

Lemma util_funs_checks_witness :
  @mean spec_float b64 [] = Throw (invalid_argument empty_message) ∧
  standardDeviation [b64_of_Z 1] 0 = Ret (b64_of_Z 0).
Proof.
  destruct (@util_funs_checks spec_float b64) as (H1 & _ & _ & _ & H5 & _).
  split; [exact H1|]. apply (H5 [b64_of_Z 1] 0); [done|]. simpl. auto.
Defined.

(** A NaN passes the range check of [quantile], and its conversion to an index
    is then undefined. *)
Theorem quantile_nan (data : list spec_float) :
  data ≠ [] → quantile data S754_nan = Undef float_to_int_range.
Proof.
  intros Hne. unfold quantile. rewrite bool_decide_eq_false_2; [done|].
  by intros ?%length_zero_iff_nil.
Qed.

Lemma quantile_nan_witness : quantile [b64_of_Z 1; b64_of_Z 2] S754_nan = Undef float_to_int_range.
Proof. apply (quantile_nan [b64_of_Z 1; b64_of_Z 2]). discriminate. Defined.

Definition nums (l : list Z) : list spec_float := b64_of_Z <$> l.

(** The median of an even number of values, and a quantile at an element. *)
Example quantile_median :
  quantile (nums [4; 1; 3; 2]) half = Ret (fdiv (b64_of_Z 5) (b64_of_Z 2)) ∧
  quantile (nums [5; 4; 3; 2; 1]) half = Ret (b64_of_Z 3) ∧
  mean (nums [1; 2; 3; 4; 5]) = Ret (b64_of_Z 3).
Proof. vm_compute. repeat split. Qed.

(** In binary64 the interpolation rounds, and leaves the interval of the two
    elements: for two equal values of 0.1 the quantile at 0.3 is below 0.1 and
    the one at 0.2 above it. *)
Theorem quantile_rounds :
  let tenth := fdiv (b64_of_Z 1) (b64_of_Z 10) in
  ∃ v v', quantile [tenth; tenth] (fdiv (b64_of_Z 3) (b64_of_Z 10)) = Ret v ∧
    quantile [tenth; tenth] (fdiv (b64_of_Z 2) (b64_of_Z 10)) = Ret v' ∧
    fltb v tenth = true ∧ fltb tenth v' = true.
Proof. do 2 eexists. split; [vm_compute; reflexivity|]. split; [vm_compute; reflexivity|]. by split; vm_compute. Qed.

(** When [ddof] exceeds the number of values, the divisor wraps around to
    nearly 2^64; when it equals it, the division is by zero. *)
Theorem standardDeviation_wraps :
  standardDeviation (nums [1; 3]) 3 =
    Ret (fsqrt (fdiv (b64_of_Z 2) (b64_of_Z (2 ^ 64 - 1)))) ∧
  standardDeviation (nums [1; 3]) 2 = Ret (S754_infinity false) ∧
  standardDeviation (nums [1; 1]) 2 = Ret S754_nan.
Proof. vm_compute. repeat split. Qed.

(** ** Exact arithmetic *)

#[local] Open Scope R_scope.

(** ** The mean *)

Lemma nonempty_length {A} (l : list A) : l ≠ [] → bool_decide (length l = 0%nat) = false.
Proof. intros Hl. apply bool_decide_eq_false_2. by intros ?%length_zero_iff_nil. Qed.

Lemma mean_eq data : data ≠ [] → mean data = Ret (rsum data / IZR (Z.of_nat (length data))).
Proof.
  intros Hne. unfold mean. rewrite nonempty_length by done.
  rewrite fold_sum_id. unfold of_size. simpl. f_equal. by rewrite Rplus_0_l.
Qed.

(** The mean of a non-empty vector is the number that, taken as often as there
    are elements, gives their sum; it lies between any bounds of the elements,
    and it follows them through an affine map. *)
Theorem mean_correct data m M :
  data ≠ [] → Forall (λ x, m <= x <= M) data →
  ∃ v, mean data = Ret v ∧ v * IZR (Z.of_nat (length data)) = rsum data ∧ m <= v <= M ∧
    ∀ a b, mean ((λ x, a * x + b) <$> data) = Ret (a * v + b).
Proof.
  intros Hne Hb. pose proof (size_pos data Hne) as Hn. pose proof (rsum_bounds m M data Hb) as Hs.
  exists (rsum data / IZR (Z.of_nat (length data))). rewrite mean_eq by done. split_and!; try done.
  - field. lra.
  - apply (Rmult_le_reg_r (IZR (Z.of_nat (length data)))); [done|].
    unfold Rdiv. rewrite Rmult_assoc, Rinv_l by lra. lra.
  - apply (Rmult_le_reg_r (IZR (Z.of_nat (length data)))); [done|].
    unfold Rdiv. rewrite Rmult_assoc, Rinv_l by lra. lra.
  - intros a b. rewrite mean_eq by (intros ?%fmap_nil_inv; done).
    rewrite length_fmap, rsum_affine. f_equal. field. lra.
Qed.

(** ** The standard deviation *)

Definition deviations (data : list R) (c : R) : R := rsum ((λ x, (x - c) * (x - c)) <$> data).

Lemma standardDeviation_eq data ddof :
  (2 <= length data)%nat → (0 <= ddof < Z.of_nat (length data))%Z →
  (Z.of_nat (length data) < 2 ^ 64)%Z →
  standardDeviation data ddof =
    Ret (sqrt (deviations data (rsum data / IZR (Z.of_nat (length data))) /
               IZR (Z.of_nat (length data) - ddof))).
Proof.
  intros Hlen Hd Hmax. unfold standardDeviation.
  rewrite (proj2 (Z.ltb_ge _ _)), (proj2 (Nat.ltb_ge _ _)) by (done || lia).
  rewrite mean_eq by (by intros ->; simpl in Hlen; lia). cbn [mbind outcome_bind].
  rewrite (fold_sum (λ x, (x - _) * (x - _))).
  unfold u64. rewrite Z.mod_small by lia. simpl. unfold deviations. by rewrite Rplus_0_l.
Qed.

Lemma deviations_affine data a b c :
  deviations ((λ x, a * x + b) <$> data) (a * c + b) = a * a * deviations data c.
Proof.
  unfold deviations. rewrite <-list_fmap_compose, <-rsum_scale, <-list_fmap_compose.
  apply rsum_ext. intros x. simpl. ring.
Qed.

Lemma deviations_nonneg data c : Forall (λ x, 0 <= x) ((λ x, (x - c) * (x - c)) <$> data).
Proof. apply Forall_fmap, Forall_forall. intros x _. simpl. apply Rle_0_sqr. Qed.

(** The standard deviation of two or more values, with [ddof] below
    their number, is defined and non-negative, is zero exactly for equal
    values, ignores a shift of the data and scales with their magnitude. *)
Theorem standardDeviation_correct data ddof :
  (2 <= length data)%nat → (0 <= ddof < Z.of_nat (length data))%Z →
  (Z.of_nat (length data) < 2 ^ 64)%Z →
  ∃ s, standardDeviation data ddof = Ret s ∧ 0 <= s ∧
    (s = 0 ↔ ∃ c, Forall (λ x, x = c) data) ∧
    ∀ a b, standardDeviation ((λ x, a * x + b) <$> data) ddof = Ret (Rabs a * s).
Proof.
  intros Hlen Hd Hmax. rewrite standardDeviation_eq by done.
  set (n := IZR (Z.of_nat (length data))). set (c := rsum data / n).
  assert (0 < n) as Hn by (apply (IZR_lt 0); lia).
  assert (0 < IZR (Z.of_nat (length data) - ddof)) as Hk by (apply (IZR_lt 0); lia).
  set (k := IZR (Z.of_nat (length data) - ddof)) in *.
  pose proof (deviations_nonneg data c) as Hpos.
  assert (0 <= deviations data c / k) as Hq.
  { apply Rmult_le_pos; [by apply rsum_nonneg|]. left. by apply Rinv_0_lt_compat. }
  eexists. split_and!; [done|apply sqrt_pos| |].
  - split.
    + intros Hs. apply sqrt_eq_0 in Hs; [|done].
      assert (deviations data c = 0) as H0.
      { apply (Rmult_eq_reg_r (/ k)); [unfold Rdiv in Hs; lra|]. apply Rinv_neq_0_compat. lra. }
      pose proof (rsum_zero _ Hpos H0) as Hall. exists c. rewrite Forall_fmap in Hall.
      eapply Forall_impl; [exact Hall|]. intros x Hx. simpl in Hx.
      apply Rmult_integral in Hx. lra.
    + intros [d Hall].
      assert (rsum data = d * n) as Hsum.
      { pose proof (rsum_bounds d d data) as Hb. fold n in Hb.
        assert (Forall (λ x, d <= x <= d) data) as Hdd.
        { eapply Forall_impl; [exact Hall|]. simpl. intros. lra. }
        specialize (Hb Hdd). lra. }
      assert (c = d) as Hc by (unfold c; rewrite Hsum; field; lra).
      assert (deviations data c = 0) as ->; [|unfold Rdiv; rewrite Rmult_0_l; apply sqrt_0].
      unfold deviations. rewrite Hc. clear -Hall.
      induction Hall as [|x l -> _ IH]; [done|]. rewrite fmap_cons, rsum_cons, IH. ring.
  - intros a b. rewrite standardDeviation_eq by (rewrite ?length_fmap; done).
    rewrite length_fmap, rsum_affine. fold n k.
    replace ((a * rsum data + b * n) / n) with (a * c + b) by (unfold c; field; lra).
    rewrite deviations_affine. f_equal.
    replace (a * a * deviations data c / k) with (Rsqr a * (deviations data c / k))
      by (unfold Rsqr; field; lra).
    rewrite sqrt_mult by (done || apply Rle_0_sqr). by rewrite sqrt_Rsqr_abs.
Qed.

(** ** Quantiles *)

(** The linear interpolation of the values [s] at the position [pos]. *)
Definition interpolate (s : list R) (pos : R) : R :=
  let i := R_trunc pos in
  let lower := nth (Z.to_nat i) s 0 in
  if (Z.of_nat (length s) <=? i + 1)%Z then lower
  else lower * (1 - (pos - IZR i)) + nth (Z.to_nat (i + 1)) s 0 * (pos - IZR i).

Definition last_pos (s : list R) : R := IZR (Z.of_nat (length s) - 1).

Lemma pos_index s pos :
  s ≠ [] → 0 <= pos <= last_pos s →
  (0 <= R_trunc pos < Z.of_nat (length s))%Z ∧ IZR (R_trunc pos) <= pos < IZR (R_trunc pos) + 1.
Proof.
  intros Hs [H0 Hn]. destruct (R_trunc_spec pos H0) as [Hi [Hlo Hhi]]. split; [|done]. split; [done|].
  unfold last_pos in Hn. assert (IZR (R_trunc pos) <= IZR (Z.of_nat (length s) - 1)) as Hle by lra.
  apply le_IZR in Hle. lia.
Qed.

Lemma array_get_nth (s : list R) i :
  (0 <= i < Z.of_nat (length s))%Z → array_get s i = Ret (nth (Z.to_nat i) s 0).
Proof.
  intros Hi. apply array_get_ok; [lia|]. rewrite nth_lookup.
  destruct (lookup_lt_is_Some_2 s (Z.to_nat i)) as [x ->]; [lia|done].
Qed.

Lemma quantile_eq data q :
  data ≠ [] → 0 <= q <= 1 → (Z.of_nat (length data) < 2 ^ 64)%Z →
  quantile data q = Ret (interpolate (std_sort data) (q * last_pos data)).
Proof.
  intros Hne Hq Hmax. unfold quantile. rewrite nonempty_length by done.
  rewrite (proj2 (R_fltb_false q (of_Z 0))), (proj2 (R_fltb_false (of_Z 1) q)) by (simpl; lra).
  cbn [orb]. rewrite std_sort_length.
  set (s := std_sort data). assert (length s = length data) as Hlen by apply std_sort_length.
  assert (0 < length data)%nat as Hn by (destruct data; [done|simpl; lia]).
  assert (s ≠ []) as Hs by (intros Heq; rewrite Heq in Hlen; simpl in Hlen; lia).
  assert (0 <= q * last_pos data <= last_pos s) as Hpos.
  { unfold last_pos. rewrite Hlen.
    assert (0 <= IZR (Z.of_nat (length data) - 1)) by (apply (IZR_le 0); lia). nra. }
  destruct (pos_index s _ Hs Hpos) as [Hi [Hlo Hhi]].
  assert (u64 (Z.of_nat (length data) - 1) = (Z.of_nat (length data) - 1)%Z) as ->
    by (apply Z.mod_small; lia).
  change (fmul q (of_Z (Z.of_nat (length data) - 1))) with (q * last_pos data).
  rewrite (to_size_ok _ (R_trunc (q * last_pos data))) by (done || lia). cbn [mbind outcome_bind].
  unfold u64. rewrite Z.mod_small by lia. unfold interpolate. rewrite Hlen.
  destruct (_ <=? _)%Z eqn:E; zbool; [apply array_get_nth; lia|].
  rewrite !array_get_nth by lia. done.
Qed.

Lemma sorted_nth s i j :
  StronglySorted Rle s → (i <= j < length s)%nat → nth i s 0 <= nth j s 0.
Proof.
  intros Hs. revert i j. induction Hs as [|x s Hs IH Hx]; intros i j Hij; [simpl in Hij; lia|].
  destruct j as [|j]; [destruct i; [simpl; lra|lia]|]. simpl in Hij. destruct i as [|i]; simpl.
  - rewrite Forall_forall in Hx. apply Hx. apply list_elem_of_In, nth_In. lia.
  - apply IH. lia.
Qed.

(** Between two neighbouring order statistics. *)
Lemma interpolate_between s pos :
  StronglySorted Rle s → s ≠ [] → 0 <= pos <= last_pos s →
  nth (Z.to_nat (R_trunc pos)) s 0 <= interpolate s pos ∧
  (∀ j, (R_trunc pos < j < Z.of_nat (length s))%Z → interpolate s pos <= nth (Z.to_nat j) s 0).
Proof.
  intros Hs Hne Hpos. destruct (pos_index s pos Hne Hpos) as [Hi [Hlo Hhi]].
  unfold interpolate. destruct (_ <=? _)%Z eqn:E; zbool.
  - split; [lra|]. intros j Hj. apply sorted_nth; [done|]. lia.
  - assert (nth (Z.to_nat (R_trunc pos)) s 0 <= nth (Z.to_nat (R_trunc pos + 1)) s 0) as Hstep.
    { apply sorted_nth; [done|]. lia. }
    split; [nra|]. intros j Hj.
    assert (nth (Z.to_nat (R_trunc pos + 1)) s 0 <= nth (Z.to_nat j) s 0) as Hj'.
    { apply sorted_nth; [done|]. lia. }
    nra.
Qed.

Lemma R_trunc_mono x y : 0 <= x <= y → (R_trunc x <= R_trunc y)%Z.
Proof.
  intros [H0 Hxy]. destruct (R_trunc_spec x H0) as [_ [? ?]].
  destruct (R_trunc_spec y) as [_ [? ?]]; [lra|].
  assert (IZR (R_trunc x) < IZR (R_trunc y + 1)) as Hlt by (rewrite plus_IZR; lra).
  apply lt_IZR in Hlt. lia.
Qed.

Lemma interpolate_mono s x y :
  StronglySorted Rle s → s ≠ [] → 0 <= x <= y → y <= last_pos s →
  interpolate s x <= interpolate s y.
Proof.
  intros Hs Hne Hxy Hy. pose proof (R_trunc_mono x y Hxy) as Ht.
  destruct (pos_index s x) as [Hix [? ?]]; [done|lra|].
  destruct (pos_index s y) as [Hiy [? ?]]; [done|lra|].
  destruct (Z.eq_dec (R_trunc x) (R_trunc y)) as [Heq|Hneq].
  - unfold interpolate. rewrite <-Heq in *. destruct (_ <=? _)%Z eqn:E; zbool; [lra|].
    assert (nth (Z.to_nat (R_trunc x)) s 0 <= nth (Z.to_nat (R_trunc x + 1)) s 0) as Hstep.
    { apply sorted_nth; [done|]. lia. }
    nra.
  - destruct (interpolate_between s x) as [_ Hx']; [done|done|lra|].
    destruct (interpolate_between s y) as [Hy' _]; [done|done|lra|].
    specialize (Hx' (R_trunc y) ltac:(lia)). lra.
Qed.

(** C13. In exact arithmetic, that is with [quantile] over the reals, for data
    that is not empty and [q] in [0, 1] a quantile lies between the two order
    statistics around the position [q * (n - 1)]: it is the smallest element
    at [0], the largest at [1], the element itself at a whole position, and it
    never depends on the order of the data.  The code's [double]s round the
    interpolation, and the result can leave that interval by the rounding
    ([quantile_rounds]). *)
Theorem quantile_between data q :
  data ≠ [] → 0 <= q <= 1 → (Z.of_nat (length data) < 2 ^ 64)%Z →
  ∃ v, quantile data q = Ret v ∧
    let s := std_sort data in
    let pos := q * last_pos data in
    StronglySorted Rle s ∧ s ≡ₚ data ∧
    nth (Z.to_nat (R_trunc pos)) s 0 <= v ∧
    (∀ j, (R_trunc pos < j < Z.of_nat (length s))%Z → v <= nth (Z.to_nat j) s 0) ∧
    (∀ i, pos = IZR i → v = nth (Z.to_nat i) s 0) ∧
    ∀ data', data' ≡ₚ data → quantile data' q = Ret v.
Proof.
  intros Hne Hq Hmax. set (s := std_sort data).
  assert (length s = length data) as Hlen by apply std_sort_length.
  assert (s ≠ []) as Hs.
  { intros Heq. rewrite Heq in Hlen. symmetry in Hlen. by apply length_zero_iff_nil in Hlen. }
  assert (0 <= q * last_pos data <= last_pos s) as Hpos.
  { unfold last_pos. rewrite Hlen.
    assert (0 <= IZR (Z.of_nat (length data) - 1)).
    { apply (IZR_le 0). destruct data; [done|simpl; lia]. }
    nra. }
  exists (interpolate s (q * last_pos data)). split; [by apply quantile_eq|]. simpl.
  pose proof (std_sort_sorted data) as Hsort. fold s in Hsort |- *.
  destruct (interpolate_between s _ Hsort Hs Hpos) as [Hlo Hhi].
  split_and!; [done|apply std_sort_perm|done|done| |].
  - intros i Hi. rewrite Hi. unfold interpolate.
    assert (R_trunc (IZR i) = i) as ->.
    { unfold R_trunc. rewrite Hi in Hpos. destruct (Rle_dec 0 (IZR i)); [|lra].
      apply Int_part_unique. lra. }
    destruct (_ <=? _)%Z; [done|]. ring.
  - intros data' Hp. rewrite quantile_eq.
    + rewrite (sorted_perm_eq (std_sort data') s); try done; [|apply std_sort_sorted|].
      * unfold last_pos. by rewrite Hp.
      * unfold s. by rewrite !std_sort_perm.
    + intros ->. by apply Permutation_nil_l in Hp.
    + done.
    + by rewrite Hp.
Qed.

(** Quantiles grow with [q]. *)
Theorem quantile_monotone data q q' :
  data ≠ [] → 0 <= q <= q' → q' <= 1 → (Z.of_nat (length data) < 2 ^ 64)%Z →
  ∃ v v', quantile data q = Ret v ∧ quantile data q' = Ret v' ∧ v <= v'.
Proof.
  intros Hne Hq Hq' Hmax. do 2 eexists. split_and!; [apply quantile_eq; done || lra..|].
  assert (length (std_sort data) = length data) as Hlen by apply std_sort_length.
  assert (0 <= last_pos data).
  { apply (IZR_le 0). destruct data; [done|simpl; lia]. }
  apply interpolate_mono.
  - apply std_sort_sorted.
  - intros Heq. rewrite Heq in Hlen. symmetry in Hlen. by apply length_zero_iff_nil in Hlen.
  - nra.
  - unfold last_pos in *. rewrite Hlen. nra.
Qed.

(** ** The properties at concrete inputs *)

Lemma mean_correct_witness :
  ∃ v, mean [1; 2; 6] = Ret v ∧ v * IZR (Z.of_nat (length [1; 2; 6])) = rsum [1; 2; 6] ∧
    1 <= v <= 6 ∧ ∀ a b, mean ((λ x, a * x + b) <$> [1; 2; 6]) = Ret (a * v + b).
Proof. apply (mean_correct [1; 2; 6] 1 6); [discriminate|]. repeat apply Forall_cons_2; (lra || constructor). Defined.

Lemma standardDeviation_correct_witness :
  ∃ s, standardDeviation [1; 2; 6] 1 = Ret s ∧ 0 <= s ∧
    (s = 0 ↔ ∃ c, Forall (λ x, x = c) [1; 2; 6]) ∧
    ∀ a b, standardDeviation ((λ x, a * x + b) <$> [1; 2; 6]) 1 = Ret (Rabs a * s).
Proof. apply (standardDeviation_correct [1; 2; 6] 1); simpl length; lia. Defined.

Lemma quantile_between_witness :
  ∃ v, quantile [6; 1; 2] (/ 2) = Ret v ∧
    let s := std_sort [6; 1; 2] in
    let pos := / 2 * last_pos [6; 1; 2] in
    StronglySorted Rle s ∧ s ≡ₚ [6; 1; 2] ∧
    nth (Z.to_nat (R_trunc pos)) s 0 <= v ∧
    (∀ j, (R_trunc pos < j < Z.of_nat (length s))%Z → v <= nth (Z.to_nat j) s 0) ∧
    (∀ i, pos = IZR i → v = nth (Z.to_nat i) s 0) ∧
    ∀ data', data' ≡ₚ [6; 1; 2] → quantile data' (/ 2) = Ret v.
Proof. apply (quantile_between [6; 1; 2] (/ 2)); [discriminate|lra|simpl length; lia]. Defined.

Lemma quantile_monotone_witness :
  ∃ v v', quantile [6; 1; 2] 0 = Ret v ∧ quantile [6; 1; 2] 1 = Ret v' ∧ v <= v'.
Proof. apply (quantile_monotone [6; 1; 2] 0 1); [discriminate|lra|lra|simpl length; lia]. Defined.
