(* ===== verification/Eigen.v ===== *)
(** What the statistics code uses of libraries outside the repository: Eigen's
    dense vectors and matrices, the engine and the distributions of <random>,
    and the normal sampler it calls.  A [VectorXd] is the list of its
    coefficients; a [MatrixXd] is the list of its columns (Eigen's storage
    order) with its number of rows.  Size mismatches and indices out of range
    fail Eigen's assertions.  Functions whose result Eigen or the standard
    library leaves open are fields of the classes [EigenOps] and [StdRandom]. *)

From S2P Require Import Prelude.
From S2P Require Import Num.

(** ** Matrices *)

Record Matrix (F : Type) := mkMatrix { rows : nat; columns : list (list F) }.
Arguments mkMatrix {F} rows columns.
Arguments rows {F} m.
Arguments columns {F} m.

Definition cols {F} (m : Matrix F) : nat := length (columns m).

(** Every column has [rows] coefficients. *)
Definition matrix_ok {F} (m : Matrix F) : Prop := Forall (λ c, length c = rows m) (columns m).

Section Matrices.
Context {F : Type} `{Num F}.

(** [MatrixXd::Zero(rows, cols)]. *)
Definition Zero (r c : nat) : Matrix F := mkMatrix r (replicate c (replicate r (of_Z 0))).

(** [m.row(i)] as a value, and as the target of an assignment. *)
Definition get_row (m : Matrix F) (i : Z) : outcome (list F) :=
  if (0 <=? i) && (i <? Z.of_nat (rows m))
  then Ret ((λ c, nth (Z.to_nat i) c (of_Z 0)) <$> columns m)
  else Undef eigen_assertion.
Definition set_row (m : Matrix F) (i : Z) (v : list F) : outcome (Matrix F) :=
  if (0 <=? i) && (i <? Z.of_nat (rows m)) && (length v =? cols m)%nat
  then Ret (mkMatrix (rows m) (zip_with (λ (c : list F) x, <[Z.to_nat i := x]> c) (columns m) v))
  else Undef eigen_assertion.

(** [m.col(j)], and [m(i, j) = x]. *)
Definition get_col (m : Matrix F) (j : Z) : outcome (list F) :=
  if j <? 0 then Undef eigen_assertion
  else match columns m !! Z.to_nat j with
       | Some c => Ret c
       | None => Undef eigen_assertion
       end.
Definition set_col (m : Matrix F) (j : Z) (v : list F) : outcome (Matrix F) :=
  if (0 <=? j) && (j <? Z.of_nat (cols m)) && (length v =? rows m)%nat
  then Ret (mkMatrix (rows m) (<[Z.to_nat j := v]> (columns m)))
  else Undef eigen_assertion.
Definition set_coeff (m : Matrix F) (i j : Z) (x : F) : outcome (Matrix F) :=
  if (0 <=? i) && (i <? Z.of_nat (rows m)) && (0 <=? j) && (j <? Z.of_nat (cols m))
  then Ret (mkMatrix (rows m)
         (alter (λ c, <[Z.to_nat i := x]> c) (Z.to_nat j) (columns m)))
  else Undef eigen_assertion.

(** [m.topRows(n.rows()) = n] and [m.bottomRows(k)]. *)
Definition set_topRows (m n : Matrix F) : outcome (Matrix F) :=
  if (rows n <=? rows m)%nat && (cols n =? cols m)%nat
  then Ret (mkMatrix (rows m) (zip_with (λ c t, t ++ drop (rows n) c) (columns m) (columns n)))
  else Undef eigen_assertion.
Definition bottomRows (m : Matrix F) (k : Z) : outcome (Matrix F) :=
  if (0 <=? k) && (k <=? Z.of_nat (rows m))
  then Ret (mkMatrix (Z.to_nat k) (drop (rows m - Z.to_nat k) <$> columns m))
  else Undef eigen_assertion.

(** [m.unaryExpr(f)]. *)
Definition unaryExpr (f : F → F) (m : Matrix F) : Matrix F :=
  mkMatrix (rows m) (map f <$> columns m).

(** A coefficient-wise operation on two vectors, and of every column of a
    matrix with one vector ([m.colwise() - v]). *)
Definition cwise (f : F → F → F) (v w : list F) : outcome (list F) :=
  if (length v =? length w)%nat then Ret (zip_with f v w) else Undef eigen_assertion.
Definition colwise (f : F → F → F) (m : Matrix F) (v : list F) : outcome (Matrix F) :=
  if (rows m =? length v)%nat
  then Ret (mkMatrix (rows m) ((λ c, zip_with f c v) <$> columns m))
  else Undef eigen_assertion.

End Matrices.

(** ** Eigen's reductions and array functions *)

Class EigenOps (F : Type) := {
  minCoeff_ : list F → F;           (* on a vector that is not empty *)
  vsum : list F → F;                (* v.sum(), in an order of Eigen's choice *)
  array_exp : list F → list F;      (* v.array().exp() *)
  array_log : list F → list F;
  array_pow : list F → F → list F;  (* v.array().pow(p) *)
  isApprox : Matrix F → Matrix F → bool;
}.

Definition minCoeff {F} `{EigenOps F} (v : list F) : outcome F :=
  match v with [] => Undef eigen_assertion | _ => Ret (minCoeff_ v) end.

(** Array functions keep the size. *)
Class EigenSizes (F : Type) `{EigenOps F} : Prop := {
  array_exp_length v : length (array_exp v) = length v;
  array_log_length v : length (array_log v) = length v;
  array_pow_length v p : length (array_pow v p) = length v;
}.

(** ** Random numbers *)

Class StdRandom (F : Type) := {
  engine : Type;                             (* std::mt19937 *)
  engine_seed : Z → engine;                  (* seed(value) *)
  normal_distribution : Type;
  normal_make : F → F → normal_distribution;
  normal_draw : normal_distribution → engine → F * normal_distribution * engine;
  discrete_distribution : Type;
  discrete_make : list F → discrete_distribution;
  discrete_draw : discrete_distribution → engine → Z * engine;
  rand_normal : Z → nat → list F;            (* Eigen::Rand::normal(n, 1, rng{seed}) *)
}.

(** The state of a default-constructed engine. *)
Definition default_engine {F} `{StdRandom F} : engine := engine_seed 5489.

(** The preconditions of the two distributions' constructors. *)
Definition normal_ok {F} `{Num F} (std_dev : F) : bool := fltb (of_Z 0) std_dev.
Definition discrete_ok {F} `{Num F} (weights : list F) : bool :=
  bool_decide (weights = []) ||
  (forallb (λ w, fleb (of_Z 0) w) weights && fltb (of_Z 0) (sum_from_zero weights)).

(** What the documentation of the samplers promises of the results. *)
Class RandomLaws (F : Type) `{Num F} `{StdRandom F} : Prop := {
  discrete_range weights e :
    weights ≠ [] → discrete_ok weights = true →
    0 <= (discrete_draw (discrete_make weights) e).1 < Z.of_nat (length weights);
  rand_normal_length seed n : length (rand_normal seed n) = n;
}.

(** ** Lemmas *)

Section Lemmas.
Context {F : Type} `{Num F}.

Lemma Zero_ok r c : matrix_ok (Zero r c).
Proof. unfold matrix_ok, Zero. simpl. apply Forall_replicate. by rewrite length_replicate. Qed.

Lemma cols_Zero r c : cols (Zero r c) = c.
Proof. apply length_replicate. Qed.

Lemma get_row_ok m i :
  0 <= i < Z.of_nat (rows m) →
  get_row m i = Ret ((λ c, nth (Z.to_nat i) c (of_Z 0)) <$> columns m).
Proof.
  intros Hi. unfold get_row. destruct (0 <=? i) eqn:E1, (i <? _) eqn:E2; zbool; done || lia.
Qed.

Lemma set_row_ok m i v :
  0 <= i < Z.of_nat (rows m) → length v = cols m →
  set_row m i v =
    Ret (mkMatrix (rows m) (zip_with (λ (c : list F) x, <[Z.to_nat i := x]> c) (columns m) v)).
Proof.
  intros Hi Hv. unfold set_row. rewrite Hv, Nat.eqb_refl.
  destruct (0 <=? i) eqn:E1, (i <? _) eqn:E2; zbool; done || lia.
Qed.

Lemma zip_with_columns_ok (f : list F → F → list F) (l : list (list F)) v r :
  (∀ c x, length c = r → length (f c x) = r) → Forall (λ c, length c = r) l →
  Forall (λ c, length c = r) (zip_with f l v).
Proof.
  intros Hf Hl. revert v. induction Hl as [|c l Hc _ IH]; intros [|x v]; simpl; constructor; auto.
Qed.

Lemma set_row_spec m i v m' :
  set_row m i v = Ret m' → matrix_ok m →
  matrix_ok m' ∧ rows m' = rows m ∧ cols m' = cols m ∧ get_row m' i = Ret v ∧
  ∀ k, k ≠ i → get_row m' k = get_row m k.
Proof.
  intros Hm Hok. unfold set_row in Hm.
  destruct (_ && _ && _) eqn:E in Hm; [|done]. injection Hm as <-.
  apply andb_true_iff in E as [E Hlen%Nat.eqb_eq]. zbool.
  unfold matrix_ok, cols. simpl. split_and!.
  - apply zip_with_columns_ok; [|done]. intros c x Hc. by rewrite length_insert.
  - done.
  - rewrite length_zip_with. unfold cols in Hlen. lia.
  - rewrite get_row_ok by (simpl; lia). simpl. f_equal. unfold cols in Hlen.
    assert (Z.to_nat i < rows m)%nat as Hi by lia. revert Hok Hi. unfold matrix_ok.
    generalize (rows m), (Z.to_nat i). clear -Hlen. intros r n Hok Hn. revert v Hlen.
    induction Hok as [|c l Hc _ IH]; intros [|x v] Hlen; simpl in *; try lia; [done|].
    f_equal; [|apply IH; lia]. rewrite nth_lookup, list_lookup_insert_eq by lia. done.
  - intros k Hk. unfold get_row. simpl. destruct (_ && _) eqn:Ek; [|done]. zbool. f_equal.
    unfold cols in Hlen. assert (Z.to_nat i ≠ Z.to_nat k) as Hne by lia. revert Hne.
    generalize (Z.to_nat i), (Z.to_nat k). clear -Hlen. intros n k Hne. revert v Hlen.
    induction (columns m) as [|c l IH]; intros [|x v] Hlen; simpl in *; try lia; [done|].
    f_equal; [|apply IH; lia]. by rewrite !nth_lookup, list_lookup_insert_ne by done.
Qed.

Lemma cwise_ok (f : F → F → F) v w : length v = length w → cwise f v w = Ret (zip_with f v w).
Proof. intros Hl. unfold cwise. by rewrite Hl, Nat.eqb_refl. Qed.

End Lemmas.
