(* ===== verification/EigenR.v ===== *)
(** Eigen's operations and the samplers in exact arithmetic: the laws that the
    documentation gives for coefficient-wise functions and reductions, a
    concrete instance of the operations that satisfies them, and a concrete
    random source, on which the theorems are applied to examples. *)

From S2P Require Import Prelude.
From S2P Require Import Num.
From S2P Require Import NumR.
From S2P Require Import Eigen.
From Stdlib Require Import Reals Lra.

#[local] Open Scope R_scope.

(** Coefficient-wise functions apply the function to each coefficient, [sum]
    is the sum and [minCoeff] the least coefficient. *)
Class EigenExact `{EigenOps R} : Prop := {
  exact_exp v : array_exp v = map exp v;
  exact_log v : array_log v = map ln v;
  exact_pow v p : array_pow v p = map (λ x, R_pow x p) v;
  exact_sum v : vsum v = rsum v;
  exact_min_elem v : v ≠ [] → minCoeff_ v ∈ v;
  exact_min_le v x : x ∈ v → minCoeff_ v <= x;
}.

#[export] Instance exact_sizes `{EigenExact} : EigenSizes R.
Proof.
  split; intros; rewrite ?exact_exp, ?exact_log, ?exact_pow; apply length_map.
Qed.

(** ** A concrete instance *)

Definition norm2 (v : list R) : R := rsum ((λ x, x * x) <$> v).

#[export] Instance R_eigen : EigenOps R := {
  minCoeff_ := λ v, match v with [] => 0 | x :: v => foldr Rmin x v end;
  vsum := rsum;
  array_exp := map exp;
  array_log := map ln;
  array_pow := λ v p, map (λ x, R_pow x p) v;
  isApprox := λ m n,
    let a := concat (columns m) in
    let b := concat (columns n) in
    if Rle_dec (norm2 (zip_with Rminus a b)) (/ 10 ^ 24 * Rmin (norm2 a) (norm2 b))
    then true else false;
}.

Lemma foldr_Rmin x v : foldr Rmin x v ∈ x :: v ∧ ∀ y, y ∈ x :: v → foldr Rmin x v <= y.
Proof.
  induction v as [|z v [IH1 IH2]]; simpl.
  - split; [by left|]. intros y [->|[]%elem_of_nil]%elem_of_cons. lra.
  - split.
    + apply elem_of_cons in IH1. unfold Rmin at 1. destruct (Rle_dec z (foldr Rmin x v)).
      * right. by left.
      * destruct IH1 as [->|IH1]; [by left|by do 2 right].
    + intros y Hy. pose proof (Rmin_l z (foldr Rmin x v)). pose proof (Rmin_r z (foldr Rmin x v)).
      apply elem_of_cons in Hy as [->|[->|Hy]%elem_of_cons]; [| |].
      * specialize (IH2 x ltac:(by left)). lra.
      * done.
      * specialize (IH2 y ltac:(by right)). lra.
Qed.

#[export] Instance R_eigen_exact : EigenExact.
Proof.
  split; try done.
  - intros [|x v] Hv; [done|]. apply foldr_Rmin.
  - intros [|x v] y Hy; [by apply elem_of_nil in Hy|]. by apply foldr_Rmin.
Qed.

(** A random source whose engine is a counter: normal draws are the mean, and
    discrete draws are the first index. *)
Definition R_random : StdRandom R := {|
  engine := Z;
  engine_seed := λ seed, seed;
  normal_distribution := R * R;
  normal_make := λ m s, (m, s);
  normal_draw := λ d e, (d.1, d, (e + 1)%Z);
  discrete_distribution := list R;
  discrete_make := λ w, w;
  discrete_draw := λ w e, (0%Z, (e + 1)%Z);
  rand_normal := λ seed n, replicate n (IZR seed);
|}.

Lemma R_random_laws : @RandomLaws R R_num R_random.
Proof.
  split.
  - intros w e Hw _. simpl. destruct w; [done|simpl; lia].
  - intros seed n. apply length_replicate.
Qed.
