(* ===== verification/NormalDistribution.v ===== *)
(** stoch-vola/model/lib/statistics/normal_distribution.cpp: the classes
    [NormalDistribution] and [IndependentVectorNormal], their guards, densities
    and samplers. *)

From S2P Require Import Prelude.
From S2P Require Import Num.
From S2P Require Import Eigen.

Definition std_dev_message : string := "Standard deviation must be greater than zero.".
Definition std_devs_message : string := "Standard deviations must be greater than zero.".
Definition same_length_message : string :=
  "Means and standard deviations must have the same length.".
Definition input_length_message : string :=
  "Input vector must have the same length as means.".

(** ** [NormalDistribution] *)

Module NormalDistribution.
Section Code.
Context {F : Type} `{Num F} `{Libm F} `{StdRandom F}.

Record t := mk { mean_ : F; std_dev_ : F; generator_ : engine }.

Definition create (mean std_dev : F) : outcome t :=
  if fleb std_dev (of_Z 0) then Throw (invalid_argument std_dev_message)
  else Ret (mk mean std_dev default_engine).

Definition setMean (mean : F) (d : t) : t := mk mean (std_dev_ d) (generator_ d).
Definition setStdDev (std_dev : F) (d : t) : t := mk (mean_ d) std_dev (generator_ d).
Definition getMean (d : t) : F := mean_ d.
Definition getStdDev (d : t) : F := std_dev_ d.

Definition pdf (d : t) (x : F) : F :=
  (of_Z 1 / (std_dev_ d * fsqrt (of_Z 2 * M_PI)) *
   fexp (- half * fpow ((x - mean_ d) / std_dev_ d) (of_Z 2)))%num.

Definition logLikelihood (d : t) (x : F) : F :=
  (- half * flog (of_Z 2 * M_PI) - flog (std_dev_ d)
   - half * fpow ((x - mean_ d) / std_dev_ d) (of_Z 2))%num.

Definition setSeed (seed : Z) (d : t) : t := mk (mean_ d) (std_dev_ d) (engine_seed seed).

(** [for (i < n) samples[i] = distribution(generator_)]. *)
Fixpoint draw_loop (n : nat) (distribution : normal_distribution) (generator : engine) :
    list F * engine :=
  match n with
  | O => ([], generator)
  | S n =>
      let '(x, distribution, generator) := normal_draw distribution generator in
      let '(samples, generator) := draw_loop n distribution generator in
      (x :: samples, generator)
  end.

(** [generator_] is mutable: sampling also returns the object it leaves. *)
Definition sample (d : t) (n : nat) (seed : Z) : outcome (list F * t) :=
  let d := setSeed seed d in
  if normal_ok (std_dev_ d) then
    let distribution := normal_make (mean_ d) (std_dev_ d) in
    let '(samples, generator) := draw_loop n distribution (generator_ d) in
    Ret (samples, mk (mean_ d) (std_dev_ d) generator)
  else Undef distribution_precondition.

End Code.
Arguments t F {_}.
End NormalDistribution.

(** ** [IndependentVectorNormal] *)

Module IndependentVectorNormal.
Section Code.
Context {F : Type} `{Num F} `{Libm F} `{EigenOps F} `{StdRandom F}.

Record t := mk { means_ : list F; stdDevs_ : list F; generator_ : engine }.

Definition create (means stdDevs : list F) : outcome t :=
  if negb (length means =? length stdDevs)%nat then Throw (invalid_argument same_length_message)
  else
    m ← minCoeff stdDevs;
    if fleb m (of_Z 0) then Throw (invalid_argument std_devs_message)
    else Ret (mk means stdDevs default_engine).

(** [Eigen::VectorXd::Constant(n, x)]. *)
Definition Constant (n : nat) (x : F) : list F := replicate n x.

Definition create_constant (mean stdDev : F) (n : nat) : outcome t :=
  let stdDevs := Constant n stdDev in
  m ← minCoeff stdDevs;
  if fleb m (of_Z 0) then Throw (invalid_argument std_dev_message)
  else Ret (mk (Constant n mean) stdDevs default_engine).

Definition setMeans (means : list F) (d : t) : t := mk means (stdDevs_ d) (generator_ d).

Definition setStdDevs (stdDevs : list F) (d : t) : outcome t :=
  m ← minCoeff stdDevs;
  if fleb m (of_Z 0) then Throw (invalid_argument std_devs_message)
  else Ret (mk (means_ d) stdDevs (generator_ d)).

Definition getMeans (d : t) : list F := means_ d.
Definition getStdDevs (d : t) : list F := stdDevs_ d.

(** [1.0 / (stdDevs_ * std::sqrt(2.0*M_PI)).array()]. *)
Definition left_factor (d : t) : list F :=
  let leftQuotient := (λ s, fmul s (fsqrt (fmul (of_Z 2) M_PI))) <$> stdDevs_ d in
  (λ y, fdiv (of_Z 1) y) <$> leftQuotient.

(** [-0.5 * (xMuDiff.array() / stdDevs_.array()).pow(2)]. *)
Definition half_squares (d : t) (xMuDiff : list F) : outcome (list F) :=
  z ← cwise fdiv xMuDiff (stdDevs_ d);
  Ret ((λ y, fmul (fneg half) y) <$> array_pow z (of_Z 2)).

Definition pdfs (d : t) (x : list F) : outcome (list F) :=
  if negb (length x =? length (means_ d))%nat
  then Throw (invalid_argument input_length_message)
  else
    let leftFactor := left_factor d in
    xMuDiff ← cwise fsub x (means_ d);
    e ← half_squares d xMuDiff;
    let rightFactor := array_exp e in
    cwise fmul leftFactor rightFactor.

Definition pdfs_scalar (d : t) (x : F) : outcome (list F) :=
  let leftFactor := left_factor d in
  let xMuDiff := (λ m, fsub x m) <$> means_ d in
  e ← half_squares d xMuDiff;
  let rightFactor := array_exp e in
  cwise fmul leftFactor rightFactor.

(** [-0.5 * std::log(2 * M_PI) - stdDevs_.array().log()]. *)
Definition log_left_factor (d : t) : list F :=
  (λ y, fsub (fmul (fneg half) (flog (fmul (of_Z 2) M_PI))) y) <$> array_log (stdDevs_ d).

Definition logLikelihoods (d : t) (x : list F) : outcome (list F) :=
  if negb (length x =? length (means_ d))%nat
  then Throw (invalid_argument input_length_message)
  else
    let leftFactor := log_left_factor d in
    xMuDiff ← cwise fsub x (means_ d);
    rightFactor ← half_squares d xMuDiff;
    cwise fadd leftFactor rightFactor.

Definition logLikelihoods_scalar (d : t) (x : F) : outcome (list F) :=
  let leftFactor := log_left_factor d in
  let xMuDiff := (λ m, fsub x m) <$> means_ d in
  rightFactor ← half_squares d xMuDiff;
  cwise fadd leftFactor rightFactor.

(** An array function on all coefficients of a matrix. *)
Definition matrix_array (f : list F → list F) (m : Matrix F) : Matrix F :=
  mkMatrix (rows m) (reshape (replicate (cols m) (rows m)) (f (concat (columns m)))).

Definition colWiseLogLikelihoods (d : t) (x : Matrix F) : outcome (Matrix F) :=
  let leftFactor := log_left_factor d in
  xMuDiff ← colwise fsub x (means_ d);
  xZStandard ← colwise fdiv xMuDiff (stdDevs_ d);
  let rightFactor := unaryExpr (λ y, fmul (fneg half) y)
                       (matrix_array (λ v, array_pow v (of_Z 2)) xZStandard) in
  colwise fadd rightFactor leftFactor.

(** [int sampleSize = means_.size()]; then a column of standard normals,
    scaled and shifted. *)
Definition sample (d : t) (seed : Z) : outcome (list F) :=
  let sampleSize := i32 (Z.of_nat (length (means_ d))) in
  if sampleSize <? 0 then Undef eigen_assertion else
  let samples := rand_normal seed (Z.to_nat sampleSize) in
  samples ← cwise fmul samples (stdDevs_ d);
  cwise fadd samples (means_ d).

End Code.
Arguments t F {_}.
End IndependentVectorNormal.
