(* ===== verification/NormalProps.v ===== *)
(** The properties of the normal distributions: their guards, the agreement of
    densities and log-likelihoods, the agreement of the vector class with the
    scalar one, and their samplers. *)

From S2P Require Import Prelude.
From S2P Require Import Num.
From S2P Require Import NumR.
From S2P Require Import Eigen.
From S2P Require Import EigenR.
From S2P Require Import NormalDistribution.
From Stdlib Require Import Reals Lra SpecFloat.

(** ** Guards *)

Section Guards.
Context {F : Type} `{Num F} `{Libm F} `{EigenOps F} `{StdRandom F}.

(** The constructors accept a standard deviation exactly when it is not
    [<= 0], the vector constructor also requires equal lengths, and an empty
    vector of standard deviations fails Eigen's assertion in [minCoeff]. *)
Theorem normal_constructors (mean std_dev : F) (means stdDevs : list F) :
  NormalDistribution.create mean std_dev =
    (if fleb std_dev (of_Z 0) then Throw (invalid_argument std_dev_message)
     else Ret (NormalDistribution.mk mean std_dev default_engine)) ∧
  IndependentVectorNormal.create means stdDevs =
    (if decide (length means = length stdDevs) then
       if decide (stdDevs = []) then Undef eigen_assertion
       else if fleb (minCoeff_ stdDevs) (of_Z 0) then Throw (invalid_argument std_devs_message)
       else Ret (IndependentVectorNormal.mk means stdDevs default_engine)
     else Throw (invalid_argument same_length_message)).
Proof.
  split; [done|]. unfold IndependentVectorNormal.create.
  destruct (decide (length means = length stdDevs)) as [Heq|Hne].
  - rewrite Heq, Nat.eqb_refl. by destruct stdDevs.
  - by rewrite (proj2 (Nat.eqb_neq _ _) Hne).
Qed.

Lemma normal_draw_loop_length n d e :
  length (NormalDistribution.draw_loop n d e).1 = n.
Proof.
  revert d e. induction n as [|n IH]; intros d e; [done|]. simpl.
  destruct (normal_draw d e) as [[x d'] e']. specialize (IH d' e').
  destruct (NormalDistribution.draw_loop n d' e'). simpl in *. congruence.
Qed.

(** [sample] gives [n] numbers that depend on the mean, the standard deviation
    and the seed only, not on what the object's generator was used for before;
    after [setStdDev] with a value that is not positive, it constructs a
    distribution outside its precondition. *)
Theorem sample_reproducible (d d' : NormalDistribution.t F) n seed :
  NormalDistribution.getMean d = NormalDistribution.getMean d' →
  NormalDistribution.getStdDev d = NormalDistribution.getStdDev d' →
  NormalDistribution.sample d n seed = NormalDistribution.sample d' n seed ∧
  (normal_ok (NormalDistribution.getStdDev d) = true →
   ∃ xs d1, NormalDistribution.sample d n seed = Ret (xs, d1) ∧ length xs = n ∧
     NormalDistribution.getMean d1 = NormalDistribution.getMean d ∧
     NormalDistribution.getStdDev d1 = NormalDistribution.getStdDev d) ∧
  (∀ s, normal_ok s = false →
   NormalDistribution.sample (NormalDistribution.setStdDev s d) n seed =
     Undef distribution_precondition).
Proof.
  destruct d as [m s g], d' as [m' s' g'].
  unfold NormalDistribution.getMean, NormalDistribution.getStdDev, NormalDistribution.sample.
  simpl. intros <- <-. split_and!; [done| |].
  - intros ->. pose proof (normal_draw_loop_length n (normal_make m s) (engine_seed seed)) as Hl.
    destruct (NormalDistribution.draw_loop n _ _) as [xs e]. by exists xs, (NormalDistribution.mk m s e).
  - intros s' Hs. by rewrite Hs.
Qed.

(** The vector sampler scales and shifts the standard normals coefficient by
    coefficient, for means and standard deviations of one length. *)
Theorem vector_sample `{!RandomLaws F} (d : IndependentVectorNormal.t F) seed :
  length (IndependentVectorNormal.getMeans d) = length (IndependentVectorNormal.getStdDevs d) →
  Z.of_nat (length (IndependentVectorNormal.getMeans d)) <= INT_MAX →
  ∃ xs, IndependentVectorNormal.sample d seed = Ret xs ∧
    length xs = length (IndependentVectorNormal.getMeans d) ∧
    ∀ i m s z, IndependentVectorNormal.getMeans d !! i = Some m →
      IndependentVectorNormal.getStdDevs d !! i = Some s →
      rand_normal seed (length (IndependentVectorNormal.getMeans d)) !! i = Some z →
      xs !! i = Some (z * s + m)%num.
Proof.
  destruct d as [means stdDevs g].
  unfold IndependentVectorNormal.getMeans, IndependentVectorNormal.getStdDevs,
    IndependentVectorNormal.sample. simpl.
  intros Hlen Hmax. rewrite i32_id by int_lia.
  destruct (_ <? 0) eqn:E; zbool; [lia|]. rewrite Nat2Z.id.
  pose proof (rand_normal_length seed (length means)) as Hr.
  rewrite cwise_ok by congruence. simpl.
  rewrite cwise_ok by (rewrite length_zip_with; lia).
  eexists. split; [done|]. split; [rewrite !length_zip_with; lia|].
  intros i m s z Hm Hs Hz. rewrite lookup_zip_with, Hm. simpl.
  rewrite lookup_zip_with, Hz. simpl. by rewrite Hs.
Qed.

(** A vector density is defined for an argument of the length of the means and
    throws [invalid_argument] for any other length. *)
Theorem vector_lengths `{!EigenSizes F} (d : IndependentVectorNormal.t F) x :
  length (IndependentVectorNormal.getMeans d) = length (IndependentVectorNormal.getStdDevs d) →
  if decide (length x = length (IndependentVectorNormal.getMeans d)) then
    ∃ ps ls, IndependentVectorNormal.pdfs d x = Ret ps ∧ length ps = length x ∧
      IndependentVectorNormal.logLikelihoods d x = Ret ls ∧ length ls = length x
  else IndependentVectorNormal.pdfs d x = Throw (invalid_argument input_length_message) ∧
    IndependentVectorNormal.logLikelihoods d x = Throw (invalid_argument input_length_message).
Proof.
  destruct d as [means stdDevs g].
  unfold IndependentVectorNormal.getMeans, IndependentVectorNormal.getStdDevs,
    IndependentVectorNormal.pdfs, IndependentVectorNormal.logLikelihoods,
    IndependentVectorNormal.half_squares, IndependentVectorNormal.left_factor,
    IndependentVectorNormal.log_left_factor. simpl. intros Hlen.
  destruct (decide (length x = length means)) as [Hx|Hx].
  - rewrite Hx, Nat.eqb_refl. simpl. rewrite (cwise_ok fsub) by done. simpl.
    assert (length (zip_with fsub x means) = length stdDevs) as Hz
      by (rewrite length_zip_with; lia).
    rewrite cwise_ok by done. simpl. do 2 eexists.
    rewrite !cwise_ok by (rewrite ?length_fmap, ?array_exp_length, ?length_fmap,
      ?array_log_length, ?array_pow_length, ?length_zip_with; lia).
    split_and!; try done; rewrite !length_zip_with, ?length_fmap, ?array_exp_length, ?length_fmap,
      ?array_log_length, ?array_pow_length, ?length_zip_with; lia.
  - by rewrite (proj2 (Nat.eqb_neq _ _) Hx).
Qed.

End Guards.

(** ** Densities in exact arithmetic *)

#[local] Open Scope R_scope.

Section Densities.
Context `{StdRandom R}.

Lemma half_pow (z : R) : fmul (fneg half) (fpow z (of_Z 2)) = - / 2 * (z * z).
Proof. cbn [fmul fneg half fpow of_Z R_num R_libm]. by rewrite R_pow_2. Qed.

Lemma scalar_pdf_eq (d : NormalDistribution.t R) x :
  NormalDistribution.pdf d x =
    1 / (NormalDistribution.std_dev_ d * sqrt (2 * PI)) *
    exp (- / 2 * ((x - NormalDistribution.mean_ d) / NormalDistribution.std_dev_ d *
                  ((x - NormalDistribution.mean_ d) / NormalDistribution.std_dev_ d))).
Proof. unfold NormalDistribution.pdf. by rewrite half_pow. Qed.

Lemma scalar_log_eq (d : NormalDistribution.t R) x :
  NormalDistribution.logLikelihood d x =
    - / 2 * ln (2 * PI) - ln (NormalDistribution.std_dev_ d) -
    / 2 * ((x - NormalDistribution.mean_ d) / NormalDistribution.std_dev_ d *
           ((x - NormalDistribution.mean_ d) / NormalDistribution.std_dev_ d)).
Proof.
  unfold NormalDistribution.logLikelihood.
  cbn [fadd fsub fmul fdiv fneg half fpow of_Z flog M_PI R_num R_libm]. by rewrite R_pow_2.
Qed.

Lemma two_pi_pos : 0 < 2 * PI.
Proof. pose proof PI_RGT_0. lra. Qed.

Lemma exp_log_density s z :
  0 < s → exp (- / 2 * ln (2 * PI) - ln s - / 2 * z) = 1 / (s * sqrt (2 * PI)) * exp (- / 2 * z).
Proof.
  intros Hs. pose proof two_pi_pos as Hpi. pose proof (sqrt_lt_R0 _ Hpi) as Hr.
  replace (- / 2 * ln (2 * PI) - ln s - / 2 * z)
    with (- (/ 2 * ln (2 * PI)) + (- ln s) + - / 2 * z) by lra.
  rewrite !exp_plus, !exp_Ropp, exp_ln by done.
  change (exp (/ 2 * ln (2 * PI))) with (Rpower (2 * PI) (/ 2)). rewrite Rpower_sqrt by done.
  field. lra.
Qed.

(** [logLikelihood] is the logarithm of [pdf]; the density is positive,
    symmetric around the mean and largest there. *)
Theorem density_log (d : NormalDistribution.t R) x :
  0 < NormalDistribution.getStdDev d →
  exp (NormalDistribution.logLikelihood d x) = NormalDistribution.pdf d x ∧
  NormalDistribution.logLikelihood d x = ln (NormalDistribution.pdf d x) ∧
  0 < NormalDistribution.pdf d x <= NormalDistribution.pdf d (NormalDistribution.getMean d) ∧
  NormalDistribution.pdf d x =
    NormalDistribution.pdf d (2 * NormalDistribution.getMean d - x).
Proof.
  unfold NormalDistribution.getStdDev, NormalDistribution.getMean. intros Hs.
  assert (exp (NormalDistribution.logLikelihood d x) = NormalDistribution.pdf d x) as Hexp.
  { rewrite scalar_log_eq, scalar_pdf_eq. by apply exp_log_density. }
  assert (0 < NormalDistribution.pdf d x) as Hpos by (rewrite <-Hexp; apply exp_pos).
  split_and!; [done|by rewrite <-Hexp, ln_exp|done| |].
  - rewrite !scalar_pdf_eq. apply Rmult_le_compat_l.
    + left. apply Rdiv_lt_0_compat; [lra|]. apply Rmult_lt_0_compat; [done|].
      apply sqrt_lt_R0, two_pi_pos.
    + set (z := (x - _) / _). replace (NormalDistribution.mean_ d - NormalDistribution.mean_ d)
        with 0 by lra. unfold Rdiv. rewrite !Rmult_0_l, Rmult_0_r, exp_0, <-exp_0.
      destruct (Req_dec z 0) as [->|Hz]; [rewrite Rmult_0_l, Rmult_0_r; lra|].
      left. apply exp_increasing. pose proof (Rsqr_pos_lt z Hz) as Hq. unfold Rsqr in Hq. lra.
  - rewrite !scalar_pdf_eq. do 2 f_equal. field. lra.
Qed.

(** ** The vector class computes what the scalar class computes *)

Context `{EigenExact}.

(** The scalar distribution of one coefficient. *)
Definition coefficient (m s : R) : NormalDistribution.t R :=
  NormalDistribution.mk m s default_engine.

Definition scalar_pdfs (ms ss xs : list R) : list R :=
  zip_with (λ ms x, NormalDistribution.pdf (coefficient ms.1 ms.2) x) (zip ms ss) xs.
Definition scalar_logs (ms ss xs : list R) : list R :=
  zip_with (λ ms x, NormalDistribution.logLikelihood (coefficient ms.1 ms.2) x) (zip ms ss) xs.

Lemma list_eq_len {A} (l k : list A) :
  length l = length k → (∀ i x y, l !! i = Some x → k !! i = Some y → x = y) → l = k.
Proof.
  intros Hlen Heq. apply list_eq_same_length with (length k); try done.
  intros i x y _. apply Heq.
Qed.

(** Expose the first coefficient of every vector of a goal. *)
Ltac coefficients := repeat first [rewrite fmap_cons | progress (cbn [zip_with map zip])].

Lemma pdf_coefficients ms ss xs :
  length ms = length ss → length xs = length ms →
  zip_with Rmult ((λ y, 1 / y) <$> ((λ s, s * sqrt (2 * PI)) <$> ss))
    (map exp ((λ y, fmul (fneg half) y) <$>
       map (λ x, R_pow x 2) (zip_with Rdiv (zip_with Rminus xs ms) ss))) = scalar_pdfs ms ss xs.
Proof.
  intros Hlen. revert ss xs Hlen. unfold scalar_pdfs.
  induction ms as [|m ms IH]; intros [|s ss] [|x xs] Hs Hx; try done.
  coefficients. f_equal. apply IH; simpl in *; lia.
Qed.

Lemma log_coefficients ms ss xs :
  length ms = length ss → length xs = length ms →
  zip_with Rplus ((λ y, - / 2 * ln (2 * PI) - y) <$> map ln ss)
    ((λ y, fmul (fneg half) y) <$>
       map (λ x, R_pow x 2) (zip_with Rdiv (zip_with Rminus xs ms) ss)) = scalar_logs ms ss xs.
Proof.
  intros Hlen. revert ss xs Hlen. unfold scalar_logs.
  induction ms as [|m ms IH]; intros [|s ss] [|x xs] Hs Hx; try done.
  coefficients. f_equal; [|apply IH; simpl in *; lia].
  rewrite scalar_log_eq, R_pow_2. simpl. lra.
Qed.

Lemma map_sub_scalar ms x : (λ m, fsub x m) <$> ms = zip_with Rminus (replicate (length ms) x) ms.
Proof. induction ms as [|m ms IH]; [done|]. cbn. by f_equal. Qed.

Lemma pdfs_scalar_pdfs (d : IndependentVectorNormal.t R) xs :
  length (IndependentVectorNormal.means_ d) = length (IndependentVectorNormal.stdDevs_ d) →
  length xs = length (IndependentVectorNormal.means_ d) →
  IndependentVectorNormal.pdfs d xs =
    Ret (scalar_pdfs (IndependentVectorNormal.means_ d) (IndependentVectorNormal.stdDevs_ d) xs).
Proof.
  destruct d as [ms ss g]. simpl. intros Hlen Hx.
  unfold IndependentVectorNormal.pdfs, IndependentVectorNormal.half_squares,
    IndependentVectorNormal.left_factor. simpl.
  rewrite Hx, Nat.eqb_refl. simpl. rewrite cwise_ok by done. simpl.
  rewrite cwise_ok by (rewrite length_zip_with; lia). simpl.
  rewrite exact_pow, exact_exp, cwise_ok
    by (rewrite ?length_map, ?length_fmap, ?length_map, !length_zip_with; lia).
  f_equal. by apply pdf_coefficients.
Qed.

Lemma logs_scalar_logs (d : IndependentVectorNormal.t R) xs :
  length (IndependentVectorNormal.means_ d) = length (IndependentVectorNormal.stdDevs_ d) →
  length xs = length (IndependentVectorNormal.means_ d) →
  IndependentVectorNormal.logLikelihoods d xs =
    Ret (scalar_logs (IndependentVectorNormal.means_ d) (IndependentVectorNormal.stdDevs_ d) xs).
Proof.
  destruct d as [ms ss g]. simpl. intros Hlen Hx.
  unfold IndependentVectorNormal.logLikelihoods, IndependentVectorNormal.half_squares,
    IndependentVectorNormal.log_left_factor. simpl.
  rewrite Hx, Nat.eqb_refl. simpl. rewrite cwise_ok by done. simpl.
  rewrite cwise_ok by (rewrite length_zip_with; lia). simpl.
  rewrite exact_pow, exact_log, cwise_ok
    by (rewrite ?length_fmap, ?length_map, ?length_zip_with; lia).
  f_equal. by apply log_coefficients.
Qed.

(** The overloads for one [double] are those for the constant vector. *)
Lemma pdfs_scalar_eq (d : IndependentVectorNormal.t R) x :
  IndependentVectorNormal.pdfs_scalar d x =
    IndependentVectorNormal.pdfs d (replicate (length (IndependentVectorNormal.means_ d)) x).
Proof.
  unfold IndependentVectorNormal.pdfs_scalar, IndependentVectorNormal.pdfs.
  rewrite length_replicate, Nat.eqb_refl. simpl.
  rewrite (cwise_ok _ (replicate _ x)) by apply length_replicate. simpl. by rewrite map_sub_scalar.
Qed.

Lemma logs_scalar_eq (d : IndependentVectorNormal.t R) x :
  IndependentVectorNormal.logLikelihoods_scalar d x =
    IndependentVectorNormal.logLikelihoods d (replicate (length (IndependentVectorNormal.means_ d)) x).
Proof.
  unfold IndependentVectorNormal.logLikelihoods_scalar, IndependentVectorNormal.logLikelihoods.
  rewrite length_replicate, Nat.eqb_refl. simpl.
  rewrite (cwise_ok _ (replicate _ x)) by apply length_replicate. simpl. by rewrite map_sub_scalar.
Qed.

(** Every coefficient of [pdfs] and of [logLikelihoods], in the overloads for
    a vector and for one number, is the value of the scalar class for that
    coefficient's mean and standard deviation. *)
Theorem vector_matches_scalar (d : IndependentVectorNormal.t R) xs x :
  length (IndependentVectorNormal.getMeans d) = length (IndependentVectorNormal.getStdDevs d) →
  length xs = length (IndependentVectorNormal.getMeans d) →
  ∃ ps ls ps' ls',
    IndependentVectorNormal.pdfs d xs = Ret ps ∧
    IndependentVectorNormal.logLikelihoods d xs = Ret ls ∧
    IndependentVectorNormal.pdfs_scalar d x = Ret ps' ∧
    IndependentVectorNormal.logLikelihoods_scalar d x = Ret ls' ∧
    ∀ i m s y, IndependentVectorNormal.getMeans d !! i = Some m →
      IndependentVectorNormal.getStdDevs d !! i = Some s → xs !! i = Some y →
      ps !! i = Some (NormalDistribution.pdf (coefficient m s) y) ∧
      ls !! i = Some (NormalDistribution.logLikelihood (coefficient m s) y) ∧
      ps' !! i = Some (NormalDistribution.pdf (coefficient m s) x) ∧
      ls' !! i = Some (NormalDistribution.logLikelihood (coefficient m s) x).
Proof.
  unfold IndependentVectorNormal.getMeans, IndependentVectorNormal.getStdDevs. intros Hlen Hx.
  rewrite pdfs_scalar_eq, logs_scalar_eq.
  rewrite !pdfs_scalar_pdfs, !logs_scalar_logs by (done || apply length_replicate).
  do 4 eexists. split_and!; [done..|]. intros i m s y Hm Hs Hy.
  pose proof (lookup_lt_Some _ _ _ Hm) as Hi.
  unfold scalar_pdfs, scalar_logs.
  by rewrite !lookup_zip_with, Hm, Hs, Hy, lookup_replicate_2 by done.
Qed.

Lemma zip_with_plus_comm (l k : list R) : zip_with Rplus l k = zip_with Rplus k l.
Proof.
  revert k. induction l as [|x l IH]; intros [|y k]; [done..|]. cbn. by rewrite IH, Rplus_comm.
Qed.

Lemma reshape_columns (f : R → R) (l : list (list R)) r :
  Forall (λ c, length c = r) l →
  reshape (replicate (length l) r) (map f (concat l)) = map (map f) l.
Proof.
  induction 1 as [|c l Hc _ IH]; [done|]. simpl. rewrite map_app, take_app_length', drop_app_length'.
  - by rewrite IH.
  - by rewrite length_map.
  - by rewrite length_map.
Qed.

(** [colWiseLogLikelihoods] applies [logLikelihoods] to every column. *)
Theorem colwise_matches_vector (d : IndependentVectorNormal.t R) (x : Matrix R) :
  length (IndependentVectorNormal.getMeans d) = length (IndependentVectorNormal.getStdDevs d) →
  matrix_ok x → rows x = length (IndependentVectorNormal.getMeans d) →
  ∃ m, IndependentVectorNormal.colWiseLogLikelihoods d x = Ret m ∧ rows m = rows x ∧
    cols m = cols x ∧
    ∀ j c, columns x !! j = Some c →
      ∃ l, columns m !! j = Some l ∧ IndependentVectorNormal.logLikelihoods d c = Ret l.
Proof.
  destruct d as [ms ss g]. unfold IndependentVectorNormal.getMeans, IndependentVectorNormal.getStdDevs.
  simpl. intros Hlen Hok Hr.
  unfold IndependentVectorNormal.colWiseLogLikelihoods, colwise, IndependentVectorNormal.matrix_array,
    unaryExpr, IndependentVectorNormal.log_left_factor. simpl.
  rewrite Hr, Nat.eqb_refl. simpl. rewrite (proj2 (Nat.eqb_eq _ _) Hlen). simpl.
  rewrite exact_log, exact_pow, length_fmap, length_map, (proj2 (Nat.eqb_eq _ _) Hlen).
  unfold cols. simpl. rewrite reshape_columns.
  2: { rewrite !Forall_fmap. eapply Forall_impl; [exact Hok|]. intros c Hc. simpl in *.
       rewrite !length_zip_with. lia. }
  eexists. split; [done|]. simpl. rewrite !length_fmap.
  split_and!; [done|done|]. intros j c Hc.
  assert (length c = length ms) as Hcl.
  { rewrite <-Hr. unfold matrix_ok in Hok. rewrite Forall_lookup in Hok. by eapply Hok. }
  eexists. split; [by rewrite !list_lookup_fmap, Hc|].
  rewrite logs_scalar_logs by done. simpl. f_equal. rewrite <-log_coefficients by done.
  apply zip_with_plus_comm.
Qed.

End Densities.

(** ** The properties at concrete inputs *)

Section Examples.
#[local] Existing Instance R_random.
#[local] Existing Instance R_random_laws.

Definition standard : NormalDistribution.t R := NormalDistribution.mk 0 1 7%Z.
Definition used : NormalDistribution.t R := NormalDistribution.mk 0 1 99%Z.
Definition pair_normal : IndependentVectorNormal.t R := IndependentVectorNormal.mk [1; 2] [3; 4] 7%Z.

Lemma sample_reproducible_witness :
  NormalDistribution.sample standard 3 5 = NormalDistribution.sample used 3 5 ∧
  (∃ xs d1, NormalDistribution.sample standard 3 5 = Ret (xs, d1) ∧ length xs = 3%nat ∧
     NormalDistribution.getMean d1 = 0 ∧ NormalDistribution.getStdDev d1 = 1) ∧
  NormalDistribution.sample (NormalDistribution.setStdDev 0 standard) 3 5 =
    Undef distribution_precondition.
Proof.
  destruct (sample_reproducible standard used 3 5 eq_refl eq_refl) as (H1 & H2 & H3).
  split; [exact H1|]. split; [apply H2|apply H3].
  - apply R_fltb_true. simpl. lra.
  - apply R_fltb_false. simpl. lra.
Defined.

Lemma vector_sample_witness :
  ∃ xs, IndependentVectorNormal.sample pair_normal 5 = Ret xs ∧ length xs = 2%nat ∧
    ∀ i m s z, IndependentVectorNormal.getMeans pair_normal !! i = Some m →
      IndependentVectorNormal.getStdDevs pair_normal !! i = Some s →
      rand_normal 5 2 !! i = Some z → xs !! i = Some (z * s + m)%num.
Proof. apply (vector_sample pair_normal 5); vm_compute; (done || discriminate). Defined.

Lemma vector_lengths_witness :
  IndependentVectorNormal.pdfs pair_normal [1] = Throw (invalid_argument input_length_message) ∧
  IndependentVectorNormal.logLikelihoods pair_normal [1] =
    Throw (invalid_argument input_length_message).
Proof. apply (vector_lengths pair_normal [1]). reflexivity. Defined.

Lemma density_log_witness :
  exp (NormalDistribution.logLikelihood standard 2) = NormalDistribution.pdf standard 2 ∧
  NormalDistribution.logLikelihood standard 2 = ln (NormalDistribution.pdf standard 2) ∧
  0 < NormalDistribution.pdf standard 2 <= NormalDistribution.pdf standard 0 ∧
  NormalDistribution.pdf standard 2 = NormalDistribution.pdf standard (2 * 0 - 2).
Proof. apply (density_log standard 2). unfold NormalDistribution.getStdDev. simpl. lra. Defined.

Lemma vector_matches_scalar_witness :
  ∃ ps, IndependentVectorNormal.pdfs pair_normal [5; 6] = Ret ps ∧
    ps !! 1%nat = Some (NormalDistribution.pdf (coefficient 2 4) 6).
Proof.
  destruct (vector_matches_scalar pair_normal [5; 6] 0 eq_refl eq_refl)
    as (ps & ls & ps' & ls' & H1 & _ & _ & _ & H2).
  exists ps. split; [exact H1|]. apply (H2 1%nat 2 4 6); reflexivity.
Defined.

Lemma colwise_matches_vector_witness :
  ∃ m, IndependentVectorNormal.colWiseLogLikelihoods pair_normal (mkMatrix 2 [[5; 6]; [7; 8]]) = Ret m ∧
    rows m = 2%nat ∧ cols m = 2%nat ∧
    ∀ j c, [[5; 6]; [7; 8]] !! j = Some c →
      ∃ l, columns m !! j = Some l ∧ IndependentVectorNormal.logLikelihoods pair_normal c = Ret l.
Proof.
  apply (colwise_matches_vector pair_normal (mkMatrix 2 [[5; 6]; [7; 8]])); [reflexivity| |reflexivity].
  repeat constructor.
Defined.

End Examples.
