(* ===== verification/Particles.v ===== *)
(** stoch-vola/model/lib/statistics/particles.cpp: the class [Particles], a
    matrix with one particle per column and one time step per row, its
    constructors and operations. *)

From S2P Require Import Prelude.
From S2P Require Import Num.
From S2P Require Import Eigen.
From S2P Require Import NormalDistribution.

Definition longer_message : string :=
  "Initial particles cannot be longer than particle length.".
Definition append_message : string := "Cannot append more particles.".
Definition count_message : string :=
  "Number of new particles must be equal to the number of particles in the object.".
Definition weights_message : string :=
  "Number of weights must be equal to the number of particles in the object.".
Definition remove_message : string := "Cannot remove initial particles.".

Module Particles.
Section Code.
Context {F : Type} `{Num F} `{Libm F} `{EigenOps F} `{StdRandom F}.

(** The three counters are [unsigned int]s. *)
Record t := mk {
  particles_ : Matrix F;
  particleCount_ : Z;
  particleLength_ : Z;
  currentRow_ : Z;
  generator_ : engine;
}.

(** [MatrixXd::Zero(particleLength, particleCount_)]. *)
Definition zeros (particleLength particleCount : Z) : Matrix F :=
  Zero (Z.to_nat particleLength) (Z.to_nat particleCount).

(** The constructors from a [VectorXd] and from a [std::vector<double>], which
    fill the first row. *)
Definition of_vector (initialParticles : list F) (particleLength : Z) : outcome t :=
  let particleCount := u32 (Z.of_nat (length initialParticles)) in
  particles ← set_row (zeros particleLength particleCount) 0 initialParticles;
  Ret (mk particles particleCount particleLength 0 default_engine).

(** The constructor from a [MatrixXd]. *)
Definition of_matrix (initialParticles : Matrix F) (particleLength : Z) : outcome t :=
  if Z.of_nat (rows initialParticles) >? particleLength
  then Throw (invalid_argument longer_message)
  else
    let particleCount := u32 (Z.of_nat (cols initialParticles)) in
    particles ← set_topRows (zeros particleLength particleCount) initialParticles;
    Ret (mk particles particleCount particleLength 0 default_engine).

(** The inner loop over [row], for one [col]: [todo] rows are left from [row].
    The bound is the [int] [len = particleLength_], so [row] stays in range;
    the counters of the other loops are [int]s compared with an [unsigned int],
    and their increment can overflow. *)
Fixpoint fill_col (todo : nat) (particles : Matrix F) (column : list F) (row col : Z) :
    outcome (Matrix F) :=
  match todo with
  | O => Ret particles
  | S todo =>
      x ← array_get column row;
      particles ← set_coeff particles row col x;
      fill_col todo particles column (row + 1) col
  end.

Fixpoint fill_cols (todo : nat) (particles : Matrix F) (initialParticles : list (list F))
    (particleLength col : Z) : outcome (Matrix F) :=
  match todo with
  | O => Ret particles
  | S todo =>
      column ← array_get initialParticles col;
      particles ← fill_col (Z.to_nat (i32 particleLength)) particles column 0 col;
      col ← int_add col 1;
      fill_cols todo particles initialParticles particleLength col
  end.

(** The constructor from a [std::vector<std::vector<double>>], one inner vector
    per particle. *)
Definition of_vectors (initialParticles : list (list F)) (particleLength : Z) : outcome t :=
  if Z.of_nat (length initialParticles) >? particleLength
  then Throw (invalid_argument longer_message)
  else
    let particleCount := u32 (Z.of_nat (length initialParticles)) in
    first ← array_get initialParticles 0;
    let currentRow := u32 (u64 (Z.of_nat (length first) - 1)) in
    particles ← fill_cols (Z.to_nat particleCount) (zeros particleLength particleCount)
                  initialParticles particleLength 0;
    Ret (mk particles particleCount particleLength currentRow default_engine).

(** The constructors that draw the first row from a distribution. *)
Definition of_normal (dist : NormalDistribution.t F) (nParticles particleLength seed : Z) :
    outcome (t * NormalDistribution.t F) :=
  '(samples, dist) ← NormalDistribution.sample dist (Z.to_nat nParticles) seed;
  particles ← set_row (zeros particleLength nParticles) 0 samples;
  Ret (mk particles nParticles particleLength 0 default_engine, dist).

Definition of_vector_normal (dist : IndependentVectorNormal.t F) (particleLength seed : Z) :
    outcome t :=
  let particleCount := u32 (Z.of_nat (length (IndependentVectorNormal.getMeans dist))) in
  samples ← IndependentVectorNormal.sample dist seed;
  particles ← set_row (zeros particleLength particleCount) 0 samples;
  Ret (mk particles particleCount particleLength 0 default_engine).

(** [operator==]. *)
Definition eqb (p other : t) : bool :=
  if negb (particleCount_ p =? particleCount_ other) ||
     negb (particleLength_ p =? particleLength_ other)
  then false
  else isApprox (particles_ p) (particles_ other).

Definition with_particles (particles : Matrix F) (p : t) : t :=
  mk particles (particleCount_ p) (particleLength_ p) (currentRow_ p) (generator_ p).

Definition applyTransformation (func : F → F) (p : t) : t :=
  with_particles (unaryExpr func (particles_ p)) p.

(** The loop over [row]: [todo] rows are left. *)
Fixpoint reduce_rows (todo : nat) (func : list F → F) (particles : Matrix F) (row : Z) :
    outcome (list F) :=
  match todo with
  | O => Ret []
  | S todo =>
      v ← get_row particles row;
      row ← int_add row 1;
      result ← reduce_rows todo func particles row;
      Ret (func v :: result)
  end.

Definition reduceParticles (func : list F → F) (p : t) : outcome (list F) :=
  reduce_rows (Z.to_nat (particleLength_ p)) func (particles_ p) 0.

Fixpoint reduce_cols (todo : nat) (func : list F → F) (particles : Matrix F) (col : Z) :
    outcome (list F) :=
  match todo with
  | O => Ret []
  | S todo =>
      v ← get_col particles col;
      col ← int_add col 1;
      result ← reduce_cols todo func particles col;
      Ret (func v :: result)
  end.

Definition reduceTraces (func : list F → F) (p : t) : outcome (list F) :=
  reduce_cols (Z.to_nat (particleCount_ p)) func (particles_ p) 0.

Definition appendParticles (newParticles : list F) (p : t) : outcome t :=
  if currentRow_ p >=? u32 (particleLength_ p - 1)
  then Throw (invalid_argument append_message)
  else if negb (Z.of_nat (length newParticles) =? particleCount_ p)
  then Throw (invalid_argument count_message)
  else
    particles ← set_row (particles_ p) (u32 (currentRow_ p + 1)) newParticles;
    Ret (mk particles (particleCount_ p) (particleLength_ p) (u32 (currentRow_ p + 1)) (generator_ p)).

Definition getLatestParticles (p : t) : outcome (list F) := get_row (particles_ p) (currentRow_ p).

Definition getParticlesAsEigenMatrix (p : t) : Matrix F := particles_ p.

Definition setSeed (seed : Z) (p : t) : t :=
  mk (particles_ p) (particleCount_ p) (particleLength_ p) (currentRow_ p) (engine_seed seed).

(** [for (col) newParticles.col(col) = particles_.col(distribution(generator_))]. *)
Fixpoint resample_loop (todo : nat) (distribution : discrete_distribution) (generator : engine)
    (particles newParticles : Matrix F) (col : Z) : outcome (Matrix F * engine) :=
  match todo with
  | O => Ret (newParticles, generator)
  | S todo =>
      let '(index, generator) := discrete_draw distribution generator in
      c ← get_col particles index;
      newParticles ← set_col newParticles col c;
      col ← int_add col 1;
      resample_loop todo distribution generator particles newParticles col
  end.

Definition resampleParticles (weights : list F) (seed : Z) (p : t) : outcome t :=
  if negb (Z.of_nat (length weights) =? particleCount_ p)
  then Throw (invalid_argument weights_message)
  else
    let p := setSeed seed p in
    if discrete_ok weights then
      let distribution := discrete_make weights in
      '(newParticles, generator) ←
        resample_loop (Z.to_nat (particleCount_ p)) distribution (generator_ p) (particles_ p)
          (zeros (particleLength_ p) (particleCount_ p)) 0;
      Ret (mk newParticles (particleCount_ p) (particleLength_ p) (currentRow_ p) generator)
    else Undef distribution_precondition.

Definition getParticlesWithoutInit (p : t) : outcome t :=
  if particleLength_ p =? 1 then Throw (invalid_argument remove_message)
  else
    newParticles ← bottomRows (particles_ p) (u32 (particleLength_ p - 1));
    of_matrix newParticles (u32 (particleLength_ p - 1)).

Definition getParticleCount (p : t) : Z := particleCount_ p.
Definition getParticleLength (p : t) : Z := particleLength_ p.

End Code.
Arguments t F {_}.
End Particles.
