(* ===== verification/ParticlesProps.v ===== *)
(** The properties of [Particles]: the shape of the matrix as an invariant of
    every operation, what appending, resampling, filling and removing rows do
    to it, and the argument errors. *)

From S2P Require Import Prelude.
From S2P Require Import Num.
From S2P Require Import NumR.
From S2P Require Import Eigen.
From S2P Require Import EigenR.
From S2P Require Import NormalDistribution.
From S2P Require Import NormalProps.
From S2P Require Import Particles.
From Stdlib Require Import Reals Lra.

Section Props.
Context {F : Type} `{Num F} `{Libm F} `{EigenOps F} `{StdRandom F}.

(** The matrix has the announced dimensions and the current row is one of its rows. *)
Record wf (p : Particles.t F) : Prop := {
  wf_matrix : matrix_ok (Particles.particles_ p);
  wf_rows : Z.of_nat (rows (Particles.particles_ p)) = Particles.particleLength_ p;
  wf_cols : Z.of_nat (cols (Particles.particles_ p)) = Particles.particleCount_ p;
  wf_length : Particles.particleLength_ p < 2 ^ 32;
  wf_current : 0 <= Particles.currentRow_ p < Particles.particleLength_ p;
}.

(** A row of the object. *)
Definition row_of (p : Particles.t F) (i : Z) : outcome (list F) :=
  get_row (Particles.particles_ p) i.

(** ** Building the first row *)

Lemma zeros_rows l c : rows (Particles.zeros l c) = Z.to_nat l.
Proof. done. Qed.

Lemma zeros_cols l c : cols (Particles.zeros l c) = Z.to_nat c.
Proof. apply cols_Zero. Qed.

(** All constructors that fill the first row end this way. *)
Lemma first_row (l : Z) (c : Z) (v : list F) :
  0 < l < 2 ^ 32 → 0 <= c → Z.of_nat (length v) = c →
  ∃ m, set_row (Particles.zeros l c) 0 v = Ret m ∧
    wf (Particles.mk m c l 0 default_engine) ∧ get_row m 0 = Ret v.
Proof.
  intros Hl Hc Hv.
  pose proof (set_row_ok (Particles.zeros l c) 0 v) as Hok.
  rewrite zeros_rows, zeros_cols in Hok. specialize (Hok ltac:(lia) ltac:(lia)).
  eexists. split; [exact Hok|].
  destruct (set_row_spec _ _ _ _ Hok) as (Hm & Hr & Hcl & Hget & _); [apply Zero_ok|].
  split; [|done]. split; cbn [Particles.particles_ Particles.particleCount_
    Particles.particleLength_ Particles.currentRow_]; try done; try lia.
  - rewrite Hr, zeros_rows. lia.
  - rewrite Hcl, zeros_cols. lia.
Qed.

(** A constructor of this kind that returns gives a well-formed object. *)
Lemma first_row_inv l c v m :
  l < 2 ^ 32 → 0 <= c → set_row (Particles.zeros l c) 0 v = Ret m →
  wf (Particles.mk m c l 0 default_engine).
Proof.
  intros Hl Hc Hset. pose proof Hset as Hdef. unfold set_row in Hdef.
  rewrite zeros_rows, zeros_cols in Hdef. destruct (_ && _ && _) eqn:E in Hdef; [|done].
  apply andb_true_iff in E as [E Hlen%Nat.eqb_eq]. zbool.
  destruct (first_row l c v) as (m' & Heq & Hwf & _); [lia|done|lia|]. congruence.
Qed.

Lemma of_vector_wf v l :
  0 < l < 2 ^ 32 → Z.of_nat (length v) < 2 ^ 32 →
  ∃ p, Particles.of_vector v l = Ret p ∧ wf p ∧ Particles.getLatestParticles p = Ret v ∧
    Particles.currentRow_ p = 0 ∧ Particles.particleLength_ p = l.
Proof.
  intros Hl Hv. unfold Particles.of_vector. rewrite u32_id by lia.
  destruct (first_row l (Z.of_nat (length v)) v) as (m & -> & Hwf & Hrow); [done|lia|done|].
  simpl. eexists. split; [done|]. done.
Qed.

Lemma of_vector_normal_wf `{!RandomLaws F} d l seed :
  0 < l < 2 ^ 32 →
  length (IndependentVectorNormal.getMeans d) = length (IndependentVectorNormal.getStdDevs d) →
  Z.of_nat (length (IndependentVectorNormal.getMeans d)) <= INT_MAX →
  ∃ p v, IndependentVectorNormal.sample d seed = Ret v ∧
    Particles.of_vector_normal d l seed = Ret p ∧ wf p ∧ Particles.getLatestParticles p = Ret v ∧
    Particles.currentRow_ p = 0 ∧ Particles.particleLength_ p = l ∧
    Particles.particleCount_ p = Z.of_nat (length (IndependentVectorNormal.getMeans d)).
Proof.
  intros Hl Hlen Hmax. unfold Particles.of_vector_normal.
  destruct (vector_sample d seed Hlen Hmax) as (v & Hv & Hvl & _). rewrite Hv. simpl.
  rewrite u32_id by int_lia.
  destruct (first_row l (Z.of_nat (length (IndependentVectorNormal.getMeans d))) v)
    as (m & -> & Hwf & Hrow); [done|lia|by rewrite Hvl|].
  simpl. eexists _, v. split; [done|]. split; [done|]. done.
Qed.

(** ** Operations that keep the shape *)

Lemma transform_wf f p : wf p → wf (Particles.applyTransformation f p).
Proof.
  intros [Hm Hr Hc Hl Hcur]. split; cbn; try done.
  - unfold matrix_ok. cbn. rewrite Forall_fmap. eapply Forall_impl; [exact Hm|].
    intros c Hcl. cbn in *. by rewrite length_map.
  - unfold cols. cbn. by rewrite length_fmap.
Qed.

Lemma append_ok p v :
  wf p → Particles.currentRow_ p + 1 < Particles.particleLength_ p →
  Z.of_nat (length v) = Particles.particleCount_ p →
  ∃ p', Particles.appendParticles v p = Ret p' ∧ wf p' ∧
    Particles.currentRow_ p' = Particles.currentRow_ p + 1 ∧
    Particles.particleLength_ p' = Particles.particleLength_ p ∧
    Particles.particleCount_ p' = Particles.particleCount_ p ∧
    Particles.getLatestParticles p' = Ret v ∧
    ∀ i, i ≠ Particles.currentRow_ p + 1 → row_of p' i = row_of p i.
Proof.
  intros [Hm Hr Hc Hl Hcur] Hroom Hv. unfold Particles.appendParticles.
  rewrite !u32_id by lia. rewrite (proj2 (Z.eqb_eq _ _) Hv).
  destruct (_ >=? _) eqn:E; zbool; [apply Z.leb_le in E; lia|]. cbn [negb].
  rewrite set_row_ok by lia. cbn [mbind outcome_bind].
  pose proof (set_row_ok (Particles.particles_ p) (Particles.currentRow_ p + 1) v ltac:(lia) ltac:(lia))
    as Hset.
  destruct (set_row_spec _ _ _ _ Hset Hm) as (Hm' & Hr' & Hc' & Hget & Hother).
  eexists. split; [done|]. split_and!; try done.
  split; cbn [Particles.particles_ Particles.particleCount_
    Particles.particleLength_ Particles.currentRow_] in *; try done; try lia.
Qed.
(** ** Resampling *)

Lemma get_col_ok (m : Matrix F) j c :
  0 <= j → columns m !! Z.to_nat j = Some c → get_col m j = Ret c.
Proof. intros Hj Hc. unfold get_col. destruct (_ <? _) eqn:E; zbool; [lia|]. by rewrite Hc. Qed.

Lemma set_col_ok (m : Matrix F) l1 x l2 c :
  columns m = l1 ++ x :: l2 → length c = rows m →
  set_col m (Z.of_nat (length l1)) c = Ret (mkMatrix (rows m) (l1 ++ c :: l2)).
Proof.
  intros Hm Hc. unfold set_col, cols. rewrite Hm, Hc, Nat.eqb_refl, length_app. simpl.
  destruct (0 <=? _) eqn:E1, (_ <? _) eqn:E2; zbool; simpl; try lia.
  rewrite Nat2Z.id. do 2 f_equal. replace (length l1) with (length l1 + 0)%nat by lia.
  by rewrite insert_app_r.
Qed.

(** The successive draws of the distribution, and the engine after them. *)
Fixpoint draws (n : nat) (distribution : discrete_distribution) (generator : engine) :
    list Z * engine :=
  match n with
  | O => ([], generator)
  | S n =>
      let '(index, generator) := discrete_draw distribution generator in
      let rest := draws n distribution generator in (index :: rest.1, rest.2)
  end.

Lemma draws_length n : ∀ d e, length (draws n d e).1 = n.
Proof.
  induction n as [|n IH]; intros d e; [done|]. simpl. destruct (discrete_draw d e).
  simpl. by rewrite IH.
Qed.

(** The columns [new] are those of [old] at the indices [js]. *)
Definition selected (old : Matrix F) (js : list Z) (new : list (list F)) : Prop :=
  Forall2 (λ j c, columns old !! Z.to_nat j = Some c) js new.

Lemma selected_elem old js new c : selected old js new → c ∈ new → c ∈ columns old.
Proof.
  intros Hs Hc. induction Hs as [|j c' js new Hj _ IH]; [by apply elem_of_nil in Hc|].
  apply elem_of_cons in Hc as [->|Hc]; [by eapply list_elem_of_lookup_2|by apply IH].
Qed.

Lemma resample_loop_ok `{!RandomLaws F} weights old todo : ∀ e l1 l2,
  weights ≠ [] → discrete_ok weights = true → matrix_ok old → length weights = cols old →
  length l2 = todo → Z.of_nat (length l1) + Z.of_nat todo <= INT_MAX →
  let ds := draws todo (discrete_make weights) e in
  ∃ l2', Particles.resample_loop todo (discrete_make weights) e old
      (mkMatrix (rows old) (l1 ++ l2)) (Z.of_nat (length l1)) =
    Ret (mkMatrix (rows old) (l1 ++ l2'), ds.2) ∧ selected old ds.1 l2'.
Proof.
  induction todo as [|todo IH]; intros e l1 l2 Hw Hok Hm Hlen Hl2 Hmax.
  { exists []. destruct l2; [|done]. split; [done|constructor]. }
  destruct l2 as [|x l2]; [done|]. cbn [Particles.resample_loop draws].
  pose proof (discrete_range weights e Hw Hok) as Hr.
  destruct (discrete_draw (discrete_make weights) e) as [j e1]. cbn [fst] in Hr.
  destruct (lookup_lt_is_Some_2 (columns old) (Z.to_nat j)) as [c Hc]; [unfold cols in Hlen; lia|].
  rewrite (get_col_ok old j c) by (done || lia). cbn [mbind outcome_bind].
  assert (length c = rows old) as Hcl.
  { unfold matrix_ok in Hm. rewrite Forall_lookup in Hm. by eapply Hm. }
  rewrite (set_col_ok _ l1 x l2) by done. cbn [mbind outcome_bind rows].
  rewrite int_add_ok by int_lia. cbn [mbind outcome_bind].
  destruct (IH e1 (l1 ++ [c]) l2 Hw Hok Hm Hlen) as (l2' & Heq & Hsel);
    [by injection Hl2|rewrite length_app; simpl; lia|].
  rewrite length_app, <-!app_assoc in Heq. simpl in Heq.
  replace (Z.of_nat (length l1 + 1)) with (Z.of_nat (length l1) + 1) in Heq by lia.
  exists (c :: l2'). split; [done|]. by constructor.
Qed.

(** A loop that returns has not overflowed its counter. *)
Lemma int_add_inv a b c : int_add a b = Ret c → c = a + b ∧ a + b <= INT_MAX.
Proof.
  unfold int_add, to_int. destruct (Prelude.in_int _) eqn:E; [|done]. intros [= <-].
  apply in_int_spec in E. lia.
Qed.

Lemma resample_loop_bound todo : ∀ d e old new col r,
  Particles.resample_loop todo d e old new col = Ret r → col <= INT_MAX →
  col + Z.of_nat todo <= INT_MAX.
Proof.
  induction todo as [|todo IH]; intros d e old new col r Hr Hcol; [lia|].
  cbn [Particles.resample_loop] in Hr. destruct (discrete_draw d e) as [j e'].
  destruct (get_col old j); [|done..]. cbn [mbind outcome_bind] in Hr.
  destruct (set_col new col _); [|done..]. cbn [mbind outcome_bind] in Hr.
  destruct (int_add col 1) as [col'| | |] eqn:E; [|done..]. cbn [mbind outcome_bind] in Hr.
  apply int_add_inv in E as [-> Hle]. apply IH in Hr; lia.
Qed.

Lemma resample_ok `{!RandomLaws F} p weights seed :
  wf p → Z.of_nat (length weights) = Particles.particleCount_ p → discrete_ok weights = true →
  Particles.particleCount_ p <= INT_MAX →
  let ds := draws (Z.to_nat (Particles.particleCount_ p)) (discrete_make weights) (engine_seed seed) in
  ∃ p', Particles.resampleParticles weights seed p = Ret p' ∧ wf p' ∧
    Particles.currentRow_ p' = Particles.currentRow_ p ∧
    Particles.particleLength_ p' = Particles.particleLength_ p ∧
    Particles.particleCount_ p' = Particles.particleCount_ p ∧
    Particles.generator_ p' = ds.2 ∧
    selected (Particles.particles_ p) ds.1 (columns (Particles.particles_ p')).
Proof.
  intros [Hm Hr Hc Hl Hcur] Hw Hok Hmax. unfold Particles.resampleParticles.
  rewrite (proj2 (Z.eqb_eq _ _) Hw). cbn [negb]. rewrite Hok.
  unfold Particles.setSeed. cbn [Particles.particles_ Particles.particleCount_
    Particles.particleLength_ Particles.currentRow_ Particles.generator_].
  destruct (decide (weights = [])) as [->|Hne].
  - simpl in Hw. rewrite <-Hw. simpl. eexists. split; [done|]. split_and!; try done.
    + split; cbn; try done; try lia. apply Zero_ok.
    + constructor.
  - destruct (resample_loop_ok weights (Particles.particles_ p) (Z.to_nat (Particles.particleCount_ p))
      (engine_seed seed) [] (columns (Particles.zeros (Particles.particleLength_ p)
        (Particles.particleCount_ p))) Hne Hok Hm) as (l & Heq & Hsel).
    + lia.
    + apply zeros_cols.
    + cbn [length]. lia.
    + cbn [app length] in Heq. change (Z.of_nat 0) with 0 in Heq.
      assert (Particles.zeros (Particles.particleLength_ p) (Particles.particleCount_ p) =
        mkMatrix (rows (Particles.particles_ p))
          (columns (Particles.zeros (Particles.particleLength_ p) (Particles.particleCount_ p))))
        as Hz by (unfold Particles.zeros, Zero; simpl; f_equal; lia).
      rewrite Hz, Heq. cbn [mbind outcome_bind]. eexists. split; [done|].
      split_and!; try done. split; cbn; try done.
      * unfold matrix_ok in *. rewrite Forall_forall in *. intros c Hcin.
        apply Hm. by eapply selected_elem.
      * unfold cols. cbn. apply Forall2_length in Hsel. rewrite <-Hsel, draws_length. lia.
Qed.
(** ** Filling from nested vectors *)

Lemma set_coeff_ok (m : Matrix F) l1 c1 y c2 l2 x :
  columns m = l1 ++ (c1 ++ y :: c2) :: l2 → (length c1 < rows m)%nat →
  set_coeff m (Z.of_nat (length c1)) (Z.of_nat (length l1)) x =
    Ret (mkMatrix (rows m) (l1 ++ (c1 ++ x :: c2) :: l2)).
Proof.
  intros Hm Hc. unfold set_coeff, cols. rewrite Hm, length_app. simpl.
  destruct (0 <=? Z.of_nat (length c1)) eqn:E1, (_ <? Z.of_nat (rows m)) eqn:E2,
    (0 <=? Z.of_nat (length l1)) eqn:E3, (_ <? _) eqn:E4 in |- *; zbool; simpl; try lia.
  rewrite !Nat2Z.id. do 2 f_equal.
  replace (length l1) with (length l1 + 0)%nat by lia. rewrite alter_app_r. simpl.
  do 2 f_equal. replace (length c1) with (length c1 + 0)%nat by lia. by rewrite insert_app_r.
Qed.

Lemma fill_col_ok r (l1 l2 : list (list F)) column todo : ∀ c1 c2 : list F,
  length c2 = todo → (length c1 + todo = r)%nat → (r <= length column)%nat →
  Particles.fill_col todo (mkMatrix r (l1 ++ (c1 ++ c2) :: l2)) column
      (Z.of_nat (length c1)) (Z.of_nat (length l1)) =
    Ret (mkMatrix r (l1 ++ (c1 ++ take todo (drop (length c1) column)) :: l2)).
Proof.
  induction todo as [|todo IH]; intros c1 c2 Hc2 Hr Hcol.
  { destruct c2; [|done]. by rewrite take_0. }
  destruct c2 as [|y c2]; [done|]. cbn [Particles.fill_col].
  destruct (lookup_lt_is_Some_2 column (length c1)) as [x Hx]; [lia|].
  rewrite (array_get_ok column _ x) by (rewrite ?Nat2Z.id; done || lia). cbn [mbind outcome_bind].
  rewrite (set_coeff_ok _ l1 c1 y c2 l2) by (done || simpl; lia). cbn [mbind outcome_bind rows].
  specialize (IH (c1 ++ [x]) c2). rewrite length_app, <-!app_assoc in IH. cbn [length app] in IH.
  replace (Z.of_nat (length c1) + 1) with (Z.of_nat (length c1 + 1)) by lia.
  rewrite IH by (simpl in *; lia). do 4 f_equal.
  rewrite (drop_S column x (length c1)) by done. cbn [take].
  by replace (length c1 + 1)%nat with (S (length c1)) by lia.
Qed.

Lemma fill_cols_ok r init l : ∀ l1 l2 : list (list F),
  Z.of_nat r = l → l <= INT_MAX → Forall (λ c, (r <= length c)%nat) init →
  Forall (λ c, length c = r) l2 →
  (length l1 + length l2 = length init)%nat → Z.of_nat (length init) <= INT_MAX →
  Particles.fill_cols (length l2) (mkMatrix r (l1 ++ l2)) init l (Z.of_nat (length l1)) =
    Ret (mkMatrix r (l1 ++ (take r <$> drop (length l1) init))).
Proof.
  intros l1 l2 Hr Hlmax Hinit. revert l1. induction l2 as [|c l2 IH]; intros l1 Hl2 Hlen Hmax.
  { rewrite drop_ge by (simpl in Hlen; lia). done. }
  cbn [Particles.fill_cols length].
  destruct (lookup_lt_is_Some_2 init (length l1)) as [x Hx]; [simpl in Hlen; lia|].
  rewrite (array_get_ok init _ x) by (rewrite ?Nat2Z.id; done || lia). cbn [mbind outcome_bind].
  rewrite Forall_cons in Hl2. destruct Hl2 as [Hc Hl2].
  pose proof (fill_col_ok r l1 l2 x r [] c Hc) as Hfill. cbn [app length Nat.add] in Hfill. rewrite drop_0 in Hfill.
  change (Z.of_nat 0) with 0 in Hfill. rewrite i32_id by int_lia. replace (Z.to_nat l) with r by lia.
  rewrite Hfill; [|done|]. 2: { rewrite Forall_lookup in Hinit. by eapply Hinit. }
  cbn [mbind outcome_bind]. rewrite int_add_ok by (simpl in Hlen; int_lia).
  cbn [mbind outcome_bind]. specialize (IH (l1 ++ [take r x]) Hl2).
  rewrite length_app, <-!app_assoc in IH. cbn [length app] in IH.
  replace (Z.of_nat (length l1) + 1) with (Z.of_nat (length l1 + 1)) by lia.
  rewrite IH by (simpl in Hlen; lia). rewrite (drop_S init x (length l1)) by done.
  by replace (length l1 + 1)%nat with (S (length l1)) by lia.
Qed.

(** A first column that is too short stops the filling at its end. *)
Lemma fill_col_short r (l1 l2 : list (list F)) column todo : ∀ c1 c2 : list F,
  length c2 = todo → (length c1 + todo = r)%nat → (length c1 <= length column < r)%nat →
  Particles.fill_col todo (mkMatrix r (l1 ++ (c1 ++ c2) :: l2)) column
      (Z.of_nat (length c1)) (Z.of_nat (length l1)) =
    Undef (index_out_of_bounds (Z.of_nat (length column))).
Proof.
  induction todo as [|todo IH]; intros c1 c2 Hc2 Hr Hcol; [lia|].
  destruct c2 as [|y c2]; [done|]. cbn [Particles.fill_col].
  destruct (decide (length c1 = length column)) as [Heq|Hne].
  { rewrite array_get_out by lia. by rewrite Heq. }
  destruct (lookup_lt_is_Some_2 column (length c1)) as [x Hx]; [lia|].
  rewrite (array_get_ok column _ x) by (rewrite ?Nat2Z.id; done || lia). cbn [mbind outcome_bind].
  rewrite (set_coeff_ok _ l1 c1 y c2 l2) by (done || simpl; lia). cbn [mbind outcome_bind rows].
  specialize (IH (c1 ++ [x]) c2). rewrite length_app, <-!app_assoc in IH. cbn [length app] in IH.
  replace (Z.of_nat (length c1) + 1) with (Z.of_nat (length c1 + 1)) by lia.
  apply IH; simpl in *; lia.
Qed.

(** The constructor from nested vectors compares the number of particles (not
    their length) with [particleLength], and reads [particleLength] values of
    every inner vector: it gives the transposed matrix when the inner vectors
    are long enough, and reads out of bounds when the first one is shorter;
    for a [particleLength] that an [int] holds. *)
Theorem of_vectors_behaviour (init : list (list F)) l first :
  head init = Some first → 0 <= l <= INT_MAX →
  (Z.of_nat (length init) > l →
     Particles.of_vectors init l = Throw (invalid_argument longer_message)) ∧
  (Z.of_nat (length init) <= l → Forall (λ c, l <= Z.of_nat (length c)) init →
     ∃ p, Particles.of_vectors init l = Ret p ∧
       Particles.particles_ p = mkMatrix (Z.to_nat l) (take (Z.to_nat l) <$> init) ∧
       Particles.particleCount_ p = Z.of_nat (length init) ∧
       Particles.particleLength_ p = l) ∧
  (Z.of_nat (length init) <= l → Z.of_nat (length first) < l →
     Particles.of_vectors init l =
       Undef (index_out_of_bounds (Z.of_nat (length first)))).
Proof.
  intros Hfirst Hl. destruct init as [|c init]; [done|]. injection Hfirst as ->.
  unfold Particles.of_vectors. split_and!.
  - intros Hgt. by rewrite (proj2 (Z.gtb_gt _ _)) by lia.
  - intros Hle Hall. destruct (_ >? _) eqn:E; zbool; [apply Z.ltb_lt in E; lia|].
    rewrite u32_id by int_lia. rewrite (array_get_ok _ 0 first) by done. cbn [mbind outcome_bind].
    pose proof (fill_cols_ok (Z.to_nat l) (first :: init) l []
      (columns (Particles.zeros l (Z.of_nat (length (first :: init)))))) as Hfill.
    cbn [app length] in Hfill. change (Z.of_nat 0) with 0 in Hfill.
    assert (length (columns (Particles.zeros l (Z.of_nat (S (length init))))) = S (length init))
      as Hcols by (unfold Particles.zeros, Zero; simpl; rewrite length_replicate; lia).
    rewrite Hcols in Hfill. rewrite Nat2Z.id.
    change (mkMatrix (Z.to_nat l) (columns (Particles.zeros l ?c))) with (Particles.zeros l c) in Hfill.
    cbn [length] in *. rewrite Hfill.
    + simpl. eexists. split; [done|]. done.
    + lia.
    + lia.
    + eapply Forall_impl; [exact Hall|]. simpl. intros. lia.
    + apply Zero_ok.
    + done.
    + lia.
  - intros Hle Hshort. destruct (_ >? _) eqn:E; zbool; [apply Z.ltb_lt in E; lia|].
    rewrite u32_id by int_lia. rewrite (array_get_ok _ 0 first) by done. cbn [mbind outcome_bind].
    rewrite Nat2Z.id. cbn [length Particles.fill_cols].
    rewrite (array_get_ok _ 0 first) by done. cbn [mbind outcome_bind].
    pose proof (fill_col_short (Z.to_nat l) [] (replicate (length init) (replicate (Z.to_nat l) (of_Z 0)))
      first (Z.to_nat l) [] (replicate (Z.to_nat l) (of_Z 0))) as Hfill.
    cbn [app length] in Hfill. change (Z.of_nat 0) with 0 in Hfill.
    unfold Particles.zeros, Zero. rewrite Nat2Z.id, i32_id by int_lia. cbn [replicate].
    rewrite Hfill; [done| |lia|lia].
    apply length_replicate.
Qed.
(** ** Removing the initial row *)

Lemma zeros_topRows (r : nat) (l : list (list F)) :
  Forall (λ c, length c = r) l →
  set_topRows (Zero r (length l)) (mkMatrix r l) = Ret (mkMatrix r l).
Proof.
  intros Hl. unfold set_topRows. rewrite cols_Zero. cbn [rows cols columns].
  unfold cols. cbn [columns]. rewrite Nat.leb_refl, Nat.eqb_refl. cbn [andb]. do 2 f_equal.
  unfold Zero. cbn [columns]. clear Hl. induction l as [|c l IH]; [done|].
  cbn [length replicate zip_with]. rewrite drop_ge by (by rewrite length_replicate).
  by rewrite app_nil_r, IH.
Qed.

Lemma of_matrix_ok (m : Matrix F) l :
  matrix_ok m → Z.of_nat (rows m) = l → 0 < l < 2 ^ 32 → Z.of_nat (cols m) < 2 ^ 32 →
  let p := Particles.mk m (Z.of_nat (cols m)) l 0 default_engine in
  Particles.of_matrix m l = Ret p ∧ wf p.
Proof.
  intros Hm <- Hr Hc. unfold Particles.of_matrix. destruct (_ >? _) eqn:E; zbool.
  { apply Z.ltb_lt in E. lia. }
  rewrite u32_id by lia. unfold Particles.zeros. rewrite !Nat2Z.id.
  destruct m as [r l]. unfold cols in *. cbn [rows columns] in *.
  rewrite zeros_topRows by done. split; [done|]. split; cbn; done || lia.
Qed.

(** ** Every object that an operation returns is well-formed *)

Lemma append_inv p v p' : wf p → Particles.appendParticles v p = Ret p' → wf p'.
Proof.
  intros Hwf Heq. pose proof Hwf as [_ _ _ Hl Hcur].
  pose proof Heq as Happ. unfold Particles.appendParticles in Happ.
  destruct (_ >=? _) eqn:E1; [done|]. destruct (negb _) eqn:E2; [done|].
  rewrite u32_id in E1 by lia. zbool. apply Z.leb_gt in E1.
  apply negb_false_iff, Z.eqb_eq in E2.
  destruct (append_ok p v Hwf) as (p1 & Heq1 & Hwf1 & _); [lia|done|]. congruence.
Qed.

Lemma resample_inv `{!RandomLaws F} p w seed p' :
  wf p → Particles.resampleParticles w seed p = Ret p' → wf p'.
Proof.
  intros Hwf Heq. pose proof Heq as Hres. unfold Particles.resampleParticles in Hres.
  destruct (negb _) eqn:E1; [done|]. apply negb_false_iff, Z.eqb_eq in E1.
  destruct (discrete_ok w) eqn:E2; [|done].
  destruct (Particles.resample_loop _ _ _ _ _ _) as [r| | |] eqn:Hloop; [|done..].
  apply resample_loop_bound in Hloop; [|int_lia].
  destruct (resample_ok p w seed Hwf E1 E2) as (p1 & Heq1 & Hwf1 & _); [|congruence].
  pose proof (Zle_0_nat (length w)). cbn in Hloop. lia.
Qed.

Lemma without_init_inv p p' :
  wf p → Particles.particleCount_ p < 2 ^ 32 →
  Particles.getParticlesWithoutInit p = Ret p' → wf p'.
Proof.
  intros [Hm Hr Hc Hl Hcur] Hcount Heq. unfold Particles.getParticlesWithoutInit in Heq.
  destruct (_ =? 1) eqn:E; [done|]. zbool. rewrite u32_id in Heq by lia.
  unfold bottomRows in Heq.
  destruct (_ && _) eqn:E2; [|done]. zbool. cbn [mbind outcome_bind] in Heq.
  destruct (of_matrix_ok (mkMatrix (Z.to_nat (Particles.particleLength_ p - 1))
    (drop (rows (Particles.particles_ p) - Z.to_nat (Particles.particleLength_ p - 1)) <$>
     columns (Particles.particles_ p))) (Particles.particleLength_ p - 1)) as [Heq1 Hwf1].
  - unfold matrix_ok in *. cbn. rewrite Forall_fmap. eapply Forall_impl; [exact Hm|].
    intros c Hcl. cbn in *. rewrite length_drop. lia.
  - cbn. lia.
  - lia.
  - unfold cols in *. cbn. rewrite length_fmap. lia.
  - rewrite Heq1 in Heq. by injection Heq as <-.
Qed.

Lemma of_vector_inv v l p' : 0 < l < 2 ^ 32 → Particles.of_vector v l = Ret p' → wf p'.
Proof.
  intros Hl Heq. unfold Particles.of_vector in Heq.
  destruct (set_row _ _ _) as [m| | |] eqn:Hm; [|done..]. injection Heq as <-.
  eapply first_row_inv; [lia|apply u32_range|exact Hm].
Qed.

Lemma of_normal_inv d n l seed p' d' :
  0 < l < 2 ^ 32 → 0 <= n → Particles.of_normal d n l seed = Ret (p', d') → wf p'.
Proof.
  intros Hl Hn Heq. unfold Particles.of_normal in Heq.
  destruct (NormalDistribution.sample _ _ _) as [[xs d1]| | |]; [|done..].
  cbn [mbind outcome_bind] in Heq.
  destruct (set_row _ _ _) as [m| | |] eqn:Hm; [|done..]. injection Heq as <- _.
  eapply first_row_inv; [lia|done|exact Hm].
Qed.

Lemma of_vector_normal_inv d l seed p' :
  0 < l < 2 ^ 32 → Particles.of_vector_normal d l seed = Ret p' → wf p'.
Proof.
  intros Hl Heq. unfold Particles.of_vector_normal in Heq.
  destruct (IndependentVectorNormal.sample _ _) as [xs| | |]; [|done..].
  cbn [mbind outcome_bind] in Heq.
  destruct (set_row _ _ _) as [m| | |] eqn:Hm; [|done..]. injection Heq as <-.
  eapply first_row_inv; [lia|apply u32_range|exact Hm].
Qed.

Lemma of_matrix_inv m l p' :
  0 < l < 2 ^ 32 → matrix_ok m → Particles.of_matrix m l = Ret p' → wf p'.
Proof.
  intros Hl Hok Heq. unfold Particles.of_matrix in Heq.
  destruct (_ >? _) eqn:E; [done|]. unfold set_topRows in Heq.
  set (c := u32 (Z.of_nat (cols m))) in *. pose proof (u32_range (Z.of_nat (cols m))) as Hc.
  fold c in Hc. rewrite zeros_rows, zeros_cols in Heq.
  destruct (_ && _) eqn:E2 in Heq; [|done]. injection Heq as <-.
  apply andb_true_iff in E2 as [Hle%Nat.leb_le Hcols%Nat.eqb_eq].
  pose proof (Zero_ok (F := F) (Z.to_nat l) (Z.to_nat c)) as Hz.
  pose proof (zeros_cols l c) as Hzc. unfold Particles.zeros, cols in *.
  split; cbn [Particles.particles_ Particles.particleCount_ Particles.particleLength_
    Particles.currentRow_ rows]; try done; try lia.
  - unfold matrix_ok in *. rewrite Forall_forall in *. cbn [rows columns].
    intros x Hx. apply elem_of_lookup_zip_with in Hx as (i & y & t & -> & Hy & Ht).
    rewrite length_app, length_drop, (Hok t), (Hz y) by (by eapply list_elem_of_lookup_2).
    cbn [rows Zero]. lia.
  - unfold cols. cbn [columns]. rewrite length_zip_with, Hcols, length_replicate. lia.
Qed.

(** The matrix has the announced dimensions. *)
Definition shaped (p : Particles.t F) : Prop :=
  matrix_ok (Particles.particles_ p) ∧
  Z.of_nat (rows (Particles.particles_ p)) = Particles.particleLength_ p ∧
  Z.of_nat (cols (Particles.particles_ p)) = Particles.particleCount_ p.

Definition same_shape (m m' : Matrix F) : Prop :=
  matrix_ok m' ∧ rows m' = rows m ∧ cols m' = cols m.

Lemma set_coeff_shape m i j x m' :
  set_coeff m i j x = Ret m' → matrix_ok m → same_shape m m'.
Proof.
  intros Heq Hok. unfold set_coeff in Heq. destruct (_ && _ && _ && _); [|done].
  injection Heq as <-. unfold same_shape, matrix_ok, cols in *. cbn [rows columns].
  split_and!; [|done|apply length_alter]. rewrite Forall_lookup in *. intros k c Hk.
  rewrite list_lookup_alter in Hk. case_decide as E; [|by eapply Hok].
  rewrite E in Hk. destruct (columns m !! k) as [c'|] eqn:Hc; [|done]. injection Hk as <-.
  rewrite length_insert. by eapply Hok.
Qed.

Lemma fill_col_shape todo : ∀ m column row col m',
  Particles.fill_col todo m column row col = Ret m' → matrix_ok m → same_shape m m'.
Proof.
  induction todo as [|todo IH]; intros m column row col m' Heq Hok.
  { injection Heq as <-. done. }
  cbn [Particles.fill_col] in Heq. destruct (array_get _ _) as [x| | |]; [|done..].
  cbn [mbind outcome_bind] in Heq. destruct (set_coeff _ _ _ _) as [m1| | |] eqn:Hm1; [|done..].
  cbn [mbind outcome_bind] in Heq. apply set_coeff_shape in Hm1 as (Hok1 & Hr1 & Hc1); [|done].
  apply IH in Heq as (Hok' & Hr' & Hc'); [|done]. split_and!; [done|congruence..].
Qed.

Lemma fill_cols_shape todo : ∀ m init l col m',
  Particles.fill_cols todo m init l col = Ret m' → matrix_ok m → same_shape m m'.
Proof.
  induction todo as [|todo IH]; intros m init l col m' Heq Hok.
  { injection Heq as <-. done. }
  cbn [Particles.fill_cols] in Heq. destruct (array_get _ _) as [column| | |]; [|done..].
  cbn [mbind outcome_bind] in Heq. destruct (Particles.fill_col _ _ _ _ _) as [m1| | |] eqn:Hm1; [|done..].
  cbn [mbind outcome_bind] in Heq. apply fill_col_shape in Hm1 as (Hok1 & Hr1 & Hc1); [|done].
  destruct (int_add col 1) as [col'| | |]; [|done..]. cbn [mbind outcome_bind] in Heq.
  apply IH in Heq as (Hok' & Hr' & Hc'); [|done]. split_and!; [done|congruence..].
Qed.

Lemma of_vectors_inv first vs l p' :
  0 < l < 2 ^ 32 → Particles.of_vectors (first :: vs) l = Ret p' →
  shaped p' ∧ Particles.currentRow_ p' = u32 (Z.of_nat (length first) - 1) ∧
  (wf p' ↔ Particles.currentRow_ p' < Particles.particleLength_ p').
Proof.
  intros Hl Heq. unfold Particles.of_vectors in Heq. destruct (_ >? _); [done|].
  rewrite (array_get_ok _ 0 first) in Heq by done. cbn [mbind outcome_bind] in Heq.
  set (c := u32 (Z.of_nat (length (first :: vs)))) in *.
  assert (0 <= c) as Hc by apply u32_range.
  destruct (Particles.fill_cols _ _ _ _ _) as [m| | |] eqn:Hm; [|done..]. injection Heq as <-.
  apply fill_cols_shape in Hm as (Hok & Hr & Hcl); [|apply Zero_ok].
  rewrite zeros_rows in Hr. rewrite zeros_cols in Hcl.
  unfold shaped. cbn [Particles.particles_ Particles.particleCount_ Particles.particleLength_
    Particles.currentRow_].
  rewrite u32_u64. split_and!; [done|lia|lia|done|].
  pose proof (u32_range (Z.of_nat (length first) - 1)) as Hrange. split.
  - intros [_ _ _ _ [_ Hcur]]. exact Hcur.
  - intros Hcur. split; cbn [Particles.particles_ Particles.particleCount_
      Particles.particleLength_ Particles.currentRow_]; try done; try lia.
Qed.

(** ** Properties *)

(** C11. Every operation keeps the shape of the object: the result of an
    append, a resampling, a transformation or the removal of the initial row
    (where the operation returns), and an object constructed from a vector,
    from a matrix, from a normal or from a vector-normal distribution with a
    positive length, has a matrix of [particleLength_] rows and
    [particleCount_] columns, and its current row is one of these rows.  The
    constructor from nested vectors gives a matrix of that shape too, but
    takes for current row the length of the first inner vector less one,
    which can be longer than [particleLength_]: the current row is one of the
    rows exactly when that number is below [particleLength_]. *)
Theorem particles_invariant `{!RandomLaws F} (p : Particles.t F) :
  wf p → Particles.particleCount_ p < 2 ^ 32 →
  (∀ v p', Particles.appendParticles v p = Ret p' → wf p') ∧
  (∀ w seed p', Particles.resampleParticles w seed p = Ret p' → wf p') ∧
  (∀ f, wf (Particles.applyTransformation f p)) ∧
  (∀ p', Particles.getParticlesWithoutInit p = Ret p' → wf p') ∧
  (∀ l, 0 < l < 2 ^ 32 →
     (∀ v p', Particles.of_vector v l = Ret p' → wf p') ∧
     (∀ m p', matrix_ok m → Particles.of_matrix m l = Ret p' → wf p') ∧
     (∀ d n seed p' d', 0 <= n → Particles.of_normal d n l seed = Ret (p', d') → wf p') ∧
     (∀ d seed p', Particles.of_vector_normal d l seed = Ret p' → wf p') ∧
     (∀ first vs p', Particles.of_vectors (first :: vs) l = Ret p' →
        shaped p' ∧ Particles.currentRow_ p' = u32 (Z.of_nat (length first) - 1) ∧
        (wf p' ↔ Particles.currentRow_ p' < Particles.particleLength_ p'))).
Proof.
  intros Hwf Hcount. split_and!.
  - intros v p'. by apply append_inv.
  - intros w seed p'. by apply resample_inv.
  - intros f. by apply transform_wf.
  - intros p'. by apply without_init_inv.
  - intros l Hl. split_and!.
    + intros v p'. by apply of_vector_inv.
    + intros m p'. by apply of_matrix_inv.
    + intros d n seed p' d'. by apply of_normal_inv.
    + intros d seed p'. by apply of_vector_normal_inv.
    + intros first vs p'. by apply of_vectors_inv.
Qed.

(** [appendParticles] throws when the object has no row left or when the
    number of values is not the number of particles; otherwise the values
    become the latest particles, in the next row, and all other rows stay. *)
Theorem append_behaviour (p : Particles.t F) v :
  wf p →
  if decide (Particles.currentRow_ p + 1 < Particles.particleLength_ p) then
    if decide (Z.of_nat (length v) = Particles.particleCount_ p) then
      ∃ p', Particles.appendParticles v p = Ret p' ∧ Particles.getLatestParticles p' = Ret v ∧
        Particles.currentRow_ p' = Particles.currentRow_ p + 1 ∧
        ∀ i, i ≠ Particles.currentRow_ p + 1 →
          get_row (Particles.particles_ p') i = get_row (Particles.particles_ p) i
    else Particles.appendParticles v p = Throw (invalid_argument count_message)
  else Particles.appendParticles v p = Throw (invalid_argument append_message).
Proof.
  intros Hwf. destruct (decide _) as [Hroom|Hfull]; [destruct (decide _) as [Hv|Hv]|].
  - destruct (append_ok p v Hwf Hroom Hv) as (p' & ? & _ & ? & _ & _ & ? & ?). by exists p'.
  - unfold Particles.appendParticles. destruct Hwf as [_ _ _ Hl Hcur]. rewrite u32_id by lia.
    destruct (_ >=? _) eqn:E; zbool; [apply Z.leb_le in E; lia|].
    by rewrite (proj2 (Z.eqb_neq _ _) Hv).
  - unfold Particles.appendParticles. destruct Hwf as [_ _ _ Hl Hcur]. rewrite u32_id by lia.
    destruct (_ >=? _) eqn:E; [done|]. zbool. apply Z.leb_gt in E. lia.
Qed.

(** C12. Resampling at most 2^31-1 particles with one weight per particle,
    weights that the distribution accepts, returns an object of the same shape
    (the same numbers of rows and columns, stored and in the matrix) with the
    same current row: its particles are, with their whole histories, the
    particles before at the indices that the distribution of these weights
    draws, one after the other, from the engine with this seed, and the
    engine after these draws is the object's.  A wrong number of weights
    throws. *)
Theorem resample_behaviour `{!RandomLaws F} (p : Particles.t F) weights seed :
  wf p →
  (Z.of_nat (length weights) ≠ Particles.particleCount_ p →
     Particles.resampleParticles weights seed p = Throw (invalid_argument weights_message)) ∧
  (Z.of_nat (length weights) = Particles.particleCount_ p → discrete_ok weights = true →
     Particles.particleCount_ p <= INT_MAX →
     let ds := draws (length weights) (discrete_make weights) (engine_seed seed) in
     ∃ p', Particles.resampleParticles weights seed p = Ret p' ∧ wf p' ∧
       Particles.getParticleCount p' = Particles.getParticleCount p ∧
       Particles.getParticleLength p' = Particles.getParticleLength p ∧
       rows (Particles.getParticlesAsEigenMatrix p') = rows (Particles.getParticlesAsEigenMatrix p) ∧
       cols (Particles.getParticlesAsEigenMatrix p') = cols (Particles.getParticlesAsEigenMatrix p) ∧
       Particles.currentRow_ p' = Particles.currentRow_ p ∧
       selected (Particles.getParticlesAsEigenMatrix p) ds.1
         (columns (Particles.getParticlesAsEigenMatrix p')) ∧
       Particles.generator_ p' = ds.2).
Proof.
  intros Hwf. split.
  - intros Hne. unfold Particles.resampleParticles. by rewrite (proj2 (Z.eqb_neq _ _) Hne).
  - intros Heq Hok Hmax.
    destruct (resample_ok p weights seed Hwf Heq Hok Hmax) as (p' & ? & Hwf' & ? & Hl & Hc & ? & ?).
    rewrite <-Heq, Nat2Z.id in *. exists p'. pose proof Hwf as [_ Hr1 Hc1 _ _].
    pose proof Hwf' as [_ Hr2 Hc2 _ _].
    split_and!; try done; unfold Particles.getParticlesAsEigenMatrix, Particles.getParticleCount; lia.
Qed.

(** [getParticlesWithoutInit] drops the first row of every particle and starts
    again at row 0: the latest particles of the result are the second row of
    the original, however many rows were appended. *)
Theorem without_init_behaviour (p : Particles.t F) :
  wf p → Particles.particleCount_ p < 2 ^ 32 →
  if decide (Particles.particleLength_ p = 1)
  then Particles.getParticlesWithoutInit p = Throw (invalid_argument remove_message)
  else ∃ p', Particles.getParticlesWithoutInit p = Ret p' ∧ wf p' ∧
    columns (Particles.particles_ p') = (drop 1 <$> columns (Particles.particles_ p)) ∧
    Particles.getLatestParticles p' = get_row (Particles.particles_ p) 1.
Proof.
  intros [Hm Hr Hc Hl Hcur] Hcount. unfold Particles.getParticlesWithoutInit.
  destruct (decide _) as [->|Hne]; [done|]. rewrite (proj2 (Z.eqb_neq _ _) Hne).
  rewrite u32_id by lia. unfold bottomRows.
  destruct (0 <=? _) eqn:E1, (_ <=? Z.of_nat _) eqn:E2; zbool; try lia. cbn [andb mbind outcome_bind].
  replace (rows (Particles.particles_ p) - Z.to_nat (Particles.particleLength_ p - 1))%nat with 1%nat
    by lia.
  destruct (of_matrix_ok (mkMatrix (Z.to_nat (Particles.particleLength_ p - 1))
      (drop 1 <$> columns (Particles.particles_ p))) (Particles.particleLength_ p - 1))
    as [Heq1 Hwf1].
  - unfold matrix_ok in *. cbn. rewrite Forall_fmap. eapply Forall_impl; [exact Hm|].
    intros c Hcl. cbn in *. rewrite length_drop. lia.
  - cbn. lia.
  - lia.
  - unfold cols in *. cbn. rewrite length_fmap. lia.
  - rewrite Heq1.
    eexists. split; [done|]. split; [done|]. split; [done|].
    unfold Particles.getLatestParticles. cbn [Particles.particles_ Particles.currentRow_].
    rewrite !get_row_ok by (cbn; lia). cbn [columns]. f_equal. rewrite <-list_fmap_compose.
    apply list_fmap_ext. intros i c _. cbn. destruct c; [done|]. simpl. by destruct c.
Qed.

(** ** Reductions *)

Lemma reduce_rows_ok func (m : Matrix F) todo : ∀ row,
  0 <= row → row + Z.of_nat todo = Z.of_nat (rows m) → Z.of_nat (rows m) <= INT_MAX →
  Particles.reduce_rows todo func m row =
    Ret ((λ i, func ((λ c, nth i c (of_Z 0)) <$> columns m)) <$> seq (Z.to_nat row) todo).
Proof.
  induction todo as [|todo IH]; intros row Hrow Hn Hmax; [done|]. cbn [Particles.reduce_rows seq].
  rewrite get_row_ok by lia. cbn [mbind outcome_bind]. rewrite int_add_ok by int_lia.
  cbn [mbind outcome_bind]. rewrite IH by lia. simpl. do 3 f_equal.
  by replace (Z.to_nat (row + 1)) with (S (Z.to_nat row)) by lia.
Qed.

Lemma reduce_cols_ok func (m : Matrix F) todo : ∀ col,
  0 <= col → col + Z.of_nat todo = Z.of_nat (cols m) → Z.of_nat (cols m) <= INT_MAX →
  Particles.reduce_cols todo func m col = Ret (func <$> drop (Z.to_nat col) (columns m)).
Proof.
  induction todo as [|todo IH]; intros col Hcol Hn Hmax; unfold cols in *.
  { rewrite drop_ge by lia. done. }
  cbn [Particles.reduce_cols].
  destruct (lookup_lt_is_Some_2 (columns m) (Z.to_nat col)) as [c Hc]; [lia|].
  rewrite (get_col_ok m col c) by done. cbn [mbind outcome_bind]. rewrite int_add_ok by int_lia.
  cbn [mbind outcome_bind]. rewrite IH by lia.
  rewrite (drop_S _ c (Z.to_nat col)) by done.
  by replace (Z.to_nat (col + 1)) with (S (Z.to_nat col)) by lia.
Qed.

(** [reduceParticles] gives the function's value on every row and
    [reduceTraces] on every column, and both see what [applyTransformation]
    did to each coefficient, for at most 2^31-1 rows and columns. *)
Theorem reductions (p : Particles.t F) func f :
  wf p → Particles.particleLength_ p <= INT_MAX → Particles.particleCount_ p <= INT_MAX →
  Particles.reduceParticles func p =
    Ret ((λ i, func ((λ c, nth i c (of_Z 0)) <$> columns (Particles.particles_ p))) <$>
         seq 0 (Z.to_nat (Particles.particleLength_ p))) ∧
  Particles.reduceTraces func p = Ret (func <$> columns (Particles.particles_ p)) ∧
  Particles.reduceTraces func (Particles.applyTransformation f p) =
    Ret ((λ c, func (map f c)) <$> columns (Particles.particles_ p)).
Proof.
  intros Hwf Hlmax Hcmax. pose proof (transform_wf f p Hwf) as Hwf'. destruct Hwf as [Hm Hr Hc Hl Hcur].
  unfold Particles.reduceParticles, Particles.reduceTraces. split_and!.
  - by rewrite reduce_rows_ok by lia.
  - by rewrite reduce_cols_ok by lia.
  - destruct Hwf' as [_ _ Hc' _ _].
    change (Particles.particleCount_ (Particles.applyTransformation f p))
      with (Particles.particleCount_ p) in *.
    rewrite reduce_cols_ok by lia. cbn.
    by rewrite drop_0, <-list_fmap_compose.
Qed.

End Props.

(** ** The properties at concrete inputs *)

Section Examples.
#[local] Existing Instance R_random.
#[local] Existing Instance R_random_laws.

(** Two particles over three steps, two of them filled. *)
Definition two_particles : Particles.t R :=
  Particles.mk (mkMatrix 3 [[1; 2; 0]; [3; 4; 0]]%R) 2 3 1 0.

Lemma two_particles_wf : wf two_particles.
Proof.
  split.
  - repeat constructor.
  - done.
  - done.
  - done.
  - split; vm_compute; (done || discriminate).
Qed.

Lemma particles_invariant_witness :
  (∃ p', Particles.appendParticles [5; 6]%R two_particles = Ret p' ∧ wf p') ∧
  (∃ p', Particles.of_vectors [[1; 2; 3]]%R 1 = Ret p' ∧ shaped p' ∧
     (wf p' ↔ Particles.currentRow_ p' < Particles.particleLength_ p')).
Proof.
  pose proof (particles_invariant two_particles two_particles_wf) as Hinv.
  destruct Hinv as (Happ & _ & _ & _ & Hnew); [done|]. split.
  - eexists. split; [reflexivity|]. apply Happ with (v := [5; 6]%R). reflexivity.
  - eexists. split; [reflexivity|].
    destruct (Hnew 1) as (_ & _ & _ & _ & Hvs); [lia|].
    destruct (Hvs [1; 2; 3]%R []%R _ eq_refl) as (? & _ & ?). done.
Defined.

(** One particle of three values with room for one: the constructor returns an
    object whose current row is the row 2 of a matrix of one row, and reading
    its latest particles fails Eigen's assertion. *)
Theorem nested_current_row_outside :
  ∃ p, Particles.of_vectors [[1; 2; 3]]%R 1 = Ret p ∧
    Particles.particleLength_ p = 1 ∧ Particles.currentRow_ p = 2 ∧ ¬ wf p ∧
    Particles.getLatestParticles p = Undef eigen_assertion.
Proof.
  eexists. split; [reflexivity|]. split_and!; try reflexivity.
  intros [_ _ _ _ [_ Hcur]]. vm_compute in Hcur. discriminate.
Qed.

Lemma append_behaviour_witness :
  ∃ p', Particles.appendParticles [5; 6]%R two_particles = Ret p' ∧
    Particles.getLatestParticles p' = Ret [5; 6]%R ∧ Particles.currentRow_ p' = 2 ∧
    ∀ i, i ≠ 2 → get_row (Particles.particles_ p') i = get_row (Particles.particles_ two_particles) i.
Proof. apply (append_behaviour two_particles [5; 6]%R two_particles_wf). Defined.

Lemma resample_behaviour_witness :
  Particles.resampleParticles [1]%R 7 two_particles = Throw (invalid_argument weights_message) ∧
  ∃ p', Particles.resampleParticles [1; 1]%R 7 two_particles = Ret p' ∧
    (rows (Particles.particles_ p') = 3 ∧ cols (Particles.particles_ p') = 2)%nat ∧
    selected (Particles.particles_ two_particles)
      (draws 2 (discrete_make [1; 1]%R) (engine_seed 7)).1 (columns (Particles.particles_ p')).
Proof.
  split.
  - apply (resample_behaviour two_particles [1]%R 7 two_particles_wf). discriminate.
  - assert (discrete_ok [1; 1]%R = true) as Hok.
    { unfold discrete_ok. apply orb_true_iff. right. apply andb_true_iff. split.
      + apply forallb_forall. intros x Hx. apply R_fleb_true. simpl in *.
        destruct Hx as [<-|[<-|[]]]; lra.
      + apply R_fltb_true. unfold sum_from_zero. simpl. lra. }
    destruct (proj2 (resample_behaviour two_particles [1; 1]%R 7 two_particles_wf) eq_refl Hok)
      as (p' & ? & _ & _ & _ & ? & ? & _ & ? & _); [discriminate|].
    by exists p'.
Defined.

Lemma of_vectors_behaviour_witness :
  Particles.of_vectors [[1; 2]; [3; 4]]%R 3 = Undef (index_out_of_bounds 2) ∧
  Particles.of_vectors [[1]; [3]; [5]]%R 2 = Throw (invalid_argument longer_message).
Proof.
  split.
  - apply (of_vectors_behaviour [[1; 2]; [3; 4]]%R 3 [1; 2]%R); simpl; lia || done.
  - apply (of_vectors_behaviour [[1]; [3]; [5]]%R 2 [1]%R); simpl; lia || done.
Defined.

Lemma without_init_behaviour_witness :
  ∃ p', Particles.getParticlesWithoutInit two_particles = Ret p' ∧ wf p' ∧
    columns (Particles.particles_ p') = [[2; 0]; [4; 0]]%R ∧
    Particles.getLatestParticles p' = Ret [2; 4]%R.
Proof. apply (without_init_behaviour two_particles two_particles_wf). done. Defined.

Lemma reductions_witness :
  Particles.reduceTraces rsum (Particles.applyTransformation (Rmult 2) two_particles) =
    Ret ((λ c, rsum (map (Rmult 2) c)) <$> [[1; 2; 0]; [3; 4; 0]]%R).
Proof. apply (reductions two_particles rsum (Rmult 2) two_particles_wf); discriminate. Defined.

End Examples.
