(* ===== verification/StochVol.v ===== *)
(** stoch-vola/model/lib/model/stochastic_volatility_model.cpp: the particle
    filter and the log-likelihood of the stochastic volatility model. *)

From S2P Require Import Prelude.
From S2P Require Import Num.
From S2P Require Import Eigen.
From S2P Require Import NormalDistribution.
From S2P Require Import Particles.

Module StochasticVolatilityModel.
Section Code.
Context {F : Type} `{Num F} `{Libm F} `{EigenOps F} `{StdRandom F}.

Record t := mk { mu_ : F; phi_ : F; sigma_ : F }.

Definition create (mu phi sigma : F) : t := mk mu phi sigma.

(** [y[i]] on a [VectorXd]. *)
Definition vec_get (y : list F) (i : Z) : outcome F :=
  if i <? 0 then Undef eigen_assertion
  else match y !! Z.to_nat i with Some x => Ret x | None => Undef eigen_assertion end.

(** [mu + phi * (latest.array() - mu) +
     IndependentVectorNormal(0.0, sigma, nParticles).sample(loopSeed).array()]. *)
Definition propagate (mu phi sigma : F) (nParticles loopSeed : Z) (latest : list F) :
    outcome (list F) :=
  noise ← IndependentVectorNormal.create_constant (of_Z 0) sigma (Z.to_nat nParticles);
  noise ← IndependentVectorNormal.sample noise (u32 loopSeed);
  cwise fadd ((λ x, fadd mu (fmul phi (fsub x mu))) <$> latest) noise.

(** [IndependentVectorNormal(means, stds)] for the observation. *)
Definition observation (nParticles : Z) (latest : list F) : outcome (IndependentVectorNormal.t F) :=
  let means := replicate (Z.to_nat nParticles) (of_Z 0) in
  let stds := array_exp ((λ x, fdiv x (of_Z 2)) <$> latest) in
  IndependentVectorNormal.create means stds.

(** [weights = likelihoods/lSum] and its copy
    [weightsVec(weights.data(), weights.data() + nParticles)]. *)
Definition weights_vec (nParticles : Z) (likelihoods : list F) (lSum : F) : outcome (list F) :=
  let weights := (λ l, fdiv l lSum) <$> likelihoods in
  if Z.of_nat (length weights) <? nParticles
  then Undef (index_out_of_bounds (Z.of_nat (length weights)))
  else Ret (take (Z.to_nat nParticles) weights).

(** The body of the loop of [particleFilter]. *)
Definition filter_step (y : list F) (mu phi sigma : F) (nParticles loopSeed t : Z)
    (particles : Particles.t F) : outcome (Particles.t F) :=
  latestParticles ← Particles.getLatestParticles particles;
  latestParticles ← propagate mu phi sigma nParticles loopSeed latestParticles;
  d ← observation nParticles latestParticles;
  yt ← vec_get y (t - 1);
  likelihoods ← IndependentVectorNormal.pdfs_scalar d yt;
  let lSum := vsum likelihoods in
  particles ← Particles.appendParticles latestParticles particles;
  if fltb (of_Z 0) lSum then
    weightsVec ← weights_vec nParticles likelihoods lSum;
    Particles.resampleParticles weightsVec (u32 loopSeed) particles
  else Ret particles.

(** [for (int t=1; t<=T; t++)], with [todo] iterations left; [T] is an
    [unsigned int]. *)
Fixpoint filter_loop (todo : nat) (y : list F) (mu phi sigma : F) (nParticles loopSeed t : Z)
    (particles : Particles.t F) : outcome (Particles.t F) :=
  match todo with
  | O => Ret particles
  | S todo =>
      particles ← filter_step y mu phi sigma nParticles loopSeed t particles;
      t ← int_add t 1;
      filter_loop todo y mu phi sigma nParticles loopSeed t particles
  end.

(** [Particles(IndependentVectorNormal(mu, sigma, nParticles), T+1, seed)]. *)
Definition initial_particles (mu sigma : F) (nParticles T seed : Z) : outcome (Particles.t F) :=
  d ← IndependentVectorNormal.create_constant mu sigma (Z.to_nat nParticles);
  Particles.of_vector_normal d (u32 (T + 1)) seed.

Definition particleFilter (m : t) (y : list F) (nParticles seed : Z) : outcome (Particles.t F) :=
  let T := u32 (Z.of_nat (length y)) in
  let mu := mu_ m in
  let phi := ftanh (phi_ m) in
  let sigma := fexp (sigma_ m) in
  particles ← initial_particles mu sigma nParticles T seed;
  let loopSeed := i32 seed in
  particles ← filter_loop (Z.to_nat T) y mu phi sigma nParticles loopSeed 1 particles;
  Particles.getParticlesWithoutInit particles.

(** The body of the loop of [logLikelihood]. *)
Definition likelihood_step (y : list F) (mu phi sigma : F) (nParticles loopSeed t : Z)
    (particles : Particles.t F) (logLikeSum : F) : outcome (Particles.t F * F) :=
  latestParticles ← Particles.getLatestParticles particles;
  latestParticles ← propagate mu phi sigma nParticles loopSeed latestParticles;
  d ← observation nParticles latestParticles;
  yt ← vec_get y (t - 1);
  logLikelihoods ← IndependentVectorNormal.logLikelihoods_scalar d yt;
  let likelihoods := array_exp logLikelihoods in
  let lSum := vsum likelihoods in
  let logLikeSum := fadd logLikeSum (vsum logLikelihoods) in
  particles ← Particles.appendParticles latestParticles particles;
  weightsVec ← weights_vec nParticles likelihoods lSum;
  particles ← Particles.resampleParticles weightsVec (u32 loopSeed) particles;
  Ret (particles, logLikeSum).

Fixpoint likelihood_loop (todo : nat) (y : list F) (mu phi sigma : F)
    (nParticles loopSeed t : Z) (particles : Particles.t F) (logLikeSum : F) :
    outcome (Particles.t F * F) :=
  match todo with
  | O => Ret (particles, logLikeSum)
  | S todo =>
      '(particles, logLikeSum) ←
        likelihood_step y mu phi sigma nParticles loopSeed t particles logLikeSum;
      t ← int_add t 1;
      likelihood_loop todo y mu phi sigma nParticles loopSeed t particles logLikeSum
  end.

(** [T*nParticles] is a product of [unsigned int]s. *)
Definition logLikelihood (m : t) (y : list F) (nParticles seed : Z) : outcome F :=
  let T := u32 (Z.of_nat (length y)) in
  let mu := mu_ m in
  let phi := ftanh (phi_ m) in
  let sigma := fexp (sigma_ m) in
  particles ← initial_particles mu sigma nParticles T seed;
  let loopSeed := i32 seed in
  '(_, logLikeSum) ←
    likelihood_loop (Z.to_nat T) y mu phi sigma nParticles loopSeed 1 particles (of_Z 0);
  Ret (fdiv logLikeSum (of_Z (u32 (T * nParticles)))).

End Code.
Arguments t F : clear implicits.
End StochasticVolatilityModel.
