(* ===== verification/StochVolProps.v ===== *)
(** The properties of the stochastic volatility model in exact arithmetic: the
    filter and the likelihood return, with results of the announced shape;
    both run the same particles; and the noise of all time steps is the same. *)

From S2P Require Import Prelude.
From S2P Require Import Num.
From S2P Require Import NumR.
From S2P Require Import Eigen.
From S2P Require Import EigenR.
From S2P Require Import NormalDistribution.
From S2P Require Import NormalProps.
From S2P Require Import Particles.
From S2P Require Import ParticlesProps.
From S2P Require Import StochVol.
From Stdlib Require Import Reals Lra.

#[local] Open Scope R_scope.

Section Exact.
Context `{StdRandom R} `{EigenExact} `{!RandomLaws R}.

Definition positive (v : list R) : Prop := Forall (λ x, 0 < x) v.

(** ** One time step *)

Lemma create_constant_ok mean sd n :
  0 < sd → (0 < n)%nat →
  IndependentVectorNormal.create_constant mean sd n =
    Ret (IndependentVectorNormal.mk (replicate n mean) (replicate n sd) default_engine).
Proof.
  intros Hsd Hn. unfold IndependentVectorNormal.create_constant, IndependentVectorNormal.Constant.
  assert (replicate n sd ≠ []) as Hne by (destruct n; [lia|done]).
  assert (minCoeff_ (replicate n sd) = sd) as Hmin.
  { pose proof (exact_min_elem _ Hne) as Hin. by apply elem_of_replicate in Hin as [-> _]. }
  unfold minCoeff. destruct (replicate n sd) eqn:E; [done|]. rewrite Hmin. cbn [mbind outcome_bind].
  assert (fleb sd (of_Z 0) = false) as -> by (apply R_fleb_false; simpl; lra). done.
Qed.

Lemma create_ok means sds :
  length means = length sds → sds ≠ [] → positive sds →
  IndependentVectorNormal.create means sds = Ret (IndependentVectorNormal.mk means sds default_engine).
Proof.
  intros Hlen Hne Hpos. unfold IndependentVectorNormal.create. rewrite Hlen, Nat.eqb_refl. cbn [negb].
  pose proof (exact_min_elem _ Hne) as Hin. unfold positive in Hpos. rewrite Forall_forall in Hpos.
  specialize (Hpos _ Hin). unfold minCoeff. destruct sds as [|s sds]; [done|].
  cbn [mbind outcome_bind]. assert (fleb (minCoeff_ (s :: sds)) (of_Z 0) = false) as ->; [|done].
  apply R_fleb_false. simpl. lra.
Qed.

(** The noise of a seed, the same at every time step. *)
Definition noise (sigma : R) (nParticles seed : Z) : list R :=
  (λ z, z * sigma + 0) <$> rand_normal seed (Z.to_nat nParticles).

Lemma noise_length sigma n seed : length (noise sigma n seed) = Z.to_nat n.
Proof. unfold noise. by rewrite length_fmap, rand_normal_length. Qed.

Lemma seed_roundtrip seed : (0 <= seed < 2 ^ 32)%Z → u32 (i32 seed) = seed.
Proof.
  intros Hs. unfold u32, i32. rewrite Zminus_mod_idemp_l.
  replace (seed + 2 ^ 31 - 2 ^ 31)%Z with seed by lia. by apply Z.mod_small.
Qed.

Lemma propagate_ok mu phi sigma n seed latest :
  0 < sigma → (0 < n <= INT_MAX)%Z → (0 <= seed < 2 ^ 32)%Z → length latest = Z.to_nat n →
  StochasticVolatilityModel.propagate mu phi sigma n (i32 seed) latest =
    Ret (zip_with Rplus ((λ x, mu + phi * (x - mu)) <$> latest) (noise sigma n seed)).
Proof.
  intros Hsd Hn Hseed Hl. unfold StochasticVolatilityModel.propagate.
  rewrite create_constant_ok by (done || lia). cbn [mbind outcome_bind].
  rewrite seed_roundtrip by done.
  unfold IndependentVectorNormal.sample. cbn [IndependentVectorNormal.means_ IndependentVectorNormal.stdDevs_].
  rewrite length_replicate, i32_id by int_lia. destruct (_ <? 0)%Z eqn:E; zbool; [lia|].
  pose proof (rand_normal_length seed (Z.to_nat n)) as Hr.
  replace (Z.to_nat (Z.of_nat (Z.to_nat n))) with (Z.to_nat n) by lia.
  rewrite cwise_ok by (by rewrite length_replicate). cbn [mbind outcome_bind].
  rewrite cwise_ok by (rewrite length_zip_with, !length_replicate; lia). cbn [mbind outcome_bind].
  assert (zip_with fadd (zip_with fmul (rand_normal seed (Z.to_nat n)) (replicate (Z.to_nat n) sigma))
    (replicate (Z.to_nat n) (of_Z 0)) = noise sigma n seed) as ->.
  { unfold noise. rewrite (zip_with_replicate_r_eq fmul) by done.
    rewrite zip_with_replicate_r_eq by (by rewrite length_fmap).
    by rewrite <-list_fmap_compose. }
  by rewrite cwise_ok by (rewrite length_fmap, noise_length; done).
Qed.
(** The positive weights of one observation, normalised. *)
Lemma rsum_positive v : v ≠ [] → positive v → 0 < rsum v.
Proof.
  intros Hne Hpos. destruct Hpos as [|x v Hx Hv]; [done|]. rewrite rsum_cons.
  assert (0 <= rsum v); [|lra]. apply rsum_nonneg. eapply Forall_impl; [exact Hv|].
  simpl. intros. lra.
Qed.

Lemma weights_ok n ls :
  length ls = Z.to_nat n → (0 < n)%Z → positive ls →
  ∃ ws, StochasticVolatilityModel.weights_vec n ls (vsum ls) = Ret ws ∧
    Z.of_nat (length ws) = n ∧ discrete_ok ws = true.
Proof.
  intros Hl Hn Hpos. assert (ls ≠ []) as Hne by (intros ->; simpl in Hl; lia).
  pose proof (rsum_positive ls Hne Hpos) as Hsum.
  unfold StochasticVolatilityModel.weights_vec. rewrite exact_sum, length_fmap.
  destruct (_ <? _)%Z eqn:E; zbool; [lia|].
  rewrite take_ge by (rewrite length_fmap; lia). eexists. split; [done|].
  rewrite length_fmap. split; [lia|]. unfold discrete_ok. apply orb_true_iff. right.
  assert (positive ((λ l, l / rsum ls) <$> ls)) as Hw.
  { unfold positive. rewrite Forall_fmap. eapply Forall_impl; [exact Hpos|]. intros x Hx. cbn.
    by apply Rdiv_lt_0_compat. }
  apply andb_true_iff. split.
  - apply forallb_forall. intros x Hx. apply R_fleb_true.
    unfold positive in Hw. rewrite Forall_forall in Hw.
    specialize (Hw x (proj2 (list_elem_of_In _ _) Hx)). simpl. lra.
  - apply R_fltb_true. unfold sum_from_zero. rewrite fold_sum_id.
    assert ((λ l : R, l / rsum ls) <$> ls ≠ []) as Hwne by (intros ?%fmap_nil_inv; done).
    pose proof (rsum_positive _ Hwne Hw). simpl in *. lra.
Qed.

Lemma scalar_pdfs_positive ms ss xs : positive ss → positive (scalar_pdfs ms ss xs).
Proof.
  intros Hs. revert ms xs. unfold scalar_pdfs. induction Hs as [|s ss Hs _ IH]; intros ms xs.
  - destruct ms; simpl; destruct xs; constructor.
  - destruct ms as [|m ms]; [constructor|]. destruct xs as [|x xs]; [constructor|].
    cbn [zip zip_with]. constructor; [|apply IH]. cbn [fst snd].
    rewrite <-(proj1 (density_log (coefficient m s) x Hs)). apply exp_pos.
Qed.

Lemma scalar_lengths ms ss xs :
  length ms = length ss → length xs = length ms →
  length (scalar_pdfs ms ss xs) = length ms ∧ length (scalar_logs ms ss xs) = length ms.
Proof.
  intros Hs Hx. unfold scalar_pdfs, scalar_logs. rewrite !length_zip_with. lia.
Qed.

Lemma exp_scalar_logs ms ss xs :
  positive ss → map exp (scalar_logs ms ss xs) = scalar_pdfs ms ss xs.
Proof.
  intros Hs. revert ms xs. unfold scalar_pdfs, scalar_logs.
  induction Hs as [|s ss Hs _ IH]; intros ms xs.
  - destruct ms; simpl; by destruct xs.
  - destruct ms as [|m ms]; [done|]. destruct xs as [|x xs]; [done|].
    cbn [zip zip_with map]. cbn [fst snd].
    rewrite (proj1 (density_log (coefficient m s) x Hs)). f_equal. apply IH.
Qed.

(** The likelihoods of the particles for an observation [yt]. *)
Definition likelihoods_of (latest : list R) (yt : R) : list R :=
  let n := length latest in
  scalar_pdfs (replicate n 0) (map exp ((λ x, x / 2) <$> latest)) (replicate n yt).
Definition log_likelihoods_of (latest : list R) (yt : R) : list R :=
  let n := length latest in
  scalar_logs (replicate n 0) (map exp ((λ x, x / 2) <$> latest)) (replicate n yt).

Lemma stds_positive (l : list R) : positive (map exp l).
Proof. apply Forall_fmap, Forall_forall. intros x _. apply exp_pos. Qed.

Lemma observation_ok n latest yt :
  (0 < n)%Z → length latest = Z.to_nat n →
  ∃ d, StochasticVolatilityModel.observation n latest = Ret d ∧
    IndependentVectorNormal.pdfs_scalar d yt = Ret (likelihoods_of latest yt) ∧
    IndependentVectorNormal.logLikelihoods_scalar d yt = Ret (log_likelihoods_of latest yt).
Proof.
  intros Hn Hl. unfold StochasticVolatilityModel.observation. rewrite exact_exp.
  set (ss := map exp _).
  assert (length ss = Z.to_nat n) as Hss by (unfold ss; rewrite length_map, length_fmap; done).
  assert (ss ≠ []) as Hne by (intros Heq; rewrite Heq in Hss; simpl in Hss; lia).
  rewrite create_ok; [|by rewrite length_replicate|done|apply stds_positive].
  eexists. split; [done|]. rewrite pdfs_scalar_eq, logs_scalar_eq.
  cbn [IndependentVectorNormal.means_]. rewrite length_replicate.
  rewrite pdfs_scalar_pdfs, logs_scalar_logs by (cbn; rewrite ?length_replicate; done).
  unfold likelihoods_of, log_likelihoods_of. rewrite Hl. done.
Qed.

Lemma likelihoods_facts latest yt :
  length (likelihoods_of latest yt) = length latest ∧ positive (likelihoods_of latest yt) ∧
  length (log_likelihoods_of latest yt) = length latest ∧
  map exp (log_likelihoods_of latest yt) = likelihoods_of latest yt.
Proof.
  unfold likelihoods_of, log_likelihoods_of.
  destruct (scalar_lengths (replicate (length latest) 0) (map exp ((λ x, x / 2) <$> latest))
    (replicate (length latest) yt)) as [H1' H2'];
    [rewrite length_replicate, length_map, length_fmap; done|by rewrite !length_replicate|].
  rewrite H1', H2', length_replicate. split_and!; try done.
  - apply scalar_pdfs_positive, stds_positive.
  - apply exp_scalar_logs, stds_positive.
Qed.
(** ** The loops *)

Section Loops.
Context (mu phi sigma : R) (n seed T : Z) (y : list R).
Context (Hsigma : 0 < sigma) (Hn : (0 < n <= INT_MAX)%Z) (Hseed : (0 <= seed < 2 ^ 32)%Z).
Context (HT : (0 <= T)%Z) (HTmax : (T + 1 <= INT_MAX)%Z) (Hy : Z.of_nat (length y) = T).

(** The particles before the iteration [t]. *)
Record running (p : Particles.t R) (t : Z) : Prop := {
  running_wf : wf p;
  running_count : Particles.particleCount_ p = n;
  running_length : Particles.particleLength_ p = (T + 1)%Z;
  running_row : Particles.currentRow_ p = (t - 1)%Z;
}.

(** The particles that iteration [t] appends. *)
Definition next_particles (latest : list R) : list R :=
  zip_with Rplus ((λ x, mu + phi * (x - mu)) <$> latest) (noise sigma n seed).

Lemma latest_length p t v :
  running p t → Particles.getLatestParticles p = Ret v → length v = Z.to_nat n.
Proof.
  intros [[_ Hr Hc _ Hcur] Hcnt _ _] Hv. unfold Particles.getLatestParticles in Hv.
  rewrite get_row_ok in Hv by lia. injection Hv as <-. rewrite length_fmap.
  unfold cols in Hc. lia.
Qed.

Lemma step_ok p t :
  running p t → (1 <= t <= T)%Z →
  ∃ latest yt p1 ws p', Particles.getLatestParticles p = Ret latest ∧
    length latest = Z.to_nat n ∧
    y !! Z.to_nat (t - 1) = Some yt ∧
    Particles.appendParticles (next_particles latest) p = Ret p1 ∧
    Particles.resampleParticles ws seed p1 = Ret p' ∧
    (∀ i, i ≠ t → get_row (Particles.particles_ p1) i = get_row (Particles.particles_ p) i) ∧
    get_row (Particles.particles_ p1) t = Ret (next_particles latest) ∧
    (∀ c, c ∈ columns (Particles.particles_ p') → c ∈ columns (Particles.particles_ p1)) ∧
    running p1 (t + 1) ∧ running p' (t + 1) ∧
    StochasticVolatilityModel.filter_step y mu phi sigma n (i32 seed) t p = Ret p' ∧
    ∀ s, StochasticVolatilityModel.likelihood_step y mu phi sigma n (i32 seed) t p s =
      Ret (p', s + rsum (log_likelihoods_of (next_particles latest) yt)).
Proof.
  intros Hrun Ht. pose proof Hrun as [Hwf Hcnt Hlen Hrow].
  destruct (Particles.getLatestParticles p) as [latest| | |] eqn:Hlat;
    try (unfold Particles.getLatestParticles in Hlat; destruct Hwf as [_ Hr _ _ Hcur];
         rewrite get_row_ok in Hlat by lia; done).
  pose proof (latest_length p t latest Hrun Hlat) as Hll.
  assert (length (next_particles latest) = Z.to_nat n) as Hnl.
  { unfold next_particles. rewrite length_zip_with, length_fmap, noise_length. lia. }
  destruct (lookup_lt_is_Some_2 y (Z.to_nat (t - 1))) as [yt Hyt]; [lia|].
  destruct (append_ok p (next_particles latest) Hwf) as
    (p1 & Happ & Hwf1 & Hcur1 & Hlen1 & Hcnt1 & Hlat1 & Hother); [lia|lia|].
  destruct (observation_ok n (next_particles latest) yt) as (d & Hd & Hpdf & Hlog); [lia|done|].
  destruct (likelihoods_facts (next_particles latest) yt) as (Hl1 & Hpos & Hl2 & Hexp).
  destruct (weights_ok n (likelihoods_of (next_particles latest) yt)) as (ws & Hws & Hwl & Hwok);
    [lia|lia|done|].
  destruct (resample_ok p1 ws seed Hwf1) as (p' & Hres & Hwf' & Hcur' & Hlen' & Hcnt' & _ & Hsel);
    [lia|done|lia|].
  pose proof (λ c, selected_elem _ _ _ c Hsel) as Hsub.
  exists latest, yt, p1, ws, p'. split_and!; try done.
  - intros i Hi. apply Hother. lia.
  - unfold Particles.getLatestParticles in Hlat1. by replace (Particles.currentRow_ p1) with t in Hlat1 by lia.
  - split; try done; lia.
  - split; try done; lia.
  - unfold StochasticVolatilityModel.filter_step. rewrite Hlat. cbn [mbind outcome_bind].
    rewrite propagate_ok by (done || lia). cbn [mbind outcome_bind]. fold (next_particles latest).
    rewrite Hd. cbn [mbind outcome_bind]. unfold StochasticVolatilityModel.vec_get.
    destruct (t - 1 <? 0)%Z eqn:E; zbool; [lia|]. rewrite Hyt. cbn [mbind outcome_bind].
    rewrite Hpdf. cbn [mbind outcome_bind]. rewrite Happ. cbn [mbind outcome_bind].
    assert (fltb (of_Z 0) (vsum (likelihoods_of (next_particles latest) yt)) = true) as ->.
    { apply R_fltb_true. rewrite exact_sum. apply rsum_positive; [|done].
      intros Heq. rewrite Heq in Hl1. simpl in Hl1. lia. }
    rewrite Hws. cbn [mbind outcome_bind]. by rewrite seed_roundtrip.
  - intros s. unfold StochasticVolatilityModel.likelihood_step. rewrite Hlat. cbn [mbind outcome_bind].
    rewrite propagate_ok by (done || lia). cbn [mbind outcome_bind]. fold (next_particles latest).
    rewrite Hd. cbn [mbind outcome_bind]. unfold StochasticVolatilityModel.vec_get.
    destruct (t - 1 <? 0)%Z eqn:E; zbool; [lia|]. rewrite Hyt. cbn [mbind outcome_bind].
    rewrite Hlog. cbn [mbind outcome_bind]. rewrite Happ. cbn [mbind outcome_bind].
    rewrite exact_exp, Hexp, Hws. cbn [mbind outcome_bind]. rewrite seed_roundtrip by done.
    rewrite Hres. cbn [mbind outcome_bind]. by rewrite exact_sum.
Qed.

(** Both loops return, with the same particles. *)
Lemma loops_ok todo : ∀ p t,
  running p t → (1 <= t)%Z → (t + Z.of_nat todo = T + 1)%Z →
  ∃ p' total, running p' (T + 1) ∧
    StochasticVolatilityModel.filter_loop todo y mu phi sigma n (i32 seed) t p = Ret p' ∧
    ∀ s, StochasticVolatilityModel.likelihood_loop todo y mu phi sigma n (i32 seed) t p s =
      Ret (p', s + total).
Proof.
  induction todo as [|todo IH]; intros p t Hrun Ht Htodo.
  { exists p, 0. replace (T + 1)%Z with t by lia. split_and!; [done|done|]. intros s. simpl.
    by rewrite Rplus_0_r. }
  destruct (step_ok p t Hrun) as
    (latest & yt & p1 & ws & p' & _ & _ & _ & _ & _ & _ & _ & _ & _ & Hrun' & Hf & Hl); [lia|].
  destruct (IH p' (t + 1)%Z Hrun') as (p'' & total & Hrun'' & Hf' & Hl'); [lia|lia|].
  assert (int_add t 1 = Ret (t + 1)%Z) as Hnext by (apply int_add_ok; int_lia).
  exists p'', (rsum (log_likelihoods_of (next_particles latest) yt) + total).
  split_and!; [done| |].
  - cbn [StochasticVolatilityModel.filter_loop]. rewrite Hf. cbn [mbind outcome_bind].
    by rewrite Hnext.
  - intros s. cbn [StochasticVolatilityModel.likelihood_loop]. rewrite Hl. cbn [mbind outcome_bind].
    rewrite Hnext. cbn [mbind outcome_bind]. rewrite Hl'. by rewrite Rplus_assoc.
Qed.

(** The values of the rows from 1 on. *)
Definition rows_from_noise (p : Particles.t R) : Prop :=
  ∀ i row x, (1 <= i <= Particles.currentRow_ p)%Z →
    get_row (Particles.particles_ p) i = Ret row → x ∈ row →
    x ∈ (λ z, mu + z) <$> noise sigma n seed.

Lemma next_from_noise latest x :
  phi = 0 → x ∈ next_particles latest → x ∈ (λ z, mu + z) <$> noise sigma n seed.
Proof.
  intros Hphi Hx. unfold next_particles in Hx.
  apply elem_of_lookup_zip_with in Hx as (i & a & z & -> & Ha & Hz).
  apply list_lookup_fmap_Some in Ha as (b & -> & _). rewrite Hphi.
  apply list_elem_of_fmap. exists z. split; [lra|]. by eapply list_elem_of_lookup_2.
Qed.

Lemma filter_loop_noise todo : ∀ p t,
  phi = 0 → running p t → (1 <= t)%Z → (t + Z.of_nat todo = T + 1)%Z → rows_from_noise p →
  ∃ p', StochasticVolatilityModel.filter_loop todo y mu phi sigma n (i32 seed) t p = Ret p' ∧
    running p' (T + 1) ∧ rows_from_noise p'.
Proof.
  induction todo as [|todo IH]; intros p t Hphi Hrun Ht Htodo Hrows.
  { exists p. replace (T + 1)%Z with t by lia. done. }
  destruct (step_ok p t Hrun) as
    (latest & yt & p1 & ws & p' & _ & _ & _ & _ & _ & Hother & Hnew & Hsub & Hrun1 & Hrun' & Hf & _); [lia|].
  destruct (IH p' (t + 1)%Z Hphi Hrun') as (p'' & Hf' & ? & ?); [lia|lia| |].
  - intros i row x Hi Hrow Hx. destruct Hrun1 as [[_ Hr1 _ _ _] _ Hlen1 _].
    destruct Hrun' as [[_ Hr' _ _ Hcur'] _ Hlen' Hcur]. pose proof (running_row p t Hrun) as Hcp.
    rewrite get_row_ok in Hrow by lia. injection Hrow as <-.
    apply list_elem_of_fmap in Hx as (c & -> & Hc). apply Hsub in Hc.
    assert (get_row (Particles.particles_ p1) i =
      Ret ((λ c, nth (Z.to_nat i) c (of_Z 0)) <$> columns (Particles.particles_ p1))) as Hrow1.
    { apply get_row_ok. lia. }
    assert (nth (Z.to_nat i) c (of_Z 0) ∈
      (λ c, nth (Z.to_nat i) c (of_Z 0)) <$> columns (Particles.particles_ p1)) as Hin
      by (apply list_elem_of_fmap; by exists c).
    destruct (Z.eq_dec i t) as [->|Hne].
    + assert ((λ c, nth (Z.to_nat t) c (of_Z 0)) <$> columns (Particles.particles_ p1) =
        next_particles latest) as Heq by congruence.
      rewrite Heq in Hin. by apply next_from_noise in Hin.
    + rewrite Hother in Hrow1 by done. eapply Hrows; [|exact Hrow1|exact Hin]. lia.
  - exists p''. split; [|done]. cbn [StochasticVolatilityModel.filter_loop]. rewrite Hf.
    cbn [mbind outcome_bind]. rewrite int_add_ok by int_lia. done.
Qed.

Lemma initial_ok :
  ∃ p, StochasticVolatilityModel.initial_particles mu sigma n T seed = Ret p ∧ running p 1.
Proof.
  unfold StochasticVolatilityModel.initial_particles.
  rewrite create_constant_ok by (done || lia). cbn [mbind outcome_bind]. rewrite u32_id by int_lia.
  edestruct (of_vector_normal_wf (IndependentVectorNormal.mk (replicate (Z.to_nat n) mu)
    (replicate (Z.to_nat n) sigma) default_engine) (T + 1) seed)
    as (p & v & _ & Hp & Hwf & _ & Hcur & Hlen & Hcnt); [int_lia| | |].
  - cbn. by rewrite !length_replicate.
  - cbn. rewrite length_replicate. lia.
  - exists p. split; [done|]. split; try done. rewrite Hcnt. cbn. rewrite length_replicate. lia.
Qed.

End Loops.
(** ** Properties *)

(** The arguments for which both functions are defined. *)
Record admissible (y : list R) (nParticles seed : Z) : Prop := {
  adm_length : (Z.of_nat (length y) + 1 <= INT_MAX)%Z;
  adm_particles : (0 < nParticles <= INT_MAX)%Z;
  adm_seed : (0 <= seed < 2 ^ 32)%Z;
}.

Lemma T_id (y : list R) n seed :
  admissible y n seed → u32 (Z.of_nat (length y)) = Z.of_nat (length y).
Proof. intros [Hl _ _]. apply u32_id. int_lia. Qed.

(** For at least one observation, [particleFilter] returns an object with one
    row per observation and one column per particle, all of whose counters fit
    the matrix: no append fails, no weight vector is degenerate, no index is
    out of range. *)
Theorem particleFilter_shape (m : StochasticVolatilityModel.t R) y nParticles seed :
  admissible y nParticles seed → y ≠ [] →
  ∃ p, StochasticVolatilityModel.particleFilter m y nParticles seed = Ret p ∧ wf p ∧
    Particles.getParticleLength p = Z.of_nat (length y) ∧
    Particles.getParticleCount p = nParticles ∧
    rows (Particles.getParticlesAsEigenMatrix p) = length y ∧
    cols (Particles.getParticlesAsEigenMatrix p) = Z.to_nat nParticles.
Proof.
  intros Hadm Hy. pose proof Hadm as [Hlen Hn Hseed].
  assert (0 < length y)%nat as Hpos by (destruct y; [done|simpl; lia]).
  unfold StochasticVolatilityModel.particleFilter. rewrite (T_id y nParticles seed Hadm).
  pose proof (exp_pos (StochasticVolatilityModel.sigma_ m)) as Hs.
  destruct (initial_ok (StochasticVolatilityModel.mu_ m) _ nParticles seed (Z.of_nat (length y))
    y Hs Hn ltac:(lia) Hlen) as (p & Hp & Hrun).
  cbn [fexp R_libm]. rewrite Hp. cbn [mbind outcome_bind]. rewrite Nat2Z.id.
  destruct (loops_ok (StochasticVolatilityModel.mu_ m) (tanh (StochasticVolatilityModel.phi_ m)) _
    nParticles seed _ y Hs Hn Hseed Hlen eq_refl (length y) p 1 Hrun)
    as (p' & total & Hrun' & Hf & _); [lia|lia|].
  cbn [ftanh R_libm]. rewrite Hf. cbn [mbind outcome_bind].
  destruct Hrun' as [Hwf' Hcnt Hl Hrow].
  assert (Particles.particleCount_ p' < 2 ^ 32)%Z as Hc by int_lia.
  pose proof (without_init_behaviour p' Hwf' Hc) as Hw.
  destruct (decide _) as [Hone|_] in Hw; [lia|]. destruct Hw as (q & Hq & Hwfq & Hcols & _).
  exists q. split; [done|]. split; [done|].
  unfold Particles.getParticlesWithoutInit in Hq. destruct (_ =? 1)%Z eqn:E; [done|].
  rewrite u32_id in Hq by int_lia. unfold bottomRows in Hq. destruct (_ && _); [|done].
  cbn [mbind outcome_bind] in Hq. unfold Particles.of_matrix in Hq.
  destruct (_ >? _)%Z; [done|]. destruct (set_topRows _ _); [|done..].
  cbn [mbind outcome_bind] in Hq. injection Hq as <-. destruct Hwfq as [_ Hrq Hcq _ _].
  unfold Particles.getParticleLength, Particles.getParticleCount, Particles.getParticlesAsEigenMatrix.
  cbn [Particles.particles_ Particles.particleCount_ Particles.particleLength_] in *.
  assert (u32 (Z.of_nat (cols (mkMatrix (Z.to_nat (Particles.particleLength_ p' - 1))
    (drop (rows (Particles.particles_ p') - Z.to_nat (Particles.particleLength_ p' - 1)) <$>
      columns (Particles.particles_ p'))))) = nParticles) as Hcnt'.
  { unfold cols. cbn. rewrite length_fmap. destruct Hwf' as [_ _ Hc' _ _]. unfold cols in Hc'.
    rewrite Hc', Hcnt. apply u32_id. int_lia. }
  rewrite Hcnt' in *. lia.
Qed.

(** [logLikelihood] runs the same particles as [particleFilter] (its missing
    test of the weights' sum makes no difference in exact arithmetic), and is
    the accumulated sum of the log-likelihoods divided by [T*nParticles], a
    product that wraps around at 2^32. *)
Theorem logLikelihood_same_particles (m : StochasticVolatilityModel.t R) y nParticles seed :
  admissible y nParticles seed →
  let mu := StochasticVolatilityModel.mu_ m in
  let phi := tanh (StochasticVolatilityModel.phi_ m) in
  let sigma := exp (StochasticVolatilityModel.sigma_ m) in
  let T := Z.of_nat (length y) in
  ∃ p p' total,
    StochasticVolatilityModel.initial_particles mu sigma nParticles T seed = Ret p ∧
    StochasticVolatilityModel.filter_loop (length y) y mu phi sigma nParticles (i32 seed) 1 p = Ret p' ∧
    StochasticVolatilityModel.likelihood_loop (length y) y mu phi sigma nParticles (i32 seed) 1 p 0 =
      Ret (p', total) ∧
    StochasticVolatilityModel.logLikelihood m y nParticles seed =
      Ret (total / IZR (u32 (T * nParticles))).
Proof.
  intros Hadm mu phi sigma T. pose proof Hadm as [Hlen Hn Hseed].
  pose proof (exp_pos (StochasticVolatilityModel.sigma_ m)) as Hs.
  destruct (initial_ok mu sigma nParticles seed T y Hs Hn ltac:(lia) Hlen) as (p & Hp & Hrun).
  destruct (loops_ok mu phi sigma nParticles seed T y Hs Hn Hseed Hlen eq_refl
    (length y) p 1 Hrun) as (p' & total & _ & Hf & Hl); [lia|lia|].
  exists p, p', (0 + total). split_and!; [done|done|apply Hl|].
  unfold StochasticVolatilityModel.logLikelihood. rewrite (T_id y nParticles seed Hadm).
  cbn [fexp ftanh R_libm]. fold mu phi sigma T. rewrite Hp. cbn [mbind outcome_bind].
  replace (Z.to_nat T) with (length y) by (unfold T; lia).
  change (of_Z 0 : R) with 0. by rewrite Hl.
Qed.

(** The loop's seed never changes, so every time step draws the same noise:
    with [phi_ = 0], where the model's states are independent draws around
    [mu_], all values of all rows of the result come from one vector of
    [nParticles] values. *)
Theorem noise_repeats (m : StochasticVolatilityModel.t R) y nParticles seed :
  admissible y nParticles seed → y ≠ [] → StochasticVolatilityModel.phi_ m = 0 →
  ∃ p, StochasticVolatilityModel.particleFilter m y nParticles seed = Ret p ∧
    ∀ c x, c ∈ columns (Particles.getParticlesAsEigenMatrix p) → x ∈ c →
      x ∈ (λ z, StochasticVolatilityModel.mu_ m + z) <$>
          noise (exp (StochasticVolatilityModel.sigma_ m)) nParticles seed.
Proof.
  intros Hadm Hy Hphi. pose proof Hadm as [Hlen Hn Hseed].
  assert (0 < length y)%nat as Hpos by (destruct y; [done|simpl; lia]).
  unfold StochasticVolatilityModel.particleFilter. rewrite (T_id y nParticles seed Hadm).
  pose proof (exp_pos (StochasticVolatilityModel.sigma_ m)) as Hs.
  destruct (initial_ok (StochasticVolatilityModel.mu_ m) _ nParticles seed (Z.of_nat (length y))
    y Hs Hn ltac:(lia) Hlen) as (p & Hp & Hrun).
  cbn [fexp ftanh R_libm]. rewrite Hp. cbn [mbind outcome_bind]. rewrite Nat2Z.id.
  destruct (filter_loop_noise (StochasticVolatilityModel.mu_ m)
    (tanh (StochasticVolatilityModel.phi_ m)) _ nParticles seed _ y Hs Hn Hseed
    Hlen eq_refl (length y) p 1) as (p' & Hf & Hrun' & Hrows); try done; try lia.
  { rewrite Hphi. apply tanh_0. }
  { intros i row x Hi. rewrite (running_row _ _ _ _ Hrun) in Hi. lia. }
  rewrite Hf. cbn [mbind outcome_bind]. destruct Hrun' as [Hwf' Hcnt Hl Hrow].
  assert (Particles.particleCount_ p' < 2 ^ 32)%Z as Hc by int_lia.
  pose proof (without_init_behaviour p' Hwf' Hc) as Hw.
  destruct (decide _) as [Hone|_] in Hw; [lia|]. destruct Hw as (q & Hq & _ & Hcols & _).
  exists q. split; [done|]. unfold Particles.getParticlesAsEigenMatrix. rewrite Hcols.
  intros c x (c' & -> & Hc')%list_elem_of_fmap Hx.
  apply list_elem_of_lookup in Hx as [i Hi]. rewrite lookup_drop in Hi.
  destruct Hwf' as [Hm Hr _ _ _].
  assert (length c' = rows (Particles.particles_ p')) as Hcl.
  { unfold matrix_ok in Hm. rewrite Forall_forall in Hm. by apply Hm. }
  pose proof (lookup_lt_Some _ _ _ Hi) as Hlt.
  eapply (Hrows (Z.of_nat (1 + i))); [lia|apply get_row_ok; lia|].
  apply list_elem_of_fmap. exists c'. split; [|done]. rewrite Nat2Z.id, nth_lookup, Hi. done.
Qed.

(** Without observations [particleFilter] throws and [logLikelihood] divides
    zero by zero; without particles both fail an assertion of Eigen. *)
Theorem empty_arguments (m : StochasticVolatilityModel.t R) y nParticles seed :
  admissible [] nParticles seed →
  StochasticVolatilityModel.particleFilter m [] nParticles seed =
    Throw (invalid_argument remove_message) ∧
  StochasticVolatilityModel.logLikelihood m [] nParticles seed = Ret (fdiv (of_Z 0) (of_Z 0)) ∧
  StochasticVolatilityModel.particleFilter m y 0 seed = Undef eigen_assertion ∧
  StochasticVolatilityModel.logLikelihood m y 0 seed = Undef eigen_assertion.
Proof.
  intros [Hlen Hn Hseed].
  pose proof (exp_pos (StochasticVolatilityModel.sigma_ m)) as Hs.
  destruct (initial_ok (StochasticVolatilityModel.mu_ m) _ nParticles seed 0 y Hs Hn ltac:(lia) Hlen)
    as (p & Hp & [Hwf Hcnt Hl Hrow]).
  unfold StochasticVolatilityModel.particleFilter, StochasticVolatilityModel.logLikelihood.
  cbn [length]. change (u32 (Z.of_nat 0)) with 0%Z. cbn [fexp ftanh R_libm]. rewrite Hp.
  cbn [mbind outcome_bind]. split_and!; try done.
  change (Z.to_nat 0) with 0%nat. cbn [StochasticVolatilityModel.filter_loop mbind outcome_bind].
  unfold Particles.getParticlesWithoutInit. by rewrite Hl.
Qed.

End Exact.

(** ** The properties at concrete inputs *)

Section Examples.
#[local] Existing Instance R_random.
#[local] Existing Instance R_random_laws.

Definition model : StochasticVolatilityModel.t R := StochasticVolatilityModel.mk 1 0 0.

Lemma admissible_example : admissible [1; 2; 3] 5 123.
Proof. split; vm_compute; (done || (split; (done || discriminate))). Qed.

Lemma particleFilter_shape_witness :
  ∃ p, StochasticVolatilityModel.particleFilter model [1; 2; 3] 5 123 = Ret p ∧ wf p ∧
    Particles.getParticleLength p = 3%Z ∧ Particles.getParticleCount p = 5%Z ∧
    rows (Particles.getParticlesAsEigenMatrix p) = 3%nat ∧
    cols (Particles.getParticlesAsEigenMatrix p) = 5%nat.
Proof. apply (particleFilter_shape model [1; 2; 3] 5 123 admissible_example). discriminate. Defined.

Lemma logLikelihood_same_particles_witness :
  ∃ total, StochasticVolatilityModel.logLikelihood model [1; 2; 3] 5 123 = Ret (total / IZR 15).
Proof.
  destruct (logLikelihood_same_particles model [1; 2; 3] 5 123 admissible_example)
    as (p & p' & total & _ & _ & _ & Hl).
  exists total. exact Hl.
Defined.

Lemma noise_repeats_witness :
  ∃ p, StochasticVolatilityModel.particleFilter model [1; 2; 3] 5 123 = Ret p ∧
    ∀ c x, c ∈ columns (Particles.getParticlesAsEigenMatrix p) → x ∈ c →
      x ∈ (λ z, 1 + z) <$> noise (exp 0) 5 123.
Proof. apply (noise_repeats model [1; 2; 3] 5 123 admissible_example); [discriminate|done]. Defined.

Lemma empty_arguments_witness :
  StochasticVolatilityModel.particleFilter model [] 5 123 = Throw (invalid_argument remove_message) ∧
  StochasticVolatilityModel.logLikelihood model [] 5 123 = Ret (fdiv (of_Z 0) (of_Z 0)) ∧
  StochasticVolatilityModel.particleFilter model [1] 0 123 = Undef eigen_assertion ∧
  StochasticVolatilityModel.logLikelihood model [1] 0 123 = Undef eigen_assertion.
Proof.
  apply (empty_arguments model [1] 5 123). split; vm_compute; (done || (split; (done || discriminate))).
Defined.

End Examples.
