(* ===== verification/Simd.v ===== *)
(** The vector registers and the instructions that the EigenRand library under
    stoch-vola/model/external uses: a register is the list of its 32-bit lanes,
    lowest first, four lanes for SSE and eight for AVX; 64-bit instructions see
    the lanes in pairs.  The definitions follow the instruction set reference. *)

From S2P Require Import Prelude.

(** ** Words *)

(** Shifts of a [w]-bit word; a count of [w] or more gives 0. *)
Definition sll (w b x : Z) : Z := Z.shiftl x b mod 2 ^ w.
Definition srl (b x : Z) : Z := Z.shiftr x b.

(** The two's complement reading of a [w]-bit word. *)
Definition signed (w x : Z) : Z := if x <? 2 ^ (w - 1) then x else x - 2 ^ w.

(** All bits of a [w]-bit word, or none. *)
Definition mask (w : Z) (b : bool) : Z := if b then 2 ^ w - 1 else 0.

Definition word (w x : Z) : Prop := 0 <= x < 2 ^ w.

(** ** Registers *)

(** The 64-bit lanes of a register and back. *)
Fixpoint to64 (r : list Z) : list Z :=
  match r with
  | lo :: hi :: r => lo + 2 ^ 32 * hi :: to64 r
  | _ => []
  end.

Fixpoint of64 (l : list Z) : list Z :=
  match l with
  | [] => []
  | x :: l => x mod 2 ^ 32 :: x / 2 ^ 32 :: of64 l
  end.

(** A register of [n] 64-bit lanes. *)
Record register (n : nat) (r : list Z) : Prop := {
  register_length : length r = (2 * n)%nat;
  register_lanes : Forall (word 32) r;
}.

(** ** Instructions

    The names are those of the intrinsics without the prefix that gives the
    width of the register, which is the length of the list here. *)

Definition and_si := zip_with Z.land.
Definition or_si := zip_with Z.lor.
Definition xor_si := zip_with Z.lxor.
Definition andnot_si := zip_with (λ a b, Z.land (mask 32 true - a) b).

Definition add_epi32 := zip_with (λ a b, u32 (a + b)).
Definition sub_epi32 := zip_with (λ a b, u32 (a - b)).
Definition cmpeq_epi32 := zip_with (λ a b, mask 32 (a =? b)).
Definition cmpgt_epi32 := zip_with (λ a b, mask 32 (signed 32 b <? signed 32 a)).
Definition cmplt_epi32 (a b : list Z) : list Z := cmpgt_epi32 b a.
Definition slli_epi32 (b : Z) : list Z → list Z := fmap (sll 32 b).
Definition srli_epi32 (b : Z) : list Z → list Z := fmap (λ x, if b <? 32 then srl b x else 0).

Definition lanewise64 (f : Z → Z → Z) (a b : list Z) : list Z :=
  of64 (zip_with f (to64 a) (to64 b)).

Definition add_epi64 := lanewise64 (λ a b, u64 (a + b)).
Definition sub_epi64 := lanewise64 (λ a b, u64 (a - b)).
Definition cmpeq_epi64 := lanewise64 (λ a b, mask 64 (a =? b)).
Definition cmpgt_epi64 := lanewise64 (λ a b, mask 64 (signed 64 b <? signed 64 a)).
Definition slli_epi64 (b : Z) (a : list Z) : list Z := of64 (sll 64 b <$> to64 a).
Definition srli_epi64 (b : Z) (a : list Z) : list Z :=
  of64 ((λ x, if b <? 64 then srl b x else 0) <$> to64 a).

(** Broadcasts, to [n] lanes of 32 or of 64 bits. *)
Definition set1_epi32 (n : nat) (x : Z) : list Z := replicate n (u32 x).
Definition set1_epi64x (n : nat) (x : Z) : list Z := of64 (replicate n (u64 x)).

(** Loads and stores of 64-bit integers. *)
Definition loadu (u : list Z) : list Z := of64 u.
Definition storeu (r : list Z) : list Z := to64 r.

(** One lane, and a permutation of the lanes by a list of indices. *)
Definition lane (r : list Z) (i : Z) : Z := nth (Z.to_nat i) r 0.
Definition shuffle (idx : list Z) (r : list Z) : list Z := lane r <$> idx.

(** [_mm_shuffle_epi32(a, _MM_SHUFFLE(z, y, x, w))]. *)
Definition shuffle_epi32 (z y x w : Z) (a : list Z) : list Z := shuffle [w; x; y; z] a.

(** [_mm256_permutevar8x32_epi32(a, idx)]. *)
Definition permutevar8x32 (a idx : list Z) : list Z := shuffle ((λ i, i mod 8) <$> idx) a.

(** [_mm256_permutevar_ps(a, idx)]: within each half of the register. *)
Definition permutevar_ps (a idx : list Z) : list Z :=
  shuffle ((λ i, i mod 4) <$> take 4 idx) (take 4 a) ++
  shuffle ((λ i, i mod 4) <$> drop 4 idx) (drop 4 a).

(** [_mm256_extractf128_si256(a, i)] and [_mm256_insertf128_si256(a, b, 1)]. *)
Definition extractf128 (i : nat) (a : list Z) : list Z := take 4 (drop (4 * i) a).
Definition insertf128_1 (a b : list Z) : list Z := take 4 a ++ b.

(** [_mm256_permute2f128_ps(p, p, 0x01)]. *)
Definition swap_halves (p : list Z) : list Z := drop 4 p ++ take 4 p.

(** [_mm_blendv_ps(a, b, mask)]: the sign bit of a lane of [mask] selects [b]. *)
Definition blendv_ps (a b m : list Z) : list Z :=
  zip_with (λ ab s, if 2 ^ 31 <=? s then ab.2 else ab.1) (zip a b) m.

(** [_mm_blendv_pd(a, b, mask)]. *)
Definition blendv_pd (a b m : list Z) : list Z :=
  of64 (zip_with (λ ab s, if 2 ^ 63 <=? s then ab.2 else ab.1) (zip (to64 a) (to64 b)) (to64 m)).

(** [_mm_movemask_ps] and [_mm_movemask_pd]: the sign bits of the lanes. *)
Fixpoint bits_of (bs : list bool) : Z :=
  match bs with
  | [] => 0
  | b :: bs => (if b then 1 else 0) + 2 * bits_of bs
  end.
Definition movemask_ps (m : list Z) : Z := bits_of ((λ x, 2 ^ 31 <=? x) <$> m).
Definition movemask_pd (m : list Z) : Z := bits_of ((λ x, 2 ^ 63 <=? x) <$> to64 m).

(** ** The two views *)

Lemma zip_with_replicate_r_eq {A B D} (f : A → B → D) (l : list A) n y :
  length l = n → zip_with f l (replicate n y) = (λ x, f x y) <$> l.
Proof. intros <-. induction l; simpl; by f_equal. Qed.

Lemma to64_of64 l : to64 (of64 l) = l.
Proof.
  induction l as [|x l IH]; [done|]. cbn [of64 to64]. rewrite IH. f_equal.
  pose proof (Z.div_mod x (2 ^ 32)). lia.
Qed.

Lemma pair_split lo hi : word 32 lo → (lo + 2 ^ 32 * hi) mod 2 ^ 32 = lo ∧ (lo + 2 ^ 32 * hi) / 2 ^ 32 = hi.
Proof.
  intros Hlo. unfold word in *. rewrite (Z.mul_comm (2 ^ 32)). split.
  - rewrite Z.mod_add, Z.mod_small; lia.
  - rewrite Z.div_add, Z.div_small; lia.
Qed.

Lemma of64_to64 n r : register n r → of64 (to64 r) = r.
Proof.
  intros [Hl Hw]. revert r Hl Hw. induction n as [|n IH]; intros r Hl Hw.
  - by destruct r.
  - destruct r as [|lo [|hi r]]; simpl in Hl; [lia|lia|].
    inversion Hw as [|?? Hlo Hw']; subst. inversion Hw' as [|?? Hhi Hw'']; subst.
    cbn [to64 of64]. destruct (pair_split lo hi Hlo) as [-> ->]. rewrite IH; [done|lia|done].
Qed.

Lemma length_of64 l : length (of64 l) = (2 * length l)%nat.
Proof. induction l; simpl; lia. Qed.

Lemma length_to64 n r : length r = (2 * n)%nat → length (to64 r) = n.
Proof.
  revert r. induction n as [|n IH]; intros [|lo [|hi r]] Hl; simpl in Hl; try (done || lia).
  cbn [to64 length]. rewrite IH; lia.
Qed.

Lemma of64_register n l : length l = n → Forall (word 64) l → register n (of64 l).
Proof.
  intros <- Hw. split; [apply length_of64|].
  induction Hw as [|x l Hx _ IH]; [constructor|]. unfold word in *. cbn [of64].
  constructor; [apply Z.mod_pos_bound; lia|]. constructor; [|exact IH].
  split; [apply Z.div_pos; lia|]. apply Z.div_lt_upper_bound; lia.
Qed.

Lemma to64_words n r : register n r → Forall (word 64) (to64 r).
Proof.
  intros [Hl Hw]. revert r Hl Hw. induction n as [|n IH]; intros r Hl Hw.
  - by destruct r.
  - destruct r as [|lo [|hi r]]; simpl in Hl; [lia|lia|].
    inversion Hw as [|?? Hlo Hw']; subst. inversion Hw' as [|?? Hhi Hw'']; subst.
    unfold word in *. cbn [to64]. constructor; [lia|]. apply IH; [lia|done].
Qed.

(** ** Bitwise operations in both views *)

Lemma word_bits w x : 0 <= w → word w x ↔ 0 <= x ∧ ∀ n, w <= n → Z.testbit x n = false.
Proof.
  intros Hw. split.
  - intros [Hx Hlt]. split; [done|]. intros n Hn.
    destruct (decide (x = 0)) as [->|]; [apply Z.bits_0|].
    apply Z.bits_above_log2; [done|]. apply Z.log2_lt_pow2; [lia|].
    eapply Z.lt_le_trans; [done|]. apply Z.pow_le_mono_r; lia.
  - intros [Hx Hb]. split; [done|]. destruct (Z.lt_ge_cases x (2 ^ w)) as [|Hge]; [done|].
    assert (0 < x) by (pose proof (Z.pow_pos_nonneg 2 w); lia).
    apply Z.log2_le_pow2 in Hge; [|done].
    specialize (Hb (Z.log2 x) Hge). by rewrite Z.bit_log2 in Hb.
Qed.

Lemma testbit_pair lo hi n : word 32 lo → 0 <= n →
  Z.testbit (lo + 2 ^ 32 * hi) n = if n <? 32 then Z.testbit lo n else Z.testbit hi (n - 32).
Proof.
  intros Hlo Hn. destruct (pair_split lo hi Hlo) as [Hm Hd].
  destruct (n <? 32) eqn:E; zbool.
  - rewrite <-Hm at 2. by rewrite Z.mod_pow2_bits_low.
  - rewrite <-Hd at 2. rewrite Z.div_pow2_bits by lia. by rewrite Z.sub_add.
Qed.

(** An operation on words that works bit by bit. *)
Record bitwise (f : Z → Z → Z) := {
  bitwise_table : bool → bool → bool;
  bitwise_bits : ∀ a b n, 0 <= n → Z.testbit (f a b) n = bitwise_table (Z.testbit a n) (Z.testbit b n);
  bitwise_zero : bitwise_table false false = false;
  bitwise_nonneg : ∀ a b, 0 <= a → 0 <= b → 0 <= f a b;
}.

Definition bitwise_land : bitwise Z.land.
Proof.
  refine {| bitwise_table := andb |}; [intros; apply Z.land_spec|done|].
  intros. apply Z.land_nonneg. by left.
Defined.
Definition bitwise_lor : bitwise Z.lor.
Proof.
  refine {| bitwise_table := orb |}; [intros; apply Z.lor_spec|done|].
  intros. by apply Z.lor_nonneg.
Defined.
Definition bitwise_lxor : bitwise Z.lxor.
Proof.
  refine {| bitwise_table := xorb |}; [intros; apply Z.lxor_spec|done|].
  intros. by apply Z.lxor_nonneg.
Defined.

Section Bitwise.
Context (f : Z → Z → Z) (Hf : bitwise f).

Lemma bitwise_word w a b : 0 <= w → word w a → word w b → word w (f a b).
Proof.
  intros Hw [Ha0 Ha]%word_bits [Hb0 Hb]%word_bits; try done. apply word_bits; [done|].
  split; [by apply bitwise_nonneg|]. intros n Hn.
  rewrite (bitwise_bits _ Hf), Ha, Hb by lia. apply bitwise_zero.
Qed.

Lemma bitwise_pair lo hi lo' hi' :
  word 32 lo → word 32 lo' →
  f (lo + 2 ^ 32 * hi) (lo' + 2 ^ 32 * hi') = f lo lo' + 2 ^ 32 * f hi hi'.
Proof.
  intros Hl Hl'. apply Z.bits_inj'. intros n Hn.
  rewrite testbit_pair by (done || by apply bitwise_word).
  rewrite (bitwise_bits _ Hf), !testbit_pair by done.
  destruct (n <? 32) eqn:E; zbool; rewrite (bitwise_bits _ Hf) by lia; done.
Qed.

Lemma to64_bitwise n a b :
  register n a → register n b → to64 (zip_with f a b) = zip_with f (to64 a) (to64 b).
Proof.
  intros [Hl Hw] [Hl' Hw']. revert a b Hl Hw Hl' Hw'.
  induction n as [|n IH]; intros a b Hl Hw Hl' Hw'; [by destruct a|].
  destruct a as [|lo [|hi a]]; simpl in Hl; try lia.
  destruct b as [|lo' [|hi' b]]; simpl in Hl'; try lia.
  repeat match goal with H : Forall _ (_ :: _) |- _ => inversion H; clear H; subst end.
  cbn [zip_with to64]. rewrite bitwise_pair by done. f_equal. apply IH; done || lia.
Qed.

Lemma register_bitwise n a b : register n a → register n b → register n (zip_with f a b).
Proof.
  intros [Hl Hw] [Hl' Hw']. split; [rewrite length_zip_with; lia|].
  clear Hl Hl'. revert b Hw'. induction Hw as [|x a Hx _ IH]; intros b Hw'; [constructor|].
  destruct Hw' as [|y b Hy Hw']; [constructor|]. constructor; [by apply bitwise_word|by apply IH].
Qed.

End Bitwise.

Lemma word_sll w b x : 0 <= w → word w (sll w b x).
Proof. intros. unfold word, sll. apply Z.mod_pos_bound. lia. Qed.

Lemma word_srl w b x : 0 <= b → word w x → word w (srl b x).
Proof.
  intros Hb [Hx Hlt]. unfold srl. rewrite Z.shiftr_div_pow2 by done.
  assert (0 < 2 ^ b) by lia. split; [by apply Z.div_pos|].
  apply Z.le_lt_trans with x; [|done]. apply Z.div_le_upper_bound; nia.
Qed.

Lemma word_mask w b : 0 <= w → word w (mask w b).
Proof. intros. unfold word, mask. destruct b; lia. Qed.

Lemma word_u64 x : word 64 (u64 x).
Proof. apply Z.mod_pos_bound. lia. Qed.

Create HintDb simd.
#[export] Hint Resolve word_sll word_srl word_mask word_u64 : simd.
