(* ===== verification/PacketMath.v ===== *)
(** EigenRand's packet operations on integers,
    EigenRand/arch/SSE/MorePacketMath.h ([SSE], on [Packet4i]) and
    EigenRand/arch/AVX/MorePacketMath.h ([AVX], on [Packet8i]).  The feature
    macros that select a variant at compile time are an argument.  The
    operations that Eigen itself defines on these packets are an interface. *)

From S2P Require Import Prelude.
From S2P Require Import Simd.

(** EIGEN_VECTORIZE_SSSE3, EIGEN_VECTORIZE_SSE4_1, EIGEN_VECTORIZE_SSE4_2 and
    EIGEN_VECTORIZE_AVX2. *)
Record features := mk_features { ssse3 : bool; sse4_1 : bool; sse4_2 : bool; avx2 : bool }.

(** ** Eigen's operations on integer packets *)

Class EigenPackets := {
  pand : list Z → list Z → list Z;
  por : list Z → list Z → list Z;
  pxor : list Z → list Z → list Z;
  padd : list Z → list Z → list Z;
  psub : list Z → list Z → list Z;
  pset1 : nat → Z → list Z;
}.

(** Their documentation: each works on every lane. *)
Class EigenPacketLaws `{EigenPackets} := {
  pand_lanes : ∀ n a b, register n a → register n b → pand a b = and_si a b;
  por_lanes : ∀ n a b, register n a → register n b → por a b = or_si a b;
  pxor_lanes : ∀ n a b, register n a → register n b → pxor a b = xor_si a b;
  padd_lanes : ∀ n a b, register n a → register n b → padd a b = add_epi32 a b;
  psub_lanes : ∀ n a b, register n a → register n b → psub a b = sub_epi32 a b;
  pset1_lanes : ∀ n x, pset1 n x = set1_epi32 n x;
}.

(** The instructions satisfy it. *)
Definition instructions : EigenPackets :=
  {| pand := and_si; por := or_si; pxor := xor_si; padd := add_epi32; psub := sub_epi32;
     pset1 := set1_epi32 |}.

Lemma instructions_laws : @EigenPacketLaws instructions.
Proof. by split. Qed.

(** ** Packet4i *)

Module SSE.
Section Code.
Context `{EigenPackets} (fx : features).

Definition split_two (x : list Z) : Z * Z :=
  let u := storeu x in (nth 0 u 0, nth 1 u 0).

Definition combine_low32 (a b : list Z) : list Z :=
  let sa := shuffle_epi32 3 1 2 0 a in
  let sb := shuffle_epi32 2 0 3 1 b in
  let sa := and_si sa [mask 32 true; mask 32 true; 0; 0] in
  let sb := and_si sb [0; 0; mask 32 true; mask 32 true] in
  or_si sa sb.

Definition pseti64 (a : Z) : list Z := set1_epi64x 2 a.
Definition padd64 (a b : list Z) : list Z := add_epi64 a b.
Definition psub64 (a b : list Z) : list Z := sub_epi64 a b.
Definition pcmpeq (a b : list Z) : list Z := cmpeq_epi32 a b.
Definition pcmplt (a b : list Z) : list Z := cmplt_epi32 a b.

(** [BitShifter<Packet4i>]; a negative template argument of [srl] takes the
    count from the argument [_b]. *)
Definition psll (b : Z) (a : list Z) : list Z := slli_epi32 b a.
Definition psrl (b : Z) (a : list Z) (_b : Z) : list Z :=
  if b >=? 0 then srli_epi32 b a else srli_epi32 _b a.
Definition psll64 (b : Z) (a : list Z) : list Z := slli_epi64 b a.
Definition psrl64 (b : Z) (a : list Z) : list Z := srli_epi64 b a.

Definition pcmplt64 (a b : list Z) : list Z :=
  if sse4_2 fx then cmpgt_epi64 b a
  else
    let u := storeu a in
    let v := storeu b in
    loadu [mask 64 (signed 64 (nth 0 u 0) <? signed 64 (nth 0 v 0));
           mask 64 (signed 64 (nth 1 u 0) <? signed 64 (nth 1 v 0))].

Definition pcmpeq64 (a b : list Z) : list Z :=
  if sse4_1 fx then cmpeq_epi64 a b
  else
    let c := cmpeq_epi32 a b in
    pand c (shuffle_epi32 2 3 0 1 c).

(** [pblendv] on 32-bit and on 64-bit lanes. *)
Definition pblendv (ifPacket thenPacket elsePacket : list Z) : list Z :=
  if sse4_1 fx then blendv_ps elsePacket thenPacket ifPacket
  else or_si (and_si ifPacket thenPacket) (andnot_si ifPacket elsePacket).
Definition pblendv_pd (ifPacket thenPacket elsePacket : list Z) : list Z :=
  if sse4_1 fx then blendv_pd elsePacket thenPacket ifPacket
  else or_si (and_si ifPacket thenPacket) (andnot_si ifPacket elsePacket).

(** [pgather] from an array of 32-bit values; the gather instruction reads the
    indices as signed. *)
Definition pgather {A} (addr : list A) (index : list Z) : outcome (list A) :=
  if avx2 fx then mapM (λ i, array_get addr (signed 32 i)) index
  else mapM (array_get addr) index.

(** [pgather] from an array of [double]s, for two of the indices. *)
Definition pgather_doubles {A} (addr : list A) (index : list Z) (upperhalf : bool) : outcome (list A) :=
  if avx2 fx then mapM (λ i, array_get addr (signed 32 i)) (take 2 index)
  else if upperhalf then mapM (array_get addr) (drop 2 index)
  else mapM (array_get addr) (take 2 index).
Definition pgather_pd (addr : list Z) (index : list Z) (upperhalf : bool) : outcome (list Z) :=
  u ← pgather_doubles addr index upperhalf; Ret (loadu u).

Definition pmovemask (a : list Z) : Z := movemask_ps a.
Definition predux_all (x : list Z) : bool := movemask_ps x =? 15.
Definition predux_any (x : list Z) : bool := negb (movemask_ps x =? 0).

Definition pmuluadd64 (a : list Z) (b c : Z) : list Z :=
  let u := storeu a in
  let u := alter (λ x, u64 (x * b + c)) 0%nat u in
  let u := alter (λ x, u64 (x * b + c)) 1%nat u in
  loadu u.

End Code.
End SSE.

(** ** Packet8i *)

Module AVX.
Section Code.
Context `{EigenPackets} (fx : features).

Definition split_two (x : list Z) : list Z * list Z := (extractf128 0 x, extractf128 1 x).
Definition combine_two (a b : list Z) : list Z := insertf128_1 a b.

(** Without AVX2 an operation works on the two halves. *)
Definition halves (f : list Z → list Z → list Z) (a b : list Z) : list Z :=
  let '(a1, a2) := split_two a in
  let '(b1, b2) := split_two b in
  combine_two (f a1 b1) (f a2 b2).
Definition halves1 (f : list Z → list Z) (a : list Z) : list Z :=
  let '(a1, a2) := split_two a in
  combine_two (f a1) (f a2).

Definition combine_low32 (a : list Z) : list Z :=
  if avx2 fx then take 4 (permutevar8x32 a [0; 2; 4; 6; 1; 3; 5; 7])
  else
    let sc := permutevar_ps a [0; 2; 1; 3; 1; 3; 0; 2] in
    take 2 (extractf128 0 sc) ++ drop 2 (extractf128 1 sc).

Definition pseti64 (a : Z) : list Z := set1_epi64x 4 a.
Definition padd64 (a b : list Z) : list Z :=
  if avx2 fx then add_epi64 a b else halves add_epi64 a b.
Definition psub64 (a b : list Z) : list Z :=
  if avx2 fx then sub_epi64 a b else halves sub_epi64 a b.
Definition pcmpeq (a b : list Z) : list Z :=
  if avx2 fx then cmpeq_epi32 a b else halves cmpeq_epi32 a b.
Definition pnegate (a : list Z) : list Z :=
  if avx2 fx then sub_epi32 (pset1 8 0) a
  else
    let '(a1, a2) := split_two a in
    combine_two (sub_epi32 (pset1 4 0) a1) (sub_epi32 (pset1 4 0) a2).

Definition psll (b : Z) (a : list Z) : list Z :=
  if avx2 fx then slli_epi32 b a else halves1 (slli_epi32 b) a.
Definition psrl (b : Z) (a : list Z) (_b : Z) : list Z :=
  if avx2 fx
  then if b >=? 0 then srli_epi32 b a else srli_epi32 _b a
  else if b >=? 0 then halves1 (srli_epi32 b) a else halves1 (srli_epi32 _b) a.
Definition psll64 (b : Z) (a : list Z) : list Z :=
  if avx2 fx then slli_epi64 b a else halves1 (slli_epi64 b) a.
Definition psrl64 (b : Z) (a : list Z) : list Z :=
  if avx2 fx then srli_epi64 b a else halves1 (srli_epi64 b) a.

(** The operations that EIGENRAND_EIGEN_33_MODE adds to Eigen's; the variants
    on floating-point registers work on the same bits. *)
Definition padd_33 (a b : list Z) : list Z :=
  if avx2 fx then add_epi32 a b else halves add_epi32 a b.
Definition psub_33 (a b : list Z) : list Z :=
  if avx2 fx then sub_epi32 a b else halves sub_epi32 a b.
Definition pand_33 (a b : list Z) : list Z := and_si a b.
Definition pandnot_33 (a b : list Z) : list Z := andnot_si a b.
Definition por_33 (a b : list Z) : list Z := or_si a b.
Definition pxor_33 (a b : list Z) : list Z := xor_si a b.

Definition predux_any (x : list Z) : bool := negb (movemask_ps x =? 0).
Definition predux_all (x : list Z) : bool := movemask_ps x =? 255.

Definition pcmplt (a b : list Z) : list Z :=
  if avx2 fx then cmpgt_epi32 b a else halves (λ a b, cmpgt_epi32 b a) a b.
Definition pcmplt64 (a b : list Z) : list Z :=
  if avx2 fx then cmpgt_epi64 b a else halves (λ a b, cmpgt_epi64 b a) a b.

Definition pblendv (ifPacket thenPacket elsePacket : list Z) : list Z :=
  blendv_ps elsePacket thenPacket ifPacket.
Definition pblendv_pd (ifPacket thenPacket elsePacket : list Z) : list Z :=
  blendv_pd elsePacket thenPacket ifPacket.

Definition pgather {A} (addr : list A) (index : list Z) : outcome (list A) :=
  if avx2 fx then mapM (λ i, array_get addr (signed 32 i)) index
  else mapM (array_get addr) index.

Definition pgather_doubles {A} (addr : list A) (index : list Z) (upperhalf : bool) : outcome (list A) :=
  if avx2 fx then mapM (λ i, array_get addr (signed 32 i)) (take 4 index)
  else if upperhalf then mapM (array_get addr) (drop 4 index)
  else mapM (array_get addr) (take 4 index).
Definition pgather_pd (addr : list Z) (index : list Z) (upperhalf : bool) : outcome (list Z) :=
  u ← pgather_doubles addr index upperhalf; Ret (loadu u).

Definition pmovemask (a : list Z) : Z := movemask_ps a.

Definition pcmpeq64 (a b : list Z) : list Z :=
  if avx2 fx then cmpeq_epi64 a b else halves cmpeq_epi64 a b.

Definition pmuluadd64 (a : list Z) (b c : Z) : list Z :=
  let u := storeu a in
  let u := alter (λ x, u64 (x * b + c)) 0%nat u in
  let u := alter (λ x, u64 (x * b + c)) 1%nat u in
  let u := alter (λ x, u64 (x * b + c)) 2%nat u in
  let u := alter (λ x, u64 (x * b + c)) 3%nat u in
  loadu u.

End Code.
End AVX.

(** ** What the random engine uses of a packet type

    [IntPacket] are the operations on a packet of [size64] 64-bit lanes, and
    [IntPacketLaws] their effect on the lanes. *)

Class IntPacket := {
  size64 : nat;
  ip_and : list Z → list Z → list Z;
  ip_or : list Z → list Z → list Z;
  ip_xor : list Z → list Z → list Z;
  ip_seti64 : Z → list Z;
  ip_sll64 : Z → list Z → list Z;
  ip_srl64 : Z → list Z → list Z;
  ip_cmpeq64 : list Z → list Z → list Z;
  ip_muluadd64 : list Z → Z → Z → list Z;
  ip_split_two : list Z → list Z * list Z;  (* the two halves, as 64-bit lanes *)
}.

Class IntPacketLaws `{IntPacket} := {
  ip_and_law : ∀ a b, register size64 a → register size64 b →
    register size64 (ip_and a b) ∧ to64 (ip_and a b) = zip_with Z.land (to64 a) (to64 b);
  ip_or_law : ∀ a b, register size64 a → register size64 b →
    register size64 (ip_or a b) ∧ to64 (ip_or a b) = zip_with Z.lor (to64 a) (to64 b);
  ip_xor_law : ∀ a b, register size64 a → register size64 b →
    register size64 (ip_xor a b) ∧ to64 (ip_xor a b) = zip_with Z.lxor (to64 a) (to64 b);
  ip_seti64_law : ∀ x,
    register size64 (ip_seti64 x) ∧ to64 (ip_seti64 x) = replicate size64 (u64 x);
  ip_sll64_law : ∀ b a, 0 <= b < 64 → register size64 a →
    register size64 (ip_sll64 b a) ∧ to64 (ip_sll64 b a) = sll 64 b <$> to64 a;
  ip_srl64_law : ∀ b a, 0 <= b < 64 → register size64 a →
    register size64 (ip_srl64 b a) ∧ to64 (ip_srl64 b a) = srl b <$> to64 a;
  ip_cmpeq64_law : ∀ a b, register size64 a → register size64 b →
    register size64 (ip_cmpeq64 a b) ∧
    to64 (ip_cmpeq64 a b) = zip_with (λ x y, mask 64 (x =? y)) (to64 a) (to64 b);
  ip_muluadd64_law : ∀ a b c, register size64 a →
    register size64 (ip_muluadd64 a b c) ∧
    to64 (ip_muluadd64 a b c) = (λ x, u64 (x * b + c)) <$> to64 a;
  ip_split_two_law : ∀ a, register size64 a →
    (ip_split_two a).1 ++ (ip_split_two a).2 = to64 a ∧
    (2 * length (ip_split_two a).1)%nat = size64;
  size64_pos : (0 < size64)%nat;
}.

(** The two packet types as instances. *)
Definition packet4i `{EigenPackets} (fx : features) : IntPacket := {|
  size64 := 2;
  ip_and := pand; ip_or := por; ip_xor := pxor;
  ip_seti64 := SSE.pseti64;
  ip_sll64 := SSE.psll64; ip_srl64 := SSE.psrl64;
  ip_cmpeq64 := SSE.pcmpeq64 fx;
  ip_muluadd64 := SSE.pmuluadd64;
  ip_split_two := λ x, ([(SSE.split_two x).1], [(SSE.split_two x).2]);
|}.

Definition packet8i `{EigenPackets} (fx : features) : IntPacket := {|
  size64 := 4;
  ip_and := pand; ip_or := por; ip_xor := pxor;
  ip_seti64 := AVX.pseti64;
  ip_sll64 := AVX.psll64 fx; ip_srl64 := AVX.psrl64 fx;
  ip_cmpeq64 := AVX.pcmpeq64 fx;
  ip_muluadd64 := AVX.pmuluadd64;
  ip_split_two := λ x, (to64 (AVX.split_two x).1, to64 (AVX.split_two x).2);
|}.
