(* ===== verification/PacketMathProps.v ===== *)
(** The packet operations compute the same lanes whichever instruction set
    extensions are enabled, and implement the interface [IntPacket]. *)

From S2P Require Import Prelude.
From S2P Require Import Simd.
From S2P Require Import PacketMath.

(** A register of a known number of lanes, as its lanes. *)
Ltac lanes Ha :=
  let Hl := fresh in let Hw := fresh in destruct Ha as [Hl Hw]; cbn in Hl;
  repeat match type of Hl with
  | length ?r = _ => destruct r; cbn in Hl; try discriminate Hl
  | S _ = S _ => apply eq_add_S in Hl
  end; clear Hl;
  repeat match type of Hw with
  | Forall _ (_ :: _) => let Hx := fresh "Hx" in apply Forall_cons in Hw as [Hx Hw]
  end; clear Hw.

(** Evaluate everything but the arithmetic on lanes. *)
Ltac simd_eval :=
  cbv -[mask sll srl signed u32 u64 of64 Z.land Z.lor Z.lxor Z.add Z.sub Z.mul Z.pow Z.eqb Z.ltb
        Z.leb Z.modulo Z.div andb word].

(** The law of a bitwise operation of [IntPacket]. *)
Ltac ip_bitwise Hlaw Hf :=
  intros a b Ha Hb; cbn; rewrite (Hlaw _ a b Ha Hb);
  split; [by apply (register_bitwise _ Hf)|by eapply (to64_bitwise _ Hf)].

(** ** Lane-wise 64-bit operations *)

Lemma lanewise64_law n f a b :
  (∀ x y, word 64 (f x y)) → register n a → register n b →
  register n (lanewise64 f a b) ∧ to64 (lanewise64 f a b) = zip_with f (to64 a) (to64 b).
Proof.
  intros Hf [Hla _] [Hlb _]. unfold lanewise64. rewrite to64_of64. split; [|done].
  apply of64_register.
  - rewrite length_zip_with, (length_to64 n), (length_to64 n) by done. lia.
  - apply Forall_forall. intros z Hz.
    apply list_elem_of_lookup in Hz as [i Hi]. apply lookup_zip_with_Some in Hi as (x & y & -> & _ & _).
    apply Hf.
Qed.

Lemma map64_law n f a :
  (∀ x, word 64 x → word 64 (f x)) → register n a →
  register n (of64 (f <$> to64 a)) ∧ to64 (of64 (f <$> to64 a)) = f <$> to64 a.
Proof.
  intros Hf Ha. rewrite to64_of64. split; [|done]. apply of64_register.
  - rewrite length_fmap. apply length_to64, Ha.
  - apply Forall_fmap. eapply Forall_impl; [by eapply to64_words|]. intros x Hx. by apply Hf.
Qed.

Lemma set1_law n x :
  register n (set1_epi64x n x) ∧ to64 (set1_epi64x n x) = replicate n (u64 x).
Proof.
  unfold set1_epi64x. rewrite to64_of64. split; [|done].
  apply of64_register; [apply length_replicate|]. apply Forall_replicate, word_u64.
Qed.

Lemma srli_epi64_eq b a : b < 64 → srli_epi64 b a = of64 (srl b <$> to64 a).
Proof. intros Hb. unfold srli_epi64. apply Z.ltb_lt in Hb. by rewrite Hb. Qed.

(** ** Without the 64-bit comparisons *)

Lemma mask_and b c : Z.land (mask 32 b) (mask 32 c) = mask 32 (b && c).
Proof. by destruct b, c. Qed.

Lemma mask_pair b : mask 32 b + 2 ^ 32 * mask 32 b = mask 64 b.
Proof. by destruct b. Qed.

Lemma pair_eqb lo hi lo' hi' : word 32 lo → word 32 lo' →
  (lo + 2 ^ 32 * hi =? lo' + 2 ^ 32 * hi') = (lo =? lo') && (hi =? hi').
Proof.
  intros Hl Hl'. destruct (pair_split lo hi Hl) as [Hm Hd].
  destruct (pair_split lo' hi' Hl') as [Hm' Hd'].
  destruct (Z.eqb_spec lo lo') as [->|]; destruct (Z.eqb_spec hi hi') as [->|]; simpl;
    [by apply Z.eqb_eq| | |]; apply Z.eqb_neq; congruence.
Qed.

Lemma of64_mask b l : of64 (mask 64 b :: l) = mask 32 b :: mask 32 b :: of64 l.
Proof. by destruct b. Qed.

Section Eigen.
Context `{EigenPackets} `{!EigenPacketLaws}.

Lemma cmpeq_shuffle_eq a b :
  register 2 a → register 2 b →
  pand (cmpeq_epi32 a b) (shuffle_epi32 2 3 0 1 (cmpeq_epi32 a b)) = cmpeq_epi64 a b.
Proof.
  intros Ha Hb. lanes Ha. lanes Hb. 
  rewrite (pand_lanes 2).
  - simd_eval. rewrite !pair_eqb by done. rewrite !of64_mask, !mask_and. cbn [of64].
    repeat first [reflexivity | apply (f_equal2 cons) | apply (f_equal (mask 32)), andb_comm].
  - split; [done|]. cbn -[mask]. repeat constructor; apply word_mask; lia.
  - split; [done|]. cbn -[mask]. repeat constructor; apply word_mask; lia.
Qed.

(** ** Selection by a mask *)

Definition select (bs : list bool) (t e : list Z) : list Z :=
  zip_with (λ b te, if b : bool then te.1 else te.2) bs (zip t e).

Lemma word_not w x : 0 <= w → word w x → word w (mask w true - x).
Proof. unfold word, mask. intros. lia. Qed.

Lemma land_mask w x : 0 <= w → word w x → Z.land x (mask w true) = x.
Proof.
  intros Hw Hx. unfold mask. replace (2 ^ w - 1) with (Z.ones w) by (rewrite Z.ones_equiv; lia).
  by rewrite Z.land_ones, Z.mod_small.
Qed.

Lemma mask_select b t e : word 32 t → word 32 e →
  Z.lor (Z.land (mask 32 b) t) (Z.land (mask 32 true - mask 32 b) e) = if b then t else e.
Proof.
  intros Ht He. rewrite !(Z.land_comm _ t), !(Z.land_comm _ e).
  destruct b; [rewrite Z.sub_diag|change (mask 32 false) with 0; rewrite Z.sub_0_r];
    rewrite ?Z.land_0_r, ?land_mask by done.
  - apply Z.lor_0_r.
  - apply Z.lor_0_l.
Qed.

Lemma mask_sign b : (2 ^ 31 <=? mask 32 b) = b.
Proof. by destruct b. Qed.

Lemma or_and_select n bs t e :
  length bs = (2 * n)%nat → register n t → register n e →
  or_si (and_si (mask 32 <$> bs) t) (andnot_si (mask 32 <$> bs) e) = select bs t e.
Proof.
  intros Hbs [Hlt Ht] [Hle He]. unfold or_si, and_si, andnot_si, select.
  assert (length bs = length t) as Hbt by congruence.
  assert (length bs = length e) as Hbe by congruence. clear Hbs Hlt Hle.
  revert t e Ht He Hbt Hbe.
  induction bs as [|b bs IH]; intros [|x t] [|y e] Ht He Hbt Hbe; try done.
  apply Forall_cons in Ht as [Hx Ht]. apply Forall_cons in He as [Hy He].
  cbn. f_equal; [by apply mask_select|]. apply IH; simpl in *; done || lia.
Qed.

Lemma blendv_select bs t e :
  length bs = length t → length bs = length e →
  blendv_ps e t (mask 32 <$> bs) = select bs t e.
Proof.
  unfold blendv_ps, select. revert t e.
  induction bs as [|b bs IH]; intros [|x t] [|y e] Hbt Hbe; try done.
  cbn -[Z.leb mask]. rewrite mask_sign. f_equal. apply IH; simpl in *; lia.
Qed.

Lemma word_lane n v i : register n v → word 32 (lane v i).
Proof.
  intros [_ Hw]. unfold lane. rewrite nth_lookup. destruct (v !! _) as [x|] eqn:E; cbn.
  - by eapply Forall_lookup_1.
  - unfold word. lia.
Qed.

Lemma sse_blendv fx bs a b : length bs = 4%nat → register 2 a → register 2 b →
  SSE.pblendv fx (mask 32 <$> bs) a b = select bs a b.
Proof.
  intros Hbs Ha Hb. unfold SSE.pblendv. destruct (sse4_1 fx).
  - apply blendv_select; rewrite Hbs; symmetry; [apply Ha|apply Hb].
  - by apply (or_and_select 2).
Qed.

(** ** Gathering *)

Lemma gather_ok (g : Z → Z) addr index :
  Forall (λ i, g i = i ∧ 0 <= i < Z.of_nat (length addr)) index →
  mapM (λ i, array_get addr (g i)) index = Ret (lane addr <$> index).
Proof.
  induction 1 as [|i index [Hg Hi] _ IH]; [done|]. cbn. rewrite Hg.
  destruct (lookup_lt_is_Some_2 addr (Z.to_nat i)) as [x Hx]; [lia|].
  rewrite (array_get_ok _ _ x) by (done || lia). cbn. rewrite IH. cbn.
  unfold lane. by rewrite nth_lookup, Hx.
Qed.

(** ** Properties *)

(** Every variant of a [Packet4i] operation computes the lane-wise result: the
    64-bit comparisons written for SSE2 and the SSE4 instructions, the blend by
    masks and the blend instruction (for masks of whole lanes), the gather loop
    and the gather instruction (for indices inside the array). *)
Theorem sse_variants_agree (fx : features) a b bs addr m k :
  register 2 a → register 2 b → length bs = 4%nat →
  SSE.pcmpeq64 fx a b = cmpeq_epi64 a b ∧
  SSE.pcmplt64 fx a b = cmpgt_epi64 b a ∧
  SSE.pblendv fx (mask 32 <$> bs) a b = select bs a b ∧
  SSE.combine_low32 a b = [lane a 0; lane a 2; lane b 0; lane b 2] ∧
  SSE.pmuluadd64 a m k = of64 ((λ x, u64 (x * m + k)) <$> to64 a) ∧
  (∀ index, Forall (λ i, 0 <= i < Z.of_nat (length addr) ∧ i < 2 ^ 31) index →
     SSE.pgather fx addr index = Ret (lane addr <$> index)).
Proof.
  intros Ha Hb Hbs. split_and!.
  - unfold SSE.pcmpeq64. destruct (sse4_1 fx); [done|]. by apply cmpeq_shuffle_eq.
  - unfold SSE.pcmplt64. destruct (sse4_2 fx); [done|]. lanes Ha. lanes Hb. done.
  - by apply sse_blendv.
  - lanes Ha. lanes Hb. simd_eval. rewrite !Z.land_0_r, !Z.lor_0_r, !Z.lor_0_l.
    by rewrite !land_mask by done.
  - lanes Ha. done.
  - intros index Hi. unfold SSE.pgather. destruct (avx2 fx).
    + apply gather_ok. eapply Forall_impl; [exact Hi|]. intros i [Hr Hlt]. split; [|done].
      unfold signed. by rewrite (proj2 (Z.ltb_lt _ _)).
    + apply (gather_ok (λ i, i)). eapply Forall_impl; [exact Hi|]. by intros i [Hr _].
Qed.
Lemma avx_psll64 fx b a : register 4 a → AVX.psll64 fx b a = slli_epi64 b a.
Proof. intros Ha. lanes Ha. unfold AVX.psll64. by destruct (avx2 fx). Qed.

Lemma avx_psrl64 fx b a : register 4 a → AVX.psrl64 fx b a = srli_epi64 b a.
Proof. intros Ha. lanes Ha. unfold AVX.psrl64. by destruct (avx2 fx). Qed.

Lemma avx_pcmpeq64 fx a b :
  register 4 a → register 4 b → AVX.pcmpeq64 fx a b = cmpeq_epi64 a b.
Proof. intros Ha Hb. lanes Ha. lanes Hb. unfold AVX.pcmpeq64. by destruct (avx2 fx). Qed.

(** Without AVX2 every [Packet8i] operation computes, from the two halves, what
    the AVX2 instruction computes on the whole register. *)
Theorem avx_variants_agree (fx : features) a b n _n addr :
  register 4 a → register 4 b →
  AVX.padd64 fx a b = add_epi64 a b ∧ AVX.psub64 fx a b = sub_epi64 a b ∧
  AVX.pcmpeq fx a b = cmpeq_epi32 a b ∧ AVX.pcmpeq64 fx a b = cmpeq_epi64 a b ∧
  AVX.pcmplt fx a b = cmpgt_epi32 b a ∧ AVX.pcmplt64 fx a b = cmpgt_epi64 b a ∧
  AVX.padd_33 fx a b = add_epi32 a b ∧ AVX.psub_33 fx a b = sub_epi32 a b ∧
  AVX.pnegate fx a = (λ x, u32 (- x)) <$> a ∧
  AVX.psll fx n a = slli_epi32 n a ∧ AVX.psll64 fx n a = slli_epi64 n a ∧
  AVX.psrl64 fx n a = srli_epi64 n a ∧
  AVX.psrl fx n a _n = srli_epi32 (if n <? 0 then _n else n) a ∧
  AVX.combine_low32 fx a = [lane a 0; lane a 2; lane a 4; lane a 6] ∧
  AVX.combine_two (AVX.split_two a).1 (AVX.split_two a).2 = a ∧
  (∀ index, Forall (λ i, 0 <= i < Z.of_nat (length addr) ∧ i < 2 ^ 31) index →
     AVX.pgather fx addr index = Ret (lane addr <$> index)).
Proof.
  intros Ha Hb.
  assert (∀ index, Forall (λ i, 0 <= i < Z.of_nat (length addr) ∧ i < 2 ^ 31) index →
     AVX.pgather fx addr index = Ret (lane addr <$> index)) as Hgather.
  { intros index Hi. unfold AVX.pgather. destruct (avx2 fx).
    - apply gather_ok. eapply Forall_impl; [exact Hi|]. intros i [Hr Hlt]. split; [|done].
      unfold signed. by rewrite (proj2 (Z.ltb_lt _ _)).
    - apply (gather_ok (λ i, i)). eapply Forall_impl; [exact Hi|]. by intros i [Hr _]. }
  assert (AVX.pnegate fx a = (λ x, u32 (- x)) <$> a) as Hneg.
  { unfold AVX.pnegate. rewrite !pset1_lanes. lanes Ha. by destruct (avx2 fx). }
  split_and!; try done; lanes Ha; lanes Hb; unfold AVX.psrl, AVX.combine_low32;
    try rewrite Z.geb_leb, Z.leb_antisym; destruct (avx2 fx) eqn:E;
    try (cbv delta [AVX.padd64 AVX.psub64 AVX.pcmpeq AVX.pcmpeq64 AVX.pcmplt AVX.pcmplt64
      AVX.padd_33 AVX.psub_33 AVX.psll AVX.psll64 AVX.psrl64]; cbn beta; rewrite E);
    try reflexivity; destruct (n <? 0); reflexivity.
Qed.

(** ** The interface *)

Lemma packet4i_laws fx : @IntPacketLaws (packet4i fx).
Proof.
  split; cbn [size64 packet4i].
  - ip_bitwise pand_lanes bitwise_land.
  - ip_bitwise por_lanes bitwise_lor.
  - ip_bitwise pxor_lanes bitwise_lxor.
  - intros x. apply set1_law.
  - intros b a Hb Ha. apply map64_law; [auto with simd lia|done].
  - intros b a Hb Ha. cbn. unfold SSE.psrl64. rewrite srli_epi64_eq by lia.
    apply map64_law; [|done]. intros x Hx. apply word_srl; [lia|done].
  - intros a b Ha Hb. cbn. unfold SSE.pcmpeq64.
    assert (register 2 (cmpeq_epi64 a b) ∧
      to64 (cmpeq_epi64 a b) = zip_with (λ x y, mask 64 (x =? y)) (to64 a) (to64 b)).
    { apply lanewise64_law; [|done|done]. intros. apply word_mask. lia. }
    destruct (sse4_1 fx); [done|]. by rewrite cmpeq_shuffle_eq.
  - intros a b c Ha.
    assert (SSE.pmuluadd64 a b c = of64 ((λ x, u64 (x * b + c)) <$> to64 a)) as Heq.
    { by lanes Ha. }
    unfold ip_muluadd64, packet4i, packet8i. rewrite Heq. apply map64_law; [|done]. intros. apply word_u64.
  - intros a Ha. by lanes Ha.
  - cbn. lia.
Qed.

Lemma packet8i_laws fx : @IntPacketLaws (packet8i fx).
Proof.
  split; cbn [size64 packet8i].
  - ip_bitwise pand_lanes bitwise_land.
  - ip_bitwise por_lanes bitwise_lor.
  - ip_bitwise pxor_lanes bitwise_lxor.
  - intros x. apply set1_law.
  - intros b a Hb Ha. cbn.
    rewrite avx_psll64 by done.
    apply map64_law; [auto with simd lia|done].
  - intros b a Hb Ha. cbn.
    rewrite avx_psrl64, srli_epi64_eq by (done || lia).
    apply map64_law; [|done]. intros x Hx. apply word_srl; [lia|done].
  - intros a b Ha Hb. cbn.
    rewrite avx_pcmpeq64 by done.
    apply lanewise64_law; [|done|done]. intros. apply word_mask. lia.
  - intros a b c Ha.
    assert (AVX.pmuluadd64 a b c = of64 ((λ x, u64 (x * b + c)) <$> to64 a)) as Heq.
    { by lanes Ha. }
    unfold ip_muluadd64, packet4i, packet8i. rewrite Heq. apply map64_law; [|done]. intros. apply word_u64.
  - intros a Ha. by lanes Ha.
  - cbn. lia.
Qed.

End Eigen.

(** ** Witnesses *)

Lemma sse_variants_agree_witness :
  SSE.pcmpeq64 (H := instructions) (mk_features false false false false) [1; 2; 3; 4] [1; 2; 3; 5] =
    cmpeq_epi64 [1; 2; 3; 4] [1; 2; 3; 5].
Proof.
  apply (sse_variants_agree (H := instructions) (H0 := instructions_laws)
    (mk_features false false false false) [1; 2; 3; 4] [1; 2; 3; 5] [true; false; true; false] [] 3 5);
    [split; [done|]; repeat constructor; unfold word; lia..|done].
Defined.

Lemma avx_variants_agree_witness :
  AVX.pcmplt64 (mk_features true true true false) (replicate 8 7) (replicate 8 9) =
    cmpgt_epi64 (replicate 8 9) (replicate 8 7).
Proof.
  apply (avx_variants_agree (H := instructions) (H0 := instructions_laws)
    (mk_features true true true false) (replicate 8 7) (replicate 8 9) 1 1 []);
    (split; [done|]; apply Forall_replicate; unfold word; lia).
Defined.
