(* ===== verification/MersenneTwister.v ===== *)
(** EigenRand/PacketRandomEngine.h: the vectorised Mersenne Twister
    [MersenneTwister] over any packet type; and, at the end, the scalar engine
    std::mersenne_twister_engine as the C++ standard defines it ([rand.eng.mers]). *)

From S2P Require Import Prelude.
From S2P Require Import Simd.
From S2P Require Import PacketMath.

(** The numeric template arguments [_Nx, _Mx, _Rx, _Px, _Ux, _Dx, _Sx, _Bx,
    _Tx, _Cx, _Lx, _Fx]. *)
Record mt_params := mk_params {
  Nx : Z; Mx : Z; Rx : Z; Px : Z; Ux : Z; Dx : Z;
  Sx : Z; Bx : Z; Tx : Z; Cx : Z; Lx : Z; Fx : Z;
}.

(** [Pmt19937_64]. *)
Definition mt19937_64 : mt_params :=
  mk_params 312 156 31 0xb5026f5aa96619e9 29 0x5555555555555555 17 0x71d67fffeda60000
    37 0xfff7eee000000000 43 6364136223846793005.

Definition default_seed : Z := 5489.
Definition word_size : Z := 64.

Module MersenneTwister.
Section Code.
Context `{IntPacket} (P : mt_params).

Record t := mk {
  state : list (list Z);
  stateIdx : Z;
  cache : list Z;
  valid : bool;
}.

Definition wMask : Z := u64 (-1).
Definition hMask : Z := Z.land (sll 64 (Rx P) wMask) wMask.
Definition lMask : Z := Z.land (2 ^ 64 - 1 - hMask) wMask.

Definition min : Z := 0.
Definition max : Z := wMask.

(** [for (int i = 1; i < _Nx; ++i) prev = state[i] = ...], with [todo]
    iterations left. *)
Fixpoint seed_loop (todo : nat) (state : list (list Z)) (prev : list Z) (i : Z) :
    outcome (list (list Z)) :=
  match todo with
  | O => Ret state
  | S todo =>
      let prev := ip_muluadd64 (ip_xor prev (ip_srl64 (word_size - 2) prev)) (Fx P) i in
      state ← array_set state i prev;
      seed_loop todo state prev (i + 1)
  end.

Definition seed (x0 : list Z) (e : t) : outcome t :=
  state ← array_set (state e) 0 x0;
  state ← seed_loop (Z.to_nat (Nx P - 1)) state x0 1;
  Ret (mk state (Nx P) (cache e) (valid e)).

(** The members before the body of a constructor: [AlignedArray] constructs
    [2 * _Nx] packets [Packet()]. *)
Definition fresh : t :=
  mk (replicate (Z.to_nat (2 * Nx P)) (replicate (2 * size64) 0)) 0 [] false.

(** The constructors from a packet and from a scalar. *)
Definition of_packet (x0 : list Z) : outcome t := seed x0 fresh.

Definition seeds (x0 : Z) : list Z := (λ i, u64 (x0 + Z.of_nat i)) <$> seq 0 size64.
Definition of_scalar (x0 : Z) : outcome t := seed (loadu (seeds x0)) fresh.

(** The expression of the refill loops for [state[a]], [state[b]], [state[c]]. *)
Definition twist (a b c : list Z) : list Z :=
  let hmask := ip_seti64 hMask in
  let lmask := ip_seti64 lMask in
  let px := ip_seti64 (Px P) in
  let one := ip_seti64 1 in
  let tmp := ip_or (ip_and a hmask) (ip_and b lmask) in
  ip_xor (ip_xor (ip_srl64 1 tmp) (ip_and (ip_cmpeq64 (ip_and tmp one) one) px)) c.

Definition twist_into (state : list (list Z)) (i a b c : Z) : outcome (list (list Z)) :=
  pa ← array_get state a;
  pb ← array_get state b;
  pc ← array_get state c;
  array_set state i (twist pa pb pc).

(** The three parts of [refill_lower]. *)
Fixpoint lower_loop1 (todo : nat) (state : list (list Z)) (i : Z) : outcome (list (list Z)) :=
  match todo with
  | O => Ret state
  | S todo =>
      state ← twist_into state i (i + Nx P) (i + Nx P + 1) (i + Nx P + Mx P);
      lower_loop1 todo state (i + 1)
  end.

Fixpoint lower_loop2 (todo : nat) (state : list (list Z)) (i : Z) : outcome (list (list Z)) :=
  match todo with
  | O => Ret state
  | S todo =>
      state ← twist_into state i (i + Nx P) (i + Nx P + 1) (i - Nx P + Mx P);
      lower_loop2 todo state (i + 1)
  end.

Definition refill_lower (e : t) : outcome t :=
  state ← lower_loop1 (Z.to_nat (Nx P - Mx P)) (state e) 0;
  state ← lower_loop2 (Z.to_nat (Mx P - 1)) state (Nx P - Mx P);
  let i := Nx P - 1 in
  state ← twist_into state i (i + Nx P) 0 (Mx P - 1);
  Ret (mk state 0 (cache e) (valid e)).

Fixpoint upper_loop (todo : nat) (state : list (list Z)) (i : Z) : outcome (list (list Z)) :=
  match todo with
  | O => Ret state
  | S todo =>
      state ← twist_into state i (i - Nx P) (i - Nx P + 1) (i - Nx P + Mx P);
      upper_loop todo state (i + 1)
  end.

Definition refill_upper (e : t) : outcome t :=
  state ← upper_loop (Z.to_nat (Nx P)) (state e) (Nx P);
  Ret (mk state (stateIdx e) (cache e) (valid e)).

Definition temper (res : list Z) : list Z :=
  let res := ip_xor res (ip_and (ip_srl64 (Ux P) res) (ip_seti64 (Dx P))) in
  let res := ip_xor res (ip_and (ip_sll64 (Sx P) res) (ip_seti64 (Bx P))) in
  let res := ip_xor res (ip_and (ip_sll64 (Tx P) res) (ip_seti64 (Cx P))) in
  ip_xor res (ip_srl64 (Lx P) res).

(** [operator()]. *)
Definition next (e : t) : outcome (list Z * t) :=
  e ← (if stateIdx e =? Nx P then refill_upper e
       else if 2 * Nx P <=? stateIdx e then refill_lower e
       else Ret e);
  res ← array_get (state e) (stateIdx e);
  Ret (temper res, mk (state e) (stateIdx e + 1) (cache e) (valid e)).

Fixpoint discard (num : nat) (e : t) : outcome t :=
  match num with
  | O => Ret e
  | S num => '(_, e) ← next e; discard num e
  end.

(** [half()], a half of a packet as its 64-bit lanes. *)
Definition half (e : t) : outcome (list Z * t) :=
  if valid e then Ret (cache e, mk (state e) (stateIdx e) (cache e) false)
  else
    '(p, e) ← next e;
    let '(a, b) := ip_split_two p in
    Ret (a, mk (state e) (stateIdx e) b true).

End Code.
End MersenneTwister.

(** The first output of each lane for the default seed: the value that
    std::mt19937_64 gives first, and the one for the next seed. *)
Example default_first :
  let _ := packet4i (H := instructions) (mk_features true true true true) in
  (e ← MersenneTwister.of_scalar mt19937_64 default_seed;
   '(p, _) ← MersenneTwister.next mt19937_64 e; Ret (to64 p)) =
  Ret [14514284786278117030; 17464546435846986912].
Proof. vm_compute. reflexivity. Qed.

(** ** The engine of the standard

    With 64-bit words: the reference for the vectorised engine, and the base
    engine of the adaptors when no vector instructions are available. *)

Module Std.
Section Engine.
Context (P : mt_params).

(** The upper [w - r] and the lower [r] bits of a word. *)
Definition upper_mask : Z := 2 ^ 64 - 2 ^ Rx P.
Definition lower_mask : Z := 2 ^ Rx P - 1.

(** The initial words: [X_0 = seed], [X_i = f * (X_{i-1} xor (X_{i-1} >> 62)) + i]. *)
Fixpoint init_words (todo : nat) (prev i : Z) : list Z :=
  match todo with
  | O => []
  | S todo =>
      let x := u64 (Z.lxor prev (srl 62 prev) * Fx P + i) in
      x :: init_words todo x (i + 1)
  end.
Definition init (x0 : Z) : list Z := u64 x0 :: init_words (Z.to_nat (Nx P - 1)) (u64 x0) 1.

(** [X_{i+n}] from [X_i], [X_{i+1}] and [X_{i+m}]. *)
Definition twist (x0 x1 xm : Z) : Z :=
  let y := Z.lor (Z.land x0 upper_mask) (Z.land x1 lower_mask) in
  Z.lxor (Z.lxor (srl 1 y) (if Z.odd y then Px P else 0)) xm.

(** The window of the last [n] words, and its next word. *)
Definition next_word (w : list Z) : Z :=
  twist (nth 0 w 0) (nth 1 w 0) (nth (Z.to_nat (Mx P)) w 0).
Definition step (w : list Z) : list Z := tail w ++ [next_word w].

Definition temper (x : Z) : Z :=
  let z := Z.lxor x (Z.land (srl (Ux P) x) (Dx P)) in
  let z := Z.lxor z (Z.land (sll 64 (Sx P) z) (Bx P)) in
  let z := Z.lxor z (Z.land (sll 64 (Tx P) z) (Cx P)) in
  Z.lxor z (srl (Lx P) z).

(** [operator()]: the output and the new window. *)
Definition next (w : list Z) : Z * list Z := (temper (next_word w), step w).

(** The [k]-th output, counted from 0, of the engine with seed [x0]. *)
Definition output (x0 : Z) (k : nat) : Z := (next (Nat.iter k step (init x0))).1.

(** The sequence of all words. *)
Definition words (x0 : Z) (k : nat) : Z := nth 0 (Nat.iter k step (init x0)) 0.

End Engine.
End Std.

(** The first outputs for the default seed. *)
Example std_first :
  Std.output mt19937_64 5489 0 = 14514284786278117030 ∧
  Std.output mt19937_64 5489 1 = 4620546740167642908 ∧
  Std.output mt19937_64 5489 2 = 13109570281517897720.
Proof. vm_compute. done. Qed.

(** The value that the standard requires of the 10000th invocation. *)
Example std_10000th : Std.output mt19937_64 5489 (Z.to_nat 9999) = 9981545732273789042.
Proof. vm_compute. reflexivity. Qed.

(** ** The sequence of words *)

Section Words.
Context (P : mt_params) (HP : 1 <= Mx P < Nx P).

Lemma init_words_length todo prev i : length (Std.init_words P todo prev i) = todo.
Proof. revert prev i. induction todo; intros; simpl; auto. Qed.

Lemma window_length x0 k : length (Nat.iter k (Std.step P) (Std.init P x0)) = Z.to_nat (Nx P).
Proof.
  induction k as [|k IH]; simpl.
  - rewrite init_words_length. lia.
  - unfold Std.step at 1. rewrite length_app.
    destruct (Nat.iter k _ _); simpl in *; lia.
Qed.

Lemma nth_step w i :
  (S i < length w)%nat → nth i (Std.step P w) 0 = nth (S i) w 0.
Proof.
  intros Hi. unfold Std.step. destruct w as [|x w]; simpl in *; [lia|].
  rewrite app_nth1; [done|lia].
Qed.

Lemma nth_window x0 k i :
  (i < Z.to_nat (Nx P))%nat →
  nth i (Nat.iter k (Std.step P) (Std.init P x0)) 0 = Std.words P x0 (i + k).
Proof.
  revert k. induction i as [|i IH]; intros k Hi; [done|].
  rewrite <-nth_step by (rewrite window_length; lia).
  change (Std.step P (Nat.iter k ?f ?x)) with (Nat.iter (S k) f x).
  rewrite IH by lia. f_equal. lia.
Qed.

Lemma words_next x0 k :
  Std.words P x0 (k + Z.to_nat (Nx P)) =
    Std.next_word P (Nat.iter k (Std.step P) (Std.init P x0)).
Proof.
  replace (k + Z.to_nat (Nx P))%nat with (Z.to_nat (Nx P) - 1 + S k)%nat by lia.
  rewrite <-nth_window by lia. simpl. unfold Std.step at 1.
  pose proof (window_length x0 k) as Hl.
  destruct (Nat.iter k _ _) as [|w0 w] eqn:E; simpl in *; [lia|].
  rewrite app_nth2 by lia. replace (_ - _)%nat with 0%nat by lia. done.
Qed.

(** The recurrence of the standard. *)
Lemma words_rec x0 k :
  Std.words P x0 (k + Z.to_nat (Nx P)) =
    Std.twist P (Std.words P x0 k) (Std.words P x0 (S k)) (Std.words P x0 (k + Z.to_nat (Mx P))).
Proof.
  rewrite words_next. unfold Std.next_word. rewrite !nth_window by lia.
  f_equal; f_equal; lia.
Qed.

Lemma output_words x0 k :
  Std.output P x0 k = Std.temper P (Std.words P x0 (k + Z.to_nat (Nx P))).
Proof. rewrite words_next. done. Qed.

Lemma words_init x0 k :
  (k < Z.to_nat (Nx P))%nat → Std.words P x0 k = nth k (Std.init P x0) 0.
Proof.
  intros Hk. change (Std.init P x0) with (Nat.iter 0 (Std.step P) (Std.init P x0)).
  rewrite nth_window by done. f_equal. lia.
Qed.

Lemma init_words_nth todo prev i k :
  (S k < todo)%nat →
  nth (S k) (Std.init_words P todo prev i) 0 =
    let p := nth k (Std.init_words P todo prev i) 0 in
    u64 (Z.lxor p (srl 62 p) * Fx P + (i + Z.of_nat (S k))).
Proof.
  revert prev i k. induction todo as [|todo IH]; intros prev i k Hk; [lia|].
  destruct k as [|k].
  - destruct todo; [lia|]. simpl. f_equal. 
  - change (nth (S (S k)) (?a :: ?l) 0) with (nth (S k) l 0). cbn [Std.init_words].
    simpl nth at 1. rewrite IH by lia. simpl. f_equal. lia.
Qed.

Lemma words_seed x0 k :
  (S k < Z.to_nat (Nx P))%nat →
  Std.words P x0 (S k) =
    let p := Std.words P x0 k in u64 (Z.lxor p (srl 62 p) * Fx P + Z.of_nat (S k)).
Proof.
  intros Hk. rewrite !words_init by lia. unfold Std.init.
  destruct k as [|k].
  - simpl. destruct (Z.to_nat (Nx P - 1)) eqn:E; [lia|]. done.
  - change (nth (S (S k)) (?a :: ?l) 0) with (nth (S k) l 0).
    rewrite init_words_nth by lia. cbv zeta.
    change (nth (S k) (?a :: ?l) 0) with (nth k l 0). f_equal. lia.
Qed.

End Words.
