(* ===== verification/MersenneProps.v ===== *)
(** The vectorised engine runs one std::mersenne_twister_engine per 64-bit
    lane. *)

From S2P Require Import Prelude.
From S2P Require Import Simd.
From S2P Require Import PacketMath.
From S2P Require Import PacketMathProps.
From S2P Require Import MersenneTwister.

(** ** Lanes computed from seeds *)

Lemma zip_with_fmap_same {A B C D} (f : B → C → D) (g : A → B) (h : A → C) l :
  zip_with f (g <$> l) (h <$> l) = (λ x, f (g x) (h x)) <$> l.
Proof. induction l; simpl; by f_equal. Qed.

(** Parameters that make sense of the code: offsets inside the state, shifts
    and masks of a 64-bit word. *)
Record params_ok (P : mt_params) : Prop := {
  ok_offsets : 1 <= Mx P < Nx P;
  ok_shifts : 0 <= Rx P < 64 ∧ 0 <= Ux P < 64 ∧ 0 <= Sx P < 64 ∧ 0 <= Tx P < 64 ∧ 0 <= Lx P < 64;
  ok_words : word 64 (Px P) ∧ word 64 (Dx P) ∧ word 64 (Bx P) ∧ word 64 (Cx P);
}.

Lemma mt19937_64_ok : params_ok mt19937_64.
Proof. split; unfold word; cbn; lia. Qed.

Section Engine.
Context `{IntPacketLaws} (P : mt_params) (HP : params_ok P).
Context (ss : list Z) (Hss : length ss = size64).

(** A packet whose lanes are [g] of the seeds. *)
Definition holds (p : list Z) (g : Z → Z) : Prop := register size64 p ∧ to64 p = g <$> ss.

Lemma u64_id x : word 64 x → u64 x = x.
Proof. apply Z.mod_small. Qed.

Lemma engine_holds_ext p g g' : holds p g → (∀ s, g s = g' s) → holds p g'.
Proof.
  intros [Hr E] Hg. split; [done|]. rewrite E. apply list_fmap_ext. intros ? ? _. apply Hg.
Qed.

Lemma holds_and p q g h : holds p g → holds q h → holds (ip_and p q) (λ s, Z.land (g s) (h s)).
Proof.
  intros [Hp Ep] [Hq Eq]. destruct (ip_and_law p q Hp Hq) as [Hr Er]. split; [done|].
  by rewrite Er, Ep, Eq, zip_with_fmap_same.
Qed.

Lemma holds_or p q g h : holds p g → holds q h → holds (ip_or p q) (λ s, Z.lor (g s) (h s)).
Proof.
  intros [Hp Ep] [Hq Eq]. destruct (ip_or_law p q Hp Hq) as [Hr Er]. split; [done|].
  by rewrite Er, Ep, Eq, zip_with_fmap_same.
Qed.

Lemma holds_xor p q g h : holds p g → holds q h → holds (ip_xor p q) (λ s, Z.lxor (g s) (h s)).
Proof.
  intros [Hp Ep] [Hq Eq]. destruct (ip_xor_law p q Hp Hq) as [Hr Er]. split; [done|].
  by rewrite Er, Ep, Eq, zip_with_fmap_same.
Qed.

Lemma holds_cmpeq p q g h :
  holds p g → holds q h → holds (ip_cmpeq64 p q) (λ s, mask 64 (g s =? h s)).
Proof.
  intros [Hp Ep] [Hq Eq]. destruct (ip_cmpeq64_law p q Hp Hq) as [Hr Er]. split; [done|].
  by rewrite Er, Ep, Eq, zip_with_fmap_same.
Qed.

Lemma holds_seti64 x : word 64 x → holds (ip_seti64 x) (λ _, x).
Proof.
  intros Hx. destruct (ip_seti64_law x) as [Hr Er]. split; [done|].
  rewrite Er, u64_id, <-Hss by done. clear. induction ss; simpl; by f_equal.
Qed.

Lemma holds_srl b p g : 0 <= b < 64 → holds p g → holds (ip_srl64 b p) (λ s, srl b (g s)).
Proof.
  intros Hb [Hp Ep]. destruct (ip_srl64_law b p Hb Hp) as [Hr Er]. split; [done|].
  by rewrite Er, Ep, <-list_fmap_compose.
Qed.

Lemma holds_sll b p g : 0 <= b < 64 → holds p g → holds (ip_sll64 b p) (λ s, sll 64 b (g s)).
Proof.
  intros Hb [Hp Ep]. destruct (ip_sll64_law b p Hb Hp) as [Hr Er]. split; [done|].
  by rewrite Er, Ep, <-list_fmap_compose.
Qed.

Lemma holds_muluadd p g m c :
  holds p g → holds (ip_muluadd64 p m c) (λ s, u64 (g s * m + c)).
Proof.
  intros [Hp Ep]. destruct (ip_muluadd64_law p m c Hp) as [Hr Er]. split; [done|].
  by rewrite Er, Ep, <-list_fmap_compose.
Qed.

Create HintDb holds.
#[local] Hint Resolve holds_and holds_or holds_xor holds_cmpeq holds_seti64 holds_srl holds_sll
  holds_muluadd : holds.

(** ** Masks *)

Lemma hMask_eq : MersenneTwister.hMask P = Std.upper_mask P.
Proof.
  destruct (ok_shifts _ HP) as [Hr _]. unfold MersenneTwister.hMask, MersenneTwister.wMask, Std.upper_mask.
  change (u64 (-1)) with (Z.ones 64). unfold sll. rewrite Z.land_ones, Z.mod_mod by lia.
  rewrite Z.shiftl_mul_pow2 by lia.
  assert (0 < 2 ^ Rx P) by (apply Z.pow_pos_nonneg; lia).
  assert (2 ^ Rx P < 2 ^ 64) by (apply Z.pow_lt_mono_r; lia).
  symmetry. apply (Z.mod_unique _ _ (2 ^ Rx P - 1)); [lia|]. rewrite Z.ones_equiv. nia.
Qed.

Lemma lMask_eq : MersenneTwister.lMask P = Std.lower_mask P.
Proof.
  unfold MersenneTwister.lMask. rewrite hMask_eq. unfold Std.upper_mask, Std.lower_mask, MersenneTwister.wMask.
  destruct (ok_shifts _ HP) as [Hr _].
  change (u64 (-1)) with (Z.ones 64). rewrite Z.land_ones by lia.
  assert (0 < 2 ^ Rx P) by (apply Z.pow_pos_nonneg; lia).
  assert (2 ^ Rx P < 2 ^ 64) by (apply Z.pow_lt_mono_r; lia).
  rewrite Z.mod_small; lia.
Qed.

Lemma masks_words : word 64 (Std.upper_mask P) ∧ word 64 (Std.lower_mask P).
Proof.
  destruct (ok_shifts _ HP) as [Hr _]. unfold word, Std.upper_mask, Std.lower_mask.
  assert (0 < 2 ^ Rx P) by (apply Z.pow_pos_nonneg; lia).
  assert (2 ^ Rx P < 2 ^ 64) by (apply Z.pow_lt_mono_r; lia). lia.
Qed.

Lemma mask_odd y p : word 64 p → Z.land (mask 64 (Z.land y 1 =? 1)) p = if Z.odd y then p else 0.
Proof.
  intros Hp. rewrite <-Z.bit0_odd. change 1 with (Z.ones 1) at 1. rewrite Z.land_ones by lia.
  change (2 ^ 1) with 2. rewrite <-Z.bit0_mod. destruct (Z.testbit y 0); cbn [Z.b2z].
  - change (1 =? 1) with true. rewrite Z.land_comm. by apply land_mask.
  - done.
Qed.

(** ** One step of the recurrence, and the tempering *)

Lemma holds_twist a b c ga gb gc :
  holds a ga → holds b gb → holds c gc →
  holds (MersenneTwister.twist P a b c) (λ s, Std.twist P (ga s) (gb s) (gc s)).
Proof.
  intros Ha Hb Hc. destruct masks_words as [Hu Hl]. destruct (ok_words _ HP) as [Hp _].
  unfold MersenneTwister.twist. rewrite hMask_eq, lMask_eq.
  assert (word 64 1) by (unfold word; lia).
  eapply engine_holds_ext.
  - eauto 20 using holds_and, holds_or, holds_xor, holds_cmpeq, holds_seti64, holds_srl with lia.
  - intros s. cbn beta. rewrite mask_odd by done. reflexivity.
Qed.

Lemma holds_temper a g :
  holds a g → holds (MersenneTwister.temper P a) (λ s, Std.temper P (g s)).
Proof.
  intros Ha. destruct (ok_shifts _ HP) as (_&Hu&Hs&Ht&Hl). destruct (ok_words _ HP) as (_&Hd&Hb&Hc).
  pose proof (holds_xor _ _ _ _ Ha (holds_and _ _ _ _ (holds_srl _ _ _ Hu Ha) (holds_seti64 _ Hd))) as H1.
  pose proof (holds_xor _ _ _ _ H1 (holds_and _ _ _ _ (holds_sll _ _ _ Hs H1) (holds_seti64 _ Hb))) as H2.
  pose proof (holds_xor _ _ _ _ H2 (holds_and _ _ _ _ (holds_sll _ _ _ Ht H2) (holds_seti64 _ Hc))) as H3.
  exact (holds_xor _ _ _ _ H3 (holds_srl _ _ _ Hl H3)).
Qed.

(** ** The state array *)

(** Packet [q] of the array holds word [k] of every lane's sequence. *)
Definition at_word (st : list (list Z)) (q k : Z) : Prop :=
  ∃ p, array_get st q = Ret p ∧ holds p (λ s, Std.words P s (Z.to_nat k)).

Definition sized (st : list (list Z)) : Prop := Z.of_nat (length st) = 2 * Nx P.

Lemma array_get_set_eq {A} (st : list A) q (p : A) st' :
  array_set st q p = Ret st' → array_get st' q = Ret p.
Proof.
  unfold array_set, array_get. destruct (q <? 0) eqn:E, (_ <=? q) eqn:E'; try done.
  intros [= <-]. zbool. rewrite list_lookup_insert_eq; [done|lia].
Qed.

Lemma array_get_set_ne {A} (st : list A) q q' (p : A) st' :
  q ≠ q' → array_set st q p = Ret st' → array_get st' q' = array_get st q'.
Proof.
  unfold array_set, array_get. destruct (q <? 0) eqn:E, (_ <=? q) eqn:E'; try done.
  intros Hne [= <-]. zbool. destruct (q' <? 0) eqn:E''; [done|]. zbool.
  by rewrite list_lookup_insert_ne by lia.
Qed.

Lemma array_set_sized st q p :
  sized st → 0 <= q < 2 * Nx P → ∃ st', array_set st q p = Ret st' ∧ sized st'.
Proof.
  unfold sized. intros Hst Hq. eexists. split; [apply array_set_ok; lia|].
  by rewrite length_insert.
Qed.

Lemma at_word_set st st' q p k :
  array_set st q p = Ret st' → holds p (λ s, Std.words P s (Z.to_nat k)) → at_word st' q k.
Proof. intros Hset Hp. exists p. split; [by eapply array_get_set_eq|done]. Qed.

Lemma at_word_keep st st' q q' p k :
  array_set st q p = Ret st' → q ≠ q' → at_word st q' k → at_word st' q' k.
Proof. intros Hset Hne (p' & Hp' & ?). exists p'. split; [|done]. by erewrite array_get_set_ne. Qed.

Lemma words_rec_Z s k : 0 <= k →
  Std.words P s (Z.to_nat (k + Nx P)) =
    Std.twist P (Std.words P s (Z.to_nat k)) (Std.words P s (Z.to_nat (k + 1)))
      (Std.words P s (Z.to_nat (k + Mx P))).
Proof.
  intros Hk. pose proof (ok_offsets _ HP). rewrite Z2Nat.inj_add by lia.
  rewrite words_rec by done. f_equal; f_equal; lia.
Qed.

Lemma twist_into_ok st i a b c k :
  sized st → 0 <= k → 0 <= i < 2 * Nx P →
  at_word st a k → at_word st b (k + 1) → at_word st c (k + Mx P) →
  ∃ st', MersenneTwister.twist_into P st i a b c = Ret st' ∧ sized st' ∧
    at_word st' i (k + Nx P) ∧ (∀ q k', q ≠ i → at_word st q k' → at_word st' q k').
Proof.
  intros Hst Hk Hi (pa & Ha & Ha') (pb & Hb & Hb') (pc & Hc & Hc').
  destruct (array_set_sized st i (MersenneTwister.twist P pa pb pc) Hst Hi) as (st' & Hset & Hst').
  exists st'. unfold MersenneTwister.twist_into. rewrite Ha, Hb, Hc. cbn [mbind outcome_bind].
  split_and!; [done|done| |].
  - eapply at_word_set; [done|]. eapply engine_holds_ext; [by apply holds_twist|].
    intros s. symmetry. by apply words_rec_Z.
  - intros q k' Hne. by eapply at_word_keep.
Qed.

Lemma upper_loop_ok todo st i base :
  Nx P <= i → i + Z.of_nat todo = 2 * Nx P → 0 <= base → sized st →
  (∀ q, 0 <= q < i → at_word st q (base + q)) →
  ∃ st', MersenneTwister.upper_loop P todo st i = Ret st' ∧ sized st' ∧
    (∀ q, 0 <= q < 2 * Nx P → at_word st' q (base + q)).
Proof.
  pose proof (ok_offsets _ HP). revert st i. induction todo as [|todo IH]; intros st i Hi Hn Hb Hst Hq.
  - exists st. split_and!; [done|done|]. intros q Hr. apply Hq. lia.
  - cbn [MersenneTwister.upper_loop].
    destruct (twist_into_ok st i (i - Nx P) (i - Nx P + 1) (i - Nx P + Mx P) (base + (i - Nx P)))
      as (st' & -> & Hst' & Hnew & Hold); [done|lia|lia|..].
    + apply Hq. lia.
    + rewrite <-Z.add_assoc. apply Hq. lia.
    + rewrite <-Z.add_assoc. apply Hq. lia.
    + cbn [mbind outcome_bind]. apply IH; [lia|lia|done|done|].
      intros q Hr. destruct (decide (q = i)) as [->|].
      * by replace (base + i) with (base + (i - Nx P) + Nx P) by lia.
      * apply Hold; [done|]. apply Hq. lia.
Qed.

(** During [refill_lower], for base [base] of the upper half. *)
Definition lower_inv (st : list (list Z)) (i base : Z) : Prop :=
  sized st ∧ (∀ q, 0 <= q < i → at_word st q (base + 2 * Nx P + q)) ∧
  (∀ q, Nx P <= q < 2 * Nx P → at_word st q (base + q)).

Lemma lower_step st i base a b c :
  0 <= base → 0 <= i < Nx P → lower_inv st i base →
  at_word st a (base + Nx P + i) → at_word st b (base + Nx P + i + 1) →
  at_word st c (base + Nx P + i + Mx P) →
  ∃ st', MersenneTwister.twist_into P st i a b c = Ret st' ∧ lower_inv st' (i + 1) base.
Proof.
  intros Hb Hi (Hst & Hlow & Hup) Ha Hb' Hc.
  destruct (twist_into_ok st i a b c (base + Nx P + i)) as (st' & -> & Hst' & Hnew & Hold);
    try done; [lia|lia|].
  exists st'. split; [done|]. split; [done|]. split.
  - intros q Hq. destruct (decide (q = i)) as [->|].
    + by replace (base + 2 * Nx P + i) with (base + Nx P + i + Nx P) by lia.
    + apply Hold; [done|]. apply Hlow. lia.
  - intros q Hq. apply Hold; [lia|]. by apply Hup.
Qed.

Lemma lower_loop1_ok todo st i base :
  0 <= base → 0 <= i → i + Z.of_nat todo = Nx P - Mx P → lower_inv st i base →
  ∃ st', MersenneTwister.lower_loop1 P todo st i = Ret st' ∧ lower_inv st' (Nx P - Mx P) base.
Proof.
  pose proof (ok_offsets _ HP).
  revert st i. induction todo as [|todo IH]; intros st i Hb Hi Hn Hinv.
  - exists st. replace (Nx P - Mx P) with i by lia. done.
  - cbn [MersenneTwister.lower_loop1]. pose proof Hinv as (_ & _ & Hup).
    destruct (lower_step st i base (i + Nx P) (i + Nx P + 1) (i + Nx P + Mx P))
      as (st' & -> & Hinv'); [lia|lia|done|..].
    + replace (base + Nx P + i) with (base + (i + Nx P)) by lia. apply Hup. lia.
    + replace (base + Nx P + i + 1) with (base + (i + Nx P + 1)) by lia. apply Hup. lia.
    + replace (base + Nx P + i + Mx P) with (base + (i + Nx P + Mx P)) by lia. apply Hup. lia.
    + cbn [mbind outcome_bind]. apply IH; done || lia.
Qed.

Lemma lower_loop2_ok todo st i base :
  0 <= base → Nx P - Mx P <= i → i + Z.of_nat todo = Nx P - 1 → lower_inv st i base →
  ∃ st', MersenneTwister.lower_loop2 P todo st i = Ret st' ∧ lower_inv st' (Nx P - 1) base.
Proof.
  pose proof (ok_offsets _ HP).
  revert st i. induction todo as [|todo IH]; intros st i Hb Hi Hn Hinv.
  - exists st. replace (Nx P - 1) with i by lia. done.
  - cbn [MersenneTwister.lower_loop2]. pose proof Hinv as (_ & Hlow & Hup).
    destruct (lower_step st i base (i + Nx P) (i + Nx P + 1) (i - Nx P + Mx P))
      as (st' & -> & Hinv'); [lia|lia|done|..].
    + replace (base + Nx P + i) with (base + (i + Nx P)) by lia. apply Hup. lia.
    + replace (base + Nx P + i + 1) with (base + (i + Nx P + 1)) by lia. apply Hup. lia.
    + replace (base + Nx P + i + Mx P) with (base + 2 * Nx P + (i - Nx P + Mx P)) by lia.
      apply Hlow. lia.
    + cbn [mbind outcome_bind]. apply IH; done || lia.
Qed.

Lemma refill_lower_ok st e base :
  0 <= base → MersenneTwister.state e = st → lower_inv st 0 base →
  ∃ st', MersenneTwister.refill_lower P e =
      Ret (MersenneTwister.mk st' 0 (MersenneTwister.cache e) (MersenneTwister.valid e)) ∧
    lower_inv st' (Nx P) base.
Proof.
  intros Hb <- Hinv. pose proof (ok_offsets _ HP). unfold MersenneTwister.refill_lower.
  destruct (lower_loop1_ok (Z.to_nat (Nx P - Mx P)) (MersenneTwister.state e) 0 base)
    as (st1 & -> & Hl1); [lia|lia|lia|done|]. cbn [mbind outcome_bind].
  destruct (lower_loop2_ok (Z.to_nat (Mx P - 1)) st1 (Nx P - Mx P) base)
    as (st2 & -> & Hl2); [lia|lia|lia|done|]. cbn [mbind outcome_bind].
  pose proof Hl2 as (_ & Hlow & Hup).
  destruct (lower_step st2 (Nx P - 1) base (Nx P - 1 + Nx P) 0 (Mx P - 1)) as (st3 & -> & Hl3);
    [lia|lia|done|..].
  - replace (base + Nx P + (Nx P - 1)) with (base + (Nx P - 1 + Nx P)) by lia. apply Hup. lia.
  - replace (base + Nx P + (Nx P - 1) + 1) with (base + 2 * Nx P + 0) by lia. apply Hlow. lia.
  - replace (base + Nx P + (Nx P - 1) + Mx P) with (base + 2 * Nx P + (Mx P - 1)) by lia.
    apply Hlow. lia.
  - exists st3. split; [done|]. by replace (Nx P) with (Nx P - 1 + 1) at 1 by lia.
Qed.

(** ** The engine *)

(** After [k] outputs: the next output needs word [k + n], and either the lower
    half of the array holds the current block of words, with the index in it or
    at its end, or the upper half does, with the index past its first packet. *)
Definition engine_inv (e : MersenneTwister.t) (k : Z) : Prop :=
  let st := MersenneTwister.state e in let idx := MersenneTwister.stateIdx e in
  0 <= k ∧ sized st ∧ ∃ base, 0 <= base ∧ k + Nx P = base + idx ∧
    ((0 <= idx <= Nx P ∧ ∀ q, 0 <= q < Nx P → at_word st q (base + q)) ∨
     (Nx P < idx <= 2 * Nx P ∧ ∀ q, Nx P <= q < 2 * Nx P → at_word st q (base + q))).

Lemma next_ok e k :
  engine_inv e k →
  ∃ p e', MersenneTwister.next P e = Ret (p, e') ∧ engine_inv e' (k + 1) ∧
    register size64 p ∧ to64 p = (λ s, Std.output P s (Z.to_nat k)) <$> ss ∧
    MersenneTwister.cache e' = MersenneTwister.cache e ∧
    MersenneTwister.valid e' = MersenneTwister.valid e.
Proof.
  intros (Hk & Hst & base & Hb & Heq & Hcase). pose proof (ok_offsets _ HP).
  unfold MersenneTwister.next.
  assert (∃ e1, (if MersenneTwister.stateIdx e =? Nx P then MersenneTwister.refill_upper P e
       else if 2 * Nx P <=? MersenneTwister.stateIdx e then MersenneTwister.refill_lower P e
       else Ret e) = Ret e1 ∧ MersenneTwister.cache e1 = MersenneTwister.cache e ∧
      MersenneTwister.valid e1 = MersenneTwister.valid e ∧
      sized (MersenneTwister.state e1) ∧
      at_word (MersenneTwister.state e1) (MersenneTwister.stateIdx e1) (k + Nx P) ∧
      engine_inv (MersenneTwister.mk (MersenneTwister.state e1) (MersenneTwister.stateIdx e1 + 1)
        (MersenneTwister.cache e1) (MersenneTwister.valid e1)) (k + 1)) as
    (e1 & -> & Hc & Hv & Hst1 & (p & Hp & Hholds) & Hinv).
  - destruct (_ =? _) eqn:E1; [|destruct (_ <=? _) eqn:E2]; zbool.
    + destruct Hcase as [[Hr Hq]|[Hr _]]; [|lia].
      destruct (upper_loop_ok (Z.to_nat (Nx P)) (MersenneTwister.state e) (Nx P) base)
        as (st' & Hrun & Hst' & Hall); [lia|lia|done|done|done|].
      eexists. unfold MersenneTwister.refill_upper. rewrite Hrun.
      split; [reflexivity|]. cbn. split_and!; try done.
      * rewrite Heq. apply Hall. lia.
      * split; [lia|]. split; [done|]. exists base. split_and!; [done|cbn; lia|].
        right. cbn. split; [lia|]. intros q Hq'. apply Hall. lia.
    + destruct Hcase as [[Hr _]|[Hr Hq]]; [lia|].
      destruct (refill_lower_ok (MersenneTwister.state e) e base) as (st' & Hrun & Hst' & Hlow & _);
        [done|done| |].
      { split; [done|]. split; [intros; lia|done]. }
      eexists. split; [exact Hrun|]. cbn. split_and!; try done.
      * replace (k + Nx P) with (base + 2 * Nx P + 0) by lia. apply Hlow. lia.
      * split; [lia|]. split; [done|]. exists (base + 2 * Nx P). split_and!; [lia|cbn; lia|].
        left. cbn. split; [lia|done].
    + exists e. split_and!; try done.
      * rewrite Heq. destruct Hcase as [[Hr Hq]|[Hr Hq]]; apply Hq; lia.
      * split; [lia|]. split; [done|]. exists base. split_and!; [done|cbn; lia|].
        cbn. destruct Hcase as [[Hr Hq]|[Hr Hq]]; [left|right]; (split; [lia|done]).
  - eexists _, _. cbn [mbind outcome_bind]. rewrite Hp.
    cbn [mbind outcome_bind]. split; [reflexivity|]. split; [done|].
    destruct (holds_temper _ _ Hholds) as [Hr Et]. split; [done|]. split; [|done].
    rewrite Et. apply list_fmap_ext. intros i x _. cbn beta.
    rewrite output_words by done. f_equal. f_equal. lia.
Qed.

(** ** Seeding *)

Lemma seed_loop_ok todo st prev i :
  1 <= i → i + Z.of_nat todo = Nx P → sized st → Forall (word 64) ss →
  (∀ q, 0 <= q < i → at_word st q q) →
  holds prev (λ s, Std.words P s (Z.to_nat (i - 1))) →
  ∃ st', MersenneTwister.seed_loop P todo st prev i = Ret st' ∧ sized st' ∧
    (∀ q, 0 <= q < Nx P → at_word st' q q).
Proof.
  pose proof (ok_offsets _ HP). revert st prev i.
  induction todo as [|todo IH]; intros st prev i Hi Hn Hst Hss' Hq Hprev.
  - exists st. split_and!; [done|done|]. intros q Hr. apply Hq. lia.
  - cbn [MersenneTwister.seed_loop].
    set (nw := ip_muluadd64 _ _ _).
    assert (holds nw (λ s, Std.words P s (Z.to_nat i))) as Hnew.
    { eapply engine_holds_ext.
      - apply holds_muluadd, holds_xor; [exact Hprev|]. apply holds_srl; [|exact Hprev].
        unfold word_size. lia.
      - intros s. cbn beta. replace (Z.to_nat i) with (S (Z.to_nat (i - 1))) by lia.
        rewrite words_seed by (done || lia). cbv zeta.
        change (word_size - 2) with 62. f_equal. lia. }
    destruct (array_set_sized st i nw Hst) as (st' & Hset & Hst'); [lia|].
    rewrite Hset. cbn [mbind outcome_bind]. apply IH; try done; [lia|lia| |].
    + intros q Hr. destruct (decide (q = i)) as [->|].
      * eapply at_word_set; done.
      * eapply at_word_keep; [done|lia|]. apply Hq. lia.
    + by replace (i + 1 - 1) with i by lia.
Qed.

Lemma seed_ok p e :
  register size64 p → to64 p = ss → sized (MersenneTwister.state e) →
  ∃ e', MersenneTwister.seed P p e = Ret e' ∧ engine_inv e' 0 ∧
    MersenneTwister.valid e' = MersenneTwister.valid e.
Proof.
  intros Hp Hl Hst. pose proof (ok_offsets _ HP).
  assert (Forall (word 64) ss) as Hw by (rewrite <-Hl; by eapply to64_words).
  assert (holds p (λ s, Std.words P s (Z.to_nat 0))) as Hp0.
  { split; [done|]. rewrite Hl. rewrite <-(list_fmap_id ss) at 1.
    apply list_fmap_ext. intros i x Hx. cbn. unfold Std.words. cbn.
    symmetry. apply u64_id. eapply Forall_lookup_1; done. }
  unfold MersenneTwister.seed.
  destruct (array_set_sized (MersenneTwister.state e) 0 p Hst) as (st1 & Hset & Hst1); [lia|].
  rewrite Hset. cbn [mbind outcome_bind].
  destruct (seed_loop_ok (Z.to_nat (Nx P - 1)) st1 p 1) as (st2 & -> & Hst2 & Hq);
    [lia|lia|done|done| |done|].
  { intros q Hq. replace q with 0 by lia. by eapply at_word_set. }
  cbn [mbind outcome_bind]. eexists. split; [done|]. split; [|done].
  split; [lia|]. split; [done|]. exists 0. cbn. split_and!; [lia|lia|].
  left. split; [lia|]. intros q Hr. by apply Hq.
Qed.

Lemma fresh_sized : sized (MersenneTwister.state (MersenneTwister.fresh P)).
Proof. unfold sized. cbn. rewrite length_replicate. pose proof (ok_offsets _ HP). lia. Qed.

End Engine.

(** ** Running the engine *)

Section Runs.
Context `{IntPacketLaws} (P : mt_params) (HP : params_ok P).

(** The lanes of the [k]-th output of the engine with scalar seed [x0]. *)
Definition lane_outputs (x0 : Z) (k : nat) : list Z :=
  (λ s, Std.output P s k) <$> MersenneTwister.seeds x0.

Lemma seeds_register x0 :
  register size64 (loadu (MersenneTwister.seeds x0)) ∧
  to64 (loadu (MersenneTwister.seeds x0)) = MersenneTwister.seeds x0 ∧
  length (MersenneTwister.seeds x0) = size64.
Proof.
  assert (length (MersenneTwister.seeds x0) = size64) as Hl.
  { unfold MersenneTwister.seeds. by rewrite length_fmap, length_seq. }
  split; [|split; [apply to64_of64|done]].
  apply of64_register; [done|]. apply Forall_fmap, Forall_true. intros. apply word_u64.
Qed.

Lemma of_scalar_ok x0 :
  ∃ e, MersenneTwister.of_scalar P x0 = Ret e ∧ MersenneTwister.valid e = false ∧
    engine_inv P (MersenneTwister.seeds x0) e 0.
Proof.
  destruct (seeds_register x0) as (Hr & Ht & Hl).
  destruct (seed_ok P HP _ Hl _ (MersenneTwister.fresh P) Hr Ht) as (e & He & Hinv & Hv);
    [by eapply fresh_sized|].
  exists e. split_and!; done.
Qed.

Lemma next_lanes x0 e k :
  engine_inv P (MersenneTwister.seeds x0) e (Z.of_nat k) →
  ∃ p e', MersenneTwister.next P e = Ret (p, e') ∧
    engine_inv P (MersenneTwister.seeds x0) e' (Z.of_nat (S k)) ∧
    register size64 p ∧ to64 p = lane_outputs x0 k ∧
    MersenneTwister.valid e' = MersenneTwister.valid e.
Proof.
  intros Hinv. destruct (seeds_register x0) as (_ & _ & Hl).
  destruct (next_ok P HP _ Hl e _ Hinv) as (p & e' & Hn & Hinv' & Hr & Ht & _ & Hv).
  exists p, e'. rewrite Nat2Z.id in Ht. split_and!; try done.
  by replace (Z.of_nat (S k)) with (Z.of_nat k + 1) by lia.
Qed.

Lemma discard_ok x0 e n k :
  engine_inv P (MersenneTwister.seeds x0) e (Z.of_nat k) →
  ∃ e', MersenneTwister.discard P n e = Ret e' ∧
    engine_inv P (MersenneTwister.seeds x0) e' (Z.of_nat (n + k)) ∧
    MersenneTwister.valid e' = MersenneTwister.valid e.
Proof.
  revert e k. induction n as [|n IH]; intros e k Hinv; [by exists e|].
  destruct (next_lanes _ _ _ Hinv) as (p & e1 & Hn & Hinv1 & _ & _ & Hv).
  destruct (IH e1 (S k) Hinv1) as (e2 & Hd & Hinv2 & Hv2).
  exists e2. cbn. rewrite Hn. cbn. split_and!; [done| |congruence].
  by replace (S (n + k)) with (n + S k)%nat by lia.
Qed.

(** C20. Whatever the packet type, after discarding any number of
    outputs the engine seeded with [x0] gives, in lane [j], the output of
    std::mersenne_twister_engine seeded with [x0 + j]: the two refills keep the
    array in step with the recurrence, and no access leaves it. *)
Theorem lanes_are_std_engines x0 k :
  ∃ e e' p e'', MersenneTwister.of_scalar P x0 = Ret e ∧
    MersenneTwister.discard P k e = Ret e' ∧ MersenneTwister.next P e' = Ret (p, e'') ∧
    to64 p = (λ j, Std.output P (u64 (x0 + Z.of_nat j)) k) <$> seq 0 size64.
Proof.
  destruct (of_scalar_ok x0) as (e & He & _ & Hinv).
  destruct (discard_ok x0 e k 0 Hinv) as (e' & Hd & Hinv' & _). rewrite Nat.add_0_r in Hinv'.
  destruct (next_lanes x0 e' k Hinv') as (p & e'' & Hn & _ & _ & Ht & _).
  exists e, e', p, e''. split_and!; try done. rewrite Ht.
  unfold lane_outputs, MersenneTwister.seeds. by rewrite <-list_fmap_compose.
Qed.

(** ** Halves of packets *)

(** After [n] calls of [half]. *)
Definition half_inv (x0 : Z) (e : MersenneTwister.t) (n : nat) : Prop :=
  if Nat.even n
  then MersenneTwister.valid e = false ∧
       engine_inv P (MersenneTwister.seeds x0) e (Z.of_nat (Nat.div2 n))
  else MersenneTwister.valid e = true ∧
       engine_inv P (MersenneTwister.seeds x0) e (Z.of_nat (S (Nat.div2 n))) ∧
       MersenneTwister.cache e = drop (Nat.div2 size64) (lane_outputs x0 (Nat.div2 n)).

Lemma half_ok x0 e n :
  half_inv x0 e n →
  ∃ h e', MersenneTwister.half P e = Ret (h, e') ∧ half_inv x0 e' (S n) ∧
    h = (if Nat.even n then take else drop) (Nat.div2 size64) (lane_outputs x0 (Nat.div2 n)).
Proof.
  unfold half_inv, MersenneTwister.half. rewrite Nat.even_succ, <-Nat.negb_even.
  destruct (Nat.even n) eqn:Heven; cbn [negb].
  - intros [Hv Hinv]. rewrite Hv.
    destruct (next_lanes x0 e _ Hinv) as (p & e' & -> & Hinv' & Hr & Ht & _).
    cbn [mbind outcome_bind]. destruct (ip_split_two_law p Hr) as [Happ Hlen].
    destruct (ip_split_two p) as [a b]. cbn [fst snd] in *.
    assert (Nat.div2 size64 = length a) as Ha by (rewrite <-Hlen, Nat.div2_double; done).
    rewrite Ht in Happ. eexists _, _. split; [done|].
    assert (Nat.div2 (S n) = Nat.div2 n) as Hd.
    { apply Nat.even_spec in Heven as [m ->]. rewrite Nat.div2_succ_double, Nat.div2_double. done. }
    rewrite Hd, Ha, <-Happ. cbn. rewrite take_app_length, drop_app_length. done.
  - intros (Hv & Hinv & Hc). rewrite Hv. eexists _, _. split; [done|].
    assert (Nat.div2 (S n) = S (Nat.div2 n)) as Hd.
    { assert (Nat.odd n = true) as Ho by (rewrite <-Nat.negb_even, Heven; done).
      apply Nat.odd_spec in Ho as [m ->].
      replace (S (2 * m + 1)) with (2 * S m)%nat by lia. rewrite Nat.div2_double.
      replace (2 * m + 1)%nat with (S (2 * m)) by lia. by rewrite Nat.div2_succ_double. }
    rewrite Hd. split; [|done]. split; [done|]. exact Hinv.
Qed.

Fixpoint halves_run (n : nat) (e : MersenneTwister.t) : outcome (list (list Z) * MersenneTwister.t) :=
  match n with
  | O => Ret ([], e)
  | S n =>
      '(h, e) ← MersenneTwister.half P e;
      '(hs, e) ← halves_run n e;
      Ret (h :: hs, e)
  end.

Lemma halves_run_ok x0 n e k :
  half_inv x0 e k →
  ∃ hs e', halves_run n e = Ret (hs, e') ∧
    hs = (λ i, (if Nat.even i then take else drop) (Nat.div2 size64)
                 (lane_outputs x0 (Nat.div2 i))) <$> seq k n.
Proof.
  revert e k. induction n as [|n IH]; intros e k Hinv; [by exists [], e|].
  destruct (half_ok x0 e k Hinv) as (h & e1 & Hh & Hinv1 & ->).
  destruct (IH e1 (S k) Hinv1) as (hs & e2 & Hhs & ->).
  cbn [halves_run]. rewrite Hh. cbn. rewrite Hhs. cbn. by eexists _, _.
Qed.

Lemma concat_halves (f : nat → list Z) n k :
  concat ((λ i, (if Nat.even i then take else drop) (Nat.div2 size64) (f (Nat.div2 i))) <$>
    seq (2 * k) (2 * n)) = concat (f <$> seq k n).
Proof.
  revert k. induction n as [|n IH]; intros k; [done|].
  replace (2 * S n)%nat with (S (S (2 * n))) by lia. cbn [seq fmap list_fmap concat].
  rewrite Nat.even_succ, <-Nat.negb_even, Nat.even_even, Nat.div2_double, Nat.div2_succ_double.
  cbn [negb]. replace (S (S (2 * k))) with (2 * S k)%nat by lia.
  rewrite IH, app_assoc, take_drop. done.
Qed.

(** [half] hands out every packet in two halves, first the low lanes and then
    the high ones: [2 * n] calls give the lanes of [n] outputs, in order. *)
Theorem half_splits_outputs x0 n :
  ∃ e hs e', MersenneTwister.of_scalar P x0 = Ret e ∧
    halves_run (2 * n) e = Ret (hs, e') ∧ concat hs = concat (lane_outputs x0 <$> seq 0 n).
Proof.
  destruct (of_scalar_ok x0) as (e & He & Hv & Hinv).
  destruct (halves_run_ok x0 (2 * n) e 0) as (hs & e' & Hrun & ->); [done|].
  eexists e, _, e'. split; [exact He|]. split; [exact Hrun|].
  apply (concat_halves (lane_outputs x0) n 0).
Qed.

End Runs.

(** ** Witnesses *)

Lemma lanes_are_std_engines_witness :
  ∃ e e' p e'',
    MersenneTwister.of_scalar (H := packet4i (H := instructions) (mk_features true true true true))
      mt19937_64 5489 = Ret e ∧
    MersenneTwister.discard (H := packet4i (H := instructions) (mk_features true true true true))
      mt19937_64 1000 e = Ret e' ∧
    MersenneTwister.next (H := packet4i (H := instructions) (mk_features true true true true))
      mt19937_64 e' = Ret (p, e'') ∧
    to64 p = (λ j, Std.output mt19937_64 (u64 (5489 + Z.of_nat j)) 1000) <$> seq 0 2.
Proof.
  exact (lanes_are_std_engines
    (H0 := packet4i_laws (H := instructions) (H0 := instructions_laws)
      (mk_features true true true true)) mt19937_64 mt19937_64_ok 5489 1000).
Defined.

Lemma half_splits_outputs_witness :
  ∃ e hs e',
    MersenneTwister.of_scalar (H := packet4i (H := instructions) (mk_features true true true true))
      mt19937_64 1 = Ret e ∧
    halves_run (H := packet4i (H := instructions) (mk_features true true true true))
      mt19937_64 (2 * 3) e = Ret (hs, e') ∧
    concat hs = concat (lane_outputs
      (H := packet4i (H := instructions) (mk_features true true true true)) mt19937_64 1 <$> seq 0 3).
Proof.
  exact (half_splits_outputs
    (H0 := packet4i_laws (H := instructions) (H0 := instructions_laws)
      (mk_features true true true true)) mt19937_64 mt19937_64_ok 1 3).
Defined.
