(* ===== verification/FloatBits.v ===== *)
(** Floating-point numbers and their bits, and EigenRand's conversion of random
    bits to numbers in [0, 1): [BitScalar], [bit_to_ur_float] and
    [bit_to_ur_double] of EigenRand/MorePacketMath.h. *)

From S2P Require Import Prelude.
From S2P Require Import Simd.
From S2P Require Import PacketMath.
From Stdlib Require Import SpecFloat.

(** ** IEEE-754 formats *)

(** A format: the bits of the mantissa field and of the exponent field. *)
Record format := mk_format { mant : Z; expo : Z }.
Definition binary32 : format := mk_format 23 8.
Definition binary64 : format := mk_format 52 11.

Section Format.
Context (f : format).

Definition prec : Z := mant f + 1.
Definition emax : Z := 2 ^ (expo f - 1).
Definition bias : Z := emax - 1.

(** The number that a word encodes. *)
Definition of_bits (x : Z) : spec_float :=
  let s := Z.testbit x (mant f + expo f) in
  let e := (x / 2 ^ mant f) mod 2 ^ expo f in
  let m := x mod 2 ^ mant f in
  if e =? 2 ^ expo f - 1 then (if m =? 0 then S754_infinity s else S754_nan)
  else if e =? 0 then
    match m with Z.pos p => S754_finite s p (1 - bias - mant f) | _ => S754_zero s end
  else
    match m + 2 ^ mant f with
    | Z.pos p => S754_finite s p (e - bias - mant f)
    | _ => S754_zero s
    end.

Definition fsub (x y : spec_float) : spec_float := SFsub prec emax x y.
Definition fplus (x y : spec_float) : spec_float := SFadd prec emax x y.
Definition fone : spec_float := binary_normalize prec emax 1 0 false.

(** [std::numeric_limits<T>::epsilon() / 8]. *)
Definition epsilon_8 : spec_float :=
  SFdiv prec emax (binary_normalize prec emax 1 (- mant f) false)
    (binary_normalize prec emax 8 0 false).

(** The bits of the mantissa field, and of the exponent field of 1. *)
Definition lower : Z := 2 ^ mant f - 1.
Definition upper : Z := Z.shiftl bias (mant f).

(** ** BitScalar *)

Definition to_ur (x : Z) : spec_float :=
  let u := Z.lor (Z.land x lower) upper in
  fsub (of_bits u) fone.

Definition to_nzur (x : Z) : spec_float := fplus (to_ur x) epsilon_8.

End Format.

Definition float2 (x : Z) : spec_float * spec_float :=
  (to_ur binary32 (Z.land x 0xFFFFFFFF), to_ur binary32 (Z.shiftr x 32)).

(** The constants of the code. *)
Example bit_constants :
  lower binary32 = 0x7FFFFF ∧ upper binary32 = Z.shiftl 127 23 ∧
  lower binary64 = 0xFFFFFFFFFFFFF ∧ upper binary64 = Z.shiftl 1023 52.
Proof. done. Qed.

(** ** Packets of numbers

    [bit_to_ur_float] and [bit_to_ur_double] on a register; the subtraction of
    packets is Eigen's, on every lane. *)

Class EigenFloatPackets := {
  psub_ps : list Z → list spec_float → list spec_float;  (* a packet as its bits, minus a packet *)
  psub_pd : list Z → list spec_float → list spec_float;
}.

Class EigenFloatPacketLaws `{EigenFloatPackets} := {
  psub_ps_lanes : ∀ r n y, length r = n →
    psub_ps r (replicate n y) = (λ x, fsub binary32 (of_bits binary32 x) y) <$> r;
  psub_pd_lanes : ∀ r n y, length (to64 r) = n →
    psub_pd r (replicate n y) = (λ x, fsub binary64 (of_bits binary64 x) y) <$> to64 r;
}.

Section Packets.
Context `{EigenPackets} `{EigenFloatPackets}.

Definition bit_to_ur_float (x : list Z) : list spec_float :=
  let n := length x in
  let lower := pset1 n 0x7FFFFF in
  let upper := pset1 n (Z.shiftl 127 23) in
  let one := replicate n (fone binary32) in
  psub_ps (por (pand x lower) upper) one.

Definition bit_to_ur_double (x : list Z) : list spec_float :=
  let n := Nat.div2 (length x) in
  let lower := set1_epi64x n 0xFFFFFFFFFFFFF in
  let upper := set1_epi64x n (Z.shiftl 1023 52) in
  let one := replicate n (fone binary64) in
  psub_pd (por (pand x lower) upper) one.

(** The variants for AVX without AVX2, on the two halves. *)
Definition bit_to_ur_float_avx (x : list Z) : list spec_float :=
  let lower := pset1 4 0x7FFFFF in
  let upper := pset1 4 (Z.shiftl 127 23) in
  let one := replicate 8 (fone binary32) in
  let '(x1, x2) := AVX.split_two x in
  psub_ps (AVX.combine_two (por (pand x1 lower) upper) (por (pand x2 lower) upper)) one.

Definition bit_to_ur_double_avx (x : list Z) : list spec_float :=
  let lower := SSE.pseti64 0xFFFFFFFFFFFFF in
  let upper := SSE.pseti64 (Z.shiftl 1023 52) in
  let one := replicate 4 (fone binary64) in
  let '(x1, x2) := AVX.split_two x in
  psub_pd (AVX.combine_two (por (pand x1 lower) upper) (por (pand x2 lower) upper)) one.

End Packets.
