(* ===== verification/FloatBitsProps.v ===== *)
(** The conversion of random bits to floating-point numbers is exact: the bits
    of the mantissa field, as a fraction. *)

From S2P Require Import Prelude.
From S2P Require Import Simd.
From S2P Require Import PacketMath.
From S2P Require Import PacketMathProps.
From S2P Require Import FloatBits.
From Stdlib Require Import SpecFloat.

(** [v] is the number [n * 2 ^ e], for [0 <= n]. *)
Definition is_num (v : spec_float) (n e : Z) : Prop :=
  match v with
  | S754_zero _ => n = 0
  | S754_finite false m e' =>
      Z.pos m * 2 ^ (e' - Z.min e e') = n * 2 ^ (e - Z.min e e')
  | _ => False
  end.

(** ** Exact results *)

Lemma digits2_pos_bounds p :
  2 ^ (Z.pos (digits2_pos p) - 1) <= Z.pos p < 2 ^ Z.pos (digits2_pos p).
Proof.
  assert (∀ d, 2 ^ (Z.pos (Pos.succ d) - 1) = 2 * 2 ^ (Z.pos d - 1) ∧
               2 ^ Z.pos (Pos.succ d) = 2 * 2 ^ Z.pos d) as Hs.
  { intros d. rewrite Pos2Z.inj_succ. split; rewrite <-Z.pow_succ_r by lia; f_equal; lia. }
  induction p as [p IH|p IH|]; cbn [digits2_pos]; [| |done];
    destruct (Hs (digits2_pos p)) as [-> ->]; lia.
Qed.

Lemma digits2_pos_le p k : 0 <= k → Z.pos p < 2 ^ k → Z.pos (digits2_pos p) <= k.
Proof.
  intros Hk Hp. destruct (digits2_pos_bounds p) as [Hlo _].
  assert (2 ^ (Z.pos (digits2_pos p) - 1) < 2 ^ k) as Hlt by lia.
  apply Z.pow_lt_mono_r_iff in Hlt; lia.
Qed.

Lemma iter_xO p d :
  Z.pos (Pos.iter xO p d) = Z.pos p * 2 ^ Z.pos d ∧
  Z.pos (digits2_pos (Pos.iter xO p d)) = Z.pos (digits2_pos p) + Z.pos d.
Proof.
  induction d as [|d IH] using Pos.peano_ind; [simpl; lia|].
  rewrite Pos.iter_succ. destruct IH as [IH1 IH2]. cbn [digits2_pos].
  rewrite (Pos2Z.inj_succ (digits2_pos _)), Pos2Z.inj_xO, IH1, IH2, (Pos2Z.inj_succ d).
  rewrite Z.pow_succ_r by lia. lia.
Qed.

Lemma round_aux_exact prec emax m e :
  fexp prec emax (Z.pos (digits2_pos m) + e) <= e → e <= emax - prec →
  binary_round_aux prec emax false (Z.pos m) e loc_Exact = S754_finite false m e.
Proof.
  intros He Hmax. unfold binary_round_aux, shr_fexp. cbn [Zdigits2].
  assert (∀ mrs, shr mrs e (fexp prec emax (Z.pos (digits2_pos m) + e) - e) = (mrs, e)) as Hs.
  { intros mrs. unfold shr. destruct (_ - e) eqn:E; try done. lia. }
  rewrite Hs. cbn [shr_m shr_record_of_loc loc_of_shr_record round_nearest_even Zdigits2].
  rewrite Hs. cbn [shr_m shr_record_of_loc]. by rewrite (proj2 (Z.leb_le _ _) Hmax).
Qed.

(** A number with at most [prec] digits is represented exactly. *)
Lemma normalize_exact prec emax n e :
  0 < prec → 0 <= n < 2 ^ prec → emin prec emax <= e <= emax - prec →
  is_num (binary_normalize prec emax n e false) n e.
Proof.
  intros Hprec Hn He. unfold binary_normalize. destruct n as [|m|m]; [done| |lia].
  unfold binary_round. pose proof (digits2_pos_le m prec ltac:(lia) ltac:(lia)) as Hd.
  unfold shl_align. remember (fexp prec emax (Z.pos (digits2_pos m) + e)) as t eqn:Ht.
  unfold fexp in Ht. destruct (t - e) as [|d|d] eqn:E.
  - rewrite round_aux_exact; [|unfold fexp; lia|lia]. simpl. lia.
  - lia.
  - destruct (iter_xO m d) as [Hv Hdig].
    rewrite round_aux_exact; [|unfold fexp; lia|lia].
    cbn. rewrite Hv, Z.min_r by lia. rewrite Z.sub_diag, Z.pow_0_r.
    replace (e - t) with (Z.pos d) by lia. lia.
Qed.

(** ** Words *)

Lemma lor_shiftl a b n : 0 <= n → 0 <= a < 2 ^ n → Z.lor a (Z.shiftl b n) = a + b * 2 ^ n.
Proof.
  intros Hn Ha. rewrite <-Z.shiftl_mul_pow2 by done.
  assert (Z.land a (Z.shiftl b n) = 0) as Hdisj.
  { apply Z.bits_inj'. intros m Hm. rewrite Z.land_spec, Z.bits_0.
    destruct (Z.lt_ge_cases m n).
    - rewrite Z.shiftl_spec_low by done. apply andb_false_r.
    - apply (word_bits n) in Ha as [_ Hb]; [|done]. by rewrite Hb. }
  rewrite <-Z.lxor_lor by done. symmetry. by apply Z.add_nocarry_lxor.
Qed.

(** The two formats of the code. *)
Definition ieee (f : format) : Prop := f = binary32 ∨ f = binary64.

Lemma to_ur_word f x : ieee f →
  Z.lor (Z.land x (lower f)) (upper f) = x mod 2 ^ mant f + bias f * 2 ^ mant f.
Proof.
  intros Hf. assert (0 <= mant f) by (destruct Hf as [->| ->]; done).
  unfold lower, upper. replace (2 ^ mant f - 1) with (Z.ones (mant f)) by (rewrite Z.ones_equiv; lia).
  rewrite Z.land_ones by done. apply lor_shiftl; [done|]. apply Z.mod_pos_bound. lia.
Qed.

Lemma of_bits_unit f m : ieee f → 0 <= m < 2 ^ mant f →
  of_bits f (m + bias f * 2 ^ mant f) = S754_finite false (Z.to_pos (m + 2 ^ mant f)) (- mant f).
Proof.
  intros Hf Hm. unfold of_bits.
  assert (0 < 2 ^ mant f) by (destruct Hf as [->| ->]; done).
  rewrite Z.div_add by lia. rewrite Z.div_small, Z.add_0_l, Z.mod_add, (Z.mod_small m) by lia.
  assert (Z.testbit (m + bias f * 2 ^ mant f) (mant f + expo f) = false) as ->.
  { assert (0 <= m + bias f * 2 ^ mant f < 2 ^ (mant f + expo f)) as Hr.
    { destruct Hf as [->| ->]; unfold bias, emax in *; cbn in *; lia. }
    apply (word_bits (mant f + expo f)) in Hr as [_ Hb]; [apply Hb; lia|].
    destruct Hf as [->| ->]; cbn; lia. }
  destruct (m + 2 ^ mant f) eqn:E; [lia| |lia]. destruct Hf as [->| ->]; reflexivity.
Qed.

Lemma fone_eq f : ieee f → fone f = S754_finite false (Z.to_pos (2 ^ mant f)) (- mant f).
Proof. by intros [->| ->]. Qed.

(** The value of [to_ur]. *)
Lemma to_ur_num f x : ieee f → is_num (to_ur f x) (x mod 2 ^ mant f) (- mant f).
Proof.
  intros Hf. assert (0 <= x mod 2 ^ mant f < 2 ^ mant f) as Hm.
  { apply Z.mod_pos_bound. destruct Hf as [->| ->]; done. }
  unfold to_ur. rewrite to_ur_word, of_bits_unit, fone_eq by done.
  unfold fsub, SFsub. rewrite Z.min_id. unfold shl_align. rewrite Z.sub_diag. cbn [fst cond_Zopp].
  assert (0 < 2 ^ mant f) by (destruct Hf as [->| ->]; done).
  rewrite !Z2Pos.id by lia. replace (_ + _ - _) with (x mod 2 ^ mant f) by lia.
  apply normalize_exact.
  - destruct Hf as [->| ->]; done.
  - unfold prec. rewrite Z.pow_add_r by (destruct Hf as [->| ->]; done). lia.
  - destruct Hf as [->| ->]; vm_compute; split; discriminate.
Qed.

(** ** Properties *)

(** C29. [BitScalar::to_ur] computes, without rounding, the low mantissa bits of its
    argument as a fraction: a number in [0, 1), every multiple of
    [2 ^ -mantissa bits] being reached. *)
Theorem to_ur_exact f x :
  ieee f →
  is_num (to_ur f x) (x mod 2 ^ mant f) (- mant f) ∧ 0 <= x mod 2 ^ mant f < 2 ^ mant f.
Proof.
  intros Hf. split; [by apply to_ur_num|].
  apply Z.mod_pos_bound. destruct Hf as [->| ->]; done.
Qed.

(** ** Packets of numbers *)

Section Packets.
Context `{EigenPackets} `{EigenFloatPackets} `{!EigenPacketLaws} `{!EigenFloatPacketLaws}.

Lemma zip_with_const_r {A} (f : Z → Z → Z) (g : Z → A) r n y :
  length r = n → g <$> zip_with f r (replicate n y) = (λ x, g (f x y)) <$> r.
Proof. intros <-. induction r; simpl; by f_equal. Qed.

Lemma set1_register32 n x : register n (set1_epi32 (2 * n) x).
Proof.
  split; [apply length_replicate|]. apply Forall_replicate. apply u32_range.
Qed.

Lemma mask_register n r x :
  register n r → register n (and_si r (set1_epi32 (2 * n) x)).
Proof. intros Hr. apply (register_bitwise _ bitwise_land); [done|apply set1_register32]. Qed.

Lemma float_word_eq n r :
  register n r →
  por (pand r (pset1 (2 * n) 0x7FFFFF)) (pset1 (2 * n) (Z.shiftl 127 23)) =
    or_si (and_si r (set1_epi32 (2 * n) 0x7FFFFF)) (set1_epi32 (2 * n) (Z.shiftl 127 23)).
Proof.
  intros Hr. rewrite !pset1_lanes, (pand_lanes n) by (done || apply set1_register32).
  apply (por_lanes n); [by apply mask_register|apply set1_register32].
Qed.

Lemma double_word_eq n r :
  register n r →
  por (pand r (set1_epi64x n 0xFFFFFFFFFFFFF)) (set1_epi64x n (Z.shiftl 1023 52)) =
    or_si (and_si r (set1_epi64x n 0xFFFFFFFFFFFFF)) (set1_epi64x n (Z.shiftl 1023 52)).
Proof.
  intros Hr. rewrite (pand_lanes n) by (done || apply set1_law).
  apply (por_lanes n); [|apply set1_law].
  apply (register_bitwise _ bitwise_land); [done|apply set1_law].
Qed.

Lemma float_lanes n r :
  register n r → bit_to_ur_float r = to_ur binary32 <$> r.
Proof.
  intros Hr. unfold bit_to_ur_float. rewrite (register_length _ _ Hr), (float_word_eq n) by done.
  rewrite psub_ps_lanes.
  - unfold or_si, and_si, set1_epi32.
    rewrite (zip_with_replicate_r_eq _ r), zip_with_const_r, <-list_fmap_compose.
    + reflexivity.
    + rewrite length_fmap. apply Hr.
    + apply Hr.
  - unfold or_si, and_si, set1_epi32. rewrite !length_zip_with, !length_replicate.
    pose proof (register_length _ _ Hr). lia.
Qed.

Lemma double_lanes n r :
  register n r → bit_to_ur_double r = to_ur binary64 <$> to64 r.
Proof.
  intros Hr. unfold bit_to_ur_double. rewrite (register_length _ _ Hr), Nat.div2_double.
  rewrite (double_word_eq n) by done.
  assert (to64 (or_si (and_si r (set1_epi64x n 0xFFFFFFFFFFFFF)) (set1_epi64x n (Z.shiftl 1023 52))) =
    (λ x, Z.lor (Z.land x (lower binary64)) (upper binary64)) <$> to64 r) as Heq.
  { rewrite (to64_bitwise _ bitwise_lor n).
    - rewrite (to64_bitwise _ bitwise_land n) by (done || apply set1_law).
      rewrite !(proj2 (set1_law n _)).
      rewrite (zip_with_replicate_r_eq _ (to64 r)), zip_with_replicate_r_eq, <-list_fmap_compose.
      + reflexivity.
      + rewrite length_fmap. apply length_to64, Hr.
      + apply length_to64, Hr.
    - apply (register_bitwise _ bitwise_land); [done|apply set1_law].
    - apply set1_law. }
  rewrite psub_pd_lanes; rewrite Heq.
  - rewrite <-list_fmap_compose. reflexivity.
  - rewrite length_fmap. apply length_to64, Hr.
Qed.

(** [bit_to_ur_float] and [bit_to_ur_double] convert every lane of a register,
    whole or in halves, as [BitScalar] converts a word. *)
Theorem bit_to_ur_lanes n r :
  register n r →
  bit_to_ur_float r = to_ur binary32 <$> r ∧
  bit_to_ur_double r = to_ur binary64 <$> to64 r ∧
  (n = 4%nat → bit_to_ur_float_avx r = bit_to_ur_float r ∧
     bit_to_ur_double_avx r = bit_to_ur_double r).
Proof.
  intros Hr. split; [by apply (float_lanes n)|]. split; [by apply (double_lanes n)|].
  intros ->.
  assert (register 2 (extractf128 0 r) ∧ register 2 (extractf128 1 r)) as [H0r H1r].
  { lanes Hr. split; (split; [done|]); repeat (apply Forall_cons; split; [assumption|]);
      apply Forall_nil; done. }
  unfold bit_to_ur_float_avx, bit_to_ur_double_avx, bit_to_ur_float, bit_to_ur_double,
    AVX.split_two, SSE.pseti64. rewrite (register_length _ _ Hr).
  rewrite !(float_word_eq 2), (float_word_eq 4), !(double_word_eq 2), (double_word_eq 4) by done.
  by lanes Hr.
Qed.

End Packets.

(** ** Witnesses *)

Lemma to_ur_exact_witness :
  is_num (to_ur binary32 0xC0000001) 1 (-23) ∧ 0 <= 1 < 2 ^ 23.
Proof. apply (to_ur_exact binary32 0xC0000001). by left. Defined.

(** The interface is satisfiable. *)
Definition float_instructions : EigenFloatPackets := {|
  psub_ps r y := zip_with (λ x y, FloatBits.fsub binary32 (of_bits binary32 x) y) r y;
  psub_pd r y := zip_with (λ x y, FloatBits.fsub binary64 (of_bits binary64 x) y) (to64 r) y;
|}.

Lemma float_instructions_laws : @EigenFloatPacketLaws float_instructions.
Proof. split; intros r n y <-; cbn; by rewrite zip_with_replicate_r_eq. Qed.

Lemma bit_to_ur_lanes_witness :
  bit_to_ur_float (H := instructions) (H0 := float_instructions) [1; 2; 3; 4] =
    to_ur binary32 <$> [1; 2; 3; 4].
Proof.
  refine (proj1 (bit_to_ur_lanes (H := instructions) (H0 := float_instructions)
    (H1 := instructions_laws) (H2 := float_instructions_laws) 2 [1; 2; 3; 4] _)).
  split; [done|]. repeat constructor; unfold word; lia.
Defined.
