(* ===== verification/FloatNum.v ===== *)
(** IEEE-754 numbers of a format as an arithmetic ([Num]) and as words: the bits
    of a number, its sign bit, and that sums and products are numbers of the
    format. *)

From S2P Require Import Prelude.
From S2P Require Import Simd.
From S2P Require Import PacketMath.
From S2P Require Import PacketMathProps.
From S2P Require Import FloatBits.
From S2P Require Import FloatBitsProps.
From Stdlib Require Import SpecFloat.
From S2P Require Import Num.

(** ** The arithmetic of a format *)

Definition format_num (f : format) : Num spec_float := {|
  fadd := SFadd (prec f) (emax f);
  fsub := SFsub (prec f) (emax f);
  fmul := SFmul (prec f) (emax f);
  fdiv := SFdiv (prec f) (emax f);
  fneg := SFopp;
  fsqrt := SFsqrt (prec f) (emax f);
  fltb := SFltb;
  fleb := SFleb;
  of_Z z := binary_normalize (prec f) (emax f) z 0 false;
  half := binary_normalize (prec f) (emax f) 1 (-1) false;
  ftrunc := b64_trunc;
|}.

(** The bits of a word of the format. *)
Definition width (f : format) : Z := mant f + expo f + 1.

(** ** Bits *)

(** The number with a sign and with the bits below the sign bit. *)
Definition magnitude (f : format) (s : bool) (r : Z) : spec_float :=
  let e := r / 2 ^ mant f in
  let m := r mod 2 ^ mant f in
  if e =? 2 ^ expo f - 1 then (if m =? 0 then S754_infinity s else S754_nan)
  else if e =? 0 then
    match m with Z.pos p => S754_finite s p (1 - bias f - mant f) | _ => S754_zero s end
  else
    match m + 2 ^ mant f with
    | Z.pos p => S754_finite s p (e - bias f - mant f)
    | _ => S754_zero s
    end.

(** The bits of a number, with one word for NaN. *)
Definition to_bits (f : format) (x : spec_float) : Z :=
  let word (s : bool) (e m : Z) := Z.b2z s * 2 ^ (mant f + expo f) + (e * 2 ^ mant f + m) in
  match x with
  | S754_zero s => word s 0 0
  | S754_infinity s => word s (2 ^ expo f - 1) 0
  | S754_nan => word false (2 ^ expo f - 1) 1
  | S754_finite s m e =>
      if Z.pos m <? 2 ^ mant f then word s 0 (Z.pos m)
      else word s (e + bias f + mant f) (Z.pos m - 2 ^ mant f)
  end.

(** A number of the format: a finite one has a normal mantissa or the least
    exponent. *)
Definition canonical (f : format) (x : spec_float) : Prop :=
  match x with
  | S754_finite _ m e =>
      (2 ^ mant f <= Z.pos m < 2 ^ prec f ∧ emin (prec f) (emax f) <= e <= emax f - prec f) ∨
      (Z.pos m < 2 ^ mant f ∧ e = emin (prec f) (emax f))
  | _ => True
  end.

Lemma ieee_facts f : ieee f →
  0 < mant f ∧ 0 < expo f ∧ width f = mant f + expo f + 1 ∧ prec f = mant f + 1 ∧
  2 ^ expo f = 2 * bias f + 2 ∧ emax f = bias f + 1 ∧ emin (prec f) (emax f) = 1 - bias f - mant f ∧
  emin (prec f) (emax f) < 0 ∧ mant f < bias f.
Proof. intros [->| ->]; by vm_compute. Qed.

Ltac ieee Hf :=
  let H1 := fresh "Hmant" in let H2 := fresh "Hexpo" in let H3 := fresh "Hwidth" in
  let H4 := fresh "Hprec" in let H5 := fresh "Hpow" in let H6 := fresh "Hemax" in
  let H7 := fresh "Hemin" in let H8 := fresh "Hneg" in let H9 := fresh "Hbias" in
  destruct (ieee_facts _ Hf) as (H1 & H2 & H3 & H4 & H5 & H6 & H7 & H8 & H9).

Section Bits.
Context (f : format) (Hf : ieee f).

Lemma of_bits_magnitude x : of_bits f x = magnitude f (Z.testbit x (mant f + expo f)) (x mod 2 ^ (mant f + expo f)).
Proof.
  ieee Hf. unfold of_bits, magnitude.
  assert ((x / 2 ^ mant f) mod 2 ^ expo f = x mod 2 ^ (mant f + expo f) / 2 ^ mant f) as ->.
  { rewrite Z.pow_add_r, Z.rem_mul_r, Z.mul_comm, Z.div_add by lia. rewrite (Z.div_small (_ mod _)); [lia|].
    apply Z.mod_pos_bound. lia. }
  assert (x mod 2 ^ mant f = (x mod 2 ^ (mant f + expo f)) mod 2 ^ mant f) as ->; [|done].
  rewrite Z.pow_add_r, Z.rem_mul_r, Z.mul_comm, Z.mod_add, Z.mod_mod by lia. done.
Qed.

Lemma magnitude_opp s r : magnitude f (negb s) r = SFopp (magnitude f s r).
Proof.
  unfold magnitude. repeat case_match; done.
Qed.

Lemma magnitude_abs s r : magnitude f false r = SFabs (magnitude f s r).
Proof. unfold magnitude. repeat case_match; done. Qed.

Lemma magnitude_canonical s r : 0 <= r < 2 ^ (mant f + expo f) → canonical f (magnitude f s r).
Proof.
  ieee Hf. intros Hr. unfold magnitude.
  assert (0 <= r mod 2 ^ mant f < 2 ^ mant f) as Hm by (apply Z.mod_pos_bound; lia).
  assert (0 <= r / 2 ^ mant f < 2 ^ expo f) as He.
  { rewrite Z.pow_add_r in Hr by lia. split; [apply Z.div_pos; lia|apply Z.div_lt_upper_bound; lia]. }
  assert (2 ^ prec f = 2 * 2 ^ mant f) as Hp by (rewrite Hprec, Z.pow_add_r by lia; lia).
  destruct (Z.eqb_spec (r / 2 ^ mant f) (2 ^ expo f - 1)); [by destruct (_ =? 0)|].
  destruct (Z.eqb_spec (r / 2 ^ mant f) 0).
  - destruct (r mod 2 ^ mant f) as [|m|m] eqn:E; try done. right. cbn. lia.
  - destruct (r mod 2 ^ mant f + 2 ^ mant f) as [|m|m] eqn:E; try done. left. cbn. lia.
Qed.

Lemma of_bits_canonical x : canonical f (of_bits f x).
Proof.
  rewrite of_bits_magnitude. apply magnitude_canonical, Z.mod_pos_bound. ieee Hf. lia.
Qed.

(** The bits of a number give the number. *)
Lemma of_bits_word s e m : 0 <= e < 2 ^ expo f → 0 <= m < 2 ^ mant f →
  let x := Z.b2z s * 2 ^ (mant f + expo f) + (e * 2 ^ mant f + m) in
  word (width f) x ∧ of_bits f x = magnitude f s (e * 2 ^ mant f + m).
Proof.
  ieee Hf. intros He Hm x. assert (0 <= e * 2 ^ mant f + m < 2 ^ (mant f + expo f)) as Hr.
  { rewrite Z.pow_add_r by lia. split; [nia|]. nia. }
  assert (2 ^ width f = 2 * 2 ^ (mant f + expo f)) as Hw by (rewrite Hwidth, (Z.pow_add_r _ (mant f + expo f)) by lia; lia).
  split; [unfold word; rewrite Hw; unfold x; destruct s; cbn [Z.b2z]; lia|].
  rewrite of_bits_magnitude. f_equal.
  - apply Z.b2z_inj. rewrite Z.testbit_spec' by lia. unfold x. rewrite Z.div_add_l, Z.div_small, Z.add_0_r by lia.
    by destruct s.
  - unfold x. rewrite Z.add_comm, Z.mod_add, Z.mod_small by lia. done.
Qed.

Lemma magnitude_fields s e m : 0 <= e → 0 <= m < 2 ^ mant f →
  (e * 2 ^ mant f + m) / 2 ^ mant f = e ∧ (e * 2 ^ mant f + m) mod 2 ^ mant f = m ∧
  magnitude f s (e * 2 ^ mant f + m) =
    if e =? 2 ^ expo f - 1 then (if m =? 0 then S754_infinity s else S754_nan)
    else if e =? 0 then
      match m with Z.pos p => S754_finite s p (1 - bias f - mant f) | _ => S754_zero s end
    else
      match m + 2 ^ mant f with
      | Z.pos p => S754_finite s p (e - bias f - mant f)
      | _ => S754_zero s
      end.
Proof.
  ieee Hf. intros He Hm.
  assert ((e * 2 ^ mant f + m) / 2 ^ mant f = e) as Hd by (rewrite Z.div_add_l, Z.div_small by lia; lia).
  assert ((e * 2 ^ mant f + m) mod 2 ^ mant f = m) as Hmm by (rewrite Z.add_comm, Z.mod_add, Z.mod_small by lia; done).
  split; [done|]. split; [done|]. unfold magnitude. by rewrite Hd, Hmm.
Qed.

Lemma of_bits_to_bits x : canonical f x → word (width f) (to_bits f x) ∧ of_bits f (to_bits f x) = x.
Proof.
  ieee Hf. intros Hx. assert (1 < 2 ^ mant f) by (apply Z.pow_gt_1; lia).
  assert (2 ^ prec f = 2 * 2 ^ mant f) as Hp by (rewrite Hprec, Z.pow_add_r by lia; lia).
  destruct x as [s|s| |s m e]; unfold to_bits.
  - destruct (of_bits_word s 0 0) as [Hw ->]; [lia|lia|]. split; [done|].
    destruct (magnitude_fields s 0 0) as (_ & _ & ->); [lia|lia|]. rewrite (proj2 (Z.eqb_neq 0 _)) by lia. done.
  - destruct (of_bits_word s (2 ^ expo f - 1) 0) as [Hw ->]; [lia|lia|]. split; [done|].
    destruct (magnitude_fields s (2 ^ expo f - 1) 0) as (_ & _ & ->); [lia|lia|]. by rewrite Z.eqb_refl.
  - destruct (of_bits_word false (2 ^ expo f - 1) 1) as [Hw ->]; [lia|lia|]. split; [done|].
    destruct (magnitude_fields false (2 ^ expo f - 1) 1) as (_ & _ & ->); [lia|lia|]. by rewrite Z.eqb_refl.
  - cbn in Hx. destruct (Z.ltb_spec (Z.pos m) (2 ^ mant f)) as [Hlt|Hge].
    + destruct (of_bits_word s 0 (Z.pos m)) as [Hw ->]; [lia|lia|]. split; [done|].
      destruct (magnitude_fields s 0 (Z.pos m)) as (_ & _ & ->); [lia|lia|]. rewrite (proj2 (Z.eqb_neq 0 _)) by lia.
      cbn. f_equal. lia.
    + destruct (of_bits_word s (e + bias f + mant f) (Z.pos m - 2 ^ mant f)) as [Hw ->]; [lia|lia|]. split; [done|].
      destruct (magnitude_fields s (e + bias f + mant f) (Z.pos m - 2 ^ mant f)) as (_ & _ & ->); [lia|lia|].
      rewrite !(proj2 (Z.eqb_neq _ _)) by lia. replace (Z.pos m - 2 ^ mant f + 2 ^ mant f) with (Z.pos m) by lia.
      f_equal. lia.
Qed.

(** ** The sign bit *)

Definition sign_mask : Z := 2 ^ (width f - 1).

Lemma sign_mask_bit k : 0 <= k → Z.testbit sign_mask k = (k =? width f - 1).
Proof.
  ieee Hf. intros Hk. unfold sign_mask. rewrite Z.pow2_bits_eqb by lia. apply Z.eqb_sym.
Qed.

Lemma low_bits x y : (∀ k, 0 <= k < width f - 1 → Z.testbit x k = Z.testbit y k) →
  x mod 2 ^ (mant f + expo f) = y mod 2 ^ (mant f + expo f).
Proof.
  ieee Hf. intros Hb. rewrite <-!Z.land_ones by lia. apply Z.bits_inj'. intros k Hk.
  rewrite !Z.land_spec. destruct (decide (k < mant f + expo f)).
  - rewrite Hb by lia. done.
  - rewrite Z.ones_spec_high by lia. by rewrite !andb_false_r.
Qed.

Lemma of_bits_flip x : of_bits f (Z.lxor x sign_mask) = SFopp (of_bits f x).
Proof.
  ieee Hf. rewrite !of_bits_magnitude, <-magnitude_opp. f_equal.
  - rewrite Z.lxor_spec, sign_mask_bit, (proj2 (Z.eqb_eq _ _)) by lia. by destruct (Z.testbit _ _).
  - apply low_bits. intros k Hk. rewrite Z.lxor_spec, sign_mask_bit, (proj2 (Z.eqb_neq _ _)) by lia. by destruct (Z.testbit _ _).
Qed.

(** The sign bit of a word, as a word. *)
Lemma land_sign x : Z.land x sign_mask = if Z.testbit x (width f - 1) then sign_mask else 0.
Proof.
  ieee Hf. apply Z.bits_inj'. intros k Hk. rewrite Z.land_spec, sign_mask_bit by done.
  destruct (Z.eqb_spec k (width f - 1)) as [->|Hne].
  - destruct (Z.testbit _ _); [rewrite sign_mask_bit, Z.eqb_refl by done; done|by rewrite Z.bits_0].
  - rewrite andb_false_r. destruct (Z.testbit _ (width f - 1)); [|by rewrite Z.bits_0].
    symmetry. rewrite sign_mask_bit by done. by apply Z.eqb_neq.
Qed.

Lemma of_bits_xor_sign x b : of_bits f (Z.lxor x (if b : bool then sign_mask else 0)) = (if b then SFopp (of_bits f x) else of_bits f x).
Proof. destruct b; [apply of_bits_flip|by rewrite Z.lxor_0_r]. Qed.

Lemma of_bits_zero : of_bits f 0 = S754_zero false.
Proof. by destruct Hf as [->| ->]. Qed.

End Bits.

(** ** Rounding *)

Lemma digits_bounds m : 0 <= m →
  0 <= Zdigits2 m ∧ m < 2 ^ Zdigits2 m ∧ (0 < m → 2 ^ (Zdigits2 m - 1) <= m).
Proof.
  intros Hm. destruct m as [|p|p]; [by cbn| |lia]. cbn [Zdigits2].
  pose proof (digits2_pos_bounds p). split; [lia|]. split; [lia|]. intros _. lia.
Qed.

Lemma digits_le m k : 0 <= m → 0 <= k → m < 2 ^ k → Zdigits2 m <= k.
Proof.
  intros Hm Hk Hlt. destruct m as [|p|p]; [done| |lia]. by apply digits2_pos_le.
Qed.

Lemma digits_ge m k : 0 <= k → 2 ^ k <= m → k + 1 <= Zdigits2 m.
Proof.
  intros Hk Hm. destruct (digits_bounds m) as (_ & Hlt & _); [lia|].
  assert (2 ^ k < 2 ^ Zdigits2 m) as Hp by lia. apply Z.pow_lt_mono_r_iff in Hp; [lia|lia|].
  destruct (digits_bounds m); [lia|done].
Qed.

Lemma pow_xI p : 2 ^ Z.pos p~1 = 2 * (2 ^ Z.pos p * 2 ^ Z.pos p).
Proof. rewrite <-Z.pow_add_r, <-Z.pow_succ_r by lia. f_equal. lia. Qed.

Lemma pow_xO p : 2 ^ Z.pos p~0 = 2 ^ Z.pos p * 2 ^ Z.pos p.
Proof. rewrite <-Z.pow_add_r by lia. f_equal. lia. Qed.

Lemma shr_1_half r : 0 <= shr_m r → shr_m (shr_1 r) = shr_m r / 2 ∧ 0 <= shr_m (shr_1 r).
Proof.
  destruct r as [m b s]. cbn [shr_m]. intros Hm. destruct m as [|[p|p|]|p]; try done; cbn; try lia.
  - split; [|lia]. apply (Z.div_unique _ _ _ 1); lia.
  - split; [|lia]. apply (Z.div_unique _ _ _ 0); lia.
Qed.

Lemma shr_iter p : ∀ r, 0 <= shr_m r →
  shr_m (iter_pos shr_1 p r) = shr_m r / 2 ^ Z.pos p ∧ 0 <= shr_m (iter_pos shr_1 p r).
Proof.
  induction p as [p IH|p IH|]; intros r Hr; cbn [iter_pos].
  - destruct (shr_1_half r Hr) as [H1 Hp1]. destruct (IH _ Hp1) as [H2 Hp2]. destruct (IH _ Hp2) as [-> ?].
    split; [|done]. by rewrite H2, H1, !Z.div_div, pow_xI, Z.mul_assoc by lia.
  - destruct (IH _ Hr) as [H2 Hp2]. destruct (IH _ Hp2) as [-> ?].
    split; [|done]. by rewrite H2, !Z.div_div, pow_xO by lia.
  - by apply shr_1_half.
Qed.

(** Nothing is lost of a multiple of the power. *)
Lemma shr_1_exact n : 0 <= n → shr_1 {| shr_m := 2 * n; shr_r := false; shr_s := false |} = {| shr_m := n; shr_r := false; shr_s := false |}.
Proof. intros Hn. destruct n; [done|done|lia]. Qed.

Lemma shr_iter_exact p : ∀ n, 0 <= n →
  iter_pos shr_1 p {| shr_m := n * 2 ^ Z.pos p; shr_r := false; shr_s := false |} = {| shr_m := n; shr_r := false; shr_s := false |}.
Proof.
  induction p as [p IH|p IH|]; intros n Hn; cbn [iter_pos].
  - replace (n * 2 ^ Z.pos p~1) with (2 * (n * 2 ^ Z.pos p * 2 ^ Z.pos p)).
    + rewrite shr_1_exact, IH, IH by lia. done.
    + rewrite pow_xI. lia.
  - replace (n * 2 ^ Z.pos p~0) with (n * 2 ^ Z.pos p * 2 ^ Z.pos p).
    + rewrite IH, IH by lia. done.
    + rewrite pow_xO. lia.
  - rewrite Z.pow_1_r, Z.mul_comm. by apply shr_1_exact.
Qed.

Section Rounding.
Context (f : format) (Hf : ieee f).

#[local] Abbreviation fexp_of m e := (SpecFloat.fexp (prec f) (emax f) (Zdigits2 m + e)).

Lemma shr_fexp_ok m e l : 0 <= m → e <= fexp_of m e →
  ∃ r, shr_fexp (prec f) (emax f) m e l = (r, fexp_of m e) ∧ shr_m r = m / 2 ^ (fexp_of m e - e) ∧ 0 <= shr_m r.
Proof.
  intros Hm He. unfold shr_fexp, shr. set (t := fexp_of m e) in *.
  assert (shr_m (shr_record_of_loc m l) = m) as Hl by (by destruct l as [|[]]).
  destruct (t - e) as [|p|p] eqn:E; [| |lia].
  - eexists. split; [f_equal; lia|]. rewrite Hl, Z.pow_0_r, Z.div_1_r. done.
  - destruct (shr_iter p (shr_record_of_loc m l)) as [Hi Hp]; [by rewrite Hl|]. rewrite Hl in Hi.
    eexists. split; [f_equal; lia|done].
Qed.

(** Rounding gives a number of the format. *)
Lemma round_aux_canonical s m e l : 0 <= m → e <= fexp_of m e →
  canonical f (binary_round_aux (prec f) (emax f) s m e l).
Proof.
  ieee Hf. intros Hm He. unfold binary_round_aux.
  destruct (shr_fexp_ok m e l Hm He) as (r1 & -> & Hr1 & Hpos1). set (t := fexp_of m e) in *.
  set (m1 := shr_m r1) in *.
  assert (m1 < 2 ^ prec f ∧ (emin (prec f) (emax f) < t → 2 ^ mant f <= m1) ∧ emin (prec f) (emax f) <= t) as (Hlt & Hge & Hmin).
  { destruct (digits_bounds m Hm) as (Hd & Hlt & Hge). unfold t, SpecFloat.fexp in *. split_and!; [| |lia].
    - rewrite Hr1. apply Z.div_lt_upper_bound; [apply Z.pow_pos_nonneg; lia|]. rewrite <-Z.pow_add_r by lia.
      eapply Z.lt_le_trans; [exact Hlt|]. apply Z.pow_le_mono_r; lia.
    - intros Ht. rewrite Hr1. apply Z.div_le_lower_bound; [apply Z.pow_pos_nonneg; lia|]. rewrite <-Z.pow_add_r by lia.
      destruct (decide (m = 0)) as [->|]; [change (Zdigits2 0) with 0 in *; lia|]. etransitivity; [|apply Hge; lia]. apply Z.pow_le_mono_r; lia. }
  set (m2 := round_nearest_even m1 (loc_of_shr_record r1)).
  assert (m1 <= m2 <= m1 + 1) as Hm2 by (unfold m2, round_nearest_even; repeat case_match; lia).
  assert (2 ^ prec f = 2 * 2 ^ mant f) as Hp by (rewrite Hprec, Z.pow_add_r by lia; lia).
  assert (0 < 2 ^ mant f) as Hpm by (apply Z.pow_pos_nonneg; lia).
  destruct (decide (m2 = 2 ^ prec f)) as [Heq|Hne].
  - assert (Zdigits2 m2 = prec f + 1) as Hd.
    { pose proof (digits_ge m2 (prec f)). pose proof (digits_le m2 (prec f + 1)).
      assert (2 ^ (prec f + 1) = 2 * 2 ^ prec f) by (rewrite Z.pow_add_r; lia). lia. }
    destruct (shr_fexp_ok m2 t loc_Exact) as (r2 & -> & Hr2 & Hpos2); [lia|unfold SpecFloat.fexp; lia|].
    assert (fexp_of m2 t = t + 1) as Ht by (unfold SpecFloat.fexp; lia). rewrite Ht in *.
    replace (t + 1 - t) with 1 in Hr2 by lia. rewrite Z.pow_1_r, Heq, Hp, Z.mul_comm, Z.div_mul in Hr2 by lia.
    rewrite Hr2. destruct (2 ^ mant f) as [|p|p] eqn:E; [lia| |lia].
    destruct (Z.leb_spec (t + 1) (emax f - prec f)); [|done]. left. rewrite E. lia.
  - assert (m2 < 2 ^ prec f) as Hlt2 by lia.
    assert (fexp_of m2 t = t) as Ht.
    { pose proof (digits_le m2 (prec f) ltac:(lia) ltac:(lia) Hlt2). unfold SpecFloat.fexp.
      destruct (decide (emin (prec f) (emax f) < t)) as [Hgt|]; [|lia].
      pose proof (digits_ge m2 (mant f) ltac:(lia) ltac:(specialize (Hge Hgt); lia)). lia. }
    destruct (shr_fexp_ok m2 t loc_Exact) as (r2 & -> & Hr2 & Hpos2); [lia|lia|].
    rewrite Ht, Z.sub_diag, Z.pow_0_r, Z.div_1_r in Hr2. rewrite Ht, Hr2.
    destruct m2 as [|p|p] eqn:E; [done| |lia]. destruct (Z.leb_spec t (emax f - prec f)); [|done].
    destruct (decide (emin (prec f) (emax f) < t)) as [Hgt|]; [left; specialize (Hge Hgt); lia|].
    destruct (decide (Z.pos p < 2 ^ mant f)); [right; lia|left; lia].
Qed.

Lemma round_canonical s m e : canonical f (binary_round (prec f) (emax f) s m e).
Proof.
  unfold binary_round, shl_align. set (t := SpecFloat.fexp _ _ _).
  destruct (t - e) as [|p|p] eqn:E.
  - apply round_aux_canonical; [lia|]. cbn [Zdigits2]. fold t. lia.
  - apply round_aux_canonical; [lia|]. cbn [Zdigits2]. fold t. lia.
  - apply round_aux_canonical; [lia|]. cbn [Zdigits2]. destruct (iter_xO m p) as [_ ->].
    replace (Z.pos (digits2_pos m) + Z.pos p + t) with (Z.pos (digits2_pos m) + e) by lia. by fold t.
Qed.

Lemma normalize_canonical m e s : canonical f (binary_normalize (prec f) (emax f) m e s).
Proof. unfold binary_normalize. destruct m; [done|apply round_canonical..]. Qed.

Lemma add_canonical x y : canonical f x → canonical f y → canonical f (SFadd (prec f) (emax f) x y).
Proof.
  intros Hx Hy. destruct x as [sx|sx| |sx mx ex], y as [sy|sy| |sy my ey]; try done;
    try (by destruct sx, sy). apply normalize_canonical.
Qed.

Lemma opp_canonical x : canonical f x → canonical f (SFopp x).
Proof. by destruct x. Qed.

Lemma abs_canonical x : canonical f x → canonical f (SFabs x).
Proof. by destruct x. Qed.

Lemma sub_canonical x y : canonical f x → canonical f y → canonical f (SFsub (prec f) (emax f) x y).
Proof.
  intros Hx Hy. destruct x as [sx|sx| |sx mx ex], y as [sy|sy| |sy my ey]; try done;
    try (by destruct sx, sy). apply normalize_canonical.
Qed.

Lemma mul_canonical x y : canonical f x → canonical f y → canonical f (SFmul (prec f) (emax f) x y).
Proof.
  ieee Hf. intros Hx Hy. destruct x as [sx|sx| |sx mx ex], y as [sy|sy| |sy my ey]; try done.
  unfold SFmul. apply round_aux_canonical; [lia|]. cbn in Hx, Hy. unfold SpecFloat.fexp.
  assert (0 < 2 ^ mant f) by (apply Z.pow_pos_nonneg; lia).
  destruct Hx as [[Hx Hex]|[Hx Hex]]; [|destruct Hy as [[Hy Hey]|[Hy Hey]]].
  - pose proof (digits_ge (Z.pos (mx * my)) (mant f) ltac:(lia) ltac:(nia)). lia.
  - pose proof (digits_ge (Z.pos (mx * my)) (mant f) ltac:(lia) ltac:(nia)). lia.
  - lia.
Qed.

End Rounding.

(** ** Exact results *)

Lemma digits_mul_pow m k : 0 < m → 0 <= k → Zdigits2 (m * 2 ^ k) = Zdigits2 m + k.
Proof.
  intros Hm Hk. destruct (digits_bounds m) as (Hd & Hlt & Hge); [lia|]. specialize (Hge Hm).
  assert (0 < Zdigits2 m) by (destruct m; cbn; lia).
  assert (0 < 2 ^ k) by (apply Z.pow_pos_nonneg; lia).
  assert (Zdigits2 (m * 2 ^ k) <= Zdigits2 m + k) by (apply digits_le; [nia|lia|rewrite Z.pow_add_r by lia; nia]).
  assert (Zdigits2 m - 1 + k + 1 <= Zdigits2 (m * 2 ^ k)) by (apply digits_ge; [lia|rewrite Z.pow_add_r by lia; nia]).
  lia.
Qed.

Section Exact.
Context (f : format) (Hf : ieee f).

Lemma canonical_fexp s m e : canonical f (S754_finite s m e) →
  SpecFloat.fexp (prec f) (emax f) (Zdigits2 (Z.pos m) + e) = e ∧ e <= emax f - prec f.
Proof.
  ieee Hf. intros [[Hm He]|[Hm ->]]; unfold SpecFloat.fexp.
  - pose proof (digits_ge (Z.pos m) (mant f) ltac:(lia) ltac:(lia)).
    pose proof (digits_le (Z.pos m) (prec f) ltac:(lia) ltac:(lia) ltac:(lia)). lia.
  - pose proof (digits_le (Z.pos m) (mant f) ltac:(lia) ltac:(lia) ltac:(lia)). lia.
Qed.

Lemma round_aux_shift s m e k : canonical f (S754_finite s m e) → 0 <= k →
  binary_round_aux (prec f) (emax f) s (Z.pos m * 2 ^ k) (e - k) loc_Exact = S754_finite s m e.
Proof.
  intros Hc Hk. destruct (canonical_fexp s m e Hc) as [He Hmax].
  assert (shr_fexp (prec f) (emax f) (Z.pos m) e loc_Exact = ({| shr_m := Z.pos m; shr_r := false; shr_s := false |}, e)) as Hshr.
  { unfold shr_fexp. by rewrite He, Z.sub_diag. }
  assert (shr_fexp (prec f) (emax f) (Z.pos m * 2 ^ k) (e - k) loc_Exact =
    ({| shr_m := Z.pos m; shr_r := false; shr_s := false |}, e)) as Hshift.
  { destruct k as [|k|k]; [by rewrite Z.pow_0_r, Z.mul_1_r, Z.sub_0_r| |lia].
    unfold shr_fexp. rewrite digits_mul_pow by lia.
    replace (Zdigits2 (Z.pos m) + Z.pos k + (e - Z.pos k)) with (Zdigits2 (Z.pos m) + e) by lia. rewrite He.
    replace (e - (e - Z.pos k)) with (Z.pos k) by lia. cbn [shr shr_record_of_loc].
    rewrite shr_iter_exact by lia. f_equal. lia. }
  unfold binary_round_aux. rewrite Hshift. cbn [shr_m loc_of_shr_record round_nearest_even]. rewrite Hshr. cbn [shr_m].
  by rewrite (proj2 (Z.leb_le _ _)).
Qed.

(** A number of the format, given by a multiple of any power. *)
Lemma normalize_value m e n e' s : canonical f (S754_finite false m e) →
  Z.pos m * 2 ^ (e - Z.min e e') = n * 2 ^ (e' - Z.min e e') →
  binary_normalize (prec f) (emax f) n e' s = S754_finite false m e.
Proof.
  intros Hc Hv. assert (0 < n) as Hn.
  { assert (0 < 2 ^ (e - Z.min e e')) by (apply Z.pow_pos_nonneg; lia).
    assert (0 < 2 ^ (e' - Z.min e e')) by (apply Z.pow_pos_nonneg; lia). nia. }
  destruct n as [|n|n]; [lia| |lia]. unfold binary_normalize, binary_round.
  destruct (canonical_fexp false m e Hc) as [He Hmax]. change (Z.pos (digits2_pos n)) with (Zdigits2 (Z.pos n)).
  destruct (decide (e <= e')) as [Hle|Hgt].
  - rewrite Z.min_l, Z.sub_diag, Z.pow_0_r, Z.mul_1_r in Hv by lia.
    assert (Zdigits2 (Z.pos n) + e' = Zdigits2 (Z.pos m) + e) as Hd by (rewrite Hv, digits_mul_pow by lia; lia).
    unfold shl_align. rewrite Hd, He. destruct (e - e') as [|d|d] eqn:E; [| lia|].
    + assert (e' = e) as -> by lia. rewrite Z.sub_diag, Z.pow_0_r, Z.mul_1_r in Hv. rewrite <-Hv.
      pose proof (round_aux_shift false m e 0 Hc ltac:(lia)) as Hr. by rewrite Z.pow_0_r, Z.mul_1_r, Z.sub_0_r in Hr.
    + destruct (iter_xO n d) as [Hx _]. replace (Z.pos (Pos.iter xO n d)) with (Z.pos m)
        by (rewrite Hx, Hv; do 2 f_equal; lia).
      pose proof (round_aux_shift false m e 0 Hc ltac:(lia)) as Hr. by rewrite Z.pow_0_r, Z.mul_1_r, Z.sub_0_r in Hr.
  - rewrite Z.min_r, Z.sub_diag, Z.pow_0_r, Z.mul_1_r in Hv by lia.
    assert (Zdigits2 (Z.pos n) + e' = Zdigits2 (Z.pos m) + e) as Hd by (rewrite <-Hv, digits_mul_pow by lia; lia).
    unfold shl_align. rewrite Hd, He. destruct (e - e') as [|d|d] eqn:E; [lia| |lia].
    rewrite <-Hv. replace e' with (e - Z.pos d) by lia. replace (e - (e - Z.pos d)) with (Z.pos d) by lia.
    apply round_aux_shift; [done|lia].
Qed.

End Exact.
