(* ===== verification/SinCos.v ===== *)
(** EigenRand/MorePacketMath.h: [psincos] for packets of [float] and of [double],
    and [_psin], as operations on the bits of the lanes; and the conversions
    between [double] and 64-bit integers of the SSE and AVX files that they use.
    The same function without packets and without bits is [sincos]. *)

From S2P Require Import Prelude.
From S2P Require Import Simd.
From S2P Require Import PacketMath.
From S2P Require Import FloatBits.
From Stdlib Require Import SpecFloat.
From S2P Require Import Num.
From S2P Require Import FloatBitsProps.
From S2P Require Import FloatNum.

(** ** Literals *)

(** The literal [n / 10 ^ k] of type [double], and its conversion to a format. *)
Definition decimal (n k : Z) : spec_float :=
  match n with
  | Z0 => S754_zero false
  | Z.pos p => SFdiv 53 1024 (S754_finite false p 0) (S754_finite false (Z.to_pos (10 ^ k)) 0)
  | Z.neg p => SFdiv 53 1024 (S754_finite true p 0) (S754_finite false (Z.to_pos (10 ^ k)) 0)
  end.
Definition convert (f : format) (x : spec_float) : spec_float :=
  match x with
  | S754_finite s m e => binary_round (prec f) (emax f) s m e
  | _ => x
  end.
Definition literal (f : format) (n k : Z) : spec_float := convert f (decimal n k).

(** ** The function on one number *)

Section Scalar.
Context {F : Type} `{Num F} (lit : Z → Z → F) (fabs : F → F) (signbit : F → bool).
#[local] Open Scope num_scope.

(** [j = (j + 1) & ~1] for the integer part [j] of [|x| * 4 / pi]. *)
Definition octant (x : F) : option Z :=
  match ftrunc (fabs x * lit 127323954473516 14) with
  | Some j => Some (Z.land (j + 1) (-2))
  | None => None
  end.

(** [|x| - j * pi / 4], in three parts. *)
Definition reduced (x : F) (j : Z) : F :=
  let y := of_Z j in
  fabs x + y * lit (-78515625) 8 + y * lit (-24187564849853515625) 23 + y * lit (-377489497744594108) 25.

(** The two polynomials. *)
Definition cos_poly (z : F) : F :=
  let y := lit 2443315711809948 20 in
  let y := y * z in
  let y := y + lit (-1388731625493765) 18 in
  let y := y * z in
  let y := y + lit 4166664568298827 17 in
  let y := y * z in
  let y := y * z in
  let tmp := z * lit 5 1 in
  let y := y - tmp in
  y + lit 1 0.
Definition sin_poly (z x : F) : F :=
  let y2 := lit (-19515295891) 14 in
  let y2 := y2 * z in
  let y2 := y2 + lit 83321608736 13 in
  let y2 := y2 * z in
  let y2 := y2 + lit (-16666654611) 11 in
  let y2 := y2 * z in
  let y2 := y2 * x in
  y2 + x.

Definition flip (b : bool) (x : F) : F := if b then - x else x.

(** The two results for an octant [j]. *)
Definition sincos_at (x : F) (j : Z) : F * F :=
  let r := reduced x j in
  let z := r * r in
  let y := cos_poly z in
  let y2 := sin_poly z r in
  let poly := (Z.land j 2 =? 0)%Z in
  let ysin2 := if poly then y2 else of_Z 0 in
  let ysin1 := if poly then of_Z 0 else y in
  (flip (xorb (signbit x) (Z.testbit j 2)) (ysin1 + ysin2),
   flip (negb (Z.testbit (j - 2) 2)) ((y - ysin1) + (y2 - ysin2))).

Definition sincos (x : F) : option (F * F) :=
  match octant x with
  | Some j => Some (sincos_at x j)
  | None => None
  end.

End Scalar.

(** ** Packets

    The operations that [psincos] uses on packets of numbers and on packets of
    integers of the same width; a packet is a register of [t_size] 64-bit lanes,
    whose words are [t_words]. *)

Class TrigPacket (f : format) := {
  t_size : nat;
  t_words : list Z → list Z;
  t_set1 : spec_float → list Z;                (* [pset1<Packet>], of a [double] *)
  t_abs : list Z → list Z;
  t_add : list Z → list Z → list Z;
  t_sub : list Z → list Z → list Z;
  t_mul : list Z → list Z → list Z;
  t_cast : list Z → list Z;                    (* [pcast<Packet, IntPacket>] *)
  t_cast_int : list Z → list Z;                (* [pcast<IntPacket, Packet>] *)
  t_set1_int : Z → list Z;                     (* [pset1<IntPacket>], [pseti64<IntPacket>] *)
  t_add_int : list Z → list Z → list Z;
  t_sub_int : list Z → list Z → list Z;
  t_cmpeq_int : list Z → list Z → list Z;
  t_sll : Z → list Z → list Z;
  t_and : list Z → list Z → list Z;
  t_xor : list Z → list Z → list Z;
  t_andnot : list Z → list Z → list Z;         (* [pnew_andnot] *)
}.

Section Packets.
Context {f : format} `{TrigPacket f}.

#[local] Abbreviation set1 n k := (t_set1 (decimal n k)).

Definition pext_sign (a : list Z) : list Z := t_and a (t_set1_int (2 ^ (width f - 1))).

(** The steps that the functions share. *)
Definition p_octant (x : list Z) : list Z :=
  let y := t_mul x (set1 127323954473516 14) in
  let emm2 := t_cast y in
  let emm2 := t_add_int emm2 (t_set1_int 1) in
  t_and emm2 (t_set1_int (-2)).
Definition p_reduced (x y : list Z) : list Z :=
  let xmm1 := set1 (-78515625) 8 in
  let xmm2 := set1 (-24187564849853515625) 23 in
  let xmm3 := set1 (-377489497744594108) 25 in
  let xmm1 := t_mul y xmm1 in
  let xmm2 := t_mul y xmm2 in
  let xmm3 := t_mul y xmm3 in
  let x := t_add x xmm1 in
  let x := t_add x xmm2 in
  t_add x xmm3.
Definition p_cos_poly (z : list Z) : list Z :=
  let y := set1 2443315711809948 20 in
  let y := t_mul y z in
  let y := t_add y (set1 (-1388731625493765) 18) in
  let y := t_mul y z in
  let y := t_add y (set1 4166664568298827 17) in
  let y := t_mul y z in
  let y := t_mul y z in
  let tmp := t_mul z (set1 5 1) in
  let y := t_sub y tmp in
  t_add y (set1 1 0).
Definition p_sin_poly (z x : list Z) : list Z :=
  let y2 := set1 (-19515295891) 14 in
  let y2 := t_mul y2 z in
  let y2 := t_add y2 (set1 83321608736 13) in
  let y2 := t_mul y2 z in
  let y2 := t_add y2 (set1 (-16666654611) 11) in
  let y2 := t_mul y2 z in
  let y2 := t_mul y2 x in
  t_add y2 x.

(** The shift count is 29 for [float] and 61 for [double]; [_psin] is only used for
    [double]. *)
Definition psincos (x : list Z) : list Z * list Z :=
  let sign_bit_sin := x in
  let x := t_abs x in
  let sign_bit_sin := pext_sign sign_bit_sin in
  let emm2 := p_octant x in
  let y := t_cast_int emm2 in
  let emm4 := emm2 in
  let emm0 := t_and emm2 (t_set1_int 4) in
  let swap_sign_bit_sin := t_sll (width f - 3) emm0 in
  let emm2 := t_and emm2 (t_set1_int 2) in
  let poly_mask := t_cmpeq_int emm2 (t_set1_int 0) in
  let x := p_reduced x y in
  let emm4 := t_sub_int emm4 (t_set1_int 2) in
  let emm4 := t_andnot (t_set1_int 4) emm4 in
  let sign_bit_cos := t_sll (width f - 3) emm4 in
  let sign_bit_sin := t_xor sign_bit_sin swap_sign_bit_sin in
  let z := t_mul x x in
  let y := p_cos_poly z in
  let y2 := p_sin_poly z x in
  let ysin2 := t_and poly_mask y2 in
  let ysin1 := t_andnot y poly_mask in
  let y2 := t_sub y2 ysin2 in
  let y := t_sub y ysin1 in
  let xmm1 := t_add ysin1 ysin2 in
  let xmm2 := t_add y y2 in
  (t_xor xmm1 sign_bit_sin, t_xor xmm2 sign_bit_cos).

Definition _psin (x : list Z) : list Z :=
  let sign_bit_sin := x in
  let x := t_abs x in
  let sign_bit_sin := pext_sign sign_bit_sin in
  let emm2 := p_octant x in
  let y := t_cast_int emm2 in
  let emm0 := t_and emm2 (t_set1_int 4) in
  let swap_sign_bit_sin := t_sll (width f - 3) emm0 in
  let emm2 := t_and emm2 (t_set1_int 2) in
  let poly_mask := t_cmpeq_int emm2 (t_set1_int 0) in
  let x := p_reduced x y in
  let sign_bit_sin := t_xor sign_bit_sin swap_sign_bit_sin in
  let z := t_mul x x in
  let y := p_cos_poly z in
  let y2 := p_sin_poly z x in
  let ysin2 := t_and poly_mask y2 in
  let ysin1 := t_andnot y poly_mask in
  let xmm1 := t_add ysin1 ysin2 in
  t_xor xmm1 sign_bit_sin.

End Packets.

(** ** Instructions on numbers

    Lanes are words; a result that is not a number has one of the words for NaN. *)

Definition ps_op (g : spec_float → spec_float → spec_float) : list Z → list Z → list Z :=
  zip_with (λ a b, to_bits binary32 (g (of_bits binary32 a) (of_bits binary32 b))).
Definition pd_op (g : spec_float → spec_float → spec_float) : list Z → list Z → list Z :=
  lanewise64 (λ a b, to_bits binary64 (g (of_bits binary64 a) (of_bits binary64 b))).

Definition add_pd : list Z → list Z → list Z := pd_op (SFadd 53 1024).
Definition sub_pd : list Z → list Z → list Z := pd_op (SFsub 53 1024).

(** [_mm_set1_pd]. *)
Definition set1_pd (n : nat) (x : spec_float) : list Z := set1_epi64x n (to_bits binary64 x).

(** The greatest integer that is not above a number. *)
Definition floor_sf (x : spec_float) : spec_float :=
  match x with
  | S754_finite s m e =>
      if 0 <=? e then x
      else
        let z := (if s then - Z.pos m else Z.pos m) / 2 ^ (- e) in
        binary_normalize 53 1024 z 0 s
  | _ => x
  end.
Definition floor_pd (a : list Z) : list Z :=
  of64 ((λ x, to_bits binary64 (floor_sf (of_bits binary64 x))) <$> to64 a).

(** Addition with rounding toward minus infinity ([_MM_ROUND_DOWN]): the exact
    sum [n * 2 ^ e], cut off below its leading 53 bits. *)
Definition round_down (n e : Z) : spec_float :=
  let k := Z.max 0 (Z.max (Zdigits2 n - 53) (emin 53 1024 - e)) in
  binary_normalize 53 1024 (n / 2 ^ k) (e + k) true.
Definition SFadd_down (x y : spec_float) : spec_float :=
  match x, y with
  | S754_finite sx mx ex, S754_finite sy my ey =>
      let ez := Z.min ex ey in
      round_down (cond_Zopp sx (Z.pos mx * 2 ^ (ex - ez)) + cond_Zopp sy (Z.pos my * 2 ^ (ey - ez))) ez
  | _, _ => SFadd 53 1024 x y
  end.
Definition add_pd_down : list Z → list Z → list Z := pd_op SFadd_down.

(** ** Conversions of doubles *)

(** [0x0018000000000000] as a number, 2 ^ 52 + 2 ^ 51. *)
Definition magic : spec_float := S754_finite false 6755399441055744 0.

(** [0x0010000000000000] as a number, 2 ^ 52. *)
Definition magic52 : spec_float := S754_finite false 4503599627370496 0.

Module SSEDouble.
Section Code.
Context `{EigenPackets}.

Definition uint64_to_double (x : list Z) : list Z :=
  let x := or_si x (set1_pd 2 magic52) in
  sub_pd x (set1_pd 2 magic52).
Definition int64_to_double (x : list Z) : list Z :=
  let x := add_epi64 x (set1_pd 2 magic) in
  sub_pd x (set1_pd 2 magic).
Definition double_to_int64 (x : list Z) : list Z :=
  let x := add_pd_down x (set1_pd 2 magic) in
  sub_epi64 x (set1_pd 2 magic).

End Code.
End SSEDouble.

Module AVXDouble.
Section Code.
Context `{EigenPackets} (fx : features).

Definition uint64_to_double (x : list Z) : list Z :=
  let y := or_si x (set1_pd 4 magic52) in
  sub_pd y (set1_pd 4 magic52).
Definition int64_to_double (x : list Z) : list Z :=
  let x := AVX.padd64 fx x (set1_pd 4 magic) in
  sub_pd x (set1_pd 4 magic).
Definition double_to_int64 (x : list Z) : list Z :=
  let x := add_pd (floor_pd x) (set1_pd 4 magic) in
  AVX.psub64 fx x (set1_pd 4 magic).

End Code.
End AVXDouble.

Module AVX512Double.

Definition int64_to_double_avx512 (x : list Z) : list Z :=
  let x := add_epi64 x (set1_pd 8 magic) in
  sub_pd x (set1_pd 8 magic).
Definition double_to_int64_avx512 (x : list Z) : list Z :=
  let x := add_pd (floor_pd x) (set1_pd 8 magic) in
  sub_epi64 x (set1_pd 8 magic).

End AVX512Double.

(** NEON has instructions: [vcvtq_s64_f64] cuts a number off and saturates, and
    [vcvtq_f64_s64] rounds to nearest. *)
Module NEONDouble.

Definition vcvt_s64_f64 (w : Z) : Z :=
  match of_bits binary64 w with
  | S754_infinity s => if s then 2 ^ 63 else 2 ^ 63 - 1
  | x =>
      match b64_trunc x with
      | Some j => u64 (Z.max (- 2 ^ 63) (Z.min (2 ^ 63 - 1) j))
      | None => 0
      end
  end.
Definition pcast64_2d (a : list Z) : list Z := of64 (vcvt_s64_f64 <$> to64 a).
Definition pcast64_4i (a : list Z) : list Z :=
  of64 ((λ x, to_bits binary64 (binary_normalize 53 1024 (signed 64 x) 0 false)) <$> to64 a).

End NEONDouble.

(** ** The packet types *)

(** Eigen's operations on packets of numbers; [e_andnot] is [pnew_andnot], which
    hides that older versions of Eigen have [pandnot] the other way round. *)
Class EigenTrig := {
  e_set1_ps : nat → spec_float → list Z;
  e_abs_ps : list Z → list Z;
  e_add_ps : list Z → list Z → list Z;
  e_sub_ps : list Z → list Z → list Z;
  e_mul_ps : list Z → list Z → list Z;
  e_cast_ps : list Z → list Z;
  e_cast_epi32 : list Z → list Z;
  e_set1_pd : nat → spec_float → list Z;
  e_abs_pd : list Z → list Z;
  e_add_pd : list Z → list Z → list Z;
  e_sub_pd : list Z → list Z → list Z;
  e_mul_pd : list Z → list Z → list Z;
  e_andnot : list Z → list Z → list Z;    (* the first and not the second *)
}.

Section Types.
Context `{EigenPackets} `{EigenTrig} (fx : features).

(** [Packet4f] and [Packet8f] have [k] lanes of 64 bits, that is [2 * k] numbers. *)
Definition float_packet (k : nat) (pcmpeq : list Z → list Z → list Z) (psll : Z → list Z → list Z) :
    TrigPacket binary32 := {|
  t_size := k; t_words r := r;
  t_set1 := e_set1_ps (2 * k); t_abs := e_abs_ps; t_add := e_add_ps; t_sub := e_sub_ps; t_mul := e_mul_ps;
  t_cast := e_cast_ps; t_cast_int := e_cast_epi32;
  t_set1_int := pset1 (2 * k); t_add_int := padd; t_sub_int := psub;
  t_cmpeq_int := pcmpeq; t_sll := psll;
  t_and := pand; t_xor := pxor; t_andnot := e_andnot;
|}.
Definition packet4f : TrigPacket binary32 := float_packet 2 SSE.pcmpeq SSE.psll.
Definition packet8f : TrigPacket binary32 := float_packet 4 (AVX.pcmpeq fx) (AVX.psll fx).

Definition double_packet (k : nat) (double_to_int64 int64_to_double : list Z → list Z) (pseti64 : Z → list Z)
    (padd64 psub64 pcmpeq64 : list Z → list Z → list Z) (psll64 : Z → list Z → list Z) :
    TrigPacket binary64 := {|
  t_size := k; t_words := to64;
  t_set1 := e_set1_pd k; t_abs := e_abs_pd; t_add := e_add_pd; t_sub := e_sub_pd; t_mul := e_mul_pd;
  t_cast := double_to_int64; t_cast_int := int64_to_double;
  t_set1_int := pseti64; t_add_int := padd64; t_sub_int := psub64;
  t_cmpeq_int := pcmpeq64; t_sll := psll64;
  t_and := pand; t_xor := pxor; t_andnot := e_andnot;
|}.
Definition packet2d : TrigPacket binary64 :=
  double_packet 2 SSEDouble.double_to_int64 SSEDouble.int64_to_double SSE.pseti64 SSE.padd64 SSE.psub64
    (SSE.pcmpeq64 fx) SSE.psll64.
Definition packet4d : TrigPacket binary64 :=
  double_packet 4 (AVXDouble.double_to_int64 fx) (AVXDouble.int64_to_double fx) AVX.pseti64 (AVX.padd64 fx) (AVX.psub64 fx)
    (AVX.pcmpeq64 fx) (AVX.psll64 fx).

End Types.
