(* ===== verification/SinCosLanes.v ===== *)
(** [psincos] and [_psin] on the bits of packets compute [sincos] in every lane:
    the masks select a polynomial, and the shifted bits of the octant are signs. *)

From S2P Require Import Prelude.
From S2P Require Import Simd.
From S2P Require Import PacketMath.
From S2P Require Import PacketMathProps.
From S2P Require Import FloatBits.
From Stdlib Require Import SpecFloat.
From S2P Require Import Num.
From S2P Require Import FloatBitsProps.
From S2P Require Import FloatNum.
From S2P Require Import SinCos.

(** ** Laws of the packet types *)

Section Laws.
Context {f : format} `{TrigPacket f}.

Definition t_word (r : list Z) (i : nat) : Z := nth i (t_words r) 0.
Definition t_val (r : list Z) (i : nat) : spec_float := of_bits f (t_word r i).

(** A lane of a binary operation. *)
Definition lanes_int (g : Z → Z → Z) (op : list Z → list Z → list Z) (n : nat) : Prop :=
  ∀ a b, register t_size a → register t_size b →
    register t_size (op a b) ∧ ∀ i, (i < n)%nat → t_word (op a b) i = g (t_word a i) (t_word b i).
Definition lanes_num (g : spec_float → spec_float → spec_float) (op : list Z → list Z → list Z) (n : nat) : Prop :=
  ∀ a b, register t_size a → register t_size b →
    register t_size (op a b) ∧ ∀ i, (i < n)%nat → t_val (op a b) i = g (t_val a i) (t_val b i).

(** For [n] lanes; integers below [bound] are converted exactly. *)
Record TrigPacketLaws (n : nat) (bound : Z) : Prop := {
  t_word_range r i : register t_size r → word (width f) (t_word r i);
  t_set1_law x : canonical binary64 x →
    register t_size (t_set1 x) ∧ ∀ i, (i < n)%nat → t_val (t_set1 x) i = convert f x;
  t_abs_law a : register t_size a →
    register t_size (t_abs a) ∧ ∀ i, (i < n)%nat → t_val (t_abs a) i = SFabs (t_val a i);
  t_add_law : lanes_num (SFadd (prec f) (emax f)) t_add n;
  t_sub_law : lanes_num (SFsub (prec f) (emax f)) t_sub n;
  t_mul_law : lanes_num (SFmul (prec f) (emax f)) t_mul n;
  t_cast_reg a : register t_size a → register t_size (t_cast a);
  t_cast_law a i j : register t_size a → (i < n)%nat → Z.testbit (t_word a i) (width f - 1) = false →
    b64_trunc (t_val a i) = Some j → 0 <= j < bound → t_word (t_cast a) i = j;
  t_cast_int_reg a : register t_size a → register t_size (t_cast_int a);
  t_cast_int_law a i : register t_size a → (i < n)%nat → 0 <= t_word a i <= bound →
    t_val (t_cast_int a) i = binary_normalize (prec f) (emax f) (t_word a i) 0 false;
  t_set1_int_law z : register t_size (t_set1_int z) ∧ ∀ i, (i < n)%nat → t_word (t_set1_int z) i = z mod 2 ^ width f;
  t_add_int_law : lanes_int (λ a b, (a + b) mod 2 ^ width f) t_add_int n;
  t_sub_int_law : lanes_int (λ a b, (a - b) mod 2 ^ width f) t_sub_int n;
  t_cmpeq_law : lanes_int (λ a b, mask (width f) (a =? b)) t_cmpeq_int n;
  t_sll_law b a : 0 <= b < width f → register t_size a →
    register t_size (t_sll b a) ∧ ∀ i, (i < n)%nat → t_word (t_sll b a) i = sll (width f) b (t_word a i);
  t_and_law : lanes_int Z.land t_and n;
  t_xor_law : lanes_int Z.lxor t_xor n;
  t_andnot_law : lanes_int (λ a b, Z.land a (mask (width f) true - b)) t_andnot n;
  t_bound : 0 < bound <= 2 ^ (width f - 1) - 2;
}.

End Laws.

(** ** Words *)

Section Words.
Context (f : format) (Hf : ieee f).

Lemma width_large : 3 <= width f.
Proof. by destruct Hf as [->| ->]; vm_compute. Qed.

Lemma four_over_pi : ∃ m e, literal f 127323954473516 14 = S754_finite false m e.
Proof. destruct Hf as [->| ->]; vm_compute; by eexists _, _. Qed.

Lemma land_mask_select b x : word (width f) x → Z.land (mask (width f) b) x = if b then x else 0.
Proof.
  ieee Hf. intros Hx. rewrite Z.land_comm. destruct b; [|apply Z.land_0_r]. apply land_mask; [lia|done].
Qed.

Lemma andnot_mask_select b x : word (width f) x →
  Z.land x (mask (width f) true - mask (width f) b) = if b then 0 else x.
Proof.
  ieee Hf. intros Hx. destruct b; [by rewrite Z.sub_diag, Z.land_0_r|]. cbn [mask]. rewrite Z.sub_0_r.
  apply (land_mask (width f)); [lia|done].
Qed.

(** Bit 2, shifted to the sign. *)
Lemma sll_bit2 x : sll (width f) (width f - 3) (Z.land x 4) = if Z.testbit x 2 then sign_mask f else 0.
Proof.
  ieee Hf. pose proof width_large.
  assert (Z.land x 4 = if Z.testbit x 2 then 4 else 0) as ->.
  { change 4 with (2 ^ 2). apply Z.bits_inj'. intros k Hk. rewrite Z.land_spec, Z.pow2_bits_eqb by done.
    destruct (Z.eqb_spec 2 k) as [<-|Hne].
    - destruct (Z.testbit x 2); [by rewrite Z.pow2_bits_eqb|by rewrite Z.bits_0].
    - rewrite andb_false_r. destruct (Z.testbit x 2); [|by rewrite Z.bits_0]. rewrite Z.pow2_bits_eqb by done.
      symmetry. by apply Z.eqb_neq. }
  unfold sll, sign_mask. destruct (Z.testbit x 2); [|by rewrite Z.shiftl_0_l].
  rewrite Z.shiftl_mul_pow2 by lia. change 4 with (2 ^ 2). rewrite <-Z.pow_add_r by lia.
  replace (2 + (width f - 3)) with (width f - 1) by lia. apply Z.mod_small.
  split; [apply Z.pow_nonneg; lia|apply Z.pow_lt_mono_r; lia].
Qed.

Lemma testbit_word x k : 0 <= k < width f → Z.testbit (x mod 2 ^ width f) k = Z.testbit x k.
Proof. intros Hk. apply Z.mod_pow2_bits_low. lia. Qed.

(** The even number [j = (j0 + 1) & ~1], as a word. *)
Lemma even_word j0 : 0 <= j0 < 2 ^ (width f - 1) - 2 →
  Z.land ((j0 + 1 mod 2 ^ width f) mod 2 ^ width f) ((-2) mod 2 ^ width f) = Z.land (j0 + 1) (-2) ∧
  0 <= Z.land (j0 + 1) (-2) <= j0 + 1.
Proof.
  ieee Hf. intros Hj. assert (2 ^ width f = 2 * 2 ^ (width f - 1)) as Hw by (rewrite <-Z.pow_succ_r by lia; f_equal; lia).
  assert (0 < 2 ^ (width f - 1)) by (apply Z.pow_pos_nonneg; lia).
  rewrite (Z.mod_small 1), (Z.mod_small (j0 + 1)) by lia.
  assert (0 <= Z.land (j0 + 1) (-2) <= j0 + 1) as Hr.
  { split; [apply Z.land_nonneg; lia|]. apply Z.ldiff_le; [lia|]. rewrite Z.ldiff_land.
    apply Z.bits_inj'. intros k Hk. rewrite !Z.land_spec, Z.lnot_spec, Z.bits_0 by done.
    by destruct (Z.testbit (j0 + 1) k), (Z.testbit (-2) k). }
  split; [|done]. rewrite <-(Z.mod_small (Z.land (j0 + 1) (-2)) (2 ^ width f)) by lia.
  apply Z.bits_inj'. intros k Hk. destruct (decide (k < width f)).
  - rewrite testbit_word, !Z.land_spec, testbit_word by lia. done.
  - rewrite Z.land_spec, !(Z.mod_pow2_bits_high _ (width f)) by lia. apply andb_false_r.
Qed.

(** The complement has the other bit. *)
Lemma testbit_complement x k : word (width f) x → 0 <= k < width f →
  Z.testbit (mask (width f) true - x) k = negb (Z.testbit x k).
Proof.
  ieee Hf. intros Hx Hk. unfold mask. replace (2 ^ width f - 1 - x) with (Z.ones (width f) - x) by (rewrite Z.ones_equiv; lia).
  assert (Z.ones (width f) - x = Z.lxor (Z.ones (width f)) x) as ->.
  { rewrite Z.sub_nocarry_ldiff.
    - rewrite Z.ldiff_land. apply Z.bits_inj'. intros q Hq. rewrite Z.land_spec, Z.lxor_spec, Z.lnot_spec by done.
      destruct (decide (q < width f)); [rewrite Z.ones_spec_low by lia; by destruct (Z.testbit x q)|].
      rewrite Z.ones_spec_high by lia. apply (word_bits (width f)) in Hx as [_ Hb]; [|lia]. by rewrite Hb by lia.
    - apply Z.bits_inj'. intros q Hq. rewrite Z.ldiff_spec, Z.bits_0. destruct (decide (q < width f)).
      + rewrite Z.ones_spec_low by lia. by destruct (Z.testbit x q).
      + apply (word_bits (width f)) in Hx as [_ Hb]; [|lia]. by rewrite Hb by lia. }
  rewrite Z.lxor_spec, Z.ones_spec_low by lia. done.
Qed.

End Words.

(** ** Signs *)

Definition sf_sign (x : spec_float) : bool :=
  match x with
  | S754_zero s | S754_infinity s | S754_finite s _ _ => s
  | S754_nan => false
  end.

Section Signs.
Context (f : format) (Hf : ieee f).

Lemma round_aux_sign m e l : sf_sign (binary_round_aux (prec f) (emax f) false m e l) = false.
Proof. unfold binary_round_aux. repeat case_match; done. Qed.

Lemma mul_abs_sign x m e : sf_sign (SFmul (prec f) (emax f) (SFabs x) (S754_finite false m e)) = false.
Proof. destruct x; try done. apply round_aux_sign. Qed.

(** The sign bit of a word that is a number. *)
Lemma sign_of_word w j : b64_trunc (of_bits f w) = Some j → Z.testbit w (width f - 1) = sf_sign (of_bits f w).
Proof.
  ieee Hf. rewrite (of_bits_magnitude f Hf). replace (mant f + expo f) with (width f - 1) by lia.
  unfold magnitude. repeat case_match; done.
Qed.

Lemma trunc_nonneg x j : sf_sign x = false → b64_trunc x = Some j → 0 <= j.
Proof.
  destruct x as [s|s| |s m e]; cbn; intros Hs Hj; try done; subst; injection Hj as <-; [lia|].
  case_match; [apply Z.mul_nonneg_nonneg; [lia|apply Z.pow_nonneg; lia]|apply Z.div_pos; [lia|apply Z.pow_pos_nonneg; lia]].
Qed.

End Signs.

(** ** One lane *)

Section Lane.
Context {f : format} (Hf : ieee f) `{TrigPacket f} {n : nat} {bound : Z} (HL : TrigPacketLaws n bound).
Context (i : nat) (Hi : (i < n)%nat).

(** The lane holds a number, or a word. *)
Definition num (r : list Z) (v : spec_float) : Prop := register t_size r ∧ t_val r i = v.
Definition int (r : list Z) (z : Z) : Prop := register t_size r ∧ t_word r i = z.

Lemma num_op g op a b u v : lanes_num g op n → num a u → num b v → num (op a b) (g u v).
Proof.
  intros Hop [Ha <-] [Hb <-]. destruct (Hop a b Ha Hb) as [Hr Hv]. split; [done|by apply Hv].
Qed.

Lemma int_op g op a b u v : lanes_int g op n → int a u → int b v → int (op a b) (g u v).
Proof.
  intros Hop [Ha <-] [Hb <-]. destruct (Hop a b Ha Hb) as [Hr Hv]. split; [done|by apply Hv].
Qed.

Definition num_add := λ a b u v, num_op _ _ a b u v (t_add_law _ _ HL).
Definition num_sub := λ a b u v, num_op _ _ a b u v (t_sub_law _ _ HL).
Definition num_mul := λ a b u v, num_op _ _ a b u v (t_mul_law _ _ HL).

Lemma num_set1 a k : canonical binary64 (decimal a k) → num (t_set1 (decimal a k)) (literal f a k).
Proof. intros Hc. destruct (t_set1_law _ _ HL _ Hc) as [Hr Hv]. split; [done|by apply Hv]. Qed.

Lemma int_set1 z : int (t_set1_int z) (z mod 2 ^ width f).
Proof. destruct (t_set1_int_law _ _ HL z) as [Hr Hv]. split; [done|by apply Hv]. Qed.

Lemma num_abs a u : num a u → num (t_abs a) (SFabs u).
Proof. intros [Ha <-]. destruct (t_abs_law _ _ HL a Ha) as [Hr Hv]. split; [done|by apply Hv]. Qed.

Lemma int_sll b a u : 0 <= b < width f → int a u → int (t_sll b a) (sll (width f) b u).
Proof. intros Hb [Ha <-]. destruct (t_sll_law _ _ HL b a Hb Ha) as [Hr Hv]. split; [done|by apply Hv]. Qed.

(** A lane as a number and as a word. *)
Lemma num_int a u : num a u → ∃ z, int a z ∧ word (width f) z ∧ of_bits f z = u.
Proof.
  intros [Ha <-]. exists (t_word a i). split; [by split|]. split; [|done]. by apply (t_word_range _ _ HL).
Qed.

Lemma int_num a z : int a z → num a (of_bits f z).
Proof. intros [Ha <-]. by split. Qed.

Lemma num_xor_sign a b u (s : bool) : num a u → int b (if s then sign_mask f else 0) →
  num (t_xor a b) (if s then SFopp u else u).
Proof.
  intros Ha Hb. destruct (num_int a u Ha) as (z & Hz & _ & <-).
  rewrite <-(of_bits_xor_sign f Hf). apply int_num, (int_op _ _ _ _ _ _ (t_xor_law _ _ HL)); done.
Qed.

Lemma num_and_mask a m u (p : bool) : int m (mask (width f) p) → num a u → num (t_and m a) (if p then u else S754_zero false).
Proof.
  intros Hm Ha. destruct (num_int a u Ha) as (z & Hz & Hw & <-).
  pose proof (int_op _ _ _ _ _ _ (t_and_law _ _ HL) Hm Hz) as Hr. rewrite (land_mask_select f Hf) in Hr by done.
  apply int_num in Hr. destruct p; [done|]. by rewrite (of_bits_zero f Hf) in Hr.
Qed.

Lemma num_andnot_mask a m u (p : bool) : int m (mask (width f) p) → num a u → num (t_andnot a m) (if p then S754_zero false else u).
Proof.
  intros Hm Ha. destruct (num_int a u Ha) as (z & Hz & Hw & <-).
  pose proof (int_op _ _ _ _ _ _ (t_andnot_law _ _ HL) Hz Hm) as Hr. cbn beta in Hr. rewrite (andnot_mask_select f Hf) in Hr by done.
  apply int_num in Hr. destruct p; [|done]. by rewrite (of_bits_zero f Hf) in Hr.
Qed.

(** ** The steps *)

#[local] Instance arithmetic : Num spec_float := format_num f.
#[local] Abbreviation lit := (literal f).

Ltac num_step :=
  first [eassumption | apply num_add | apply num_sub | apply num_mul
    | apply num_set1; vm_compute; (left + right); by split_and!].

Lemma p_cos_poly_ok z u : num z u → num (p_cos_poly z) (cos_poly lit u).
Proof. intros Hz. unfold p_cos_poly, cos_poly. repeat num_step. Qed.

Lemma p_sin_poly_ok z x u v : num z u → num x v → num (p_sin_poly z x) (sin_poly lit u v).
Proof. intros Hz Hx. unfold p_sin_poly, sin_poly. repeat num_step. Qed.

Lemma p_reduced_ok x y u v j : num x (SFabs u) → num y v → v = binary_normalize (prec f) (emax f) j 0 false →
  num (p_reduced x y) (reduced lit SFabs u j).
Proof. intros Hx Hy ->. unfold p_reduced, reduced. repeat num_step. Qed.

(** The octant of a number that is not negative. *)
Lemma octant_int_ok y v j0 : num y v → sf_sign v = false → ftrunc v = Some j0 → Z.land (j0 + 1) (-2) < bound →
  int (t_and (t_add_int (t_cast y) (t_set1_int 1)) (t_set1_int (-2))) (Z.land (j0 + 1) (-2)) ∧ 0 <= Z.land (j0 + 1) (-2).
Proof.
  intros Hy Hs E Hlt. pose proof (trunc_nonneg _ _ Hs E) as Hj0. pose proof (t_bound _ _ HL) as Hb.
  set (j := Z.land (j0 + 1) (-2)) in *.
  assert (0 <= j ∧ j0 <= j) as [Hjpos Hj0j].
  { unfold j. pose proof (Z.land_nonneg (j0 + 1) (-2)). split; [lia|].
    rewrite (Z.land_comm _ (-2)). change (-2) with (Z.lnot (Z.ones 1)). rewrite Z.land_comm, <-Z.ldiff_land, Z.ldiff_ones_r by lia.
    rewrite Z.shiftr_div_pow2, Z.shiftl_mul_pow2, Z.pow_1_r by lia. pose proof (Z.div_mod (j0 + 1) 2 ltac:(lia)).
    pose proof (Z.mod_pos_bound (j0 + 1) 2 ltac:(lia)). lia. }
  split; [|done]. destruct (num_int y _ Hy) as (w & [Hyr Hw] & _ & Hwv).
  assert (int (t_cast y) j0) as Hcast.
  { split; [by apply (t_cast_reg _ _ HL)|]. apply (t_cast_law _ _ HL); [done|done| |unfold t_val; by rewrite Hw, Hwv|lia].
    rewrite Hw, (sign_of_word f Hf w j0) by (by rewrite Hwv). by rewrite Hwv. }
  pose proof (int_op _ _ _ _ _ _ (t_add_int_law _ _ HL) Hcast (int_set1 1)) as Hadd.
  pose proof (int_op _ _ _ _ _ _ (t_and_law _ _ HL) Hadd (int_set1 (-2))) as Hand. cbn beta in Hand.
  by rewrite (proj1 (even_word f Hf j0 ltac:(lia))) in Hand.
Qed.

Lemma p_octant_ok x u j : num x (SFabs u) → octant lit SFabs u = Some j → j < bound → int (p_octant x) j ∧ 0 <= j.
Proof.
  intros Hx Hj Hlt. unfold octant in Hj. set (c := lit 127323954473516 14) in *.
  destruct (ftrunc (SFabs u * c)%num) as [j0|] eqn:E; [|done]. injection Hj as <-.
  destruct (four_over_pi f Hf) as (m & e & Hc). fold c in Hc.
  assert (sf_sign (SFabs u * c)%num = false) as Hs by (rewrite Hc; apply mul_abs_sign).
  apply (octant_int_ok _ (SFabs u * c)%num j0); [|exact Hs|exact E|exact Hlt].
  apply num_mul; [done|]. apply num_set1. vm_compute. left. by split_and!.
Qed.

(** The sign word of the sine. *)
Lemma sin_sign_ok x e u j : num x u → ftrunc u ≠ None → int e j → 0 <= j < bound →
  int (t_xor (pext_sign x) (t_sll (width f - 3) (t_and e (t_set1_int 4)))) (if xorb (sf_sign u) (Z.testbit j 2) then sign_mask f else 0).
Proof.
  intros Hx Hu He Hj. ieee Hf. pose proof (t_bound _ _ HL) as Hb. destruct (num_int x u Hx) as (w & Hw & Hwr & Hwu).
  pose proof (width_large f Hf).
  assert (int (pext_sign x) (if sf_sign u then sign_mask f else 0)) as Hsign.
  { unfold pext_sign. pose proof (int_op _ _ _ _ _ _ (t_and_law _ _ HL) Hw (int_set1 (2 ^ (width f - 1)))) as Ha.
    rewrite (Z.mod_small (2 ^ _)) in Ha by (split; [apply Z.pow_nonneg; lia|apply Z.pow_lt_mono_r; lia]).
    fold (sign_mask f) in Ha. rewrite (land_sign f Hf) in Ha. destruct (ftrunc u) as [t|] eqn:E; [|done].
    rewrite (sign_of_word f Hf w t) in Ha by (by rewrite Hwu). by rewrite Hwu in Ha. }
  assert (int (t_sll (width f - 3) (t_and e (t_set1_int 4))) (if Z.testbit j 2 then sign_mask f else 0)) as Hswap.
  { rewrite <-(sll_bit2 f Hf). apply int_sll; [lia|].
    pose proof (int_op _ _ _ _ _ _ (t_and_law _ _ HL) He (int_set1 4)) as Ha.
    assert (2 ^ 3 <= 2 ^ width f) as Hpow8 by (apply Z.pow_le_mono_r; lia). cbn in Hpow8.
    by rewrite (Z.mod_small 4) in Ha by lia. }
  pose proof (int_op _ _ _ _ _ _ (t_xor_law _ _ HL) Hsign Hswap) as Hxor.
  destruct (sf_sign u), (Z.testbit j 2); cbn [xorb] in *; by rewrite ?Z.lxor_nilpotent, ?Z.lxor_0_l, ?Z.lxor_0_r in Hxor.
Qed.

Lemma cos_sign_ok e j : int e j → 0 <= j < bound →
  int (t_sll (width f - 3) (t_andnot (t_set1_int 4) (t_sub_int e (t_set1_int 2)))) (if negb (Z.testbit (j - 2) 2) then sign_mask f else 0).
Proof.
  intros He Hj. ieee Hf. pose proof (width_large f Hf).
  pose proof (int_op _ _ _ _ _ _ (t_sub_int_law _ _ HL) He (int_set1 2)) as Hsub.
  pose proof (int_op _ _ _ _ _ _ (t_andnot_law _ _ HL) (int_set1 4) Hsub) as Hnot. cbn beta in Hnot.
  assert (2 ^ 3 <= 2 ^ width f) as Hpow8 by (apply Z.pow_le_mono_r; lia). cbn in Hpow8.
  rewrite (Z.mod_small 4), (Z.mod_small 2), Z.land_comm in Hnot by lia.
  apply (int_sll (width f - 3)) in Hnot; [|lia]. rewrite (sll_bit2 f Hf), (testbit_complement f Hf) in Hnot;
    [|apply Z.mod_pos_bound; lia|lia].
  by rewrite testbit_word in Hnot by lia.
Qed.

(** The mask that selects the polynomial of the sine. *)
Lemma poly_mask_ok e j : int e j → int (t_cmpeq_int (t_and e (t_set1_int 2)) (t_set1_int 0)) (mask (width f) (Z.land j 2 =? 0)).
Proof.
  intros He. ieee Hf. pose proof (width_large f Hf).
  assert (2 ^ 3 <= 2 ^ width f) as Hpow8 by (apply Z.pow_le_mono_r; lia). cbn in Hpow8.
  pose proof (int_op _ _ _ _ _ _ (t_and_law _ _ HL) He (int_set1 2)) as Ha.
  pose proof (int_op _ _ _ _ _ _ (t_cmpeq_law _ _ HL) Ha (int_set1 0)) as Hc. cbn beta in Hc.
  by rewrite (Z.mod_small 2), (Z.mod_small 0) in Hc by lia.
Qed.

(** Both results in the lane. *)
Lemma psincos_lane x u j : num x u → octant lit SFabs u = Some j → j < bound →
  num (psincos x).1 (sincos_at lit SFabs sf_sign u j).1 ∧ num (psincos x).2 (sincos_at lit SFabs sf_sign u j).2 ∧
  num (_psin x) (sincos_at lit SFabs sf_sign u j).1.
Proof.
  intros Hx Hj Hlt. pose proof (num_abs x u Hx) as Habs. destruct (p_octant_ok (t_abs x) u j Habs Hj Hlt) as [Ho Hpos].
  assert (ftrunc u ≠ None) as Hu.
  { unfold octant in Hj. destruct (four_over_pi f Hf) as (m & e & Hc). rewrite Hc in Hj. clear -Hj.
    destruct u; [discriminate|discriminate Hj|discriminate Hj|discriminate]. }
  pose proof (sin_sign_ok x _ u j Hx Hu Ho ltac:(lia)) as Hsin. pose proof (cos_sign_ok _ j Ho ltac:(lia)) as Hcos.
  pose proof (poly_mask_ok _ j Ho) as Hmask.
  assert (num (t_cast_int (p_octant (t_abs x))) (binary_normalize (prec f) (emax f) j 0 false)) as Hy.
  { destruct Ho as [Hr Hw]. split; [by apply (t_cast_int_reg _ _ HL)|]. rewrite <-Hw. apply (t_cast_int_law _ _ HL); [done|done|lia]. }
  pose proof (p_reduced_ok _ _ u _ j Habs Hy eq_refl) as Hred. set (r := reduced _ _ _ _) in *.
  pose proof (num_mul _ _ _ _ Hred Hred) as Hz.
  pose proof (p_cos_poly_ok _ _ Hz) as Hc. pose proof (p_sin_poly_ok _ _ _ _ Hz Hred) as Hs.
  pose proof (num_and_mask _ _ _ _ Hmask Hs) as Hsin2. pose proof (num_andnot_mask _ _ _ _ Hmask Hc) as Hsin1.
  unfold psincos, _psin, sincos_at. fold r. cbn [fst snd].
  split; [|split].
  - apply num_xor_sign; [|exact Hsin]. by apply num_add.
  - apply num_xor_sign; [|exact Hcos]. by apply num_add; apply num_sub.
  - apply num_xor_sign; [|exact Hsin]. by apply num_add.
Qed.

End Lane.
