(* ===== verification/SinCosPackets.v ===== *)
(** The packet types [Packet4f], [Packet8f], [Packet2d] and [Packet4d] have the
    lanes that [psincos] relies on; in particular the conversions between [double]
    and 64-bit integers by adding a large number are exact. *)

From S2P Require Import Prelude.
From S2P Require Import Simd.
From S2P Require Import PacketMath.
From S2P Require Import PacketMathProps.
From S2P Require Import FloatBits.
From Stdlib Require Import SpecFloat.
From S2P Require Import Num.
From S2P Require Import FloatBitsProps.
From S2P Require Import FloatNum.
From S2P Require Import SinCos.
From S2P Require Import SinCosLanes.

(** ** Conversions *)

Definition magicZ : Z := 6755399441055744.

Lemma magic_eq : magicZ = 2 ^ 52 + 2 ^ 51 ∧ to_bits binary64 magic = 1075 * 2 ^ 52 + 2 ^ 51 ∧ canonical binary64 magic.
Proof. split; [done|]. split; [done|]. left. by split_and!. Qed.

(** The words of the numbers around it. *)
Lemma magic_word j : - 2 ^ 51 <= j < 2 ^ 51 →
  let w := 1075 * 2 ^ 52 + (2 ^ 51 + j) in
  word 64 w ∧ of_bits binary64 w = S754_finite false (Z.to_pos (magicZ + j)) 0 ∧
  canonical binary64 (S754_finite false (Z.to_pos (magicZ + j)) 0) ∧
  to_bits binary64 (S754_finite false (Z.to_pos (magicZ + j)) 0) = w.
Proof.
  intros Hj w. pose proof (or_intror eq_refl : ieee binary64) as Hf.
  destruct (of_bits_word binary64 Hf false 1075 (2 ^ 51 + j)) as [Hw Hv]; [by vm_compute|cbn; lia|].
  cbn [Z.b2z] in *. rewrite Z.mul_0_l, Z.add_0_l in Hw, Hv. cbn [mant binary64] in Hv, Hw. fold w in Hw, Hv.
  destruct (magnitude_fields binary64 Hf false 1075 (2 ^ 51 + j)) as (_ & _ & Hm); [lia|cbn; lia|].
  cbn [mant binary64] in Hm. fold w in Hm. rewrite Hm in Hv. cbn -[Z.add Z.pow] in Hv.
  assert (2 ^ 51 + j + 2 ^ 52 = magicZ + j) as He by (unfold magicZ; lia). rewrite He in Hv.
  assert (0 < magicZ + j) as Hpos by (unfold magicZ; lia).
  destruct (magicZ + j) as [|p|p] eqn:E; [lia| |lia]. cbn [Z.to_pos].
  assert (canonical binary64 (S754_finite false p 0)) as Hc.
  { left. change (prec binary64) with 53. change (mant binary64) with 52. unfold magicZ in *.
    change (emax binary64) with 1024. change (emin 53 1024) with (-1074). lia. }
  split; [exact Hw|]. split; [exact Hv|]. split; [exact Hc|].
  unfold to_bits. change (mant binary64) with 52. change (expo binary64) with 11. change (bias binary64) with 1023.
  rewrite (proj2 (Z.ltb_ge _ _)) by (unfold magicZ in *; lia). cbn [Z.b2z]. unfold w, magicZ in *. lia.
Qed.

Lemma int64_to_double_ok z : word 64 z → - 2 ^ 51 <= signed 64 z < 2 ^ 51 →
  SFsub 53 1024 (of_bits binary64 (u64 (z + to_bits binary64 magic))) magic = binary_normalize 53 1024 (signed 64 z) 0 false.
Proof.
  intros Hz Hr. assert (u64 (z + to_bits binary64 magic) = 1075 * 2 ^ 52 + (2 ^ 51 + signed 64 z)) as ->.
  { destruct magic_eq as (_ & -> & _). unfold u64, word in *. unfold signed in *.
    destruct (Z.ltb_spec z (2 ^ (64 - 1))); [rewrite Z.mod_small; lia|].
    symmetry. apply (Z.mod_unique_pos _ _ 1); lia. }
  destruct (magic_word _ Hr) as (_ & -> & _). unfold SFsub, magic. rewrite Z.min_id. unfold shl_align. rewrite Z.sub_diag.
  cbn [fst cond_Zopp]. rewrite Z2Pos.id by (unfold magicZ; lia). f_equal. unfold magicZ. lia.
Qed.

Lemma shl_align_value m e ez : ez <= e → Z.pos (fst (shl_align m e ez)) = Z.pos m * 2 ^ (e - ez).
Proof.
  intros He. unfold shl_align. destruct (ez - e) as [|d|d] eqn:E; [|lia|].
  - replace (e - ez) with 0 by lia. cbn. lia.
  - cbn [fst]. destruct (iter_xO m d) as [-> _]. do 2 f_equal. lia.
Qed.

(** The magic number plus a number [n * 2 ^ e] with the integer part [j]. *)
Lemma magic_sum n e j s : e <= 0 → 0 <= j < 2 ^ 51 → n = j * 2 ^ (- e) →
  binary_normalize 53 1024 (n + magicZ * 2 ^ (- e)) e s = S754_finite false (Z.to_pos (magicZ + j)) 0.
Proof.
  intros He Hj ->. pose proof (or_intror eq_refl : ieee binary64) as Hf.
  destruct (magic_word j) as (_ & _ & Hc & _); [lia|].
  apply (normalize_value binary64 Hf); [done|]. rewrite Z.min_r, Z.sub_diag, Z.pow_0_r, Z.mul_1_r by lia.
  rewrite Z2Pos.id by (unfold magicZ; lia). rewrite Z.sub_0_l. lia.
Qed.

Lemma add_magic v j : is_num v j 0 → 0 <= j < 2 ^ 51 →
  SFadd 53 1024 v magic = S754_finite false (Z.to_pos (magicZ + j)) 0.
Proof.
  intros Hv Hj. destruct v as [s|s| |[] m e]; try done.
  - cbn in Hv. subst j. done.
  - cbn [is_num] in Hv. unfold SFadd, magic. fold magicZ. cbn [cond_Zopp].
    rewrite !shl_align_value by lia. change 6755399441055744 with magicZ.
    rewrite Z.sub_0_l. apply magic_sum; [lia|done|].
    destruct (Z.min_spec 0 e) as [[Hlt Hmin]|[Hle Hmin]]; rewrite Hmin in Hv.
    + rewrite Z.min_r by lia. rewrite !Z.sub_0_r in *. cbn in *. lia.
    + rewrite Z.min_l by lia. rewrite Z.sub_diag in *. by rewrite Z.sub_0_l in Hv.
Qed.

(** The floor of a number that is not negative. *)
Lemma floor_ok v j : sf_sign v = false → b64_trunc v = Some j → 0 <= j < 2 ^ 51 → is_num (floor_sf v) j 0.
Proof.
  intros Hs Hj Hr. destruct v as [s|s| |s m e]; cbn in Hs; try done; subst.
  - cbn in Hj. injection Hj as <-. done.
  - cbn in Hj. injection Hj as Hj. unfold floor_sf. destruct (Z.leb_spec 0 e).
    + cbn [is_num]. rewrite Z.min_l, !Z.sub_0_r by lia. cbn. lia.
    + rewrite Hj. apply normalize_exact; [lia|lia|by vm_compute].
Qed.

Lemma add_magic_down v j : sf_sign v = false → b64_trunc v = Some j → 0 <= j < 2 ^ 51 →
  SFadd_down v magic = S754_finite false (Z.to_pos (magicZ + j)) 0.
Proof.
  intros Hs Hj Hr. destruct v as [s|s| |s m e]; cbn in Hs; try done; subst.
  - cbn in Hj. injection Hj as <-. done.
  - cbn in Hj. injection Hj as Hj. unfold SFadd_down, magic. cbn [cond_Zopp]. change 6755399441055744 with magicZ.
    destruct (Z.leb_spec 0 e).
    + rewrite Z.min_r by lia. rewrite !Z.sub_0_r. change (2 ^ 0) with 1. rewrite Z.mul_1_r, Hj.
      unfold round_down.
      assert (Zdigits2 (j + magicZ) = 53) as ->.
      { pose proof (digits_ge (j + magicZ) 52). pose proof (digits_le (j + magicZ) 53). unfold magicZ in *. lia. }
      change (Z.max 0 (Z.max (53 - 53) (emin 53 1024 - 0))) with 0. rewrite Z.pow_0_r, Z.div_1_r, Z.add_0_r.
      pose proof (magic_sum j 0 j true) as Hm. rewrite Z.pow_0_r, !Z.mul_1_r in Hm. by apply Hm.
    + rewrite Z.min_l by lia. rewrite Z.sub_diag, Z.pow_0_r, Z.mul_1_r, Z.sub_0_l.
      assert (0 < 2 ^ (- e)) as Hp by (apply Z.pow_pos_nonneg; lia).
      assert ((Z.pos m + magicZ * 2 ^ (- e)) / 2 ^ (- e) = j + magicZ) as Hq by (by rewrite Z.div_add, Hj by lia).
      unfold round_down.
      assert (Zdigits2 (Z.pos m + magicZ * 2 ^ (- e)) = 53 - e) as ->.
      { assert (Z.pos m < 2 ^ 51 * 2 ^ (- e)) as Hm.
        { pose proof (Z.div_mod (Z.pos m) (2 ^ (- e))). pose proof (Z.mod_pos_bound (Z.pos m) (2 ^ (- e))). nia. }
        pose proof (digits_ge (Z.pos m + magicZ * 2 ^ (- e)) (52 - e) ltac:(lia)) as Hge.
        pose proof (digits_le (Z.pos m + magicZ * 2 ^ (- e)) (53 - e)) as Hle.
        replace (52 - e) with (52 + - e) in Hge by lia. replace (53 - e) with (53 + - e) in Hle by lia.
        rewrite Z.pow_add_r in Hge, Hle by lia. unfold magicZ in *. lia. }
      assert (Z.max 0 (Z.max (53 - e - 53) (emin 53 1024 - e)) = - e) as ->
        by (change (emin 53 1024) with (-1074); lia).
      rewrite Hq. replace (e + - e) with 0 by lia.
      pose proof (magic_sum j 0 j true) as Hm. rewrite Z.pow_0_r, !Z.mul_1_r in Hm. by apply Hm.
Qed.

Lemma subtract_magic j : 0 <= j < 2 ^ 51 →
  u64 (to_bits binary64 (S754_finite false (Z.to_pos (magicZ + j)) 0) - to_bits binary64 magic) = j.
Proof.
  intros Hj. destruct (magic_word j) as (_ & _ & _ & ->); [lia|]. destruct magic_eq as (_ & -> & _).
  unfold u64. replace (_ - _) with j by lia. apply Z.mod_small. lia.
Qed.

(** ** Eigen's operations *)

(** The numbers in a register. *)
Definition ps (r : list Z) : list spec_float := of_bits binary32 <$> r.
Definition pd (r : list Z) : list spec_float := of_bits binary64 <$> to64 r.

Definition lanes_ps (op : list Z → list Z → list Z) (g : spec_float → spec_float → spec_float) : Prop :=
  ∀ k a b, register k a → register k b → register k (op a b) ∧ ps (op a b) = zip_with g (ps a) (ps b).
Definition lanes_pd (op : list Z → list Z → list Z) (g : spec_float → spec_float → spec_float) : Prop :=
  ∀ k a b, register k a → register k b → register k (op a b) ∧ pd (op a b) = zip_with g (pd a) (pd b).

(** Their documentation: the operation of the scalars in every lane; a number is
    cut off by the conversion to [int], where it is in the range of that. *)
Class EigenTrigLaws `{EigenTrig} : Prop := {
  e_set1_ps_law k x : canonical binary64 x →
    register k (e_set1_ps (2 * k) x) ∧ ps (e_set1_ps (2 * k) x) = replicate (2 * k) (convert binary32 x);
  e_abs_ps_law k a : register k a → register k (e_abs_ps a) ∧ ps (e_abs_ps a) = SFabs <$> ps a;
  e_add_ps_law : lanes_ps e_add_ps (SFadd 24 128);
  e_sub_ps_law : lanes_ps e_sub_ps (SFsub 24 128);
  e_mul_ps_law : lanes_ps e_mul_ps (SFmul 24 128);
  e_cast_ps_law k a : register k a → register k (e_cast_ps a) ∧
    ∀ i v j, ps a !! i = Some v → b64_trunc v = Some j → in_int j = true → e_cast_ps a !! i = Some (u32 j);
  e_cast_epi32_law k a : register k a → register k (e_cast_epi32 a) ∧
    ps (e_cast_epi32 a) = (λ x, binary_normalize 24 128 (signed 32 x) 0 false) <$> a;
  e_set1_pd_law k x : canonical binary64 x → register k (e_set1_pd k x) ∧ pd (e_set1_pd k x) = replicate k x;
  e_abs_pd_law k a : register k a → register k (e_abs_pd a) ∧ pd (e_abs_pd a) = SFabs <$> pd a;
  e_add_pd_law : lanes_pd e_add_pd (SFadd 53 1024);
  e_sub_pd_law : lanes_pd e_sub_pd (SFsub 53 1024);
  e_mul_pd_law : lanes_pd e_mul_pd (SFmul 53 1024);
  e_andnot_law k a b : register k a → register k b →
    e_andnot a b = zip_with (λ x y, Z.land x (mask 32 true - y)) a b;
}.

Lemma nth_zip_with {A B C} (g : A → B → C) l k i da db dc : (i < length l)%nat → (i < length k)%nat →
  nth i (zip_with g l k) dc = g (nth i l da) (nth i k db).
Proof.
  intros Hl Hk. destruct (lookup_lt_is_Some_2 l i Hl) as [x Hx], (lookup_lt_is_Some_2 k i Hk) as [y Hy].
  by rewrite !nth_lookup, lookup_zip_with, Hx, Hy.
Qed.

Lemma nth_fmap {A B} (g : A → B) l i d : nth i (g <$> l) (g d) = g (nth i l d).
Proof. rewrite !nth_lookup, list_lookup_fmap. by destruct (l !! i). Qed.

Lemma nth_fmap_lt {A B} (g : A → B) l i da db : (i < length l)%nat → nth i (g <$> l) db = g (nth i l da).
Proof. intros Hl. destruct (lookup_lt_is_Some_2 l i Hl) as [x Hx]. by rewrite !nth_lookup, list_lookup_fmap, Hx. Qed.

Lemma nth_replicate_lt {A} n i (x d : A) : (i < n)%nat → nth i (replicate n x) d = x.
Proof. intros Hi. by rewrite nth_lookup, lookup_replicate_2. Qed.

(** Complement in the two views. *)
Definition and_not (a b : Z) : Z := Z.land a (mask 32 true - b).

Lemma and_not_pair lo hi lo' hi' : word 32 lo → word 32 hi → word 32 lo' → word 32 hi' →
  Z.land (lo + 2 ^ 32 * hi) (mask 64 true - (lo' + 2 ^ 32 * hi')) = and_not lo lo' + 2 ^ 32 * and_not hi hi'.
Proof.
  intros Hl Hh Hl' Hh'. assert (mask 64 true - (lo' + 2 ^ 32 * hi') = (mask 32 true - lo') + 2 ^ 32 * (mask 32 true - hi')) as ->
    by (unfold mask; lia).
  apply (bitwise_pair _ bitwise_land); [done|]. unfold word, mask in *. lia.
Qed.

Lemma and_not_word a b : word 32 a → word 32 b → word 32 (and_not a b).
Proof. intros Ha Hb. apply (bitwise_word _ bitwise_land); [lia|done|unfold word, mask in *; lia]. Qed.

Lemma to64_and_not n a b : register n a → register n b →
  register n (zip_with and_not a b) ∧
  to64 (zip_with and_not a b) = zip_with (λ x y, Z.land x (mask 64 true - y)) (to64 a) (to64 b).
Proof.
  intros [Hl Hw] [Hl' Hw']. split.
  - split; [rewrite length_zip_with; lia|]. clear Hl Hl'. revert b Hw'. induction Hw as [|x a Hx _ IH]; intros b Hw'; [constructor|].
    destruct Hw' as [|y b Hy Hw']; [constructor|]. constructor; [by apply and_not_word|by apply IH].
  - revert a b Hl Hw Hl' Hw'. induction n as [|n IH]; intros a b Hl Hw Hl' Hw'; [by destruct a|].
    destruct a as [|lo [|hi a]]; simpl in Hl; try lia. destruct b as [|lo' [|hi' b]]; simpl in Hl'; try lia.
    repeat match goal with H : Forall _ (_ :: _) |- _ => inversion H; clear H; subst end.
    cbn [zip_with to64]. rewrite and_not_pair by done. f_equal. apply IH; done || lia.
Qed.

(** ** The packet types *)

Section Types.
Context `{EigenPackets} `{!EigenPacketLaws} `{EigenTrig} `{!EigenTrigLaws} (fx : features).

(** Lanes of 32 bits. *)
Section Float.
Context (k : nat).

Lemma ps_lane r i : of_bits binary32 (nth i r 0) = nth i (ps r) (of_bits binary32 0).
Proof. symmetry. apply nth_fmap. Qed.

Lemma ps_length r : register k r → length (ps r) = (2 * k)%nat.
Proof. intros Hr. unfold ps. rewrite length_fmap. apply Hr. Qed.

Lemma lanes_num_ps op g : lanes_ps op g → ∀ a b, register k a → register k b →
  register k (op a b) ∧ ∀ i, (i < 2 * k)%nat →
    of_bits binary32 (nth i (op a b) 0) = g (of_bits binary32 (nth i a 0)) (of_bits binary32 (nth i b 0)).
Proof.
  intros Hop a b Ha Hb. destruct (Hop k a b Ha Hb) as [Hr Hv]. split; [done|]. intros i Hi.
  rewrite !ps_lane, Hv. apply nth_zip_with; rewrite ps_length by done; done.
Qed.

Lemma word_nth r i : register k r → word 32 (nth i r 0).
Proof.
  intros Hr. pose proof (word_lane k r (Z.of_nat i) Hr) as Hw. unfold lane in Hw. by rewrite Nat2Z.id in Hw.
Qed.

Lemma lanes_int_ps op g : (∀ a b, register k a → register k b → op a b = zip_with g a b) →
  (∀ x y, word 32 x → word 32 y → word 32 (g x y)) →
  ∀ a b, register k a → register k b →
    register k (op a b) ∧ ∀ i, (i < 2 * k)%nat → nth i (op a b) 0 = g (nth i a 0) (nth i b 0).
Proof.
  intros Hop Hg a b Ha Hb. rewrite (Hop a b Ha Hb). destruct Ha as [Hla Ha], Hb as [Hlb Hb]. split.
  - split; [rewrite length_zip_with; lia|]. clear Hla Hlb. revert b Hb. induction Ha as [|x a Hx _ IH]; intros b Hb; [constructor|].
    destruct Hb as [|y b Hy Hb]; [constructor|]. constructor; [by apply Hg|by apply IH].
  - intros i Hi. apply nth_zip_with; lia.
Qed.

End Float.

(** Lanes of 64 bits. *)
Section Double.
Context (k : nat).

Lemma pd_lane r i : of_bits binary64 (nth i (to64 r) 0) = nth i (pd r) (of_bits binary64 0).
Proof. symmetry. apply nth_fmap. Qed.

Lemma pd_length r : register k r → length (pd r) = k.
Proof. intros Hr. unfold pd. rewrite length_fmap. apply length_to64, Hr. Qed.

Lemma lanes_num_pd op g : lanes_pd op g → ∀ a b, register k a → register k b →
  register k (op a b) ∧ ∀ i, (i < k)%nat →
    of_bits binary64 (nth i (to64 (op a b)) 0) = g (of_bits binary64 (nth i (to64 a) 0)) (of_bits binary64 (nth i (to64 b) 0)).
Proof.
  intros Hop a b Ha Hb. destruct (Hop k a b Ha Hb) as [Hr Hv]. split; [done|]. intros i Hi.
  rewrite !pd_lane, Hv. apply nth_zip_with; rewrite pd_length by done; done.
Qed.

Lemma word_nth64 r i : register k r → word 64 (nth i (to64 r) 0).
Proof.
  intros Hr. pose proof (to64_words k r Hr) as Hw. rewrite nth_lookup. destruct (to64 r !! i) as [x|] eqn:E; cbn.
  - by eapply Forall_lookup_1.
  - unfold word. lia.
Qed.

Lemma lanes_int_pd op g : (∀ a b, register k a → register k b → register k (op a b) ∧ to64 (op a b) = zip_with g (to64 a) (to64 b)) →
  ∀ a b, register k a → register k b →
    register k (op a b) ∧ ∀ i, (i < k)%nat → nth i (to64 (op a b)) 0 = g (nth i (to64 a) 0) (nth i (to64 b) 0).
Proof.
  intros Hop a b Ha Hb. destruct (Hop a b Ha Hb) as [Hr Hv]. split; [done|]. intros i Hi. rewrite Hv.
  apply nth_zip_with; rewrite (length_to64 k); (done || apply Ha || apply Hb).
Qed.

End Double.

Lemma word_mod w x : 0 <= w → word w (x mod 2 ^ w).
Proof. intros Hw. apply Z.mod_pos_bound. apply Z.pow_pos_nonneg; lia. Qed.

Lemma map_words k op (g : Z → Z) : (∀ a, register k a → op a = g <$> a) → (∀ x, word 32 x → word 32 (g x)) →
  ∀ a, register k a → register k (op a) ∧ ∀ i, (i < 2 * k)%nat → nth i (op a) 0 = g (nth i a 0).
Proof.
  intros Hop Hg a Ha. rewrite (Hop a Ha). destruct Ha as [Hl Hw]. split.
  - split; [by rewrite length_fmap|]. apply Forall_fmap. eapply Forall_impl; [exact Hw|]. intros x Hx. by apply Hg.
  - intros i Hi. apply nth_fmap_lt. lia.
Qed.

Lemma float_packet_laws k cmpeq sll : (0 < k)%nat →
  (∀ a b, register k a → register k b → cmpeq a b = cmpeq_epi32 a b) →
  (∀ b a, 0 <= b < 32 → register k a → sll b a = slli_epi32 b a) →
  TrigPacketLaws (H := float_packet k cmpeq sll) (2 * k) (2 ^ 31 - 2).
Proof.
  intros Hk Hcmpeq Hsll. split; unfold lanes_num, lanes_int, t_val, t_word; cbn [t_size t_words float_packet t_set1 t_abs t_add t_sub t_mul
    t_cast t_cast_int t_set1_int t_add_int t_sub_int t_cmpeq_int t_sll t_and t_xor t_andnot].
  - intros r i Hr. by apply (word_nth k).
  - intros x Hx. destruct (e_set1_ps_law k x Hx) as [Hr Hv]. split; [done|]. intros i Hi.
    rewrite ps_lane, Hv. by apply nth_replicate_lt.
  - intros a Ha. destruct (e_abs_ps_law k a Ha) as [Hr Hv]. split; [done|]. intros i Hi.
    rewrite !ps_lane, Hv. apply nth_fmap_lt. by rewrite (ps_length k).
  - apply (lanes_num_ps k), e_add_ps_law.
  - apply (lanes_num_ps k), e_sub_ps_law.
  - apply (lanes_num_ps k), e_mul_ps_law.
  - intros a Ha. by apply e_cast_ps_law.
  - intros a i j Ha Hi _ Hj Hr. destruct (e_cast_ps_law k a Ha) as [_ Hc].
    assert (a !! i = Some (nth i a 0)) as Hai.
    { rewrite nth_lookup. destruct (lookup_lt_is_Some_2 a i) as [y Hy]; [by rewrite (register_length _ _ Ha)|]. by rewrite Hy. }
    rewrite nth_lookup, (Hc i (of_bits binary32 (nth i a 0)) j); [unfold u32; cbn [default from_option]; apply Z.mod_small; lia| |done|].
    + unfold ps. by rewrite list_lookup_fmap, Hai.
    + unfold in_int, INT_MIN, INT_MAX. lia.
  - intros a Ha. by apply e_cast_epi32_law.
  - intros a i Ha Hi Hr. destruct (e_cast_epi32_law k a Ha) as [_ Hv]. rewrite ps_lane, Hv.
    rewrite (nth_fmap_lt _ a i 0) by (by rewrite (register_length _ _ Ha)).
    unfold signed. rewrite (proj2 (Z.ltb_lt _ _)) by lia. done.
  - intros z. rewrite pset1_lanes. split; [apply set1_register32|]. intros i Hi. by apply nth_replicate_lt.
  - apply (lanes_int_ps k _ (λ x y, (x + y) mod 2 ^ 32)); [apply (padd_lanes k)|]. intros x y _ _. by apply (word_mod 32).
  - apply (lanes_int_ps k _ (λ x y, (x - y) mod 2 ^ 32)); [apply (psub_lanes k)|]. intros x y _ _. by apply (word_mod 32).
  - apply (lanes_int_ps k _ (λ x y, mask 32 (x =? y))); [exact Hcmpeq|]. intros x y _ _. by apply word_mask.
  - intros b a Hb Ha. apply (map_words k (sll b) (Simd.sll 32 b)); [|intros x _; by apply word_sll|done].
    intros a' Ha'. by apply Hsll.
  - apply (lanes_int_ps k _ Z.land); [apply (pand_lanes k)|]. intros x y. by apply (bitwise_word _ bitwise_land).
  - apply (lanes_int_ps k _ Z.lxor); [apply (pxor_lanes k)|]. intros x y. by apply (bitwise_word _ bitwise_lxor).
  - apply (lanes_int_ps k _ and_not); [apply (e_andnot_law k)|]. intros x y. apply and_not_word.
  - by vm_compute.
Qed.

Lemma packet4f_laws : TrigPacketLaws (H := packet4f) 4 (2 ^ 31 - 2).
Proof. by apply (float_packet_laws 2); [lia|..]. Qed.

Lemma packet8f_laws : TrigPacketLaws (H := packet8f fx) 8 (2 ^ 31 - 2).
Proof.
  apply (float_packet_laws 4); [lia|..].
  - intros a b Ha Hb. by apply (avx_variants_agree fx a b 0 0 []).
  - intros b a _ Ha. by apply (avx_variants_agree fx a a b 0 []).
Qed.

(** Lanes of 64 bits. *)
Lemma convert_double x : canonical binary64 x → convert binary64 x = x.
Proof.
  intros Hc. destruct x as [s|s| |s m e]; try done. cbn [convert]. pose proof (or_intror eq_refl : ieee binary64) as Hf.
  destruct (canonical_fexp binary64 Hf s m e Hc) as [He _]. unfold binary_round. cbn [Zdigits2] in He. rewrite He.
  unfold shl_align. rewrite Z.sub_diag. pose proof (round_aux_shift binary64 Hf s m e 0 Hc) as Hr.
  rewrite Z.pow_0_r, Z.mul_1_r, Z.sub_0_r in Hr. by apply Hr.
Qed.

Lemma lanewise_nth k g a b : (∀ x y, word 64 (g x y)) → register k a → register k b →
  register k (lanewise64 g a b) ∧
  ∀ i, (i < k)%nat → nth i (to64 (lanewise64 g a b)) 0 = g (nth i (to64 a) 0) (nth i (to64 b) 0).
Proof.
  intros Hg Ha Hb. destruct (lanewise64_law k g a b Hg Ha Hb) as [Hr Hv]. split; [done|]. intros i Hi. rewrite Hv.
  apply nth_zip_with; rewrite (length_to64 k); (done || apply Ha || apply Hb).
Qed.

Lemma pd_op_nth k g a b : (∀ x y, canonical binary64 x → canonical binary64 y → canonical binary64 (g x y)) →
  register k a → register k b →
  register k (pd_op g a b) ∧
  ∀ i, (i < k)%nat → nth i (to64 (pd_op g a b)) 0 =
    to_bits binary64 (g (of_bits binary64 (nth i (to64 a) 0)) (of_bits binary64 (nth i (to64 b) 0))).
Proof.
  intros Hg. apply lanewise_nth. intros x y. pose proof (or_intror eq_refl : ieee binary64) as Hf.
  apply (of_bits_to_bits binary64 Hf), Hg; by apply of_bits_canonical.
Qed.

Lemma set1_magic k : register k (set1_pd k magic) ∧
  ∀ i, (i < k)%nat → nth i (to64 (set1_pd k magic)) 0 = to_bits binary64 magic ∧
    of_bits binary64 (nth i (to64 (set1_pd k magic)) 0) = magic.
Proof.
  destruct (set1_law k (to_bits binary64 magic)) as [Hr Hv]. split; [exact Hr|]. intros i Hi.
  unfold set1_pd. rewrite Hv, nth_replicate_lt by done. split; [done|]. by vm_compute.
Qed.

Lemma round_down_canonical n e : canonical binary64 (round_down n e).
Proof. apply normalize_canonical. by right. Qed.

Lemma add_down_canonical x y : canonical binary64 x → canonical binary64 y → canonical binary64 (SFadd_down x y).
Proof.
  intros Hx Hy. pose proof (or_intror eq_refl : ieee binary64) as Hf.
  destruct x, y; try (by apply (add_canonical binary64 Hf)). apply round_down_canonical.
Qed.

Lemma floor_canonical x : canonical binary64 x → canonical binary64 (floor_sf x).
Proof.
  intros Hx. destruct x as [s|s| |s m e]; try done. unfold floor_sf. destruct (0 <=? e); [done|].
  apply (normalize_canonical binary64). by right.
Qed.

(** Words to numbers, and back. *)
Lemma to_double_lane k x : register k x →
  let y := sub_pd (add_epi64 x (set1_pd k magic)) (set1_pd k magic) in
  register k y ∧
  ∀ i, (i < k)%nat → 0 <= nth i (to64 x) 0 < 2 ^ 51 →
    of_bits binary64 (nth i (to64 y) 0) = binary_normalize 53 1024 (nth i (to64 x) 0) 0 false.
Proof.
  intros Hx y. pose proof (or_intror eq_refl : ieee binary64) as Hf. destruct (set1_magic k) as [Hm Hmv].
  destruct (lanewise_nth k (λ a b, u64 (a + b)) x (set1_pd k magic)) as [Ha Hav]; [intros; apply word_u64|done|done|].
  destruct (pd_op_nth k (SFsub 53 1024) (add_epi64 x (set1_pd k magic)) (set1_pd k magic) (sub_canonical binary64 Hf) Ha Hm)
    as [Hy Hyv].
  split; [exact Hy|]. intros i Hi Hr. destruct (Hmv i Hi) as [Hmw Hmn].
  unfold y, sub_pd. rewrite Hyv, Hmn by done. unfold add_epi64. rewrite Hav, Hmw by done.
  destruct (of_bits_to_bits binary64 Hf (SFsub 53 1024 (of_bits binary64 (u64 (nth i (to64 x) 0 + to_bits binary64 magic))) magic))
    as [_ ->].
  { apply (sub_canonical binary64 Hf); [by apply of_bits_canonical|]. apply magic_eq. }
  assert (signed 64 (nth i (to64 x) 0) = nth i (to64 x) 0) as Hs
    by (unfold signed; by rewrite (proj2 (Z.ltb_lt _ _)) by lia).
  rewrite int64_to_double_ok; rewrite ?Hs; [done|by apply (word_nth64 k)|lia].
Qed.

Lemma to_int64_lane k y : register k y →
  register k (sub_epi64 y (set1_pd k magic)) ∧
  ∀ i j, (i < k)%nat → 0 <= j < 2 ^ 51 → nth i (to64 y) 0 = to_bits binary64 (S754_finite false (Z.to_pos (magicZ + j)) 0) →
    nth i (to64 (sub_epi64 y (set1_pd k magic))) 0 = j.
Proof.
  intros Hy. destruct (set1_magic k) as [Hm Hmv].
  destruct (lanewise_nth k (λ a b, u64 (a - b)) y (set1_pd k magic)) as [Ha Hav]; [intros; apply word_u64|done|done|].
  split; [exact Ha|]. intros i j Hi Hj Hyw. unfold sub_epi64. rewrite Hav by done. destruct (Hmv i Hi) as [-> _].
  rewrite Hyw. by apply subtract_magic.
Qed.

Lemma number_word k r i j : register k r → Z.testbit (nth i (to64 r) 0) 63 = false →
  b64_trunc (of_bits binary64 (nth i (to64 r) 0)) = Some j → sf_sign (of_bits binary64 (nth i (to64 r) 0)) = false.
Proof. intros Hr Hs Hj. rewrite <-Hs. symmetry. by apply (sign_of_word binary64 (or_intror eq_refl)) with j. Qed.

Lemma pow2_51 : 2 ^ 51 = 2251799813685248.
Proof. done. Qed.

Lemma double_packet_laws k d2i i2d seti padd psub cmpeq psll : (0 < k)%nat →
  (∀ a, register k a → register k (d2i a) ∧
    ∀ i j, (i < k)%nat → sf_sign (of_bits binary64 (nth i (to64 a) 0)) = false →
      b64_trunc (of_bits binary64 (nth i (to64 a) 0)) = Some j → 0 <= j < 2 ^ 51 → nth i (to64 (d2i a)) 0 = j) →
  (∀ a, register k a → register k (i2d a) ∧
    ∀ i, (i < k)%nat → 0 <= nth i (to64 a) 0 < 2 ^ 51 →
      of_bits binary64 (nth i (to64 (i2d a)) 0) = binary_normalize 53 1024 (nth i (to64 a) 0) 0 false) →
  (∀ z, seti z = set1_epi64x k z) →
  (∀ a b, register k a → register k b → padd a b = add_epi64 a b) →
  (∀ a b, register k a → register k b → psub a b = sub_epi64 a b) →
  (∀ a b, register k a → register k b → cmpeq a b = cmpeq_epi64 a b) →
  (∀ b a, register k a → psll b a = slli_epi64 b a) →
  TrigPacketLaws (H := double_packet k d2i i2d seti padd psub cmpeq psll) k (2 ^ 51 - 1).
Proof.
  intros Hk Hd2i Hi2d Hseti Hadd Hsub Hcmpeq Hsll. split; unfold lanes_num, lanes_int, t_val, t_word;
    cbn [t_size t_words double_packet t_set1 t_abs t_add t_sub t_mul
    t_cast t_cast_int t_set1_int t_add_int t_sub_int t_cmpeq_int t_sll t_and t_xor t_andnot].
  - intros r i Hr. by apply (word_nth64 k).
  - intros x Hx. destruct (e_set1_pd_law k x Hx) as [Hr Hv]. split; [done|]. intros i Hi.
    rewrite pd_lane, Hv, convert_double by done. by apply nth_replicate_lt.
  - intros a Ha. destruct (e_abs_pd_law k a Ha) as [Hr Hv]. split; [done|]. intros i Hi.
    rewrite !pd_lane, Hv. apply nth_fmap_lt. by rewrite (pd_length k).
  - apply (lanes_num_pd k), e_add_pd_law.
  - apply (lanes_num_pd k), e_sub_pd_law.
  - apply (lanes_num_pd k), e_mul_pd_law.
  - intros a Ha. by apply Hd2i.
  - intros a i j Ha Hi Hs Hj Hr. apply (Hd2i a Ha); [done| |done|lia]. by apply (number_word k _ _ j).
  - intros a Ha. by apply Hi2d.
  - intros a i Ha Hi Hr. apply (Hi2d a Ha); [done|lia].
  - intros z. rewrite Hseti. destruct (set1_law k z) as [Hr Hv]. split; [done|]. intros i Hi. rewrite Hv.
    by apply nth_replicate_lt.
  - intros a b Ha Hb. rewrite Hadd by done. apply lanewise_nth; [intros; apply word_u64|done|done].
  - intros a b Ha Hb. rewrite Hsub by done. apply lanewise_nth; [intros; apply word_u64|done|done].
  - intros a b Ha Hb. rewrite Hcmpeq by done. apply lanewise_nth; [intros; by apply word_mask|done|done].
  - intros b a Hb Ha. rewrite Hsll by done. unfold slli_epi64.
    destruct (map64_law k (Simd.sll 64 b) a) as [Hr Hv]; [intros; by apply word_sll|done|]. split; [done|].
    intros i Hi. rewrite Hv. apply nth_fmap_lt. rewrite (length_to64 k); [done|apply Ha].
  - apply (lanes_int_pd k _ Z.land). intros a b Ha Hb. rewrite (pand_lanes k) by done.
    split; [by apply (register_bitwise _ bitwise_land)|by eapply (to64_bitwise _ bitwise_land)].
  - apply (lanes_int_pd k _ Z.lxor). intros a b Ha Hb. rewrite (pxor_lanes k) by done.
    split; [by apply (register_bitwise _ bitwise_lxor)|by eapply (to64_bitwise _ bitwise_lxor)].
  - apply (lanes_int_pd k _ (λ x y, Z.land x (mask 64 true - y))). intros a b Ha Hb. rewrite (e_andnot_law k) by done.
    by apply to64_and_not.
  - by vm_compute.
Qed.

(** The conversions by [floor] and a large number. *)
Lemma floor_to_int64 k a : register k a →
  let y := sub_epi64 (add_pd (floor_pd a) (set1_pd k magic)) (set1_pd k magic) in
  register k (add_pd (floor_pd a) (set1_pd k magic)) ∧ register k y ∧
    ∀ i j, (i < k)%nat → sf_sign (of_bits binary64 (nth i (to64 a) 0)) = false →
      b64_trunc (of_bits binary64 (nth i (to64 a) 0)) = Some j → 0 <= j < 2 ^ 51 → nth i (to64 y) 0 = j.
Proof.
  intros Ha y. pose proof (or_intror eq_refl : ieee binary64) as Hf. destruct (set1_magic k) as [Hm Hmv].
  assert (register k (floor_pd a) ∧
    ∀ i, (i < k)%nat → of_bits binary64 (nth i (to64 (floor_pd a)) 0) = floor_sf (of_bits binary64 (nth i (to64 a) 0))) as [Hfl Hflv].
  { assert (∀ x, canonical binary64 (floor_sf (of_bits binary64 x))) as Hc
      by (intros x; apply floor_canonical; by apply of_bits_canonical).
    destruct (map64_law k (λ x, to_bits binary64 (floor_sf (of_bits binary64 x))) a) as [Hr Hv];
      [intros x _; by apply (of_bits_to_bits binary64 Hf)|done|].
    split; [done|]. intros i Hi. unfold floor_pd. rewrite Hv, (nth_fmap_lt _ _ i 0).
    - by apply (of_bits_to_bits binary64 Hf).
    - rewrite (length_to64 k); [done|apply Ha]. }
  destruct (pd_op_nth k (SFadd 53 1024) (floor_pd a) (set1_pd k magic) (add_canonical binary64 Hf) Hfl Hm) as [Hy Hyv].
  destruct (to_int64_lane k _ Hy) as [Hr Hv]. split; [exact Hy|]. split; [exact Hr|]. intros i j Hi Hs Hj Hb.
  apply Hv; [done|done|]. rewrite Hyv, Hflv by done. destruct (Hmv i Hi) as [_ ->].
  by rewrite (add_magic _ j) by (done || by apply floor_ok).
Qed.

Lemma packet2d_laws : TrigPacketLaws (H := packet2d fx) 2 (2 ^ 51 - 1).
Proof.
  apply (double_packet_laws 2); [lia| |intros a Ha; by apply (to_double_lane 2)|done|done|done| |done].
  - intros a Ha. pose proof (or_intror eq_refl : ieee binary64) as Hf. destruct (set1_magic 2) as [Hm Hmv].
    destruct (pd_op_nth 2 SFadd_down a (set1_pd 2 magic) add_down_canonical Ha Hm) as [Hy Hyv].
    destruct (to_int64_lane 2 _ Hy) as [Hr Hv]. split; [exact Hr|]. intros i j Hi Hs Hj Hb.
    apply Hv; [done|done|]. rewrite Hyv by done. destruct (Hmv i Hi) as [_ ->]. by rewrite (add_magic_down _ j).
  - intros a b Ha Hb. unfold SSE.pcmpeq64. destruct (sse4_1 fx); [done|]. by apply cmpeq_shuffle_eq.
Qed.

Lemma packet4d_laws : TrigPacketLaws (H := packet4d fx) 4 (2 ^ 51 - 1).
Proof.
  apply (double_packet_laws 4); [lia| | | | | | |].
  - intros a Ha. destruct (floor_to_int64 4 a Ha) as (Hy & Hr & Hv). destruct (set1_magic 4) as [Hm _].
    unfold AVXDouble.double_to_int64. by rewrite (proj1 (proj2 (avx_variants_agree fx _ _ 0 0 [] Hy Hm))).
  - intros a Ha. unfold AVXDouble.int64_to_double. destruct (set1_magic 4) as [Hm _].
    rewrite (proj1 (avx_variants_agree fx a _ 0 0 [] Ha Hm)). by apply (to_double_lane 4).
  - done.
  - intros a b Ha Hb. by apply (avx_variants_agree fx a b 0 0 []).
  - intros a b Ha Hb. by apply (avx_variants_agree fx a b 0 0 []).
  - intros a b Ha Hb. by apply avx_pcmpeq64.
  - intros b a Ha. by apply avx_psll64.
Qed.

(** Every lane of the results of [psincos] is [sincos] of the lane of the argument,
    where the octant of that is less than [bound]; and so for [_psin]. *)
Definition trig_lanes {f} (P : TrigPacket f) (n : nat) (bound : Z) : Prop :=
  ∀ x i j, register t_size x → (i < n)%nat →
    octant (H := format_num f) (literal f) SFabs (t_val x i) = Some j → j < bound →
    let r := sincos_at (H := format_num f) (literal f) SFabs sf_sign (t_val x i) j in
    t_val (psincos x).1 i = r.1 ∧ t_val (psincos x).2 i = r.2.
Definition sine_lanes {f} (P : TrigPacket f) (n : nat) (bound : Z) : Prop :=
  ∀ x i j, register t_size x → (i < n)%nat →
    octant (H := format_num f) (literal f) SFabs (t_val x i) = Some j → j < bound →
    t_val (_psin x) i = (sincos_at (H := format_num f) (literal f) SFabs sf_sign (t_val x i) j).1.

Lemma lanes_of_laws {f} (P : TrigPacket f) n bound : ieee f → TrigPacketLaws n bound →
  trig_lanes P n bound ∧ sine_lanes P n bound.
Proof.
  intros Hf HL. split; intros x i j Hx Hi Hj Hlt;
    destruct (psincos_lane Hf HL i Hi x (t_val x i) j (conj Hx eq_refl) Hj Hlt) as ([_ Hsin] & [_ Hcos] & [_ Hpsin]);
    [by split|done].
Qed.

End Types.

(** ** The instructions *)

Definition cvttps (w : Z) : Z :=
  match b64_trunc (of_bits binary32 w) with
  | Some j => if in_int j then u32 j else 2 ^ 31
  | None => 2 ^ 31
  end.

Definition trig_instructions : EigenTrig := {|
  e_set1_ps n x := replicate n (to_bits binary32 (convert binary32 x));
  e_abs_ps a := (λ w, to_bits binary32 (SFabs (of_bits binary32 w))) <$> a;
  e_add_ps := ps_op (SFadd 24 128); e_sub_ps := ps_op (SFsub 24 128); e_mul_ps := ps_op (SFmul 24 128);
  e_cast_ps a := cvttps <$> a;
  e_cast_epi32 a := (λ w, to_bits binary32 (binary_normalize 24 128 (signed 32 w) 0 false)) <$> a;
  e_set1_pd k x := set1_pd k x;
  e_abs_pd a := of64 ((λ w, to_bits binary64 (SFabs (of_bits binary64 w))) <$> to64 a);
  e_add_pd := pd_op (SFadd 53 1024); e_sub_pd := pd_op (SFsub 53 1024); e_mul_pd := pd_op (SFmul 53 1024);
  e_andnot := zip_with and_not;
|}.

Lemma map_ps k g (G : Z → spec_float) a : (∀ w, canonical binary32 (G w)) → (∀ w, g w = to_bits binary32 (G w)) →
  register k a → register k (g <$> a) ∧ ps (g <$> a) = G <$> a.
Proof.
  intros Hc Hg [Hl _]. pose proof (or_introl eq_refl : ieee binary32) as Hf. split.
  - split; [by rewrite length_fmap|]. apply Forall_fmap, Forall_true. intros w. cbn. rewrite Hg.
    by apply (of_bits_to_bits binary32 Hf).
  - unfold ps. rewrite <-list_fmap_compose. apply list_fmap_ext. intros i w _. cbn. rewrite Hg.
    by apply (of_bits_to_bits binary32 Hf).
Qed.

Lemma zip_with_fmap_both {A B C D} (h : A → B) (g : B → B → C) (u : A → A → D) (v : D → C) l k :
  (∀ x y, v (u x y) = g (h x) (h y)) → v <$> zip_with u l k = zip_with g (h <$> l) (h <$> k).
Proof.
  intros Hv. revert k. induction l as [|x l IH]; intros [|y k]; try done. cbn [zip_with fmap list_fmap]. by rewrite Hv, IH.
Qed.

Lemma ps_op_lanes g : (∀ x y, canonical binary32 x → canonical binary32 y → canonical binary32 (g x y)) → lanes_ps (ps_op g) g.
Proof.
  intros Hg k a b [Hl Hw] [Hl' Hw']. pose proof (or_introl eq_refl : ieee binary32) as Hf.
  assert (∀ x y, word 32 (to_bits binary32 (g (of_bits binary32 x) (of_bits binary32 y))) ∧
    of_bits binary32 (to_bits binary32 (g (of_bits binary32 x) (of_bits binary32 y))) = g (of_bits binary32 x) (of_bits binary32 y)) as Hb.
  { intros x y. apply (of_bits_to_bits binary32 Hf), Hg; by apply of_bits_canonical. }
  split.
  - split; [unfold ps_op; rewrite length_zip_with; lia|]. apply Forall_forall. intros z Hz.
    apply list_elem_of_lookup in Hz as [i Hi]. apply lookup_zip_with_Some in Hi as (x & y & -> & _ & _). apply Hb.
  - apply zip_with_fmap_both. intros x y. apply Hb.
Qed.

Lemma pd_op_lanes g : (∀ x y, canonical binary64 x → canonical binary64 y → canonical binary64 (g x y)) → lanes_pd (pd_op g) g.
Proof.
  intros Hg k a b Ha Hb. pose proof (or_intror eq_refl : ieee binary64) as Hf.
  assert (∀ x y, word 64 (to_bits binary64 (g (of_bits binary64 x) (of_bits binary64 y))) ∧
    of_bits binary64 (to_bits binary64 (g (of_bits binary64 x) (of_bits binary64 y))) = g (of_bits binary64 x) (of_bits binary64 y)) as Hbits.
  { intros x y. apply (of_bits_to_bits binary64 Hf), Hg; by apply of_bits_canonical. }
  destruct (lanewise64_law k (λ x y, to_bits binary64 (g (of_bits binary64 x) (of_bits binary64 y))) a b) as [Hr Hv];
    [intros; apply Hbits|done|done|].
  split; [exact Hr|]. unfold pd, pd_op. rewrite Hv. apply zip_with_fmap_both. intros x y. apply Hbits.
Qed.

Lemma trig_instructions_laws : @EigenTrigLaws trig_instructions.
Proof.
  pose proof (or_introl eq_refl : ieee binary32) as Hs. pose proof (or_intror eq_refl : ieee binary64) as Hd.
  split; cbn [e_set1_ps e_abs_ps e_add_ps e_sub_ps e_mul_ps e_cast_ps e_cast_epi32 e_set1_pd e_abs_pd e_add_pd e_sub_pd e_mul_pd
    e_andnot trig_instructions].
  - intros k x Hx. assert (canonical binary32 (convert binary32 x)) as Hc.
    { destruct x as [s|s| |s m e]; try done. by apply (round_canonical binary32). }
    destruct (of_bits_to_bits binary32 Hs _ Hc) as [Hw Hv]. split.
    + split; [by rewrite length_replicate|]. by apply Forall_replicate.
    + unfold ps. by rewrite fmap_replicate, Hv.
  - intros k a Ha. destruct (map_ps k (λ w, to_bits binary32 (SFabs (of_bits binary32 w))) (λ w, SFabs (of_bits binary32 w)) a) as [Hr Hv];
      [intros w; by apply abs_canonical, of_bits_canonical|done|done|].
    split; [exact Hr|]. etransitivity; [exact Hv|]. unfold ps. by rewrite <-list_fmap_compose.
  - apply ps_op_lanes. by apply (add_canonical binary32).
  - apply ps_op_lanes. by apply (sub_canonical binary32).
  - apply ps_op_lanes. by apply (mul_canonical binary32).
  - intros k a [Hl Hw]. split.
    + split; [by rewrite length_fmap|]. apply Forall_fmap, Forall_true. intros w. cbn. unfold cvttps.
      repeat case_match; by first [apply (word_mod 32)|split].
    + intros i v j Hi Hj Hr. apply list_lookup_fmap_Some in Hi as (w & -> & Hw').
      apply list_lookup_fmap_Some. exists w. split; [|done]. unfold cvttps. by rewrite Hj, Hr.
  - intros k a Ha. apply (map_ps k _ (λ w, binary_normalize 24 128 (signed 32 w) 0 false)); [|done|done].
    intros w. by apply (normalize_canonical binary32).
  - intros k x Hx. destruct (set1_law k (to_bits binary64 x)) as [Hr Hv]. split; [exact Hr|].
    destruct (of_bits_to_bits binary64 Hd x Hx) as [Hw Hb]. unfold pd, set1_pd. rewrite Hv, fmap_replicate.
    unfold u64. by rewrite Z.mod_small, Hb by apply Hw.
  - intros k a Ha.
    assert (∀ w, word 64 (to_bits binary64 (SFabs (of_bits binary64 w))) ∧
      of_bits binary64 (to_bits binary64 (SFabs (of_bits binary64 w))) = SFabs (of_bits binary64 w)) as Hb.
    { intros w. apply (of_bits_to_bits binary64 Hd). by apply abs_canonical, of_bits_canonical. }
    destruct (map64_law k (λ w, to_bits binary64 (SFabs (of_bits binary64 w))) a) as [Hr Hv]; [intros; apply Hb|done|].
    split; [exact Hr|]. unfold pd. rewrite Hv, <-!list_fmap_compose. apply list_fmap_ext. intros i w _. apply Hb.
  - apply pd_op_lanes. by apply (add_canonical binary64).
  - apply pd_op_lanes. by apply (sub_canonical binary64).
  - apply pd_op_lanes. by apply (mul_canonical binary64).
  - done.
Qed.
