(* ===== verification/PolyBound.v ===== *)
(** Bounds of polynomials with integer coefficients on an interval of the reals,
    by a computation with integers: around the left end of the interval the
    polynomial is the difference of two that grow, so its values lie between
    values at the two ends; where that is not good enough, the interval is halved. *)

From S2P Require Import Prelude.
From Stdlib Require Import Reals Lra.

(** ** The checker *)

Fixpoint horner (l : list Z) (x : Z) : Z :=
  match l with
  | [] => 0
  | c :: l => c + x * horner l x
  end.

Definition rising (l : list Z) : list Z := Z.max 0 <$> l.
Definition falling (l : list Z) : list Z := (λ c, Z.max 0 (- c)) <$> l.

(** The polynomial [l (x + a)]. *)
Fixpoint add_times_shift (c a : Z) (l : list Z) : list Z :=   (* [c + (x + a) * l] *)
  match l with
  | [] => [c]
  | d :: l => c + a * d :: add_times_shift d a l
  end.
Fixpoint shift (a : Z) (l : list Z) : list Z :=
  match l with
  | [] => []
  | c :: l => add_times_shift c a (shift a l)
  end.

Definition ends (l : list Z) (h B : Z) : bool :=
  let up := rising l in
  let down := falling l in
  (horner up h - horner down 0 <=? B) && (- B <=? horner up 0 - horner down h).

Fixpoint within (fuel : nat) (l : list Z) (a b B : Z) : bool :=
  if ends (shift a l) (b - a) B then true
  else match fuel with
  | O => false
  | S fuel => let m := (a + b) / 2 in if within fuel l a m B then within fuel l m b B else false
  end.

(** The polynomial whose argument is [m] times as large, and whose values are
    [m ^ degree] times as large. *)
Fixpoint rescale (m : Z) (l : list Z) : list Z :=
  match l with
  | [] => []
  | c :: l => c * m ^ Z.of_nat (length l) :: rescale m l
  end.

(** The polynomial at [- x]. *)
Fixpoint alternate (l : list Z) : list Z :=
  match l with
  | [] => []
  | c :: l => c :: (Z.opp <$> alternate l)
  end.

(** ** Soundness *)

#[local] Open Scope R_scope.

Fixpoint reval (l : list Z) (x : R) : R :=
  match l with
  | [] => 0
  | c :: l => IZR c + x * reval l x
  end.

Lemma reval_IZR l x : reval l (IZR x) = IZR (horner l x).
Proof. induction l as [|c l IH]; [done|]. cbn [reval horner]. by rewrite IH, plus_IZR, mult_IZR. Qed.

Lemma reval_mono l x y : Forall (Z.le 0) l → 0 <= x <= y → 0 <= reval l x <= reval l y.
Proof.
  intros Hl Hxy. induction Hl as [|c l Hc _ IH]; cbn [reval]; [lra|]. apply IZR_le in Hc. destruct IH as [IH1 IH2].
  split; [nra|]. apply Rplus_le_compat_l, Rmult_le_compat; lra.
Qed.

Lemma rising_nonneg l : Forall (Z.le 0) (rising l).
Proof. apply Forall_fmap, Forall_true. intros c. cbn. lia. Qed.

Lemma falling_nonneg l : Forall (Z.le 0) (falling l).
Proof. apply Forall_fmap, Forall_true. intros c. cbn. lia. Qed.

Lemma reval_split l x : reval l x = reval (rising l) x - reval (falling l) x.
Proof.
  induction l as [|c l IH]; cbn [reval rising falling fmap list_fmap]; [lra|]. fold (rising l) (falling l).
  rewrite IH. assert (IZR c = IZR (Z.max 0 c) - IZR (Z.max 0 (- c))) as -> by (rewrite <-minus_IZR; f_equal; lia). ring.
Qed.

Lemma reval_add_times_shift a l : ∀ c x, reval (add_times_shift c a l) x = IZR c + (x + IZR a) * reval l x.
Proof.
  induction l as [|d l IH]; intros c x; cbn [add_times_shift reval]; [ring|]. rewrite IH, plus_IZR, mult_IZR. ring.
Qed.

Lemma reval_shift a l x : reval (shift a l) x = reval l (x + IZR a).
Proof.
  induction l as [|c l IH]; [done|]. cbn [shift reval]. by rewrite reval_add_times_shift, IH.
Qed.

Lemma reval_opp l x : reval (Z.opp <$> l) x = - reval l x.
Proof. induction l as [|c l IH]; cbn [fmap list_fmap reval]; [ring|]. change (list_fmap _ _ Z.opp l) with (Z.opp <$> l). rewrite IH, opp_IZR. ring. Qed.

Lemma reval_alternate l x : reval (alternate l) x = reval l (- x).
Proof. induction l as [|c l IH]; [done|]. cbn [alternate reval]. rewrite reval_opp, IH. ring. Qed.

Lemma ends_sound l h B : ends l h B = true → (0 <= h)%Z → ∀ t, 0 <= t <= IZR h → Rabs (reval l t) <= IZR B.
Proof.
  intros Hb Hh t Ht. apply andb_true_iff in Hb as [Hup Hlo]. apply Z.leb_le, IZR_le in Hup, Hlo.
  rewrite minus_IZR, <-!reval_IZR in Hup, Hlo. rewrite opp_IZR in Hlo. cbn [IZR] in *.
  pose proof (reval_mono (rising l) 0 t (rising_nonneg l) ltac:(lra)).
  pose proof (reval_mono (rising l) t (IZR h) (rising_nonneg l) ltac:(lra)).
  pose proof (reval_mono (falling l) 0 t (falling_nonneg l) ltac:(lra)).
  pose proof (reval_mono (falling l) t (IZR h) (falling_nonneg l) ltac:(lra)).
  rewrite reval_split. apply Rabs_le. lra.
Qed.

Lemma within_sound fuel : ∀ l a b B, within fuel l a b B = true → (0 <= a <= b)%Z →
  ∀ t, IZR a <= t <= IZR b → Rabs (reval l t) <= IZR B.
Proof.
  induction fuel as [|fuel IH]; intros l a b B Hb Hab t Ht; cbn [within] in Hb;
    destruct (ends _ _ _) eqn:E in Hb; try done.
  1, 2: replace t with (t - IZR a + IZR a) by ring; rewrite <-reval_shift; apply (ends_sound _ _ _ E);
    [lia|rewrite minus_IZR; lra].
  destruct (within fuel l a _ B) eqn:Hl; [|done]. assert (a <= (a + b) / 2 <= b)%Z as Hm.
  { pose proof (Z.div_mod (a + b) 2 ltac:(lia)). pose proof (Z.mod_pos_bound (a + b) 2 ltac:(lia)). lia. }
  destruct (Rle_lt_dec t (IZR ((a + b) / 2))); [apply (IH _ _ _ _ Hl)|apply (IH _ _ _ _ Hb)]; (lia || lra).
Qed.

Lemma reval_rescale m l x : reval (rescale m l) (IZR m * x) = IZR m ^ (length l - 1) * reval l x.
Proof.
  induction l as [|c l IH]; [cbn; ring|]. change (rescale m (c :: l)) with (c * m ^ Z.of_nat (length l) :: rescale m l)%Z.
  cbn [reval]. rewrite IH, mult_IZR, <-pow_IZR. replace (length (c :: l) - 1)%nat with (length l) by (cbn; lia).
  destruct l as [|c' l]; [cbn; ring|]. replace (length (c' :: l)) with (S (length (c' :: l) - 1)) by (cbn; lia).
  replace (S (length (c' :: l) - 1) - 1)%nat with (length (c' :: l) - 1)%nat by lia. cbn [pow]. ring.
Qed.

(** The argument is multiplied by [m] to bring it into the interval. *)
Lemma poly_bound fuel m l a b B : (0 < m)%Z → (0 <= a <= b)%Z →
  within fuel (rescale m l) a b (B * m ^ Z.of_nat (length l - 1)) = true →
  ∀ x, IZR a <= IZR m * x <= IZR b → Rabs (reval l x) <= IZR B.
Proof.
  intros Hm Hab Hb x Hx. pose proof (within_sound _ _ _ _ _ Hb Hab _ Hx) as Hs.
  rewrite reval_rescale, mult_IZR, <-pow_IZR, Rabs_mult in Hs.
  assert (0 < IZR m ^ (length l - 1)) as Hpos by (apply pow_lt, (IZR_lt 0); lia).
  rewrite Rabs_pos_eq in Hs by lra. nra.
Qed.

(** For a polynomial that is [k] times what is to be bounded, with a grid of
    1 / 10 ^ 4. *)
Lemma scaled_bound l k B top a b e : (0 < k)%Z → (0 <= top)%Z →
  within 12 (rescale (10 ^ 4) l) 0 top (B * (10 ^ 4) ^ Z.of_nat (length l - 1)) = true →
  reval l a = IZR k * b → 0 <= a <= IZR top / 10000 → IZR B = IZR k * e → Rabs b <= e.
Proof.
  intros Hk Htop Hb Hl Ha HB. assert (0 < IZR k) as Hpos by (by apply (IZR_lt 0)).
  pose proof (poly_bound 12 (10 ^ 4) l 0 top B ltac:(done) ltac:(lia) Hb a) as Hp.
  rewrite Hl, Rabs_mult, HB, (Rabs_pos_eq (IZR k)) in Hp by lra.
  apply (Rmult_le_reg_l (IZR k)); [done|]. apply Hp. change (10 ^ 4)%Z with 10000%Z. lra.
Qed.
