(* ===== verification/SinCosR.v ===== *)
(** [sincos] over the real numbers, and how far it is from the sine and the cosine:
    the polynomials against Taylor's, the constants against pi, and the octants. *)

From S2P Require Import Prelude.
From Stdlib Require Import SpecFloat.
From S2P Require Import Num.
From S2P Require Import NumR.
From S2P Require Import SinCos.
From S2P Require Import PolyBound.
From Stdlib Require Import Reals Lra Machin.

#[local] Open Scope R_scope.

(** The literal [n / 10 ^ k], and the sign. *)
Definition R_lit (n k : Z) : R := IZR n / IZR (10 ^ k).
Definition R_signbit (x : R) : bool := if Rlt_dec x 0 then true else false.

(** Numerals for the integers of literals. *)
Ltac numerals :=
  repeat match goal with
  | |- context [IZR ?z] => let n := eval vm_compute in z in progress change (IZR z) with (IZR n)
  end.

(** ** Taylor's polynomials *)

Fixpoint zfact (n : nat) : Z := match n with O => 1 | S n => Z.of_nat (S n) * zfact n end.

Lemma INR_fact n : INR (fact n) = IZR (zfact n).
Proof.
  induction n as [|n IH]; [done|]. cbn [zfact]. rewrite fact_simpl, mult_INR, IH, mult_IZR, INR_IZR_INZ. done.
Qed.

Lemma sin_taylor x : 0 <= x <= 4 →
  let t := x - x ^ 3 / 6 + x ^ 5 / 120 - x ^ 7 / 5040 + x ^ 9 / 362880 - x ^ 11 / 39916800 in
  t <= sin x <= t + x ^ 13 / 6227020800.
Proof.
  intros Hx t. pose proof (pre_sin_bound x 2 ltac:(lra) ltac:(lra)) as Hb. unfold sin_approx, sin_term in Hb.
  cbn [Nat.mul Nat.add sum_f_R0] in Hb. rewrite !INR_fact in Hb. vm_compute zfact in Hb. unfold t.
  cbn [pow] in Hb |- *. lra.
Qed.

Lemma cos_taylor x : 0 <= x <= 1 →
  let t := 1 - x ^ 2 / 2 + x ^ 4 / 24 - x ^ 6 / 720 + x ^ 8 / 40320 - x ^ 10 / 3628800 in
  t <= cos x <= t + x ^ 12 / 479001600.
Proof.
  intros Hx t. pose proof (pre_cos_bound x 2 ltac:(lra) ltac:(lra)) as Hb. unfold cos_approx, cos_term in Hb.
  cbn [Nat.mul Nat.add sum_f_R0] in Hb. rewrite !INR_fact in Hb. vm_compute zfact in Hb. unfold t.
  cbn [pow] in Hb |- *. lra.
Qed.

(** ** The polynomials *)

(** The differences to Taylor's polynomials, multiplied to have integer coefficients. *)
Definition sin_scale : Z := 10 ^ 14 * 39916800.
Definition sin_err : list Z := Eval cbv in
  [0; 0; 0; -16666654611 * 10 ^ 3 * 39916800 + sin_scale / 6; 0; 83321608736 * 10 * 39916800 - sin_scale / 120; 0;
   -19515295891 * 39916800 + sin_scale / 5040; 0; - (sin_scale / 362880); 0; 10 ^ 14]%Z.
Definition cos_scale : Z := 10 ^ 20 * 3628800.
Definition cos_err : list Z := Eval cbv in
  [0; 0; 0; 0; 4166664568298827 * 10 ^ 3 * 3628800 - cos_scale / 24; 0; -1388731625493765 * 10 ^ 2 * 3628800 + cos_scale / 720; 0;
   2443315711809948 * 3628800 - cos_scale / 40320; 0; 10 ^ 20]%Z.

Lemma sin_err_ok x : reval sin_err x = IZR sin_scale *
  (sin_poly R_lit (x * x) x - (x - x ^ 3 / 6 + x ^ 5 / 120 - x ^ 7 / 5040 + x ^ 9 / 362880 - x ^ 11 / 39916800)).
Proof. unfold sin_err, sin_poly, R_lit, sin_scale. cbn -[IZR Z.mul Z.pow]. numerals. field. Qed.

Lemma cos_err_ok x : reval cos_err x = IZR cos_scale *
  (cos_poly R_lit (x * x) - (1 - x ^ 2 / 2 + x ^ 4 / 24 - x ^ 6 / 720 + x ^ 8 / 40320 - x ^ 10 / 3628800)).
Proof. unfold cos_err, cos_poly, R_lit, cos_scale. cbn -[IZR Z.mul Z.pow]. numerals. field. Qed.

(** Their distance from the functions. *)
Lemma sin_poly_near x : 0 <= x <= 7854 / 10000 → Rabs (sin_poly R_lit (x * x) x - sin x) <= 281 / 10 ^ 11.
Proof.
  intros Hx. pose proof (sin_taylor x ltac:(lra)) as Ht. cbv zeta in Ht.
  assert (Rabs (sin_poly R_lit (x * x) x -
    (x - x ^ 3 / 6 + x ^ 5 / 120 - x ^ 7 / 5040 + x ^ 9 / 362880 - x ^ 11 / 39916800)) <= 28 / 10 ^ 10) as Hp.
  { apply (scaled_bound sin_err sin_scale (28 * 10 ^ 4 * 39916800) 7854 x); [done|done|by vm_compute|apply sin_err_ok|done|].
    unfold sin_scale. numerals. lra. }
  assert (x ^ 13 <= (7854 / 10000) ^ 13) as Hr by (apply pow_incr; lra).
  revert Hp. unfold Rabs. repeat destruct (Rcase_abs _); intros; lra.
Qed.

Lemma cos_poly_near x : 0 <= x <= 7854 / 10000 → Rabs (cos_poly R_lit (x * x) - cos x) <= 4 / 10 ^ 10.
Proof.
  intros Hx. pose proof (cos_taylor x ltac:(lra)) as Ht. cbv zeta in Ht.
  assert (Rabs (cos_poly R_lit (x * x) -
    (1 - x ^ 2 / 2 + x ^ 4 / 24 - x ^ 6 / 720 + x ^ 8 / 40320 - x ^ 10 / 3628800)) <= 25 / 10 ^ 11) as Hp.
  { apply (scaled_bound cos_err cos_scale (25 * 10 ^ 9 * 3628800) 7854 x); [done|done|by vm_compute|apply cos_err_ok|done|].
    unfold cos_scale. numerals. lra. }
  assert (x ^ 12 <= (7854 / 10000) ^ 12) as Hr by (apply pow_incr; lra).
  revert Hp. unfold Rabs. repeat destruct (Rcase_abs _); intros; lra.
Qed.

(** On both sides of zero. *)
Lemma sin_poly_odd z x : sin_poly R_lit z (- x) = - sin_poly R_lit z x.
Proof. unfold sin_poly. cbn. ring. Qed.

Lemma polys_near r : Rabs r <= 7854 / 10000 →
  Rabs (sin_poly R_lit (r * r) r - sin r) <= 281 / 10 ^ 11 ∧ Rabs (cos_poly R_lit (r * r) - cos r) <= 4 / 10 ^ 10.
Proof.
  intros Hr. destruct (Rle_lt_dec 0 r) as [Hpos|Hneg].
  - rewrite Rabs_pos_eq in Hr by done. by split; [apply sin_poly_near|apply cos_poly_near].
  - rewrite Rabs_left in Hr by done. pose proof (sin_poly_near (- r) ltac:(lra)) as Hs. pose proof (cos_poly_near (- r) ltac:(lra)) as Hc.
    rewrite Rmult_opp_opp, sin_poly_odd, sin_neg in Hs. rewrite Rmult_opp_opp, cos_neg in Hc. split; [|done].
    rewrite <-Rabs_Ropp. by replace (- _) with (- sin_poly R_lit (r * r) r - - sin r) by ring.
Qed.

(** ** The constants *)

Lemma pi_bounds : 785398163397448309 / 10 ^ 18 <= PI / 4 <= 785398163397448311 / 10 ^ 18.
Proof.
  pose proof (PI_2_3_7_ineq 9) as [Hlo Hup]. unfold tg_alt, PI_2_3_7_tg, Ratan_seq in *.
  cbn [Nat.mul Nat.add sum_f_R0] in *. rewrite !INR_IZR_INZ in *. revert Hlo Hup. numerals. lra.
Qed.

(** The three parts of pi / 4, and 4 / pi. *)
Definition dp : R := 78515625 / 10 ^ 8 + 24187564849853515625 / 10 ^ 23 + 377489497744594108 / 10 ^ 25.
Definition fopi : R := 127323954473516 / 10 ^ 14.

Lemma dp_near : Rabs (dp - PI / 4) <= 2 / 10 ^ 18.
Proof. pose proof pi_bounds. unfold dp. apply Rabs_le. lra. Qed.

Lemma reduced_real x j : reduced R_lit Rabs x j = Rabs x - IZR j * dp.
Proof. unfold reduced, R_lit, dp. cbn -[IZR Z.pow pow]. numerals. field. Qed.

Lemma octant_real x : ∃ q, (0 <= q)%Z ∧ octant R_lit Rabs x = Some (2 * q)%Z ∧ - 1 <= Rabs x * fopi - 2 * IZR q <= 1.
Proof.
  unfold octant. cbn [ftrunc R_num].
  assert ((Rabs x * R_lit 127323954473516 14)%num = Rabs x * fopi) as -> by (unfold R_lit, fopi; cbn -[IZR Z.pow pow]; numerals; field).
  assert (0 <= Rabs x * fopi) as Hpos by (pose proof (Rabs_pos x); unfold fopi; nra).
  destruct (R_trunc_spec _ Hpos) as [Hj0 Hj]. set (j0 := R_trunc _) in *. exists ((j0 + 1) / 2)%Z.
  pose proof (Z.div_mod (j0 + 1) 2 ltac:(lia)) as Hd. pose proof (Z.mod_pos_bound (j0 + 1) 2 ltac:(lia)) as Hm.
  split; [lia|]. split.
  - f_equal. change (-2)%Z with (Z.lnot (Z.ones 1)). rewrite <-Z.ldiff_land, Z.ldiff_ones_r by lia.
    rewrite Z.shiftr_div_pow2, Z.shiftl_mul_pow2, Z.pow_1_r by lia. lia.
  - rewrite <-mult_IZR. assert (j0 <= 2 * ((j0 + 1) / 2) <= j0 + 1)%Z as [Hlo Hup] by lia.
    apply IZR_le in Hlo, Hup. rewrite plus_IZR in Hup. lra.
Qed.

(** ** Angles *)

Lemma sin_le_abs u : Rabs (sin u) <= Rabs u.
Proof.
  destruct (Rtotal_order u 0) as [Hlt|[->|Hgt]].
  - pose proof (sin_lt_x (- u) ltac:(lra)) as Hs. rewrite sin_neg in Hs. pose proof (SIN_bound u).
    rewrite (Rabs_left u) by done. destruct (Rle_lt_dec 1 (- u)); [apply Rabs_le; lra|].
    pose proof PI2_1. pose proof (sin_ge_0 (- u) ltac:(lra) ltac:(lra)) as Hp. rewrite sin_neg in Hp. apply Rabs_le. lra.
  - rewrite sin_0, Rabs_R0. lra.
  - pose proof (sin_lt_x u ltac:(lra)) as Hs. pose proof (SIN_bound u).
    rewrite (Rabs_pos_eq u) by lra. destruct (Rle_lt_dec 1 u); [apply Rabs_le; lra|].
    pose proof PI2_1. pose proof (sin_ge_0 u ltac:(lra) ltac:(lra)). apply Rabs_le. lra.
Qed.

Lemma half_product a u : Rabs a <= 1 → Rabs (2 * a * sin (u / 2)) <= Rabs u.
Proof.
  intros Ha. pose proof (sin_le_abs (u / 2)) as Hs. pose proof (Rabs_pos a). pose proof (Rabs_pos (sin (u / 2))).
  rewrite !Rabs_mult, (Rabs_pos_eq 2) by lra. unfold Rdiv in *. rewrite Rabs_mult, (Rabs_pos_eq (/ 2)) in Hs by lra. nra.
Qed.

Lemma sin_lipschitz p q : Rabs (sin p - sin q) <= Rabs (p - q).
Proof. rewrite form4. apply half_product, Rabs_le. pose proof (COS_bound ((p + q) / 2)). lra. Qed.

Lemma cos_lipschitz p q : Rabs (cos p - cos q) <= Rabs (p - q).
Proof.
  rewrite form2. replace (-2 * sin ((p - q) / 2) * sin ((p + q) / 2)) with (2 * (- sin ((p + q) / 2)) * sin ((p - q) / 2)) by ring.
  apply half_product, Rabs_le. pose proof (SIN_bound ((p + q) / 2)). lra.
Qed.

(** A number of quarter turns. *)
Lemma quarter_turns s q : (0 <= q)%Z →
  let u := s + IZR q * (PI / 2) in
  sin u = (if Z.testbit q 1 then -1 else 1) * (if Z.testbit q 0 then cos s else sin s) ∧
  cos u = (if Z.testbit (q - 1) 1 then 1 else -1) * (if Z.testbit q 0 then sin s else cos s).
Proof.
  intros Hq u. pose proof (Z.div_mod q 4 ltac:(lia)) as Hd. pose proof (Z.mod_pos_bound q 4 ltac:(lia)) as Hm.
  assert (∀ k z, (0 <= k < 2)%Z → Z.testbit z k = Z.testbit (z mod 4) k) as Hb
    by (intros k z Hk; symmetry; apply (Z.mod_pow2_bits_low z 2); lia).
  rewrite (Hb 1%Z q), (Hb 1%Z (q - 1)%Z), (Hb 0%Z q) by lia. rewrite Zminus_mod.
  assert (u = s + IZR (q mod 4) * (PI / 2) + 2 * INR (Z.to_nat (q / 4)) * PI) as ->.
  { unfold u. rewrite INR_IZR_INZ, Z2Nat.id by (apply Z.div_pos; lia). rewrite Hd at 1. rewrite plus_IZR, mult_IZR. cbn [IZR]. field. }
  rewrite sin_period, cos_period.
  pose proof (cos_sin s) as Hcs. pose proof (sin_cos s) as Hsc.
  assert (q mod 4 = 0 ∨ q mod 4 = 1 ∨ q mod 4 = 2 ∨ q mod 4 = 3)%Z as [->|[->|[->| ->]]] by lia;
    repeat match goal with |- context [Z.testbit ?a ?b] => let v := eval vm_compute in (Z.testbit a b) in change (Z.testbit a b) with v end.
  - rewrite Rmult_0_l, Rplus_0_r. lra.
  - rewrite Rmult_1_l, sin_plus, cos_plus, sin_PI2, cos_PI2. lra.
  - replace (2 * (PI / 2)) with PI by field. rewrite neg_sin, neg_cos. lra.
  - replace (s + 3 * (PI / 2)) with (s + PI / 2 + PI) by field. rewrite neg_sin, neg_cos, sin_plus, cos_plus, sin_PI2, cos_PI2. lra.
Qed.

(** ** The accuracy *)

Lemma sign_of_sin x : (if R_signbit x then -1 else 1) * sin (Rabs x) = sin x ∧ cos (Rabs x) = cos x.
Proof.
  unfold R_signbit. destruct (Rlt_dec x 0).
  - rewrite Rabs_left, sin_neg, cos_neg by done. lra.
  - rewrite Rabs_pos_eq by lra. lra.
Qed.

Lemma land_2 q : (Z.land (2 * q) 2 =? 0)%Z = negb (Z.testbit q 0).
Proof.
  assert (Z.land (2 * q) 2 = 2 * (q mod 2))%Z as ->.
  { apply Z.bits_inj'. intros k Hk. change 2%Z with (2 ^ 1)%Z at 2. rewrite Z.land_spec, Z.pow2_bits_eqb by lia.
    destruct (decide (k = 0)%Z) as [->|Hk0]; [by rewrite !Z.testbit_even_0|].
    replace k with (Z.succ (Z.pred k)) by lia. rewrite !Z.testbit_even_succ by lia.
    destruct (Z.eqb_spec 1 (Z.succ (Z.pred k))) as [E|E].
    - replace (Z.pred k) with 0%Z by lia. rewrite andb_true_r, !Z.bit0_odd. rewrite Zmod_odd. by destruct (Z.odd q).
    - rewrite andb_false_r. symmetry. apply (Z.mod_pow2_bits_high q 1). lia. }
  rewrite Z.bit0_odd, Zmod_odd. by destruct (Z.odd q).
Qed.

(** The two results, when the remainder [r] stands for the angle up to quarter
    turns. *)
Lemma sincos_at_real x q :
  let r := reduced R_lit Rabs x (2 * q) in
  let odd := Z.testbit q 0 in
  let s := sin_poly R_lit (r * r) r in
  let c := cos_poly R_lit (r * r) in
  sincos_at R_lit Rabs R_signbit x (2 * q) =
    ((if R_signbit x then -1 else 1) * ((if Z.testbit q 1 then -1 else 1) * (if odd then c else s)),
     (if Z.testbit (q - 1) 1 then 1 else -1) * (if odd then s else c)).
Proof.
  intros r odd s c. unfold sincos_at. cbv zeta. fold r. rewrite land_2. fold odd.
  replace (Z.testbit (2 * q) 2) with (Z.testbit q 1) by (by rewrite <-(Z.testbit_even_succ q 1)).
  replace (Z.testbit (2 * q - 2) 2) with (Z.testbit (q - 1) 1)
    by (rewrite <-(Z.testbit_even_succ (q - 1) 1) by lia; f_equal; lia).
  change (r * r)%num with (r * r). fold s c. unfold flip. cbn [fadd fsub fneg of_Z R_num].
  destruct (R_signbit x), (Z.testbit q 1), (Z.testbit (q - 1) 1), odd; cbn [negb xorb]; f_equal; ring.
Qed.

Lemma signs_bounded (a b : bool) u v e : Rabs (u - v) <= e →
  Rabs ((if a then -1 else 1) * ((if b then -1 else 1) * u) - (if a then -1 else 1) * ((if b then -1 else 1) * v)) <= e.
Proof. intros He. destruct a, b; unfold Rabs in *; repeat destruct (Rcase_abs _); lra. Qed.

Lemma sincos_near x : Rabs x <= 2 ^ 20 →
  ∃ j, octant R_lit Rabs x = Some j ∧
    Rabs ((sincos_at R_lit Rabs R_signbit x j).1 - sin x) <= 3 / 10 ^ 9 ∧
    Rabs ((sincos_at R_lit Rabs R_signbit x j).2 - cos x) <= 3 / 10 ^ 9.
Proof.
  intros Hx. destruct (octant_real x) as (q & Hq & Ho & Hr). exists (2 * q)%Z. split; [exact Ho|]. rewrite sincos_at_real. cbn [fst snd]. set (r := reduced R_lit Rabs x (2 * q)).
  pose proof (quarter_turns (Rabs x - IZR q * (PI / 2)) q Hq) as [Hs Hc].
  replace (Rabs x - IZR q * (PI / 2) + IZR q * (PI / 2)) with (Rabs x) in Hs, Hc by ring.
  set (u := Rabs x - IZR q * (PI / 2)) in *. destruct (sign_of_sin x) as [<- <-]. rewrite Hs, Hc.
  assert (0 <= IZR q <= 10 ^ 6) as Hqr by (split; [by apply (IZR_le 0)|unfold fopi in *; lra]).
  assert (Rabs (r - u) <= 1 / 10 ^ 11) as Hru.
  { unfold r, u. rewrite reduced_real, mult_IZR.
    replace (_ - _ - _) with (- (2 * IZR q * (dp - PI / 4))) by field.
    pose proof dp_near. rewrite Rabs_Ropp, !Rabs_mult, !Rabs_pos_eq by lra. pose proof (Rabs_pos (dp - PI / 4)). nra. }
  assert (Rabs r <= 7854 / 10000) as Hrange.
  { unfold r. rewrite reduced_real, mult_IZR. apply Rabs_le. pose proof (Rabs_pos x). unfold dp, fopi in *. lra. }
  destruct (polys_near r Hrange) as [Hps Hpc]. pose proof (sin_lipschitz r u) as Hls. pose proof (cos_lipschitz r u) as Hlc.
  assert (Rabs (sin_poly R_lit (r * r) r - sin u) <= 3 / 10 ^ 9) as Hsu
    by (revert Hps Hls Hru; unfold Rabs; repeat destruct (Rcase_abs _); intros; lra).
  assert (Rabs (cos_poly R_lit (r * r) - cos u) <= 3 / 10 ^ 9) as Hcu
    by (revert Hpc Hlc Hru; unfold Rabs; repeat destruct (Rcase_abs _); intros; lra).
  split.
  - apply signs_bounded. by destruct (Z.testbit q 0).
  - destruct (Z.testbit (q - 1) 1), (Z.testbit q 0); (revert Hsu Hcu; unfold Rabs; repeat destruct (Rcase_abs _); intros; lra).
Qed.

(** C26. Over the real numbers [sincos], the function that [psincos] computes in
    every lane, returns two numbers that are within 3e-9 of the sine and of the
    cosine of its argument, for every argument up to 2^20 in magnitude: the
    truncation finds the number of quarter turns, the three constants take them
    off, the two polynomials approximate the functions on what is left, and the
    octant chooses the polynomials and the signs. *)
Theorem sincos_accurate x : Rabs x <= 2 ^ 20 →
  ∃ s c, sincos R_lit Rabs R_signbit x = Some (s, c) ∧
    Rabs (s - sin x) <= 3 / 10 ^ 9 ∧ Rabs (c - cos x) <= 3 / 10 ^ 9.
Proof.
  intros Hx. destruct (sincos_near x Hx) as (j & Hj & Hs & Hc). unfold sincos. rewrite Hj.
  destruct (sincos_at _ _ _ x j) as [s c]. by exists s, c.
Qed.

(** At zero, and at a million. *)
Lemma sincos_accurate_witness : Rabs 0 <= 2 ^ 20 ∧ ∃ s c, sincos R_lit Rabs R_signbit 1000000 = Some (s, c) ∧
  Rabs (s - sin 1000000) <= 3 / 10 ^ 9 ∧ Rabs (c - cos 1000000) <= 3 / 10 ^ 9.
Proof.
  split; [rewrite Rabs_R0; lra|]. apply (sincos_accurate 1000000). rewrite Rabs_pos_eq; lra.
Defined.
