(* ===== verification/RandomEngine.v ===== *)
(** EigenRand/PacketRandomEngine.h around the engine itself: the classification
    of engines, [AlignedArray], [ParallelRandomEngineAdaptor] and
    [RandomEngineWrapper]. *)

From S2P Require Import Prelude.
From S2P Require Import Simd.
From S2P Require Import PacketMath.
From S2P Require Import MersenneTwister.
From S2P Require Import FloatBits.
From Stdlib Require Import SpecFloat.

(** ** Engine types *)

(** What the traits see of an engine class: its [result_type] (an unsigned
    integer type of [w] bits, an integer packet, or neither), [min()] and
    [max()]. *)
Inductive result_kind := integral (w : Z) | int_packet | other.
Record engine_class := mk_class { result_type : result_kind; emin : Z; emax : Z }.

Inductive RandomEngineType := none | scalar | scalar_fullbit | packet.

#[global] Instance RandomEngineType_eq_dec : EqDecision RandomEngineType.
Proof. solve_decision. Defined.

(** [T::min() == 0 && (T::max() & T::max() + 1) == 0]. *)
Definition full_bits (w : Z) (c : engine_class) : bool :=
  (emin c =? 0) && (Z.land (emax c) ((emax c + 1) mod 2 ^ w) =? 0).

Definition IsScalarRandomEngine (c : engine_class) : bool :=
  match result_type c with integral w => negb (full_bits w c) | _ => false end.
Definition IsScalarFullBitRandomEngine (c : engine_class) : bool :=
  match result_type c with integral w => full_bits w c | _ => false end.
Definition IsPacketRandomEngine (c : engine_class) : bool :=
  match result_type c with int_packet => true | _ => false end.

Definition GetRandomEngineType (c : engine_class) : RandomEngineType :=
  if IsPacketRandomEngine c then packet
  else if IsScalarFullBitRandomEngine c then scalar_fullbit
  else if IsScalarRandomEngine c then scalar
  else none.

(** ** AlignedArray *)

Module AlignedArray.
Section Code.
Context {A : Type} (default : A) (length : nat).

(** The elements behind [aligned], or [None] when the object holds [nullptr]
    (after it was moved from). *)
Definition t : Type := option (list A).

Definition create : t := Some (replicate length default).

(** The copy constructor reads [length] elements through [o.aligned]. *)
Definition copy (o : t) : outcome t :=
  match o with
  | Some l => Ret (Some (take length l))
  | None => if (length =? 0)%nat then Ret (Some []) else Undef null_dereference
  end.

(** The move constructor; the second component is what is left of [o]. *)
Definition move (o : t) : t * t := (o, None).

(** The two assignments, to [x]. *)
Definition assign_copy (x o : t) : outcome t :=
  match x, o with
  | Some _, Some l => Ret (Some (take length l))
  | _, _ => if (length =? 0)%nat then Ret x else Undef null_dereference
  end.
Definition assign_move (x o : t) : t * t := (o, x).

Definition get (x : t) (i : Z) : outcome A :=
  match x with Some l => array_get l i | None => Undef null_dereference end.
Definition set (x : t) (i : Z) (a : A) : outcome t :=
  match x with
  | Some l => l ← array_set l i a; Ret (Some l)
  | None => Undef null_dereference
  end.

Definition size : nat := length.

End Code.

(** [allocate()]: the size passed to [malloc], and the address of the first
    element from the address that [malloc] returns. *)
Definition allocation_size (size_of : Z) (length : nat) (alignment : Z) : Z :=
  u64 (size_of * Z.of_nat length + alignment).
Definition aligned (memory alignment : Z) : Z :=
  Z.land (u64 (memory + alignment)) (2 ^ 64 - 1 - (alignment - 1)).
End AlignedArray.

(** ** ParallelRandomEngineAdaptor *)

(** What the adaptor uses of its base engine: the constructor from a seed, the
    call operator, with its result as 64-bit words, [bit_to_ur_float] of such a
    result, and the size of a result in 64-bit words. *)
Class BaseRng (R : Type) := {
  u64_stride : nat;
  rng_make : Z → outcome R;
  rng_next : R → outcome (list Z * R);
  rng_ur_float : list Z → list spec_float;
}.

(** [Vmt19937_64] without vector instructions, and with them. *)
Definition std_rng (P : mt_params) : BaseRng (list Z) := {|
  u64_stride := 1;
  rng_make s := Ret (Std.init P s);
  rng_next w := let '(x, w) := Std.next P w in Ret ([x], w);
  rng_ur_float ws := let '(a, b) := float2 (nth 0 ws 0) in [a; b];
|}.

Definition packet_rng `{IntPacket} (P : mt_params) (ur : list Z → list spec_float) :
    BaseRng MersenneTwister.t := {|
  u64_stride := size64;
  rng_make := MersenneTwister.of_scalar P;
  rng_next e := '(p, e) ← MersenneTwister.next P e; Ret (to64 p, e);
  rng_ur_float ws := ur (loadu ws);
|}.

(** [UIntType]: [uint32_t] or [uint64_t], and memory that holds 64-bit words
    read as elements of the type. *)
Inductive UIntType := uint32_t | uint64_t.
Definition sizeof (u : UIntType) : nat := match u with uint32_t => 4 | uint64_t => 8 end.
Definition elements (u : UIntType) (ws : list Z) : list Z :=
  match u with uint32_t => of64 ws | uint64_t => ws end.

Module ParallelRandomEngineAdaptor.
Section Code.
Context {R : Type} `{BaseRng R} (u : UIntType) (numU64 : nat).

Record t := mk {
  rngs : list R;
  buf : list Z;
  fbuf : list spec_float;
  cnt : nat;
  fcnt : nat;
}.

Definition min : Z := 0.
Definition max : Z := 2 ^ (8 * Z.of_nat (sizeof u)) - 1.

Definition result_type_stride : nat := 8 * u64_stride / sizeof u.
Definition num_parallel : nat := numU64 / u64_stride.
Definition byte_size : nat := 8 * numU64.
Definition buf_size : nat := byte_size / sizeof u.
Definition fbuf_size : nat := byte_size / 4.

Definition with_rngs (rngs : list R) : t :=
  mk rngs (replicate buf_size 0) (replicate fbuf_size (S754_zero false)) buf_size fbuf_size.

(** The constructor from a seed. *)
Fixpoint make_rngs (todo : nat) (seed : Z) (i : nat) : outcome (list R) :=
  match todo with
  | O => Ret []
  | S todo =>
      r ← rng_make (u64 (seed + Z.of_nat i * Z.of_nat u64_stride));
      rs ← make_rngs todo seed (S i);
      Ret (r :: rs)
  end.
Definition of_seed (seed : Z) : outcome t :=
  rngs ← make_rngs num_parallel seed 0; Ret (with_rngs rngs).

(** The constructor from an engine. *)
Definition of_engine (o : R) : t := with_rngs (replicate num_parallel o).

(** [reinterpret_cast<...&>(buf[off]) = l]. *)
Definition store {A} (buf : list A) (off : nat) (l : list A) : outcome (list A) :=
  if (off + length l <=? length buf)%nat
  then Ret (take off buf ++ l ++ drop (off + length l) buf)
  else Undef (index_out_of_bounds (Z.of_nat off)).

(** The loop of the refills, for a destination that [elems] fills with
    [stride] elements for each engine. *)
Fixpoint refill_loop {A} (todo : nat) (elems : list Z → list A) (stride : nat)
    (rngs : list R) (buf : list A) (i : nat) : outcome (list R * list A) :=
  match todo with
  | O => Ret (rngs, buf)
  | S todo =>
      r ← array_get rngs (Z.of_nat i);
      '(ws, r) ← rng_next r;
      rngs ← array_set rngs (Z.of_nat i) r;
      buf ← store buf (i * stride) (elems ws);
      refill_loop todo elems stride rngs buf (S i)
  end.

Definition refill_buffer (a : t) : outcome t :=
  '(rngs, buf) ← refill_loop num_parallel (elements u) result_type_stride (rngs a) (buf a) 0;
  Ret (mk rngs buf (fbuf a) 0 (fcnt a)).

Definition refill_fbuffer (a : t) : outcome t :=
  '(rngs, fbuf) ← refill_loop num_parallel rng_ur_float (u64_stride * 2) (rngs a) (fbuf a) 0;
  Ret (mk rngs (buf a) fbuf (cnt a) 0).

(** [operator()]. *)
Definition next (a : t) : outcome (Z * t) :=
  a ← (if (buf_size <=? cnt a)%nat then refill_buffer a else Ret a);
  x ← array_get (buf a) (Z.of_nat (cnt a));
  Ret (x, mk (rngs a) (buf a) (fbuf a) (S (cnt a)) (fcnt a)).

Definition uniform_real (a : t) : outcome (spec_float * t) :=
  a ← (if (fbuf_size <=? fcnt a)%nat then refill_fbuffer a else Ret a);
  x ← array_get (fbuf a) (Z.of_nat (fcnt a));
  Ret (x, mk (rngs a) (buf a) (fbuf a) (cnt a) (S (fcnt a))).

End Code.
End ParallelRandomEngineAdaptor.

(** [PacketRandomEngineAdaptor<UIntType, BaseRng>] and [P8_mt19937] choose the
    number of words. *)
Definition packet_adaptor_words {R} `{BaseRng R} : nat := u64_stride.
Definition P8_words : nat := 8.

(** ** RandomEngineWrapper *)

Module RandomEngineWrapper.
Section Code.
Context {R : Type} (call : R → outcome (Z * R)).

Definition uniform_real (r : R) : outcome (spec_float * R) :=
  '(x, r) ← call r;
  Ret (to_ur binary32 (u32 x), r).
End Code.
End RandomEngineWrapper.

(** [makeUniversalRng]: the engine class that an engine is wrapped in. *)
Inductive universal := packet_adaptor | engine_wrapper | no_engine.
Definition UniversalRandomEngine (c : engine_class) : universal :=
  if IsPacketRandomEngine c then packet_adaptor
  else if IsScalarFullBitRandomEngine c then engine_wrapper
  else no_engine.
