(* ===== verification/RandomEngineProps.v ===== *)
(** The engine adaptors: the classification of engines, [AlignedArray], and the
    sequences that the parallel adaptor hands out. *)

From S2P Require Import Prelude.
From S2P Require Import Simd.
From S2P Require Import PacketMath.
From S2P Require Import PacketMathProps.
From S2P Require Import MersenneTwister.
From S2P Require Import MersenneProps.
From S2P Require Import FloatBits.
From S2P Require Import FloatBitsProps.
From S2P Require Import RandomEngine.
From Stdlib Require Import SpecFloat.

(** ** Base engines *)

(** A base engine seeded with [s] gives, in the [k]-th call, the words
    [out s k], [out (s + 1) k], ...; [rng_at s k r] holds of its state [r] after
    [k] calls. *)
Class BaseRngLaws {R} `{BaseRng R} (out : Z → nat → Z) := {
  rng_at : Z → nat → R → Prop;
  make_law : ∀ s, word 64 s → ∃ r, rng_make s = Ret r ∧ rng_at s 0 r;
  next_law : ∀ s k r, rng_at s k r →
    ∃ r', rng_next r = Ret ((λ j, out (s + Z.of_nat j) k) <$> seq 0 u64_stride, r') ∧
      rng_at s (S k) r';
  ur_float_law : ∀ ws, length ws = u64_stride → Forall (word 64) ws →
    rng_ur_float ws = to_ur binary32 <$> of64 ws;
  stride_pos : (0 < u64_stride)%nat;
}.

(** The words of std::mersenne_twister_engine. *)
Definition std_words (P : mt_params) (s : Z) (k : nat) : Z := Std.output P (u64 s) k.

Lemma std_rng_laws P : params_ok P → @BaseRngLaws _ (std_rng P) (std_words P).
Proof.
  intros HP. unshelve eapply (Build_BaseRngLaws _ (std_rng P) (std_words P)
    (λ s k w, word 64 s ∧ w = Nat.iter k (Std.step P) (Std.init P s))).
  - intros s Hs. by eexists.
  - intros s k w [Hs ->]. eexists. cbn. split; [|done].
    unfold std_words. rewrite Z.add_0_r, u64_id by done. done.
  - intros [|x [|]] Hl Hw; try discriminate. apply Forall_cons in Hw as [[Hx0 Hx] _].
    cbn. unfold float2, to_ur. rewrite Z.shiftr_div_pow2 by done.
    change 0xFFFFFFFF with (Z.ones 32). by rewrite Z.land_ones by done.
  - cbn. lia.
Defined.

Lemma packet_rng_laws `{IntPacketLaws} P ur :
  params_ok P → (∀ r, register size64 r → ur r = to_ur binary32 <$> r) →
  @BaseRngLaws _ (packet_rng P ur) (std_words P).
Proof.
  intros HP Hur. unshelve eapply (Build_BaseRngLaws _ (packet_rng P ur) (std_words P)
    (λ s k e, engine_inv P (MersenneTwister.seeds s) e (Z.of_nat k))).
  - intros s _. destruct (of_scalar_ok P HP s) as (e & He & _ & Hinv). by exists e.
  - intros s k e Hinv. destruct (next_lanes P HP s e k Hinv) as (p & e' & Hn & Hinv' & _ & Ht & _).
    exists e'. cbn. rewrite Hn. cbn. split; [|done]. rewrite Ht.
    unfold lane_outputs, MersenneTwister.seeds. by rewrite <-list_fmap_compose.
  - intros ws Hl Hw. cbn. apply Hur. by apply of64_register.
  - apply size64_pos.
Qed.

(** ** The parallel adaptor *)

Module Adaptor := ParallelRandomEngineAdaptor.

Section Adaptor.
Context {R : Type} {out : Z → nat → Z} `{BaseRngLaws R out}.
Context (u : UIntType) (numU64 : nat) (Hnum : (0 < numU64)%nat)
  (Hdiv : Nat.divide u64_stride numU64).

(** The words of call [k] of an engine seeded with [s], and of all the engines
    when engine [i] was seeded with [sd i]. *)
Definition call_words (s : Z) (k : nat) : list Z := (λ j, out (s + Z.of_nat j) k) <$> seq 0 u64_stride.
Definition block_words (sd : nat → Z) (k : nat) : list Z :=
  concat ((λ i, call_words (sd i) k) <$> seq 0 (Adaptor.num_parallel numU64)).

Definition engines_at (sd : nat → Z) (k : nat) (rs : list R) : Prop :=
  length rs = Adaptor.num_parallel numU64 ∧ ∀ i r, rs !! i = Some r → rng_at (sd i) k r.

Lemma parallel_words : (Adaptor.num_parallel numU64 * u64_stride)%nat = numU64.
Proof.
  unfold Adaptor.num_parallel. destruct Hdiv as [q ->]. pose proof stride_pos.
  rewrite Nat.div_mul; lia.
Qed.

Lemma store_append {A} (pre buf l : list A) off :
  off = length pre → (off + length l <= length (pre ++ buf))%nat →
  Adaptor.store (pre ++ buf) off l = Ret ((pre ++ l) ++ drop (length l) buf).
Proof.
  intros -> Hl. unfold Adaptor.store. rewrite (proj2 (Nat.leb_le _ _) Hl).
  rewrite take_app_length, drop_app_add. by rewrite app_assoc.
Qed.

(** What the refill loop writes, while engine [i] and later ones are at call
    [k] and the earlier ones past it. *)
Lemma refill_loop_ok {A} (elems : list Z → list A) stride sd k todo rs pre buf i :
  (i + todo)%nat = Adaptor.num_parallel numU64 →
  length rs = Adaptor.num_parallel numU64 →
  (∀ j r, rs !! j = Some r → rng_at (sd j) (if (j <? i)%nat then S k else k) r) →
  (∀ s, length (elems (call_words s k)) = stride) →
  length pre = (i * stride)%nat → length buf = (todo * stride)%nat →
  ∃ rs', Adaptor.refill_loop todo elems stride rs (pre ++ buf) i =
      Ret (rs', pre ++ concat ((λ j, elems (call_words (sd j) k)) <$> seq i todo)) ∧
    engines_at sd (S k) rs'.
Proof.
  revert rs pre buf i. induction todo as [|todo IH]; intros rs pre buf i Hi Hrs Hat Hel Hpre Hbuf.
  - destruct buf; [|done]. exists rs. cbn. split; [done|]. split; [done|].
    intros j r Hj. specialize (Hat j r Hj). apply lookup_lt_Some in Hj.
    destruct (j <? i)%nat eqn:E; [done|]. apply Nat.ltb_ge in E. lia.
  - cbn [Adaptor.refill_loop].
    destruct (lookup_lt_is_Some_2 rs i) as [r Hr]; [lia|].
    rewrite (array_get_ok _ _ r) by (rewrite ?Nat2Z.id; done || lia). cbn [mbind outcome_bind].
    pose proof (Hat i r Hr) as Hr'. rewrite Nat.ltb_irrefl in Hr'.
    destruct (next_law _ _ _ Hr') as (r' & -> & Hr''). cbn [mbind outcome_bind].
    rewrite array_set_ok by lia. cbn [mbind outcome_bind]. rewrite Nat2Z.id.
    fold (call_words (sd i) k).
    rewrite store_append; [|lia|rewrite length_app, Hel; lia]. cbn [mbind outcome_bind].
    destruct (IH (<[i:=r']> rs) (pre ++ elems (call_words (sd i) k)) (drop stride buf) (S i))
      as (rs' & Hrun & Hat'); [lia|by rewrite length_insert| |done|..].
    + intros j rj Hj. destruct (decide (j = i)) as [->|Hne].
      * rewrite list_lookup_insert_eq in Hj by lia. injection Hj as <-.
        rewrite (proj2 (Nat.ltb_lt _ _)) by lia. done.
      * rewrite list_lookup_insert_ne in Hj by done. specialize (Hat j rj Hj).
        destruct (Nat.ltb_spec j i), (Nat.ltb_spec j (S i)); try lia; done.
    + rewrite length_app, Hel. lia.
    + rewrite length_drop. lia.
    + exists rs'. rewrite Hel, Hrun. split; [|done]. cbn. by rewrite <-app_assoc.
Qed.

Lemma elements_app ws ws' : elements u (ws ++ ws') = elements u ws ++ elements u ws'.
Proof. destruct u; [|done]. induction ws as [|w ws IH]; [done|]. cbn in *. by rewrite IH. Qed.

Lemma elements_concat {B} (f : B → list Z) l :
  concat ((λ i, elements u (f i)) <$> l) = elements u (concat (f <$> l)).
Proof.
  induction l as [|x l IH]; [by destruct u|]. cbn [fmap list_fmap concat].
  rewrite IH. by rewrite elements_app.
Qed.

Lemma elements_length ws : (sizeof u * length (elements u ws))%nat = (8 * length ws)%nat.
Proof. destruct u; simpl; rewrite ?length_of64; lia. Qed.

Lemma call_words_length s k : length (call_words s k) = u64_stride.
Proof. unfold call_words. by rewrite length_fmap, length_seq. Qed.

Lemma stride_elements s k : length (elements u (call_words s k)) = Adaptor.result_type_stride u.
Proof.
  unfold Adaptor.result_type_stride. rewrite <-(call_words_length s k), <-elements_length.
  rewrite Nat.mul_comm, Nat.div_mul; [done|]. by destruct u.
Qed.

Lemma buf_size_eq :
  Adaptor.buf_size u numU64 = (Adaptor.num_parallel numU64 * Adaptor.result_type_stride u)%nat.
Proof.
  unfold Adaptor.buf_size, Adaptor.byte_size, Adaptor.result_type_stride.
  rewrite <-parallel_words at 1.
  destruct u; cbn [sizeof].
  - replace (8 * _)%nat with (Adaptor.num_parallel numU64 * u64_stride * 2 * 4)%nat by lia.
    replace (8 * u64_stride)%nat with (u64_stride * 2 * 4)%nat by lia.
    rewrite !Nat.div_mul by done. lia.
  - rewrite !(Nat.mul_comm 8), !Nat.div_mul by done. lia.
Qed.

Lemma buf_size_pos : (0 < Adaptor.buf_size u numU64)%nat.
Proof.
  unfold Adaptor.buf_size, Adaptor.byte_size. apply Nat.div_str_pos. destruct u; cbn; lia.
Qed.

Lemma block_words_length sd k : length (block_words sd k) = numU64.
Proof.
  assert (∀ l, length (concat ((λ i, call_words (sd i) k) <$> l)) = (length l * u64_stride)%nat) as Hl.
  { induction l as [|i l IH]; [done|]. cbn in *. rewrite length_app, call_words_length. lia. }
  unfold block_words. rewrite Hl, length_seq. apply parallel_words.
Qed.

Lemma block_elements_length sd k :
  length (elements u (block_words sd k)) = Adaptor.buf_size u numU64.
Proof.
  unfold Adaptor.buf_size, Adaptor.byte_size.
  assert (8 * numU64 = length (elements u (block_words sd k)) * sizeof u)%nat as ->.
  { by rewrite (Nat.mul_comm (length _)), elements_length, block_words_length. }
  rewrite Nat.div_mul; [done|]. by destruct u.
Qed.

(** After [n] calls of [operator()] on engines that were at call [k0]. *)
Definition adaptor_inv (sd : nat → Z) (k0 : nat) (a : Adaptor.t) (n : nat) : Prop :=
  ∃ b, (n + Adaptor.buf_size u numU64)%nat = (b * Adaptor.buf_size u numU64 + Adaptor.cnt a)%nat ∧
    (Adaptor.cnt a <= Adaptor.buf_size u numU64)%nat ∧
    engines_at sd (k0 + b) (Adaptor.rngs a) ∧
    length (Adaptor.buf a) = Adaptor.buf_size u numU64 ∧
    match b with
    | O => True
    | S b => Adaptor.buf a = elements u (block_words sd (k0 + b))
    end.

Lemma refill_buffer_ok sd k a :
  engines_at sd k (Adaptor.rngs a) → length (Adaptor.buf a) = Adaptor.buf_size u numU64 →
  ∃ rs, Adaptor.refill_buffer u numU64 a =
      Ret (Adaptor.mk rs (elements u (block_words sd k)) (Adaptor.fbuf a) 0 (Adaptor.fcnt a)) ∧
    engines_at sd (S k) rs.
Proof.
  intros [Hl Hat] Hbuf. unfold Adaptor.refill_buffer.
  destruct (refill_loop_ok (elements u) (Adaptor.result_type_stride u) sd k
    (Adaptor.num_parallel numU64) (Adaptor.rngs a) [] (Adaptor.buf a) 0) as (rs & Hrun & Hrs);
    [done|done| |intros; apply stride_elements|done|by rewrite Hbuf, buf_size_eq|].
  { intros j r Hj. by apply Hat. }
  cbn [app] in Hrun. rewrite Hrun. exists rs. cbn [mbind outcome_bind].
  by rewrite elements_concat.
Qed.

Lemma adaptor_next_ok sd k0 a n :
  adaptor_inv sd k0 a n →
  ∃ x a', Adaptor.next u numU64 a = Ret (x, a') ∧ adaptor_inv sd k0 a' (S n) ∧
    elements u (block_words sd (k0 + n / Adaptor.buf_size u numU64))
      !! (n mod Adaptor.buf_size u numU64)%nat = Some x.
Proof.
  intros (b & Hn & Hc & Hrs & Hl & Hbuf). pose proof buf_size_pos as Hpos.
  set (bs := Adaptor.buf_size u numU64) in *. unfold Adaptor.next. fold bs.
  assert (∃ a1 b1, (if (bs <=? Adaptor.cnt a)%nat then Adaptor.refill_buffer u numU64 a else Ret a) = Ret a1 ∧
    n = (b1 * bs + Adaptor.cnt a1)%nat ∧ (Adaptor.cnt a1 < bs)%nat ∧
    engines_at sd (k0 + S b1) (Adaptor.rngs a1) ∧ length (Adaptor.buf a1) = bs ∧
    Adaptor.buf a1 = elements u (block_words sd (k0 + b1))) as
    (a1 & b1 & -> & Hn1 & Hc1 & Hrs1 & Hl1 & Hbuf1).
  { destruct (Nat.leb_spec bs (Adaptor.cnt a)).
    - destruct (refill_buffer_ok sd (k0 + b) a Hrs Hl) as (rs & Hrun & Hrs').
      eexists _, b. split; [exact Hrun|]. cbn. split; [lia|]. split; [lia|].
      rewrite Nat.add_succ_r. split; [done|]. split; [|done].
      by rewrite block_elements_length.
    - destruct b as [|b]; [lia|]. exists a, b. split_and!; try done; lia. }
  destruct (lookup_lt_is_Some_2 (Adaptor.buf a1) (Adaptor.cnt a1)) as [x Hx]; [lia|].
  exists x. eexists. cbn [mbind outcome_bind].
  rewrite (array_get_ok _ _ x) by (rewrite ?Nat2Z.id; done || lia). split; [done|].
  assert (n / bs = b1 ∧ n mod bs = Adaptor.cnt a1)%nat as [-> ->].
  { split; [|symmetry]; [symmetry; apply (Nat.div_unique _ _ _ (Adaptor.cnt a1))|
      apply (Nat.mod_unique _ _ b1)]; lia. }
  split; [|by rewrite <-Hbuf1].
  exists (S b1). cbn. split_and!; try done; lia.
Qed.

Lemma with_rngs_inv sd k0 rs : engines_at sd k0 rs → adaptor_inv sd k0 (Adaptor.with_rngs u numU64 rs) 0.
Proof.
  intros Hrs. exists 0%nat. cbn. rewrite Nat.add_0_r. split_and!; try done; lia || apply length_replicate.
Qed.

Fixpoint adaptor_run (n : nat) (a : Adaptor.t) : outcome (list Z * Adaptor.t) :=
  match n with
  | O => Ret ([], a)
  | S n => '(x, a) ← Adaptor.next u numU64 a; '(xs, a) ← adaptor_run n a; Ret (x :: xs, a)
  end.

Lemma adaptor_run_ok sd k0 n a m :
  adaptor_inv sd k0 a m →
  ∃ xs a', adaptor_run n a = Ret (xs, a') ∧ length xs = n ∧
    ∀ i x, xs !! i = Some x →
      elements u (block_words sd (k0 + (m + i) / Adaptor.buf_size u numU64))
        !! ((m + i) mod Adaptor.buf_size u numU64)%nat = Some x.
Proof.
  revert a m. induction n as [|n IH]; intros a m Hinv.
  - exists [], a. split_and!; [done|done|]. intros i x Hx. by rewrite lookup_nil in Hx.
  - destruct (adaptor_next_ok sd k0 a m Hinv) as (x & a' & Hn & Hinv' & Hx).
    destruct (IH a' (S m) Hinv') as (xs & a'' & Hrun & Hl & Hxs).
    exists (x :: xs), a''. cbn [adaptor_run]. rewrite Hn. cbn [mbind outcome_bind]. rewrite Hrun.
    split_and!; [done|cbn; lia|]. intros [|i] y Hy.
    + injection Hy as <-. by rewrite Nat.add_0_r.
    + rewrite Nat.add_succ_r. apply (Hxs i y Hy).
Qed.

(** ** Constructors *)

Lemma make_rngs_ok s todo i :
  (∀ j, word 64 (u64 (s + Z.of_nat j * Z.of_nat u64_stride))) →
  ∃ rs, Adaptor.make_rngs todo s i = Ret rs ∧ length rs = todo ∧
    ∀ j r, rs !! j = Some r → rng_at (u64 (s + Z.of_nat (i + j) * Z.of_nat u64_stride)) 0 r.
Proof.
  intros Hw. revert i. induction todo as [|todo IH]; intros i.
  - exists []. split_and!; [done|done|]. intros j r Hj. by rewrite lookup_nil in Hj.
  - destruct (make_law _ (Hw i)) as (r & Hr & Hat). destruct (IH (S i)) as (rs & Hrs & Hl & Hats).
    exists (r :: rs). cbn [Adaptor.make_rngs]. rewrite Hr. cbn [mbind outcome_bind]. rewrite Hrs.
    split_and!; [done|cbn; lia|]. intros [|j] r' Hj.
    + injection Hj as <-. by rewrite Nat.add_0_r.
    + rewrite Nat.add_succ_r. apply (Hats j r' Hj).
Qed.

Lemma of_seed_ok s :
  ∃ a, Adaptor.of_seed u numU64 s = Ret a ∧
    adaptor_inv (λ i, u64 (s + Z.of_nat i * Z.of_nat u64_stride)) 0 a 0.
Proof.
  unfold Adaptor.of_seed. destruct (make_rngs_ok s (Adaptor.num_parallel numU64) 0)
    as (rs & -> & Hl & Hat); [intros; apply word_u64|].
  eexists. split; [done|]. apply with_rngs_inv. split; [done|]. intros i r Hi. by apply Hat.
Qed.

End Adaptor.

(** ** Sequences *)

(** The [i]-th result of an adaptor of [numU64] words seeded with [s]: the
    engines seeded with [s], [s + 1], ... each give a word, then the next one. *)
Definition reference_output (P : mt_params) (u : UIntType) (numU64 : nat) (s : Z) (i : nat) : Z :=
  let bs := Adaptor.buf_size u numU64 in
  nth (i mod bs) (elements u ((λ j, Std.output P (u64 (s + Z.of_nat j)) (i / bs)) <$> seq 0 numU64)) 0.

Lemma fmap_seq_shift {A} (g : nat → A) m k st :
  (λ j, g (m + j)%nat) <$> seq k st = g <$> seq (m + k) st.
Proof.
  revert k. induction st as [|st IH]; intros k; [done|]. cbn. f_equal. rewrite IH.
  by rewrite Nat.add_succ_r.
Qed.

Lemma concat_seq {A} (g : nat → A) n st :
  concat ((λ i, (λ j, g (i * st + j)%nat) <$> seq 0 st) <$> seq 0 n) = g <$> seq 0 (n * st).
Proof.
  induction n as [|n IH]; [done|].
  rewrite seq_S, fmap_app, concat_app, IH. cbn [fmap list_fmap concat app].
  rewrite app_nil_r. replace (S n * st)%nat with (n * st + st)%nat by lia.
  rewrite seq_app, fmap_app. f_equal. cbn [Nat.add].
  rewrite (fmap_seq_shift g (n * st) 0 st). by rewrite Nat.add_0_r.
Qed.

(** Lists given by their lookups. *)
Lemma list_nth_eq (xs : list Z) n (f : nat → list Z) (g : nat → nat) :
  length xs = n → (∀ i x, xs !! i = Some x → f i !! g i = Some x) →
  xs = (λ i, nth (g i) (f i) 0) <$> seq 0 n.
Proof.
  intros Hl Hx. apply list_eq. intros i. rewrite list_lookup_fmap.
  destruct (decide (i < n)%nat).
  - rewrite lookup_seq_lt by done. cbn. destruct (lookup_lt_is_Some_2 xs i) as [x Hi]; [lia|].
    specialize (Hx i x Hi). by rewrite Hi, nth_lookup, Hx.
  - rewrite (lookup_ge_None_2 xs) by lia. by rewrite lookup_seq_ge by lia.
Qed.

Section Sequences.
Context {R : Type} (P : mt_params) `{BaseRngLaws R (std_words P)}.
Context (u : UIntType) (numU64 : nat) (Hnum : (0 < numU64)%nat)
  (Hdiv : Nat.divide u64_stride numU64).

Lemma block_words_seeded s k :
  block_words (out := std_words P) numU64 (λ i, u64 (s + Z.of_nat i * Z.of_nat u64_stride)) k =
    (λ j, Std.output P (u64 (s + Z.of_nat j)) k) <$> seq 0 numU64.
Proof.
  rewrite <-(parallel_words (out := std_words P) numU64 Hnum Hdiv) at 2.
  rewrite <-concat_seq. unfold block_words, call_words, std_words. f_equal.
  apply list_fmap_ext. intros _ i _. apply list_fmap_ext. intros _ j _.
  f_equal. unfold u64. rewrite Z.add_mod_idemp_l by done. f_equal. lia.
Qed.

Lemma seeded_run s n :
  ∃ a a', Adaptor.of_seed u numU64 s = Ret a ∧
    adaptor_run u numU64 n a = Ret (reference_output P u numU64 s <$> seq 0 n, a').
Proof.
  destruct (of_seed_ok u numU64 Hnum s) as (a & Ha & Hinv).
  destruct (adaptor_run_ok u numU64 Hnum Hdiv _ 0 n a 0 Hinv) as (xs & a' & Hrun & Hl & Hxs).
  exists a, a'. split; [done|]. rewrite Hrun. repeat f_equal.
  rewrite (list_nth_eq xs n _ _ Hl Hxs). apply list_fmap_ext. intros _ i _.
  cbn [Nat.add]. by rewrite block_words_seeded.
Qed.

(** The parallel adaptor constructed from a base engine copies that engine, so
    all its engines produce the same words: with [numU64] words per block, the
    [i]-th 64-bit result repeats the one [u64_stride] places before it, unless
    [i] is in the first stride of a block. *)
Theorem copied_engines_repeat s k o n :
  u = uint64_t → rng_at s k o →
  ∃ xs a', adaptor_run u numU64 n (Adaptor.of_engine u numU64 o) = Ret (xs, a') ∧
    xs = (λ i, Std.output P (u64 (s + Z.of_nat ((i mod numU64) mod u64_stride))) (k + i / numU64))
           <$> seq 0 n.
Proof.
  intros -> Hat. pose proof stride_pos as Hpos.
  assert (engines_at (out := std_words P) numU64 (λ _, s) k
    (replicate (Adaptor.num_parallel numU64) o)) as Hrs.
  { split; [apply length_replicate|]. intros i r [-> _]%lookup_replicate. done. }
  destruct (adaptor_run_ok uint64_t numU64 Hnum Hdiv _ k n _ 0
    (with_rngs_inv uint64_t numU64 _ _ _ Hrs)) as (xs & a' & Hrun & Hl & Hxs).
  exists xs, a'. split; [done|].
  rewrite (list_nth_eq xs n _ _ Hl Hxs). apply list_fmap_ext. intros _ i _. cbn [Nat.add elements].
  assert (Adaptor.buf_size uint64_t numU64 = numU64) as ->.
  { unfold Adaptor.buf_size, Adaptor.byte_size. change (sizeof uint64_t) with 8%nat.
    by rewrite Nat.mul_comm, Nat.div_mul. }
  set (b := (i / numU64)%nat). set (w := (i mod numU64)%nat).
  assert (block_words (out := std_words P) numU64 (λ _, s) (k + b) =
    (λ m, std_words P (s + Z.of_nat (m mod u64_stride)) (k + b)) <$> seq 0 numU64) as ->.
  { rewrite <-(parallel_words (out := std_words P) numU64 Hnum Hdiv) at 2. rewrite <-concat_seq.
    unfold block_words, call_words. f_equal. apply list_fmap_ext. intros _ q _.
    apply list_fmap_ext. intros j' j Hj. apply lookup_seq in Hj as [-> Hj]. cbn [Nat.add].
    by rewrite (Nat.add_comm (q * _)), Nat.Div0.mod_add, Nat.mod_small. }
  assert (w < numU64)%nat by (apply Nat.mod_upper_bound; lia).
  rewrite nth_lookup, list_lookup_fmap, lookup_seq_lt by done. done.
Qed.

End Sequences.

(** C21. P8_mt19937 with 64-bit or 32-bit results gives one sequence whatever the
    base engine that the instruction set selects: std::mt19937_64 alone, its
    two-lane version for SSE and its four-lane version for AVX2, with any
    feature macros.  The [i]-th group of eight words are the [i]-th outputs of
    std::mt19937_64 for the seeds [s], ..., [s + 7]. *)
Theorem P8_same_on_every_isa `{EigenPackets} `{!EigenPacketLaws} `{EigenFloatPackets}
    `{!EigenFloatPacketLaws} (fx : features) u s n :
  let P := mt19937_64 in
  let sequence {R} (B : BaseRng R) :=
    a ← Adaptor.of_seed u P8_words s; '(xs, _) ← adaptor_run u P8_words n a; Ret xs in
  let reference := reference_output P u P8_words s <$> seq 0 n in
  sequence (std_rng P) = Ret reference ∧
  sequence (packet_rng (H := packet4i fx) P bit_to_ur_float) = Ret reference ∧
  sequence (packet_rng (H := packet8i fx) P bit_to_ur_float) = Ret reference.
Proof.
  cbv zeta.
  assert (∀ R (B : BaseRng R) (L : BaseRngLaws (std_words mt19937_64)),
    Nat.divide u64_stride P8_words →
    (a ← Adaptor.of_seed u P8_words s; '(xs, _) ← adaptor_run u P8_words n a; Ret xs) =
      Ret (reference_output mt19937_64 u P8_words s <$> seq 0 n)) as Hrun.
  { intros R B L Hd. destruct (seeded_run mt19937_64 u P8_words ltac:(unfold P8_words; lia) Hd s n)
      as (a & a' & -> & Hr). cbn [mbind outcome_bind]. by rewrite Hr. }
  pose proof mt19937_64_ok as HP. split_and!.
  - apply Hrun; [by apply std_rng_laws|]. exists 8%nat. done.
  - apply Hrun; [|by exists 4%nat].
    apply (packet_rng_laws (H0 := packet4i_laws fx)); [done|]. intros r. apply float_lanes.
  - apply Hrun; [|by exists 2%nat].
    apply (packet_rng_laws (H0 := packet8i_laws fx)); [done|]. intros r. apply float_lanes.
Qed.

(** ** Classification and storage *)

Lemma land_succ_zero m : 0 <= m → Z.land m (m + 1) = 0 → m + 1 = 2 ^ Z.log2 (m + 1).
Proof.
  intros Hm Hl. pose proof (Z.log2_spec (m + 1) ltac:(lia)) as [Hlo Hhi].
  destruct (Z.lt_ge_cases m (2 ^ Z.log2 (m + 1))) as [|Hge]; [lia|]. exfalso.
  pose proof (Z.log2_nonneg (m + 1)).
  assert (0 < m) by (pose proof (Z.pow_pos_nonneg 2 (Z.log2 (m + 1)) ltac:(lia) ltac:(lia)); lia).
  assert (Z.log2 m = Z.log2 (m + 1)) as Heq.
  { apply Z.log2_unique; [done|]. lia. }
  assert (Z.testbit (Z.land m (m + 1)) (Z.log2 (m + 1)) = true) as Hb.
  { rewrite Z.land_spec, Z.bit_log2 by lia. rewrite <-Heq at 1. by rewrite Z.bit_log2. }
  by rewrite Hl, Z.bits_0 in Hb.
Qed.

(** A scalar engine counts as one with full bits exactly when its results start
    at 0 and end below some power of two, which need not be that of its
    result type: an engine of 24 random bits in a 32-bit type qualifies. *)
Theorem full_bit_engines c w :
  result_type c = integral w → 0 < w → 0 <= RandomEngine.emax c < 2 ^ w →
  GetRandomEngineType c = scalar_fullbit ↔
    RandomEngine.emin c = 0 ∧ ∃ b, 0 <= b <= w ∧ RandomEngine.emax c = 2 ^ b - 1.
Proof.
  intros Hc Hw Hm. unfold GetRandomEngineType, IsPacketRandomEngine, IsScalarFullBitRandomEngine,
    IsScalarRandomEngine. rewrite Hc.
  assert (full_bits w c = true ↔
    RandomEngine.emin c = 0 ∧ ∃ b, 0 <= b <= w ∧ RandomEngine.emax c = 2 ^ b - 1) as Hiff.
  { unfold full_bits. rewrite andb_true_iff, !Z.eqb_eq.
    destruct (decide (RandomEngine.emax c + 1 = 2 ^ w)) as [Heq|Hne].
    - rewrite Heq, Z.mod_same, Z.land_0_r by lia. split; intros [He _]; (split; [done|]); [|done].
      exists w. lia.
    - rewrite Z.mod_small by lia. split; intros [He Hb]; (split; [done|]).
      + apply land_succ_zero in Hb; [|lia]. pose proof (Z.log2_nonneg (RandomEngine.emax c + 1)).
        exists (Z.log2 (RandomEngine.emax c + 1)). split; [|lia]. split; [done|].
        apply (Z.pow_le_mono_r_iff 2); lia.
      + destruct Hb as (b & Hb & ->). replace (2 ^ b - 1) with (Z.ones b) by (rewrite Z.ones_equiv; lia).
        rewrite Z.ones_equiv at 2. replace (Z.pred (2 ^ b) + 1) with (2 ^ b) by lia.
        rewrite Z.land_comm, Z.land_ones, Z.mod_same by (lia || apply Z.pow_nonzero; lia). done. }
  destruct (full_bits w c); cbn [negb].
  - split; [intros _; by apply Hiff|done].
  - split; [done|]. intros Hx. by apply Hiff in Hx.
Qed.

(** [allocate] reserves enough memory: the array starts at a multiple of the
    alignment, after the address that [malloc] returned, and ends inside the
    block. *)
Theorem aligned_array_fits memory size_of length a :
  0 <= a < 64 → 0 <= memory → 0 <= size_of →
  memory + size_of * Z.of_nat length + 2 ^ a < 2 ^ 64 →
  let start := AlignedArray.aligned memory (2 ^ a) in
  start mod 2 ^ a = 0 ∧ memory < start ∧
  start + size_of * Z.of_nat length <= memory + AlignedArray.allocation_size size_of length (2 ^ a).
Proof.
  intros Ha Hmem Hs Hfit. cbv zeta. unfold AlignedArray.aligned, AlignedArray.allocation_size.
  assert (0 < 2 ^ a) by (apply Z.pow_pos_nonneg; lia).
  assert (0 <= size_of * Z.of_nat length) by nia.
  rewrite !u64_id by (unfold word; lia).
  assert (Z.land (memory + 2 ^ a) (2 ^ 64 - 1 - (2 ^ a - 1)) = (memory + 2 ^ a) / 2 ^ a * 2 ^ a) as ->.
  { replace (2 ^ 64 - 1 - (2 ^ a - 1)) with (Z.ones 64 - Z.ones a) by (rewrite !Z.ones_equiv; lia).
    rewrite Z.sub_nocarry_ldiff.
    - rewrite Z.ldiff_land, Z.land_assoc, Z.land_ones, Z.mod_small, <-Z.ldiff_land by lia.
      rewrite Z.ldiff_ones_r, Z.shiftl_mul_pow2, Z.shiftr_div_pow2 by lia. done.
    - apply Z.bits_inj'. intros n Hn. rewrite Z.ldiff_spec, Z.bits_0, !Z.testbit_ones_nonneg by lia.
      destruct (Z.ltb_spec n a), (Z.ltb_spec n 64); done || lia. }
  rewrite Z.mod_mul by lia. pose proof (Z.div_mod (memory + 2 ^ a) (2 ^ a)).
  pose proof (Z.mod_pos_bound (memory + 2 ^ a) (2 ^ a)). split_and!; [done|lia|lia].
Qed.

(** A moved-from array holds a null pointer: copying it, or assigning a copy to
    it, dereferences the pointer; copies of other arrays are equal to them. *)
Theorem aligned_array_moves {A} (l l' : list A) n :
  (0 < n)%nat → length l = n → length l' = n →
  let '(x, o) := AlignedArray.move (Some l) in
  x = Some l ∧ AlignedArray.copy n o = Undef null_dereference ∧
  AlignedArray.assign_copy n o (Some l') = Undef null_dereference ∧
  AlignedArray.copy n x = Ret x ∧ AlignedArray.assign_copy n x (Some l') = Ret (Some l').
Proof.
  intros Hn Hl Hl'. cbn. rewrite (proj2 (Nat.eqb_neq n 0)) by lia.
  rewrite !take_ge by lia. done.
Qed.

(** ** Witnesses *)

Definition no_features : features := mk_features false false false false.

Lemma P8_same_on_every_isa_witness :
  (a ← Adaptor.of_seed (H := std_rng mt19937_64) uint64_t P8_words 42;
   '(xs, _) ← adaptor_run (H := std_rng mt19937_64) uint64_t P8_words 1 a; Ret xs) =
    Ret (reference_output mt19937_64 uint64_t P8_words 42 <$> seq 0 1).
Proof.
  exact (proj1 (P8_same_on_every_isa (H := instructions) (H0 := instructions_laws)
    (H1 := float_instructions) (H2 := float_instructions_laws)
    no_features uint64_t 42 1)).
Defined.

Lemma copied_engines_repeat_witness :
  ∃ xs a', adaptor_run (H := std_rng mt19937_64) uint64_t 2 3
      (Adaptor.of_engine (H := std_rng mt19937_64) uint64_t 2 (Std.init mt19937_64 7)) = Ret (xs, a') ∧
    xs = [Std.output mt19937_64 7 0; Std.output mt19937_64 7 0; Std.output mt19937_64 7 1].
Proof.
  apply (copied_engines_repeat (H := std_rng mt19937_64)
    (H0 := std_rng_laws mt19937_64 mt19937_64_ok) mt19937_64 uint64_t 2 ltac:(lia)
    ltac:(by exists 2%nat) 7 0 (Std.init mt19937_64 7) 3 eq_refl).
  split; [unfold word; lia|done].
Defined.

(** [std::ranlux24_base]. *)
Lemma full_bit_engines_witness :
  GetRandomEngineType (mk_class (integral 32) 0 (2 ^ 24 - 1)) = scalar_fullbit.
Proof.
  apply (full_bit_engines (mk_class (integral 32) 0 (2 ^ 24 - 1)) 32); cbn; try lia; [done|].
  split; [done|]. exists 24. lia.
Defined.

Lemma aligned_array_fits_witness :
  AlignedArray.aligned 4104 (2 ^ 6) mod 64 = 0 ∧ 4104 < AlignedArray.aligned 4104 (2 ^ 6) ∧
  AlignedArray.aligned 4104 (2 ^ 6) + 16 * 624 <=
    4104 + AlignedArray.allocation_size 16 624 (2 ^ 6).
Proof. apply (aligned_array_fits 4104 16 624 6); lia. Defined.

Lemma aligned_array_moves_witness :
  AlignedArray.copy 2 (AlignedArray.move (Some [1; 2])).2 = Undef null_dereference.
Proof. apply (aligned_array_moves [1; 2] [3; 4] 2); (lia || done). Defined.
