(* ===== verification/PacketFilter.v ===== *)
(** EigenRand/arch/SSE/PacketFilter.h and EigenRand/arch/AVX/PacketFilter.h:
    [CompressMask], which collects the lanes of a packet that satisfy a
    condition until a whole packet of them is there.

    [CompressMask::compress_append] is a queue of one packet: it loses no
    selected lane, repeats none, and keeps their order. *)

From S2P Require Import Prelude.
From S2P Require Import Simd.
From S2P Require Import PacketMath.
From S2P Require Import PacketMathProps.

(** The tables of the class. *)
Record CompressMask := mk_compress {
  idx : list (list (list Z));  (* by offset and mask: the lane taken for each place *)
  selector : list (list Z);
  cnt : list Z;
}.

(** The results of [compress_append]: the arguments passed by reference and
    the number returned. *)
Record appended := mk_appended { value : list Z; rest : list Z; full : bool; new_count : Z }.

(** [count(mask)] over [todo] bits, into a [uint8_t]. *)
Fixpoint count_loop (todo : nat) (m ret : Z) : Z :=
  match todo with
  | O => ret
  | S todo => count_loop todo (Z.shiftr m 1) ((ret + Z.land m 1) mod 2 ^ 8)
  end.

(** ** CompressMask<16> *)

Module SSEFilter.
Section Code.
Context (fx : features).

Definition full_size : Z := 4.

(** The loop of [make_compress]: two bits of [ret] for each place. *)
Fixpoint compress_loop (todo : nat) (m n i ret : Z) : Z :=
  match todo with
  | O => ret
  | S todo =>
      let l := Z.land m 1 in
      let m := Z.shiftr m 1 in
      if l =? 0 then compress_loop todo m n (i + 1) ret
      else
        let ret := if 0 <=? n then Z.lor ret (Z.shiftl (Z.land i 3) (2 * n)) mod 2 ^ 8 else ret in
        let n := n + 1 in
        if 4 <=? n then ret else compress_loop todo m n (i + 1) ret
  end.
Definition make_compress (m offset : Z) : Z := compress_loop 4 m offset 0 0.

Definition count (m : Z) : Z := count_loop 4 m 0.

(** The constructor; an entry of [idx] is a byte. *)
Definition create : CompressMask := mk_compress
  ((λ o, (λ i, [make_compress (Z.of_nat i) (if (o <? 4)%nat then Z.of_nat o else Z.of_nat o - 7)])
     <$> seq 0 16) <$> seq 0 7)
  ((λ k, mask 32 <$> (replicate k true ++ replicate (4 - k) false)) <$> seq 0 4)
  ((λ i, count (Z.of_nat i)) <$> seq 0 16).

Definition permute (p : list Z) (i : Z) : list Z :=
  [lane p (Z.land i 3); lane p (Z.land (Z.shiftr i 2) 3);
   lane p (Z.land (Z.shiftr i 4) 3); lane p (Z.land (Z.shiftr i 6) 3)].

Definition index (cm : CompressMask) (o m : Z) : outcome Z :=
  row ← array_get (idx cm) o; e ← array_get row m; array_get e 0.

Definition compress_append (cm : CompressMask) (value msk rest : list Z) (rest_cnt : Z) :
    outcome appended :=
  let m := movemask_ps msk in
  c ← array_get (cnt cm) m;
  if c =? full_size then Ret (mk_appended value rest true rest_cnt)
  else
    i ← index cm rest_cnt m;
    sel ← array_get (selector cm) rest_cnt;
    let p1 := SSE.pblendv fx sel rest (permute value i) in
    let new_cnt := rest_cnt + c in
    if full_size <=? new_cnt then
      rest ← (if full_size <? new_cnt
              then j ← index cm (new_cnt - c + full_size - 1) m; Ret (permute value j)
              else Ret rest);
      Ret (mk_appended p1 rest true (new_cnt - full_size))
    else Ret (mk_appended value p1 false new_cnt).

End Code.
End SSEFilter.

(** ** CompressMask<32> *)

Module AVXFilter.
Section Code.
Context `{EigenPackets} (fx : features).

Definition full_size : Z := 8.

Fixpoint compress_loop (todo : nat) (m n i : Z) (ret : list Z) : list Z :=
  match todo with
  | O => ret
  | S todo =>
      let l := Z.land m 1 in
      let m := Z.shiftr m 1 in
      if l =? 0 then compress_loop todo m n (i + 1) ret
      else
        let ret := if 0 <=? n then <[Z.to_nat n := i]> ret else ret in
        let n := n + 1 in
        if 8 <=? n then ret else compress_loop todo m n (i + 1) ret
  end.
Definition make_compress (m offset : Z) : list Z := compress_loop 8 m offset 0 (replicate 8 0).

Definition count (m : Z) : Z := count_loop 8 m 0.

Definition create : CompressMask := mk_compress
  ((λ o, (λ i, make_compress (Z.of_nat i) (if (o <? 8)%nat then Z.of_nat o else Z.of_nat o - 15))
     <$> seq 0 256) <$> seq 0 15)
  ((λ k, mask 32 <$> (replicate k true ++ replicate (8 - k) false)) <$> seq 0 8)
  ((λ i, count (Z.of_nat i)) <$> seq 0 256).

Definition permute (p i : list Z) : list Z :=
  if avx2 fx then permutevar8x32 p i
  else
    let l := permutevar_ps p i in
    let h := permutevar_ps (swap_halves p) i in
    let '(i1, i2) := AVX.split_two i in
    let i1 := slli_epi32 29 i1 in
    let i2 := slli_epi32 29 i2 in
    let c := AVX.combine_two (cmplt_epi32 i1 (pset1 4 0)) (cmplt_epi32 (pset1 4 (-1)) i2) in
    AVX.pblendv c h l.

Definition index (cm : CompressMask) (o m : Z) : outcome (list Z) :=
  row ← array_get (idx cm) o; array_get row m.

Definition compress_append (cm : CompressMask) (value msk rest : list Z) (rest_cnt : Z) :
    outcome appended :=
  let m := movemask_ps msk in
  c ← array_get (cnt cm) m;
  if c =? full_size then Ret (mk_appended value rest true rest_cnt)
  else
    i ← index cm rest_cnt m;
    sel ← array_get (selector cm) rest_cnt;
    let p1 := AVX.pblendv sel rest (permute value i) in
    let new_cnt := rest_cnt + c in
    if full_size <=? new_cnt then
      rest ← (if full_size <? new_cnt
              then j ← index cm (new_cnt - c + full_size - 1) m; Ret (permute value j)
              else Ret rest);
      Ret (mk_appended p1 rest true (new_cnt - full_size))
    else Ret (mk_appended value p1 false new_cnt).

End Code.
End AVXFilter.

(** ** Specification *)

(** The places of the lanes that a list of conditions selects, and the lanes. *)
Fixpoint positions (i : Z) (bs : list bool) : list Z :=
  match bs with
  | [] => []
  | b :: bs => if b then i :: positions (i + 1) bs else positions (i + 1) bs
  end.
Definition selected (bs : list bool) (v : list Z) : list Z := lane v <$> positions 0 bs.

(** The conditions that a mask packet stands for. *)
Definition conditions (msk : list Z) : list bool := (λ x, 2 ^ 31 <=? x) <$> msk.

(** Appending to a queue whose first [r] lanes are used, in packets of [n]. *)
Definition append_spec (n : nat) (bs : list bool) (v q : list Z) (r : nat) (a : appended) : Prop :=
  if forallb (λ b, b) bs then a = mk_appended v q true (Z.of_nat r)
  else
    let q' := take r q ++ selected bs v in
    (length (rest a) = n ∧ Forall (word 32) (rest a)) ∧
    if (n <=? length q')%nat
    then value a = take n q' ∧ full a = true ∧ new_count a = Z.of_nat (length q' - n) ∧
         take (length q' - n) (rest a) = drop n q'
    else value a = v ∧ full a = false ∧ new_count a = Z.of_nat (length q') ∧
         take (length q') (rest a) = q'.

(** ** What the tables must hold *)

Section Tables.
Context (n : nat) (ix : nat → list bool → list Z).

(** The lanes that entry [o] of the table takes, for the conditions [bs]. *)
Definition entries_ok (bs : list bool) (r : nat) : Prop :=
  let s := positions 0 bs in
  let c := length s in
  take (Nat.min n (r + c) - r) (drop r (ix r bs)) = take (Nat.min n (r + c) - r) s ∧
  ((n < r + c)%nat → take (r + c - n) (ix (r + n - 1) bs) = drop (n - r) s).

Definition entries_okb (bs : list bool) (r : nat) : bool :=
  let s := positions 0 bs in
  let c := length s in
  bool_decide (take (Nat.min n (r + c) - r) (drop r (ix r bs)) = take (Nat.min n (r + c) - r) s) &&
  (negb (n <? r + c)%nat ||
   bool_decide (take (r + c - n) (ix (r + n - 1) bs) = drop (n - r) s)).

Lemma entries_okb_true bs r : entries_okb bs r = true → entries_ok bs r.
Proof.
  unfold entries_okb, entries_ok. intros [H1%bool_decide_eq_true H2]%andb_true_iff.
  split; [done|]. intros Hlt. apply Nat.ltb_lt in Hlt. rewrite Hlt in H2.
  by apply bool_decide_eq_true in H2.
Qed.

End Tables.

Fixpoint all_bools (n : nat) : list (list bool) :=
  match n with
  | O => [[]]
  | S n => (cons true <$> all_bools n) ++ (cons false <$> all_bools n)
  end.

Lemma all_bools_complete bs : bs ∈ all_bools (length bs).
Proof.
  induction bs as [|b bs IH]; [by apply list_elem_of_singleton|].
  cbn. apply elem_of_app. destruct b; [left|right]; by apply list_elem_of_fmap_2.
Qed.

Lemma all_bools_check n f bs : forallb f (all_bools n) = true → length bs = n → f bs = true.
Proof.
  intros Hall <-. rewrite forallb_forall in Hall. apply Hall.
  apply list_elem_of_In, all_bools_complete.
Qed.

(** ** From tables to lanes *)

Lemma positions_length i bs : length (positions i bs) = count_occ bool_dec bs true.
Proof. revert i. induction bs as [|[] bs IH]; intros i; cbn; [done| |]; by rewrite ?IH. Qed.

Lemma select_false n (q p : list Z) :
  length q = n → length p = n → select (replicate n false) q p = p.
Proof.
  unfold select. revert n p. induction q as [|x q IH]; intros [|n] [|y p] Hq Hp; try done.
  cbn. f_equal. apply IH; simpl in *; lia.
Qed.

Lemma blend_prefix (r n : nat) (q p : list Z) :
  (r <= n)%nat → length q = n → length p = n →
  select (replicate r true ++ replicate (n - r) false) q p = take r q ++ drop r p.
Proof.
  unfold select. revert n q p. induction r as [|r IH]; intros n q p Hr Hq Hp.
  - cbn. rewrite Nat.sub_0_r. by apply select_false.
  - destruct n as [|n]; [lia|]. destruct q as [|x q], p as [|y p]; try done. cbn.
    f_equal. apply IH; simpl in *; lia.
Qed.

(** The queue after an append, from the entries of the tables. *)
Lemma append_lists n ix bs v q r a :
  (r < n)%nat → length q = n → Forall (word 32) q → (∀ i, word 32 (lane v i)) →
  length bs = n → forallb (λ b, b) bs = false →
  entries_ok n ix bs r → (∀ o, length (ix o bs) = n) →
  let c := length (positions 0 bs) in
  let p1 := take r q ++ drop r (lane v <$> ix r bs) in
  a = (if (n <=? r + c)%nat
       then mk_appended p1 (if (n <? r + c)%nat then lane v <$> ix (r + n - 1)%nat bs else q)
              true (Z.of_nat (r + c - n))
       else mk_appended v p1 false (Z.of_nat (r + c))) →
  append_spec n bs v q r a.
Proof.
  intros Hr Hq Hwq Hwv Hbs Hall [H1 H2] Hlen c p1 ->. fold c in H1, H2. unfold append_spec. rewrite Hall.
  assert (length (selected bs v) = c) as Hsel by (unfold selected; by rewrite length_fmap).
  assert (length (take r q ++ selected bs v) = (r + c)%nat) as Hq'.
  { rewrite length_app, length_take, Hsel. lia. }
  assert (length p1 = n) as Hp1.
  { unfold p1. rewrite length_app, length_take, length_drop, length_fmap, Hlen. lia. }
  assert (∀ l, Forall (word 32) (lane v <$> l)) as Hwl.
  { intros l. apply Forall_fmap, Forall_true. intros. apply Hwv. }
  assert (Forall (word 32) p1) as Hwp1.
  { apply Forall_app. split; [by apply Forall_take|]. apply Forall_drop, Hwl. }
  rewrite Hq'. destruct (Nat.leb_spec n (r + c)) as [Hge|Hlt]; cbn [rest value full new_count].
  - split.
    { destruct (_ <? _)%nat; [|done]. split; [by rewrite length_fmap, Hlen|done]. }
    split_and!; [|done|done|].
    + rewrite take_app, take_take, length_take, Nat.min_r by lia. unfold p1. f_equal.
      rewrite Hq, Nat.min_l by lia. unfold selected. rewrite <-fmap_drop, <-fmap_take. f_equal.
      rewrite Nat.min_l in H1 by lia. rewrite <-H1, take_ge; [done|]. rewrite length_drop, Hlen. lia.
    + rewrite drop_app, length_take, Hq, Nat.min_l by lia.
      rewrite (drop_ge (take r q)) by (rewrite length_take; lia). cbn [app].
      destruct (Nat.ltb_spec n (r + c)) as [Hgt|Hle].
      * rewrite <-fmap_take, H2 by done. unfold selected. by rewrite fmap_drop.
      * replace (r + c - n)%nat with 0%nat by lia. rewrite (drop_ge (selected bs v)) by lia. done.
  - split; [done|]. split_and!; [done|done|done|].
    unfold p1. rewrite take_app, length_take, take_take, Hq, !Nat.min_r by lia. rewrite Nat.min_l by lia.
    f_equal. unfold selected. rewrite <-fmap_drop, <-fmap_take. f_equal.
    rewrite Nat.min_r in H1 by lia. replace (r + c - r)%nat with c in * by lia.
    rewrite H1. apply take_ge. lia.
Qed.

(** ** The tables of the two classes *)

Definition is_ret {A} (o : outcome A) : bool := match o with Ret _ => true | _ => false end.

Section Checked.
Context (n : nat) (cm : CompressMask) {E : Type} (index : Z → Z → outcome E) (dflt : E)
  (places : E → list Z).

Definition entry (o : nat) (bs : list bool) : E :=
  match index (Z.of_nat o) (bits_of bs) with Ret e => e | _ => dflt end.

Definition check (bs : list bool) (r : nat) : bool :=
  let c := length (positions 0 bs) in
  bool_decide (array_get (cnt cm) (bits_of bs) = Ret (Z.of_nat c)) &&
  bool_decide (array_get (selector cm) (Z.of_nat r) =
    Ret (mask 32 <$> (replicate r true ++ replicate (n - r) false))) &&
  is_ret (index (Z.of_nat r) (bits_of bs)) &&
  (negb (n <? r + c)%nat || is_ret (index (Z.of_nat (r + n - 1)) (bits_of bs))) &&
  entries_okb n (λ o bs, places (entry o bs)) bs r.

Definition check_all : bool := forallb (λ bs, forallb (check bs) (seq 0 n)) (all_bools n).

Lemma check_spec bs r :
  check_all = true → length bs = n → (r < n)%nat →
  let c := length (positions 0 bs) in
  array_get (cnt cm) (bits_of bs) = Ret (Z.of_nat c) ∧
  array_get (selector cm) (Z.of_nat r) =
    Ret (mask 32 <$> (replicate r true ++ replicate (n - r) false)) ∧
  index (Z.of_nat r) (bits_of bs) = Ret (entry r bs) ∧
  ((n < r + c)%nat → index (Z.of_nat (r + n - 1)) (bits_of bs) = Ret (entry (r + n - 1) bs)) ∧
  entries_ok n (λ o bs, places (entry o bs)) bs r.
Proof.
  intros Hall Hbs Hr c. pose proof (all_bools_check _ _ _ Hall Hbs) as Hc. cbn in Hc.
  rewrite forallb_forall in Hc. specialize (Hc r). rewrite in_seq in Hc.
  specialize (Hc ltac:(lia)). unfold check in Hc. fold c in Hc.
  repeat match type of Hc with _ && _ = true => apply andb_true_iff in Hc as [Hc ?] end.
  apply bool_decide_eq_true in Hc. split; [done|]. split; [by eapply bool_decide_eq_true|].
  split; [unfold entry; by destruct (index (Z.of_nat r) (bits_of bs))|].
  split; [|by apply entries_okb_true]. intros Hlt. apply Nat.ltb_lt in Hlt.
  match goal with H : negb _ || _ = true |- _ => rewrite Hlt in H; cbn in H end.
  unfold entry. by destruct (index (Z.of_nat (r + n - 1)) (bits_of bs)).
Qed.

End Checked.

Lemma positions_le bs i : (length (positions i bs) <= length bs)%nat.
Proof. revert i. induction bs as [|[] bs IH]; intros j; cbn; [lia| |]; specialize (IH (j + 1)); lia. Qed.

Lemma all_true_positions bs i : forallb (λ b, b) bs = true ↔ length (positions i bs) = length bs.
Proof.
  revert i. induction bs as [|[] bs IH]; intros i; cbn; [done| |].
  - rewrite (IH (i + 1)). lia.
  - pose proof (positions_le bs (i + 1)). split; [done|lia].
Qed.

(** Two-bit places of a byte, and places of a list. *)
Definition byte_places (e : Z) : list Z :=
  [Z.land e 3; Z.land (Z.shiftr e 2) 3; Z.land (Z.shiftr e 4) 3; Z.land (Z.shiftr e 6) 3].
Definition list_places (e : list Z) : list Z := (λ k, nth k e 0 mod 8) <$> seq 0 8.

Lemma sse_tables :
  check_all 4 SSEFilter.create (SSEFilter.index SSEFilter.create) 0 byte_places = true.
Proof. vm_compute. reflexivity. Qed.

Lemma avx_tables :
  check_all 8 AVXFilter.create (AVXFilter.index AVXFilter.create) [] list_places = true.
Proof. vm_compute. reflexivity. Qed.

(** ** Permutations *)

Lemma sse_permute v e : SSEFilter.permute v e = lane v <$> byte_places e.
Proof. done. Qed.

(** An index of a lane of an AVX register. *)
Definition lane_index (i : Z) : Prop := 0 <= i < 8.

Lemma lane_index_cases i :
  lane_index i → i = 0 ∨ i = 1 ∨ i = 2 ∨ i = 3 ∨ i = 4 ∨ i = 5 ∨ i = 6 ∨ i = 7.
Proof. unfold lane_index. lia. Qed.

Section Permute.
Context `{EigenPackets} `{!EigenPacketLaws}.

(** Without AVX2 the permutation is pieced together from the two halves. *)
Lemma avx_permute fx v e :
  register 4 v → length e = 8%nat → Forall lane_index e →
  AVXFilter.permute fx v e = lane v <$> list_places e.
Proof.
  intros Hv He Hi. unfold AVXFilter.permute. rewrite !pset1_lanes.
  do 8 (destruct e as [|? e]; [done|]). destruct e; [|done]. clear He.
  lanes Hv. repeat (apply Forall_cons in Hi as [?Hi Hi]). clear Hi.
  destruct (avx2 fx); [done|].
  unfold list_places, AVX.split_two, AVX.combine_two, AVX.pblendv, swap_halves, permutevar_ps,
    blendv_ps, insertf128_1, extractf128, slli_epi32, cmplt_epi32, cmpgt_epi32, set1_epi32, shuffle.
  cbn [take drop app fmap list_fmap replicate zip_with nth seq Nat.mul Nat.add].
  repeat (apply (f_equal2 cons); [|]); [..|done];
    match goal with Hx : lane_index ?i |- context [sll 32 29 ?i] =>
      destruct (lane_index_cases i Hx) as [->|[->|[->|[->|[->|[->|[->| ->]]]]]]]; reflexivity end.
Qed.

End Permute.

Lemma avx_entries :
  forallb (λ row, forallb (λ e, (length e =? 8)%nat && forallb (λ i, (0 <=? i) && (i <? 8)) e) row)
    (idx AVXFilter.create) = true.
Proof. vm_compute. reflexivity. Qed.

Lemma array_get_In {A} (l : list A) i x : array_get l i = Ret x → In x l.
Proof.
  unfold array_get. destruct (_ <? _); [done|]. destruct (l !! _) eqn:E; [|done].
  intros [= <-]. by eapply list_elem_of_In, list_elem_of_lookup_2.
Qed.

Lemma avx_index_entry o m e :
  AVXFilter.index AVXFilter.create o m = Ret e → length e = 8%nat ∧ Forall lane_index e.
Proof.
  unfold AVXFilter.index. destruct (array_get (idx AVXFilter.create) o) as [row| | |] eqn:E; try done.
  cbn [mbind outcome_bind]. intros He. apply array_get_In in E, He.
  pose proof avx_entries as Hall. rewrite forallb_forall in Hall. specialize (Hall row E). cbn beta in Hall.
  rewrite forallb_forall in Hall. specialize (Hall e He).
  apply andb_true_iff in Hall as [Hl%Nat.eqb_eq Hf]. split; [done|].
  apply Forall_forall. intros i Hi. rewrite forallb_forall in Hf.
  specialize (Hf i ltac:(by apply list_elem_of_In)). unfold lane_index. apply andb_true_iff in Hf.
  rewrite Z.leb_le, Z.ltb_lt in Hf. lia.
Qed.

(** ** Properties *)

Lemma count_eq bs n :
  length bs = n → Z.of_nat (length (positions 0 bs)) =? Z.of_nat n = forallb (λ b, b) bs.
Proof.
  intros <-. destruct (forallb _ bs) eqn:E.
  - apply Z.eqb_eq. apply (all_true_positions _ 0) in E. lia.
  - apply Z.eqb_neq. intros Heq. apply Nat2Z.inj in Heq. apply all_true_positions in Heq. congruence.
Qed.

(** The end of [compress_append], after the tables have been read. *)
Lemma append_tail n {E} (index : Z → Z → outcome E) (permute : list Z → E → list Z)
    (places : E → list Z) dflt bs v q p1 r c :
  (0 < n)%nat →
  ((n < r + c)%nat →
    index (Z.of_nat (r + n - 1)) (bits_of bs) = Ret (entry index dflt (r + n - 1) bs)) →
  (∀ o e, index (Z.of_nat o) (bits_of bs) = Ret e → permute v e = lane v <$> places e) →
  (let new_cnt := Z.of_nat r + Z.of_nat c in
   if Z.of_nat n <=? new_cnt then
     rest ← (if Z.of_nat n <? new_cnt
             then j ← index (new_cnt - Z.of_nat c + Z.of_nat n - 1) (bits_of bs); Ret (permute v j)
             else Ret q);
     Ret (mk_appended p1 rest true (new_cnt - Z.of_nat n))
   else Ret (mk_appended v p1 false new_cnt)) =
  Ret (if (n <=? r + c)%nat
       then mk_appended p1
              (if (n <? r + c)%nat
               then lane v <$> places (entry index dflt (r + n - 1) bs) else q)
              true (Z.of_nat (r + c - n))
       else mk_appended v p1 false (Z.of_nat (r + c))).
Proof.
  intros Hn Hi Hp. cbv zeta.
  destruct (Nat.leb_spec n (r + c)); [rewrite (proj2 (Z.leb_le _ _)) by lia|
    rewrite (proj2 (Z.leb_gt _ _)) by lia; do 3 f_equal; lia].
  destruct (Nat.ltb_spec n (r + c)); [rewrite (proj2 (Z.ltb_lt _ _)) by lia|
    rewrite (proj2 (Z.ltb_ge _ _)) by lia; cbn [mbind outcome_bind]; do 2 f_equal; lia].
  replace (_ - _ + _ - 1) with (Z.of_nat (r + n - 1)) by lia. rewrite Hi by done.
  cbn [mbind outcome_bind]. rewrite (Hp (r + n - 1)%nat) by auto. do 2 f_equal. lia.
Qed.

Lemma sse_append_ok fx v q msk r :
  register 2 v → register 2 q → length msk = 4%nat → (r < 4)%nat →
  ∃ a, SSEFilter.compress_append fx SSEFilter.create v msk q (Z.of_nat r) = Ret a ∧
    append_spec 4 (conditions msk) v q r a.
Proof.
  intros Hv Hq Hm Hr. set (bs := conditions msk).
  assert (length bs = 4%nat) as Hbs by (unfold bs, conditions; by rewrite length_fmap).
  destruct (check_spec _ _ _ _ _ bs r sse_tables Hbs Hr) as (Hc & Hs & Hi & Hi' & Hok).
  set (c := length (positions 0 bs)) in *. unfold SSEFilter.compress_append.
  change (movemask_ps msk) with (bits_of bs). rewrite Hc. cbn [mbind outcome_bind].
  change SSEFilter.full_size with (Z.of_nat 4). unfold c at 1. rewrite count_eq by done.
  destruct (forallb (λ b, b) bs) eqn:Hall.
  { eexists. split; [done|]. unfold append_spec. by rewrite Hall. }
  rewrite Hi. cbn [mbind outcome_bind]. rewrite Hs. cbn [mbind outcome_bind].
  assert (∀ e, SSE.pblendv fx (mask 32 <$> (replicate r true ++ replicate (4 - r) false)) q
      (SSEFilter.permute v e) = take r q ++ drop r (lane v <$> byte_places e)) as ->.
  { intros e. assert (length (replicate r true ++ replicate (4 - r) false) = 4%nat) as Hl.
    { rewrite length_app, !length_replicate. lia. }
    rewrite <-sse_permute, <-(blend_prefix r 4) by (done || lia || apply Hq). apply sse_blendv; [done|done|]. split; [done|].
    repeat (apply Forall_cons; split; [by apply (word_lane 2)|]). by apply Forall_nil. }
  eexists. split.
  - apply (append_tail 4 (SSEFilter.index SSEFilter.create) SSEFilter.permute byte_places 0); auto with lia.
  - eapply (append_lists 4 (λ o bs, byte_places (entry (SSEFilter.index SSEFilter.create) 0 o bs)));
      [done|apply Hq|apply Hq|intros; by eapply word_lane|done|done|done|done|reflexivity].
Qed.

Lemma avx_append_ok `{EigenPackets} `{!EigenPacketLaws} fx v q msk r :
  register 4 v → register 4 q → length msk = 8%nat → (r < 8)%nat →
  ∃ a, AVXFilter.compress_append fx AVXFilter.create v msk q (Z.of_nat r) = Ret a ∧
    append_spec 8 (conditions msk) v q r a.
Proof.
  intros Hv Hq Hm Hr. set (bs := conditions msk).
  assert (length bs = 8%nat) as Hbs by (unfold bs, conditions; by rewrite length_fmap).
  destruct (check_spec _ _ _ _ _ bs r avx_tables Hbs Hr) as (Hc & Hs & Hi & Hi' & Hok).
  set (c := length (positions 0 bs)) in *. unfold AVXFilter.compress_append.
  change (movemask_ps msk) with (bits_of bs). rewrite Hc. cbn [mbind outcome_bind].
  change AVXFilter.full_size with (Z.of_nat 8). unfold c at 1. rewrite count_eq by done.
  destruct (forallb (λ b, b) bs) eqn:Hall.
  { eexists. split; [done|]. unfold append_spec. by rewrite Hall. }
  assert (∀ o e, AVXFilter.index AVXFilter.create o (bits_of bs) = Ret e →
    AVXFilter.permute fx v e = lane v <$> list_places e) as Hperm.
  { intros o e [He1 He2]%avx_index_entry. by apply avx_permute. }
  rewrite Hi. cbn [mbind outcome_bind]. rewrite Hs. cbn [mbind outcome_bind].
  rewrite (Hperm _ _ Hi). unfold AVX.pblendv.
  assert (length (replicate r true ++ replicate (8 - r) false) = 8%nat) as Hl.
  { rewrite length_app, !length_replicate. lia. }
  rewrite blendv_select by (rewrite Hl; (done || symmetry; apply Hq)).
  rewrite (blend_prefix r 8) by (lia || done || apply Hq).
  eexists. split.
  - apply (append_tail 8 (AVXFilter.index AVXFilter.create) (AVXFilter.permute fx) list_places []);
      [lia|done|]. intros o e. apply Hperm.
  - eapply (append_lists 8 (λ o bs, list_places (entry (AVXFilter.index AVXFilter.create) [] o bs)));
      [done|apply Hq|apply Hq|intros; by eapply word_lane|done|done|done|done|reflexivity].
Qed.

Lemma conditions_mask bs : conditions (mask 32 <$> bs) = bs.
Proof.
  unfold conditions. rewrite <-list_fmap_compose. rewrite <-(list_fmap_id bs) at 2.
  apply list_fmap_ext. intros _ [|] _; done.
Qed.

(** The lanes of a register of 32-bit words chosen by conditions. *)
Lemma selected_chosen bs v : length bs = length v → selected bs v = chosen bs v.
Proof.
  assert (∀ w u bs i, Z.of_nat (length u) = i → length bs = length w →
    lane (u ++ w) <$> positions i bs = chosen bs w) as Hgen.
  { clear. induction w as [|x w IH]; intros u [|b bs] i Hu Hb; try done. cbn [positions chosen].
    assert (lane (u ++ x :: w) i = x) as Hx.
    { unfold lane. by rewrite <-Hu, Nat2Z.id, app_nth2, Nat.sub_diag by lia. }
    specialize (IH (u ++ [x]) bs (i + 1)). rewrite <-app_assoc, length_app in IH. cbn [app] in IH.
    specialize (IH ltac:(cbn; lia) ltac:(by injection Hb)).
    destruct b; cbn [fmap list_fmap]; by rewrite ?Hx, IH. }
  intros Hb. by apply (Hgen v []).
Qed.

(** What the generators rely on of [compress_append]: with a queue of a packet
    of [n] 64-bit lanes, it is total and appends. *)
Class Appends (n : nat) (compress : list Z → list Z → list Z → Z → outcome appended) := {
  appends : ∀ v q msk r,
    register n v → register n q → length msk = (2 * n)%nat → (r < 2 * n)%nat →
    ∃ a, compress v msk q (Z.of_nat r) = Ret a ∧ append_spec (2 * n) (conditions msk) v q r a;
}.

#[export] Instance sse_appends fx : Appends 2 (SSEFilter.compress_append fx SSEFilter.create).
Proof. split. intros. by apply sse_append_ok. Qed.

#[export] Instance avx_appends `{EigenPackets} `{!EigenPacketLaws} fx :
  Appends 4 (AVXFilter.compress_append fx AVXFilter.create).
Proof. split. intros. by apply avx_append_ok. Qed.

(** For any packet, mask and queue of fewer than four used lanes,
    [CompressMask<16>::compress_append] appends the lanes that the mask selects,
    in order: it hands out the first four of the queue and the new lanes when
    there are that many, and keeps the rest; a packet of which every lane is
    selected passes through.  No table access is out of bounds. *)
Theorem sse_compress_append fx v q msk r :
  register 2 v → register 2 q → length msk = 4%nat → (r < 4)%nat →
  ∃ a, SSEFilter.compress_append fx SSEFilter.create v msk q (Z.of_nat r) = Ret a ∧
    append_spec 4 (conditions msk) v q r a.
Proof. apply sse_append_ok. Qed.

(** The same of [CompressMask<32>], for packets of eight lanes, with and without
    AVX2. *)
Theorem avx_compress_append `{EigenPackets} `{!EigenPacketLaws} fx v q msk r :
  register 4 v → register 4 q → length msk = 8%nat → (r < 8)%nat →
  ∃ a, AVXFilter.compress_append fx AVXFilter.create v msk q (Z.of_nat r) = Ret a ∧
    append_spec 8 (conditions msk) v q r a.
Proof. apply avx_append_ok. Qed.

(** ** A stream of packets *)

(** A weaker contract, which does not say in which order the lanes come: what is
    handed out and what is queued are the lanes that were queued and those that
    the mask selects. *)
Definition collected (n : nat) (bs : list bool) (v q : list Z) (r : nat) (a : appended) : Prop :=
  ∃ r', new_count a = Z.of_nat r' ∧ (r' < n)%nat ∧ (length (rest a) = n ∧ Forall (word 32) (rest a)) ∧
    (full a = true → length (value a) = n) ∧
    (if full a then value a else []) ++ take r' (rest a) ≡ₚ take r q ++ selected bs v.

Class Collects (n : nat) (compress : list Z → list Z → list Z → Z → outcome appended) := {
  collects : ∀ v q bs r,
    register n v → register n q → length bs = (2 * n)%nat → (r < 2 * n)%nat →
    ∃ a, compress v (mask 32 <$> bs) q (Z.of_nat r) = Ret a ∧ collected (2 * n) bs v q r a;
}.

Lemma selected_all v bs : length v = length bs → forallb (λ b, b) bs = true → selected bs v = v.
Proof.
  assert (∀ (bs : list bool) i (w u : list Z), forallb (λ b, b) bs = true → length bs = length w →
    Z.of_nat (length u) = i → lane (u ++ w) <$> positions i bs = w) as Hgen.
  { clear. induction bs as [|b bs IH]; intros i w u Hb Hl Hu.
    - by destruct w.
    - destruct w as [|x w]; [done|]. cbn in Hb. apply andb_true_iff in Hb as [-> Hb]. cbn. f_equal.
      + unfold lane. rewrite <-Hu, Nat2Z.id, app_nth2, Nat.sub_diag by lia. done.
      + specialize (IH (i + 1) w (u ++ [x]) Hb). rewrite <-app_assoc in IH. apply IH.
        * simpl in *. lia.
        * rewrite length_app. cbn. lia. }
  intros Hl Hb. by apply (Hgen bs 0 v [] Hb).
Qed.

Lemma selected_length bs v : (length (selected bs v) <= length bs)%nat.
Proof. unfold selected. rewrite length_fmap. apply positions_le. Qed.

Lemma append_collected n bs v q r a : (0 < n)%nat → length v = n → length q = n ∧ Forall (word 32) q → length bs = n → (r < n)%nat →
  append_spec n bs v q r a → collected n bs v q r a.
Proof.
  intros Hn Hv Hq Hbs Hr Hspec. unfold append_spec in Hspec. destruct (forallb (λ b, b) bs) eqn:Hall.
  { subst a. exists r. split_and!; try done; try apply Hq. cbn. rewrite selected_all by congruence. apply Permutation_app_comm. }
  set (l := take r q ++ selected bs v) in *. destruct Hspec as [Hrest Hspec].
  assert (length l <= r + n)%nat as Hl.
  { unfold l. rewrite length_app, length_take. pose proof (selected_length bs v). lia. }
  destruct (Nat.leb_spec n (length l)); destruct Hspec as (Hval & Hfull & Hcnt & Hq').
  - exists (length l - n)%nat. rewrite Hfull, Hval. split_and!; try done; try apply Hrest; [lia|intros _; rewrite length_take; lia|].
    by rewrite Hq', take_drop.
  - exists (length l). rewrite Hfull. split_and!; try done; try apply Hrest. by rewrite Hq'.
Qed.

#[export] Instance appends_collects n compress : (0 < n)%nat → Appends n compress → Collects n compress.
Proof.
  intros Hn Happ. split. intros v q bs r Hv Hq Hbs Hr.
  destruct (appends v q (mask 32 <$> bs) r Hv Hq) as (a & Ha & Hspec); [by rewrite length_fmap|done|].
  rewrite conditions_mask in Hspec. exists a. split; [done|].
  apply append_collected; [lia|apply Hv|split; apply Hq|done|done|done].
Qed.

(** Feeding packets with their conditions to a filter, starting from an empty queue:
    the packets handed out, and the queue with its used lanes. *)
Section Stream.
Context {n : nat} {compress : list Z → list Z → list Z → Z → outcome appended}.

Fixpoint feed (ins : list (list Z * list bool)) (q : list Z) (r : Z) : outcome (list (list Z) * list Z * Z) :=
  match ins with
  | [] => Ret ([], q, r)
  | (v, bs) :: ins =>
      a ← compress v (mask 32 <$> bs) q r;
      '(outs, q, r) ← feed ins (rest a) (new_count a);
      Ret ((if full a then [value a] else []) ++ outs, q, r)
  end.

Definition all_selected (ins : list (list Z * list bool)) : list Z :=
  concat ((λ '(v, bs), selected bs v) <$> ins).

(** The invariant of the queue. *)
Lemma feed_ok `{!Collects n compress} ins q r :
  Forall (λ '(v, bs), register n v ∧ length bs = (2 * n)%nat) ins → register n q → (r < 2 * n)%nat →
  ∃ outs q' r', feed ins q (Z.of_nat r) = Ret (outs, q', Z.of_nat r') ∧ (r' < 2 * n)%nat ∧
    Forall (λ p, length p = (2 * n)%nat) outs ∧
    concat outs ++ take r' q' ≡ₚ take r q ++ all_selected ins.
Proof.
  intros Hins. revert q r. induction Hins as [|[v bs] ins [Hv Hm] Hins IH]; intros q r Hq Hr.
  - exists [], q, r. split_and!; try done. cbn. by rewrite app_nil_r.
  - destruct (collects v q bs r Hv Hq Hm Hr) as (a & Ha & r1 & Hcnt & Hr1 & [Hlen Hwords] & Hfull & Hperm).
    destruct (IH (rest a) r1) as (outs & q' & r' & Hfeed & Hr' & Houts & Hperm'); [by split|done|].
    cbn [feed]. rewrite Ha. cbn [mbind outcome_bind]. rewrite Hcnt, Hfeed. cbn [mbind outcome_bind].
    exists ((if full a then [value a] else []) ++ outs), q', r'. split_and!; [done|done| |].
    + destruct (full a); [|done]. constructor; [by apply Hfull|done].
    + unfold all_selected. cbn [fmap list_fmap concat]. fold (all_selected ins).
      rewrite app_assoc, <-Hperm, concat_app, <-!app_assoc, Hperm'. by destruct (full a); cbn; rewrite ?app_nil_r, ?app_assoc.
Qed.

(** No lane is lost or repeated over a stream of packets. *)
Lemma feed_all `{!Collects n compress} ins : (0 < n)%nat →
  Forall (λ '(v, bs), register n v ∧ length bs = (2 * n)%nat) ins →
  ∃ outs q r, feed ins (replicate (2 * n) 0) 0 = Ret (outs, q, Z.of_nat r) ∧ (r < 2 * n)%nat ∧
    Forall (λ p, length p = (2 * n)%nat) outs ∧ concat outs ++ take r q ≡ₚ all_selected ins.
Proof.
  intros Hn Hins. apply (feed_ok ins (replicate (2 * n) 0) 0 Hins); [|lia].
  split; [by rewrite length_replicate|]. by apply Forall_replicate.
Qed.

End Stream.
#[global] Arguments feed compress ins q r : clear implicits.

(** ** Witnesses *)

Definition four (a b c d : Z) : list Z := [a; b; c; d].

Lemma four_register a b c d : word 32 a → word 32 b → word 32 c → word 32 d → register 2 (four a b c d).
Proof. intros. split; [done|]. by repeat (apply Forall_cons; split; [done|]). Qed.

(** Two lanes of three, appended to a queue of three. *)
Lemma sse_compress_append_witness :
  ∃ a, SSEFilter.compress_append (mk_features true true true true) SSEFilter.create
      (four 5 6 7 8) (four (2 ^ 32 - 1) 0 (2 ^ 32 - 1) 0) (four 1 2 3 0) 3 = Ret a ∧
    append_spec 4 [true; false; true; false] (four 5 6 7 8) (four 1 2 3 0) 3 a.
Proof.
  apply (sse_compress_append (mk_features true true true true) (four 5 6 7 8) (four 1 2 3 0)
    (four (2 ^ 32 - 1) 0 (2 ^ 32 - 1) 0) 3); [| |done|lia];
    apply four_register; unfold word; lia.
Defined.

Lemma avx_compress_append_witness :
  ∃ a, AVXFilter.compress_append (H := instructions) (mk_features true true true false) AVXFilter.create
      (replicate 8 5) (mask 32 <$> [true; false; true; false; true; true; false; true])
      (replicate 8 1) (Z.of_nat 4) = Ret a ∧
    append_spec 8 (conditions (mask 32 <$> [true; false; true; false; true; true; false; true]))
      (replicate 8 5) (replicate 8 1) 4 a.
Proof.
  apply (avx_compress_append (H := instructions) (H0 := instructions_laws)
    (mk_features true true true false) (replicate 8 5) (replicate 8 1)
    (mask 32 <$> [true; false; true; false; true; true; false; true]) 4); [| |done|lia];
    (split; [done|]; apply Forall_replicate; unfold word; lia).
Defined.
