(* ===== verification/RandUtils.v ===== *)
(** EigenRand/RandUtils.h, arch/SSE/RandUtils.h and arch/AVX/RandUtils.h: how a
    packet of random bits or of numbers is drawn from an engine, and the
    functors that hand a generator and an engine to Eigen.

    How the words of a scalar engine are spread over a packet of random bits
    for floats, which uses 23 bits of each lane. *)

From S2P Require Import Prelude.
From S2P Require Import Simd.
From S2P Require Import PacketMath.
From S2P Require Import PacketMathProps.
From S2P Require Import FloatBits.
From S2P Require Import FloatBitsProps.
From Stdlib Require Import SpecFloat.

(** ** Engines as the generators see them *)

(** A result of a call: an unsigned integer of [size] bytes, or a packet. *)
Inductive random := scalar_result (size x : Z) | packet_result (r : list Z).

Class Rng (R : Type) := {
  rng_call : R → outcome (random * R);
  rng_half : R → outcome (list Z * R);  (* [half()] of a packet engine, as a packet *)
}.

(** Eigen's [pfirst] of a packet, and its conversion of a packet of numbers to
    one of [int]s. *)
Class EigenConversions := {
  pfirst_packet : list Z → Z;
  pcast : list spec_float → list Z;
}.
Class EigenConversionLaws `{EigenConversions} := {
  pfirst_lane : ∀ r, r ≠ [] → pfirst_packet r = signed 32 (lane r 0);
}.

(** [pfirst] of a result: of a scalar, itself. *)
Definition pfirst `{EigenConversions} (x : random) : Z :=
  match x with scalar_result _ x => x | packet_result r => pfirst_packet r end.

(** The integer and the packet that a call of an engine of known type gives. *)
Definition as_integer (x : random) : Z :=
  match x with scalar_result _ x => x | packet_result _ => 0 end.
Definition as_packet (x : random) : list Z :=
  match x with scalar_result _ _ => [] | packet_result r => r end.

(** An engine given by the results that are left of it. *)
Definition recorded_rng : Rng (list random) := {|
  rng_call l := match l with x :: l => Ret (x, l) | [] => Undef null_dereference end;
  rng_half l :=
    match l with
    | packet_result r :: l => Ret (take 4 r, l)
    | _ => Undef null_dereference
    end;
|}.

(** ** More instructions *)

(** [_mm_set_epi64x(e1, e0)], [_mm_set_epi32(e3, ..., e0)] and the variants
    with reversed arguments, on the list of the arguments. *)
Definition set_epi64x (args : list Z) : list Z := loadu (u64 <$> reverse args).
Definition setr_epi64x (args : list Z) : list Z := loadu (u64 <$> args).
Definition set_epi32 (args : list Z) : list Z := u32 <$> reverse args.
Definition setr_epi32 (args : list Z) : list Z := u32 <$> args.

(** The bytes of a register, and [_mm_shuffle_epi8] within each 128-bit half,
    for indices below 16. *)
Definition byte_of (r : list Z) (i : Z) : Z := Z.land (Z.shiftr (lane r (i / 4)) (8 * (i mod 4))) 255.
Definition lane_of_bytes (b : list Z) : Z :=
  match b with
  | [b0; b1; b2; b3] => b0 + 2 ^ 8 * b1 + 2 ^ 16 * b2 + 2 ^ 24 * b3
  | _ => 0
  end.
Definition shuffle_epi8 (p : list Z) (ctrl : list (list Z)) : list Z :=
  (λ c, lane_of_bytes (byte_of p <$> c)) <$> ctrl.

(** The control of the code: three lanes as they are, and one of their top bytes. *)
Definition upper_bytes : list (list Z) := [[0; 1; 2; 3]; [4; 5; 6; 7]; [8; 9; 10; 11]; [3; 7; 11; 11]].

Section Draws.
Context {R : Type} `{Rng R} (order : nat → list nat).

(** [n] calls of the engine, as arguments of one expression: the compiler
    chooses in which [order] it evaluates them, the [i]-th argument being the
    [order n !! i]-th call. *)
Fixpoint calls (n : nat) (r : R) : outcome (list random * R) :=
  match n with
  | O => Ret ([], r)
  | S n => '(x, r) ← rng_call r; '(xs, r) ← calls n r; Ret (x :: xs, r)
  end.
Definition arguments (n : nat) (r : R) : outcome (list Z * R) :=
  '(xs, r) ← calls n r;
  Ret ((λ i, as_integer (nth i xs (scalar_result 8 0))) <$> order n, r).

End Draws.

(** ** RawbitsMaker *)

Module RawbitsMaker.
Section Code.
Context {R : Type} `{Rng R} (order : nat → list nat) (fx : features).

(** [RawbitsMaker<Packet4i, Rng, RngResult, scalar_fullbit>], for results of
    [size] bytes. *)
Definition scalar4i_rawbits (size : Z) (rng : R) : outcome (list Z * R) :=
  if size =? 8 then '(a, rng) ← arguments order 2 rng; Ret (set_epi64x a, rng)
  else '(a, rng) ← arguments order 4 rng; Ret (set_epi32 a, rng).

Definition scalar4i_rawbits_34 (size : Z) (rng : R) : outcome (list Z * R) :=
  if size =? 8 then '(a, rng) ← arguments order 2 rng; Ret (set_epi64x a, rng)
  else if ssse3 fx then
    '(a, rng) ← arguments order 3 rng;
    Ret (shuffle_epi8 (setr_epi32 (a ++ [0])) upper_bytes, rng)
  else '(a, rng) ← arguments order 4 rng; Ret (set_epi32 a, rng).

Definition scalar4i_rawbits_half (size : Z) (rng : R) : outcome (list Z * R) :=
  if size =? 8 then '(x, rng) ← rng_call rng; Ret (set_epi64x [0; as_integer x], rng)
  else '(a, rng) ← arguments order 2 rng; Ret (setr_epi32 (a ++ [0; 0]), rng).

(** The engines whose results are packets of the wanted size: [rawbits],
    [rawbits_34] and [rawbits_half] of Packet4i, [rawbits] and [rawbits_34] of
    Packet8i. *)
Definition packet_rawbits (rng : R) : outcome (list Z * R) :=
  '(x, rng) ← rng_call rng; Ret (as_packet x, rng).

(** A Packet4i from an engine of Packet8i; [rawbits_half] of Packet8i. *)
Definition half_rawbits (rng : R) : outcome (list Z * R) := rng_half rng.

(** A Packet8i from an engine of Packet4i. *)
Definition two_rawbits (rng : R) : outcome (list Z * R) :=
  '(xs, rng) ← calls 2 rng;
  let a := (λ i, as_packet (nth i xs (packet_result []))) <$> order 2%nat in
  Ret (insertf128_1 (nth 0 a []) (nth 1 a []), rng).

(** [RawbitsMaker<Packet8i, Rng, RngResult, scalar_fullbit>]. *)
Definition scalar8i_rawbits (size : Z) (rng : R) : outcome (list Z * R) :=
  if size =? 8 then '(a, rng) ← arguments order 4 rng; Ret (set_epi64x a, rng)
  else '(a, rng) ← arguments order 8 rng; Ret (set_epi32 a, rng).

(** The shuffle of both halves. *)
Definition shuffle_halves (p : list Z) : list Z :=
  let '(p1, p2) := AVX.split_two p in
  AVX.combine_two (shuffle_epi8 p1 upper_bytes) (shuffle_epi8 p2 upper_bytes).

Definition scalar8i_rawbits_34 (size : Z) (rng : R) : outcome (list Z * R) :=
  if size =? 8 then
    if avx2 fx then
      '(a, rng) ← arguments order 3 rng;
      let p := setr_epi64x (a ++ [0]) in
      let p := permutevar8x32 p [0; 1; 2; 7; 3; 4; 5; 7] in
      Ret (shuffle_halves p, rng)
    else
      '(v, rng) ← rng_call rng;
      let v := as_integer v in
      '(a, rng) ← arguments order 2 rng;
      let p := setr_epi64x [nth 0 a 0; v; nth 1 a 0; Z.shiftr v 32] in
      Ret (shuffle_halves p, rng)
  else
    '(a, rng) ← arguments order 6 rng;
    let p := setr_epi32 [nth 0 a 0; nth 1 a 0; nth 2 a 0; 0; nth 3 a 0; nth 4 a 0; nth 5 a 0; 0] in
    Ret (shuffle_halves p, rng).

Definition scalar8i_rawbits_half (size : Z) (rng : R) : outcome (list Z * R) :=
  if size =? 8 then '(a, rng) ← arguments order 2 rng; Ret (set_epi64x a, rng)
  else '(a, rng) ← arguments order 4 rng; Ret (set_epi32 a, rng).

End Code.
End RawbitsMaker.

(** The same three top bytes, collected from scalars. *)
Definition collect_upper8bits (a b c : Z) : Z :=
  Z.lor (Z.lor (Z.shiftr (Z.land a 0xFF000000) 24) (Z.shiftr (Z.land b 0xFF000000) 16))
    (Z.shiftr (Z.land c 0xFF000000) 8).

(** ** Numbers

    [UniformRealUtils] and [RandUtils], on the bits that a [RawbitsMaker]
    gives; the arithmetic on packets is Eigen's, lane by lane. *)

Class EigenArithmetic := {
  pdiv : format → list spec_float → list spec_float → list spec_float;
  pmul : format → list spec_float → list spec_float → list spec_float;
  paddf : format → list spec_float → list spec_float → list spec_float;
  psubf : format → list spec_float → list spec_float → list spec_float;
}.

Class EigenArithmeticLaws `{EigenArithmetic} := {
  pdiv_lanes : ∀ f a b, length a = length b → pdiv f a b = zip_with (SFdiv (prec f) (emax f)) a b;
  pmul_lanes : ∀ f a b, length a = length b → pmul f a b = zip_with (SFmul (prec f) (emax f)) a b;
  paddf_lanes : ∀ f a b, length a = length b → paddf f a b = zip_with (SFadd (prec f) (emax f)) a b;
  psubf_lanes : ∀ f a b, length a = length b → psubf f a b = zip_with (SFsub (prec f) (emax f)) a b;
}.

(** Conversion of an integer to a format, rounding to nearest. *)
Definition of_int (f : format) (z : Z) : spec_float := binary_normalize (prec f) (emax f) z 0 false.

Section Numbers.
Context `{EigenPackets} `{EigenFloatPackets} `{EigenArithmetic}.

(** [zero_to_one] of a packet of floats, and of a packet of [n] doubles from
    the low lanes of a register. *)
Definition zero_to_one_ps (bits : list Z) : list spec_float :=
  let n := length bits in
  pdiv binary32 ((λ x, of_int binary32 (signed 32 x)) <$> pand bits (pset1 n 0x7FFFFFFF))
    (replicate n (of_int binary32 0x7FFFFFFF)).
Definition zero_to_one_pd (n : nat) (bits : list Z) : list spec_float :=
  pdiv binary64
    ((λ x, of_int binary64 (signed 32 x)) <$> take n (pand bits (pset1 (length bits) 0x7FFFFFFF)))
    (replicate n (of_int binary64 0x7FFFFFFF)).

Definition uniform_real_ps (bits : list Z) : list spec_float := bit_to_ur_float bits.
Definition uniform_real_pd (bits : list Z) : list spec_float := bit_to_ur_double bits.

Context (f : format).

(** [balanced(rng)] and [balanced(rng, slope, bias)] from [zero_to_one]. *)
Definition balanced (u : list spec_float) : list spec_float :=
  let n := length u in
  psubf f (pmul f u (replicate n (of_int f 2))) (replicate n (of_int f 1)).
Definition balanced2 (u : list spec_float) (slope bias : spec_float) : list spec_float :=
  let n := length u in
  paddf f (pmul f u (replicate n slope)) (replicate n bias).

(** [nonzero_uniform_real] from [uniform_real]. *)
Definition nonzero_uniform_real (u : list spec_float) : list spec_float :=
  paddf f u (replicate (length u) (epsilon_8 f)).

End Numbers.

(** ** Functors

    An adaptor holds a generator and an engine; a call runs the generator on
    the engine, and leaves both changed. *)

Module scalar_rng_adaptor.
Section Code.
Context {Gen R Scalar Packet : Type}.

Record t := mk { gen : Gen; rng : R }.

Definition create (default_gen : Gen) (_rng : R) : t := mk default_gen _rng.
Definition create_with (_rng : R) (_gen : Gen) : t := mk _gen _rng.

Definition call (gen_call : Gen → R → outcome (Scalar * Gen * R)) (a : t) : outcome (Scalar * t) :=
  '(x, g, r) ← gen_call (gen a) (rng a); Ret (x, mk g r).
Definition packetOp (gen_packet : Gen → R → outcome (Packet * Gen * R)) (a : t) :
    outcome (Packet * t) :=
  '(x, g, r) ← gen_packet (gen a) (rng a); Ret (x, mk g r).

End Code.
End scalar_rng_adaptor.

Module scalar_unary_rng_adaptor.
Section Code.
Context {Gen R Scalar Packet ScalarA : Type}.

Record t := mk { gen : Gen; rng : R }.

Definition create (default_gen : Gen) (_rng : R) : t := mk default_gen _rng.
Definition create_with (_rng : R) (_gen : Gen) : t := mk _gen _rng.

Definition call (gen_call : Gen → R → ScalarA → outcome (Scalar * Gen * R)) (a : t) (x : ScalarA) :
    outcome (Scalar * t) :=
  '(y, g, r) ← gen_call (gen a) (rng a) x; Ret (y, mk g r).
Definition packetOp (gen_packet : Gen → R → Packet → outcome (Packet * Gen * R)) (a : t)
    (x : Packet) : outcome (Packet * t) :=
  '(y, g, r) ← gen_packet (gen a) (rng a) x; Ret (y, mk g r).

End Code.
End scalar_unary_rng_adaptor.

Module scalar_binary_rng_adaptor.
Section Code.
Context {Gen R Scalar PacketA PacketB ScalarA ScalarB : Type}.

Record t := mk { gen : Gen; rng : R }.

Definition create (default_gen : Gen) (_rng : R) : t := mk default_gen _rng.
Definition create_with (_rng : R) (_gen : Gen) : t := mk _gen _rng.

Definition call (gen_call : Gen → R → ScalarA → ScalarB → outcome (Scalar * Gen * R)) (a : t)
    (x : ScalarA) (y : ScalarB) : outcome (Scalar * t) :=
  '(z, g, r) ← gen_call (gen a) (rng a) x y; Ret (z, mk g r).
Definition packetOp (gen_packet : Gen → R → PacketA → PacketB → outcome (PacketA * Gen * R))
    (a : t) (x : PacketA) (y : PacketB) : outcome (PacketA * t) :=
  '(z, g, r) ← gen_packet (gen a) (rng a) x y; Ret (z, mk g r).

End Code.
End scalar_binary_rng_adaptor.

(** ** Bytes *)

Lemma land_255 x : Z.land x 255 = x mod 2 ^ 8.
Proof. change 255 with (Z.ones 8). by apply Z.land_ones. Qed.

Lemma byte_eq r i :
  byte_of r i = (lane r (i / 4) / 2 ^ (8 * (i mod 4))) mod 2 ^ 8.
Proof.
  unfold byte_of. rewrite land_255, Z.shiftr_div_pow2; [done|].
  pose proof (Z.mod_pos_bound i 4). lia.
Qed.

Lemma bytes_recompose x : word 32 x →
  (x / 2 ^ 0) mod 2 ^ 8 + 2 ^ 8 * ((x / 2 ^ 8) mod 2 ^ 8) + 2 ^ 16 * ((x / 2 ^ 16) mod 2 ^ 8) +
    2 ^ 24 * ((x / 2 ^ 24) mod 2 ^ 8) = x.
Proof. unfold word. intros Hx. Z.div_mod_to_equations. lia. Qed.

Lemma top_byte x : word 32 x → (x / 2 ^ 24) mod 2 ^ 8 = x / 2 ^ 24 ∧ 0 <= x / 2 ^ 24 < 2 ^ 8.
Proof. unfold word. intros Hx. Z.div_mod_to_equations. lia. Qed.

Lemma collect_eq a b c : word 32 a → word 32 b → word 32 c →
  collect_upper8bits a b c = a / 2 ^ 24 + 2 ^ 8 * (b / 2 ^ 24) + 2 ^ 16 * (c / 2 ^ 24).
Proof.
  intros Ha Hb Hc. destruct (top_byte a Ha) as [_ Ha'], (top_byte b Hb) as [_ Hb'], (top_byte c Hc) as [_ Hc'].
  assert (∀ x, word 32 x → Z.land x 0xFF000000 = x / 2 ^ 24 * 2 ^ 24) as Htop.
  { intros x Hx. change 0xFF000000 with (Z.ldiff (Z.ones 32) (Z.ones 24)).
    rewrite Z.ldiff_land, Z.land_assoc, Z.land_ones, Z.mod_small, <-Z.ldiff_land by (lia || apply Hx).
    by rewrite Z.ldiff_ones_r, Z.shiftl_mul_pow2, Z.shiftr_div_pow2 by lia. }
  unfold collect_upper8bits. rewrite !Htop, !Z.shiftr_div_pow2 by (done || lia).
  rewrite Z.div_mul by lia.
  change (2 ^ 24) with (2 ^ 8 * 2 ^ 16) at 3. rewrite Z.mul_assoc, Z.div_mul by lia.
  change (2 ^ 24) with (2 ^ 16 * 2 ^ 8) at 4. rewrite Z.mul_assoc, Z.div_mul by lia.
  rewrite <-(Z.shiftl_mul_pow2 (b / 2 ^ 24)), <-(Z.shiftl_mul_pow2 (c / 2 ^ 24)) by lia.
  rewrite (lor_shiftl (a / 2 ^ 24)) by lia. rewrite lor_shiftl by lia. lia.
Qed.

(** The shuffle keeps three lanes and makes the fourth of their top bytes. *)
Lemma shuffle_upper x y z w : word 32 x → word 32 y → word 32 z →
  ∃ m, shuffle_epi8 [x; y; z; w] upper_bytes = [x; y; z; m] ∧
    m mod 2 ^ 24 = collect_upper8bits x y z.
Proof.
  intros Hx Hy Hz. eexists. split.
  - unfold shuffle_epi8, upper_bytes. cbn [fmap list_fmap lane_of_bytes]. rewrite !byte_eq.
    change (lane _ (0 / 4)) with x. change (lane _ (1 / 4)) with x. change (lane _ (2 / 4)) with x.
    change (lane _ (3 / 4)) with x. change (lane _ (4 / 4)) with y. change (lane _ (5 / 4)) with y.
    change (lane _ (6 / 4)) with y. change (lane _ (7 / 4)) with y. change (lane _ (8 / 4)) with z.
    change (lane _ (9 / 4)) with z. change (lane _ (10 / 4)) with z. change (lane _ (11 / 4)) with z.
    do 3 (apply (f_equal2 cons); [by apply bytes_recompose|]). reflexivity.
  - change (8 * (3 mod 4)) with 24. change (8 * (7 mod 4)) with 24. change (8 * (11 mod 4)) with 24.
    destruct (top_byte x Hx) as [-> ?], (top_byte y Hy) as [-> ?], (top_byte z Hz) as [-> ?].
    rewrite collect_eq by done.
    rewrite (Z.mul_comm (2 ^ 24)), Z.mod_add, Z.mod_small by lia. done.
Qed.

(** ** Properties *)

Section Rawbits.
Context {R : Type} `{Rng R} (order : nat → list nat).

(** [rawbits_34] fills the lanes of a packet for floats from three quarters of
    the calls: with a 32-bit engine and SSSE3 three results become lanes, and
    the bits of the fourth that a float uses are their top bytes. *)
Theorem rawbits_34_sse fx rng x y z rng' :
  ssse3 fx = true → arguments order 3 rng = Ret ([x; y; z], rng') →
  word 32 x → word 32 y → word 32 z →
  ∃ m, RawbitsMaker.scalar4i_rawbits_34 order fx 4 rng = Ret ([x; y; z; m], rng') ∧
    m mod 2 ^ 24 = collect_upper8bits x y z.
Proof.
  intros Hfx Harg Hx Hy Hz. destruct (shuffle_upper x y z 0 Hx Hy Hz) as (m & Hs & Hm).
  exists m. split; [|done]. unfold RawbitsMaker.scalar4i_rawbits_34. rewrite Hfx.
  change (4 =? 8) with false. cbn iota. rewrite Harg. cbn [mbind outcome_bind app].
  unfold setr_epi32. cbn [fmap list_fmap]. rewrite !u32_id by done. by rewrite Hs.
Qed.

Lemma halves_of x : word 64 x → word 32 (x mod 2 ^ 32) ∧ word 32 (x / 2 ^ 32).
Proof.
  unfold word. intros Hx. split; [apply Z.mod_pos_bound; lia|].
  split; [apply Z.div_pos; lia|]. apply Z.div_lt_upper_bound; lia.
Qed.

(** With a 64-bit engine three results fill a packet of eight lanes, for AVX2 by
    a permutation and for AVX by splitting one of them by hand: each of their
    six 32-bit words is one lane, and the two other lanes are made of the top
    bytes of the lanes beside them. *)
Theorem rawbits_34_avx fx rng x y z rng1 rng' :
  word 64 x → word 64 y → word 64 z →
  (avx2 fx = true → arguments order 3 rng = Ret ([x; y; z], rng') →
   ∃ m m', RawbitsMaker.scalar8i_rawbits_34 order fx 8 rng =
     Ret ([x mod 2 ^ 32; x / 2 ^ 32; y mod 2 ^ 32; m; y / 2 ^ 32; z mod 2 ^ 32; z / 2 ^ 32; m'], rng') ∧
     m mod 2 ^ 24 = collect_upper8bits (x mod 2 ^ 32) (x / 2 ^ 32) (y mod 2 ^ 32) ∧
     m' mod 2 ^ 24 = collect_upper8bits (y / 2 ^ 32) (z mod 2 ^ 32) (z / 2 ^ 32)) ∧
  (avx2 fx = false → rng_call rng = Ret (scalar_result 8 y, rng1) →
   arguments order 2 rng1 = Ret ([x; z], rng') →
   ∃ m m', RawbitsMaker.scalar8i_rawbits_34 order fx 8 rng =
     Ret ([x mod 2 ^ 32; x / 2 ^ 32; y mod 2 ^ 32; m; z mod 2 ^ 32; z / 2 ^ 32; y / 2 ^ 32; m'], rng') ∧
     m mod 2 ^ 24 = collect_upper8bits (x mod 2 ^ 32) (x / 2 ^ 32) (y mod 2 ^ 32) ∧
     m' mod 2 ^ 24 = collect_upper8bits (z mod 2 ^ 32) (z / 2 ^ 32) (y / 2 ^ 32)).
Proof.
  intros Hx Hy Hz.
  destruct (halves_of x Hx) as [? ?], (halves_of y Hy) as [? ?], (halves_of z Hz) as [? ?].
  unfold RawbitsMaker.scalar8i_rawbits_34. change (8 =? 8) with true. cbn iota. split.
  - intros -> ->. cbn [mbind outcome_bind app].
    unfold setr_epi64x, loadu, RawbitsMaker.shuffle_halves. cbn [fmap list_fmap].
    change (u64 0) with 0. unfold u64. rewrite !(Z.mod_small _ (2 ^ 64)) by done.
    destruct (shuffle_upper (x mod 2 ^ 32) (x / 2 ^ 32) (y mod 2 ^ 32) (0 / 2 ^ 32)) as (m & Hs & Hm); [done..|].
    destruct (shuffle_upper (y / 2 ^ 32) (z mod 2 ^ 32) (z / 2 ^ 32) (0 / 2 ^ 32)) as (m' & Hs' & Hm'); [done..|].
    exists m, m'. split; [|done].
    transitivity (Ret (insertf128_1
      (shuffle_epi8 [x mod 2 ^ 32; x / 2 ^ 32; y mod 2 ^ 32; 0 / 2 ^ 32] upper_bytes)
      (shuffle_epi8 [y / 2 ^ 32; z mod 2 ^ 32; z / 2 ^ 32; 0 / 2 ^ 32] upper_bytes), rng')); [reflexivity|].
    by rewrite Hs, Hs'.
  - intros -> -> Harg. cbn [mbind outcome_bind as_integer]. rewrite Harg. cbn [mbind outcome_bind].
    destruct (shuffle_upper (x mod 2 ^ 32) (x / 2 ^ 32) (y mod 2 ^ 32) (y / 2 ^ 32)) as (m & Hs & Hm); [done..|].
    destruct (shuffle_upper (z mod 2 ^ 32) (z / 2 ^ 32) (y / 2 ^ 32) 0) as (m' & Hs' & Hm'); [done..|].
    exists m, m'. split; [|done].
    unfold setr_epi64x, loadu, RawbitsMaker.shuffle_halves. cbn [fmap list_fmap nth].
    rewrite Z.shiftr_div_pow2 by done. unfold u64.
    assert (word 64 (y / 2 ^ 32)) by (unfold word in *; lia).
    rewrite !(Z.mod_small _ (2 ^ 64)) by done. cbn [of64].
    rewrite (Z.mod_small (y / 2 ^ 32) (2 ^ 32)), (Z.div_small (y / 2 ^ 32) (2 ^ 32)) by done.
    transitivity (Ret (insertf128_1
      (shuffle_epi8 [x mod 2 ^ 32; x / 2 ^ 32; y mod 2 ^ 32; y / 2 ^ 32] upper_bytes)
      (shuffle_epi8 [z mod 2 ^ 32; z / 2 ^ 32; y / 2 ^ 32; 0] upper_bytes), rng')); [reflexivity|].
    by rewrite Hs, Hs'.
Qed.

End Rawbits.

(** ** Witnesses *)

#[local] Existing Instance recorded_rng.

Definition in_order (n : nat) : list nat := seq 0 n.

Lemma rawbits_34_sse_witness : ∃ m,
  RawbitsMaker.scalar4i_rawbits_34 in_order (mk_features true false false false) 4
    (scalar_result 4 <$> [0x11223344; 0x55667788; 0x99AABBCC]) =
    Ret ([0x11223344; 0x55667788; 0x99AABBCC; m], []) ∧
  m mod 2 ^ 24 = collect_upper8bits 0x11223344 0x55667788 0x99AABBCC.
Proof.
  apply (rawbits_34_sse in_order (mk_features true false false false)
    (scalar_result 4 <$> [0x11223344; 0x55667788; 0x99AABBCC]) 0x11223344 0x55667788 0x99AABBCC []);
    done || (unfold word; lia).
Defined.

Lemma rawbits_34_avx_witness : ∃ m m',
  RawbitsMaker.scalar8i_rawbits_34 in_order (mk_features true true true true) 8
    (scalar_result 8 <$> [2 ^ 32 + 2; 2 ^ 34; 2 ^ 63 + 5]) =
    Ret ([2; 1; 0; m; 4; 5; 2 ^ 31; m'], []) ∧
  m mod 2 ^ 24 = collect_upper8bits 2 1 0 ∧ m' mod 2 ^ 24 = collect_upper8bits 4 5 (2 ^ 31).
Proof.
  refine (proj1 (rawbits_34_avx in_order (mk_features true true true true)
    (scalar_result 8 <$> [2 ^ 32 + 2; 2 ^ 34; 2 ^ 63 + 5]) (2 ^ 32 + 2) (2 ^ 34) (2 ^ 63 + 5) [] []
    _ _ _) _ _); done || (unfold word; lia).
Defined.
