(* ===== verification/Neon.v ===== *)
(** EigenRand/arch/NEON: the packet operations of MorePacketMath.h on [Packet4i],
    the filter of PacketFilter.h and the draws of RandUtils.h, with the
    instructions of NEON that they use.

    The operations, the filter and the draws for NEON agree with those for SSE, so
    that what is proved of the generators holds there too. *)

From S2P Require Import Prelude.
From S2P Require Import Simd.
From S2P Require Import PacketMath.
From S2P Require Import PacketMathProps.
From S2P Require Import MersenneTwister.
From S2P Require Import MersenneProps.
From S2P Require Import PacketFilter.
From S2P Require Import RandUtils.

(** ** Instructions

    A register is the list of its 32-bit lanes; the [vreinterpret] intrinsics
    change the view and not the bits. *)

Definition vceqq_s32 := zip_with (λ a b, mask 32 (a =? b)).
Definition vcltq_s32 := zip_with (λ a b, mask 32 (signed 32 a <? signed 32 b)).
Definition vmvnq_s32 : list Z → list Z := fmap (λ a, mask 32 true - a).
Definition vbslq := zip_with (λ m '(a, b), Z.lor (Z.land m a) (Z.land (mask 32 true - m) b)).
Definition vbslq_s32 (m a b : list Z) : list Z := vbslq m (zip a b).
Definition vshlq_n_u32 (b : Z) : list Z → list Z := fmap (sll 32 b).
Definition vshrq_n_u32 (b : Z) : list Z → list Z := fmap (srl b).
Definition vshlq_n_u64 (b : Z) (a : list Z) : list Z := of64 (sll 64 b <$> to64 a).
Definition vshrq_n_u64 (b : Z) (a : list Z) : list Z := of64 (srl b <$> to64 a).
Definition vaddq_s64 := lanewise64 (λ a b, u64 (a + b)).
Definition vsubq_s64 := lanewise64 (λ a b, u64 (a - b)).
Definition vceqq_s64 := lanewise64 (λ a b, mask 64 (a =? b)).
Definition vdupq_n_s32 (x : Z) : list Z := replicate 4 (u32 x).
Definition vdupq_n_u64 (x : Z) : list Z := of64 (replicate 2 (u64 x)).

(** Halves of a register, and operations on these. *)
Definition vget_low (a : list Z) : list Z := take 2 a.
Definition vget_high (a : list Z) : list Z := drop 2 a.
Definition vadd_s32 := zip_with (λ a b, u32 (a + b)).
Definition vand_u32 := zip_with Z.land.
Definition vorr_u32 := zip_with Z.lor.
Definition pairwise (f : Z → Z → Z) (a b : list Z) : list Z := [f (lane a 0) (lane a 1); f (lane b 0) (lane b 1)].
Definition vpadd_s32 := pairwise (λ x y, u32 (x + y)).
Definition vpmin_u32 := pairwise Z.min.
Definition vpmax_u32 := pairwise Z.max.

(** ** Packet4i *)

Module NEON.

Definition pcmpeq (a b : list Z) : list Z := vceqq_s32 a b.
Definition pbitnot (a : list Z) : list Z := vmvnq_s32 a.

(** [BitShifter<Packet4i>]; the cases of the switch are the counts that the
    instruction accepts. *)
Definition psll (b : Z) (a : list Z) : list Z := vshlq_n_u32 b a.
Definition psrl (b : Z) (a : list Z) (_b : Z) : list Z :=
  if b >? 0 then vshrq_n_u32 (if b >? 0 then b else 1) a
  else if _b =? 0 then a
  else if (1 <=? _b) && (_b <=? 31) then vshrq_n_u32 _b a
  else vdupq_n_s32 0.
Definition psll64 (b : Z) (a : list Z) : list Z := vshlq_n_u64 b a.
Definition psrl64 (b : Z) (a : list Z) : list Z := vshrq_n_u64 b a.

Definition pcmplt (a b : list Z) : list Z := vcltq_s32 a b.

(** All the variants of [pblendv]. *)
Definition pblendv (ifPacket thenPacket elsePacket : list Z) : list Z := vbslq_s32 ifPacket thenPacket elsePacket.

Definition pgather {A} (addr : list A) (index : list Z) : outcome (list A) :=
  let u := signed 32 <$> index in
  t0 ← array_get addr (lane u 0);
  t1 ← array_get addr (lane u 1);
  t2 ← array_get addr (lane u 2);
  t3 ← array_get addr (lane u 3);
  Ret [t0; t1; t2; t3].

Definition pmovemask (a : list Z) : Z :=
  let r := vbslq_s32 a [1; 2; 4; 8] (vdupq_n_s32 0) in
  let s := vadd_s32 (vget_low r) (vget_high r) in
  signed 32 (lane (vpadd_s32 s s) 0).

Definition padd64 (a b : list Z) : list Z := vaddq_s64 a b.
Definition psub64 (a b : list Z) : list Z := vsubq_s64 a b.
Definition pseti64 (a : Z) : list Z := vdupq_n_u64 a.
Definition pcmpeq64 (a b : list Z) : list Z := vceqq_s64 a b.

Definition pmuluadd64 (a : list Z) (b c : Z) : list Z :=
  let u := storeu a in
  let u := alter (λ x, u64 (x * b + c)) 0%nat u in
  let u := alter (λ x, u64 (x * b + c)) 1%nat u in
  loadu u.

Definition predux_all (x : list Z) : bool :=
  let tmp := vand_u32 (vget_low x) (vget_high x) in
  negb (lane (vpmin_u32 tmp tmp) 0 =? 0).
Definition predux_any (x : list Z) : bool :=
  let tmp := vorr_u32 (vget_low x) (vget_high x) in
  negb (lane (vpmax_u32 tmp tmp) 0 =? 0).

End NEON.

(** The interface of the engine; [split_two], which only the engine's [half] uses,
    is declared in MorePacketMath.h but not defined for NEON. *)
Definition packet4i_neon `{EigenPackets} (split_two : list Z → list Z * list Z) : IntPacket := {|
  size64 := 2;
  ip_and := pand; ip_or := por; ip_xor := pxor;
  ip_seti64 := NEON.pseti64;
  ip_sll64 := NEON.psll64; ip_srl64 := NEON.psrl64;
  ip_cmpeq64 := NEON.pcmpeq64;
  ip_muluadd64 := NEON.pmuluadd64;
  ip_split_two := split_two;
|}.

(** ** CompressMask<16> *)

Module NEONFilter.

Definition full_size : Z := 4.

Fixpoint compress_loop (todo : nat) (m n i ret : Z) : Z :=
  match todo with
  | O => ret
  | S todo =>
      let l := Z.land m 1 in
      let m := Z.shiftr m 1 in
      if l =? 0 then compress_loop todo m n (i + 1) ret
      else
        let ret := if 0 <=? n then Z.lor ret (Z.shiftl (Z.land i 3) (2 * n)) mod 2 ^ 8 else ret in
        let n := n + 1 in
        if 4 <=? n then ret else compress_loop todo m n (i + 1) ret
  end.
Definition make_compress (m offset : Z) : Z := compress_loop 4 m offset 0 0.

Definition count (m : Z) : Z := count_loop 4 m 0.

(** The constructor; the selectors are snapshots of one array. *)
Definition create : CompressMask :=
  let v := [0; 0; 0; 0] in
  let selector0 := v in
  let v := <[0%nat := u32 (-1)]> v in
  let selector1 := v in
  let v := <[1%nat := u32 (-1)]> v in
  let selector2 := v in
  let v := <[2%nat := u32 (-1)]> v in
  let selector3 := v in
  mk_compress
    ((λ o, (λ i, [make_compress (Z.of_nat i) (if (o <? 4)%nat then Z.of_nat o else Z.of_nat o - 7)])
       <$> seq 0 16) <$> seq 0 7)
    [selector0; selector1; selector2; selector3]
    ((λ i, count (Z.of_nat i)) <$> seq 0 16).

Definition permute (p : list Z) (i : Z) : list Z :=
  let u := p in
  [lane u (Z.land i 3); lane u (Z.land (Z.shiftr i 2) 3);
   lane u (Z.land (Z.shiftr i 4) 3); lane u (Z.land (Z.shiftr i 6) 3)].

Definition index (cm : CompressMask) (o m : Z) : outcome Z :=
  row ← array_get (idx cm) o; e ← array_get row m; array_get e 0.

Definition compress_append (cm : CompressMask) (value msk rest : list Z) (rest_cnt : Z) :
    outcome appended :=
  let m := NEON.pmovemask msk in
  c ← array_get (cnt cm) m;
  if c =? full_size then Ret (mk_appended value rest true rest_cnt)
  else
    i ← index cm rest_cnt m;
    sel ← array_get (selector cm) rest_cnt;
    let p1 := NEON.pblendv sel rest (permute value i) in
    let new_cnt := rest_cnt + c in
    if full_size <=? new_cnt then
      rest ← (if full_size <? new_cnt
              then j ← index cm (new_cnt - c + full_size - 1) m; Ret (permute value j)
              else Ret rest);
      Ret (mk_appended p1 rest true (new_cnt - full_size))
    else Ret (mk_appended value p1 false new_cnt).

End NEONFilter.

(** ** RawbitsMaker *)

(** [vld1q_s32] of an array of [uint64_t]s, and of [uint32_t]s. *)
Definition vld1q_of64 (v : list Z) : list Z := loadu (u64 <$> v).
Definition vld1q_of32 (v : list Z) : list Z := u32 <$> v.

Module NEONRawbits.
Section Code.
Context {R : Type} `{Rng R}.

(** [n] statements [v[i] = rng()], in this order. *)
Definition fill (n : nat) (rng : R) : outcome (list Z * R) :=
  '(xs, rng) ← calls n rng; Ret (as_integer <$> (xs : list random), rng).

(** [RawbitsMaker<Packet4i, Rng, RngResult, scalar_fullbit>], for results of [size]
    bytes. *)
Definition rawbits (size : Z) (rng : R) : outcome (list Z * R) :=
  if size =? 8 then '(v, rng) ← fill 2 rng; Ret (vld1q_of64 v, rng)
  else '(v, rng) ← fill 4 rng; Ret (vld1q_of32 v, rng).

Definition rawbits_34 (size : Z) (rng : R) : outcome (list Z * R) :=
  if size =? 8 then '(v, rng) ← fill 2 rng; Ret (vld1q_of64 v, rng)
  else '(v, rng) ← fill 4 rng; Ret (vld1q_of32 v, rng).

Definition rawbits_half (size : Z) (rng : R) : outcome (list Z * R) :=
  if size =? 8 then '(v, rng) ← fill 1 rng; Ret (vld1q_of64 (v ++ [0]), rng)
  else '(v, rng) ← fill 2 rng; Ret (vld1q_of32 (v ++ [0; 0]), rng).

(** The engine whose results are packets: all three members. *)
Definition packet_rawbits (rng : R) : outcome (list Z * R) :=
  '(x, rng) ← rng_call rng; Ret (as_packet x, rng).

End Code.
End NEONRawbits.

(** ** Masks of whole lanes *)

Lemma vbslq_or_and m a b : length m = length a → length m = length b →
  vbslq_s32 m a b = or_si (and_si m a) (andnot_si m b).
Proof.
  unfold vbslq_s32, vbslq, or_si, and_si, andnot_si. revert a b.
  induction m as [|x m IH]; intros [|y a] [|z b] Ha Hb; try done. cbn. f_equal. apply IH; simpl in *; lia.
Qed.

Lemma neon_blendv bs a b : length bs = 4%nat → register 2 a → register 2 b →
  NEON.pblendv (mask 32 <$> bs) a b = select bs a b.
Proof.
  intros Hbs Ha Hb. unfold NEON.pblendv. rewrite vbslq_or_and by
    (rewrite length_fmap, Hbs; symmetry; by apply (register_length 2)).
  by apply (or_and_select 2).
Qed.

(** Four conditions. *)
Lemma four_conditions (P : list bool → Prop) :
  (∀ b0 b1 b2 b3, P [b0; b1; b2; b3]) → ∀ bs, length bs = 4%nat → P bs.
Proof. intros HP bs Hbs. do 4 (destruct bs as [|? bs]; [done|]). destruct bs; [apply HP|done]. Qed.

Lemma neon_movemask bs : length bs = 4%nat → NEON.pmovemask (mask 32 <$> bs) = movemask_ps (mask 32 <$> bs).
Proof. revert bs. apply four_conditions. intros [] [] [] []; reflexivity. Qed.

Lemma neon_predux bs : length bs = 4%nat →
  NEON.predux_all (mask 32 <$> bs) = SSE.predux_all (mask 32 <$> bs) ∧
  NEON.predux_any (mask 32 <$> bs) = SSE.predux_any (mask 32 <$> bs).
Proof. revert bs. apply four_conditions. intros [] [] [] []; split; reflexivity. Qed.

(** ** Shifts *)

Lemma neon_psrl b a _b : (0 <= b < 32 ∧ _b = b) ∨ (b < 0 ∧ 0 <= _b) → register 2 a →
  NEON.psrl b a _b = SSE.psrl b a _b.
Proof.
  intros Hb Ha. unfold NEON.psrl, SSE.psrl, vshrq_n_u32, srli_epi32. rewrite Z.gtb_ltb, Z.geb_leb.
  assert (∀ k, 0 <= k → (if k =? 0 then a else if (1 <=? k) && (k <=? 31) then srl k <$> a else vdupq_n_s32 0) =
    (λ x, if k <? 32 then srl k x else 0) <$> a) as Hcases.
  { intros k Hk. destruct (Z.eqb_spec k 0) as [->|Hk0].
    - rewrite <-(list_fmap_id a) at 1. apply list_fmap_ext. intros i x _. unfold srl. by rewrite Z.shiftr_0_r.
    - rewrite (proj2 (Z.leb_le 1 k)) by lia. destruct (Z.ltb_spec k 32).
      + by rewrite (proj2 (Z.leb_le k 31)) by lia.
      + rewrite (proj2 (Z.leb_gt k 31)) by lia. unfold vdupq_n_s32. cbn [andb]. by lanes Ha. }
  destruct Hb as [[Hb ->]|[Hb H_b]].
  - rewrite (proj2 (Z.leb_le 0 b)) by lia. destruct (Z.ltb_spec 0 b).
    + by rewrite (proj2 (Z.ltb_lt b 32)) by lia.
    + apply Hcases; lia.
  - rewrite (proj2 (Z.ltb_ge 0 b)), (proj2 (Z.leb_gt 0 b)) by lia. apply Hcases; lia.
Qed.

(** ** The operations *)

(** On registers of four lanes the NEON operations give the results of the SSE
    operations: comparisons, shifts by a constant and by a number that is read
    from a switch, blends, and the reductions and the movemask, which NEON does
    not have, of masks of whole lanes; a gather with indices in the array. *)
Theorem neon_agrees_with_sse (fx : features) a b bs addr m k n _n :
  register 2 a → register 2 b → length bs = 4%nat →
  (0 <= n < 32 ∧ _n = n) ∨ (n < 0 ∧ 0 <= _n) →
  NEON.pcmpeq a b = SSE.pcmpeq a b ∧ NEON.pcmplt a b = SSE.pcmplt a b ∧
  NEON.psll n a = SSE.psll n a ∧ NEON.psrl n a _n = SSE.psrl n a _n ∧
  NEON.pblendv (mask 32 <$> bs) a b = select bs a b ∧
  NEON.pmovemask (mask 32 <$> bs) = SSE.pmovemask (mask 32 <$> bs) ∧
  NEON.predux_all (mask 32 <$> bs) = SSE.predux_all (mask 32 <$> bs) ∧
  NEON.predux_any (mask 32 <$> bs) = SSE.predux_any (mask 32 <$> bs) ∧
  NEON.padd64 a b = SSE.padd64 a b ∧ NEON.psub64 a b = SSE.psub64 a b ∧
  NEON.pcmpeq64 a b = cmpeq_epi64 a b ∧ NEON.pmuluadd64 a m k = SSE.pmuluadd64 a m k ∧
  (∀ index, length index = 4%nat → Forall (λ i, 0 <= i < Z.of_nat (length addr) ∧ i < 2 ^ 31) index →
     NEON.pgather addr index = Ret (lane addr <$> index)).
Proof.
  intros Ha Hb Hbs Hn. destruct (neon_predux bs Hbs) as [Hall Hany].
  split_and!; try done.
  - unfold NEON.pcmplt, vcltq_s32, SSE.pcmplt, cmplt_epi32, cmpgt_epi32. symmetry. apply (zip_with_flip (λ x y, mask 32 (signed 32 x <? signed 32 y))).
  - by apply neon_psrl.
  - by apply neon_blendv.
  - by apply neon_movemask.
  - intros index Hl Hi. rewrite <-(gather_ok (signed 32)).
    + do 4 (destruct index as [|? index]; [done|]). destruct index; [|done]. unfold NEON.pgather. cbn [fmap list_fmap].
      cbn [mapM]. change (lane [_; _; _; _] 0) with (signed 32 z). change (lane [_; _; _; _] 1) with (signed 32 z0).
      change (lane [_; _; _; _] 2) with (signed 32 z1). change (lane [_; _; _; _] 3) with (signed 32 z2).
      destruct (array_get addr (signed 32 z)); try done. cbn. destruct (array_get addr (signed 32 z0)); try done. cbn.
      destruct (array_get addr (signed 32 z1)); try done. cbn. by destruct (array_get addr (signed 32 z2)).
    + eapply Forall_impl; [exact Hi|]. intros i [Hr Hlt]. split; [|done]. unfold signed. by rewrite (proj2 (Z.ltb_lt _ _)).
Qed.

(** ** The engine *)

Section Engine.
Context `{EigenPackets} `{!EigenPacketLaws} (fx : features) (split_two : list Z → list Z * list Z).

(** What [split_two] is declared to do. *)
Context (Hsplit : ∀ a, register 2 a → (split_two a).1 ++ (split_two a).2 = to64 a ∧ length (split_two a).1 = 1%nat).

Lemma packet4i_neon_laws : @IntPacketLaws (packet4i_neon split_two).
Proof.
  split; cbn [size64 packet4i_neon].
  - ip_bitwise pand_lanes bitwise_land.
  - ip_bitwise por_lanes bitwise_lor.
  - ip_bitwise pxor_lanes bitwise_lxor.
  - intros x. apply set1_law.
  - intros b a Hb Ha. apply map64_law; [auto with simd lia|done].
  - intros b a Hb Ha. apply map64_law; [|done]. intros x Hx. apply word_srl; [lia|done].
  - intros a b Ha Hb. apply lanewise64_law; [|done|done]. intros. apply word_mask. lia.
  - intros a b c Ha.
    assert (NEON.pmuluadd64 a b c = of64 ((λ x, u64 (x * b + c)) <$> to64 a)) as Heq by (by lanes Ha).
    cbn [ip_muluadd64 packet4i_neon]. rewrite Heq. apply map64_law; [|done]. intros. apply word_u64.
  - intros a Ha. destruct (Hsplit a Ha) as [Happ Hlen]. split; [exact Happ|]. cbn [ip_split_two packet4i_neon]. lia.
  - lia.
Qed.

Lemma to64_injective n a b : register n a → register n b → to64 a = to64 b → a = b.
Proof.
  revert a b. induction n as [|n IH]; intros a b [Hla Ha] [Hlb Hb] Heq; [by destruct a, b|].
  destruct a as [|lo [|hi a]]; simpl in Hla; try lia. destruct b as [|lo' [|hi' b]]; simpl in Hlb; try lia.
  cbn [to64] in Heq. injection Heq as Hx Heq.
  repeat match goal with H : Forall _ (_ :: _) |- _ => apply Forall_cons in H as [? H] end.
  unfold word in *. assert (lo = lo') as -> by lia. assert (hi = hi') as -> by lia. do 2 f_equal.
  apply IH; [split; [lia|done]..|done].
Qed.

(** The output number [k] of an engine seeded with [x0]. *)
Definition kth_output (ip : IntPacket) (P : mt_params) (x0 : Z) (k : nat) : outcome (list Z) :=
  e ← MersenneTwister.of_scalar P x0;
  e ← MersenneTwister.discard P k e;
  '(p, _) ← MersenneTwister.next P e;
  Ret p.

Lemma kth_output_ok (ip : IntPacket) `{!IntPacketLaws} P x0 k : params_ok P →
  ∃ p, kth_output ip P x0 k = Ret p ∧ register size64 p ∧ to64 p = lane_outputs P x0 k.
Proof.
  intros HP. destruct (of_scalar_ok P HP x0) as (e & He & _ & Hinv).
  destruct (discard_ok P HP x0 e k 0 Hinv) as (e' & Hd & Hinv' & _). rewrite Nat.add_0_r in Hinv'.
  destruct (next_lanes P HP x0 e' k Hinv') as (p & e'' & Hn & _ & Hr & Ht & _).
  exists p. unfold kth_output. rewrite He. cbn. rewrite Hd. cbn. by rewrite Hn.
Qed.

(** The vectorised Mersenne Twister over the NEON operations returns the packets
    that it returns over the SSE operations, for every seed and after any number of
    outputs. *)
Theorem neon_engine P x0 k : params_ok P →
  ∃ p, kth_output (packet4i_neon split_two) P x0 k = Ret p ∧ kth_output (packet4i fx) P x0 k = Ret p.
Proof.
  intros HP. pose proof packet4i_neon_laws as Hneon. pose proof (packet4i_laws fx) as Hsse.
  destruct (kth_output_ok (packet4i_neon split_two) P x0 k HP) as (p & Hp & Hr & Ht).
  destruct (kth_output_ok (packet4i fx) P x0 k HP) as (p' & Hp' & Hr' & Ht').
  exists p. split; [done|]. rewrite Hp'. f_equal. apply (to64_injective 2); [done..|]. by rewrite Ht, Ht'.
Qed.

End Engine.

(** ** The filter *)

Lemma neon_tables : NEONFilter.create = SSEFilter.create.
Proof. vm_compute. reflexivity. Qed.

(** With masks of whole lanes [CompressMask<16>] for NEON does what it does for SSE:
    the tables are the same, and the movemask and the blend give the same results. *)
Lemma neon_append_ok fx v q bs r :
  register 2 v → register 2 q → length bs = 4%nat → (r < 4)%nat →
  ∃ a, NEONFilter.compress_append NEONFilter.create v (mask 32 <$> bs) q (Z.of_nat r) = Ret a ∧
    SSEFilter.compress_append fx SSEFilter.create v (mask 32 <$> bs) q (Z.of_nat r) = Ret a ∧
    append_spec 4 bs v q r a.
Proof.
  intros Hv Hq Hbs Hr.
  assert (length (mask 32 <$> bs) = 4%nat) as Hm by (by rewrite length_fmap).
  destruct (sse_append_ok fx v q (mask 32 <$> bs) r Hv Hq Hm Hr) as (a & Ha & Hspec).
  rewrite conditions_mask in Hspec.
  exists a. split; [|by split].
  rewrite <-Ha, neon_tables. unfold NEONFilter.compress_append, SSEFilter.compress_append.
  rewrite (neon_movemask bs Hbs). destruct (array_get (cnt SSEFilter.create) _) as [c| | |]; try done.
  cbn [mbind outcome_bind]. change NEONFilter.full_size with SSEFilter.full_size.
  destruct (c =? SSEFilter.full_size); [done|]. change NEONFilter.index with SSEFilter.index.
  destruct (SSEFilter.index SSEFilter.create (Z.of_nat r) _) as [e| | |]; try done. cbn [mbind outcome_bind].
  assert (array_get (selector SSEFilter.create) (Z.of_nat r) =
    Ret (mask 32 <$> (replicate r true ++ replicate (4 - r) false))) as ->
    by (do 4 (destruct r as [|r]; [by vm_compute|]); lia).
  cbn [mbind outcome_bind]. change (NEONFilter.permute v) with (SSEFilter.permute v).
  assert (register 2 (SSEFilter.permute v e)) as Hp.
  { split; [done|]. rewrite sse_permute. apply Forall_fmap, Forall_true. intros i. by apply (word_lane 2). }
  assert (length (replicate r true ++ replicate (4 - r) false) = 4%nat) as Hsel
    by (rewrite length_app, !length_replicate; lia).
  rewrite neon_blendv by done. rewrite (sse_blendv fx) by done. done.
Qed.

(** ** The draws *)

Section Draws.
Context {R : Type} `{Rng R}.

Lemma calls_length n : ∀ rng xs rng', calls n rng = Ret (xs, rng') → length xs = n.
Proof.
  induction n as [|n IH]; intros rng xs rng' Hc; cbn in Hc; [by injection Hc as <- _|].
  destruct (rng_call rng) as [[x r]| | |]; try done. cbn in Hc.
  destruct (calls n r) as [[ys r']| | |] eqn:E; try done. cbn in Hc. injection Hc as <- _. cbn. f_equal. by eapply IH.
Qed.

Definition right_to_left (n : nat) : list nat := reverse (seq 0 n).
Definition left_to_right (n : nat) : list nat := seq 0 n.

Lemma nth_seq {A B} (d : A) (g : A → B) xs : (λ i, g (nth i xs d)) <$> seq 0 (length xs) = g <$> xs.
Proof.
  induction xs as [|x xs IH]; [done|]. cbn [length seq fmap list_fmap nth]. f_equal.
  rewrite <-IH, <-fmap_S_seq, <-list_fmap_compose. done.
Qed.

(** Arguments that are evaluated in order, or the last one first. *)
Lemma arguments_in_order n rng :
  arguments left_to_right n rng = NEONRawbits.fill n rng ∧
  arguments right_to_left n rng = ('(v, rng) ← NEONRawbits.fill n rng; Ret (reverse v, rng)).
Proof.
  unfold arguments, NEONRawbits.fill, left_to_right, right_to_left.
  destruct (calls n rng) as [[xs r]| | |] eqn:E; try done. cbn [mbind outcome_bind].
  apply calls_length in E as <-. split; do 2 f_equal.
  - apply nth_seq.
  - rewrite fmap_reverse. f_equal. apply nth_seq.
Qed.

(** A packet drawn from a scalar engine for NEON has the bits of the packet drawn
    for SSE without SSSE3, by a compiler that evaluates arguments from the right
    ([_mm_set_epi64x] takes the highest lane first); and so has half a packet, from the
    left where the arguments are in the order of the lanes. *)
Theorem neon_rawbits fx size rng : ssse3 fx = false →
  NEONRawbits.rawbits size rng = RawbitsMaker.scalar4i_rawbits right_to_left size rng ∧
  NEONRawbits.rawbits_34 size rng = RawbitsMaker.scalar4i_rawbits_34 right_to_left fx size rng ∧
  NEONRawbits.rawbits_half size rng = RawbitsMaker.scalar4i_rawbits_half left_to_right size rng.
Proof.
  intros Hfx. unfold NEONRawbits.rawbits, NEONRawbits.rawbits_34, NEONRawbits.rawbits_half,
    RawbitsMaker.scalar4i_rawbits, RawbitsMaker.scalar4i_rawbits_34, RawbitsMaker.scalar4i_rawbits_half.
  rewrite Hfx. destruct (arguments_in_order 2 rng) as [Hl2 Hr2]. destruct (arguments_in_order 4 rng) as [_ Hr4].
  rewrite Hl2, Hr2, Hr4. assert (∀ n, ('(a, r) ← ('(v, r) ← NEONRawbits.fill n rng; Ret (reverse v, r)); Ret (set_epi64x a, r)) =
      ('(v, r) ← NEONRawbits.fill n rng; Ret (vld1q_of64 v, r)) ∧
    ('(a, r) ← ('(v, r) ← NEONRawbits.fill n rng; Ret (reverse v, r)); Ret (set_epi32 a, r)) =
      ('(v, r) ← NEONRawbits.fill n rng; Ret (vld1q_of32 v, r))) as Hset.
  { intros n. destruct (NEONRawbits.fill n rng) as [[v r]| | |]; try done. cbn [mbind outcome_bind].
    unfold set_epi64x, set_epi32. by rewrite reverse_involutive. }
  destruct (Hset 2%nat) as [-> _], (Hset 4%nat) as [_ ->].
  split; [done|]. split; [done|]. destruct (size =? 8); [|done].
  unfold NEONRawbits.fill. cbn [calls]. by destruct (rng_call rng) as [[x r]| | |].
Qed.

End Draws.

(** ** Witnesses *)

Lemma neon_agrees_with_sse_witness :
  NEON.psrl (-1) [1; 2; 3; 64] 4 = SSE.psrl (-1) [1; 2; 3; 64] 4.
Proof.
  apply (neon_agrees_with_sse (mk_features true true true true) [1; 2; 3; 64] [0; 0; 0; 0]
    [true; false; true; true] [] 3 5 (-1) 4); [..|done|right; lia];
    (split; [done|]; repeat constructor; unfold word; lia).
Defined.

Lemma neon_engine_witness :
  ∃ p, kth_output (packet4i_neon (H := instructions) (λ a, ([lane (to64 a) 0], [lane (to64 a) 1]))) mt19937_64 5489 1000 = Ret p ∧
    kth_output (packet4i (H := instructions) (mk_features true true true true)) mt19937_64 5489 1000 = Ret p.
Proof.
  apply (neon_engine (H := instructions) (H0 := instructions_laws)); [|apply mt19937_64_ok].
  intros a Ha. split; [|reflexivity]. destruct Ha as [Hl _].
  do 4 (destruct a as [|? a]; [discriminate Hl|]). destruct a; [reflexivity|discriminate Hl].
Defined.

Lemma neon_rawbits_witness :
  NEONRawbits.rawbits 4 (H := recorded_rng) (scalar_result 4 <$> [1; 2; 3; 4]) =
    RawbitsMaker.scalar4i_rawbits (H := recorded_rng) right_to_left 4 (scalar_result 4 <$> [1; 2; 3; 4]).
Proof.
  apply (neon_rawbits (H := recorded_rng) (mk_features false false false false)). reflexivity.
Defined.
