(* ===== verification/Avx512.v ===== *)
(** EigenRand/arch/AVX512: the packet operations of MorePacketMath.h on [Packet16i],
    the filter of PacketFilter.h and the draws of RandUtils.h, with the
    instructions of AVX512 that they use.

    The operations for AVX512 are lane-wise, and its filter is a queue that takes
    the new lanes first. *)

From S2P Require Import Prelude.
From S2P Require Import Simd.
From S2P Require Import PacketMath.
From S2P Require Import PacketMathProps.
From S2P Require Import PacketFilter.
From S2P Require Import RandUtils.
From S2P Require Import Neon.

(** ** Instructions

    A register is the list of its sixteen 32-bit lanes; a mask register is the
    number whose bits are the conditions, that of the lowest lane first. *)

Definition movepi32_mask (a : list Z) : Z := bits_of ((λ x, 2 ^ 31 <=? x) <$> a).
Definition movepi64_mask (a : list Z) : Z := bits_of ((λ x, 2 ^ 63 <=? x) <$> to64 a).
Definition movm_epi32 (m : Z) : list Z := (λ i, mask 32 (Z.testbit m (Z.of_nat i))) <$> seq 0 16.
Definition movm_epi64 (m : Z) : list Z := of64 ((λ i, mask 64 (Z.testbit m (Z.of_nat i))) <$> seq 0 8).
Definition cmplt_epi32_mask (a b : list Z) : Z := bits_of (zip_with (λ x y, signed 32 x <? signed 32 y) a b).
Definition cmpeq_epi64_mask (a b : list Z) : Z := bits_of (zip_with Z.eqb (to64 a) (to64 b)).

(** [_mm512_mask_blend_epi32(m, a, b)]: the bits of [m] select [b]. *)
Definition blend (m : Z) (a b : list Z) : list Z :=
  imap (λ i ab, if Z.testbit m (Z.of_nat i) then ab.2 else ab.1) (zip a b).
Definition mask_blend_epi32 (m : Z) (a b : list Z) : list Z := blend m a b.
Definition mask_blend_pd (m : Z) (a b : list Z) : list Z := of64 (blend m (to64 a) (to64 b)).

(** [_mm512_permutexvar_ps(idx, a)] takes the low four bits of an index. *)
Definition permutexvar_ps (idx a : list Z) : list Z := (λ i, lane a (i mod 16)) <$> idx.

(** [_mm512_mask_compress_ps(src, m, a)]: the lanes of [a] that [m] selects, moved
    together, and above them the lanes of [src]. *)
Definition compressed (m : Z) (a : list Z) : list Z :=
  lane a <$> filter (λ i, Z.testbit m i = true) (Z.of_nat <$> seq 0 16).
Definition mask_compress_ps (src : list Z) (m : Z) (a : list Z) : list Z :=
  compressed m a ++ drop (length (compressed m a)) src.

Definition popcnt_u32 (m : Z) : Z := Z.of_nat (length (filter (λ i, Z.testbit m i = true) (Z.of_nat <$> seq 0 32))).

(** [_mm512_inserti64x4(a, b, 1)]. *)
Definition inserti64x4_1 (a b : list Z) : list Z := take 8 a ++ b.

(** Eigen's comparisons of packets. *)
Class EigenCompare := { pcmp_eq : list Z → list Z → list Z }.
Class EigenCompareLaws `{EigenCompare} := {
  pcmp_eq_lanes : ∀ n a b, register n a → register n b → pcmp_eq a b = cmpeq_epi32 a b;
}.
Definition compare_instructions : EigenCompare := {| pcmp_eq := cmpeq_epi32 |}.
Lemma compare_instructions_laws : @EigenCompareLaws compare_instructions.
Proof. by split. Qed.

(** ** Packet16i *)

Module AVX512.
Section Code.
Context `{EigenPackets} `{EigenCompare}.

Definition pseti64 (a : Z) : list Z := set1_epi64x 8 a.
Definition padd64 (a b : list Z) : list Z := add_epi64 a b.
Definition psub64 (a b : list Z) : list Z := sub_epi64 a b.
Definition pcmpeq (a b : list Z) : list Z := pcmp_eq a b.
Definition pnegate (a : list Z) : list Z := sub_epi32 (pset1 16 0) a.

Definition psll (b : Z) (a : list Z) : list Z := slli_epi32 b a.
Definition psrl (b : Z) (a : list Z) (_b : Z) : list Z :=
  if b >=? 0 then srli_epi32 b a else srli_epi32 _b a.
Definition psll64 (b : Z) (a : list Z) : list Z := slli_epi64 b a.
Definition psrl64 (b : Z) (a : list Z) : list Z := srli_epi64 b a.

Definition predux_all (x : list Z) : bool := movepi32_mask x =? 0xFFFF.

Definition pcmplt (a b : list Z) : list Z :=
  let m := cmplt_epi32_mask a b in
  movm_epi32 m.

(** [pblendv] on 32-bit and on 64-bit lanes. *)
Definition pblendv (ifPacket thenPacket elsePacket : list Z) : list Z :=
  let m := movepi32_mask ifPacket in
  mask_blend_epi32 m elsePacket thenPacket.
Definition pblendv_pd (ifPacket thenPacket elsePacket : list Z) : list Z :=
  let m := movepi64_mask ifPacket in
  mask_blend_pd m elsePacket thenPacket.

Definition pgather {A} (addr : list A) (index : list Z) : outcome (list A) :=
  mapM (λ i, array_get addr (signed 32 i)) index.

(** [pgather] from an array of [double]s. *)
Definition pgather_doubles {A} (addr : list A) (index : list Z) (upperhalf : bool) : outcome (list A) :=
  mapM (λ i, array_get addr (signed 32 i)) (take 8 index).

Definition pcmpeq64 (a b : list Z) : list Z :=
  let m := cmpeq_epi64_mask a b in
  movm_epi64 m.

End Code.
End AVX512.

(** ** CompressMask<64> *)

Module AVX512Filter.

Definition full_size : Z := 16.

Definition compress_append (value msk rest : list Z) (rest_cnt : Z) : outcome appended :=
  let m := movepi32_mask msk in
  if m =? 0xFFFF then Ret (mk_appended value rest true rest_cnt)
  else
    let cnt_m := popcnt_u32 m in
    let counting := Z.of_nat <$> seq 0 16 in
    let rotate := sub_epi32 counting (set1_epi32 16 cnt_m) in
    let rot_rest := permutexvar_ps rotate rest in
    let p1 := mask_compress_ps rot_rest m value in
    let new_cnt := rest_cnt + cnt_m in
    if full_size <=? new_cnt then Ret (mk_appended p1 rot_rest true (new_cnt - full_size))
    else Ret (mk_appended value p1 false new_cnt).

End AVX512Filter.

(** ** RawbitsMaker *)

Module AVX512Rawbits.
Section Code.
Context {R : Type} `{Rng R} (order : nat → list nat).

(** A [Packet8i] from an engine of [Packet16i], and [rawbits_half] of [Packet16i]:
    all three members. *)
Definition half_rawbits (rng : R) : outcome (list Z * R) := rng_half rng.

(** A [Packet16i] from an engine of [Packet8i]: [rawbits] and [rawbits_34], and
    [rawbits_half]. *)
Definition two_rawbits (rng : R) : outcome (list Z * R) :=
  '(xs, rng) ← calls 2 rng;
  let a := (λ i, as_packet (nth i xs (packet_result []))) <$> order 2%nat in
  Ret (inserti64x4_1 (nth 0 a []) (nth 1 a []), rng).
Definition packet_rawbits (rng : R) : outcome (list Z * R) :=
  '(x, rng) ← rng_call rng; Ret (as_packet x, rng).

(** [RawbitsMaker<Packet16i, Rng, RngResult, scalar_fullbit>], for results of [size]
    bytes. *)
Definition scalar16i_rawbits (size : Z) (rng : R) : outcome (list Z * R) :=
  if size =? 8 then '(a, rng) ← arguments order 8 rng; Ret (set_epi64x a, rng)
  else '(a, rng) ← arguments order 16 rng; Ret (set_epi32 a, rng).
Definition scalar16i_rawbits_34 (size : Z) (rng : R) : outcome (list Z * R) := scalar16i_rawbits size rng.
Definition scalar16i_rawbits_half (size : Z) (rng : R) : outcome (list Z * R) :=
  if size =? 8 then '(a, rng) ← arguments order 4 rng; Ret (set_epi64x a, rng)
  else '(a, rng) ← arguments order 8 rng; Ret (set_epi32 a, rng).

End Code.
End AVX512Rawbits.

(** ** Mask registers *)

Lemma bits_of_range bs : 0 <= bits_of bs < 2 ^ Z.of_nat (length bs).
Proof.
  induction bs as [|b bs IH]; [done|]. cbn [bits_of length]. rewrite Nat2Z.inj_succ, Z.pow_succ_r by lia. destruct b; lia.
Qed.

Lemma testbit_bits_of bs i : Z.testbit (bits_of bs) (Z.of_nat i) = nth i bs false.
Proof.
  revert i. induction bs as [|b bs IH]; intros i; [by rewrite Z.bits_0; destruct i|]. cbn [bits_of].
  assert ((if b then 1 else 0) + 2 * bits_of bs = 2 * bits_of bs + Z.b2z b) as -> by (destruct b; cbn; lia).
  destruct i as [|i]; [by apply Z.testbit_0_r|]. rewrite Nat2Z.inj_succ, Z.testbit_succ_r by lia. apply IH.
Qed.

Lemma bits_of_all bs : (bits_of bs =? 2 ^ Z.of_nat (length bs) - 1) = forallb (λ b, b) bs.
Proof.
  induction bs as [|b bs IH]; [done|]. cbn [bits_of length forallb]. rewrite <-IH.
  rewrite Nat2Z.inj_succ, Z.pow_succ_r by lia. destruct b; cbn [andb].
  - destruct (Z.eqb_spec (bits_of bs) (2 ^ Z.of_nat (length bs) - 1)); [apply Z.eqb_eq|apply Z.eqb_neq]; lia.
  - apply Z.eqb_neq. lia.
Qed.

Lemma mask_of_bits {A} (g : bool → A) bs n : length bs = n →
  (λ i, g (Z.testbit (bits_of bs) (Z.of_nat i))) <$> seq 0 n = g <$> bs.
Proof.
  intros <-. etransitivity; [|apply (nth_seq false g bs)]. apply list_fmap_ext. intros _ i _. by rewrite testbit_bits_of.
Qed.

Lemma movm_bits bs : length bs = 16%nat → movm_epi32 (bits_of bs) = mask 32 <$> bs.
Proof. apply mask_of_bits. Qed.

Lemma blend_bits bs a b : length bs = length a → length bs = length b → blend (bits_of bs) a b = zip_with (λ s ab, if s : bool then ab.2 else ab.1) bs (zip a b).
Proof.
  intros Ha Hb. unfold blend.
  assert (∀ k bs' l, length bs' = length l → (∀ i, nth (k + i) bs false = nth i bs' false) →
    imap (λ i (ab : Z * Z), if Z.testbit (bits_of bs) (Z.of_nat (k + i)) then ab.2 else ab.1) l =
    zip_with (λ (s : bool) ab, if s then ab.2 else ab.1) bs' l) as Hgen.
  { clear. intros k bs' l. revert k bs'. induction l as [|x l IH]; intros k [|s bs'] Hl Hn; try done. cbn [imap zip_with].
    f_equal; [by rewrite testbit_bits_of, Hn|]. rewrite <-(IH (S k) bs'); [|cbn in Hl; lia|].
    - apply imap_ext. intros i y _. cbn. by rewrite Nat.add_succ_r.
    - intros i. specialize (Hn (S i)). by rewrite Nat.add_succ_r in Hn. }
  apply (Hgen 0%nat bs); [|done]. rewrite length_zip. lia.
Qed.

(** ** The operations *)

Lemma avx512_pcmpeq64 a b : register 8 a → register 8 b → AVX512.pcmpeq64 a b = cmpeq_epi64 a b.
Proof.
  intros Ha Hb. unfold AVX512.pcmpeq64, cmpeq_epi64_mask, movm_epi64, cmpeq_epi64, lanewise64. f_equal.
  pose proof (length_to64 8 a (register_length _ _ Ha)) as Hta. pose proof (length_to64 8 b (register_length _ _ Hb)) as Htb.
  rewrite (mask_of_bits (mask 64)) by (rewrite length_zip_with; lia).
  generalize (to64 a) (to64 b). clear. intros a. induction a as [|x a IH]; intros [|y b]; try done. cbn. by rewrite IH.
Qed.

Section Operations.
Context `{EigenPackets} `{!EigenPacketLaws} `{Avx512.EigenCompare} `{!EigenCompareLaws}.

(** Every [Packet16i] operation computes its result lane by lane: comparisons and
    blends go through the bits of a mask register and back. *)
Theorem avx512_lanes a b bs addr n k :
  register 8 a → register 8 b → length bs = 16%nat →
  AVX512.pcmpeq a b = cmpeq_epi32 a b ∧ AVX512.pcmplt a b = cmpgt_epi32 b a ∧
  AVX512.pcmpeq64 a b = cmpeq_epi64 a b ∧ AVX512.pnegate a = (λ x, u32 (- x)) <$> a ∧
  AVX512.psrl n a k = srli_epi32 (if n <? 0 then k else n) a ∧
  AVX512.predux_all (mask 32 <$> bs) = forallb (λ b, b) bs ∧
  AVX512.pblendv (mask 32 <$> bs) a b = select bs a b ∧
  (∀ index, Forall (λ i, 0 <= i < Z.of_nat (length addr) ∧ i < 2 ^ 31) index →
     AVX512.pgather addr index = Ret (lane addr <$> index)).
Proof.
  intros Ha Hb Hbs. pose proof (register_length _ _ Ha) as Hla. pose proof (register_length _ _ Hb) as Hlb. cbn in Hla, Hlb.
  split_and!.
  - by apply (pcmp_eq_lanes 8).
  - unfold AVX512.pcmplt, cmplt_epi32_mask. rewrite movm_bits by (rewrite length_zip_with; lia).
    unfold cmpgt_epi32. clear. revert b. induction a as [|x a IH]; intros [|y b]; try done. cbn. by rewrite IH.
  - by apply avx512_pcmpeq64.
  - unfold AVX512.pnegate. rewrite pset1_lanes. by lanes Ha.
  - unfold AVX512.psrl. rewrite Z.geb_leb, Z.leb_antisym. by destruct (n <? 0).
  - unfold AVX512.predux_all, movepi32_mask. fold (conditions (mask 32 <$> bs)). rewrite conditions_mask.
    rewrite <-bits_of_all, Hbs. done.
  - unfold AVX512.pblendv, mask_blend_epi32, movepi32_mask. fold (conditions (mask 32 <$> bs)). rewrite conditions_mask.
    rewrite blend_bits by congruence. unfold select. clear -b Hbs Hla Hlb.
    assert (length a = length b) as Hab by congruence. clear Hbs Hla Hlb.
    revert a b Hab. induction bs as [|s bs IH]; intros [|x a] [|y b] Hab; try done. cbn. rewrite IH by (simpl in Hab; lia). done.
  - intros index Hi. apply gather_ok. eapply Forall_impl; [exact Hi|]. intros i [Hr Hlt]. split; [|done].
    unfold signed. by rewrite (proj2 (Z.ltb_lt _ _)).
Qed.

End Operations.

(** With a gather instruction the third argument of [pgather] from [double]s is
    ignored: the upper half of the indices cannot be reached. *)
Theorem gather_ignores_upperhalf {A} (addr : list A) index :
  AVX512.pgather_doubles addr index true = AVX512.pgather_doubles addr index false ∧
  (∀ fx, avx2 fx = true → AVX.pgather_doubles fx addr index true = AVX.pgather_doubles fx addr index false ∧
    SSE.pgather_doubles fx addr index true = SSE.pgather_doubles fx addr index false).
Proof. split; [done|]. intros fx Hfx. unfold AVX.pgather_doubles, SSE.pgather_doubles. by rewrite Hfx. Qed.

(** ** The filter *)

Lemma filter_positions bs k m : (∀ i, (i < length bs)%nat → Z.testbit m (Z.of_nat (k + i)) = nth i bs false) →
  filter (λ i, Z.testbit m i = true) (Z.of_nat <$> seq k (length bs)) = positions (Z.of_nat k) bs.
Proof.
  revert k. induction bs as [|b bs IH]; intros k Hm; [done|]. cbn [length seq fmap list_fmap positions].
  pose proof (Hm 0%nat ltac:(cbn; lia)) as H0. rewrite Nat.add_0_r in H0. cbn [nth] in H0.
  specialize (IH (S k)). replace (Z.of_nat (S k)) with (Z.of_nat k + 1) in IH by lia. rewrite <-IH.
  - destruct b; [by rewrite filter_cons_True|]. apply filter_cons_False. by rewrite H0.
  - intros i Hi. rewrite Nat.add_succ_comm, Hm by (cbn; lia). done.
Qed.

Lemma compressed_selected bs v : length bs = 16%nat → compressed (bits_of bs) v = selected bs v.
Proof.
  intros Hbs. unfold compressed, selected. f_equal. rewrite <-Hbs. apply (filter_positions bs 0).
  intros i _. apply testbit_bits_of.
Qed.

Lemma popcnt_positions bs : (length bs <= 32)%nat → popcnt_u32 (bits_of bs) = Z.of_nat (length (positions 0 bs)).
Proof.
  intros Hbs. unfold popcnt_u32. f_equal. replace 32%nat with (length bs + (32 - length bs))%nat by lia.
  rewrite seq_app, fmap_app, filter_app, (filter_positions bs 0) by (intros; apply testbit_bits_of).
  rewrite length_app. assert (filter (λ i, Z.testbit (bits_of bs) i = true) (Z.of_nat <$> seq (0 + length bs) (32 - length bs)) = []) as ->; [|by rewrite Nat.add_0_r].
  apply elem_of_nil_inv. intros i Hi. apply list_elem_of_filter in Hi as [Hbit Hi].
  apply list_elem_of_fmap in Hi as (k & -> & Hk). apply elem_of_seq in Hk.
  rewrite testbit_bits_of, nth_overflow in Hbit by lia. done.
Qed.

Lemma rotated c q : (c < 16)%nat → length q = 16%nat →
  permutexvar_ps (sub_epi32 (Z.of_nat <$> seq 0 16) (set1_epi32 16 (Z.of_nat c))) q = drop (16 - c) q ++ take (16 - c) q.
Proof.
  intros Hc Hq. do 16 (destruct q as [|? q]; [done|]). destruct q; [|done]. clear Hq.
  do 16 (destruct c as [|c]; [reflexivity|]). lia.
Qed.

(** Appending to a queue whose first [r] lanes are used: the new lanes go to the
    front. *)
Definition append_front_spec (n : nat) (bs : list bool) (v q : list Z) (r : nat) (a : appended) : Prop :=
  if forallb (λ b, b) bs then a = mk_appended v q true (Z.of_nat r)
  else
    let q' := selected bs v ++ take r q in
    (length (rest a) = n ∧ Forall (word 32) (rest a)) ∧
    if (n <=? length q')%nat
    then value a = take n q' ∧ full a = true ∧ new_count a = Z.of_nat (length q' - n) ∧
         take (length q' - n) (rest a) = drop n q'
    else value a = v ∧ full a = false ∧ new_count a = Z.of_nat (length q') ∧
         take (length q') (rest a) = q'.

Lemma selected_words bs v : Forall (word 32) v → Forall (word 32) (selected bs v).
Proof.
  intros Hv. apply Forall_fmap, Forall_true. intros i. cbn. unfold lane. rewrite nth_lookup.
  destruct (v !! _) as [x|] eqn:E; cbn; [by eapply Forall_lookup_1|unfold word; lia].
Qed.

(** [CompressMask<64>] appends the selected lanes to its queue for every packet, mask
    and number of queued lanes: it needs no table, and it shifts the queue up to
    make room for the new lanes at its front. *)
Lemma avx512_append_ok v q bs r :
  register 8 v → register 8 q → length bs = 16%nat → (r < 16)%nat →
  ∃ a, AVX512Filter.compress_append v (mask 32 <$> bs) q (Z.of_nat r) = Ret a ∧ append_front_spec 16 bs v q r a.
Proof.
  intros [Hv Hwv] [Hq Hwq] Hbs Hr. cbn in Hv, Hq. unfold AVX512Filter.compress_append, movepi32_mask, append_front_spec.
  fold (conditions (mask 32 <$> bs)). rewrite conditions_mask. change 0xFFFF with (2 ^ Z.of_nat 16 - 1).
  rewrite <-Hbs, bits_of_all, Hbs. destruct (forallb (λ b, b) bs) eqn:Hall; [by eexists|].
  rewrite popcnt_positions by lia. set (c := length (positions 0 bs)).
  assert (length (selected bs v) = c) as Hsel by (unfold selected; by rewrite length_fmap).
  assert (c < 16)%nat as Hc.
  { pose proof (positions_le bs 0). assert (c ≠ 16%nat); [|lia]. intros Heq. rewrite <-Hbs in Heq.
    apply all_true_positions in Heq. congruence. }
  rewrite rotated by done. unfold mask_compress_ps. rewrite compressed_selected, Hsel by done.
  rewrite drop_app_ge by (rewrite length_drop; lia). rewrite length_drop, Hq.
  replace (c - (16 - (16 - c)))%nat with 0%nat by lia. rewrite drop_0.
  assert (length (selected bs v ++ take r q) = c + r)%nat as Hq' by (rewrite length_app, length_take; lia).
  rewrite Hq'. unfold AVX512Filter.full_size. rewrite <-Nat2Z.inj_add.
  destruct (Nat.leb_spec 16 (c + r)).
  - rewrite (proj2 (Z.leb_le _ _)) by lia. eexists. split; [done|]. cbn [rest value full new_count]. split.
    { split; [rewrite length_app, length_drop, length_take; lia|]. apply Forall_app. split; [by apply Forall_drop|by apply Forall_take]. }
    split_and!; [|done|lia|].
    + rewrite take_app_ge, Hsel, take_take by lia. do 2 f_equal. lia.
    + rewrite drop_app_ge, Hsel by lia. rewrite take_app_le by (rewrite length_drop; lia).
      rewrite skipn_firstn_comm. f_equal. lia.
  - rewrite (proj2 (Z.leb_gt _ _)) by lia. eexists. split; [done|]. cbn [rest value full new_count]. split.
    { split; [rewrite length_app, length_take; lia|]. apply Forall_app. split; [by apply selected_words|by apply Forall_take]. }
    split_and!; [done|done|lia|].
    rewrite take_app_ge, Hsel, take_take by lia. do 2 f_equal. lia.
Qed.
