(* ===== verification/Isas.v ===== *)
(** The same on every instruction set: the filters of SSE, AVX, AVX512 and NEON as
    collectors of lanes, and the packets of floating-point numbers of AVX512 and
    NEON, on which [psincos] computes what it computes on those of SSE and AVX. *)

From S2P Require Import Prelude.
From S2P Require Import Simd.
From S2P Require Import PacketMath.
From S2P Require Import PacketMathProps.
From S2P Require Import PacketFilter.
From S2P Require Import FloatBits.
From Stdlib Require Import SpecFloat.
From S2P Require Import Num.
From S2P Require Import FloatBitsProps.
From S2P Require Import FloatNum.
From S2P Require Import SinCos.
From S2P Require Import SinCosLanes.
From S2P Require Import SinCosPackets.
From S2P Require Import Neon.
From S2P Require Import Avx512.

(** ** Filters *)

#[export] Instance avx512_collects : Collects 8 AVX512Filter.compress_append.
Proof.
  split. intros v q bs r Hv Hq Hbs Hr. destruct (avx512_append_ok v q bs r Hv Hq Hbs Hr) as (a & Ha & Hspec).
  exists a. split; [done|]. unfold append_front_spec in Hspec. destruct (forallb (λ b, b) bs) eqn:Hall.
  - subst a. exists r. split_and!; try done; try apply Hq; [intros _; apply (register_length _ _ Hv)|].
    cbn. rewrite selected_all; [apply Permutation_app_comm|rewrite (register_length _ _ Hv); by rewrite Hbs|done].
  - set (l := selected bs v ++ take r q) in *. destruct Hspec as [Hrest Hspec].
    assert (length l < 32)%nat as Hl.
    { unfold l. rewrite length_app, length_take. pose proof (selected_length bs v). lia. }
    assert (l ≡ₚ take r q ++ selected bs v) as Hperm by apply Permutation_app_comm.
    destruct (Nat.leb_spec 16 (length l)); destruct Hspec as (Hval & Hfull & Hcnt & Hq').
    + exists (length l - 16)%nat. rewrite Hfull, Hval, Hq', take_drop. split_and!; try done; try apply Hrest; [lia|].
      intros _. rewrite length_take. lia.
    + exists (length l). rewrite Hfull, Hq'. split_and!; try done; try apply Hrest; lia.
Qed.

#[export] Instance neon_collects : Collects 2 (NEONFilter.compress_append NEONFilter.create).
Proof.
  split. intros v q bs r Hv Hq Hbs Hr.
  destruct (neon_append_ok (mk_features true true true true) v q bs r Hv Hq Hbs Hr) as (a & Ha & _ & Hspec).
  exists a. split; [done|]. apply append_collected; [lia|apply Hv|split; apply Hq|done..].
Qed.

(** What [compress_append] promises over a stream. *)
Definition collects_stream (n : nat) (compress : list Z → list Z → list Z → Z → outcome appended) : Prop :=
  ∀ ins, Forall (λ '(v, bs), register n v ∧ length bs = (2 * n)%nat) ins →
    ∃ outs q r, feed compress ins (replicate (2 * n) 0) 0 = Ret (outs, q, Z.of_nat r) ∧ (r < 2 * n)%nat ∧
      Forall (λ p, length p = (2 * n)%nat) outs ∧ concat outs ++ take r q ≡ₚ all_selected ins.

Section Isas.
Context `{EigenPackets} `{!EigenPacketLaws} `{EigenTrig} `{!EigenTrigLaws} (fx : features).

(** C24. No lane is lost or repeated over a stream of packets, with the filter of any
    instruction set: what has been handed out, in whole packets, together with what
    is still queued is a permutation of all selected lanes, and less than a packet
    is ever queued. *)
Theorem filter_streams :
  collects_stream 2 (SSEFilter.compress_append fx SSEFilter.create) ∧
  collects_stream 4 (AVXFilter.compress_append fx AVXFilter.create) ∧
  collects_stream 8 AVX512Filter.compress_append ∧
  collects_stream 2 (NEONFilter.compress_append NEONFilter.create).
Proof.
  pose proof (appends_collects 2 _ ltac:(lia) (sse_appends fx)).
  pose proof (appends_collects 4 _ ltac:(lia) (avx_appends fx)).
  split_and!; intros ins Hins; apply feed_all; (lia || done).
Qed.

(** ** Packets of numbers *)

Context `{Avx512.EigenCompare} `{!EigenCompareLaws}.

Definition packet16f : TrigPacket binary32 := float_packet 8 AVX512.pcmpeq AVX512.psll.
Definition packet8d : TrigPacket binary64 :=
  double_packet 8 AVX512Double.double_to_int64_avx512 AVX512Double.int64_to_double_avx512 AVX512.pseti64 AVX512.padd64 AVX512.psub64
    AVX512.pcmpeq64 AVX512.psll64.
Definition packet4f_neon : TrigPacket binary32 := float_packet 2 NEON.pcmpeq NEON.psll.
Definition packet2d_neon : TrigPacket binary64 :=
  double_packet 2 NEONDouble.pcast64_2d NEONDouble.pcast64_4i NEON.pseti64 NEON.padd64 NEON.psub64 NEON.pcmpeq64 NEON.psll64.

Lemma packet16f_laws : TrigPacketLaws (H := packet16f) 16 (2 ^ 31 - 2).
Proof.
  apply (float_packet_laws 8); [lia| |done]. intros a b Ha Hb. by apply (pcmp_eq_lanes 8).
Qed.

Lemma packet8d_laws : TrigPacketLaws (H := packet8d) 8 (2 ^ 51 - 1).
Proof.
  apply (double_packet_laws 8); [lia| | |done|done|done| |done].
  - intros a Ha. by apply (floor_to_int64 8 a Ha).
  - intros a Ha. by apply (to_double_lane 8).
  - intros a b. apply avx512_pcmpeq64.
Qed.

Lemma packet4f_neon_laws : TrigPacketLaws (H := packet4f_neon) 4 (2 ^ 31 - 2).
Proof. by apply (float_packet_laws 2); [lia|..]. Qed.

(** The conversions of NEON. *)
Lemma vcvt_word w : word 64 (NEONDouble.vcvt_s64_f64 w).
Proof.
  unfold NEONDouble.vcvt_s64_f64. assert (∀ j, word 64 (u64 j)) as Hu by (intros; apply word_u64).
  destruct (of_bits binary64 w) as [s|[]| |s m e]; cbn [b64_trunc]; try apply Hu; unfold word; lia.
Qed.

Lemma vcvt_ok w j : b64_trunc (of_bits binary64 w) = Some j → 0 <= j < 2 ^ 51 → NEONDouble.vcvt_s64_f64 w = j.
Proof.
  intros Hj Hr. unfold NEONDouble.vcvt_s64_f64. destruct (of_bits binary64 w); try done; rewrite Hj;
    rewrite Z.min_r, Z.max_r by lia; unfold u64; apply Z.mod_small; lia.
Qed.

Lemma packet2d_neon_laws : TrigPacketLaws (H := packet2d_neon) 2 (2 ^ 51 - 1).
Proof.
  pose proof (or_intror eq_refl : ieee binary64) as Hf.
  apply (double_packet_laws 2); [lia| | |done|done|done|done|done].
  - intros a Ha. destruct (map64_law 2 NEONDouble.vcvt_s64_f64 a) as [Hr Hv]; [intros; apply vcvt_word|done|].
    split; [exact Hr|]. intros i j Hi _ Hj Hb. unfold NEONDouble.pcast64_2d.
    rewrite Hv, (nth_fmap_lt _ _ i 0) by (rewrite (length_to64 2); [done|apply Ha]). by apply vcvt_ok.
  - intros a Ha. set (g := λ x, to_bits binary64 (binary_normalize 53 1024 (signed 64 x) 0 false)).
    assert (∀ x, word 64 (g x) ∧ of_bits binary64 (g x) = binary_normalize 53 1024 (signed 64 x) 0 false) as Hg
      by (intros x; apply (of_bits_to_bits binary64 Hf), (normalize_canonical binary64 Hf)).
    destruct (map64_law 2 g a) as [Hr Hv]; [intros; apply Hg|done|]. split; [exact Hr|]. intros i Hi Hb.
    unfold NEONDouble.pcast64_4i. fold g. rewrite Hv, (nth_fmap_lt _ _ i 0) by (rewrite (length_to64 2); [done|apply Ha]).
    rewrite (proj2 (Hg _)). unfold signed. by rewrite (proj2 (Z.ltb_lt _ _)) by lia.
Qed.

(** C25. [psincos] of the packet types of SSE, AVX, AVX512 and NEON, and [_psin] of
    those with [double], compute in every lane and whatever extensions are enabled
    the scalar function [sincos], in the arithmetic of the lane's format: the
    comparison mask selects the polynomial of the octant, the bits shifted to the
    top of the lane are the signs of the results, and the conversions between
    [double] and 64-bit integers (which SSE and AVX do not have: a large number is
    added and subtracted, with the rounding mode set to down, or after [floor]) are
    exact. *)
Theorem psincos_lanes :
  (trig_lanes packet4f 4 (2 ^ 31 - 2) ∧ trig_lanes (packet8f fx) 8 (2 ^ 31 - 2) ∧
   trig_lanes packet16f 16 (2 ^ 31 - 2) ∧ trig_lanes packet4f_neon 4 (2 ^ 31 - 2)) ∧
  (trig_lanes (packet2d fx) 2 (2 ^ 51 - 1) ∧ sine_lanes (packet2d fx) 2 (2 ^ 51 - 1)) ∧
  (trig_lanes (packet4d fx) 4 (2 ^ 51 - 1) ∧ sine_lanes (packet4d fx) 4 (2 ^ 51 - 1)) ∧
  (trig_lanes packet8d 8 (2 ^ 51 - 1) ∧ sine_lanes packet8d 8 (2 ^ 51 - 1)) ∧
  (trig_lanes packet2d_neon 2 (2 ^ 51 - 1) ∧ sine_lanes packet2d_neon 2 (2 ^ 51 - 1)).
Proof.
  split_and!; apply lanes_of_laws; try (by left); try (by right);
    first [apply packet4f_laws|apply packet8f_laws|apply packet16f_laws|apply packet4f_neon_laws
      |apply packet2d_laws|apply packet4d_laws|apply packet8d_laws|apply packet2d_neon_laws].
Qed.

End Isas.

(** ** Witnesses *)

(** The number 3.0 in the first lane of a [Packet2d]: the octant is 4. *)
Lemma psincos_lanes_witness :
  let P := packet2d (H := instructions) (H0 := trig_instructions) (mk_features true true true true) in
  let x := [0; 1074266112; 0; 0] in
  t_val (_psin x) 0 = (sincos_at (H := format_num binary64) (literal binary64) SFabs sf_sign (t_val x 0) 4).1.
Proof.
  intros P x. destruct (psincos_lanes (H := instructions) (H0 := instructions_laws) (H1 := trig_instructions)
    (H2 := trig_instructions_laws) (mk_features true true true true)
    (H3 := compare_instructions) (H4 := compare_instructions_laws)) as (_ & [_ Hlanes] & _).
  apply (Hlanes x 0%nat 4).
  - split; [reflexivity|]. repeat constructor; unfold word; lia.
  - lia.
  - vm_compute. reflexivity.
  - reflexivity.
Defined.

Definition two_packets : list (list Z * list bool) :=
  [(four 1 2 3 4, [true; true; false; false]); (four 5 6 7 8, replicate 4 true)].

Lemma filter_streams_witness :
  ∃ outs q r, feed (NEONFilter.compress_append NEONFilter.create) two_packets (replicate 4 0) 0 =
      Ret (outs, q, Z.of_nat r) ∧ (r < 4)%nat ∧
    Forall (λ p, length p = 4%nat) outs ∧ concat outs ++ take r q ≡ₚ [1; 2; 5; 6; 7; 8].
Proof.
  assert (all_selected two_packets = [1; 2; 5; 6; 7; 8]) as <- by (vm_compute; reflexivity).
  destruct (filter_streams (H := instructions) (H0 := instructions_laws) (mk_features true true true true)) as (_ & _ & _ & Hneon).
  apply (Hneon two_packets).
  repeat constructor; unfold word; lia.
Defined.
