(* ===== verification/PLog.v ===== *)
(** The logarithm of packets, [plog], for packets of [double] of SSE and AVX and for
    packets of [float] of NEON, which the library defines where Eigen 3.3 does not;
    and NEON's [psin] of floats.  The same functions on one number are [log_at] and
    [sin_at]. *)

From S2P Require Import Prelude.
From S2P Require Import Simd.
From S2P Require Import PacketMath.
From S2P Require Import FloatBits.
From Stdlib Require Import SpecFloat.
From S2P Require Import Num.
From S2P Require Import FloatBitsProps.
From S2P Require Import FloatNum.
From S2P Require Import SinCos.
From S2P Require Import Neon.
From S2P Require Import Isas.

(** The literal [n / 10 ^ k] of the type of a format. *)
Definition decimal_in (f : format) (n k : Z) : spec_float :=
  match n with
  | Z0 => S754_zero false
  | Z.pos p => SFdiv (prec f) (emax f) (S754_finite false p 0) (S754_finite false (Z.to_pos (10 ^ k)) 0)
  | Z.neg p => SFdiv (prec f) (emax f) (S754_finite true p 0) (S754_finite false (Z.to_pos (10 ^ k)) 0)
  end.

(** ** The functions on one number *)

Section Scalar.
Context {F : Type} `{Num F} (lit : Z → Z → F) (madd : F → F → F → F).
#[local] Open Scope num_scope.

(** The logarithm of [x * 2 ^ e], for [x] from one half to one. *)
Definition log_at (x e : F) : F :=
  let mask := fltb x (lit 707106781186547524 18) in
  let tmp := if mask then x else of_Z 0 in
  let x := x - lit 1 0 in
  let e := e - (if mask then lit 1 0 else of_Z 0) in
  let x := x + tmp in
  let x2 := x * x in
  let x3 := x2 * x in
  let y := madd (lit 70376836292 12) x (lit (-11514610310) 11) in
  let y1 := madd (lit (-12420140846) 11) x (lit 14249322787 11) in
  let y2 := madd (lit 20000714765 11) x (lit (-24999993993) 11) in
  let y := madd y x (lit 11676998740 11) in
  let y1 := madd y1 x (lit (-16668057665) 11) in
  let y2 := madd y2 x (lit 33333331174 11) in
  let y := madd y x3 y1 in
  let y := madd y x3 y2 in
  let y := y * x3 in
  let y1 := e * lit (-21219444) 11 in
  let tmp := x2 * lit 5 1 in
  let y := y + y1 in
  let x := x - tmp in
  let y2 := e * lit 693359375 9 in
  let x := x + y in
  x + y2.

(** The sine of [x], with the octant [j]. *)
Definition sin_at (fabs : F → F) (signbit : F → bool) (x : F) (j : Z) : F :=
  let r := reduced lit fabs x j in
  let z := r * r in
  let y := lit 2443315711809948 20 in
  let y := madd y z (lit (-1388731625493765) 18) in
  let y := madd y z (lit 4166664568298827 17) in
  let y := y * z in
  let y := y * z in
  let tmp := z * lit 5 1 in
  let y := y - tmp in
  let y := y + lit 1 0 in
  let y2 := lit (-19515295891) 14 in
  let y2 := madd y2 z (lit 83321608736 13) in
  let y2 := madd y2 z (lit (-16666654611) 11) in
  let y2 := y2 * z in
  let y2 := y2 * r in
  let y2 := y2 + r in
  flip (xorb (signbit x) (Z.testbit j 2)) (if (Z.land j 2 =? 0)%Z then y2 else y).

End Scalar.

(** ** Packets *)

(** The operations of [plog] and of NEON's [psin] beside those of [psincos]. *)
Class LogPacket (f : format) `{TrigPacket f} := {
  l_set1 : spec_float → list Z;                       (* of a literal of the type *)
  l_or : list Z → list Z → list Z;
  l_max : list Z → list Z → list Z;
  l_madd : list Z → list Z → list Z → list Z;
  l_lt : list Z → list Z → list Z;                    (* masks of comparisons *)
  l_eq_zero : list Z → list Z;
  l_not_ge_zero : list Z → list Z;
  l_blendv : list Z → list Z → list Z → list Z;
  l_exponent : list Z → list Z;                       (* the number [e] with [2 ^ (e - 1) <= x < 2 ^ e] *)
}.

Section Packets.
Context {f : format} `{LogPacket f}.

#[local] Abbreviation set1 n k := (l_set1 (decimal_in f n k)).

(** From the comparison with the root of one half on. *)
Definition log_tail (x e : list Z) : list Z :=
  let mask := l_lt x (set1 707106781186547524 18) in
  let tmp := t_and x mask in
  let x := t_sub x (set1 1 0) in
  let e := t_sub e (t_and (set1 1 0) mask) in
  let x := t_add x tmp in
  let x2 := t_mul x x in
  let x3 := t_mul x2 x in
  let y := l_madd (set1 70376836292 12) x (set1 (-11514610310) 11) in
  let y1 := l_madd (set1 (-12420140846) 11) x (set1 14249322787 11) in
  let y2 := l_madd (set1 20000714765 11) x (set1 (-24999993993) 11) in
  let y := l_madd y x (set1 11676998740 11) in
  let y1 := l_madd y1 x (set1 (-16668057665) 11) in
  let y2 := l_madd y2 x (set1 33333331174 11) in
  let y := l_madd y x3 y1 in
  let y := l_madd y x3 y2 in
  let y := t_mul y x3 in
  let y1 := t_mul e (set1 (-21219444) 11) in
  let tmp := t_mul x2 (set1 5 1) in
  let y := t_add y y1 in
  let x := t_sub x tmp in
  let y2 := t_mul e (set1 693359375 9) in
  let x := t_add x y in
  t_add x y2.

Definition plog (_x : list Z) : list Z :=
  let x := _x in
  let exponent_mask := (2 ^ expo f - 1) * 2 ^ mant f in
  let inv_mant_mask := t_set1_int (Z.lnot exponent_mask) in
  let min_norm_pos := t_set1_int (2 ^ mant f) in
  let minus_inf := t_set1_int (2 ^ (width f - 1) + exponent_mask) in
  let invalid_mask := l_not_ge_zero x in
  let iszero_mask := l_eq_zero x in
  let x := l_max x min_norm_pos in
  let e := l_exponent x in
  let x := t_and x inv_mant_mask in
  let x := l_or x (set1 5 1) in
  let x := log_tail x e in
  l_blendv iszero_mask minus_inf (l_or x invalid_mask).

(** [psin] for NEON. *)
Definition psin (_x : list Z) : list Z :=
  let x := _x in
  let sign_bit := x in
  let x := t_abs x in
  let sign_bit := t_and sign_bit (t_set1_int (2 ^ (width f - 1))) in
  let y := t_mul x (set1 127323954473516 14) in
  let emm2 := t_cast y in
  let emm2 := t_add_int emm2 (t_set1_int 1) in
  let emm2 := t_and emm2 (t_set1_int (-2)) in
  let y := t_cast_int emm2 in
  let emm0 := t_and emm2 (t_set1_int 4) in
  let emm0 := t_sll (width f - 3) emm0 in
  let emm2 := t_and emm2 (t_set1_int 2) in
  let emm2 := t_cmpeq_int emm2 (t_set1_int 0) in
  let swap_sign_bit := emm0 in
  let poly_mask := emm2 in
  let sign_bit := t_xor sign_bit swap_sign_bit in
  let xmm1 := t_mul y (set1 (-78515625) 8) in
  let xmm2 := t_mul y (set1 (-24187564849853515625) 23) in
  let xmm3 := t_mul y (set1 (-377489497744594108) 25) in
  let x := t_add x xmm1 in
  let x := t_add x xmm2 in
  let x := t_add x xmm3 in
  let y := set1 2443315711809948 20 in
  let z := t_mul x x in
  let y := l_madd y z (set1 (-1388731625493765) 18) in
  let y := l_madd y z (set1 4166664568298827 17) in
  let y := t_mul y z in
  let y := t_mul y z in
  let tmp := t_mul z (set1 5 1) in
  let y := t_sub y tmp in
  let y := t_add y (set1 1 0) in
  let y2 := set1 (-19515295891) 14 in
  let y2 := l_madd y2 z (set1 83321608736 13) in
  let y2 := l_madd y2 z (set1 (-16666654611) 11) in
  let y2 := t_mul y2 z in
  let y2 := t_mul y2 x in
  let y2 := t_add y2 x in
  let y := l_blendv poly_mask y2 y in
  t_xor y sign_bit.

End Packets.

(** ** The packet types *)

(** Comparisons of numbers, as masks: the instructions [_mm_cmpeq_pd], ... and
    [vceqq_f32], ...; a comparison with NaN is false, so [_mm_cmpnge_pd] is true of it. *)
Definition cmp_ps (p : spec_float → spec_float → bool) : list Z → list Z → list Z :=
  zip_with (λ a b, mask 32 (p (of_bits binary32 a) (of_bits binary32 b))).
Definition cmp_pd (p : spec_float → spec_float → bool) : list Z → list Z → list Z :=
  lanewise64 (λ a b, mask 64 (p (of_bits binary64 a) (of_bits binary64 b))).
Definition not_ge (a b : spec_float) : bool := negb (SFleb b a).
Definition setzero_pd (k : nat) : list Z := of64 (replicate k 0).

(** [vcvtq_f32_s32] rounds to nearest. *)
Definition vcvtq_f32_s32 : list Z → list Z :=
  fmap (λ w, to_bits binary32 (binary_normalize 24 128 (signed 32 w) 0 false)).

(** The operations of NEON on numbers. *)
Module NEONFloat.

Definition pcmpeq (a b : list Z) : list Z := cmp_ps SFeqb a b.
Definition pbitnot (a : list Z) : list Z := NEON.pbitnot a.
Definition pcmplt (a b : list Z) : list Z := cmp_ps SFltb a b.
Definition pcmple (a b : list Z) : list Z := cmp_ps SFleb a b.

End NEONFloat.

(** Eigen's operations on packets of numbers, beside those of [EigenTrig]; a literal
    of type [float] is a number of that format. *)
Class EigenLog := {
  e_max_pd : list Z → list Z → list Z;
  e_madd_pd : list Z → list Z → list Z → list Z;
  e_set1_float : nat → spec_float → list Z;
  e_max_ps : list Z → list Z → list Z;
  e_madd_ps : list Z → list Z → list Z → list Z;
}.

Section Types.
Context `{EigenPackets} `{EigenTrig} `{EigenLog} (fx : features).

Definition log_1022 : spec_float := of_Z (Num := format_num binary64) 1022.

Definition packet2d_log : LogPacket (H := packet2d fx) binary64 := {|
  l_set1 := e_set1_pd 2;
  l_or := or_si;
  l_max := e_max_pd;
  l_madd := e_madd_pd;
  l_lt a b := cmp_pd SFltb a b;
  l_eq_zero x := cmp_pd SFeqb x (setzero_pd 2);
  l_not_ge_zero x := cmp_pd not_ge x (setzero_pd 2);
  l_blendv := SSE.pblendv_pd fx;
  l_exponent x :=
    let emm0 := srli_epi64 52 x in
    sub_pd (SSEDouble.uint64_to_double emm0) (e_set1_pd 2 log_1022);
|}.

Definition packet4d_log : LogPacket (H := packet4d fx) binary64 := {|
  l_set1 := e_set1_pd 4;
  l_or := or_si;
  l_max := e_max_pd;
  l_madd := e_madd_pd;
  l_lt a b := cmp_pd SFltb a b;
  l_eq_zero x := cmp_pd SFeqb x (setzero_pd 4);
  l_not_ge_zero x := cmp_pd not_ge x (setzero_pd 4);
  l_blendv := AVX.pblendv_pd;
  l_exponent x :=
    let emm0 := AVXDouble.uint64_to_double (AVX.psrl64 fx 52 x) in
    e_sub_pd emm0 (e_set1_pd 4 log_1022);
|}.

Definition packet4f_log : LogPacket (H := packet4f_neon) binary32 := {|
  l_set1 := e_set1_float 4;
  l_or := por;
  l_max := e_max_ps;
  l_madd := e_madd_ps;
  l_lt := NEONFloat.pcmplt;
  l_eq_zero x := NEONFloat.pcmpeq x (e_set1_float 4 (S754_zero false));
  l_not_ge_zero x := NEONFloat.pbitnot (NEONFloat.pcmple (e_set1_float 4 (S754_zero false)) x);
  l_blendv := NEON.pblendv;
  l_exponent x :=
    let emm0 := NEON.psrl 23 x 23 in
    let emm0 := psub emm0 (pset1 4 127) in
    e_add_ps (vcvtq_f32_s32 emm0) (e_set1_float 4 (decimal_in binary32 1 0));
|}.

(** The functions of the three files, and NEON's [psin]. *)
Definition plog_2d (x : list Z) : list Z := plog (H0 := packet2d_log) x.
Definition plog_4d (x : list Z) : list Z := plog (H0 := packet4d_log) x.
Definition plog_4f (x : list Z) : list Z := plog (H0 := packet4f_log) x.
Definition psin_4f (x : list Z) : list Z := psin (H0 := packet4f_log) x.

End Types.
