(* ===== verification/PLogR.v ===== *)
(** [log_at] over the real numbers, and how far it is from the logarithm; and the
    sine of [sin_at] is that of [sincos]. *)

From S2P Require Import Prelude.
From Stdlib Require Import SpecFloat.
From S2P Require Import Num.
From S2P Require Import NumR.
From S2P Require Import SinCos.
From S2P Require Import PolyBound.
From S2P Require Import SinCosR.
From S2P Require Import PLog.
From Stdlib Require Import Reals Lra.

#[local] Open Scope R_scope.

(** ** The Taylor series of the logarithm *)

Fixpoint ln_taylor (n : nat) (x : R) : R :=
  match n with
  | O => 0
  | S k => ln_taylor k x + (- 1) ^ k * x ^ S k / INR (S k)
  end.

Fixpoint geometric (n : nat) (x : R) : R :=
  match n with
  | O => 0
  | S k => geometric k x + (- x) ^ k
  end.

Lemma ln_taylor_deriv n x : derivable_pt_lim (ln_taylor n) x (geometric n x).
Proof.
  induction n as [|n IH]; [apply derivable_pt_lim_const|]. cbn [ln_taylor geometric].
  apply (derivable_pt_lim_plus (ln_taylor n) (λ x, (- 1) ^ n * x ^ S n / INR (S n))); [exact IH|].
  replace ((- x) ^ n) with ((- 1) ^ n / INR (S n) * (INR (S n) * x ^ n)).
  - apply (derivable_pt_lim_ext (λ x, (- 1) ^ n / INR (S n) * x ^ S n)); [intros y; field; apply not_0_INR; lia|].
    apply (derivable_pt_lim_scal (λ x, x ^ S n)). apply (derivable_pt_lim_pow x (S n)).
  - replace (- x) with (- 1 * x) by ring. rewrite Rpow_mult_distr. field. apply not_0_INR. lia.
Qed.

Lemma geometric_sum n x : geometric n x * (1 + x) = 1 - (- x) ^ n.
Proof. induction n as [|n IH]; cbn [geometric pow]; [ring|]. rewrite Rmult_plus_distr_r, IH. ring. Qed.

Lemma ln_taylor_0 n : ln_taylor n 0 = 0.
Proof. induction n as [|n IH]; [done|]. cbn [ln_taylor]. rewrite IH, pow_ne_zero by done. unfold Rdiv. ring. Qed.

Lemma ln_deriv c : 0 < 1 + c → derivable_pt_lim (λ x, ln (1 + x)) c (/ (1 + c)).
Proof.
  intros Hc. assert (derivable_pt_lim (λ x, 1 + x) c (0 + 1)) as Hd.
  { apply (derivable_pt_lim_plus (λ _, 1) id); [apply derivable_pt_lim_const|apply derivable_pt_lim_id]. }
  rewrite Rplus_0_l in Hd. rewrite <-(Rmult_1_r (/ (1 + c))).
  by apply (derivable_pt_lim_comp (λ x, 1 + x) ln); [|apply derivable_pt_lim_ln].
Qed.

(** The remainder, from the mean value theorem. *)
Lemma ln_taylor_near n x : - 3 / 10 <= x <= 1 / 2 → Rabs (ln_taylor n x - ln (1 + x)) <= 2 * Rabs x ^ S n.
Proof.
  intros Hx. set (g := λ x, ln_taylor n x - ln (1 + x)). set (g' := λ c, geometric n c - / (1 + c)).
  assert (∀ c, - 3 / 10 <= c → derivable_pt_lim g c (g' c)) as Hg.
  { intros c Hc. apply (derivable_pt_lim_minus (ln_taylor n) (λ x, ln (1 + x))); [apply ln_taylor_deriv|apply ln_deriv; lra]. }
  assert (g 0 = 0) as Hg0 by (unfold g; rewrite ln_taylor_0, Rplus_0_r, ln_1; ring).
  assert (∀ c, - 3 / 10 <= c → Rabs c <= Rabs x → Rabs (g' c) <= 2 * Rabs x ^ n) as Hbound.
  { intros c Hc Hcx. unfold g'. pose proof (geometric_sum n c) as Hs.
    replace (geometric n c - / (1 + c)) with (- ((- c) ^ n) * / (1 + c)) by (apply (Rmult_eq_reg_r (1 + c)); [field_simplify; lra|lra]).
    rewrite Rabs_mult, Rabs_Ropp, <-RPow_abs, Rabs_Ropp.
    assert (0 < / (1 + c) <= 2) as Hi.
    { split; [apply Rinv_0_lt_compat; lra|]. apply (Rmult_le_reg_r (1 + c)); [lra|]. rewrite Rinv_l; lra. }
    rewrite (Rabs_pos_eq (/ (1 + c))) by lra.
    pose proof (pow_le (Rabs c) n (Rabs_pos c)). pose proof (pow_incr (Rabs c) (Rabs x) n (conj (Rabs_pos c) Hcx)). nra. }
  assert (∃ c, g x = g' c * x ∧ - 3 / 10 <= c ∧ Rabs c <= Rabs x) as (c & Heq & Hc & Hcx).
  { destruct (Rtotal_order x 0) as [Hlt|[->|Hgt]].
    - destruct (MVT_cor2 g g' x 0 Hlt) as (c & Heq & Hc); [intros c Hc; apply Hg; lra|].
      exists c. rewrite Hg0 in Heq. split; [lra|]. rewrite !Rabs_left by lra. lra.
    - exists 0. rewrite Hg0, Rabs_R0. lra.
    - destruct (MVT_cor2 g g' 0 x Hgt) as (c & Heq & Hc); [intros c Hc; apply Hg; lra|].
      exists c. rewrite Hg0 in Heq. split; [lra|]. rewrite !Rabs_pos_eq by lra. lra. }
  fold (g x). rewrite Heq, Rabs_mult. cbn [pow]. pose proof (Hbound c Hc Hcx). pose proof (Rabs_pos x). nra.
Qed.

Lemma ln_2_near : Rabs (ln 2 - 693147180559945 / 10 ^ 15) <= 1 / 10 ^ 14.
Proof.
  pose proof (ln_taylor_near 30 (1 / 3) ltac:(lra)) as H3. pose proof (ln_taylor_near 30 (1 / 8) ltac:(lra)) as H8.
  rewrite (Rabs_pos_eq (1 / 3)) in H3 by lra. rewrite (Rabs_pos_eq (1 / 8)) in H8 by lra.
  assert (ln 2 = 2 * ln (1 + 1 / 3) + ln (1 + 1 / 8)) as ->.
  { replace 2 with ((1 + 1 / 3) * (1 + 1 / 3) * (1 + 1 / 8)) at 1 by field.
    rewrite !ln_mult by lra. ring. }
  apply Rabs_le. revert H3 H8. unfold ln_taylor. rewrite !INR_IZR_INZ. numerals. unfold Rabs. repeat destruct (Rcase_abs _); intros; lra.
Qed.

(** ** The polynomial *)

(** The coefficients of the code, in units of 10^-12, and the differences to
    Taylor's polynomial, multiplied to have integer coefficients. *)
Definition log_coefficients : list Z :=
  [0; 10 ^ 12; - (5 * 10 ^ 11); 333333311740; -249999939930; 200007147650; -166680576650; 142493227870; -124201408460;
   116769987400; -115146103100; 70376836292]%Z.
Definition log_scale : Z := 2329089562800.   (* the least common multiple of 1 .. 30 *)
Definition log_err : list Z := Eval cbv in
  (λ i, log_scale * nth i log_coefficients 0
    - (if (i =? 0)%nat then 0 else (-1) ^ (Z.of_nat i + 1) * (10 ^ 12 * log_scale / Z.of_nat i)))%Z <$> seq 0 31.

(** The real function: [fused] does not matter. *)
Definition R_madd (a b c : R) : R := a * b + c.

Definition log_poly (x : R) : R :=
  x - x ^ 2 / 2 + x ^ 3 * reval [333333311740; -249999939930; 200007147650; -166680576650; 142493227870; -124201408460;
   116769987400; -115146103100; 70376836292]%Z x / 10 ^ 12.

Lemma log_err_ok x : reval log_err x = IZR (10 ^ 12 * log_scale) * (log_poly x - ln_taylor 30 x).
Proof.
  unfold log_err, log_poly, log_scale, ln_taylor. cbn [reval]. rewrite !INR_IZR_INZ. numerals. cbn [pow]. field.
Qed.

Lemma log_poly_near x : - 293 / 1000 <= x <= 4143 / 10000 → Rabs (log_poly x - ln (1 + x)) <= 123 / 10 ^ 11.
Proof.
  intros Hx. pose proof (ln_taylor_near 30 x ltac:(lra)) as Ht.
  assert (Rabs (log_poly x - ln_taylor 30 x) <= 122 / 10 ^ 11) as Hp.
  { destruct (Rle_lt_dec 0 x).
    - apply (scaled_bound log_err (10 ^ 12 * log_scale) (1220 * log_scale) 4143 x);
        [done|done|by vm_compute|apply log_err_ok|lra|unfold log_scale; numerals; lra].
    - apply (scaled_bound (alternate log_err) (10 ^ 12 * log_scale) (1220 * log_scale) 2930 (- x));
        [done|done|by vm_compute|rewrite reval_alternate, Ropp_involutive; apply log_err_ok|lra|unfold log_scale; numerals; lra]. }
  assert (Rabs x ^ 31 <= (4143 / 10000) ^ 31) as Hr.
  { apply pow_incr. split; [apply Rabs_pos|]. apply Rabs_le. lra. }
  revert Hp Ht Hr. generalize (Rabs x ^ 31). unfold Rabs. repeat destruct (Rcase_abs _); intros; lra.
Qed.

(** ** The accuracy *)

Definition ln2_parts : R := R_lit (-21219444) 11 + R_lit 693359375 9.

Lemma ln2_parts_near : Rabs (ln2_parts - ln 2) <= 1 / 10 ^ 13.
Proof.
  pose proof ln_2_near as Hl. unfold ln2_parts, R_lit. numerals. revert Hl.
  unfold Rabs. repeat destruct (Rcase_abs _); intros; lra.
Qed.

(** What is left when the comparison has been made. *)
Lemma log_at_real m e :
  log_at R_lit R_madd m e =
    let below := fltb m (R_lit 707106781186547524 18) in
    log_poly (if below then 2 * m - 1 else m - 1) + (e - if below then 1 else 0) * ln2_parts.
Proof.
  unfold log_at, log_poly, ln2_parts, R_lit, R_madd. cbv zeta. destruct (fltb m _); cbn -[IZR Z.pow pow]; numerals; cbn [reval pow]; field.
Qed.

(** C28. Over the real numbers [log_at], the function that [plog] computes in every
    lane, is within 1.4e-9 of the logarithm: of the number with the fraction [m]
    and the exponent [e], for every exponent of a number of type [double].  The
    comparison with the root of one half brings the fraction close to one, the
    polynomial approximates the logarithm there, and two constants add up to that
    of two. *)
Theorem log_accurate m e : 1 / 2 <= m < 1 → (-1100 <= e <= 1100)%Z →
  Rabs (log_at R_lit R_madd m (IZR e) - ln (m * powerRZ 2 e)) <= 14 / 10 ^ 10.
Proof.
  intros Hm He. rewrite log_at_real. cbv zeta. set (below := fltb _ _).
  apply proj1 in He as Hlo. apply proj2 in He as Hup. apply IZR_le in Hlo, Hup.
  set (x := if below then 2 * m - 1 else m - 1). set (d := if below then 1 else 0).
  assert (0 < powerRZ 2 e) as Hp by (apply powerRZ_lt; lra).
  assert (ln (m * powerRZ 2 e) = ln (1 + x) + (IZR e - d) * ln 2) as ->.
  { rewrite ln_mult by lra. rewrite powerRZ_Rpower by lra. unfold Rpower. rewrite ln_exp.
    unfold x, d. destruct below; [replace (1 + (2 * m - 1)) with (2 * m) by ring; rewrite ln_mult by lra; ring|].
    replace (1 + (m - 1)) with m by ring. ring. }
  assert (- 293 / 1000 <= x <= 4143 / 10000 ∧ - 1 <= d <= 1) as [Hx Hd].
  { unfold x, d, below. destruct (fltb m _) eqn:E; unfold R_lit in E; revert E; numerals; intros E;
      [apply R_fltb_true in E|apply R_fltb_false in E]; lra. }
  pose proof (log_poly_near x Hx) as Hpoly. pose proof ln2_parts_near as Hl2.
  assert (Rabs ((IZR e - d) * (ln2_parts - ln 2)) <= 1200 / 10 ^ 13) as Hlin.
  { rewrite Rabs_mult. assert (Rabs (IZR e - d) <= 1200) by (apply Rabs_le; lra).
    pose proof (Rabs_pos (ln2_parts - ln 2)). pose proof (Rabs_pos (IZR e - d)). nra. }
  replace (_ - _) with ((log_poly x - ln (1 + x)) + (IZR e - d) * (ln2_parts - ln 2)) by ring.
  pose proof (Rabs_triang (log_poly x - ln (1 + x)) ((IZR e - d) * (ln2_parts - ln 2))). lra.
Qed.

(** The number 10, as 0.625 * 2^4. *)
Lemma log_accurate_witness : Rabs (log_at R_lit R_madd (5 / 8) (IZR 4) - ln (5 / 8 * powerRZ 2 4)) <= 14 / 10 ^ 10.
Proof. apply (log_accurate (5 / 8) 4); [lra|lia]. Defined.

(** NEON's sine is that of [sincos]: over the reals, up to the rounding that fused
    operations save. *)
Lemma sin_at_real x j : sin_at R_lit R_madd Rabs R_signbit x j = (sincos_at R_lit Rabs R_signbit x j).1.
Proof.
  unfold sin_at, sincos_at. cbn [fst]. set (r := reduced _ _ _ _). unfold cos_poly, sin_poly, flip, R_madd.
  destruct (xorb _ _), (_ =? 0)%Z; cbn -[IZR R_lit]; ring.
Qed.

(** [psin] of floats for NEON, over the reals, has the accuracy of [psincos]. *)
Theorem sin_at_accurate x : Rabs x <= 2 ^ 20 →
  ∃ j, octant R_lit Rabs x = Some j ∧ Rabs (sin_at R_lit R_madd Rabs R_signbit x j - sin x) <= 3 / 10 ^ 9.
Proof.
  intros Hx. destruct (sincos_near x Hx) as (j & Hj & Hs & _). exists j. by rewrite sin_at_real.
Qed.
