(* ===== verification/PLogLanes.v ===== *)
(** [plog] and NEON's [psin] on the bits of packets compute [log_at] and [sin_at] in
    every lane: the exponent and the fraction are cut out of the word, and masks
    put in the results for zero, negative numbers and NaN.  The packets of [double]
    of SSE and AVX and of [float] of NEON have the lanes that this relies on. *)

From S2P Require Import Prelude.
From S2P Require Import Simd.
From S2P Require Import PacketMath.
From S2P Require Import PacketMathProps.
From S2P Require Import FloatBits.
From Stdlib Require Import SpecFloat.
From S2P Require Import Num.
From S2P Require Import FloatBitsProps.
From S2P Require Import FloatNum.
From S2P Require Import SinCos.
From S2P Require Import SinCosLanes.
From S2P Require Import SinCosPackets.
From S2P Require Import Neon.
From S2P Require Import Isas.
From S2P Require Import PLog.

(** ** Fractions and exponents *)

Section Parts.
Context (f : format).

Definition least_normal : spec_float := S754_finite false (Z.to_pos (2 ^ mant f)) (emin (prec f) (emax f)).

(** A normal number, or infinity, is [fraction * 2 ^ exponent]. *)
Definition fraction (v : spec_float) : spec_float :=
  match v with
  | S754_finite s m _ => S754_finite s m (- prec f)
  | _ => S754_finite false (Z.to_pos (2 ^ mant f)) (- prec f)
  end.
Definition exponent (v : spec_float) : Z :=
  match v with
  | S754_finite _ _ e => e + prec f
  | _ => emax f + 1
  end.

(** Numbers below the least normal one are replaced by it. *)
Definition normalized (v : spec_float) : spec_float := if SFltb v least_normal then least_normal else v.

(** The function on one number, with its special cases. *)
Definition sf_log (madd : spec_float → spec_float → spec_float → spec_float) (u : spec_float) : spec_float :=
  if SFeqb u (S754_zero false) then S754_infinity true
  else if negb (SFleb (S754_zero false) u) then S754_nan
  else
    log_at (H := format_num f) (decimal_in f) madd (fraction (normalized u)) (of_Z (Num := format_num f) (exponent (normalized u))).

End Parts.

(** ** Laws *)

Section Laws.
Context {f : format} `{LogPacket f}.

Record LogPacketLaws (n : nat) (bound : Z) (madd : spec_float → spec_float → spec_float → spec_float) : Prop := {
  l_trig_laws : TrigPacketLaws n bound;
  l_set1_law x : canonical f x → register t_size (l_set1 x) ∧ ∀ i, (i < n)%nat → t_val (l_set1 x) i = x;
  l_or_law : lanes_int Z.lor l_or n;
  l_max_law a b : register t_size a → register t_size b →
    register t_size (l_max a b) ∧
    ∀ i, (i < n)%nat → t_val a i ≠ S754_nan → SFltb (S754_zero false) (t_val b i) = true →
      t_val (l_max a b) i = (if SFltb (t_val a i) (t_val b i) then t_val b i else t_val a i);
  l_madd_law a b c : register t_size a → register t_size b → register t_size c →
    register t_size (l_madd a b c) ∧ ∀ i, (i < n)%nat → t_val (l_madd a b c) i = madd (t_val a i) (t_val b i) (t_val c i);
  l_lt_law a b : register t_size a → register t_size b →
    register t_size (l_lt a b) ∧ ∀ i, (i < n)%nat → t_word (l_lt a b) i = mask (width f) (SFltb (t_val a i) (t_val b i));
  l_eq_zero_law a : register t_size a →
    register t_size (l_eq_zero a) ∧ ∀ i, (i < n)%nat → t_word (l_eq_zero a) i = mask (width f) (SFeqb (t_val a i) (S754_zero false));
  l_not_ge_zero_law a : register t_size a →
    register t_size (l_not_ge_zero a) ∧
    ∀ i, (i < n)%nat → t_word (l_not_ge_zero a) i = mask (width f) (negb (SFleb (S754_zero false) (t_val a i)));
  l_blendv_law m a b : register t_size m → register t_size a → register t_size b →
    register t_size (l_blendv m a b) ∧
    ∀ i p, (i < n)%nat → t_word m i = mask (width f) p → t_word (l_blendv m a b) i = (if p : bool then t_word a i else t_word b i);
  l_exponent_law a : register t_size a →
    register t_size (l_exponent a) ∧
    ∀ i e, (i < n)%nat → 1 <= e < 2 ^ expo f → t_word a i / 2 ^ mant f = e →
      t_val (l_exponent a) i = of_Z (Num := format_num f) (e - (bias f - 1));
}.

End Laws.

(** ** Words of positive numbers *)

Section Words.
Context (f : format) (Hf : ieee f).

Definition exponent_mask : Z := (2 ^ expo f - 1) * 2 ^ mant f.

(** A word that holds a number that is normal and positive, or infinity. *)
Lemma normal_word w v : word (width f) w → of_bits f w = v → v ≠ S754_nan → SFltb v (least_normal f) = false →
  SFltb (S754_zero false) v = true →
  ∃ e m, w = e * 2 ^ mant f + m ∧ 1 <= e < 2 ^ expo f ∧ 0 <= m < 2 ^ mant f ∧
    e - (bias f - 1) = exponent f v ∧ fraction f v = S754_finite false (Z.to_pos (2 ^ mant f + m)) (- prec f).
Proof.
  ieee Hf. intros Hw Hv Hnan Hge Hpos. rewrite (of_bits_magnitude f Hf) in Hv.
  assert (Z.testbit w (mant f + expo f) = false) as Hsign.
  { destruct (Z.testbit w (mant f + expo f)); [|done]. exfalso. rewrite <-Hv in Hpos. revert Hpos. unfold magnitude.
    repeat case_match; done. }
  rewrite Hsign in Hv.
  assert (w < 2 ^ (mant f + expo f)) as Hlt.
  { destruct (Z.lt_ge_cases w (2 ^ (mant f + expo f))) as [|Hge']; [done|]. unfold word in Hw. rewrite Hwidth in Hw.
    assert (Z.testbit w (mant f + expo f) = true); [|congruence].
    rewrite (Z.pow_add_r 2 (mant f + expo f) 1) in Hw by lia. apply Z.testbit_true; [lia|].
    replace (w / 2 ^ (mant f + expo f)) with 1; [done|]. apply (Z.div_unique _ _ _ (w - 2 ^ (mant f + expo f))); lia. }
  unfold word in Hw. rewrite Z.mod_small in Hv by lia.
  assert (0 < 2 ^ mant f) as Hp by (apply Z.pow_pos_nonneg; lia).
  pose proof (Z.div_mod w (2 ^ mant f) ltac:(lia)) as Hdm. pose proof (Z.mod_pos_bound w (2 ^ mant f) Hp) as Hm.
  assert (0 <= w / 2 ^ mant f < 2 ^ expo f) as He.
  { split; [apply Z.div_pos; lia|]. apply Z.div_lt_upper_bound; [lia|]. rewrite <-Z.pow_add_r by lia. lia. }
  exists (w / 2 ^ mant f), (w mod 2 ^ mant f). unfold magnitude in Hv.
  set (e := w / 2 ^ mant f) in *. set (m := w mod 2 ^ mant f) in *.
  split; [lia|]. destruct (Z.eqb_spec e (2 ^ expo f - 1)) as [Heq|Hne].
  - destruct (Z.eqb_spec m 0) as [Hm0|]; [|congruence]. rewrite <-Hv. cbn [exponent fraction].
    split; [lia|]. split; [lia|]. split; [lia|]. do 2 f_equal. lia.
  - destruct (Z.eqb_spec e 0) as [He0|He0].
    + exfalso. destruct m as [|p|p] eqn:Em; [by rewrite <-Hv in Hpos| |lia]. rewrite <-Hv in Hge. revert Hge.
      unfold least_normal, SFltb, SFcompare. rewrite Hemin, Z.compare_refl. rewrite Pos.compare_antisym.
      assert (Pos.compare (Z.to_pos (2 ^ mant f)) p = Gt) as ->; [|done]. apply Pos.compare_gt_iff. lia.
    + destruct (m + 2 ^ mant f) as [|p|p] eqn:E; [lia| |lia]. rewrite <-Hv. cbn [exponent fraction].
      split; [lia|]. split; [lia|]. split; [lia|]. f_equal. lia.
Qed.

(** Its bits without the exponent, and with that of one half. *)
Lemma land_fraction e m : 1 <= e < 2 ^ expo f → 0 <= m < 2 ^ mant f →
  Z.land (e * 2 ^ mant f + m) ((Z.lnot exponent_mask) mod 2 ^ width f) = m.
Proof.
  ieee Hf. intros He Hm. rewrite Z.add_comm, <-lor_shiftl by lia. apply Z.bits_inj'. intros k Hk.
  assert (word (mant f) m) as Hwm by done. apply word_bits in Hwm as [_ Hbm]; [|lia].
  assert (word (expo f) e) as Hwe by (unfold word; lia). apply word_bits in Hwe as [_ Hbe]; [|lia].
  rewrite Z.land_spec, Z.lor_spec, Z.shiftl_spec by done.
  destruct (Z.lt_ge_cases k (mant f)) as [Hlt|Hge].
  - rewrite (testbit_word f) by lia. rewrite Z.lnot_spec by done. unfold exponent_mask.
    rewrite <-Z.shiftl_mul_pow2, Z.shiftl_spec, !(Z.testbit_neg_r _ (k - mant f)) by lia. cbn [negb]. by rewrite orb_false_r, andb_true_r.
  - rewrite (Hbm k) by lia. cbn [orb]. destruct (Z.lt_ge_cases k (mant f + expo f)) as [Hin|Hout].
    + rewrite (testbit_word f) by lia. rewrite Z.lnot_spec by done. unfold exponent_mask.
      rewrite <-Z.shiftl_mul_pow2, Z.shiftl_spec by lia. replace (2 ^ expo f - 1) with (Z.ones (expo f)) by (rewrite Z.ones_equiv; lia).
      rewrite Z.ones_spec_low by lia. apply andb_false_r.
    + rewrite (Hbe (k - mant f)) by lia. done.
Qed.

Lemma half_bits m : 0 <= m < 2 ^ mant f →
  Z.lor m ((bias f - 1) * 2 ^ mant f) = (bias f - 1) * 2 ^ mant f + m ∧
  of_bits f ((bias f - 1) * 2 ^ mant f + m) = S754_finite false (Z.to_pos (2 ^ mant f + m)) (- prec f).
Proof.
  ieee Hf. intros Hm. assert (0 < 2 ^ mant f) by (apply Z.pow_pos_nonneg; lia). split; [rewrite <-Z.shiftl_mul_pow2, lor_shiftl, Z.shiftl_mul_pow2 by lia; lia|].
  destruct (of_bits_word f Hf false (bias f - 1) m ltac:(lia) Hm) as [_ Hv]. cbn [Z.b2z] in Hv. rewrite Z.mul_0_l, Z.add_0_l in Hv.
  rewrite Hv. destruct (magnitude_fields f Hf false (bias f - 1) m ltac:(lia) Hm) as (_ & _ & ->).
  rewrite (proj2 (Z.eqb_neq _ _)), (proj2 (Z.eqb_neq _ _)) by lia.
  destruct (m + 2 ^ mant f) as [|p|p] eqn:E; [lia| |lia]. rewrite (Z.add_comm (2 ^ mant f)), E. cbn [Z.to_pos]. f_equal. lia.
Qed.

Lemma half_not_small : SFltb (S754_finite false (Z.to_pos (2 ^ mant f)) (- prec f)) (least_normal f) = false.
Proof. by destruct Hf as [->| ->]. Qed.

(** The word of one half. *)
Lemma half_word w : word (width f) w → of_bits f w = S754_finite false (Z.to_pos (2 ^ mant f)) (- prec f) → w = (bias f - 1) * 2 ^ mant f.
Proof.
  ieee Hf. intros Hw Hv. destruct (normal_word w _ Hw Hv) as (e & m & -> & He & Hm & Hex & Hfr); [done| |done|].
  - apply half_not_small.
  - cbn [exponent fraction] in Hex, Hfr. injection Hfr as Hfr. assert (0 < 2 ^ mant f) by (apply Z.pow_pos_nonneg; lia).
    apply (f_equal Z.pos) in Hfr. rewrite !Z2Pos.id in Hfr by lia. assert (e = bias f - 1) by lia. subst e. lia.
Qed.

(** Setting all bits. *)
Lemma lor_mask z : word (width f) z → Z.lor z (mask (width f) true) = mask (width f) true.
Proof.
  ieee Hf. intros Hz. cbn [mask]. replace (2 ^ width f - 1) with (Z.ones (width f)) by (rewrite Z.ones_equiv; lia).
  apply word_bits in Hz as [_ Hb]; [|lia]. apply Z.bits_inj'. intros k Hk. rewrite Z.lor_spec.
  destruct (Z.lt_ge_cases k (width f)); [rewrite Z.ones_spec_low by lia; apply orb_true_r|].
  by rewrite Z.ones_spec_high, Hb by lia.
Qed.

End Words.

(** ** One lane *)

Section Lane.
Context {f : format} (Hf : ieee f) `{LogPacket f} {n : nat} {bound : Z}.
Context {madd : spec_float → spec_float → spec_float → spec_float} (HL : LogPacketLaws n bound madd).
Context (i : nat) (Hi : (i < n)%nat).

#[local] Instance arithmetic : Num spec_float := format_num f.
#[local] Abbreviation lit := (decimal_in f).
#[local] Abbreviation HT := (l_trig_laws n bound madd HL).
#[local] Abbreviation num := (num i).
#[local] Abbreviation int := (int i).

Lemma num_literal a k : canonical f (lit a k) → num (l_set1 (lit a k)) (lit a k).
Proof. intros Hc. destruct (l_set1_law _ _ _ HL _ Hc) as [Hr Hv]. split; [done|by apply Hv]. Qed.

Lemma num_madd a b c u v w : num a u → num b v → num c w → num (l_madd a b c) (madd u v w).
Proof.
  intros [Ha <-] [Hb <-] [Hc <-]. destruct (l_madd_law _ _ _ HL a b c Ha Hb Hc) as [Hr Hv]. split; [done|by apply Hv].
Qed.

Lemma int_lt a b u v : num a u → num b v → int (l_lt a b) (mask (width f) (SFltb u v)).
Proof. intros [Ha <-] [Hb <-]. destruct (l_lt_law _ _ _ HL a b Ha Hb) as [Hr Hv]. split; [done|by apply Hv]. Qed.

Lemma num_mask_and a m u (p : bool) : num a u → int m (mask (width f) p) → num (t_and a m) (if p then u else S754_zero false).
Proof.
  intros Ha Hm. destruct (num_int HT i a u Ha) as (z & Hz & Hw & <-).
  pose proof (int_op i Hi _ _ _ _ _ _ (t_and_law _ _ HT) Hz Hm) as Hr. cbn beta in Hr.
  rewrite Z.land_comm, (land_mask_select f Hf) in Hr by done.
  apply int_num in Hr. destruct p; [done|]. by rewrite (of_bits_zero f Hf) in Hr.
Qed.

Lemma num_blendv m a b u v (p : bool) : int m (mask (width f) p) → num a u → num b v → num (l_blendv m a b) (if p then u else v).
Proof.
  intros [Hm Hmw] [Ha <-] [Hb <-]. destruct (l_blendv_law _ _ _ HL m a b Hm Ha Hb) as [Hr Hv]. split; [done|].
  unfold t_val. rewrite (Hv i p Hi Hmw). by destruct p.
Qed.

Ltac literal_ok := destruct Hf as [Hf' | Hf']; rewrite Hf'; vm_compute; (left + right); by split_and!.

Ltac log_step :=
  first [eassumption | apply (num_add HT i Hi) | apply (num_sub HT i Hi) | apply (num_mul HT i Hi) | apply num_madd | apply num_mask_and
    | apply num_literal; literal_ok].

Lemma log_tail_ok x e u v : num x u → num e v → num (log_tail x e) (log_at lit madd u v).
Proof.
  intros Hx He. unfold log_tail, log_at. set (s := lit 707106781186547524 18). set (one := lit 1 0).
  assert (num (l_set1 s) s) as Hs by (apply num_literal; literal_ok).
  assert (num (l_set1 one) one) as Hone by (apply num_literal; literal_ok).
  pose proof (int_lt _ _ _ _ Hx Hs) as Hmask.
  pose proof (num_mask_and _ _ _ _ Hx Hmask) as Htmp. pose proof (num_mask_and _ _ _ _ Hone Hmask) as Hsub.
  change (SFltb u s) with (fltb u s) in *. change (S754_zero false) with (of_Z 0%Z) in *.
  set (mk := l_lt _ _) in *. repeat log_step.
Qed.

(** The constants of the masks. *)
Lemma constants :
  of_bits f (2 ^ mant f mod 2 ^ width f) = least_normal f ∧
  of_bits f ((2 ^ (width f - 1) + exponent_mask f) mod 2 ^ width f) = S754_infinity true ∧
  of_bits f (mask (width f) true) = S754_nan ∧
  of_bits f 0 = S754_zero false.
Proof. destruct Hf as [Hf' | Hf']; rewrite Hf'; by vm_compute. Qed.

Lemma num_least : num (t_set1_int (2 ^ mant f)) (least_normal f).
Proof. rewrite <-(proj1 constants). apply int_num, (int_set1 HT i Hi). Qed.

Lemma num_max a b u v : num a u → num b v → u ≠ S754_nan → SFltb (S754_zero false) v = true → num (l_max a b) (if SFltb u v then v else u).
Proof. intros [Ha <-] [Hb <-] Hu Hv. destruct (l_max_law _ _ _ HL a b Ha Hb) as [Hr Hw]. split; [done|by apply Hw]. Qed.

(** A positive number is cut in its exponent and its fraction. *)
Lemma parts_ok x v : num x v → v ≠ S754_nan → SFltb v (least_normal f) = false → SFltb (S754_zero false) v = true →
  num (l_exponent x) (of_Z (exponent f v)) ∧
  num (l_or (t_and x (t_set1_int (Z.lnot (exponent_mask f)))) (l_set1 (lit 5 1))) (fraction f v).
Proof.
  intros Hx Hnan Hge Hpos. destruct (num_int HT i x v Hx) as (w & [Hr Hw] & Hww & Hwv).
  destruct (normal_word f Hf w v Hww Hwv Hnan Hge Hpos) as (e & m & Hwe & He & Hm & Hex & Hfr).
  assert (0 < 2 ^ mant f) as Hp by (by destruct Hf as [Hf' | Hf']; rewrite Hf').
  destruct (l_exponent_law _ _ _ HL x Hr) as [Her Hev]. split.
  - split; [done|]. rewrite (Hev i e Hi He), <-Hex; [done|]. rewrite Hw, Hwe. symmetry. apply (Z.div_unique _ _ _ m); lia.
  - assert (int x w) as Hi1 by done. assert (num (l_set1 (lit 5 1)) (lit 5 1)) as Hhalf by (apply num_literal; literal_ok).
    destruct (num_int HT i _ _ Hhalf) as (h & Hh & Hhw & Hhv).
    pose proof (int_op i Hi _ _ _ _ _ _ (t_and_law _ _ HT) Hi1 (int_set1 HT i Hi (Z.lnot (exponent_mask f)))) as Ha. cbn beta in Ha.
    rewrite Hwe, (land_fraction f Hf e m He Hm) in Ha.
    pose proof (int_op i Hi _ _ _ _ _ _ (l_or_law _ _ _ HL) Ha Hh) as Ho. cbn beta in Ho.
    rewrite (half_word f Hf h Hhw) in Ho by (rewrite Hhv; destruct Hf as [Hf' | Hf']; rewrite Hf'; by vm_compute).
    destruct (half_bits f Hf m Hm) as [Ho1 Ho2]. rewrite Ho1 in Ho. apply int_num in Ho. rewrite Ho2 in Ho. by rewrite Hfr.
Qed.

Lemma least_cases u : SFeqb u (S754_zero false) = false → SFleb (S754_zero false) u = true →
  u ≠ S754_nan ∧ normalized f u ≠ S754_nan ∧
  SFltb (normalized f u) (least_normal f) = false ∧ SFltb (S754_zero false) (normalized f u) = true.
Proof.
  intros Hz Hp. assert (u ≠ S754_nan) as Hu by (intros ->; done). split; [done|]. unfold normalized.
  destruct (SFltb u (least_normal f)) eqn:E; [by destruct Hf as [Hf' | Hf']; rewrite Hf'|]. split; [done|]. split; [done|].
  destruct u as [s|[]| |[] m e]; done.
Qed.

Lemma num_or_mask a m u (p : bool) : num a u → int m (mask (width f) p) → num (l_or a m) (if p then S754_nan else u).
Proof.
  intros Ha Hm. destruct (num_int HT i a u Ha) as (z & Hz & Hw & <-). destruct constants as (_ & _ & Hones & _).
  pose proof (int_op i Hi _ _ _ _ _ _ (l_or_law _ _ _ HL) Hz Hm) as Hr. cbn beta in Hr. apply int_num in Hr.
  destruct p; [|by rewrite Z.lor_0_r in Hr]. by rewrite (lor_mask f Hf z Hw), Hones in Hr.
Qed.

Lemma num_half : num (l_set1 (lit 5 1)) (lit 5 1).
Proof. apply num_literal. literal_ok. Qed.

(** [plog] in one lane. *)
Lemma plog_lane x u : num x u → num (plog x) (sf_log f madd u).
Proof.
  intros Hx. destruct constants as (_ & Hinf & _ & _). destruct Hx as [Hxr Hxv]. pose proof (conj Hxr Hxv : num x u) as Hx.
  assert (int (l_eq_zero x) (mask (width f) (SFeqb u (S754_zero false)))) as Heq.
  { destruct (l_eq_zero_law _ _ _ HL x Hxr) as [Hr Hv]. split; [done|]. by rewrite (Hv i Hi), Hxv. }
  assert (int (l_not_ge_zero x) (mask (width f) (negb (SFleb (S754_zero false) u)))) as Hge.
  { destruct (l_not_ge_zero_law _ _ _ HL x Hxr) as [Hr Hv]. split; [done|]. by rewrite (Hv i Hi), Hxv. }
  assert (num (t_set1_int (2 ^ (width f - 1) + exponent_mask f)) (S754_infinity true)) as Hminus.
  { rewrite <-Hinf. apply int_num, (int_set1 HT i Hi). }
  unfold plog. fold (exponent_mask f). set (x1 := l_max x _).
  assert (register t_size x1) as Hx1 by (apply (l_max_law _ _ _ HL); [done|apply num_least]).
  set (x2 := l_or (t_and x1 _) _). set (tail := log_tail x2 _).
  assert (num x2 (t_val x2 i)) as Hx2.
  { split; [|done]. apply (l_or_law _ _ _ HL); [|exact (proj1 num_half)].
    apply (t_and_law _ _ HT); [done|]. apply (int_set1 HT i Hi). }
  assert (num (l_exponent x1) (t_val (l_exponent x1) i)) as He.
  { split; [by apply (l_exponent_law _ _ _ HL)|done]. }
  assert (∀ w, num tail w → num (l_blendv (l_eq_zero x) (t_set1_int (2 ^ (width f - 1) + exponent_mask f)) (l_or tail (l_not_ge_zero x)))
      (if SFeqb u (S754_zero false) then S754_infinity true else if negb (SFleb (S754_zero false) u) then S754_nan else w)) as Hend.
  { intros w Hw. pose proof (num_or_mask _ _ _ _ Hw Hge) as Hor. exact (num_blendv _ _ _ _ _ _ Heq Hminus Hor). }
  unfold sf_log. destruct (SFeqb u (S754_zero false)) eqn:Ez; [exact (Hend _ (log_tail_ok _ _ _ _ Hx2 He))|].
  destruct (SFleb (S754_zero false) u) eqn:Ep; [|exact (Hend _ (log_tail_ok _ _ _ _ Hx2 He))]. cbn [negb] in *.
  destruct (least_cases u Ez Ep) as (Hu & Hv & Hlo & Hpos).
  assert (num x1 (normalized f u)) as Hmax.
  { apply num_max; [done|apply num_least|done|]. by destruct Hf as [Hf' | Hf']; rewrite Hf'. }
  destruct (parts_ok x1 _ Hmax Hv Hlo Hpos) as [Hexp Hfrac].
  apply Hend. exact (log_tail_ok _ _ _ _ Hfrac Hexp).
Qed.

(** NEON's [psin] in one lane. *)
Lemma four_over_pi_in : ∃ m e, lit 127323954473516 14 = S754_finite false m e.
Proof. destruct Hf as [Hf' | Hf']; rewrite Hf'; vm_compute; by eexists _, _. Qed.

Lemma num_four_over_pi : num (l_set1 (lit 127323954473516 14)) (lit 127323954473516 14).
Proof. apply num_literal. literal_ok. Qed.

Lemma reduced_ok x y u v j : num x (SFabs u) → num y v → v = binary_normalize (prec f) (emax f) j 0 false →
  num (t_add (t_add (t_add x (t_mul y (l_set1 (lit (-78515625) 8)))) (t_mul y (l_set1 (lit (-24187564849853515625) 23))))
    (t_mul y (l_set1 (lit (-377489497744594108) 25)))) (reduced lit SFabs u j).
Proof. intros Hx Hy ->. unfold reduced. repeat log_step. Qed.

Lemma psin_lane x u j : num x u → octant lit SFabs u = Some j → j < bound →
  num (psin x) (sin_at lit madd SFabs sf_sign u j).
Proof.
  intros Hx Hj Hlt. pose proof (num_abs HT i Hi x u Hx) as Habs. pose proof num_four_over_pi as Hnum.
  destruct four_over_pi_in as (m & e & Hc). unfold octant in Hj. set (c := lit 127323954473516 14) in *.
  destruct (ftrunc (SFabs u * c)%num) as [j0|] eqn:E; [|done]. injection Hj as Hj.
  assert (sf_sign (SFabs u * c)%num = false) as Hs by (rewrite Hc; apply mul_abs_sign).
  assert (ftrunc u ≠ None) as Hu.
  { rewrite Hc in E. clear -E. destruct u; [discriminate|discriminate E|discriminate E|discriminate]. }
  destruct (octant_int_ok Hf HT i Hi _ _ j0 (num_mul HT i Hi _ _ _ _ Habs Hnum) Hs E ltac:(lia)) as [Ho Hpos].
  rewrite Hj in Ho, Hpos. unfold psin. fold c. set (emm2 := t_and _ (t_set1_int (-2))) in *.
  pose proof (sin_sign_ok Hf HT i Hi x _ u j Hx Hu Ho ltac:(lia)) as Hsign.
  pose proof (poly_mask_ok Hf HT i Hi _ j Ho) as Hmask.
  assert (num (t_cast_int emm2) (binary_normalize (prec f) (emax f) j 0 false)) as Hy.
  { destruct Ho as [Hr Hw]. split; [by apply (t_cast_int_reg _ _ HT)|]. rewrite <-Hw. apply (t_cast_int_law _ _ HT); [done|done|lia]. }
  pose proof (reduced_ok _ _ u _ j Habs Hy eq_refl) as Hred.
  unfold sin_at. set (r := reduced _ _ _ _) in *. set (x3 := t_add (t_add (t_add _ _) _) _) in *.
  apply (num_xor_sign Hf HT i Hi); [|exact Hsign]. apply num_blendv; [exact Hmask| |]; repeat log_step.
Qed.

End Lane.

(** ** Eigen's operations *)

(** Their documentation: [pmax] where neither is NaN and the second is positive, and
    [pmadd], the multiplication and addition of the numbers of a format, fused where
    the processor has that. *)
Class EigenLogLaws `{EigenLog} (madd : format → spec_float → spec_float → spec_float → spec_float) : Prop := {
  e_max_pd_law k a b : register k a → register k b → register k (e_max_pd a b) ∧
    ∀ i, (i < k)%nat →
      let u := of_bits binary64 (nth i (to64 a) 0) in let v := of_bits binary64 (nth i (to64 b) 0) in
      u ≠ S754_nan → SFltb (S754_zero false) v = true →
      of_bits binary64 (nth i (to64 (e_max_pd a b)) 0) = if SFltb u v then v else u;
  e_madd_pd_law k a b c : register k a → register k b → register k c → register k (e_madd_pd a b c) ∧
    ∀ i, (i < k)%nat →
      of_bits binary64 (nth i (to64 (e_madd_pd a b c)) 0) =
      madd binary64 (of_bits binary64 (nth i (to64 a) 0)) (of_bits binary64 (nth i (to64 b) 0)) (of_bits binary64 (nth i (to64 c) 0));
  e_set1_float_law k x : canonical binary32 x → register k (e_set1_float (2 * k) x) ∧
    ps (e_set1_float (2 * k) x) = replicate (2 * k) x;
  e_max_ps_law k a b : register k a → register k b → register k (e_max_ps a b) ∧
    ∀ i, (i < 2 * k)%nat →
      let u := of_bits binary32 (nth i a 0) in let v := of_bits binary32 (nth i b 0) in
      u ≠ S754_nan → SFltb (S754_zero false) v = true →
      of_bits binary32 (nth i (e_max_ps a b) 0) = if SFltb u v then v else u;
  e_madd_ps_law k a b c : register k a → register k b → register k c → register k (e_madd_ps a b c) ∧
    ∀ i, (i < 2 * k)%nat →
      of_bits binary32 (nth i (e_madd_ps a b c) 0) =
      madd binary32 (of_bits binary32 (nth i a 0)) (of_bits binary32 (nth i b 0)) (of_bits binary32 (nth i c 0));
}.

(** ** Exponents *)

(** The bits of a small integer, set in [2 ^ 52], make a number of which that can be
    taken away. *)
Definition from_uint (e : Z) : spec_float :=
  SFsub 53 1024 (of_bits binary64 (Z.lor e (to_bits binary64 magic52))) magic52.

#[global] Instance spec_float_eq_dec : EqDecision spec_float.
Proof. solve_decision. Defined.

Lemma exponents_exact : forallb (λ n, let e := Z.of_nat n in
  bool_decide (SFsub 53 1024 (from_uint e) log_1022 = of_Z (Num := format_num binary64) (e - 1022))) (seq 1 2047) = true.
Proof. vm_compute. reflexivity. Qed.

Lemma exponents_exact_float : forallb (λ n, let e := Z.of_nat n in
  bool_decide (SFadd 24 128 (binary_normalize 24 128 (signed 32 (u32 (e - 127))) 0 false) (decimal_in binary32 1 0) =
    of_Z (Num := format_num binary32) (e - 126))) (seq 1 255) = true.
Proof. vm_compute. reflexivity. Qed.

Lemma checked_range (P : Z → Prop) `{!∀ e, Decision (P e)} n : forallb (λ k, bool_decide (P (Z.of_nat k))) (seq 1 n) = true →
  ∀ e, 1 <= e <= Z.of_nat n → P e.
Proof.
  intros Hall e He. rewrite forallb_forall in Hall. specialize (Hall (Z.to_nat e)). rewrite Z2Nat.id in Hall by lia.
  apply (bool_decide_eq_true_1 (P e)), Hall, in_seq. lia.
Qed.

Section Doubles.
Context (k : nat).

Lemma lor_lanes a b : register k a → register k b →
  register k (or_si a b) ∧ ∀ i, (i < k)%nat → nth i (to64 (or_si a b)) 0 = Z.lor (nth i (to64 a) 0) (nth i (to64 b) 0).
Proof.
  apply (lanes_int_pd k or_si Z.lor). intros x y Hx Hy.
  split; [by apply (register_bitwise _ bitwise_lor)|by eapply (to64_bitwise _ bitwise_lor)].
Qed.

Lemma land_lanes a b : register k a → register k b →
  register k (and_si a b) ∧ ∀ i, (i < k)%nat → nth i (to64 (and_si a b)) 0 = Z.land (nth i (to64 a) 0) (nth i (to64 b) 0).
Proof.
  apply (lanes_int_pd k and_si Z.land). intros x y Hx Hy.
  split; [by apply (register_bitwise _ bitwise_land)|by eapply (to64_bitwise _ bitwise_land)].
Qed.

Lemma set1_pd_lanes x : canonical binary64 x → register k (set1_pd k x) ∧
  ∀ i, (i < k)%nat → nth i (to64 (set1_pd k x)) 0 = to_bits binary64 x.
Proof.
  intros Hx. destruct (set1_law k (to_bits binary64 x)) as [Hr Hv]. split; [exact Hr|]. intros i Hi.
  unfold set1_pd. rewrite Hv, nth_replicate_lt by done. unfold u64. apply Z.mod_small.
  apply (of_bits_to_bits binary64 (or_intror eq_refl) x Hx).
Qed.

Lemma srli_lanes b a : 0 <= b < 64 → register k a →
  register k (srli_epi64 b a) ∧ ∀ i, (i < k)%nat → nth i (to64 (srli_epi64 b a)) 0 = nth i (to64 a) 0 / 2 ^ b.
Proof.
  intros Hb Ha. rewrite srli_epi64_eq by lia.
  destruct (map64_law k (srl b) a) as [Hr Hv]; [intros x Hx; apply word_srl; [lia|done]|done|]. split; [done|].
  intros i Hi. rewrite Hv, (nth_fmap_lt _ _ i 0) by (rewrite (length_to64 k); [done|apply Ha]).
  apply Z.shiftr_div_pow2. lia.
Qed.

(** [uint64_to_double]. *)
Lemma from_uint_lanes x : register k x →
  let y := sub_pd (or_si x (set1_pd k magic52)) (set1_pd k magic52) in
  register k y ∧ ∀ i, (i < k)%nat → of_bits binary64 (nth i (to64 y) 0) = from_uint (nth i (to64 x) 0).
Proof.
  intros Hx y. pose proof (or_intror eq_refl : ieee binary64) as Hf.
  destruct (set1_pd_lanes magic52) as [Hm Hmv]; [left; by split_and!|].
  destruct (lor_lanes x _ Hx Hm) as [Ho Hov].
  destruct (pd_op_nth k (SFsub 53 1024) _ _ (sub_canonical binary64 Hf) Ho Hm) as [Hy Hyv].
  split; [exact Hy|]. intros i Hi. unfold y, sub_pd. rewrite Hyv, Hov, Hmv by done.
  destruct (of_bits_to_bits binary64 Hf (SFsub 53 1024 (of_bits binary64 (Z.lor (nth i (to64 x) 0) (to_bits binary64 magic52)))
    (of_bits binary64 (to_bits binary64 magic52)))) as [_ ->].
  - apply (sub_canonical binary64 Hf); by apply of_bits_canonical.
  - reflexivity.
Qed.

(** Masks and selections. *)
Lemma cmp_pd_lanes p a b : register k a → register k b →
  register k (cmp_pd p a b) ∧
  ∀ i, (i < k)%nat → nth i (to64 (cmp_pd p a b)) 0 = mask 64 (p (of_bits binary64 (nth i (to64 a) 0)) (of_bits binary64 (nth i (to64 b) 0))).
Proof. intros Ha Hb. apply lanewise_nth; [intros; by apply word_mask|done|done]. Qed.

Lemma setzero_lanes : register k (setzero_pd k) ∧ ∀ i, (i < k)%nat → nth i (to64 (setzero_pd k)) 0 = 0.
Proof.
  unfold setzero_pd. split; [apply of64_register; [apply length_replicate|by apply Forall_replicate]|].
  intros i Hi. rewrite to64_of64. by apply nth_replicate_lt.
Qed.

Lemma or_and_lanes m a b : register k m → register k a → register k b →
  register k (or_si (and_si m a) (andnot_si m b)) ∧
  ∀ i p, (i < k)%nat → nth i (to64 m) 0 = mask 64 p →
    nth i (to64 (or_si (and_si m a) (andnot_si m b))) 0 = if p : bool then nth i (to64 a) 0 else nth i (to64 b) 0.
Proof.
  intros Hm Ha Hb. destruct (land_lanes m a Hm Ha) as [H1 H2].
  assert (andnot_si m b = zip_with and_not b m) as ->.
  { unfold andnot_si. rewrite <-zip_with_flip. apply zip_with_ext; [|done..]. intros x y. unfold and_not. apply Z.land_comm. }
  destruct (to64_and_not k b m Hb Hm) as [H3 H4]. destruct (lor_lanes _ _ H1 H3) as [H5 H6]. split; [done|].
  intros i p Hi Hp. rewrite H6, H2, H4, (nth_zip_with _ _ _ i 0 0 0), Hp
    by (done || (rewrite (length_to64 k); [done|first [apply Hb|apply Hm]])).
  rewrite (andnot_mask_select binary64 (or_intror eq_refl)), (land_mask_select binary64 (or_intror eq_refl)) by by apply (word_nth64 k).
  destruct p; [apply Z.lor_0_r|done].
Qed.

Lemma blendv_pd_lanes m a b : register k m → register k a → register k b →
  register k (blendv_pd b a m) ∧
  ∀ i p, (i < k)%nat → nth i (to64 m) 0 = mask 64 p →
    nth i (to64 (blendv_pd b a m)) 0 = if p : bool then nth i (to64 a) 0 else nth i (to64 b) 0.
Proof.
  intros Hm Ha Hb. unfold blendv_pd. pose proof (to64_words k a Ha) as Hwa. pose proof (to64_words k b Hb) as Hwb.
  assert (length (to64 m) = k ∧ length (to64 a) = k ∧ length (to64 b) = k) as (Hlm & Hla & Hlb)
    by (split_and!; apply length_to64; (apply Hm || apply Ha || apply Hb)).
  split.
  - apply of64_register; [rewrite length_zip_with, length_zip_with; lia|]. apply Forall_lookup_2. intros i x Hi.
    apply lookup_zip_with_Some in Hi as ([u v] & s & -> & Huv & _). apply lookup_zip_with_Some in Huv as (u' & v' & [= -> ->] & Hu & Hv).
    destruct (2 ^ 63 <=? s); cbn; [exact (Forall_lookup_1 _ _ _ _ Hwa Hv)|exact (Forall_lookup_1 _ _ _ _ Hwb Hu)].
  - intros i p Hi Hp. rewrite to64_of64. rewrite (nth_zip_with _ _ _ i (0, 0) 0 0), Hp by (rewrite ?length_zip_with; lia).
    unfold zip. rewrite (nth_zip_with pair _ _ i 0 0) by lia. by destruct p.
Qed.

End Doubles.

(** ** The packet types *)

Section Types.
Context `{EigenPackets} `{!EigenPacketLaws} `{EigenTrig} `{!EigenTrigLaws} `{EigenLog} (fx : features).
Context (madd : format → spec_float → spec_float → spec_float → spec_float) `{!EigenLogLaws madd}.

Lemma canonical_1022 : canonical binary64 log_1022.
Proof. vm_compute. left. by split_and!. Qed.

(** Packets of [double]: what the instruction sets have to show. *)
Section Double.
Context (k : nat) (d2i i2d : list Z → list Z) (seti : Z → list Z) (padd64 psub64 pcmpeq64 : list Z → list Z → list Z)
  (psll64 : Z → list Z → list Z).
#[local] Instance some_double : TrigPacket binary64 := double_packet k d2i i2d seti padd64 psub64 pcmpeq64 psll64.
Context (L : LogPacket binary64).

Lemma double_log_laws :
  TrigPacketLaws k (2 ^ 51 - 1) →
  l_set1 = e_set1_pd k → l_or = or_si → l_max = e_max_pd → l_madd = e_madd_pd → l_lt = cmp_pd SFltb →
  (∀ x, l_eq_zero x = cmp_pd SFeqb x (setzero_pd k)) → (∀ x, l_not_ge_zero x = cmp_pd not_ge x (setzero_pd k)) →
  (∀ m a b, register k m → register k a → register k b → register k (l_blendv m a b) ∧
    ∀ i p, (i < k)%nat → nth i (to64 m) 0 = mask 64 p →
      nth i (to64 (l_blendv m a b)) 0 = if p : bool then nth i (to64 a) 0 else nth i (to64 b) 0) →
  (∀ a, register k a → register k (l_exponent a) ∧
    ∀ i, (i < k)%nat → of_bits binary64 (nth i (to64 (l_exponent a)) 0) =
      SFsub 53 1024 (from_uint (nth i (to64 a) 0 / 2 ^ 52)) log_1022) →
  LogPacketLaws k (2 ^ 51 - 1) (madd binary64).
Proof.
  intros HT Hset1 Hor Hmax Hmadd Hlt Heq Hge Hblend Hexp. pose proof (setzero_lanes k) as [Hz Hzv].
  split; [exact HT|..]; unfold lanes_int, t_val, t_word; cbn [t_size t_words some_double double_packet] in *.
  - intros x Hx. rewrite Hset1. destruct (e_set1_pd_law k x Hx) as [Hr Hv]. split; [done|]. intros i Hi.
    rewrite pd_lane, Hv. by apply nth_replicate_lt.
  - rewrite Hor. apply lor_lanes.
  - rewrite Hmax. apply e_max_pd_law.
  - rewrite Hmadd. apply e_madd_pd_law.
  - rewrite Hlt. apply cmp_pd_lanes.
  - intros a Ha. rewrite Heq. destruct (cmp_pd_lanes k SFeqb a _ Ha Hz) as [Hr Hv]. split; [done|]. intros i Hi.
    by rewrite Hv, Hzv, (of_bits_zero binary64 (or_intror eq_refl)).
  - intros a Ha. rewrite Hge. destruct (cmp_pd_lanes k not_ge a _ Ha Hz) as [Hr Hv]. split; [done|]. intros i Hi.
    by rewrite Hv, Hzv, (of_bits_zero binary64 (or_intror eq_refl)).
  - apply Hblend.
  - intros a Ha. destruct (Hexp a Ha) as [Hr Hv]. split; [done|]. intros i e Hi He Hae. rewrite Hv by done.
    change (2 ^ mant binary64) with (2 ^ 52) in Hae. rewrite Hae.
    exact (checked_range (λ e, SFsub 53 1024 (from_uint e) log_1022 = of_Z (Num := format_num binary64) (e - 1022)) 2047
      exponents_exact e ltac:(cbn in He; lia)).
Qed.

End Double.

Lemma sub_1022 k x : register k x →
  let y := sub_pd (or_si x (set1_pd k magic52)) (set1_pd k magic52) in
  (register k (sub_pd y (e_set1_pd k log_1022)) ∧
   ∀ i, (i < k)%nat → of_bits binary64 (nth i (to64 (sub_pd y (e_set1_pd k log_1022))) 0) =
    SFsub 53 1024 (from_uint (nth i (to64 x) 0)) log_1022) ∧
  register k (e_sub_pd y (e_set1_pd k log_1022)) ∧
  ∀ i, (i < k)%nat → of_bits binary64 (nth i (to64 (e_sub_pd y (e_set1_pd k log_1022))) 0) =
    SFsub 53 1024 (from_uint (nth i (to64 x) 0)) log_1022.
Proof.
  intros Hx y. pose proof (or_intror eq_refl : ieee binary64) as Hf.
  destruct (from_uint_lanes k x Hx) as [Hy Hyv]. fold y in Hy, Hyv.
  destruct (e_set1_pd_law k log_1022 canonical_1022) as [Hr Hv].
  assert (∀ i, (i < k)%nat → of_bits binary64 (nth i (to64 (e_set1_pd k log_1022)) 0) = log_1022) as Hc
    by (intros i Hi; rewrite pd_lane, Hv; by apply nth_replicate_lt).
  split.
  - destruct (pd_op_nth k (SFsub 53 1024) y _ (sub_canonical binary64 Hf) Hy Hr) as [Hs Hsv]. split; [exact Hs|].
    intros i Hi. unfold sub_pd at 1. rewrite Hsv, Hyv, Hc by done. apply (of_bits_to_bits binary64 Hf).
    apply (sub_canonical binary64 Hf); [|exact canonical_1022]. rewrite <-Hyv by done. by apply of_bits_canonical.
  - destruct (lanes_num_pd k e_sub_pd _ e_sub_pd_law y _ Hy Hr) as [Hs Hsv]. split; [exact Hs|].
    intros i Hi. by rewrite Hsv, Hyv, Hc.
Qed.

Lemma packet2d_log_laws : LogPacketLaws (H := packet2d fx) (H0 := packet2d_log fx) 2 (2 ^ 51 - 1) (madd binary64).
Proof.
  apply double_log_laws; try done; [apply packet2d_laws| |].
  - intros m a b Hm Ha Hb. cbn [l_blendv packet2d_log]. unfold SSE.pblendv_pd. destruct (sse4_1 fx).
    + by apply blendv_pd_lanes.
    + by apply or_and_lanes.
  - intros a Ha. destruct (srli_lanes 2 52 a ltac:(lia) Ha) as [Hr Hv].
    destruct (sub_1022 2 _ Hr) as [[Hs Hsv] _]. split; [exact Hs|]. intros i Hi. rewrite <-Hv by done. by apply Hsv.
Qed.

Lemma packet4d_log_laws : LogPacketLaws (H := packet4d fx) (H0 := packet4d_log fx) 4 (2 ^ 51 - 1) (madd binary64).
Proof.
  apply double_log_laws; try done; [apply packet4d_laws| |].
  - intros m a b Hm Ha Hb. by apply blendv_pd_lanes.
  - intros a Ha. destruct (srli_lanes 4 52 a ltac:(lia) Ha) as [Hr Hv]. cbn [l_exponent packet4d_log]. rewrite avx_psrl64 by done.
    destruct (sub_1022 4 _ Hr) as [_ [Hs Hsv]]. split; [exact Hs|]. intros i Hi. rewrite <-Hv by done. by apply Hsv.
Qed.

(** Packets of [float] of NEON. *)
Lemma or32 k a b : register k a → register k b →
  register k (or_si a b) ∧ ∀ i, (i < 2 * k)%nat → nth i (or_si a b) 0 = Z.lor (nth i a 0) (nth i b 0).
Proof. apply (lanes_int_ps k or_si Z.lor); [done|]. intros x y. by apply (bitwise_word _ bitwise_lor). Qed.

Lemma cmp_ps_lanes k p a b : register k a → register k b →
  register k (cmp_ps p a b) ∧
  ∀ i, (i < 2 * k)%nat → nth i (cmp_ps p a b) 0 = mask 32 (p (of_bits binary32 (nth i a 0)) (of_bits binary32 (nth i b 0))).
Proof.
  apply (lanes_int_ps k (cmp_ps p) (λ x y, mask 32 (p (of_bits binary32 x) (of_bits binary32 y)))); [done|].
  intros x y _ _. by apply word_mask.
Qed.

Lemma set1_float_lanes k x : canonical binary32 x → register k (e_set1_float (2 * k) x) ∧
  ∀ i, (i < 2 * k)%nat → of_bits binary32 (nth i (e_set1_float (2 * k) x) 0) = x.
Proof.
  intros Hx. destruct (e_set1_float_law k x Hx) as [Hr Hv]. split; [done|]. intros i Hi.
  rewrite ps_lane, Hv. by apply nth_replicate_lt.
Qed.

Lemma bsl_lanes m a b : register 2 m → register 2 a → register 2 b →
  register 2 (NEON.pblendv m a b) ∧
  ∀ i p, (i < 4)%nat → nth i m 0 = mask 32 p → nth i (NEON.pblendv m a b) 0 = if p : bool then nth i a 0 else nth i b 0.
Proof.
  intros Hm Ha Hb. pose proof (register_length _ _ Hm) as Hlm. pose proof (register_length _ _ Ha) as Hla.
  pose proof (register_length _ _ Hb) as Hlb. unfold NEON.pblendv. rewrite vbslq_or_and by lia.
  assert (andnot_si m b = zip_with and_not b m) as ->.
  { unfold andnot_si. rewrite <-zip_with_flip. apply zip_with_ext; [|done..]. intros x y. unfold and_not. apply Z.land_comm. }
  destruct (lanes_int_ps 2 and_si Z.land ltac:(done) (λ x y, bitwise_word _ bitwise_land 32 x y ltac:(lia)) m a Hm Ha) as [H1' H2'].
  destruct (lanes_int_ps 2 (zip_with and_not) and_not ltac:(done) and_not_word b m Hb Hm) as [H3' H4'].
  destruct (or32 2 _ _ H1' H3') as [H5' H6']. split; [exact H5'|]. intros i p Hi Hp.
  rewrite H6', H2', H4', Hp by (cbn; lia). unfold and_not.
  rewrite (andnot_mask_select binary32 (or_introl eq_refl)), (land_mask_select binary32 (or_introl eq_refl)) by by apply (word_nth 2).
  destruct p; [apply Z.lor_0_r|done].
Qed.

(** [srl<23>], the subtraction of 127, the conversion, and the addition of one. *)
Lemma neon_exponent a : register 2 a →
  register 2 (l_exponent (LogPacket := packet4f_log) a) ∧
  ∀ i, (i < 4)%nat → of_bits binary32 (nth i (l_exponent (LogPacket := packet4f_log) a) 0) =
    SFadd 24 128 (binary_normalize 24 128 (signed 32 (u32 (nth i a 0 / 2 ^ 23 - 127))) 0 false) (decimal_in binary32 1 0).
Proof.
  intros Ha. pose proof (or_introl eq_refl : ieee binary32) as Hf. cbn [l_exponent packet4f_log].
  assert (canonical binary32 (decimal_in binary32 1 0)) as Hc by (vm_compute; left; by split_and!).
  destruct (set1_float_lanes 2 _ Hc) as [Ho Hov].
  destruct (map_words 2 (λ a, NEON.psrl 23 a 23) (srl 23) ltac:(done) (λ x Hx, word_srl 32 23 x ltac:(lia) Hx) a Ha) as [Hs Hsv].
  assert (register 2 (pset1 4 127) ∧ ∀ i, (i < 4)%nat → nth i (pset1 4 127) 0 = 127) as [Hb Hbv].
  { rewrite pset1_lanes. split; [apply (set1_register32 2)|]. intros i Hi. by apply nth_replicate_lt. }
  destruct (lanes_int_ps 2 psub (λ x y, (x - y) mod 2 ^ 32) (psub_lanes 2) (λ x y _ _, word_mod 32 (x - y) ltac:(lia)) _ _ Hs Hb) as [Hd Hdv].
  set (d := psub _ _) in *.
  destruct (map_ps 2 (λ w, to_bits binary32 (binary_normalize 24 128 (signed 32 w) 0 false)) (λ w, binary_normalize 24 128 (signed 32 w) 0 false) d)
    as [Hv Hvv]; [intros w; by apply (normalize_canonical binary32)|done|done|].
  destruct (lanes_num_ps 2 e_add_ps _ e_add_ps_law _ _ Hv Ho) as [Hr Hrv]. split; [exact Hr|]. intros i Hi.
  unfold vcvtq_f32_s32. rewrite Hrv by done. f_equal; [|by apply Hov].
  rewrite ps_lane, Hvv, (nth_fmap_lt _ _ i 0) by (by rewrite (register_length _ _ Hd)).
  rewrite Hdv, Hsv, Hbv by done. unfold srl. by rewrite Z.shiftr_div_pow2.
Qed.

Lemma packet4f_log_laws : LogPacketLaws (H := packet4f_neon) (H0 := packet4f_log) 4 (2 ^ 31 - 2) (madd binary32).
Proof.
  assert (register 2 (e_set1_float 4 (S754_zero false)) ∧
    ∀ i, (i < 4)%nat → of_bits binary32 (nth i (e_set1_float 4 (S754_zero false)) 0) = S754_zero false) as [Hz Hzv]
    by by apply (set1_float_lanes 2).
  split; [apply packet4f_neon_laws|..]; unfold lanes_int, t_val, t_word;
    cbn [t_size t_words packet4f_neon float_packet l_set1 l_or l_max l_madd l_lt l_eq_zero l_not_ge_zero l_blendv packet4f_log].
  - intros x Hx. by apply (set1_float_lanes 2).
  - intros a b Ha Hb. rewrite (por_lanes 2) by done. by apply (or32 2).
  - apply (e_max_ps_law 2).
  - apply (e_madd_ps_law 2).
  - apply (cmp_ps_lanes 2).
  - intros a Ha. destruct (cmp_ps_lanes 2 SFeqb a _ Ha Hz) as [Hr Hv]. split; [exact Hr|]. intros i Hi.
    unfold NEONFloat.pcmpeq. by rewrite Hv, Hzv.
  - intros a Ha. destruct (cmp_ps_lanes 2 SFleb _ a Hz Ha) as [Hr Hv].
    destruct (map_words 2 NEON.pbitnot (λ w, mask 32 true - w) ltac:(done) (λ x Hx, word_not 32 x ltac:(lia) Hx) _ Hr) as [Hn Hnv].
    split; [exact Hn|]. intros i Hi. unfold NEONFloat.pbitnot, NEONFloat.pcmple. rewrite Hnv, Hv, Hzv by done. by destruct (SFleb _ _).
  - apply bsl_lanes.
  - intros a Ha. destruct (neon_exponent a Ha) as [Hr Hv]. split; [exact Hr|]. intros i e Hi He Hae. rewrite Hv by done.
    change (2 ^ mant binary32) with (2 ^ 23) in Hae. rewrite Hae.
    exact (checked_range (λ e, SFadd 24 128 (binary_normalize 24 128 (signed 32 (u32 (e - 127))) 0 false) (decimal_in binary32 1 0) =
      of_Z (Num := format_num binary32) (e - 126)) 255 exponents_exact_float e ltac:(cbn in He; lia)).
Qed.

(** Every lane of [plog] is [sf_log] of the lane of the argument; and of NEON's [psin]. *)
Definition log_lanes {f} (P : TrigPacket f) (log : list Z → list Z) (n : nat) : Prop :=
  ∀ x i, register t_size x → (i < n)%nat → t_val (log x) i = sf_log f (madd f) (t_val x i).
Definition neon_sine_lanes : Prop :=
  ∀ x i j, register 2 x → (i < 4)%nat →
    let u := t_val (H := packet4f_neon) x i in
    octant (H := format_num binary32) (decimal_in binary32) SFabs u = Some j → j < 2 ^ 31 - 2 →
    t_val (H := packet4f_neon) (psin_4f x) i =
      sin_at (H := format_num binary32) (decimal_in binary32) (madd binary32) SFabs sf_sign u j.

(** C27. [plog] of [Packet2d] (SSE), [Packet4d] (AVX) and [Packet4f] (NEON) computes
    in every lane the scalar logarithm [sf_log]: a positive number is cut into its
    exponent and its fraction, exactly, also where it is the largest or infinity;
    numbers below the least normal one are replaced by that; zero of either sign
    gives minus infinity, negative numbers and NaN give NaN, by the masks of
    comparisons.  NEON's own [psin] computes in every lane the scalar [sin_at]. *)
Theorem logarithm_lanes :
  log_lanes (packet2d fx) (plog_2d fx) 2 ∧
  log_lanes (packet4d fx) (plog_4d fx) 4 ∧
  log_lanes packet4f_neon plog_4f 4 ∧
  neon_sine_lanes.
Proof.
  split_and!.
  - intros x i Hx Hi. by apply (plog_lane (or_intror eq_refl) packet2d_log_laws i Hi).
  - intros x i Hx Hi. by apply (plog_lane (or_intror eq_refl) packet4d_log_laws i Hi).
  - intros x i Hx Hi. by apply (plog_lane (or_introl eq_refl) packet4f_log_laws i Hi).
  - intros x i j Hx Hi u Hj Hlt. by apply (psin_lane (or_introl eq_refl) packet4f_log_laws i Hi x u j (conj Hx eq_refl) Hj Hlt).
Qed.

End Types.

(** ** The instructions *)

Definition multiply_add (f : format) (a b c : spec_float) : spec_float :=
  SFadd (prec f) (emax f) (SFmul (prec f) (emax f) a b) c.
Definition greater (u v : spec_float) : spec_float := if SFltb u v then v else u.

Definition log_instructions : EigenLog := {|
  e_max_pd := pd_op greater;
  e_madd_pd a b c := pd_op (SFadd 53 1024) (pd_op (SFmul 53 1024) a b) c;
  e_set1_float n x := replicate n (to_bits binary32 x);
  e_max_ps := ps_op greater;
  e_madd_ps a b c := ps_op (SFadd 24 128) (ps_op (SFmul 24 128) a b) c;
|}.

Lemma greater_canonical f x y : canonical f x → canonical f y → canonical f (greater x y).
Proof. intros Hx Hy. unfold greater. by destruct (SFltb x y). Qed.

Lemma log_instructions_laws : @EigenLogLaws log_instructions multiply_add.
Proof.
  pose proof (or_introl eq_refl : ieee binary32) as Hs. pose proof (or_intror eq_refl : ieee binary64) as Hd.
  split; cbn [e_max_pd e_madd_pd e_set1_float e_max_ps e_madd_ps log_instructions].
  - intros k a b Ha Hb. destruct (lanes_num_pd k _ _ (pd_op_lanes greater (greater_canonical binary64)) a b Ha Hb) as [Hr Hv].
    split; [exact Hr|]. intros i Hi _ _. by rewrite Hv.
  - intros k a b c Ha Hb Hc.
    destruct (lanes_num_pd k _ _ (pd_op_lanes _ (mul_canonical binary64 Hd)) a b Ha Hb) as [Hm Hmv].
    destruct (lanes_num_pd k _ _ (pd_op_lanes _ (add_canonical binary64 Hd)) _ c Hm Hc) as [Hr Hv].
    split; [exact Hr|]. intros i Hi. by rewrite Hv, Hmv.
  - intros k x Hx. destruct (of_bits_to_bits binary32 Hs x Hx) as [Hw Hv]. split.
    + split; [by rewrite length_replicate|]. by apply Forall_replicate.
    + unfold ps. by rewrite fmap_replicate, Hv.
  - intros k a b Ha Hb. destruct (lanes_num_ps k _ _ (ps_op_lanes greater (greater_canonical binary32)) a b Ha Hb) as [Hr Hv].
    split; [exact Hr|]. intros i Hi _ _. by rewrite Hv.
  - intros k a b c Ha Hb Hc.
    destruct (lanes_num_ps k _ _ (ps_op_lanes _ (mul_canonical binary32 Hs)) a b Ha Hb) as [Hm Hmv].
    destruct (lanes_num_ps k _ _ (ps_op_lanes _ (add_canonical binary32 Hs)) _ c Hm Hc) as [Hr Hv].
    split; [exact Hr|]. intros i Hi. by rewrite Hv, Hmv.
Qed.

(** ** Witnesses *)

(** The number 3.0 in the first lane of a [Packet2d], and minus one in the second. *)
Lemma logarithm_lanes_witness :
  let fx := mk_features true true true true in
  let P := packet2d (H := instructions) (H0 := trig_instructions) fx in
  let log := plog_2d (H := instructions) (H0 := trig_instructions) (H1 := log_instructions) fx in
  let x := [0; 1074266112; 0; 3220176896] in
  t_val (log x) 0 = sf_log binary64 (multiply_add binary64) (S754_finite false (3 * 2 ^ 51) (-51)) ∧
  t_val (log x) 1 = S754_nan.
Proof.
  intros fx P log x.
  destruct (logarithm_lanes (H := instructions) (H0 := instructions_laws) (H1 := trig_instructions) (H2 := trig_instructions_laws)
    (H3 := log_instructions) fx multiply_add (EigenLogLaws0 := log_instructions_laws))
    as (Hlanes & _).
  assert (register 2 x) as Hx by (split; [reflexivity|repeat constructor; unfold word; lia]).
  split; (etransitivity; [apply Hlanes; [exact Hx|lia]|vm_compute; reflexivity]).
Defined.

(** The logarithm of infinity is a number: its exponent is that of 2 ^ 1024. *)
Example log_of_infinity : ∃ m e, sf_log binary64 (multiply_add binary64) (S754_infinity false) = S754_finite false m e.
Proof. vm_compute. eauto. Qed.
