(* ===== verification/Basic.v ===== *)
(** EigenRand/Dists/Basic.h: the generators of random bits, of reals in a range
    and of Bernoulli trials, each with its scalar call and its packet
    operation. *)

From S2P Require Import Prelude.
From S2P Require Import Simd.
From S2P Require Import PacketMath.
From S2P Require Import FloatBits.
From S2P Require Import RandomEngine.
From S2P Require Import RandUtils.
From Stdlib Require Import SpecFloat.

(** ** Helpers *)

(** [ExtractFirstUint<float>] and [ExtractFirstUint<double>]. *)
Definition ExtractFirstUint_float `{EigenConversions} (v : random) : Z := pfirst v.
Definition ExtractFirstUint_double (v : random) : Z :=
  match v with
  | scalar_result _ x => x
  | packet_result r => nth 0 (storeu r) 0
  end.

(** [detail::BitWidth] and [detail::RngBitSize], for an engine class whose
    packets have [packet_bytes] bytes. *)
Fixpoint BitWidth_fuel (fuel : nat) (v : Z) : Z :=
  match fuel with
  | O => 0
  | S fuel => if v =? 0 then 0 else BitWidth_fuel fuel (v / 2) + 1
  end.
Definition BitWidth (v : Z) : Z := BitWidth_fuel 64 v.

Definition RngBitSize (packet_bytes : Z) (c : engine_class) : Z :=
  if IsPacketRandomEngine c then packet_bytes * 8
  else if (RandomEngine.emin c =? 0) && (Z.land (RandomEngine.emax c) (u64 (RandomEngine.emax c + 1)) =? 0)
  then BitWidth (RandomEngine.emax c) else 0.

(** The arithmetic of [_Scalar] ([float] or [double]). *)
Definition fmul_s (f : format) := SFmul (prec f) (FloatBits.emax f).
Definition fadd_s (f : format) := SFadd (prec f) (FloatBits.emax f).
Definition fsub_s (f : format) := SFsub (prec f) (FloatBits.emax f).
Definition fdiv_s (f : format) := SFdiv (prec f) (FloatBits.emax f).

(** [BitScalar<_Scalar>{}.to_ur(x)] converts its argument to the unsigned
    integer of the size of [_Scalar]. *)
Definition to_uint (f : format) (x : Z) : Z := x mod 2 ^ (mant f + expo f + 1).

Section Code.
Context {R : Type} `{Rng R} `{EigenPackets} `{EigenFloatPackets} `{EigenArithmetic} `{EigenConversions}.

(** The bits and the numbers of a packet operation, from the [RawbitsMaker] for
    the packet and the engine. *)
Context (rawbits : R → outcome (list Z * R)).

(** ** RandbitsGen *)

Definition Randbits_call (rng : R) : outcome (Z * R) :=
  '(x, rng) ← rng_call rng; Ret (i32 (pfirst x), rng).
Definition Randbits_packetOp (rng : R) : outcome (list Z * R) := rawbits rng.

Section Scalar.
Context (f : format) (zero_to_one uniform_real : R → outcome (list spec_float * R)).

(** ** BalancedGen, Balanced2Gen, BalancedVGen *)

(** [(_Scalar)((int32_t)pfirst(rng()) & 0x7FFFFFFF) / 0x7FFFFFFF]. *)
Definition unit_scalar (x : random) : spec_float :=
  fdiv_s f (of_int f (Z.land (i32 (pfirst x)) 0x7FFFFFFF)) (of_int f 0x7FFFFFFF).

Definition Balanced_call (rng : R) : outcome (spec_float * R) :=
  '(x, rng) ← rng_call rng;
  Ret (fsub_s f (fmul_s f (unit_scalar x) (of_int f 2)) (of_int f 1), rng).
Definition Balanced_packetOp (rng : R) : outcome (list spec_float * R) :=
  '(u, rng) ← zero_to_one rng; Ret (balanced f u, rng).

Record Balanced2Gen := mk_balanced2 { b2_slope : spec_float; b2_bias : spec_float }.
Definition Balanced2_create (_a _b : spec_float) : Balanced2Gen := mk_balanced2 (fsub_s f _b _a) _a.
Definition Balanced2_call (g : Balanced2Gen) (rng : R) : outcome (spec_float * R) :=
  '(x, rng) ← rng_call rng;
  Ret (fadd_s f (fmul_s f (unit_scalar x) (b2_slope g)) (b2_bias g), rng).
Definition Balanced2_packetOp (g : Balanced2Gen) (rng : R) : outcome (list spec_float * R) :=
  '(u, rng) ← zero_to_one rng; Ret (balanced2 f u (b2_slope g) (b2_bias g), rng).

Definition BalancedV_call (rng : R) (a b : spec_float) : outcome (spec_float * R) :=
  '(x, rng) ← rng_call rng; Ret (fadd_s f (fmul_s f (unit_scalar x) (fsub_s f b a)) a, rng).
Definition BalancedV_packetOp (rng : R) (a b : list spec_float) : outcome (list spec_float * R) :=
  '(u, rng) ← zero_to_one rng; Ret (paddf f (pmul f u (psubf f b a)) a, rng).

(** ** StdUniformRealGen *)

(** [operator()] for an engine with at least as many bits as the scalar. *)
Definition ExtractFirstUint (v : random) : Z :=
  if mant f =? 23 then ExtractFirstUint_float v else ExtractFirstUint_double v.
Definition StdUniformReal_call (rng : R) : outcome (spec_float * R) :=
  '(x, rng) ← rng_call rng; Ret (to_ur f (to_uint f (ExtractFirstUint x)), rng).

(** [operator()] of a [double] for an engine with fewer bits ([bits] is its
    RngBitSize): two 32-bit results, or one 64-bit result, read as an integer. *)
Definition StdUniformReal_call_small (bits : Z) (rng : R) : outcome (spec_float * R) :=
  '(xs, rng) ← calls (if bits =? 32 then 2 else 1) rng;
  match as_integer <$> xs with
  | [a; b] => Ret (to_ur f (to_uint f (u32 a + 2 ^ 32 * u32 b)), rng)
  | [a] => Ret (to_ur f (to_uint f (u64 a)), rng)
  | _ => Undef null_dereference
  end.

(** [nzur_scalar] likewise; the second one reads the two results as a [double]
    and converts its value to an integer. *)
Definition StdUniformReal_nzur (rng : R) : outcome (spec_float * R) :=
  '(x, rng) ← rng_call rng; Ret (to_nzur f (to_uint f (ExtractFirstUint x)), rng).

Definition truncate (v : spec_float) : outcome Z :=
  match v with
  | S754_zero _ => Ret 0
  | S754_finite s m e =>
      let a := if 0 <=? e then Z.pos m * 2 ^ e else Z.pos m / 2 ^ (- e) in
      let z := if s then - a else a in
      if (0 <=? z) && (z <? 2 ^ 64) then Ret z else Undef float_to_int_range
  | S754_infinity _ | S754_nan => Undef float_to_int_range
  end.
Definition StdUniformReal_nzur_small (rng : R) : outcome (spec_float * R) :=
  '(xs, rng) ← calls 2 rng;
  match u32 ∘ as_integer <$> xs with
  | [a; b] => x ← truncate (of_bits f (a + 2 ^ 32 * b)); Ret (to_nzur f x, rng)
  | _ => Undef null_dereference
  end.

Definition StdUniformReal_packetOp (rng : R) : outcome (list spec_float * R) := uniform_real rng.

(** ** UniformRealGen, UniformRealVGen *)

Record UniformRealGen := mk_uniform { ur_bias : spec_float; ur_slope : spec_float }.
Definition UniformReal_create (_min _max : spec_float) : UniformRealGen :=
  mk_uniform _min (fsub_s f _max _min).
Definition UniformReal_call (g : UniformRealGen) (rng : R) : outcome (spec_float * R) :=
  '(x, rng) ← rng_call rng;
  Ret (fadd_s f (ur_bias g) (fmul_s f (to_ur f (to_uint f (pfirst x))) (ur_slope g)), rng).
Definition UniformReal_packetOp (g : UniformRealGen) (rng : R) : outcome (list spec_float * R) :=
  '(u, rng) ← uniform_real rng;
  let n := length u in
  Ret (paddf f (pmul f u (replicate n (ur_slope g))) (replicate n (ur_bias g)), rng).

Definition UniformRealV_call (rng : R) (a b : spec_float) : outcome (spec_float * R) :=
  '(x, rng) ← rng_call rng;
  Ret (fadd_s f a (fmul_s f (to_ur f (to_uint f (pfirst x))) (fsub_s f b a)), rng).
Definition UniformRealV_packetOp (rng : R) (a b : list spec_float) : outcome (list spec_float * R) :=
  '(u, rng) ← uniform_real rng; Ret (paddf f (pmul f u (psubf f b a)) a, rng).

End Scalar.

(** ** BernoulliGen, BernoulliVGen *)

Section Bernoulli.
Context (pcmplt : list Z → list Z → list Z) (pblendv : list Z → list Z → list Z → list Z).

(** A probability scaled to 31 bits, [(uint32_t)(_p * 0x80000000)]. *)
Definition to_p (f : format) (_p : spec_float) : outcome Z :=
  match fmul_s f _p (of_int f 0x80000000) with
  | S754_zero _ => Ret 0
  | S754_finite s m e =>
      let a := if 0 <=? e then Z.pos m * 2 ^ e else Z.pos m / 2 ^ (- e) in
      if (if s then a =? 0 else a <? 2 ^ 32) then Ret (if s then 0 else a) else Undef float_to_int_range
  | S754_infinity _ | S754_nan => Undef float_to_int_range
  end.

Definition Bernoulli_create (_p : spec_float) : outcome Z :=
  if SFleb (S754_zero false) _p && SFleb _p (of_int binary64 1) then to_p binary64 _p
  else Undef eigen_assertion.

(** The scalar call, and the packet operation for [Packet = Packet4i]; for other
    packets [one] and [zero] are the numbers of their type. *)
Definition Bernoulli_call (p : Z) (rng : R) : outcome (Z * R) :=
  '(x, rng) ← rng_call rng;
  Ret (if Z.land (u32 (pfirst x)) 0x7FFFFFFF <? p then 1 else 0, rng).
Definition Bernoulli_packetOp (p : Z) (rng : R) : outcome (list Z * R) :=
  '(r, rng) ← rawbits rng;
  let n := length r in
  let one := pset1 n 1 in
  let zero := pset1 n 0 in
  let r := pand r (pset1 n 0x7FFFFFFF) in
  Ret (pblendv (pcmplt r (pset1 n p)) one zero, rng).

(** The same for a probability of each coefficient; the packet operation for
    packets of [float]s. *)
Definition BernoulliV_call (f : format) (rng : R) (a : spec_float) : outcome (Z * R) :=
  p ← to_p f a; Bernoulli_call p rng.
Definition BernoulliV_packetOp (rng : R) (a : list spec_float) : outcome (list Z * R) :=
  let p := pcast (pmul binary32 a (replicate (length a) (of_int binary32 0x80000000))) in
  '(r, rng) ← rawbits rng;
  let n := length r in
  let r := pand r (pset1 n 0x7FFFFFFF) in
  Ret (pblendv (pcmplt r p) (pset1 n 1) (pset1 n 0), rng).

End Bernoulli.
End Code.
