(* ===== verification/BasicProps.v ===== *)
(** The generators of Dists/Basic.h: where the scalar calls and the packet
    operations agree, and where they do not. *)

From S2P Require Import Prelude.
From S2P Require Import Simd.
From S2P Require Import PacketMath.
From S2P Require Import PacketMathProps.
From S2P Require Import FloatBits.
From S2P Require Import FloatBitsProps.
From S2P Require Import RandomEngine.
From S2P Require Import RandUtils.
From S2P Require Import Basic.
From Stdlib Require Import SpecFloat.

(** ** Bernoulli trials *)

(** What the code relies on of [pcmplt] and [pblendv] for a packet type: a
    signed comparison, and selection by whole-lane masks. *)
Definition compares (pcmplt : list Z → list Z → list Z) (n : nat) : Prop :=
  ∀ a b, register n a → register n b → pcmplt a b = cmpgt_epi32 b a.
Definition blends (pblendv : list Z → list Z → list Z → list Z) (n : nat) : Prop :=
  ∀ bs t e, length bs = (2 * n)%nat → register n t → register n e →
    pblendv (mask 32 <$> bs) t e = select bs t e.

Lemma sse_blends fx : blends (SSE.pblendv fx) 2.
Proof.
  intros bs t e Hl Ht He. unfold SSE.pblendv. destruct (sse4_1 fx).
  - apply blendv_select; rewrite Hl; symmetry; [apply Ht|apply He].
  - by apply (or_and_select 2).
Qed.

Lemma avx_blends : blends AVX.pblendv 4.
Proof.
  intros bs t e Hl Ht He. unfold AVX.pblendv.
  apply blendv_select; rewrite Hl; symmetry; [apply Ht|apply He].
Qed.

(** The value of a trial for a random word, in the scalar call. *)
Definition trial (p x : Z) : Z := if Z.land x 0x7FFFFFFF <? p then 1 else 0.

Lemma select_fmap {A} (f : A → bool) (l : list A) k a b :
  length l = k → select (f <$> l) (replicate k a) (replicate k b) = (λ x, if f x then a else b) <$> l.
Proof. intros <-. unfold select. induction l as [|x l IH]; [done|]. cbn. by f_equal. Qed.

Lemma low31 x : Z.land x 0x7FFFFFFF = x mod 2 ^ 31.
Proof. change 0x7FFFFFFF with (Z.ones 31). by apply Z.land_ones. Qed.

Section Bernoulli.
Context {R : Type} `{Rng R} `{EigenPackets} `{!EigenPacketLaws} `{EigenConversions}.
Context (n : nat) (rawbits : R → outcome (list Z * R))
  (pcmplt : list Z → list Z → list Z) (pblendv : list Z → list Z → list Z → list Z).
Context (Hcmp : compares pcmplt n) (Hblend : blends pblendv n).

Lemma bernoulli_lanes p r :
  0 <= p < 2 ^ 32 → register n r →
  pblendv (pcmplt (pand r (pset1 (length r) 0x7FFFFFFF)) (pset1 (length r) p))
    (pset1 (length r) 1) (pset1 (length r) 0) =
    (λ x, if p <? 2 ^ 31 then trial p x else 0) <$> r.
Proof.
  intros Hp Hr. rewrite (register_length _ _ Hr), !pset1_lanes.
  rewrite (pand_lanes n), Hcmp by (done || apply set1_register32 || by apply mask_register).
  unfold cmpgt_epi32, and_si, set1_epi32. rewrite u32_id by done.
  rewrite (zip_with_replicate_r_eq _ r) by apply Hr.
  assert (∀ (f : Z → Z → Z) y l, length l = (2 * n)%nat →
    zip_with f (replicate (2 * n) y) l = (λ x, f y x) <$> l) as Hz.
  { intros f y l <-. clear. induction l; simpl; by f_equal. }
  rewrite Hz by (rewrite length_fmap; apply Hr). rewrite <-list_fmap_compose.
  set (c := λ x, signed 32 (Z.land x 0x7FFFFFFF) <? signed 32 p).
  transitivity (pblendv (mask 32 <$> (c <$> r)) (replicate (2 * n) (u32 1)) (replicate (2 * n) (u32 0)));
    [by rewrite <-list_fmap_compose|].
  rewrite Hblend by (apply set1_register32 || (rewrite length_fmap; apply Hr)).
  rewrite select_fmap by apply Hr. apply list_fmap_ext. intros i x _. unfold c, trial.
  assert (signed 32 (Z.land x 0x7FFFFFFF) = Z.land x 0x7FFFFFFF) as ->.
  { unfold signed. rewrite low31. pose proof (Z.mod_pos_bound x (2 ^ 31)).
    by rewrite (proj2 (Z.ltb_lt _ _)) by lia. }
  unfold signed. change (2 ^ (32 - 1)) with (2 ^ 31). destruct (p <? 2 ^ 31); [done|].
  rewrite low31. pose proof (Z.mod_pos_bound x (2 ^ 31)).
  by rewrite (proj2 (Z.ltb_ge _ _)) by lia.
Qed.

(** For a probability below 1, the packet operation of [BernoulliGen] gives in
    every lane the trial that the scalar call gives for the same random word.
    For probability 1 the threshold is 2^31, which the packet operation reads
    as a negative number: every lane is 0, although the scalar call always
    gives 1. *)
Theorem bernoulli_packets p rng r rng' :
  0 <= p <= 2 ^ 31 → rawbits rng = Ret (r, rng') → register n r →
  Bernoulli_packetOp rawbits pcmplt pblendv p rng =
    Ret ((if p =? 2 ^ 31 then λ _, 0 else trial p) <$> r, rng') ∧
  (∀ x rng1 rng2, rng_call rng1 = Ret (x, rng2) →
     Bernoulli_call p rng1 = Ret (trial p (u32 (pfirst x)), rng2)) ∧
  (∀ x, 0 <= x → trial (2 ^ 31) x = 1) ∧
  Bernoulli_create (of_int binary64 1) = Ret (2 ^ 31).
Proof.
  intros Hp Hraw Hr. split_and!.
  - unfold Bernoulli_packetOp. rewrite Hraw. cbn [mbind outcome_bind].
    rewrite bernoulli_lanes by (done || lia). do 3 f_equal.
    destruct (Z.eqb_spec p (2 ^ 31)) as [->|]; [done|]. by rewrite (proj2 (Z.ltb_lt _ _)) by lia.
  - intros x rng1 rng2 Hx. unfold Bernoulli_call. by rewrite Hx.
  - intros x _. unfold trial. rewrite low31. pose proof (Z.mod_pos_bound x (2 ^ 31)).
    by rewrite (proj2 (Z.ltb_lt _ _)) by lia.
  - vm_compute. reflexivity.
Qed.

End Bernoulli.

(** ** Uniform reals *)

Section Uniform.
Context {R : Type} `{Rng R} `{EigenConversions} `{!EigenConversionLaws}.

(** The scalar call of [UniformRealGen<double>] on an engine of packets uses the
    first 32 bits of a packet, extended by their sign, as the mantissa: its
    values lie in the lowest or the highest 2^-21 of [0, 1).  The packet
    operation and [StdUniformRealGen], which take 64 bits, reach every multiple
    of 2^-52. *)
Theorem uniform_real_tail rng r rng' :
  rng_call rng = Ret (packet_result r, rng') → register 2 r →
  let v := to_ur binary64 (to_uint binary64 (pfirst (packet_result r))) in
  UniformReal_call binary64 (UniformReal_create binary64 (of_int binary64 0) (of_int binary64 1)) rng =
    Ret (fadd_s binary64 (of_int binary64 0) (fmul_s binary64 v (fone binary64)), rng') ∧
  (∃ m, is_num v m (-52) ∧ (0 <= m < 2 ^ 31 ∨ 2 ^ 52 - 2 ^ 31 <= m < 2 ^ 52)) ∧
  StdUniformReal_call binary64 rng = Ret (to_ur binary64 (nth 0 (to64 r) 0), rng').
Proof.
  intros Hrng Hr. cbv zeta. split_and!.
  - unfold UniformReal_call. rewrite Hrng. reflexivity.
  - eexists. split; [apply to_ur_num; by right|]. cbn [pfirst mant binary64].
    rewrite pfirst_lane by (intros ->; by destruct Hr).
    pose proof (word_lane 2 r 0 Hr) as Hw. unfold word in Hw.
    unfold to_uint. cbn [mant expo binary64]. change (52 + 11 + 1) with 64.
    unfold signed. change (2 ^ (32 - 1)) with (2 ^ 31). destruct (Z.ltb_spec (lane r 0) (2 ^ 31)).
    + left. rewrite (Z.mod_small _ (2 ^ 64)), Z.mod_small by lia. lia.
    + right. rewrite <-(Z.mod_unique (lane r 0 - 2 ^ 32) (2 ^ 64) (-1) (lane r 0 - 2 ^ 32 + 2 ^ 64)) by lia.
      rewrite <-(Z.mod_unique _ (2 ^ 52) (2 ^ 12 - 1) (lane r 0 - 2 ^ 32 + 2 ^ 52)) by lia. lia.
  - unfold StdUniformReal_call. rewrite Hrng. cbn [mbind outcome_bind]. do 2 f_equal.
    unfold ExtractFirstUint, ExtractFirstUint_double, to_uint. cbn [mant expo binary64].
    change (23 =? 52) with false. cbn [storeu]. f_equal. apply Z.mod_small.
    pose proof (to64_words 2 r Hr) as Hw. destruct (to64 r) as [|x l]; [cbn; lia|].
    by apply Forall_cons in Hw as [Hw _].
Qed.

(** The fields of a double given as two words. *)
Lemma double_fields a b :
  word 32 a → 0 <= b < 2 ^ 31 →
  let x := a + 2 ^ 32 * b in
  Z.testbit x 63 = false ∧ (x / 2 ^ 52) mod 2 ^ 11 = b / 2 ^ 20 ∧ 0 <= x mod 2 ^ 52 < 2 ^ 52.
Proof.
  intros Ha Hb x. unfold word in Ha.
  assert (0 <= x < 2 ^ 63) as Hx by (unfold x; lia).
  assert (x / 2 ^ 52 = b / 2 ^ 20) as Hd.
  { change (2 ^ 52) with (2 ^ 32 * 2 ^ 20). rewrite <-Z.div_div by lia. f_equal.
    unfold x. rewrite Z.mul_comm, Z.div_add, Z.div_small by lia. lia. }
  split_and!; [|rewrite Hd; apply Z.mod_small|apply Z.mod_pos_bound; lia..].
  - apply (word_bits 63) in Hx as [_ Hx]; [|lia]. apply Hx. lia.
  - split; [apply Z.div_pos; lia|]. apply Z.div_lt_upper_bound; lia.
Qed.

Lemma truncate_small s p e k : 0 <= k → e = - k → Z.pos p < 2 ^ k → 
  truncate (S754_finite s p e) = Ret 0.
Proof.
  intros Hk -> Hp. unfold truncate. destruct (Z.leb_spec 0 (- k)).
  - assert (k = 0) as -> by lia. change (2 ^ 0) with 1 in Hp. lia.
  - rewrite Z.opp_involutive, Z.div_small by lia. by destruct s.
Qed.

Lemma truncate_below_one a b :
  word 32 a → 0 <= b < 0x3FF00000 → truncate (of_bits binary64 (a + 2 ^ 32 * b)) = Ret 0.
Proof.
  intros Ha Hb. destruct (double_fields a b Ha ltac:(lia)) as (_ & He & Hm).
  unfold of_bits. cbn [mant expo binary64]. rewrite He.
  assert (0 <= b / 2 ^ 20 < 1023) as Hq.
  { split; [apply Z.div_pos; lia|]. apply Z.div_lt_upper_bound; lia. }
  rewrite (proj2 (Z.eqb_neq (b / 2 ^ 20) (2 ^ 11 - 1))) by lia.
  destruct (b / 2 ^ 20 =? 0).
  - destruct ((a + 2 ^ 32 * b) mod 2 ^ 52) as [|p|p] eqn:E; [done| |done].
    apply (truncate_small _ _ _ 1074); [lia|done|].
    apply Z.lt_trans with (2 ^ 52); [lia|]. apply Z.pow_lt_mono_r; lia.
  - destruct ((a + 2 ^ 32 * b) mod 2 ^ 52 + 2 ^ 52) as [|p|p] eqn:E; [done| |done].
    apply (truncate_small _ _ _ (1075 - b / 2 ^ 20)); [lia| |].
    + change (bias binary64) with 1023. lia.
    + apply Z.lt_le_trans with (2 ^ 53); [lia|]. apply Z.pow_le_mono_r; lia.
Qed.

(** [nzur_scalar] of a [double] from a 32-bit engine reads two results as a
    [double] and uses its value, truncated to an integer: whenever the second
    result is below 0x3FF00000, a quarter of the cases, that integer is 0 and
    the result is the same constant; when it is 0x7FF00000 or more, up to
    0x7FFFFFFF, the conversion is undefined. *)
Theorem nzur_small_engine rng a b rng1 rng2 :
  rng_call rng = Ret (scalar_result 4 a, rng1) → rng_call rng1 = Ret (scalar_result 4 b, rng2) →
  word 32 a → word 32 b →
  (b < 0x3FF00000 → StdUniformReal_nzur_small binary64 rng = Ret (to_nzur binary64 0, rng2)) ∧
  (0x7FF00000 <= b < 0x80000000 →
     StdUniformReal_nzur_small binary64 rng = Undef float_to_int_range).
Proof.
  intros Ha Hb Hwa Hwb. unfold StdUniformReal_nzur_small. cbn [calls]. rewrite Ha.
  cbn [mbind outcome_bind]. rewrite Hb. cbn [mbind outcome_bind fmap list_fmap compose as_integer].
  rewrite !u32_id by done. unfold word in Hwb. split; intros Hr.
  - rewrite truncate_below_one by (done || lia). reflexivity.
  - destruct (double_fields a b Hwa ltac:(lia)) as (_ & He & Hm).
    unfold of_bits. cbn [mant expo binary64]. rewrite He.
    assert (b / 2 ^ 20 = 2047) as -> by (symmetry; apply (Z.div_unique _ _ _ (b - 2047 * 2 ^ 20)); lia).
    change (2047 =? 2 ^ 11 - 1) with true. by destruct (_ =? 0).
Qed.

End Uniform.

(** ** Witnesses *)

#[local] Existing Instance recorded_rng.

#[local] Instance first_lane : EigenConversions :=
  {| pfirst_packet r := signed 32 (lane r 0); pcast l := replicate (length l) 0 |}.
#[local] Instance first_lane_laws : EigenConversionLaws.
Proof. by split. Qed.

Definition take_packet (l : list random) : outcome (list Z * list random) :=
  '(x, l) ← rng_call l; Ret (as_packet x, l).

(** With probability 1/2 the lanes of a packet are the trials of its words; with
    probability 1 they are 0. *)
Lemma bernoulli_packets_witness :
  Bernoulli_packetOp (H0 := instructions) take_packet cmplt_epi32 (SSE.pblendv (mk_features true true true true))
    (2 ^ 30) [packet_result [5; 2 ^ 30; 2 ^ 31; 7]] = Ret ([1; 0; 1; 1], []) ∧
  Bernoulli_packetOp (H0 := instructions) take_packet cmplt_epi32 (SSE.pblendv (mk_features true true true true))
    (2 ^ 31) [packet_result [5; 2 ^ 30; 2 ^ 31; 7]] = Ret ([0; 0; 0; 0], []).
Proof.
  assert (register 2 [5; 2 ^ 30; 2 ^ 31; 7]) as Hr by (split; [done|]; repeat constructor; unfold word; lia).
  assert (compares cmplt_epi32 2) as Hc by done.
  pose proof (sse_blends (mk_features true true true true)) as Hb.
  split;
    refine (proj1 (bernoulli_packets (H0 := instructions) (H1 := instructions_laws) 2
      take_packet _ _ Hc Hb _ [packet_result [5; 2 ^ 30; 2 ^ 31; 7]] _ [] _ eq_refl Hr)); lia.
Defined.

Lemma uniform_real_tail_witness :
  StdUniformReal_call binary64 [packet_result [7; 9; 1; 2]] = Ret (to_ur binary64 (7 + 2 ^ 32 * 9), []).
Proof.
  refine (proj2 (proj2 (uniform_real_tail [packet_result [7; 9; 1; 2]] [7; 9; 1; 2] [] _ _)));
    [done|]. split; [done|]. repeat constructor; unfold word; lia.
Defined.

Lemma nzur_small_engine_witness :
  StdUniformReal_nzur_small binary64 [scalar_result 4 5; scalar_result 4 0x3F000000] =
    Ret (to_nzur binary64 0, []) ∧
  StdUniformReal_nzur_small binary64 [scalar_result 4 5; scalar_result 4 0x7FF00000] =
    Undef float_to_int_range.
Proof.
  split.
  - refine (proj1 (nzur_small_engine [scalar_result 4 5; scalar_result 4 0x3F000000] 5 0x3F000000
      [scalar_result 4 0x3F000000] [] _ _ _ _) _); done || (unfold word; lia).
  - refine (proj2 (nzur_small_engine [scalar_result 4 5; scalar_result 4 0x7FF00000] 5 0x7FF00000
      [scalar_result 4 0x7FF00000] [] _ _ _ _) _); done || (unfold word; lia).
Defined.
