(* ===== verification/Alias.v ===== *)
(** EigenRand/Dists/Discrete.h: [AliasMethod], the table for drawing from a
    finite distribution in constant time, over any arithmetic and any type of
    the stored probabilities. *)

From S2P Require Import Prelude.
From S2P Require Import Num.

(** ** Parameters *)

(** [(size_t)std::ceil(std::log2(n))].  The rounding of the library's logarithm
    is its own; up to 2^32 any reasonable one gives the exact number of bits. *)
Class CeilLog2 := { ceil_log2 : Z → outcome Z }.
Class CeilLog2Laws `{CeilLog2} := {
  ceil_log2_exact : ∀ n, 1 <= n <= 2 ^ 32 → ceil_log2 n = Ret (Z.log2_up n);
}.

Definition exact_log2 : CeilLog2 :=
  {| ceil_log2 n := if 1 <=? n then Ret (Z.log2_up n) else Undef float_to_int_range |}.
Lemma exact_log2_laws : @CeilLog2Laws exact_log2.
Proof. split. intros n Hn. cbn. by rewrite (proj2 (Z.leb_le _ _)) by lia. Qed.

(** The type [_Precision] of the stored probabilities: its zero, the conversion
    of a probability below 1 ([arr[i] = ...] of the loop), and the value stored
    for probability 1. *)
Class Precision (F P : Type) := {
  zero : P;
  to_precision : F → outcome P;
  whole : P;
}.

(** An integral type with maximum [max]: [(_Precision)(x * (max + 1.0))]. *)
Definition integral_precision {F} `{Num F} (min max : Z) : Precision F Z := {|
  zero := 0;
  to_precision x :=
    match ftrunc (fmul x (fadd (of_Z max) (of_Z 1))) with
    | Some z => if (min <=? z) && (z <=? max) then Ret z else Undef float_to_int_range
    | None => Undef float_to_int_range
    end;
  whole := max;
|}.

(** A floating-point type, with the conversion to it. *)
Definition floating_precision {F P} `{Num P} (round : F → P) : Precision F P :=
  {| zero := of_Z 0; to_precision x := Ret (round x); whole := of_Z 1 |}.

(** ** AliasMethod *)

Module AliasMethod.
Section Code.
Context {F P : Type} `{Num F} `{CeilLog2} `{Precision F P}.

(** [arr] and [alias] are [None] when null; an element of [alias] is [None]
    until it is written. *)
Record t := mk {
  arr : option (list P);
  alias : option (list (option Z));
  msize : Z;
  bitsize : Z;
  bitmask : Z;
}.

Definition create : t := mk None None 0 0 0.

(** The copy assignment to [x]; both constructors from an [AliasMethod] use it,
    the one for an rvalue too, whose parameter is an lvalue in its body. *)
Definition assign_copy (x o : t) : outcome t :=
  if msize o =? 0 then Ret (mk (arr x) (alias x) (msize o) (bitsize o) (bitmask o))
  else
    match arr o, alias o with
    | Some a, Some l =>
        let n := Z.to_nat (Z.shiftl 1 (bitsize o)) in
        Ret (mk (Some (take n a)) (Some (take n l)) (msize o) (bitsize o) (bitmask o))
    | _, _ => Undef null_dereference
    end.
Definition copy (o : t) : outcome t := assign_copy create o.
Definition move (o : t) : outcome t := assign_copy create o.

(** The move assignment exchanges the arrays and copies the numbers: the result
    is the object and what is left of [o]. *)
Definition assign_move (x o : t) : t * t :=
  (mk (arr o) (alias o) (msize o) (bitsize o) (bitmask o),
   mk (arr x) (alias x) (msize o) (bitsize o) (bitmask o)).

(** *** buildTable *)

Definition isfinite (x : F) : bool := bool_decide (is_Some (ftrunc x)).

(** The arrays of the right size: new ones unless the number of bits is the one
    the object has. *)
Definition allocate (nbsize : Z) (s : t) : outcome t :=
  if nbsize =? bitsize s then Ret s
  else
    let psize := Z.to_nat (Z.shiftl 1 nbsize) in
    if nbsize =? 0 then Undef shift_out_of_range
    else Ret (mk (Some (replicate psize zero)) (Some (replicate psize None)) (msize s) nbsize
                (Z.shiftr (2 ^ 64 - 1) (64 - nbsize))).

(** [for (; i < psize && p(f[i]); ++i)]. *)
Fixpoint skip (p : F → bool) (f : list F) (psize : Z) (fuel : nat) (i : Z) : outcome Z :=
  if i <? psize then
    x ← array_get f i;
    if p x then match fuel with O => OutOfFuel | S fuel => skip p f psize fuel (i + 1) end
    else Ret i
  else Ret i.

Definition below_one (x : F) : bool := fltb x (of_Z 1).
Definition from_one (x : F) : bool := fleb (of_Z 1) x.

(** An assignment to an element of an array that may be null. *)
Definition write {A} (a : option (list A)) (i : Z) (x : A) : outcome (option (list A)) :=
  match a with
  | Some l => l ← array_set l i x; Ret (Some l)
  | None => Undef null_dereference
  end.
Definition put (s : t) (i : Z) (p : P) (j : Z) : outcome t :=
  a ← write (arr s) i p;
  l ← write (alias s) i (Some j);
  Ret (mk a l (msize s) (bitsize s) (bitmask s)).

(** The local variables of the loops. *)
Record locals := mk_locals { pf : list F; over : Z; under : Z; mm : Z }.

(** One iteration of [while (over < psize && under < psize)]. *)
Definition step (psize : Z) (v : locals) (s : t) : outcome (locals * t) :=
  fu ← array_get (pf v) (under v);
  p ← to_precision fu;
  s ← put s (under v) p (over v);
  fo ← array_get (pf v) (over v);
  let fo := fadd fo (fsub fu (of_Z 1)) in
  f' ← array_set (pf v) (over v) fo;
  let fuel := Z.to_nat psize in
  '(under, mm) ←
    (if from_one fo || (mm v <=? over v) then
       u ← skip from_one f' psize fuel (mm v); Ret (u, u + 1)
     else Ret (over v, mm v));
  over ← skip below_one f' psize fuel (over v);
  Ret (mk_locals f' over under mm, s).

Fixpoint pair_loop (psize : Z) (fuel : nat) (v : locals) (s : t) : outcome (locals * t) :=
  if (over v <? psize) && (under v <? psize) then
    match fuel with
    | O => OutOfFuel
    | S fuel => '(v, s) ← step psize v s; pair_loop psize fuel v s
    end
  else Ret (v, s).

(** [for (; i < n; ++i) if (p(f[i])) { arr[i] = max; alias[i] = i; }]. *)
Fixpoint fill_loop (p : F → bool) (f : list F) (n : Z) (fuel : nat) (i : Z) (s : t) : outcome t :=
  if i <? n then
    match fuel with
    | O => OutOfFuel
    | S fuel =>
        x ← array_get f i;
        s ← (if p x then put s i whole i else Ret s);
        fill_loop p f n fuel (i + 1) s
    end
  else Ret s.

(** The tables from the scaled weights [f]. *)
Definition pair (psize : Z) (f : list F) (s : t) : outcome t :=
  let fuel := Z.to_nat psize in
  over0 ← skip below_one f psize fuel 0;
  under0 ← skip from_one f psize fuel 0;
  '(v, s) ← pair_loop psize fuel (mk_locals f over0 under0 (under0 + 1)) s;
  s ← fill_loop from_one (pf v) psize fuel (over v) s;
  if under v <? psize then
    s ← put s (under v) whole (under v);
    fill_loop below_one (pf v) (msize s) fuel (mm v) s
  else Ret s.

Definition buildTable (w : list F) : M t unit := λ s,
  let s := mk (arr s) (alias s) (Z.of_nat (length w)) (bitsize s) (bitmask s) in
  let sum := foldl fadd (of_Z 0) w in
  if negb (isfinite sum) then (Throw (invalid_argument "cannot build NaN value distribution"), s)
  else
    let o :=
      nbsize ← ceil_log2 (msize s);
      let psize := Z.shiftl 1 nbsize in
      s ← allocate nbsize s;
      let sum := fdiv sum (of_Z psize) in
      let f := ((λ x, fdiv x sum) <$> w) ++ replicate (Z.to_nat psize - length w) (of_Z 0) in
      pair psize f s in
    match o with
    | Ret s => (Ret tt, s)
    | Throw e => (Throw e, s)
    | Undef u => (Undef u, s)
    | OutOfFuel => (OutOfFuel, s)
    end.

(** The constructor from a range. *)
Definition of_weights (w : list F) : outcome t :=
  match buildTable w create with
  | (Ret _, s) => Ret s
  | (Throw e, _) => Throw e
  | (Undef u, _) => Undef u
  | (OutOfFuel, _) => OutOfFuel
  end.

Definition get_bitsize (s : t) : Z := bitsize s.
Definition get_bitmask (s : t) : Z := bitmask s.
Definition get_prob (s : t) (i : Z) : outcome P :=
  match arr s with Some a => array_get a i | None => Undef null_dereference end.
Definition get_alias (s : t) (i : Z) : outcome Z :=
  match alias s with
  | Some l =>
      x ← array_get l i; match x with Some j => Ret j | None => Undef indeterminate_value end
  | None => Undef null_dereference
  end.

End Code.
End AliasMethod.

#[global] Arguments AliasMethod.t P : clear implicits.
#[global] Arguments AliasMethod.locals F : clear implicits.

(** The table of three weights, in binary64 with 31-bit probabilities: 1/6, 2/6
    and 3/6 of the draws.  Weights of zero only give a conversion of NaN. *)
Example alias_three :
  AliasMethod.of_weights (H0 := exact_log2) (H1 := integral_precision (- 2 ^ 31) (2 ^ 31 - 1))
    (b64_of_Z <$> [1; 2; 3]) =
    Ret (AliasMethod.mk (Some [1431655765; 2 ^ 31 - 1; 2 ^ 31 - 1; 0])
           (Some [Some 1; Some 2; Some 2; Some 2]) 3 2 3) ∧
  AliasMethod.of_weights (H0 := exact_log2) (H1 := integral_precision (- 2 ^ 31) (2 ^ 31 - 1))
    (b64_of_Z <$> [0; 0]) = Undef float_to_int_range.
Proof. split; vm_compute; reflexivity. Qed.
