(* ===== verification/AliasProps.v ===== *)
(** The alias table is correct: in exact arithmetic a draw from it has the
    distribution of the weights. *)

From S2P Require Import Prelude.
From S2P Require Import Num.
From S2P Require Import NumR.
From S2P Require Import Alias.
From Stdlib Require Import Reals Lra.

#[local] Open Scope R_scope.

(** ** Lists of numbers as functions *)

Definition at_ (f : list R) (j : nat) : R := nth j f 0.

Lemma at_get f j : (j < length f)%nat → array_get f (Z.of_nat j) = Ret (at_ f j).
Proof.
  intros Hj. apply array_get_ok; [lia|]. rewrite Nat2Z.id.
  destruct (lookup_lt_is_Some_2 f j Hj) as [x Hx]. rewrite Hx. f_equal. unfold at_.
  symmetry. by apply nth_lookup_Some.
Qed.

Lemma at_insert f o x j :
  (o < length f)%nat → at_ (<[o := x]> f) j = if decide (j = o) then x else at_ f j.
Proof.
  intros Ho. unfold at_. rewrite !nth_lookup. case_decide as E.
  - subst. by rewrite list_lookup_insert_eq.
  - by rewrite list_lookup_insert_ne.
Qed.

Lemma insert_get {A} (l : list A) u x :
  (u < length l)%nat → array_set l (Z.of_nat u) x = Ret (<[u := x]> l).
Proof. intros Hu. rewrite array_set_ok by lia. by rewrite Nat2Z.id. Qed.

Lemma Rabs_le_both x e : Rabs x <= e → - e <= x <= e.
Proof. unfold Rabs. destruct (Rcase_abs x); lra. Qed.

(** ** The loops *)

Section Exact.
Context {P : Type} `{CeilLog2} `{Precision R P}.

Lemma below_one_spec x : AliasMethod.below_one x = true ↔ x < 1.
Proof. apply (R_fltb_true x 1). Qed.
Lemma from_one_spec x : AliasMethod.from_one x = true ↔ 1 <= x.
Proof. apply (R_fleb_true 1 x). Qed.
Lemma from_one_false x : AliasMethod.from_one x = false ↔ x < 1.
Proof. apply (R_fleb_false 1 x). Qed.

(** A scan stops at the first index from [i] on where the predicate fails. *)
Lemma skip_ok (p : R → bool) f fuel i :
  (i <= length f)%nat → (length f <= i + fuel)%nat →
  ∃ k, AliasMethod.skip p f (Z.of_nat (length f)) fuel (Z.of_nat i) = Ret (Z.of_nat k) ∧
    (i <= k <= length f)%nat ∧ (∀ j, (i <= j < k)%nat → p (at_ f j) = true) ∧
    ((k < length f)%nat → p (at_ f k) = false).
Proof.
  revert i. induction fuel as [|fuel IH]; intros i Hi Hf.
  - exists i. cbn [AliasMethod.skip]. rewrite (proj2 (Z.ltb_ge _ _)) by lia.
    split_and!; done || lia.
  - cbn [AliasMethod.skip]. destruct (Z.ltb_spec (Z.of_nat i) (Z.of_nat (length f))) as [Hlt|].
    + rewrite at_get by lia. cbn [mbind outcome_bind]. destruct (p (at_ f i)) eqn:E.
      * replace (Z.of_nat i + 1)%Z with (Z.of_nat (S i)) by lia.
        destruct (IH (S i)) as (k & -> & Hk & Hall & Hend); [lia..|].
        exists k. split_and!; try done; try lia. intros j Hj.
        destruct (decide (j = i)) as [->|]; [done|]. apply Hall. lia.
      * exists i. split_and!; try done; lia.
    + exists i. split_and!; try done; lia.
Qed.

(** The arrays of a table. *)
Definition arrays (s : AliasMethod.t P) (N : nat) (a : list P) (l : list (option Z)) : Prop :=
  AliasMethod.arr s = Some a ∧ AliasMethod.alias s = Some l ∧ length a = N ∧ length l = N.

Definition with_arrays (s : AliasMethod.t P) (a : list P) (l : list (option Z)) :
    AliasMethod.t P :=
  AliasMethod.mk (Some a) (Some l) (AliasMethod.msize s) (AliasMethod.bitsize s)
    (AliasMethod.bitmask s).

Lemma put_ok s N a l u p j :
  arrays s N a l → (u < N)%nat →
  AliasMethod.put s (Z.of_nat u) p j = Ret (with_arrays s (<[u := p]> a) (<[u := Some j]> l)).
Proof.
  intros (Ha & Hl & Hla & Hll) Hu. unfold AliasMethod.put, AliasMethod.write. rewrite Ha, Hl.
  by rewrite !insert_get by lia.
Qed.

Lemma arrays_insert s N a l u p j :
  arrays s N a l → arrays (with_arrays s (<[u := p]> a) (<[u := Some j]> l)) N (<[u := p]> a) (<[u := Some j]> l).
Proof. intros (_ & _ & Ha & Hl). split_and!; [done|done|by rewrite length_insert..]. Qed.

(** The final loops write the indices where the predicate holds. *)
Lemma fill_ok (p : R → bool) f n fuel i s a l :
  arrays s (length f) a l → (n <= length f)%nat → (n <= i + fuel)%nat →
  ∃ a' l', AliasMethod.fill_loop p f (Z.of_nat n) fuel (Z.of_nat i) s = Ret (with_arrays s a' l') ∧
    arrays (with_arrays s a' l') (length f) a' l' ∧
    ∀ j, (j < length f)%nat →
      if bool_decide (i ≤ j < n)%nat && p (at_ f j)
      then a' !! j = Some whole ∧ l' !! j = Some (Some (Z.of_nat j))
      else a' !! j = a !! j ∧ l' !! j = l !! j.
Proof.
  revert i s a l. induction fuel as [|fuel IH]; intros i s a l Har Hn Hf; cbn [AliasMethod.fill_loop].
  - rewrite (proj2 (Z.ltb_ge _ _)) by lia. exists a, l. split_and!.
    + destruct Har as (Ha & Hl & _), s. cbn in *. by rewrite Ha, Hl.
    + destruct Har as (? & ? & ? & ?). by split_and!.
    + intros j Hj. by rewrite bool_decide_eq_false_2 by lia.
  - destruct (Z.ltb_spec (Z.of_nat i) (Z.of_nat n)) as [Hlt|].
    + rewrite at_get by lia. cbn [mbind outcome_bind].
      replace (Z.of_nat i + 1)%Z with (Z.of_nat (S i)) by lia.
      destruct (p (at_ f i)) eqn:E.
      * rewrite (put_ok s (length f) a l) by (done || lia). cbn [mbind outcome_bind].
        destruct (IH (S i) _ _ _ (arrays_insert s _ a l i whole (Z.of_nat i) Har) Hn ltac:(lia))
          as (a' & l' & -> & Har' & Hj).
        exists a', l'. split_and!; [done|done|]. intros j Hlj. specialize (Hj j Hlj).
        destruct Har as (_ & _ & Hla & Hll). destruct (decide (j = i)) as [->|].
        -- rewrite E, bool_decide_eq_true_2 by lia. rewrite bool_decide_eq_false_2 in Hj by lia.
           cbn in *. destruct Hj as [-> ->]. by rewrite !list_lookup_insert_eq by lia.
        -- rewrite !list_lookup_insert_ne in Hj by done.
           by rewrite (bool_decide_ext (i ≤ j < n)%nat (S i ≤ j < n)%nat) by lia.
      * cbn [mbind outcome_bind].
        destruct (IH (S i) s a l Har Hn ltac:(lia)) as (a' & l' & -> & Har' & Hj).
        exists a', l'. split_and!; [done|done|]. intros j Hlj. specialize (Hj j Hlj).
        destruct (decide (j = i)) as [->|].
        -- rewrite E, andb_false_r. by rewrite E, andb_false_r in Hj.
        -- by rewrite (bool_decide_ext (i ≤ j < n)%nat (S i ≤ j < n)%nat) by lia.
    + exists a, l. split_and!.
      * destruct Har as (Ha & Hl & _), s. cbn in *. by rewrite Ha, Hl.
      * destruct Har as (? & ? & ? & ?). by split_and!.
      * intros j Hj. by rewrite bool_decide_eq_false_2 by lia.
Qed.

(** ** The invariant

    An index is done when it has been scanned, lies below 1 and is not the one
    to be paired next: its probability and its alias are then in the table. *)

Definition done_at (f : list R) (u m j : nat) : bool :=
  bool_decide (j < m)%nat && AliasMethod.below_one (at_ f j) && bool_decide (j ≠ u).

(** What a slot [j] that is done gives away to its alias. *)
Definition given (f : list R) (l : list (option Z)) (u m i j : nat) : R :=
  if done_at f u m j && bool_decide (l !! j = Some (Some (Z.of_nat i))) then 1 - at_ f j else 0.

Record invariant (f0 : nat → R) (N : nat) (f : list R) (o u m : nat) (a : list P)
    (l : list (option Z)) : Prop := {
  inv_length : length f = N;
  inv_nonneg : ∀ j, (j < N)%nat → 0 <= at_ f j;
  inv_over : (o ≤ N)%nat ∧ (∀ j, (j < o)%nat → at_ f j < 1) ∧ ((o < N)%nat → 1 <= at_ f o);
  inv_under : (u < N)%nat ∧ (u < m ≤ N)%nat ∧ at_ f u < 1 ∨ u = N ∧ m = S N;
  inv_done : ∀ j, (j < N)%nat → done_at f u m j = true →
    ∃ p k, a !! j = Some p ∧ to_precision (at_ f j) = Ret p ∧
      l !! j = Some (Some (Z.of_nat k)) ∧ (k < N)%nat;
  inv_mass : ∀ i, (i < N)%nat → f0 i = at_ f i + sum_below N (given f l u m i);
  inv_total : sum_below N (λ j, if done_at f u m j then 1 else at_ f j) = IZR (Z.of_nat N);
}.

(** The number of indices that are not done bounds the iterations left. *)
Definition left (f : list R) (N u m : nat) : R :=
  sum_below N (λ j, if done_at f u m j then 0 else 1).

Lemma done_at_spec f u m j :
  done_at f u m j = true ↔ (j < m)%nat ∧ at_ f j < 1 ∧ j ≠ u.
Proof.
  unfold done_at. rewrite !andb_true_iff, !bool_decide_eq_true, below_one_spec. tauto.
Qed.

Lemma done_at_under f u m : done_at f u m u = false.
Proof. unfold done_at. rewrite (bool_decide_eq_false_2 (u ≠ u)) by tauto. by rewrite andb_false_r. Qed.

Lemma done_at_over f u m o : 1 <= at_ f o → done_at f u m o = false.
Proof.
  intros Ho. apply not_true_iff_false. rewrite done_at_spec. intros (_ & ? & _). lra.
Qed.

(** The indices and the numbers after an iteration that pairs [u] with [o]. *)
Definition paired (f : list R) (o u : nat) : list R := <[o := at_ f o + (at_ f u - 1)]> f.

(** The next [under], and the end of its scan. *)
Definition next_under (f' : list R) (N o m u' m' : nat) : Prop :=
  (1 <= at_ f' o ∨ (m ≤ o)%nat) ∧ (m ≤ u' ≤ N)%nat ∧ m' = S u' ∧
    (∀ j, (m ≤ j < u')%nat → 1 <= at_ f' j) ∧ ((u' < N)%nat → at_ f' u' < 1) ∨
  at_ f' o < 1 ∧ (o < m)%nat ∧ u' = o ∧ m' = m.

Section Iteration.
Context (f : list R) (N o u m u' m' : nat).
Hypotheses (Hlen : length f = N) (Ho : (o < N)%nat) (Hfo : 1 <= at_ f o)
  (Hu : (u < m)%nat) (HuN : (u < N)%nat) (Hm : (m ≤ N)%nat) (Hfu : at_ f u < 1)
  (Hnext : next_under (paired f o u) N o m u' m').

Lemma over_under : u ≠ o.
Proof. intros ->. lra. Qed.

Lemma paired_at j : at_ (paired f o u) j = if decide (j = o) then at_ f o + (at_ f u - 1) else at_ f j.
Proof. apply at_insert. by rewrite Hlen. Qed.

(** An iteration makes one more index done, the one it paired. *)
Lemma done_next j : (j < N)%nat →
  done_at (paired f o u) u' m' j = done_at f u m j || bool_decide (j = u).
Proof.
  intros Hj. apply eq_true_iff_eq. pose proof over_under.
  rewrite orb_true_iff, !done_at_spec, bool_decide_eq_true.
  destruct Hnext as [(Hcase & Hu' & -> & Hscan & Hend)|(Hcase & Hom & -> & ->)].
  - destruct (decide (j = o)) as [->|Hjo].
    + split; [|intros [(_ & ? & _)| ->]; [lra|done]]. intros (Hlt & Hjb & Hne). exfalso.
      destruct Hcase; [lra|]. specialize (Hscan o ltac:(lia)). lra.
    + rewrite paired_at, decide_False by done. split.
      * intros (Hlt & Hjb & Hne). destruct (decide (j = u)) as [->|]; [by right|].
        left. split_and!; [|done|done]. destruct (decide (j < m)%nat); [done|].
        specialize (Hscan j ltac:(lia)). rewrite paired_at, decide_False in Hscan by done. lra.
      * intros [(? & ? & ?)| ->]; split_and!; (lia || done).
  - rewrite paired_at. destruct (decide (j = o)) as [->|]; [|destruct (decide (j = u)) as [->|]; tauto].
    split; [tauto|]. intros [(_ & ? & _)| ->]; [lra|done].
Qed.

Lemma left_next : left (paired f o u) N u' m' = left f N u m - 1.
Proof.
  unfold left. rewrite (sum_below_one N _ (λ j, if done_at f u m j then 0 else 1) u) by
    (done || (intros j Hj Hne; by rewrite done_next, (bool_decide_eq_false_2 (j = u)), orb_false_r)).
  rewrite done_next, (bool_decide_eq_true_2 (u = u)), orb_true_r, done_at_under by done. lra.
Qed.

Lemma left_pos : 1 <= left f N u m.
Proof.
  apply Rle_trans with (sum_below N (λ j, if decide (j = u) then 1 else 0));
    [rewrite sum_below_point by done; lra|]. apply sum_below_le. intros j _.
  case_decide as E; [subst; rewrite done_at_under; lra|]. destruct (done_at f u m j); lra.
Qed.

Lemma total_next :
  sum_below N (λ j, if done_at (paired f o u) u' m' j then 1 else at_ (paired f o u) j) =
  sum_below N (λ j, if done_at f u m j then 1 else at_ f j).
Proof.
  pose proof over_under as Hne.
  rewrite (sum_below_two N _ (λ j, if done_at f u m j then 1 else at_ f j) u o); try done.
  - rewrite !done_next, !paired_at, (decide_True (P := o = o)), (bool_decide_eq_true_2 (u = u)),
      (bool_decide_eq_false_2 (o = u)), done_at_under, done_at_over by auto. cbn. lra.
  - intros j Hj Hju Hjo.
    by rewrite done_next, paired_at, decide_False, (bool_decide_eq_false_2 (j = u)), orb_false_r.
Qed.

(** What [u] gives away is what [o] receives. *)
Lemma mass_next l i : (i < N)%nat → length l = N →
  at_ (paired f o u) i + sum_below N (given (paired f o u) (<[u := Some (Z.of_nat o)]> l) u' m' i) =
  at_ f i + sum_below N (given f l u m i).
Proof.
  intros Hi Hl. pose proof over_under as Hne.
  rewrite (sum_below_one N _ (given f l u m i) u); [|done|].
  - unfold given. rewrite done_at_under, done_next, (bool_decide_eq_true_2 (u = u)), orb_true_r by done.
    rewrite list_lookup_insert_eq, !paired_at, (decide_False (P := u = o)) by lia. cbn [andb].
    case_decide as E.
    + subst. rewrite bool_decide_eq_true_2 by done. lra.
    + rewrite bool_decide_eq_false_2 by (intros [= ?]; lia). lra.
  - intros j Hj Hju. unfold given.
    rewrite done_next, (bool_decide_eq_false_2 (j = u)), orb_false_r, list_lookup_insert_ne by done.
    destruct (decide (j = o)) as [->|]; [by rewrite done_at_over|]. by rewrite paired_at, decide_False.
Qed.

End Iteration.

(** ** The pairing loop *)

Context (Hprec : ∀ x, 0 <= x < 1 → ∃ p, to_precision x = Ret p).
Context (f0 : nat → R) (N : nat).

Definition vars (f : list R) (o u m : nat) : AliasMethod.locals R :=
  AliasMethod.mk_locals f (Z.of_nat o) (Z.of_nat u) (Z.of_nat m).

Lemma paired_nonneg f o u :
  length f = N → (o < N)%nat → (u < N)%nat → 1 <= at_ f o →
  (∀ j, (j < N)%nat → 0 <= at_ f j) → ∀ j, (j < N)%nat → 0 <= at_ (paired f o u) j.
Proof.
  intros Hf Ho Hu Hfo Hnn j Hj. unfold paired. rewrite at_insert by lia.
  pose proof (Hnn u Hu). case_decide; [lra|auto].
Qed.

(** The scans at the end of an iteration. *)
Lemma scans_ok f o u m :
  length f = N → (o < N)%nat → (m ≤ N)%nat →
  ∃ u' m', (let f' := paired f o u in
    (if AliasMethod.from_one (at_ f o + (at_ f u - 1)) || (Z.of_nat m <=? Z.of_nat o)%Z
     then k ← AliasMethod.skip AliasMethod.from_one f' (Z.of_nat N) N (Z.of_nat m); Ret (k, (k + 1)%Z)
     else Ret (Z.of_nat o, Z.of_nat m)) = Ret (Z.of_nat u', Z.of_nat m')) ∧
    next_under (paired f o u) N o m u' m'.
Proof.
  intros Hf Ho Hm. cbv zeta. unfold next_under.
  assert (length (paired f o u) = N) as Hf' by (unfold paired; by rewrite length_insert).
  replace (at_ f o + (at_ f u - 1)) with (at_ (paired f o u) o)
    by (unfold paired; rewrite at_insert, decide_True by (done || lia); done).
  destruct (_ || _) eqn:E.
  - destruct (skip_ok AliasMethod.from_one (paired f o u) N m) as (k & Hk & Hb & Hall & Hend); [lia..|].
    rewrite Hf' in Hk, Hb, Hend. rewrite Hk. cbn [mbind outcome_bind].
    exists k, (S k). split; [do 2 f_equal; lia|]. left.
    apply orb_true_iff in E as [E%from_one_spec|E%Z.leb_le]; split_and!; try done; try lia;
      try (by left); try (right; lia);
      try (intros j Hj; apply from_one_spec, Hall; lia); intros Hj; apply from_one_false; auto.
  - apply orb_false_iff in E as [E%from_one_false E'%Z.leb_gt].
    exists o, m. split; [done|]. right. split_and!; done || lia.
Qed.

Lemma iteration_ok s f o u m a l :
  invariant f0 N f o u m a l → arrays s N a l → (o < N)%nat → (u < N)%nat →
  ∃ f' o' u' m' a' l',
    AliasMethod.step (Z.of_nat N) (vars f o u m) s = Ret (vars f' o' u' m', with_arrays s a' l') ∧
    invariant f0 N f' o' u' m' a' l' ∧ arrays (with_arrays s a' l') N a' l' ∧
    left f' N u' m' = left f N u m - 1 ∧ 1 <= left f N u m.
Proof.
  intros [Hf Hnn (_ & Hpre & Hfo) Hund Hdone Hmass Htot] Har Ho Hu.
  specialize (Hfo Ho). destruct Hund as [(_ & Hm & Hfu)|[? _]]; [|lia].
  destruct (Hprec (at_ f u)) as [p Hp]; [auto|].
  destruct (scans_ok f o u m Hf Ho) as (u' & m' & Hscan & Hnext); [lia|].
  destruct (skip_ok AliasMethod.below_one (paired f o u) N o) as (o' & Hskip & Hb & Hall & Hend);
    [unfold paired; rewrite length_insert; lia..|].
  assert (length (paired f o u) = N) as Hf' by (unfold paired; by rewrite length_insert).
  rewrite Hf' in Hskip, Hb, Hend.
  exists (paired f o u), o', u', m', (<[u := p]> a), (<[u := Some (Z.of_nat o)]> l).
  split; [|split; [|split; [by eapply arrays_insert|]]].
  - unfold AliasMethod.step, vars. cbn [AliasMethod.pf AliasMethod.over AliasMethod.under AliasMethod.mm].
    rewrite (at_get f u) by lia. cbn [mbind outcome_bind]. rewrite Hp. cbn [mbind outcome_bind].
    rewrite (put_ok s N a l) by done. cbn [mbind outcome_bind].
    rewrite (at_get f o) by lia. cbn [mbind outcome_bind]. rewrite insert_get by lia. cbn [mbind outcome_bind].
    change (fadd (at_ f o) (Num.fsub (at_ f u) (of_Z 1))) with (at_ f o + (at_ f u - 1)).
    fold (paired f o u). rewrite Nat2Z.id, Hscan. cbn [mbind outcome_bind]. rewrite Hskip. done.
  - destruct Har as (_ & _ & Hla & Hll). assert (u ≠ o) as Hne by (intros ->; lra). split.
    + done.
    + by apply paired_nonneg.
    + split_and!; [lia| |].
      * intros j Hj. destruct (decide (j < o)%nat).
        -- rewrite (paired_at f N) by done. rewrite decide_False by lia. auto.
        -- apply below_one_spec, Hall. lia.
      * intros Hlt. specialize (Hend Hlt). destruct (Rlt_le_dec (at_ (paired f o u) o') 1) as [Hl|]; [|done].
        apply below_one_spec in Hl. congruence.
    + destruct Hnext as [(_ & Hu' & -> & _ & Hend')|(Hlt & Hom & -> & ->)].
      * destruct (decide (u' = N)) as [->|]; [by right|]. left. split_and!; auto with lia.
      * left. split_and!; done || lia.
    + intros j Hj. rewrite (done_next f N o u m u' m') by (done || lia). intros Hd.
      destruct (decide (j = u)) as [->|].
      * exists p, o. rewrite !list_lookup_insert_eq by lia.
        by rewrite (paired_at f N), decide_False by done.
      * rewrite (bool_decide_eq_false_2 (j = u)), orb_false_r in Hd by done.
        assert (j ≠ o) by (intros ->; by rewrite done_at_over in Hd).
        rewrite !list_lookup_insert_ne, (paired_at f N), decide_False by done. auto.
    + intros i Hi. rewrite (Hmass i Hi), <-(mass_next f N o u m u' m') by (done || lia). done.
    + rewrite (total_next f N o u m u' m') by (done || lia). done.
  - split; [apply (left_next f N o u m u' m'); done || lia|apply (left_pos f N o u m u' m'); done || lia].
Qed.

(** The loop does not end before every index below 1 is paired: otherwise all
    numbers would be below 1, and their sum below the length. *)
Lemma stop_ok f o u m a l :
  invariant f0 N f o u m a l → (N ≤ o)%nat ∨ (N ≤ u)%nat → u = N ∧ m = S N.
Proof.
  intros [Hf _ (Ho & Hpre & _) Hund _ _ Htot] Hout. destruct Hund as [(Hu & _ & Hfu)|]; [|done]. exfalso.
  pose proof (sum_below_lt N (λ j, if done_at f u m j then 1 else at_ f j) u Hu) as Hlt.
  rewrite Htot, done_at_under in Hlt. apply (Rlt_irrefl (IZR (Z.of_nat N))), Hlt; [|done].
  intros j Hj. destruct (done_at f u m j); [lra|]. specialize (Hpre j ltac:(lia)). lra.
Qed.

Lemma with_arrays_eq s a l : arrays s N a l → with_arrays s a l = s.
Proof. intros (Ha & Hl & _). destruct s. cbn in Ha, Hl. by subst. Qed.

(** The loop ends, with every index below 1 done. *)
Lemma pair_loop_ok fuel s f o u m a l :
  invariant f0 N f o u m a l → arrays s N a l → left f N u m <= IZR (Z.of_nat fuel) →
  ∃ f' o' a' l',
    AliasMethod.pair_loop (Z.of_nat N) fuel (vars f o u m) s =
      Ret (vars f' o' N (S N), with_arrays s a' l') ∧
    invariant f0 N f' o' N (S N) a' l' ∧ arrays (with_arrays s a' l') N a' l'.
Proof.
  revert s f o u m a l. induction fuel as [|fuel IH]; intros s f o u m a l Hinv Har Hleft;
    cbn [AliasMethod.pair_loop]; unfold vars at 1 2; cbn [AliasMethod.over AliasMethod.under];
    (destruct (_ && _) eqn:E;
      [apply andb_true_iff in E as [Ho%Z.ltb_lt Hu%Z.ltb_lt];
       destruct (iteration_ok s f o u m a l Hinv Har ltac:(lia) ltac:(lia))
         as (f' & o' & u' & m' & a' & l' & Hstep & Hinv' & Har' & Hnext & Hpos)
      |apply andb_false_iff in E; rewrite !Z.ltb_ge in E;
       destruct (stop_ok f o u m a l Hinv ltac:(lia)) as [-> ->];
       exists f, o, a, l; by rewrite (with_arrays_eq s a l)]).
  - change (Z.of_nat 0) with 0%Z in Hleft. lra.
  - rewrite Hstep. cbn [mbind outcome_bind].
    destruct (IH _ _ _ _ _ _ _ Hinv' Har') as (f2 & o2 & a2 & l2 & H2); [|by exists f2, o2, a2, l2].
    rewrite Hnext. rewrite Nat2Z.inj_succ, succ_IZR in Hleft. lra.
Qed.

(** ** The table *)

(** The value stored for a probability. *)
Definition stored (x : R) (p : P) : Prop := x < 1 ∧ to_precision x = Ret p ∨ x = 1 ∧ p = whole.

(** The share of the draws that give [i], when slot [j] of [N] equally likely
    ones gives [j] with probability [q j] and [t j] otherwise. *)
Definition draw_probability (q : nat → R) (t : nat → nat) (i : nat) : R :=
  sum_below N (λ j, (if decide (j = i) then q j else 0) + (if decide (t j = i) then 1 - q j else 0)) /
    IZR (Z.of_nat N).

(** Slot [j] of the arrays holds probability [q j], converted to the stored
    type, and alias [t j]; a slot of probability 1 is its own alias. *)
Definition slots (a : list P) (l : list (option Z)) (q : nat → R) (t : nat → nat) : Prop :=
  ∀ j, (j < N)%nat → 0 <= q j <= 1 ∧ (t j < N)%nat ∧ l !! j = Some (Some (Z.of_nat (t j))) ∧
    (∃ p, a !! j = Some p ∧ stored (q j) p) ∧ (q j = 1 → t j = j).

(** The probability in slot [j] of the stored array, when [value p] is the
    probability that [p] stands for. *)
Definition stored_probability (value : P → R) (a : list P) (j : nat) : R :=
  match a !! j with Some p => value p | None => 0 end.

Lemma initial_invariant f o u a l :
  length f = N → (∀ j, (j < N)%nat → 0 <= at_ f j) → f0 = at_ f →
  sum_below N (at_ f) = IZR (Z.of_nat N) →
  (o ≤ N)%nat → (∀ j, (j < o)%nat → at_ f j < 1) → ((o < N)%nat → 1 <= at_ f o) →
  (u ≤ N)%nat → (∀ j, (j < u)%nat → 1 <= at_ f j) → ((u < N)%nat → at_ f u < 1) →
  invariant f0 N f o u (S u) a l ∧ left f N u (S u) = IZR (Z.of_nat N).
Proof.
  intros Hf Hnn -> Hsum Ho Hpre Hfo Hu Hscan Hfu.
  assert (∀ j, done_at f u (S u) j = false) as Hdone.
  { intros j. apply not_true_iff_false. rewrite done_at_spec. intros (Hlt & Hj & Hne).
    specialize (Hscan j ltac:(lia)). lra. }
  split; [split; auto|].
  - destruct (decide (u = N)); [right; lia|]. left. split_and!; auto with lia.
  - intros j _. by rewrite Hdone.
  - intros i Hi. rewrite (sum_below_ext N _ (λ _, 0)), sum_below_const; [lra|].
    intros j _. unfold given. by rewrite Hdone.
  - rewrite <-Hsum. apply sum_below_ext. intros j _. by rewrite Hdone.
  - unfold left. rewrite (sum_below_ext N _ (λ _, 1)), sum_below_const; [lra|]. intros j _. by rewrite Hdone.
Qed.

(** At the end what is not done is 1, and every slot gets its value. *)
Lemma final_slots f o a l a' l' :
  invariant f0 N f o N (S N) a l →
  (∀ j, (j < length f)%nat →
     if bool_decide (o ≤ j < N)%nat && AliasMethod.from_one (at_ f j)
     then a' !! j = Some whole ∧ l' !! j = Some (Some (Z.of_nat j))
     else a' !! j = a !! j ∧ l' !! j = l !! j) →
  ∃ t, slots a' l' (at_ f) t ∧
    (∀ j, (j < N)%nat → at_ f j < 1 ∧ l !! j = Some (Some (Z.of_nat (t j))) ∨ at_ f j = 1).
Proof.
  intros [Hf Hnn (Ho & Hpre & _) _ Hdone _ Htot] Hfill. rewrite Hf in Hfill.
  assert (∀ j, (j < N)%nat → done_at f N (S N) j = false → at_ f j = 1) as Hone.
  { intros j Hj Hd. set (g := λ k, if done_at f N (S N) k then 1 else at_ f k) in Htot.
    cut (g j = 1); [unfold g; by rewrite Hd|]. apply (sum_below_all_one N); [|done..].
    intros k Hk. unfold g. destruct (done_at f N (S N) k) eqn:E; [lra|].
    destruct (Rlt_le_dec (at_ f k) 1) as [Hlt|]; [exfalso|done].
    rewrite (proj2 (done_at_spec _ _ _ _)) in E by (split_and!; lia || done). done. }
  exists (λ j, match l' !! j with Some (Some k) => Z.to_nat k | _ => O end).
  split; intros j Hj; specialize (Hfill j Hj); specialize (Hnn j Hj);
    destruct (done_at f N (S N) j) eqn:E.
  1, 3: destruct (Hdone j Hj E) as (p & k & Ha & Hp & Hl & Hk); apply done_at_spec in E as (_ & Hlt & _);
    rewrite (proj2 (from_one_false _) Hlt), andb_false_r in Hfill; destruct Hfill as [Ha' Hl'];
    rewrite Hl', Hl, Nat2Z.id.
  - split_and!; [lra|lra|done|done| |lra]. exists p. split; [congruence|]. left. by split.
  - left. by split.
  - specialize (Hone j Hj E).
    assert (o ≤ j)%nat by (destruct (decide (o ≤ j)%nat); [done|]; specialize (Hpre j ltac:(lia)); lra).
    rewrite bool_decide_eq_true_2, (proj2 (from_one_spec _)) in Hfill by (lia || lra).
    destruct Hfill as [Ha' Hl']. rewrite Hl', Nat2Z.id.
    split_and!; [lra|lra|done|done| |done]. exists whole. split; [done|]. right. by split.
  - right. auto.
Qed.

(** What the conversion of the probabilities loses is all that a draw from the
    stored array loses. *)
Lemma stored_draw value eps a l q t i :
  (∀ x p, 0 <= x < 1 → to_precision x = Ret p → Rabs (value p - x) <= eps) →
  0 <= eps → (i < N)%nat → slots a l q t →
  Rabs (draw_probability (stored_probability value a) t i - draw_probability q t i) <= eps.
Proof.
  intros Hval Heps Hi Hslots. assert (0 < IZR (Z.of_nat N)) as HN by (apply IZR_lt; lia).
  set (term := λ (g : nat → R) j,
    (if decide (j = i) then g j else 0) + (if decide (t j = i) then 1 - g j else 0)).
  assert (∀ j, (j < N)%nat → Rabs (term (stored_probability value a) j - term q j) <= eps) as Hterm.
  { intros j Hj. destruct (Hslots j Hj) as (Hq & _ & _ & (p & Hp & Hst) & Hone).
    unfold term, stored_probability. rewrite Hp. destruct Hst as [[Hlt Hst]|[H1 _]].
    - specialize (Hval (q j) p ltac:(lra) Hst). apply Rabs_le_both in Hval. apply Rabs_le.
      repeat case_decide; lra.
    - rewrite (Hone H1), H1. apply Rabs_le. repeat case_decide; lra. }
  assert (∀ g h, (∀ j, (j < N)%nat → Rabs (term g j - term h j) <= eps) →
    sum_below N (term g) <= sum_below N (term h) + eps * IZR (Z.of_nat N)) as Hsum.
  { intros g h Hgh. rewrite <-sum_below_const, <-sum_below_plus. apply sum_below_le.
    intros j Hj. specialize (Hgh j Hj). apply Rabs_le_both in Hgh. lra. }
  pose proof (Hsum _ _ Hterm) as H1.
  assert (∀ j, (j < N)%nat → Rabs (term q j - term (stored_probability value a) j) <= eps) as Hterm'
    by (intros j Hj; rewrite Rabs_minus_sym; auto).
  pose proof (Hsum _ _ Hterm') as H2.
  unfold draw_probability. change (λ j, _ + _) with (term (stored_probability value a)) at 1.
  change (λ j, _ + _) with (term q). unfold Rdiv. rewrite <-Rmult_minus_distr_r.
  apply Rabs_le. split.
  - apply (Rmult_le_reg_r (IZR (Z.of_nat N))); [done|]. rewrite Rmult_assoc, Rinv_l by lra. lra.
  - apply (Rmult_le_reg_r (IZR (Z.of_nat N))); [done|]. rewrite Rmult_assoc, Rinv_l by lra. lra.
Qed.

Lemma pair_ok s f a l :
  length f = N → (∀ j, (j < N)%nat → 0 <= at_ f j) → f0 = at_ f →
  sum_below N (at_ f) = IZR (Z.of_nat N) → arrays s N a l →
  ∃ a' l' q t, AliasMethod.pair (Z.of_nat N) f s = Ret (with_arrays s a' l') ∧
    length a' = N ∧ length l' = N ∧ slots a' l' q t ∧
    ∀ i, (i < N)%nat → draw_probability q t i = at_ f i / IZR (Z.of_nat N).
Proof.
  intros Hf Hnn Hf0 Hsum Har. unfold AliasMethod.pair. rewrite Nat2Z.id.
  destruct (skip_ok AliasMethod.below_one f N 0) as (o & Ho & Hob & Hoall & Hoend); [lia..|].
  destruct (skip_ok AliasMethod.from_one f N 0) as (u & Hu & Hub & Huall & Huend); [lia..|].
  rewrite Hf in Ho, Hu, Hob, Hub, Hoend, Huend.
  change (Z.of_nat 0) with 0%Z in Ho, Hu. rewrite Ho, Hu. cbn [mbind outcome_bind].
  destruct (initial_invariant f o u a l) as [Hinv Hleft]; try done; try lia.
  { intros j Hj. apply below_one_spec, Hoall. lia. }
  { intros Hlt. specialize (Hoend Hlt). destruct (Rlt_le_dec (at_ f o) 1) as [Hl|]; [|done].
    apply below_one_spec in Hl. congruence. }
  { intros j Hj. apply from_one_spec, Huall. lia. }
  { intros Hlt. by apply from_one_false, Huend. }
  destruct (pair_loop_ok N s f o u (S u) a l Hinv Har) as (f' & o' & a1 & l1 & Hloop & Hinv' & Har');
    [rewrite Hleft; lra|].
  replace (Z.of_nat u + 1)%Z with (Z.of_nat (S u)) by lia. fold (vars f o u (S u)). rewrite Hloop.
  cbn [mbind outcome_bind vars AliasMethod.pf AliasMethod.over AliasMethod.under AliasMethod.mm].
  pose proof (inv_length _ _ _ _ _ _ _ _ Hinv') as Hf'.
  destruct (fill_ok AliasMethod.from_one f' N N o' (with_arrays s a1 l1) a1 l1)
    as (a2 & l2 & Hfill & Har2 & Hj); [by rewrite Hf'|lia|lia|].
  rewrite Hfill. cbn [mbind outcome_bind]. rewrite Z.ltb_irrefl.
  destruct (final_slots f' o' a1 l1 a2 l2 Hinv' Hj) as (t & Hslots & Hcase).
  exists a2, l2, (at_ f'), t. rewrite Hf' in Har2. destruct Har2 as (_ & _ & Hla & Hll).
  split_and!; [done|done|done|done|]. intros i Hi. unfold draw_probability. f_equal.
  rewrite <-Hf0, (inv_mass _ _ _ _ _ _ _ _ Hinv' i Hi), sum_below_plus. f_equal.
  - rewrite (sum_below_ext N _ (λ j, if decide (j = i) then at_ f' i else 0)).
    + by apply sum_below_point.
    + intros j _. case_decide; by subst.
  - apply sum_below_ext. intros j Hj'. unfold given. destruct (Hcase j Hj') as [[Hlt Hl]|Hone].
    + rewrite (proj2 (done_at_spec f' N (S N) j)) by (split_and!; lia || done). rewrite Hl. cbn [andb].
      case_decide; [rewrite bool_decide_eq_true_2 by (by subst)|
        rewrite bool_decide_eq_false_2 by (intros [= ?]; lia)]; done.
    + rewrite Hone, done_at_over by lra. cbn [andb]. case_decide; lra.
Qed.

End Exact.

(** ** buildTable *)

Lemma sum_below_list f : sum_below (length f) (at_ f) = rsum f.
Proof.
  unfold sum_below. f_equal. apply list_eq. intros i. rewrite list_lookup_fmap.
  destruct (f !! i) as [x|] eqn:E.
  - rewrite lookup_seq_lt by (by eapply lookup_lt_Some). cbn. f_equal. by apply nth_lookup_Some.
  - by rewrite lookup_seq_ge by (by apply lookup_ge_None).
Qed.

Lemma rsum_replicate_0 n : rsum (replicate n 0) = 0.
Proof. induction n as [|n IH]; [done|]. cbn [replicate]. rewrite rsum_cons, IH. lra. Qed.

Lemma nth_zeros n j : nth j (replicate n 0) 0 = 0.
Proof. revert j. induction n as [|n IH]; intros [|j]; try done. apply IH. Qed.

(** The weights scaled to sum up to the number of slots. *)
Definition scaled (w : list R) (N : nat) : list R :=
  ((λ x, x / (rsum w / IZR (Z.of_nat N))) <$> w) ++ replicate (N - length w) 0.

Lemma scaled_ok w N :
  (length w ≤ N)%nat → (0 < N)%nat → Forall (Rle 0) w → 0 < rsum w →
  length (scaled w N) = N ∧ (∀ j, (j < N)%nat → 0 <= at_ (scaled w N) j) ∧
  sum_below N (at_ (scaled w N)) = IZR (Z.of_nat N) ∧
  ∀ j, at_ (scaled w N) j / IZR (Z.of_nat N) = at_ w j / rsum w.
Proof.
  intros Hw HN Hnn Hpos. assert (0 < IZR (Z.of_nat N)) as HR by (apply IZR_lt; lia).
  assert (length (scaled w N) = N) as Hlen.
  { unfold scaled. rewrite length_app, length_fmap, length_replicate. lia. }
  assert (∀ j, at_ (scaled w N) j = at_ w j / (rsum w / IZR (Z.of_nat N))) as Hat.
  { intros j. unfold at_, scaled. destruct (decide (j < length w)%nat).
    - rewrite app_nth1 by (by rewrite length_fmap).
      rewrite (nth_indep _ 0 (0 / (rsum w / IZR (Z.of_nat N)))) by (by rewrite length_fmap).
      apply (map_nth (λ x, x / (rsum w / IZR (Z.of_nat N)))).
    - rewrite app_nth2, nth_zeros, (nth_overflow w) by (rewrite ?length_fmap; lia). lra. }
  assert (0 < / (rsum w / IZR (Z.of_nat N))) by (apply Rinv_0_lt_compat, Rdiv_lt_0_compat; lra).
  split_and!; [done| | |].
  - intros j _. rewrite Hat. apply Rmult_le_pos; [|lra]. unfold at_.
    destruct (nth_in_or_default j w 0) as [Hin| ->]; [|lra].
    rewrite Forall_forall in Hnn. by apply Hnn, list_elem_of_In.
  - rewrite <-Hlen at 1. rewrite sum_below_list. unfold scaled. rewrite rsum_app, rsum_replicate_0.
    transitivity (/ (rsum w / IZR (Z.of_nat N)) * rsum w).
    + rewrite <-rsum_scale. rewrite Rplus_0_r. apply rsum_ext. intros x. unfold Rdiv at 1. ring.
    + field. lra.
  - intros j. rewrite Hat. field. lra.
Qed.

(** The tables of an object have the size its number of bits says. *)
Definition table_wf {P} (s : AliasMethod.t P) : Prop :=
  (0 <= AliasMethod.bitsize s < 64)%Z ∧
  (AliasMethod.bitsize s ≠ 0%Z →
   AliasMethod.bitmask s = (2 ^ AliasMethod.bitsize s - 1)%Z ∧
   ∃ a l, arrays s (Z.to_nat (2 ^ AliasMethod.bitsize s)) a l).

Lemma allocate_ok `{Precision R P} (s : AliasMethod.t P) k :
  table_wf s → (0 < k < 64)%Z →
  ∃ s' a l, AliasMethod.allocate k s = Ret s' ∧ arrays s' (Z.to_nat (2 ^ k)) a l ∧
    AliasMethod.bitsize s' = k ∧ AliasMethod.bitmask s' = (2 ^ k - 1)%Z ∧
    AliasMethod.msize s' = AliasMethod.msize s.
Proof.
  intros [Hb Hwf] Hk. unfold AliasMethod.allocate.
  destruct (Z.eqb_spec k (AliasMethod.bitsize s)) as [->|].
  - destruct Hwf as (Hm & a & l & Ha); [lia|]. by exists s, a, l.
  - rewrite (proj2 (Z.eqb_neq k 0)) by lia. do 3 eexists. split; [done|].
    cbn [AliasMethod.arr AliasMethod.alias AliasMethod.bitsize AliasMethod.bitmask AliasMethod.msize].
    split; [split_and!; [done|done|by rewrite length_replicate, Z.shiftl_1_l..]|].
    split_and!; try done.
    by apply low_bits_mask.
Qed.

Lemma buildTable_ok `{CeilLog2} `{!CeilLog2Laws} `{Precision R P} (s : AliasMethod.t P) w :
  (∀ x, 0 <= x < 1 → ∃ p, to_precision x = Ret p) →
  table_wf s → (2 <= Z.of_nat (length w) <= 2 ^ 32)%Z → Forall (Rle 0) w → 0 < rsum w →
  let k := Z.log2_up (Z.of_nat (length w)) in
  let N := Z.to_nat (2 ^ k) in
  ∃ s' a l q t, AliasMethod.buildTable w s = (Ret tt, s') ∧ table_wf s' ∧
    AliasMethod.get_bitsize s' = k ∧ AliasMethod.get_bitmask s' = (2 ^ k - 1)%Z ∧
    AliasMethod.arr s' = Some a ∧ AliasMethod.alias s' = Some l ∧ slots N a l q t ∧
    ∀ i, (i < N)%nat → draw_probability N q t i = nth i w 0 / rsum w.
Proof.
  intros Hprec Hwf Hn Hnn Hpos k N.
  assert (1 <= k <= 32)%Z as Hk.
  { unfold k. split; [apply (Z.log2_up_le_mono 2); lia|]. apply (Z.log2_up_le_mono _ (2 ^ 32)). lia. }
  assert (Z.of_nat (length w) <= 2 ^ k)%Z as Hle by (apply Z.log2_up_spec; lia).
  assert (0 < 2 ^ k)%Z by (apply Z.pow_pos_nonneg; lia).
  set (s0 := AliasMethod.mk (AliasMethod.arr s) (AliasMethod.alias s) (Z.of_nat (length w))
    (AliasMethod.bitsize s) (AliasMethod.bitmask s)).
  destruct (allocate_ok s0 k) as (s1 & a1 & l1 & Halloc & Har & Hbs & Hbm & _); [done|lia|].
  destruct (scaled_ok w N) as (Hlen & Hnn' & Hsum & Hat); [lia|lia|done|done|].
  destruct (pair_ok Hprec _ N s1 (scaled w N) a1 l1 Hlen Hnn' eq_refl Hsum Har)
    as (a & l & q & t & Hpair & Hla & Hll & Hslots & Hdraw).
  exists (with_arrays s1 a l), a, l, q, t. split; [|split; [|split_and!]]; try done.
  - unfold AliasMethod.buildTable. fold s0.
    assert (AliasMethod.isfinite (foldl fadd (of_Z 0) w) = true) as ->
      by (apply bool_decide_eq_true_2; by eexists).
    cbn [negb]. change (AliasMethod.msize s0) with (Z.of_nat (length w)).
    rewrite ceil_log2_exact by lia. cbn [mbind outcome_bind]. fold k. rewrite Halloc. cbn [mbind outcome_bind].
    rewrite Z.shiftl_1_l. replace (2 ^ k)%Z with (Z.of_nat N) by (unfold N; lia). rewrite Nat2Z.id.
    rewrite fold_sum_id. change (of_Z 0 + rsum w) with (0 + rsum w). rewrite Rplus_0_l.
    change (((λ x, fdiv x (fdiv (rsum w) (of_Z (Z.of_nat N)))) <$> w) ++ replicate (N - length w) (of_Z 0))
      with (scaled w N).
    by rewrite Hpair.
  - split; [cbn; lia|]. intros _. cbn [with_arrays AliasMethod.bitsize AliasMethod.bitmask].
    rewrite Hbs, Hbm. split; [done|]. exists a, l. by split_and!.
  - intros i Hi. rewrite Hdraw by done. apply Hat.
Qed.

(** C22. In exact arithmetic, for two or more and at most 2^32 weights, not
    negative and not all zero, and a conversion to the stored type that is
    defined on [0, 1), [buildTable] gives a table over the smallest power of
    two of slots that encodes them: each slot [j] has an alias [t j] and a
    probability [q j], of which the array stores the conversion (and the value
    for probability 1 where [q j] is 1), such that drawing a slot uniformly,
    and from it its own index with probability [q j] and its alias otherwise,
    gives index [i] with probability [w_i / sum w] exactly.  With the
    probabilities that the array stores, each index comes within [eps] of its
    probability, where [eps] bounds what the conversion changes: exactly for
    a type that holds the probabilities as they are, and within [1 / (max + 1)]
    for an integral type that truncates.  It does so whatever table the object
    held before, every loop ends, no access is out of bounds, and no element
    is left unwritten. *)
Theorem alias_table_exact `{CeilLog2} `{!CeilLog2Laws} `{Precision R P} (s : AliasMethod.t P) w :
  (∀ x, 0 <= x < 1 → ∃ p, to_precision x = Ret p) →
  table_wf s → (2 <= Z.of_nat (length w) <= 2 ^ 32)%Z → Forall (Rle 0) w → 0 < rsum w →
  let k := Z.log2_up (Z.of_nat (length w)) in
  let N := Z.to_nat (2 ^ k) in
  ∃ s' a l q t, AliasMethod.buildTable w s = (Ret tt, s') ∧ table_wf s' ∧
    AliasMethod.get_bitsize s' = k ∧ AliasMethod.get_bitmask s' = (2 ^ k - 1)%Z ∧
    AliasMethod.arr s' = Some a ∧ AliasMethod.alias s' = Some l ∧ slots N a l q t ∧
    (∀ i, (i < N)%nat → draw_probability N q t i = nth i w 0 / rsum w) ∧
    ∀ value eps, 0 <= eps →
      (∀ x p, 0 <= x < 1 → to_precision x = Ret p → Rabs (value p - x) <= eps) →
      ∀ i, (i < N)%nat →
        Rabs (draw_probability N (stored_probability value a) t i - nth i w 0 / rsum w) <= eps.
Proof.
  intros Hprec Hwf Hn Hw Hpos k N.
  destruct (buildTable_ok s w Hprec Hwf Hn Hw Hpos)
    as (s' & a & l & q & t & Hb & Hwf' & Hbs & Hbm & Ha & Hl & Hslots & Hdraw).
  fold k N in Hbs, Hbm, Hslots, Hdraw.
  exists s', a, l, q, t. split_and!; try done. intros value eps Heps Hval i Hi.
  rewrite <-(Hdraw i Hi). by apply (stored_draw N value eps a l).
Qed.

(** ** Witness *)

(** The conversion to an integral type of [max + 1] values truncates. *)
Lemma integral_precision_error min max x p :
  (min <= 0 <= max)%Z → 0 <= x < 1 →
  (@to_precision R Z (integral_precision min max)) x = Ret p →
  (0 <= p <= max)%Z ∧ Rabs (IZR p / IZR (max + 1) - x) <= / IZR (max + 1).
Proof.
  intros Hm Hx. assert (0 < IZR (max + 1)) as HM by (apply IZR_lt; lia).
  cbn [to_precision integral_precision].
  change (fmul x (fadd (of_Z max) (of_Z 1))) with (x * (IZR max + 1)). rewrite <-plus_IZR.
  change (ftrunc (x * IZR (max + 1))) with (Some (R_trunc (x * IZR (max + 1)))).
  destruct (R_trunc_spec (x * IZR (max + 1))) as [Hr Hb]; [nra|].
  destruct (_ && _) eqn:E; [|done]. intros [= <-]. apply andb_true_iff in E as [_ E%Z.leb_le].
  split; [lia|]. set (z := R_trunc _) in *. apply Rabs_le.
  assert (IZR z / IZR (max + 1) * IZR (max + 1) = IZR z) as Hz by (field; lra).
  assert (/ IZR (max + 1) * IZR (max + 1) = 1) as Hi by (field; lra). split.
  - apply (Rmult_le_reg_r (IZR (max + 1))); [done|]. rewrite Rmult_minus_distr_r, Hz. lra.
  - apply (Rmult_le_reg_r (IZR (max + 1))); [done|]. rewrite Rmult_minus_distr_r, Hz. lra.
Qed.

Lemma integral_precision_defined min max x :
  (min <= 0 <= max)%Z → 0 <= x < 1 →
  ∃ p, (@to_precision R Z (integral_precision min max)) x = Ret p.
Proof.
  intros Hm Hx. assert (0 < IZR (max + 1)) as HM by (apply IZR_lt; lia).
  cbn [to_precision integral_precision].
  change (fmul x (fadd (of_Z max) (of_Z 1))) with (x * (IZR max + 1)). rewrite <-plus_IZR.
  change (ftrunc (x * IZR (max + 1))) with (Some (R_trunc (x * IZR (max + 1)))).
  destruct (R_trunc_spec (x * IZR (max + 1))) as [Hr Hb]; [nra|].
  assert (R_trunc (x * IZR (max + 1)) < max + 1)%Z by (apply lt_IZR; nra).
  rewrite (proj2 (Z.leb_le _ _)), (proj2 (Z.leb_le _ _)) by lia. by eexists.
Qed.

(** A uniform distribution on three values, with exact probabilities and with
    31-bit ones. *)
Lemma alias_table_exact_witness :
  (∃ s q t,
    AliasMethod.buildTable (H0 := exact_log2) (H1 := floating_precision (λ x, x)) [1; 1; 1]
      AliasMethod.create = (Ret tt, s) ∧
    AliasMethod.get_bitmask s = 3%Z ∧ draw_probability 4 q t 2 = 1 / 3) ∧
  ∃ s a t,
    AliasMethod.buildTable (H0 := exact_log2)
      (H1 := integral_precision (- 2 ^ 31) (2 ^ 31 - 1)) [1; 1; 1] AliasMethod.create = (Ret tt, s) ∧
    AliasMethod.arr s = Some a ∧
    Rabs (draw_probability 4 (stored_probability (λ p, IZR p / IZR (2 ^ 31)) a) t 2 - 1 / 3)
      <= / IZR (2 ^ 31).
Proof.
  assert (1 / 3 = nth 2 [1; 1; 1] 0 / rsum [1; 1; 1]) as Hthird by (unfold rsum; cbn; field).
  assert (@table_wf R AliasMethod.create ∧ @table_wf Z AliasMethod.create) as [HwfR HwfZ]
    by (split; (split; [cbn; lia|done])).
  assert (2 <= Z.of_nat (length [1; 1; 1]) <= 2 ^ 32)%Z as Hlen by (cbn; lia).
  assert (Forall (Rle 0) [1; 1; 1]) as Hnn by (repeat constructor; lra).
  assert (0 < rsum [1; 1; 1]) as Hpos by (unfold rsum; cbn; lra). split.
  - destruct (alias_table_exact (H := exact_log2) (H0 := exact_log2_laws)
      (H1 := floating_precision (λ x, x)) AliasMethod.create [1; 1; 1])
      as (s & a & l & q & t & Hb & _ & _ & Hm & _ & _ & _ & Hd & _); [|done..|].
    + intros x _. by exists x.
    + exists s, q, t. split_and!; [exact Hb|exact Hm|].
      rewrite Hthird. apply (Hd 2%nat). vm_compute. lia.
  - destruct (alias_table_exact (H := exact_log2) (H0 := exact_log2_laws)
      (H1 := integral_precision (- 2 ^ 31) (2 ^ 31 - 1)) AliasMethod.create [1; 1; 1])
      as (s & a & l & q & t & Hb & _ & _ & _ & Ha & _ & _ & _ & Hd); [|done..|].
    + intros x Hx. by apply integral_precision_defined.
    + exists s, a, t. split_and!; [exact Hb|exact Ha|]. rewrite Hthird.
      apply (Hd (λ p, IZR p / IZR (2 ^ 31)) (/ IZR (2 ^ 31))); [| |vm_compute; lia].
      * left. apply Rinv_0_lt_compat, IZR_lt. lia.
      * intros x p Hx Hp. by apply (integral_precision_error (- 2 ^ 31) (2 ^ 31 - 1) x p).
Defined.
