(* ===== verification/Discrete.v ===== *)
(** EigenRand/Dists/Discrete.h: [UniformIntGen] and [DiscreteGen<int32_t,
    int32_t>], each with its scalar call and its packet operation. *)

From S2P Require Import Prelude.
From S2P Require Import Num.
From S2P Require Import Simd.
From S2P Require Import PacketMath.
From S2P Require Import PacketFilter.
From S2P Require Import RandUtils.
From S2P Require Import Basic.
From S2P Require Import Alias.

(** ** UniformIntGen *)

Module UniformIntGen.

(** [cache] is the packet in the [OptCacheStore] base. *)
Record t := mk {
  cache : list Z;
  cache_rest_cnt : Z;
  pmin : Z;
  pdiff : Z;
  bitsize : Z;
  bitmask : Z;
}.

Section Code.
Context {R : Type} `{Rng R} `{EigenPackets} `{EigenConversions} `{CeilLog2}.

(** The constructor; the cache of [lanes] lanes is zero. *)
Definition create (lanes : nat) (_min _max : Z) : outcome t :=
  d ← int_sub _max _min;
  let pdiff := u64 d in
  bitsize ← (if pdiff <? u64 (pdiff + 1) then ceil_log2 (u64 (pdiff + 1)) else ceil_log2 pdiff);
  if bitsize =? 0 then Undef shift_out_of_range
  else
    let bitmask := u64 (i32 (Z.shiftr (2 ^ 64 - 1) (64 - bitsize))) in
    Ret (mk (replicate lanes 0) 0 _min pdiff bitsize bitmask).

(** The loop of [operator()]; the fuel bounds the candidates that are tried. *)
Fixpoint candidate_loop (fuel : nat) (g : t) (rx bitcnt : Z) (rng : R) : outcome (Z * R) :=
  match fuel with
  | O => OutOfFuel
  | S fuel =>
      let cands := i32 (Z.land (u64 rx) (bitmask g)) in
      if u64 cands <=? pdiff g then x ← int_add cands (pmin g); Ret (x, rng)
      else if u64 (bitcnt + bitsize g) <? 32 then
        candidate_loop fuel g (Z.shiftr rx (bitsize g)) (u64 (bitcnt + bitsize g)) rng
      else
        '(rx, rng) ← Randbits_call rng;
        candidate_loop fuel g rx (bitsize g) rng
  end.

Definition call (fuel : nat) (g : t) (rng : R) : outcome (Z * R) :=
  '(rx, rng) ← Randbits_call rng;
  if pdiff g =? bitmask g then
    x ← int_add (i32 (Z.land (u64 rx) (bitmask g))) (pmin g); Ret (x, rng)
  else candidate_loop fuel g rx (bitsize g) rng.

(** The packet operation, over the operations of the packet type. *)
Context (rawbits : R → outcome (list Z * R))
  (pcmplt : list Z → list Z → list Z)
  (psrl : Z → list Z → Z → list Z)
  (compress_append : list Z → list Z → list Z → Z → outcome appended).

Fixpoint packet_loop (fuel : nat) (g : t) (rx : list Z) (bitcnt : Z) (rng : R) :
    outcome (list Z * t * R) :=
  match fuel with
  | O => OutOfFuel
  | S fuel =>
      let n := length rx in
      let pbitmask := pset1 n (bitmask g) in
      let plen := pset1 n (u64 (pdiff g + 1)) in
      let cands := pand rx pbitmask in
      a ← compress_append cands (pcmplt cands plen) (cache g) (cache_rest_cnt g);
      let g := mk (rest a) (new_count a) (pmin g) (pdiff g) (bitsize g) (bitmask g) in
      if full a then Ret (padd (value a) (pset1 n (pmin g)), g, rng)
      else if u64 (bitcnt + bitsize g) <? 32 then
        packet_loop fuel g (psrl (-1) rx (bitsize g)) (u64 (bitcnt + bitsize g)) rng
      else
        '(rx, rng) ← Randbits_packetOp rawbits rng;
        packet_loop fuel g rx (bitsize g) rng
  end.

Definition packetOp (fuel : nat) (g : t) (rng : R) : outcome (list Z * t * R) :=
  '(rx, rng) ← Randbits_packetOp rawbits rng;
  let n := length rx in
  if pdiff g =? bitmask g then
    Ret (padd (pand rx (pset1 n (bitmask g))) (pset1 n (pmin g)), g, rng)
  else packet_loop fuel g rx (bitsize g) rng.

End Code.
End UniformIntGen.

(** ** DiscreteGen<int32_t, int32_t> *)

Module DiscreteGen.

(** [cache] and [valid] are used with AVX2 only. *)
Record t := mk {
  cache : list Z;
  valid : bool;
  cdf : list Z;
  alias_table : AliasMethod.t Z;
}.

(** The tables of probabilities have type [int32_t]. *)
#[local] Instance int32_precision {F} `{Num F} : Precision F Z :=
  integral_precision (- 2 ^ 31) (2 ^ 31 - 1).

Section Create.
Context {F : Type} `{Num F} `{CeilLog2}.

(** [_cdf]: the running sums. *)
Fixpoint running_sums (acc : F) (w : list F) : list F :=
  match w with
  | [] => []
  | x :: w => let acc := fadd acc x in acc :: running_sums acc w
  end.

(** [(uint32_t)(p / _cdf.back() * 0x80000000)]. *)
Definition to_threshold (back p : F) : outcome Z :=
  match ftrunc (fmul (fdiv p back) (of_Z 0x80000000)) with
  | Some z => if (0 <=? z) && (z <? 2 ^ 32) then Ret z else Undef float_to_int_range
  | None => Undef float_to_int_range
  end.

Definition create (w : list F) : outcome t :=
  if Z.of_nat (length w) <? 16 then
    let _cdf := running_sums (of_Z 0) w in
    cdf ← mapM (to_threshold (List.last _cdf (of_Z 0))) _cdf;
    Ret (mk [] false cdf AliasMethod.create)
  else
    o ← AliasMethod.of_weights w;
    Ret (mk [] false [] (AliasMethod.assign_move AliasMethod.create o).1).

End Create.

Section Code.
Context {R : Type} `{Rng R} `{EigenPackets} `{EigenConversions}.

(** [std::lower_bound] on a range that is partitioned by [x < rx]. *)
Definition lower_bound (l : list Z) (rx : Z) : Z :=
  Z.of_nat (length (filter (λ x, x < rx) l)).

Definition call (g : t) (rng : R) : outcome (Z * R) :=
  if negb (bool_decide (cdf g = [])) then
    '(rx, rng) ← Randbits_call rng;
    let rx := Z.land rx 0x7FFFFFFF in
    Ret (lower_bound (take (length (cdf g) - 1) (cdf g)) (u32 rx), rng)
  else
    '(rx, rng) ← Randbits_call rng;
    let albit := Z.land (u64 rx) (AliasMethod.get_bitmask (alias_table g)) in
    let alx := u32 (Z.shiftr rx (4 * 8 - 31)) in
    p ← AliasMethod.get_prob (alias_table g) albit;
    if alx <? u32 p then Ret (i32 albit, rng)
    else a ← AliasMethod.get_alias (alias_table g) albit; Ret (a, rng).

(** The packet operation, over the operations of [PacketType]. *)
Context (rawbits : R → outcome (list Z * R))
  (pcmplt : list Z → list Z → list Z)
  (pblendv : list Z → list Z → list Z → list Z)
  (psrl : Z → list Z → Z → list Z)
  (pgather : ∀ A, list A → list Z → outcome (list A)).

(** [pgather] from a table that may be null, and from the aliases, of which an
    element that was never written is indeterminate. *)
Definition gather {A} (a : option (list A)) (index : list Z) : outcome (list A) :=
  match a with Some a => pgather A a index | None => Undef null_dereference end.
Definition gather_alias {P} (s : AliasMethod.t P) (index : list Z) : outcome (list Z) :=
  l ← gather (AliasMethod.alias s) index;
  mapM (λ x, match x with Some j => Ret (u32 j) | None => Undef indeterminate_value end) l.

Fixpoint count_loop (l : list Z) (rx ret : list Z) : list Z :=
  match l with
  | [] => ret
  | x :: l => count_loop l rx (padd ret (pcmplt rx (pset1 (length rx) x)))
  end.

Definition packet_values (g : t) (rng : R) : outcome (list Z * R) :=
  '(rx, rng) ← Randbits_packetOp rawbits rng;
  let n := length rx in
  if negb (bool_decide (cdf g = [])) then
    let ret := pset1 n (u64 (Z.of_nat (length (cdf g)) - 1)) in
    let rx := pand rx (pset1 n 0x7FFFFFFF) in
    Ret (count_loop (take (length (cdf g) - 1) (cdf g)) rx ret, rng)
  else
    let albit := pand rx (pset1 n (AliasMethod.get_bitmask (alias_table g))) in
    p ← gather (AliasMethod.arr (alias_table g)) albit;
    let c := pcmplt (psrl 1 rx 0) (u32 <$> p) in
    j ← gather_alias (alias_table g) albit;
    Ret (pblendv c albit j, rng).

(** Without AVX2 the packet is the result; with AVX2 packets of eight lanes are
    handed out in halves. *)
Definition packetOp (avx2 : bool) (g : t) (rng : R) : outcome (list Z * t * R) :=
  if avx2 then
    if valid g then Ret (cache g, mk (cache g) false (cdf g) (alias_table g), rng)
    else
      '(ret, rng) ← packet_values g rng;
      Ret (extractf128 0 ret, mk (extractf128 1 ret) true (cdf g) (alias_table g), rng)
  else '(ret, rng) ← packet_values g rng; Ret (ret, g, rng).

End Code.
End DiscreteGen.
