(* ===== verification/UniformIntProps.v ===== *)
(** [UniformIntGen]: its scalar call and its packet operation return the first
    candidates that lie in the range, and its constructor on every range. *)

From S2P Require Import Prelude.
From S2P Require Import Simd.
From S2P Require Import PacketMath.
From S2P Require Import PacketMathProps.
From S2P Require Import PacketFilter.
From S2P Require Import FloatBitsProps.
From S2P Require Import RandUtils.
From S2P Require Import Basic.
From S2P Require Import BasicProps.
From S2P Require Import Alias.
From S2P Require Import Discrete.

(** ** Specification *)

(** The candidates of a random word: its [n] lowest groups of [b] bits. *)
Fixpoint groups (n : nat) (b x : Z) : list Z :=
  match n with O => [] | S n => x mod 2 ^ b :: groups n b (x / 2 ^ b) end.

(** All groups that lie below the sign bit are tried. *)
Definition candidates (b x : Z) : list Z := groups (Z.to_nat (31 / b)) b x.

(** A generator for the range from [pmin] to [pmin + pdiff]. *)
Record gen_ok (g : UniformIntGen.t) : Prop := {
  gen_min : INT_MIN <= UniformIntGen.pmin g;
  gen_max : UniformIntGen.pmin g + UniformIntGen.pdiff g <= INT_MAX;
  gen_bits : 1 <= UniformIntGen.bitsize g <= 31;
  gen_mask : UniformIntGen.bitmask g = 2 ^ UniformIntGen.bitsize g - 1;
  gen_diff : 0 < UniformIntGen.pdiff g <= UniformIntGen.bitmask g;
}.

(** ** The constructor *)

Lemma i32_small z : INT_MIN <= z <= INT_MAX → i32 z = z.
Proof. unfold i32, INT_MIN, INT_MAX. intros Hz. rewrite Z.mod_small; lia. Qed.


Lemma pow2_le_31 b : 1 <= b <= 31 → 2 <= 2 ^ b <= 2 ^ 31.
Proof. intros Hb. split; [apply (Z.pow_le_mono_r 2 1); lia|apply Z.pow_le_mono_r; lia]. Qed.

(** On a range of more than one number the constructor sets up the smallest mask
    that covers it.  A range of one number, which is also the default of both
    arguments, shifts a 64-bit word by 64; a range of more than 2^31 numbers
    overflows [int]. *)
Theorem uniform_int_create `{CeilLog2} `{!CeilLog2Laws} lanes min max :
  INT_MIN <= min <= max → max <= INT_MAX →
  (min < max → max - min <= INT_MAX →
   ∃ g, UniformIntGen.create lanes min max = Ret g ∧ gen_ok g ∧
     UniformIntGen.pmin g = min ∧ UniformIntGen.pmin g + UniformIntGen.pdiff g = max ∧
     2 ^ (UniformIntGen.bitsize g - 1) <= UniformIntGen.pdiff g ∧
     UniformIntGen.cache g = replicate lanes 0 ∧ UniformIntGen.cache_rest_cnt g = 0) ∧
  (min = max → UniformIntGen.create lanes min max = Undef shift_out_of_range) ∧
  (INT_MAX < max - min → UniformIntGen.create lanes min max = Undef signed_overflow).
Proof.
  intros Hmin Hmax. unfold UniformIntGen.create, INT_MIN, INT_MAX in *. split_and!.
  - intros Hlt Hd. rewrite int_sub_ok by int_lia. cbn [mbind outcome_bind].
    rewrite !(u64_small (max - min)), !u64_small by lia. rewrite (proj2 (Z.ltb_lt _ _)) by lia.
    rewrite ceil_log2_exact by lia. cbn [mbind outcome_bind].
    set (b := Z.log2_up (max - min + 1)).
    assert (1 <= b <= 31) as Hb.
    { unfold b. split; [apply (Z.log2_up_le_mono 2); lia|apply (Z.log2_up_le_mono _ (2 ^ 31)); lia]. }
    pose proof (pow2_le_31 b Hb). destruct (Z.log2_up_spec (max - min + 1)) as [Hlo Hhi]; [lia|].
    fold b in Hlo, Hhi. rewrite <-Z.sub_1_r in Hlo.
    rewrite (proj2 (Z.eqb_neq b 0)), low_bits_mask, i32_small, u64_small by int_lia.
    eexists. split; [reflexivity|]. cbn.
    split; [split; cbn; int_lia|]. split_and!; done || lia.
  - intros ->. rewrite int_sub_ok by int_lia. cbn [mbind outcome_bind]. rewrite Z.sub_diag.
    change (u64 0 <? u64 (u64 0 + 1)) with true. cbn iota. change (u64 (u64 0 + 1)) with 1.
    by rewrite ceil_log2_exact by lia.
  - intros Hd. unfold int_sub, to_int, in_int. rewrite (proj2 (Z.leb_gt (max - min) INT_MAX)) by int_lia.
    by rewrite andb_false_r.
Qed.

(** ** The scalar call *)

Section Scalar.
Context {R : Type} `{Rng R} `{EigenConversions}.

(** The next [n] words of an engine, as [RandbitsGen<int>] gives them. *)
Fixpoint int_draws (n : nat) (rng : R) : outcome (list Z * R) :=
  match n with
  | O => Ret ([], rng)
  | S n =>
      '(x, rng) ← Randbits_call rng;
      '(xs, rng) ← int_draws n rng;
      Ret (x :: xs, rng)
  end.

Context (g : UniformIntGen.t) (Hg : gen_ok g).
#[local] Abbreviation b := (UniformIntGen.bitsize g).
#[local] Abbreviation d := (UniformIntGen.pdiff g).

Definition accepted (c : Z) : bool := c <=? d.

Lemma candidate_value rx : i32 (Z.land (u64 rx) (UniformIntGen.bitmask g)) = rx mod 2 ^ b.
Proof.
  destruct Hg as [_ _ Hb Hm _]. rewrite Hm, land_low_bits by lia. unfold u64.
  rewrite mod_pow2_mod by lia. pose proof (pow2_le_31 b Hb). pose proof (Z.mod_pos_bound rx (2 ^ b)).
  apply i32_small. int_lia.
Qed.

Lemma candidate_sum c : 0 <= c → accepted c = true → int_add c (UniformIntGen.pmin g) = Ret (UniformIntGen.pmin g + c).
Proof.
  intros Hc Ha. apply Z.leb_le in Ha. destruct Hg. rewrite int_add_ok by lia. f_equal. lia.
Qed.

Lemma groups_count : 1 <= 31 / b ∧ b * (31 / b) <= 31 < b * (31 / b) + b.
Proof.
  destruct Hg as [_ _ Hb _ _]. split; [apply Z.div_le_lower_bound; lia|].
  pose proof (Z.div_mod 31 b). pose proof (Z.mod_pos_bound 31 b). lia.
Qed.

(** What is left of a word after [31 / b - n] of its groups. *)
Lemma candidate_loop_word n fuel rx (rng : R) :
  (0 < n)%nat → Z.of_nat n <= 31 / b →
  UniformIntGen.candidate_loop (n + fuel) g rx ((31 / b - Z.of_nat n + 1) * b) rng =
  match List.find accepted (groups n b rx) with
  | Some c => Ret (UniformIntGen.pmin g + c, rng)
  | None => '(rx, rng) ← Randbits_call rng; UniformIntGen.candidate_loop fuel g rx b rng
  end.
Proof.
  pose proof groups_count as [_ Hcnt]. pose proof (gen_bits g Hg) as Hb.
  revert rx. induction n as [|n IH]; intros rx Hn Hle; [lia|].
  cbn [plus UniformIntGen.candidate_loop groups List.find]. rewrite candidate_value.
  pose proof (pow2_le_31 b Hb). pose proof (Z.mod_pos_bound rx (2 ^ b) ltac:(lia)) as Hmod.
  rewrite (u64_small (_ mod _)) by lia. fold (accepted (rx mod 2 ^ b)).
  destruct (accepted (rx mod 2 ^ b)) eqn:E; [by rewrite candidate_sum by (done || lia)|].
  rewrite u64_small by nia.
  destruct n as [|n].
  - rewrite (proj2 (Z.ltb_ge _ _)) by nia. done.
  - rewrite (proj2 (Z.ltb_lt _ _)) by nia. rewrite Z.shiftr_div_pow2 by lia.
    rewrite <-IH by lia. f_equal. lia.
Qed.

Lemma int_draws_S n (rng : R) xs rng' :
  int_draws (S n) rng = Ret (xs, rng') →
  ∃ x xs' rng1, xs = x :: xs' ∧ Randbits_call rng = Ret (x, rng1) ∧ int_draws n rng1 = Ret (xs', rng').
Proof.
  cbn [int_draws]. destruct (Randbits_call rng) as [[x rng1]| | |]; try done. cbn [mbind outcome_bind].
  destruct (int_draws n rng1) as [[xs' rng2]| | |] eqn:E; try done. cbn [mbind outcome_bind].
  intros [= <- <-]. by exists x, xs', rng1.
Qed.

Lemma candidate_loop_new fuel rx (rng : R) : (31 <= fuel)%nat →
  UniformIntGen.candidate_loop fuel g rx b rng =
  match List.find accepted (candidates b rx) with
  | Some c => Ret (UniformIntGen.pmin g + c, rng)
  | None =>
      '(rx, rng) ← Randbits_call rng;
      UniformIntGen.candidate_loop (fuel - Z.to_nat (31 / b)) g rx b rng
  end.
Proof.
  intros Hf. pose proof groups_count as [Hcnt Hcnt']. assert (31 / b <= 31) by (pose proof (gen_bits g Hg); nia).
  unfold candidates. rewrite <-candidate_loop_word by lia. rewrite Z2Nat.id by lia. f_equal; lia.
Qed.

(** The words of the engine up to the first one with a group in the range. *)
Lemma candidate_loop_ok pre x (rng rng' : R) c fuel :
  Forall (λ y, List.find accepted (candidates b y) = None) pre →
  List.find accepted (candidates b x) = Some c →
  int_draws (length (pre ++ [x])) rng = Ret (pre ++ [x], rng') →
  (31 * length (pre ++ [x]) <= fuel)%nat →
  ('(rx, rng) ← Randbits_call rng; UniformIntGen.candidate_loop fuel g rx b rng) =
    Ret (UniformIntGen.pmin g + c, rng').
Proof.
  intros Hpre Hx. pose proof groups_count as [Hcnt Hcnt'].
  assert (31 / b <= 31) by (pose proof (gen_bits g Hg); nia).
  revert rng fuel. induction Hpre as [|y pre Hy Hpre IH]; intros rng fuel Hd Hf; cbn [length app] in *;
    apply int_draws_S in Hd as (z & xs & rng1 & [= <- <-] & -> & Hd); cbn [mbind outcome_bind];
    rewrite candidate_loop_new by lia.
  - injection Hd as <-. by rewrite Hx.
  - rewrite Hy. apply IH; [done|lia].
Qed.

Lemma candidates_cons x : ∃ rest, candidates b x = x mod 2 ^ b :: rest.
Proof.
  pose proof groups_count as [Hcnt _]. unfold candidates.
  destruct (Z.to_nat (31 / b)) as [|n] eqn:E; [lia|]. by eexists.
Qed.

End Scalar.

(** [operator()] returns [pmin + c] for the first candidate [c] that is in the
    range, over the words that the engine gives one after another, and takes
    from the engine exactly the words up to the one that holds it; the result is
    in the range and no addition overflows.  A word whose lowest group is in the
    range gives that group, so that every number of the range has the same number
    of such words. *)
Theorem uniform_int_call {R : Type} `{Rng R} `{EigenConversions} g pre x (rng rng' : R) c fuel :
  gen_ok g →
  Forall (λ y, List.find (accepted g) (candidates (UniformIntGen.bitsize g) y) = None) pre →
  List.find (accepted g) (candidates (UniformIntGen.bitsize g) x) = Some c →
  int_draws (length (pre ++ [x])) rng = Ret (pre ++ [x], rng') →
  (31 * length (pre ++ [x]) <= fuel)%nat →
  UniformIntGen.call fuel g rng = Ret (UniformIntGen.pmin g + c, rng') ∧
  c <= UniformIntGen.pdiff g ∧
  ∀ c' y, 0 <= c' <= UniformIntGen.pdiff g →
    List.find (accepted g)
      (candidates (UniformIntGen.bitsize g) (c' + 2 ^ UniformIntGen.bitsize g * y)) = Some c'.
Proof.
  intros Hg Hpre Hx Hd Hf. pose proof (find_some _ _ Hx) as [_ Hc]. split_and!.
  - unfold UniformIntGen.call. destruct (Z.eqb_spec (UniformIntGen.pdiff g) (UniformIntGen.bitmask g)) as [Heq|].
    + assert (∀ y, List.find (accepted g) (candidates (UniformIntGen.bitsize g) y) =
        Some (y mod 2 ^ UniformIntGen.bitsize g)) as Hfirst.
      { intros y. destruct (candidates_cons g Hg y) as [rest ->]. cbn [List.find]. unfold accepted at 1.
        rewrite Heq, (gen_mask g Hg), (proj2 (Z.leb_le _ _)); [done|].
        pose proof (Z.mod_pos_bound y (2 ^ UniformIntGen.bitsize g)). pose proof (pow2_le_31 _ (gen_bits g Hg)). lia. }
      destruct Hpre as [|y pre Hy _]; [|by rewrite Hfirst in Hy].
      apply int_draws_S in Hd as (z & xs & rng1 & [= <- <-] & -> & Hd). injection Hd as <-.
      cbn [mbind outcome_bind]. rewrite Hfirst in Hx. injection Hx as <-.
      rewrite candidate_value by done. rewrite candidate_sum; [done|done| |done].
      apply Z.mod_pos_bound. pose proof (pow2_le_31 _ (gen_bits g Hg)). lia.
    + by eapply candidate_loop_ok.
  - by apply Z.leb_le.
  - intros c' y Hc'. destruct (candidates_cons g Hg (c' + 2 ^ UniformIntGen.bitsize g * y)) as [rest ->].
    pose proof (gen_diff g Hg). pose proof (gen_mask g Hg).
    rewrite Z.mul_comm, Z.mod_add, Z.mod_small by lia. cbn [List.find]. unfold accepted at 1.
    by rewrite (proj2 (Z.leb_le _ _)) by lia.
Qed.

(** ** The packet operation *)

(** The candidates of a packet of words. *)
Fixpoint packet_groups (n : nat) (b : Z) (r : list Z) : list (list Z) :=
  match n with
  | O => []
  | S n => ((λ x, x mod 2 ^ b) <$> r) :: packet_groups n b ((λ x, x / 2 ^ b) <$> r)
  end.
Definition packet_candidates (b : Z) (r : list Z) : list (list Z) :=
  packet_groups (Z.to_nat (31 / b)) b r.

(** Candidates in the range are queued until there is a packet of [n] of them; a
    packet of which all are in the range is returned at once. *)
Fixpoint fill (n : nat) (d : Z) (q : list Z) (cs : list (list Z)) : list Z + list Z * list Z :=
  match cs with
  | [] => inl q
  | c :: cs =>
      if forallb (λ x, x <=? d) c then inr (c, q)
      else
        let q := q ++ filter (λ x, x <= d) c in
        if (n <=? length q)%nat then inr (take n q, drop n q) else fill n d q cs
  end.

(** Over the packets of words [rs], all of which are used. *)
Fixpoint fills (n : nat) (b d : Z) (q : list Z) (rs : list (list Z)) : option (list Z * list Z) :=
  match rs with
  | [] => None
  | r :: rs =>
      match fill n d q (packet_candidates b r) with
      | inl q => fills n b d q rs
      | inr res => match rs with [] => Some res | _ => None end
      end
  end.

(** The lanes of a packet that a condition selects. *)
Lemma selected_filter (f : Z → bool) v :
  selected (f <$> v) v = filter (λ x, f x = true) v.
Proof. by rewrite selected_chosen, chosen_filter by apply length_fmap. Qed.

(** What the code relies on of [psrl<-1>]: a shift of every lane by a count. *)
Definition shifts (psrl : Z → list Z → Z → list Z) (n : nat) : Prop :=
  ∀ r k, register n r → 0 <= k < 32 → psrl (-1) r k = (λ x, Z.shiftr x k) <$> r.

Lemma srli_shifts k r : k < 32 → srli_epi32 k r = (λ x, Z.shiftr x k) <$> r.
Proof. intros Hk. unfold srli_epi32. by rewrite (proj2 (Z.ltb_lt _ _)). Qed.

Lemma sse_shifts : shifts SSE.psrl 2.
Proof. intros r k _ Hk. apply srli_shifts. lia. Qed.

Lemma avx_shifts fx : shifts (AVX.psrl fx) 4.
Proof.
  intros r k Hr Hk. rewrite <-srli_shifts by lia. lanes Hr. unfold AVX.psrl. by destruct (avx2 fx).
Qed.

Section Packets.
Context {R : Type} `{Rng R} `{EigenPackets} `{!EigenPacketLaws}.
Context (m : nat) (rawbits : R → outcome (list Z * R))
  (pcmplt : list Z → list Z → list Z) (psrl : Z → list Z → Z → list Z)
  (compress : list Z → list Z → list Z → Z → outcome appended).
Context (Hcmp : compares pcmplt m) (Hsrl : shifts psrl m) `{!Appends m compress}.

(** The queued candidates of a generator. *)
Record queue_ok (g : UniformIntGen.t) (q : list Z) : Prop := {
  queue_register : register m (UniformIntGen.cache g);
  queue_count : UniformIntGen.cache_rest_cnt g = Z.of_nat (length q);
  queue_room : (length q < 2 * m)%nat;
  queue_lanes : take (length q) (UniformIntGen.cache g) = q;
}.

Definition with_cache (g : UniformIntGen.t) (c : list Z) (n : Z) : UniformIntGen.t :=
  UniformIntGen.mk c n (UniformIntGen.pmin g) (UniformIntGen.pdiff g) (UniformIntGen.bitsize g)
    (UniformIntGen.bitmask g).

Lemma queue_words g q : queue_ok g q → Forall (word 32) q.
Proof. intros [[_ Hw] _ _ <-]. by apply Forall_take. Qed.

Lemma filter_accepted g (v : list Z) :
  filter (λ x, accepted g x = true) v = filter (λ x, x <= UniformIntGen.pdiff g) v.
Proof. apply list_filter_iff. intros x. apply Z.leb_le. Qed.

(** One call of [compress_append] on a packet of candidates. *)
Lemma append_candidates g q v :
  queue_ok g q → register m v →
  ∃ a, compress v (mask 32 <$> (accepted g <$> v)) (UniformIntGen.cache g) (UniformIntGen.cache_rest_cnt g) = Ret a ∧
    let d := UniformIntGen.pdiff g in
    if forallb (accepted g) v
    then full a = true ∧ value a = v ∧ queue_ok (with_cache g (rest a) (new_count a)) q
    else
      let q' := q ++ filter (λ x, x <= d) v in
      if (2 * m <=? length q')%nat
      then full a = true ∧ value a = take (2 * m) q' ∧
           queue_ok (with_cache g (rest a) (new_count a)) (drop (2 * m) q')
      else full a = false ∧ queue_ok (with_cache g (rest a) (new_count a)) q'.
Proof.
  intros Hq Hv. pose proof Hq as [Hreg Hcnt Hroom Hlanes].
  assert (length (mask 32 <$> (accepted g <$> v)) = (2 * m)%nat) as Hm
    by (rewrite !length_fmap; apply Hv).
  destruct (appends v _ _ (length q) Hv Hreg Hm Hroom) as (a & Ha & Hspec).
  exists a. rewrite Hcnt. split; [done|]. cbv zeta. unfold append_spec in Hspec.
  rewrite conditions_mask, Hlanes, selected_filter, filter_accepted in Hspec.
  replace (forallb (λ b, b) (accepted g <$> v)) with (forallb (accepted g) v) in Hspec
    by (clear; induction v as [|x v IH]; [done|]; cbn; by rewrite IH).
  destruct (forallb (accepted g) v).
  - rewrite Hspec. split_and!; try done.
  - set (q' := q ++ filter (λ x, x <= UniformIntGen.pdiff g) v) in *.
    assert (length q' < 4 * m)%nat as Hq'.
    { unfold q'. rewrite length_app. pose proof (length_filter (λ x, x <= UniformIntGen.pdiff g) v).
      rewrite (register_length m v Hv) in *. lia. }
    destruct Hspec as [[Hrl Hrw] Hspec].
    destruct (Nat.leb_spec (2 * m) (length q')); destruct Hspec as (Hval & Hfull & Hc & Ht).
    + split_and!; [done|done|]. split; cbn [with_cache UniformIntGen.cache UniformIntGen.cache_rest_cnt];
        [by split|rewrite length_drop; lia..|by rewrite length_drop].
    + split; [done|]. split; cbn [with_cache UniformIntGen.cache UniformIntGen.cache_rest_cnt]; [by split|done..].
Qed.

Context (g0 : UniformIntGen.t) (Hg0 : gen_ok g0)
  (Hdiff : UniformIntGen.pdiff g0 < UniformIntGen.bitmask g0).
#[local] Abbreviation b := (UniformIntGen.bitsize g0).
#[local] Abbreviation d := (UniformIntGen.pdiff g0).

Lemma mod_register rx : register m rx → register m ((λ x, x mod 2 ^ b) <$> rx).
Proof.
  intros [Hl _]. split; [by rewrite length_fmap|]. apply Forall_fmap, Forall_true. intros x. unfold word, compose.
  pose proof (pow2_le_31 b (gen_bits g0 Hg0)). pose proof (Z.mod_pos_bound x (2 ^ b)). lia.
Qed.

Lemma div_register rx : register m rx → register m ((λ x, Z.shiftr x b) <$> rx).
Proof.
  intros [Hl Hw]. split; [by rewrite length_fmap|]. apply Forall_fmap. eapply Forall_impl; [exact Hw|].
  intros x. unfold word, compose. rewrite Z.shiftr_div_pow2 by (pose proof (gen_bits g0 Hg0); lia).
  pose proof (pow2_le_31 b (gen_bits g0 Hg0)). intros Hx. split; [apply Z.div_pos; lia|].
  apply Z.div_lt_upper_bound; nia.
Qed.

Lemma signed_small z : z < 2 ^ 31 → signed 32 z = z.
Proof. intros Hz. unfold signed. by rewrite (proj2 (Z.ltb_lt _ _)) by lia. Qed.

(** The candidates of the code, and the comparison with the range. *)
Lemma masked_lanes rx : register m rx →
  pand rx (pset1 (length rx) (UniformIntGen.bitmask g0)) = (λ x, x mod 2 ^ b) <$> rx.
Proof.
  intros Hrx. pose proof (gen_bits g0 Hg0) as Hb. pose proof (pow2_le_31 b Hb).
  rewrite (register_length _ _ Hrx), pset1_lanes, (pand_lanes m) by (done || apply set1_register32).
  unfold and_si, set1_epi32. rewrite zip_with_replicate_r_eq by apply Hrx.
  rewrite (gen_mask g0 Hg0), u32_id by (unfold word; lia).
  apply list_fmap_ext. intros _ x _. apply land_low_bits. lia.
Qed.

Lemma compared_lanes v n : register m v → Forall (λ c, c < 2 ^ b) v → length v = n →
  pcmplt v (pset1 n (u64 (d + 1))) = mask 32 <$> (accepted g0 <$> v).
Proof.
  intros Hv Hb <-. pose proof (pow2_le_31 b (gen_bits g0 Hg0)).
  pose proof (gen_diff g0 Hg0). pose proof (gen_mask g0 Hg0).
  rewrite (register_length _ _ Hv), pset1_lanes, Hcmp by (done || apply set1_register32).
  rewrite u64_small by lia. unfold cmpgt_epi32, set1_epi32. rewrite u32_id by (unfold word; lia).
  rewrite <-list_fmap_compose, <-(register_length _ _ Hv). clear Hv.
  induction Hb as [|c v Hc Hv IH]; [done|]. cbn [length replicate zip_with fmap list_fmap].
  f_equal; [|done]. unfold compose, accepted. rewrite !signed_small by lia. f_equal. apply eq_true_iff_eq. rewrite Z.ltb_lt, Z.leb_le. lia.
Qed.

(** The sum with the lower end of the range, lane by lane. *)
Definition results (p : list Z) : list Z := (λ c, u32 (c + UniformIntGen.pmin g0)) <$> p.

Lemma results_lanes p n : register m p → n = (2 * m)%nat →
  padd p (pset1 n (UniformIntGen.pmin g0)) = results p.
Proof.
  intros Hp ->. rewrite pset1_lanes, (padd_lanes m) by (done || apply set1_register32).
  unfold add_epi32, set1_epi32. rewrite zip_with_replicate_r_eq by apply Hp.
  apply list_fmap_ext. intros _ c _. unfold u32. by rewrite Z.add_mod_idemp_r.
Qed.

#[local] Abbreviation loop fuel g :=
  (UniformIntGen.packet_loop rawbits pcmplt psrl compress fuel g).

(** What is left of a packet of words after [31 / b - n] of its groups. *)
Lemma packet_loop_word n fuel c k q rx (rng : R) :
  (0 < n)%nat → Z.of_nat n <= 31 / b → register m rx → queue_ok (with_cache g0 c k) q →
  match fill (2 * m) d q (packet_groups n b rx) with
  | inr (p, q') => ∃ c' k',
      loop (n + fuel) (with_cache g0 c k) rx ((31 / b - Z.of_nat n + 1) * b) rng =
        Ret (results p, with_cache g0 c' k', rng) ∧ queue_ok (with_cache g0 c' k') q' ∧ register m p
  | inl q' => ∃ c' k',
      loop (n + fuel) (with_cache g0 c k) rx ((31 / b - Z.of_nat n + 1) * b) rng =
        ('(rx, rng) ← Randbits_packetOp rawbits rng; loop fuel (with_cache g0 c' k') rx b rng) ∧
      queue_ok (with_cache g0 c' k') q'
  end.
Proof.
  pose proof (groups_count g0 Hg0) as [_ Hcnt]. pose proof (gen_bits g0 Hg0) as Hb. pose proof (pow2_le_31 b Hb).
  revert rx c k q. induction n as [|n IH]; intros rx c k q Hn Hle Hrx Hq; [lia|].
  cbn [packet_groups fill plus UniformIntGen.packet_loop].
  assert (Forall (λ x, x < 2 ^ b) ((λ x, x mod 2 ^ b) <$> rx)) as Hlt.
  { apply Forall_fmap, Forall_true. intros x. apply Z.mod_pos_bound. lia. }
  pose proof (mod_register rx Hrx) as Hv.
  change (UniformIntGen.bitmask (with_cache g0 c k)) with (UniformIntGen.bitmask g0).
  change (UniformIntGen.pdiff (with_cache g0 c k)) with d.
  change (UniformIntGen.pmin (with_cache g0 c k)) with (UniformIntGen.pmin g0).
  change (UniformIntGen.bitsize (with_cache g0 c k)) with b.
  rewrite masked_lanes, compared_lanes by (done || by rewrite length_fmap).
  destruct (append_candidates (with_cache g0 c k) q _ Hq Hv) as (a & Ha & Hcase).
  change (accepted (with_cache g0 c k)) with (accepted g0) in Ha, Hcase. rewrite Ha. cbn [mbind outcome_bind].
  cbv zeta in Hcase. change (UniformIntGen.pdiff (with_cache g0 c k)) with d in Hcase.
  change (with_cache (with_cache g0 c k) (rest a) (new_count a))
    with (with_cache g0 (rest a) (new_count a)) in Hcase.
  change (UniformIntGen.mk (rest a) (new_count a) (UniformIntGen.pmin g0) d b (UniformIntGen.bitmask g0))
    with (with_cache g0 (rest a) (new_count a)).
  change (λ x, x <=? d) with (accepted g0).
  change (UniformIntGen.bitsize (with_cache g0 (rest a) (new_count a))) with b.
  change (UniformIntGen.pmin (with_cache g0 (rest a) (new_count a))) with (UniformIntGen.pmin g0).
  destruct (forallb (accepted g0) ((λ x, x mod 2 ^ b) <$> rx)).
  { destruct Hcase as (Hf & Hval & Hq'). exists (rest a), (new_count a). rewrite Hf, Hval.
    rewrite results_lanes by (done || apply (register_length _ _ Hrx)). done. }
  set (q' := q ++ filter (λ x, x <= d) ((λ x, x mod 2 ^ b) <$> rx)) in *.
  assert (Forall (word 32) q') as Hw'.
  { apply Forall_app. split; [by apply (queue_words _ _ Hq)|].
    apply Forall_forall. intros x [_ Hx]%list_elem_of_filter.
    by apply (proj1 (Forall_forall _ _) (register_lanes _ _ Hv)). }
  destruct (Nat.leb_spec (2 * m) (length q')).
  { destruct Hcase as (Hf & Hval & Hq'). exists (rest a), (new_count a). rewrite Hf, Hval.
    assert (register m (take (2 * m) q')) by (split; [rewrite length_take; lia|by apply Forall_take]).
    by rewrite results_lanes by (done || apply (register_length _ _ Hrx)). }
  destruct Hcase as [Hf Hq']. rewrite Hf.
  assert (0 <= (31 / b - Z.of_nat (S n) + 1) * b <= b * (31 / b)) by nia.
  rewrite u64_small by lia. destruct n as [|n].
  - rewrite (proj2 (Z.ltb_ge _ _)) by nia. cbn [packet_groups fill]. by exists (rest a), (new_count a).
  - rewrite (proj2 (Z.ltb_lt _ _)) by nia. rewrite Hsrl by (done || lia).
    specialize (IH ((λ x, Z.shiftr x b) <$> rx) (rest a) (new_count a) q' ltac:(lia) ltac:(lia)
      (div_register rx Hrx) Hq').
    replace ((λ x, x / 2 ^ b) <$> rx) with ((λ x, Z.shiftr x b) <$> rx)
      by (apply list_fmap_ext; intros _ x _; apply Z.shiftr_div_pow2; lia).
    replace ((31 / b - Z.of_nat (S (S n)) + 1) * b + b) with ((31 / b - Z.of_nat (S n) + 1) * b) by lia.
    exact IH.
Qed.

Lemma packet_loop_new fuel c k q rx (rng : R) :
  (31 <= fuel)%nat → register m rx → queue_ok (with_cache g0 c k) q →
  match fill (2 * m) d q (packet_candidates b rx) with
  | inr (p, q') => ∃ c' k',
      loop fuel (with_cache g0 c k) rx b rng = Ret (results p, with_cache g0 c' k', rng) ∧
      queue_ok (with_cache g0 c' k') q' ∧ register m p
  | inl q' => ∃ c' k',
      loop fuel (with_cache g0 c k) rx b rng =
        ('(rx, rng) ← Randbits_packetOp rawbits rng;
         loop (fuel - Z.to_nat (31 / b)) (with_cache g0 c' k') rx b rng) ∧
      queue_ok (with_cache g0 c' k') q'
  end.
Proof.
  intros Hf Hrx Hq. pose proof (groups_count g0 Hg0) as [Hcnt Hcnt'].
  assert (31 / b <= 31) by (pose proof (gen_bits g0 Hg0); nia).
  pose proof (packet_loop_word (Z.to_nat (31 / b)) (fuel - Z.to_nat (31 / b)) c k q rx rng
    ltac:(lia) ltac:(lia) Hrx Hq) as Hw.
  replace (Z.to_nat (31 / b) + (fuel - Z.to_nat (31 / b)))%nat with fuel in Hw by lia.
  replace ((31 / b - Z.of_nat (Z.to_nat (31 / b)) + 1) * b) with b in Hw by (rewrite Z2Nat.id; lia).
  exact Hw.
Qed.

(** The next [n] packets of random words. *)
Fixpoint packet_draws (n : nat) (rng : R) : outcome (list (list Z) * R) :=
  match n with
  | O => Ret ([], rng)
  | S n =>
      '(r, rng) ← Randbits_packetOp rawbits rng;
      '(rs, rng) ← packet_draws n rng;
      Ret (r :: rs, rng)
  end.

Lemma packet_draws_S n (rng : R) rs rng' :
  packet_draws (S n) rng = Ret (rs, rng') →
  ∃ r rs' rng1, rs = r :: rs' ∧ Randbits_packetOp rawbits rng = Ret (r, rng1) ∧
    packet_draws n rng1 = Ret (rs', rng').
Proof.
  cbn [packet_draws]. destruct (Randbits_packetOp rawbits rng) as [[r rng1]| | |]; try done.
  cbn [mbind outcome_bind].
  destruct (packet_draws n rng1) as [[rs' rng2]| | |] eqn:E; try done. cbn [mbind outcome_bind].
  intros [= <- <-]. by exists r, rs', rng1.
Qed.

Lemma packet_loop_ok rs fuel c k q (rng rng' : R) p q' :
  Forall (register m) rs → queue_ok (with_cache g0 c k) q →
  packet_draws (length rs) rng = Ret (rs, rng') →
  fills (2 * m) b d q rs = Some (p, q') → (31 * length rs <= fuel)%nat →
  ∃ c' k', ('(rx, rng) ← Randbits_packetOp rawbits rng; loop fuel (with_cache g0 c k) rx b rng) =
      Ret (results p, with_cache g0 c' k', rng') ∧ queue_ok (with_cache g0 c' k') q'.
Proof.
  intros Hrs. pose proof (groups_count g0 Hg0) as [Hcnt Hcnt'].
  assert (31 / b <= 31) by (pose proof (gen_bits g0 Hg0); nia).
  revert fuel c k q rng. induction Hrs as [|r rs Hr Hrs IH]; intros fuel c k q rng Hq Hd Hfill Hf; [done|].
  apply packet_draws_S in Hd as (r' & rs' & rng1 & [= <- <-] & -> & Hd). cbn [mbind outcome_bind length fills] in *.
  pose proof (packet_loop_new fuel c k q r rng1 ltac:(lia) Hr Hq) as Hloop.
  destruct (fill (2 * m) d q (packet_candidates b r)) as [q1|[p1 q1]].
  - destruct Hloop as (c1 & k1 & -> & Hq1). by apply (IH _ c1 k1 q1); [..|lia].
  - destruct rs as [|r2 rs]; [|done]. injection Hfill as -> ->. cbn in Hd. injection Hd as <-.
    destruct Hloop as (c1 & k1 & -> & Hq1 & _). by exists c1, k1.
Qed.

End Packets.

(** Candidates handed out and queued are in the range. *)
Lemma fill_range n d q cs p q' :
  Forall (λ c, 0 <= c <= d) q → Forall (Forall (Z.le 0)) cs → fill n d q cs = inr (p, q') →
  Forall (λ c, 0 <= c <= d) p ∧ Forall (λ c, 0 <= c <= d) q'.
Proof.
  intros Hq Hcs. revert q Hq. induction Hcs as [|c cs Hc Hcs IH]; intros q Hq; [done|]. cbn [fill].
  destruct (forallb _ c) eqn:E.
  - intros [= <- <-]. split; [|done]. apply Forall_forall. intros x Hx.
    rewrite forallb_forall in E. specialize (E x ltac:(by apply list_elem_of_In)).
    rewrite Forall_forall in Hc. specialize (Hc x Hx). apply Z.leb_le in E. lia.
  - assert (Forall (λ x, 0 <= x <= d) (q ++ filter (λ x, x <= d) c)) as Hq1.
    { apply Forall_app. split; [done|]. apply Forall_forall. intros x [? Hx]%list_elem_of_filter.
      rewrite Forall_forall in Hc. specialize (Hc x Hx). lia. }
    destruct (_ <=? _)%nat; [|by apply IH]. intros [= <- <-]. split; [by apply Forall_take|by apply Forall_drop].
Qed.

Lemma fill_queue_range n d q cs q' :
  Forall (λ c, 0 <= c <= d) q → Forall (Forall (Z.le 0)) cs → fill n d q cs = inl q' →
  Forall (λ c, 0 <= c <= d) q'.
Proof.
  intros Hq Hcs. revert q Hq. induction Hcs as [|c cs Hc Hcs IH]; intros q Hq; cbn [fill]; [by intros [= <-]|].
  destruct (forallb _ c) eqn:E; [done|]. destruct (_ <=? _)%nat; [done|]. apply IH.
  apply Forall_app. split; [done|]. apply Forall_forall. intros x [? Hx]%list_elem_of_filter.
  rewrite Forall_forall in Hc. specialize (Hc x Hx). lia.
Qed.

Lemma packet_groups_nonneg n b r : 0 <= b → Forall (Forall (Z.le 0)) (packet_groups n b r).
Proof.
  intros Hb. revert r. induction n as [|n IH]; intros r; constructor; [|apply IH].
  apply Forall_fmap, Forall_true. intros x. apply Z.mod_pos_bound, Z.pow_pos_nonneg; lia.
Qed.

Lemma fills_range n b d q rs p q' :
  0 <= b → Forall (λ c, 0 <= c <= d) q → fills n b d q rs = Some (p, q') →
  Forall (λ c, 0 <= c <= d) p ∧ Forall (λ c, 0 <= c <= d) q'.
Proof.
  intros Hb. revert q. induction rs as [|r rs IH]; intros q Hq; [done|]. cbn [fills].
  pose proof (packet_groups_nonneg (Z.to_nat (31 / b)) b r Hb) as Hnn.
  destruct (fill n d q (packet_candidates b r)) as [q1|[p1 q1]] eqn:E.
  - apply IH. by eapply fill_queue_range.
  - destruct rs; [|done]. intros [= <- <-]. by eapply fill_range.
Qed.

(** As soon as a packet's worth of candidates in the range has come, there is a
    result. *)
Lemma fill_enough n d q cs :
  (n <= length q + length (concat ((λ c : list Z, filter (λ x, x <= d)%Z c) <$> cs)))%nat → (length q < n)%nat →
  ∃ p q', fill n d q cs = inr (p, q').
Proof.
  revert q. induction cs as [|c cs IH]; intros q Hle Hq; cbn in Hle; [lia|]. cbn [fill].
  destruct (forallb _ c); [by exists c, q|].
  destruct (Nat.leb_spec n (length (q ++ filter (λ x, x <= d)%Z c))); [by do 2 eexists|].
  apply IH; [|done]. rewrite length_app in *. lia.
Qed.

(** When every candidate is in the range a packet of words is used at once. *)
Lemma fills_all n d b q r rs p q' :
  1 <= b <= 31 → d = 2 ^ b - 1 → fills n b d q (r :: rs) = Some (p, q') →
  rs = [] ∧ p = (λ x, x mod 2 ^ b) <$> r ∧ q' = q.
Proof.
  intros Hb ->. pose proof (pow2_le_31 b Hb). cbn [fills]. unfold packet_candidates.
  assert (1 <= 31 / b) by (apply Z.div_le_lower_bound; lia).
  destruct (Z.to_nat (31 / b)) as [|k] eqn:E; [lia|]. cbn [packet_groups fill].
  assert (forallb (λ x, x <=? 2 ^ b - 1) ((λ x, x mod 2 ^ b) <$> r) = true) as ->.
  { apply forallb_forall. intros x Hx. apply list_elem_of_In, list_elem_of_fmap in Hx as (y & -> & _).
    apply Z.leb_le. pose proof (Z.mod_pos_bound y (2 ^ b)). lia. }
  destruct rs; [|done]. by intros [= <- <-].
Qed.

(** C23. [packetOp] takes its candidates from the packets that the engine gives, group
    by group, and hands out [pmin + c] for the first packet's worth of
    candidates [c] that are in the range, those queued by earlier calls first;
    the rest of them is queued for the next call.  A packet of candidates that
    are all in the range is returned as it is, before what is queued.  No
    candidate that is not in the range is ever handed out or queued, and no more
    packets are taken from the engine than needed. *)
Theorem uniform_int_packet {R : Type} `{Rng R} `{EigenPackets} `{!EigenPacketLaws} m
    (rawbits : R → outcome (list Z * R)) pcmplt psrl compress `{!Appends m compress}
    g q rs (rng rng' : R) p q' fuel :
  compares pcmplt m → shifts psrl m → gen_ok g → queue_ok m g q →
  Forall (λ c, 0 <= c <= UniformIntGen.pdiff g) q → Forall (register m) rs →
  packet_draws rawbits (length rs) rng = Ret (rs, rng') →
  fills (2 * m) (UniformIntGen.bitsize g) (UniformIntGen.pdiff g) q rs = Some (p, q') →
  (31 * length rs <= fuel)%nat →
  ∃ g', UniformIntGen.packetOp rawbits pcmplt psrl compress fuel g rng =
      Ret ((λ c, u32 (UniformIntGen.pmin g + c)) <$> p, g', rng') ∧
    queue_ok m g' q' ∧ gen_ok g' ∧
    Forall (λ c, 0 <= c <= UniformIntGen.pdiff g) p ∧ Forall (λ c, 0 <= c <= UniformIntGen.pdiff g) q'.
Proof.
  intros Hcmp Hsrl Hg Hq Hqr Hrs Hd Hfill Hf. pose proof (gen_bits g Hg) as Hb.
  assert ((λ c, u32 (UniformIntGen.pmin g + c)) <$> p = results g p) as ->
    by (apply list_fmap_ext; intros; by rewrite Z.add_comm).
  pose proof (fills_range (2 * m) (UniformIntGen.bitsize g) _ _ _ _ _ ltac:(lia) Hqr Hfill) as Hrange.
  destruct rs as [|r rs]; [done|].
  destruct (Z.eqb_spec (UniformIntGen.pdiff g) (UniformIntGen.bitmask g)) as [Heq|Hne].
  - apply fills_all in Hfill as (-> & -> & ->); [|done|by rewrite Heq, (gen_mask g Hg)].
    apply packet_draws_S in Hd as (r' & rs' & rng1 & [= <- <-] & Hd & Hd'). injection Hd' as <-.
    apply Forall_cons in Hrs as [Hr _]. exists g. split; [|done].
    unfold UniformIntGen.packetOp. rewrite Hd. cbn [mbind outcome_bind]. rewrite Heq, Z.eqb_refl.
    rewrite (masked_lanes m) by done.
    by rewrite (results_lanes m) by (apply (register_length _ _ Hr) || (apply mod_register; done)).
  - destruct (packet_loop_ok m rawbits pcmplt psrl compress Hcmp Hsrl g Hg
      ltac:(pose proof (gen_diff g Hg); lia) (r :: rs) fuel (UniformIntGen.cache g)
      (UniformIntGen.cache_rest_cnt g) q rng rng' p q') as (c' & k' & Hloop & Hq'); try done; [by destruct g|].
    exists (with_cache g c' k'). split; [|split; [done|split; [|done]]].
    + rewrite <-Hloop. unfold UniformIntGen.packetOp.
      assert (with_cache g (UniformIntGen.cache g) (UniformIntGen.cache_rest_cnt g) = g) as -> by (by destruct g).
      destruct (Randbits_packetOp rawbits rng) as [[rx rng1]| | |]; try done. cbn [mbind outcome_bind].
      by rewrite (proj2 (Z.eqb_neq _ _)).
    + by destruct Hg; split.
Qed.

(** ** Witnesses *)

#[local] Existing Instance recorded_rng.
#[local] Existing Instance instructions.
#[local] Existing Instance instructions_laws.
#[local] Instance first_lane : EigenConversions :=
  {| pfirst_packet r := signed 32 (lane r 0); pcast l := replicate (length l) 0 |}.

Lemma uniform_int_create_witness :
  UniformIntGen.create (H2 := exact_log2) 4 7 7 = Undef shift_out_of_range ∧
  UniformIntGen.create (H2 := exact_log2) 4 INT_MIN 0 = Undef signed_overflow.
Proof.
  split.
  - refine (proj1 (proj2 (uniform_int_create (H := exact_log2) (H0 := exact_log2_laws) 4 7 7 _ _)) _);
      int_lia.
  - refine (proj2 (proj2 (uniform_int_create (H := exact_log2) (H0 := exact_log2_laws) 4 INT_MIN 0 _ _)) _);
      int_lia.
Defined.

(** A generator for a die: 1 to 6 from groups of three bits. *)
Definition die : UniformIntGen.t := UniformIntGen.mk [0; 0; 0; 0] 0 1 5 3 7.

Lemma die_ok : gen_ok die.
Proof. split; cbn; int_lia. Qed.

(** The groups 6 and 7 are rejected: all ten of the first word are 7. *)
Lemma uniform_int_call_witness :
  UniformIntGen.call 62 die [scalar_result 4 (2 ^ 30 - 1); scalar_result 4 30; scalar_result 4 1] =
    Ret (4, [scalar_result 4 1]).
Proof.
  refine (proj1 (uniform_int_call die [2 ^ 30 - 1] 30
    [scalar_result 4 (2 ^ 30 - 1); scalar_result 4 30; scalar_result 4 1] [scalar_result 4 1] 3 62
    die_ok _ _ _ _)); [by repeat constructor|reflexivity..|cbn; lia].
Defined.

Definition next_packet (l : list random) : outcome (list Z * list random) :=
  '(x, l) ← rng_call l; Ret (as_packet x, l).

Lemma uniform_int_packet_witness : ∃ g,
  UniformIntGen.packetOp next_packet cmplt_epi32 SSE.psrl
    (SSEFilter.compress_append (mk_features true true true true) SSEFilter.create) 31 die
    [packet_result [31; 22; 13; 4]] = Ret ([4; 3; 2; 1], g, []) ∧ queue_ok 2 g [5; 4].
Proof.
  assert (register 2 [31; 22; 13; 4]) as Hr by (split; [done|]; repeat constructor; unfold word; lia).
  assert (queue_ok 2 die []) as Hq
    by (split; [split; [done|]; repeat constructor; unfold word; lia|done|cbn; lia|done]).
  destruct (uniform_int_packet 2 next_packet cmplt_epi32 SSE.psrl
    (SSEFilter.compress_append (mk_features true true true true) SSEFilter.create) die []
    [[31; 22; 13; 4]] [packet_result [31; 22; 13; 4]] [] [3; 2; 1; 0] [5; 4] 31)
    as (g & Hp & Hq' & _); [done|apply sse_shifts|apply die_ok|done|done|by repeat constructor|
      reflexivity|vm_compute; reflexivity|cbn; lia|]. by exists g.
Defined.
