(* ===== verification/DiscreteProps.v ===== *)
(** [DiscreteGen<int32_t, int32_t>]: what the scalar call and the packet
    operation draw for a random word, and where they differ. *)

From S2P Require Import Prelude.
From S2P Require Import Num.
From S2P Require Import NumR.
From S2P Require Import Simd.
From S2P Require Import PacketMath.
From S2P Require Import PacketMathProps.
From S2P Require Import FloatBitsProps.
From S2P Require Import RandUtils.
From S2P Require Import Basic.
From S2P Require Import BasicProps.
From S2P Require Import Alias.
From S2P Require Import AliasProps.
From S2P Require Import Discrete.
From S2P Require Import UniformIntProps.
From Stdlib Require Import Reals Lra.

#[local] Open Scope Z_scope.

(** ** Thresholds *)

(** The number of thresholds that a condition selects. *)
Definition count_below (P : Z → Prop) `{!∀ c, Decision (P c)} (l : list Z) : Z :=
  Z.of_nat (length (filter P l)).

(** All thresholds but the last one. *)
Definition inner (cdf : list Z) : list Z := take (length cdf - 1) cdf.

(** The value that the scalar call gives for 31 random bits, and the one of the
    packet operation, which reads the thresholds as signed. *)
Definition scalar_value (cdf : list Z) (u : Z) : Z := count_below (λ c, c < u) (inner cdf).
Definition packet_value (cdf : list Z) (u : Z) : Z := count_below (λ c, signed 32 c <= u) (inner cdf).

(** What the code relies on of [pgather]: each index is an index of the array. *)
Definition gathers (pgather : ∀ A, list A → list Z → outcome (list A)) : Prop :=
  ∀ A (addr : list A) index, Forall (λ i, 0 <= i < 2 ^ 31) index →
    pgather A addr index = mapM (array_get addr) index.

Lemma signed_gathers {A} (addr : list A) index :
  Forall (λ i, 0 <= i < 2 ^ 31) index →
  mapM (λ i, array_get addr (signed 32 i)) index = mapM (array_get addr) index.
Proof. induction 1 as [|i index Hi _ IH]; [done|]. cbn. by rewrite IH, signed_small by lia. Qed.

Lemma sse_gathers fx : gathers (@SSE.pgather fx).
Proof. intros A addr index Hi. unfold SSE.pgather. destruct (avx2 fx); [by apply signed_gathers|done]. Qed.

Lemma avx_gathers fx : gathers (@AVX.pgather fx).
Proof. intros A addr index Hi. unfold AVX.pgather. destruct (avx2 fx); [by apply signed_gathers|done]. Qed.

Section Draws.
Context {R : Type} `{Rng R} `{EigenPackets} `{!EigenPacketLaws} `{EigenConversions}.
Context (m : nat) (rawbits : R → outcome (list Z * R))
  (pcmplt : list Z → list Z → list Z) (pblendv : list Z → list Z → list Z → list Z)
  (psrl : Z → list Z → Z → list Z) (pgather : ∀ A, list A → list Z → outcome (list A)).
Context (Hcmp : compares pcmplt m) (Hblend : blends pblendv m)
  (Hsrl : ∀ r, register m r → psrl 1 r 0 = (λ x, Z.shiftr x 1) <$> r) (Hgather : gathers pgather).

(** One threshold of the loop: a lane counts down if its word is below it. *)
Lemma count_step rx v c : register m rx → Forall (λ x, x < 2 ^ 31) rx → length v = length rx → word 32 c →
  Forall (word 32) v →
  padd v (pcmplt rx (pset1 (length rx) c)) =
    zip_with (λ y x, u32 (y - (if x <? signed 32 c then 1 else 0))) v rx.
Proof.
  intros Hrx Hlt Hl Hc Hv. rewrite (register_length _ _ Hrx), pset1_lanes, Hcmp by (done || apply set1_register32).
  unfold cmpgt_epi32, set1_epi32. rewrite u32_id by done.
  assert (∀ (l : list Z), zip_with (λ a b, mask 32 (signed 32 b <? signed 32 a)) (replicate (length l) c) l =
    (λ x, mask 32 (signed 32 x <? signed 32 c)) <$> l) as Hz.
  { clear. intros l. induction l; simpl; by f_equal. }
  rewrite <-(register_length _ _ Hrx), Hz, (padd_lanes m).
  - unfold add_epi32. rewrite zip_with_fmap_r. clear Hv Hrx. revert v Hl.
    induction Hlt as [|x rx Hx Hlt IH]; intros [|y v] Hl; try done. cbn. f_equal; [|apply IH; by injection Hl].
    rewrite (signed_small x) by done. unfold u32. destruct (x <? signed 32 c); cbn [mask].
    + replace (y + (2 ^ 32 - 1)) with (y - 1 + 1 * 2 ^ 32) by lia. by rewrite Z.mod_add.
    + by rewrite Z.add_0_r, Z.sub_0_r.
  - split; [by rewrite Hl, (register_length _ _ Hrx)|done].
  - split; [by rewrite length_fmap, (register_length _ _ Hrx)|]. apply Forall_fmap, Forall_true.
    intros x. unfold compose, mask, word. destruct (_ <? _); lia.
Qed.

(** The loop over the thresholds, from [k] in every lane. *)
Lemma count_loop_ok l rx (k : Z → Z) :
  register m rx → Forall (λ x, x < 2 ^ 31) rx → Forall (word 32) l →
  (∀ x, Z.of_nat (length l) <= k x < 2 ^ 32) →
  DiscreteGen.count_loop pcmplt l rx (k <$> rx) =
    (λ x, k x - count_below (λ c, x < signed 32 c) l) <$> rx.
Proof.
  intros Hrx Hlt Hl. revert k. induction Hl as [|c l Hc Hl IH]; intros k Hk; cbn [DiscreteGen.count_loop].
  - apply list_fmap_ext. intros _ x _. unfold count_below. cbn. lia.
  - assert (∀ x, k x - (if x <? signed 32 c then 1 else 0) = u32 (k x - (if x <? signed 32 c then 1 else 0))) as Hu.
    { intros x. symmetry. apply Z.mod_small. specialize (Hk x). cbn [length] in Hk. destruct (_ <? _); lia. }
    rewrite count_step; try done.
    + rewrite zip_with_fmap_l, zip_with_diag. rewrite IH.
      * apply list_fmap_ext. intros _ x _. rewrite <-Hu. unfold count_below.
        destruct (Z.ltb_spec x (signed 32 c)); [rewrite filter_cons_True by done|rewrite filter_cons_False by lia];
          cbn [length]; lia.
      * intros x. rewrite <-Hu. specialize (Hk x). cbn [length] in Hk. destruct (_ <? _); lia.
    + by rewrite length_fmap.
    + apply Forall_fmap, Forall_true. intros x. specialize (Hk x). unfold compose, word. lia.
Qed.

Lemma count_complement (P Q : Z → Prop) `{!∀ c, Decision (P c)} `{!∀ c, Decision (Q c)} l :
  (∀ c, P c ↔ ¬ Q c) → Z.of_nat (length l) - count_below P l = count_below Q l.
Proof.
  intros HPQ. unfold count_below. induction l as [|c l IH]; [done|].
  destruct (decide (Q c)) as [Hq|Hq].
  - rewrite (filter_cons_True Q), (filter_cons_False P) by naive_solver. cbn [length]. lia.
  - rewrite (filter_cons_False Q), (filter_cons_True P) by naive_solver. cbn [length]. lia.
Qed.

Lemma length_inner cdf : length (inner cdf) = (length cdf - 1)%nat.
Proof. unfold inner. rewrite length_take. lia. Qed.

Lemma low_lanes r : register m r → pand r (pset1 (length r) 0x7FFFFFFF) = (λ x, x mod 2 ^ 31) <$> r.
Proof.
  intros Hr. rewrite (register_length _ _ Hr), pset1_lanes, (pand_lanes m) by (done || apply set1_register32).
  unfold and_si, set1_epi32. rewrite zip_with_replicate_r_eq by apply Hr.
  apply list_fmap_ext. intros _ x _. apply low31.
Qed.

Lemma low_register r : register m r → register m ((λ x, x mod 2 ^ 31) <$> r).
Proof.
  intros [Hl _]. split; [by rewrite length_fmap|]. apply Forall_fmap, Forall_true. intros x.
  unfold compose, word. pose proof (Z.mod_pos_bound x (2 ^ 31)). lia.
Qed.

Lemma packet_values_cdf g rng r rng' :
  DiscreteGen.cdf g ≠ [] → Forall (word 32) (DiscreteGen.cdf g) →
  Z.of_nat (length (DiscreteGen.cdf g)) < 2 ^ 32 → rawbits rng = Ret (r, rng') → register m r →
  DiscreteGen.packet_values rawbits pcmplt pblendv psrl pgather g rng =
    Ret ((λ x, packet_value (DiscreteGen.cdf g) (x mod 2 ^ 31)) <$> r, rng').
Proof.
  intros Hne Hw Hlen Hraw Hr. unfold DiscreteGen.packet_values, Randbits_packetOp. rewrite Hraw.
  cbn [mbind outcome_bind]. rewrite bool_decide_eq_false_2 by done. cbn [negb]. do 2 f_equal.
  assert (0 < length (DiscreteGen.cdf g))%nat by (destruct (DiscreteGen.cdf g); [done|cbn; lia]).
  rewrite low_lanes by done. fold (inner (DiscreteGen.cdf g)).
  pose proof (length_inner (DiscreteGen.cdf g)) as Hin.
  assert (pset1 (length r) (u64 (Z.of_nat (length (DiscreteGen.cdf g)) - 1)) =
    (λ _, Z.of_nat (length (inner (DiscreteGen.cdf g)))) <$> ((λ x, x mod 2 ^ 31) <$> r)) as ->.
  { rewrite pset1_lanes, u64_small by lia. unfold set1_epi32. rewrite u32_id by (unfold word; lia).
    rewrite <-list_fmap_compose, Hin. replace (Z.of_nat (_ - 1)) with (Z.of_nat (length (DiscreteGen.cdf g)) - 1) by lia.
    clear. induction r; [done|]. cbn. by f_equal. }
  rewrite count_loop_ok.
  - rewrite <-list_fmap_compose. apply list_fmap_ext. intros _ x _. apply count_complement. intros c. lia.
  - by apply low_register.
  - apply Forall_fmap, Forall_true. intros x. apply Z.mod_pos_bound. lia.
  - by apply Forall_take.
  - intros _. lia.
Qed.

Lemma count_ext (P Q : Z → Prop) `{!∀ c, Decision (P c)} `{!∀ c, Decision (Q c)} l :
  Forall (λ c, P c ↔ Q c) l → count_below P l = count_below Q l.
Proof.
  unfold count_below. induction 1 as [|c l Hc _ IH]; [done|]. destruct (decide (P c)).
  - rewrite !filter_cons_True by tauto. cbn [length]. lia.
  - by rewrite !filter_cons_False by tauto.
Qed.

Lemma count_none (P : Z → Prop) `{!∀ c, Decision (P c)} l :
  Forall (λ c, ¬ P c) l → count_below P l = 0.
Proof. unfold count_below. induction 1; [done|]. by rewrite filter_cons_False. Qed.

Lemma count_app (P : Z → Prop) `{!∀ c, Decision (P c)} l k :
  count_below P (l ++ k) = count_below P l + count_below P k.
Proof. unfold count_below. rewrite filter_app, length_app. lia. Qed.

(** With thresholds, the scalar call counts those below its 31 random bits, and
    every lane of the packet operation those that are not above them, as signed
    numbers.  The two agree for every word that is not itself a threshold as long
    as no inner threshold is 2^31; but when the last [z] weights are zero their
    thresholds are, and then every value that the packet operation draws is [z]
    too large: the values of positive weight are shifted towards those of weight
    zero. *)
Theorem discrete_int_values g rng :
  DiscreteGen.cdf g ≠ [] → Forall (word 32) (DiscreteGen.cdf g) →
  Z.of_nat (length (DiscreteGen.cdf g)) < 2 ^ 32 →
  (∀ r rng', rawbits rng = Ret (r, rng') → register m r →
     DiscreteGen.packetOp rawbits pcmplt pblendv psrl pgather false g rng =
       Ret ((λ x, packet_value (DiscreteGen.cdf g) (x mod 2 ^ 31)) <$> r, g, rng')) ∧
  (∀ x rng', Randbits_call rng = Ret (x, rng') →
     DiscreteGen.call g rng = Ret (scalar_value (DiscreteGen.cdf g) (x mod 2 ^ 31), rng')) ∧
  (∀ u, Forall (λ c, 0 <= c < 2 ^ 31 ∧ c ≠ u) (inner (DiscreteGen.cdf g)) →
     packet_value (DiscreteGen.cdf g) u = scalar_value (DiscreteGen.cdf g) u) ∧
  (∀ pre z u, DiscreteGen.cdf g = pre ++ replicate (S z) (2 ^ 31) →
     Forall (λ c, 0 <= c < 2 ^ 31 ∧ c ≠ u) pre → 0 <= u < 2 ^ 31 →
     packet_value (DiscreteGen.cdf g) u = scalar_value (DiscreteGen.cdf g) u + Z.of_nat z).
Proof.
  intros Hne Hw Hlen. split_and!.
  - intros r rng' Hraw Hr. unfold DiscreteGen.packetOp. by rewrite (packet_values_cdf g rng r rng').
  - intros x rng' Hx. unfold DiscreteGen.call. rewrite bool_decide_eq_false_2 by done. cbn [negb].
    rewrite Hx. cbn [mbind outcome_bind]. rewrite low31. unfold scalar_value, DiscreteGen.lower_bound.
    fold (inner (DiscreteGen.cdf g)). unfold u32. rewrite Z.mod_small; [done|].
    pose proof (Z.mod_pos_bound x (2 ^ 31)). lia.
  - intros u Hu. apply count_ext. eapply Forall_impl; [exact Hu|]. intros c [Hc Hcu]. cbv beta.
    rewrite signed_small by lia. lia.
  - intros pre z u Hcdf Hpre Hu.
    assert (inner (DiscreteGen.cdf g) = pre ++ replicate z (2 ^ 31)) as Hin.
    { unfold inner. rewrite Hcdf, length_app, length_replicate.
      replace (length pre + S z - 1)%nat with (length pre + z)%nat by lia.
      rewrite take_app_add. f_equal. rewrite take_replicate. f_equal. lia. }
    unfold packet_value, scalar_value. rewrite Hin, !count_app.
    rewrite (count_ext (λ c, signed 32 c <= u) (λ c, c < u) pre).
    + assert (count_below (λ c, signed 32 c <= u) (replicate z (2 ^ 31)) = Z.of_nat z) as ->.
      { unfold count_below. rewrite filter_all; [by rewrite length_replicate|].
        intros c [-> _]%elem_of_replicate. change (signed 32 (2 ^ 31)) with (- 2 ^ 31). lia. }
      rewrite (count_none (λ c, c < u) (replicate z (2 ^ 31))); [lia|]. apply Forall_replicate. lia.
    + eapply Forall_impl; [exact Hpre|]. intros c [Hc Hcu]. cbv beta. rewrite signed_small by lia. lia.
Qed.

(** *** The alias table *)

(** A table of [2 ^ k] slots with probabilities [a] and aliases [l]. *)
Record alias_ok (s : AliasMethod.t Z) (k : Z) (a l : list Z) : Prop := {
  alias_bits : 1 <= k <= 31;
  alias_mask : AliasMethod.get_bitmask s = 2 ^ k - 1;
  alias_arr : AliasMethod.arr s = Some a;
  alias_alias : AliasMethod.alias s = Some (Some <$> l);
  alias_length : Z.of_nat (length a) = 2 ^ k ∧ Z.of_nat (length l) = 2 ^ k;
  alias_probs : Forall (λ p, 0 <= p < 2 ^ 31) a;
  alias_values : Forall (λ j, 0 <= j < 2 ^ 31) l;
}.

(** The value that the table gives for a random word: its low bits choose a slot,
    and its upper 31 bits between the slot and its alias. *)
Definition alias_value (k : Z) (a l : list Z) (x : Z) : Z :=
  let j := x mod 2 ^ k in if x / 2 <? lane a j then j else lane l j.

Lemma lane_forall (P : Z → Prop) l j : Forall P l → 0 <= j < Z.of_nat (length l) → P (lane l j).
Proof.
  intros Hl Hj. unfold lane. apply (proj1 (Forall_forall P l) Hl), list_elem_of_In, nth_In. lia.
Qed.

Lemma gather_lane l index :
  Forall (λ i, 0 <= i < Z.of_nat (length l)) index → mapM (array_get l) index = Ret (lane l <$> index).
Proof. intros Hi. apply (gather_ok (λ i, i)). eapply Forall_impl; [exact Hi|done]. Qed.

Lemma gather_some l index :
  Forall (λ i, 0 <= i < Z.of_nat (length l)) index →
  mapM (array_get (Some <$> l)) index = Ret (Some ∘ lane l <$> index).
Proof.
  induction 1 as [|i index Hi _ IH]; [done|]. cbn.
  destruct (lookup_lt_is_Some_2 l (Z.to_nat i)) as [x Hx]; [lia|].
  rewrite (array_get_ok _ _ (Some x)) by (lia || by rewrite list_lookup_fmap, Hx). cbn. rewrite IH. cbn.
  unfold lane. by rewrite nth_lookup, Hx.
Qed.

Lemma deref_some (f : Z → Z) index :
  Forall (λ i, word 32 (f i)) index →
  mapM (λ x, match x with Some j => Ret (u32 j) | None => Undef indeterminate_value end)
    (Some ∘ f <$> index) = Ret (f <$> index).
Proof. induction 1 as [|i index Hi _ IH]; [done|]. cbn. rewrite u32_id by done. cbn in IH. by rewrite IH. Qed.

Lemma compared_words (f h : Z → Z) r :
  register m (f <$> r) → register m (h <$> r) → (∀ x, x ∈ r → f x < 2 ^ 31 ∧ h x < 2 ^ 31) →
  pcmplt (f <$> r) (h <$> r) = mask 32 <$> ((λ x, f x <? h x) <$> r).
Proof.
  intros Hf Hh Hlt. rewrite Hcmp by done. unfold cmpgt_epi32. clear Hf Hh.
  induction r as [|x r IH]; [done|]. cbn. destruct (Hlt x) as [? ?]; [left|].
  rewrite !signed_small by done. f_equal. apply IH. intros y Hy. apply Hlt. by right.
Qed.

Lemma select_map (f : Z → bool) (t e : Z → Z) r :
  select (f <$> r) (t <$> r) (e <$> r) = (λ x, if f x then t x else e x) <$> r.
Proof. unfold select. induction r as [|x r IH]; [done|]. cbn. by f_equal. Qed.

Lemma fmap_register (f : Z → Z) r :
  register m r → (∀ x, x ∈ r → word 32 x → word 32 (f x)) → register m (f <$> r).
Proof.
  intros [Hl Hw] Hf. split; [by rewrite length_fmap|]. apply Forall_fmap, Forall_forall. intros x Hx.
  apply Hf; [done|]. by apply (proj1 (Forall_forall _ _) Hw).
Qed.

Lemma packet_values_alias g rng r rng' k a l :
  DiscreteGen.cdf g = [] → alias_ok (DiscreteGen.alias_table g) k a l →
  rawbits rng = Ret (r, rng') → register m r →
  DiscreteGen.packet_values rawbits pcmplt pblendv psrl pgather g rng = Ret (alias_value k a l <$> r, rng').
Proof.
  intros Hcdf [Hk Hmask Harr Halias [Hla Hll] Ha Hl] Hraw Hr.
  pose proof (pow2_le_31 k Hk) as Hp. pose proof (register_lanes _ _ Hr) as Hw.
  unfold DiscreteGen.packet_values, Randbits_packetOp. rewrite Hraw. cbn [mbind outcome_bind].
  rewrite Hcdf. cbn [bool_decide decide decide_rel negb].
  assert (pand r (pset1 (length r) (AliasMethod.get_bitmask (DiscreteGen.alias_table g))) =
    (λ x, x mod 2 ^ k) <$> r) as ->.
  { rewrite (register_length _ _ Hr), pset1_lanes, (pand_lanes m) by (done || apply set1_register32).
    unfold and_si, set1_epi32. rewrite zip_with_replicate_r_eq by apply Hr.
    rewrite Hmask, u32_id by (unfold word; lia). apply list_fmap_ext. intros _ x _. apply land_low_bits. lia. }
  assert (∀ x, 0 <= x mod 2 ^ k < 2 ^ k) as Hmod by (intros x; apply Z.mod_pos_bound; lia).
  assert (∀ N, 2 ^ k <= N → Forall (λ i, 0 <= i < N) ((λ x, x mod 2 ^ k) <$> r)) as Hidx.
  { intros N HN. apply Forall_fmap, Forall_true. intros x. specialize (Hmod x). unfold compose. lia. }
  unfold DiscreteGen.gather_alias, DiscreteGen.gather. rewrite Harr, Halias.
  rewrite !Hgather, gather_lane, gather_some by (apply Hidx; lia). cbn [mbind outcome_bind].
  assert (∀ x, 0 <= lane a (x mod 2 ^ k) < 2 ^ 31) as Hpa by (intros x; apply (lane_forall (λ p, 0 <= p < 2 ^ 31) a); [done|by rewrite Hla]).
  assert (∀ x, 0 <= lane l (x mod 2 ^ k) < 2 ^ 31) as Hpl by (intros x; apply (lane_forall (λ p, 0 <= p < 2 ^ 31) l); [done|by rewrite Hll]).
  rewrite deref_some by (apply Forall_fmap, Forall_true; intros x; specialize (Hpl x); unfold compose, word; lia).
  cbn [mbind outcome_bind]. do 2 f_equal. rewrite Hsrl by done. rewrite <-!list_fmap_compose.
  rewrite compared_words.
  - rewrite Hblend; [rewrite select_map| | |].
    + apply list_fmap_ext. intros i x Hx. unfold compose, alias_value. rewrite Z.shiftr_div_pow2 by lia.
      rewrite u32_id by (specialize (Hpa x); unfold word; lia). done.
    + rewrite length_fmap. apply (register_length _ _ Hr).
    + apply fmap_register; [done|]. intros x _ _. specialize (Hmod x). unfold word. lia.
    + apply fmap_register; [done|]. intros x _ _. specialize (Hpl x). unfold compose, word. lia.
  - apply fmap_register; [done|]. intros x _ Hx. unfold word in *. rewrite Z.shiftr_div_pow2 by lia.
    split; [apply Z.div_pos; lia|]. apply Z.div_lt_upper_bound; lia.
  - apply fmap_register; [done|]. intros x _ _. apply Z.mod_pos_bound. lia.
  - intros x Hx. unfold compose. rewrite u32_id by (specialize (Hpa x); unfold word; lia). split; [|apply Hpa].
    apply (proj1 (Forall_forall _ _) Hw) in Hx. unfold word in Hx. rewrite Z.shiftr_div_pow2 by lia.
    apply Z.div_lt_upper_bound; lia.
Qed.

(** From an alias table every lane of the packet operation gives the value of
    its word.  The scalar call gives that value only for words below 2^31: it
    shifts a signed number, so that for the other half of the words the
    comparison fails whatever the probability is, and the alias is returned. *)
Theorem discrete_alias_values g rng k a l :
  DiscreteGen.cdf g = [] → alias_ok (DiscreteGen.alias_table g) k a l →
  (∀ r rng', rawbits rng = Ret (r, rng') → register m r →
     DiscreteGen.packetOp rawbits pcmplt pblendv psrl pgather false g rng =
       Ret (alias_value k a l <$> r, g, rng')) ∧
  (∀ x rng', Randbits_call rng = Ret (x, rng') → INT_MIN <= x <= INT_MAX →
     DiscreteGen.call g rng =
       Ret (if x <? 0 then lane l (u32 x mod 2 ^ k) else alias_value k a l (u32 x), rng')).
Proof.
  intros Hcdf Hok. split.
  - intros r rng' Hraw Hr. unfold DiscreteGen.packetOp. by rewrite (packet_values_alias g rng r rng' k a l).
  - intros x rng' Hx Hint. destruct Hok as [Hk Hmask Harr Halias [Hla Hll] Ha Hl].
    pose proof (pow2_le_31 k Hk) as Hp. unfold DiscreteGen.call. rewrite Hcdf, Hx.
    cbn [bool_decide decide decide_rel negb mbind outcome_bind].
    rewrite Hmask, land_low_bits by lia. unfold u64, alias_value. cbv zeta.
    replace (x mod 2 ^ 64 mod 2 ^ k) with (u32 x mod 2 ^ k) by (unfold u32; by rewrite !mod_pow2_mod by lia).
    set (j := u32 x mod 2 ^ k). assert (0 <= j < 2 ^ k) as Hj by (apply Z.mod_pos_bound; lia).
    assert (0 <= lane a j < 2 ^ 31) as Hpa by (apply (lane_forall (λ p, 0 <= p < 2 ^ 31) a); [done|by rewrite Hla]).
    assert (array_get a j = Ret (lane a j)) as Hga.
    { destruct (lookup_lt_is_Some_2 a (Z.to_nat j)) as [p Hpj]; [lia|].
      rewrite (array_get_ok _ _ p) by (done || lia). unfold lane. by rewrite nth_lookup, Hpj. }
    assert (array_get (Some <$> l) j = Ret (Some (lane l j))) as Hgl.
    { destruct (lookup_lt_is_Some_2 l (Z.to_nat j)) as [p Hpj]; [lia|].
      rewrite (array_get_ok _ _ (Some p)) by (lia || by rewrite list_lookup_fmap, Hpj).
      unfold lane. by rewrite nth_lookup, Hpj. }
    unfold AliasMethod.get_prob, AliasMethod.get_alias. rewrite Harr, Halias, Hga, Hgl. cbn [mbind outcome_bind].
    rewrite (u32_id (lane a j)) by (unfold word; lia). rewrite (i32_small j) by int_lia.
    change (4 * 8 - 31) with 1. rewrite Z.shiftr_div_pow2 by lia. change (2 ^ 1) with 2.
    destruct (Z.ltb_spec x 0).
    + assert (- 2 ^ 30 <= x / 2 < 0) by (Z.div_mod_to_equations; int_lia).
      assert (u32 (x / 2) = x / 2 + 2 ^ 32) as -> by (symmetry; apply (Z.mod_unique _ _ (-1)); lia).
      rewrite (proj2 (Z.ltb_ge _ _)); [done|]. lia.
    + assert (u32 x = x) as -> by (apply u32_id; unfold word; int_lia).
      rewrite (u32_id (x / 2)) by (unfold word; Z.div_mod_to_equations; int_lia).
      by destruct (_ <? _).
Qed.

End Draws.

(** ** The constructor *)

Lemma mapM_Ret {A B} (f : A → outcome B) (h : A → B) l :
  Forall (λ x, f x = Ret (h x)) l → mapM f l = Ret (h <$> l).
Proof. induction 1 as [|x l Hx _ IH]; [done|]. cbn. rewrite Hx. cbn. by rewrite IH. Qed.

(** [std::lower_bound] on sorted thresholds. *)
Lemma lower_bound_spec l u j c :
  StronglySorted Z.le l → l !! j = Some c →
  (Z.of_nat j < count_below (λ c, c < u) l → c < u) ∧ (count_below (λ c, c < u) l <= Z.of_nat j → u <= c).
Proof.
  intros Hl. revert j. induction Hl as [|x l Hl IH Hx]; intros j Hj; [done|]. unfold count_below in *.
  destruct (decide (x < u)).
  - rewrite filter_cons_True by done. cbn [length]. destruct j as [|j]; cbn in Hj.
    + injection Hj as <-. lia.
    + destruct (IH j Hj). lia.
  - rewrite filter_cons_False by done.
    assert (count_below (λ c, c < u) l = 0) as Hz.
    { apply count_none. eapply Forall_impl; [exact Hx|]. intros y Hy. cbv beta. lia. }
    unfold count_below in Hz. rewrite Hz. split; [lia|]. intros _.
    destruct j as [|j]; cbn in Hj; [injection Hj as <-; lia|].
    apply (proj1 (Forall_lookup _ _) Hx) in Hj. lia.
Qed.

Lemma sorted_lookup (l : list Z) :
  (∀ i j x y, (i < j)%nat → l !! i = Some x → l !! j = Some y → x <= y) → StronglySorted Z.le l.
Proof.
  induction l as [|z l IH]; intros Hl; constructor.
  - apply IH. intros i j x y Hij Hi Hj. apply (Hl (S i) (S j)); done || lia.
  - apply Forall_lookup. intros j y Hj. apply (Hl 0%nat (S j)); done || lia.
Qed.

Section Thresholds.
#[local] Open Scope R_scope.
Context `{CeilLog2}.

Lemma running_sums_lookup acc w i :
  (i < length w)%nat → DiscreteGen.running_sums acc w !! i = Some (acc + rsum (take (S i) w)).
Proof.
  revert acc i. induction w as [|x w IH]; intros acc i Hi; [cbn in Hi; lia|]. cbn [DiscreteGen.running_sums].
  destruct i as [|i]; cbn [lookup list_lookup].
  - change (Some (acc + x) = Some (acc + (x + 0))). f_equal. lra.
  - rewrite IH by (cbn in Hi; lia). cbn [take]. rewrite rsum_cons. f_equal.
    change (acc + x + rsum (take (S i) w) = acc + (x + rsum (take (S i) w))). lra.
Qed.

Lemma running_sums_length acc w : length (DiscreteGen.running_sums acc w) = length w.
Proof. revert acc. induction w as [|x w IH]; intros acc; [done|]. cbn. by rewrite IH. Qed.

Lemma running_sums_last acc w d :
  w ≠ [] → List.last (DiscreteGen.running_sums acc w) d = acc + rsum w.
Proof.
  intros Hw. revert acc d. induction w as [|x w IH]; intros acc d; [done|]. cbn [DiscreteGen.running_sums].
  destruct w as [|y w].
  - change (acc + x = acc + (x + 0)). lra.
  - rewrite rsum_cons.
    change (List.last (DiscreteGen.running_sums (acc + x) (y :: w)) d = acc + (x + rsum (y :: w))).
    rewrite IH by done. lra.
Qed.

Lemma rsum_take_le w i j : Forall (Rle 0) w → (i ≤ j)%nat → rsum (take i w) <= rsum (take j w).
Proof.
  intros Hw. revert i j. induction Hw as [|x w Hx Hw IH]; intros i j Hij; [rewrite !take_nil; lra|].
  destruct i as [|i], j as [|j]; cbn [take]; rewrite ?rsum_cons; try lia.
  - lra.
  - pose proof (rsum_nonneg (take j w) ltac:(by apply Forall_take)). unfold rsum at 1. cbn. lra.
  - specialize (IH i j ltac:(lia)). lra.
Qed.

(** The share of the first [i + 1] weights, in 31 bits. *)
Definition cumulative (w : list R) (i : nat) : R := rsum (take (S i) w) / rsum w * 2147483648.

Lemma cumulative_bounds w i : Forall (Rle 0) w → 0 < rsum w → 0 <= cumulative w i <= 2147483648.
Proof.
  intros Hw Hpos. unfold cumulative.
  pose proof (rsum_nonneg (take (S i) w) ltac:(by apply Forall_take)).
  pose proof (rsum_take_le w (S i) (Nat.max (S i) (length w)) Hw ltac:(lia)) as Hle.
  rewrite (take_ge w (Nat.max (S i) (length w))) in Hle by lia.
  assert (0 <= rsum (take (S i) w) / rsum w <= 1); [|lra]. split.
  - apply Rmult_le_pos; [done|]. apply Rlt_le, Rinv_0_lt_compat. lra.
  - apply (Rmult_le_reg_r (rsum w)); [done|]. unfold Rdiv. rewrite Rmult_assoc, Rinv_l; lra.
Qed.

(** For up to 15 weights, not negative and not all zero, the thresholds are the
    running shares of the weights rounded down to 31 bits; they are sorted, and
    the last one is 2^31.  The scalar call gives [i] exactly for the bits above
    threshold [i - 1] and up to threshold [i], so that the number of words that
    give a value differs from its exact share by less than two.  From no weights
    at all a generator is made whose call dereferences a null pointer. *)
Theorem discrete_thresholds w :
  (1 <= length w < 16)%nat → Forall (Rle 0) w → 0 < rsum w →
  (∃ g, DiscreteGen.create w = Ret g ∧ length (DiscreteGen.cdf g) = length w ∧
    StronglySorted Z.le (DiscreteGen.cdf g) ∧
    (∀ i c, DiscreteGen.cdf g !! i = Some c →
       (0 <= c <= 2 ^ 31)%Z ∧ IZR c <= cumulative w i < IZR c + 1) ∧
    (∀ u i, scalar_value (DiscreteGen.cdf g) u = Z.of_nat i →
       (i < length w)%nat ∧
       (∀ c, (0 < i)%nat → DiscreteGen.cdf g !! (i - 1)%nat = Some c → (c < u)%Z) ∧
       (∀ c, (i < length w - 1)%nat → DiscreteGen.cdf g !! i = Some c → (u <= c)%Z))) ∧
  (∃ g, DiscreteGen.create (F := R) [] = Ret g ∧
    ∀ (rng : list random) (HR : Rng (list random)) (HC : EigenConversions) x rng',
      Randbits_call rng = Ret (x, rng') → DiscreteGen.call g rng = Undef null_dereference).
Proof.
  intros Hlen Hw Hpos. split.
  2: { eexists. split; [reflexivity|]. intros rng HR HC x rng' Hx. unfold DiscreteGen.call. cbn.
    rewrite Hx. done. }
  assert (w ≠ []) as Hne by (intros ->; cbn in Hlen; lia).
  set (sums := DiscreteGen.running_sums 0 w).
  set (h := λ p, R_trunc (p / rsum w * 2147483648)).
  assert (List.last sums 0 = rsum w) as Hlast by (unfold sums; rewrite running_sums_last by done; lra).
  assert (∀ i p, sums !! i = Some p → p / rsum w * 2147483648 = cumulative w i) as Hcum.
  { intros i p Hp. assert (i < length w)%nat as Hi
      by (rewrite <-(running_sums_length 0 w); by eapply lookup_lt_Some).
    unfold sums in Hp. rewrite running_sums_lookup in Hp by done. injection Hp as <-.
    unfold cumulative. f_equal. f_equal. lra. }
  assert (∀ i c, (h <$> sums) !! i = Some c → (0 <= c <= 2 ^ 31)%Z ∧ IZR c <= cumulative w i < IZR c + 1) as Hc.
  { intros i c Hi. apply list_lookup_fmap_Some in Hi as (p & -> & Hp).
    unfold h. rewrite (Hcum i p Hp). pose proof (cumulative_bounds w i Hw Hpos) as Hb.
    destruct (R_trunc_spec (cumulative w i)) as [Hz Hr]; [lra|]. split; [|done]. split; [done|].
    apply le_IZR. change (2 ^ 31)%Z with 2147483648%Z. lra. }
  assert (DiscreteGen.create w = Ret (DiscreteGen.mk [] false (h <$> sums) AliasMethod.create)) as Hcreate.
  { unfold DiscreteGen.create. rewrite (proj2 (Z.ltb_lt _ _)) by lia. fold sums.
    change (of_Z 0) with 0. fold sums. rewrite Hlast. rewrite (mapM_Ret _ h); [done|].
    apply Forall_lookup. intros i p Hp. change (sums !! i = Some p) in Hp. unfold DiscreteGen.to_threshold.
    change (ftrunc (fmul (fdiv p (rsum w)) (of_Z 2147483648))) with (Some (h p)).
    destruct (Hc i (h p)) as [Hz _]; [by rewrite list_lookup_fmap, Hp|].
    by rewrite (proj2 (Z.leb_le 0 _)), (proj2 (Z.ltb_lt (h p) _)) by lia. }
  eexists. split; [exact Hcreate|]. cbn [DiscreteGen.cdf].
  assert (∀ i j x y, (i < j)%nat → (h <$> sums) !! i = Some x → (h <$> sums) !! j = Some y → (x <= y)%Z) as Hmono.
  { intros i j x y Hij Hi Hj.
    destruct (Hc i x Hi) as [_ [Hx _]], (Hc j y Hj) as [_ [_ Hy]].
    assert (cumulative w i <= cumulative w j) as Hle.
    { unfold cumulative. apply Rmult_le_compat_r; [lra|]. apply Rmult_le_compat_r.
      - apply Rlt_le, Rinv_0_lt_compat. lra.
      - apply rsum_take_le; [done|lia]. }
    assert (IZR x < IZR (y + 1)) as Hlt by (rewrite plus_IZR; lra). apply lt_IZR in Hlt. lia. }
  assert (length (h <$> sums) = length w) as Hl by (rewrite length_fmap; apply running_sums_length).
  split_and!; [done|by apply sorted_lookup|done|]. intros u i Hi. unfold scalar_value in Hi.
  assert (StronglySorted Z.le (inner (h <$> sums))) as Hs.
  { apply sorted_lookup. intros j k x y Hjk [Hj _]%lookup_take_Some [Hk _]%lookup_take_Some.
    by apply (Hmono j k). }
  assert (i <= length w - 1)%nat as Hib.
  { pose proof (length_filter (λ c, (c < u)%Z) (inner (h <$> sums))) as Hf.
    rewrite length_inner, Hl in Hf. unfold count_below in Hi. lia. }
  split_and!; [lia|..]; intros c Hci Hlk.
  - apply (lower_bound_spec _ u (i - 1) c Hs); [|lia]. unfold inner. rewrite lookup_take_lt; [done|]. lia.
  - apply (lower_bound_spec _ u i c Hs); [|lia]. unfold inner. rewrite lookup_take_lt; [done|]. lia.
Qed.

Context `{!CeilLog2Laws}.

#[local] Existing Instance DiscreteGen.int32_precision.

(** A probability below 1 in 31 bits. *)
Lemma int32_probability x :
  0 <= x < 1 → ∃ p, to_precision x = Ret p ∧ (0 <= p < 2 ^ 31)%Z ∧ IZR p <= x * 2147483648 < IZR p + 1.
Proof.
  intros Hx. exists (R_trunc (x * 2147483648)).
  destruct (R_trunc_spec (x * 2147483648)) as [Hz Hr]; [lra|].
  assert (R_trunc (x * 2147483648) < 2 ^ 31)%Z as Hlt.
  { apply lt_IZR. change (IZR (2 ^ 31)) with 2147483648. lra. }
  split; [|split; [lia|done]]. cbn [to_precision DiscreteGen.int32_precision integral_precision].
  change (fmul x (fadd (of_Z (2 ^ 31 - 1)) (of_Z 1))) with (x * (IZR 2147483647 + 1)).
  replace (IZR 2147483647 + 1) with 2147483648 by lra.
  change (ftrunc (x * 2147483648)) with (Some (R_trunc (x * 2147483648))). cbn iota.
  by rewrite (proj2 (Z.leb_le _ _)), (proj2 (Z.leb_le _ _)) by lia.
Qed.

Lemma stored_bounds x p : 0 <= x <= 1 → stored x p →
  (0 <= p < 2 ^ 31)%Z ∧ IZR p <= x * 2147483648 <= IZR p + 1.
Proof.
  intros Hx [[Hlt Hp]|[-> ->]].
  - destruct (int32_probability x) as (p' & Hp' & Hb & Hr); [lra|].
    assert (p = p') as -> by congruence. split; [done|lra].
  - cbn [whole DiscreteGen.int32_precision integral_precision]. split; [lia|].
    change (IZR (2 ^ 31 - 1)) with 2147483647. lra.
Qed.

(** The table made from at least two weights, as its readers see it. *)
Lemma of_weights_ok `{CeilLog2} `{!CeilLog2Laws} `{Precision R P} w :
  (∀ x, 0 <= x < 1 → ∃ p, to_precision x = Ret p) →
  (2 <= Z.of_nat (length w) <= 2 ^ 31)%Z → Forall (Rle 0) w → 0 < rsum w →
  let k := Z.log2_up (Z.of_nat (length w)) in
  let N := Z.to_nat (2 ^ k) in
  (1 <= k <= 31)%Z ∧
  ∃ s a q t, AliasMethod.of_weights w = Ret s ∧ AliasMethod.get_bitmask s = (2 ^ k - 1)%Z ∧
    AliasMethod.arr s = Some a ∧ AliasMethod.alias s = Some (Some <$> (Z.of_nat ∘ t <$> seq 0 N)) ∧
    length a = N ∧
    (∀ j, (j < N)%nat → 0 <= q j <= 1 ∧ (t j < N)%nat ∧ ∃ p, a !! j = Some p ∧ stored (q j) p) ∧
    ∀ i, (i < N)%nat → draw_probability N q t i = nth i w 0 / rsum w.
Proof.
  intros Hprec Hn Hw Hpos k N.
  destruct (buildTable_ok (P := P) AliasMethod.create w) as
    (s & a & l & q & t & Hb & Hwf & Hbs & Hbm & Ha & Hl & Hslots & Hdraw); try done; [lia|].
  fold k in Hbs, Hbm, Hslots, Hdraw. fold N in Hslots, Hdraw.
  assert (1 <= k <= 31)%Z as Hk.
  { unfold k. split; [apply (Z.log2_up_le_mono 2); lia|apply (Z.log2_up_le_mono _ (2 ^ 31)); lia]. }
  split; [done|].
  assert (length a = N ∧ length l = N) as [Hla Hll].
  { destruct Hwf as [_ (_ & a' & l' & Ha' & Hl' & Hla & Hll)].
    - unfold AliasMethod.get_bitsize in Hbs. lia.
    - unfold AliasMethod.get_bitsize in Hbs. rewrite Hbs in Hla, Hll.
      rewrite Ha in Ha'. rewrite Hl in Hl'. by injection Ha' as ->; injection Hl' as ->. }
  exists s, a, q, t. split_and!; try done.
  - unfold AliasMethod.of_weights. by rewrite Hb.
  - rewrite Hl. f_equal. apply list_eq. intros j. rewrite !list_lookup_fmap.
    destruct (decide (j < N)%nat) as [Hj|Hj].
    + rewrite lookup_seq_lt by done. destruct (Hslots j Hj) as (_ & _ & -> & _). done.
    + rewrite lookup_seq_ge, lookup_ge_None_2 by lia. done.
  - intros j Hj. destruct (Hslots j Hj) as (Hq & Ht & _ & Hp & _). done.
Qed.

(** From 16 weights on, not negative and not all zero, the constructor makes an
    alias table that both drawing operations can read: slot [j] has a probability
    [q j] that its 31 bits give to within one unit, and an alias [t j], which
    together give every value exactly the share of its weight. *)
Theorem discrete_alias_create w :
  (16 <= Z.of_nat (length w) <= 2 ^ 31)%Z → Forall (Rle 0) w → 0 < rsum w →
  let k := Z.log2_up (Z.of_nat (length w)) in
  let N := Z.to_nat (2 ^ k) in
  ∃ g a q t, DiscreteGen.create w = Ret g ∧ DiscreteGen.cdf g = [] ∧
    alias_ok (DiscreteGen.alias_table g) k a (Z.of_nat ∘ t <$> seq 0 N) ∧
    (∀ j, (j < N)%nat → 0 <= q j <= 1 ∧
       IZR (lane a (Z.of_nat j)) <= q j * 2147483648 <= IZR (lane a (Z.of_nat j)) + 1) ∧
    ∀ i, (i < N)%nat → draw_probability N q t i = nth i w 0 / rsum w.
Proof.
  intros Hn Hw Hpos k N.
  destruct (of_weights_ok (P := Z) w) as (Hk & s & a & q & t & Hb & Hbm & Ha & Hl & Hla & Hslots & Hdraw); try done.
  { intros x Hx. destruct (int32_probability x Hx) as (p & Hp & _). by exists p. }
  { lia. }
  fold k in Hk, Hbm. fold k N in Hl, Hla, Hslots, Hdraw. pose proof (pow2_le_31 k Hk) as Hp2.
  exists (DiscreteGen.mk [] false [] (AliasMethod.assign_move AliasMethod.create s).1), a, q, t.
  split_and!.
  - unfold DiscreteGen.create. rewrite (proj2 (Z.ltb_ge _ _)) by lia. by rewrite Hb.
  - done.
  - split; cbn [DiscreteGen.alias_table AliasMethod.assign_move fst AliasMethod.get_bitmask AliasMethod.bitmask
      AliasMethod.arr AliasMethod.alias]; try done.
    + rewrite length_fmap, length_seq. unfold N in *. lia.
    + apply Forall_lookup. intros j p Hp. assert (j < N)%nat as Hj by (rewrite <-Hla; by eapply lookup_lt_Some).
      destruct (Hslots j Hj) as (Hq & _ & p' & Hp' & Hst). rewrite Hp in Hp'. injection Hp' as <-.
      by apply (stored_bounds (q j)).
    + apply Forall_fmap, Forall_lookup. intros i j Hj. apply lookup_seq in Hj as [-> Hj].
      destruct (Hslots (0 + i)%nat Hj) as (_ & Ht & _). unfold compose. unfold N in Ht. lia.
  - intros j Hj. destruct (Hslots j Hj) as (Hq & _ & p & Hp & Hst). split; [done|].
    unfold lane. rewrite Nat2Z.id, nth_lookup, Hp. by apply stored_bounds.
  - exact Hdraw.
Qed.

End Thresholds.

(** With AVX2 a packet of eight values is handed out in two calls, of which only
    the first one uses the engine. *)
Theorem discrete_halves {R : Type} `{Rng R} `{EigenPackets} rawbits pcmplt pblendv psrl pgather
    g (rng rng' rng2 : R) ret :
  DiscreteGen.valid g = false → length ret = 8%nat →
  DiscreteGen.packet_values rawbits pcmplt pblendv psrl pgather g rng = Ret (ret, rng') →
  ∃ p1 p2 g1 g2,
    DiscreteGen.packetOp rawbits pcmplt pblendv psrl pgather true g rng = Ret (p1, g1, rng') ∧
    DiscreteGen.packetOp rawbits pcmplt pblendv psrl pgather true g1 rng2 = Ret (p2, g2, rng2) ∧
    p1 ++ p2 = ret ∧ length p1 = 4%nat ∧
    DiscreteGen.valid g2 = false ∧ DiscreteGen.cdf g2 = DiscreteGen.cdf g ∧
    DiscreteGen.alias_table g2 = DiscreteGen.alias_table g.
Proof.
  intros Hv Hl Hret. unfold DiscreteGen.packetOp at 1. rewrite Hv, Hret. cbn [mbind outcome_bind].
  do 4 eexists. split; [reflexivity|]. split; [reflexivity|].
  do 8 (destruct ret as [|? ret]; [done|]). by destruct ret.
Qed.

(** ** Witnesses *)

#[local] Existing Instance recorded_rng.
#[local] Existing Instance instructions.
#[local] Existing Instance instructions_laws.
#[local] Existing Instance exact_log2.
#[local] Existing Instance exact_log2_laws.
#[local] Instance first_lane : EigenConversions :=
  {| pfirst_packet r := signed 32 (lane r 0); pcast l := replicate (length l) 0 |}.

Definition all_features : features := mk_features true true true true.

Lemma sse_srl_1 r : register 2 r → SSE.psrl 1 r 0 = (λ x, Z.shiftr x 1) <$> r.
Proof. intros _. by apply srli_shifts. Qed.

(** Weights 1, 1 and 0: the packet operation never draws 0, and draws 2. *)
Lemma discrete_int_values_witness :
  let g := DiscreteGen.mk [] false [2 ^ 30; 2 ^ 31; 2 ^ 31] AliasMethod.create in
  DiscreteGen.packetOp next_packet cmplt_epi32 (SSE.pblendv all_features) SSE.psrl
    (@SSE.pgather all_features) false g [packet_result [5; 2 ^ 30 + 1; 2 ^ 31; 2 ^ 32 - 1]] =
    Ret ([1; 2; 1; 2], g, []) ∧
  DiscreteGen.call g [scalar_result 4 (2 ^ 32 - 1)] = Ret (1, []).
Proof.
  intros g.
  assert (register 2 [5; 2 ^ 30 + 1; 2 ^ 31; 2 ^ 32 - 1]) as Hr
    by (split; [done|]; repeat constructor; unfold word; lia).
  assert (Forall (word 32) (DiscreteGen.cdf g)) as Hw by (repeat constructor; unfold word; lia).
  assert (compares cmplt_epi32 2) as Hc by done.
  split.
  - refine (proj1 (discrete_int_values 2 next_packet cmplt_epi32 (SSE.pblendv all_features) SSE.psrl
      (@SSE.pgather all_features) Hc g [packet_result [5; 2 ^ 30 + 1; 2 ^ 31; 2 ^ 32 - 1]] _ Hw _) _ [] _ Hr);
      [discriminate|cbn; lia|reflexivity].
  - refine (proj1 (proj2 (discrete_int_values 2 next_packet cmplt_epi32 (SSE.pblendv all_features) SSE.psrl
      (@SSE.pgather all_features) Hc g [scalar_result 4 (2 ^ 32 - 1)] _ Hw _)) (-1) [] _);
      [discriminate|cbn; lia|reflexivity].
Defined.

(** A table of two slots that gives 1 for nearly half of the words: the scalar
    call gives 0 for a word with the sign bit. *)
Lemma discrete_alias_values_witness :
  let g := DiscreteGen.mk [] false [] (AliasMethod.mk (Some [2 ^ 31 - 1; 2 ^ 31 - 1]) (Some [Some 0; Some 0]) 2 1 1) in
  DiscreteGen.packetOp next_packet cmplt_epi32 (SSE.pblendv all_features) SSE.psrl
    (@SSE.pgather all_features) false g [packet_result [2 ^ 32 - 3; 1; 0; 2]] = Ret ([1; 1; 0; 0], g, []) ∧
  DiscreteGen.call g [scalar_result 4 (2 ^ 32 - 3)] = Ret (0, []).
Proof.
  intros g.
  assert (register 2 [2 ^ 32 - 3; 1; 0; 2]) as Hr by (split; [done|]; repeat constructor; unfold word; lia).
  assert (alias_ok (DiscreteGen.alias_table g) 1 [2 ^ 31 - 1; 2 ^ 31 - 1] [0; 0]) as Hok
    by (split; done || lia || (repeat constructor; lia)).
  assert (compares cmplt_epi32 2) as Hc by done.
  pose proof (sse_blends all_features) as Hb. pose proof (sse_gathers all_features) as Hg.
  split.
  - refine (proj1 (discrete_alias_values 2 next_packet cmplt_epi32 (SSE.pblendv all_features) SSE.psrl
      (@SSE.pgather all_features) Hc Hb sse_srl_1 Hg g [packet_result [2 ^ 32 - 3; 1; 0; 2]] 1 _ _ eq_refl Hok)
      _ [] eq_refl Hr).
  - refine (proj2 (discrete_alias_values 2 next_packet cmplt_epi32 (SSE.pblendv all_features) SSE.psrl
      (@SSE.pgather all_features) Hc Hb sse_srl_1 Hg g [scalar_result 4 (2 ^ 32 - 3)] 1 _ _ eq_refl Hok)
      (-3) [] eq_refl _); int_lia.
Defined.

Lemma discrete_halves_witness :
  let g := DiscreteGen.mk [] false [2 ^ 30; 2 ^ 31] AliasMethod.create in
  ∃ p1 p2 g1 g2,
    DiscreteGen.packetOp next_packet cmplt_epi32 (SSE.pblendv all_features) SSE.psrl
      (@SSE.pgather all_features) true g [packet_result [5; 2 ^ 30; 2 ^ 31; 7; 1; 2; 3; 2 ^ 32 - 1]] =
      Ret (p1, g1, []) ∧
    DiscreteGen.packetOp next_packet cmplt_epi32 (SSE.pblendv all_features) SSE.psrl
      (@SSE.pgather all_features) true g1 [] = Ret (p2, g2, []) ∧ p1 ++ p2 = [0; 1; 0; 0; 0; 0; 0; 1].
Proof.
  intros g.
  destruct (discrete_halves next_packet cmplt_epi32 (SSE.pblendv all_features) SSE.psrl
    (@SSE.pgather all_features) g [packet_result [5; 2 ^ 30; 2 ^ 31; 7; 1; 2; 3; 2 ^ 32 - 1]] [] []
    [0; 1; 0; 0; 0; 0; 0; 1]) as (p1 & p2 & g1 & g2 & H1 & H2 & H3 & _);
    [done|done|vm_compute; reflexivity|]. by exists p1, p2, g1, g2.
Defined.

Lemma discrete_thresholds_witness : ∃ g,
  DiscreteGen.create [1; 1; 2]%R = Ret g ∧ length (DiscreteGen.cdf g) = 3%nat.
Proof.
  destruct (proj1 (discrete_thresholds [1; 1; 2]%R ltac:(cbn; lia)
    ltac:(repeat constructor; lra) ltac:(unfold rsum; cbn; lra))) as (g & Hg & Hl & _).
  by exists g.
Defined.

Lemma discrete_alias_create_witness : ∃ g q t,
  DiscreteGen.create (replicate 16 1%R) = Ret g ∧ draw_probability 16 q t 3 = (1 / 16)%R.
Proof.
  destruct (discrete_alias_create (replicate 16 1%R)) as (g & a & q & t & Hg & _ & _ & _ & Hd).
  - cbn. lia.
  - apply Forall_replicate. lra.
  - unfold rsum. cbn. lra.
  - exists g, q, t. split; [exact Hg|].
    transitivity (nth 3 (replicate 16 1) 0 / rsum (replicate 16 1))%R; [|unfold rsum; cbn; field].
    apply (Hd 3%nat). vm_compute. lia.
Defined.
