(* ===== verification/CacheStore.v ===== *)
(** EigenRand/Dists/Basic.h: [CacheStore], the bytes in which a generator keeps
    a packet between calls, at an aligned address inside the object, and what its
    copy constructors make of them. *)

From S2P Require Import Prelude.

(** ** Model *)

(** An object at the address [addr] of its array [raw_data], for an alignment
    that is 0 in the specialisation [CacheStore<0>]. *)
Record CacheStore := mk_cache { addr : Z; raw_data : list Z }.

Section Code.
Context (_alignment : Z) (max_size : nat).

Definition raw_size : nat :=
  if _alignment =? 0 then max_size else (max_size + Z.to_nat _alignment - 1)%nat.

(** [aligned_ptr], as an offset into [raw_data]. *)
Definition aligned_ptr (a : Z) : nat :=
  if _alignment =? 0 then O
  else Z.to_nat (u64 (u64 (a + _alignment - 1) / _alignment * _alignment) - a).

Definition create (a : Z) : CacheStore := mk_cache a (replicate raw_size 0).

(** [CacheStore(const CacheStore&)] and [CacheStore(CacheStore&&)]: the first
    [max_size] bytes are copied into a zeroed array. *)
Definition copy (c : CacheStore) (a : Z) : CacheStore :=
  mk_cache a (take max_size (raw_data c) ++ replicate (raw_size - max_size) 0).

(** [get<Ty>()] as a value of [size] bytes, and the assignment to it. *)
Definition get (size : nat) (c : CacheStore) : list Z :=
  take size (drop (aligned_ptr (addr c)) (raw_data c)).
Definition set_packet (c : CacheStore) (x : list Z) : CacheStore :=
  let o := aligned_ptr (addr c) in
  mk_cache (addr c) (take o (raw_data c) ++ x ++ drop (o + length x) (raw_data c)).

End Code.

(** ** Properties *)

Section Props.
Context (k : Z) (max_size : nat) (Hk : 0 <= k <= 10).
#[local] Abbreviation al := (2 ^ k).

Definition store_ok (c : CacheStore) : Prop :=
  0 <= addr c < 2 ^ 63 ∧ length (raw_data c) = raw_size al max_size.

Lemma al_pos : 1 <= al <= 2 ^ 10.
Proof. split; [apply (Z.pow_le_mono_r 2 0); lia|apply Z.pow_le_mono_r; lia]. Qed.

(** The offset is the distance to the next multiple of the alignment. *)
Lemma aligned_ptr_eq a : 0 <= a < 2 ^ 63 → aligned_ptr al a = Z.to_nat ((- a) mod al).
Proof.
  intros Ha. pose proof al_pos. unfold aligned_ptr. rewrite (proj2 (Z.eqb_neq al 0)) by lia. f_equal.
  unfold u64. rewrite (Z.mod_small (a + al - 1)) by lia.
  pose proof (Z.div_mod (a + al - 1) al). pose proof (Z.mod_pos_bound (a + al - 1) al).
  rewrite Z.mod_small by nia. set (q := (a + al - 1) / al) in *.
  apply (Z.mod_unique_pos _ _ (- q)); lia.
Qed.

Lemma aligned_ptr_lt a : 0 <= a < 2 ^ 63 → (aligned_ptr al a < Z.to_nat al)%nat.
Proof.
  intros Ha. pose proof al_pos. rewrite aligned_ptr_eq by done.
  pose proof (Z.mod_pos_bound (- a) al). lia.
Qed.

Lemma raw_size_eq : raw_size al max_size = (max_size + Z.to_nat al - 1)%nat.
Proof. unfold raw_size. pose proof al_pos. by rewrite (proj2 (Z.eqb_neq al 0)) by lia. Qed.

Lemma get_set_packet c x : store_ok c → (length x <= max_size)%nat →
  get al (length x) (set_packet al c x) = x ∧ store_ok (set_packet al c x).
Proof.
  intros [Ha Hl] Hx. pose proof (aligned_ptr_lt (addr c) Ha) as Ho. rewrite raw_size_eq in Hl.
  unfold get, set_packet, store_ok. cbn [addr raw_data]. rewrite drop_app_length' by (rewrite length_take; lia).
  rewrite take_app_length. split; [done|]. split; [done|].
  rewrite !length_app, length_take, length_drop, raw_size_eq. lia.
Qed.

(** A copy reads, at its own offset [o'], the bytes at that offset of the array
    that was copied, and zeros behind [max_size]. *)
Lemma get_copy c a size : store_ok c → 0 <= a < 2 ^ 63 → (size <= max_size)%nat →
  let o' := aligned_ptr al a in
  get al size (copy al max_size c a) =
    take size (drop o' (take max_size (raw_data c)) ++ replicate (raw_size al max_size - max_size) 0).
Proof.
  intros [Hc Hl] Ha Hs o'. pose proof (aligned_ptr_lt a Ha) as Ho. fold o' in Ho.
  unfold get, copy. cbn [addr raw_data]. fold o'. rewrite !raw_size_eq in *.
  destruct (decide (o' <= max_size)%nat) as [Hle|Hgt].
  - rewrite drop_app_le by (rewrite length_take; lia). done.
  - rewrite drop_app_ge by (rewrite length_take; lia).
    rewrite (drop_ge (take max_size _)) by (rewrite length_take; lia). cbn [app].
    rewrite length_take, drop_replicate, !take_replicate. f_equal. lia.
Qed.

(** A packet of the full size that is kept in a [CacheStore] survives a copy
    exactly where the object and the copy both lie on an aligned address; where
    they lie at the same offset [o] behind one, the last [o] bytes of the copy are
    0, and where the copy alone is aligned, it reads the bytes [o] places too
    early. *)
Theorem cache_copy c x a : store_ok c → length x = max_size → 0 <= a < 2 ^ 63 →
  (Z.to_nat al <= max_size)%nat →
  let o := aligned_ptr al (addr c) in
  let o' := aligned_ptr al a in
  let copied := get al max_size (copy al max_size (set_packet al c x) a) in
  (o = 0%nat → o' = 0%nat → copied = x) ∧
  (o' = o → copied = take (max_size - o) x ++ replicate o 0) ∧
  (o' = 0%nat → copied = take o (raw_data c) ++ take (max_size - o) x).
Proof.
  intros Hc Hx Ha Hsz o o' copied. destruct (get_set_packet c x Hc ltac:(lia)) as [_ Hok].
  pose proof (aligned_ptr_lt (addr c) (proj1 Hc)) as Ho. fold o in Ho.
  assert (copied = take max_size (drop o' (take o (raw_data c) ++ take (max_size - o) x) ++
    replicate (raw_size al max_size - max_size) 0)) as ->.
  { unfold copied. rewrite get_copy by (done || lia). fold o'. do 3 f_equal.
    destruct Hc as [_ Hl]. rewrite raw_size_eq in Hl. cbn [raw_data set_packet]. fold o.
    rewrite take_app_ge by (rewrite length_take; lia). f_equal. rewrite length_take.
    rewrite take_app_le by lia. f_equal. lia. }
  destruct Hc as [_ Hl]. rewrite raw_size_eq in *.
  assert (length (take o (raw_data c)) = o) as Hlo by (rewrite length_take; lia).
  assert (length (take (max_size - o) x) = (max_size - o)%nat) as Hlx by (rewrite length_take; lia).
  assert (o' = 0%nat → take max_size (drop o' (take o (raw_data c) ++ take (max_size - o) x) ++
    replicate (max_size + Z.to_nat al - 1 - max_size) 0) = take o (raw_data c) ++ take (max_size - o) x) as Hzero.
  { intros ->. rewrite drop_0, take_app_length' by (rewrite length_app; lia). done. }
  split_and!.
  - intros H1 H2. rewrite Hzero, H1 by done. cbn. rewrite Nat.sub_0_r. apply take_ge. lia.
  - intros ->. rewrite drop_app_length' by done. rewrite take_app_ge by lia. f_equal.
    rewrite take_replicate. f_equal. lia.
  - exact Hzero.
Qed.

End Props.

(** An object 16 bytes behind a multiple of 32, with packets of 32 bytes: the upper
    half of the packet is lost in a copy at the same offset. *)
Definition packet_bytes : list Z := Z.of_nat <$> seq 1 32.
Lemma cache_copy_witness :
  get 32 32 (copy 32 32 (set_packet 32 (create 32 32 16) packet_bytes) 48) =
    take 16 packet_bytes ++ replicate 16 0.
Proof.
  refine (proj1 (proj2 (cache_copy 5 32 ltac:(lia) (create 32 32 16) packet_bytes 48 _ _ _ _)) _);
    [split; [cbn; lia|reflexivity]|reflexivity|lia|vm_compute; lia|reflexivity].
Defined.
