(* ===== verification/Reject.v ===== *)
(** What the generators of EigenRand/Dists/NormalExp.h, Discrete.h and
    GammaPoisson.h for floating-point numbers build on: the numbers that an
    engine gives them, Eigen's mathematics on packets, the filter of packets,
    and the two loops in which they reject candidates, one at a time or a packet
    at a time. *)

From S2P Require Import Prelude.
From S2P Require Import FloatBits.
From S2P Require Import RandUtils.
From S2P Require Import Basic.
From Stdlib Require Import SpecFloat.
From S2P Require Import Num.

(** ** Interfaces *)

(** [std::sin], [std::cos], [std::tan] and [constant::e]. *)
Class Trig (F : Type) := {
  fsin : F → F;
  fcos : F → F;
  ftan : F → F;
  M_E : F;
}.

(** The numbers that a generator draws with its member [ur]: [ur(rng)],
    [ur.nzur_scalar(rng)], [ur.packetOp(rng)] (which is
    [RandUtils::uniform_real]) and [RandUtils::nonzero_uniform_real]. *)
Class UniformSource (F R : Type) := {
  ur : R → outcome (F * R);
  nzur : R → outcome (F * R);
  ur_packet : R → outcome (list F * R);
  nzur_packet : R → outcome (list F * R);
}.

(** [StdUniformRealGen] of Basic.h as such a source, for a format, with the
    packet operation of the [RandUtils] in use. *)
Definition std_uniform {R} `{Rng R} `{EigenConversions} `{EigenArithmetic} (f : format)
    (uniform_real : R → outcome (list spec_float * R)) : UniformSource spec_float R := {|
  ur := StdUniformReal_call f;
  nzur := StdUniformReal_nzur f;
  ur_packet := StdUniformReal_packetOp uniform_real;
  nzur_packet rng := '(u, rng) ← uniform_real rng; Ret (nonzero_uniform_real f u, rng);
|}.

(** Eigen's operations on packets of numbers, a packet being the list of its
    lanes, and the comparisons, whose masks are lists of conditions. *)
Class PacketMath (F : Type) := {
  pset1 : F → list F;
  padd : list F → list F → list F;
  psub : list F → list F → list F;
  pmul : list F → list F → list F;
  pdiv : list F → list F → list F;
  pnegate : list F → list F;
  psqrt : list F → list F;
  plog : list F → list F;
  pexp : list F → list F;
  psin : list F → list F;
  psincos : list F → list F * list F;
  pcmplt : list F → list F → list bool;
  pcmple : list F → list F → list bool;
}.

(** On packets of [n] lanes the arithmetic is that of the scalars, lane by
    lane; nothing is asked of [psin] and [psincos] but a result in every lane. *)
Class PacketMathLaws {F} (n : nat) `{Num F} `{Libm F} `{PacketMath F} := {
  pset1_lanes : ∀ x, pset1 x = replicate n x;
  padd_lanes : ∀ a b, padd a b = zip_with fadd a b;
  psub_lanes : ∀ a b, psub a b = zip_with fsub a b;
  pmul_lanes : ∀ a b, pmul a b = zip_with fmul a b;
  pdiv_lanes : ∀ a b, pdiv a b = zip_with fdiv a b;
  pnegate_lanes : ∀ a, pnegate a = fneg <$> a;
  psqrt_lanes : ∀ a, psqrt a = fsqrt <$> a;
  plog_lanes : ∀ a, plog a = flog <$> a;
  pexp_lanes : ∀ a, pexp a = fexp <$> a;
  psin_length : ∀ a, length (psin a) = length a;
  psincos_length : ∀ a, length (psincos a).1 = length a ∧ length (psincos a).2 = length a;
  pcmplt_lanes : ∀ a b, pcmplt a b = zip_with fltb a b;
  pcmple_lanes : ∀ a b, pcmple a b = zip_with fleb a b;
}.

(** [pblendv] and [pand] on masks that are conditions. *)
Definition pick {F} (c : list bool) (a b : list F) : list F :=
  zip_with (λ (c : bool) (ab : F * F), if c then ab.1 else ab.2) c (zip a b).
Definition pand_mask (c d : list bool) : list bool := zip_with andb c d.

(** [CompressMask::compress_append]: the packet handed back, the queue, whether
    the packet is full, and the length of the queue. *)
Record kept (F : Type) := mk_kept { k_value : list F; k_rest : list F; k_full : bool; k_count : Z }.
Arguments mk_kept {F} _ _ _ _.
Arguments k_value {F} _.
Arguments k_rest {F} _.
Arguments k_full {F} _.
Arguments k_count {F} _.

Class PacketFilter (F : Type) := {
  compress_append : list F → list bool → list F → Z → outcome (kept F);
}.

(** The queue [q] after a packet [v] of [n] lanes with the conditions [bs]: it
    is handed out in packets of [n], but a packet of which every lane satisfies
    its condition goes first. *)
Definition enqueue {F} (n : nat) (q : list F) (bs : list bool) (v : list F) : option (list F) * list F :=
  if forallb (λ b, b) bs then (Some v, q)
  else
    let q := q ++ chosen bs v in
    if (n <=? length q)%nat then (Some (take n q), drop n q) else (None, q).

(** What the filter promises for lanes that have the property [ok]: it is that
    queue, whose lanes are the first of the register [q]. *)
Class PacketFilterLaws {F} (n : nat) (ok : F → Prop) `{PacketFilter F} := {
  filter_positive : (0 < n)%nat;
  filter_enqueues : ∀ v bs q r,
    length v = n → length bs = n → length q = n → (r < n)%nat → Forall ok v → Forall ok q →
    ∃ a, compress_append v bs q (Z.of_nat r) = Ret a ∧ length (k_rest a) = n ∧ Forall ok (k_rest a) ∧
      match enqueue n (take r q) bs v with
      | (Some p, q') =>
          k_full a = true ∧ k_value a = p ∧ k_count a = Z.of_nat (length q') ∧
          take (length q') (k_rest a) = q'
      | (None, q') =>
          k_full a = false ∧ k_count a = Z.of_nat (length q') ∧ take (length q') (k_rest a) = q'
      end;
}.

(** ** The loops *)

Section Loops.
Context {F R : Type}.

(** [for (;;) { ...; if (accepted) return x; }]. *)
Fixpoint until_accepted {X} (trial : R → outcome (option X * R)) (fuel : nat) (rng : R) :
    outcome (X * R) :=
  match fuel with
  | O => OutOfFuel
  | S fuel =>
      '(x, rng) ← trial rng;
      match x with Some x => Ret (x, rng) | None => until_accepted trial fuel rng end
  end.

(** [OptCacheStore] and [cache_rest_cnt]: the register of the generator and the
    number of its lanes that are queued candidates. *)
Record queue := mk_queue { q_lanes : list F; cache_rest_cnt : Z }.

(** [for (;;) { ...; cache_rest_cnt = cm.compress_append(cands, c, cache,
    cache_rest_cnt, full); if (full) return cands; }]. *)
Fixpoint until_full `{PacketFilter F} (trial : R → outcome (list F * list bool * R)) (fuel : nat)
    (q : queue) (rng : R) : outcome (list F * queue * R) :=
  match fuel with
  | O => OutOfFuel
  | S fuel =>
      '(cands, c, rng) ← trial rng;
      a ← compress_append cands c (q_lanes q) (cache_rest_cnt q);
      let q := mk_queue (k_rest a) (k_count a) in
      if k_full a then Ret (k_value a, q, rng) else until_full trial fuel q rng
  end.

(** A number read as a condition, and the equality of numbers. *)
Definition feq `{Num F} (x y : F) : bool := fleb x y && fleb y x.
Definition ftruth `{Num F} (x : F) : bool := negb (feq x (of_Z 0)).

End Loops.
Arguments queue F : clear implicits.
