(* ===== verification/Continuous.v ===== *)
(** EigenRand/Dists/NormalExp.h: the generators of continuous distributions,
    each with its scalar call and its packet operation, over any arithmetic.  A
    generator is the record of its members; the numbers it draws are those of a
    [UniformSource]. *)

From S2P Require Import Prelude.
From S2P Require Import Num.
From S2P Require Import Reject.

#[local] Open Scope num_scope.

(** ** The polar method

    The loop shared by [StdNormalGen], [StudentTGen] and [StudentTVGen]: a point
    [(v1, v2)] of the unit disc other than its centre, and [sx], the square of
    its distance from the centre. *)

Section Polar.
Context {F R : Type} `{Num F} `{UniformSource F R}.

Definition polar_trial (rng : R) : outcome (option (F * F * F) * R) :=
  '(u, rng) ← ur rng;
  let v1 := of_Z 2 * u - of_Z 1 in
  '(u, rng) ← ur rng;
  let v2 := of_Z 2 * u - of_Z 1 in
  let sx := v1 * v1 + v2 * v2 in
  Ret (if ftruth sx && (sx <? of_Z 1) then Some (v1, v2, sx) else None, rng).

Definition polar (fuel : nat) (rng : R) : outcome (F * F * F * R) :=
  until_accepted polar_trial fuel rng.

End Polar.

(** ** Normal distributions *)

Module StdNormalGen.
Section Code.
Context {F R : Type} `{Num F} `{Libm F} `{Trig F} `{PacketMath F} `{UniformSource F R}.

(** [valid], and the register of [OptCacheStore], whose first lane is the
    scalar of it. *)
Record t := mk { valid : bool; cache : list F }.

Definition create (lanes : nat) : t := mk false (replicate lanes (of_Z 0)).

Definition call (fuel : nat) (g : t) (rng : R) : outcome (F * t * R) :=
  if valid g then
    x ← array_get (cache g) 0;
    Ret (x, mk false (cache g), rng)
  else
    '(v1, v2, sx, rng) ← polar fuel rng;
    let fx := fsqrt (of_Z (-2) * flog sx / sx) in
    Ret (fx * v1, mk true (<[0%nat := fx * v2]> (cache g)), rng).

Definition packetOp (g : t) (rng : R) : outcome (list F * t * R) :=
  if valid g then Ret (cache g, mk false (cache g), rng)
  else
    '(u1, rng) ← ur_packet rng;
    '(u2, rng) ← ur_packet rng;
    let u1 := psub (pset1 (of_Z 1)) u1 in
    let radius := psqrt (pmul (pset1 (of_Z (-2))) (plog u1)) in
    let theta := pmul (pset1 (of_Z 2 * M_PI)) u2 in
    let '(sintheta, costheta) := psincos theta in
    Ret (pmul radius sintheta, mk true (pmul radius costheta), rng).

End Code.
#[global] Arguments t F : clear implicits.
End StdNormalGen.

Module NormalGen.
Section Code.
Context {F R : Type} `{Num F} `{Libm F} `{Trig F} `{PacketMath F} `{UniformSource F R}.

Record t := mk { stdnorm : StdNormalGen.t F; mean : F; stdev : F }.

Definition create (lanes : nat) (_mean _stdev : F) : t :=
  mk (StdNormalGen.create lanes) _mean _stdev.

Definition call (fuel : nat) (g : t) (rng : R) : outcome (F * t * R) :=
  '(x, s, rng) ← StdNormalGen.call fuel (stdnorm g) rng;
  Ret (x * stdev g + mean g, mk s (mean g) (stdev g), rng).

Definition packetOp (g : t) (rng : R) : outcome (list F * t * R) :=
  '(x, s, rng) ← StdNormalGen.packetOp (stdnorm g) rng;
  Ret (padd (pmul x (pset1 (stdev g))) (pset1 (mean g)), mk s (mean g) (stdev g), rng).

End Code.
#[global] Arguments t F : clear implicits.
End NormalGen.

(** The generators with a parameter of each coefficient have the standard one as
    their state. *)
Module NormalVGen.
Section Code.
Context {F R : Type} `{Num F} `{Libm F} `{Trig F} `{PacketMath F} `{UniformSource F R}.

Definition call (fuel : nat) (g : StdNormalGen.t F) (rng : R) (mean stdev : F) :
    outcome (F * StdNormalGen.t F * R) :=
  '(x, g, rng) ← StdNormalGen.call fuel g rng; Ret (x * stdev + mean, g, rng).

Definition packetOp (g : StdNormalGen.t F) (rng : R) (mean stdev : list F) :
    outcome (list F * StdNormalGen.t F * R) :=
  '(x, g, rng) ← StdNormalGen.packetOp g rng; Ret (padd (pmul x stdev) mean, g, rng).

End Code.
End NormalVGen.

Module LognormalGen.
Section Code.
Context {F R : Type} `{Num F} `{Libm F} `{Trig F} `{PacketMath F} `{UniformSource F R}.

Definition create (lanes : nat) (_mean _stdev : F) : NormalGen.t F :=
  NormalGen.create lanes _mean _stdev.

Definition call (fuel : nat) (norm : NormalGen.t F) (rng : R) : outcome (F * NormalGen.t F * R) :=
  '(x, norm, rng) ← NormalGen.call fuel norm rng; Ret (fexp x, norm, rng).

Definition packetOp (norm : NormalGen.t F) (rng : R) : outcome (list F * NormalGen.t F * R) :=
  '(x, norm, rng) ← NormalGen.packetOp norm rng; Ret (pexp x, norm, rng).

End Code.
End LognormalGen.

Module LognormalVGen.
Section Code.
Context {F R : Type} `{Num F} `{Libm F} `{Trig F} `{PacketMath F} `{UniformSource F R}.

Definition call (fuel : nat) (norm : StdNormalGen.t F) (rng : R) (mean stdev : F) :
    outcome (F * StdNormalGen.t F * R) :=
  '(x, norm, rng) ← NormalVGen.call fuel norm rng mean stdev; Ret (fexp x, norm, rng).

Definition packetOp (norm : StdNormalGen.t F) (rng : R) (mean stdev : list F) :
    outcome (list F * StdNormalGen.t F * R) :=
  '(x, norm, rng) ← NormalVGen.packetOp norm rng mean stdev; Ret (pexp x, norm, rng).

End Code.
End LognormalVGen.

(** ** Student's t distribution *)

Module StudentTGen.
Section Code.
Context {F R : Type} `{Num F} `{Libm F} `{Trig F} `{PacketMath F} `{UniformSource F R}.

(** The generator is its degrees of freedom. *)
Definition call (fuel : nat) (n : F) (rng : R) : outcome (F * R) :=
  '(v1, v2, sx, rng) ← polar fuel rng;
  let fx := fsqrt (n * (fpow sx (of_Z (-2) / n) - of_Z 1) / sx) in
  Ret (fx * v1, rng).

Definition packetOp (n : F) (rng : R) : outcome (list F * R) :=
  '(u1, rng) ← ur_packet rng;
  '(u2, rng) ← ur_packet rng;
  let u1 := psub (pset1 (of_Z 1)) u1 in
  let pn := pset1 n in
  let radius :=
    psqrt (pmul pn (psub (pexp (pmul (plog u1) (pset1 (of_Z (-2) / n)))) (pset1 (of_Z 1)))) in
  let theta := pmul (pset1 (of_Z 2 * M_PI)) u2 in
  Ret (pmul radius (psin theta), rng).

End Code.
End StudentTGen.

Module StudentTVGen.
Section Code.
Context {F R : Type} `{Num F} `{Libm F} `{Trig F} `{PacketMath F} `{UniformSource F R}.

Definition call (fuel : nat) (rng : R) (n : F) : outcome (F * R) :=
  '(v1, v2, sx, rng) ← polar fuel rng;
  let fx := fsqrt (n * (fpow sx (of_Z (-2) / n) - of_Z 1) / sx) in
  Ret (fx * v1, rng).

Definition packetOp (rng : R) (n : list F) : outcome (list F * R) :=
  '(u1, rng) ← ur_packet rng;
  '(u2, rng) ← ur_packet rng;
  let u1 := psub (pset1 (of_Z 1)) u1 in
  let radius :=
    psqrt (pmul n (psub (pexp (pmul (plog u1) (pdiv (pset1 (of_Z (-2))) n))) (pset1 (of_Z 1)))) in
  let theta := pmul (pset1 (of_Z 2 * M_PI)) u2 in
  Ret (pmul radius (psin theta), rng).

End Code.
End StudentTVGen.

(** ** Exponential, Weibull and extreme value distributions *)

Module ExponentialGen.
Section Code.
Context {F R : Type} `{Num F} `{Libm F} `{PacketMath F} `{UniformSource F R}.

Definition call (lambda : F) (rng : R) : outcome (F * R) :=
  '(u, rng) ← ur rng; Ret (- flog (of_Z 1 - u) / lambda, rng).

Definition packetOp (lambda : F) (rng : R) : outcome (list F * R) :=
  '(u, rng) ← ur_packet rng;
  Ret (pnegate (pdiv (plog (psub (pset1 (of_Z 1)) u)) (pset1 lambda)), rng).

End Code.
End ExponentialGen.

Module ExponentialVGen.
Section Code.
Context {F R : Type} `{Num F} `{Libm F} `{PacketMath F} `{UniformSource F R}.

Definition call (rng : R) (lambda : F) : outcome (F * R) :=
  '(u, rng) ← ur rng; Ret (- flog (of_Z 1 - u) / lambda, rng).

Definition packetOp (rng : R) (lambda : list F) : outcome (list F * R) :=
  '(u, rng) ← ur_packet rng;
  Ret (pnegate (pdiv (plog (psub (pset1 (of_Z 1)) u)) lambda), rng).

End Code.
End ExponentialVGen.

Module WeibullGen.
Section Code.
Context {F R : Type} `{Num F} `{Libm F} `{PacketMath F} `{UniformSource F R}.

Record t := mk { a : F; b : F }.

Definition call (g : t) (rng : R) : outcome (F * R) :=
  '(u, rng) ← ur rng; Ret (fpow (- flog (of_Z 1 - u)) (of_Z 1 / a g) * b g, rng).

Definition packetOp (g : t) (rng : R) : outcome (list F * R) :=
  '(u, rng) ← ur_packet rng;
  Ret (pmul (pexp (pmul (plog (pnegate (plog (psub (pset1 (of_Z 1)) u)))) (pset1 (of_Z 1 / a g))))
         (pset1 (b g)), rng).

End Code.
#[global] Arguments t F : clear implicits.
End WeibullGen.

Module WeibullVGen.
Section Code.
Context {F R : Type} `{Num F} `{Libm F} `{PacketMath F} `{UniformSource F R}.

Definition call (rng : R) (a b : F) : outcome (F * R) :=
  '(u, rng) ← ur rng; Ret (fpow (- flog (of_Z 1 - u)) (of_Z 1 / a) * b, rng).

Definition packetOp (rng : R) (a b : list F) : outcome (list F * R) :=
  '(u, rng) ← ur_packet rng;
  Ret (pmul (pexp (pmul (plog (pnegate (plog (psub (pset1 (of_Z 1)) u)))) (pdiv (pset1 (of_Z 1)) a)))
         b, rng).

End Code.
End WeibullVGen.

Module ExtremeValueGen.
Section Code.
Context {F R : Type} `{Num F} `{Libm F} `{PacketMath F} `{UniformSource F R}.

Record t := mk { a : F; b : F }.

Definition call (g : t) (rng : R) : outcome (F * R) :=
  '(u, rng) ← nzur rng; Ret (a g - b g * flog (- flog u), rng).

Definition packetOp (g : t) (rng : R) : outcome (list F * R) :=
  '(u, rng) ← nzur_packet rng;
  Ret (psub (pset1 (a g)) (pmul (plog (pnegate (plog u))) (pset1 (b g))), rng).

End Code.
#[global] Arguments t F : clear implicits.
End ExtremeValueGen.

Module ExtremeValueVGen.
Section Code.
Context {F R : Type} `{Num F} `{Libm F} `{PacketMath F} `{UniformSource F R}.

Definition call (rng : R) (a b : F) : outcome (F * R) :=
  '(u, rng) ← nzur rng; Ret (a - b * flog (- flog u), rng).

Definition packetOp (rng : R) (a b : list F) : outcome (list F * R) :=
  '(u, rng) ← nzur_packet rng; Ret (psub a (pmul (plog (pnegate (plog u))) b), rng).

End Code.
End ExtremeValueVGen.

(** ** Cauchy distribution *)

Module CauchyGen.
Section Code.
Context {F R : Type} `{Num F} `{Libm F} `{Trig F} `{PacketMath F} `{UniformSource F R}.

Record t := mk { a : F; b : F }.

Definition call (g : t) (rng : R) : outcome (F * R) :=
  '(u, rng) ← ur rng; Ret (a g + b g * ftan (M_PI * (u - half)), rng).

Definition packetOp (g : t) (rng : R) : outcome (list F * R) :=
  '(u, rng) ← ur_packet rng;
  let '(s, c) := psincos (pmul (pset1 M_PI) (psub u (pset1 half))) in
  Ret (padd (pset1 (a g)) (pmul (pset1 (b g)) (pdiv s c)), rng).

End Code.
#[global] Arguments t F : clear implicits.
End CauchyGen.

Module CauchyVGen.
Section Code.
Context {F R : Type} `{Num F} `{Libm F} `{Trig F} `{PacketMath F} `{UniformSource F R}.

Definition call (rng : R) (a b : F) : outcome (F * R) :=
  '(u, rng) ← ur rng; Ret (a + b * ftan (M_PI * (u - half)), rng).

Definition packetOp (rng : R) (a b : list F) : outcome (list F * R) :=
  '(u, rng) ← ur_packet rng;
  let '(s, c) := psincos (pmul (pset1 M_PI) (psub u (pset1 half))) in
  Ret (padd a (pmul b (pdiv s c)), rng).

End Code.
End CauchyVGen.
