(* ===== verification/GammaBeta.v ===== *)
(** EigenRand/Dists/NormalExp.h: the gamma distribution and those made of it,
    [GammaGen], [ChiSquaredGen], [BetaGen] and [FisherFGen]. *)

From S2P Require Import Prelude.
From S2P Require Import Num.
From S2P Require Import Reject.
From S2P Require Import Continuous.

#[local] Open Scope num_scope.

(** ** GammaGen *)

Module GammaGen.

(** The member [expon] has its default parameter. *)
Record t (F : Type) := mk { cache : queue F; alpha : F; beta : F; px : F; sqrt : F }.
#[global] Arguments mk {F} _ _ _ _ _.
#[global] Arguments cache {F} _.
#[global] Arguments alpha {F} _.
#[global] Arguments beta {F} _.
#[global] Arguments px {F} _.
#[global] Arguments sqrt {F} _.

Section Code.
Context {F R : Type} `{Num F} `{Libm F} `{Trig F} `{PacketMath F} `{UniformSource F R}.

Definition create (lanes : nat) (_alpha _beta : F) : t F :=
  mk (mk_queue (replicate lanes (of_Z 0)) 0) _alpha _beta (M_E / (_alpha + M_E))
    (fsqrt (of_Z 2 * _alpha - of_Z 1)).

(** [count = alpha], the conversion to [int]. *)
Definition to_count (alpha : F) : outcome Z := real_to_int alpha.

(** [while (--count) yx *= draw]; the fuel [Z.to_nat count] is enough for a
    positive count. *)
Fixpoint decrement {X} (draw : R → outcome (X * R)) (times : X → X → X) (fuel : nat) (count : Z)
    (yx : X) (rng : R) : outcome (X * R) :=
  match fuel with
  | O => OutOfFuel
  | S fuel =>
      let count := (count - 1)%Z in
      if (count =? 0)%Z then Ret (yx, rng)
      else '(u, rng) ← draw rng; decrement draw times fuel count (times yx u) rng
  end.

(** The candidate and the bound of a trial for [alpha < 1]. *)
Definition small_candidate (g : t F) (ux vx : F) : F * F :=
  if ux <? px g then let xx := fpow vx (of_Z 1 / alpha g) in (xx, fexp (- xx))
  else let xx := of_Z 1 - flog vx in (xx, fpow xx (alpha g - of_Z 1)).
Definition small_trial (g : t F) (rng : R) : outcome (option F * R) :=
  '(ux, rng) ← ur rng;
  '(vx, rng) ← nzur rng;
  let '(xx, qx) := small_candidate g ux vx in
  '(u, rng) ← ur rng;
  Ret (if u <? qx then Some (beta g * xx) else None, rng).

(** The candidate and the bound of a trial for other [alpha]. *)
Definition large_candidate (g : t F) (yx : F) : F := sqrt g * yx + alpha g - of_Z 1.
Definition large_bound (g : t F) (yx xx : F) : F :=
  (of_Z 1 + yx * yx) *
  fexp ((alpha g - of_Z 1) * flog (xx / (alpha g - of_Z 1)) - sqrt g * yx).
Definition large_trial (g : t F) (rng : R) : outcome (option F * R) :=
  '(u, rng) ← ur rng;
  let yx := ftan (M_PI * u) in
  let xx := large_candidate g yx in
  if xx <=? of_Z 0 then Ret (None, rng)
  else
    '(u, rng) ← ur rng;
    Ret (if u <=? large_bound g yx xx then Some (beta g * xx) else None, rng).

Definition call (fuel : nat) (g : t F) (rng : R) : outcome (F * R) :=
  if alpha g <? of_Z 1 then until_accepted (small_trial g) fuel rng
  else if feq (alpha g) (of_Z 1) then
    '(x, rng) ← ExponentialGen.call (of_Z 1) rng; Ret (beta g * x, rng)
  else
    count ← to_count (alpha g);
    if feq (of_Z count) (alpha g) && (count <? 20)%Z then
      '(yx, rng) ← nzur rng;
      '(yx, rng) ← decrement nzur fmul (Z.to_nat count) count yx rng;
      Ret (- beta g * flog yx, rng)
    else until_accepted (large_trial g) fuel rng.

(** ** The packet operation *)

Definition small_packet (g : t F) (rng : R) : outcome (list F * list bool * R) :=
  '(ux, rng) ← ur_packet rng;
  '(vx, rng) ← nzur_packet rng;
  let xx := pexp (pmul (pset1 (of_Z 1 / alpha g)) (plog vx)) in
  let qx := pexp (pnegate xx) in
  let xx2 := psub (pset1 (of_Z 1)) (plog vx) in
  let qx2 := pexp (pmul (plog xx2) (pset1 (alpha g - of_Z 1))) in
  let c := pcmplt ux (pset1 (px g)) in
  let xx := pick c xx xx2 in
  let qx := pick c qx qx2 in
  '(ux, rng) ← ur_packet rng;
  let cands := pmul (pset1 (beta g)) xx in
  Ret (cands, pcmplt ux qx, rng).

Definition large_packet (g : t F) (rng : R) : outcome (list F * list bool * R) :=
  let alpha_1 := pset1 (alpha g - of_Z 1) in
  '(u, rng) ← ur_packet rng;
  let '(ys, yc) := psincos (pmul (pset1 M_PI) u) in
  let yx := pdiv ys yc in
  let xx := padd (pmul (pset1 (sqrt g)) yx) alpha_1 in
  let c := pcmplt (pset1 (of_Z 0)) xx in
  '(ux, rng) ← ur_packet rng;
  let ub := pmul (padd (pmul yx yx) (pset1 (of_Z 1)))
              (pexp (psub (pmul alpha_1 (plog (pdiv xx alpha_1))) (pmul yx (pset1 (sqrt g))))) in
  let c := pand_mask c (pcmple ux ub) in
  let cands := pmul (pset1 (beta g)) xx in
  Ret (cands, c, rng).

Definition with_cache (g : t F) (q : queue F) : t F := mk q (alpha g) (beta g) (px g) (sqrt g).

Context `{PacketFilter F}.

Definition packetOp (fuel : nat) (g : t F) (rng : R) : outcome (list F * t F * R) :=
  if alpha g <? of_Z 1 then
    '(x, q, rng) ← until_full (small_packet g) fuel (cache g) rng; Ret (x, with_cache g q, rng)
  else if feq (alpha g) (of_Z 1) then
    '(x, rng) ← ExponentialGen.packetOp (of_Z 1) rng; Ret (pmul (pset1 (beta g)) x, g, rng)
  else
    count ← to_count (alpha g);
    if feq (of_Z count) (alpha g) && (count <? 20)%Z then
      '(yx, rng) ← nzur_packet rng;
      '(yx, rng) ← decrement nzur_packet pmul (Z.to_nat count) count yx rng;
      Ret (pnegate (pmul (pset1 (beta g)) (plog yx)), g, rng)
    else
      '(x, q, rng) ← until_full (large_packet g) fuel (cache g) rng; Ret (x, with_cache g q, rng).

End Code.
End GammaGen.

Module ChiSquaredGen.
Section Code.
Context {F R : Type} `{Num F} `{Libm F} `{Trig F} `{PacketMath F} `{UniformSource F R} `{PacketFilter F}.

Definition create (lanes : nat) (n : F) : GammaGen.t F := GammaGen.create lanes (n * half) (of_Z 2).
Definition call (fuel : nat) (gamma : GammaGen.t F) (rng : R) : outcome (F * R) :=
  GammaGen.call fuel gamma rng.
Definition packetOp (fuel : nat) (gamma : GammaGen.t F) (rng : R) :
    outcome (list F * GammaGen.t F * R) := GammaGen.packetOp fuel gamma rng.

End Code.
End ChiSquaredGen.

(** ** BetaGen, FisherFGen *)

Module BetaGen.

Record t (F : Type) := mk { cache : queue F; a : F; b : F; gd1 : GammaGen.t F; gd2 : GammaGen.t F }.
#[global] Arguments mk {F} _ _ _ _ _.
#[global] Arguments cache {F} _.
#[global] Arguments a {F} _.
#[global] Arguments b {F} _.
#[global] Arguments gd1 {F} _.
#[global] Arguments gd2 {F} _.

Section Code.
Context {F R : Type} `{Num F} `{Libm F} `{Trig F} `{PacketMath F} `{UniformSource F R}.

Definition create (lanes : nat) (_a _b : F) : t F :=
  mk (mk_queue (replicate lanes (of_Z 0)) 0) _a _b (GammaGen.create lanes _a (of_Z 1))
    (GammaGen.create lanes _b (of_Z 1)).

Definition small_trial (g : t F) (rng : R) : outcome (option F * R) :=
  '(u, rng) ← ur rng;
  let p1 := fpow u (of_Z 1 / a g) in
  '(u, rng) ← ur rng;
  let p2 := fpow u (of_Z 1 / b g) in
  let x := p1 + p2 in
  Ret (if x <=? of_Z 1 then Some (p1 / x) else None, rng).

Definition call (fuel : nat) (g : t F) (rng : R) : outcome (F * R) :=
  if (a g <? of_Z 1) && (b g <? of_Z 1) then until_accepted (small_trial g) fuel rng
  else
    '(p1, rng) ← GammaGen.call fuel (gd1 g) rng;
    '(p2, rng) ← GammaGen.call fuel (gd2 g) rng;
    Ret (p1 / (p1 + p2), rng).

Definition small_packet (g : t F) (rng : R) : outcome (list F * list bool * R) :=
  '(u, rng) ← ur_packet rng;
  let p1 := pexp (pmul (plog u) (pset1 (of_Z 1 / a g))) in
  '(u, rng) ← ur_packet rng;
  let p2 := pexp (pmul (plog u) (pset1 (of_Z 1 / b g))) in
  let x := padd p1 p2 in
  let cands := pdiv p1 x in
  Ret (cands, pcmple x (pset1 (of_Z 1)), rng).

Context `{PacketFilter F}.

Definition packetOp (fuel : nat) (g : t F) (rng : R) : outcome (list F * t F * R) :=
  if (a g <? of_Z 1) && (b g <? of_Z 1) then
    '(x, q, rng) ← until_full (small_packet g) fuel (cache g) rng;
    Ret (x, mk q (a g) (b g) (gd1 g) (gd2 g), rng)
  else
    '(p1, g1, rng) ← GammaGen.packetOp fuel (gd1 g) rng;
    '(p2, g2, rng) ← GammaGen.packetOp fuel (gd2 g) rng;
    Ret (pdiv p1 (padd p1 p2), mk (cache g) (a g) (b g) g1 g2, rng).

End Code.
End BetaGen.

Module FisherFGen.
Section Code.
Context {F R : Type} `{Num F} `{Libm F} `{Trig F} `{PacketMath F} `{UniformSource F R}.

Definition create (lanes : nat) (m n : F) : BetaGen.t F := BetaGen.create lanes (m * half) (n * half).

Definition call (fuel : nat) (beta : BetaGen.t F) (rng : R) : outcome (F * R) :=
  '(x, rng) ← BetaGen.call fuel beta rng;
  Ret (BetaGen.b beta / BetaGen.a beta * x / (of_Z 1 - x), rng).

Definition packetOp `{PacketFilter F} (fuel : nat) (beta : BetaGen.t F) (rng : R) :
    outcome (list F * BetaGen.t F * R) :=
  '(x, beta, rng) ← BetaGen.packetOp fuel beta rng;
  Ret (pdiv (pmul (pset1 (BetaGen.b beta / BetaGen.a beta)) x) (psub (pset1 (of_Z 1)) x), beta, rng).

End Code.
End FisherFGen.
