(* ===== verification/RejectProps.v ===== *)
(** The two rejection loops: what they return for the trials that the engine
    brings about, and the packet filters on which they run. *)

From S2P Require Import Prelude.
From S2P Require Import Simd.
From S2P Require Import PacketFilter.
From S2P Require Import PacketMath.
From S2P Require Import FloatBits.
From Stdlib Require Import SpecFloat.
From S2P Require Import Num.
From S2P Require Import FloatBitsProps.
From S2P Require Import FloatNum.
From S2P Require Import Reject.

(** ** One candidate at a time *)

Section Scalar.
Context {R X : Type} (trial : R → outcome (option X * R)).

(** The [k]-th trial is the first that is accepted. *)
Inductive accepts : nat → R → X → R → Prop :=
  | accepts_now rng x rng' : trial rng = Ret (Some x, rng') → accepts 1 rng x rng'
  | accepts_later k rng rng1 x rng' :
      trial rng = Ret (None, rng1) → accepts k rng1 x rng' → accepts (S k) rng x rng'.

Lemma until_accepted_ok k rng x rng' fuel :
  accepts k rng x rng' → (k <= fuel)%nat → until_accepted trial fuel rng = Ret (x, rng').
Proof.
  intros Ha. revert fuel. induction Ha as [rng x rng' Ht|k rng rng1 x rng' Ht Ha IH];
    intros [|fuel] Hle; try lia; cbn [until_accepted]; rewrite Ht; cbn [mbind outcome_bind]; [done|].
  apply IH. lia.
Qed.

Lemma until_accepted_inv fuel rng x rng' :
  until_accepted trial fuel rng = Ret (x, rng') → ∃ k, (k <= fuel)%nat ∧ accepts k rng x rng'.
Proof.
  revert rng. induction fuel as [|fuel IH]; intros rng; cbn [until_accepted]; [done|].
  destruct (trial rng) as [[[y|] rng1]| | |] eqn:E; cbn [mbind outcome_bind]; try done.
  - intros [= <- <-]. exists 1%nat. split; [lia|by constructor].
  - intros (k & Hk & Ha)%IH. exists (S k). split; [lia|by econstructor].
Qed.

(** The trial that was accepted. *)
Lemma accepts_last k rng x rng' : accepts k rng x rng' → ∃ rng1, trial rng1 = Ret (Some x, rng').
Proof. induction 1; [by eexists|done]. Qed.

End Scalar.

(** ** A packet at a time *)

Section Packets.
Context {F R : Type}.

(** The packets of candidates and conditions of the next [k] trials. *)
Fixpoint trials (trial : R → outcome (list F * list bool * R)) (k : nat) (rng : R) :
    outcome (list (list F * list bool) * R) :=
  match k with
  | O => Ret ([], rng)
  | S k =>
      '(v, bs, rng) ← trial rng;
      '(ts, rng) ← trials trial k rng;
      Ret ((v, bs) :: ts, rng)
  end.

(** The first packet that the queue [q] gives on the trials [ts], when it comes
    with the last of them, and what is then queued. *)
Fixpoint drain (n : nat) (q : list F) (ts : list (list F * list bool)) : option (list F * list F) :=
  match ts with
  | [] => None
  | (v, bs) :: ts =>
      match enqueue n q bs v with
      | (Some p, q) => match ts with [] => Some (p, q) | _ => None end
      | (None, q) => drain n q ts
      end
  end.

Definition has_lanes (n : nat) (t : list F * list bool) : Prop :=
  length (A:=F) t.1 = n ∧ length (A:=bool) t.2 = n.

Definition accepted_lanes (ts : list (list F * list bool)) : list F :=
  concat ((λ t : list F * list bool, chosen t.2 t.1) <$> ts).

Lemma chosen_all (bs : list bool) (v : list F) :
  length v = length bs → forallb (λ b, b) bs = true → chosen bs v = v.
Proof.
  revert v. induction bs as [|[|] bs IH]; intros [|x v] Hl Hb; try done.
  cbn [chosen]. f_equal. apply IH; [by injection Hl|done].
Qed.

Lemma chosen_length (bs : list bool) (v : list F) : (length (chosen bs v) <= length bs)%nat.
Proof.
  revert v. induction bs as [|b bs IH]; intros [|x v]; cbn [chosen length]; try lia.
  specialize (IH v). destruct b; cbn [length]; lia.
Qed.

Lemma chosen_Forall (P : F → Prop) bs v : Forall P v → Forall P (chosen bs v).
Proof.
  intros Hv. revert bs. induction Hv as [|x v Hx Hv IH]; intros [|b bs]; cbn [chosen]; try constructor.
  destruct b; [by constructor|done].
Qed.

(** Nothing is lost: what was queued and what is accepted is handed out or
    queued. *)
Lemma enqueue_conserves n (q : list F) bs v :
  length v = n → length bs = n → (length q < n)%nat →
  match enqueue n q bs v with
  | (Some p, q') => q ++ chosen bs v ≡ₚ p ++ q' ∧ length p = n ∧ (length q' < n)%nat
  | (None, q') => q ++ chosen bs v = q' ∧ (length q' < n)%nat
  end.
Proof.
  intros Hv Hb Hq. unfold enqueue. destruct (forallb (λ b, b) bs) eqn:E.
  - rewrite chosen_all by congruence. by rewrite (comm (++)).
  - pose proof (chosen_length bs v) as Hc.
    destruct (Nat.leb_spec n (length (q ++ chosen bs v))) as [Hle|Hlt]; [|done].
    rewrite take_drop, length_take, length_drop. rewrite length_app in *. split_and!; [done|lia|].
    assert (length (chosen bs v) ≠ n) as Hne; [|lia].
    intros Heq. assert (forallb (λ b, b) bs = true) as Ht; [|congruence].
    rewrite <-Hb in Heq. clear -Heq. revert v Heq. induction bs as [|b bs IH]; intros [|x v]; cbn; try done.
    pose proof (chosen_length bs v). destruct b; cbn; intros Heq; [apply (IH v)|]; lia.
Qed.

Lemma drain_conserves n (q : list F) ts p q' :
  Forall (has_lanes n) ts → (length q < n)%nat → drain n q ts = Some (p, q') →
  q ++ accepted_lanes ts ≡ₚ p ++ q' ∧ length p = n ∧ (length q' < n)%nat.
Proof.
  intros Hts. revert q. induction Hts as [|[v bs] ts [Hv Hb] Hts IH]; intros q Hq; [done|].
  cbn [drain]. pose proof (enqueue_conserves n q bs v Hv Hb Hq) as He.
  unfold accepted_lanes in *. cbn [fmap list_fmap concat fst snd]. cbn [fst snd] in Hv, Hb.
  destruct (enqueue n q bs v) as [[p1|] q1].
  - destruct ts; [|done]. intros [= <- <-]. cbn. by rewrite app_nil_r.
  - destruct He as [<- Hlt]. intros Hd. rewrite app_assoc. by apply IH.
Qed.

(** A packet comes as soon as there are enough accepted lanes. *)
Lemma drain_enough n (q : list F) ts :
  Forall (has_lanes n) ts → (length q < n)%nat →
  (n <= length (q ++ accepted_lanes ts))%nat →
  ∃ k p q', (k <= length ts)%nat ∧ drain n q (take k ts) = Some (p, q').
Proof.
  intros Hts. revert q. induction Hts as [|[v bs] ts [Hv Hb] Hts IH]; intros q Hq Hn.
  - rewrite app_nil_r in Hn. lia.
  - pose proof (enqueue_conserves n q bs v Hv Hb Hq) as He.
    unfold accepted_lanes in *. cbn [fmap list_fmap concat fst snd] in Hn.
    destruct (enqueue n q bs v) as [[p1|] q1] eqn:E.
    + exists 1%nat, p1, q1. cbn [length take drain]. rewrite E. split; [lia|by destruct ts].
    + destruct He as [<- Hlt]. rewrite app_assoc in Hn.
      destruct (IH _ Hlt Hn) as (k & p & q' & Hk & Hd).
      exists (S k), p, q'. cbn [length take drain]. rewrite E. split; [lia|done].
Qed.

Context (n : nat) (ok : F → Prop) `{PacketFilterLaws F n ok}.

(** The queued lanes of a register. *)
Record holds_queue (Q : queue F) (q : list F) : Prop := {
  holds_lanes : length (q_lanes Q) = n;
  holds_ok : Forall ok (q_lanes Q);
  holds_count : cache_rest_cnt Q = Z.of_nat (length q);
  holds_room : (length q < n)%nat;
  holds_taken : take (length q) (q_lanes Q) = q;
}.

Lemma holds_create x : ok x → holds_queue (mk_queue (replicate n x) 0) [].
Proof.
  pose proof (filter_positive (n := n) (ok := ok)). split; cbn; [by rewrite length_replicate|by apply Forall_replicate|done|lia|done].
Qed.

Lemma enqueue_register (Q : queue F) (q v : list F) bs :
  holds_queue Q q → length v = n → length bs = n → Forall ok v →
  ∃ a, compress_append v bs (q_lanes Q) (cache_rest_cnt Q) = Ret a ∧
    match enqueue n q bs v with
    | (Some p, q') => k_full a = true ∧ k_value a = p ∧ holds_queue (mk_queue (k_rest a) (k_count a)) q'
    | (None, q') => k_full a = false ∧ holds_queue (mk_queue (k_rest a) (k_count a)) q'
    end.
Proof.
  intros [Hl Hok Hc Hr Ht] Hv Hb Hokv. rewrite Hc.
  destruct (filter_enqueues v bs (q_lanes Q) (length q)) as (a & Ha & Hla & Hoka & He); try done.
  exists a. split; [done|]. rewrite Ht in He. pose proof (enqueue_conserves n q bs v Hv Hb Hr) as Hn.
  destruct (enqueue n q bs v) as [[p|] q'].
  - destruct He as (Hf & Hp & Hk & Ht'), Hn as (_ & _ & Hlt). by split_and!.
  - destruct He as (Hf & Hk & Ht'), Hn as (_ & Hlt). by split.
Qed.

Lemma trials_S trial k rng ts rng' :
  trials trial (S k) rng = Ret (ts, rng') →
  ∃ v bs ts' rng1, ts = (v, bs) :: ts' ∧ trial rng = Ret (v, bs, rng1) ∧
    trials trial k rng1 = Ret (ts', rng').
Proof.
  cbn [trials]. destruct (trial rng) as [[[v bs] rng1]| | |]; cbn [mbind outcome_bind]; try done.
  destruct (trials trial k rng1) as [[ts' rng2]| | |] eqn:E; cbn [mbind outcome_bind]; try done.
  intros [= <- <-]. by exists v, bs, ts', rng1.
Qed.

Lemma until_full_ok trial ts fuel (Q : queue F) q rng p q' rng' :
  Forall (has_lanes n) ts → Forall (λ t : list F * list bool, Forall ok t.1) ts →
  trials trial (length ts) rng = Ret (ts, rng') → drain n q ts = Some (p, q') →
  (length ts <= fuel)%nat → holds_queue Q q →
  ∃ Q', until_full trial fuel Q rng = Ret (p, Q', rng') ∧ holds_queue Q' q'.
Proof.
  intros Hts. revert fuel Q q rng. induction Hts as [|[v bs] ts [Hv Hb] Hts IH];
    intros fuel Q q rng Hok Ht Hd Hf Hq; [done|]. cbn [fst snd] in Hv, Hb.
  apply Forall_cons in Hok as [Hokv Hok]. cbn [length] in Ht, Hf.
  apply trials_S in Ht as (v' & bs' & ts' & rng1 & [= <- <- <-] & Ht1 & Ht).
  destruct fuel as [|fuel]; [lia|]. cbn [until_full drain] in *. rewrite Ht1. cbn [mbind outcome_bind].
  destruct (enqueue_register Q q v bs Hq Hv Hb Hokv) as (a & -> & He). cbn [mbind outcome_bind].
  destruct (enqueue n q bs v) as [[p1|] q1].
  - destruct He as (-> & -> & Hq1). destruct ts; [|done]. injection Hd as <- <-.
    injection Ht as <-. by eexists.
  - destruct He as (-> & Hq1). apply IH with q1; try done. lia.
Qed.

End Packets.

(** A trial is a function of what it draws. *)
Fixpoint draw_n {St D} (draw : St → outcome (D * St)) (k : nat) (rng : St) : outcome (list D * St) :=
  match k with
  | O => Ret ([], rng)
  | S k => '(d, rng) ← draw rng; '(ds, rng) ← draw_n draw k rng; Ret (d :: ds, rng)
  end.

Lemma draw_n_S {St D} (draw : St → outcome (D * St)) k rng ds rng' :
  draw_n draw (S k) rng = Ret (ds, rng') →
  ∃ d ds' rng1, ds = d :: ds' ∧ draw rng = Ret (d, rng1) ∧ draw_n draw k rng1 = Ret (ds', rng').
Proof.
  cbn [draw_n]. destruct (draw rng) as [[d rng1]| | |]; cbn [mbind outcome_bind]; try done.
  destruct (draw_n draw k rng1) as [[ds' rng2]| | |] eqn:E; cbn [mbind outcome_bind]; try done.
  intros [= <- <-]. by exists d, ds', rng1.
Qed.

Lemma draw_n_take {St D} (draw : St → outcome (D * St)) j k rng ds rng' :
  draw_n draw k rng = Ret (ds, rng') → (j <= k)%nat →
  ∃ rng1, draw_n draw j rng = Ret (take j ds, rng1) ∧ length ds = k.
Proof.
  revert k rng ds. induction j as [|j IH]; intros k rng ds Hd Hj.
  - exists rng. split; [by rewrite take_0|]. clear Hj. revert rng ds Hd.
    induction k as [|k IHk]; intros rng ds Hd; [by injection Hd as <- _|].
    apply draw_n_S in Hd as (d & ds' & rng1 & -> & _ & Hd). cbn. f_equal. by eapply IHk.
  - destruct k as [|k]; [lia|]. apply draw_n_S in Hd as (d & ds' & rng1 & -> & H1 & Hd).
    destruct (IH k rng1 ds' Hd ltac:(lia)) as (rng2 & H2 & Hl). exists rng2.
    cbn [draw_n take length]. rewrite H1. cbn [mbind outcome_bind]. rewrite H2. by rewrite Hl.
Qed.

Section Lanes.
Context {F St D : Type} (n : nat) (ok : F → Prop) `{PacketFilterLaws F n ok}.
Context (trial : St → outcome (list F * list bool * St)) (draw : St → outcome (D * St))
  (good : D → Prop) (lanes : D → list F * list bool).
Context (Htrial : ∀ rng d rng', draw rng = Ret (d, rng') → good d →
  trial rng = Ret (lanes d, rng') ∧ has_lanes n (lanes d) ∧ Forall ok (lanes d).1).

Lemma trials_lanes ds rng rng' :
  draw_n draw (length ds) rng = Ret (ds, rng') → Forall good ds →
  trials trial (length ds) rng = Ret (lanes <$> ds, rng') ∧
  Forall (has_lanes n) (lanes <$> ds) ∧ Forall (λ t : list F * list bool, Forall ok t.1) (lanes <$> ds).
Proof.
  intros Hd Hg. revert rng Hd. induction Hg as [|d ds Hgd Hg IH]; intros rng Hd.
  - injection Hd as <-. by split_and!.
  - cbn [length] in Hd. apply draw_n_S in Hd as (d' & ds' & rng1 & [= <- <-] & H1 & Hd).
    destruct (Htrial _ _ _ H1 Hgd) as (Ht & Hl & Hok). destruct (IH rng1 Hd) as (Hts & Hls & Hoks).
    cbn [length trials fmap list_fmap]. rewrite Ht. destruct (lanes d) as [v bs] eqn:E.
    cbn [mbind outcome_bind]. rewrite Hts. cbn [mbind outcome_bind]. split_and!; [done|by constructor..].
Qed.

Lemma until_full_lanes ds fuel (Q : queue F) q rng p q' rng' :
  draw_n draw (length ds) rng = Ret (ds, rng') → Forall good ds →
  drain n q (lanes <$> ds) = Some (p, q') → (length ds <= fuel)%nat → holds_queue n ok Q q →
  (∃ Q', until_full trial fuel Q rng = Ret (p, Q', rng') ∧ holds_queue n ok Q' q') ∧
  q ++ accepted_lanes (lanes <$> ds) ≡ₚ p ++ q' ∧ length p = n.
Proof.
  intros Hd Hg Hdr Hf Hq. destruct (trials_lanes ds rng rng' Hd Hg) as (Ht & Hl & Hok). split.
  - eapply (until_full_ok n ok trial (lanes <$> ds)); try done; by rewrite length_fmap.
  - destruct (drain_conserves n q _ p q' Hl (holds_room _ _ _ _ Hq) Hdr) as (Hp & Hn & _). done.
Qed.

(** Enough accepted lanes to come, and the loop ends. *)
Lemma until_full_returns ds fuel (Q : queue F) q rng rng' :
  draw_n draw (length ds) rng = Ret (ds, rng') → Forall good ds →
  (n <= length (q ++ accepted_lanes (lanes <$> ds)))%nat → (length ds <= fuel)%nat →
  holds_queue n ok Q q →
  ∃ p Q' rng1, until_full trial fuel Q rng = Ret (p, Q', rng1) ∧ length p = n.
Proof.
  intros Hd Hg Hn Hf Hq. destruct (trials_lanes ds rng rng' Hd Hg) as (_ & Hl & _).
  destruct (drain_enough n q _ Hl (holds_room _ _ _ _ Hq) Hn) as (k & p & q' & Hk & Hdr).
  rewrite length_fmap in Hk. destruct (draw_n_take draw k _ rng ds rng' Hd Hk) as (rng1 & Hd1 & _).
  rewrite <-fmap_take in Hdr.
  assert (length (take k ds) = k) as Hlk by (rewrite length_take; lia).
  rewrite <-Hlk in Hd1 at 1. destruct (until_full_lanes (take k ds) fuel Q q rng p q' rng1 Hd1)
    as [(Q' & Hu & _) (_ & Hp)]; [by apply Forall_take|done|lia|done|]. by exists p, Q', rng1.
Qed.

End Lanes.

(** ** Filters *)

(** The queue itself is a filter, for lanes of any kind. *)
Definition list_filter {F} (n : nat) (x : F) : PacketFilter F := {|
  compress_append v bs q r :=
    let q := take (Z.to_nat r) q in
    Ret match enqueue n q bs v with
        | (Some p, q') => mk_kept p (q' ++ replicate (n - length q') x) true (Z.of_nat (length q'))
        | (None, q') => mk_kept v (q' ++ replicate (n - length q') x) false (Z.of_nat (length q'))
        end;
|}.

Lemma list_filter_laws {F} n (x : F) (ok : F → Prop) :
  (0 < n)%nat → ok x → @PacketFilterLaws F n ok (list_filter n x).
Proof.
  intros Hn Hx. split; [done|]. intros v bs q r Hv Hb Hq Hr Hokv Hokq. cbn. rewrite Nat2Z.id.
  pose proof (enqueue_conserves n (take r q) bs v Hv Hb) as He.
  rewrite length_take in He. specialize (He ltac:(lia)).
  assert (Forall ok (take r q ++ chosen bs v)) as Hall
    by (apply Forall_app; split; [by apply Forall_take|by apply chosen_Forall]).
  eexists. split; [done|]. destruct (enqueue n (take r q) bs v) as [[p|] q'] eqn:E; cbn.
  - destruct He as (Hp & _ & Hlt). rewrite length_app, length_replicate, take_app_length.
    split_and!; try done; [lia|]. rewrite Hp in Hall. apply Forall_app in Hall as [_ Hall].
    apply Forall_app. split; [done|by apply Forall_replicate].
  - destruct He as (<- & Hlt). rewrite length_app, length_replicate, take_app_length.
    split_and!; try done; [lia|]. apply Forall_app. split; [done|by apply Forall_replicate].
Qed.

(** [CompressMask] as a filter of numbers of 32 bits, which [enc] and [dec] take
    to their bits and back. *)
Section Bits.
Context {F : Type} (enc : F → Z) (dec : Z → F).

Definition bits_filter (compress : list Z → list Z → list Z → Z → outcome appended) :
    PacketFilter F := {|
  compress_append v bs q r :=
    a ← compress (enc <$> v) (mask 32 <$> bs) (enc <$> q) r;
    Ret (mk_kept (dec <$> value a) (dec <$> rest a) (full a) (new_count a));
|}.

Definition has_bits (x : F) : Prop := dec (enc x) = x ∧ word 32 (enc x).

Lemma dec_enc l : Forall has_bits l → dec <$> (enc <$> l) = l.
Proof. induction 1 as [|x l [Hx _] _ IH]; [done|]. rewrite !fmap_cons. by rewrite Hx, IH. Qed.

Lemma enc_words l : Forall has_bits l → Forall (word 32) (enc <$> l).
Proof. intros Hl. apply Forall_fmap. eapply Forall_impl; [exact Hl|]. by intros x [_ Hx]. Qed.

Lemma bits_filter_laws m compress :
  (0 < m)%nat → Appends m compress → (∀ w, word 32 w → has_bits (dec w)) →
  @PacketFilterLaws F (2 * m) has_bits (bits_filter compress).
Proof.
  intros Hm Happ Hdec. split; [lia|]. intros v bs q r Hv Hb Hq Hr Hokv Hokq.
  destruct (appends (enc <$> v) (enc <$> q) (mask 32 <$> bs) r) as (a & Ha & Hs).
  1-2: split; [by rewrite length_fmap|by apply enc_words].
  1-2: by rewrite ?length_fmap.
  cbn -[Nat.mul]. rewrite Ha. cbn [mbind outcome_bind]. eexists. split; [done|]. cbn [k_rest k_full k_value k_count].
  rewrite conditions_mask in Hs. unfold append_spec in Hs. unfold enqueue.
  destruct (forallb (λ b, b) bs).
  - subst a. cbn. rewrite length_take, !dec_enc by done. split_and!; try done.
    + f_equal. lia.
    + by rewrite min_l by lia.
  - rewrite <-fmap_take, selected_chosen, chosen_fmap, <-fmap_app in Hs by (rewrite length_fmap; congruence).
    rewrite !length_fmap in Hs. rewrite length_fmap.
    assert (Forall has_bits (take r q ++ chosen bs v)) as Hall
      by (apply Forall_app; split; [by apply Forall_take|by apply chosen_Forall]).
    destruct Hs as [[Hl Hw] Hs]. split; [done|]. split.
    { apply Forall_fmap. eapply Forall_impl; [exact Hw|]. intros w. apply Hdec. }
    destruct (_ <=? _)%nat.
    + destruct Hs as (Hval & Hfull & Hcnt & Ht). rewrite length_drop, Hval, Hcnt, <-(fmap_take dec), Ht.
      rewrite <-fmap_take, <-fmap_drop, !dec_enc by (apply Forall_drop || apply Forall_take; done). done.
    + destruct Hs as (_ & Hfull & Hcnt & Ht). rewrite Hcnt, <-(fmap_take dec), Ht, dec_enc by done. done.
Qed.

End Bits.

(** ** Reference instances *)

(** Packets of [n] lanes on which every operation is that of the scalars. *)
Definition lane_packets {F} `{Num F} `{Libm F} `{Trig F} (n : nat) : PacketMath F := {|
  pset1 x := replicate n x;
  padd := zip_with fadd;
  psub := zip_with fsub;
  pmul := zip_with fmul;
  pdiv := zip_with fdiv;
  pnegate := fmap fneg;
  psqrt := fmap fsqrt;
  plog := fmap flog;
  pexp := fmap fexp;
  psin := fmap fsin;
  psincos a := (fsin <$> a, fcos <$> a);
  pcmplt := zip_with fltb;
  pcmple := zip_with fleb;
|}.

Lemma lane_packets_laws {F} `{Num F} `{Libm F} `{Trig F} n :
  @PacketMathLaws F n _ _ (lane_packets n).
Proof. split; intros; cbn; rewrite ?length_fmap; done. Qed.

(** An engine given by the numbers that are left of it. *)
Definition tape {F} (n : nat) : UniformSource F (list F) :=
  let one l := match l with x :: l => Ret (x, l) | [] => Undef null_dereference end in
  let packet l := if (n <=? length l)%nat then Ret (take n l, drop n l) else Undef null_dereference in
  {| ur := one; nzur := one; ur_packet := packet; nzur_packet := packet |}.

(** ** Packets of floats

    [CompressMask] moves 32-bit lanes; on the bits of floats the filters of the SSE
    and AVX headers keep the promises that the generators rely on. *)

Lemma of_bits32_has_bits w : word 32 w → has_bits (to_bits binary32) (of_bits binary32) (of_bits binary32 w).
Proof.
  intros _. pose proof (or_introl eq_refl : ieee binary32) as Hf.
  destruct (of_bits_to_bits binary32 Hf (of_bits binary32 w)) as [Hw Hv]; [by apply of_bits_canonical|by split].
Qed.

(** The filters of packets of four and of eight [float]s. *)
Definition sse_float_filter (fx : features) : PacketFilter spec_float :=
  bits_filter (to_bits binary32) (of_bits binary32) (SSEFilter.compress_append fx SSEFilter.create).
Definition avx_float_filter `{EigenPackets} (fx : features) : PacketFilter spec_float :=
  bits_filter (to_bits binary32) (of_bits binary32) (AVXFilter.compress_append fx AVXFilter.create).

(** The filters of the SSE and AVX headers keep, for packets of [float]s, the
    promise on which the loops of the generators rely: they are a queue of the
    numbers whose lanes are selected. *)
Theorem float_filters `{EigenPackets} `{!EigenPacketLaws} fx :
  @PacketFilterLaws spec_float 4 (has_bits (to_bits binary32) (of_bits binary32)) (sse_float_filter fx) ∧
  @PacketFilterLaws spec_float 8 (has_bits (to_bits binary32) (of_bits binary32)) (avx_float_filter fx).
Proof.
  split.
  - apply (bits_filter_laws _ _ 2); [lia|apply _|apply of_bits32_has_bits].
  - apply (bits_filter_laws _ _ 4); [lia|apply _|apply of_bits32_has_bits].
Qed.

Lemma float_filters_witness :
  ∃ a, compress_append (PacketFilter := sse_float_filter (mk_features true true true true))
    (of_bits binary32 <$> [0x3F800000; 0x40000000; 0xC0400000; 0x40800000]) [true; false; true; false]
    (of_bits binary32 <$> [0x3F000000; 0; 0; 0]) 1 = Ret a ∧
  k_count a = 3 ∧
  take 3 (k_rest a) = of_bits binary32 <$> [0x3F000000; 0x3F800000; 0xC0400000].
Proof.
  pose proof (proj1 (float_filters (H := instructions) (H0 := instructions_laws) (mk_features true true true true))) as Hl.
  destruct (@filter_enqueues _ _ _ _ Hl
    (of_bits binary32 <$> [0x3F800000; 0x40000000; 0xC0400000; 0x40800000]) [true; false; true; false]
    (of_bits binary32 <$> [0x3F000000; 0; 0; 0]) 1%nat) as (a & Ha & _ & _ & Hq); [done|done|done|lia| | |].
  1-2: repeat (apply Forall_cons; split; [apply of_bits32_has_bits; unfold word; lia|]); apply Forall_nil; done.
  exists a. vm_compute (enqueue _ _ _ _) in Hq. destruct Hq as (_ & Hc & Hr).
  split_and!; [exact Ha|exact Hc|exact Hr].
Defined.
