(* ===== verification/ContinuousProps.v ===== *)
(** The continuous distributions over exact arithmetic: the generators by
    inversion sample their distributions exactly, the polar method and the
    packet form of it give pairs of the right length and direction, and what
    mixing scalars and packets of [StdNormalGen] does. *)

From S2P Require Import Prelude.
From S2P Require Import Num.
From S2P Require Import NumR.
From S2P Require Import Reject.
From S2P Require Import Continuous.
From S2P Require Import RejectProps.
From Stdlib Require Import Reals Lra.

#[local] Open Scope R_scope.

#[export] Instance R_trig : Trig R := { fsin := sin; fcos := cos; ftan := tan; M_E := exp 1 }.

(** ** Powers *)

Lemma R_pow_pos x y : 0 < x → R_pow x y = exp (y * ln x).
Proof.
  intros Hx. unfold R_pow. destruct (Req_EM_T y (IZR (Int_part y))) as [Hy|]; [|done].
  rewrite powerRZ_Rpower by done. unfold Rpower. by rewrite <-Hy.
Qed.

Lemma exp_ln_neg u : 0 < u → exp (- (- ln u)) = u.
Proof. intros. rewrite Ropp_involutive. by apply exp_ln. Qed.

Lemma ln_unit_neg u : 0 < u < 1 → ln u < 0.
Proof. intros Hu. rewrite <-ln_1. apply ln_increasing; lra. Qed.

(** ** Inversion

    A distribution as its support and its distribution function; a generator
    draws from it exactly when the distribution function takes its result back
    to the uniform number that it was computed from. *)

Record distribution := { support : R → Prop; cdf : R → R }.

Definition exponential (lambda : R) : distribution :=
  {| support x := 0 < x; cdf x := 1 - exp (- (lambda * x)) |}.
Definition weibull (a b : R) : distribution :=
  {| support x := 0 < x; cdf x := 1 - exp (- Rpower (x / b) a) |}.
Definition extreme_value (a b : R) : distribution :=
  {| support x := True; cdf x := exp (- exp (- ((x - a) / b))) |}.
Definition cauchy (a b : R) : distribution :=
  {| support x := True; cdf x := / 2 + atan ((x - a) / b) / PI |}.

Definition inverts (D : distribution) (u x : R) : Prop := support D x ∧ cdf D x = u.

Lemma exponential_inverts lambda u : 0 < lambda → 0 < u < 1 →
  inverts (exponential lambda) u (- ln (1 - u) / lambda).
Proof.
  intros Hl Hu. pose proof (ln_unit_neg (1 - u)). split; cbn.
  - apply Rdiv_lt_0_compat; lra.
  - replace (lambda * (- ln (1 - u) / lambda)) with (- ln (1 - u)) by (field; lra).
    rewrite exp_ln_neg; lra.
Qed.

Lemma weibull_inverts a b u : 0 < a → 0 < b → 0 < u < 1 →
  inverts (weibull a b) u (exp (1 / a * ln (- ln (1 - u))) * b).
Proof.
  intros Ha Hb Hu. pose proof (ln_unit_neg (1 - u)). split; cbn.
  - apply Rmult_lt_0_compat; [apply exp_pos|lra].
  - unfold Rpower. rewrite Rmult_div_l, ln_exp by lra.
    replace (a * (1 / a * ln (- ln (1 - u)))) with (ln (- ln (1 - u))) by (field; lra).
    rewrite exp_ln, exp_ln_neg; lra.
Qed.

Lemma extreme_value_inverts a b u : 0 < b → 0 < u < 1 →
  inverts (extreme_value a b) u (a - b * ln (- ln u)).
Proof.
  intros Hb Hu. pose proof (ln_unit_neg u). split; cbn; [done|].
  replace (- ((a - b * ln (- ln u) - a) / b)) with (ln (- ln u)) by (field; lra).
  rewrite exp_ln, exp_ln_neg; lra.
Qed.

Lemma cauchy_inverts a b u : 0 < b → 0 < u < 1 →
  inverts (cauchy a b) u (a + b * tan (PI * (u - / 2))).
Proof.
  intros Hb Hu. pose proof PI_RGT_0. split; cbn; [done|].
  replace ((a + b * tan (PI * (u - / 2)) - a) / b) with (tan (PI * (u - / 2))) by (field; lra).
  rewrite atan_tan by nra. field. lra.
Qed.

(** Lane [i] of an expression on packets. *)
Ltac lane_at :=
  rewrite ?pset1_lanes, ?padd_lanes, ?psub_lanes, ?pmul_lanes, ?pdiv_lanes, ?pnegate_lanes,
    ?psqrt_lanes, ?plog_lanes, ?pexp_lanes, ?pcmplt_lanes, ?pcmple_lanes;
  unfold pick, pand_mask;
  repeat first [rewrite lookup_zip_with | rewrite list_lookup_fmap
    | rewrite lookup_replicate_2 by lia | match goal with E : ?l !! ?i = Some _ |- context [?l !! ?i] => rewrite E end
    | progress cbn [mbind option_bind fmap option_fmap option_map]].
Ltac lane_count :=
  rewrite ?pset1_lanes, ?padd_lanes, ?psub_lanes, ?pmul_lanes, ?pdiv_lanes, ?pnegate_lanes,
    ?psqrt_lanes, ?plog_lanes, ?pexp_lanes, ?pcmplt_lanes, ?pcmple_lanes;
  unfold pick, pand_mask;
  repeat first [rewrite length_zip_with | rewrite length_fmap | rewrite length_replicate]; lia.

Section Inversion.
Context {St : Type} `{UniformSource R St} `{PacketMath R} (n : nat) `{!PacketMathLaws n}.

(** A call takes one number from the engine, a packet operation a packet, and
    the results have the distributions. *)
Definition draws (draw : St → outcome (R * St)) (D : distribution) (call : St → outcome (R * St)) :
    Prop :=
  ∀ rng u rng', draw rng = Ret (u, rng') → 0 < u < 1 →
    ∃ x, call rng = Ret (x, rng') ∧ inverts D u x.
Definition draws_packet (draw : St → outcome (list R * St)) (D : nat → distribution)
    (packetOp : St → outcome (list R * St)) : Prop :=
  ∀ rng us rng', draw rng = Ret (us, rng') → length us = n → Forall (λ u, 0 < u < 1) us →
    ∃ xs, packetOp rng = Ret (xs, rng') ∧ length xs = n ∧
      ∀ i u, us !! i = Some u → ∃ x, xs !! i = Some x ∧ inverts (D i) u x.

Lemma param_lane (P : R → Prop) (l : list R) i :
  Forall P l → (i < length l)%nat → ∃ x, l !! i = Some x ∧ nth i l 0 = x ∧ P x.
Proof.
  intros Hl [x Hx]%lookup_lt_is_Some_2. exists x. split; [done|].
  split; [by apply nth_lookup_Some|by eapply Forall_lookup_1].
Qed.

Ltac packet_lanes :=
  intros rng us rng' Hd Hn Hu; unfold ExponentialVGen.packetOp, WeibullVGen.packetOp,
    ExtremeValueVGen.packetOp; rewrite Hd; cbn [mbind outcome_bind]; eexists; split; [reflexivity|];
  split; [lane_count|]; intros i u Hi; pose proof (lookup_lt_Some _ _ _ Hi) as Hlt;
  pose proof (Forall_lookup_1 _ _ _ _ Hu Hi) as Hui; cbv beta in Hui;
  repeat match goal with
    Hp : Forall _ ?l, Hl : length ?l = n |- _ =>
      lazymatch l with us => fail | _ =>
        let x := fresh "x" in let Hx := fresh "Hx" in let Hpx := fresh "Hpx" in
        destruct (param_lane _ l i Hp ltac:(lia)) as (x & Hx & -> & Hpx); clear Hp; cbv beta in Hpx end
    end.

Lemma exponential_lanes lambda : length lambda = n → Forall (λ l, 0 < l) lambda →
  draws_packet ur_packet (λ i, exponential (nth i lambda 0))
    (λ rng, ExponentialVGen.packetOp rng lambda).
Proof.
  intros Hl Hp. packet_lanes. lane_at. eexists. split; [reflexivity|].
  cbn. replace (- (ln (1 - u) / x)) with (- ln (1 - u) / x) by (field; lra).
  by apply exponential_inverts.
Qed.

Lemma weibull_lanes a b : length a = n → length b = n → Forall (λ x, 0 < x) a → Forall (λ x, 0 < x) b →
  draws_packet ur_packet (λ i, weibull (nth i a 0) (nth i b 0)) (λ rng, WeibullVGen.packetOp rng a b).
Proof.
  intros Hla Hlb Hpa Hpb. packet_lanes. lane_at. eexists. split; [reflexivity|].
  cbn. rewrite (Rmult_comm (ln _)). by apply weibull_inverts.
Qed.

Lemma extreme_value_lanes a b : length a = n → length b = n → Forall (λ x, 0 < x) b →
  draws_packet nzur_packet (λ i, extreme_value (nth i a 0) (nth i b 0))
    (λ rng, ExtremeValueVGen.packetOp rng a b).
Proof.
  intros Hla Hlb Hpb. assert (Forall (λ _ : R, True) a) as Hpa by (by apply Forall_true).
  packet_lanes. lane_at. eexists. split; [reflexivity|].
  cbn. rewrite (Rmult_comm (ln _)). by apply extreme_value_inverts.
Qed.

(** One parameter for all lanes. *)
Lemma draws_packet_ext draw D D' op op' :
  draws_packet draw D op → (∀ i, (i < n)%nat → D i = D' i) → (∀ rng, op' rng = op rng) →
  draws_packet draw D' op'.
Proof.
  intros Hop HD Heq rng us rng' Hd Hn Hu. destruct (Hop rng us rng' Hd Hn Hu) as (xs & Hx & Hl & Hi).
  exists xs. rewrite Heq. split_and!; try done. intros i u Hui. rewrite <-HD; [by apply Hi|].
  apply lookup_lt_Some in Hui. lia.
Qed.

Lemma param_replicate (x : R) i : (i < n)%nat → nth i (replicate n x) 0 = x.
Proof. intros Hi. apply nth_lookup_Some. by apply lookup_replicate_2. Qed.

Lemma exponential_packet lambda : 0 < lambda →
  draws_packet ur_packet (λ _, exponential lambda) (ExponentialGen.packetOp lambda).
Proof.
  intros Hl. eapply draws_packet_ext; [apply (exponential_lanes (replicate n lambda))|..].
  - apply length_replicate.
  - by apply Forall_replicate.
  - intros i Hi. cbv beta. by rewrite param_replicate.
  - intros rng. unfold ExponentialGen.packetOp. by rewrite (pset1_lanes lambda).
Qed.

Lemma weibull_packet a b : 0 < a → 0 < b →
  draws_packet ur_packet (λ _, weibull a b) (WeibullGen.packetOp (WeibullGen.mk a b)).
Proof.
  intros Ha Hb. eapply draws_packet_ext; [apply (weibull_lanes (replicate n a) (replicate n b))|..].
  1-2: apply length_replicate.
  1-2: by apply Forall_replicate.
  - intros i Hi. cbv beta. by rewrite !param_replicate.
  - intros rng. unfold WeibullGen.packetOp, WeibullVGen.packetOp. cbn [WeibullGen.a WeibullGen.b].
    rewrite pdiv_lanes, (pset1_lanes b), (pset1_lanes (of_Z 1)), (pset1_lanes (fdiv _ _)).
    by rewrite zip_with_replicate.
Qed.

Lemma extreme_value_packet a b : 0 < b →
  draws_packet nzur_packet (λ _, extreme_value a b) (ExtremeValueGen.packetOp (ExtremeValueGen.mk a b)).
Proof.
  intros Hb. eapply draws_packet_ext; [apply (extreme_value_lanes (replicate n a) (replicate n b))|..].
  1-2: apply length_replicate.
  - by apply Forall_replicate.
  - intros i Hi. cbv beta. by rewrite !param_replicate.
  - intros rng. unfold ExtremeValueGen.packetOp, ExtremeValueVGen.packetOp.
    cbn [ExtremeValueGen.a ExtremeValueGen.b]. by rewrite (pset1_lanes a), (pset1_lanes b).
Qed.

Ltac scalar_inversion :=
  intros rng u rng' Hd Hu; unfold ExponentialGen.call, ExponentialVGen.call, WeibullGen.call,
    WeibullVGen.call, ExtremeValueGen.call, ExtremeValueVGen.call, CauchyGen.call, CauchyVGen.call;
  rewrite Hd; cbn [mbind outcome_bind]; eexists; split; [reflexivity|]; cbn.

Lemma exponential_scalar lambda : 0 < lambda →
  draws ur (exponential lambda) (λ rng, ExponentialVGen.call rng lambda).
Proof. intros Hl. scalar_inversion. by apply exponential_inverts. Qed.

Lemma weibull_scalar a b : 0 < a → 0 < b → draws ur (weibull a b) (λ rng, WeibullVGen.call rng a b).
Proof.
  intros Ha Hb. scalar_inversion. pose proof (ln_unit_neg (1 - u)).
  rewrite R_pow_pos by lra. by apply weibull_inverts.
Qed.

Lemma extreme_value_scalar a b : 0 < b →
  draws nzur (extreme_value a b) (λ rng, ExtremeValueVGen.call rng a b).
Proof. intros Hb. scalar_inversion. by apply extreme_value_inverts. Qed.

Lemma cauchy_scalar a b : 0 < b → draws ur (cauchy a b) (λ rng, CauchyVGen.call rng a b).
Proof. intros Hb. scalar_inversion. by apply cauchy_inverts. Qed.

End Inversion.

(** C30. Over exact arithmetic the exponential, the Weibull, the extreme value and the
    Cauchy generator sample their distributions by inversion: each call takes one
    uniform number [u] from the engine and returns the [x] at which the
    distribution function is [u], and each packet operation of the first three
    takes one packet and does the same in every lane. *)
Theorem inverse_transform {St} `{UniformSource R St} `{PacketMath R} n `{!PacketMathLaws n} lambda a b :
  0 < lambda → 0 < a → 0 < b →
  (draws ur (exponential lambda) (ExponentialGen.call lambda) ∧
   draws_packet n ur_packet (λ _, exponential lambda) (ExponentialGen.packetOp lambda)) ∧
  (draws ur (weibull a b) (WeibullGen.call (WeibullGen.mk a b)) ∧
   draws_packet n ur_packet (λ _, weibull a b) (WeibullGen.packetOp (WeibullGen.mk a b))) ∧
  (∀ l, draws nzur (extreme_value l b) (ExtremeValueGen.call (ExtremeValueGen.mk l b)) ∧
   draws_packet n nzur_packet (λ _, extreme_value l b) (ExtremeValueGen.packetOp (ExtremeValueGen.mk l b))) ∧
  (∀ l, draws ur (cauchy l b) (CauchyGen.call (CauchyGen.mk l b))).
Proof.
  intros Hl Ha Hb. split_and!; [by apply exponential_scalar|by apply exponential_packet|
    by apply weibull_scalar|by apply weibull_packet|intros l; split|intros l].
  - by apply extreme_value_scalar.
  - by apply extreme_value_packet.
  - by apply cauchy_scalar.
Qed.

(** ** The polar method *)

Lemma R_ftruth x : ftruth x = true ↔ x ≠ 0.
Proof.
  unfold ftruth, feq. cbn. destruct (Rle_dec x 0), (Rle_dec 0 x); cbn; split; intros; try done; lra.
Qed.

Lemma radius_square a : 0 <= a → sqrt a * sqrt a = a.
Proof. apply sqrt_sqrt. Qed.

(** The point that ends the loop. *)
Lemma polar_trial_some {St} `{UniformSource R St} (rng rng' : St) v1 v2 sx :
  polar_trial rng = Ret (Some (v1, v2, sx), rng') → 0 < sx < 1 ∧ sx = v1 * v1 + v2 * v2.
Proof.
  unfold polar_trial. destruct (ur rng) as [[u rng1]| | |]; cbn [mbind outcome_bind]; try done.
  destruct (ur rng1) as [[u' rng2]| | |]; cbn [mbind outcome_bind]; try done.
  destruct (ftruth _ && _) eqn:E; [|done]. apply andb_true_iff in E as [E1 E2].
  apply R_ftruth in E1. apply R_fltb_true in E2. intros [= <- <- <- _].
  change (of_Z 2) with 2 in *. change (of_Z 1) with 1 in *. cbn [fadd fmul fsub R_num] in *.
  pose proof (Rle_0_sqr (2 * u - 1)). pose proof (Rle_0_sqr (2 * u' - 1)). unfold Rsqr in *.
  split; [|done]. split; lra.
Qed.

Lemma polar_ok {St} `{UniformSource R St} k fuel (rng rng' : St) v1 v2 sx :
  accepts polar_trial k rng (v1, v2, sx) rng' → (k <= fuel)%nat →
  polar fuel rng = Ret (v1, v2, sx, rng') ∧ 0 < sx < 1 ∧ sx = v1 * v1 + v2 * v2.
Proof.
  intros Ha Hk. split; [by eapply until_accepted_ok|].
  apply accepts_last in Ha as [rng1 Ha]. by eapply polar_trial_some.
Qed.

(** The factor of the polar method: the length of the point becomes that of a
    pair of independent normal numbers, whose squared length is exponential. *)
Lemma polar_factor v1 v2 sx : 0 < sx < 1 → sx = v1 * v1 + v2 * v2 →
  let r := sqrt (-2 * ln sx / sx) in
  0 < r ∧ exp (- ((r * v1) * (r * v1) + (r * v2) * (r * v2)) / 2) = sx.
Proof.
  intros Hs Heq r. pose proof (ln_unit_neg sx Hs).
  assert (0 < -2 * ln sx / sx) as Hpos by (apply Rdiv_lt_0_compat; lra).
  split; [by apply sqrt_lt_R0|].
  replace (- (r * v1 * (r * v1) + r * v2 * (r * v2)) / 2) with (- (r * r * sx) / 2) by (rewrite Heq; field).
  unfold r. rewrite radius_square by lra.
  replace (- (-2 * ln sx / sx * sx) / 2) with (ln sx) by (field; lra). apply exp_ln. lra.
Qed.

(** The factor for Student's distribution with [n] degrees of freedom, whose
    radius has the tail [(1 + r * r / n) ^ (- n / 2)]. *)
Lemma student_factor n s : 0 < n → 0 < s < 1 →
  let r := sqrt (n * (exp (-2 / n * ln s) - 1)) in
  0 < r ∧ Rpower (1 + r * r / n) (- n / 2) = s.
Proof.
  intros Hn Hs r. pose proof (ln_unit_neg s Hs).
  assert (0 < -2 / n * ln s) as Hl.
  { replace (-2 / n * ln s) with (2 * - ln s / n) by (field; lra). apply Rdiv_lt_0_compat; lra. }
  pose proof (exp_ineq1 (-2 / n * ln s) ltac:(lra)).
  assert (0 < n * (exp (-2 / n * ln s) - 1)) as Hpos by (apply Rmult_lt_0_compat; lra).
  split; [by apply sqrt_lt_R0|]. unfold r. rewrite radius_square by lra.
  replace (1 + n * (exp (-2 / n * ln s) - 1) / n) with (exp (-2 / n * ln s)) by (field; lra).
  unfold Rpower. rewrite ln_exp. replace (- n / 2 * (-2 / n * ln s)) with (ln s) by (field; lra).
  apply exp_ln. lra.
Qed.

Section Normal.
Context {F St : Type} `{Num F} `{Libm F} `{Trig F} `{PacketMath F} `{UniformSource F St}.
#[local] Abbreviation gen := (StdNormalGen.t F).

(** The second number of a pair comes from the cache. *)
Lemma normal_cached fuel c x (rng : St) :
  c ≠ [] →
  StdNormalGen.call fuel (StdNormalGen.mk true (<[0%nat := x]> c)) rng =
    Ret (x, StdNormalGen.mk false (<[0%nat := x]> c), rng).
Proof. intros Hc. unfold StdNormalGen.call. by destruct c. Qed.

(** A call that draws keeps the lanes of the cache above the first. *)
Lemma normal_call_cache fuel (g g' : gen) (rng rng' : St) x :
  StdNormalGen.valid g = false → StdNormalGen.call fuel g rng = Ret (x, g', rng') →
  ∃ y, g' = StdNormalGen.mk true (<[0%nat := y]> (StdNormalGen.cache g)).
Proof.
  intros Hv. unfold StdNormalGen.call. rewrite Hv.
  destruct (polar fuel rng) as [[[[v1 v2] sx] rng1]| | |]; cbn [mbind outcome_bind]; try done.
  intros [= _ <- _]. by eexists.
Qed.

Lemma normal_packet_cache (g g' : gen) (rng rng' : St) p :
  StdNormalGen.valid g = false → StdNormalGen.packetOp g rng = Ret (p, g', rng') →
  StdNormalGen.valid g' = true.
Proof.
  intros Hv. unfold StdNormalGen.packetOp. rewrite Hv.
  destruct (ur_packet rng) as [[u1 rng1]| | |]; cbn [mbind outcome_bind]; try done.
  destruct (ur_packet rng1) as [[u2 rng2]| | |]; cbn [mbind outcome_bind]; try done.
  destruct (psincos _) as [s c]. by intros [= _ <- _].
Qed.

End Normal.

Lemma packet_angle n `{PacketMath R} `{!PacketMathLaws n} u :
  (length u <= n)%nat → pmul (pset1 (fmul (of_Z 2) M_PI)) u = (λ u, 2 * PI * u) <$> u.
Proof. intros Hu. rewrite pset1_lanes, pmul_lanes. by rewrite zip_with_replicate_l. Qed.

(** A call that finds nothing in the cache. *)
Lemma normal_fresh {St} `{UniformSource R St} `{PacketMath R} k fuel (g : StdNormalGen.t R) (rng rng' : St) v1 v2 sx :
  StdNormalGen.valid g = false → accepts polar_trial k rng (v1, v2, sx) rng' → (k <= fuel)%nat →
  let r := sqrt (-2 * ln sx / sx) in
  StdNormalGen.call fuel g rng = Ret (r * v1, StdNormalGen.mk true (<[0%nat:=r * v2]> (StdNormalGen.cache g)), rng').
Proof.
  intros Hv Ha Hk r. destruct (polar_ok k fuel rng rng' v1 v2 sx Ha Hk) as [Hp _].
  unfold StdNormalGen.call. by rewrite Hv, Hp.
Qed.

(** C34. [StdNormalGen] gives normal numbers in pairs.  A call that does not find a
    number in the cache draws points until one, [(v1, v2)], lies in the unit disc
    and is not its centre, and returns [r * v1]; the next call returns [r * v2]
    without the engine.  The factor [r] is positive, so that the direction of
    the point is kept, and the squared length of the pair is the exponential
    quantile of that of the point, as the polar method asks. *)
Theorem normal_pairs {St} `{UniformSource R St} `{PacketMath R} k fuel (g : StdNormalGen.t R)
    (rng rng' : St) v1 v2 sx :
  StdNormalGen.valid g = false → StdNormalGen.cache g ≠ [] →
  accepts polar_trial k rng (v1, v2, sx) rng' → (k <= fuel)%nat →
  0 < v1 * v1 + v2 * v2 < 1 ∧
  ∃ r g1 g2, 0 < r ∧
    StdNormalGen.call fuel g rng = Ret (r * v1, g1, rng') ∧
    (∀ fuel' rng2, StdNormalGen.call fuel' g1 rng2 = Ret (r * v2, g2, rng2)) ∧
    StdNormalGen.valid g2 = false ∧ StdNormalGen.cache g2 ≠ [] ∧
    exp (- ((r * v1) * (r * v1) + (r * v2) * (r * v2)) / 2) = v1 * v1 + v2 * v2.
Proof.
  intros Hv Hc Ha Hk. destruct (polar_ok k fuel rng rng' v1 v2 sx Ha Hk) as (Hp & Hs & Heq).
  destruct (polar_factor v1 v2 sx Hs Heq) as [Hr He]. split; [by rewrite <-Heq|].
  exists (sqrt (-2 * ln sx / sx)). do 2 eexists. split; [done|]. split_and!.
  - by apply (normal_fresh k).
  - intros fuel' rng2. by apply normal_cached.
  - done.
  - cbn. by destruct (StdNormalGen.cache g).
  - by rewrite <-Heq.
Qed.

(** The packet operation gives packets in pairs, by the trigonometric form of the
    method: from the lanes [u1] and [u2] of two packets of the engine the first
    packet has [r * s] and the second [r * c] in that lane, where [s] and [c] are
    what [psincos] gives for the angle [2 pi u2].  As far as these are a sine and
    a cosine, the squared length of the pair is the exponential quantile of [u1]. *)
Theorem normal_packet_pairs {St} `{UniformSource R St} `{PacketMath R} n `{!PacketMathLaws n}
    (g : StdNormalGen.t R) (rng rng1 rng2 : St) u1 u2 :
  StdNormalGen.valid g = false →
  ur_packet rng = Ret (u1, rng1) → ur_packet rng1 = Ret (u2, rng2) →
  length u1 = n → length u2 = n → Forall (λ u, 0 < u < 1) u1 →
  ∃ xs ys g1 g2,
    StdNormalGen.packetOp g rng = Ret (xs, g1, rng2) ∧
    (∀ rng3, StdNormalGen.packetOp g1 rng3 = Ret (ys, g2, rng3)) ∧
    StdNormalGen.valid g2 = false ∧
    ∀ i a s c, u1 !! i = Some a →
      (psincos ((λ u, 2 * PI * u) <$> u2)).1 !! i = Some s →
      (psincos ((λ u, 2 * PI * u) <$> u2)).2 !! i = Some c →
      ∃ r, 0 < r ∧ xs !! i = Some (r * s) ∧ ys !! i = Some (r * c) ∧
        (s * s + c * c = 1 → exp (- ((r * s) * (r * s) + (r * c) * (r * c)) / 2) = 1 - a).
Proof.
  intros Hv H1 H2 Hl1 Hl2 Hu. unfold StdNormalGen.packetOp at 1. rewrite Hv, H1. cbn [mbind outcome_bind].
  rewrite H2. cbn [mbind outcome_bind].
  rewrite (packet_angle n) by lia.
  destruct (psincos _) as [ss cs] eqn:E. do 4 eexists. split; [reflexivity|].
  split; [reflexivity|]. split; [done|]. cbn [fst snd StdNormalGen.cache]. intros i a s c Ha Hs Hc.
  pose proof (Forall_lookup_1 _ _ _ _ Hu Ha) as Hua. cbv beta in Hua.
  pose proof (lookup_lt_Some _ _ _ Ha) as Hlt. pose proof (ln_unit_neg (1 - a) ltac:(lra)).
  exists (sqrt (-2 * ln (1 - a))). split; [apply sqrt_lt_R0; lra|].
  split; [lane_at; done|]. split; [lane_at; done|]. intros Hsc.
  set (r := sqrt _). replace (- (r * s * (r * s) + r * c * (r * c)) / 2) with (- (r * r * (s * s + c * c)) / 2) by field.
  rewrite Hsc. unfold r. rewrite radius_square by lra.
  replace (- (-2 * ln (1 - a) * 1) / 2) with (ln (1 - a)) by field. apply exp_ln. lra.
Qed.

(** A scalar call writes only the first lane of the cache that it shares with the
    packet operation.  After two packets and a call, the next packet operation
    takes nothing from the engine and repeats the second packet in all lanes but
    the first. *)
Theorem normal_mixing {F St} `{Num F} `{Libm F} `{Trig F} `{PacketMath F} `{UniformSource F St} fuel
    (g g1 g2 g3 : StdNormalGen.t F) (rng rng1 rng2 rng3 rng4 : St) p1 p2 x :
  StdNormalGen.valid g = false →
  StdNormalGen.packetOp g rng = Ret (p1, g1, rng1) →
  StdNormalGen.packetOp g1 rng1 = Ret (p2, g2, rng2) →
  StdNormalGen.call fuel g2 rng2 = Ret (x, g3, rng3) →
  ∃ p3 g4, StdNormalGen.packetOp g3 rng4 = Ret (p3, g4, rng4) ∧ rng2 = rng1 ∧
    ∀ i, (0 < i)%nat → p3 !! i = p2 !! i.
Proof.
  intros Hv Hp1 Hp2 Hx. apply normal_packet_cache in Hp1; [|done].
  unfold StdNormalGen.packetOp in Hp2. rewrite Hp1 in Hp2. injection Hp2 as <- <- <-.
  apply normal_call_cache in Hx as [y ->]; [|done]. do 2 eexists. split; [reflexivity|].
  split; [done|]. intros i Hi. cbn. rewrite list_lookup_insert_ne by lia. done.
Qed.

(** [StudentTGen] by the polar method: the number is [r * v1 / sqrt sx] for the point
    [(v1, v2)], the cosine of whose angle is [v1 / sqrt sx], and in a packet
    [r * s] where [s] is what [psin] gives for the angle; the radius [r] is the
    quantile of [sx], or of [1 - u1], for the tail [(1 + r * r / n) ^ (- n / 2)]
    of the distribution with [n] degrees of freedom. *)
Theorem student_polar {St} `{UniformSource R St} `{PacketMath R} m `{!PacketMathLaws m} (n : R) :
  0 < n →
  (∀ k fuel (rng rng' : St) v1 v2 sx,
     accepts polar_trial k rng (v1, v2, sx) rng' → (k <= fuel)%nat →
     ∃ r, 0 < r ∧ StudentTGen.call fuel n rng = Ret (r * (v1 / sqrt (v1 * v1 + v2 * v2)), rng') ∧
       Rpower (1 + r * r / n) (- n / 2) = v1 * v1 + v2 * v2) ∧
  (∀ (rng rng1 rng2 : St) u1 u2,
     ur_packet rng = Ret (u1, rng1) → ur_packet rng1 = Ret (u2, rng2) →
     length u1 = m → length u2 = m → Forall (λ u, 0 < u < 1) u1 →
     ∃ xs, StudentTGen.packetOp n rng = Ret (xs, rng2) ∧
       ∀ i a s, u1 !! i = Some a → psin ((λ u, 2 * PI * u) <$> u2) !! i = Some s →
         ∃ r, 0 < r ∧ xs !! i = Some (r * s) ∧ Rpower (1 + r * r / n) (- n / 2) = 1 - a).
Proof.
  intros Hn. split.
  - intros k fuel rng rng' v1 v2 sx Ha Hk. destruct (polar_ok _ _ _ _ _ _ _ Ha Hk) as (Hp & Hs & Heq).
    destruct (student_factor n sx Hn Hs) as [Hr Ht]. rewrite <-Heq.
    eexists. split; [exact Hr|]. split; [|exact Ht].
    unfold StudentTGen.call. rewrite Hp. cbn [mbind outcome_bind]. do 2 f_equal. cbn.
    rewrite R_pow_pos by lra. rewrite sqrt_div_alt by lra. pose proof (sqrt_lt_R0 sx). field. lra.
  - intros rng rng1 rng2 u1 u2 H1 H2 Hl1 Hl2 Hu. unfold StudentTGen.packetOp. rewrite H1.
    cbn [mbind outcome_bind]. rewrite H2. cbn [mbind outcome_bind].
    rewrite (packet_angle m) by lia. eexists. split; [reflexivity|]. intros i a s Ha Hs.
    pose proof (Forall_lookup_1 _ _ _ _ Hu Ha) as Hua. cbv beta in Hua.
    pose proof (lookup_lt_Some _ _ _ Ha) as Hlt.
    destruct (student_factor n (1 - a) Hn ltac:(lra)) as [Hr Ht].
    eexists. split; [exact Hr|]. split; [|exact Ht]. lane_at. do 2 f_equal. cbn.
    by rewrite (Rmult_comm (ln _)).
Qed.

(** ** Witnesses

    An engine given by the numbers to come, and packets of two lanes. *)

#[local] Instance two_tape : UniformSource R (list R) := tape 2.
#[local] Instance two_lanes : PacketMath R := lane_packets 2.
#[local] Instance two_lanes_laws : PacketMathLaws 2 := lane_packets_laws 2.

Lemma inverse_transform_witness :
  (∃ x, ExponentialGen.call 2 [/ 4] = Ret (x, []) ∧ inverts (exponential 2) (/ 4) x) ∧
  (∃ xs, WeibullGen.packetOp (WeibullGen.mk 1 3) [/ 4; / 2] = Ret (xs, []) ∧
     ∃ x, xs !! 1%nat = Some x ∧ inverts (weibull 1 3) (/ 2) x).
Proof.
  destruct (inverse_transform (St := list R) 2 2 1 3 ltac:(lra) ltac:(lra) ltac:(lra))
    as ([He _] & [_ Hw] & _). split.
  - apply (He [/ 4] (/ 4) []); [done|lra].
  - destruct (Hw [/ 4; / 2] [/ 4; / 2] []) as (xs & Hx & _ & Hl);
      [done|done|repeat constructor; lra|].
    exists xs. split; [exact Hx|]. by apply Hl.
Defined.

(** The point [(1/2, 0)] is the first that is drawn. *)
Lemma polar_half : accepts polar_trial 1 [3 / 4; / 2] (2 * (3 / 4) - 1, 2 * / 2 - 1, / 4) [].
Proof.
  constructor. unfold polar_trial. cbn [ur two_tape tape mbind outcome_bind].
  change (of_Z 2) with 2. change (of_Z 1) with 1. cbn [fmul fsub fadd R_num].
  replace ((2 * (3 / 4) - 1) * (2 * (3 / 4) - 1) + (2 * / 2 - 1) * (2 * / 2 - 1)) with (/ 4) by field.
  rewrite (proj2 (R_ftruth (/ 4))) by lra. by rewrite (proj2 (R_fltb_true (/ 4) 1)) by lra.
Qed.

Definition fresh : StdNormalGen.t R := StdNormalGen.create 2.

Lemma normal_pairs_witness : ∃ r g1, 0 < r ∧
  StdNormalGen.call 1 fresh [3 / 4; / 2] = Ret (r * (2 * (3 / 4) - 1), g1, []).
Proof.
  destruct (normal_pairs 1 1 fresh [3 / 4; / 2] [] (2 * (3 / 4) - 1) (2 * / 2 - 1) (/ 4))
    as (_ & r & g1 & _ & Hr & Hc & _); [done|done|apply polar_half|lia|]. by exists r, g1.
Defined.

Lemma normal_packet_pairs_witness : ∃ xs g1,
  StdNormalGen.packetOp fresh [/ 2; / 2; / 4; / 4] = Ret (xs, g1, []) ∧
  ∃ r, 0 < r ∧ xs !! 0%nat = Some (r * sin (2 * PI * / 4)).
Proof.
  destruct (normal_packet_pairs 2 fresh [/ 2; / 2; / 4; / 4] [/ 4; / 4] [] [/ 2; / 2] [/ 4; / 4])
    as (xs & ys & g1 & g2 & Hp & _ & _ & Hl); [done|done|done|done|done|repeat constructor; lra|].
  exists xs, g1. split; [exact Hp|].
  destruct (Hl 0%nat (/ 2) (sin (2 * PI * / 4)) (cos (2 * PI * / 4))) as (r & Hr & Hx & _); [done..|].
  by exists r.
Defined.

Lemma normal_mixing_witness : ∃ g3 x p2,
  StdNormalGen.call 1 (StdNormalGen.mk false p2) [3 / 4; / 2] = Ret (x, g3, []) ∧ length p2 = 2%nat ∧
  ∃ p3 g4, StdNormalGen.packetOp g3 ([] : list R) = Ret (p3, g4, []) ∧ p3 !! 1%nat = p2 !! 1%nat.
Proof.
  set (p2 := pmul (psqrt (pmul (pset1 (of_Z (-2))) (plog (psub (pset1 (of_Z 1)) [/ 2; / 2]))))
    (psincos (pmul (pset1 (fmul (of_Z 2) M_PI)) [/ 4; / 4])).2).
  pose proof (normal_fresh 1 1 (StdNormalGen.mk false p2) [3 / 4; / 2] [] _ _ _ eq_refl polar_half (le_n 1)) as Hc.
  cbv zeta in Hc. set (r := sqrt _) in Hc. set (g3 := StdNormalGen.mk true _) in Hc.
  exists g3, (r * (2 * (3 / 4) - 1)), p2. split; [exact Hc|]. split; [done|].
  assert (∃ p1, StdNormalGen.packetOp fresh [/ 2; / 2; / 4; / 4; 3 / 4; / 2] =
    Ret (p1, StdNormalGen.mk true p2, [3 / 4; / 2])) as [p1 Hp1] by (eexists; reflexivity).
  destruct (normal_mixing 1 fresh (StdNormalGen.mk true p2) (StdNormalGen.mk false p2) g3
    [/ 2; / 2; / 4; / 4; 3 / 4; / 2] [3 / 4; / 2] [3 / 4; / 2] [] [] p1 p2 (r * (2 * (3 / 4) - 1))
    eq_refl Hp1 eq_refl Hc) as (p3 & g4 & Hp & _ & Hl).
  exists p3, g4. split; [exact Hp|]. apply Hl. lia.
Defined.

Lemma student_polar_witness : ∃ r, 0 < r ∧
  StudentTGen.call 1 3 [3 / 4; / 2] =
    Ret (r * ((2 * (3 / 4) - 1) / sqrt ((2 * (3 / 4) - 1) * (2 * (3 / 4) - 1) + (2 * / 2 - 1) * (2 * / 2 - 1))), []).
Proof.
  destruct (student_polar (St := list R) 2 3 ltac:(lra)) as [Hs _].
  destruct (Hs 1%nat 1%nat [3 / 4; / 2] [] (2 * (3 / 4) - 1) (2 * / 2 - 1) (/ 4) polar_half ltac:(lia))
    as (r & Hr & Hc & _). by exists r.
Defined.
