(* ===== verification/GammaProps.v ===== *)
(** The gamma, chi-squared, beta and F distributions: over exact arithmetic the
    rejection methods of [GammaGen] have exactly the gamma density, small
    integer shapes are sums of exponentials, the packet operation hands out the
    accepted candidates in order, and [FisherFGen] is a ratio of two gammas. *)

From S2P Require Import Prelude.
From S2P Require Import Num.
From S2P Require Import NumR.
From S2P Require Import Reject.
From S2P Require Import Continuous.
From S2P Require Import GammaBeta.
From S2P Require Import RejectProps.
From S2P Require Import ContinuousProps.
From Stdlib Require Import Reals Lra.

#[local] Open Scope R_scope.

(** The gamma density with shape [alpha], up to its constant. *)
Definition gamma_weight (alpha x : R) : R := Rpower x (alpha - 1) * exp (- x).

(** ** Derivatives *)

Lemma derive_ln f x l : derivable_pt_lim f x l → 0 < f x → derivable_pt_lim (λ y, ln (f y)) x (l / f x).
Proof.
  intros Hf Hx. unfold Rdiv. rewrite Rmult_comm.
  apply (derivable_pt_lim_comp f ln); [done|]. by apply derivable_pt_lim_ln.
Qed.

Lemma derive_affine a b x : derivable_pt_lim (λ y, a * y + b) x a.
Proof.
  enough (derivable_pt_lim (λ y, a * y + b) x (a * 1 + 0)) as Hx by (by rewrite Rmult_1_r, Rplus_0_r in Hx).
  apply (derivable_pt_lim_plus (λ y, a * y) (λ _, b)).
  - apply (derivable_pt_lim_scal id). apply derivable_pt_lim_id.
  - apply derivable_pt_lim_const.
Qed.

Lemma derive_square x : derivable_pt_lim (λ y, 1 + y * y) x (2 * x).
Proof.
  replace (2 * x) with (0 + (1 * x + x * 1)) by ring.
  apply (derivable_pt_lim_plus (λ _, 1) (λ y, y * y)).
  - apply derivable_pt_lim_const.
  - apply (derivable_pt_lim_mult id id); apply derivable_pt_lim_id.
Qed.

(** A function with derivative of the sign of [- x] is largest at 0. *)
Lemma largest_at_zero (f f' : R → R) lo y :
  (∀ x, lo < x → derivable_pt_lim f x (f' x)) → (∀ x, lo < x → x * f' x <= 0) → lo < 0 → lo < y →
  f y <= f 0.
Proof.
  intros Hd Hs Hlo Hy. destruct (Rtotal_order y 0) as [Hneg|[->|Hpos]]; [|lra|].
  - destruct (MVT_cor2 f f' y 0 Hneg) as (c & Hc & Hr); [intros; apply Hd; lra|].
    specialize (Hs c ltac:(lra)). assert (0 <= f' c); nra.
  - destruct (MVT_cor2 f f' 0 y Hpos) as (c & Hc & Hr); [intros; apply Hd; lra|].
    specialize (Hs c ltac:(lra)). assert (f' c <= 0); nra.
Qed.

(** ** The bound for large shapes *)

Section Large.
Context (alpha : R) (Halpha : 1 < alpha).
#[local] Abbreviation am := (alpha - 1).
#[local] Abbreviation s := (sqrt (2 * alpha - 1)).

Lemma s_square : s * s = 2 * am + 1.
Proof. rewrite sqrt_sqrt; lra. Qed.

Lemma s_pos : 0 < s.
Proof. apply sqrt_lt_R0. lra. Qed.

Definition log_bound (y : R) : R := ln (1 + y * y) + (am * ln ((s * y + am) / am) + (- s * y + 0)).
Definition log_bound' (y : R) : R := 2 * y / (1 + y * y) + (am * (s / am / ((s * y + am) / am)) + - s).

Lemma log_bound_derive y : 0 < s * y + am → derivable_pt_lim log_bound y (log_bound' y).
Proof.
  intros Hy. unfold log_bound, log_bound'.
  apply (derivable_pt_lim_plus (λ y, ln (1 + y * y)) (λ y, am * ln ((s * y + am) / am) + (- s * y + 0))).
  - apply (derive_ln (λ y, 1 + y * y)); [apply derive_square|nra].
  - apply (derivable_pt_lim_plus (λ y, am * ln ((s * y + am) / am)) (λ y, - s * y + 0)); [|apply derive_affine].
    apply (derivable_pt_lim_scal (λ y, ln ((s * y + am) / am))).
    apply (derive_ln (λ y, (s * y + am) / am)); [|apply Rdiv_lt_0_compat; lra].
    apply (derivable_pt_lim_ext (λ y, s / am * y + 1)); [intros z; field; lra|apply derive_affine].
Qed.

Lemma log_bound_sign y : 0 < s * y + am → y * log_bound' y <= 0.
Proof.
  intros Hy. pose proof s_square as Hs. unfold log_bound'.
  assert (0 < (1 + y * y) * (s * y + am)) as Hd by (apply Rmult_lt_0_compat; nra).
  replace (y * _) with (- (y * y * ((s * y - 1) * (s * y - 1))) * / ((1 + y * y) * (s * y + am))).
  - pose proof (Rinv_0_lt_compat _ Hd). pose proof (Rle_0_sqr y). pose proof (Rle_0_sqr (s * y - 1)).
    unfold Rsqr in *. assert (0 <= y * y * ((s * y - 1) * (s * y - 1))) by (by apply Rmult_le_pos). nra.
  - field_simplify_eq; [|split_and!; nra].
    replace (s ^ 2) with (2 * am + 1) by (rewrite <-Hs; ring). ring.
Qed.

Lemma log_bound_nonpos y : 0 < s * y + am → log_bound y <= 0.
Proof.
  intros Hy. pose proof s_pos as Hs.
  assert (log_bound 0 = 0) as <-.
  { unfold log_bound. rewrite !Rmult_0_r, Rplus_0_l, Rplus_0_l, Rdiv_diag, Rplus_0_r, ln_1 by lra. ring. }
  apply (largest_at_zero log_bound log_bound' (- am / s)).
  - intros x Hx. apply log_bound_derive. apply Rmult_lt_compat_l with (r := s) in Hx; [|done].
    replace (s * (- am / s)) with (- am) in Hx by (field; lra). lra.
  - intros x Hx. apply log_bound_sign. apply Rmult_lt_compat_l with (r := s) in Hx; [|done].
    replace (s * (- am / s)) with (- am) in Hx by (field; lra). lra.
  - unfold Rdiv. pose proof (Rinv_0_lt_compat _ Hs). nra.
  - apply Rmult_lt_reg_l with s; [done|]. replace (s * (- am / s)) with (- am) by (field; lra). lra.
Qed.

(** The bound of the code, with the candidate [x]: never above 1, and a constant
    times the gamma density at the candidate, over the density of the proposal. *)
Lemma large_bound_exact y (x := s * y + am) : 0 < x →
  let bound := (1 + y * y) * exp (am * ln (x / am) - s * y) in
  0 < bound <= 1 ∧
  bound * / (1 + y * y) = exp am / Rpower am am * gamma_weight alpha x.
Proof.
  intros Hx bound. assert (0 < 1 + y * y) as Hy by nra. split; [split|].
  - apply Rmult_lt_0_compat; [done|apply exp_pos].
  - assert (bound = exp (log_bound y)) as ->.
    { unfold log_bound. rewrite exp_plus, exp_ln by done. unfold bound, x. do 2 f_equal. ring. }
    rewrite <-exp_0. destruct (log_bound_nonpos y Hx) as [Hlt| ->]; [|lra].
    left. by apply exp_increasing.
  - unfold bound, gamma_weight. replace ((1 + y * y) * _ * _) with (exp (am * ln (x / am) - s * y)) by (field; lra).
    unfold Rpower, Rdiv. rewrite (ln_mult x), ln_Rinv by (lra || apply Rinv_0_lt_compat; lra).
    rewrite <-exp_Ropp, <-!exp_plus. f_equal. unfold x. ring.
Qed.

End Large.

(** ** Shapes below 1 *)

(** The two parts of the proposal: a power law below 1 and an exponential tail
    above it, by inversion. *)
Lemma power_candidate alpha v (x := exp (1 / alpha * ln v)) :
  0 < alpha < 1 → 0 < v < 1 → 0 < x < 1 ∧ Rpower x alpha = v.
Proof.
  intros Ha Hv. pose proof (ln_unit_neg v Hv). split; [split|].
  - apply exp_pos.
  - rewrite <-exp_0. apply exp_increasing. assert (0 < 1 / alpha) by (apply Rdiv_lt_0_compat; lra). nra.
  - unfold x, Rpower. rewrite ln_exp. replace (alpha * (1 / alpha * ln v)) with (ln v) by (field; lra).
    apply exp_ln. lra.
Qed.

Lemma tail_candidate v (x := 1 - ln v) : 0 < v < 1 → 1 < x ∧ exp (1 - x) = v.
Proof.
  intros Hv. pose proof (ln_unit_neg v Hv). split; [unfold x; lra|].
  unfold x. replace (1 - (1 - ln v)) with (ln v) by ring. apply exp_ln. lra.
Qed.

Lemma proposal_probability alpha : 0 < alpha → 0 < exp 1 / (alpha + exp 1) < 1.
Proof.
  intros Ha. pose proof (exp_pos 1). split; [apply Rdiv_lt_0_compat; lra|].
  apply Rmult_lt_reg_r with (alpha + exp 1); [lra|].
  unfold Rdiv. rewrite Rmult_assoc, Rinv_l by lra. lra.
Qed.

(** Proposal density times bound, for each part. *)
Lemma power_weight alpha x : 0 < alpha →
  exp 1 / (alpha + exp 1) * (alpha * Rpower x (alpha - 1)) * exp (- x) =
  exp 1 * alpha / (alpha + exp 1) * gamma_weight alpha x.
Proof. intros Ha. pose proof (exp_pos 1). unfold gamma_weight. field. lra. Qed.

Lemma tail_weight alpha x : 0 < alpha →
  (1 - exp 1 / (alpha + exp 1)) * exp (1 - x) * Rpower x (alpha - 1) =
  exp 1 * alpha / (alpha + exp 1) * gamma_weight alpha x.
Proof.
  intros Ha. pose proof (exp_pos 1). unfold gamma_weight, Rminus at 2. rewrite exp_plus. field. lra.
Qed.

Lemma exp_neg_lt_1 x : x < 0 → 0 < exp x < 1.
Proof. intros Hx. split; [apply exp_pos|]. rewrite <-exp_0. by apply exp_increasing. Qed.

(** The bound of a trial is a probability. *)
Lemma small_bound lanes alpha beta u v : 0 < alpha < 1 → 0 < v < 1 →
  0 < (GammaGen.small_candidate (GammaGen.create lanes alpha beta) u v).2 < 1.
Proof.
  intros Ha Hv. destruct (power_candidate alpha v Ha Hv) as [Hx _].
  destruct (tail_candidate v Hv) as [Hy _]. unfold GammaGen.small_candidate.
  destruct (fltb u _); cbn.
  - rewrite R_pow_pos by lra. apply exp_neg_lt_1. lra.
  - rewrite R_pow_pos by lra. apply exp_neg_lt_1.
    assert (0 < ln (1 - ln v)) by (rewrite <-ln_1; apply ln_increasing; lra). nra.
Qed.

(** For a shape below 1 a trial of [GammaGen] proposes, with the two uniform
    numbers [u] and [v], a candidate [x] and a bound [q]: with the probability [px]
    that [u] selects, a candidate below 1 by inversion of the power law [x ^ alpha],
    and otherwise one above 1 by inversion of the tail [exp (1 - x)].  The bound
    is a probability, and in both cases the density of the proposal times the
    bound is the same constant times the gamma density, so that accepted
    candidates have exactly the gamma distribution. *)
Theorem gamma_small_exact lanes alpha beta u v :
  0 < alpha < 1 → 0 < v < 1 →
  let g := GammaGen.create lanes alpha beta in
  let '(x, q) := GammaGen.small_candidate g u v in
  let C := exp 1 * alpha / (alpha + exp 1) in
  0 < GammaGen.px g < 1 ∧ 0 < q < 1 ∧
  (u < GammaGen.px g → 0 < x < 1 ∧ Rpower x alpha = v ∧
    GammaGen.px g * (alpha * Rpower x (alpha - 1)) * q = C * gamma_weight alpha x) ∧
  (GammaGen.px g <= u → 1 < x ∧ exp (1 - x) = v ∧
    (1 - GammaGen.px g) * exp (1 - x) * q = C * gamma_weight alpha x).
Proof.
  intros Ha Hv. unfold GammaGen.small_candidate. cbn [GammaGen.create GammaGen.px GammaGen.alpha].
  change (M_E / (alpha + M_E))%num with (exp 1 / (alpha + exp 1)).
  change (of_Z 1 / alpha)%num with (1 / alpha). change (alpha - of_Z 1)%num with (alpha - 1).
  change (of_Z 1 - flog v)%num with (1 - ln v).
  destruct (power_candidate alpha v Ha Hv) as [Hx Hxa]. destruct (tail_candidate v Hv) as [Hy Hyv].
  pose proof (proposal_probability alpha ltac:(lra)) as Hp. cbn [fpow R_libm].
  rewrite (R_pow_pos v) by lra. rewrite (R_pow_pos (1 - ln v)) by lra.
  destruct (fltb u _) eqn:E.
  - apply R_fltb_true in E. cbn [fexp fneg R_num R_libm].
    split; [done|]. split; [apply exp_neg_lt_1; lra|]. split; [|lra].
    intros _. split_and!; try done; try lra. apply power_weight. lra.
  - apply R_fltb_false in E. split; [done|].
    assert (0 < ln (1 - ln v)) by (rewrite <-ln_1; apply ln_increasing; lra).
    split; [apply exp_neg_lt_1; nra|]. split; [lra|].
    intros _. split_and!; try done. apply tail_weight. lra.
Qed.

(** C31. For a shape above 1 a trial of [GammaGen] proposes [x = sqrt * y + alpha - 1]
    for a Cauchy number [y = tan (pi u)], whose density is [1 / (1 + y * y)] up
    to a constant.  For every positive [x] the bound of the code is a
    probability, which needs the inequality of the logarithms that the method
    rests on, and the bound times the density of the proposal is a constant times
    the gamma density: the dominating density is valid and accepted candidates
    have exactly the gamma distribution. *)
Theorem gamma_large_exact lanes alpha beta y :
  1 < alpha →
  let g := GammaGen.create lanes alpha beta in
  let x := GammaGen.large_candidate g y in
  0 < x →
  0 < GammaGen.large_bound g y x <= 1 ∧
  GammaGen.large_bound g y x * / (1 + y * y) =
    exp (alpha - 1) / Rpower (alpha - 1) (alpha - 1) * gamma_weight alpha x.
Proof.
  intros Ha g x Hx.
  assert (x = sqrt (2 * alpha - 1) * y + (alpha - 1)) as Heq by (unfold x; cbn; ring).
  rewrite Heq in *. exact (large_bound_exact alpha Ha y Hx).
Qed.

(** ** The packet operation *)

(** A trial for a shape below 1 as a function of its three numbers: what it
    returns, and whether it is accepted. *)
Definition small_lane {F} `{Num F} `{Libm F} (g : GammaGen.t F) (u v w : F) : F * bool :=
  let '(x, q) := GammaGen.small_candidate g u v in (fmul (GammaGen.beta g) x, fltb w q).

Lemma small_trial_lane {F St} `{Num F} `{Libm F} `{UniformSource F St} (g : GammaGen.t F) (rng : St) :
  GammaGen.small_trial g rng =
    '(u, rng) ← ur rng; '(v, rng) ← nzur rng; '(w, rng) ← ur rng;
    Ret (let '(x, b) := small_lane g u v w in if b then Some x else None, rng).
Proof.
  unfold GammaGen.small_trial, small_lane. destruct (ur rng) as [[u rng1]| | |]; cbn [mbind outcome_bind]; try done.
  destruct (nzur rng1) as [[v rng2]| | |]; cbn [mbind outcome_bind]; try done.
  by destruct (GammaGen.small_candidate g u v).
Qed.

(** The three packets of a trial of packets, and its lanes. *)
Definition draw_small {F St} `{UniformSource F St} (rng : St) : outcome (list F * list F * list F * St) :=
  '(us, rng) ← ur_packet rng; '(vs, rng) ← nzur_packet rng; '(ws, rng) ← ur_packet rng;
  Ret (us, vs, ws, rng).

Definition small_lanes {F} `{Num F} `{Libm F} (g : GammaGen.t F) (d : list F * list F * list F) :
    list F * list bool :=
  let '(us, vs, ws) := d in
  let l := zip_with (λ uv w, small_lane g uv.1 uv.2 w) (zip us vs) ws in (l.*1, l.*2).

(** The next draw of an equation on the engine, in the equation and the goal. *)
Ltac draw_step Hd x rng :=
  match type of Hd with context [mbind _ ?d] =>
    destruct d as [[x rng]| | |]; cbn [mbind outcome_bind] in *; try done
  end.

Section Packets.
Context {St : Type} `{UniformSource R St} `{PacketMath R} (n : nat) `{!PacketMathLaws n}.

Definition small_good (d : list R * list R * list R) : Prop :=
  length d.1.1 = n ∧ length d.1.2 = n ∧ length d.2 = n ∧ Forall (λ v, 0 < v < 1) d.1.2.

(** Packets are equal when they are so in every lane. *)
Lemma packet_eq {A} (l k : list A) : length l = n → length k = n →
  (∀ i, (i < n)%nat → l !! i = k !! i) → l = k.
Proof.
  intros Hl Hk Hi. apply list_eq. intros i. destruct (decide (i < n)%nat); [by apply Hi|].
  rewrite !lookup_ge_None_2; [done|lia..].
Qed.

Lemma small_packet_lanes lanes alpha beta rng d rng' : 0 < alpha < 1 →
  let g := GammaGen.create lanes alpha beta in
  draw_small rng = Ret (d, rng') → small_good d →
  GammaGen.small_packet g rng = Ret (small_lanes g d, rng') ∧ has_lanes n (small_lanes g d) ∧
  Forall (λ _, True) (small_lanes g d).1.
Proof.
  intros Ha g Hd (Hl1 & Hl2 & Hl3 & Hv). destruct d as [[us vs] ws]. cbn [fst snd] in *.
  unfold draw_small in Hd. unfold GammaGen.small_packet.
  draw_step Hd us1 rng1. draw_step Hd vs1 rng2. draw_step Hd ws1 rng3.
  injection Hd as -> -> -> ->. split_and!; [|split; cbn; rewrite !length_fmap, !length_zip_with; lia|by apply Forall_true].
  do 2 f_equal. unfold small_lanes. f_equal; (apply packet_eq; [lane_count..|]); intros i Hi.
  all: destruct (lookup_lt_is_Some_2 us i) as [u Hu]; [lia|].
  all: destruct (lookup_lt_is_Some_2 vs i) as [v Hv']; [lia|].
  all: destruct (lookup_lt_is_Some_2 ws i) as [w Hw]; [lia|].
  all: pose proof (Forall_lookup_1 _ _ _ _ Hv Hv') as Hv1; cbv beta in Hv1; pose proof (ln_unit_neg v Hv1).
  all: lane_at; unfold small_lane, GammaGen.small_candidate; cbn [fpow fexp flog fneg fmul fsub fdiv R_num R_libm];
    change (of_Z 1) with 1; rewrite !(R_pow_pos v), !(R_pow_pos (1 - ln v)) by lra;
    rewrite ?(Rmult_comm (ln (1 - ln v))); cbn [fst snd]; by destruct (fltb u _).
Qed.

(** A trial for a large shape: its two numbers, and its lanes where the sine and
    the cosine of a packet are exact. *)
Definition large_lane (g : GammaGen.t R) (u w : R) : R * bool :=
  let y := ftan (fmul M_PI u) in
  let x := GammaGen.large_candidate g y in
  (fmul (GammaGen.beta g) x, fltb (of_Z 0) x && fleb w (GammaGen.large_bound g y x)).

Definition draw_two (rng : St) : outcome (list R * list R * St) :=
  '(us, rng) ← ur_packet rng; '(ws, rng) ← ur_packet rng; Ret (us, ws, rng).

Definition lanes_of (f : R → R → R * bool) (d : list R * list R) : list R * list bool :=
  let l := zip_with f d.1 d.2 in (l.*1, l.*2).

Definition two_good (d : list R * list R) : Prop := length d.1 = n ∧ length d.2 = n.

Lemma large_sum (g : GammaGen.t R) y :
  fadd (fmul (GammaGen.sqrt g) y) (fsub (GammaGen.alpha g) (of_Z 1)) = GammaGen.large_candidate g y.
Proof. unfold GammaGen.large_candidate. cbn. ring. Qed.

Lemma large_bound_comm (g : GammaGen.t R) y x :
  fmul (fadd (fmul y y) (of_Z 1))
    (fexp (fsub (fmul (fsub (GammaGen.alpha g) (of_Z 1)) (flog (fdiv x (fsub (GammaGen.alpha g) (of_Z 1)))))
       (fmul y (GammaGen.sqrt g)))) = GammaGen.large_bound g y x.
Proof. unfold GammaGen.large_bound. cbn. rewrite (Rplus_comm (y * y)). do 3 f_equal. ring. Qed.

Lemma large_packet_lanes lanes alpha beta rng d rng' :
  (∀ a, psincos a = (sin <$> a, cos <$> a)) →
  let g := GammaGen.create lanes alpha beta in
  draw_two rng = Ret (d, rng') → two_good d →
  GammaGen.large_packet g rng = Ret (lanes_of (large_lane g) d, rng') ∧
  has_lanes n (lanes_of (large_lane g) d) ∧ Forall (λ _, True) (lanes_of (large_lane g) d).1.
Proof.
  intros Hsc g Hd (Hl1 & Hl2). destruct d as [us ws]. cbn [fst snd] in *.
  unfold draw_two in Hd. unfold GammaGen.large_packet. draw_step Hd us1 rng1. rewrite Hsc.
  draw_step Hd ws1 rng2. injection Hd as -> -> ->.
  split_and!; [|split; cbn; rewrite !length_fmap, !length_zip_with; lia|by apply Forall_true].
  do 2 f_equal. unfold lanes_of. cbn [fst snd].
  f_equal; (apply packet_eq; [lane_count..|]); intros i Hi.
  all: destruct (lookup_lt_is_Some_2 us i) as [u Hu]; [lia|].
  all: destruct (lookup_lt_is_Some_2 ws i) as [w Hw]; [lia|].
  all: lane_at; unfold large_lane; cbn [fst snd]; rewrite large_sum;
    change (fdiv (sin (fmul M_PI u)) (cos (fmul M_PI u))) with (ftan (fmul M_PI u)).
  1: done.
  by rewrite large_bound_comm.
Qed.

(** A trial of [BetaGen] for shapes below 1. *)
Definition beta_lane (g : BetaGen.t R) (u v : R) : R * bool :=
  let p1 := fpow u (fdiv (of_Z 1) (BetaGen.a g)) in
  let p2 := fpow v (fdiv (of_Z 1) (BetaGen.b g)) in
  (fdiv p1 (fadd p1 p2), fleb (fadd p1 p2) (of_Z 1)).

Definition beta_good (d : list R * list R) : Prop :=
  two_good d ∧ Forall (λ u, 0 < u < 1) d.1 ∧ Forall (λ u, 0 < u < 1) d.2.

Lemma beta_packet_lanes (g : BetaGen.t R) rng d rng' :
  draw_two rng = Ret (d, rng') → beta_good d →
  BetaGen.small_packet g rng = Ret (lanes_of (beta_lane g) d, rng') ∧
  has_lanes n (lanes_of (beta_lane g) d) ∧ Forall (λ _, True) (lanes_of (beta_lane g) d).1.
Proof.
  intros Hd [[Hl1 Hl2] [Hu Hv]]. destruct d as [us vs]. cbn [fst snd] in *.
  unfold draw_two in Hd. unfold BetaGen.small_packet.
  draw_step Hd us1 rng1. draw_step Hd vs1 rng2. injection Hd as -> -> ->.
  split_and!; [|split; cbn; rewrite !length_fmap, !length_zip_with; lia|by apply Forall_true].
  do 2 f_equal. unfold lanes_of. cbn [fst snd].
  f_equal; (apply packet_eq; [lane_count..|]); intros i Hi.
  all: destruct (lookup_lt_is_Some_2 us i) as [u Hui]; [lia|].
  all: destruct (lookup_lt_is_Some_2 vs i) as [v Hvi]; [lia|].
  all: pose proof (Forall_lookup_1 _ _ _ _ Hu Hui) as Hu1; pose proof (Forall_lookup_1 _ _ _ _ Hv Hvi) as Hv1;
    cbv beta in Hu1, Hv1.
  all: lane_at; unfold beta_lane; cbn [fst snd fpow fexp flog fmul R_num R_libm];
    rewrite (R_pow_pos u), (R_pow_pos v) by lra; by rewrite (Rmult_comm (ln u)), (Rmult_comm (ln v)).
Qed.

(** ** The packet operations *)

Lemma gamma_small_packet fuel (g : GammaGen.t R) `{PacketFilter R} (rng : St) :
  GammaGen.alpha g < 1 →
  GammaGen.packetOp fuel g rng =
    '(x, q, rng) ← until_full (GammaGen.small_packet g) fuel (GammaGen.cache g) rng;
    Ret (x, GammaGen.with_cache g q, rng).
Proof.
  intros Ha. unfold GammaGen.packetOp. change (of_Z 1) with 1. by rewrite (proj2 (R_fltb_true _ _) Ha).
Qed.

Lemma beta_small_packet fuel (g : BetaGen.t R) `{PacketFilter R} (rng : St) :
  BetaGen.a g < 1 → BetaGen.b g < 1 →
  BetaGen.packetOp fuel g rng =
    '(x, q, rng) ← until_full (BetaGen.small_packet g) fuel (BetaGen.cache g) rng;
    Ret (x, BetaGen.mk q (BetaGen.a g) (BetaGen.b g) (BetaGen.gd1 g) (BetaGen.gd2 g), rng).
Proof.
  intros Ha Hb. unfold BetaGen.packetOp. change (of_Z 1) with 1.
  by rewrite (proj2 (R_fltb_true _ _) Ha), (proj2 (R_fltb_true _ _) Hb).
Qed.

End Packets.

(** C32. For a shape below 1 the packet operation of [GammaGen] is a queue of the
    scalar trials of the lanes of its draws: it hands out, in packets, the
    accepted candidates, those queued by earlier calls first, keeps the rest for
    the next call, and loses and repeats none.  A packet whose lanes are all
    accepted is handed out as it is. *)
Theorem gamma_packets {St} `{UniformSource R St} `{PacketMath R} n `{!PacketMathLaws n}
    `{!PacketFilter R} `{!PacketFilterLaws n (λ _ : R, True)} lanes alpha beta
    (Q : queue R) q ds (rng rng' : St) p q' fuel :
  0 < alpha < 1 → holds_queue n (λ _, True) Q q →
  draw_n draw_small (length ds) rng = Ret (ds, rng') → Forall (small_good n) ds →
  let g := GammaGen.create lanes alpha beta in
  drain n q (small_lanes g <$> ds) = Some (p, q') → (length ds <= fuel)%nat →
  (∃ Q', GammaGen.packetOp fuel (GammaGen.with_cache g Q) rng = Ret (p, GammaGen.with_cache g Q', rng') ∧
     holds_queue n (λ _, True) Q' q') ∧
  q ++ accepted_lanes (small_lanes g <$> ds) ≡ₚ p ++ q' ∧ length p = n.
Proof.
  intros Ha HQ Hd Hg g Hdr Hf.
  destruct (until_full_lanes n (λ _, True) (GammaGen.small_packet g) draw_small (small_good n) (small_lanes g)
    (λ rng d rng', small_packet_lanes n lanes alpha beta rng d rng' Ha) ds fuel Q q rng p q' rng')
    as [(Q' & Hu & HQ') Hc]; try done.
  split; [|exact Hc]. exists Q'. split; [|done].
  rewrite gamma_small_packet by (cbn; lra). cbn [GammaGen.cache GammaGen.with_cache].
  change (GammaGen.small_packet (GammaGen.with_cache g Q)) with (GammaGen.small_packet (R := St) g).
  by rewrite Hu.
Qed.

(** C33. The packet operation of [GammaGen] for a shape below 1 ends with a packet as
    soon as the draws to come hold a packet's worth of accepted candidates,
    counting those already queued. *)
Theorem gamma_packets_end {St} `{UniformSource R St} `{PacketMath R} n `{!PacketMathLaws n}
    `{!PacketFilter R} `{!PacketFilterLaws n (λ _ : R, True)} lanes alpha beta
    (Q : queue R) q ds (rng rng' : St) fuel :
  0 < alpha < 1 → holds_queue n (λ _, True) Q q →
  draw_n draw_small (length ds) rng = Ret (ds, rng') → Forall (small_good n) ds →
  let g := GammaGen.create lanes alpha beta in
  (n <= length (q ++ accepted_lanes (small_lanes g <$> ds)))%nat → (length ds <= fuel)%nat →
  ∃ p g' rng1, GammaGen.packetOp fuel (GammaGen.with_cache g Q) rng = Ret (p, g', rng1) ∧ length p = n.
Proof.
  intros Ha HQ Hd Hg g Hn Hf.
  destruct (until_full_returns n (λ _, True) (GammaGen.small_packet g) draw_small (small_good n) (small_lanes g)
    (λ rng d rng', small_packet_lanes n lanes alpha beta rng d rng' Ha) ds fuel Q q rng rng')
    as (p & Q' & rng1 & Hu & Hp); try done.
  exists p, (GammaGen.with_cache g Q'), rng1. split; [|done].
  rewrite gamma_small_packet by (cbn; lra). cbn [GammaGen.cache GammaGen.with_cache].
  change (GammaGen.small_packet (GammaGen.with_cache g Q)) with (GammaGen.small_packet (R := St) g).
  by rewrite Hu.
Qed.

(** The packet operation of [BetaGen] for two shapes below 1 is the same queue of
    the trials of its lanes, where a pair of powers is accepted when their sum is
    at most 1 and gives the share of the first. *)
Theorem beta_packets {St} `{UniformSource R St} `{PacketMath R} n `{!PacketMathLaws n}
    `{!PacketFilter R} `{!PacketFilterLaws n (λ _ : R, True)} (g : BetaGen.t R) q ds (rng rng' : St) p q' fuel :
  BetaGen.a g < 1 → BetaGen.b g < 1 → holds_queue n (λ _, True) (BetaGen.cache g) q →
  draw_n draw_two (length ds) rng = Ret (ds, rng') → Forall (beta_good n) ds →
  drain n q (lanes_of (beta_lane g) <$> ds) = Some (p, q') → (length ds <= fuel)%nat →
  (∃ Q', BetaGen.packetOp fuel g rng =
       Ret (p, BetaGen.mk Q' (BetaGen.a g) (BetaGen.b g) (BetaGen.gd1 g) (BetaGen.gd2 g), rng') ∧
     holds_queue n (λ _, True) Q' q') ∧
  q ++ accepted_lanes (lanes_of (beta_lane g) <$> ds) ≡ₚ p ++ q' ∧ length p = n.
Proof.
  intros Ha Hb HQ Hd Hg Hdr Hf.
  destruct (until_full_lanes n (λ _, True) (BetaGen.small_packet g) draw_two (beta_good n)
    (lanes_of (beta_lane g)) (λ rng d rng', beta_packet_lanes n g rng d rng')
    ds fuel (BetaGen.cache g) q rng p q' rng') as [(Q' & Hu & HQ') Hc]; try done.
  split; [|exact Hc]. exists Q'. split; [|done]. rewrite beta_small_packet by done. by rewrite Hu.
Qed.

(** ** Integer shapes *)

Lemma to_count_ok alpha : 0 <= alpha < IZR (2 ^ 31) →
  ∃ z, GammaGen.to_count alpha = Ret z ∧ (0 <= z)%Z ∧ IZR z <= alpha < IZR z + 1.
Proof.
  intros Ha. destruct (R_trunc_spec alpha ltac:(lra)) as [Hz Hb]. exists (R_trunc alpha).
  split; [|done]. unfold GammaGen.to_count, real_to_int. cbn [ftrunc R_num].
  assert (R_trunc alpha < 2 ^ 31)%Z by (apply lt_IZR; lra).
  rewrite (proj2 (in_int_spec _)); [done|]. unfold INT_MIN, INT_MAX. lia.
Qed.

Lemma R_feq x y : feq x y = true ↔ x = y.
Proof.
  unfold feq. rewrite andb_true_iff, !R_fleb_true. split; [lra|intros ->; lra].
Qed.

Lemma R_feq_false x y : x ≠ y → feq x y = false.
Proof. intros Hn. apply not_true_iff_false. by rewrite R_feq. Qed.

(** [while (--count) yx = times(yx, draw)] draws [count - 1] times. *)
Lemma decrement_ok {St X} (draw : St → outcome (X * St)) times us yx (rng rng' : St) :
  draw_n draw (length us) rng = Ret (us, rng') →
  GammaGen.decrement draw times (S (length us)) (Z.of_nat (S (length us))) yx rng =
    Ret (foldl times yx us, rng').
Proof.
  revert yx rng. induction us as [|u us IH]; intros yx rng Hd; [by injection Hd as <-|].
  cbn [length] in *. apply draw_n_S in Hd as (u' & us' & rng1 & [= <- <-] & Hd1 & Hd).
  remember (S (length us)) as k eqn:Hk. cbn [GammaGen.decrement].
  rewrite (proj2 (Z.eqb_neq _ 0)) by lia. rewrite Hd1. cbn [mbind outcome_bind].
  replace (Z.of_nat (S k) - 1)%Z with (Z.of_nat k) by lia. subst k. by apply IH.
Qed.

(** The logarithm of a product of numbers from the unit interval. *)
Lemma ln_product u us : 0 < u → Forall (λ u, 0 < u < 1) us →
  0 < foldl Rmult u us ∧ - ln (foldl Rmult u us) = rsum ((λ u, - ln u) <$> u :: us).
Proof.
  intros Hu Hus. revert u Hu. induction Hus as [|v us Hv Hus IH]; intros u Hu.
  - split; [done|]. unfold rsum. cbn. ring.
  - cbn [foldl]. destruct (IH (u * v)) as [Hp He]; [apply Rmult_lt_0_compat; lra|].
    split; [done|]. rewrite He, !fmap_cons, !rsum_cons, ln_mult by lra. ring.
Qed.

(** The branch of the code for these shapes. *)
Lemma erlang_count k : (2 <= k < 20)%nat → let alpha := IZR (Z.of_nat k) in
  fltb alpha 1 = false ∧ feq alpha 1 = false ∧ GammaGen.to_count alpha = Ret (Z.of_nat k) ∧
  feq (of_Z (Z.of_nat k)) alpha && (Z.of_nat k <? 20)%Z = true.
Proof.
  intros Hk alpha. assert (2 <= alpha < 20) as Ha by (split; [apply IZR_le|apply IZR_lt]; lia).
  split_and!.
  - apply R_fltb_false. lra.
  - apply R_feq_false. lra.
  - destruct (to_count_ok alpha) as (z & -> & _ & Hz).
    { split; [lra|]. apply IZR_lt. lia. }
    f_equal. destruct Hz as [Hz1 Hz2]. unfold alpha in *. rewrite <-plus_IZR in Hz2.
    apply le_IZR in Hz1. apply lt_IZR in Hz2. lia.
  - apply andb_true_iff. split; [by apply R_feq|]. apply Z.ltb_lt. lia.
Qed.

(** Lane [i] of a product of packets. *)
Lemma packet_product n `{PacketMath R} `{!PacketMathLaws n} p0 ps i : (i < n)%nat →
  length p0 = n → Forall (λ p, length p = n ∧ Forall (λ u, 0 < u < 1) p) ps →
  length (foldl pmul p0 ps) = n ∧
  foldl pmul p0 ps !! i = Some (foldl Rmult (nth i p0 0) ((λ p, nth i p 0) <$> ps)).
Proof.
  intros Hi Hp0 Hps. revert p0 Hp0. induction Hps as [|p ps [Hp _] Hps IH]; intros p0 Hp0.
  - split; [done|]. cbn. destruct (lookup_lt_is_Some_2 p0 i) as [x Hx]; [lia|].
    by rewrite Hx, (nth_lookup_Some _ _ _ _ Hx).
  - cbn [foldl fmap list_fmap]. destruct (IH (pmul p0 p)) as [Hl ->].
    { rewrite pmul_lanes, length_zip_with. lia. }
    split; [done|]. do 2 f_equal.
    destruct (lookup_lt_is_Some_2 p0 i) as [x Hx]; [lia|].
    destruct (lookup_lt_is_Some_2 p i) as [y Hy]; [lia|].
    rewrite (nth_lookup_Some _ _ _ _ Hx), (nth_lookup_Some _ _ _ _ Hy). apply nth_lookup_Some.
    rewrite pmul_lanes, lookup_zip_with, Hx, Hy. done.
Qed.

(** For an integer shape [k] from 2 to 19, [GammaGen] takes [k] numbers from the
    engine and returns the sum of the [k] exponential quantiles of them, scaled
    by [beta]: with [u] uniform, [- ln u] is the exponential quantile of [1 - u].
    The packet operation takes [k] packets and does so in every lane. *)
Theorem gamma_erlang {St} `{UniformSource R St} `{PacketMath R} n `{!PacketMathLaws n}
    `{!PacketFilter R} lanes beta k fuel (rng rng' : St) :
  (2 <= k < 20)%nat →
  let g := GammaGen.create lanes (IZR (Z.of_nat k)) beta in
  (∀ us, draw_n nzur k rng = Ret (us, rng') → Forall (λ u, 0 < u < 1) us →
     GammaGen.call fuel g rng = Ret (beta * rsum ((λ u, - ln u) <$> us), rng') ∧
     Forall (λ u, inverts (exponential 1) (1 - u) (- ln u)) us) ∧
  (∀ ps, draw_n nzur_packet k rng = Ret (ps, rng') →
     Forall (λ p, length p = n ∧ Forall (λ u, 0 < u < 1) p) ps →
     ∃ xs, GammaGen.packetOp fuel g rng = Ret (xs, g, rng') ∧
       ∀ i, (i < n)%nat → xs !! i = Some (beta * rsum ((λ p, - ln (nth i p 0)) <$> ps))).
Proof.
  intros Hk g. destruct (erlang_count k Hk) as (H1 & H2 & H3 & H4).
  destruct k as [|[|k]]; [lia..|]. split.
  - intros us Hd Hu. split.
    + apply draw_n_S in Hd as (u & us' & rng1 & -> & Hd1 & Hd). apply Forall_cons in Hu as [Hu Hus].
      destruct (draw_n_take nzur (S k) (S k) rng1 us' rng' Hd ltac:(lia)) as (_ & _ & Hl).
      rewrite <-Hl in Hd. unfold GammaGen.call. cbn [GammaGen.alpha GammaGen.create g].
      change (of_Z 1) with 1. rewrite H1, H2, H3. cbn [mbind outcome_bind]. rewrite H4, Hd1.
      cbn [mbind outcome_bind]. rewrite Nat2Z.id, <-Hl, decrement_ok with (rng' := rng') by done.
      cbn [mbind outcome_bind]. destruct (ln_product u us' ltac:(lra) Hus) as [_ <-].
      do 2 f_equal. cbn. ring.
    + eapply Forall_impl; [exact Hu|]. cbv beta. intros u Hu1. split; cbn.
      * pose proof (ln_unit_neg u Hu1). lra.
      * rewrite Rmult_1_l, exp_ln_neg by lra. ring.
  - intros ps Hd Hps. apply draw_n_S in Hd as (p & ps' & rng1 & -> & Hd1 & Hd).
    destruct (draw_n_take nzur_packet (S k) (S k) rng1 ps' rng' Hd ltac:(lia)) as (_ & _ & Hl).
    rewrite <-Hl in Hd. unfold GammaGen.packetOp. cbn [GammaGen.alpha GammaGen.create g].
    change (of_Z 1) with 1. rewrite H1, H2, H3. cbn [mbind outcome_bind]. rewrite H4, Hd1.
    cbn [mbind outcome_bind]. rewrite Nat2Z.id, <-Hl, decrement_ok with (rng' := rng') by done.
    cbn [mbind outcome_bind]. eexists. split; [reflexivity|]. intros i Hi.
    apply Forall_cons in Hps as [[Hp Hpu] Hps].
    destruct (packet_product n p ps' i Hi Hp Hps) as [Hlp Hx]. lane_at.
    f_equal. destruct (ln_product (nth i p 0) ((λ p, nth i p 0) <$> ps')) as [_ He].
    + destruct (param_lane _ p i Hpu ltac:(lia)) as (x & _ & -> & Hx'). lra.
    + apply Forall_fmap. eapply Forall_impl; [exact Hps|]. intros q [Hq Hqu]. cbn.
      by destruct (param_lane _ q i Hqu ltac:(lia)) as (x & _ & -> & Hx').
    + rewrite !fmap_cons, rsum_cons, <-list_fmap_compose in He. rewrite fmap_cons, rsum_cons.
      cbn [fneg fmul flog R_num R_libm]. change (GammaGen.beta g) with beta. unfold compose in He. rewrite <-He. ring.
Qed.

(** Where the sine and the cosine of a packet are exact, the packet operation for
    shapes from 20 on is the queue of the trials of its lanes. *)
Theorem gamma_large_packets {St} `{UniformSource R St} `{PacketMath R} n `{!PacketMathLaws n}
    `{!PacketFilter R} `{!PacketFilterLaws n (λ _ : R, True)} lanes alpha beta
    (Q : queue R) q ds (rng rng' : St) p q' fuel :
  (∀ a : list R, psincos a = (sin <$> a, cos <$> a)) →
  20 <= alpha < IZR (2 ^ 31) → holds_queue n (λ _, True) Q q →
  draw_n draw_two (length ds) rng = Ret (ds, rng') → Forall (two_good n) ds →
  let g := GammaGen.create lanes alpha beta in
  drain n q (lanes_of (large_lane g) <$> ds) = Some (p, q') → (length ds <= fuel)%nat →
  (∃ Q', GammaGen.packetOp fuel (GammaGen.with_cache g Q) rng = Ret (p, GammaGen.with_cache g Q', rng') ∧
     holds_queue n (λ _, True) Q' q') ∧
  q ++ accepted_lanes (lanes_of (large_lane g) <$> ds) ≡ₚ p ++ q' ∧ length p = n.
Proof.
  intros Hsc Ha HQ Hd Hg g Hdr Hf.
  destruct (until_full_lanes n (λ _, True) (GammaGen.large_packet g) draw_two (two_good n)
    (lanes_of (large_lane g)) (λ rng d rng', large_packet_lanes n lanes alpha beta rng d rng' Hsc)
    ds fuel Q q rng p q' rng') as [(Q' & Hu & HQ') Hc]; try done.
  split; [|exact Hc]. exists Q'. split; [|done].
  destruct (to_count_ok alpha ltac:(lra)) as (z & Hz & _ & Hz1 & Hz2).
  unfold GammaGen.packetOp. cbn [GammaGen.alpha GammaGen.cache GammaGen.with_cache g GammaGen.create].
  change (of_Z 1) with 1. rewrite (proj2 (R_fltb_false alpha 1)), (R_feq_false alpha 1), Hz by lra.
  assert (19 < z)%Z by (apply lt_IZR; lra).
  cbn [mbind outcome_bind]. rewrite (proj2 (Z.ltb_ge z 20)), andb_false_r by lia.
  change (GammaGen.large_packet _) with (GammaGen.large_packet (R := St) g) at 1. by rewrite Hu.
Qed.

(** ** The F distribution *)

(** Unless both shapes are below 1, [FisherFGen] for [m] and [n] degrees of
    freedom returns [(p1 / m) / (p2 / n)] for the gamma numbers [p1] and [p2] with
    shapes [m / 2] and [n / 2] that its two generators draw one after the other,
    half of which are those of a chi-squared distribution. *)
Theorem fisher_ratio {St} `{UniformSource R St} fuel lanes m n (rng rng1 rng2 : St) p1 p2 :
  0 < m → 0 < n → 2 <= m ∨ 2 <= n →
  GammaGen.call fuel (GammaGen.create lanes (m * / 2) 1) rng = Ret (p1, rng1) →
  GammaGen.call fuel (GammaGen.create lanes (n * / 2) 1) rng1 = Ret (p2, rng2) →
  0 < p1 → 0 < p2 →
  FisherFGen.call fuel (FisherFGen.create lanes m n) rng = Ret ((p1 / m) / (p2 / n), rng2).
Proof.
  intros Hm Hn Hmn H1 H2 Hp1 Hp2. unfold FisherFGen.call, BetaGen.call, FisherFGen.create.
  cbn [BetaGen.a BetaGen.b BetaGen.gd1 BetaGen.gd2 BetaGen.create].
  change (fmul m half) with (m * / 2). change (fmul n half) with (n * / 2). change (of_Z 1) with 1.
  assert (fltb (m * / 2) 1 && fltb (n * / 2) 1 = false) as ->.
  { apply andb_false_iff. rewrite !R_fltb_false. destruct Hmn; [left|right]; lra. }
  rewrite H1. cbn [mbind outcome_bind]. rewrite H2. cbn [mbind outcome_bind].
  do 2 f_equal. cbn. field. split_and!; try lra.
Qed.

(** ** Witnesses *)

#[local] Instance one_tape : UniformSource R (list R) := tape 1.
#[local] Instance one_lane : PacketMath R := lane_packets 1.
#[local] Instance one_lane_laws : PacketMathLaws 1 := lane_packets_laws 1.
#[local] Instance one_filter : PacketFilter R := list_filter 1 0.
#[local] Instance one_filter_laws : PacketFilterLaws 1 (λ _ : R, True) :=
  list_filter_laws 1 0 _ (le_n 1) I.

Lemma gamma_small_exact_witness :
  let g := GammaGen.create 1 (/ 2) 3 in
  let '(x, q) := GammaGen.small_candidate g 0 (/ 3) in 0 < q < 1 ∧ (0 < GammaGen.px g → Rpower x (/ 2) = / 3).
Proof.
  pose proof (gamma_small_exact 1 (/ 2) 3 0 (/ 3) ltac:(lra) ltac:(lra)) as Hg. cbv zeta in Hg |- *.
  destruct (GammaGen.small_candidate _ 0 (/ 3)) as [x q]. destruct Hg as (_ & Hq & Hx & _).
  split; [exact Hq|]. intros Hp. apply (Hx Hp).
Defined.

Lemma gamma_large_exact_witness :
  let g := GammaGen.create 1 25 1 in
  0 < GammaGen.large_bound g 0 (GammaGen.large_candidate g 0) <= 1.
Proof. apply (gamma_large_exact 1 25 1 0); [lra|cbn; lra]. Defined.

(** A draw whose only lane is accepted. *)
Definition half_gamma : GammaGen.t R := GammaGen.create 1 (/ 2) 1.
Lemma small_lanes_accepted : ∃ x, small_lanes half_gamma ([0], [/ 2], [0]) = ([x], [true]).
Proof.
  pose proof (small_bound 1 (/ 2) 1 0 (/ 2) ltac:(lra) ltac:(lra)) as Hq.
  unfold small_lanes. cbn [zip_with fst snd fmap list_fmap]. unfold small_lane. fold half_gamma in Hq.
  destruct (GammaGen.small_candidate _ 0 (/ 2)) as [x q]. cbn [snd] in Hq.
  rewrite (proj2 (R_fltb_true 0 q)) by lra. by eexists.
Qed.

Lemma empty_queue : holds_queue 1 (λ _ : R, True) (GammaGen.cache half_gamma) [].
Proof. by apply (holds_create 1 (λ _, True)). Qed.

Lemma small_good_one : Forall (small_good 1) [([0], [/ 2], [0])].
Proof. repeat constructor; cbn; lra. Qed.

Lemma gamma_packets_witness : ∃ x g',
  GammaGen.packetOp 1 half_gamma [0; / 2; 0] = Ret ([x], g', []).
Proof.
  destruct small_lanes_accepted as [x Hx].
  destruct (gamma_packets 1 1 (/ 2) 1 (GammaGen.cache half_gamma) [] [([0], [/ 2], [0])] [0; / 2; 0] []
    [x] [] 1 ltac:(lra) empty_queue eq_refl small_good_one) as [(Q' & Hp & _) _].
  - cbn [fmap list_fmap]. fold half_gamma. by rewrite Hx.
  - done.
  - exists x. eexists. exact Hp.
Defined.

Lemma gamma_packets_end_witness : ∃ p g' rng1,
  GammaGen.packetOp 1 half_gamma [0; / 2; 0] = Ret (p, g', rng1) ∧ length p = 1%nat.
Proof.
  destruct small_lanes_accepted as [x Hx].
  apply (gamma_packets_end 1 1 (/ 2) 1 (GammaGen.cache half_gamma) [] [([0], [/ 2], [0])] [0; / 2; 0] []
    1 ltac:(lra) empty_queue eq_refl small_good_one).
  - cbn [fmap list_fmap]. fold half_gamma. rewrite Hx. cbn. lia.
  - done.
Defined.

Definition half_beta : BetaGen.t R := BetaGen.create 1 (/ 2) (/ 2).
Lemma beta_lane_accepted : ∃ x, lanes_of (beta_lane half_beta) ([/ 2], [/ 2]) = ([x], [true]).
Proof.
  unfold lanes_of, beta_lane. cbn [zip_with fst snd fmap list_fmap BetaGen.a BetaGen.b half_beta BetaGen.create].
  rewrite (proj2 (R_fleb_true _ (of_Z 1))); [by eexists|].
  cbn. rewrite R_pow_pos by lra. pose proof (ln_unit_neg (/ 2) ltac:(lra)) as Hl.
  assert (exp (1 / / 2 * ln (/ 2)) < / 2); [|lra].
  rewrite <-(exp_ln (/ 2)) at 3 by lra. apply exp_increasing. lra.
Qed.

Lemma beta_packets_witness : ∃ x g',
  BetaGen.packetOp 1 half_beta [/ 2; / 2] = Ret ([x], g', []).
Proof.
  destruct beta_lane_accepted as [x Hx].
  destruct (beta_packets 1 half_beta [] [([/ 2], [/ 2])] [/ 2; / 2] [] [x] [] 1) as [(Q' & Hp & _) _].
  - cbn. lra.
  - cbn. lra.
  - by apply (holds_create 1 (λ _, True)).
  - done.
  - repeat constructor; cbn; lra.
  - cbn [fmap list_fmap]. by rewrite Hx.
  - done.
  - exists x. eexists. exact Hp.
Defined.

Lemma gamma_erlang_witness :
  GammaGen.call 0 (GammaGen.create 1 2 3) [/ 2; / 4] =
    Ret (3 * rsum ((λ u, - ln u) <$> [/ 2; / 4]), []).
Proof.
  destruct (gamma_erlang (St := list R) 1 1 3 2 0 [/ 2; / 4] [] ltac:(lia)) as [Hg _].
  apply (Hg [/ 2; / 4]); [reflexivity|repeat constructor; lra].
Defined.

(** Shapes of 1: each gamma number is an exponential quantile. *)
Lemma gamma_one (rng : list R) u :
  GammaGen.call 0 (GammaGen.create 1 (2 * / 2) 1) (u :: rng) = Ret (1 * (- ln (1 - u) / 1), rng).
Proof.
  unfold GammaGen.call. cbn [GammaGen.alpha GammaGen.create]. change (of_Z 1) with 1.
  rewrite (proj2 (R_fltb_false _ _)), (proj2 (R_feq _ 1)) by lra. reflexivity.
Qed.

Lemma fisher_ratio_witness :
  FisherFGen.call 0 (FisherFGen.create 1 2 2) [/ 2; / 4] =
    Ret ((1 * (- ln (1 - / 2) / 1)) / 2 / ((1 * (- ln (1 - / 4) / 1)) / 2), []).
Proof.
  pose proof (ln_unit_neg (1 - / 2) ltac:(lra)). pose proof (ln_unit_neg (1 - / 4) ltac:(lra)).
  apply (fisher_ratio 0 1 2 2 [/ 2; / 4] [/ 4] []); [lra|lra|lra|apply gamma_one|apply gamma_one|lra|lra].
Defined.
