(* ===== verification/DiscreteReal.v ===== *)
(** EigenRand/Dists/Discrete.h: [DiscreteGen] with [float] and with [double]
    precision, over any arithmetic of the weights and of the probabilities. *)

From S2P Require Import Prelude.
From S2P Require Import Simd.
From S2P Require Import PacketMath.
From S2P Require Import RandUtils.
From S2P Require Import Alias.
From S2P Require Import Discrete.
From Stdlib Require Import SpecFloat.
From S2P Require Import Num.
From S2P Require Import Reject.

Module DiscreteRealGen.

(** A generator with probabilities of type [P]; [ur] has no state. *)
Record t (P : Type) := mk { cdf : list P; alias_table : AliasMethod.t P }.
#[global] Arguments mk {P} _ _.
#[global] Arguments cdf {P} _.
#[global] Arguments alias_table {P} _.

(** The weights are of type [F], [double]; [round] is the conversion to [P]. *)
Section Create.
Context {F P : Type} `{Num F} `{Num P} `{CeilLog2} (round : F → P).

#[local] Instance real_precision : Precision F P := floating_precision round.

Definition create (w : list F) : outcome (t P) :=
  if Z.of_nat (length w) <? 16 then
    let _cdf := DiscreteGen.running_sums (of_Z 0) w in
    Ret (mk ((λ p, round (fdiv p (List.last _cdf (of_Z 0)))) <$> _cdf) AliasMethod.create)
  else
    o ← AliasMethod.of_weights w;
    Ret (mk [] (AliasMethod.assign_move AliasMethod.create o).1).

End Create.

Section Code.
Context {P R : Type} `{Num P} `{UniformSource P R} `{Rng R} `{EigenConversions}.

(** [std::lower_bound] on a range that is partitioned by [x < rx]. *)
Definition lower_bound (l : list P) (rx : P) : Z :=
  Z.of_nat (length (List.filter (λ x, fltb x rx) l)).

Definition call (g : t P) (rng : R) : outcome (Z * R) :=
  if negb (bool_decide (length (cdf g) = 0%nat)) then
    '(rx, rng) ← ur rng;
    Ret (lower_bound (take (length (cdf g) - 1) (cdf g)) rx, rng)
  else
    '(x, rng) ← rng_call rng;
    let albit := Z.land (u64 (pfirst x)) (AliasMethod.get_bitmask (alias_table g)) in
    '(alx, rng) ← ur rng;
    p ← AliasMethod.get_prob (alias_table g) albit;
    if fltb alx p then Ret (i32 albit, rng)
    else a ← AliasMethod.get_alias (alias_table g) albit; Ret (a, rng).

(** ** Packets

    [Packet] has integer lanes; a comparison of numbers, reinterpreted as
    integers, has all bits set in the lanes where it holds: one 32-bit lane for a
    [float], two for a [double]. *)

Definition reinterpret_ps (c : list bool) : list Z := mask 32 <$> c.
Definition reinterpret_pd (c : list bool) : list Z := concat ((λ b, [mask 32 b; mask 32 b]) <$> c).

Context `{EigenPackets} `{PacketMath P} (lanes : nat) (rawbits : R → outcome (list Z * R))
  (pblendv : list Z → list Z → list Z → list Z)
  (pgather : ∀ A, list A → list Z → outcome (list A)).

(** [for (auto& p : cdf) ret = padd(ret, compare(p))]. *)
Fixpoint count_cdf (compare : P → list Z) (l : list P) (ret : list Z) : list Z :=
  match l with
  | [] => ret
  | p :: l => count_cdf compare l (PacketMath.padd ret (compare p))
  end.
Definition values (g : t P) (compare : P → list Z) : list Z :=
  count_cdf compare (cdf g) (PacketMath.pset1 lanes (u64 (Z.of_nat (length (cdf g))))).

Definition slots (g : t P) (rng : R) : outcome (list Z * R) :=
  '(r, rng) ← rawbits rng;
  Ret (PacketMath.pand r (PacketMath.pset1 lanes (AliasMethod.get_bitmask (alias_table g))), rng).

(** [packetOp] with [float] precision. *)
Definition packetOp_float (g : t P) (rng : R) : outcome (list Z * R) :=
  if negb (bool_decide (length (cdf g) = 0%nat)) then
    '(rx, rng) ← ur_packet rng;
    Ret (values g (λ p, reinterpret_ps (pcmplt rx (pset1 p))), rng)
  else
    '(albit, rng) ← slots g rng;
    '(u, rng) ← ur_packet rng;
    p ← DiscreteGen.gather pgather (AliasMethod.arr (alias_table g)) albit;
    let c := reinterpret_ps (pcmplt u p) in
    j ← DiscreteGen.gather_alias pgather (alias_table g) albit;
    Ret (pblendv c albit j, rng).

(** [packetOp] with [double] precision: with AVX on one packet of four numbers,
    otherwise on two packets of two. *)
Context (fx : features).

Definition doubles (gather : list P → outcome (list P)) (a : option (list P)) : outcome (list P) :=
  match a with Some a => gather a | None => Undef null_dereference end.

Definition packetOp_avx (g : t P) (rng : R) : outcome (list Z * R) :=
  if negb (bool_decide (length (cdf g) = 0%nat)) then
    '(rx, rng) ← ur_packet rng;
    Ret (values g (λ p, AVX.combine_low32 fx (reinterpret_pd (pcmplt rx (pset1 p)))), rng)
  else
    '(albit, rng) ← slots g rng;
    '(u, rng) ← ur_packet rng;
    p ← doubles (λ a, AVX.pgather_doubles fx a albit false) (AliasMethod.arr (alias_table g));
    let c := reinterpret_pd (pcmplt u p) in
    j ← DiscreteGen.gather_alias pgather (alias_table g) albit;
    Ret (pblendv (AVX.combine_low32 fx c) albit j, rng).

Definition packetOp_sse (g : t P) (rng : R) : outcome (list Z * R) :=
  if negb (bool_decide (length (cdf g) = 0%nat)) then
    '(rx1, rng) ← ur_packet rng;
    '(rx2, rng) ← ur_packet rng;
    Ret (values g (λ p, let pp := pset1 p in
      SSE.combine_low32 (reinterpret_pd (pcmplt rx1 pp)) (reinterpret_pd (pcmplt rx2 pp))), rng)
  else
    '(albit, rng) ← slots g rng;
    '(u, rng) ← ur_packet rng;
    p ← doubles (λ a, SSE.pgather_doubles fx a albit false) (AliasMethod.arr (alias_table g));
    let c1 := reinterpret_pd (pcmplt u p) in
    '(u, rng) ← ur_packet rng;
    p ← doubles (λ a, SSE.pgather_doubles fx a albit true) (AliasMethod.arr (alias_table g));
    let c2 := reinterpret_pd (pcmplt u p) in
    j ← DiscreteGen.gather_alias pgather (alias_table g) albit;
    Ret (pblendv (SSE.combine_low32 c1 c2) albit j, rng).

End Code.
End DiscreteRealGen.
