(* ===== verification/DiscreteRealProps.v ===== *)
(** [DiscreteGen] with [float] and [double] precision: over exact arithmetic the
    packet operation inverts the distribution function of the weights, the scalar
    call does so up to the bounds between the values, and the packet operations
    agree with the scalar call on an alias table. *)

From S2P Require Import Prelude.
From S2P Require Import NumR.
From S2P Require Import Simd.
From S2P Require Import PacketMath.
From S2P Require Import PacketMathProps.
From S2P Require Import FloatBitsProps.
From S2P Require Import RandUtils.
From S2P Require Import BasicProps.
From S2P Require Import Alias.
From S2P Require Import AliasProps.
From S2P Require Import Discrete.
From S2P Require Import UniformIntProps.
From S2P Require Import DiscreteProps.
From Stdlib Require Import SpecFloat.
From S2P Require Import Num.
From S2P Require Import Reject.
From S2P Require Import RejectProps.
From S2P Require Import DiscreteReal.
From Stdlib Require Import Reals Lra.

#[local] Open Scope Z_scope.

(** ** Masks *)

Lemma avx_combine_masks fx c : length c = 4%nat →
  AVX.combine_low32 fx (DiscreteRealGen.reinterpret_pd c) = mask 32 <$> c.
Proof.
  destruct c as [|c0 [|c1 [|c2 [|c3 [|]]]]]; try done. intros _. unfold AVX.combine_low32.
  by destruct (avx2 fx), c0, c1, c2, c3.
Qed.

Lemma sse_combine_masks c d : length c = 2%nat → length d = 2%nat →
  SSE.combine_low32 (DiscreteRealGen.reinterpret_pd c) (DiscreteRealGen.reinterpret_pd d) = mask 32 <$> c ++ d.
Proof.
  destruct c as [|c0 [|c1 [|]]], d as [|d0 [|d1 [|]]]; try done. intros _ _.
  by destruct c0, c1, d0, d1.
Qed.

(** Adding a mask counts down in the lanes where it is set. *)
Lemma padd_mask `{EigenPackets} `{!EigenPacketLaws} {A} m (k : A → Z) (f : A → bool) l :
  length l = (2 * m)%nat → (∀ x, 1 <= k x < 2 ^ 32) →
  PacketMath.padd (k <$> l) (mask 32 <$> (f <$> l)) = (λ x, k x - (if f x then 1 else 0)) <$> l.
Proof.
  intros Hl Hk. rewrite <-list_fmap_compose. rewrite (PacketMath.padd_lanes m).
  - unfold add_epi32. rewrite zip_with_fmap_l, zip_with_fmap_r, zip_with_diag.
    apply list_fmap_ext. intros _ x _. unfold compose, u32, mask. specialize (Hk x). destruct (f x).
    + replace (k x + (2 ^ 32 - 1)) with (k x - 1 + 1 * 2 ^ 32) by lia. rewrite Z.mod_add, Z.mod_small; lia.
    + rewrite Z.add_0_r, Z.mod_small; lia.
  - split; [by rewrite length_fmap|]. apply Forall_fmap, Forall_true. intros x. specialize (Hk x).
    unfold compose, word. lia.
  - split; [by rewrite length_fmap|]. apply Forall_fmap, Forall_true. intros x.
    unfold compose, word, mask. destruct (f x); lia.
Qed.

(** ** Values drawn from the distribution function *)

(** The number of bounds that are not above [u], as the packets count them, and of
    those below [u] but the last, as the scalar call does. *)
Definition packet_count {P} `{Num P} (cdf : list P) (u : P) : Z :=
  Z.of_nat (length cdf) - Z.of_nat (length (List.filter (fltb u) cdf)).
Definition scalar_count {P} `{Num P} (cdf : list P) (u : P) : Z :=
  Z.of_nat (length (List.filter (λ x, fltb x u) (take (length cdf - 1) cdf))).

(** A comparison with a probability of the table. *)
Definition below {P} `{Num P} (u : P) (p : option P) : bool :=
  match p with Some p => fltb u p | None => false end.

(** The value of a slot [x mod 2 ^ k] and a number [u]. *)
Definition slot_value {P} `{Num P} (k : Z) (a : list P) (l : list Z) (x : Z) (u : P) : Z :=
  let j := x mod 2 ^ k in
  if below u (a !! Z.to_nat j) then j else lane l j.

(** A table of [2 ^ k] slots. *)
Record table_ok {P} (s : AliasMethod.t P) (k : Z) (a : list P) (l : list Z) : Prop := {
  table_bits : 1 <= k <= 31;
  table_mask : AliasMethod.get_bitmask s = 2 ^ k - 1;
  table_arr : AliasMethod.arr s = Some a;
  table_alias : AliasMethod.alias s = Some (Some <$> l);
  table_length : Z.of_nat (length a) = 2 ^ k ∧ Z.of_nat (length l) = 2 ^ k;
  table_values : Forall (λ j, 0 <= j < 2 ^ 31) l;
}.

Section Packets.
Context {P R : Type} `{Num P} `{Libm P} `{UniformSource P R} `{Rng R} `{EigenConversions}.
Context `{EigenPackets} `{!EigenPacketLaws} `{PacketMath P}.
Context (m : nat) (rawbits : R → outcome (list Z * R))
  (pblendv : list Z → list Z → list Z → list Z) (pgather : ∀ A, list A → list Z → outcome (list A)).
Context (Hblend : blends pblendv m) (Hgather : gathers pgather).

Lemma count_cdf_ok {A} (num : A → P) compare l us (k : A → Z) :
  length us = (2 * m)%nat →
  (∀ p, compare p = mask 32 <$> ((λ u, fltb (num u) p) <$> us)) →
  (∀ u, Z.of_nat (length l) <= k u < 2 ^ 32) →
  DiscreteRealGen.count_cdf compare l (k <$> us) =
    (λ u, k u - Z.of_nat (length (List.filter (fltb (num u)) l))) <$> us.
Proof.
  intros Hus Hcmp. revert k. induction l as [|p l IH]; intros k Hk; cbn [DiscreteRealGen.count_cdf].
  - apply list_fmap_ext. intros _ u _. cbn. lia.
  - cbn [length] in Hk. rewrite Hcmp, (padd_mask m) by (done || intros u; specialize (Hk u); lia).
    rewrite IH by (intros u; specialize (Hk u); destruct (fltb _ _); lia).
    apply list_fmap_ext. intros _ u _. cbn [List.filter]. destruct (fltb (num u) p); cbn [length]; lia.
Qed.

Lemma values_ok (g : DiscreteRealGen.t P) compare us :
  length us = (2 * m)%nat → Z.of_nat (length (DiscreteRealGen.cdf g)) < 2 ^ 32 →
  (∀ p, compare p = mask 32 <$> ((λ u, fltb u p) <$> us)) →
  DiscreteRealGen.values (2 * m) g compare = packet_count (DiscreteRealGen.cdf g) <$> us.
Proof.
  intros Hus Hlen Hcmp. unfold DiscreteRealGen.values.
  assert (PacketMath.pset1 (2 * m) (u64 (Z.of_nat (length (DiscreteRealGen.cdf g)))) =
    (λ _, Z.of_nat (length (DiscreteRealGen.cdf g))) <$> us) as ->.
  { rewrite PacketMath.pset1_lanes. unfold set1_epi32. rewrite u64_small, u32_id, <-Hus by (unfold word; lia).
    clear. induction us; [done|]. cbn. by f_equal. }
  rewrite (count_cdf_ok (λ u, u)); [done|done|done|]. intros u. lia.
Qed.

(** The slots that random words choose. *)
Lemma slots_ok (g : DiscreteRealGen.t P) k a l rng r rng' :
  table_ok (DiscreteRealGen.alias_table g) k a l → rawbits rng = Ret (r, rng') → register m r →
  DiscreteRealGen.slots (2 * m) rawbits g rng = Ret ((λ x, x mod 2 ^ k) <$> r, rng').
Proof.
  intros [Hk Hmask _ _ _ _] Hraw Hr. unfold DiscreteRealGen.slots. rewrite Hraw. cbn [mbind outcome_bind].
  do 2 f_equal. pose proof (pow2_le_31 k Hk).
  rewrite PacketMath.pset1_lanes, (pand_lanes m) by (done || apply set1_register32).
  unfold and_si, set1_epi32. rewrite zip_with_replicate_r_eq by apply Hr.
  rewrite Hmask, u32_id by (unfold word; lia). apply list_fmap_ext. intros _ x _. apply land_low_bits. lia.
Qed.

Lemma array_lanes {A} (a : list A) (d : A) index :
  Forall (λ i, 0 <= i < Z.of_nat (length a)) index →
  mapM (array_get a) index = Ret ((λ i, nth (Z.to_nat i) a d) <$> index).
Proof.
  induction 1 as [|i index Hi _ IH]; [done|]. cbn.
  destruct (lookup_lt_is_Some_2 a (Z.to_nat i)) as [x Hx]; [lia|].
  rewrite (array_get_ok _ _ x) by (lia || done). cbn. rewrite IH. cbn.
  by rewrite (nth_lookup_Some _ _ _ _ Hx).
Qed.

Lemma slot_bounds k x : 1 <= k <= 31 → 0 <= x mod 2 ^ k < 2 ^ k.
Proof. intros Hk. pose proof (pow2_le_31 k Hk). apply Z.mod_pos_bound. lia. Qed.

Lemma aliases_ok (g : DiscreteRealGen.t P) k a l r :
  table_ok (DiscreteRealGen.alias_table g) k a l →
  DiscreteGen.gather_alias pgather (DiscreteRealGen.alias_table g) ((λ x, x mod 2 ^ k) <$> r) =
    Ret ((λ x, lane l (x mod 2 ^ k)) <$> r).
Proof.
  intros [Hk _ _ Halias [_ Hll] Hl]. pose proof (pow2_le_31 k Hk).
  unfold DiscreteGen.gather_alias, DiscreteGen.gather. rewrite Halias.
  assert (∀ N, 2 ^ k <= N → Forall (λ i, 0 <= i < N) ((λ x, x mod 2 ^ k) <$> r)) as Hidx.
  { intros N HN. apply Forall_fmap, Forall_true. intros x. pose proof (slot_bounds k x Hk). unfold compose. lia. }
  rewrite Hgather, gather_some by (apply Hidx; lia). cbn [mbind outcome_bind].
  assert (∀ x, 0 <= lane l (x mod 2 ^ k) < 2 ^ 31) as Hpl.
  { intros x. apply (lane_forall (λ p, 0 <= p < 2 ^ 31) l); [done|]. rewrite Hll. by apply slot_bounds. }
  rewrite deref_some by (apply Forall_fmap, Forall_true; intros x; specialize (Hpl x); unfold compose, word; lia).
  by rewrite <-list_fmap_compose.
Qed.

(** Choosing between the slot and its alias. *)
Lemma blend_slots k a l r (us : list P) ps :
  1 <= k <= 31 → Z.of_nat (length a) = 2 ^ k → Z.of_nat (length l) = 2 ^ k →
  Forall (λ j, 0 <= j < 2 ^ 31) l → register m r → length us = (2 * m)%nat →
  ps = (λ x, a !! Z.to_nat (x mod 2 ^ k)) <$> r →
  pblendv (mask 32 <$> zip_with below us ps)
    ((λ x, x mod 2 ^ k) <$> r) ((λ x, lane l (x mod 2 ^ k)) <$> r) =
    zip_with (slot_value k a l) r us.
Proof.
  intros Hk Hla Hll Hl Hr Hus ->. rewrite Hblend.
  - unfold select, slot_value. rewrite zip_with_fmap_r. pose proof (register_length _ _ Hr) as Hlr.
    clear Hr. assert (length r = length us) as Heq by lia. clear Hlr Hus. revert us Heq.
    induction r as [|x r IH]; intros [|u us] Heq; try done. cbn. f_equal. apply IH. by injection Heq.
  - rewrite length_zip_with, length_fmap. pose proof (register_length _ _ Hr). lia.
  - apply fmap_register; [done|]. intros x _ _. pose proof (slot_bounds k x Hk). pose proof (pow2_le_31 k Hk).
    unfold word. lia.
  - apply fmap_register; [done|]. intros x _ _. pose proof (slot_bounds k x Hk).
    pose proof (lane_forall (λ p, 0 <= p < 2 ^ 31) l (x mod 2 ^ k) Hl ltac:(lia)) as Hp. cbv beta in Hp.
    unfold word. lia.
Qed.

Lemma below_compare n `{!PacketMathLaws n} k a r (us : list P) :
  1 <= k <= 31 → Z.of_nat (length a) = 2 ^ k → ∃ ps,
  mapM (array_get a) ((λ x, x mod 2 ^ k) <$> r) = Ret ps ∧
  pcmplt us ps = zip_with below us ((λ x, a !! Z.to_nat (x mod 2 ^ k)) <$> r).
Proof.
  intros Hk Hla. pose proof (pow2_le_31 k Hk).
  destruct a as [|d a']; [cbn in Hla; lia|]. set (a := d :: a') in *.
  rewrite (array_lanes a d) by (apply Forall_fmap, Forall_true; intros x; pose proof (slot_bounds k x Hk); unfold compose; lia).
  eexists. split; [reflexivity|]. rewrite pcmplt_lanes, <-list_fmap_compose.
  revert us. induction r as [|x r IH]; intros [|u us]; try done. cbn [fmap list_fmap zip_with]. f_equal; [|apply IH].
  unfold compose. destruct (lookup_lt_is_Some_2 a (Z.to_nat (x mod 2 ^ k))) as [p Hp].
  { pose proof (slot_bounds k x Hk). lia. }
  by rewrite (nth_lookup_Some _ _ _ _ Hp), Hp.
Qed.

Lemma packet_compare n `{!PacketMathLaws n} (us : list P) p : (length us <= n)%nat →
  pcmplt us (pset1 p) = (λ u, fltb u p) <$> us.
Proof. intros Hl. rewrite pset1_lanes, pcmplt_lanes. by rewrite zip_with_replicate_r. Qed.

Lemma no_cdf (g : DiscreteRealGen.t P) : DiscreteRealGen.cdf g = [] →
  negb (bool_decide (length (DiscreteRealGen.cdf g) = 0%nat)) = false.
Proof. by intros ->. Qed.
Lemma some_cdf (g : DiscreteRealGen.t P) : DiscreteRealGen.cdf g ≠ [] →
  negb (bool_decide (length (DiscreteRealGen.cdf g) = 0%nat)) = true.
Proof. intros Hne. by destruct (DiscreteRealGen.cdf g). Qed.

(** ** Draws *)

Lemma scalar_cdf (g : DiscreteRealGen.t P) u (rng rng' : R) :
  DiscreteRealGen.cdf g ≠ [] → ur rng = Ret (u, rng') →
  DiscreteRealGen.call g rng = Ret (scalar_count (DiscreteRealGen.cdf g) u, rng').
Proof.
  intros Hne Hu. unfold DiscreteRealGen.call. rewrite some_cdf, Hu by done. done.
Qed.

Lemma scalar_slot (g : DiscreteRealGen.t P) k a l x u (rng rng1 rng' : R) :
  DiscreteRealGen.cdf g = [] → table_ok (DiscreteRealGen.alias_table g) k a l →
  rng_call rng = Ret (x, rng1) → ur rng1 = Ret (u, rng') →
  DiscreteRealGen.call g rng = Ret (slot_value k a l (pfirst x) u, rng').
Proof.
  intros Hcdf [Hk Hmask Harr Halias [Hla Hll] Hl] Hx Hu. pose proof (pow2_le_31 k Hk).
  unfold DiscreteRealGen.call. rewrite no_cdf, Hx by done. cbn [mbind outcome_bind].
  rewrite Hmask, land_low_bits, Hu by lia. cbn [mbind outcome_bind]. unfold u64. rewrite mod_pow2_mod by lia.
  pose proof (slot_bounds k (pfirst x) Hk) as Hb. unfold slot_value.
  destruct (lookup_lt_is_Some_2 a (Z.to_nat (pfirst x mod 2 ^ k))) as [p Hp]; [lia|].
  destruct (lookup_lt_is_Some_2 l (Z.to_nat (pfirst x mod 2 ^ k))) as [j Hj]; [lia|].
  unfold AliasMethod.get_prob, AliasMethod.get_alias. rewrite Harr, Halias, (array_get_ok _ _ p) by (lia || done).
  cbn [mbind outcome_bind]. rewrite Hp. cbn [below]. destruct (fltb u p).
  - rewrite i32_small; [done|]. unfold INT_MIN, INT_MAX. lia.
  - rewrite (array_get_ok _ _ (Some j)) by (lia || by rewrite list_lookup_fmap, Hj). cbn.
    unfold lane. by rewrite (nth_lookup_Some _ _ _ _ Hj).
Qed.

Lemma float_cdf `{!PacketMathLaws (2 * m)} (g : DiscreteRealGen.t P) us (rng rng' : R) :
  DiscreteRealGen.cdf g ≠ [] → Z.of_nat (length (DiscreteRealGen.cdf g)) < 2 ^ 32 →
  ur_packet rng = Ret (us, rng') → length us = (2 * m)%nat →
  DiscreteRealGen.packetOp_float (2 * m) rawbits pblendv pgather g rng =
    Ret (packet_count (DiscreteRealGen.cdf g) <$> us, rng').
Proof.
  intros Hne Hlen Hu Hus. unfold DiscreteRealGen.packetOp_float. rewrite some_cdf, Hu by done.
  cbn [mbind outcome_bind]. rewrite (values_ok g _ us); [done..|]. intros p.
  unfold DiscreteRealGen.reinterpret_ps. by rewrite (packet_compare (2 * m)) by lia.
Qed.

Lemma float_slots `{!PacketMathLaws (2 * m)} (g : DiscreteRealGen.t P) k a l r us (rng rng1 rng' : R) :
  DiscreteRealGen.cdf g = [] → table_ok (DiscreteRealGen.alias_table g) k a l →
  rawbits rng = Ret (r, rng1) → register m r → ur_packet rng1 = Ret (us, rng') → length us = (2 * m)%nat →
  DiscreteRealGen.packetOp_float (2 * m) rawbits pblendv pgather g rng =
    Ret (zip_with (slot_value k a l) r us, rng').
Proof.
  intros Hcdf Hok Hraw Hr Hu Hus. unfold DiscreteRealGen.packetOp_float. rewrite no_cdf by done.
  rewrite (slots_ok g k a l rng r rng1) by done. cbn [mbind outcome_bind]. rewrite Hu. cbn [mbind outcome_bind].
  pose proof Hok as [Hk _ Harr _ [Hla Hll] Hl]. pose proof (pow2_le_31 k Hk).
  unfold DiscreteGen.gather at 1. rewrite Harr, Hgather.
  - destruct (below_compare (2 * m) k a r us Hk Hla) as (ps & -> & Hc). cbn [mbind outcome_bind].
    rewrite (aliases_ok g k a l r Hok). cbn [mbind outcome_bind]. unfold DiscreteRealGen.reinterpret_ps.
    rewrite Hc. by rewrite (blend_slots k a l r us _ Hk Hla Hll Hl Hr Hus eq_refl).
  - apply Forall_fmap, Forall_true. intros x. pose proof (slot_bounds k x Hk). unfold compose. lia.
Qed.

End Packets.

Section Doubles.
Context {P R : Type} `{Num P} `{Libm P} `{UniformSource P R} `{Rng R} `{EigenConversions}.
Context `{EigenPackets} `{!EigenPacketLaws} `{PacketMath P}.
Context (rawbits : R → outcome (list Z * R)) (pblendv : list Z → list Z → list Z → list Z)
  (pgather : ∀ A, list A → list Z → outcome (list A)) (fx : features).
Context (Hblend : blends pblendv 2) (Hgather : gathers pgather).

Lemma avx_doubles {A} (a : list A) index : length index = 4%nat → Forall (λ i, 0 <= i < 2 ^ 31) index →
  AVX.pgather_doubles fx a index false = mapM (array_get a) index.
Proof.
  intros Hl Hi. unfold AVX.pgather_doubles. rewrite take_ge by lia.
  destruct (avx2 fx); [by apply signed_gathers|done].
Qed.

Lemma slot_indices k (r : list Z) : 1 <= k <= 31 → Forall (λ i, 0 <= i < 2 ^ 31) ((λ x, x mod 2 ^ k) <$> r).
Proof.
  intros Hk. pose proof (pow2_le_31 k Hk). apply Forall_fmap, Forall_true. intros x.
  pose proof (slot_bounds k x Hk). unfold compose. lia.
Qed.

Lemma avx_cdf `{!PacketMathLaws 4} (g : DiscreteRealGen.t P) us (rng rng' : R) :
  DiscreteRealGen.cdf g ≠ [] → Z.of_nat (length (DiscreteRealGen.cdf g)) < 2 ^ 32 →
  ur_packet rng = Ret (us, rng') → length us = 4%nat →
  DiscreteRealGen.packetOp_avx 4 rawbits pblendv pgather fx g rng =
    Ret (packet_count (DiscreteRealGen.cdf g) <$> us, rng').
Proof.
  intros Hne Hlen Hu Hus. unfold DiscreteRealGen.packetOp_avx. rewrite some_cdf, Hu by done.
  cbn [mbind outcome_bind]. rewrite (values_ok 2 g _ us); [done..|]. intros p.
  rewrite (packet_compare 4) by lia. apply avx_combine_masks. by rewrite length_fmap.
Qed.

Lemma avx_slots `{!PacketMathLaws 4} (g : DiscreteRealGen.t P) k a l r us (rng rng1 rng' : R) :
  DiscreteRealGen.cdf g = [] → table_ok (DiscreteRealGen.alias_table g) k a l →
  rawbits rng = Ret (r, rng1) → register 2 r → ur_packet rng1 = Ret (us, rng') → length us = 4%nat →
  DiscreteRealGen.packetOp_avx 4 rawbits pblendv pgather fx g rng =
    Ret (zip_with (slot_value k a l) r us, rng').
Proof.
  intros Hcdf Hok Hraw Hr Hu Hus. unfold DiscreteRealGen.packetOp_avx. rewrite no_cdf by done.
  rewrite (slots_ok 2 rawbits g k a l rng r rng1) by done. cbn [mbind outcome_bind]. rewrite Hu.
  cbn [mbind outcome_bind]. pose proof Hok as [Hk _ Harr _ [Hla Hll] Hl].
  pose proof (register_length _ _ Hr) as Hlr. unfold DiscreteRealGen.doubles. rewrite Harr, avx_doubles.
  - destruct (below_compare 4 k a r us Hk Hla) as (ps & -> & Hc). cbn [mbind outcome_bind].
    rewrite (aliases_ok pgather Hgather g k a l r Hok). cbn [mbind outcome_bind].
    rewrite Hc, avx_combine_masks by (rewrite length_zip_with, length_fmap; lia).
    by rewrite (blend_slots 2 pblendv Hblend k a l r us _ Hk Hla Hll Hl Hr Hus eq_refl).
  - rewrite length_fmap. lia.
  - by apply slot_indices.
Qed.

Lemma sse_cdf `{!PacketMathLaws 2} (g : DiscreteRealGen.t P) us1 us2 (rng rng1 rng' : R) :
  DiscreteRealGen.cdf g ≠ [] → Z.of_nat (length (DiscreteRealGen.cdf g)) < 2 ^ 32 →
  ur_packet rng = Ret (us1, rng1) → ur_packet rng1 = Ret (us2, rng') →
  length us1 = 2%nat → length us2 = 2%nat →
  DiscreteRealGen.packetOp_sse 4 rawbits pblendv pgather fx g rng =
    Ret (packet_count (DiscreteRealGen.cdf g) <$> us1 ++ us2, rng').
Proof.
  intros Hne Hlen Hu1 Hu2 Hl1 Hl2. unfold DiscreteRealGen.packetOp_sse. rewrite some_cdf, Hu1 by done.
  cbn [mbind outcome_bind]. rewrite Hu2. cbn [mbind outcome_bind].
  rewrite (values_ok 2 g _ (us1 ++ us2)); [done|rewrite length_app; lia|done|]. intros p. cbv zeta.
  rewrite !(packet_compare 2) by lia. rewrite sse_combine_masks by (by rewrite length_fmap).
  by rewrite (fmap_app (λ u, fltb u p)).
Qed.

Lemma sse_slots `{!PacketMathLaws 2} (g : DiscreteRealGen.t P) k a l r us1 us2 (rng rng1 rng2 rng' : R) :
  avx2 fx = false → DiscreteRealGen.cdf g = [] → table_ok (DiscreteRealGen.alias_table g) k a l →
  rawbits rng = Ret (r, rng1) → register 2 r →
  ur_packet rng1 = Ret (us1, rng2) → ur_packet rng2 = Ret (us2, rng') →
  length us1 = 2%nat → length us2 = 2%nat →
  DiscreteRealGen.packetOp_sse 4 rawbits pblendv pgather fx g rng =
    Ret (zip_with (slot_value k a l) r (us1 ++ us2), rng').
Proof.
  intros Hfx Hcdf Hok Hraw Hr Hu1 Hu2 Hl1 Hl2. unfold DiscreteRealGen.packetOp_sse. rewrite no_cdf by done.
  rewrite (slots_ok 2 rawbits g k a l rng r rng1) by done. cbn [mbind outcome_bind]. rewrite Hu1.
  cbn [mbind outcome_bind]. pose proof Hok as [Hk _ Harr _ [Hla Hll] Hl].
  pose proof (register_length _ _ Hr) as Hlr. unfold DiscreteRealGen.doubles, SSE.pgather_doubles.
  rewrite Harr, Hfx, <-fmap_take, <-fmap_drop.
  destruct (below_compare 2 k a (take 2 r) us1 Hk Hla) as (ps1 & -> & Hc1). cbn [mbind outcome_bind].
  rewrite Hu2. cbn [mbind outcome_bind].
  destruct (below_compare 2 k a (drop 2 r) us2 Hk Hla) as (ps2 & -> & Hc2). cbn [mbind outcome_bind].
  rewrite (aliases_ok pgather Hgather g k a l r Hok). cbn [mbind outcome_bind].
  rewrite Hc1, Hc2, sse_combine_masks by (rewrite length_zip_with, length_fmap, ?length_take, ?length_drop; lia).
  rewrite <-zip_with_app by (rewrite length_fmap, length_take; lia). rewrite <-fmap_app, take_drop.
  assert (length (us1 ++ us2) = (2 * 2)%nat) as Hus by (rewrite length_app; lia).
  by rewrite (blend_slots 2 pblendv Hblend k a l r (us1 ++ us2) _ Hk Hla Hll Hl Hr Hus eq_refl).
Qed.

End Doubles.

(** ** Exact arithmetic *)

Section Exact.
#[local] Open Scope R_scope.

(** Counting in a list in ascending order. *)
Lemma count_above l u : StronglySorted Rle l → ∀ j p, l !! j = Some p →
  (u < p ↔ (length l - length (List.filter (fltb u) l) <= j)%nat).
Proof.
  induction 1 as [|x l Hl IH Hx]; intros j p Hj; [done|]. cbn [List.filter].
  destruct (fltb u x) eqn:E.
  - apply R_fltb_true in E. assert (List.filter (fltb u) l = l) as ->.
    { clear IH Hj. induction Hx as [|y l Hy Hx IH]; [done|]. cbn [List.filter].
      inversion_clear Hl. rewrite (proj2 (R_fltb_true u y)) by lra. by rewrite IH. }
    cbn [length]. split; [lia|]. intros _. destruct j as [|j]; cbn in Hj; [by injection Hj as <-|].
    rewrite Forall_lookup in Hx.
    specialize (Hx j p Hj). lra.
  - apply R_fltb_false in E. pose proof (filter_length_le (fltb u) l) as Hle. cbn [length].
    destruct j as [|j]; cbn in Hj.
    + injection Hj as <-. split; [lra|lia].
    + rewrite (IH j p Hj). lia.
Qed.

Lemma count_under l u : StronglySorted Rle l → ∀ j p, l !! j = Some p →
  (p < u ↔ (j < length (List.filter (λ x, fltb x u) l))%nat).
Proof.
  induction 1 as [|x l Hl IH Hx]; intros j p Hj; [done|]. cbn [List.filter].
  destruct (fltb x u) eqn:E.
  - apply R_fltb_true in E. cbn [length]. destruct j as [|j]; cbn in Hj.
    + injection Hj as <-. split; [lia|done].
    + rewrite (IH j p Hj). lia.
  - apply R_fltb_false in E. assert (List.filter (λ x, fltb x u) l = []) as ->.
    { clear IH Hj. induction Hx as [|y l Hy Hx IH]; [done|]. cbn [List.filter].
      inversion_clear Hl. rewrite (proj2 (R_fltb_false y u)) by lra. by apply IH. }
    cbn [length]. split; [|lia]. intros Hp. exfalso. destruct j as [|j]; cbn in Hj; [injection Hj as <-; lra|].
    rewrite Forall_lookup in Hx. specialize (Hx j p Hj). lra.
Qed.

(** The share of the first [i] weights. *)
Definition share (w : list R) (i : nat) : R := rsum (take i w) / rsum w.

Definition shares (w : list R) : list R := (λ i, share w (S i)) <$> seq 0 (length w).

Lemma share_le w i j : Forall (Rle 0) w → 0 < rsum w → (i <= j)%nat → share w i <= share w j.
Proof.
  intros Hw Hpos Hij. unfold share, Rdiv. apply Rmult_le_compat_r; [|by apply rsum_take_le].
  left. by apply Rinv_0_lt_compat.
Qed.

Lemma shares_sorted w : Forall (Rle 0) w → 0 < rsum w → StronglySorted Rle (shares w).
Proof.
  intros Hw Hpos. unfold shares. generalize 0%nat. generalize (length w).
  induction n as [|n IH]; intros k; cbn [seq fmap list_fmap]; constructor; [apply IH|].
  apply Forall_fmap, Forall_forall. intros i Hi%elem_of_seq. cbn. apply share_le; [done..|lia].
Qed.

Lemma shares_lookup w i : (i < length w)%nat → shares w !! i = Some (share w (S i)).
Proof. intros Hi. unfold shares. by rewrite list_lookup_fmap, lookup_seq_lt by done. Qed.

(** The constructor on fewer than 16 weights. *)
Lemma create_shares `{CeilLog2} w : w ≠ [] → (length w < 16)%nat →
  DiscreteRealGen.create (λ x, x) w = Ret (DiscreteRealGen.mk (shares w) AliasMethod.create).
Proof.
  intros Hne Hlen. unfold DiscreteRealGen.create. rewrite (proj2 (Z.ltb_lt _ _)) by lia. cbv zeta.
  do 2 f_equal. apply list_eq. intros i.
  destruct (decide (i < length w)%nat) as [Hi|Hi].
  - rewrite shares_lookup, list_lookup_fmap by done. change (of_Z 0) with 0.
    rewrite running_sums_lookup by done. cbn [fmap option_fmap option_map]. f_equal. unfold share.
    rewrite running_sums_last by done. cbn. by rewrite !Rplus_0_l.
  - rewrite !lookup_ge_None_2; [done|unfold shares; rewrite length_fmap, length_seq; lia|].
    rewrite length_fmap, running_sums_length. lia.
Qed.

Lemma share_0 w : share w 0 = 0.
Proof. unfold share. rewrite take_0. unfold rsum at 1, Rdiv. cbn. ring. Qed.
Lemma share_all w : 0 < rsum w → share w (length w) = 1.
Proof. intros Hpos. unfold share. rewrite take_ge by lia. field. lra. Qed.

Lemma shares_length w : length (shares w) = length w.
Proof. unfold shares. by rewrite length_fmap, length_seq. Qed.

(** The value that the packets draw, and the one of the scalar call. *)
Lemma packet_share w u : w ≠ [] → Forall (Rle 0) w → 0 < rsum w → 0 <= u < 1 →
  ∃ i, packet_count (shares w) u = Z.of_nat i ∧ (i < length w)%nat ∧ share w i <= u < share w (S i).
Proof.
  intros Hne Hw Hpos Hu. pose proof (count_above (shares w) u (shares_sorted w Hw Hpos)) as Hc.
  pose proof (filter_length_le (fltb u) (shares w)) as Hle. unfold packet_count.
  rewrite shares_length in *. set (c := length (List.filter (fltb u) (shares w))) in *.
  assert (0 < length w)%nat as Hlen by (destruct w; [done|cbn; lia]).
  assert (length w - c <= length w - 1)%nat as Hlast.
  { apply (Hc _ (share w (S (length w - 1)))); [apply shares_lookup; lia|].
    replace (S (length w - 1)) with (length w) by lia. rewrite share_all by done. lra. }
  exists (length w - c)%nat. split; [lia|]. split; [lia|]. split.
  - destruct (length w - c)%nat as [|j] eqn:E; [rewrite share_0; lra|].
    apply Rnot_lt_le. rewrite (Hc j) by (apply shares_lookup; lia). lia.
  - apply (Hc (length w - c)%nat); [apply shares_lookup; lia|lia].
Qed.

Lemma scalar_share w u : w ≠ [] → Forall (Rle 0) w → 0 < rsum w → 0 <= u < 1 →
  ∃ i, scalar_count (shares w) u = Z.of_nat i ∧ (i < length w)%nat ∧
    (i = 0%nat ∨ share w i < u) ∧ u <= share w (S i).
Proof.
  intros Hne Hw Hpos Hu. assert (0 < length w)%nat as Hlen by (destruct w; [done|cbn; lia]).
  unfold scalar_count. rewrite shares_length. set (l := take (length w - 1) (shares w)).
  assert (StronglySorted Rle l) as Hs.
  { pose proof (shares_sorted w Hw Hpos) as Hs. rewrite <-(take_drop (length w - 1) (shares w)) in Hs.
    by apply StronglySorted_app_1_l in Hs. }
  assert (length l = length w - 1)%nat as Hl by (unfold l; rewrite length_take, shares_length; lia).
  pose proof (count_under l u Hs) as Hc. pose proof (filter_length_le (λ x, fltb x u) l) as Hle.
  set (c := length (List.filter _ l)) in *.
  assert (∀ j, (j < length w - 1)%nat → l !! j = Some (share w (S j))) as Hj.
  { intros j Hj. unfold l. rewrite lookup_take_lt by lia. apply shares_lookup. lia. }
  exists c. split; [done|]. split; [lia|]. split.
  - destruct c as [|j] eqn:E; [by left|]. right. apply (Hc j); [apply Hj; lia|lia].
  - destruct (decide (c < length w - 1)%nat) as [Hlt|Hge].
    + apply Rnot_lt_le. rewrite (Hc c) by (by apply Hj). lia.
    + replace (S c) with (length w) by lia. rewrite share_all by done. lra.
Qed.

End Exact.

(** [DiscreteGen] with [float] or [double] precision on fewer than 16 weights, not
    negative and not all zero, over exact arithmetic: the constructor stores the
    shares of the weights, and from a number [u] of the engine the packet
    operation draws in each lane the value [i] with [share i <= u < share (i + 1)],
    which inverts the distribution function of the weights, so that no value of
    weight zero is drawn.  The scalar call draws the value with
    [share i < u <= share (i + 1)], the same but at the bounds: for [u = 0] it
    draws the first value even if its weight is zero. *)
Theorem discrete_real_exact {St} `{CeilLog2} `{UniformSource R St} `{Rng St} `{EigenConversions}
    `{EigenPackets} `{!EigenPacketLaws} `{PacketMath R} m `{!PacketMathLaws (2 * m)}
    (rawbits : St → outcome (list Z * St)) pblendv pgather w :
  w ≠ [] → (length w < 16)%nat → Forall (Rle 0) w → (0 < rsum w)%R →
  ∃ g, DiscreteRealGen.create (λ x, x) w = Ret g ∧
    (∀ rng us rng', ur_packet rng = Ret (us, rng') → length us = (2 * m)%nat →
       Forall (λ u, 0 <= u < 1)%R us →
       ∃ xs, DiscreteRealGen.packetOp_float (2 * m) rawbits pblendv pgather g rng = Ret (xs, rng') ∧
         Forall2 (λ u x, ∃ i, x = Z.of_nat i ∧ (i < length w)%nat ∧ (share w i <= u < share w (S i))%R) us xs) ∧
    (∀ rng u rng', ur rng = Ret (u, rng') → (0 <= u < 1)%R →
       ∃ i, DiscreteRealGen.call g rng = Ret (Z.of_nat i, rng') ∧ (i < length w)%nat ∧
         (i = 0%nat ∨ share w i < u)%R ∧ (u <= share w (S i))%R).
Proof.
  intros Hne Hlen Hw Hpos. exists (DiscreteRealGen.mk (shares w) AliasMethod.create).
  split; [by apply create_shares|].
  assert (shares w ≠ []) as Hcdf.
  { intros Hnil. apply (f_equal length) in Hnil. rewrite shares_length in Hnil. by destruct w. }
  split.
  - intros rng us rng' Hu Hl Hus. exists (packet_count (shares w) <$> us). split.
    + apply float_cdf; [apply _|done| |done..]. cbn [DiscreteRealGen.cdf]. rewrite shares_length. lia.
    + apply Forall2_fmap_r, Forall_Forall2_diag. eapply Forall_impl; [exact Hus|]. cbv beta.
      intros u Hu1. by apply packet_share.
  - intros rng u rng' Hu Hu1. destruct (scalar_share w u Hne Hw Hpos Hu1) as (i & Hi & Hlt & Hs).
    exists i. split; [|done]. rewrite <-Hi. by apply scalar_cdf.
Qed.

(** With an alias table, the scalar call and the packet operations, with [float]
    precision, with [double] precision on one packet of four numbers (AVX) and on
    two packets of two (SSE), draw by the same rule from a random word and a
    number: the word chooses a slot, and the number between the slot and its
    alias.  In the SSE variant the first packet of numbers goes with the lower
    half of the words and the second with the upper half. *)
Theorem discrete_real_slots {P St} `{Num P} `{Libm P} `{UniformSource P St} `{Rng St} `{EigenConversions}
    `{EigenPackets} `{!EigenPacketLaws} `{PacketMath P} fx (rawbits : St → outcome (list Z * St))
    pblendv pgather (g : DiscreteRealGen.t P) k a l (rng rng1 : St) :
  blends pblendv 2 → gathers pgather →
  DiscreteRealGen.cdf g = [] → table_ok (DiscreteRealGen.alias_table g) k a l →
  (∀ x u rng', rng_call rng = Ret (x, rng1) → ur rng1 = Ret (u, rng') →
     DiscreteRealGen.call g rng = Ret (slot_value k a l (pfirst x) u, rng')) ∧
  ∀ r, rawbits rng = Ret (r, rng1) → register 2 r →
    (∀ us rng', PacketMathLaws (F := P) 4 → ur_packet rng1 = Ret (us, rng') → length us = 4%nat →
       DiscreteRealGen.packetOp_float 4 rawbits pblendv pgather g rng =
         Ret (zip_with (slot_value k a l) r us, rng') ∧
       DiscreteRealGen.packetOp_avx 4 rawbits pblendv pgather fx g rng =
         Ret (zip_with (slot_value k a l) r us, rng')) ∧
    (∀ us1 us2 rng2 rng', PacketMathLaws (F := P) 2 → avx2 fx = false →
       ur_packet rng1 = Ret (us1, rng2) → ur_packet rng2 = Ret (us2, rng') →
       length us1 = 2%nat → length us2 = 2%nat →
       DiscreteRealGen.packetOp_sse 4 rawbits pblendv pgather fx g rng =
         Ret (zip_with (slot_value k a l) r (us1 ++ us2), rng')).
Proof.
  intros Hblend Hgather Hcdf Hok. split; [intros; by eapply scalar_slot|].
  intros r Hraw Hr. split.
  - intros us rng' Hlaws Hu Hl. split.
    + eapply (float_slots 2); done.
    + by eapply avx_slots.
  - intros us1 us2 rng2 rng' Hlaws Hfx Hu1 Hu2 Hl1 Hl2. by eapply sse_slots.
Qed.

#[local] Instance exact_precision : Precision R R := floating_precision (λ x, x).

(** From 16 weights on, not negative and not all zero, the constructor makes an
    alias table that draws each value with exactly the share of its weight: the
    probability [q j] of each slot is stored as it is, so that over uniform words
    and numbers a value has the probability [w_i / sum w]. *)
Theorem discrete_real_alias `{CeilLog2} `{!CeilLog2Laws} w :
  (16 <= Z.of_nat (length w) <= 2 ^ 31)%Z → Forall (Rle 0) w → (0 < rsum w)%R →
  let k := Z.log2_up (Z.of_nat (length w)) in
  let N := Z.to_nat (2 ^ k) in
  ∃ g a q t, DiscreteRealGen.create (λ x, x) w = Ret g ∧ DiscreteRealGen.cdf g = [] ∧
    table_ok (DiscreteRealGen.alias_table g) k a (Z.of_nat ∘ t <$> seq 0 N) ∧
    (∀ x u, let j := Z.to_nat (x mod 2 ^ k) in
       slot_value k a (Z.of_nat ∘ t <$> seq 0 N) x u = Z.of_nat (if fltb u (q j) then j else t j)) ∧
    ∀ i, (i < N)%nat → draw_probability N q t i = (nth i w 0 / rsum w)%R.
Proof.
  intros Hn Hw Hpos k N.
  destruct (of_weights_ok (P := R) w)
    as (Hk & s & a & q & t & Hb & Hbm & Ha & Hl & Hla & Hslots & Hdraw); try done.
  { intros x _. by exists x. }
  { lia. }
  fold k in Hk, Hbm. fold k N in Hl, Hla, Hslots, Hdraw. pose proof (pow2_le_31 k Hk) as Hp2.
  exists (DiscreteRealGen.mk [] (AliasMethod.assign_move AliasMethod.create s).1), a, q, t.
  assert (∀ j, (j < N)%nat → a !! j = Some (q j)) as Haq.
  { intros j Hj. destruct (Hslots j Hj) as (_ & _ & p & -> & Hst). f_equal.
    destruct Hst as [[_ Hst]|[Hq Hst]]; [by injection Hst|rewrite Hst, Hq; done]. }
  split_and!.
  - unfold DiscreteRealGen.create. rewrite (proj2 (Z.ltb_ge _ _)) by lia.
    unfold DiscreteRealGen.real_precision, exact_precision in *. by rewrite Hb.
  - done.
  - split; cbn [DiscreteRealGen.alias_table AliasMethod.assign_move fst AliasMethod.get_bitmask AliasMethod.bitmask
      AliasMethod.arr AliasMethod.alias]; try done.
    + rewrite length_fmap, length_seq. unfold N in *. lia.
    + apply Forall_fmap, Forall_lookup. intros i j Hj. apply lookup_seq in Hj as [-> Hj].
      destruct (Hslots (0 + i)%nat Hj) as (_ & Ht & _). unfold compose. unfold N in Ht. lia.
  - intros x u j. assert (j < N)%nat as Hj.
    { pose proof (slot_bounds k x Hk). unfold j, N. lia. }
    unfold slot_value. fold j. rewrite (Haq j Hj). cbn [below]. destruct (fltb u (q j)).
    + pose proof (slot_bounds k x Hk). unfold j. lia.
    + unfold lane. fold j. apply nth_lookup_Some. by rewrite list_lookup_fmap, lookup_seq_lt.
  - exact Hdraw.
Qed.

(** ** Witnesses

    An engine given by the words and the numbers to come. *)

#[local] Instance words_rng : Rng (list random * list R) := {|
  rng_call s := match s with (x :: l, u) => Ret (x, (l, u)) | _ => Undef null_dereference end;
  rng_half s := Undef null_dereference;
|}.
#[local] Instance numbers : UniformSource R (list random * list R) :=
  let one s := match s with (l, u :: us) => Ret (u, (l, us)) | _ => Undef null_dereference end in
  let packet s :=
    match s with (l, us) =>
      if (4 <=? length us)%nat then Ret (take 4 us, (l, drop 4 us)) else Undef null_dereference
    end in
  {| ur := one; nzur := one; ur_packet := packet; nzur_packet := packet |}.
Definition next_words (s : list random * list R) : outcome (list Z * (list random * list R)) :=
  '(x, s) ← rng_call s; Ret (as_packet x, s).
#[local] Existing Instance instructions.
#[local] Existing Instance instructions_laws.
#[local] Instance lane_conversions : EigenConversions :=
  {| pfirst_packet r := signed 32 (lane r 0); pcast l := replicate (length l) 0 |}.
#[local] Instance exact_trig : Trig R := { fsin := sin; fcos := cos; ftan := tan; M_E := exp 1 }.
#[local] Instance four_lanes : PacketMath R := lane_packets 4.
#[local] Instance four_lanes_laws : PacketMathLaws 4 := lane_packets_laws 4.
#[local] Existing Instance exact_log2.
#[local] Existing Instance exact_log2_laws.

Definition quarters : list R := [0; / 4; / 2; 3 / 4]%R.

Lemma discrete_real_exact_witness :
  ∃ g xs, DiscreteRealGen.create (λ x, x) [1; 2; 0]%R = Ret g ∧
    DiscreteRealGen.packetOp_float 4 next_words (SSE.pblendv (mk_features true true true true))
      (@SSE.pgather (mk_features true true true true)) g ([], quarters) = Ret (xs, ([], [])).
Proof.
  destruct (discrete_real_exact 2 next_words (SSE.pblendv (mk_features true true true true))
    (@SSE.pgather (mk_features true true true true)) [1; 2; 0]%R) as (g & Hg & Hp & _).
  - done.
  - cbn. lia.
  - repeat constructor; lra.
  - unfold rsum. cbn. lra.
  - destruct (Hp ([], quarters) quarters ([], []) eq_refl eq_refl) as (xs & Hx & _).
    + repeat constructor; cbn; lra.
    + exists g, xs. split; [exact Hg|exact Hx].
Defined.

(** A table of two slots, each its own alias. *)
Definition two_slots : DiscreteRealGen.t R :=
  DiscreteRealGen.mk [] (AliasMethod.mk (Some [/ 2; / 3]%R) (Some [Some 1; Some 0]) 2 1 1).

Lemma two_slots_ok : table_ok (DiscreteRealGen.alias_table two_slots) 1 [/ 2; / 3]%R [1; 0].
Proof. split; cbn; try done. repeat constructor; lia. Qed.

Lemma discrete_real_slots_witness :
  DiscreteRealGen.packetOp_float 4 next_words (SSE.pblendv (mk_features true true true true))
    (@SSE.pgather (mk_features true true true true)) two_slots ([packet_result [0; 1; 2; 3]], quarters) =
    Ret (zip_with (slot_value 1 [/ 2; / 3]%R [1; 0]) [0; 1; 2; 3] quarters, ([], [])).
Proof.
  destruct (discrete_real_slots (mk_features true true true true) next_words
    (SSE.pblendv (mk_features true true true true)) (@SSE.pgather (mk_features true true true true))
    two_slots 1 [/ 2; / 3]%R [1; 0] ([packet_result [0; 1; 2; 3]], quarters) ([], quarters)) as [_ Hp];
    [apply sse_blends|apply sse_gathers|done|apply two_slots_ok|].
  destruct (Hp [0; 1; 2; 3] eq_refl) as [Hf _].
  - split; [done|]. repeat constructor; unfold word; lia.
  - apply (Hf quarters ([], []) four_lanes_laws eq_refl eq_refl).
Defined.

Lemma discrete_real_alias_witness : ∃ g,
  DiscreteRealGen.create (λ x, x) (replicate 16 1%R) = Ret g ∧
  AliasMethod.get_bitmask (DiscreteRealGen.alias_table g) = 15.
Proof.
  destruct (discrete_real_alias (replicate 16 1%R)) as (g & a & q & t & Hg & _ & Ht & _).
  - cbn. lia.
  - repeat constructor; lra.
  - unfold rsum. cbn. lra.
  - exists g. split; [exact Hg|exact (table_mask _ _ _ _ Ht)].
Defined.
