(* ===== verification/Poisson.v ===== *)
(** EigenRand/Dists/Discrete.h: [PoissonGen], [BinomialGen] and [GeometricGen],
    each with its scalar call and its packet operation, over any arithmetic for
    [float] ([P], the uniform numbers and the packets) and for [double] ([D], the
    parameters and the scalar calls). *)

From S2P Require Import Prelude.
From S2P Require Import Simd.
From S2P Require Import PacketMath.
From S2P Require Import Num.
From S2P Require Import Reject.
From S2P Require Import Discrete.
From S2P Require Import DiscreteReal.

#[local] Open Scope num_scope.

(** ** Interfaces *)

(** The conversions between [float] and [double]. *)
Class FloatDouble (P D : Type) := { widen : P → D; narrow : D → P }.

(** [std::lgamma]. *)
Class Lgamma (F : Type) := { flgamma : F → F }.

(** [ptruncate], [pcast] from numbers to integers and back, [pmin], [pcmpeq]
    and [pnegate] on integers. *)
Class PacketCast (P : Type) := {
  ptruncate : list P → list P;
  pcast_int : list P → list Z;
  pcast_float : list Z → list P;
  pmin : list P → list P → list P;
  pcmpeq : list P → list P → list bool;
  pnegate_int : list Z → list Z;
}.

(** Truncation and the conversion to an integer are specified where the result
    is an [int]. *)
Class PacketCastLaws {P} (n : nat) `{Num P} `{PacketCast P} := {
  ptruncate_length : ∀ a, length (ptruncate a) = length a;
  ptruncate_lane : ∀ a i x z, a !! i = Some x → ftrunc x = Some z → in_int z = true →
    ∃ y, ptruncate a !! i = Some y ∧ fleb y (of_Z z) = true ∧ fleb (of_Z z) y = true;
  pcast_int_length : ∀ a, length (pcast_int a) = length a;
  pcast_int_lane : ∀ a i x z, a !! i = Some x → ftrunc x = Some z → in_int z = true →
    pcast_int a !! i = Some (u32 z);
  pcast_float_lanes : ∀ a, Forall (word 32) a → pcast_float a = (λ w, of_Z (signed 32 w)) <$> a;
  pmin_lanes : ∀ a b, pmin a b = zip_with fmin a b;
  pcmpeq_lanes : ∀ a b, pcmpeq a b = zip_with feq a b;
  pnegate_int_lanes : ∀ a, Forall (word 32) a → pnegate_int a = (λ w, u32 (- w)) <$> a;
}.

(** [plgamma_approx] of MorePacketMath.h. *)
Section Lgamma.
Context {P : Type} `{Num P} `{PacketMath P}.

(** The literal [0.9189385332046727], [m / 2 ^ 53] in binary64. *)
Definition half_ln_2pi (D : Type) `{Num D} : D := of_Z 8277062471433908 / of_Z (2 ^ 53).

Context {D : Type} `{Num D} `{FloatDouble P D}.

Definition plgamma_approx (x : list P) : list P :=
  let x_3 := padd x (pset1 (of_Z 3)) in
  let ret := pmul (padd x_3 (pset1 (narrow (- half)))) (plog x_3) in
  let ret := psub ret x_3 in
  let ret := padd ret (pset1 (narrow (half_ln_2pi D))) in
  let ret := padd ret (pdiv (pset1 (narrow (of_Z 1 / of_Z 12))) x_3) in
  psub ret (plog (pmul (pmul (psub x_3 (pset1 (of_Z 1))) (psub x_3 (pset1 (of_Z 2)))) x)).

End Lgamma.

(** ** PoissonGen *)

Module PoissonGen.

Record t (P D : Type) :=
  mk { cache : queue P; mean : D; ne_mean : D; sqrt_tmean : D; log_mean : D; g1 : D }.
#[global] Arguments mk {P D} _ _ _ _ _ _.
#[global] Arguments cache {P D} _.
#[global] Arguments mean {P D} _.
#[global] Arguments ne_mean {P D} _.
#[global] Arguments sqrt_tmean {P D} _.
#[global] Arguments log_mean {P D} _.
#[global] Arguments g1 {P D} _.

(** [for (; ; ++res) { val *= ur(rng); if (val <= ne_mean) break; }], for [val] of
    type [V]. *)
Section Small.
Context {P V R : Type} `{Num V} `{UniformSource P R} (cast : P → V).

Fixpoint small_loop (fuel : nat) (ne_mean : V) (res : Z) (val : V) (rng : R) : outcome (Z * R) :=
  match fuel with
  | O => OutOfFuel
  | S fuel =>
      '(u, rng) ← ur rng;
      let val := val * cast u in
      if val <=? ne_mean then Ret (res, rng)
      else res ← int_add res 1; small_loop fuel ne_mean res val rng
  end.

End Small.

Section Code.
Context {P D R : Type} `{Num P} `{Num D} `{Libm D} `{Trig D} `{Lgamma D} `{FloatDouble P D}
  `{PacketMath P} `{PacketCast P} `{EigenPackets} `{UniformSource P R}.

Definition create (lanes : nat) (_mean : D) : t P D :=
  let log_mean := flog _mean in
  mk (mk_queue (replicate lanes (of_Z 0)) 0) _mean (fexp (- _mean)) (fsqrt (of_Z 2 * _mean)) log_mean
    (_mean * log_mean - flgamma (_mean + of_Z 1)).

(** The candidate and the bound of a trial for a mean from 12 on. *)
Definition large_candidate (g : t P D) (yx : D) : outcome Z :=
  real_to_int (sqrt_tmean g * yx + mean g).
Definition large_bound (g : t P D) (yx : D) (res : Z) : D :=
  of_Z 9 / of_Z 10 * (of_Z 1 + yx * yx) *
  fexp (of_Z res * log_mean g - flgamma (of_Z res + of_Z 1) - g1 g).
Definition large_trial (g : t P D) (rng : R) : outcome (option Z * R) :=
  '(u, rng) ← ur rng;
  let yx := ftan (M_PI * widen u) in
  res ← large_candidate g yx;
  if (0 <=? res)%Z then
    '(u, rng) ← ur rng;
    Ret (if widen u <=? large_bound g yx res then Some res else None, rng)
  else Ret (None, rng).

Definition call (fuel : nat) (g : t P D) (rng : R) : outcome (Z * R) :=
  if mean g <? of_Z 12 then small_loop widen fuel (ne_mean g) 0 (of_Z 1) rng
  else until_accepted (large_trial g) fuel rng.

(** The loop of the packet operation for a small mean. *)
Fixpoint small_packet (fuel : nat) (pne_mean : list P) (res : list Z) (val : list P) (rng : R) :
    outcome (list Z * R) :=
  match fuel with
  | O => OutOfFuel
  | S fuel =>
      '(u, rng) ← ur_packet rng;
      let val := pmul val u in
      let c := DiscreteRealGen.reinterpret_ps (pcmplt pne_mean val) in
      if (movemask_ps c =? 0)%Z then Ret (res, rng)
      else small_packet fuel pne_mean (PacketMath.padd res (pnegate_int c)) val rng
  end.

(** A trial of packets for a mean of each lane, with what follows from it. *)
Definition large_packet (psqrt_tmean pmean plog_mean pg1 : list P) (rng : R) :
    outcome (list P * list bool * R) :=
  let ppi := pset1 (narrow M_PI) in
  '(u, rng) ← ur_packet rng;
  let '(ps, pc) := psincos (pmul ppi u) in
  let yx := pdiv ps pc in
  let fres := ptruncate (padd (pmul psqrt_tmean yx) pmean) in
  let p1 := pmul (padd (pmul yx yx) (pset1 (of_Z 1))) (pset1 (narrow (of_Z 9 / of_Z 10))) in
  let p2 := pexp (psub (psub (pmul fres plog_mean) (plgamma_approx (padd fres (pset1 (of_Z 1))))) pg1) in
  let c1 := pcmple (pset1 (of_Z 0)) fres in
  '(u, rng) ← ur_packet rng;
  let c2 := pcmple u (pmul p1 p2) in
  Ret (fres, pand_mask c1 c2, rng).

Definition with_cache (g : t P D) (q : queue P) : t P D :=
  mk q (mean g) (ne_mean g) (sqrt_tmean g) (log_mean g) (g1 g).

Definition packetOp `{PacketFilter P} (lanes fuel : nat) (g : t P D) (rng : R) :
    outcome (list Z * t P D * R) :=
  if mean g <? of_Z 12 then
    '(res, rng) ← small_packet fuel (pset1 (narrow (ne_mean g))) (PacketMath.pset1 lanes 0) (pset1 (of_Z 1)) rng;
    Ret (res, g, rng)
  else
    '(cands, q, rng) ← until_full
      (large_packet (pset1 (narrow (sqrt_tmean g))) (pset1 (narrow (mean g)))
        (pset1 (narrow (log_mean g))) (pset1 (narrow (g1 g)))) fuel (cache g) rng;
    Ret (pcast_int cands, with_cache g q, rng).

End Code.
End PoissonGen.

(** ** BinomialGen *)

Module BinomialGen.

Record t (P D : Type) := mk {
  poisson : PoissonGen.t P D;
  trials : Z;
  p : D;
  small_p : D;
  g1 : D;
  sqrt_v : D;
  log_small_p : D;
  log_small_q : D;
}.
#[global] Arguments mk {P D} _ _ _ _ _ _ _ _.
#[global] Arguments poisson {P D} _.
#[global] Arguments trials {P D} _.
#[global] Arguments p {P D} _.
#[global] Arguments small_p {P D} _.
#[global] Arguments g1 {P D} _.
#[global] Arguments sqrt_v {P D} _.
#[global] Arguments log_small_p {P D} _.
#[global] Arguments log_small_q {P D} _.

(** [for (int i = 0; i < trials; ++i) { if (ur(rng) < p) ++res; }], where the
    numbers are compared as [V]; the rounds are the fuel. *)
Section Small.
Context {P V R : Type} `{Num V} `{UniformSource P R} (cast : P → V).

Fixpoint trial_loop (p : V) (rounds : nat) (res : Z) (rng : R) : outcome (Z * R) :=
  match rounds with
  | O => Ret (res, rng)
  | S rounds =>
      '(u, rng) ← ur rng;
      res ← (if cast u <? p then int_add res 1 else Ret res);
      trial_loop p rounds res rng
  end.

End Small.

Section Code.
Context {P D R : Type} `{Num P} `{Num D} `{Libm D} `{Trig D} `{Lgamma D} `{FloatDouble P D}
  `{PacketMath P} `{PacketCast P} `{EigenPackets} `{UniformSource P R}.

Definition is_small (trials : Z) (mean : D) : bool := (trials <? 25)%Z || (mean <? of_Z 1).

Definition create (lanes : nat) (_trials : Z) (_p : D) : outcome (t P D) :=
  let poisson := PoissonGen.create lanes (of_Z _trials * fmin _p (of_Z 1 - _p)) in
  let small_p := fmin _p (of_Z 1 - _p) in
  if is_small _trials (PoissonGen.mean poisson) then
    Ret (mk poisson _trials _p small_p (of_Z 0) (of_Z 0) (of_Z 0) (of_Z 0))
  else
    n ← int_add _trials 1;
    Ret (mk poisson _trials _p small_p (flgamma (of_Z n))
      (fsqrt (of_Z 2 * PoissonGen.mean poisson * (of_Z 1 - small_p)))
      (flog small_p) (flog (of_Z 1 - small_p))).

Definition large_bound (g : t P D) (ys : D) (res : Z) : D :=
  of_Z 12 / of_Z 10 * sqrt_v g * (of_Z 1 + ys * ys) *
  fexp (g1 g - flgamma (of_Z (res + 1)) - flgamma (of_Z (trials g - res) + of_Z 1)
        + of_Z res * log_small_p g + of_Z (trials g - res) * log_small_q g).
Definition large_trial (g : t P D) (rng : R) : outcome (option Z * R) :=
  '(u, rng) ← ur rng;
  let ys := ftan (M_PI * widen u) in
  res ← real_to_int (sqrt_v g * ys + PoissonGen.mean (poisson g));
  if ((0 <=? res) && (res <=? trials g))%Z then
    '(u, rng) ← ur rng;
    Ret (if widen u <=? large_bound g ys res then Some res else None, rng)
  else Ret (None, rng).

(** [return p == small_p ? res : trials - res]. *)
Definition reflect (g : t P D) (res : Z) : outcome Z :=
  if feq (p g) (small_p g) then Ret res else int_sub (trials g) res.

Definition call (fuel : nat) (g : t P D) (rng : R) : outcome (Z * R) :=
  if (trials g <? 25)%Z then trial_loop widen (p g) (Z.to_nat (trials g)) 0 rng
  else
    '(res, rng) ← (if PoissonGen.mean (poisson g) <? of_Z 1 then PoissonGen.call fuel (poisson g) rng
                   else until_accepted (large_trial g) fuel rng);
    res ← reflect g res;
    Ret (res, rng).

(** The loop of the packet operation for few trials. *)
Fixpoint trial_packets (pp : list P) (rounds : nat) (res : list Z) (rng : R) : outcome (list Z * R) :=
  match rounds with
  | O => Ret (res, rng)
  | S rounds =>
      '(u, rng) ← ur_packet rng;
      let c := DiscreteRealGen.reinterpret_ps (pcmple pp u) in
      trial_packets pp rounds (PacketMath.padd res c) rng
  end.

(** A trial of packets, for the parameters of each lane. *)
Definition large_packet (ptrials psqrt_v pmean plog_small_p plog_small_q pg1 : list P) (rng : R) :
    outcome (list P * list bool * R) :=
  let ppi := pset1 (narrow M_PI) in
  '(u, rng) ← ur_packet rng;
  let '(ps, pc) := psincos (pmul ppi u) in
  let ys := pdiv ps pc in
  let fres := ptruncate (padd (pmul psqrt_v ys) pmean) in
  let p1 := pmul (pmul (pset1 (narrow (of_Z 12 / of_Z 10))) psqrt_v)
              (padd (pset1 (of_Z 1)) (pmul ys ys)) in
  let p2 := pexp (padd (padd (psub
              (psub pg1 (plgamma_approx (padd fres (pset1 (of_Z 1)))))
              (plgamma_approx (psub (padd ptrials (pset1 (of_Z 1))) fres)))
              (pmul fres plog_small_p)) (pmul (psub ptrials fres) plog_small_q)) in
  let c1 := pand_mask (pcmple (pset1 (of_Z 0)) fres) (pcmple fres ptrials) in
  '(u, rng) ← ur_packet rng;
  let c2 := pcmple u (pmul p1 p2) in
  Ret (fres, pand_mask c1 c2, rng).

Definition with_poisson (g : t P D) (q : PoissonGen.t P D) : t P D :=
  mk q (trials g) (p g) (small_p g) (g1 g) (sqrt_v g) (log_small_p g) (log_small_q g).

Definition packetOp `{PacketFilter P} (lanes fuel : nat) (g : t P D) (rng : R) :
    outcome (list Z * t P D * R) :=
  let ptrials := PacketMath.pset1 lanes (u32 (trials g)) in
  if (trials g <? 25)%Z then
    '(res, rng) ← trial_packets (pset1 (narrow (p g))) (Z.to_nat (trials g)) ptrials rng;
    Ret (res, g, rng)
  else
    '(res, g, rng) ←
      (if PoissonGen.mean (poisson g) <? of_Z 1 then
         '(res, q, rng) ← PoissonGen.packetOp lanes fuel (poisson g) rng;
         Ret (res, with_poisson g q, rng)
       else
         '(cands, q, rng) ← until_full
           (large_packet (pset1 (of_Z (trials g))) (pset1 (narrow (sqrt_v g)))
             (pset1 (narrow (PoissonGen.mean (poisson g)))) (pset1 (narrow (log_small_p g)))
             (pset1 (narrow (log_small_q g))) (pset1 (narrow (g1 g))))
           fuel (PoissonGen.cache (poisson g)) rng;
         Ret (pcast_int cands, with_poisson g (PoissonGen.with_cache (poisson g) q), rng));
    Ret (if feq (p g) (small_p g) then res else PacketMath.psub ptrials res, g, rng).

End Code.
End BinomialGen.

(** ** GeometricGen *)

Module GeometricGen.

Record t (D : Type) := mk { p : D; rlog_q : D }.
#[global] Arguments mk {D} _ _.
#[global] Arguments p {D} _.
#[global] Arguments rlog_q {D} _.

Section Code.
Context {P D R : Type} `{Num P} `{Libm P} `{Num D} `{Libm D} `{FloatDouble P D}
  `{PacketMath P} `{PacketCast P} `{UniformSource P R}.

Definition create (_p : D) : t D := mk _p (of_Z 1 / flog (of_Z 1 - _p)).

Definition call (g : t D) (rng : R) : outcome (Z * R) :=
  '(u, rng) ← ur rng;
  res ← real_to_int (widen (flog (of_Z 1 - u)) * rlog_q g);
  Ret (res, rng).

Definition packetOp (g : t D) (rng : R) : outcome (list Z * R) :=
  '(u, rng) ← ur_packet rng;
  Ret (pcast_int (ptruncate (pmul (plog (psub (pset1 (of_Z 1)) u)) (pset1 (narrow (rlog_q g))))), rng).

End Code.
End GeometricGen.
