(* ===== verification/BinomialV.v ===== *)
(** EigenRand/Dists/Discrete.h: [BinomialVGen], with a number of trials and a
    probability for each number drawn, on [int32_t] and on [float] whose bits are
    those of the [int32_t]s.  EigenRand/Dists/GammaPoisson.h:
    [NegativeBinomialGen]. *)

From S2P Require Import Prelude.
From S2P Require Import Simd.
From S2P Require Import PacketMath.
From S2P Require Import Num.
From S2P Require Import Reject.
From S2P Require Import DiscreteReal.
From S2P Require Import GammaBeta.
From S2P Require Import Poisson.

#[local] Open Scope num_scope.

Module BinomialVGen.

(** The variables that depend on the parameters alone. *)
Record params (P : Type) :=
  mk { small_p : P; mean : P; g1 : P; sqrt_v : P; log_small_p : P; log_small_q : P }.
#[global] Arguments mk {P} _ _ _ _ _ _.
#[global] Arguments small_p {P} _.
#[global] Arguments mean {P} _.
#[global] Arguments g1 {P} _.
#[global] Arguments sqrt_v {P} _.
#[global] Arguments log_small_p {P} _.
#[global] Arguments log_small_q {P} _.

Section Code.
Context {P D R : Type} `{Num P} `{Libm P} `{Num D} `{Libm D} `{Trig D} `{Lgamma D} `{FloatDouble P D}
  `{UniformSource P R}.

Definition create (trials : Z) (p : P) : outcome (params P) :=
  let small_p := fmin p (of_Z 1 - p) in
  let mean := of_Z trials * small_p in
  n ← int_add trials 1;
  Ret (mk small_p mean (narrow (flgamma (of_Z n))) (fsqrt (of_Z 2 * mean * (of_Z 1 - small_p)))
    (flog small_p) (flog (of_Z 1 - small_p))).

Definition large_bound (g : params P) (trials : Z) (ys : D) (res : Z) : D :=
  of_Z 12 / of_Z 10 * widen (sqrt_v g) * (of_Z 1 + ys * ys) *
  fexp (widen (g1 g) - flgamma (of_Z (res + 1)) - flgamma (of_Z (trials - res) + of_Z 1)
        + widen (of_Z res * log_small_p g) + widen (of_Z (trials - res) * log_small_q g)).
Definition large_trial (g : params P) (trials : Z) (rng : R) : outcome (option Z * R) :=
  '(u, rng) ← ur rng;
  let ys := ftan (M_PI * widen u) in
  res ← real_to_int (widen (sqrt_v g) * ys + widen (mean g));
  if ((0 <=? res) && (res <=? trials))%Z then
    '(u, rng) ← ur rng;
    Ret (if widen u <=? large_bound g trials ys res then Some res else None, rng)
  else Ret (None, rng).

(** From 25 trials on. *)
Definition many_trials (fuel : nat) (g : params P) (trials : Z) (p : P) (rng : R) : outcome (Z * R) :=
  '(res, rng) ← (if widen (mean g) <? of_Z 1
                 then PoissonGen.small_loop id fuel (fexp (- mean g)) 0 (of_Z 1) rng
                 else until_accepted (large_trial g trials) fuel rng);
  res ← (if feq p (small_p g) then Ret res else int_sub trials res);
  Ret (res, rng).

(** [BinomialVGen<int32_t>]. *)
Definition call (fuel : nat) (rng : R) (trials : Z) (p : P) : outcome (Z * R) :=
  g ← create trials p;
  if (trials <? 25)%Z then BinomialGen.trial_loop id p (Z.to_nat trials) 0 rng
  else many_trials fuel g trials p rng.

(** [BinomialVGen<float>], where [bits] and [of_bits] are the [reinterpret_cast]s:
    with few trials the number is converted. *)
Definition call_float (bits : P → Z) (of_bits : Z → P) (fuel : nat) (rng : R) (_trials p : P) :
    outcome (P * R) :=
  let trials := bits _trials in
  g ← create trials p;
  if (trials <? 25)%Z then
    '(res, rng) ← BinomialGen.trial_loop id p (Z.to_nat trials) 0 rng; Ret (of_Z res, rng)
  else '(res, rng) ← many_trials fuel g trials p rng; Ret (of_bits res, rng).

(** ** Packets

    [valid_res] is not initialised when no lane is valid at first: its lanes are
    the argument [garbage]. *)

Context `{PacketMath P} `{PacketCast P} `{EigenPackets} (predux_all : list Z → bool) (garbage : list P).

Definition predux_any (c : list bool) : bool :=
  negb (movemask_ps (DiscreteRealGen.reinterpret_ps c) =? 0)%Z.

(** The numbers of the lanes with a small mean; [add] is [padd(res, pnegate(c))]
    on integers or on numbers. *)
Fixpoint small_packet {A} (add : list A → list Z → list A) (fuel : nat) (pne_mean : list P)
    (valid : list bool) (res : list A) (val : list P) (rng : R) : outcome (list A * R) :=
  match fuel with
  | O => OutOfFuel
  | S fuel =>
      '(u, rng) ← ur_packet rng;
      let val := pmul val u in
      let c := pand_mask (pcmplt pne_mean val) valid in
      if negb (predux_any c) then Ret (res, rng)
      else small_packet add fuel pne_mean valid (add res (pnegate_int (DiscreteRealGen.reinterpret_ps c))) val rng
  end.

(** The numbers of the other lanes: each keeps the first candidate that is
    accepted in it. *)
Fixpoint fill_lanes (trial : R → outcome (list P * list bool * R)) (fuel : nat) (valid : list bool)
    (valid_res : list P) (rng : R) : outcome (list P * R) :=
  match fuel with
  | O => OutOfFuel
  | S fuel =>
      '(fres, fvalid, rng) ← trial rng;
      let valid_res := pick (zip_with (λ f v, f && negb v) fvalid valid) fres valid_res in
      let valid := zip_with orb fvalid valid in
      if predux_all (DiscreteRealGen.reinterpret_ps valid) then Ret (valid_res, rng)
      else fill_lanes trial fuel valid valid_res rng
  end.

Definition packet_params (ptrials p : list P) : params (list P) :=
  let psmall_p := pmin p (psub (pset1 (of_Z 1)) p) in
  let pmean := pmul ptrials psmall_p in
  mk psmall_p pmean (plgamma_approx (padd ptrials (pset1 (of_Z 1))))
    (psqrt (pmul (pmul (pset1 (of_Z 2)) pmean) (psub (pset1 (of_Z 1)) psmall_p)))
    (plog psmall_p) (plog (psub (pset1 (of_Z 1)) psmall_p)).

(** Both stages; [small] computes [valid_res] for the lanes with a small mean. *)
Definition lanes_result (small : params (list P) → list bool → R → outcome (list P * R)) (fuel : nat)
    (g : params (list P)) (ptrials : list P) (rng : R) : outcome (list P * R) :=
  let valid := pcmplt (mean g) (pset1 (of_Z 1)) in
  '(valid_res, rng) ← (if predux_any valid then small g valid rng else Ret (garbage, rng));
  if negb (predux_all (DiscreteRealGen.reinterpret_ps valid)) then
    fill_lanes (BinomialGen.large_packet ptrials (sqrt_v g) (mean g) (log_small_p g) (log_small_q g) (g1 g))
      fuel valid valid_res rng
  else Ret (valid_res, rng).

Definition packetOp (lanes fuel : nat) (rng : R) (trials : list Z) (p : list P) : outcome (list Z * R) :=
  let ptrials := pcast_float trials in
  let g := packet_params ptrials p in
  '(valid_res, rng) ← lanes_result (λ g valid rng,
      '(res, rng) ← small_packet PacketMath.padd fuel (pexp (pnegate (mean g))) valid
        (PacketMath.pset1 lanes 0) (pset1 (of_Z 1)) rng;
      Ret (pcast_float res, rng)) fuel g ptrials rng;
  Ret (pick (pcmpeq p (small_p g)) (pcast_int valid_res) (PacketMath.psub trials (pcast_int valid_res)), rng).

Definition packetOp_float (bits : list P → list Z) (of_bits : list Z → list P) (fuel : nat) (rng : R)
    (_trials p : list P) : outcome (list P * R) :=
  let trials := bits _trials in
  let ptrials := pcast_float trials in
  let g := packet_params ptrials p in
  '(valid_res, rng) ← lanes_result (λ g valid rng,
      small_packet (λ res c, padd res (pcast_float c)) fuel (pexp (pnegate (mean g))) valid
        (pset1 (of_Z 0)) (pset1 (of_Z 1)) rng) fuel g ptrials rng;
  Ret (pick (pcmpeq p (small_p g)) (of_bits (pcast_int valid_res))
         (of_bits (PacketMath.psub trials (pcast_int valid_res))), rng).

End Code.
End BinomialVGen.

(** ** NegativeBinomialGen *)

Module NegativeBinomialGen.
Section Code.
Context {P D R : Type} `{Num P} `{Libm P} `{Trig P} `{Num D} `{Libm D} `{Trig D} `{Lgamma D}
  `{FloatDouble P D} `{UniformSource P R} `{PacketMath P} `{PacketCast P} `{EigenPackets}.

(** The state is that of [gamma]. *)
Definition create (lanes : nat) (_trials : Z) (_p : D) : GammaGen.t P :=
  GammaGen.create lanes (of_Z _trials) (narrow ((of_Z 1 - _p) / _p)).

Definition call (lanes fuel : nat) (gamma : GammaGen.t P) (rng : R) : outcome (Z * R) :=
  '(v, rng) ← GammaGen.call fuel gamma rng;
  PoissonGen.call fuel (PoissonGen.create (P := P) lanes (widen v)) rng.

Definition packetOp `{PacketFilter P} (lanes fuel : nat) (gamma : GammaGen.t P) (rng : R) :
    outcome (list Z * GammaGen.t P * R) :=
  '(mean, gamma, rng) ← GammaGen.packetOp fuel gamma rng;
  let res := PacketMath.pset1 lanes 0 in
  let val := pset1 (of_Z 1) in
  let pne_mean := pexp (pnegate mean) in
  if (movemask_ps (DiscreteRealGen.reinterpret_ps (pcmplt (pset1 (of_Z 12)) mean)) =? 0)%Z then
    '(res, rng) ← PoissonGen.small_packet fuel pne_mean res val rng;
    Ret (res, gamma, rng)
  else
    let psqrt_tmean := psqrt (pmul (pset1 (of_Z 2)) mean) in
    let plog_mean := plog mean in
    let pg1 := psub (pmul mean plog_mean) (plgamma_approx (padd mean (pset1 (of_Z 1)))) in
    '(cands, q, rng) ← until_full (PoissonGen.large_packet psqrt_tmean mean plog_mean pg1) fuel
      (GammaGen.cache gamma) rng;
    Ret (pcast_int cands, GammaGen.with_cache gamma q, rng).

End Code.
End NegativeBinomialGen.
