(* ===== verification/PoissonProps.v ===== *)
(** The Poisson, binomial and geometric generators over exact arithmetic: small
    means count the arrivals of a Poisson process, large ones have acceptance
    bounds proportional to the distribution, few trials are counted one by one,
    and the geometric numbers are those of inversion; scalar calls and packet
    operations. *)

From S2P Require Import Prelude.
From S2P Require Import Num.
From S2P Require Import NumR.
From S2P Require Import Simd.
From S2P Require Import PacketMath.
From S2P Require Import PacketMathProps.
From S2P Require Import Reject.
From S2P Require Import DiscreteReal.
From S2P Require Import GammaBeta.
From S2P Require Import Poisson.
From S2P Require Import RejectProps.
From S2P Require Import ContinuousProps.
From S2P Require Import GammaProps.
From Stdlib Require Import Reals Lra.

#[local] Open Scope R_scope.

(** ** Exact arithmetic *)

#[export] Instance R_float_double : FloatDouble R R := {| widen x := x; narrow x := x |}.

(** What the code relies on of [std::lgamma]. *)
Class LgammaLaws `{Lgamma R} := {
  lgamma_fact : ∀ k : nat, flgamma (INR k + 1) = ln (INR (fact k));
}.

(** The conversion of a real number to [int]. *)
Lemma R_trunc_nat x k : INR k <= x < INR k + 1 → R_trunc x = Z.of_nat k.
Proof.
  intros Hx. pose proof (pos_INR k). rewrite INR_IZR_INZ in *. unfold R_trunc.
  destruct (Rle_dec 0 x); [|lra]. by apply Int_part_unique.
Qed.

Lemma real_to_int_nat x k : INR k <= x < INR k + 1 → (Z.of_nat k <= INT_MAX)%Z →
  real_to_int x = Ret (Z.of_nat k).
Proof.
  intros Hx Hk. unfold real_to_int. cbn [ftrunc R_num]. rewrite (R_trunc_nat x k Hx).
  by rewrite (proj2 (in_int_spec _)) by int_lia.
Qed.

(** ** Arrivals

    The logarithms of uniform numbers are exponential times between arrivals; a
    Poisson number is the number of arrivals before [mean]. *)

Definition gaps (us : list R) : list R := (λ u, - ln u) <$> us.
Definition arrivals (mean : R) (us : list R) (k : nat) : Prop :=
  (k < length us)%nat ∧ rsum (gaps (take k us)) < mean <= rsum (gaps (take (S k) us)).

(** The same after a time [t], where the first number is counted in any case. *)
Definition arrivals_after (t mean : R) (us : list R) (k : nat) : Prop :=
  (k < length us)%nat ∧ (k = O ∨ t + rsum (gaps (take k us)) < mean) ∧ mean <= t + rsum (gaps (take (S k) us)).

Lemma gaps_nonneg us : Forall (λ u, 0 < u < 1) us → 0 <= rsum (gaps us).
Proof.
  intros Hu. apply rsum_nonneg, Forall_fmap. eapply Forall_impl; [exact Hu|].
  intros u Hu1. pose proof (ln_unit_neg u Hu1). cbn. lra.
Qed.

Lemma gaps_cons u us : rsum (gaps (u :: us)) = - ln u + rsum (gaps us).
Proof. done. Qed.

Lemma arrivals_start mean us k : 0 < mean → arrivals mean us k → arrivals_after (- ln 1) mean us k.
Proof. intros Hm (Hk & Ha & Hb). rewrite ln_1. split; [done|]. split; [right|]; lra. Qed.

Lemma arrivals_step t mean u us k : Forall (λ u, 0 < u < 1) us →
  arrivals_after t mean (u :: us) (S k) → t - ln u < mean ∧ arrivals_after (t - ln u) mean us k.
Proof.
  intros Hu (Hk & [?|Ha] & Hb); [done|]. cbn [take] in Ha, Hb. rewrite gaps_cons in Ha, Hb.
  cbn [length] in Hk. split.
  - pose proof (gaps_nonneg (take k us) ltac:(by apply Forall_take)). lra.
  - split; [lia|]. split; [right|]; lra.
Qed.

Lemma arrivals_step_pred t mean u us k : Forall (λ u, 0 < u < 1) us → us ≠ [] →
  arrivals_after t mean (u :: us) k → arrivals_after (t - ln u) mean us (pred k).
Proof.
  intros Hu Hne Ha. destruct k as [|k]; [|by apply (arrivals_step t mean u us k)].
  destruct Ha as (_ & _ & Hb). cbn [take] in Hb. rewrite take_0, gaps_cons in Hb.
  split; [destruct us; [done|cbn; lia]|]. split; [by left|].
  change (rsum (gaps [])) with 0 in Hb. cbn [pred].
  pose proof (gaps_nonneg (take 1 us) (Forall_take _ _ _ Hu)). lra.
Qed.

Lemma below_exp x mean : 0 < x → (exp (- mean) < x ↔ - ln x < mean).
Proof.
  intros Hx. split; intros H.
  - assert (ln (exp (- mean)) < ln x) by (apply ln_increasing; [apply exp_pos|done]).
    rewrite ln_exp in *. lra.
  - rewrite <-(exp_ln x) by done. apply exp_increasing. lra.
Qed.

Lemma small_loop_ok {St} `{UniformSource R St} (cast : R → R) mean us k val res fuel (rng rng' : St) :
  (∀ u, cast u = u) → draw_n ur (length us) rng = Ret (us, rng') → length us = S k →
  Forall (λ u, 0 < u < 1) us → 0 < val → arrivals_after (- ln val) mean us k →
  (INT_MIN <= res)%Z → (res + Z.of_nat k <= INT_MAX)%Z → (k < fuel)%nat →
  PoissonGen.small_loop cast fuel (exp (- mean)) res val rng = Ret ((res + Z.of_nat k)%Z, rng').
Proof.
  intros Hc Hd Hl Hu. revert k val res fuel rng Hd Hl.
  induction Hu as [|u us Hu Hus IH]; intros k val res fuel rng Hd Hl Hval Ha Hmin Hmax Hf; [done|].
  cbn [length] in Hd, Hl. apply draw_n_S in Hd as (? & ? & rng1 & [= <- <-] & H1 & Hd).
  destruct fuel as [|fuel]; [lia|]. cbn [PoissonGen.small_loop]. rewrite H1. cbn [mbind outcome_bind].
  rewrite Hc. assert (0 < val * u) as Hvu by (apply Rmult_lt_0_compat; lra).
  change (fmul val u) with (val * u). assert (- ln (val * u) = - ln val - ln u) as Hln by (rewrite ln_mult; lra).
  destruct k as [|k].
  - destruct Ha as (_ & _ & Hb). cbn [take] in Hb. rewrite take_0, gaps_cons in Hb. unfold rsum in Hb. cbn in Hb.
    rewrite (proj2 (R_fleb_true _ _)); [|apply Rnot_lt_le; rewrite below_exp by done; lra].
    destruct us; [|done]. injection Hd as <-. do 2 f_equal. lia.
  - apply arrivals_step in Ha as [Hlt Ha]; [|done].
    rewrite (proj2 (R_fleb_false _ _)) by (apply below_exp; [done|lra]).
    rewrite int_add_ok by lia. cbn [mbind outcome_bind].
    rewrite (IH k) by (rewrite ?Hln; done || lia). do 2 f_equal. lia.
Qed.

(** ** Packets of counts *)

(** The numbers of a lane. *)
Definition lane_numbers (i : nat) (ps : list (list R)) : list R := (λ p, nth i p 0) <$> ps.

Lemma lane_numbers_unit n i ps : (i < n)%nat →
  Forall (λ q, length q = n ∧ Forall (λ u, 0 < u < 1) q) ps → Forall (λ u, 0 < u < 1) (lane_numbers i ps).
Proof.
  intros Hi Hps. apply Forall_fmap. eapply Forall_impl; [exact Hps|]. intros q [Hq Hqu]. unfold compose.
  by destruct (param_lane _ q i Hqu ltac:(lia)) as (x & _ & -> & Hx).
Qed.

Lemma movemask_none c : (movemask_ps (DiscreteRealGen.reinterpret_ps c) =? 0)%Z = negb (existsb (λ b, b) c).
Proof.
  assert (∀ c, movemask_ps (DiscreteRealGen.reinterpret_ps c) = bits_of c) as ->.
  { intros d. unfold movemask_ps, DiscreteRealGen.reinterpret_ps. rewrite <-list_fmap_compose. f_equal.
    induction d as [|[] d IH]; [done|..]; cbn; by f_equal. }
  assert (∀ d, (0 <= bits_of d)%Z) as Hp by (induction d as [|[] d IH]; cbn; lia).
  induction c as [|b c IH]; [done|]. cbn [bits_of existsb]. specialize (Hp c).
  destruct b; cbn [orb negb]; [lia|]. rewrite <-IH. lia.
Qed.

(** Adding the negated mask counts up in the lanes where it is set. *)
Lemma counts_up m `{EigenPackets} `{!EigenPacketLaws} `{PacketCast R} `{!PacketCastLaws (P:=R) (2 * m)} rs c :
  length rs = (2 * m)%nat → length c = (2 * m)%nat → Forall (λ r, (Z.of_nat r + 1 < 2 ^ 32)%Z) rs →
  PacketMath.padd (Z.of_nat <$> rs) (pnegate_int (DiscreteRealGen.reinterpret_ps c)) =
    Z.of_nat <$> zip_with (λ r (b : bool), if b then S r else r) rs c.
Proof.
  intros Hl Hc Hr. assert (Forall (word 32) (DiscreteRealGen.reinterpret_ps c)) as Hw
    by (apply Forall_fmap, Forall_true; intros []; unfold compose, word, mask; lia).
  rewrite (pnegate_int_lanes (n := (2 * m)%nat)), (PacketMath.padd_lanes m).
  - unfold add_epi32, DiscreteRealGen.reinterpret_ps. rewrite <-list_fmap_compose, zip_with_fmap_l, zip_with_fmap_r.
    clear -Hr. revert c. induction Hr as [|r rs Hr _ IH]; intros [|b c]; [done..|]. cbn [zip_with].
    rewrite fmap_cons. f_equal; [|apply IH]. unfold compose, u32, mask. destruct b.
    + change ((- (2 ^ 32 - 1)) mod 2 ^ 32)%Z with 1%Z. rewrite Z.mod_small; lia.
    + change ((- 0) mod 2 ^ 32)%Z with 0%Z. rewrite Z.add_0_r, Z.mod_small; lia.
  - split; [by rewrite length_fmap|]. apply Forall_fmap. eapply Forall_impl; [exact Hr|].
    intros r Hr1. cbv beta in Hr1. unfold compose, word. lia.
  - unfold DiscreteRealGen.reinterpret_ps. split; [by rewrite !length_fmap|].
    apply Forall_fmap, Forall_true. intros w. unfold compose, word. apply u32_range.
  - done.
Qed.

(** After the first of [ps], the lanes that have not stopped go on. *)
Lemma count_conditions n `{PacketMath R} `{!PacketMathLaws n} means val ks p ps :
  length means = n → length val = n → length ks = n → length p = n → Forall (λ u, 0 < u < 1) p →
  Forall (λ q, length q = n ∧ Forall (λ u, 0 < u < 1) q) ps →
  (∀ i v k mean, val !! i = Some v → ks !! i = Some k → means !! i = Some mean →
     0 < v ∧ arrivals_after (- ln v) mean (lane_numbers i (p :: ps)) k) →
  pcmplt ((λ mean, exp (- mean)) <$> means) (pmul val p) = (λ k, bool_decide (0 < k)%nat) <$> ks ∧
  (ps ≠ [] → ∀ i v k mean, pmul val p !! i = Some v → pred <$> ks !! i = Some k → means !! i = Some mean →
     0 < v ∧ arrivals_after (- ln v) mean (lane_numbers i ps) k).
Proof.
  intros Hm Hv Hk Hp Hu Hps Ha. rewrite pmul_lanes, pcmplt_lanes.
  assert (∀ i, (i < n)%nat → ∃ v k mean u, val !! i = Some v ∧ ks !! i = Some k ∧ means !! i = Some mean ∧
    p !! i = Some u ∧ nth i p 0 = u ∧ 0 < u < 1 ∧ 0 < v ∧ - ln (v * u) = - ln v - ln u ∧
    Forall (λ u, 0 < u < 1) (lane_numbers i ps) ∧ arrivals_after (- ln v) mean (u :: lane_numbers i ps) k) as Hi.
  { intros i Hi. destruct (lookup_lt_is_Some_2 val i) as [v Hv']; [lia|].
    destruct (lookup_lt_is_Some_2 ks i) as [k Hk']; [lia|].
    destruct (lookup_lt_is_Some_2 means i) as [mean Hm']; [lia|].
    destruct (param_lane _ p i Hu ltac:(lia)) as (u & Hu' & Hn & Hu1).
    destruct (Ha i v k mean) as [Hpos Har]; [done..|]. exists v, k, mean, u. unfold lane_numbers in Har.
    rewrite fmap_cons, Hn in Har. split_and!; try done; try lra; [rewrite ln_mult; lra|].
    by apply (lane_numbers_unit n). }
  assert (∀ i v, zip_with fmul val p !! i = Some v → (i < n)%nat) as Hlt.
  { intros i v Hz%lookup_lt_Some. rewrite length_zip_with in Hz. lia. }
  split.
  - apply (packet_eq n); [lane_count|by rewrite length_fmap|]. intros i Hlt'.
    destruct (Hi i Hlt') as (v & k & mean & u & Hv' & Hk' & Hm' & Hp' & _ & Hu1 & Hpos & Hln & Hf & Har).
    lane_at. f_equal. change (fmul v u) with (v * u).
    apply eq_true_iff_eq. rewrite R_fltb_true, bool_decide_eq_true, below_exp, Hln by (apply Rmult_lt_0_compat; lra).
    destruct k as [|k]; [|apply arrivals_step in Har as [? _]; [split; lra || lia|done]].
    destruct Har as (_ & _ & Hb). cbn [take] in Hb. rewrite take_0, gaps_cons in Hb. unfold rsum in Hb. cbn in Hb.
    split; [lra|lia].
  - intros Hne i v k mean Hz Hk' Hm'. pose proof (Hlt i v Hz) as Hlt'.
    destruct (Hi i Hlt') as (v1 & k1 & mean1 & u & Hv1 & Hk1 & Hm1 & Hp' & _ & Hu1 & Hpos & Hln & Hf & Har).
    rewrite lookup_zip_with, Hv1, Hp' in Hz. injection Hz as <-. rewrite Hk1 in Hk'. rewrite Hm' in Hm1.
    injection Hk' as <-. injection Hm1 as <-. change (fmul v1 u) with (v1 * u). rewrite Hln.
    split; [apply Rmult_lt_0_compat; lra|]. apply arrivals_step_pred; [done| |done].
    intros He. apply Hne. by destruct ps.
Qed.

(** A round of counting on lists of counts. *)
Lemma counts_done rs ks : Forall (λ k, k = 0%nat) ks → length rs = length ks →
  existsb (λ b, b) ((λ k, bool_decide (0 < k)%nat) <$> ks) = false ∧ zip_with Nat.add rs ks = rs.
Proof.
  intros Hz. revert rs. induction Hz as [|k ks -> Hz IH]; intros [|r rs] Hl; try done.
  destruct (IH rs) as [Hb Hs]; [by injection Hl|]. cbn. split; [done|]. by rewrite Hs, Nat.add_0_r.
Qed.

Lemma counts_round rs ks :
  zip_with Nat.add (zip_with (λ r k, if bool_decide (0 < k)%nat then S r else r) rs ks) (pred <$> ks) =
    zip_with Nat.add rs ks.
Proof.
  revert ks. induction rs as [|r rs IH]; intros [|k ks]; [done..|]. cbn. f_equal; [|apply IH].
  case_bool_decide; lia.
Qed.

Lemma small_packet_ok {St} `{UniformSource R St} m `{PacketMath R} `{!PacketMathLaws (2 * m)} `{EigenPackets}
    `{!EigenPacketLaws} `{PacketCast R} `{!PacketCastLaws (P:=R) (2 * m)} means val rs ks ps fuel (rng rng' : St) :
  length means = (2 * m)%nat → length val = (2 * m)%nat → length rs = (2 * m)%nat → length ks = (2 * m)%nat →
  draw_n ur_packet (length ps) rng = Ret (ps, rng') →
  Forall (λ q, length q = (2 * m)%nat ∧ Forall (λ u, 0 < u < 1) q) ps →
  (∀ i v k mean, val !! i = Some v → ks !! i = Some k → means !! i = Some mean →
     0 < v ∧ arrivals_after (- ln v) mean (lane_numbers i ps) k) →
  (∃ i k, ks !! i = Some k ∧ length ps = S k) →
  Forall (λ r, (Z.of_nat (r + length ps) < 2 ^ 32)%Z) rs → (length ps <= fuel)%nat →
  PoissonGen.small_packet fuel ((λ mean, exp (- mean)) <$> means) (Z.of_nat <$> rs) val rng =
    Ret (Z.of_nat <$> zip_with Nat.add rs ks, rng').
Proof.
  intros Hm Hv Hr Hk Hd Hps. revert val rs ks fuel rng Hv Hr Hk Hd.
  induction Hps as [|p ps [Hp Hu] Hps IH]; intros val rs ks fuel rng Hv Hr Hk Hd Ha (i0 & k0 & Hi0 & Hk0) Hrs Hf;
    [done|]. cbn [length] in Hd, Hf, Hk0, Hrs. injection Hk0 as <-.
  apply draw_n_S in Hd as (? & ? & rng1 & [= <- <-] & Hdr & Hd).
  destruct fuel as [|fuel]; [lia|]. cbn [PoissonGen.small_packet]. rewrite Hdr. cbn [mbind outcome_bind].
  destruct (count_conditions (2 * m) means val ks p ps Hm Hv Hk Hp Hu Hps Ha) as [Hc Hn].
  rewrite Hc, movemask_none. destruct ps as [|q ps].
  - assert (Forall (λ k, k = 0%nat) ks) as Hz.
    { apply Forall_lookup. intros i k Hik. pose proof (lookup_lt_Some _ _ _ Hik).
      destruct (lookup_lt_is_Some_2 val i) as [v Hiv]; [lia|]. destruct (lookup_lt_is_Some_2 means i) as [mean Him]; [lia|].
      destruct (Ha i v k mean) as (_ & Hlt & _); [done..|]. cbn in Hlt. lia. }
    destruct (counts_done rs ks Hz ltac:(lia)) as [-> ->]. by injection Hd as <-.
  - specialize (Hn ltac:(done)).
    assert (existsb (λ b, b) ((λ k, bool_decide (0 < k)%nat) <$> ks) = true) as ->.
    { apply existsb_exists. exists true. split; [|done]. apply list_elem_of_In, list_elem_of_fmap.
      exists (length (q :: ps)). split; [by rewrite bool_decide_true by (cbn; lia)|by eapply list_elem_of_lookup_2]. }
    cbn [negb]. rewrite (counts_up m); [|done|by rewrite length_fmap|].
    + rewrite zip_with_fmap_r, (IH _ _ (pred <$> ks)), counts_round; try done.
      * rewrite pmul_lanes, length_zip_with. lia.
      * rewrite length_zip_with. lia.
      * by rewrite length_fmap.
      * intros i v k mean Hiv Hik Him. rewrite list_lookup_fmap in Hik. by apply (Hn i v k mean).
      * exists i0, (length ps). by rewrite list_lookup_fmap, Hi0.
      * clear -Hrs Hr Hk. apply Forall_lookup. intros i r Hi. apply lookup_zip_with_Some in Hi as (r1 & k & -> & Hi1 & _).
        pose proof (Forall_lookup_1 _ _ _ _ Hrs Hi1) as Hr1. cbv beta in Hr1. cbn [length] in *. case_bool_decide; lia.
      * cbn [length] in *. lia.
    + eapply Forall_impl; [exact Hrs|]. intros r Hr1. cbv beta in Hr1. lia.
Qed.

Lemma zip_with_zero (ks : list nat) n : length ks = n → zip_with Nat.add (replicate n 0%nat) ks = ks.
Proof. intros <-. induction ks as [|k ks IH]; [done|]. cbn. by rewrite IH. Qed.

(** From the initial values of the loop. *)
Lemma small_packet_start {St} `{UniformSource R St} m `{PacketMath R} `{!PacketMathLaws (2 * m)} `{EigenPackets}
    `{!EigenPacketLaws} `{PacketCast R} `{!PacketCastLaws (P:=R) (2 * m)} means ks ps fuel (rng rng' : St) :
  length means = (2 * m)%nat → length ks = (2 * m)%nat →
  draw_n ur_packet (length ps) rng = Ret (ps, rng') →
  Forall (λ q, length q = (2 * m)%nat ∧ Forall (λ u, 0 < u < 1) q) ps →
  (∀ i k mean, ks !! i = Some k → means !! i = Some mean → 0 < mean ∧ arrivals mean (lane_numbers i ps) k) →
  (∃ i k, ks !! i = Some k ∧ length ps = S k) → (length ps <= fuel)%nat → (Z.of_nat (length ps) < 2 ^ 32)%Z →
  PoissonGen.small_packet fuel ((λ mean, exp (- mean)) <$> means) (PacketMath.pset1 (2 * m) 0) (pset1 (of_Z 1)) rng =
    Ret (Z.of_nat <$> ks, rng').
Proof.
  intros Hm Hk Hd Hps Ha Hlast Hf Hmax. rewrite pset1_lanes, PacketMath.pset1_lanes.
  replace (set1_epi32 (2 * m) 0) with (Z.of_nat <$> replicate (2 * m) 0%nat) by (by rewrite fmap_replicate).
  rewrite (small_packet_ok m means _ _ ks ps fuel rng rng'); rewrite ?length_replicate; try done.
  - by rewrite zip_with_zero.
  - intros i v k mean [-> _]%lookup_replicate Hik Him. destruct (Ha i k mean Hik Him) as [Hpos Har].
    split; [cbn; lra|]. by apply arrivals_start.
  - apply Forall_replicate. lia.
Qed.

Lemma arrivals_exists mean us : 0 < mean → Forall (λ u, 0 < u < 1) us → mean <= rsum (gaps us) →
  ∃ k, arrivals mean us k.
Proof.
  intros Hm Hu. revert mean Hm. induction Hu as [|u us Hu Hus IH]; intros mean Hm Hs.
  - unfold rsum in Hs. cbn in Hs. lra.
  - rewrite gaps_cons in Hs. destruct (Rle_dec mean (- ln u)) as [Hle|Hgt].
    + exists 0%nat. split; [cbn; lia|]. cbn [take]. rewrite take_0, gaps_cons. unfold rsum. cbn. lra.
    + destruct (IH (mean + ln u)) as (k & Hk & Ha); [lra..|]. exists (S k). split; [cbn; lia|].
      cbn [take]. rewrite !gaps_cons. cbn [take] in Ha. lra.
Qed.

Lemma arrivals_take mean us k j : (k < j)%nat → arrivals mean us k → arrivals mean (take j us) k.
Proof.
  intros Hj (Hk & Ha). split; [rewrite length_take; lia|]. by rewrite !take_take, !Nat.min_l by lia.
Qed.

Lemma largest_count (ks : list nat) : ks ≠ [] → ∃ i k, ks !! i = Some k ∧ Forall (λ j, j <= k)%nat ks.
Proof.
  induction ks as [|k ks IH]; [done|]. intros _. destruct ks as [|k' ks].
  - exists 0%nat, k. split; [done|]. by repeat constructor.
  - destruct IH as (i & m & Hi & Hm); [done|]. destruct (decide (m <= k)%nat).
    + exists 0%nat, k. split; [done|]. constructor; [done|]. eapply Forall_impl; [exact Hm|]. cbn. lia.
    + exists (S i), m. split; [done|]. constructor; [lia|done].
Qed.

Lemma choose_lanes {A} (P : nat → A → Prop) n : (∀ i, (i < n)%nat → ∃ k, P i k) →
  ∃ ks, length ks = n ∧ ∀ i k, ks !! i = Some k → P i k.
Proof.
  induction n as [|n IH]; intros Hi; [by exists []|]. destruct IH as (ks & Hl & Hk); [auto with lia|].
  destruct (Hi n) as [k Hn]; [lia|]. exists (ks ++ [k]). split; [rewrite length_app; cbn; lia|].
  intros i j [Hj|[Hge Hj]]%lookup_app_Some; [by apply Hk|]. apply list_lookup_singleton_Some in Hj as [Hz <-].
  by replace i with n by lia.
Qed.

(** C37. For a mean below 12, [PoissonGen] returns the number of arrivals before
    the time [mean] of a process whose times between arrivals are the
    exponential quantiles of the numbers drawn: the call ends with the number
    that reaches the mean, however the numbers fall, and the packet operation
    returns such a count in every lane, each for the numbers of that lane. *)
Theorem poisson_arrivals {St} `{UniformSource R St} `{Lgamma R} m `{PacketMath R} `{!PacketMathLaws (2 * m)}
    `{EigenPackets} `{!EigenPacketLaws} `{PacketCast R} `{!PacketCastLaws (P:=R) (2 * m)} `{PacketFilter R}
    lanes mean fuel (rng rng' : St) :
  0 < mean < 12 → (0 < m)%nat →
  let g : PoissonGen.t R R := PoissonGen.create lanes mean in
  (∀ us, draw_n ur (length us) rng = Ret (us, rng') → Forall (λ u, 0 < u < 1) us →
     mean <= rsum (gaps us) → (length us <= fuel)%nat → (Z.of_nat (length us) <= 2 ^ 31)%Z →
     ∃ k rng1, arrivals mean us k ∧ draw_n ur (S k) rng = Ret (take (S k) us, rng1) ∧
       PoissonGen.call fuel g rng = Ret (Z.of_nat k, rng1)) ∧
  (∀ ps, draw_n ur_packet (length ps) rng = Ret (ps, rng') →
     Forall (λ p, length p = (2 * m)%nat ∧ Forall (λ u, 0 < u < 1) p) ps →
     (∀ i, (i < 2 * m)%nat → mean <= rsum (gaps (lane_numbers i ps))) →
     (length ps <= fuel)%nat → (Z.of_nat (length ps) < 2 ^ 32)%Z →
     ∃ ks rng1, length ks = (2 * m)%nat ∧ (∀ i k, ks !! i = Some k → arrivals mean (lane_numbers i ps) k) ∧
       PoissonGen.packetOp (2 * m) fuel g rng = Ret (Z.of_nat <$> ks, g, rng1)).
Proof.
  intros Hmean Hm g.
  assert (fltb mean 12 = true) as Hlt by (apply R_fltb_true; lra). split.
  - intros us Hd Hu Hs Hf Hmax. destruct (arrivals_exists mean us) as [k Hk]; [lra|done..|].
    pose proof Hk as [Hkl _]. destruct (draw_n_take ur (S k) _ rng us rng' Hd ltac:(lia)) as (rng1 & Hd1 & _).
    exists k, rng1. split; [done|]. split; [done|]. unfold PoissonGen.call. cbn [PoissonGen.mean g PoissonGen.create].
    change (of_Z 12) with 12. rewrite Hlt. apply (small_loop_ok _ mean (take (S k) us) k 1 0).
    all: rewrite ?length_take, ?Nat.min_l by lia; try done; try int_lia; try lra.
    + by apply Forall_take.
    + apply arrivals_start; [lra|]. apply arrivals_take; [lia|done].
  - intros ps Hd Hps Hs Hf Hmax.
    destruct (choose_lanes (λ i k, arrivals mean (lane_numbers i ps) k) (2 * m)) as (ks & Hks & Ha).
    { intros i Hi. apply arrivals_exists; [lra| |by apply Hs]. by apply (lane_numbers_unit (2 * m)). }
    destruct (largest_count ks) as (i0 & k0 & Hi0 & Hle); [by intros ->; cbn in Hks; lia|].
    destruct (Ha i0 k0 Hi0) as [Hk0 _]. unfold lane_numbers in Hk0. rewrite length_fmap in Hk0.
    destruct (draw_n_take ur_packet (S k0) _ rng ps rng' Hd ltac:(lia)) as (rng1 & Hd1 & _).
    exists ks, rng1. split; [done|]. split; [done|]. unfold PoissonGen.packetOp.
    cbn [PoissonGen.mean PoissonGen.ne_mean g PoissonGen.create narrow R_float_double].
    change (of_Z 12) with 12. rewrite Hlt, (pset1_lanes (fexp _)).
    replace (replicate (2 * m) (fexp (fneg mean))) with ((λ mean, exp (- mean)) <$> replicate (2 * m) mean)
      by (by rewrite fmap_replicate).
    rewrite (small_packet_start m (replicate (2 * m) mean) ks (take (S k0) ps) fuel rng rng1).
    all: rewrite ?length_replicate, ?length_take, ?Nat.min_l by lia; try done; try lia.
    + by apply Forall_take.
    + intros i k mean' Hik [-> _]%lookup_replicate. split; [lra|]. unfold lane_numbers. rewrite fmap_take.
      apply arrivals_take; [|by apply Ha]. pose proof (Forall_lookup_1 _ _ _ _ Hle Hik) as Hki. cbv beta in Hki. lia.
    + by exists i0, k0.
Qed.

(** ** Large means *)

(** The numbers whose conversion to an integer is [k], which for 0 are those on
    both sides. *)
Definition truncates_to (k : nat) (x : R) : Prop :=
  match k with O => -1 < x < 1 | _ => INR k <= x < INR k + 1 end.

Lemma real_to_int_truncates k x : truncates_to k x → (Z.of_nat k <= INT_MAX)%Z →
  real_to_int x = Ret (Z.of_nat k).
Proof.
  intros Hx Hk. destruct k as [|k]; [|by apply real_to_int_nat].
  destruct (Rle_dec 0 x); [apply real_to_int_nat; [cbn; cbn in Hx; lra|done]|].
  unfold real_to_int. cbn [ftrunc R_num truncates_to] in *. unfold R_trunc.
  destruct (Rle_dec 0 x); [done|]. rewrite (Int_part_unique (- x) 0) by (cbn; lra). done.
Qed.

Lemma real_to_int_large x : IZR (2 ^ 31) <= x → real_to_int x = Undef float_to_int_range.
Proof.
  intros Hx. unfold real_to_int. cbn [ftrunc R_num].
  destruct (R_trunc_spec x) as [_ Hz]; [pose proof (IZR_le 0 (2 ^ 31) ltac:(lia)); lra|].
  destruct (Prelude.in_int (R_trunc x)) eqn:E; [|done]. exfalso. apply in_int_spec in E.
  assert (IZR (2 ^ 31) < IZR (R_trunc x + 1)) as Hlt by (rewrite plus_IZR; lra).
  apply lt_IZR in Hlt. unfold INT_MAX in E. lia.
Qed.

Definition poisson_pmf (mean : R) (k : nat) : R := exp (- mean) * mean ^ k / INR (fact k).

Lemma fact_pos k : 0 < INR (fact k).
Proof. apply lt_0_INR, lt_O_fact. Qed.

Lemma exp_pow x k : 0 < x → exp (INR k * ln x) = x ^ k.
Proof. intros Hx. by rewrite <-Rpower_pow. Qed.

Section LargePoisson.
Context `{LgammaLaws} (lanes : nat) (mean : R) (Hmean : 12 <= mean).
#[local] Abbreviation g := (PoissonGen.create lanes mean : PoissonGen.t R R).

Lemma poisson_bound y k :
  PoissonGen.large_bound g y (Z.of_nat k) =
    9 / 10 * exp (mean - PoissonGen.g1 g) * poisson_pmf mean k * (1 + y * y).
Proof.
  unfold PoissonGen.large_bound. set (g1 := PoissonGen.g1 g).
  change (of_Z (Z.of_nat k)) with (IZR (Z.of_nat k)). rewrite <-INR_IZR_INZ.
  change (fadd (INR k) (of_Z 1)) with (INR k + 1). rewrite lgamma_fact.
  change (9 / 10 * (1 + y * y) * exp (INR k * ln mean - ln (INR (fact k)) - g1) =
    9 / 10 * exp (mean - g1) * poisson_pmf mean k * (1 + y * y)).
  replace (exp (INR k * ln mean - ln (INR (fact k)) - g1)) with (exp (mean - g1) * poisson_pmf mean k); [ring|].
  unfold poisson_pmf, Rdiv. pose proof (fact_pos k). rewrite <-exp_pow, <-(exp_ln (INR (fact k))) at 1 by lra.
  rewrite <-exp_Ropp, <-!exp_plus. f_equal. ring.
Qed.

Lemma poisson_trial {St} `{UniformSource R St} (rng rng1 rng2 : St) u w k :
  ur rng = Ret (u, rng1) → ur rng1 = Ret (w, rng2) → (Z.of_nat k <= INT_MAX)%Z →
  let y := tan (PI * u) in
  truncates_to k (PoissonGen.sqrt_tmean g * y + mean) →
  PoissonGen.large_trial g rng =
    Ret (if Rle_dec w (PoissonGen.large_bound g y (Z.of_nat k)) then Some (Z.of_nat k) else None, rng2).
Proof.
  intros Hu Hw Hk y Hy. unfold PoissonGen.large_trial. rewrite Hu. cbn [mbind outcome_bind].
  unfold PoissonGen.large_candidate.
  change (fadd _ (PoissonGen.mean g)) with (PoissonGen.sqrt_tmean g * y + mean).
  rewrite (real_to_int_truncates k); [|exact Hy|done]. cbn [mbind outcome_bind].
  rewrite (proj2 (Z.leb_le 0 _)) by lia. rewrite Hw. cbn [mbind outcome_bind]. do 2 f_equal.
  change (widen u) with u. fold y. cbn [fleb R_num widen R_float_double]. by destruct (Rle_dec w _).
Qed.

End LargePoisson.

(** For a mean from 12 on, [PoissonGen] takes [y = tan (pi u)], whose
    density is [1 / (1 + y * y)] up to a constant, proposes the number [k] to which
    [sqrt (2 mean) * y + mean] is truncated, and accepts it, by a second uniform
    number, below a bound that is a constant times the Poisson probability of [k]
    times [1 + y * y]; otherwise it starts again.  The proposal and the bound cancel, so that a number from 1
    on is drawn with its probability up to the constant; but truncation takes an
    interval of twice the width to 0, which is drawn twice as often. *)
Theorem poisson_large_exact {St} `{LgammaLaws} `{UniformSource R St} lanes mean fuel (rng rng1 rng2 : St) u w k :
  12 <= mean → ur rng = Ret (u, rng1) → ur rng1 = Ret (w, rng2) → (Z.of_nat k <= INT_MAX)%Z →
  let g : PoissonGen.t R R := PoissonGen.create lanes mean in
  let y := tan (PI * u) in
  (if (k =? 0)%nat then -1 < sqrt (2 * mean) * y + mean < 1
   else INR k <= sqrt (2 * mean) * y + mean < INR k + 1) →
  PoissonGen.call (S fuel) g rng =
    if Rle_dec w (9 / 10 * exp (mean - PoissonGen.g1 g) * poisson_pmf mean k * (1 + y * y))
    then Ret (Z.of_nat k, rng2) else PoissonGen.call fuel g rng2.
Proof.
  intros Hm Hu Hw Hk g y Hy. subst g. rewrite <-(poisson_bound lanes mean Hm).
  unfold PoissonGen.call. cbn [PoissonGen.mean PoissonGen.create].
  change (of_Z 12) with 12. rewrite (proj2 (R_fltb_false _ _)) by lra. cbn [until_accepted].
  rewrite (poisson_trial lanes mean rng rng1 rng2 u w k) by (done || by destruct k).
  cbn [mbind outcome_bind]. by destruct (Rle_dec w _).
Qed.

(** The conversion of the candidate to [int] has no guard: for every mean from 12
    on there is a uniform number for which the candidate is beyond the range of
    [int], and the call has undefined behaviour. *)
Theorem poisson_large_undefined `{Lgamma R} lanes mean : 12 <= mean →
  ∃ u, 0 < u < 1 ∧ ∀ St `(UniformSource R St) (rng rng' : St) fuel, ur rng = Ret (u, rng') →
    PoissonGen.call (S fuel) (PoissonGen.create lanes mean : PoissonGen.t R R) rng = Undef float_to_int_range.
Proof.
  intros Hm. pose proof PI_RGT_0 as Hpi. destruct (atan_bound (IZR (2 ^ 31))) as [_ Hb].
  assert (0 < atan (IZR (2 ^ 31))) as Ha.
  { rewrite <-atan_0. apply atan_increasing, IZR_lt. lia. }
  exists (atan (IZR (2 ^ 31)) / PI). split.
  { split; [by apply Rdiv_lt_0_compat|]. apply Rmult_lt_reg_r with PI; [done|]. unfold Rdiv.
    rewrite Rmult_assoc, Rinv_l by lra. lra. }
  intros St HU rng rng' fuel Hu. unfold PoissonGen.call. cbn [PoissonGen.mean PoissonGen.create].
  change (of_Z 12) with 12. rewrite (proj2 (R_fltb_false _ _)) by lra. cbn [until_accepted].
  enough (PoissonGen.large_trial (PoissonGen.create lanes mean : PoissonGen.t R R) rng = Undef float_to_int_range)
    as -> by done.
  unfold PoissonGen.large_trial. rewrite Hu. cbn [mbind outcome_bind]. unfold PoissonGen.large_candidate.
  rewrite real_to_int_large; [done|].
  change (IZR (2 ^ 31) <= sqrt (2 * mean) * tan (PI * (atan (IZR (2 ^ 31)) / PI)) + mean).
  replace (PI * (atan (IZR (2 ^ 31)) / PI)) with (atan (IZR (2 ^ 31))) by (field; lra).
  rewrite tan_atan. assert (1 <= sqrt (2 * mean)) as Hs by (rewrite <-sqrt_1; apply sqrt_le_1_alt; lra).
  pose proof (IZR_le 0 (2 ^ 31) ltac:(lia)). nra.
Qed.

(** ** Reference instances and witnesses *)

Definition R_lgamma : Lgamma R :=
  {| flgamma x := ln (INR (fact (Z.to_nat (Int_part x) - 1))) |}.

Lemma R_lgamma_laws : @LgammaLaws R_lgamma.
Proof.
  split. intros k. cbn. rewrite (Int_part_unique _ (Z.of_nat (S k))) by (rewrite <-INR_IZR_INZ, S_INR; lra).
  do 3 f_equal. lia.
Qed.

(** The conversions of the scalars in every lane. *)
Definition lane_casts : PacketCast R := {|
  ptruncate := fmap (λ x, IZR (R_trunc x));
  pcast_int := fmap (λ x, u32 (R_trunc x));
  pcast_float := fmap (λ w, IZR (signed 32 w));
  pmin := zip_with fmin;
  pcmpeq := zip_with feq;
  pnegate_int := fmap (λ w, u32 (- w));
|}.

Lemma lane_casts_laws n : @PacketCastLaws R n _ lane_casts.
Proof.
  split; cbn [ptruncate pcast_int pcast_float pmin pcmpeq pnegate_int lane_casts ftrunc R_num];
    intros; rewrite ?length_fmap; try done.
  - rewrite list_lookup_fmap, H. injection H0 as <-. eexists. split; [done|].
    split; apply R_fleb_true, Rle_refl.
  - rewrite list_lookup_fmap, H. by injection H0 as <-.
Qed.

#[local] Instance two_tape : UniformSource R (list R) := tape 2.
#[local] Instance two_lanes : PacketMath R := lane_packets 2.
#[local] Instance two_lanes_laws : PacketMathLaws (2 * 1) := lane_packets_laws 2.
#[local] Instance two_filter : PacketFilter R := list_filter 2 0.
#[local] Existing Instance instructions.
#[local] Existing Instance instructions_laws.
#[local] Existing Instance R_lgamma.
#[local] Existing Instance R_lgamma_laws.
#[local] Existing Instance lane_casts.
#[local] Instance two_casts_laws : PacketCastLaws (P:=R) (2 * 1) := lane_casts_laws 2.

Lemma poisson_arrivals_witness :
  (∃ k rng1, PoissonGen.call 1 (PoissonGen.create 2 1 : PoissonGen.t R R) [exp (- (2))] = Ret (k, rng1)) ∧
  (∃ ks g rng1, PoissonGen.packetOp 2 1 (PoissonGen.create 2 1 : PoissonGen.t R R) [exp (- (2)); exp (- (2))] =
     Ret (ks, g, rng1) ∧ length ks = 2%nat).
Proof.
  assert (0 < exp (- (2)) < 1) as Hu by (apply exp_neg_lt_1; lra).
  destruct (poisson_arrivals (St := list R) 1 2 1 1 [exp (- (2))] [] ltac:(lra) ltac:(lia)) as [Hs _].
  destruct (poisson_arrivals (St := list R) 1 2 1 1 [exp (- (2)); exp (- (2))] [] ltac:(lra) ltac:(lia)) as [_ Hp].
  split.
  - destruct (Hs [exp (- (2))]) as (k & rng1 & _ & _ & Hc);
      [done|by apply Forall_singleton|unfold rsum; cbn; rewrite ln_exp; lra|cbn; lia|cbn; lia|].
    exists (Z.of_nat k), rng1. exact Hc.
  - destruct (Hp [[exp (- (2)); exp (- (2))]]) as (ks & rng1 & Hl & _ & Hc);
      [done| | |cbn; lia|cbn; lia|].
    + apply Forall_singleton. split; [done|]. by apply Forall_cons_2, Forall_singleton.
    + intros i Hi. unfold rsum. destruct i as [|[|i]]; [| |lia]; cbn; rewrite ln_exp; lra.
    + exists (Z.of_nat <$> ks). do 2 eexists. split; [exact Hc|]. rewrite length_fmap. exact Hl.
Defined.

Lemma poisson_large_exact_witness :
  PoissonGen.call 1 (PoissonGen.create 2 12 : PoissonGen.t R R) [0; 0] = Ret (12%Z, []).
Proof.
  rewrite (poisson_large_exact 2 12 0 [0; 0] [0] [] 0 0 12); [|lra|done|done|int_lia|].
  - destruct (Rle_dec _ _) as [|Hn]; [done|]. exfalso. apply Hn. unfold poisson_pmf.
    repeat apply Rmult_le_pos; try (left; apply exp_pos); try lra; [|nra].
    left. apply Rinv_0_lt_compat, fact_pos.
  - cbv beta iota. change (INR 12 <= sqrt (2 * 12) * tan (PI * 0) + 12 < INR 12 + 1).
    rewrite Rmult_0_r, tan_0, Rmult_0_r, INR_IZR_INZ. change (Z.of_nat 12) with 12%Z. lra.
Defined.

Lemma poisson_large_undefined_witness : ∃ u,
  PoissonGen.call 1 (PoissonGen.create 2 12 : PoissonGen.t R R) [u] = Undef float_to_int_range.
Proof.
  destruct (poisson_large_undefined 2 12) as (u & _ & Hu); [lra|]. exists u.
  by apply (Hu (list R) two_tape [u] []).
Defined.
