(* ===== verification/BinomialProps.v ===== *)
(** The binomial and geometric generators over exact arithmetic: few trials are
    counted one by one, many are drawn with acceptance bounds proportional to the
    binomial distribution or, with a small mean, from the Poisson distribution,
    beyond the number of trials; geometric numbers are drawn by inversion. *)

From S2P Require Import Prelude.
From S2P Require Import Num.
From S2P Require Import NumR.
From S2P Require Import Simd.
From S2P Require Import PacketMath.
From S2P Require Import PacketMathProps.
From S2P Require Import Reject.
From S2P Require Import AliasProps.
From S2P Require Import DiscreteReal.
From S2P Require Import DiscreteRealProps.
From S2P Require Import GammaBeta.
From S2P Require Import Poisson.
From S2P Require Import RejectProps.
From S2P Require Import ContinuousProps.
From S2P Require Import GammaProps.
From S2P Require Import PoissonProps.
From Stdlib Require Import Reals Lra.

#[local] Open Scope R_scope.

(** ** Few trials *)

(** The numbers below [p]. *)
Definition successes (p : R) (us : list R) : nat := length (List.filter (λ u, fltb u p) us).

Lemma successes_le p us : (successes p us <= length us)%nat.
Proof. apply List.filter_length_le. Qed.

Lemma trial_loop_ok {St} `{UniformSource R St} (cast : R → R) p us res (rng rng' : St) :
  (∀ u, cast u = u) → draw_n ur (length us) rng = Ret (us, rng') →
  (INT_MIN <= res)%Z → (res + Z.of_nat (length us) <= INT_MAX)%Z →
  BinomialGen.trial_loop cast p (length us) res rng = Ret ((res + Z.of_nat (successes p us))%Z, rng').
Proof.
  intros Hc. revert res rng. induction us as [|u us IH]; intros res rng Hd Hmin Hmax.
  - injection Hd as <-. cbn. by rewrite Z.add_0_r.
  - cbn [length] in Hd, Hmax. apply draw_n_S in Hd as (? & ? & rng1 & [= <- <-] & Hdr & Hd).
    cbn [length BinomialGen.trial_loop]. rewrite Hdr. cbn [mbind outcome_bind]. rewrite Hc.
    unfold successes. cbn [List.filter]. destruct (fltb u p).
    + rewrite int_add_ok by lia. cbn [mbind outcome_bind]. rewrite IH by (done || lia).
      unfold successes. do 2 f_equal. cbn [length]. lia.
    + cbn [mbind outcome_bind]. by rewrite IH by (done || lia).
Qed.

(** A packet of counts goes down in the lanes where the number is not below. *)
Lemma trial_packets_ok {St} `{UniformSource R St} m `{PacketMath R} `{!PacketMathLaws (2 * m)} `{EigenPackets}
    `{!EigenPacketLaws} p ps (t : nat → Z) (rng rng' : St) :
  draw_n ur_packet (length ps) rng = Ret (ps, rng') → Forall (λ q, length q = (2 * m)%nat) ps →
  (∀ i, Z.of_nat (length ps) <= t i < 2 ^ 32)%Z →
  BinomialGen.trial_packets (pset1 p) (length ps) (t <$> seq 0 (2 * m)) rng =
    Ret ((λ i, (t i - Z.of_nat (length ps) + Z.of_nat (successes p (lane_numbers i ps)))%Z) <$> seq 0 (2 * m), rng').
Proof.
  intros Hd Hps. revert t rng Hd. induction Hps as [|q ps Hq Hps IH]; intros t rng Hd Ht.
  - injection Hd as <-. cbn [length BinomialGen.trial_packets]. do 2 f_equal. apply list_fmap_ext.
    intros _ i _. cbn. lia.
  - cbn [length] in Hd, Ht. apply draw_n_S in Hd as (? & ? & rng1 & [= <- <-] & Hdr & Hd).
    cbn [length BinomialGen.trial_packets]. rewrite Hdr. cbn [mbind outcome_bind].
    assert (pcmple (pset1 p) q = (λ i, fleb p (nth i q 0)) <$> seq 0 (2 * m)) as ->.
    { apply (packet_eq (2 * m)); [lane_count|by rewrite length_fmap, length_seq|]. intros i Hi.
      destruct (lookup_lt_is_Some_2 q i) as [u Hu]; [lia|]. lane_at. rewrite lookup_seq_lt by done. cbn.
      by rewrite (nth_lookup_Some _ _ _ _ Hu). }
    unfold DiscreteRealGen.reinterpret_ps. rewrite (padd_mask m) by
      (rewrite ?length_seq; try done; intros x; specialize (Ht x); lia).
    rewrite IH; [|done|].
    + do 2 f_equal. apply list_fmap_ext. intros _ i _. unfold successes, lane_numbers.
      rewrite fmap_cons. cbn [List.filter length fleb fltb R_num].
      destruct (Rle_dec p (nth i q 0)), (Rlt_dec (nth i q 0) p); cbn [length]; lra || lia.
    + intros i. specialize (Ht i). destruct (fleb p (nth i q 0)); lia.
Qed.

(** With fewer than 25 trials, [BinomialGen] counts how many of as many uniform
    numbers are below [p], in the scalar call and, counting down from the number
    of trials, in every lane of the packet operation. *)
Theorem binomial_counts {St} `{UniformSource R St} `{Lgamma R} m `{PacketMath R} `{!PacketMathLaws (2 * m)}
    `{EigenPackets} `{!EigenPacketLaws} `{PacketCast R} `{PacketFilter R} lanes trials p fuel (rng rng' : St) :
  (trials < 25)%nat →
  ∃ g : BinomialGen.t R R, BinomialGen.create lanes (Z.of_nat trials) p = Ret g ∧
    (∀ us, draw_n ur trials rng = Ret (us, rng') →
       BinomialGen.call fuel g rng = Ret (Z.of_nat (successes p us), rng')) ∧
    (∀ ps, draw_n ur_packet trials rng = Ret (ps, rng') → Forall (λ q, length q = (2 * m)%nat) ps →
       BinomialGen.packetOp (2 * m) fuel g rng =
         Ret ((λ i, Z.of_nat (successes p (lane_numbers i ps))) <$> seq 0 (2 * m), g, rng')).
Proof.
  intros Ht. unfold BinomialGen.create. set (pg := PoissonGen.create _ _).
  assert (Z.of_nat trials <? 25 = true)%Z as Hlt by (apply Z.ltb_lt; lia).
  unfold BinomialGen.is_small. rewrite Hlt. cbn [orb]. eexists. split; [reflexivity|]. split.
  - intros us Hd. destruct (draw_n_take ur trials _ rng us rng' Hd (le_n _)) as (_ & _ & Hl).
    unfold BinomialGen.call. cbn [BinomialGen.trials BinomialGen.p]. rewrite Hlt, Nat2Z.id, <-Hl.
    rewrite <-Hl in Hd. by rewrite (trial_loop_ok _ p us 0 rng rng') by (done || int_lia).
  - intros ps Hd Hps. destruct (draw_n_take ur_packet trials _ rng ps rng' Hd (le_n _)) as (_ & _ & Hl).
    unfold BinomialGen.packetOp. cbn [BinomialGen.trials BinomialGen.p narrow R_float_double]. rewrite Hlt, Nat2Z.id, <-Hl.
    rewrite <-Hl in Hd. rewrite PacketMath.pset1_lanes.
    replace (set1_epi32 (2 * m) (u32 (Z.of_nat (length ps)))) with ((λ _, Z.of_nat (length ps)) <$> seq 0 (2 * m)).
    + rewrite (trial_packets_ok m p ps (λ _, Z.of_nat (length ps)) rng rng') by (done || lia).
      cbn [mbind outcome_bind]. do 3 f_equal. apply list_fmap_ext. intros _ i _. lia.
    + unfold set1_epi32. rewrite u32_idemp, u32_id by lia. rewrite (const_fmap _ _ (Z.of_nat (length ps))) by done.
      by rewrite length_seq.
Qed.

(** ** Many trials *)

Definition binomial_pmf (n : nat) (p : R) (k : nat) : R := C n k * p ^ k * (1 - p) ^ (n - k).

Lemma small_probability p : 0 < p < 1 →
  (fmin p (1 - p) = p ∧ p <= / 2 ∨ fmin p (1 - p) = 1 - p ∧ / 2 < p) ∧ 0 < fmin p (1 - p) < 1.
Proof.
  intros Hp. unfold fmin. destruct (fltb (1 - p) p) eqn:E.
  - apply R_fltb_true in E. split; [right; split; [done|]|]; lra.
  - apply R_fltb_false in E. split; [left; split; [done|]|]; lra.
Qed.

(** The number returned for the candidate [k]. *)
Definition reflected (n : nat) (p : R) (k : Z) : Z := if Rle_dec p (/ 2) then k else Z.of_nat n - k.

Lemma binomial_pmf_reflected n p k : 0 < p < 1 → (k <= n)%nat →
  binomial_pmf n p (Z.to_nat (reflected n p (Z.of_nat k))) = binomial_pmf n (fmin p (1 - p)) k.
Proof.
  intros Hp Hk. unfold reflected. destruct (small_probability p Hp) as [[[-> ?]|[-> ?]] _].
  - destruct (Rle_dec p (/ 2)); [|lra]. by rewrite Nat2Z.id.
  - destruct (Rle_dec p (/ 2)); [lra|]. replace (Z.to_nat _) with (n - k)%nat by lia.
    unfold binomial_pmf. rewrite <-(pascal_step1 n k) by done. replace (n - (n - k))%nat with k by lia.
    replace (1 - (1 - p)) with p by ring. ring.
Qed.

Section ManyTrials.
Context `{LgammaLaws} (lanes n : nat) (p : R).
Context (Hn : (25 <= n)%nat) (Hmax : (Z.of_nat n < INT_MAX)%Z) (Hp : 0 < p < 1).
#[local] Abbreviation sp := (fmin p (1 - p)).
#[local] Abbreviation mean := (INR n * sp).

Definition binomial_of (g1 sqrt_v lp lq : R) : BinomialGen.t R R :=
  BinomialGen.mk (PoissonGen.create lanes mean) (Z.of_nat n) p sp g1 sqrt_v lp lq.
Definition small_mean_gen : BinomialGen.t R R := binomial_of 0 0 0 0.
Definition large_mean_gen : BinomialGen.t R R :=
  binomial_of (flgamma (INR n + 1)) (sqrt (2 * mean * (1 - sp))) (ln sp) (ln (1 - sp)).

Lemma binomial_create :
  BinomialGen.create lanes (Z.of_nat n) p =
    Ret (if Rlt_dec mean 1 then small_mean_gen else large_mean_gen).
Proof.
  unfold BinomialGen.create, BinomialGen.is_small.
  rewrite (proj2 (Z.ltb_ge (Z.of_nat n) 25)) by lia. cbn [orb PoissonGen.mean PoissonGen.create].
  change (fsub (of_Z 1) p) with (1 - p). change (of_Z (Z.of_nat n)) with (IZR (Z.of_nat n)). rewrite <-INR_IZR_INZ.
  change (fmul (INR n) sp) with mean. change (of_Z 1) with 1. cbn [fltb R_num].
  destruct (Rlt_dec mean 1); [done|]. rewrite int_add_ok by int_lia. cbn [mbind outcome_bind].
  unfold large_mean_gen, binomial_of. do 2 f_equal. change (of_Z (Z.of_nat n + 1)) with (IZR (Z.of_nat n + 1)).
  by rewrite plus_IZR, <-INR_IZR_INZ.
Qed.

Lemma binomial_bound y k : (k <= n)%nat →
  BinomialGen.large_bound large_mean_gen y (Z.of_nat k) =
    12 / 10 * sqrt (2 * mean * (1 - sp)) * binomial_pmf n sp k * (1 + y * y).
Proof.
  intros Hk. destruct (small_probability p Hp) as [_ Hsp]. unfold BinomialGen.large_bound.
  cbn [BinomialGen.g1 BinomialGen.sqrt_v BinomialGen.trials BinomialGen.log_small_p BinomialGen.log_small_q
    large_mean_gen binomial_of].
  replace (Z.of_nat n - Z.of_nat k)%Z with (Z.of_nat (n - k)) by lia.
  change (of_Z (Z.of_nat k + 1)) with (IZR (Z.of_nat k + 1)). rewrite plus_IZR.
  change (of_Z (Z.of_nat k)) with (IZR (Z.of_nat k)). change (of_Z (Z.of_nat (n - k))) with (IZR (Z.of_nat (n - k))).
  rewrite <-!INR_IZR_INZ. change (fadd (INR (n - k)) (of_Z 1)) with (INR (n - k) + 1). rewrite !lgamma_fact.
  change (12 / 10 * sqrt (2 * mean * (1 - sp)) * (1 + y * y) *
    exp (ln (INR (fact n)) - ln (INR (fact k)) - ln (INR (fact (n - k))) + INR k * ln sp + INR (n - k) * ln (1 - sp)) =
    12 / 10 * sqrt (2 * mean * (1 - sp)) * binomial_pmf n sp k * (1 + y * y)).
  replace (exp _) with (binomial_pmf n sp k); [ring|].
  unfold binomial_pmf, C. pose proof (fact_pos n). pose proof (fact_pos k). pose proof (fact_pos (n - k)).
  rewrite <-!exp_pow by lra. rewrite <-(exp_ln (INR (fact n) / _)) by (apply Rdiv_lt_0_compat; nra).
  rewrite <-!exp_plus. f_equal. unfold Rdiv. rewrite ln_mult, ln_Rinv, ln_mult by (try apply Rinv_0_lt_compat; nra).
  ring.
Qed.

Lemma reflect_ok g1 sqrt_v lp lq k : (Z.of_nat k <= INT_MAX)%Z →
  BinomialGen.reflect (binomial_of g1 sqrt_v lp lq) (Z.of_nat k) = Ret (reflected n p (Z.of_nat k)).
Proof.
  intros Hk. unfold BinomialGen.reflect, reflected. cbn [BinomialGen.p BinomialGen.small_p BinomialGen.trials binomial_of].
  destruct (small_probability p Hp) as [[[-> ?]|[-> ?]] _]; destruct (Rle_dec p (/ 2)); try lra.
  - by rewrite (proj2 (R_feq p p)).
  - rewrite R_feq_false by lra. rewrite int_sub_ok by int_lia. done.
Qed.

End ManyTrials.

(** With 25 trials or more and a mean from 1 on, [BinomialGen] takes [y = tan (pi
    u)], whose density is [1 / (1 + y * y)] up to a constant, truncates [sqrt_v * y
    + mean] to a candidate, reflects it when [p] is above one half, and accepts
    the result [j], by a second uniform number, below a bound that is a constant
    times the binomial probability of [j] times [1 + y * y]; otherwise it starts
    again.  The proposal and the bound cancel; but truncation takes an interval
    of twice the width to the candidate 0. *)
Theorem binomial_large_exact {St} `{LgammaLaws} `{UniformSource R St} lanes n p :
  (25 <= n)%nat → (Z.of_nat n < INT_MAX)%Z → 0 < p < 1 → 1 <= INR n * fmin p (1 - p) →
  let v := 2 * (INR n * fmin p (1 - p)) * (1 - fmin p (1 - p)) in
  ∃ g : BinomialGen.t R R, BinomialGen.create lanes (Z.of_nat n) p = Ret g ∧
    ∀ fuel (rng rng1 rng2 : St) u w k, ur rng = Ret (u, rng1) → ur rng1 = Ret (w, rng2) → (k <= n)%nat →
      let y := tan (PI * u) in
      truncates_to k (sqrt v * y + INR n * fmin p (1 - p)) →
      let j := reflected n p (Z.of_nat k) in
      BinomialGen.call (S fuel) g rng =
        if Rle_dec w (12 / 10 * sqrt v * binomial_pmf n p (Z.to_nat j) * (1 + y * y))
        then Ret (j, rng2) else BinomialGen.call fuel g rng2.
Proof.
  intros Hn Hmax Hp Hmean v. exists (large_mean_gen lanes n p). split.
  { rewrite binomial_create by done. by destruct (Rlt_dec _ 1); [lra|]. }
  intros fuel rng rng1 rng2 u w k Hu Hw Hk y Hy j. subst v. unfold j. rewrite binomial_pmf_reflected by done.
  rewrite <-(binomial_bound lanes) by done. set (g := large_mean_gen lanes n p).
  assert (BinomialGen.large_trial g rng =
    Ret (if Rle_dec w (BinomialGen.large_bound g y (Z.of_nat k)) then Some (Z.of_nat k) else None, rng2)) as Ht.
  { unfold BinomialGen.large_trial. rewrite Hu. cbn [mbind outcome_bind].
    rewrite (real_to_int_truncates k); [|exact Hy|lia]. cbn [mbind outcome_bind].
    change (BinomialGen.trials g) with (Z.of_nat n). rewrite (proj2 (Z.leb_le 0 _)), (proj2 (Z.leb_le _ (Z.of_nat n))) by lia.
    cbn [andb]. rewrite Hw. cbn [mbind outcome_bind]. do 2 f_equal.
    change (widen u) with u. fold y. cbn [fleb R_num widen R_float_double]. by destruct (Rle_dec w _). }
  unfold BinomialGen.call. change (BinomialGen.trials g) with (Z.of_nat n).
  rewrite (proj2 (Z.ltb_ge _ 25)) by lia. change (PoissonGen.mean (BinomialGen.poisson g)) with (INR n * fmin p (1 - p)).
  change (of_Z 1) with 1. rewrite (proj2 (R_fltb_false _ 1)) by lra. cbn [until_accepted]. rewrite Ht.
  cbn [mbind outcome_bind]. destruct (Rle_dec w _); [|done].
  unfold g, large_mean_gen. cbn [mbind outcome_bind]. rewrite reflect_ok by (done || lia). done.
Qed.

(** Numbers that make the Poisson generator count to [k]. *)
Definition close_arrivals (mean : R) (k : nat) : list R :=
  replicate k (exp (- (mean / (INR k + 1)))) ++ [exp (- mean)].

Lemma close_arrivals_ok mean k : 0 < mean →
  Forall (λ u, 0 < u < 1) (close_arrivals mean k) ∧ length (close_arrivals mean k) = S k ∧
  arrivals mean (close_arrivals mean k) k.
Proof.
  intros Hm. pose proof (pos_INR k) as Hk. unfold close_arrivals. set (e := mean / (INR k + 1)).
  assert (0 < e) as He by (apply Rdiv_lt_0_compat; lra).
  assert (∀ j, rsum (gaps (replicate j (exp (- e)))) = INR j * e) as Hr.
  { intros j. induction j as [|j IH]; [unfold rsum; cbn; ring|]. cbn [replicate].
    rewrite gaps_cons, IH, ln_exp, S_INR. ring. }
  split_and!.
  - apply Forall_app. split; [apply Forall_replicate|apply Forall_singleton]; apply exp_neg_lt_1; lra.
  - rewrite length_app, length_replicate. cbn. lia.
  - split; [rewrite length_app, length_replicate; cbn; lia|].
    rewrite take_app_length' by (by rewrite length_replicate).
    rewrite take_ge by (rewrite length_app, length_replicate; cbn; lia). unfold gaps at 2. rewrite fmap_app, rsum_app.
    fold (gaps (replicate k (exp (- e)))). rewrite Hr. cbn. rewrite ln_exp.
    assert ((INR k + 1) * e = mean) by (unfold e; field; lra). nra.
Qed.

(** With 25 trials or more and a mean below 1, [BinomialGen] takes a Poisson
    number in place of a binomial one, and nothing bounds it by the number of
    trials: there are uniform numbers for which the result is above the number of
    trials or, when [p] is above one half, negative. *)
Theorem binomial_out_of_range `{Lgamma R} lanes n p :
  (25 <= n)%nat → (Z.of_nat n < INT_MAX)%Z → 0 < p < 1 → INR n * fmin p (1 - p) < 1 →
  ∃ us, Forall (λ u, 0 < u < 1) us ∧ ∃ g : BinomialGen.t R R,
    BinomialGen.create lanes (Z.of_nat n) p = Ret g ∧
    ∀ St `(UniformSource R St) (rng rng' : St) fuel,
      draw_n ur (length us) rng = Ret (us, rng') → (length us <= fuel)%nat →
      BinomialGen.call fuel g rng = Ret ((if Rle_dec p (/ 2) then Z.of_nat n + 1 else -1)%Z, rng').
Proof.
  intros Hn Hmax Hp Hmean. destruct (small_probability p Hp) as [_ Hsp].
  assert (0 < INR n * fmin p (1 - p)) as Hpos by (apply Rmult_lt_0_compat; [apply lt_0_INR; lia|lra]).
  destruct (close_arrivals_ok _ (S n) Hpos) as (Hu & Hl & Ha).
  exists (close_arrivals (INR n * fmin p (1 - p)) (S n)). split; [done|].
  exists (small_mean_gen lanes n p). split.
  { rewrite binomial_create by done. by destruct (Rlt_dec _ 1); [|lra]. }
  intros St HU rng rng' fuel Hd Hf. unfold BinomialGen.call. set (g := small_mean_gen lanes n p).
  change (BinomialGen.trials g) with (Z.of_nat n). rewrite (proj2 (Z.ltb_ge _ 25)) by lia.
  change (PoissonGen.mean (BinomialGen.poisson g)) with (INR n * fmin p (1 - p)).
  change (of_Z 1) with 1. rewrite (proj2 (R_fltb_true _ 1)) by lra. unfold PoissonGen.call.
  change (PoissonGen.mean (BinomialGen.poisson g)) with (INR n * fmin p (1 - p)).
  change (PoissonGen.ne_mean (BinomialGen.poisson g)) with (exp (- (INR n * fmin p (1 - p)))).
  change (of_Z 12) with 12. change (of_Z 1) with 1. rewrite (proj2 (R_fltb_true _ 12)) by lra.
  rewrite (small_loop_ok _ _ (close_arrivals (INR n * fmin p (1 - p)) (S n)) (S n) 1 0 fuel rng rng');
    try done; try lra; try int_lia; try lia; [|by apply arrivals_start].
  cbn [mbind outcome_bind]. unfold g, small_mean_gen. rewrite Z.add_0_l, reflect_ok by (done || int_lia).
  cbn [mbind outcome_bind]. unfold reflected. destruct (Rle_dec p (/ 2)); do 2 f_equal; lia.
Qed.

(** ** Geometric numbers *)

(** The number of failures before a success, with probability [p] of success, by
    inversion: its distribution function at [k - 1] is [1 - (1 - p) ^ k]. *)
Definition geometric (p u : R) (k : nat) : Prop := 1 - (1 - p) ^ k <= u < 1 - (1 - p) ^ (S k).

Lemma geometric_quotient p u k : 0 < p < 1 → 0 <= u < 1 → geometric p u k →
  INR k <= ln (1 - u) * (1 / ln (1 - p)) < INR k + 1.
Proof.
  intros Hp Hu [Hlo Hhi]. pose proof (ln_unit_neg (1 - p) ltac:(lra)) as Hq.
  assert (∀ j, 0 < (1 - p) ^ j) as Hpos by (intros; apply pow_lt; lra).
  assert (∀ j, ln ((1 - p) ^ j) = INR j * ln (1 - p)) as Hln by (intros; apply ln_pow; lra).
  assert (ln (1 - u) <= INR k * ln (1 - p)) as H1.
  { rewrite <-Hln. destruct (Req_dec (1 - u) ((1 - p) ^ k)) as [-> |]; [lra|].
    left. apply ln_increasing; lra. }
  assert (INR (S k) * ln (1 - p) < ln (1 - u)) as H2 by (rewrite <-Hln; apply ln_increasing; [done|lra]).
  rewrite S_INR in H2. pose proof (Rinv_lt_0_compat _ Hq) as Hi. unfold Rdiv. rewrite Rmult_1_l.
  assert (ln (1 - p) * / ln (1 - p) = 1) as H3 by (apply Rinv_r; lra).
  set (q := ln (1 - p)) in *. set (l := ln (1 - u)) in *.
  assert (INR k * (q * / q) <= l * / q < (INR k + 1) * (q * / q)) as H4; [|by rewrite H3, !Rmult_1_r in H4].
  split; nra.
Qed.

(** [GeometricGen] returns, for a uniform number [u], the number [k] of failures
    with [1 - (1 - p) ^ k <= u < 1 - (1 - p) ^ (k + 1)]: it inverts the distribution
    function of the geometric distribution, in the call and in every lane of the
    packet operation, as long as [k] is an [int]. *)
Theorem geometric_exact {St} `{UniformSource R St} n `{PacketMath R} `{!PacketMathLaws n}
    `{PacketCast R} `{!PacketCastLaws (P:=R) n} p :
  0 < p < 1 →
  let g : GeometricGen.t R := GeometricGen.create p in
  (∀ (rng rng' : St) u k, ur rng = Ret (u, rng') → 0 <= u < 1 → geometric p u k → (Z.of_nat k <= INT_MAX)%Z →
     GeometricGen.call g rng = Ret (Z.of_nat k, rng')) ∧
  (∀ (rng rng' : St) us ks, ur_packet rng = Ret (us, rng') → length us = n → length ks = n →
     Forall (λ u, 0 <= u < 1) us → Forall (λ k, Z.of_nat k <= INT_MAX)%Z ks →
     (∀ i u k, us !! i = Some u → ks !! i = Some k → geometric p u k) →
     GeometricGen.packetOp g rng = Ret (Z.of_nat <$> ks, rng')).
Proof.
  intros Hp g. split.
  - intros rng rng' u k Hd Hu Hk Hmax. unfold GeometricGen.call. rewrite Hd. cbn [mbind outcome_bind].
    rewrite (real_to_int_nat _ k); [done| |done]. by apply geometric_quotient.
  - intros rng rng' us ks Hd Hl Hlk Hu Hmax Hk. unfold GeometricGen.packetOp. rewrite Hd. cbn [mbind outcome_bind].
    do 2 f_equal. set (xs := pmul _ _).
    assert (length xs = n) as Hxs by (unfold xs; lane_count).
    apply (packet_eq n); [by rewrite pcast_int_length, ptruncate_length|by rewrite length_fmap|]. intros i Hi.
    destruct (lookup_lt_is_Some_2 us i) as [u Hu']; [lia|]. destruct (lookup_lt_is_Some_2 ks i) as [k Hk']; [lia|].
    pose proof (Forall_lookup_1 _ _ _ _ Hu Hu') as Hu1. pose proof (Forall_lookup_1 _ _ _ _ Hmax Hk') as Hk1.
    cbv beta in Hu1, Hk1. pose proof (geometric_quotient p u k Hp Hu1 (Hk i u k Hu' Hk')) as Hq.
    assert (xs !! i = Some (ln (1 - u) * (1 / ln (1 - p)))) as Hx by (unfold xs; lane_at; done).
    assert (Prelude.in_int (Z.of_nat k) = true) as Hint by (apply in_int_spec; int_lia).
    destruct (ptruncate_lane xs i _ (Z.of_nat k) Hx) as (y & Hy & Hy1 & Hy2); [|done|].
    { cbn [ftrunc R_num]. by rewrite (R_trunc_nat _ k). }
    apply R_fleb_true in Hy1, Hy2. assert (y = INR k) as -> by (rewrite INR_IZR_INZ; cbn in Hy1, Hy2; lra).
    rewrite (pcast_int_lane _ i (INR k) (Z.of_nat k) Hy); [|cbn [ftrunc R_num]; by rewrite (R_trunc_nat _ k) by lra|done].
    rewrite list_lookup_fmap, Hk'. cbn. rewrite u32_id; [done|int_lia].
Qed.

(** ** Witnesses *)

#[local] Instance two_tape : UniformSource R (list R) := tape 2.
#[local] Instance two_lanes : PacketMath R := lane_packets 2.
#[local] Instance two_lanes_laws : PacketMathLaws (2 * 1) := lane_packets_laws 2.
#[local] Instance two_filter : PacketFilter R := list_filter 2 0.
#[local] Existing Instance instructions.
#[local] Existing Instance instructions_laws.
#[local] Existing Instance R_lgamma.
#[local] Existing Instance R_lgamma_laws.
#[local] Existing Instance lane_casts.
#[local] Instance two_casts_laws : PacketCastLaws (P:=R) (2 * 1) := lane_casts_laws 2.

Lemma binomial_counts_witness : ∃ g : BinomialGen.t R R,
  BinomialGen.create 2 2 (/ 2) = Ret g ∧
  BinomialGen.call 0 g [/ 4; / 3] = Ret (Z.of_nat (successes (/ 2) [/ 4; / 3]), []) ∧
  BinomialGen.packetOp 2 0 g [/ 4; 1; / 3; / 3] =
    Ret ((λ i, Z.of_nat (successes (/ 2) (lane_numbers i [[/ 4; 1]; [/ 3; / 3]]))) <$> seq 0 2, g, []).
Proof.
  destruct (binomial_counts (St := list R) 1 2 2 (/ 2) 0 [/ 4; / 3] [] ltac:(lia)) as (g & Hg & Hc & _).
  destruct (binomial_counts (St := list R) 1 2 2 (/ 2) 0 [/ 4; 1; / 3; / 3] [] ltac:(lia)) as (g' & Hg' & _ & Hp).
  assert (g' = g) as -> by congruence. exists g. split; [exact Hg|]. split.
  - by apply (Hc [/ 4; / 3]).
  - apply (Hp [[/ 4; 1]; [/ 3; / 3]]); [done|]. by apply Forall_cons_2, Forall_singleton.
Defined.

Lemma fmin_half : fmin (/ 2) (1 - / 2) = / 2.
Proof. destruct (small_probability (/ 2) ltac:(lra)) as [[[H _]|[_ H]] _]; lra. Qed.

Lemma binomial_pmf_nonneg n p k : 0 < p < 1 → 0 <= binomial_pmf n p k.
Proof.
  intros Hp. unfold binomial_pmf, C. apply Rmult_le_pos; [apply Rmult_le_pos|]; try (apply pow_le; lra).
  pose proof (fact_pos n). pose proof (fact_pos k). pose proof (fact_pos (n - k)).
  unfold Rdiv. apply Rmult_le_pos; [lra|]. left. apply Rinv_0_lt_compat. nra.
Qed.

Lemma binomial_large_exact_witness : ∃ g : BinomialGen.t R R,
  BinomialGen.create 2 100 (/ 2) = Ret g ∧ BinomialGen.call 1 g [0; 0] = Ret (50%Z, []).
Proof.
  assert (INR 100 = 100) as H100 by (rewrite INR_IZR_INZ; reflexivity).
  destruct (binomial_large_exact (St := list R) 2 100 (/ 2)) as (g & Hg & Hc);
    [lia|int_lia|lra|rewrite fmin_half; lra|].
  exists g. split; [exact Hg|]. rewrite (Hc 0%nat [0; 0] [0] [] 0 0 50%nat); [|done|done|lia|].
  - unfold reflected. destruct (Rle_dec (/ 2) (/ 2)); [|lra]. destruct (Rle_dec 0 _) as [|Hn]; [done|].
    exfalso. apply Hn. apply Rmult_le_pos; [apply Rmult_le_pos; [apply Rmult_le_pos; [lra|apply sqrt_pos]|]|nra].
    apply binomial_pmf_nonneg. lra.
  - rewrite Rmult_0_r, tan_0, Rmult_0_r, fmin_half, H100. unfold truncates_to. rewrite INR_IZR_INZ.
    change (Z.of_nat 50) with 50%Z. lra.
Defined.

Lemma draw_tape (us : list R) : draw_n ur (length us) us = Ret (us, []).
Proof.
  induction us as [|u us IH]; [done|]. cbn [length draw_n].
  change (ur (u :: us)) with (Ret (u, us)). cbn [mbind outcome_bind]. by rewrite IH.
Qed.

Lemma binomial_out_of_range_witness : ∃ us (g : BinomialGen.t R R),
  BinomialGen.create 2 25 (99 / 100) = Ret g ∧
  BinomialGen.call (length us) g us = Ret ((-1)%Z, []).
Proof.
  assert (INR 25 = 25) as H25 by (rewrite INR_IZR_INZ; reflexivity).
  destruct (small_probability (99 / 100) ltac:(lra)) as [[[_ ?]|[Hs _]] _]; [lra|].
  destruct (binomial_out_of_range 2 25 (99 / 100)) as (us & _ & g & Hg & Hc); [lia|int_lia|lra|rewrite Hs, H25; lra|].
  exists us, g. split; [exact Hg|].
  pose proof (Hc (list R) two_tape us [] (length us) (draw_tape us) (le_n _)) as Hr.
  destruct (Rle_dec (99 / 100) (/ 2)); [lra|exact Hr].
Defined.

Lemma geometric_exact_witness :
  GeometricGen.call (GeometricGen.create (/ 2) : GeometricGen.t R) [5 / 8] = Ret (1%Z, []) ∧
  GeometricGen.packetOp (GeometricGen.create (/ 2) : GeometricGen.t R) [5 / 8; 0] = Ret ([1; 0]%Z, []).
Proof.
  destruct (geometric_exact (St := list R) (2 * 1) (/ 2) ltac:(lra)) as [Hs Hp]. split.
  - apply (Hs [5 / 8] [] (5 / 8) 1%nat); [done|lra|unfold geometric; cbn; lra|int_lia].
  - apply (Hp [5 / 8; 0] [] [5 / 8; 0] [1; 0]%nat); [done|done|done| | |].
    + apply Forall_cons_2; [lra|apply Forall_singleton; lra].
    + apply Forall_cons_2; [int_lia|apply Forall_singleton; int_lia].
    + intros [|[|i]] u k Hu Hk; [..|done]; injection Hu as <-; injection Hk as <-; unfold geometric; cbn; lra.
Defined.
