(* ===== verification/BinomialVProps.v ===== *)
(** [BinomialVGen] and [NegativeBinomialGen]: the lanes of a packet keep the first
    candidate that is accepted in each, lanes with a small mean are Poisson counts
    even for few trials, where the scalar call counts successes, and the variant
    on [float] returns a value for bits. *)

From S2P Require Import Prelude.
From S2P Require Import FloatBits.
From Stdlib Require Import SpecFloat.
From S2P Require Import Num.
From S2P Require Import FloatNum.
From S2P Require Import NumR.
From S2P Require Import Simd.
From S2P Require Import PacketMath.
From S2P Require Import PacketMathProps.
From S2P Require Import Reject.
From S2P Require Import DiscreteReal.
From S2P Require Import GammaBeta.
From S2P Require Import Poisson.
From S2P Require Import BinomialV.
From S2P Require Import RejectProps.
From S2P Require Import ContinuousProps.
From S2P Require Import GammaProps.
From S2P Require Import PoissonProps.
From S2P Require Import BinomialProps.
From Stdlib Require Import Reals Lra.

#[local] Open Scope nat_scope.

(** ** The first accepted candidate of every lane *)

Section Fill.
Context {P St : Type} (n : nat) (predux_all : list Z → bool).

(** [predux_all] on a mask of [n] lanes. *)
Definition reduces : Prop := ∀ c, length c = n →
  predux_all (DiscreteRealGen.reinterpret_ps c) = forallb (λ b, b) c.

(** The first candidate of lane [i] that is accepted. *)
Fixpoint first_accepted (i : nat) (ts : list (list P * list bool)) : option P :=
  match ts with
  | [] => None
  | (v, bs) :: ts => if bool_decide (bs !! i = Some true) then v !! i else first_accepted i ts
  end.

Lemma forallb_lookup (c : list bool) : forallb (λ b, b) c = true ↔ ∀ i, (i < length c) → c !! i = Some true.
Proof.
  rewrite forallb_forall. split.
  - intros Hc i Hi. destruct (lookup_lt_is_Some_2 c i Hi) as [b Hb]. rewrite Hb. f_equal.
    apply Hc, list_elem_of_In. by eapply list_elem_of_lookup_2.
  - intros Hc b Hb. apply list_elem_of_In, list_elem_of_lookup_1 in Hb as [i Hi].
    pose proof (lookup_lt_Some _ _ _ Hi) as Hl. rewrite (Hc i Hl) in Hi. congruence.
Qed.

Lemma fill_lanes_ok trial ts valid valid_res (rng rng' : St) :
  reduces → trials trial (length ts) rng = Ret (ts, rng') → Forall (has_lanes n) ts →
  length valid = n → length valid_res = n → forallb (λ b, b) valid = false →
  (∀ i, valid !! i = Some false → is_Some (first_accepted i ts)) →
  ∃ out rng1, BinomialVGen.fill_lanes predux_all trial (length ts) valid valid_res rng = Ret (out, rng1) ∧
    length out = n ∧
    ∀ i, i < n → out !! i = if bool_decide (valid !! i = Some true) then valid_res !! i else first_accepted i ts.
Proof.
  intros Hred Ht Hts. revert valid valid_res rng Ht.
  induction Hts as [|[v bs] ts [Hv Hb] Hts IH]; intros valid valid_res rng Ht Hl Hr Hn Ha.
  { exfalso. apply not_true_iff_false in Hn. apply Hn, forallb_lookup. intros i Hi.
    destruct (lookup_lt_is_Some_2 valid i Hi) as [[|] Hvi]; [done|]. by destruct (Ha i Hvi). }
  cbn [length] in Ht. apply trials_S in Ht as (v' & bs' & ts' & rng1 & [= <- <- <-] & Ht1 & Ht).
  cbn [length BinomialVGen.fill_lanes]. rewrite Ht1. cbn [mbind outcome_bind]. cbn [fst snd] in Hv, Hb.
  set (res1 := pick _ v valid_res). set (valid1 := zip_with orb bs valid).
  assert (length valid1 = n) as Hl1 by (unfold valid1; rewrite length_zip_with; lia).
  assert (length res1 = n) as Hr1 by (unfold res1, pick; rewrite !length_zip_with; lia).
  assert (∀ i, i < n → ∃ b d x y, bs !! i = Some b ∧ valid !! i = Some d ∧ v !! i = Some x ∧
    valid_res !! i = Some y ∧ valid1 !! i = Some (b || d) ∧
    res1 !! i = Some (if b && negb d then x else y)) as Hi.
  { intros i Hi. destruct (lookup_lt_is_Some_2 bs i) as [b Hbi]; [lia|].
    destruct (lookup_lt_is_Some_2 valid i) as [d Hdi]; [lia|]. destruct (lookup_lt_is_Some_2 v i) as [x Hxi]; [lia|].
    destruct (lookup_lt_is_Some_2 valid_res i) as [y Hyi]; [lia|]. exists b, d, x, y.
    unfold valid1, res1, pick. by rewrite !lookup_zip_with, Hbi, Hdi, Hxi, Hyi. }
  rewrite Hred by done. destruct (forallb (λ b, b) valid1) eqn:E.
  - exists res1, rng1. split; [done|]. split; [done|]. intros i Hlt.
    destruct (Hi i Hlt) as (b & d & x & y & Hbi & Hdi & Hxi & Hyi & Hvi & ->). cbn [first_accepted].
    rewrite Hbi, Hdi, Hxi, Hyi. rewrite forallb_lookup in E. rewrite (E i) in Hvi by lia.
    by destruct b, d.
  - destruct (IH valid1 res1 rng1 Ht Hl1 Hr1 E) as (out & rng2 & Hf & Hlo & Ho).
    { intros i Hvi. pose proof (lookup_lt_Some _ _ _ Hvi).
      destruct (Hi i ltac:(lia)) as (b & d & x & y & Hbi & Hdi & _ & _ & Hvi' & _).
      rewrite Hvi in Hvi'. destruct b, d; try done. specialize (Ha i Hdi). cbn [first_accepted] in Ha.
      by rewrite Hbi in Ha. }
    exists out, rng2. split; [done|]. split; [done|]. intros i Hlt. rewrite Ho by done. cbn [first_accepted].
    destruct (Hi i Hlt) as (b & d & x & y & -> & -> & -> & -> & -> & ->). by destruct b, d.
Qed.

End Fill.

(** In a packet of [BinomialVGen], a lane whose mean is below 1 keeps the count
    of the first stage, and every other lane the first candidate that is accepted
    in it, whatever the other lanes accept and reject and however long they take;
    the variable that the code leaves uninitialised is not seen. *)
Theorem binomial_v_lanes {P D St} `{Num P} `{Num D} `{Libm D} `{FloatDouble P D} `{UniformSource P St}
    `{PacketMath P} `{PacketCast P} n predux_all garbage small (g : BinomialVGen.params (list P)) ptrials
    counts ts (rng rng1 rng' : St) :
  reduces n predux_all →
  let valid := pcmplt (BinomialVGen.mean g) (pset1 (of_Z 1)) in
  length valid = n → length garbage = n → length counts = n →
  (if BinomialVGen.predux_any valid then small g valid rng = Ret (counts, rng1) else rng1 = rng) →
  trials (BinomialGen.large_packet ptrials (BinomialVGen.sqrt_v g) (BinomialVGen.mean g)
    (BinomialVGen.log_small_p g) (BinomialVGen.log_small_q g) (BinomialVGen.g1 g)) (length ts) rng1 = Ret (ts, rng') →
  Forall (has_lanes n) ts → (∀ i, valid !! i = Some false → is_Some (first_accepted i ts)) →
  ∃ out rng2, BinomialVGen.lanes_result predux_all garbage small (length ts) g ptrials rng = Ret (out, rng2) ∧
    length out = n ∧
    ∀ i, i < n → out !! i = if bool_decide (valid !! i = Some true) then counts !! i else first_accepted i ts.
Proof.
  intros Hred valid Hl Hg Hc Hs Ht Hts Ha. unfold BinomialVGen.lanes_result. fold valid.
  set (res := if BinomialVGen.predux_any valid then counts else garbage).
  assert ((if BinomialVGen.predux_any valid then small g valid rng else Ret (garbage, rng)) = Ret (res, rng1)) as ->.
  { unfold res. destruct (BinomialVGen.predux_any valid); [done|by rewrite Hs]. }
  cbn [mbind outcome_bind]. rewrite Hred by done.
  assert (∀ i, valid !! i = Some true → res !! i = counts !! i) as Hres.
  { intros i Hi. unfold res, BinomialVGen.predux_any. rewrite movemask_none, negb_involutive.
    replace (existsb _ valid) with true; [done|]. symmetry. apply existsb_exists. exists true.
    split; [apply list_elem_of_In; by eapply list_elem_of_lookup_2|done]. }
  destruct (forallb (λ b, b) valid) eqn:E; cbn [negb].
  - exists res, rng1. split; [done|]. split; [by unfold res; destruct (BinomialVGen.predux_any valid)|].
    intros i Hi. rewrite forallb_lookup in E. rewrite bool_decide_true by (apply E; lia). apply Hres, E. lia.
  - destruct (fill_lanes_ok n predux_all _ ts valid res rng1 rng' Hred Ht Hts Hl) as (out & rng2 & Hf & Hlo & Ho);
      [by unfold res; destruct (BinomialVGen.predux_any valid)|done|done|].
    exists out, rng2. split; [done|]. split; [done|]. intros i Hi. rewrite Ho by done.
    case_bool_decide; [by apply Hres|done].
Qed.

(** ** Lanes with a small mean *)

#[local] Open Scope R_scope.

(** With all lanes in the first stage, it is the loop of [PoissonGen]. *)
Lemma small_packet_all {St} `{UniformSource R St} n `{PacketMath R} `{!PacketMathLaws n} `{EigenPackets}
    `{PacketCast R} fuel pne res val (rng : St) :
  length pne = n → length val = n →
  (∀ rng u rng', ur_packet rng = Ret (u, rng') → length u = n) →
  BinomialVGen.small_packet PacketMath.padd fuel pne (replicate n true) res val rng =
    PoissonGen.small_packet fuel pne res val rng.
Proof.
  intros Hp Hv Hu. revert res val Hv rng. induction fuel as [|fuel IH]; intros res val Hv rng; [done|].
  cbn [BinomialVGen.small_packet PoissonGen.small_packet].
  destruct (ur_packet rng) as [[u rng1]| | |] eqn:E; try done. cbn [mbind outcome_bind].
  pose proof (Hu rng u rng1 E) as Hlu.
  assert (length (pmul val u) = n) as Hm by lane_count.
  assert (pand_mask (pcmplt pne (pmul val u)) (replicate n true) = pcmplt pne (pmul val u)) as ->.
  { apply (packet_eq n); [|lane_count|].
    - unfold pand_mask. rewrite pcmplt_lanes, !length_zip_with, length_replicate. lia.
    - intros i Hi. assert (i < length (pcmplt pne (pmul val u)))%nat as Hb by lane_count.
      apply lookup_lt_is_Some_2 in Hb as [b Hb]. unfold pand_mask.
      rewrite lookup_zip_with, Hb, lookup_replicate_2 by done. cbn. by rewrite andb_true_r. }
  unfold BinomialVGen.predux_any. rewrite negb_involutive. destruct (_ =? 0)%Z; [done|]. by apply IH.
Qed.

Lemma nat_words (l : list nat) : Forall (λ x, Z.of_nat x < 2 ^ 31)%Z l → Forall (word 32) (Z.of_nat <$> l).
Proof.
  intros Hl. apply Forall_fmap. eapply Forall_impl; [exact Hl|]. intros x Hx. cbv beta in Hx.
  unfold compose, word. lia.
Qed.

Lemma forallb_replicate k : forallb (λ b, b) (replicate k true) = true.
Proof. by induction k. Qed.

(** The parameters of the lanes. *)
Section Params.
Context (n : nat) `{Lgamma R} `{PacketMath R} `{!PacketMathLaws n} `{PacketCast R} `{!PacketCastLaws (P:=R) n}.

Lemma packet_small_p ptrials p : length p = n →
  BinomialVGen.small_p (BinomialVGen.packet_params (D := R) ptrials p) = (λ pi, fmin pi (1 - pi)) <$> p.
Proof.
  intros Hp. cbn [BinomialVGen.packet_params BinomialVGen.small_p]. rewrite (pmin_lanes (n := n)).
  apply (packet_eq n); [lane_count|lane_count|]. intros i Hi.
  destruct (lookup_lt_is_Some_2 p i) as [pi Hpi]; [lia|]. by lane_at.
Qed.

Definition lane_means (ts : list nat) (p : list R) : list R :=
  zip_with (λ t pi, INR t * fmin pi (1 - pi)) ts p.

Lemma packet_means ts p : length ts = n → length p = n →
  BinomialVGen.mean (BinomialVGen.packet_params (D := R) (INR <$> ts) p) = lane_means ts p.
Proof.
  intros Ht Hp. change (BinomialVGen.mean _) with
    (pmul (INR <$> ts) (BinomialVGen.small_p (BinomialVGen.packet_params (D := R) (INR <$> ts) p))).
  rewrite packet_small_p, pmul_lanes, zip_with_fmap_l, zip_with_fmap_r by done. done.
Qed.

Lemma lane_trials (ts : list nat) : Forall (λ t, Z.of_nat t < 2 ^ 31)%Z ts →
  pcast_float (Z.of_nat <$> ts) = INR <$> ts.
Proof.
  intros Hts. rewrite (pcast_float_lanes (n := n)), <-list_fmap_compose.
  - apply list_fmap_ext. intros i t Hit. pose proof (Forall_lookup_1 _ _ _ _ Hts Hit) as Hlt. cbv beta in Hlt.
    unfold compose, signed. rewrite (proj2 (Z.ltb_lt _ _)) by (cbn; lia). symmetry. apply INR_IZR_INZ.
  - by apply nat_words.
Qed.

Lemma lane_counts (ks : list nat) : Forall (λ k, Z.of_nat k < 2 ^ 31)%Z ks → length ks = n →
  pcast_int (INR <$> ks) = Z.of_nat <$> ks.
Proof.
  intros Hks Hl. apply (packet_eq n); [by rewrite pcast_int_length, length_fmap|by rewrite length_fmap|]. intros i Hi.
  destruct (lookup_lt_is_Some_2 ks i) as [k Hk]; [lia|].
  pose proof (Forall_lookup_1 _ _ _ _ Hks Hk) as Hlt. cbv beta in Hlt.
  rewrite (pcast_int_lane _ i (INR k) (Z.of_nat k)); rewrite ?list_lookup_fmap, ?Hk; [|done| |].
  - cbn. rewrite u32_id; [done|lia].
  - cbn [ftrunc R_num]. rewrite (R_trunc_nat _ k); [done|lra].
  - apply in_int_spec. int_lia.
Qed.

Lemma means_below_one means : length means = n → Forall (λ x, x < 1) means →
  pcmplt means (pset1 (of_Z 1)) = replicate n true.
Proof.
  intros Hl Hm. apply (packet_eq n); [lane_count|by rewrite length_replicate|]. intros i Hi.
  destruct (lookup_lt_is_Some_2 means i) as [x Hx]; [lia|]. pose proof (Forall_lookup_1 _ _ _ _ Hm Hx) as Hx1.
  cbv beta in Hx1. rewrite (lookup_replicate_2 n true) by done. lane_at. f_equal. by apply R_fltb_true.
Qed.

Lemma pexp_means means : pexp (pnegate means) = (λ mean, exp (- mean)) <$> means.
Proof. by rewrite pexp_lanes, pnegate_lanes, <-list_fmap_compose. Qed.

End Params.

(** Where the mean of every lane is below 1, the packet operation of
    [BinomialVGen] returns the Poisson counts of its lanes, reflected at the number
    of trials where [p] is above one half, for any number of trials, also below
    25, where the scalar call counts successes: the counts are not bounded by the
    number of trials. *)
Theorem binomial_v_poisson {St} `{UniformSource R St} `{Lgamma R} m `{PacketMath R} `{!PacketMathLaws (2 * m)}
    `{EigenPackets} `{!EigenPacketLaws} `{PacketCast R} `{!PacketCastLaws (P:=R) (2 * m)} predux_all garbage
    (ts : list nat) (p : list R) ps ks fuel (rng rng' : St) :
  (0 < m)%nat → reduces (2 * m) predux_all →
  (∀ rng u rng', ur_packet rng = Ret (u, rng') → length u = (2 * m)%nat) →
  length ts = (2 * m)%nat → length p = (2 * m)%nat → length ks = (2 * m)%nat →
  draw_n ur_packet (length ps) rng = Ret (ps, rng') →
  Forall (λ q, length q = (2 * m)%nat ∧ Forall (λ u, 0 < u < 1) q) ps →
  (∀ i t pi k, ts !! i = Some t → p !! i = Some pi → ks !! i = Some k →
     0 < pi < 1 ∧ (Z.of_nat t < 2 ^ 31)%Z ∧ 0 < INR t * fmin pi (1 - pi) < 1 ∧
     arrivals (INR t * fmin pi (1 - pi)) (lane_numbers i ps) k) →
  (∃ i k, ks !! i = Some k ∧ length ps = S k) → (length ps <= fuel)%nat → (Z.of_nat (length ps) < 2 ^ 31)%Z →
  ∃ xs, BinomialVGen.packetOp predux_all garbage (2 * m) fuel rng (Z.of_nat <$> ts) p = Ret (xs, rng') ∧
    length xs = (2 * m)%nat ∧
    ∀ i t pi k, ts !! i = Some t → p !! i = Some pi → ks !! i = Some k →
      xs !! i = Some (u32 (reflected t pi (Z.of_nat k))).
Proof.
  intros Hm Hred Hlen Ht Hp Hk Hd Hps Hi Hlast Hf Hmax.
  assert (∀ i, (i < 2 * m)%nat → ∃ t pi k, ts !! i = Some t ∧ p !! i = Some pi ∧ ks !! i = Some k) as Hget.
  { intros i Hlt. destruct (lookup_lt_is_Some_2 ts i) as [t ?]; [lia|].
    destruct (lookup_lt_is_Some_2 p i) as [pi ?]; [lia|]. destruct (lookup_lt_is_Some_2 ks i) as [k ?]; [lia|]. by exists t, pi, k. }
  assert (Forall (λ t, Z.of_nat t < 2 ^ 31)%Z ts) as Hts.
  { apply Forall_lookup. intros i t Hit. destruct (Hget i) as (t' & pi & k & Hit' & Hip & Hik);
      [rewrite <-Ht; by eapply lookup_lt_Some|]. rewrite Hit in Hit'. injection Hit' as <-. by apply (Hi i t pi k). }
  assert (length (lane_means ts p) = (2 * m)%nat) as Hlm by (unfold lane_means; rewrite length_zip_with; lia).
  assert (∀ i t pi, ts !! i = Some t → p !! i = Some pi → lane_means ts p !! i = Some (INR t * fmin pi (1 - pi))) as Hmi.
  { intros i t pi Hit Hip. unfold lane_means. by rewrite lookup_zip_with, Hit, Hip. }
  assert (Forall (λ x, x < 1) (lane_means ts p)) as Hmeans.
  { apply Forall_lookup. intros i x Hx. destruct (Hget i) as (t & pi & k & Hit & Hip & Hik);
      [rewrite <-Hlm; by eapply lookup_lt_Some|]. rewrite (Hmi i t pi Hit Hip) in Hx. injection Hx as <-.
    by apply (Hi i t pi k). }
  assert (Forall (λ k, Z.of_nat k < 2 ^ 31)%Z ks) as Hks.
  { apply Forall_lookup. intros i k Hik. destruct (Hget i) as (t & pi & k' & Hit & Hip & Hik');
      [rewrite <-Hk; by eapply lookup_lt_Some|]. destruct (Hi i t pi k Hit Hip Hik) as (_ & _ & _ & Hl & _).
    unfold lane_numbers in Hl. rewrite length_fmap in Hl. lia. }
  unfold BinomialVGen.packetOp. rewrite (lane_trials (2 * m)) by done. unfold BinomialVGen.lanes_result.
  rewrite (packet_means (2 * m)), (means_below_one (2 * m)) by done.
  assert (BinomialVGen.predux_any (replicate (2 * m) true) = true) as ->.
  { unfold BinomialVGen.predux_any. rewrite movemask_none, negb_involutive. destruct m; [lia|]. done. }
  rewrite (pexp_means (2 * m)), (small_packet_all (2 * m)); [|by rewrite length_fmap|lane_count|exact Hlen].
  rewrite (small_packet_start m (lane_means ts p) ks ps fuel rng rng'); try done; [| |lia].
  - cbn [mbind outcome_bind].
    rewrite (lane_trials (2 * m)) by done. cbn [mbind outcome_bind].
    rewrite Hred by (by rewrite length_replicate). rewrite forallb_replicate. cbn [negb mbind outcome_bind].
    rewrite (packet_small_p (2 * m)), (lane_counts (2 * m)) by done.
    rewrite (PacketMath.psub_lanes m) by (split; [by rewrite length_fmap|by apply nat_words]).
    rewrite (pcmpeq_lanes (n := (2 * m)%nat)). unfold pick, sub_epi32.
    eexists. split; [done|]. split; [rewrite !length_zip_with, !length_fmap; lia|]. intros i t pi k Hit Hip Hik.
    rewrite !lookup_zip_with, !list_lookup_fmap, Hit, Hip, Hik. cbn [mbind option_bind fmap option_fmap option_map fst snd].
    destruct (Hi i t pi k Hit Hip Hik) as (Hpi & _). pose proof (Forall_lookup_1 _ _ _ _ Hks Hik) as Hlt. cbv beta in Hlt.
    unfold reflected. destruct (small_probability pi Hpi) as [[[-> ?]|[-> ?]] _]; destruct (Rle_dec pi (/ 2)); try lra.
    + rewrite (proj2 (R_feq pi pi)) by done. by rewrite u32_id by lia.
    + by rewrite R_feq_false by lra.
  - intros i k mean Hik Him. destruct (Hget i) as (t & pi & k' & Hit & Hip & Hik'); [rewrite <-Hk; by eapply lookup_lt_Some|].
    rewrite Hik in Hik'. injection Hik' as <-. rewrite (Hmi i t pi Hit Hip) in Him. injection Him as <-.
    destruct (Hi i t pi k Hit Hip Hik) as (_ & _ & Hmean & Ha). split; [lra|done].
Qed.

(** The scalar call of [BinomialVGen<float>], whose numbers of trials and
    results are the bits of [int32_t]s, returns the bits of the result from 25
    trials on, but for fewer trials the number that the result converts to. *)
Theorem binomial_v_float {P D St} `{Num P} `{Libm P} `{Num D} `{Libm D} `{Trig D} `{Lgamma D} `{FloatDouble P D}
    `{UniformSource P St} bits of_bits fuel (rng rng' : St) (t p : P) k :
  BinomialVGen.call fuel rng (bits t) p = Ret (k, rng') →
  BinomialVGen.call_float bits of_bits fuel rng t p =
    Ret (if (bits t <? 25)%Z then of_Z k else of_bits k, rng').
Proof.
  unfold BinomialVGen.call, BinomialVGen.call_float. destruct (BinomialVGen.create (bits t) p) as [g| | |]; try done.
  cbn [mbind outcome_bind]. destruct (bits t <? 25)%Z.
  - by intros ->.
  - intros Hm. by rewrite Hm.
Qed.

(** ** The queue of the negative binomial generator *)

Section Mixing.
#[local] Open Scope nat_scope.

(** A trial of which some lanes are accepted. *)
Lemma until_full_partial {F St} n (ok : F → Prop) `{PacketFilterLaws F n ok} trial fuel (Q : queue F) q v bs (rng rng' : St) :
  holds_queue n ok Q q → trial rng = Ret (v, bs, rng') → length v = n → length bs = n → Forall ok v →
  forallb (λ b, b) bs = false → n <= length (q ++ chosen bs v) →
  ∃ Q', until_full trial (S fuel) Q rng = Ret (take n (q ++ chosen bs v), Q', rng').
Proof.
  intros HQ Ht Hv Hb Hok Hn Hl. cbn [until_full]. rewrite Ht. cbn [mbind outcome_bind].
  destruct (enqueue_register n ok Q q v bs HQ Hv Hb Hok) as (a & -> & He). cbn [mbind outcome_bind].
  unfold enqueue in He. rewrite Hn, (proj2 (Nat.leb_le _ _) Hl) in He. destruct He as (-> & -> & _). by eexists.
Qed.

(** [NegativeBinomialGen] queues the candidates of its Poisson stage in the
    queue of its gamma generator.  For 20 trials or more, where the gamma
    generator has candidates of its own there, the Poisson numbers [q1] that a
    packet operation leaves behind are handed out by the next one as gamma
    numbers, that is as means of Poisson distributions. *)
Theorem negative_binomial_mixing {P D St} `{Num P} `{Libm P} `{Trig P} `{Num D} `{Libm D} `{FloatDouble P D}
    `{UniformSource P St} `{PacketMath P} `{PacketCast P} `{EigenPackets} n `{!PacketFilter P}
    `{!PacketFilterLaws n (λ _ : P, True)} fuel (g g0 : GammaGen.t P) mean q0 q1 cands ts v bs c
    (rng rng0 rng1 rng2 : St) :
  GammaGen.packetOp (S fuel) g rng = Ret (mean, g0, rng0) →
  fltb (GammaGen.alpha g0) (of_Z 1) = false → feq (GammaGen.alpha g0) (of_Z 1) = false →
  GammaGen.to_count (GammaGen.alpha g0) = Ret c → (20 <= c)%Z →
  existsb (λ b, b) (pcmplt (pset1 (of_Z 12)) mean) = true → holds_queue n (λ _, True) (GammaGen.cache g0) q0 →
  trials (PoissonGen.large_packet (psqrt (pmul (pset1 (of_Z 2)) mean)) mean (plog mean)
    (psub (pmul mean (plog mean)) (plgamma_approx (padd mean (pset1 (of_Z 1)))))) (length ts) rng0 = Ret (ts, rng1) →
  Forall (has_lanes n) ts → drain n q0 ts = Some (cands, q1) → length ts <= S fuel →
  GammaGen.large_packet g0 rng1 = Ret (v, bs, rng2) → has_lanes n (v, bs) → forallb (λ b, b) bs = false →
  n <= length (q1 ++ chosen bs v) →
  q0 ++ accepted_lanes ts ≡ₚ cands ++ q1 ∧
  ∃ g1 g2, NegativeBinomialGen.packetOp n (S fuel) g rng = Ret (pcast_int cands, g1, rng1) ∧
    GammaGen.packetOp (S fuel) g1 rng1 = Ret (take n (q1 ++ chosen bs v), g2, rng2).
Proof.
  intros Hg Ha1 Ha2 Hc Hc20 H12 HQ Ht Hts Hd Hf Hv [Hlv Hlb] Hbs Hn. cbn [fst snd] in Hlv, Hlb.
  destruct (drain_conserves n q0 ts cands q1 Hts (holds_room _ _ _ _ HQ) Hd) as [Hp _]. split; [done|].
  assert (Forall (λ t : list P * list bool, Forall (λ _, True) t.1) ts) as Hok
    by (apply Forall_true; intros; by apply Forall_true).
  destruct (until_full_ok n (λ _, True) _ ts (S fuel) _ q0 rng0 cands q1 rng1 Hts Hok Ht Hd Hf HQ) as (Q1 & Hu & HQ1).
  exists (GammaGen.with_cache g0 Q1).
  destruct (until_full_partial n (λ _, True) (GammaGen.large_packet (GammaGen.with_cache g0 Q1)) fuel Q1 q1 v bs rng1 rng2)
    as [Q2 Hu2]; try done; [by apply Forall_true|].
  exists (GammaGen.with_cache (GammaGen.with_cache g0 Q1) Q2). split.
  - unfold NegativeBinomialGen.packetOp. rewrite Hg. cbn [mbind outcome_bind].
    rewrite movemask_none, H12. cbn [negb]. by rewrite Hu.
  - unfold GammaGen.packetOp. cbn [GammaGen.alpha GammaGen.with_cache GammaGen.cache].
    rewrite Ha1, Ha2, Hc. cbn [mbind outcome_bind]. rewrite (proj2 (Z.ltb_ge c 20)), andb_false_r by lia.
    change (GammaGen.mk Q1 _ _ _ _) with (GammaGen.with_cache g0 Q1). by rewrite Hu2.
Qed.

End Mixing.

(** ** Witnesses

    An arithmetic of integers on which everything computes, and the reals. *)

#[local] Instance Z_num : Num Z := {|
  fadd := Z.add; fsub := Z.sub; fmul := Z.mul; fdiv := Z.div; fneg := Z.opp;
  fsqrt := Z.sqrt; fltb := Z.ltb; fleb := Z.leb; of_Z z := z; half := 0%Z; ftrunc := Some;
|}.
#[local] Instance Z_libm : Libm Z :=
  {| fexp _ := 1%Z; flog _ := 0%Z; ftanh _ := 0%Z; fpow := Z.pow; M_PI := 1%Z |}.
#[local] Instance Z_trig : Trig Z := {| fsin x := x; fcos _ := 1%Z; ftan x := x; M_E := 3%Z |}.
#[local] Instance Z_lgamma : Lgamma Z := {| flgamma _ := 0%Z |}.
#[local] Instance Z_float_double : FloatDouble Z Z := {| widen x := x; narrow x := x |}.
#[local] Instance Z_casts : PacketCast Z := {|
  ptruncate a := a; pcast_int := fmap u32; pcast_float := fmap (signed 32);
  pmin := zip_with Z.min; pcmpeq := zip_with Z.eqb; pnegate_int := fmap (λ w, u32 (- w));
|}.
#[local] Instance Z_tape : UniformSource Z (list Z) := tape 2.
#[local] Instance Z_lanes : PacketMath Z := lane_packets 2.
#[local] Instance Z_filter : PacketFilter Z := list_filter 2 0%Z.
#[local] Instance Z_filter_laws : PacketFilterLaws 2 (λ _ : Z, True) := list_filter_laws 2 0%Z _ ltac:(lia) I.
#[local] Existing Instance instructions.
#[local] Existing Instance instructions_laws.

Definition two_all (x : list Z) : bool := (movemask_ps x =? 3)%Z.

Lemma two_all_reduces : reduces 2 two_all.
Proof. intros [|[] [|[] [|]]]; done. Qed.

(** A lane with mean 0 and a count of 7, and one with mean 5 and a candidate. *)
Definition two_params : BinomialVGen.params (list Z) :=
  BinomialVGen.mk [0; 1]%Z [0; 5]%Z [0; 0]%Z [1; 1]%Z [0; 0]%Z [0; 0]%Z.

Lemma binomial_v_lanes_witness : ∃ rng2,
  BinomialVGen.lanes_result two_all [8; 8]%Z (λ _ _ rng, Ret ([7; 0]%Z, rng)) 1 two_params [10; 10]%Z
    [0; 0; 1; 1]%Z = Ret ([7; 5]%Z, rng2).
Proof.
  destruct (binomial_v_lanes 2 two_all [8; 8]%Z (λ _ _ rng, Ret ([7; 0]%Z, rng)) two_params [10; 10]%Z
    [7; 0]%Z [([0; 5]%Z, [true; true])] [0; 0; 1; 1]%Z [0; 0; 1; 1]%Z [] two_all_reduces) as (out & rng2 & Hr & Hl & Ho);
    [done|done|done|done|done|by apply Forall_singleton| |].
  - intros [|[|i]]; [done|by eexists|done].
  - exists rng2. destruct out as [|x [|y [|]]]; try done.
    pose proof (Ho 0%nat ltac:(lia)) as H0. pose proof (Ho 1%nat ltac:(lia)) as H1.
    vm_compute in H0, H1. injection H0 as ->. injection H1 as ->. exact Hr.
Defined.

Lemma binomial_v_float_witness :
  BinomialVGen.call_float (λ t, t) (λ z, 1000 + z)%Z 0 [0; 7]%Z 2%Z 5%Z = Ret (1%Z, []) ∧
  BinomialVGen.call_float (λ t, t) (λ z, 1000 + z)%Z 1 [0; 1]%Z 30%Z 0%Z = Ret (1000%Z, [1%Z]).
Proof.
  split.
  - exact (binomial_v_float (λ t, t) (λ z, 1000 + z)%Z 0 [0; 7]%Z [] 2%Z 5%Z 1%Z eq_refl).
  - exact (binomial_v_float (λ t, t) (λ z, 1000 + z)%Z 1 [0; 1]%Z [1%Z] 30%Z 0%Z 0%Z eq_refl).
Defined.

(** A gamma generator for 20 trials. *)
Definition twenty : GammaGen.t Z := GammaGen.create 2 20%Z 1%Z.

(** The gamma stage takes a packet of zeros, the Poisson stage two trials, of
    which the second is handed out and the first is left; the next gamma stage
    hands out the 19 that is left beside a candidate of its own. *)
Lemma negative_binomial_mixing_witness :
  let rng := [0; 0; 0; 0; 0; -10; 0; 0; 1; 2; 0; 0; 2; -10; 0; 0]%Z in
  ∃ g1 g2, NegativeBinomialGen.packetOp 2 2 twenty rng = Ret ([25; 31]%Z, g1, [2; -10; 0; 0]%Z) ∧
    GammaGen.packetOp 2 g1 [2; -10; 0; 0]%Z = Ret ([19; 31]%Z, g2, []).
Proof.
  destruct (negative_binomial_mixing (D := Z) 2 1 twenty twenty [19; 19]%Z [] [19%Z] [25; 31]%Z
    [([19; -41]%Z, [true; false]); ([25; 31]%Z, [true; true])] [31; -41]%Z [true; false] 20
    [0; 0; 0; 0; 0; -10; 0; 0; 1; 2; 0; 0; 2; -10; 0; 0]%Z [0; -10; 0; 0; 1; 2; 0; 0; 2; -10; 0; 0]%Z
    [2; -10; 0; 0]%Z []) as (_ & g1 & g2 & H1 & H2); try done.
  - by apply (holds_create 2 (λ _ : Z, True)).
  - by apply Forall_cons_2, Forall_singleton.
  - exists g1, g2. split; [exact H1|exact H2].
Defined.

#[local] Instance two_tape : UniformSource R (list R) := tape 2.
#[local] Instance two_lanes : PacketMath R := lane_packets 2.
#[local] Instance two_lanes_laws : PacketMathLaws (F:=R) (2 * 1) := lane_packets_laws 2.
#[local] Existing Instance instructions.
#[local] Existing Instance instructions_laws.
#[local] Existing Instance R_lgamma.
#[local] Existing Instance lane_casts.
#[local] Instance two_casts_laws : PacketCastLaws (P:=R) (2 * 1) := lane_casts_laws 2.

(** One trial with probability one half, and two successes in both lanes. *)
Lemma binomial_v_poisson_witness : ∃ us,
  BinomialVGen.packetOp two_all [0; 0] 2 3 (concat ((λ u, [u; u]) <$> us)) [1; 1]%Z [/ 2; / 2] =
    Ret ([2; 2]%Z, []).
Proof.
  destruct (close_arrivals_ok (/ 2) 2 ltac:(lra)) as (Hu & Hl & Ha). exists (close_arrivals (/ 2) 2).
  set (us := close_arrivals (/ 2) 2) in *. set (ps := (λ u, [u; u]) <$> us).
  assert (length ps = 3%nat) as Hps by (unfold ps; by rewrite length_fmap).
  assert (∀ i, (i < 2)%nat → lane_numbers i ps = us) as Hlane.
  { intros i Hi. unfold lane_numbers, ps. rewrite <-list_fmap_compose. rewrite <-(list_fmap_id us) at 2.
    apply list_fmap_ext. intros _ u _. by destruct i as [|[|i]]; [..|lia]. }
  assert (INR 1 * fmin (/ 2) (1 - / 2) = / 2) as Hmean by (rewrite fmin_half; cbn; ring).
  destruct (binomial_v_poisson 1 two_all [0; 0] [1; 1]%nat [/ 2; / 2] ps [2; 2]%nat 3 (concat ps) [])
    as (xs & Hx & Hlx & Hi); try done; try lia.
  - apply two_all_reduces.
  - intros rng u rng'. cbn. destruct rng as [|x [|y rng]]; try done. by intros [= <- _].
  - unfold ps. apply Forall_fmap. eapply Forall_impl; [exact Hu|]. intros u Hu1. split; [done|].
    by apply Forall_cons_2, Forall_singleton.
  - intros [|[|i]] t pi k Ht Hp Hk; [..|done]; injection Ht as <-; injection Hp as <-; injection Hk as <-;
      rewrite Hmean, Hlane by lia; (split; [lra|]); (split; [lia|]); (split; [lra|done]).
  - by exists 0%nat, 2%nat.
  - destruct xs as [|x [|y [|]]]; try done.
    pose proof (Hi 0%nat 1%nat (/ 2) 2%nat eq_refl eq_refl eq_refl) as H0.
    pose proof (Hi 1%nat 1%nat (/ 2) 2%nat eq_refl eq_refl eq_refl) as H1.
    unfold reflected in H0, H1. destruct (Rle_dec (/ 2) (/ 2)); [|lra].
    injection H0 as ->. injection H1 as ->. exact Hx.
Defined.
