(* ===== verification/Evaluate.v ===== *)
(** How Eigen evaluates an expression of random numbers, for the generators of
    EigenRand/MvDists: the functor of the expression is called for one
    coefficient after the other, or for a packet of them at a time. *)

From S2P Require Import Prelude.

(** Eigen chooses, for an expression of [n] coefficients, how many coefficients
    come before the first packet and how many packets follow; the other
    coefficients come last. *)
Class Traversal := {
  before_packets : nat → nat;
  packets : nat → nat;
}.

Class TraversalLaws (lanes : nat) `{Traversal} : Prop := {
  packets_fit : ∀ n, (before_packets n + packets n * lanes <= n)%nat;
}.

(** A concrete instance: as many packets as fit, from the first coefficient. *)
Definition packets_first (lanes : nat) : Traversal := {| before_packets _ := 0%nat; packets n := (n / lanes)%nat |}.
Lemma packets_first_laws lanes : TraversalLaws (H := packets_first lanes) lanes.
Proof. split. intros n. cbn. pose proof (Nat.Div0.mul_div_le n lanes). lia. Qed.

Section Code.
Context {A X G R : Type} `{Traversal} (lanes : nat).
Context (call : A → G → R → outcome (X * G * R)) (packetOp : list A → G → R → outcome (list X * G * R)).

(** The coefficients with the arguments [l], one at a time. *)
Fixpoint each (l : list A) (g : G) (rng : R) : outcome (list X * G * R) :=
  match l with
  | [] => Ret ([], g, rng)
  | a :: l =>
      '(x, g, rng) ← call a g rng;
      '(xs, g, rng) ← each l g rng;
      Ret (x :: xs, g, rng)
  end.

(** The first [k] packets. *)
Fixpoint each_packet (k : nat) (l : list A) (g : G) (rng : R) : outcome (list X * G * R) :=
  match k with
  | O => Ret ([], g, rng)
  | S k =>
      '(x, g, rng) ← packetOp (take lanes l) g rng;
      '(xs, g, rng) ← each_packet k (drop lanes l) g rng;
      Ret (x ++ xs, g, rng)
  end.

(** The coefficients of an expression whose functor has the arguments [l]. *)
Definition evaluate_with (l : list A) (g : G) (rng : R) : outcome (list X * G * R) :=
  let b := before_packets (length l) in
  let k := packets (length l) in
  '(xs, g, rng) ← each (take b l) g rng;
  '(ys, g, rng) ← each_packet k (drop b l) g rng;
  '(zs, g, rng) ← each (drop (b + k * lanes) l) g rng;
  Ret (xs ++ ys ++ zs, g, rng).

End Code.

(** An expression of [n] coefficients without arguments. *)
Definition evaluate {X G R} `{Traversal} (lanes : nat) (call : G → R → outcome (X * G * R))
    (packetOp : G → R → outcome (list X * G * R)) (n : nat) (g : G) (rng : R) : outcome (list X * G * R) :=
  evaluate_with lanes (λ _ : unit, call) (λ _, packetOp) (replicate n tt) g rng.

(** A generator that keeps no state of its own. *)
Definition stateless {X R} (draw : R → outcome (X * R)) (g : unit) (rng : R) : outcome (X * unit * R) :=
  '(x, rng) ← draw rng; Ret (x, g, rng).
Definition keeping {G X R} (draw : G → R → outcome (X * R)) (g : G) (rng : R) : outcome (X * G * R) :=
  '(x, rng) ← draw g rng; Ret (x, g, rng).

(** ** Lemmas *)

Section Lemmas.
Context {A X G R : Type} (lanes : nat) `{TraversalLaws lanes}.
Context (call : A → G → R → outcome (X * G * R)) (packetOp : list A → G → R → outcome (list X * G * R)).

(** What holds of every number that the functor returns, for its argument,
    holds of the coefficients. *)
Section Coefficients.
Context (good : A → X → Prop).
Context (Hcall : ∀ a g rng x g' rng', call a g rng = Ret (x, g', rng') → good a x).
Context (Hpacket : ∀ l g rng xs g' rng', length l = lanes → packetOp l g rng = Ret (xs, g', rng') → Forall2 good l xs).

Lemma each_good l g rng xs g' rng' : each call l g rng = Ret (xs, g', rng') → Forall2 good l xs.
Proof.
  revert g rng xs. induction l as [|a l IH]; intros g rng xs; cbn [each]; [intros [= <- <- <-]; constructor|].
  destruct (call a g rng) as [[[x g1] rng1]| | |] eqn:E; cbn [mbind outcome_bind]; try done.
  destruct (each call l g1 rng1) as [[[xs1 g2] rng2]| | |] eqn:E1; cbn [mbind outcome_bind]; try done.
  intros [= <- <- <-]. constructor; [by eapply Hcall|by eapply IH].
Qed.

Lemma each_packet_good k l g rng xs g' rng' : (k * lanes <= length l)%nat →
  each_packet lanes packetOp k l g rng = Ret (xs, g', rng') → Forall2 good (take (k * lanes) l) xs.
Proof.
  revert l g rng xs. induction k as [|k IH]; intros l g rng xs Hk; cbn [each_packet].
  - intros [= <- <- <-]. rewrite take_0. constructor.
  - destruct (packetOp _ g rng) as [[[x g1] rng1]| | |] eqn:E; cbn [mbind outcome_bind]; try done.
    destruct (each_packet lanes packetOp k _ g1 rng1) as [[[xs1 g2] rng2]| | |] eqn:E1; cbn [mbind outcome_bind]; try done.
    intros [= <- <- <-]. cbn [Nat.mul]. rewrite <-(take_drop lanes (take (lanes + k * lanes) l)).
    rewrite take_take, Nat.min_l, <-take_drop_commute by lia. apply Forall2_app.
    + eapply Hpacket; [|exact E]. rewrite length_take. lia.
    + eapply IH; [|exact E1]. rewrite length_drop. lia.
Qed.

Lemma evaluate_with_good l g rng xs g' rng' :
  evaluate_with lanes call packetOp l g rng = Ret (xs, g', rng') → Forall2 good l xs.
Proof.
  unfold evaluate_with. pose proof (packets_fit (length l)) as Hfit.
  destruct (each call (take _ l) g rng) as [[[x1 g1] rng1]| | |] eqn:E1; cbn [mbind outcome_bind]; try done.
  destruct (each_packet _ _ _ _ g1 rng1) as [[[x2 g2] rng2]| | |] eqn:E2; cbn [mbind outcome_bind]; try done.
  destruct (each call _ g2 rng2) as [[[x3 g3] rng3]| | |] eqn:E3; cbn [mbind outcome_bind]; try done.
  intros [= <- <- <-]. rewrite <-(take_drop (before_packets (length l)) l) at 1. apply Forall2_app; [by eapply each_good|].
  rewrite <-(take_drop (packets (length l) * lanes) (drop _ l)). apply Forall2_app.
  - eapply each_packet_good; [|exact E2]. rewrite length_drop. lia.
  - rewrite drop_drop. by eapply each_good.
Qed.

End Coefficients.
(** The evaluation returns, on states and arguments with an invariant that the
    functor keeps. *)
Section Totality.
Context (inv : G → R → Prop) (good : A → X → Prop).
Context (Hcall : ∀ a g rng, inv g rng →
  ∃ x g' rng', call a g rng = Ret (x, g', rng') ∧ good a x ∧ inv g' rng').
Context (Hpacket : ∀ l g rng, length l = lanes → inv g rng →
  ∃ xs g' rng', packetOp l g rng = Ret (xs, g', rng') ∧ Forall2 good l xs ∧ inv g' rng').

Lemma each_returns l g rng : inv g rng →
  ∃ xs g' rng', each call l g rng = Ret (xs, g', rng') ∧ Forall2 good l xs ∧ inv g' rng'.
Proof.
  revert g rng. induction l as [|a l IH]; intros g rng Hg; cbn [each]; [by eexists [], _, _|].
  destruct (Hcall a g rng Hg) as (x & g1 & rng1 & -> & Hx & Hg1). cbn [mbind outcome_bind].
  destruct (IH g1 rng1 Hg1) as (xs & g2 & rng2 & -> & Hxs & Hg2). cbn [mbind outcome_bind].
  eexists _, _, _. split; [done|]. split; [by constructor|done].
Qed.

Lemma each_packet_returns k l g rng : (k * lanes <= length l)%nat → inv g rng →
  ∃ xs g' rng', each_packet lanes packetOp k l g rng = Ret (xs, g', rng') ∧
    Forall2 good (take (k * lanes) l) xs ∧ inv g' rng'.
Proof.
  revert l g rng. induction k as [|k IH]; intros l g rng Hk Hg; cbn [each_packet].
  { eexists [], _, _. split; [done|]. split; [constructor|done]. }
  destruct (Hpacket (take lanes l) g rng) as (x & g1 & rng1 & -> & Hx & Hg1); [rewrite length_take; lia|done|].
  cbn [mbind outcome_bind].
  destruct (IH (drop lanes l) g1 rng1) as (xs & g2 & rng2 & -> & Hxs & Hg2); [rewrite length_drop; lia|done|].
  cbn [mbind outcome_bind]. eexists _, _, _. split; [done|]. split; [|done]. cbn [Nat.mul].
  rewrite <-(take_drop lanes (take (lanes + k * lanes) l)), take_take, Nat.min_l, <-take_drop_commute by lia.
  by apply Forall2_app.
Qed.

Lemma evaluate_with_returns l g rng : inv g rng →
  ∃ xs g' rng', evaluate_with lanes call packetOp l g rng = Ret (xs, g', rng') ∧ Forall2 good l xs ∧ inv g' rng'.
Proof.
  intros Hg. unfold evaluate_with. pose proof (packets_fit (length l)) as Hfit.
  set (b := before_packets (length l)) in *. set (k := packets (length l)) in *.
  destruct (each_returns (take b l) g rng Hg) as (x1 & g1 & rng1 & -> & H1 & Hg1). cbn [mbind outcome_bind].
  destruct (each_packet_returns k (drop b l) g1 rng1) as (x2 & g2 & rng2 & -> & H2 & Hg2);
    [rewrite length_drop; lia|done|]. cbn [mbind outcome_bind].
  destruct (each_returns (drop (b + k * lanes) l) g2 rng2 Hg2) as (x3 & g3 & rng3 & -> & H3 & Hg3).
  cbn [mbind outcome_bind]. eexists _, _, _. split; [done|]. split; [|done].
  rewrite <-(take_drop b l) at 1. apply Forall2_app; [done|].
  rewrite <-(take_drop (k * lanes) (drop b l)), drop_drop. by apply Forall2_app.
Qed.

End Totality.
End Lemmas.

Lemma Forall2_second {A X} (good : X → Prop) (l : list A) xs :
  Forall2 (λ _, good) l xs → length xs = length l ∧ Forall good xs.
Proof. induction 1 as [|a x l xs Hx _ [Hl Hg]]; [done|]. split; [cbn; congruence|by constructor]. Qed.

Section Nullary.
Context {X G R : Type} (lanes : nat) `{TraversalLaws lanes}.
Context (call : G → R → outcome (X * G * R)) (packetOp : G → R → outcome (list X * G * R)).

(** The coefficients of an expression without arguments: their number, and what
    holds of every number drawn. *)
Lemma evaluate_good (good : X → Prop) n g rng xs g' rng' :
  (∀ g rng x g' rng', call g rng = Ret (x, g', rng') → good x) →
  (∀ g rng xs g' rng', packetOp g rng = Ret (xs, g', rng') → length xs = lanes ∧ Forall good xs) →
  evaluate lanes call packetOp n g rng = Ret (xs, g', rng') → length xs = n ∧ Forall good xs.
Proof.
  intros Hcall Hpacket Hx. unfold evaluate in Hx.
  apply (evaluate_with_good lanes _ _ (λ _, good)) in Hx.
  - apply Forall2_second in Hx. by rewrite length_replicate in Hx.
  - intros _. apply Hcall.
  - intros l g1 rng1 xs1 g2 rng2 Hl Hp. destruct (Hpacket _ _ _ _ _ Hp) as [Hn Hg].
    apply Forall2_same_length_lookup. split; [lia|]. intros i a x _ Hix. by eapply Forall_lookup_1 in Hg.
Qed.

Lemma evaluate_returns (inv : G → R → Prop) (good : X → Prop) n g rng :
  (∀ g rng, inv g rng → ∃ x g' rng', call g rng = Ret (x, g', rng') ∧ good x ∧ inv g' rng') →
  (∀ g rng, inv g rng → ∃ xs g' rng', packetOp g rng = Ret (xs, g', rng') ∧ length xs = lanes ∧
     Forall good xs ∧ inv g' rng') →
  inv g rng →
  ∃ xs g' rng', evaluate lanes call packetOp n g rng = Ret (xs, g', rng') ∧ length xs = n ∧ Forall good xs ∧ inv g' rng'.
Proof.
  intros Hcall Hpacket Hg. unfold evaluate.
  pose proof (evaluate_with_returns lanes (λ _ : unit, call) (λ _, packetOp) inv (λ _, good)) as Hall.
  destruct (Hall (λ _, Hcall)) with (l := replicate n tt) (g := g) (rng := rng)
    as (xs & g' & rng' & Hx & Hgood & Hg'); [|done|].
  - intros l g1 rng1 Hl Hi. destruct (Hpacket g1 rng1 Hi) as (xs & g2 & rng2 & Hp & Hn & Hgd & Hi2).
    exists xs, g2, rng2. split; [done|]. split; [|done]. apply Forall2_same_length_lookup. split; [lia|].
    intros i a x _ Hix. by eapply Forall_lookup_1 in Hgd.
  - apply Forall2_second in Hgood as [Hn Hgood]. rewrite length_replicate in Hn. by exists xs, g', rng'.
Qed.

End Nullary.

(** One coefficient is no packet. *)
Lemma evaluate_one {A X G R} lanes `{TraversalLaws lanes} (call : A → G → R → outcome (X * G * R)) packetOp a g rng x g' rng' :
  (1 < lanes)%nat → call a g rng = Ret (x, g', rng') →
  evaluate_with lanes call packetOp [a] g rng = Ret ([x], g', rng').
Proof.
  intros Hl Hc. unfold evaluate_with. cbn [length]. pose proof (packets_fit 1) as Hfit.
  assert (packets 1 = 0)%nat as -> by nia. assert (before_packets 1 = 0 ∨ before_packets 1 = 1)%nat as [-> | ->] by lia;
    cbn [take drop each each_packet Nat.add Nat.mul mbind outcome_bind]; by rewrite Hc.
Qed.
