(* ===== verification/Expressions.v ===== *)
(** The expressions of random numbers that a program assigns to an array: those
    of the [generate] functions of Dists/Basic.h, which refer to a generator, and
    those of the free functions of Dists/Basic.h, NormalExp.h, Discrete.h and
    GammaPoisson.h, which contain one; CwiseHeteroBinaryOp.h, for arguments of
    two types; and what an assignment computes.

    An expression refers to the engine: the call operators of the adaptors are
    [const] and their member [rng] is not [mutable], so that an engine held by
    value could not be called.  An argument array is read when the expression is
    assigned, and stands here for its values at that time. *)

From S2P Require Import Prelude.
From S2P Require Import Simd.
From S2P Require Import PacketMath.
From S2P Require Import FloatBits.
From S2P Require Import RandomEngine.
From S2P Require Import RandUtils.
From S2P Require Import PacketFilter.
From S2P Require Import Basic.
From S2P Require Import Alias.
From S2P Require Import Discrete.
From S2P Require Import Num.
From S2P Require Import Reject.
From S2P Require Import Continuous.
From S2P Require Import GammaBeta.
From S2P Require Import DiscreteReal.
From S2P Require Import Poisson.
From S2P Require Import BinomialV.
From S2P Require Import Evaluate.
From Stdlib Require Import SpecFloat.

(** ** Arrays and expressions *)

(** An array, with its coefficients in the order of its storage. *)
Record Array (X : Type) := mk_array { a_rows : Z; a_cols : Z; coeffs : list X }.
#[global] Arguments mk_array {X} _ _ _.
#[global] Arguments a_rows {X} _.
#[global] Arguments a_cols {X} _.
#[global] Arguments coeffs {X} _.

(** The engine [urng], held by reference, and a generator, held by reference
    (the type [DerivedGen&]) or by value. *)
Inductive engine_ref := urng.
Inductive held (G : Type) := by_value (g : G) | by_reference.
#[global] Arguments by_value {G} g.
#[global] Arguments by_reference {G}.

Definition load {G} (h : held G) (object : G) : G :=
  match h with by_value g => g | by_reference => object end.
(** The object after the held generator has become [g]. *)
Definition store {G} (h : held G) (object g : G) : G :=
  match h with by_value _ => object | by_reference => g end.

(** What the class of a generator gives an adaptor: [operator()] and [packetOp],
    for the state [G] of a generator, without arguments or with one or two; the
    first argument has the type of the result. *)
Record NullaryGen (X G R : Type) := mk_gen {
  gen_call : G → R → outcome (X * G * R);
  gen_packet : G → R → outcome (list X * G * R);
}.
Record UnaryGen (X G R : Type) := mk_ugen {
  ugen_call : G → R → X → outcome (X * G * R);
  ugen_packet : G → R → list X → outcome (list X * G * R);
}.
Record BinaryGen (X Y G R : Type) := mk_bgen {
  bgen_call : G → R → X → Y → outcome (X * G * R);
  bgen_packet : G → R → list X → list Y → outcome (list X * G * R);
}.
#[global] Arguments mk_gen {X G R} _ _.
#[global] Arguments gen_call {X G R} _ _ _.
#[global] Arguments gen_packet {X G R} _ _ _.
#[global] Arguments mk_ugen {X G R} _ _.
#[global] Arguments ugen_call {X G R} _ _ _ _.
#[global] Arguments ugen_packet {X G R} _ _ _ _.
#[global] Arguments mk_bgen {X Y G R} _ _.
#[global] Arguments bgen_call {X Y G R} _ _ _ _ _.
#[global] Arguments bgen_packet {X Y G R} _ _ _ _ _.

(** Generators that change no member in a call. *)
Definition stateless1 {X A G R} (draw : R → A → outcome (X * R)) (g : G) (rng : R) (a : A) : outcome (X * G * R) :=
  '(x, rng) ← draw rng a; Ret (x, g, rng).
Definition stateless2 {X A B G R} (draw : R → A → B → outcome (X * R)) (g : G) (rng : R) (a : A) (b : B) :
    outcome (X * G * R) :=
  '(x, rng) ← draw rng a b; Ret (x, g, rng).

(** A result converted to the scalar type of the expression. *)
Definition converting {X Y R} (conversion : X → Y) (o : outcome (X * R)) : outcome (Y * R) :=
  '(x, rng) ← o; Ret (conversion x, rng).

(** ** Expressions without arguments *)

Module CwiseNullaryOp.

(** The expression of a class of generators: its shape and its functor. *)
Record t {X G R : Type} (c : NullaryGen X G R) := mk {
  rows : Z;
  cols : Z;
  functor : scalar_rng_adaptor.t (Gen := held G) (R := engine_ref);
}.
#[global] Arguments mk {X G R c} _ _ _.
#[global] Arguments rows {X G R c} _.
#[global] Arguments cols {X G R c} _.
#[global] Arguments functor {X G R c} _.

Section Code.
Context {X G R : Type} {c : NullaryGen X G R}.

Definition create (rows cols : Z) (functor : scalar_rng_adaptor.t (Gen := held G) (R := engine_ref)) : outcome (t c) :=
  if (0 <=? rows) && (0 <=? cols) then Ret (mk rows cols functor) else Undef eigen_assertion.

(** The assignment of the expression to an array, which takes its shape: its
    evaluator calls a copy of the functor.  [g] is the generator that the
    expression refers to, if it does. *)
Definition assign `{Traversal} (lanes : nat) (e : t c) (g : G) (rng : R) : outcome (Array X * G * R) :=
  let held := scalar_rng_adaptor.gen (functor e) in
  '(xs, op, _) ← evaluate lanes
    (λ op (_ : unit), '(x, op) ← scalar_rng_adaptor.call (gen_call c) op; Ret (x, op, tt))
    (λ op (_ : unit), '(x, op) ← scalar_rng_adaptor.packetOp (gen_packet c) op; Ret (x, op, tt))
    (Z.to_nat (rows e * cols e)) (scalar_rng_adaptor.mk (load held g) rng) tt;
  Ret (mk_array (rows e) (cols e) (xs : list X), store held g (scalar_rng_adaptor.gen op), scalar_rng_adaptor.rng op).

End Code.
End CwiseNullaryOp.

(** [GenBase::generate] and [generateLike]. *)
Module GenBase.
Section Code.
Context {X G R : Type} (c : NullaryGen X G R).

Definition generate (rows cols : Z) : outcome (CwiseNullaryOp.t c) :=
  CwiseNullaryOp.create rows cols (scalar_rng_adaptor.create_with urng by_reference).
Definition generateLike {Y} (o : Array Y) : outcome (CwiseNullaryOp.t c) :=
  CwiseNullaryOp.create (a_rows o) (a_cols o) (scalar_rng_adaptor.create_with urng by_reference).

End Code.
End GenBase.

(** ** Expressions with arguments

    An argument is an array or a constant ([CwiseNullaryOp] of
    [scalar_constant_op]), of which every coefficient is the same. *)

Inductive operand (X : Type) := array (a : Array X) | constant (rows cols : Z) (x : X).
#[global] Arguments array {X} a.
#[global] Arguments constant {X} rows cols x.

Definition op_rows {X} (o : operand X) : Z := match o with array a => a_rows a | constant r _ _ => r end.
Definition op_cols {X} (o : operand X) : Z := match o with array a => a_cols a | constant _ c _ => c end.
Definition op_coeff {X} (o : operand X) (i : nat) : outcome X :=
  match o with
  | array a => match coeffs a !! i with Some x => Ret x | None => Undef (index_out_of_bounds (Z.of_nat i)) end
  | constant _ _ x => Ret x
  end.
Definition op_packet {X} (lanes : nat) (o : operand X) (i : nat) : outcome (list X) :=
  mapM (λ j, op_coeff o (i + j)) (seq 0 lanes).

Module CwiseUnaryOp.

Record t {X G R : Type} (c : UnaryGen X G R) := mk {
  arg : operand X;
  functor : scalar_unary_rng_adaptor.t (Gen := G) (R := engine_ref);
}.
#[global] Arguments mk {X G R c} _ _.
#[global] Arguments arg {X G R c} _.
#[global] Arguments functor {X G R c} _.

(** The assignment, with the coefficients and the packets of the argument by
    index; the functor that changes is the copy of the evaluator. *)
Definition assign {X G R} {c : UnaryGen X G R} `{Traversal} (lanes : nat) (e : t c) (rng : R) :
    outcome (Array X * R) :=
  '(xs, op, _) ← evaluate_with lanes
    (λ i op (_ : unit),
       a ← op_coeff (arg e) i;
       '(x, op) ← scalar_unary_rng_adaptor.call (ugen_call c) op a; Ret (x, op, tt))
    (λ js op (_ : unit),
       a ← op_packet lanes (arg e) (hd 0%nat js);
       '(x, op) ← scalar_unary_rng_adaptor.packetOp (ugen_packet c) op a; Ret (x, op, tt))
    (seq 0 (Z.to_nat (op_rows (arg e) * op_cols (arg e))))
    (scalar_unary_rng_adaptor.mk (scalar_unary_rng_adaptor.gen (functor e)) rng) tt;
  Ret (mk_array (op_rows (arg e)) (op_cols (arg e)) (xs : list X), scalar_unary_rng_adaptor.rng op).

End CwiseUnaryOp.

(** CwiseHeteroBinaryOp.h, which is Eigen's [CwiseBinaryOp] for arguments of two
    types; both are modelled by this module. *)
Module CwiseHeteroBinaryOp.

Record t {X Y G R : Type} (c : BinaryGen X Y G R) := mk {
  m_lhs : operand X;
  m_rhs : operand Y;
  m_functor : scalar_binary_rng_adaptor.t (Gen := G) (R := engine_ref);
}.
#[global] Arguments mk {X Y G R c} _ _ _.
#[global] Arguments m_lhs {X Y G R c} _.
#[global] Arguments m_rhs {X Y G R c} _.
#[global] Arguments m_functor {X Y G R c} _.

Section Code.
Context {X Y G R : Type} {c : BinaryGen X Y G R}.

(** The constructor requires the sizes to match. *)
Definition create (aLhs : operand X) (aRhs : operand Y)
    (func : scalar_binary_rng_adaptor.t (Gen := G) (R := engine_ref)) : outcome (t c) :=
  if (op_rows aLhs =? op_rows aRhs) && (op_cols aLhs =? op_cols aRhs) then Ret (mk aLhs aRhs func)
  else Undef eigen_assertion.

(** [dynamic]: the left argument has no size at compile time. *)
Definition rows (dynamic : bool) (e : t c) : Z := if dynamic then op_rows (m_rhs e) else op_rows (m_lhs e).
Definition cols (dynamic : bool) (e : t c) : Z := if dynamic then op_cols (m_rhs e) else op_cols (m_lhs e).

(** [binary_evaluator]: its [Data] has a copy of the functor, here with the
    engine that it refers to. *)
Record Data := mk_data {
  op : scalar_binary_rng_adaptor.t (Gen := G) (R := R);
  lhsImpl : operand X;
  rhsImpl : operand Y;
}.
Definition binary_evaluator (xpr : t c) (rng : R) : Data :=
  mk_data (scalar_binary_rng_adaptor.mk (scalar_binary_rng_adaptor.gen (m_functor xpr)) rng) (m_lhs xpr) (m_rhs xpr).

Definition coeff (m_d : Data) (index : nat) : outcome (X * Data) :=
  a ← op_coeff (lhsImpl m_d) index;
  b ← op_coeff (rhsImpl m_d) index;
  '(x, f) ← scalar_binary_rng_adaptor.call (bgen_call c) (op m_d) a b;
  Ret (x, mk_data f (lhsImpl m_d) (rhsImpl m_d)).
Definition packet (lanes : nat) (m_d : Data) (index : nat) : outcome (list X * Data) :=
  a ← op_packet lanes (lhsImpl m_d) index;
  b ← op_packet lanes (rhsImpl m_d) index;
  '(x, f) ← scalar_binary_rng_adaptor.packetOp (bgen_packet c) (op m_d) a b;
  Ret (x, mk_data f (lhsImpl m_d) (rhsImpl m_d)).

Definition assign `{Traversal} (dynamic : bool) (lanes : nat) (e : t c) (rng : R) : outcome (Array X * R) :=
  '(xs, m_d, _) ← evaluate_with lanes
    (λ i m_d (_ : unit), '(x, m_d) ← coeff m_d i; Ret (x, m_d, tt))
    (λ js m_d (_ : unit), '(x, m_d) ← packet lanes m_d (hd 0%nat js); Ret (x, m_d, tt))
    (seq 0 (Z.to_nat (rows dynamic e * cols dynamic e))) (binary_evaluator e rng) tt;
  Ret (mk_array (rows dynamic e) (cols dynamic e) (xs : list X), scalar_binary_rng_adaptor.rng (op m_d)).

End Code.
End CwiseHeteroBinaryOp.

(** ** The free functions of Dists/Basic.h *)

Section Helpers.
Context {G : Type}.

(** The functors [{ urng, gen }] and [{ urng }] with a generator by value. *)
Definition with_gen (gen : G) : scalar_rng_adaptor.t (Gen := held G) (R := engine_ref) :=
  scalar_rng_adaptor.create_with urng (by_value gen).
Definition default_gen (gen : G) : scalar_rng_adaptor.t (Gen := held G) (R := engine_ref) :=
  scalar_rng_adaptor.create (by_value gen) urng.

(** [{ array, array }], [{ array, constant }] and [{ constant, array }] with a
    functor. *)
Definition VV {X Y R} {c : BinaryGen X Y G R} (a : Array X) (b : Array Y) gen : outcome (CwiseHeteroBinaryOp.t c) :=
  CwiseHeteroBinaryOp.create (array a) (array b) (scalar_binary_rng_adaptor.create_with urng gen).
Definition VS {X Y R} {c : BinaryGen X Y G R} (a : Array X) (b : Y) gen : outcome (CwiseHeteroBinaryOp.t c) :=
  CwiseHeteroBinaryOp.create (array a) (constant (a_rows a) (a_cols a) b) (scalar_binary_rng_adaptor.create_with urng gen).
Definition SV {X Y R} {c : BinaryGen X Y G R} (a : X) (b : Array Y) gen : outcome (CwiseHeteroBinaryOp.t c) :=
  CwiseHeteroBinaryOp.create (constant (a_rows b) (a_cols b) a) (array b) (scalar_binary_rng_adaptor.create_with urng gen).
Definition unary {X R} {c : UnaryGen X G R} (a : Array X) gen : CwiseUnaryOp.t c :=
  CwiseUnaryOp.mk (array a) (scalar_unary_rng_adaptor.create_with urng gen).

End Helpers.

Module Rand.
Section Basic.
Context {R : Type} `{Rng R} `{EigenPackets} `{EigenFloatPackets} `{EigenArithmetic} `{EigenConversions}
  (rawbits : R → outcome (list Z * R)).

Definition RandBitsType : NullaryGen Z unit R :=
  mk_gen (stateless Randbits_call) (stateless (Randbits_packetOp rawbits)).
Definition randBits (rows cols : Z) : outcome (CwiseNullaryOp.t RandBitsType) :=
  CwiseNullaryOp.create rows cols (default_gen tt).
Definition randBitsLike {Y} (o : Array Y) : outcome (CwiseNullaryOp.t RandBitsType) :=
  CwiseNullaryOp.create (a_rows o) (a_cols o) (default_gen tt).

Section Reals.
Context (f : format) (zero_to_one uniform_real : R → outcome (list spec_float * R)).

Definition BalancedType : NullaryGen spec_float unit R :=
  mk_gen (stateless (Balanced_call f)) (stateless (Balanced_packetOp f zero_to_one)).
Definition balanced (rows cols : Z) : outcome (CwiseNullaryOp.t BalancedType) :=
  CwiseNullaryOp.create rows cols (default_gen tt).
Definition balancedLike {Y} (o : Array Y) : outcome (CwiseNullaryOp.t BalancedType) :=
  CwiseNullaryOp.create (a_rows o) (a_cols o) (default_gen tt).

Definition Balanced2Type : NullaryGen spec_float Balanced2Gen R :=
  mk_gen (keeping (Balanced2_call f)) (keeping (Balanced2_packetOp f zero_to_one)).
Definition balanced_range (rows cols : Z) (a b : spec_float) : outcome (CwiseNullaryOp.t Balanced2Type) :=
  CwiseNullaryOp.create rows cols (with_gen (Balanced2_create f a b)).
Definition balanced_rangeLike {Y} (o : Array Y) (a b : spec_float) : outcome (CwiseNullaryOp.t Balanced2Type) :=
  CwiseNullaryOp.create (a_rows o) (a_cols o) (with_gen (Balanced2_create f a b)).

Definition BalancedVType : BinaryGen spec_float spec_float unit R :=
  mk_bgen (stateless2 (BalancedV_call f)) (stateless2 (BalancedV_packetOp f zero_to_one)).
Definition balancedVV (a b : Array spec_float) : outcome (CwiseHeteroBinaryOp.t BalancedVType) := VV a b tt.
Definition balancedVS (a : Array spec_float) (b : spec_float) : outcome (CwiseHeteroBinaryOp.t BalancedVType) :=
  VS a b tt.
Definition balancedSV (a : spec_float) (b : Array spec_float) : outcome (CwiseHeteroBinaryOp.t BalancedVType) :=
  SV a b tt.

Definition StdUniformRealType : NullaryGen spec_float unit R :=
  mk_gen (stateless (StdUniformReal_call f)) (stateless (StdUniformReal_packetOp uniform_real)).
Definition stdUniformReal (rows cols : Z) : outcome (CwiseNullaryOp.t StdUniformRealType) :=
  CwiseNullaryOp.create rows cols (default_gen tt).
Definition stdUniformRealLike {Y} (o : Array Y) : outcome (CwiseNullaryOp.t StdUniformRealType) :=
  CwiseNullaryOp.create (a_rows o) (a_cols o) (default_gen tt).

Definition UniformRealType : NullaryGen spec_float UniformRealGen R :=
  mk_gen (keeping (UniformReal_call f)) (keeping (UniformReal_packetOp f uniform_real)).
Definition uniformReal (rows cols : Z) (min max : spec_float) : outcome (CwiseNullaryOp.t UniformRealType) :=
  CwiseNullaryOp.create rows cols (with_gen (UniformReal_create f min max)).
Definition uniformRealLike {Y} (o : Array Y) (min max : spec_float) : outcome (CwiseNullaryOp.t UniformRealType) :=
  CwiseNullaryOp.create (a_rows o) (a_cols o) (with_gen (UniformReal_create f min max)).

Definition UniformRealVType : BinaryGen spec_float spec_float unit R :=
  mk_bgen (stateless2 (UniformRealV_call f)) (stateless2 (UniformRealV_packetOp f uniform_real)).
Definition uniformRealVV (a b : Array spec_float) : outcome (CwiseHeteroBinaryOp.t UniformRealVType) := VV a b tt.
Definition uniformRealVS (a : Array spec_float) (b : spec_float) : outcome (CwiseHeteroBinaryOp.t UniformRealVType) :=
  VS a b tt.
Definition uniformRealSV (a : spec_float) (b : Array spec_float) : outcome (CwiseHeteroBinaryOp.t UniformRealVType) :=
  SV a b tt.

End Reals.

Section Trials.
Context (pcmplt : list Z → list Z → list Z) (pblendv : list Z → list Z → list Z → list Z).

(** The state of a [BernoulliGen] is its threshold. *)
Definition BernoulliType : NullaryGen Z Z R :=
  mk_gen (keeping Bernoulli_call) (keeping (Bernoulli_packetOp rawbits pcmplt pblendv)).
Definition bernoulli (rows cols : Z) (p : spec_float) : outcome (CwiseNullaryOp.t BernoulliType) :=
  g ← Bernoulli_create p; CwiseNullaryOp.create rows cols (with_gen g).
Definition bernoulliLike {Y} (o : Array Y) (p : spec_float) : outcome (CwiseNullaryOp.t BernoulliType) :=
  g ← Bernoulli_create p; CwiseNullaryOp.create (a_rows o) (a_cols o) (with_gen g).

(** The numbers have the type of the probabilities, [float]. *)
Definition BernoulliVType : UnaryGen spec_float unit R :=
  let number := of_int binary32 in
  mk_ugen (stateless1 (λ rng a, converting number (BernoulliV_call binary32 rng a)))
    (stateless1 (λ rng a, converting (fmap number) (BernoulliV_packetOp rawbits pcmplt pblendv rng a))).
Definition bernoulliV (p : Array spec_float) : CwiseUnaryOp.t BernoulliVType := unary p tt.

End Trials.
End Basic.

(** ** The free functions of Dists/NormalExp.h *)

Section NormalExp.
Context {F R : Type} `{Num F} `{Libm F} `{Trig F} `{PacketMath F} `{PacketFilter F} `{UniformSource F R}
  (lanes fuel : nat).

(** A generator whose packet operation alone changes it. *)
Definition caching {G} (call : G → R → outcome (F * R)) (packetOp : G → R → outcome (list F * G * R)) :
    NullaryGen F G R := mk_gen (keeping call) packetOp.

Definition BetaType : NullaryGen F (BetaGen.t F) R := caching (BetaGen.call fuel) (BetaGen.packetOp fuel).
Definition beta (rows cols : Z) (a b : F) : outcome (CwiseNullaryOp.t BetaType) :=
  CwiseNullaryOp.create rows cols (with_gen (BetaGen.create lanes a b)).
Definition betaLike {Y} (o : Array Y) (a b : F) : outcome (CwiseNullaryOp.t BetaType) :=
  CwiseNullaryOp.create (a_rows o) (a_cols o) (with_gen (BetaGen.create lanes a b)).

Definition CauchyType : NullaryGen F (CauchyGen.t F) R := mk_gen (keeping CauchyGen.call) (keeping CauchyGen.packetOp).
Definition cauchy (rows cols : Z) (a b : F) : outcome (CwiseNullaryOp.t CauchyType) :=
  CwiseNullaryOp.create rows cols (with_gen (CauchyGen.mk a b)).
Definition cauchyLike {Y} (o : Array Y) (a b : F) : outcome (CwiseNullaryOp.t CauchyType) :=
  CwiseNullaryOp.create (a_rows o) (a_cols o) (with_gen (CauchyGen.mk a b)).
Definition CauchyVType : BinaryGen F F unit R := mk_bgen (stateless2 CauchyVGen.call) (stateless2 CauchyVGen.packetOp).
Definition cauchyVV (a b : Array F) : outcome (CwiseHeteroBinaryOp.t CauchyVType) := VV a b tt.
Definition cauchyVS (a : Array F) (b : F) : outcome (CwiseHeteroBinaryOp.t CauchyVType) := VS a b tt.
Definition cauchySV (a : F) (b : Array F) : outcome (CwiseHeteroBinaryOp.t CauchyVType) := SV a b tt.

Definition NormalType : NullaryGen F (StdNormalGen.t F) R := mk_gen (StdNormalGen.call fuel) StdNormalGen.packetOp.
Definition stdNormal (rows cols : Z) : outcome (CwiseNullaryOp.t NormalType) :=
  CwiseNullaryOp.create rows cols (default_gen (StdNormalGen.create lanes)).
Definition stdNormalLike {Y} (o : Array Y) : outcome (CwiseNullaryOp.t NormalType) :=
  CwiseNullaryOp.create (a_rows o) (a_cols o) (default_gen (StdNormalGen.create lanes)).
Definition Normal2Type : NullaryGen F (NormalGen.t F) R := mk_gen (NormalGen.call fuel) NormalGen.packetOp.
Definition normal (rows cols : Z) (mean stdev : F) : outcome (CwiseNullaryOp.t Normal2Type) :=
  CwiseNullaryOp.create rows cols (with_gen (NormalGen.create lanes mean stdev)).
Definition normalLike {Y} (o : Array Y) (mean stdev : F) : outcome (CwiseNullaryOp.t Normal2Type) :=
  CwiseNullaryOp.create (a_rows o) (a_cols o) (with_gen (NormalGen.create lanes mean stdev)).
Definition NormalVType : BinaryGen F F (StdNormalGen.t F) R := mk_bgen (NormalVGen.call fuel) NormalVGen.packetOp.
Definition normalVV (a b : Array F) : outcome (CwiseHeteroBinaryOp.t NormalVType) := VV a b (StdNormalGen.create lanes).
Definition normalVS (a : Array F) (b : F) : outcome (CwiseHeteroBinaryOp.t NormalVType) :=
  VS a b (StdNormalGen.create lanes).
Definition normalSV (a : F) (b : Array F) : outcome (CwiseHeteroBinaryOp.t NormalVType) :=
  SV a b (StdNormalGen.create lanes).

Definition LognormalType : NullaryGen F (NormalGen.t F) R := mk_gen (LognormalGen.call fuel) LognormalGen.packetOp.
Definition lognormal (rows cols : Z) (mean stdev : F) : outcome (CwiseNullaryOp.t LognormalType) :=
  CwiseNullaryOp.create rows cols (with_gen (LognormalGen.create lanes mean stdev)).
Definition lognormalLike {Y} (o : Array Y) (mean stdev : F) : outcome (CwiseNullaryOp.t LognormalType) :=
  CwiseNullaryOp.create (a_rows o) (a_cols o) (with_gen (LognormalGen.create lanes mean stdev)).
Definition LognormalVType : BinaryGen F F (StdNormalGen.t F) R :=
  mk_bgen (LognormalVGen.call fuel) LognormalVGen.packetOp.
Definition lognormalVV (a b : Array F) : outcome (CwiseHeteroBinaryOp.t LognormalVType) :=
  VV a b (StdNormalGen.create lanes).
Definition lognormalVS (a : Array F) (b : F) : outcome (CwiseHeteroBinaryOp.t LognormalVType) :=
  VS a b (StdNormalGen.create lanes).
Definition lognormalSV (a : F) (b : Array F) : outcome (CwiseHeteroBinaryOp.t LognormalVType) :=
  SV a b (StdNormalGen.create lanes).

Definition StudentTType : NullaryGen F F R := mk_gen (keeping (StudentTGen.call fuel)) (keeping StudentTGen.packetOp).
Definition studentT (rows cols : Z) (n : F) : outcome (CwiseNullaryOp.t StudentTType) :=
  CwiseNullaryOp.create rows cols (with_gen n).
Definition studentTLike {Y} (o : Array Y) (n : F) : outcome (CwiseNullaryOp.t StudentTType) :=
  CwiseNullaryOp.create (a_rows o) (a_cols o) (with_gen n).
Definition StudentTVType : UnaryGen F unit R :=
  mk_ugen (stateless1 (StudentTVGen.call fuel)) (stateless1 StudentTVGen.packetOp).
Definition studentTV (a : Array F) : CwiseUnaryOp.t StudentTVType := unary a tt.

Definition ExponentialType : NullaryGen F F R :=
  mk_gen (keeping ExponentialGen.call) (keeping ExponentialGen.packetOp).
Definition exponential (rows cols : Z) (lambda : F) : outcome (CwiseNullaryOp.t ExponentialType) :=
  CwiseNullaryOp.create rows cols (with_gen lambda).
Definition exponentialLike {Y} (o : Array Y) (lambda : F) : outcome (CwiseNullaryOp.t ExponentialType) :=
  CwiseNullaryOp.create (a_rows o) (a_cols o) (with_gen lambda).
Definition ExponentialVType : UnaryGen F unit R :=
  mk_ugen (stateless1 ExponentialVGen.call) (stateless1 ExponentialVGen.packetOp).
Definition exponentialV (a : Array F) : CwiseUnaryOp.t ExponentialVType := unary a tt.

Definition GammaType : NullaryGen F (GammaGen.t F) R := caching (GammaGen.call fuel) (GammaGen.packetOp fuel).
Definition gamma (rows cols : Z) (alpha beta : F) : outcome (CwiseNullaryOp.t GammaType) :=
  CwiseNullaryOp.create rows cols (with_gen (GammaGen.create lanes alpha beta)).
Definition gammaLike {Y} (o : Array Y) (alpha beta : F) : outcome (CwiseNullaryOp.t GammaType) :=
  CwiseNullaryOp.create (a_rows o) (a_cols o) (with_gen (GammaGen.create lanes alpha beta)).

Definition WeibullType : NullaryGen F (WeibullGen.t F) R :=
  mk_gen (keeping WeibullGen.call) (keeping WeibullGen.packetOp).
Definition weibull (rows cols : Z) (a b : F) : outcome (CwiseNullaryOp.t WeibullType) :=
  CwiseNullaryOp.create rows cols (with_gen (WeibullGen.mk a b)).
Definition weibullLike {Y} (o : Array Y) (a b : F) : outcome (CwiseNullaryOp.t WeibullType) :=
  CwiseNullaryOp.create (a_rows o) (a_cols o) (with_gen (WeibullGen.mk a b)).
Definition WeibullVType : BinaryGen F F unit R :=
  mk_bgen (stateless2 WeibullVGen.call) (stateless2 WeibullVGen.packetOp).
Definition weibullVV (a b : Array F) : outcome (CwiseHeteroBinaryOp.t WeibullVType) := VV a b tt.
Definition weibullVS (a : Array F) (b : F) : outcome (CwiseHeteroBinaryOp.t WeibullVType) := VS a b tt.
Definition weibullSV (a : F) (b : Array F) : outcome (CwiseHeteroBinaryOp.t WeibullVType) := SV a b tt.

Definition ExtremeValueType : NullaryGen F (ExtremeValueGen.t F) R :=
  mk_gen (keeping ExtremeValueGen.call) (keeping ExtremeValueGen.packetOp).
Definition extremeValue (rows cols : Z) (a b : F) : outcome (CwiseNullaryOp.t ExtremeValueType) :=
  CwiseNullaryOp.create rows cols (with_gen (ExtremeValueGen.mk a b)).
Definition extremeValueLike {Y} (o : Array Y) (a b : F) : outcome (CwiseNullaryOp.t ExtremeValueType) :=
  CwiseNullaryOp.create (a_rows o) (a_cols o) (with_gen (ExtremeValueGen.mk a b)).
Definition ExtremeValueVType : BinaryGen F F unit R :=
  mk_bgen (stateless2 ExtremeValueVGen.call) (stateless2 ExtremeValueVGen.packetOp).
Definition extremeValueVV (a b : Array F) : outcome (CwiseHeteroBinaryOp.t ExtremeValueVType) := VV a b tt.
Definition extremeValueVS (a : Array F) (b : F) : outcome (CwiseHeteroBinaryOp.t ExtremeValueVType) := VS a b tt.
Definition extremeValueSV (a : F) (b : Array F) : outcome (CwiseHeteroBinaryOp.t ExtremeValueVType) := SV a b tt.

Definition ChiSquaredType : NullaryGen F (GammaGen.t F) R :=
  caching (ChiSquaredGen.call fuel) (ChiSquaredGen.packetOp fuel).
Definition chiSquared (rows cols : Z) (n : F) : outcome (CwiseNullaryOp.t ChiSquaredType) :=
  CwiseNullaryOp.create rows cols (with_gen (ChiSquaredGen.create lanes n)).
Definition chiSquaredLike {Y} (o : Array Y) (n : F) : outcome (CwiseNullaryOp.t ChiSquaredType) :=
  CwiseNullaryOp.create (a_rows o) (a_cols o) (with_gen (ChiSquaredGen.create lanes n)).

Definition FisherFType : NullaryGen F (BetaGen.t F) R := caching (FisherFGen.call fuel) (FisherFGen.packetOp fuel).
Definition fisherF (rows cols : Z) (m n : F) : outcome (CwiseNullaryOp.t FisherFType) :=
  CwiseNullaryOp.create rows cols (with_gen (FisherFGen.create lanes m n)).
Definition fisherFLike {Y} (o : Array Y) (m n : F) : outcome (CwiseNullaryOp.t FisherFType) :=
  CwiseNullaryOp.create (a_rows o) (a_cols o) (with_gen (FisherFGen.create lanes m n)).

End NormalExp.

(** ** The free functions of Dists/Discrete.h *)

Section UniformInt.
Context {R : Type} `{Rng R} `{EigenPackets} `{EigenConversions} `{CeilLog2} (lanes fuel : nat)
  (rawbits : R → outcome (list Z * R)) (pcmplt : list Z → list Z → list Z) (psrl : Z → list Z → Z → list Z)
  (compress_append : list Z → list Z → list Z → Z → outcome appended).

Definition UniformIntType : NullaryGen Z UniformIntGen.t R :=
  mk_gen (keeping (UniformIntGen.call fuel)) (UniformIntGen.packetOp rawbits pcmplt psrl compress_append fuel).
Definition uniformInt (rows cols : Z) (min max : Z) : outcome (CwiseNullaryOp.t UniformIntType) :=
  g ← UniformIntGen.create lanes min max; CwiseNullaryOp.create rows cols (with_gen g).
Definition uniformIntLike {Y} (o : Array Y) (min max : Z) : outcome (CwiseNullaryOp.t UniformIntType) :=
  g ← UniformIntGen.create lanes min max; CwiseNullaryOp.create (a_rows o) (a_cols o) (with_gen g).

End UniformInt.

(** The weights are the values of the range [first, last), or of the
    [initializer_list] [il]. *)
Section Discrete.
Context {D R : Type} `{Num D} `{CeilLog2} `{Rng R} `{EigenPackets} `{EigenConversions}
  (rawbits : R → outcome (list Z * R))
  (pblendv : list Z → list Z → list Z → list Z)
  (pgather : ∀ A, list A → list Z → outcome (list A)).

Section Integers.
Context (avx2 : bool) (pcmplt : list Z → list Z → list Z) (psrl : Z → list Z → Z → list Z).

Definition DiscreteType : NullaryGen Z DiscreteGen.t R :=
  mk_gen (keeping DiscreteGen.call) (DiscreteGen.packetOp rawbits pcmplt pblendv psrl pgather avx2).
Definition discrete (rows cols : Z) (range : list D) : outcome (CwiseNullaryOp.t DiscreteType) :=
  g ← DiscreteGen.create range; CwiseNullaryOp.create rows cols (with_gen g).
Definition discreteLike {Y} (o : Array Y) (range : list D) : outcome (CwiseNullaryOp.t DiscreteType) :=
  g ← DiscreteGen.create range; CwiseNullaryOp.create (a_rows o) (a_cols o) (with_gen g).
Definition discrete_il (rows cols : Z) (il : list D) : outcome (CwiseNullaryOp.t DiscreteType) :=
  g ← DiscreteGen.create il; CwiseNullaryOp.create rows cols (with_gen g).
Definition discrete_ilLike {Y} (o : Array Y) (il : list D) : outcome (CwiseNullaryOp.t DiscreteType) :=
  g ← DiscreteGen.create il; CwiseNullaryOp.create (a_rows o) (a_cols o) (with_gen g).

End Integers.

Section Floats.
Context {P : Type} `{Num P} `{PacketMath P} `{UniformSource P R} (lanes : nat) (round : D → P).

Definition DiscreteFType : NullaryGen Z (DiscreteRealGen.t P) R :=
  mk_gen (keeping DiscreteRealGen.call) (keeping (DiscreteRealGen.packetOp_float lanes rawbits pblendv pgather)).
Definition discreteF (rows cols : Z) (range : list D) : outcome (CwiseNullaryOp.t DiscreteFType) :=
  g ← DiscreteRealGen.create round range; CwiseNullaryOp.create rows cols (with_gen g).
Definition discreteFLike {Y} (o : Array Y) (range : list D) : outcome (CwiseNullaryOp.t DiscreteFType) :=
  g ← DiscreteRealGen.create round range; CwiseNullaryOp.create (a_rows o) (a_cols o) (with_gen g).
Definition discreteF_il (rows cols : Z) (il : list D) : outcome (CwiseNullaryOp.t DiscreteFType) :=
  g ← DiscreteRealGen.create round il; CwiseNullaryOp.create rows cols (with_gen g).
Definition discreteF_ilLike {Y} (o : Array Y) (il : list D) : outcome (CwiseNullaryOp.t DiscreteFType) :=
  g ← DiscreteRealGen.create round il; CwiseNullaryOp.create (a_rows o) (a_cols o) (with_gen g).

End Floats.

(** [avx]: the packet operation of the code for AVX, or for SSE. *)
Section Doubles.
Context `{PacketMath D} `{UniformSource D R} (lanes : nat) (fx : features) (avx : bool).

Definition DiscreteDType : NullaryGen Z (DiscreteRealGen.t D) R :=
  mk_gen (keeping DiscreteRealGen.call)
    (keeping (if avx then DiscreteRealGen.packetOp_avx lanes rawbits pblendv pgather fx
              else DiscreteRealGen.packetOp_sse lanes rawbits pblendv pgather fx)).
Definition discreteD (rows cols : Z) (range : list D) : outcome (CwiseNullaryOp.t DiscreteDType) :=
  g ← DiscreteRealGen.create id range; CwiseNullaryOp.create rows cols (with_gen g).
Definition discreteDLike {Y} (o : Array Y) (range : list D) : outcome (CwiseNullaryOp.t DiscreteDType) :=
  g ← DiscreteRealGen.create id range; CwiseNullaryOp.create (a_rows o) (a_cols o) (with_gen g).
Definition discreteD_il (rows cols : Z) (il : list D) : outcome (CwiseNullaryOp.t DiscreteDType) :=
  g ← DiscreteRealGen.create id il; CwiseNullaryOp.create rows cols (with_gen g).
Definition discreteD_ilLike {Y} (o : Array Y) (il : list D) : outcome (CwiseNullaryOp.t DiscreteDType) :=
  g ← DiscreteRealGen.create id il; CwiseNullaryOp.create (a_rows o) (a_cols o) (with_gen g).

End Doubles.
End Discrete.

Section Counts.
Context {P D R : Type} `{Num P} `{Libm P} `{Trig P} `{Num D} `{Libm D} `{Trig D} `{Lgamma D} `{FloatDouble P D}
  `{PacketMath P} `{PacketCast P} `{PacketFilter P} `{EigenPackets} `{UniformSource P R} (lanes fuel : nat).

Definition PoissonType : NullaryGen Z (PoissonGen.t P D) R :=
  mk_gen (keeping (PoissonGen.call fuel)) (PoissonGen.packetOp lanes fuel).
Definition poisson (rows cols : Z) (mean : D) : outcome (CwiseNullaryOp.t PoissonType) :=
  CwiseNullaryOp.create rows cols (with_gen (PoissonGen.create lanes mean)).
Definition poissonLike {Y} (o : Array Y) (mean : D) : outcome (CwiseNullaryOp.t PoissonType) :=
  CwiseNullaryOp.create (a_rows o) (a_cols o) (with_gen (PoissonGen.create lanes mean)).

Definition BinomialType : NullaryGen Z (BinomialGen.t P D) R :=
  mk_gen (keeping (BinomialGen.call fuel)) (BinomialGen.packetOp lanes fuel).
Definition binomial (rows cols : Z) (trials : Z) (p : D) : outcome (CwiseNullaryOp.t BinomialType) :=
  g ← BinomialGen.create lanes trials p; CwiseNullaryOp.create rows cols (with_gen g).
Definition binomialLike {Y} (o : Array Y) (trials : Z) (p : D) : outcome (CwiseNullaryOp.t BinomialType) :=
  g ← BinomialGen.create lanes trials p; CwiseNullaryOp.create (a_rows o) (a_cols o) (with_gen g).

Section Arrays.
Context (predux_all : list Z → bool) (garbage : list P).

Definition BinomialVType : BinaryGen Z P unit R :=
  mk_bgen (stateless2 (BinomialVGen.call fuel)) (stateless2 (BinomialVGen.packetOp predux_all garbage lanes fuel)).
Definition binomialVV (trials : Array Z) (p : Array P) : outcome (CwiseHeteroBinaryOp.t BinomialVType) := VV trials p tt.
Definition binomialVS (trials : Array Z) (p : P) : outcome (CwiseHeteroBinaryOp.t BinomialVType) := VS trials p tt.
Definition binomialSV (trials : Z) (p : Array P) : outcome (CwiseHeteroBinaryOp.t BinomialVType) := SV trials p tt.

(** [impl::binomial], where an integer is given as the [float] of its bits. *)
Context (bits : P → Z) (of_bits : Z → P).

Definition impl_BinomialVType : BinaryGen P P unit R :=
  mk_bgen (stateless2 (BinomialVGen.call_float bits of_bits fuel))
    (stateless2 (BinomialVGen.packetOp_float predux_all garbage (fmap (u32 ∘ bits)) (fmap (of_bits ∘ i32)) fuel)).
Definition impl_binomial (trials : Array P) (p : P) : outcome (CwiseHeteroBinaryOp.t impl_BinomialVType) :=
  VS trials p tt.

End Arrays.

Definition GeometricType : NullaryGen Z (GeometricGen.t D) R :=
  mk_gen (keeping GeometricGen.call) (keeping GeometricGen.packetOp).
Definition geometric (rows cols : Z) (p : D) : outcome (CwiseNullaryOp.t GeometricType) :=
  CwiseNullaryOp.create rows cols (with_gen (GeometricGen.create p)).
Definition geometricLike {Y} (o : Array Y) (p : D) : outcome (CwiseNullaryOp.t GeometricType) :=
  CwiseNullaryOp.create (a_rows o) (a_cols o) (with_gen (GeometricGen.create p)).

(** ** The free functions of Dists/GammaPoisson.h *)

Definition NegativeBinomialType : NullaryGen Z (GammaGen.t P) R :=
  mk_gen (keeping (NegativeBinomialGen.call lanes fuel)) (NegativeBinomialGen.packetOp lanes fuel).
Definition negativeBinomial (rows cols : Z) (trials : Z) (p : D) : outcome (CwiseNullaryOp.t NegativeBinomialType) :=
  CwiseNullaryOp.create rows cols (with_gen (NegativeBinomialGen.create lanes trials p)).
Definition negativeBinomialLike {Y} (o : Array Y) (trials : Z) (p : D) :
    outcome (CwiseNullaryOp.t NegativeBinomialType) :=
  CwiseNullaryOp.create (a_rows o) (a_cols o) (with_gen (NegativeBinomialGen.create lanes trials p)).

End Counts.
End Rand.
