(* ===== verification/ExpressionsProps.v ===== *)
(** What the expressions of Expressions.v compute: an assignment in terms of the
    generator, a scalar argument is an array filled with it, the generators by
    inversion give every coefficient the quantile for its own parameters, and a
    [generate] keeps what a free function forgets. *)

From S2P Require Import Prelude.
From S2P Require Import Num.
From S2P Require Import NumR.
From S2P Require Import Simd.
From S2P Require Import PacketMath.
From S2P Require Import PacketMathProps.
From S2P Require Import FloatBits.
From S2P Require Import RandUtils.
From S2P Require Import Basic.
From S2P Require Import BasicProps.
From S2P Require Import Reject.
From S2P Require Import Continuous.
From S2P Require Import RejectProps.
From S2P Require Import ContinuousProps.
From S2P Require Import Evaluate.
From S2P Require Import Expressions.
From Stdlib Require Import SpecFloat Reals Lra.

(** ** Assignments *)

Lemma outcome_bind_ext {A B} (m : outcome A) (f f' : A → outcome B) : (∀ a, f a = f' a) → (m ≫= f) = (m ≫= f').
Proof. intros Hf. by destruct m; cbn [mbind outcome_bind]. Qed.

(** Two functors that agree on the indices below [n] give the same coefficients. *)
Section Indices.
Context {X G R : Type} (lanes : nat) `{TraversalLaws lanes}.
Context (call call' : nat → G → R → outcome (X * G * R)) (packetOp packetOp' : list nat → G → R → outcome (list X * G * R)).
Context (n : nat) (Hcall : ∀ i g rng, (i < n)%nat → call i g rng = call' i g rng).
Context (Hpacket : ∀ i g rng, (i + lanes <= n)%nat → packetOp (seq i lanes) g rng = packetOp' (seq i lanes) g rng).

Lemma each_agree i k g rng : (i + k <= n)%nat → each call (seq i k) g rng = each call' (seq i k) g rng.
Proof.
  revert i g rng. induction k as [|k IH]; intros i g rng Hk; [done|]. cbn [seq each].
  rewrite Hcall by lia. apply outcome_bind_ext. intros [[x g1] rng1]. by rewrite IH by lia.
Qed.

Lemma each_packet_agree k i m g rng : (k * lanes <= m)%nat → (i + m <= n)%nat →
  each_packet lanes packetOp k (seq i m) g rng = each_packet lanes packetOp' k (seq i m) g rng.
Proof.
  revert i m g rng. induction k as [|k IH]; intros i m g rng Hk Hm; [done|]. cbn [each_packet].
  rewrite take_seq, drop_seq, Nat.min_l by lia. rewrite Hpacket by lia.
  apply outcome_bind_ext. intros [[x g1] rng1]. by rewrite IH by lia.
Qed.

Lemma evaluate_agree g rng :
  evaluate_with lanes call packetOp (seq 0 n) g rng = evaluate_with lanes call' packetOp' (seq 0 n) g rng.
Proof.
  unfold evaluate_with. rewrite length_seq. pose proof (packets_fit n) as Hfit.
  rewrite !take_seq, !drop_seq. rewrite each_agree by lia.
  apply outcome_bind_ext. intros [[x1 g1] rng1]. rewrite each_packet_agree by lia.
  apply outcome_bind_ext. intros [[x2 g2] rng2]. by rewrite each_agree by lia.
Qed.

End Indices.

(** A functor whose state is another's, in another form, gives the same
    coefficients. *)
Definition reform {X G R G' R'} (form : G → R → G' * R') (o : outcome (X * G * R)) : outcome (X * G' * R') :=
  '(x, g, rng) ← o; Ret (x, (form g rng).1, (form g rng).2).

Section Reform.
Context {A X G R G' R' : Type} (lanes : nat) `{Traversal} (form : G → R → G' * R').
Context (call : A → G → R → outcome (X * G * R)) (packetOp : list A → G → R → outcome (list X * G * R)).
Context (call' : A → G' → R' → outcome (X * G' * R')) (packetOp' : list A → G' → R' → outcome (list X * G' * R')).
Context (Hcall : ∀ a g rng, call' a (form g rng).1 (form g rng).2 = reform form (call a g rng)).
Context (Hpacket : ∀ l g rng, packetOp' l (form g rng).1 (form g rng).2 = reform form (packetOp l g rng)).

Lemma each_reform l g rng : each call' l (form g rng).1 (form g rng).2 = reform form (each call l g rng).
Proof.
  revert g rng. induction l as [|a l IH]; intros g rng; [done|]. cbn [each]. rewrite Hcall.
  destruct (call a g rng) as [[[x g1] rng1]| | |]; cbn; [|done..]. rewrite IH.
  by destruct (each call l g1 rng1) as [[[xs g2] rng2]| | |].
Qed.

Lemma each_packet_reform k l g rng :
  each_packet lanes packetOp' k l (form g rng).1 (form g rng).2 = reform form (each_packet lanes packetOp k l g rng).
Proof.
  revert l g rng. induction k as [|k IH]; intros l g rng; [done|]. cbn [each_packet]. rewrite Hpacket.
  destruct (packetOp _ g rng) as [[[x g1] rng1]| | |]; cbn; [|done..]. rewrite IH.
  by destruct (each_packet lanes packetOp k _ g1 rng1) as [[[xs g2] rng2]| | |].
Qed.

Lemma evaluate_reform l g rng :
  evaluate_with lanes call' packetOp' l (form g rng).1 (form g rng).2 =
  reform form (evaluate_with lanes call packetOp l g rng).
Proof.
  unfold evaluate_with. rewrite each_reform.
  destruct (each call (take _ l) g rng) as [[[x1 g1] rng1]| | |]; cbn; [|done..]. rewrite each_packet_reform.
  destruct (each_packet _ _ _ _ g1 rng1) as [[[x2 g2] rng2]| | |]; cbn; [|done..]. rewrite each_reform.
  by destruct (each call _ g2 rng2) as [[[x3 g3] rng3]| | |].
Qed.

End Reform.

(** The array of the shape of [a] that is filled with [b]. *)
Definition filled {X Y} (a : Array X) (b : Y) : Array Y :=
  mk_array (a_rows a) (a_cols a) (replicate (Z.to_nat (a_rows a * a_cols a)%Z) b).

Lemma op_coeff_filled {X Y} (a : Array X) (b : Y) i : (i < Z.to_nat (a_rows a * a_cols a)%Z)%nat →
  op_coeff (array (filled a b)) i = Ret b.
Proof. intros Hi. cbn. by rewrite lookup_replicate_2. Qed.

Lemma mapM_ext_outcome {A B} (f f' : A → outcome B) l : (∀ a, a ∈ l → f a = f' a) → mapM f l = mapM f' l.
Proof.
  induction l as [|a l IH]; intros Hf; [done|]. cbn. rewrite Hf by set_solver.
  apply outcome_bind_ext. intros x. by rewrite IH by set_solver.
Qed.

Lemma op_packet_filled {X Y} lanes (a : Array X) (b : Y) i : (i + lanes <= Z.to_nat (a_rows a * a_cols a)%Z)%nat →
  op_packet lanes (array (filled a b)) i = op_packet lanes (Expressions.constant (a_rows a) (a_cols a) b) i.
Proof.
  intros Hi. apply mapM_ext_outcome. intros j Hj%elem_of_seq. by rewrite op_coeff_filled by lia.
Qed.

(** Assignments in terms of the generator: the adaptor and the data of the
    evaluator are forms of its state and the engine's. *)
Lemma nullary_assign {X G R} {c : NullaryGen X G R} `{Traversal} lanes (e : CwiseNullaryOp.t c) g rng :
  let h := scalar_rng_adaptor.gen (CwiseNullaryOp.functor e) in
  CwiseNullaryOp.assign lanes e g rng =
  '(xs, g', rng') ← evaluate lanes (gen_call c) (gen_packet c)
    (Z.to_nat (CwiseNullaryOp.rows e * CwiseNullaryOp.cols e)%Z) (load h g) rng;
  Ret (mk_array (CwiseNullaryOp.rows e) (CwiseNullaryOp.cols e) xs, store h g g', rng').
Proof.
  cbv zeta. unfold CwiseNullaryOp.assign, evaluate. set (h := load _ g).
  pose proof (evaluate_reform lanes (λ g rng, (scalar_rng_adaptor.mk g rng, tt)) (λ _ : unit, gen_call c)
    (λ _, gen_packet c)) as Hr. cbn [fst snd] in Hr. erewrite Hr.
  - by destruct (evaluate_with _ _ _ _ h rng) as [[[xs g'] rng']| | |].
  - intros _ g1 rng1. unfold scalar_rng_adaptor.call. cbn. by destruct (gen_call c g1 rng1) as [[[x g2] rng2]| | |].
  - intros _ g1 rng1. unfold scalar_rng_adaptor.packetOp. cbn.
    by destruct (gen_packet c g1 rng1) as [[[x g2] rng2]| | |].
Qed.

Section Assign.
Context {X Y G R : Type} (c : BinaryGen X Y G R) (lanes : nat).

(** The functor on the indices of two operands. *)
Definition at_index (lhs : operand X) (rhs : operand Y) (i : nat) (g : G) (rng : R) : outcome (X * G * R) :=
  a ← op_coeff lhs i; b ← op_coeff rhs i; bgen_call c g rng a b.
Definition at_packet (lhs : operand X) (rhs : operand Y) (js : list nat) (g : G) (rng : R) :
    outcome (list X * G * R) :=
  a ← op_packet lanes lhs (hd 0%nat js); b ← op_packet lanes rhs (hd 0%nat js); bgen_packet c g rng a b.

Lemma binary_assign `{Traversal} dynamic lhs rhs gen rng :
  op_rows lhs = op_rows rhs → op_cols lhs = op_cols rhs →
  (e ← CwiseHeteroBinaryOp.create (c := c) lhs rhs (scalar_binary_rng_adaptor.create_with urng gen);
   CwiseHeteroBinaryOp.assign dynamic lanes e rng) =
  '(xs, _, rng') ← evaluate_with lanes (at_index lhs rhs) (at_packet lhs rhs)
    (seq 0 (Z.to_nat (op_rows lhs * op_cols lhs)%Z)) gen rng;
  Ret (mk_array (op_rows lhs) (op_cols lhs) xs, rng').
Proof.
  intros Hr Hc. unfold CwiseHeteroBinaryOp.create. rewrite Hr, Hc, !Z.eqb_refl. cbn [andb mbind outcome_bind].
  unfold CwiseHeteroBinaryOp.assign, CwiseHeteroBinaryOp.rows, CwiseHeteroBinaryOp.cols.
  cbn [CwiseHeteroBinaryOp.m_lhs CwiseHeteroBinaryOp.m_rhs]. rewrite Hr, Hc.
  replace (if dynamic then op_rows rhs else op_rows rhs) with (op_rows rhs) by (by destruct dynamic).
  replace (if dynamic then op_cols rhs else op_cols rhs) with (op_cols rhs) by (by destruct dynamic).
  pose proof (evaluate_reform lanes
    (λ g rng, (CwiseHeteroBinaryOp.mk_data (scalar_binary_rng_adaptor.mk g rng) lhs rhs, tt))
    (at_index lhs rhs) (at_packet lhs rhs)) as Hf. cbn [fst snd] in Hf.
  unfold CwiseHeteroBinaryOp.binary_evaluator. cbn [CwiseHeteroBinaryOp.m_functor CwiseHeteroBinaryOp.m_lhs
    CwiseHeteroBinaryOp.m_rhs scalar_binary_rng_adaptor.gen scalar_binary_rng_adaptor.create_with].
  erewrite Hf.
  - by destruct (evaluate_with _ _ _ _ gen rng) as [[[xs g'] rng']| | |].
  - intros i g1 rng1. unfold CwiseHeteroBinaryOp.coeff, at_index, scalar_binary_rng_adaptor.call.
    cbn [CwiseHeteroBinaryOp.lhsImpl CwiseHeteroBinaryOp.rhsImpl].
    destruct (op_coeff lhs i); [|done..]. destruct (op_coeff rhs i); [|done..]. cbn.
    by destruct (bgen_call c g1 rng1 _ _) as [[[x g2] rng2]| | |].
  - intros js g1 rng1. unfold CwiseHeteroBinaryOp.packet, at_packet, scalar_binary_rng_adaptor.packetOp.
    cbn [CwiseHeteroBinaryOp.lhsImpl CwiseHeteroBinaryOp.rhsImpl].
    destruct (op_packet lanes lhs _); [|done..]. destruct (op_packet lanes rhs _); [|done..]. cbn. by destruct (bgen_packet c g1 rng1 _ _) as [[[x g2] rng2]| | |].
Qed.

Context `{TraversalLaws lanes}.

(** A constant argument is the array that is filled with it. *)
Lemma assign_VS dynamic (a : Array X) (b : Y) gen rng :
  (e ← VS (c := c) a b gen; CwiseHeteroBinaryOp.assign dynamic lanes e rng) =
  (e ← VV (c := c) a (filled a b) gen; CwiseHeteroBinaryOp.assign dynamic lanes e rng).
Proof.
  unfold VS, VV. rewrite !binary_assign by done. cbn [op_rows op_cols]. f_equal.
  apply (evaluate_agree lanes).
  - intros i g1 rng1 Hi. unfold at_index. by rewrite op_coeff_filled.
  - intros i g1 rng1 Hi. unfold at_packet. destruct lanes as [|n]; [done|]. cbn [seq hd]. by rewrite op_packet_filled.
Qed.

Lemma assign_SV dynamic (a : X) (b : Array Y) gen rng :
  (e ← SV (c := c) a b gen; CwiseHeteroBinaryOp.assign dynamic lanes e rng) =
  (e ← VV (c := c) (filled b a) b gen; CwiseHeteroBinaryOp.assign dynamic lanes e rng).
Proof.
  unfold SV, VV. rewrite !binary_assign by done. cbn [op_rows op_cols filled a_rows a_cols]. f_equal.
  apply (evaluate_agree lanes).
  - intros i g1 rng1 Hi. unfold at_index. by rewrite op_coeff_filled.
  - intros i g1 rng1 Hi. unfold at_packet. destruct lanes as [|n]; [done|]. cbn [seq hd]. by rewrite op_packet_filled.
Qed.

End Assign.

(** ** Array arguments *)

(** [o] is accepted when the arrays have the same shape, and otherwise fails by
    the assertion. *)
Definition shape_checked {X Y E} (a : Array X) (b : Array Y) (o : outcome E) : Prop :=
  if (a_rows a =? a_rows b)%Z && (a_cols a =? a_cols b)%Z then returns o else o = Undef eigen_assertion.

Lemma VV_checked {X Y G S} (c : BinaryGen X Y G S) (a : Array X) (b : Array Y) gen : shape_checked a b (VV (c := c) a b gen).
Proof.
  unfold shape_checked, VV, CwiseHeteroBinaryOp.create. cbn [op_rows op_cols].
  destruct (_ && _); [by eexists|done].
Qed.

Section Arguments.
Context {F S : Type} `{Num F} `{Libm F} `{Trig F} `{PacketMath F} `{UniformSource F S} (lanes fuel : nat)
  `{!Traversal} `{!TraversalLaws lanes} (dynamic : bool).

#[local] Abbreviation assigned o := (λ rng : S, e ← o; CwiseHeteroBinaryOp.assign dynamic lanes e rng).

(** In every binary function of NormalExp.h a scalar argument, on either side,
    gives what the array of the other argument's shape gives that is filled with
    it; two arrays are accepted exactly when they have the same shape. *)
Theorem array_arguments (a b : Array F) (x : F) rng :
  (assigned (Rand.cauchyVS a x) rng = assigned (Rand.cauchyVV a (filled a x)) rng ∧
   assigned (Rand.cauchySV x b) rng = assigned (Rand.cauchyVV (filled b x) b) rng) ∧
  (assigned (Rand.normalVS lanes fuel a x) rng = assigned (Rand.normalVV lanes fuel a (filled a x)) rng ∧
   assigned (Rand.normalSV lanes fuel x b) rng = assigned (Rand.normalVV lanes fuel (filled b x) b) rng) ∧
  (assigned (Rand.lognormalVS lanes fuel a x) rng = assigned (Rand.lognormalVV lanes fuel a (filled a x)) rng ∧
   assigned (Rand.lognormalSV lanes fuel x b) rng = assigned (Rand.lognormalVV lanes fuel (filled b x) b) rng) ∧
  (assigned (Rand.weibullVS a x) rng = assigned (Rand.weibullVV a (filled a x)) rng ∧
   assigned (Rand.weibullSV x b) rng = assigned (Rand.weibullVV (filled b x) b) rng) ∧
  (assigned (Rand.extremeValueVS a x) rng = assigned (Rand.extremeValueVV a (filled a x)) rng ∧
   assigned (Rand.extremeValueSV x b) rng = assigned (Rand.extremeValueVV (filled b x) b) rng) ∧
  (shape_checked a b (Rand.cauchyVV (R := S) a b) ∧ shape_checked a b (Rand.normalVV (R := S) lanes fuel a b) ∧
   shape_checked a b (Rand.lognormalVV (R := S) lanes fuel a b) ∧ shape_checked a b (Rand.weibullVV (R := S) a b) ∧
   shape_checked a b (Rand.extremeValueVV (R := S) a b)).
Proof. split_and!; first [by apply assign_VS | by apply assign_SV | apply VV_checked]. Qed.

End Arguments.

(** ** Numbers in the order of the engine *)

(** A functor that takes one number of the tape for a coefficient, and a packet of
    them for a packet, takes the [i]-th number for the [i]-th coefficient, whatever
    the order of scalars and packets. *)
Section Tape.
Context {F X G : Type} (lanes : nat) `{TraversalLaws lanes}.
Context (call : nat → G → list F → outcome (X * G * list F)) (packetOp : list nat → G → list F → outcome (list X * G * list F)).
Context (n : nat) (valid : F → Prop) (good : nat → F → X → Prop).
Context (Hcall : ∀ i g u rest, (i < n)%nat → valid u →
  ∃ x g', call i g (u :: rest) = Ret (x, g', rest) ∧ good i u x).
Context (Hpacket : ∀ i g us rest, (i + lanes <= n)%nat → length us = lanes → Forall valid us →
  ∃ xs g', packetOp (seq i lanes) g (us ++ rest) = Ret (xs, g', rest) ∧ length xs = lanes ∧
    ∀ j u x, us !! j = Some u → xs !! j = Some x → good (i + j)%nat u x).

(** The numbers [us] for the coefficients from [i] on. *)
Definition takes (i : nat) (us : list F) (rest : list F) (o : outcome (list X * G * list F)) : Prop :=
  ∃ xs g', o = Ret (xs, g', rest) ∧ length xs = length us ∧
    ∀ j u x, us !! j = Some u → xs !! j = Some x → good (i + j)%nat u x.

Lemma good_app i us vs xs ys :
  length xs = length us →
  (∀ j u x, us !! j = Some u → xs !! j = Some x → good (i + j)%nat u x) →
  (∀ j u x, vs !! j = Some u → ys !! j = Some x → good (i + length us + j)%nat u x) →
  ∀ j u x, (us ++ vs) !! j = Some u → (xs ++ ys) !! j = Some x → good (i + j)%nat u x.
Proof.
  intros Hl H1 H2 j u x Hu Hx. destruct (decide (j < length us)%nat).
  - rewrite lookup_app_l in Hu by lia. rewrite lookup_app_l in Hx by lia. by eapply H1.
  - rewrite lookup_app_r in Hu by lia. rewrite lookup_app_r in Hx by lia. rewrite Hl in Hx.
    specialize (H2 _ _ _ Hu Hx). by replace (i + length us + (j - length us))%nat with (i + j)%nat in H2 by lia.
Qed.

Lemma each_takes i us rest g : (i + length us <= n)%nat → Forall valid us →
  takes i us rest (each call (seq i (length us)) g (us ++ rest)).
Proof.
  revert i g. induction us as [|u us IH]; intros i g Hn Hv; cbn [length seq each app] in *.
  { eexists [], g. split; [done|]. split; [done|]. by intros [|j] ? ?. }
  apply Forall_cons in Hv as [Hu Hv]. destruct (Hcall i g u (us ++ rest)) as (x & g1 & -> & Hx); [lia|done|].
  cbn [mbind outcome_bind]. destruct (IH (S i) g1) as (xs & g2 & -> & Hl & Hi); [lia|done|].
  eexists (x :: xs), g2. cbn. split; [done|]. split; [lia|].
  apply (good_app i [u] us [x] xs); [done| |].
  - intros [|[|j]] u' x'; [intros [= <-] [= <-]; by rewrite Nat.add_0_r|done..].
  - cbn [length]. by rewrite Nat.add_1_r.
Qed.

Lemma each_packet_takes k i m us rest g : length us = (k * lanes)%nat → (k * lanes <= m)%nat → (i + m <= n)%nat →
  Forall valid us → takes i us rest (each_packet lanes packetOp k (seq i m) g (us ++ rest)).
Proof.
  revert i m us g. induction k as [|k IH]; intros i m us g Hl Hk Hm Hv; cbn [each_packet].
  { destruct us; [|done]. eexists [], g. split; [done|]. split; [done|]. by intros [|j] ? ?. }
  cbn [Nat.mul] in Hl, Hk. rewrite take_seq, drop_seq, Nat.min_l by lia.
  rewrite <-(take_drop lanes us) in Hv. apply Forall_app in Hv as [Hv1 Hv2].
  assert (length (take lanes us) = lanes) as Hl1 by (rewrite length_take; lia).
  rewrite <-(take_drop lanes us) at 2. rewrite <-app_assoc.
  destruct (Hpacket i g (take lanes us) (drop lanes us ++ rest)) as (xs1 & g1 & -> & Hx1 & Hi1); [lia|done|done|].
  cbn [mbind outcome_bind].
  destruct (IH (i + lanes)%nat (m - lanes)%nat (drop lanes us) g1) as (xs2 & g2 & -> & Hx2 & Hi2);
    [rewrite length_drop; lia|lia|lia|done|].
  eexists (xs1 ++ xs2), g2. split; [done|]. split; [rewrite length_app, Hx1, Hx2, length_drop; lia|].
  rewrite <-(take_drop lanes us). apply good_app; [lia|done|]. by rewrite Hl1.
Qed.

Lemma evaluate_takes us rest g : length us = n → Forall valid us →
  takes 0 us rest (evaluate_with lanes call packetOp (seq 0 n) g (us ++ rest)).
Proof.
  intros Hl Hv. unfold evaluate_with. rewrite length_seq. pose proof (packets_fit n) as Hfit.
  set (b := before_packets n) in *. set (k := packets n) in *. rewrite take_seq, !drop_seq, Nat.min_l by lia.
  set (u1 := take b us). set (u2 := take (k * lanes) (drop b us)). set (u3 := drop (b + k * lanes) us).
  assert (us = u1 ++ u2 ++ u3) as Hus.
  { unfold u1, u2, u3. by rewrite <-drop_drop, !take_drop. }
  assert (length u1 = b) as Hl1 by (unfold u1; rewrite length_take; lia).
  assert (length u2 = (k * lanes)%nat) as Hl2 by (unfold u2; rewrite length_take, length_drop; lia).
  assert (length u3 = (n - (b + k * lanes))%nat) as Hl3 by (unfold u3; rewrite length_drop; lia).
  clearbody u1 u2 u3. subst us. apply Forall_app in Hv as [Hv1 [Hv2 Hv3]%Forall_app].
  rewrite <-!app_assoc. rewrite <-Hl1 at 1.
  destruct (each_takes 0 u1 (u2 ++ u3 ++ rest) g) as (xs1 & g1 & -> & Hx1 & Hi1); [lia|done|]. cbn [mbind outcome_bind].
  destruct (each_packet_takes k (0 + b) (n - b) u2 (u3 ++ rest) g1) as (xs2 & g2 & -> & Hx2 & Hi2);
    [lia|lia|lia|done|]. cbn [mbind outcome_bind]. rewrite <-Hl3.
  destruct (each_takes (0 + (b + k * lanes)) u3 rest g2) as (xs3 & g3 & -> & Hx3 & Hi3); [lia|done|].
  eexists (xs1 ++ xs2 ++ xs3), g3. split; [done|]. split; [rewrite !length_app; lia|].
  apply (good_app 0); [done|done|]. rewrite Hl1. apply good_app; [done|done|]. by rewrite Hl2, <-Nat.add_assoc.
Qed.

End Tape.

(** ** Quantiles *)

(** The coefficients of an array, by index and by packet. *)
Definition well_formed {X} (a : Array X) : Prop := length (coeffs a) = Z.to_nat (a_rows a * a_cols a)%Z.

Lemma op_coeff_nth {X} (d : X) (a : Array X) i : (i < length (coeffs a))%nat → op_coeff (array a) i = Ret (nth i (coeffs a) d).
Proof. intros Hi. cbn. destruct (lookup_lt_is_Some_2 _ _ Hi) as [x Hx]. by rewrite Hx, (nth_lookup_Some _ _ _ _ Hx). Qed.

Lemma coeffs_slice {X} n (a : Array X) i s : (i + s + n <= length (coeffs a))%nat →
  mapM (λ j, op_coeff (array a) (i + j)) (seq s n) = Ret (take n (drop (i + s) (coeffs a))).
Proof.
  revert s. induction n as [|n IH]; intros s Hs; [done|]. cbn [seq mapM].
  destruct (lookup_lt_is_Some_2 (coeffs a) (i + s) ltac:(lia)) as [x Hx].
  cbn [op_coeff]. rewrite Hx, (drop_S _ _ _ Hx). cbn [mbind outcome_bind]. cbn [op_coeff] in IH.
  rewrite IH by lia. by rewrite Nat.add_succ_r.
Qed.
Lemma op_packet_slice {X} lanes (a : Array X) i : (i + lanes <= length (coeffs a))%nat →
  op_packet lanes (array a) i = Ret (take lanes (drop i (coeffs a))).
Proof. intros Hi. unfold op_packet. rewrite coeffs_slice by lia. by rewrite Nat.add_0_r. Qed.
Lemma nth_slice {X} (d : X) n i j l : (j < n)%nat → nth j (take n (drop i l)) d = nth (i + j) l d.
Proof.
  intros Hj. rewrite !nth_lookup. by rewrite lookup_take_lt, lookup_drop.
Qed.

(** The assignment of an expression with one argument. *)
Definition at_index1 {X G S} (c : UnaryGen X G S) (arg : operand X) (i : nat) (g : G) (rng : S) : outcome (X * G * S) :=
  a ← op_coeff arg i; ugen_call c g rng a.
Definition at_packet1 {X G S} (c : UnaryGen X G S) (lanes : nat) (arg : operand X) (js : list nat) (g : G) (rng : S) :
    outcome (list X * G * S) :=
  a ← op_packet lanes arg (hd 0%nat js); ugen_packet c g rng a.

Lemma unary_assign {X G S} (c : UnaryGen X G S) `{Traversal} lanes (a : Array X) gen rng :
  CwiseUnaryOp.assign lanes (unary (c := c) a gen) rng =
  '(xs, _, rng') ← evaluate_with lanes (at_index1 c (array a)) (at_packet1 c lanes (array a))
    (seq 0 (Z.to_nat (a_rows a * a_cols a)%Z)) gen rng;
  Ret (mk_array (a_rows a) (a_cols a) xs, rng').
Proof.
  unfold CwiseUnaryOp.assign. cbn [unary CwiseUnaryOp.arg CwiseUnaryOp.functor op_rows op_cols
    scalar_unary_rng_adaptor.gen scalar_unary_rng_adaptor.create_with].
  pose proof (evaluate_reform lanes (λ g rng, (scalar_unary_rng_adaptor.mk g rng, tt))
    (at_index1 c (array a)) (at_packet1 c lanes (array a))) as Hf. cbn [fst snd] in Hf. erewrite Hf.
  - by destruct (evaluate_with _ _ _ _ gen rng) as [[[xs g'] rng']| | |].
  - intros i g1 rng1. unfold at_index1, scalar_unary_rng_adaptor.call.
    destruct (op_coeff (array a) i); [|done..]. cbn. by destruct (ugen_call c g1 rng1 _) as [[[x g2] rng2]| | |].
  - intros js g1 rng1. unfold at_packet1, scalar_unary_rng_adaptor.packetOp.
    destruct (op_packet lanes (array a) _); [|done..]. cbn.
    by destruct (ugen_packet c g1 rng1 _) as [[[x g2] rng2]| | |].
Qed.

Section Quantiles.
Context (lanes : nat) `{TraversalLaws lanes} `{PacketMath R} `{!PacketMathLaws lanes} (Hlanes : (0 < lanes)%nat).
#[local] Instance engine_tape : UniformSource R (list R) := tape lanes.

(** The array [o], in the shape of [a], from the numbers [us]. *)
Definition quantiles (a : Array R) (us rest : list R) (D : nat → distribution) (o : outcome (Array R * list R)) : Prop :=
  ∃ xs, o = Ret (mk_array (a_rows a) (a_cols a) xs, rest) ∧ length xs = length us ∧
    ∀ i u x, us !! i = Some u → xs !! i = Some x → inverts (D i) u x.

Lemma tape_packet (us rest : list R) : length us = lanes → ur_packet (us ++ rest) = Ret (us, rest).
Proof.
  intros Hl. cbn. rewrite length_app, (proj2 (Nat.leb_le _ _)) by lia.
  by rewrite take_app_length', drop_app_length'.
Qed.

#[local] Abbreviation unit_numbers us := (Forall (λ u, 0 < u < 1)%R us).
#[local] Abbreviation param a i := (nth i (coeffs a) 0%R).

Lemma binary_quantiles call packetOp (D : R → R → distribution) (P Q : R → Prop) dynamic a b us rest :
  (∀ x y, P x → Q y → draws ur (D x y) (λ rng : list R, call rng x y)) →
  (∀ la lb, length la = lanes → length lb = lanes → Forall P la → Forall Q lb →
     draws_packet lanes ur_packet (λ i, D (nth i la 0%R) (nth i lb 0%R)) (λ rng : list R, packetOp rng la lb)) →
  well_formed a → well_formed b → a_rows a = a_rows b → a_cols a = a_cols b →
  Forall P (coeffs a) → Forall Q (coeffs b) → length us = length (coeffs a) → unit_numbers us →
  quantiles a us rest (λ i, D (param a i) (param b i))
    (e ← VV (c := mk_bgen (stateless2 call) (stateless2 packetOp)) a b tt;
     CwiseHeteroBinaryOp.assign dynamic lanes e (us ++ rest)).
Proof.
  intros Hcall Hpacket Ha Hb Hr Hc HP HQ Hl Hu. unfold VV. rewrite binary_assign by done. cbn [op_rows op_cols].
  unfold well_formed in Ha, Hb. rewrite <-Hr, <-Hc in Hb. rewrite <-Ha, <-Hl.
  set (c := mk_bgen _ _).
  destruct (evaluate_takes lanes (at_index c (array a) (array b)) (at_packet c lanes (array a) (array b)) (length us)
    (λ u, 0 < u < 1)%R (λ i, inverts (D (param a i) (param b i)))) with (us := us) (rest := rest) (g := tt)
    as (xs & [] & Hx & Hn & Hi); [| |done|done|by rewrite Hx; exists xs].
  - intros i [] u rest' Hlt Hui. unfold at_index. rewrite !(op_coeff_nth 0%R) by lia. cbn [mbind outcome_bind].
    destruct (Hcall (param a i) (param b i)) with (rng := u :: rest') (u := u) (rng' := rest') as (x & Hx & Hd);
      [eapply Forall_nth; [done|lia]|eapply Forall_nth; [done|lia]|done|done|]. cbn. unfold stateless2. rewrite Hx. by exists x, tt.
  - intros i [] vs rest' Hlt Hvs Hv. unfold at_packet. replace (hd 0%nat (seq i lanes)) with i by (by destruct lanes; [lia|]).
    rewrite !op_packet_slice by lia. cbn [mbind outcome_bind].
    destruct (Hpacket (take lanes (drop i (coeffs a))) (take lanes (drop i (coeffs b))))
      with (rng := vs ++ rest') (us := vs) (rng' := rest') as (xs & Hx & Hn & Hd);
      [rewrite length_take, length_drop; lia|rewrite length_take, length_drop; lia|by apply Forall_take, Forall_drop|
       by apply Forall_take, Forall_drop|by apply tape_packet|done|done|].
    exists xs, tt. split; [cbn; unfold stateless2; by rewrite Hx|]. split; [done|].
    intros j u x Hju Hjx. destruct (Hd _ _ Hju) as (x' & Hx' & Hinv). simplify_eq.
    apply lookup_lt_Some in Hju. by rewrite !nth_slice in Hinv by lia.
Qed.

Lemma unary_quantiles call packetOp (D : R → distribution) (P : R → Prop) a us rest :
  (∀ x, P x → draws ur (D x) (λ rng : list R, call rng x)) →
  (∀ la, length la = lanes → Forall P la →
     draws_packet lanes ur_packet (λ i, D (nth i la 0%R)) (λ rng : list R, packetOp rng la)) →
  well_formed a → Forall P (coeffs a) → length us = length (coeffs a) → unit_numbers us →
  quantiles a us rest (λ i, D (param a i))
    (CwiseUnaryOp.assign lanes (unary (c := mk_ugen (stateless1 call) (stateless1 packetOp)) a tt) (us ++ rest)).
Proof.
  intros Hcall Hpacket Ha HP Hl Hu. rewrite unary_assign. unfold well_formed in Ha. rewrite <-Ha, <-Hl.
  set (c := mk_ugen _ _).
  destruct (evaluate_takes lanes (at_index1 c (array a)) (at_packet1 c lanes (array a)) (length us)
    (λ u, 0 < u < 1)%R (λ i, inverts (D (param a i)))) with (us := us) (rest := rest) (g := tt)
    as (xs & [] & Hx & Hn & Hi); [| |done|done|by rewrite Hx; exists xs].
  - intros i [] u rest' Hlt Hui. unfold at_index1. rewrite (op_coeff_nth 0%R) by lia. cbn [mbind outcome_bind].
    destruct (Hcall (param a i)) with (rng := u :: rest') (u := u) (rng' := rest') as (x & Hx & Hd);
      [eapply Forall_nth; [done|lia]|done|done|]. cbn. unfold stateless1. rewrite Hx. by exists x, tt.
  - intros i [] vs rest' Hlt Hvs Hv. unfold at_packet1. replace (hd 0%nat (seq i lanes)) with i by (by destruct lanes; [lia|]).
    rewrite op_packet_slice by lia. cbn [mbind outcome_bind].
    destruct (Hpacket (take lanes (drop i (coeffs a)))) with (rng := vs ++ rest') (us := vs) (rng' := rest')
      as (xs & Hx & Hn & Hd);
      [rewrite length_take, length_drop; lia|by apply Forall_take, Forall_drop|by apply tape_packet|done|done|].
    exists xs, tt. split; [cbn; unfold stateless1; by rewrite Hx|]. split; [done|].
    intros j u x Hju Hjx. destruct (Hd _ _ Hju) as (x' & Hx' & Hinv). simplify_eq.
    apply lookup_lt_Some in Hju. by rewrite nth_slice in Hinv by lia.
Qed.

(** C35. Over exact arithmetic, on an engine whose numbers to come are [us], the
    exponential, Weibull and extreme value expressions with array parameters give
    in coefficient [i] the quantile at the [i]-th number of the distribution with
    the [i]-th parameters, whichever coefficients Eigen computes in packets, and
    leave the engine behind those numbers. *)
Theorem array_quantiles dynamic (a b : Array R) us rest :
  well_formed a → well_formed b → a_rows a = a_rows b → a_cols a = a_cols b →
  Forall (λ x, 0 < x)%R (coeffs a) → Forall (λ x, 0 < x)%R (coeffs b) →
  length us = length (coeffs a) → unit_numbers us →
  quantiles a us rest (λ i, exponential (param a i)) (CwiseUnaryOp.assign lanes (Rand.exponentialV a) (us ++ rest)) ∧
  quantiles a us rest (λ i, weibull (param a i) (param b i))
    (e ← Rand.weibullVV a b; CwiseHeteroBinaryOp.assign dynamic lanes e (us ++ rest)) ∧
  quantiles a us rest (λ i, extreme_value (param a i) (param b i))
    (e ← Rand.extremeValueVV a b; CwiseHeteroBinaryOp.assign dynamic lanes e (us ++ rest)).
Proof.
  intros Ha Hb Hr Hc HPa HPb Hl Hu. split_and!.
  - apply (unary_quantiles _ _ exponential (λ x, 0 < x)%R); try done; [by apply exponential_scalar|by apply exponential_lanes].
  - apply (binary_quantiles _ _ weibull (λ x, 0 < x)%R (λ x, 0 < x)%R); try done;
      [by intros; apply weibull_scalar|by intros; apply weibull_lanes].
  - apply (binary_quantiles _ _ extreme_value (λ x, 0 < x)%R (λ x, 0 < x)%R); try done;
      [intros x y _ Hy; exact (extreme_value_scalar (St := list R) x y Hy)|
       intros la lb Hla Hlb _ Hp; exact (extreme_value_lanes (St := list R) lanes la lb Hla Hlb Hp)].
Qed.

End Quantiles.

(** ** Generators by reference and by value *)

Section Normal.
Context {F S : Type} `{Num F} `{Libm F} `{Trig F} `{PacketMath F} `{UniformSource F S} (lanes fuel : nat)
  `{TraversalLaws lanes} (Hlanes : (1 < lanes)%nat).

#[local] Abbreviation normal_call := (λ _ : unit, StdNormalGen.call (F := F) (R := S) fuel).

(** An expression that Eigen evaluates without packets. *)
Lemma each_app {A X G R} (call : A → G → R → outcome (X * G * R)) l1 l2 g rng :
  each call (l1 ++ l2) g rng =
  '(xs, g, rng) ← each call l1 g rng; '(ys, g, rng) ← each call l2 g rng; Ret (xs ++ ys, g, rng).
Proof.
  revert g rng. induction l1 as [|a l1 IH]; intros g rng; cbn [each app].
  - cbn. by destruct (each call l2 g rng) as [[[ys g'] rng']| | |].
  - cbn. destruct (call a g rng) as [[[x g1] rng1]| | |]; cbn; [|done..]. rewrite IH. cbn.
    destruct (each call l1 g1 rng1) as [[[xs g2] rng2]| | |]; cbn; [|done..].
    by destruct (each call l2 g2 rng2) as [[[ys g3] rng3]| | |].
Qed.

Lemma evaluate_scalars {A X G R} (call : A → G → R → outcome (X * G * R)) packetOp l g rng :
  packets (length l) = 0%nat →
  evaluate_with lanes call packetOp l g rng = each call l g rng.
Proof.
  intros Hk. unfold evaluate_with. rewrite Hk. cbn [each_packet Nat.mul mbind outcome_bind].
  rewrite Nat.add_0_r. set (b := before_packets (length l)).
  transitivity (each call (take b l ++ drop b l) g rng); [|by rewrite take_drop].
  by rewrite each_app.
Qed.

(** The points that successive runs of the polar loop accept, and the two
    numbers of each. *)
Fixpoint points (rng : S) (ps : list (F * F * F)) (rng' : S) : Prop :=
  match ps with
  | [] => rng = rng'
  | (v1, v2, sx) :: ps => ∃ rng1, polar fuel rng = Ret (v1, v2, sx, rng1) ∧ points rng1 ps rng'
  end.
Definition pair_of (p : F * F * F) : list F :=
  let '(v1, v2, sx) := p in
  let r := fsqrt (fdiv (fmul (of_Z (-2)) (flog sx)) sx) in [fmul r v1; fmul r v2].
Definition numbers_of (ps : list (F * F * F)) : list F := concat (pair_of <$> ps).

(** The number that a generator keeps for the next call. *)
Definition kept (g : StdNormalGen.t F) : list F :=
  match StdNormalGen.valid g, StdNormalGen.cache g with true, x :: _ => [x] | _, _ => [] end.

Lemma length_numbers_of ps : length (numbers_of ps) = (2 * length ps)%nat.
Proof.
  unfold numbers_of. induction ps as [|[[v1 v2] sx] ps IH]; [done|].
  cbn [fmap list_fmap concat length]. rewrite length_app, IH. cbn. lia.
Qed.

Lemma call_kept x c (rng : S) :
  StdNormalGen.call fuel (StdNormalGen.mk true (x :: c)) rng =
  Ret (x, StdNormalGen.mk false (x :: c), rng).
Proof. done. Qed.

Lemma call_point x c (rng rng1 : S) v1 v2 sx :
  polar fuel rng = Ret (v1, v2, sx, rng1) →
  let r := fsqrt (fdiv (fmul (of_Z (-2)) (flog sx)) sx) in
  StdNormalGen.call fuel (StdNormalGen.mk false (x :: c)) rng =
  Ret (fmul r v1, StdNormalGen.mk true (fmul r v2 :: c), rng1).
Proof. intros Hp r. unfold StdNormalGen.call. cbn. by rewrite Hp. Qed.

(** Calls take the kept number first, then the two numbers of each point. *)
Lemma each_normal l : ∀ g rng ps rng',
  StdNormalGen.cache g ≠ [] → points rng ps rng' →
  let zs := kept g ++ numbers_of ps in
  (length l <= length zs <= length l + 1)%nat →
  ∃ g', each normal_call l g rng = Ret (take (length l) zs, g', rng') ∧
    kept g' = drop (length l) zs ∧ StdNormalGen.cache g' ≠ [].
Proof.
  induction l as [|[] l IH]; intros g rng ps rng' Hc Hp zs Hn; subst zs.
  - rewrite length_app, length_numbers_of in Hn. cbn [length] in Hn.
    destruct ps; [|cbn in Hn; lia]. cbn in Hp. subst rng'. exists g.
    unfold numbers_of. cbn. by rewrite app_nil_r.
  - destruct g as [[|] c]; cbn [StdNormalGen.cache] in Hc; destruct c as [|x c]; try done.
    + unfold kept in Hn |- *. cbn [StdNormalGen.valid StdNormalGen.cache take app length] in Hn |- *.
      destruct (IH (StdNormalGen.mk false (x :: c)) rng ps rng') as (g' & He & Hh & Hg'); [done..| |].
      { unfold kept. cbn [StdNormalGen.valid app]. lia. }
      exists g'. unfold kept in He, Hh. cbn [StdNormalGen.valid app] in He, Hh.
      cbn [each]. rewrite call_kept. cbn [mbind outcome_bind]. by rewrite He.
    + unfold kept in Hn |- *. cbn [StdNormalGen.valid app] in Hn |- *.
      destruct ps as [|[[v1 v2] sx] ps]; [cbn in Hn; lia|]. destruct Hp as (rng1 & Hp & Hps).
      set (r := fsqrt (fdiv (fmul (of_Z (-2)) (flog sx)) sx)).
      change (numbers_of ((v1, v2, sx) :: ps)) with (fmul r v1 :: fmul r v2 :: numbers_of ps) in *.
      cbn [length] in Hn.
      destruct (IH (StdNormalGen.mk true (fmul r v2 :: c)) rng1 ps rng') as (g' & He & Hh & Hg'); [done..| |].
      { cbn. lia. }
      exists g'. unfold kept in He, Hh. cbn [StdNormalGen.valid StdNormalGen.cache app] in He, Hh.
      cbn [each]. rewrite (call_point _ _ _ _ _ _ _ Hp). cbn [mbind outcome_bind]. fold r.
      by rewrite He.
Qed.

(** C36. The polar method computes two numbers at a time.  An expression of
    [generate] works on the [StdNormalGen] it is given and leaves what is left
    of a pair in it; the expression of the free function, of the same shape,
    works on a copy of a new generator for each assignment, which keeps
    nothing: it assigns what the expression of [generate] assigns from a new
    generator, and the generator beside it stays as it was.  For an expression
    of [n] coefficients that Eigen computes one by one (always, when they are
    fewer than the lanes of a packet), on an engine whose polar loops accept
    the points [ps], one point for two numbers: the coefficients of the first
    expression are the number that the generator had kept, if it had, and then
    the two numbers of each point; when one number is left over, the generator
    keeps it, and the next assignment starts with it, without drawing if it
    needs no other.  The coefficients of the second are the numbers of the
    points alone, and a number left over is lost. *)
Theorem normal_expressions rows cols :
  (0 <= rows)%Z → (0 <= cols)%Z →
  let n := Z.to_nat (rows * cols) in
  ((n < lanes)%nat → packets n = 0%nat) ∧
  ∃ e e', Rand.stdNormal lanes fuel rows cols = Ret e ∧
    GenBase.generate (Rand.NormalType fuel) rows cols = Ret e' ∧
    (∀ g rng, CwiseNullaryOp.assign lanes e g rng =
       '(o, _, rng) ← CwiseNullaryOp.assign lanes e' (StdNormalGen.create lanes) rng; Ret (o, g, rng)) ∧
    (packets n = 0%nat → ∀ rng ps rng', points rng ps rng' →
       (∀ g, StdNormalGen.cache g ≠ [] →
          let zs := kept g ++ numbers_of ps in (n <= length zs <= n + 1)%nat →
          ∃ g', CwiseNullaryOp.assign lanes e' g rng = Ret (mk_array rows cols (take n zs), g', rng') ∧
            kept g' = drop n zs ∧ StdNormalGen.cache g' ≠ []) ∧
       (∀ g, (n <= 2 * length ps <= n + 1)%nat →
          CwiseNullaryOp.assign lanes e g rng =
            Ret (mk_array rows cols (take n (numbers_of ps)), g, rng'))).
Proof.
  intros Hr Hc n. split.
  { intros Hn. pose proof (packets_fit n). destruct (packets n); [done|]. nia. }
  unfold Rand.stdNormal, GenBase.generate, CwiseNullaryOp.create.
  rewrite (proj2 (Z.leb_le _ _) Hr), (proj2 (Z.leb_le _ _) Hc). cbn [andb].
  eexists _, _. split; [reflexivity|]. split; [reflexivity|].
  match goal with |- (∀ g rng, CwiseNullaryOp.assign _ ?e g rng = _) ∧ _ => set (copying := e) end.
  match goal with |- _ ∧ (_ → ∀ rng ps rng', _ → (∀ g, _ → _ → ∃ g', CwiseNullaryOp.assign _ ?e _ _ = _ ∧ _) ∧ _) =>
    set (referring := e) end.
  assert (∀ g rng, CwiseNullaryOp.assign lanes copying g rng =
    '(o, _, rng) ← CwiseNullaryOp.assign lanes referring (StdNormalGen.create lanes) rng; Ret (o, g, rng)) as Hcopy.
  { intros g rng. rewrite !nullary_assign. cbn.
    by destruct (evaluate _ _ _ _ _ _) as [[[xs g'] rng']| | |]. }
  assert (packets n = 0%nat → ∀ rng ps rng' g, points rng ps rng' → StdNormalGen.cache g ≠ [] →
    let zs := kept g ++ numbers_of ps in (n <= length zs <= n + 1)%nat →
    ∃ g', CwiseNullaryOp.assign lanes referring g rng = Ret (mk_array rows cols (take n zs), g', rng') ∧
      kept g' = drop n zs ∧ StdNormalGen.cache g' ≠ []) as Hrefer.
  { intros Hk rng ps rng' g Hp Hg zs Hn.
    destruct (each_normal (replicate n ()) g rng ps rng' Hg Hp) as (g' & He & Hh & Hg');
      [by rewrite length_replicate|]. rewrite length_replicate in He, Hh.
    exists g'. split; [|done]. rewrite nullary_assign. unfold evaluate, referring.
    cbn [CwiseNullaryOp.rows CwiseNullaryOp.cols CwiseNullaryOp.functor scalar_rng_adaptor.gen
      scalar_rng_adaptor.create_with load store gen_call gen_packet Rand.NormalType]. fold n.
    rewrite evaluate_scalars by (by rewrite length_replicate). by rewrite He. }
  split; [exact Hcopy|]. intros Hk rng ps rng' Hp. split; [by intros g; apply Hrefer|].
  intros g Hn. rewrite Hcopy.
  destruct (Hrefer Hk rng ps rng' (StdNormalGen.create lanes) Hp) as (g' & He & _).
  - unfold StdNormalGen.create. cbn. by destruct lanes; [lia|].
  - cbn. by rewrite length_numbers_of.
  - by rewrite He.
Qed.

End Normal.

(** ** Bernoulli arrays *)

Lemma threshold_range p t : Bernoulli_create p = Ret t → (0 <= t < 2 ^ 32)%Z.
Proof.
  unfold Bernoulli_create, to_p. destruct (_ && _); [|done].
  destruct (fmul_s _ _ _) as [b|b| |s m e]; [by intros [= <-]|done|done|].
  destruct s.
  - destruct (_ =? 0)%Z; [|done]. by intros [= <-].
  - destruct (_ <? _)%Z eqn:Hlt; [|done]. apply Z.ltb_lt in Hlt. intros [= <-]. split; [|exact Hlt].
    destruct (0 <=? e)%Z eqn:He.
    + apply Z.mul_nonneg_nonneg; [lia|]. apply Z.pow_nonneg. lia.
    + apply Z.div_pos; [lia|]. apply Z.pow_pos_nonneg; lia.
Qed.

Section BernoulliArrays.
Context {S : Type} `{Rng S} `{EigenPackets} `{!EigenPacketLaws} `{EigenConversions}.
Context (n : nat) (rawbits : S → outcome (list Z * S))
  (pcmplt : list Z → list Z → list Z) (pblendv : list Z → list Z → list Z → list Z).
Context (Hcmp : compares pcmplt n) (Hblend : blends pblendv n) `{!Traversal} `{!TraversalLaws (2 * n)}.

(** On an engine that always returns, in states [inv], the expression of
    [bernoulli] for a probability between 0 and 1 assigns an array of the
    requested shape whose coefficients are 0 or 1; a probability outside, or a
    negative size, fails by an assertion before anything is drawn. *)
Theorem bernoulli_arrays (inv : S → Prop) rows cols p t rng :
  (∀ rng, inv rng → ∃ x rng', rng_call rng = Ret (x, rng') ∧ inv rng') →
  (∀ rng, inv rng → ∃ r rng', rawbits rng = Ret (r, rng') ∧ register n r ∧ inv rng') →
  inv rng → Bernoulli_create p = Ret t →
  if (0 <=? rows)%Z && (0 <=? cols)%Z then
    ∃ e xs rng', Rand.bernoulli rawbits pcmplt pblendv rows cols p = Ret e ∧
      (∀ g, CwiseNullaryOp.assign (2 * n) e g rng = Ret (mk_array rows cols xs, g, rng')) ∧
      length xs = Z.to_nat (rows * cols) ∧ Forall (λ x, x = 0 ∨ x = 1)%Z xs ∧ inv rng'
  else Rand.bernoulli rawbits pcmplt pblendv rows cols p = Undef eigen_assertion.
Proof.
  intros Hcall Hraw Hrng Hp. unfold Rand.bernoulli. rewrite Hp. cbn [mbind outcome_bind].
  unfold CwiseNullaryOp.create. destruct (_ && _); [|done].
  pose proof (threshold_range _ _ Hp) as Ht.
  assert (∀ x, trial t x = 0 ∨ trial t x = 1)%Z as Htrial by (intros x; unfold trial; destruct (_ <? _)%Z; lia).
  destruct (evaluate_returns (2 * n) (keeping Bernoulli_call) (keeping (Bernoulli_packetOp rawbits pcmplt pblendv))
    (λ g rng, g = t ∧ inv rng) (λ x, x = 0 ∨ x = 1)%Z (Z.to_nat (rows * cols)) t rng)
    as (xs & g' & rng' & Hx & Hl & Hxs & _ & Hi); [| |done|].
  - intros g rng1 [-> Hr1]. destruct (Hcall _ Hr1) as (x & rng2 & Hx & Hr2).
    exists (trial t (u32 (pfirst x))), t, rng2. split; [|by split].
    unfold keeping, Bernoulli_call. by rewrite Hx.
  - intros g rng1 [-> Hr1]. destruct (Hraw _ Hr1) as (r & rng2 & Hr & Hreg & Hr2).
    eexists _, t, rng2. split; [|split_and!; [..|done|done]].
    + unfold keeping, Bernoulli_packetOp. rewrite Hr. cbn [mbind outcome_bind].
      by rewrite (bernoulli_lanes n pcmplt pblendv Hcmp Hblend t r Ht Hreg).
    + rewrite length_fmap. apply Hreg.
    + apply Forall_fmap, Forall_true. intros x. cbn. destruct (_ <? _)%Z; [apply Htrial|by left].
  - eexists _, xs, rng'. split; [reflexivity|]. split; [|done]. intros g. rewrite nullary_assign.
    cbn [CwiseNullaryOp.rows CwiseNullaryOp.cols CwiseNullaryOp.functor scalar_rng_adaptor.gen with_gen
      scalar_rng_adaptor.create_with load store gen_call gen_packet Rand.BernoulliType].
    by rewrite Hx.
Qed.

End BernoulliArrays.

(** ** Witnesses

    Packets of two lanes for the numbers, of four for the trials. *)

#[local] Instance pairs_first : Traversal := packets_first 2.
#[local] Instance pairs_first_laws : TraversalLaws 2 := packets_first_laws 2.
#[local] Instance number_tape : UniformSource R (list R) := tape 2.
#[local] Instance pair_lanes : PacketMath R := lane_packets 2.
#[local] Instance pair_lanes_laws : PacketMathLaws 2 := lane_packets_laws 2.

(** Three coefficients: a packet, then a scalar. *)
Definition shapes : Array R := mk_array 1 3 [1; 2; 3]%R.
Definition scales : Array R := mk_array 1 3 [1; 1; 2]%R.

Lemma array_quantiles_witness : ∃ xs,
  (e ← Rand.weibullVV shapes scales; CwiseHeteroBinaryOp.assign true 2 e [/ 2; / 4; / 3; / 5]%R) =
    Ret (mk_array 1 3 xs, [/ 5]%R) ∧ length xs = 3%nat ∧
  ∀ x, xs !! 2%nat = Some x → inverts (weibull 3 2) (/ 3) x.
Proof.
  destruct (array_quantiles 2 ltac:(lia) true shapes scales [/ 2; / 4; / 3]%R [/ 5]%R)
    as (_ & (xs & Hx & Hl & Hi) & _); [done|done|done|done|repeat constructor; lra|repeat constructor; lra|done|
      repeat constructor; lra|].
  exists xs. split; [exact Hx|]. split; [exact Hl|]. intros x. by apply Hi.
Defined.

Lemma normal_expressions_witness : ∃ e e' g1 g2 x y,
  Rand.stdNormal 2 1 1 1 = Ret e ∧ GenBase.generate (Rand.NormalType 1) 1 1 = Ret e' ∧
  CwiseNullaryOp.assign 2 e' (StdNormalGen.create 2) [3 / 4; / 2]%R = Ret (mk_array 1 1 [x], g1, []) ∧
  CwiseNullaryOp.assign 2 e' g1 [] = Ret (mk_array 1 1 [y], g2, []) ∧
  CwiseNullaryOp.assign 2 e g1 [3 / 4; / 2]%R = Ret (mk_array 1 1 [x], g1, []).
Proof.
  destruct (polar_ok 1 1 _ _ _ _ _ polar_half (le_n 1)) as [Hp _].
  destruct (normal_expressions 2 1 ltac:(lia) 1 1) as [Hk (e & e' & He & He' & _ & Hv)]; [lia..|].
  specialize (Hv (Hk ltac:(vm_compute; lia))). change (Z.to_nat (1 * 1)) with 1%nat in *.
  assert (points 1 [3 / 4; / 2]%R [(2 * (3 / 4) - 1, 2 * / 2 - 1, _)]%R []) as Hpoint
    by (cbn; eexists; split; [exact Hp|reflexivity]).
  destruct (Hv _ _ _ Hpoint) as [H1 H2].
  destruct (H1 (StdNormalGen.create 2)) as (g1 & E1 & Hk1 & Hc1); [done|cbn; lia|].
  destruct (Hv [] [] [] eq_refl) as [H3 _].
  destruct (H3 g1 Hc1) as (g2 & E2 & _); [rewrite Hk1; cbn; lia|].
  exists e, e', g1, g2. eexists _, _. split; [exact He|]. split; [exact He'|]. split; [exact E1|].
  rewrite Hk1 in E2. split; [exact E2|]. apply (H2 g1). cbn. lia.
Defined.

(** An engine whose every packet is the same. *)
#[local] Instance steady_rng : Rng unit := {|
  rng_call _ := Ret (packet_result [5; 2 ^ 30; 2 ^ 31; 7]%Z, tt);
  rng_half _ := Ret ([5; 2 ^ 30; 2 ^ 31; 7]%Z, tt);
|}.
#[local] Instance first_of_packet : EigenConversions :=
  {| pfirst_packet r := signed 32 (lane r 0); pcast l := replicate (length l) 0%Z |}.
#[local] Instance fours_first_laws : TraversalLaws (H := packets_first 4) (2 * 2) := packets_first_laws 4.

#[local] Existing Instances instructions instructions_laws.
Definition one_half : spec_float := fdiv_s binary64 (of_int binary64 1) (of_int binary64 2).

Lemma bernoulli_arrays_witness :
  let steady (_ : unit) := Ret ([5; 2 ^ 30; 2 ^ 31; 7]%Z, tt) in
  let pblendv := SSE.pblendv (mk_features true true true true) in
  ∃ e xs, Rand.bernoulli steady cmplt_epi32 pblendv 2 3 one_half = Ret e ∧
    CwiseNullaryOp.assign (H := packets_first 4) 4 e 0%Z tt = Ret (mk_array 2 3 xs, 0%Z, tt) ∧ length xs = 6%nat.
Proof.
  pose proof (bernoulli_arrays (H0 := instructions) 2 (λ _, Ret ([5; 2 ^ 30; 2 ^ 31; 7]%Z, tt)) cmplt_epi32
    (SSE.pblendv (mk_features true true true true)) (λ _ _ _ _, eq_refl) (sse_blends _) (H3 := packets_first 4)
    (λ _, True) 2 3 one_half (2 ^ 30)%Z tt) as Hb.
  destruct Hb as (e & xs & [] & He & Ha & Hl & _); [by exists (packet_result [5; 2 ^ 30; 2 ^ 31; 7]%Z), tt| |done|done|].
  - intros _ _. eexists _, tt. split; [reflexivity|]. split; [|done]. split; [done|].
    repeat constructor; unfold word; lia.
  - exists e, xs. split; [exact He|]. split; [apply Ha|exact Hl].
Defined.
