(* ===== verification/MatrixOps.v ===== *)
(** What EigenRand/MvDists uses of Eigen's matrices besides [Eigen]: matrices
    whose coefficients are not initialised, the coefficients in the order of
    storage, blocks, products, and the decompositions. *)

From S2P Require Import Prelude.
From S2P Require Import Num.
From S2P Require Import Eigen.

(** [Matrix m(rows, cols)]: whatever the memory holds. *)
Class Uninitialised (F : Type) := uninitialised : nat → nat → Matrix F.

Class UninitialisedLaws (F : Type) `{Uninitialised F} : Prop := {
  uninitialised_ok r c : matrix_ok (uninitialised r c);
  uninitialised_rows r c : rows (uninitialised r c) = r;
  uninitialised_cols r c : cols (uninitialised r c) = c;
}.

(** ** Storage *)

Section Storage.
Context {F : Type}.

(** [m.data()], and the matrix with given coefficients. *)
Definition storage (m : Matrix F) : list F := concat (columns m).

Fixpoint chunks (r c : nat) (l : list F) : list (list F) :=
  match c with
  | O => []
  | S c => take r l :: chunks r c (drop r l)
  end.
Definition of_storage (r c : nat) (l : list F) : Matrix F := mkMatrix r (chunks r c l).

(** [Map<Array>{ m.data(), n } = v], and [Map<Array>{ m.data() + p, n }]. *)
Definition write_storage (m : Matrix F) (v : list F) : outcome (Matrix F) :=
  if (length v <=? length (storage m))%nat
  then Ret (of_storage (rows m) (cols m) (v ++ drop (length v) (storage m)))
  else Undef (index_out_of_bounds (Z.of_nat (length v))).
Definition read_storage (m : Matrix F) (p n : nat) : outcome (list F) :=
  if (p + n <=? length (storage m))%nat then Ret (take n (drop p (storage m)))
  else Undef (index_out_of_bounds (Z.of_nat (p + n))).

(** [m.col(j).head(k)], [m.col(j).tail(k) = v], [m.middleCols(j, n)] and its
    assignment. *)
Definition col_head (m : Matrix F) (j k : nat) : outcome (list F) :=
  c ← get_col m (Z.of_nat j);
  if (k <=? length c)%nat then Ret (take k c) else Undef eigen_assertion.
Definition set_col_tail (m : Matrix F) (j k : nat) (v : list F) : outcome (Matrix F) :=
  c ← get_col m (Z.of_nat j);
  if (k <=? length c)%nat && (length v =? k)%nat
  then set_col m (Z.of_nat j) (take (length c - k) c ++ v)
  else Undef eigen_assertion.
Definition middleCols (m : Matrix F) (j n : nat) : outcome (Matrix F) :=
  if (j + n <=? cols m)%nat then Ret (mkMatrix (rows m) (take n (drop j (columns m))))
  else Undef eigen_assertion.
Definition set_middleCols (m : Matrix F) (j n : nat) (b : Matrix F) : outcome (Matrix F) :=
  if (j + n <=? cols m)%nat && (cols b =? n)%nat && (rows b =? rows m)%nat
  then Ret (mkMatrix (rows m) (take j (columns m) ++ columns b ++ drop (j + n) (columns m)))
  else Undef eigen_assertion.

End Storage.

(** ** Arithmetic *)

(** Products, whose sums Eigen orders as it likes, and the decompositions:
    [t.triangularView<Lower>().solve(b)], [LLT], [SelfAdjointEigenSolver] and
    [inverse].  A decomposition that fails has no result. *)
Class MatrixOps (F : Type) := {
  mmul : Matrix F → Matrix F → Matrix F;
  solve_lower_ : Matrix F → Matrix F → Matrix F;
  LLT : Matrix F → option (Matrix F);                         (* matrixL() *)
  SelfAdjointEigenSolver : Matrix F → option (list F * Matrix F);  (* eigenvalues(), eigenvectors() *)
  inverse : Matrix F → Matrix F;
}.

Section Arithmetic.
Context {F : Type} `{Num F}.

(** The coefficient [m(i, j)]. *)
Definition coeff (m : Matrix F) (i j : nat) : F := nth i (nth j (columns m) []) (of_Z 0).

Definition transpose (m : Matrix F) : Matrix F :=
  mkMatrix (cols m) ((λ i, (λ c, nth i c (of_Z 0)) <$> columns m) <$> seq 0 (rows m)).

Definition Identity (n : nat) : Matrix F :=
  mkMatrix n ((λ j, (λ i, if (i =? j)%nat then of_Z 1 else of_Z 0) <$> seq 0 n) <$> seq 0 n).

(** [m * d.asDiagonal()]. *)
Definition times_diagonal (m : Matrix F) (d : list F) : outcome (Matrix F) :=
  if (cols m =? length d)%nat
  then Ret (mkMatrix (rows m) (zip_with (λ c x, (λ y, fmul y x) <$> c) (columns m) d))
  else Undef eigen_assertion.

(** [m.triangularView<StrictlyUpper>().setZero()]. *)
Definition clear_upper (m : Matrix F) : Matrix F :=
  mkMatrix (rows m)
    (imap (λ j c, replicate (Nat.min j (length c)) (of_Z 0) ++ drop j c) (columns m)).

(** [v.cwiseMax(0).cwiseSqrt()]. *)
Definition clipped_roots (v : list F) : list F :=
  (λ x, fsqrt (if fltb x (of_Z 0) then of_Z 0 else x)) <$> v.

Context `{MatrixOps F}.

Definition product (a b : Matrix F) : outcome (Matrix F) :=
  if (cols a =? rows b)%nat then Ret (mmul a b) else Undef eigen_assertion.
Definition solve_lower (t b : Matrix F) : outcome (Matrix F) :=
  if (cols t =? rows t)%nat && (rows t =? rows b)%nat then Ret (solve_lower_ t b)
  else Undef eigen_assertion.

End Arithmetic.

(** ** Lemmas *)

(** A matrix with [n] rows and [c] columns. *)
Definition sized {F} (n c : nat) (m : Matrix F) : Prop := matrix_ok m ∧ rows m = n ∧ cols m = c.

(** The coefficient [m(i, j)] of a matrix of any type. *)
Definition entry {F} (m : Matrix F) (i j : nat) : option F := columns m !! j ≫= lookup i.

Lemma set_row_entries {F} (m : Matrix F) i v m' :
  set_row m (Z.of_nat i) v = Ret m' → matrix_ok m →
  matrix_ok m' ∧ rows m' = rows m ∧ cols m' = cols m ∧
  (∀ j, entry m' i j = v !! j) ∧ (∀ k j, k ≠ i → entry m' k j = entry m k j).
Proof.
  unfold set_row. destruct (_ && _ && _) eqn:E; [|done]. intros [= <-] Hok.
  apply andb_true_iff in E as [E Hl%Nat.eqb_eq]. zbool. unfold cols in *. rewrite Nat2Z.id.
  assert (∀ j c, columns m !! j = Some c → (i < length c)%nat) as Hc.
  { intros j c Hj. unfold matrix_ok in Hok. rewrite Forall_lookup in Hok. rewrite (Hok j c Hj). lia. }
  split_and!.
  - apply zip_with_columns_ok; [|done]. intros c x Hl'. by rewrite length_insert.
  - done.
  - cbn. rewrite length_zip_with. lia.
  - intros j. unfold entry. cbn. rewrite lookup_zip_with. destruct (columns m !! j) as [c|] eqn:Ec; cbn.
    + destruct (v !! j) as [x|] eqn:Ev; cbn; [|done]. by apply list_lookup_insert_eq, (Hc j).
    + symmetry. apply lookup_ge_None_2. apply lookup_ge_None_1 in Ec. lia.
  - intros k j Hk. unfold entry. cbn. rewrite lookup_zip_with. destruct (columns m !! j) as [c|] eqn:Ec; cbn; [|done].
    destruct (lookup_lt_is_Some_2 v j) as [x Hx]; [apply lookup_lt_Some in Ec; lia|]. rewrite Hx. cbn.
    by rewrite list_lookup_insert_ne.
Qed.

Lemma set_row_returns {F} (m : Matrix F) i v :
  (i < rows m)%nat → length v = cols m → ∃ m', set_row m (Z.of_nat i) v = Ret m'.
Proof. intros Hi Hv. rewrite set_row_ok by (done || lia). by eexists. Qed.

(** A column of which every entry is known. *)
Lemma column_entries {F} (m : Matrix F) s c : matrix_ok m → (s < cols m)%nat → length c = rows m →
  (∀ i, (i < rows m)%nat → entry m i s = c !! i) → columns m !! s = Some c.
Proof.
  intros Hok Hs Hl He. destruct (lookup_lt_is_Some_2 (columns m) s) as [c' Hc]; [done|]. rewrite Hc. f_equal.
  assert (length c' = rows m) as Hl' by (unfold matrix_ok in Hok; rewrite Forall_lookup in Hok; by eapply Hok).
  apply list_eq. intros i. destruct (decide (i < rows m)%nat) as [Hi|].
  - pose proof (He i Hi) as Hei. unfold entry in Hei. by rewrite Hc in Hei.
  - rewrite !lookup_ge_None_2 by lia. done.
Qed.

(** The entries of column [s] of a list of rows. *)
Definition column_of {F} (s : nat) (ts : list (list F)) : list F := omap (lookup s) ts.

Lemma column_of_lookup {F} samples s (ts : list (list F)) k : Forall (λ t, length t = samples) ts → (s < samples)%nat →
  ts !! k ≫= lookup s = column_of s ts !! k.
Proof.
  intros Hts Hs. revert k. induction Hts as [|t ts Ht _ IH]; intros k; [done|].
  destruct (lookup_lt_is_Some_2 t s) as [z Hz]; [lia|]. unfold column_of. rewrite (omap_cons_Some _ _ z) by done.
  by destruct k as [|k]; [|apply IH].
Qed.

Lemma column_of_length {F} samples s (ts : list (list F)) : Forall (λ t, length t = samples) ts → (s < samples)%nat →
  length (column_of s ts) = length ts.
Proof.
  intros Hts Hs. induction Hts as [|t ts Ht _ IH]; [done|].
  destruct (lookup_lt_is_Some_2 t s) as [z Hz]; [lia|]. unfold column_of. rewrite (omap_cons_Some _ _ z) by done.
  cbn. by f_equal.
Qed.

(** A concrete instance: memory that holds one value. *)
Definition zeros {F} (x : F) : Uninitialised F := λ r c, mkMatrix r (replicate c (replicate r x)).
Lemma zeros_laws {F} (x : F) : @UninitialisedLaws F (zeros x).
Proof.
  split; intros r c; [|done|apply length_replicate].
  apply Forall_replicate, length_replicate.
Qed.
