(* ===== verification/Multinomial.v ===== *)
(** EigenRand/MvDists/Multinomial.h: [MultinomialGen] and [DirichletGen], for one
    sample and for a matrix of samples. *)

From S2P Require Import Prelude.
From S2P Require Import Simd.
From S2P Require Import PacketMath.
From S2P Require Import Num.
From S2P Require Import Eigen.
From S2P Require Import MatrixOps.
From S2P Require Import Evaluate.
From S2P Require Import RandUtils.
From S2P Require Import Basic.
From S2P Require Import Alias.
From S2P Require Import Discrete.
From S2P Require Import Reject.
From S2P Require Import GammaBeta.
From S2P Require Import Poisson.
From S2P Require Import BinomialV.

(** ** MultinomialGen *)

Module MultinomialGen.

Record t (D : Type) := mk { trials : Z; probs : list D; discrete : DiscreteGen.t }.
#[global] Arguments mk {D} _ _ _.
#[global] Arguments trials {D} _.
#[global] Arguments probs {D} _.
#[global] Arguments discrete {D} _.

Definition dims {D} (g : t D) : Z := Z.of_nat (length (probs g)).

Section Create.
Context {D : Type} `{Num D} `{EigenOps D} `{CeilLog2}.

Definition create (_trials : Z) (_weights : list D) : outcome (t D) :=
  discrete ← DiscreteGen.create _weights;
  if forallb (λ p, of_Z 0 <=? p)%num _weights
  then Ret (mk _trials ((λ p, p / vsum _weights)%num <$> _weights) discrete)
  else Undef eigen_assertion.

End Create.

(** ** One sample *)

Section One.
Context {D R : Type} `{Rng R} `{EigenPackets} `{EigenConversions} `{Traversal} (avx2 : bool) (lanes : nat)
  (rawbits : R → outcome (list Z * R))
  (pcmplt : list Z → list Z → list Z)
  (pblendv : list Z → list Z → list Z → list Z)
  (psrl : Z → list Z → Z → list Z)
  (pgather : ∀ A, list A → list Z → outcome (list A)).

(** [ret[i] += 1], and the loop over the drawn values. *)
Definition increment (ret : list Z) (i : Z) : outcome (list Z) :=
  if (i <? 0) then Undef eigen_assertion
  else match ret !! Z.to_nat i with
       | Some x => x ← int_add x 1; Ret (<[Z.to_nat i := x]> ret)
       | None => Undef eigen_assertion
       end.
Fixpoint tally (buf ret : list Z) : outcome (list Z) :=
  match buf with
  | [] => Ret ret
  | i :: buf => ret ← increment ret i; tally buf ret
  end.

(** [k] values of the expression [d], which draws them anew each time. *)
Definition draw (k : nat) (g : DiscreteGen.t) (rng : R) : outcome (list Z * DiscreteGen.t * R) :=
  evaluate lanes (keeping DiscreteGen.call)
    (DiscreteGen.packetOp rawbits pcmplt pblendv psrl pgather avx2) k g rng.

(** [for (i = 0; i < (trials & ~15); i += 16)]. *)
Fixpoint block_loop (fuel : nat) (trials i : Z) (ret : list Z) (g : DiscreteGen.t) (rng : R) :
    outcome (Z * list Z * DiscreteGen.t * R) :=
  match fuel with
  | O => OutOfFuel
  | S fuel =>
      if (i <? Z.land trials (Z.lnot 15)) then
        '(buf, g, rng) ← draw 16 g rng;
        ret ← tally buf ret;
        block_loop fuel trials (i + 16) ret g rng
      else Ret (i, ret, g, rng)
  end.

Definition with_discrete (g : t D) (d : DiscreteGen.t) : t D := mk (trials g) (probs g) d.

Definition generate (g : t D) (rng : R) : outcome (list Z * t D * R) :=
  let ret := replicate (length (probs g)) 0 in
  '(i, ret, d, rng) ← block_loop (S (Z.to_nat (trials g))) (trials g) 0 ret (discrete g) rng;
  let rest := trials g - i in
  if ((0 <=? rest) && (rest <=? 16)) then
    '(buf, d, rng) ← draw (Z.to_nat rest) d rng;
    ret ← tally buf ret;
    Ret (ret, with_discrete g d, rng)
  else Undef eigen_assertion.

End One.

(** ** Many samples *)

Section Many.
Context {P D R : Type} `{Num P} `{Libm P} `{Num D} `{Libm D} `{Trig D} `{Lgamma D} `{FloatDouble P D}
  `{UniformSource P R} `{PacketMath P} `{PacketCast P} `{EigenPackets} `{Traversal} `{Uninitialised Z}.
Context (generate : t D → R → outcome (list Z * t D * R)).
Context (lanes : nat) (bits : P → Z) (of_bits : Z → P) (predux_all : list Z → bool) (garbage : list P)
  (fuel : nat).

(** [generate] for each column. *)
Fixpoint each_col (todo : nat) (s : Z) (ret : Matrix Z) (g : t D) (rng : R) : outcome (Matrix Z * t D * R) :=
  match todo with
  | O => Ret (ret, g, rng)
  | S todo =>
      '(c, g, rng) ← generate g rng;
      ret ← set_col ret s c;
      each_col todo (s + 1) ret g rng
  end.

(** [ft = impl::binomial(urng, fr_trials, p)]: the arrays of [float] have the bits
    of those of [int32_t]. *)
Definition binomial_row (r_trials : list Z) (p : D) (rng : R) : outcome (list Z * R) :=
  let packet_bits (a : list P) : list Z := (λ x, u32 (bits x)) <$> a in
  let of_packet_bits (a : list Z) : list P := (λ w, of_bits (i32 w)) <$> a in
  '(ft, _, rng) ← evaluate_with lanes
    (λ trials, stateless (λ rng, BinomialVGen.call_float bits of_bits fuel rng trials (narrow p)))
    (λ trials, stateless (λ rng, BinomialVGen.packetOp_float predux_all garbage packet_bits of_packet_bits
       fuel rng trials (pset1 (narrow p))))
    (of_bits <$> r_trials) tt rng;
  Ret (bits <$> (ft : list P), rng).

(** [r_trials -= t]. *)
Definition minus (r_trials t : list Z) : list Z := zip_with (λ a b, i32 (a - b)) r_trials t.

(** [for (Index i = 1; i < dim - 1; ++i)]. *)
Fixpoint row_loop (todo : nat) (probs : list D) (i : Z) (rest_p : D) (r_trials : list Z) (ret : Matrix Z)
    (rng : R) : outcome (list Z * Matrix Z * R) :=
  match todo with
  | O => Ret (r_trials, ret, rng)
  | S todo =>
      p ← array_get probs i;
      '(t, rng) ← binomial_row r_trials (p / rest_p)%num rng;
      ret ← set_row ret i t;
      row_loop todo probs (i + 1) (rest_p - p)%num (minus r_trials t) ret rng
  end.

Definition generate_n (g : t D) (rng : R) (samples : nat) : outcome (Matrix Z * t D * R) :=
  let dim := dims g in
  let ret := uninitialised (length (probs g)) samples in
  if (trials g <? Z.max (30 * (dim - 1)) 100) then each_col samples 0 ret g rng
  else
    let r_trials := replicate samples (trials g) in
    p ← array_get (probs g) 0;
    '(t, rng) ← binomial_row r_trials p rng;
    let r_trials := minus r_trials t in
    ret ← set_row ret 0 t;
    '(r_trials, ret, rng) ← row_loop (length (probs g) - 2) (probs g) 1 (of_Z 1 - p)%num r_trials ret rng;
    ret ← set_row ret (dim - 1) r_trials;
    Ret (ret, g, rng).

End Many.
End MultinomialGen.

(** ** DirichletGen *)

Module DirichletGen.

Record t (F : Type) := mk { alpha : list F; gammas : list (GammaGen.t F) }.
#[global] Arguments mk {F} _ _.
#[global] Arguments alpha {F} _.
#[global] Arguments gammas {F} _.

Definition dims {F} (g : t F) : Z := Z.of_nat (length (alpha g)).

Section Code.
Context {F R : Type} `{Num F} `{Libm F} `{Trig F} `{PacketMath F} `{PacketFilter F} `{UniformSource F R}
  `{EigenOps F} `{Traversal} `{Uninitialised F} (lanes fuel : nat).

(** [gammas.emplace_back(alpha[i])], with the default second parameter. *)
Fixpoint make_gammas (_alpha : list F) : outcome (list (GammaGen.t F)) :=
  match _alpha with
  | [] => Ret []
  | a :: _alpha =>
      if (of_Z 0 <? a)%num then gs ← make_gammas _alpha; Ret (GammaGen.create lanes a (of_Z 1) :: gs)
      else Undef eigen_assertion
  end.
Definition create (_alpha : list F) : outcome (t F) := gs ← make_gammas _alpha; Ret (mk _alpha gs).

(** [for (i = 0; i < dim; ++i) { tmp = gammas[i].generateLike(tmp, urng);
    ret.row(i) = tmp.transpose(); }]. *)
Fixpoint row_loop (samples : nat) (i : Z) (gs : list (GammaGen.t F)) (ret : Matrix F) (rng : R) :
    outcome (list (GammaGen.t F) * Matrix F * R) :=
  match gs with
  | [] => Ret ([], ret, rng)
  | g :: gs =>
      '(tmp, g, rng) ← evaluate lanes (keeping (GammaGen.call fuel)) (GammaGen.packetOp fuel) samples g rng;
      ret ← set_row ret i tmp;
      '(gs, ret, rng) ← row_loop samples (i + 1) gs ret rng;
      Ret (g :: gs, ret, rng)
  end.

(** [v /= v.sum()], and the same for every column. *)
Definition normalize (v : list F) : list F := (λ x, x / vsum v)%num <$> v.

Definition generate_n (g : t F) (rng : R) (samples : nat) : outcome (Matrix F * t F * R) :=
  '(gs, ret, rng) ← row_loop samples 0 (gammas g) (uninitialised (length (alpha g)) samples) rng;
  Ret (mkMatrix (rows ret) (normalize <$> columns ret), mk (alpha g) gs, rng).

(** [ret[i] = gammas[i].generate<Matrix<_Scalar, 1, 1>>(1, 1, urng)(0)]. *)
Fixpoint coefficient_loop (gs : list (GammaGen.t F)) (rng : R) : outcome (list F * R) :=
  match gs with
  | [] => Ret ([], rng)
  | g :: gs =>
      '(x, rng) ← GammaGen.call fuel g rng;
      '(xs, rng) ← coefficient_loop gs rng;
      Ret (x :: xs, rng)
  end.

Definition generate (g : t F) (rng : R) : outcome (list F * R) :=
  '(ret, rng) ← coefficient_loop (gammas g) rng; Ret (normalize ret, rng).

End Code.
End DirichletGen.

(** ** The functions that make a generator *)

Definition makeMultinomialGen {D} `{Num D} `{EigenOps D} `{CeilLog2} (trials : Z) (probs : list D) :
    outcome (MultinomialGen.t D) := MultinomialGen.create trials probs.
Definition makeDirichletGen {F} `{Num F} `{Libm F} `{Trig F} (lanes : nat) (alpha : list F) :
    outcome (DirichletGen.t F) := DirichletGen.create lanes alpha.
