(* ===== verification/MultinomialProps.v ===== *)
(** [MultinomialGen] and [DirichletGen]: one sample counts values that were drawn,
    a matrix of samples from many trials is a chain of binomial numbers, with
    what goes wrong in it, and Dirichlet samples are normalised. *)

From S2P Require Import Prelude.
From S2P Require Import Simd.
From S2P Require Import FloatBits.
From Stdlib Require Import SpecFloat.
From S2P Require Import Num.
From S2P Require Import FloatNum.
From S2P Require Import NumR.
From S2P Require Import Eigen.
From S2P Require Import EigenR.
From S2P Require Import MatrixOps.
From S2P Require Import Evaluate.
From S2P Require Import RandUtils.
From S2P Require Import PacketMath.
From S2P Require Import Alias.
From S2P Require Import Discrete.
From S2P Require Import Reject.
From S2P Require Import GammaBeta.
From S2P Require Import Poisson.
From S2P Require Import BinomialV.
From S2P Require Import Multinomial.
From S2P Require Import DiscreteProps.
From S2P Require Import RejectProps.
From S2P Require Import ContinuousProps.
From S2P Require Import GammaProps.
From S2P Require Import PoissonProps.
From S2P Require Import BinomialVProps.
From Stdlib Require Import Reals Lra.

#[local] Open Scope Z_scope.

(** ** Counting *)

(** How often each of the values [0 .. dim - 1] occurs. *)
Definition occurrences (i : Z) (vs : list Z) : Z := Z.of_nat (length (filter (λ v, v = i) vs)).
Definition counts (dim : nat) (vs : list Z) : list Z := (λ i, occurrences (Z.of_nat i) vs) <$> seq 0 dim.

Definition value_below (dim : nat) (v : Z) : Prop := 0 <= v < Z.of_nat dim.

Lemma occurrences_snoc i vs v : occurrences i (vs ++ [v]) = occurrences i vs + if decide (v = i) then 1 else 0.
Proof.
  unfold occurrences. rewrite filter_app, length_app. case_decide as E.
  - rewrite filter_cons_True by done. cbn. lia.
  - rewrite filter_cons_False by done. cbn. lia.
Qed.

Lemma occurrences_le i vs : occurrences i vs <= Z.of_nat (length vs).
Proof. unfold occurrences. apply inj_le, length_filter. Qed.

Lemma counts_lookup dim vs i : (i < dim)%nat → counts dim vs !! i = Some (occurrences (Z.of_nat i) vs).
Proof. intros Hi. unfold counts. by rewrite list_lookup_fmap, lookup_seq_lt. Qed.

Lemma counts_length dim vs : length (counts dim vs) = dim.
Proof. unfold counts. by rewrite length_fmap, length_seq. Qed.

Lemma counts_snoc dim vs v : value_below dim v →
  counts dim (vs ++ [v]) = <[Z.to_nat v := occurrences v vs + 1]> (counts dim vs).
Proof.
  intros Hv. unfold value_below in Hv. apply list_eq. intros i.
  destruct (decide (i < dim)%nat) as [Hi|Hi].
  - rewrite counts_lookup, occurrences_snoc by done. destruct (decide (i = Z.to_nat v)) as [->|Hne].
    + rewrite list_lookup_insert_eq by (rewrite counts_length; lia). rewrite Z2Nat.id by lia.
      by rewrite decide_True.
    + rewrite list_lookup_insert_ne, counts_lookup by done. rewrite decide_False by lia. f_equal. lia.
  - rewrite !lookup_ge_None_2; [done|rewrite length_insert|]; rewrite counts_length; lia.
Qed.

Lemma zsum_insert l i x y : l !! i = Some x → zsum (<[i := y]> l) = zsum l - x + y.
Proof.
  revert i. induction l as [|z l IH]; intros [|i]; cbn [lookup list_lookup]; try done.
  - intros [= ->]. cbn. lia.
  - intros Hi. change (zsum (z :: <[i := y]> l) = zsum (z :: l) - x + y). rewrite !zsum_cons, (IH i) by done. lia.
Qed.

Lemma counts_sum dim vs : Forall (value_below dim) vs → zsum (counts dim vs) = Z.of_nat (length vs).
Proof.
  induction vs as [|v vs IH] using rev_ind; intros Hv.
  - unfold counts. induction (seq 0 dim) as [|i l IHl]; [done|]. rewrite fmap_cons, zsum_cons, IHl. done.
  - apply Forall_app in Hv as [Hvs [Hv _]%Forall_cons]. rewrite counts_snoc by done.
    rewrite (zsum_insert _ _ (occurrences v vs)).
    + rewrite IH, length_app by done. cbn. lia.
    + unfold value_below in Hv. rewrite counts_lookup by lia. by rewrite Z2Nat.id by lia.
Qed.

Lemma tally_counts dim buf : ∀ vs, Forall (value_below dim) buf →
  Z.of_nat (length vs + length buf) <= INT_MAX →
  MultinomialGen.tally buf (counts dim vs) = Ret (counts dim (vs ++ buf)).
Proof.
  induction buf as [|v buf IH]; intros vs Hb Hmax; cbn [MultinomialGen.tally]; [by rewrite app_nil_r|].
  apply Forall_cons in Hb as [Hv Hb]. pose proof Hv as Hv'. unfold value_below in Hv'. cbn [length] in Hmax.
  assert (MultinomialGen.increment (counts dim vs) v = Ret (counts dim (vs ++ [v]))) as ->.
  { unfold MultinomialGen.increment. rewrite (proj2 (Z.ltb_ge v 0)) by lia. rewrite counts_lookup by lia.
    rewrite Z2Nat.id by lia. pose proof (occurrences_le v vs) as Hle. unfold occurrences in Hle |- *.
    rewrite int_add_ok by int_lia. cbn [mbind outcome_bind]. by rewrite counts_snoc. }
  cbn [mbind outcome_bind]. rewrite IH; [|done|rewrite length_app; cbn; lia]. by rewrite <-app_assoc.
Qed.

Lemma counts_nil dim : counts dim [] = replicate dim 0.
Proof.
  apply list_eq. intros i. destruct (decide (i < dim)%nat).
  - rewrite counts_lookup, lookup_replicate_2 by done. done.
  - rewrite !lookup_ge_None_2; [done|rewrite length_replicate; lia|rewrite counts_length; lia].
Qed.

(** ** One sample *)

Section One.
Context {D St : Type} `{Rng St} `{EigenPackets} `{EigenConversions} `{Traversal}.
Context (avx2 : bool) (lanes : nat) `{!TraversalLaws lanes} (rawbits : St → outcome (list Z * St))
  (pcmplt : list Z → list Z → list Z) (pblendv : list Z → list Z → list Z → list Z)
  (psrl : Z → list Z → Z → list Z) (pgather : ∀ A, list A → list Z → outcome (list A)).

(** On states with the invariant [inv], which it keeps, the discrete generator
    draws values below [dim]. *)
Definition draws_below (dim : nat) (inv : DiscreteGen.t → St → Prop) : Prop :=
  (∀ d rng, inv d rng → ∃ x rng', DiscreteGen.call d rng = Ret (x, rng') ∧ value_below dim x ∧ inv d rng') ∧
  (∀ d rng, inv d rng → ∃ xs d' rng',
     DiscreteGen.packetOp rawbits pcmplt pblendv psrl pgather avx2 d rng = Ret (xs, d', rng') ∧
     length xs = lanes ∧ Forall (value_below dim) xs ∧ inv d' rng').

Context (dim : nat) (inv : DiscreteGen.t → St → Prop) (Hdraws : draws_below dim inv).

#[local] Abbreviation draw := (MultinomialGen.draw avx2 lanes rawbits pcmplt pblendv psrl pgather).
#[local] Abbreviation block_loop := (MultinomialGen.block_loop avx2 lanes rawbits pcmplt pblendv psrl pgather).

Lemma draw_ok k d rng : inv d rng →
  ∃ xs d' rng', draw k d rng = Ret (xs, d', rng') ∧ length xs = k ∧ Forall (value_below dim) xs ∧ inv d' rng'.
Proof.
  intros Hi. destruct Hdraws as [Hcall Hpacket]. apply (evaluate_returns lanes _ _ inv); [|done|done].
  intros d1 rng1 Hi1. destruct (Hcall d1 rng1 Hi1) as (x & rng2 & Hc & Hx & Hi2). exists x, d1, rng2.
  unfold keeping. by rewrite Hc.
Qed.

(** The blocks end at the greatest multiple of 16 that is not above the trials. *)
Lemma blocks_end trials : 0 <= trials → Z.land trials (Z.lnot 15) = 16 * (trials / 16).
Proof.
  intros Ht. change 15 with (Z.ones 4). rewrite <-Z.ldiff_land, Z.ldiff_ones_r by lia.
  rewrite Z.shiftl_mul_pow2, Z.shiftr_div_pow2 by lia. change (2 ^ 4) with 16. lia.
Qed.

Lemma block_loop_ok trials n : 0 <= trials <= INT_MAX → ∀ fuel i vs d rng,
  trials / 16 = i + Z.of_nat n → 0 <= i → Z.of_nat (length vs) = 16 * i → (n < fuel)%nat →
  Forall (value_below dim) vs → inv d rng →
  ∃ vs' d' rng', block_loop fuel trials (16 * i) (counts dim vs) d rng =
      Ret (16 * (trials / 16), counts dim vs', d', rng') ∧
    Z.of_nat (length vs') = 16 * (trials / 16) ∧ Forall (value_below dim) vs' ∧ inv d' rng'.
Proof.
  intros Ht. pose proof (Z.div_mod trials 16 ltac:(lia)) as Hdm.
  pose proof (Z.mod_pos_bound trials 16 ltac:(lia)) as Hm.
  induction n as [|n IH]; intros [|fuel] i vs d rng Hn Hi Hl Hf Hvs Hinv; try lia;
    cbn [MultinomialGen.block_loop]; rewrite blocks_end by lia.
  - rewrite (proj2 (Z.ltb_ge _ _)) by lia. exists vs, d, rng. rewrite Hn. by replace (i + Z.of_nat 0) with i by lia.
  - rewrite (proj2 (Z.ltb_lt _ _)) by lia.
    destruct (draw_ok 16 d rng Hinv) as (buf & d1 & rng1 & -> & Hb & Hbv & Hinv1). cbn [mbind outcome_bind].
    rewrite tally_counts; [|done|rewrite Hb; int_lia]. cbn [mbind outcome_bind].
    replace (16 * i + 16) with (16 * (i + 1)) by lia.
    apply IH; try done; try lia; [rewrite length_app, Hb; lia|by apply Forall_app].
Qed.

(** C40. One sample of [MultinomialGen] draws exactly [trials] values, in blocks of
    16 and a rest, and returns how often each was drawn: the numbers add up to
    [trials], for every way in which Eigen mixes single draws and packets. *)
Theorem multinomial_counts (g : MultinomialGen.t D) rng :
  length (MultinomialGen.probs g) = dim → 0 <= MultinomialGen.trials g <= INT_MAX →
  inv (MultinomialGen.discrete g) rng →
  ∃ vs g' rng',
    MultinomialGen.generate avx2 lanes rawbits pcmplt pblendv psrl pgather g rng = Ret (counts dim vs, g', rng') ∧
    Z.of_nat (length vs) = MultinomialGen.trials g ∧ Forall (value_below dim) vs ∧
    zsum (counts dim vs) = MultinomialGen.trials g ∧
    MultinomialGen.trials g' = MultinomialGen.trials g ∧ MultinomialGen.probs g' = MultinomialGen.probs g ∧
    inv (MultinomialGen.discrete g') rng'.
Proof.
  intros Hdim Ht Hinv. unfold MultinomialGen.generate. rewrite Hdim, <-counts_nil.
  set (n := MultinomialGen.trials g) in *.
  pose proof (Z.div_mod n 16 ltac:(lia)) as Hdm. pose proof (Z.mod_pos_bound n 16 ltac:(lia)) as Hm.
  destruct (block_loop_ok n (Z.to_nat (n / 16)) Ht (S (Z.to_nat n)) 0 [] (MultinomialGen.discrete g) rng)
    as (vs & d1 & rng1 & Hb & Hl & Hvs & Hinv1); try done; try lia.
  change (16 * 0) with 0 in Hb. rewrite Hb. cbn [mbind outcome_bind].
  rewrite (proj2 (Z.leb_le _ _)), (proj2 (Z.leb_le _ _)) by lia. cbn [andb].
  destruct (draw_ok (Z.to_nat (n - 16 * (n / 16))) d1 rng1 Hinv1) as (buf & d2 & rng2 & -> & Hbl & Hbv & Hinv2).
  cbn [mbind outcome_bind]. rewrite tally_counts; [|done|rewrite Hbl; int_lia]. cbn [mbind outcome_bind].
  assert (Forall (value_below dim) (vs ++ buf)) by by apply Forall_app.
  assert (Z.of_nat (length (vs ++ buf)) = n) by (rewrite length_app, Hbl; lia).
  exists (vs ++ buf), (MultinomialGen.with_discrete g d2), rng2.
  split_and!; try done. rewrite counts_sum by done. done.
Qed.

End One.

(** ** Many samples *)

Section Many.
Context {P D St : Type} `{Num P} `{Libm P} `{Num D} `{Libm D} `{Trig D} `{Lgamma D} `{FloatDouble P D}
  `{UniformSource P St} `{PacketMath P} `{PacketCast P} `{EigenPackets} `{Traversal}
  `{Uninitialised Z} `{!UninitialisedLaws Z}.
Context (generate : MultinomialGen.t D → St → outcome (list Z * MultinomialGen.t D * St)).
Context (lanes : nat) (bits : P → Z) (of_bits : Z → P) (predux_all : list Z → bool) (garbage : list P) (fuel : nat).

#[local] Abbreviation binomial_row := (MultinomialGen.binomial_row lanes bits of_bits predux_all garbage fuel).
#[local] Abbreviation row_loop := (MultinomialGen.row_loop lanes bits of_bits predux_all garbage fuel).

(** The probability of each category given that the ones before it did not come. *)
Fixpoint conditionals_after (rest_p : D) (ps : list D) : list D :=
  match ps with
  | [] => []
  | p :: ps => fdiv p rest_p :: conditionals_after (fsub rest_p p) ps
  end.
Definition conditionals (ps : list D) : list D :=
  match ps with [] => [] | p :: ps => p :: conditionals_after (fsub (of_Z 1) p) ps end.

(** A row of binomial numbers for each probability, with the trials that the rows
    before left; and what the last leaves. *)
Fixpoint binomial_rows (qs : list D) (r_trials : list Z) (rng : St) : outcome (list (list Z) * list Z * St) :=
  match qs with
  | [] => Ret ([], r_trials, rng)
  | q :: qs =>
      '(t, rng) ← binomial_row r_trials q rng;
      '(ts, r_trials, rng) ← binomial_rows qs (MultinomialGen.minus r_trials t) rng;
      Ret (t :: ts, r_trials, rng)
  end.

(** Of one sample: the numbers [c] of the categories drawn, and the trials left. *)
Definition trials_left (trials : Z) (c : list Z) : Z := foldl (λ a t, i32 (a - t)) trials c.

Lemma u32_i32 z : u32 (i32 z) = u32 z.
Proof.
  unfold u32, i32. pose proof (Z.div_mod (z + 2 ^ 31) (2 ^ 32) ltac:(lia)) as Hd.
  rewrite (Z.mod_eq (z + 2 ^ 31)) by lia.
  replace (z + 2 ^ 31 - 2 ^ 32 * ((z + 2 ^ 31) / 2 ^ 32) - 2 ^ 31)
    with (z + - ((z + 2 ^ 31) / 2 ^ 32) * 2 ^ 32) by lia. by rewrite Z_mod_plus_full.
Qed.

Lemma trials_left_sum trials c : u32 (zsum c + trials_left trials c) = u32 trials.
Proof.
  revert trials. induction c as [|t c IH]; intros trials; [done|].
  change (trials_left trials (t :: c)) with (trials_left (i32 (trials - t)) c).
  rewrite zsum_cons, <-Z.add_assoc. unfold u32 in *. rewrite Z.add_mod, IH, <-Z.add_mod by lia.
  change (u32 (t + i32 (trials - t)) = u32 trials). unfold u32.
  rewrite Z.add_mod by lia. fold (u32 (i32 (trials - t))). rewrite u32_i32. unfold u32.
  rewrite <-Z.add_mod by lia. f_equal. lia.
Qed.

(** None of the numbers is negative or above the trials left before it. *)
Fixpoint within (trials : Z) (c : list Z) : Prop :=
  match c with [] => True | t :: c => 0 <= t <= trials ∧ within (trials - t) c end.

Lemma trials_left_within trials c : 0 <= trials <= INT_MAX → within trials c →
  trials_left trials c = trials - zsum c ∧ 0 <= trials_left trials c ∧ Forall (λ t, 0 <= t) c.
Proof.
  revert trials. induction c as [|t c IH]; intros trials Ht Hw; [cbn; split_and!; [lia|lia|done]|].
  destruct Hw as [Ht0 Hw]. change (trials_left trials (t :: c)) with (trials_left (i32 (trials - t)) c).
  rewrite i32_id by int_lia. destruct (IH (trials - t)) as (Hl & Hl0 & Hf); [int_lia|done|].
  rewrite zsum_cons. split_and!; [lia|done|constructor; [lia|done]].
Qed.

Lemma binomial_rows_ok samples : ∀ qs r_trials rng ts r rng',
  binomial_rows qs r_trials rng = Ret (ts, r, rng') → length r_trials = samples →
  Forall (λ t, length t = samples) ts →
  length ts = length qs ∧ length r = samples ∧
  ∀ s x, r_trials !! s = Some x → length (column_of s ts) = length qs ∧ r !! s = Some (trials_left x (column_of s ts)).
Proof.
  induction qs as [|q qs IH]; intros r_trials rng ts r rng'; cbn [binomial_rows].
  - intros [= <- <- <-] Hl _. split_and!; [done..|]. intros s x Hx. by split.
  - destruct (binomial_row r_trials q rng) as [[t rng1]| | |]; cbn [mbind outcome_bind]; try done.
    destruct (binomial_rows qs _ rng1) as [[[ts1 r1] rng2]| | |] eqn:E; cbn [mbind outcome_bind]; try done.
    intros [= <- <- <-] Hl [Ht Hts]%Forall_cons.
    assert (length (MultinomialGen.minus r_trials t) = samples) as Hlm
      by (unfold MultinomialGen.minus; rewrite length_zip_with; lia).
    destruct (IH _ _ _ _ _ E Hlm Hts) as (Hlt & Hlr & Hs). split_and!; [cbn; congruence|done|].
    intros s x Hx. destruct (lookup_lt_is_Some_2 t s) as [y Hy]; [apply lookup_lt_Some in Hx; lia|].
    destruct (Hs s (i32 (x - y))) as [Hc Hr].
    { unfold MultinomialGen.minus. by rewrite lookup_zip_with, Hx, Hy. }
    unfold column_of. rewrite (omap_cons_Some _ _ y) by done. split; [cbn; by f_equal|done].
Qed.

Lemma conditionals_length rest ps : length (conditionals_after rest ps) = length ps.
Proof. revert rest. induction ps as [|p ps IH]; intros rest; cbn; [done|]. by rewrite IH. Qed.

Lemma row_loop_ok samples probs todo : ∀ i rest_p r_trials ret rng ts r rng',
  binomial_rows (conditionals_after rest_p (take todo (drop i probs))) r_trials rng = Ret (ts, r, rng') →
  Forall (λ t, length t = samples) ts → (i + todo <= length probs)%nat → (i + todo <= rows ret)%nat →
  matrix_ok ret → cols ret = samples →
  ∃ ret', row_loop todo probs (Z.of_nat i) rest_p r_trials ret rng = Ret (r, ret', rng') ∧
    matrix_ok ret' ∧ rows ret' = rows ret ∧ cols ret' = samples ∧
    ∀ k s, entry ret' k s = if decide (i <= k < i + todo)%nat then ts !! (k - i)%nat ≫= lookup s else entry ret k s.
Proof.
  induction todo as [|todo IH]; intros i rest_p r_trials ret rng ts r rng'; cbn [MultinomialGen.row_loop].
  - rewrite take_0. intros [= <- <- <-] _ _ _ Hok Hc. exists ret. split_and!; try done. intros k s.
    by rewrite decide_False by lia.
  - intros Hb Hts Hi Hr Hok Hc. destruct (lookup_lt_is_Some_2 probs i) as [p Hp]; [lia|].
    rewrite (drop_S _ p) in Hb by done. cbn [take conditionals_after binomial_rows] in Hb.
    rewrite (array_get_ok _ _ p) by (lia || by rewrite Nat2Z.id). cbn [mbind outcome_bind].
    destruct (binomial_row r_trials (fdiv p rest_p) rng) as [[t rng1]| | |]; cbn [mbind outcome_bind] in Hb |- *; try done.
    destruct (binomial_rows _ _ rng1) as [[[ts1 r1] rng2]| | |] eqn:E; cbn [mbind outcome_bind] in Hb; try done.
    injection Hb as <- <- <-. apply Forall_cons in Hts as [Ht Hts].
    destruct (set_row_returns ret i t) as [ret1 Hset]; [lia|congruence|]. rewrite Hset. cbn [mbind outcome_bind].
    destruct (set_row_entries ret i t ret1 Hset Hok) as (Hok1 & Hr1 & Hc1 & Hsame & Hother).
    destruct (IH (S i) (fsub rest_p p) (MultinomialGen.minus r_trials t) ret1 rng1 ts1 r1 rng2) as (ret' & Hl & Hok' & Hr' & Hc' & He);
      [exact E|done|lia|lia|done|congruence|].
    replace (Z.of_nat i + 1) with (Z.of_nat (S i)) by lia. rewrite Hl. exists ret'.
    split_and!; [done|done|congruence|done|]. intros k s. rewrite He.
    destruct (decide (k = i)) as [->|Hne].
    + rewrite (decide_False (P := (S i <= i < _)%nat)), decide_True, Nat.sub_diag by lia. by rewrite Hsame.
    + destruct (decide (i <= k < i + S todo)%nat).
      * rewrite decide_True by lia. by replace (k - i)%nat with (S (k - S i)) by lia.
      * rewrite decide_False by lia. by apply Hother.
Qed.

(** The matrix: the rows drawn, and the trials left. *)
Lemma generate_n_ok (g : MultinomialGen.t D) samples ts r (rng rng' : St) (dim := length (MultinomialGen.probs g)) :
  (2 <= dim)%nat → Z.max (30 * (MultinomialGen.dims g - 1)) 100 <= MultinomialGen.trials g →
  binomial_rows (conditionals (take (dim - 1) (MultinomialGen.probs g)))
    (replicate samples (MultinomialGen.trials g)) rng = Ret (ts, r, rng') →
  Forall (λ t, length t = samples) ts →
  ∃ ret, MultinomialGen.generate_n generate lanes bits of_bits predux_all garbage fuel g rng samples =
      Ret (ret, g, rng') ∧
    matrix_ok ret ∧ rows ret = dim ∧ cols ret = samples ∧ length ts = (dim - 1)%nat ∧
    (∀ i s, (i < dim - 1)%nat → entry ret i s = ts !! i ≫= lookup s) ∧ ∀ s, entry ret (dim - 1) s = r !! s.
Proof.
  intros Hdim Htr Hb Hts. unfold MultinomialGen.generate_n. rewrite (proj2 (Z.ltb_ge _ _)) by lia.
  subst dim. destruct (MultinomialGen.probs g) as [|p ps] eqn:Ep; [cbn in Hdim; lia|].
  set (dim := length (p :: ps)) in *.
  change (array_get (p :: ps) 0) with (Ret p). cbn [mbind outcome_bind].
  assert (dim - 1 = S (dim - 2))%nat as Hd1 by lia. rewrite Hd1 in Hb.
  pose proof Hb as Hb0. cbn [take conditionals binomial_rows] in Hb.
  destruct (binomial_row _ p rng) as [[t rng1]| | |]; cbn [mbind outcome_bind] in Hb |- *; try done.
  destruct (binomial_rows _ _ rng1) as [[[ts1 r1] rng2]| | |] eqn:E; cbn [mbind outcome_bind] in Hb; try done.
  injection Hb as <- <- <-. pose proof Hts as [Ht Hts1]%Forall_cons.
  set (ret0 := uninitialised dim samples : Matrix Z).
  destruct (set_row_returns ret0 0 t) as [ret1 Hset]; [unfold ret0; rewrite uninitialised_rows; lia|
    unfold ret0; by rewrite uninitialised_cols|]. change (Z.of_nat 0) with 0 in Hset. rewrite Hset. cbn [mbind outcome_bind].
  destruct (set_row_entries ret0 0 t ret1 Hset (uninitialised_ok _ _)) as (Hok1 & Hr1 & Hc1 & Hsame & _).
  unfold ret0 in Hr1, Hc1. rewrite uninitialised_rows in Hr1. rewrite uninitialised_cols in Hc1.
  destruct (row_loop_ok samples (p :: ps) (dim - 2) 1 (fsub (of_Z 1) p)
    (MultinomialGen.minus (replicate samples (MultinomialGen.trials g)) t) ret1 rng1 ts1 r1 rng2)
    as (ret2 & Hl & Hok2 & Hr2 & Hc2 & He2); [exact E|done|cbn [length] in *; lia|lia|done|done|].
  change (Z.of_nat 1) with 1 in Hl. rewrite Hl. cbn [mbind outcome_bind].
  destruct (binomial_rows_ok samples _ _ _ _ _ _ Hb0) as (Hlt & Hlr & _); [apply length_replicate|done|].
  assert (length (t :: ts1) = (dim - 1)%nat) as Hlen.
  { rewrite Hlt. cbn [take conditionals length]. rewrite conditionals_length, length_take. cbn [length] in *. lia. }
  assert (MultinomialGen.dims g - 1 = Z.of_nat (dim - 1)) as -> by (unfold MultinomialGen.dims; rewrite Ep; fold dim; lia).
  destruct (set_row_returns ret2 (dim - 1) r1) as [ret3 Hset3]; [lia|congruence|]. rewrite Hset3. cbn [mbind outcome_bind].
  destruct (set_row_entries ret2 (dim - 1) r1 ret3 Hset3 Hok2) as (Hok3 & Hr3 & Hc3 & Hsame3 & Hother3).
  exists ret3. split_and!; [done|done|congruence|congruence|done| |done]. intros i s Hi.
  rewrite Hother3, He2 by lia. case_decide; [by replace i with (S (i - 1)) at 2 by lia|].
  assert (i = 0)%nat as -> by lia. apply Hsame.
Qed.

(** From [max(30 * (dim - 1), 100)] trials on, [MultinomialGen] fills a matrix
    of samples row by row: each row has the binomial numbers of the trials that
    the rows above left, with the probability of the category given that the ones
    above did not come, and the last row has what is left.  Every column adds up
    to [trials] modulo 2^32; when no binomial number is negative or above its
    number of trials, it does exactly, and no entry is negative. *)
Theorem multinomial_rows (g : MultinomialGen.t D) samples ts r (rng rng' : St) :
  (2 <= length (MultinomialGen.probs g))%nat →
  Z.max (30 * (MultinomialGen.dims g - 1)) 100 <= MultinomialGen.trials g <= INT_MAX →
  binomial_rows (conditionals (take (length (MultinomialGen.probs g) - 1) (MultinomialGen.probs g)))
    (replicate samples (MultinomialGen.trials g)) rng = Ret (ts, r, rng') →
  Forall (λ t, length t = samples) ts →
  ∃ ret, MultinomialGen.generate_n generate lanes bits of_bits predux_all garbage fuel g rng samples =
      Ret (ret, g, rng') ∧
    rows ret = length (MultinomialGen.probs g) ∧ cols ret = samples ∧
    ∀ s, (s < samples)%nat → ∃ x, columns ret !! s = Some (column_of s ts ++ [x]) ∧
      u32 (zsum (column_of s ts ++ [x])) = u32 (MultinomialGen.trials g) ∧
      (within (MultinomialGen.trials g) (column_of s ts) →
       zsum (column_of s ts ++ [x]) = MultinomialGen.trials g ∧ Forall (λ t, 0 <= t) (column_of s ts ++ [x])).
Proof.
  intros Hdim Htr Hb Hts. set (n := MultinomialGen.trials g) in *.
  destruct (generate_n_ok g samples ts r rng rng') as (ret & Hg & Hok & Hr & Hc & Hlt & He & Hlast); try done; [lia|].
  exists ret. split_and!; try done. intros s Hs.
  destruct (binomial_rows_ok samples _ _ _ _ _ _ Hb) as (Hlq & _ & Hcol); [apply length_replicate|done|].
  destruct (Hcol s n) as [Hlc Hrs]; [by apply lookup_replicate_2|]. rewrite <-Hlq, Hlt in Hlc.
  exists (trials_left n (column_of s ts)). split_and!.
  - apply column_entries; [done|congruence|rewrite length_app, Hlc, Hr; cbn [length]; lia|].
    intros i Hi. destruct (decide (i = (rows ret - 1)%nat)) as [->|Hne].
    + rewrite Hr, Hlast, Hrs, lookup_app_r by lia. by rewrite Hlc, Nat.sub_diag.
    + by rewrite He, lookup_app_l, (column_of_lookup samples) by (done || lia).
  - rewrite zsum_app. cbn [zsum foldr]. rewrite Z.add_0_r. apply trials_left_sum.
  - intros Hw. destruct (trials_left_within n (column_of s ts)) as (Hx & Hx0 & Hf); [lia|done|].
    split; [rewrite zsum_app; cbn [zsum foldr]; lia|]. apply Forall_app. split; [done|by apply Forall_singleton].
Qed.

(** ** A matrix with one sample

    Its binomial numbers come from the scalar call of [BinomialVGen<float>]. *)

Lemma binomial_row_one `{!TraversalLaws lanes} r p rng k rng' :
  (1 < lanes)%nat → bits (of_bits r) = r → BinomialVGen.call fuel rng r (narrow p) = Ret (k, rng') →
  binomial_row [r] p rng = Ret ([bits (if r <? 25 then of_Z k else of_bits k)], rng').
Proof.
  intros Hl Hb Hc. unfold MultinomialGen.binomial_row. cbn [fmap list_fmap].
  rewrite (evaluate_one lanes _ _ _ _ _ (if r <? 25 then of_Z k else of_bits k) tt rng') by
    (try done; unfold stateless; rewrite (binomial_v_float bits of_bits fuel rng rng' (of_bits r) (narrow p) k)
       by (by rewrite Hb); by rewrite Hb). done.
Qed.

(** Below 25 trials the scalar call of [BinomialVGen<float>] returns the number
    itself instead of a [float] with its bits.  When the first of three categories
    leaves fewer than 25 trials, the entry of the second is therefore the bits of
    the [float] that its number [k] converts to, and the last entry is what the
    subtraction of those bits leaves. *)
Theorem multinomial_few_left `{!TraversalLaws lanes} (g : MultinomialGen.t D) p0 p1 p2 t k (rng rng1 rng2 : St) :
  (1 < lanes)%nat → MultinomialGen.probs g = [p0; p1; p2] → 100 <= MultinomialGen.trials g <= INT_MAX →
  (∀ z, 0 <= z <= MultinomialGen.trials g → bits (of_bits z) = z) →
  BinomialVGen.call fuel rng (MultinomialGen.trials g) (narrow p0) = Ret (t, rng1) →
  0 <= t → 0 <= MultinomialGen.trials g - t < 25 →
  BinomialVGen.call fuel rng1 (MultinomialGen.trials g - t) (narrow (fdiv p1 (fsub (of_Z 1) p0))) = Ret (k, rng2) →
  ∃ ret, MultinomialGen.generate_n generate lanes bits of_bits predux_all garbage fuel g rng 1 = Ret (ret, g, rng2) ∧
    columns ret = [[t; bits (of_Z k); i32 (MultinomialGen.trials g - t - bits (of_Z k))]].
Proof.
  intros Hl Hp Htr Hbits Hc0 Ht0 Ht Hc1. set (n := MultinomialGen.trials g) in *.
  destruct (generate_n_ok g 1 [[t]; [bits (of_Z k)]] [i32 (n - t - bits (of_Z k))] rng rng2)
    as (ret & Hg & Hok & Hr & Hc & _ & He & Hlast).
  - rewrite Hp. cbn. lia.
  - unfold MultinomialGen.dims. rewrite Hp. cbn. lia.
  - rewrite Hp. cbn [length Nat.sub take conditionals conditionals_after binomial_rows replicate]. fold n.
    rewrite (binomial_row_one n p0 rng t rng1), (proj2 (Z.ltb_ge n 25)), Hbits by (done || lia || (apply Hbits; lia)).
    cbn [mbind outcome_bind MultinomialGen.minus zip_with]. rewrite i32_id by int_lia.
    rewrite (binomial_row_one (n - t) _ rng1 k rng2), (proj2 (Z.ltb_lt (n - t) 25)) by (done || lia || (apply Hbits; lia)).
    done.
  - by repeat constructor.
  - rewrite Hp in *. cbn [length Nat.sub] in Hr, He, Hlast. exists ret. split; [done|]. unfold cols in Hc. destruct (columns ret) as [|c [|]] eqn:Ec; try done.
    f_equal. cut (columns ret !! 0%nat = Some [t; bits (of_Z k); i32 (n - t - bits (of_Z k))]);
      [rewrite Ec; by intros [= ->]|].
    apply column_entries; [done|unfold cols; rewrite Ec; cbn; lia|by rewrite Hr|]. intros i Hi. rewrite Hr in Hi.
    destruct i as [|[|[|i]]]; [by rewrite He by lia|by rewrite He by lia|apply Hlast|lia].
Qed.

(** With one category the row of the binomial number is overwritten with what it
    leaves. *)
Lemma generate_n_single `{!TraversalLaws lanes} (g : MultinomialGen.t D) p k (rng rng' : St) :
  (1 < lanes)%nat → MultinomialGen.probs g = [p] → 100 <= MultinomialGen.trials g <= INT_MAX →
  (∀ z, 0 <= z <= MultinomialGen.trials g → bits (of_bits z) = z) → 0 <= k <= MultinomialGen.trials g →
  BinomialVGen.call fuel rng (MultinomialGen.trials g) (narrow p) = Ret (k, rng') →
  ∃ ret, MultinomialGen.generate_n generate lanes bits of_bits predux_all garbage fuel g rng 1 = Ret (ret, g, rng') ∧
    columns ret = [[MultinomialGen.trials g - k]].
Proof.
  intros Hl Hp Htr Hbits Hk Hc. set (n := MultinomialGen.trials g) in *. unfold MultinomialGen.generate_n.
  assert (MultinomialGen.dims g = 1) as -> by (unfold MultinomialGen.dims; by rewrite Hp).
  rewrite Hp, (proj2 (Z.ltb_ge _ _)) by (fold n; lia). fold n. change (array_get [p] 0) with (Ret p).
  cbn [mbind outcome_bind replicate length].
  rewrite (binomial_row_one n p rng k rng'), (proj2 (Z.ltb_ge n 25)), Hbits by (done || lia || (apply Hbits; lia)).
  cbn [mbind outcome_bind].
  set (ret0 := uninitialised 1 1 : Matrix Z).
  destruct (set_row_returns ret0 0 [k]) as [ret1 Hset]; [unfold ret0; rewrite uninitialised_rows; lia|
    unfold ret0; by rewrite uninitialised_cols|].
  destruct (set_row_entries ret0 0 [k] ret1 Hset (uninitialised_ok _ _)) as (Hok1 & Hr1 & Hc1 & _ & _).
  unfold ret0 in Hr1, Hc1. rewrite uninitialised_rows in Hr1. rewrite uninitialised_cols in Hc1.
  change (Z.of_nat 0) with 0 in Hset. rewrite Hset. cbn [mbind outcome_bind MultinomialGen.minus zip_with Nat.sub MultinomialGen.row_loop].
  rewrite i32_id by int_lia.
  destruct (set_row_returns ret1 0 [n - k]) as [ret2 Hset2]; [lia|by rewrite Hc1|].
  destruct (set_row_entries ret1 0 [n - k] ret2 Hset2 Hok1) as (Hok2 & Hr2 & Hc2 & Hsame & _).
  change (1 - 1) with (Z.of_nat 0). rewrite Hset2. exists ret2. split; [done|].
  unfold cols in *. destruct (columns ret2) as [|c [|]] eqn:Ec; [cbn in *; lia| |cbn in *; lia]. f_equal.
  cut (columns ret2 !! 0%nat = Some [n - k]); [rewrite Ec; by intros [= ->]|].
  apply column_entries; [done|unfold cols; rewrite Ec; cbn; lia|cbn; lia|]. intros i Hi.
  assert (i = 0)%nat as -> by lia. by rewrite (Hsame 0%nat).
Qed.

End Many.

(** ** One category *)

Section Certain.
Context {St : Type} `{UniformSource R St} `{Lgamma R}.

(** A success of probability 1 in every trial. *)
Lemma binomial_certain fuel n (rng rng' : St) u :
  25 <= n < INT_MAX → (0 < fuel)%nat → ur rng = Ret (u, rng') → (u <= 1)%R →
  BinomialVGen.call (P := R) (D := R) fuel rng n 1%R = Ret (n, rng').
Proof.
  intros Hn Hf Hu Hu1. unfold BinomialVGen.call, BinomialVGen.create. rewrite int_add_ok by int_lia.
  cbn [mbind outcome_bind]. rewrite (proj2 (Z.ltb_ge n 25)) by lia.
  unfold BinomialVGen.many_trials. cbn [BinomialVGen.mean BinomialVGen.small_p].
  assert (fmin 1%R (of_Z 1 - 1%R)%num = 0%R) as ->.
  { unfold fmin. change (of_Z 1 - 1%R)%num with (1 - 1)%R. rewrite (proj2 (R_fltb_true _ _)) by lra. lra. }
  change (of_Z n * 0%R)%num with (IZR n * 0)%R. rewrite Rmult_0_r. change (widen 0%R) with 0%R.
  rewrite (proj2 (R_fltb_true 0 (of_Z 1))) by (cbn; lra). destruct fuel as [|fuel]; [lia|].
  cbn [PoissonGen.small_loop]. rewrite Hu. cbn [mbind outcome_bind].
  change (fexp (- 0%R)%num) with (exp (- 0))%R. rewrite Ropp_0, exp_0.
  match goal with |- context [fleb ?a ?b] => rewrite (proj2 (R_fleb_true a b)) by (cbn; lra) end. cbn [mbind outcome_bind].
  rewrite R_feq_false by lra. rewrite int_sub_ok by int_lia. cbn. by rewrite Z.sub_0_r.
Qed.

(** With one category, a matrix of one sample from 100 trials or more is 0: the
    row with all the trials is overwritten with the trials left.  (The sample that
    is not a matrix has all trials, by [multinomial_counts].) *)
Theorem multinomial_one_category `{PacketMath R} `{PacketCast R} `{EigenPackets} `{Uninitialised Z}
    `{!UninitialisedLaws Z} `{CeilLog2} `{Traversal} generate lanes `{!TraversalLaws lanes}
    bits of_bits predux_all garbage fuel n w (g : MultinomialGen.t R) (rng rng' : St) u :
  (1 < lanes)%nat → 100 <= n < INT_MAX → (0 < w)%R → MultinomialGen.create n [w] = Ret g →
  (∀ z, 0 <= z <= n → bits (of_bits z) = z) →
  (0 < fuel)%nat → ur rng = Ret (u, rng') → (u <= 1)%R →
  ∃ ret, MultinomialGen.generate_n generate lanes bits of_bits predux_all garbage fuel g rng 1 = Ret (ret, g, rng') ∧
    columns ret = [[0]].
Proof.
  intros Hl Hn Hw Hg Hbits Hf Hu Hu1. unfold MultinomialGen.create in Hg.
  destruct (DiscreteGen.create [w]) as [d| | |]; cbn [mbind outcome_bind] in Hg; try done.
  destruct (forallb _ _); [|done]. injection Hg as <-.
  assert (vsum [w] = w) as Hsum by (rewrite exact_sum; unfold rsum; cbn; lra).
  destruct (generate_n_single generate lanes bits of_bits predux_all garbage fuel
    (MultinomialGen.mk n ((λ p, p / vsum [w])%num <$> [w]) d) 1%R n rng rng') as (ret & Hr & Hc); try done.
  - cbn. rewrite Rplus_0_r. f_equal. field. lra.
  - cbn. int_lia.
  - cbn. lia.
  - cbn. apply (binomial_certain fuel n rng rng' u); done || lia.
  - exists ret. split; [done|]. rewrite Hc. cbn. by rewrite Z.sub_diag.
Qed.

End Certain.

(** ** Dirichlet vectors *)

Section Dirichlet.
#[local] Open Scope R_scope.
Context {St : Type} `{UniformSource R St} `{PacketMath R} `{PacketFilter R} `{Traversal} `{Uninitialised R}
  `{!UninitialisedLaws R} (lanes fuel : nat).

(** Positive numbers divided by their sum. *)
Lemma normalize_ok (xs : list R) : xs ≠ [] → Forall (λ x, 0 < x) xs →
  DirichletGen.normalize xs = (λ x, x / rsum xs) <$> xs ∧ rsum (DirichletGen.normalize xs) = 1 ∧
  Forall (λ y, 0 < y <= 1) (DirichletGen.normalize xs).
Proof.
  intros Hne Hx. assert (DirichletGen.normalize xs = (λ x, x / rsum xs) <$> xs) as ->
    by (unfold DirichletGen.normalize; by rewrite exact_sum).
  assert (∀ l, Forall (λ x, 0 < x) l → 0 <= rsum l) as Hpos
    by (intros l Hl; apply rsum_nonneg; eapply Forall_impl; [exact Hl|]; intros; lra).
  assert (∀ x, x ∈ xs → 0 < x <= rsum xs) as Hle.
  { intros x Hin. apply list_elem_of_split in Hin as (l1 & l2 & ->).
    apply Forall_app in Hx as [Hl1 [Hx0 Hl2]%Forall_cons]. rewrite rsum_app, rsum_cons.
    pose proof (Hpos l1 Hl1). pose proof (Hpos l2 Hl2). lra. }
  assert (0 < rsum xs) as Hs.
  { destruct xs as [|x xs]; [done|]. destruct (Hle x) as [? ?]; [left|lra]. }
  split_and!; [done| |].
  - rewrite (rsum_ext (λ x, x / rsum xs) (λ x, / rsum xs * x)) by (intros; unfold Rdiv; ring).
    rewrite rsum_scale. field. lra.
  - apply Forall_fmap, Forall_forall. intros x Hin. destruct (Hle x Hin) as [? ?]. cbn. split.
    + by apply Rdiv_lt_0_compat.
    + apply (Rmult_le_reg_r (rsum xs)); [done|]. unfold Rdiv. rewrite Rmult_assoc, Rinv_l; lra.
Qed.

(** The rows of gamma numbers. *)
Fixpoint gamma_rows (samples : nat) (gs : list (GammaGen.t R)) (rng : St) :
    outcome (list (list R) * list (GammaGen.t R) * St) :=
  match gs with
  | [] => Ret ([], [], rng)
  | g :: gs =>
      '(tmp, g, rng) ← evaluate lanes (keeping (GammaGen.call fuel)) (GammaGen.packetOp fuel) samples g rng;
      '(ts, gs, rng) ← gamma_rows samples gs rng;
      Ret (tmp :: ts, g :: gs, rng)
  end.

Lemma gamma_row_loop samples : ∀ gs i ret rng ts gs' rng',
  gamma_rows samples gs rng = Ret (ts, gs', rng') → Forall (λ t, length t = samples) ts →
  (i + length gs <= rows ret)%nat → matrix_ok ret → cols ret = samples →
  ∃ ret', DirichletGen.row_loop lanes fuel samples (Z.of_nat i) gs ret rng = Ret (gs', ret', rng') ∧
    matrix_ok ret' ∧ rows ret' = rows ret ∧ cols ret' = samples ∧ length ts = length gs ∧
    ∀ k s, entry ret' k s = if decide (i <= k < i + length gs)%nat then ts !! (k - i)%nat ≫= lookup s else entry ret k s.
Proof.
  induction gs as [|g gs IH]; intros i ret rng ts gs' rng'; cbn [DirichletGen.row_loop gamma_rows].
  - intros [= <- <- <-] _ _ Hok Hc. exists ret. split_and!; try done. intros k s. by rewrite decide_False by (cbn; lia).
  - destruct (evaluate _ _ _ _ _ _) as [[[t g1] rng1]| | |]; cbn [mbind outcome_bind]; try done.
    destruct (gamma_rows samples gs rng1) as [[[ts1 gs1] rng2]| | |] eqn:E; cbn [mbind outcome_bind]; try done.
    intros [= <- <- <-] [Ht Hts]%Forall_cons Hi Hok Hc. cbn [length] in Hi.
    destruct (set_row_returns ret i t) as [ret1 Hset]; [lia|congruence|]. rewrite Hset. cbn [mbind outcome_bind].
    destruct (set_row_entries ret i t ret1 Hset Hok) as (Hok1 & Hr1 & Hc1 & Hsame & Hother).
    destruct (IH (S i) ret1 rng1 ts1 gs1 rng2) as (ret' & Hl & Hok' & Hr' & Hc' & Hlt & He);
      [done|done|lia|done|congruence|].
    replace (Z.of_nat i + 1)%Z with (Z.of_nat (S i)) by lia. rewrite Hl. cbn [mbind outcome_bind]. exists ret'.
    split_and!; [done|done|congruence|done|cbn; congruence|]. intros k s. rewrite He. cbn [length].
    destruct (decide (k = i)) as [->|Hne].
    + rewrite (decide_False (P := (S i <= i < _)%nat)), decide_True, Nat.sub_diag by lia. by rewrite Hsame.
    + destruct (decide (i <= k < i + S (length gs))%nat).
      * rewrite decide_True by lia. by replace (k - i)%nat with (S (k - S i)) by lia.
      * rewrite decide_False by lia. by apply Hother.
Qed.

(** [DirichletGen] divides gamma numbers with the given shapes and scale 1 by
    their sum: when they are positive, the results are in (0, 1] and add up to 1,
    for one sample and in every column of a matrix of samples. *)
Theorem dirichlet_normalised (g : DirichletGen.t R) (rng rng' : St) :
  DirichletGen.alpha g ≠ [] → length (DirichletGen.gammas g) = length (DirichletGen.alpha g) →
  (∀ xs, DirichletGen.coefficient_loop fuel (DirichletGen.gammas g) rng = Ret (xs, rng') →
     xs ≠ [] → Forall (λ x, 0 < x) xs →
     ∃ ys, DirichletGen.generate fuel g rng = Ret (ys, rng') ∧ ys = (λ x, x / rsum xs) <$> xs ∧
       rsum ys = 1 ∧ Forall (λ y, 0 < y <= 1) ys) ∧
  (∀ samples ts gs, gamma_rows samples (DirichletGen.gammas g) rng = Ret (ts, gs, rng') →
     Forall (λ t, length t = samples ∧ Forall (λ x, 0 < x) t) ts →
     ∃ ret, DirichletGen.generate_n lanes fuel g rng samples = Ret (ret, DirichletGen.mk (DirichletGen.alpha g) gs, rng') ∧
       rows ret = length (DirichletGen.alpha g) ∧ cols ret = samples ∧
       ∀ s, (s < samples)%nat → ∃ c, columns ret !! s = Some c ∧
         c = (λ x, x / rsum (column_of s ts)) <$> column_of s ts ∧ rsum c = 1 ∧ Forall (λ y, 0 < y <= 1) c).
Proof.
  intros Ha Hl. split.
  - intros xs Hx Hne Hpos. unfold DirichletGen.generate. rewrite Hx. cbn [mbind outcome_bind].
    destruct (normalize_ok xs Hne Hpos) as (He & Hs & Hf). eexists. split; [done|]. split_and!; done.
  - intros samples ts gs Hg [Hts Hpos]%Forall_and. unfold DirichletGen.generate_n.
    destruct (gamma_row_loop samples _ 0 (uninitialised (length (DirichletGen.alpha g)) samples) rng ts gs rng' Hg Hts)
      as (ret & Hr & Hok & Hrow & Hc & Hlt & He); [rewrite uninitialised_rows; lia|apply uninitialised_ok|apply uninitialised_cols|].
    rewrite uninitialised_rows in Hrow. change (Z.of_nat 0) with 0%Z in Hr. rewrite Hr. cbn [mbind outcome_bind].
    eexists. split; [done|]. cbn [rows columns]. split; [done|]. split; [unfold cols; cbn; by rewrite length_fmap|].
    intros s Hs. exists (DirichletGen.normalize (column_of s ts)).
    assert (columns ret !! s = Some (column_of s ts)) as Hcol.
    { apply column_entries; [done|congruence|by rewrite (column_of_length samples), Hrow, <-Hl|].
      intros i Hi. rewrite He, decide_True, Nat.sub_0_r by lia. by apply (column_of_lookup samples). }
    rewrite list_lookup_fmap, Hcol. split; [done|].
    destruct (normalize_ok (column_of s ts)) as (Hn & Hs1 & Hf); [| |by rewrite <-Hn].
    + intros E. pose proof (column_of_length samples s ts Hts Hs) as Hlen. rewrite E, Hlt, Hl in Hlen.
      by destruct (DirichletGen.alpha g).
    + clear -Hpos. induction Hpos as [|t ts Ht _ IH]; [constructor|]. unfold column_of. cbn [omap list_omap].
      destruct (lookup s t) as [x|] eqn:Ex; [|apply IH]. constructor; [exact (Forall_lookup_1 _ _ _ _ Ht Ex)|apply IH].
Qed.

End Dirichlet.

(** ** Witnesses

    Matrices of zeros for those that are not initialised, packets first, and a
    discrete generator of two equal weights on an engine that repeats one word. *)

#[local] Instance in_fours : Traversal := packets_first 4.
#[local] Instance in_fours_laws : TraversalLaws 4 := packets_first_laws 4.

#[local] Existing Instance instructions.
#[local] Instance repeated_rng : Rng unit :=
  {| rng_call r := Ret (scalar_result 4 5, r); rng_half r := Ret (replicate 4 5, r) |}.
#[local] Instance first_lane : EigenConversions :=
  {| pfirst_packet r := signed 32 (lane r 0); pcast l := replicate (length l) 0 |}.
#[local] Abbreviation no_gather := (λ A (a : list A) (index : list Z), Undef (A := list A) null_dereference).
#[local] Abbreviation no_blend := (λ a b c : list Z, a).
#[local] Abbreviation no_shift := (λ (_ : Z) (a : list Z) (_ : Z), a).

Definition two_equal : MultinomialGen.t Z :=
  MultinomialGen.mk 20 [1; 1] (DiscreteGen.mk [] false [2 ^ 30; 2 ^ 31] AliasMethod.create).

Lemma multinomial_counts_witness : ∃ vs g',
  MultinomialGen.generate false 4 (λ r, Ret (replicate 4 5, r)) cmplt_epi32 no_blend no_shift no_gather
    two_equal tt = Ret (counts 2 vs, g', tt) ∧ zsum (counts 2 vs) = 20.
Proof.
  destruct (multinomial_counts (D := Z) (St := unit) false 4 (λ r, Ret (replicate 4 5, r)) cmplt_epi32 no_blend no_shift no_gather
    2 (λ d _, d = MultinomialGen.discrete two_equal)) with (g := two_equal) (rng := tt)
    as (vs & g' & [] & Hg & _ & _ & Hs & _); [|reflexivity|vm_compute; by split|reflexivity|exists vs, g'; split; [exact Hg|exact Hs]].
  split.
  - intros d [] ->. exists 0, tt. vm_compute. by split_and!.
  - intros d [] ->. exists [0; 0; 0; 0], (MultinomialGen.discrete two_equal), tt. vm_compute.
    split_and!; try done. by repeat constructor.
Defined.

(** The arithmetic of binary32 for both types, with a constant for [exp]. *)
#[local] Instance f32 : Num spec_float := format_num binary32.
#[local] Instance f32_libm : Libm spec_float :=
  {| fexp _ := half; flog _ := of_Z 0; ftanh x := x; fpow x _ := x; M_PI := of_Z 3 |}.
#[local] Instance f32_trig : Trig spec_float := {| fsin x := x; fcos x := x; ftan x := x; M_E := of_Z 3 |}.
#[local] Instance f32_lgamma : Lgamma spec_float := {| flgamma x := x |}.
#[local] Instance f32_conversions : FloatDouble spec_float spec_float := {| widen x := x; narrow x := x |}.
#[local] Instance f32_tape : UniformSource spec_float (list spec_float) := tape 4.
#[local] Instance f32_packets : PacketMath spec_float := lane_packets 4.
#[local] Instance f32_casts : PacketCast spec_float := {|
  ptruncate a := a; pcast_int a := replicate (length a) 0; pcast_float a := replicate (length a) (of_Z 0);
  pmin := zip_with fmin; pcmpeq := zip_with feq; pnegate_int a := a;
|}.
#[local] Instance zero_matrix : Uninitialised Z := zeros 0.
#[local] Instance zero_matrix_laws : UninitialisedLaws Z := zeros_laws 0.

(** Probabilities of 0.999, 0.0009 and 0.0001, and uniform numbers of which the
    first three give two failures among 100 trials. *)
Definition decimals (a b : Z) : spec_float := fdiv (of_Z a) (of_Z b).
Definition unlikely : MultinomialGen.t spec_float :=
  MultinomialGen.mk 100 [decimals 999 1000; decimals 9 10000; decimals 1 10000]
    (DiscreteGen.mk [] false [] AliasMethod.create).
Definition numbers : list spec_float := [decimals 9 10; decimals 9 10; decimals 1 4; of_Z 0; of_Z 0].

#[local] Abbreviation none := (λ _ : list Z, false).
#[local] Abbreviation no_sample := (λ (g : MultinomialGen.t spec_float) (rng : list spec_float),
  Undef (A := list Z * MultinomialGen.t spec_float * list spec_float) null_dereference).

Lemma bits_to_100 z : 0 <= z <= 100 → (to_bits binary32) (of_bits binary32 z) = z.
Proof.
  intros Hz. cut (forallb (λ n, (to_bits binary32) (of_bits binary32 (Z.of_nat n)) =? Z.of_nat n) (seq 0 101) = true).
  - rewrite forallb_forall. intros Hall. specialize (Hall (Z.to_nat z)). rewrite in_seq, Z.eqb_eq, Z2Nat.id in Hall by lia.
    apply Hall. lia.
  - vm_compute. done.
Qed.

Lemma multinomial_rows_witness : ∃ ret,
  MultinomialGen.generate_n no_sample 4 (to_bits binary32) (of_bits binary32) none [] 3
    (MultinomialGen.mk 100 [decimals 999 1000; decimals 1 1000] (DiscreteGen.mk [] false [] AliasMethod.create))
    numbers 1 = Ret (ret, MultinomialGen.mk 100 [decimals 999 1000; decimals 1 1000]
      (DiscreteGen.mk [] false [] AliasMethod.create), [of_Z 0; of_Z 0]) ∧ columns ret = [[98; 2]].
Proof.
  destruct (multinomial_rows no_sample 4 (to_bits binary32) (of_bits binary32) none [] 3
    (MultinomialGen.mk 100 [decimals 999 1000; decimals 1 1000] (DiscreteGen.mk [] false [] AliasMethod.create))
    1 [[98]] [2] numbers [of_Z 0; of_Z 0]) as (ret & Hr & _ & Hc & Hs).
  - cbn. lia.
  - vm_compute. by split.
  - vm_compute. done.
  - by repeat constructor.
  - exists ret. split; [exact Hr|]. clear Hr. destruct (Hs 0%nat ltac:(lia)) as (x & Hx & _ & Hw).
    destruct Hw as [Hw _]; [cbn; int_lia|]. cbn in Hw, Hx. assert (x = 2) as -> by lia.
    unfold cols in Hc. destruct (columns ret) as [|c [|]]; try done. by injection Hx as ->.
Defined.

(** The entry of the second category is the bits of 2.0. *)
Lemma multinomial_few_left_witness : ∃ ret,
  MultinomialGen.generate_n no_sample 4 (to_bits binary32) (of_bits binary32) none [] 3 unlikely numbers 1 =
    Ret (ret, unlikely, []) ∧ columns ret = [[98; 1073741824; -1073741822]].
Proof.
  destruct (multinomial_few_left no_sample 4 (to_bits binary32) (of_bits binary32) none [] 3 unlikely
    (decimals 999 1000) (decimals 9 10000) (decimals 1 10000) 98 2 numbers [of_Z 0; of_Z 0] [])
    as (ret & Hr & Hc); [lia|done|vm_compute; by split|exact bits_to_100|vm_compute; done|done|cbn; lia|vm_compute; done|].
  exists ret. split; [exact Hr|]. rewrite Hc. vm_compute. done.
Defined.

#[local] Instance R_tape : UniformSource R (list R) := tape 4.
#[local] Instance R_lanes : PacketMath R := lane_packets 4.
#[local] Existing Instance R_lgamma.
#[local] Existing Instance lane_casts.
#[local] Existing Instance exact_log2.
#[local] Instance R_filter : PacketFilter R := list_filter 4 0%R.
#[local] Instance R_zeros : Uninitialised R := zeros 0%R.
#[local] Instance R_zeros_laws : UninitialisedLaws R := zeros_laws 0%R.

Lemma one_weight : ∃ g, MultinomialGen.create 100 [3%R] = Ret g.
Proof.
  unfold MultinomialGen.create. destruct (proj1 (discrete_thresholds [3]%R ltac:(cbn; lia)
    ltac:(repeat constructor; lra) ltac:(unfold rsum; cbn; lra))) as (g & -> & _).
  cbn [mbind outcome_bind forallb]. rewrite (proj2 (R_fleb_true (of_Z 0) 3)) by (cbn; lra). by eexists.
Qed.

Lemma multinomial_one_category_witness : ∃ g ret,
  MultinomialGen.create 100 [3%R] = Ret g ∧
  MultinomialGen.generate_n (λ g rng, Undef null_dereference) 4 Int_part IZR none [] 1 g [(/ 2)%R] 1 =
    Ret (ret, g, []) ∧ columns ret = [[0]].
Proof.
  destruct one_weight as [g Hg].
  destruct (multinomial_one_category (λ g rng, Undef null_dereference) 4 Int_part IZR none [] 1 100 3%R g [(/ 2)%R] [] (/ 2)%R)
    as (ret & Hr & Hc); [lia|int_lia|lra|exact Hg| |lia|done|lra|by exists g, ret].
  intros z _. apply Int_part_unique. lra.
Defined.

Definition flat : DirichletGen.t R := DirichletGen.mk [1; 1]%R [GammaGen.create 2 1 1; GammaGen.create 2 1 1]%R.

Lemma flat_numbers : DirichletGen.coefficient_loop 1 (DirichletGen.gammas flat) [/ 2; / 2]%R =
  Ret ([1 * (- ln (1 - / 2) / 1); 1 * (- ln (1 - / 2) / 1)]%R, []).
Proof.
  assert (∀ u rng, GammaGen.call 1 (GammaGen.create 2 1%R 1%R) (u :: rng) = Ret ((1 * (- ln (1 - u) / 1))%R, rng)) as Hg.
  { intros u rng. unfold GammaGen.call. cbn [GammaGen.alpha GammaGen.create].
    rewrite (proj2 (R_fltb_false 1 (of_Z 1))), (proj2 (R_feq 1 (of_Z 1))) by (cbn; lra). reflexivity. }
  cbn [DirichletGen.coefficient_loop DirichletGen.gammas flat]. rewrite Hg. cbn [mbind outcome_bind]. by rewrite Hg.
Qed.

Lemma dirichlet_normalised_witness : ∃ ys,
  DirichletGen.generate 1 flat [/ 2; / 2]%R = Ret (ys, []) ∧ rsum ys = 1%R.
Proof.
  pose proof (ln_unit_neg (1 - / 2) ltac:(lra)) as Hln.
  destruct (dirichlet_normalised 4 1 flat [/ 2; / 2]%R []) as [Hone _]; [done|done|].
  destruct (Hone _ flat_numbers) as (ys & Hy & _ & Hs & _); [done|repeat constructor; lra|by exists ys].
Defined.
