(* ===== verification/MvNormal.v ===== *)
(** EigenRand/MvDists/MvNormal.h: [get_lt], [MvNormalGen], [WishartGen] and
    [InvWishartGen], for one sample and for a matrix of samples. *)

From S2P Require Import Prelude.
From S2P Require Import Num.
From S2P Require Import Eigen.
From S2P Require Import MatrixOps.
From S2P Require Import Evaluate.
From S2P Require Import Reject.
From S2P Require Import Continuous.
From S2P Require Import GammaBeta.

(** ** get_lt *)

Section Decompose.
Context {F : Type} `{Num F} `{MatrixOps F}.

(** A square root of the matrix: its Cholesky factor or, when the decomposition
    fails, one from its eigenvalues, of which the negative ones count as 0. *)
Definition get_lt (mat : Matrix F) : outcome (Matrix F) :=
  match LLT mat with
  | Some l => Ret l
  | None =>
      match SelfAdjointEigenSolver mat with
      | None => Throw (runtime_error "The matrix cannot be solved!")
      | Some (eigenvalues, eigenvectors) => times_diagonal eigenvectors (clipped_roots eigenvalues)
      end
  end.

End Decompose.

(** [stdnorm.generate<...>(n, 1, urng)], evaluated. *)
Definition draw_normals {F R} `{Num F} `{Libm F} `{Trig F} `{PacketMath F} `{UniformSource F R} `{Traversal}
    (lanes fuel n : nat) (stdnorm : StdNormalGen.t F) (rng : R) : outcome (list F * StdNormalGen.t F * R) :=
  evaluate lanes (StdNormalGen.call fuel) StdNormalGen.packetOp n stdnorm rng.

(** ** MvNormalGen *)

Module MvNormalGen.

Record t (F : Type) := mk { mean : list F; lt : Matrix F; stdnorm : StdNormalGen.t F }.
#[global] Arguments mk {F} _ _ _.
#[global] Arguments mean {F} _.
#[global] Arguments lt {F} _.
#[global] Arguments stdnorm {F} _.

Definition dims {F} (g : t F) : Z := Z.of_nat (length (mean g)).

Section Code.
Context {F R : Type} `{Num F} `{Libm F} `{Trig F} `{PacketMath F} `{UniformSource F R} `{MatrixOps F} `{Traversal}
  (lanes fuel : nat).

(** The constructors with the tags [LowerTriangular] and [FullMatrix]. *)
Definition create_lower (_mean : list F) (_lt : Matrix F) : outcome (t F) :=
  if (length _mean =? rows _lt)%nat && (rows _lt =? cols _lt)%nat
  then Ret (mk _mean _lt (StdNormalGen.create lanes))
  else Undef eigen_assertion.
Definition create_full (_mean : list F) (_cov : Matrix F) : outcome (t F) :=
  lt ← get_lt _cov; create_lower _mean lt.

Definition with_stdnorm (g : t F) (s : StdNormalGen.t F) : t F := mk (mean g) (lt g) s.

Definition generate_n (g : t F) (rng : R) (samples : nat) : outcome (Matrix F * t F * R) :=
  '(z, s, rng) ← draw_normals lanes fuel (length (mean g) * samples) (stdnorm g) rng;
  x ← product (lt g) (of_storage (length (mean g)) samples z);
  x ← colwise fadd x (mean g);
  Ret (x, with_stdnorm g s, rng).

Definition generate (g : t F) (rng : R) : outcome (Matrix F * t F * R) :=
  '(z, s, rng) ← draw_normals lanes fuel (length (mean g)) (stdnorm g) rng;
  x ← product (lt g) (of_storage (length (mean g)) 1 z);
  x ← colwise fadd x (mean g);
  Ret (x, with_stdnorm g s, rng).

End Code.
End MvNormalGen.

(** ** WishartGen *)

Module WishartGen.

Record t (F : Type) :=
  mk { df : Z; chol : Matrix F; stdnorm : StdNormalGen.t F; chisqs : list (GammaGen.t F) }.
#[global] Arguments mk {F} _ _ _ _.
#[global] Arguments df {F} _.
#[global] Arguments chol {F} _.
#[global] Arguments stdnorm {F} _.
#[global] Arguments chisqs {F} _.

Definition dims {F} (g : t F) : Z := Z.of_nat (rows (chol g)).

Section Code.
Context {F R : Type} `{Num F} `{Libm F} `{Trig F} `{PacketMath F} `{PacketFilter F} `{UniformSource F R}
  `{MatrixOps F} `{Traversal} `{Uninitialised F} (lanes fuel : nat).

Definition create_lower (_df : Z) (_lt : Matrix F) : outcome (t F) :=
  if (Z.of_nat (rows _lt) - 1 <? _df) && (rows _lt =? cols _lt)%nat
  then Ret (mk _df _lt (StdNormalGen.create lanes)
         ((λ i, ChiSquaredGen.create lanes (of_Z (_df - Z.of_nat i))) <$> seq 0 (rows _lt)))
  else Undef eigen_assertion.
Definition create_full (_df : Z) (_scale : Matrix F) : outcome (t F) :=
  lt ← get_lt _scale;
  g ← create_lower _df lt;
  if (rows _scale =? cols _scale)%nat then Ret g else Undef eigen_assertion.

Definition with_generators (g : t F) (s : StdNormalGen.t F) (cs : list (GammaGen.t F)) : t F :=
  mk (df g) (chol g) s cs.

(** ** One sample *)

(** [for (i = 0; i < dim / 2; ++i) rand_mat.col(dim - 2 - i).tail(i + 1) =
    rand_mat.col(i).head(i + 1)]. *)
Fixpoint fold_loop (todo dim i : nat) (rand_mat : Matrix F) : outcome (Matrix F) :=
  match todo with
  | O => Ret rand_mat
  | S todo =>
      v ← col_head rand_mat i (i + 1);
      rand_mat ← set_col_tail rand_mat (dim - 2 - i) (i + 1) v;
      fold_loop todo dim (i + 1) rand_mat
  end.

(** [rand_mat(i, i) = chisqs[i].generate<Array<_Scalar, 1, 1>>(1, 1, urng).sqrt()(0)]. *)
Fixpoint diagonal_loop (cs : list (GammaGen.t F)) (i : Z) (rand_mat : Matrix F) (rng : R) :
    outcome (Matrix F * R) :=
  match cs with
  | [] => Ret (rand_mat, rng)
  | c :: cs =>
      '(x, rng) ← ChiSquaredGen.call fuel c rng;
      rand_mat ← set_coeff rand_mat i i (fsqrt x);
      diagonal_loop cs (i + 1) rand_mat rng
  end.

(** The random lower triangular matrix. *)
Definition random_factor (dim : nat) (s : StdNormalGen.t F) (cs : list (GammaGen.t F)) (rng : R) :
    outcome (Matrix F * StdNormalGen.t F * R) :=
  let normSamples := (dim * (dim - 1) / 2)%nat in
  '(z, s, rng) ← draw_normals lanes fuel normSamples s rng;
  rand_mat ← write_storage (uninitialised dim dim) z;
  rand_mat ← fold_loop (dim / 2) dim 0 rand_mat;
  '(rand_mat, rng) ← diagonal_loop cs 0 rand_mat rng;
  Ret (clear_upper rand_mat, s, rng).

Definition generate (g : t F) (rng : R) : outcome (Matrix F * t F * R) :=
  '(rand_mat, s, rng) ← random_factor (rows (chol g)) (stdnorm g) (chisqs g) rng;
  t ← product (chol g) rand_mat;
  w ← product t (transpose t);
  Ret (w, with_generators g s (chisqs g), rng).

(** ** Many samples *)

(** [for (i = 0; i < dim - 1; ++i) { rand_mat.col(i + j * dim).tail(dim - 1 - i) =
    Map<ArrayXs>{ ptr, dim - 1 - i }; ptr += dim - 1 - i; }], within the loop
    over the samples [j]. *)
Fixpoint tails_loop (todo dim i j ptr : nat) (tmp rand_mat : Matrix F) : outcome (nat * Matrix F) :=
  match todo with
  | O => Ret (ptr, rand_mat)
  | S todo =>
      v ← read_storage tmp ptr (dim - 1 - i);
      rand_mat ← set_col_tail rand_mat (i + j * dim) (dim - 1 - i) v;
      tails_loop todo dim (i + 1) j (ptr + (dim - 1 - i)) tmp rand_mat
  end.
Fixpoint all_tails_loop (todo dim j ptr : nat) (tmp rand_mat : Matrix F) : outcome (Matrix F) :=
  match todo with
  | O => Ret rand_mat
  | S todo =>
      '(ptr, rand_mat) ← tails_loop (dim - 1) dim 0 j ptr tmp rand_mat;
      all_tails_loop todo dim (j + 1) ptr tmp rand_mat
  end.

(** [for (j = 0; j < samples; ++j) rand_mat(i, i + j * dim) = *ptr++]. *)
Fixpoint coefficients_loop (todo dim i j ptr : nat) (tmp rand_mat : Matrix F) : outcome (Matrix F) :=
  match todo with
  | O => Ret rand_mat
  | S todo =>
      v ← read_storage tmp ptr 1;
      rand_mat ← set_coeff rand_mat (Z.of_nat i) (Z.of_nat (i + j * dim)) (nth 0 v (of_Z 0));
      coefficients_loop todo dim i (j + 1) (ptr + 1) tmp rand_mat
  end.
Fixpoint diagonals_loop (cs : list (GammaGen.t F)) (samples dim i : nat) (tmp rand_mat : Matrix F) (rng : R) :
    outcome (Matrix F * Matrix F * list (GammaGen.t F) * R) :=
  match cs with
  | [] => Ret (tmp, rand_mat, [], rng)
  | c :: cs =>
      '(x, c, rng) ← evaluate lanes (keeping (ChiSquaredGen.call fuel)) (ChiSquaredGen.packetOp fuel) samples c rng;
      tmp ← write_storage tmp (fsqrt <$> x);
      rand_mat ← coefficients_loop samples dim i 0 0 tmp rand_mat;
      '(tmp, rand_mat, cs, rng) ← diagonals_loop cs samples dim (i + 1) tmp rand_mat rng;
      Ret (tmp, rand_mat, c :: cs, rng)
  end.

(** [for (j = 0; j < samples; ++j) rand_mat.middleCols(j * dim, dim)
    .triangularView<StrictlyUpper>().setZero()]. *)
Fixpoint clear_loop (todo dim j : nat) (rand_mat : Matrix F) : outcome (Matrix F) :=
  match todo with
  | O => Ret rand_mat
  | S todo =>
      b ← middleCols rand_mat (j * dim) dim;
      rand_mat ← set_middleCols rand_mat (j * dim) dim (clear_upper b);
      clear_loop todo dim (j + 1) rand_mat
  end.

(** The random lower triangular matrices, side by side. *)
Definition random_factors (dim samples : nat) (s : StdNormalGen.t F) (cs : list (GammaGen.t F)) (rng : R) :
    outcome (Matrix F * StdNormalGen.t F * list (GammaGen.t F) * R) :=
  let normSamples := (samples * dim * (dim - 1) / 2)%nat in
  let rand_mat := uninitialised dim (dim * samples) in
  '(z, s, rng) ← draw_normals lanes fuel normSamples s rng;
  tmp ← write_storage (uninitialised dim (dim * samples)) z;
  rand_mat ← all_tails_loop samples dim 0 0 tmp rand_mat;
  '(tmp, rand_mat, cs, rng) ← diagonals_loop cs samples dim 0 tmp rand_mat rng;
  rand_mat ← clear_loop samples dim 0 rand_mat;
  Ret (rand_mat, s, cs, rng).

(** [rand_mat.middleCols(j * dim, dim) = t * t.transpose()] for each block [t] of
    [tmp]. *)
Fixpoint square_loop (todo dim j : nat) (tmp rand_mat : Matrix F) : outcome (Matrix F) :=
  match todo with
  | O => Ret rand_mat
  | S todo =>
      t ← middleCols tmp (j * dim) dim;
      w ← product t (transpose t);
      rand_mat ← set_middleCols rand_mat (j * dim) dim w;
      square_loop todo dim (j + 1) tmp rand_mat
  end.

Definition generate_n (g : t F) (rng : R) (samples : nat) : outcome (Matrix F * t F * R) :=
  let dim := rows (chol g) in
  '(rand_mat, s, cs, rng) ← random_factors dim samples (stdnorm g) (chisqs g) rng;
  tmp ← product (chol g) rand_mat;
  rand_mat ← square_loop samples dim 0 tmp rand_mat;
  Ret (rand_mat, with_generators g s cs, rng).

End Code.
End WishartGen.

(** ** InvWishartGen

    The members and the random matrices are those of [WishartGen]. *)

Module InvWishartGen.
Section Code.
Context {F R : Type} `{Num F} `{Libm F} `{Trig F} `{PacketMath F} `{PacketFilter F} `{UniformSource F R}
  `{MatrixOps F} `{Traversal} `{Uninitialised F} (lanes fuel : nat).

Definition create_inv_lower (_df : Z) (_ilt : Matrix F) : outcome (WishartGen.t F) :=
  WishartGen.create_lower lanes _df _ilt.
Definition create_full (_df : Z) (_scale : Matrix F) : outcome (WishartGen.t F) :=
  lt ← get_lt (inverse _scale);
  g ← create_inv_lower _df lt;
  if (rows _scale =? cols _scale)%nat then Ret g else Undef eigen_assertion.

Definition generate (g : WishartGen.t F) (rng : R) : outcome (Matrix F * WishartGen.t F * R) :=
  let dim := rows (WishartGen.chol g) in
  '(rand_mat, s, rng) ← WishartGen.random_factor lanes fuel dim (WishartGen.stdnorm g) (WishartGen.chisqs g) rng;
  t ← product (WishartGen.chol g) rand_mat;
  rand_mat ← solve_lower t (Identity dim);
  w ← product (transpose rand_mat) rand_mat;
  Ret (w, WishartGen.with_generators g s (WishartGen.chisqs g), rng).

(** [u = t.triangularView<Lower>().solve(id); t = u.transpose() * u] for each block
    [t] of [tmp] and [u] of [rand_mat]. *)
Fixpoint solve_loop (todo dim j : nat) (tmp rand_mat : Matrix F) : outcome (Matrix F * Matrix F) :=
  match todo with
  | O => Ret (tmp, rand_mat)
  | S todo =>
      t ← middleCols tmp (j * dim) dim;
      u ← solve_lower t (Identity dim);
      rand_mat ← set_middleCols rand_mat (j * dim) dim u;
      w ← product (transpose u) u;
      tmp ← set_middleCols tmp (j * dim) dim w;
      solve_loop todo dim (j + 1) tmp rand_mat
  end.

Definition generate_n (g : WishartGen.t F) (rng : R) (samples : nat) : outcome (Matrix F * WishartGen.t F * R) :=
  let dim := rows (WishartGen.chol g) in
  '(rand_mat, s, cs, rng) ← WishartGen.random_factors lanes fuel dim samples (WishartGen.stdnorm g)
    (WishartGen.chisqs g) rng;
  tmp ← product (WishartGen.chol g) rand_mat;
  '(tmp, rand_mat) ← solve_loop samples dim 0 tmp rand_mat;
  Ret (tmp, WishartGen.with_generators g s cs, rng).

End Code.
End InvWishartGen.

(** ** The functions that make a generator *)

Section Make.
Context {F : Type} `{Num F} `{Libm F} `{Trig F} `{MatrixOps F} (lanes : nat).

Definition makeMvNormalGen (mean : list F) (cov : Matrix F) : outcome (MvNormalGen.t F) :=
  MvNormalGen.create_full lanes mean cov.
Definition makeMvNormalGenFromLt (mean : list F) (lt : Matrix F) : outcome (MvNormalGen.t F) :=
  MvNormalGen.create_lower lanes mean lt.
Definition makeWishartGen (df : Z) (scale : Matrix F) : outcome (WishartGen.t F) :=
  WishartGen.create_full lanes df scale.
Definition makeWishartGenFromLt (df : Z) (lt : Matrix F) : outcome (WishartGen.t F) :=
  WishartGen.create_lower lanes df lt.
Definition makeInvWishartGen (df : Z) (scale : Matrix F) : outcome (WishartGen.t F) :=
  InvWishartGen.create_full lanes df scale.
Definition makeInvWishartGenFromIlt (df : Z) (ilt : Matrix F) : outcome (WishartGen.t F) :=
  InvWishartGen.create_inv_lower lanes df ilt.

End Make.
