(* ===== verification/WishartFactor.v ===== *)
(** The random lower triangular matrices of [WishartGen]: the normal numbers are
    written to the storage of the matrix and moved below the diagonal, each of
    them to one place; roots of chi-squared numbers are put on the diagonal, and
    zeros above it. *)

From S2P Require Import Prelude.
From S2P Require Import Num.
From S2P Require Import Eigen.
From S2P Require Import MatrixOps.
From S2P Require Import Evaluate.
From S2P Require Import Reject.
From S2P Require Import Continuous.
From S2P Require Import GammaBeta.
From S2P Require Import MvNormal.

#[local] Open Scope nat_scope.

(** ** Lists of lists *)

Section Lists.
Context {A : Type}.

Lemma concat_perm {B} (f : B → list A) l k : l ≡ₚ k → concat (f <$> l) ≡ₚ concat (f <$> k).
Proof.
  induction 1 as [|x l k _ IH|x y l|l k m _ IH1 _ IH2]; cbn [fmap list_fmap concat].
  - done.
  - by rewrite IH.
  - by rewrite !app_assoc, (Permutation_app_comm (f y)).
  - by rewrite IH1.
Qed.

(** Each list cut in two. *)
Lemma concat_cut {B} (f g h : B → list A) l : (∀ x, x ∈ l → f x ++ g x ≡ₚ h x) →
  concat (f <$> l) ++ concat (g <$> l) ≡ₚ concat (h <$> l).
Proof.
  induction l as [|x l IH]; intros Hx; [done|]. cbn [fmap list_fmap concat].
  rewrite <-IH, <-(Hx x) by set_solver. rewrite <-!app_assoc. apply Permutation_app_head.
  rewrite !app_assoc. by apply Permutation_app_tail, Permutation_app_comm.
Qed.

Lemma concat_ext {B} (f g : B → list A) l : (∀ x, x ∈ l → f x = g x) → concat (f <$> l) = concat (g <$> l).
Proof. induction l as [|x l IH]; intros Hx; [done|]. cbn. rewrite Hx, IH by set_solver. done. Qed.

(** The first [h] lists and [r] elements of the next one. *)
Lemma take_concat n h r (cs : list (list A)) :
  Forall (λ c, length c = n) cs → (h < length cs ∧ r <= n) ∨ (h <= length cs ∧ r = 0) →
  take (h * n + r) (concat cs) = concat (take h cs) ++ take r (nth h cs []).
Proof.
  intros Hcs. revert h. induction Hcs as [|c cs Hc _ IH]; intros h Hh; cbn [length] in Hh.
  - assert (h = 0 ∧ r = 0) as [-> ->] by lia. done.
  - destruct h as [|h]; cbn [concat take nth app].
    + rewrite Nat.mul_0_l, Nat.add_0_l. destruct Hh as [[_ Hr]|[_ ->]]; [|by rewrite !take_0].
      by rewrite take_app_le by lia.
    + cbn [Nat.mul]. rewrite <-Nat.add_assoc, take_app_add' by done. rewrite IH by lia. by rewrite app_assoc.
Qed.

Lemma nth_seq_concat (cs : list (list A)) h : h <= length cs →
  concat ((λ k, nth k cs []) <$> seq 0 h) = concat (take h cs).
Proof.
  revert h. induction cs as [|c cs IH]; intros [|h] Hh; cbn [length] in Hh; try done; [lia|].
  cbn [seq fmap list_fmap concat take nth]. rewrite <-(fmap_S_seq 0 h), <-list_fmap_compose, <-IH by lia. done.
Qed.

End Lists.

(** The indices [n - 2 - i] for [i < q], in the order of the columns. *)
Lemma mirrored_columns n q : q <= n - 1 → (λ i, n - 2 - i) <$> seq 0 q ≡ₚ seq (n - 1 - q) q.
Proof.
  induction q as [|q IH]; intros Hq; [done|]. rewrite seq_S, fmap_app, IH by lia. cbn [fmap list_fmap].
  rewrite (Permutation_app_comm _ [_]). cbn [app seq].
  replace (n - 2 - (0 + q)) with (n - 1 - S q) by lia. by replace (S (n - 1 - S q)) with (n - 1 - q) by lia.
Qed.

(** ** Below the diagonal *)

Section Lower.
Context {F : Type} `{Num F}.

(** Column [j], and the coefficients below the diagonal, column by column. *)
Definition column (m : Matrix F) (j : nat) : list F := nth j (columns m) [].
Definition strict_lower (m : Matrix F) : list F := concat ((λ j, drop (S j) (column m j)) <$> seq 0 (cols m)).

Lemma column_lookup n c m j : sized n c m → j < c → columns m !! j = Some (column m j) ∧ length (column m j) = n.
Proof.
  intros (Hok & Hr & Hc) Hj. destruct (lookup_lt_is_Some_2 (columns m) j) as [v Hv]; [unfold cols in Hc; lia|].
  unfold column. rewrite nth_lookup, Hv. split; [done|]. unfold matrix_ok in Hok. rewrite Forall_lookup in Hok.
  rewrite <-Hr. by eapply Hok.
Qed.

Lemma get_column n c m j : sized n c m → j < c → get_col m (Z.of_nat j) = Ret (column m j).
Proof.
  intros Hm Hj. unfold get_col. rewrite (proj2 (Z.ltb_ge _ _)) by lia. rewrite Nat2Z.id.
  by rewrite (proj1 (column_lookup n c m j Hm Hj)).
Qed.

Lemma set_column n c m j v : sized n c m → j < c → length v = n →
  ∃ m', set_col m (Z.of_nat j) v = Ret m' ∧ sized n c m' ∧
    ∀ k, column m' k = if decide (k = j) then v else column m k.
Proof.
  intros Hm Hj Hv. pose proof Hm as (Hok & Hr & Hc). eexists. split.
  - unfold set_col. rewrite Nat2Z.id, Hr, Hv, Nat.eqb_refl, Hc.
    rewrite (proj2 (Z.leb_le _ _)), (proj2 (Z.ltb_lt _ _)) by lia. done.
  - split.
    + split; [|split; [done|by unfold cols; cbn; rewrite length_insert]].
      unfold matrix_ok in *. rewrite Hr in Hok. cbn. by apply Forall_insert.
    + intros k. unfold column. cbn [columns]. rewrite !nth_lookup. case_decide as E; [subst k|].
      * rewrite list_lookup_insert_eq; [done|]. unfold cols in Hc. lia.
      * by rewrite list_lookup_insert_ne.
Qed.

Lemma head_of_column n c m j k : sized n c m → j < c → k <= n → col_head m j k = Ret (take k (column m j)).
Proof.
  intros Hm Hj Hk. unfold col_head. rewrite (get_column n c) by done. cbn [mbind outcome_bind].
  by rewrite (proj2 (column_lookup n c m j Hm Hj)), (proj2 (Nat.leb_le _ _)).
Qed.

Lemma set_tail_of_column n c m j k v : sized n c m → j < c → k <= n → length v = k →
  ∃ m', set_col_tail m j k v = Ret m' ∧ sized n c m' ∧
    ∀ q, column m' q = if decide (q = j) then take (n - k) (column m j) ++ v else column m q.
Proof.
  intros Hm Hj Hk Hv. unfold set_col_tail. rewrite (get_column n c) by done. cbn [mbind outcome_bind].
  destruct (column_lookup n c m j Hm Hj) as [_ Hl].
  rewrite Hl, Hv, (proj2 (Nat.leb_le _ _)), Nat.eqb_refl by done. cbn [andb].
  apply (set_column n c); [done|done|]. rewrite length_app, length_take. lia.
Qed.

Lemma set_coefficient n c m i j x : sized n c m → i < n → j < c →
  ∃ m', set_coeff m (Z.of_nat i) (Z.of_nat j) x = Ret m' ∧ sized n c m' ∧
    ∀ k, column m' k = if decide (k = j) then <[i := x]> (column m j) else column m k.
Proof.
  intros Hm Hi Hj. pose proof Hm as (Hok & Hr & Hc). eexists. split.
  - unfold set_coeff. rewrite Hr, Hc.
    rewrite !(proj2 (Z.leb_le _ _)), !(proj2 (Z.ltb_lt _ _)) by lia. cbn [andb]. rewrite !Nat2Z.id. done.
  - split.
    + split; [|split; [done|unfold cols; cbn; by rewrite length_alter]].
      unfold matrix_ok in *. rewrite Hr in Hok. cbn. apply Forall_alter; [done|]. intros v Hv Hlv. by rewrite length_insert.
    + intros k. unfold column. cbn [columns]. rewrite !nth_lookup. case_decide as E; [subst k|].
      * rewrite list_lookup_alter_eq. destruct (column_lookup n c m j Hm Hj) as [-> _]. done.
      * by rewrite list_lookup_alter_ne.
Qed.

(** ** Moving the normal numbers *)

(** The columns after the first [i] steps. *)
Definition folded (n i : nat) (m : Matrix F) (k : nat) : list F :=
  if decide (n - 1 - i <= k <= n - 2 ∧ 2 <= n) then take (S k) (column m k) ++ take (n - 1 - k) (column m (n - 2 - k))
  else column m k.

Lemma fold_loop_ok n m0 todo : ∀ i m, i + todo = n / 2 → sized n n m → sized n n m0 →
  (∀ k, k < n → column m k = folded n i m0 k) →
  ∃ m', WishartGen.fold_loop todo n i m = Ret m' ∧ sized n n m' ∧ ∀ k, k < n → column m' k = folded n (n / 2) m0 k.
Proof.
  pose proof (Nat.div_mod n 2 ltac:(lia)) as Hn. pose proof (Nat.mod_upper_bound n 2 ltac:(lia)) as Hmod.
  induction todo as [|todo IH]; intros i m Hi Hm H0 Hc; cbn [WishartGen.fold_loop].
  - exists m. rewrite Nat.add_0_r in Hi. by rewrite <-Hi.
  - rewrite (head_of_column n n) by (done || lia). cbn [mbind outcome_bind].
    destruct (column_lookup n n m i Hm ltac:(lia)) as [_ Hl].
    destruct (set_tail_of_column n n m (n - 2 - i) (i + 1) (take (i + 1) (column m i))) as (m1 & -> & Hm1 & Hc1);
      [done|lia|lia|rewrite length_take; lia|]. cbn [mbind outcome_bind].
    apply IH; [lia|done|done|]. intros k Hk. rewrite Hc1. unfold folded.
    case_decide as E.
    + subst k. rewrite decide_True by lia. rewrite !Hc by lia. unfold folded. rewrite !decide_False by lia.
      replace (n - (i + 1)) with (S (n - 2 - i)) by lia. replace (n - 1 - (n - 2 - i)) with (i + 1) by lia.
      by replace (n - 2 - (n - 2 - i)) with i by lia.
    + rewrite Hc by done. unfold folded. destruct (decide (n - 1 - i <= k <= n - 2 ∧ 2 <= n)).
      * by rewrite decide_True by lia.
      * by rewrite decide_False by lia.
Qed.

(** What is then below the diagonal are the first [n * (n - 1) / 2] coefficients
    of the storage, in another order. *)
Lemma folded_lower n m0 m : sized n n m0 → sized n n m → (∀ k, k < n → column m k = folded n (n / 2) m0 k) →
  strict_lower m ≡ₚ take (n * (n - 1) / 2) (storage m0).
Proof.
  intros H0 Hm Hc. destruct (decide (n = 0)) as [->|Hn0].
  { unfold strict_lower. destruct Hm as (_ & _ & ->). done. }
  pose proof (Nat.div_mod n 2 ltac:(lia)) as Hdm. pose proof (Nat.mod_upper_bound n 2 ltac:(lia)) as Hmod.
  set (q := n / 2) in *. set (h := n - 1 - q).
  assert (∀ k, k < n → length (column m0 k) = n) as Hlen by (intros k Hk; by apply (column_lookup n n)).
  unfold strict_lower. destruct Hm as (_ & _ & ->).
  assert (seq 0 n = seq 0 h ++ seq h q ++ [n - 1]) as ->.
  { assert (n = h + (q + 1)) as E by (unfold h; lia). rewrite E at 1. rewrite !seq_app. cbn [Nat.add seq].
    do 3 f_equal. lia. }
  rewrite !fmap_app, !concat_app. cbn [fmap list_fmap concat]. rewrite app_nil_r.
  rewrite (drop_ge (column m (n - 1))), app_nil_r
    by (rewrite Hc by lia; unfold folded; rewrite decide_False by lia; rewrite Hlen by lia; lia).
  rewrite (concat_ext _ (λ k, drop (S k) (column m0 k)) (seq 0 h))
    by (intros k Hk%elem_of_seq; rewrite Hc by lia; unfold folded; by rewrite decide_False by lia).
  rewrite (concat_ext _ (λ k, take (n - 1 - k) (column m0 (n - 2 - k))) (seq h q)).
  2:{ intros k Hk%elem_of_seq. rewrite Hc by lia. unfold folded. rewrite decide_True by lia.
      rewrite drop_app_le by (rewrite length_take, Hlen by lia; lia).
      rewrite drop_ge by (rewrite length_take; lia). done. }
  unfold h. rewrite <-(concat_perm _ _ _ (mirrored_columns n q ltac:(lia))), <-list_fmap_compose. fold h.
  rewrite (concat_ext _ (λ i, take (S i) (column m0 i)) (seq 0 q))
    by (intros i Hi%elem_of_seq; cbn; replace (n - 1 - (n - 2 - i)) with (S i) by lia;
        by replace (n - 2 - (n - 2 - i)) with i by lia).
  assert (concat ((λ k, drop (S k) (column m0 k)) <$> seq 0 h) ++ concat ((λ i, take (S i) (column m0 i)) <$> seq 0 h) ≡ₚ
          concat (take h (columns m0))) as Hcut.
  { rewrite <-nth_seq_concat by (destruct H0 as (_ & _ & Hc0); unfold cols in Hc0; lia). apply concat_cut.
    intros k _. rewrite Permutation_app_comm, take_drop. done. }
  pose proof H0 as (Hok0 & Hr0 & Hc0). unfold matrix_ok in Hok0. rewrite Hr0 in Hok0. unfold cols in Hc0. unfold storage.
  destruct (decide (n mod 2 = 1)) as [Hodd|Heven].
  - assert (q = h) as Eq by lia. rewrite Eq, Hcut.
    replace (n * (n - 1) / 2) with (h * n + 0) by (rewrite Nat.add_0_r; apply (Nat.div_unique _ _ _ 0); nia).
    rewrite (take_concat n) by (done || lia). by rewrite take_0, app_nil_r.
  - assert (q = S h) as Eq by lia. rewrite Eq, seq_S, fmap_app, concat_app. cbn [fmap list_fmap concat Nat.add]. rewrite app_nil_r.
    rewrite app_assoc, Hcut.
    replace (n * (n - 1) / 2) with (h * n + S h) by (apply (Nat.div_unique _ _ _ 0); nia).
    rewrite (take_concat n) by (done || lia). done.
Qed.

End Lower.

(** ** Storage *)

Section Writing.
Context {F : Type}.

Lemma chunks_ok r c (l : list F) : length l = r * c →
  length (chunks r c l) = c ∧ Forall (λ v, length v = r) (chunks r c l) ∧ concat (chunks r c l) = l.
Proof.
  revert l. induction c as [|c IH]; intros l Hl; cbn [chunks].
  - rewrite Nat.mul_0_r in Hl. by destruct l.
  - destruct (IH (drop r l)) as (Hn & Hf & Hc); [rewrite length_drop; nia|].
    split_and!; [cbn; congruence|constructor; [rewrite length_take; nia|done]|]. cbn. by rewrite Hc, take_drop.
Qed.

Lemma of_storage_ok r c (l : list F) : length l = r * c → sized r c (of_storage r c l) ∧ storage (of_storage r c l) = l.
Proof. intros Hl. destruct (chunks_ok r c l Hl) as (Hn & Hf & Hc). by split. Qed.

Lemma storage_length r c (m : Matrix F) : sized r c m → length (storage m) = r * c.
Proof.
  intros (Hok & Hr & Hc). unfold storage, matrix_ok, cols in *. rewrite Hr in Hok. subst c. clear Hr.
  induction Hok as [|v l Hv _ IH]; cbn [concat length]; [lia|]. rewrite length_app, IH. lia.
Qed.

(** The values written come first, the old ones stay behind them. *)
Lemma write_storage_ok r c (m : Matrix F) v : sized r c m → length v <= r * c →
  ∃ m', write_storage m v = Ret m' ∧ sized r c m' ∧ storage m' = v ++ drop (length v) (storage m).
Proof.
  intros Hm Hv. pose proof (storage_length r c m Hm) as Hl. unfold write_storage.
  rewrite Hl, (proj2 (Nat.leb_le _ _)) by done. eexists. split; [done|]. destruct Hm as (_ & -> & ->).
  apply of_storage_ok. rewrite length_app, length_drop. lia.
Qed.

Lemma read_storage_ok r c (m : Matrix F) p k : sized r c m → p + k <= r * c →
  read_storage m p k = Ret (take k (drop p (storage m))).
Proof.
  intros Hm Hk. unfold read_storage. by rewrite (storage_length r c m Hm), (proj2 (Nat.leb_le _ _)).
Qed.

End Writing.

Lemma uninitialised_sized {F} `{UninitialisedLaws F} r c : sized r c (uninitialised r c : Matrix F).
Proof. split_and!; [apply uninitialised_ok|apply uninitialised_rows|apply uninitialised_cols]. Qed.

(** ** The factor of one sample *)

Section One.
Context {F St : Type} `{Num F} `{Libm F} `{Trig F} `{PacketMath F} `{UniformSource F St} `{Traversal}
  `{Uninitialised F} `{!UninitialisedLaws F} (lanes fuel : nat).

(** The numbers of the chi-squared generators. *)
Fixpoint chi_draws (cs : list (GammaGen.t F)) (rng : St) : outcome (list F * St) :=
  match cs with
  | [] => Ret ([], rng)
  | c :: cs =>
      '(x, rng) ← ChiSquaredGen.call fuel c rng;
      '(xs, rng) ← chi_draws cs rng;
      Ret (x :: xs, rng)
  end.

Lemma diagonal_loop_ok n cs : ∀ i m ds rng rng',
  chi_draws cs rng = Ret (ds, rng') → sized n n m → i + length cs <= n →
  ∃ m', WishartGen.diagonal_loop fuel cs (Z.of_nat i) m rng = Ret (m', rng') ∧ sized n n m' ∧
    ∀ k, column m' k = if decide (i <= k < i + length cs) then <[k := fsqrt (nth (k - i) ds (of_Z 0))]> (column m k)
                       else column m k.
Proof.
  induction cs as [|c cs IH]; intros i m ds rng rng'; cbn [chi_draws WishartGen.diagonal_loop].
  - intros [= <- <-] Hm _. exists m. split_and!; try done. intros k. by rewrite decide_False by (cbn; lia).
  - destruct (ChiSquaredGen.call fuel c rng) as [[x rng1]| | |]; cbn [mbind outcome_bind]; try done.
    destruct (chi_draws cs rng1) as [[xs rng2]| | |] eqn:E; cbn [mbind outcome_bind]; try done.
    intros [= <- <-] Hm Hi. cbn [length] in Hi.
    destruct (set_coefficient n n m i i (fsqrt x)) as (m1 & -> & Hm1 & Hc1); [done|lia|lia|]. cbn [mbind outcome_bind].
    destruct (IH (S i) m1 xs rng1 rng2) as (m' & Hl & Hm' & Hc'); [done|done|lia|].
    replace (Z.of_nat i + 1)%Z with (Z.of_nat (S i)) by lia. rewrite Hl. exists m'. split_and!; try done. intros k.
    rewrite Hc', Hc1. cbn [length]. destruct (decide (k = i)) as [->|Hne].
    + rewrite decide_False, decide_True, Nat.sub_diag by lia. done.
    + destruct (decide (i <= k < i + S (length cs))).
      * rewrite decide_True by lia. by replace (k - i) with (S (k - S i)) by lia.
      * by rewrite decide_False by lia.
Qed.

Lemma clear_upper_column n c (m : Matrix F) k : sized n c m → k < c →
  column (clear_upper m) k = replicate (Nat.min k n) (of_Z 0) ++ drop k (column m k).
Proof.
  intros Hm Hk. destruct (column_lookup n c m k Hm Hk) as [Hc Hl]. unfold column at 1, clear_upper. cbn [columns].
  rewrite nth_lookup, list_lookup_imap, Hc. cbn. by rewrite Hl.
Qed.

Lemma clear_upper_sized n c (m : Matrix F) : sized n c m → sized n c (clear_upper m).
Proof.
  intros (Hok & Hr & Hc). split_and!; [|done|unfold cols in *; cbn; by rewrite length_imap].
  unfold matrix_ok in *. cbn. rewrite Forall_lookup in Hok |- *. intros j v. rewrite list_lookup_imap.
  destruct (columns m !! j) as [c0|] eqn:E; cbn; [|done]. intros [= <-].
  rewrite length_app, length_replicate, length_drop, <-(Hok j c0 E). lia.
Qed.

(** A lower triangular matrix with the numbers [xs] below the diagonal, in some
    order, and the roots of [ds] on it. *)
Record bartlett (n : nat) (xs ds : list F) (a : Matrix F) : Prop := {
  bartlett_sized : sized n n a;
  bartlett_upper : ∀ i j, i < j < n → coeff a i j = of_Z 0;
  bartlett_diagonal : ∀ i, i < n → coeff a i i = fsqrt (nth i ds (of_Z 0));
  bartlett_lower : strict_lower a ≡ₚ xs;
}.

(** A coefficient on the diagonal and zeros above it leave what is below. *)
Section Clear.
Context (n : nat) (ds : list F) (m0 m : Matrix F) (Hm0 : sized n n m0) (Hm : sized n n m).
Context (Hc : ∀ k, k < n → column m k = <[k := fsqrt (nth k ds (of_Z 0))]> (column m0 k)).

Lemma cleared_column k : k < n →
  column (clear_upper m) k = replicate k (of_Z 0) ++ drop k (<[k := fsqrt (nth k ds (of_Z 0))]> (column m0 k)).
Proof. intros Hk. by rewrite (clear_upper_column n n), Hc, Nat.min_l by (done || lia). Qed.

Lemma cleared_lower : strict_lower (clear_upper m) = strict_lower m0.
Proof.
  unfold strict_lower. destruct (clear_upper_sized n n m Hm) as (_ & _ & ->). destruct Hm0 as (_ & _ & ->).
  apply concat_ext. intros j Hj%elem_of_seq. rewrite cleared_column by lia.
  rewrite drop_app_ge; rewrite length_replicate; [|lia]. replace (S j - j) with 1 by lia.
  by rewrite drop_drop, drop_insert_lt, Nat.add_1_r by lia.
Qed.

Lemma bartlett_clear xs : strict_lower m0 ≡ₚ xs → bartlett n xs ds (clear_upper m).
Proof.
  intros Hxs. split; [by apply clear_upper_sized| | |by rewrite cleared_lower].
  - intros i j Hij. unfold coeff. fold (column (clear_upper m) j). rewrite cleared_column by lia.
    rewrite app_nth1 by (rewrite length_replicate; lia). rewrite nth_lookup, lookup_replicate_2 by lia. done.
  - intros i Hi. unfold coeff. fold (column (clear_upper m) i). rewrite cleared_column by done.
    rewrite app_nth2; rewrite length_replicate; [|lia]. rewrite Nat.sub_diag, nth_lookup, lookup_drop, Nat.add_0_r.
    destruct (column_lookup n n m0 i Hm0 Hi) as [_ Hl]. by rewrite list_lookup_insert_eq by lia.
Qed.

End Clear.

(** One sample draws [n * (n - 1) / 2] normal numbers and [n] chi-squared ones,
    and its matrix is made of them. *)
Lemma random_factor_ok n s s' cs z ds (rng rng1 rng2 : St) :
  draw_normals lanes fuel (n * (n - 1) / 2) s rng = Ret (z, s', rng1) → length z = n * (n - 1) / 2 →
  chi_draws cs rng1 = Ret (ds, rng2) → length cs = n →
  ∃ a, WishartGen.random_factor lanes fuel n s cs rng = Ret (a, s', rng2) ∧ bartlett n z ds a.
Proof.
  intros Hz Hlz Hd Hcs. unfold WishartGen.random_factor. rewrite Hz. cbn [mbind outcome_bind].
  assert (n * (n - 1) / 2 <= n * n) as Hle by (apply Nat.Div0.div_le_upper_bound; nia).
  destruct (write_storage_ok n n (uninitialised n n) z (uninitialised_sized n n)) as (m1 & -> & Hm1 & Hs1); [lia|].
  cbn [mbind outcome_bind].
  destruct (fold_loop_ok n m1 (n / 2) 0 m1) as (m2 & -> & Hm2 & Hc2); [done|done|done| |].
  { intros k Hk. unfold folded. by rewrite decide_False by lia. }
  cbn [mbind outcome_bind].
  destruct (diagonal_loop_ok n cs 0 m2 ds rng1 rng2) as (m3 & Hl & Hm3 & Hc3); [done|done|lia|].
  change (Z.of_nat 0) with 0%Z in Hl. rewrite Hl. cbn [mbind outcome_bind].
  eexists. split; [done|]. apply (bartlett_clear n ds m2 m3); [done|done| |].
  - intros k Hk. rewrite Hc3, decide_True by lia. by rewrite Nat.sub_0_r.
  - rewrite (folded_lower n m1 m2), Hs1, <-Hlz by done. by rewrite take_app_length.
Qed.

End One.

(** ** The factors of many samples *)

(** Block [j] of a matrix of square blocks. *)
Definition block {F} (n : nat) (m : Matrix F) (j : nat) : Matrix F :=
  mkMatrix (rows m) (take n (drop (j * n) (columns m))).

(** The coefficients below the diagonal of [t + 1] columns. *)
Definition under_diagonal (t : nat) : nat := t * (t + 1) / 2.

Lemma under_diagonal_S t : under_diagonal (S t) = S t + under_diagonal t.
Proof.
  unfold under_diagonal. replace (S t * (S t + 1)) with (t * (t + 1) + S t * 2) by lia.
  rewrite Nat.div_add by done. lia.
Qed.

Lemma place_inj n i j k l : i < n → k < n → i + j * n = k + l * n → i = k ∧ j = l.
Proof. intros Hi Hk E. assert (j = l) by nia. subst; split; lia. Qed.

Section Blocks.
Context {F : Type} `{Num F}.

Lemma block_sized n samples (m : Matrix F) j : sized n (n * samples) m → j < samples → sized n n (block n m j).
Proof.
  intros (Hok & Hr & Hc) Hj. unfold block. split_and!; [|done|].
  - unfold matrix_ok in *. cbn. by apply Forall_take, Forall_drop.
  - unfold cols in *. cbn. rewrite length_take, length_drop. nia.
Qed.

Lemma block_column n (m : Matrix F) j k : k < n → column (block n m j) k = column m (k + j * n).
Proof.
  intros Hk. unfold column, block. cbn [columns]. rewrite !nth_lookup, lookup_take_lt, lookup_drop by done.
  by rewrite Nat.add_comm.
Qed.

Lemma sized_ext n c (a b : Matrix F) : sized n c a → sized n c b → (∀ k, k < c → column a k = column b k) → a = b.
Proof.
  intros Ha Hb Hk. destruct a as [ra ca], b as [rb cb]. pose proof Ha as (_ & Hra & Hca). pose proof Hb as (_ & Hrb & Hcb).
  cbn in *. subst ra rb. unfold cols in *. cbn in *. f_equal. apply list_eq. intros k. destruct (decide (k < c)) as [Hlt|].
  - destruct (column_lookup n c _ k Ha Hlt) as [Hxa _]. destruct (column_lookup n c _ k Hb Hlt) as [Hxb _].
    cbn in Hxa, Hxb. rewrite Hxa, Hxb. f_equal. by apply Hk.
  - rewrite !lookup_ge_None_2 by lia. done.
Qed.

Lemma middle_block n samples (m : Matrix F) j : sized n (n * samples) m → j < samples →
  middleCols m (j * n) n = Ret (block n m j).
Proof.
  intros (_ & _ & Hc) Hj. unfold middleCols. rewrite (proj2 (Nat.leb_le _ _)); [done|]. nia.
Qed.

Lemma set_block n samples (m b : Matrix F) j : sized n (n * samples) m → sized n n b → j < samples →
  ∃ m', set_middleCols m (j * n) n b = Ret m' ∧ sized n (n * samples) m' ∧
    ∀ k l, k < n → l < samples → column m' (k + l * n) = if decide (l = j) then column b k else column m (k + l * n).
Proof.
  intros Hm Hb Hj. pose proof Hm as (Hok & Hr & Hc). pose proof Hb as (Hokb & Hrb & Hcb).
  assert (j * n + n <= n * samples) as Hle by nia. eexists. split.
  - unfold set_middleCols. rewrite Hcb, Hrb, Hr, Hc, !Nat.eqb_refl, (proj2 (Nat.leb_le _ _)) by done. done.
  - unfold matrix_ok, cols in *. rewrite Hr in Hok. rewrite Hrb in Hokb. split.
    + split; [|split; [done|]].
      * unfold matrix_ok. cbn. apply Forall_app; split; [by apply Forall_take|].
        apply Forall_app; split; [done|by apply Forall_drop].
      * unfold cols. cbn. rewrite !length_app, length_take, length_drop. lia.
    + intros k l Hk Hl. unfold column. cbn [columns]. rewrite !nth_lookup.
      case_decide as E; [subst l|].
      * rewrite lookup_app_r by (rewrite length_take; nia). rewrite length_take, Nat.min_l, lookup_app_l by nia.
        by replace (k + j * n - j * n) with k by lia.
      * destruct (decide (l < j)).
        -- rewrite lookup_app_l by (rewrite length_take; nia). by rewrite lookup_take_lt by nia.
        -- rewrite lookup_app_r by (rewrite length_take; nia). rewrite length_take, Nat.min_l by lia.
           rewrite lookup_app_r by nia. rewrite lookup_drop, Hcb.
           by replace (j * n + n + (k + l * n - j * n - n)) with (k + l * n) by nia.
Qed.

(** ** The loops *)

Section Loops.
Context (n samples : nat).

Lemma tails_loop_ok (zs rest : list F) tmp todo : ∀ i j ptr m,
  storage tmp = zs ++ rest → sized n (n * samples) tmp → sized n (n * samples) m →
  i + todo = n - 1 → j < samples → ptr + under_diagonal todo <= length zs →
  ∃ m', WishartGen.tails_loop todo n i j ptr tmp m = Ret (ptr + under_diagonal todo, m') ∧ sized n (n * samples) m' ∧
    concat ((λ k, drop (S k) (column m' (k + j * n))) <$> seq i todo) = take (under_diagonal todo) (drop ptr zs) ∧
    ∀ k l, k < n → l ≠ j ∨ k < i → column m' (k + l * n) = column m (k + l * n).
Proof.
  induction todo as [|todo IH]; intros i j ptr m Hs Ht Hm Hi Hj Hp; cbn [WishartGen.tails_loop].
  - exists m. split_and!; try done. by rewrite Nat.add_0_r.
  - rewrite under_diagonal_S in *. assert (n - 1 - i = S todo) as Hlen by lia. rewrite Hlen.
    assert (length zs <= n * (n * samples)) as Hzs.
    { rewrite <-(storage_length n _ tmp Ht), Hs, length_app. lia. }
    rewrite (read_storage_ok n (n * samples)) by (done || lia). cbn [mbind outcome_bind].
    rewrite Hs, drop_app_le, take_app_le by (rewrite ?length_drop; lia).
    destruct (set_tail_of_column n (n * samples) m (i + j * n) (S todo) (take (S todo) (drop ptr zs)))
      as (m1 & -> & Hm1 & Hc1); [done|nia|lia|rewrite length_take, length_drop; lia|]. cbn [mbind outcome_bind].
    destruct (IH (i + 1) j (ptr + S todo) m1) as (m' & -> & Hm' & Hcat & Hoth); [done|done|done|lia|done|lia|].
    exists m'. split; [f_equal; f_equal; lia|]. split; [done|]. split.
    + cbn [seq fmap list_fmap concat]. rewrite Nat.add_1_r in Hcat. rewrite Hoth, Hc1, decide_True by (done || lia).
      destruct (column_lookup n (n * samples) m (i + j * n) Hm ltac:(nia)) as [_ Hl].
      rewrite drop_app_ge; rewrite length_take, Hl; [|lia]. replace (S i - Nat.min (n - S todo) n) with 0 by lia.
      rewrite drop_0, Hcat.
      rewrite <-(take_drop (S todo) (take (S todo + under_diagonal todo) _)), take_take, Nat.min_l by lia.
      f_equal. by rewrite <-take_drop_commute, drop_drop.
    + intros k l Hk Hkl. rewrite Hoth by (done || lia). rewrite Hc1, decide_False; [done|].
      intros E. apply place_inj in E; [lia|done|lia].
Qed.

(** The coefficients below the diagonal of block [j]. *)
Lemma block_lower (m : Matrix F) j : sized n (n * samples) m → j < samples →
  strict_lower (block n m j) = concat ((λ k, drop (S k) (column m (k + j * n))) <$> seq 0 (n - 1)).
Proof.
  intros Hm Hj. pose proof (block_sized n samples m j Hm Hj) as Hb. unfold strict_lower. destruct Hb as (_ & _ & ->).
  destruct (decide (n = 0)) as [->|]; [done|]. replace (seq 0 n) with (seq 0 (n - 1) ++ [n - 1])
    by (rewrite <-seq_S; f_equal; lia).
  rewrite fmap_app, concat_app. cbn [fmap list_fmap concat]. rewrite app_nil_r.
  rewrite (drop_ge (column _ _)), app_nil_r.
  - apply concat_ext. intros k Hk%elem_of_seq. by rewrite block_column by lia.
  - rewrite block_column by lia. rewrite (proj2 (column_lookup n (n * samples) m (n - 1 + j * n) Hm ltac:(nia))). lia.
Qed.

Lemma all_tails_loop_ok (zs rest : list F) tmp todo : ∀ j m,
  storage tmp = zs ++ rest → sized n (n * samples) tmp → sized n (n * samples) m →
  j + todo = samples → length zs = samples * under_diagonal (n - 1) →
  ∃ m', WishartGen.all_tails_loop todo n j (j * under_diagonal (n - 1)) tmp m = Ret m' ∧ sized n (n * samples) m' ∧
    (∀ l, j <= l < samples → strict_lower (block n m' l) = take (under_diagonal (n - 1)) (drop (l * under_diagonal (n - 1)) zs)) ∧
    ∀ k l, k < n → l < j → column m' (k + l * n) = column m (k + l * n).
Proof.
  induction todo as [|todo IH]; intros j m Hs Ht Hm Hj Hz; cbn [WishartGen.all_tails_loop].
  - exists m. split_and!; try done. intros l Hl. lia.
  - destruct (tails_loop_ok zs rest tmp (n - 1) 0 j (j * under_diagonal (n - 1)) m) as (m1 & -> & Hm1 & Hcat & Hoth);
      [done|done|done|lia|lia|nia|]. cbn [mbind outcome_bind].
    replace (j * under_diagonal (n - 1) + under_diagonal (n - 1)) with ((j + 1) * under_diagonal (n - 1)) by lia.
    destruct (IH (j + 1) m1) as (m' & -> & Hm' & Hlow & Hkeep); [done|done|done|lia|done|].
    exists m'. split_and!; [done|done| |].
    + intros l Hl. destruct (decide (l = j)) as [->|]; [|apply Hlow; lia].
      rewrite (block_lower m') by (done || lia). rewrite <-Hcat. apply concat_ext. intros k Hk%elem_of_seq.
      by rewrite Hkeep by lia.
    + intros k l Hk Hl. rewrite Hkeep by lia. apply Hoth; lia.
Qed.

Lemma coefficients_loop_ok (st rest : list F) tmp i todo : ∀ j ptr m,
  storage tmp = st ++ rest → sized n (n * samples) tmp → sized n (n * samples) m → i < n →
  j + todo = samples → ptr + todo = length st →
  ∃ m', WishartGen.coefficients_loop todo n i j ptr tmp m = Ret m' ∧ sized n (n * samples) m' ∧
    ∀ k l, k < n → l < samples → column m' (k + l * n) =
      if decide (k = i ∧ j <= l) then <[i := nth (ptr + (l - j)) st (of_Z 0)]> (column m (k + l * n))
      else column m (k + l * n).
Proof.
  induction todo as [|todo IH]; intros j ptr m Hs Ht Hm Hi Hj Hp; cbn [WishartGen.coefficients_loop].
  - exists m. split_and!; try done. intros k l Hk Hl. by rewrite decide_False by lia.
  - assert (length st <= n * (n * samples)) as Hst by (rewrite <-(storage_length n _ tmp Ht), Hs, length_app; lia).
    rewrite (read_storage_ok n (n * samples)) by (done || lia). cbn [mbind outcome_bind].
    rewrite Hs, drop_app_le, take_app_le by (rewrite ?length_drop; lia).
    assert (nth 0 (take 1 (drop ptr st)) (of_Z 0) = nth ptr st (of_Z 0)) as ->.
    { rewrite !nth_lookup, lookup_take_lt, lookup_drop by lia. by rewrite Nat.add_0_r. }
    destruct (set_coefficient n (n * samples) m i (i + j * n) (nth ptr st (of_Z 0))) as (m1 & -> & Hm1 & Hc1);
      [done|done|nia|]. cbn [mbind outcome_bind].
    destruct (IH (j + 1) (ptr + 1) m1) as (m' & -> & Hm' & Hc'); [done|done|done|done|lia|lia|].
    exists m'. split_and!; [done|done|]. intros k l Hk Hl. rewrite Hc', Hc1 by done.
    destruct (decide (k + l * n = i + j * n)) as [E|Hne].
    + apply place_inj in E as [-> ->]; [|done..]. rewrite decide_False, decide_True, Nat.sub_diag, Nat.add_0_r by lia. done.
    + destruct (decide (k = i ∧ j <= l)) as [[-> Hle]|Hn].
      * assert (l ≠ j) by congruence. rewrite decide_True by lia. by replace (ptr + (l - j)) with (ptr + 1 + (l - (j + 1))) by lia.
      * by rewrite decide_False by lia.
Qed.

Lemma clear_loop_ok todo : ∀ j (m : Matrix F), sized n (n * samples) m → j + todo = samples →
  ∃ m', WishartGen.clear_loop todo n j m = Ret m' ∧ sized n (n * samples) m' ∧
    ∀ k l, k < n → l < samples → column m' (k + l * n) =
      if decide (j <= l) then column (clear_upper (block n m l)) k else column m (k + l * n).
Proof.
  induction todo as [|todo IH]; intros j m Hm Hj; cbn [WishartGen.clear_loop].
  - exists m. split_and!; try done. intros k l Hk Hl. by rewrite decide_False by lia.
  - rewrite (middle_block n samples) by (done || lia). cbn [mbind outcome_bind].
    pose proof (block_sized n samples m j Hm ltac:(lia)) as Hb.
    destruct (set_block n samples m (clear_upper (block n m j)) j) as (m1 & -> & Hm1 & Hc1);
      [done|by apply clear_upper_sized|lia|]. cbn [mbind outcome_bind].
    destruct (IH (j + 1) m1 Hm1 ltac:(lia)) as (m' & -> & Hm' & Hc'). exists m'. split_and!; [done|done|].
    intros k l Hk Hl. rewrite Hc' by done. destruct (decide (l = j)) as [->|Hne].
    + rewrite decide_False, Hc1, !decide_True by lia. done.
    + destruct (decide (j <= l)).
      * rewrite decide_True by lia. f_equal.
        assert (block n m1 l = block n m l) as ->; [|done].
        apply (sized_ext n n); [by apply (block_sized n samples)..|]. intros q Hq.
        by rewrite !block_column, Hc1, decide_False by done.
      * by rewrite decide_False, Hc1, decide_False by lia.
Qed.

End Loops.
End Blocks.

Section Many.
Context {F St : Type} `{Num F} `{Libm F} `{Trig F} `{PacketMath F} `{PacketFilter F} `{UniformSource F St} `{Traversal}
  `{Uninitialised F} `{!UninitialisedLaws F} (lanes fuel n samples : nat).

(** For each chi-squared generator its numbers of all samples. *)
Fixpoint chi_rows (cs : list (GammaGen.t F)) (rng : St) : outcome (list (list F) * list (GammaGen.t F) * St) :=
  match cs with
  | [] => Ret ([], [], rng)
  | c :: cs =>
      '(x, c, rng) ← evaluate lanes (keeping (ChiSquaredGen.call fuel)) (ChiSquaredGen.packetOp fuel) samples c rng;
      '(xs, cs, rng) ← chi_rows cs rng;
      Ret (x :: xs, c :: cs, rng)
  end.

(** The numbers of the generators for sample [l]. *)
Definition chi_column (l : nat) (xs : list (list F)) : list F := (λ x, nth l x (of_Z 0)) <$> xs.

Lemma diagonals_loop_ok cs : ∀ i tmp m ds cs' (rng rng' : St),
  chi_rows cs rng = Ret (ds, cs', rng') → Forall (λ x, length x = samples) ds →
  sized n (n * samples) tmp → sized n (n * samples) m → i + length cs <= n →
  ∃ tmp' m', WishartGen.diagonals_loop lanes fuel cs samples n i tmp m rng = Ret (tmp', m', cs', rng') ∧
    sized n (n * samples) m' ∧ length ds = length cs ∧
    ∀ k l, k < n → l < samples → column m' (k + l * n) =
      if decide (i <= k < i + length cs)
      then <[k := fsqrt (nth l (nth (k - i) ds []) (of_Z 0))]> (column m (k + l * n)) else column m (k + l * n).
Proof.
  induction cs as [|c cs IH]; intros i tmp m ds cs' rng rng'; cbn [chi_rows WishartGen.diagonals_loop].
  - intros [= <- <- <-] _ _ Hm _. exists tmp, m. split_and!; try done. intros k l _ _. by rewrite decide_False by (cbn; lia).
  - destruct (evaluate _ _ _ _ _ _) as [[[x c1] rng1]| | |]; cbn [mbind outcome_bind]; try done.
    destruct (chi_rows cs rng1) as [[[xs cs1] rng2]| | |] eqn:E; cbn [mbind outcome_bind]; try done.
    intros [= <- <- <-] [Hx Hxs]%Forall_cons Ht Hm Hi. cbn [length] in Hi.
    destruct (write_storage_ok n (n * samples) tmp (fsqrt <$> x) Ht) as (tmp1 & -> & Ht1 & Hst);
      [rewrite length_fmap, Hx; pose proof (Nat.mul_le_mono 1 (n * n) samples samples); nia|]. cbn [mbind outcome_bind].
    destruct (coefficients_loop_ok n samples (fsqrt <$> x) _ tmp1 i samples 0 0 m Hst)
      as (m1 & -> & Hm1 & Hc1); [done|done|lia|done|by rewrite length_fmap|]. cbn [mbind outcome_bind].
    destruct (IH (i + 1) tmp1 m1 xs cs1 rng1 rng2) as (tmp' & m' & -> & Hm' & Hlen & Hc'); [done|done|done|done|lia|].
    cbn [mbind outcome_bind]. exists tmp', m'. split_and!; [done|done|cbn; congruence|]. intros k l Hk Hl.
    rewrite Hc', Hc1 by done. cbn [length]. destruct (decide (k = i)) as [->|Hne].
    + rewrite decide_False, !decide_True, Nat.sub_diag, Nat.add_0_l, Nat.sub_0_r by lia. cbn [nth]. f_equal.
      rewrite !nth_lookup, list_lookup_fmap. by destruct (lookup_lt_is_Some_2 x l) as [y ->]; [lia|].
    + rewrite (decide_False (P := k = i ∧ _)) by lia. destruct (decide (i <= k < i + S (length cs))).
      * rewrite decide_True by lia. by replace (k - i) with (S (k - (i + 1))) by lia.
      * by rewrite decide_False by lia.
Qed.

Lemma normal_samples : samples * n * (n - 1) / 2 = samples * under_diagonal (n - 1).
Proof.
  destruct n as [|p]; [cbn; by rewrite Nat.mul_0_r|]. unfold under_diagonal. replace (S p - 1) with p by lia.
  pose proof (Nat.Div0.div_exact (p * (p + 1)) 2) as [_ Hev].
  assert ((p * (p + 1)) mod 2 = 0) as Hmod.
  { rewrite <-Nat.Div0.mul_mod_idemp_r, <-Nat.Div0.mul_mod_idemp_l, <-Nat.Div0.add_mod_idemp_l.
    pose proof (Nat.mod_upper_bound p 2 ltac:(lia)). assert (p mod 2 = 0 ∨ p mod 2 = 1) as [-> | ->] by lia; done. }
  specialize (Hev Hmod). symmetry. apply (Nat.div_unique _ _ _ 0); [lia|]. nia.
Qed.

(** Sample [l] of many has the normal numbers of its place below the diagonal, in
    the order in which they were drawn. *)
Lemma random_factors_ok s s' cs cs' z ds (rng rng1 rng2 : St) :
  draw_normals lanes fuel (samples * n * (n - 1) / 2) s rng = Ret (z, s', rng1) →
  length z = samples * n * (n - 1) / 2 →
  chi_rows cs rng1 = Ret (ds, cs', rng2) → Forall (λ x, length x = samples) ds → length cs = n →
  ∃ a, WishartGen.random_factors lanes fuel n samples s cs rng = Ret (a, s', cs', rng2) ∧ sized n (n * samples) a ∧
    ∀ l, l < samples → strict_lower (block n a l) = take (under_diagonal (n - 1)) (drop (l * under_diagonal (n - 1)) z) ∧
      bartlett n (take (under_diagonal (n - 1)) (drop (l * under_diagonal (n - 1)) z)) (chi_column l ds) (block n a l).
Proof.
  intros Hz Hlz Hd Hds Hcs. unfold WishartGen.random_factors. rewrite Hz. cbn [mbind outcome_bind].
  assert (samples * n * (n - 1) / 2 <= n * (n * samples)) as Hle by (apply Nat.Div0.div_le_upper_bound; nia).
  rewrite normal_samples in Hlz, Hle. pose proof (uninitialised_sized n (n * samples)) as Hu.
  destruct (write_storage_ok n (n * samples) (uninitialised n (n * samples)) z Hu) as (tmp & -> & Ht & Hst); [lia|].
  cbn [mbind outcome_bind].
  destruct (all_tails_loop_ok n samples z _ tmp samples 0 (uninitialised n (n * samples)) Hst Ht Hu)
    as (m1 & Hl1 & Hm1 & Hlow & _); [done|done|]. cbn [Nat.mul] in Hl1. rewrite Hl1. cbn [mbind outcome_bind].
  destruct (diagonals_loop_ok cs 0 tmp m1 ds cs' rng1 rng2) as (tmp' & m2 & -> & Hm2 & Hlen & Hc2); [done|done|done|done|lia|].
  cbn [mbind outcome_bind].
  destruct (clear_loop_ok n samples samples 0 m2 Hm2) as (a & -> & Ha & Hca); [done|]. cbn [mbind outcome_bind].
  exists a. split; [done|]. split; [done|]. intros l Hl.
  pose proof (block_sized n samples m1 l Hm1 Hl) as Hb1. pose proof (block_sized n samples m2 l Hm2 Hl) as Hb2.
  assert (block n a l = clear_upper (block n m2 l)) as ->.
  { apply (sized_ext n n); [by apply (block_sized n samples)|by apply clear_upper_sized|].
    intros k Hk. by rewrite block_column, Hca, decide_True by (done || lia). }
  assert (∀ k, k < n → column (block n m2 l) k =
            <[k := fsqrt (nth k (chi_column l ds) (of_Z 0))]> (column (block n m1 l) k)) as Hk.
  { intros k Hk. rewrite !block_column, Hc2, decide_True, Nat.sub_0_r by (done || lia). do 2 f_equal.
    unfold chi_column. rewrite !(nth_lookup _ k), list_lookup_fmap.
    by destruct (lookup_lt_is_Some_2 ds k) as [y ->]; [lia|]. }
  split; [rewrite (cleared_lower n (chi_column l ds) (block n m1 l)) by done; apply Hlow; lia|].
  apply (bartlett_clear n (chi_column l ds) (block n m1 l)); [done|done|done|]. by rewrite Hlow by lia.
Qed.

End Many.
