(* ===== verification/MatrixR.v ===== *)
(** Eigen's matrix operations in exact arithmetic: the laws that their
    documentation gives, an algebra of square matrices as functions of two
    indices, with equality below a dimension as a setoid, and a concrete instance
    of the operations. *)

From S2P Require Import Prelude.
From S2P Require Import Num.
From S2P Require Import NumR.
From S2P Require Import Eigen.
From S2P Require Import MatrixOps.
From Stdlib Require Import Reals Lra.

#[local] Open Scope R_scope.

(** ** Sums *)

Lemma sum_below_scale N c g : sum_below N (λ k, c * g k) = c * sum_below N g.
Proof. induction N as [|N IH]; [rewrite !sum_below_0; unfold rsum; cbn; lra|]. rewrite !sum_below_S, IH. lra. Qed.

Lemma sum_below_zero N g : (∀ k, (k < N)%nat → g k = 0) → sum_below N g = 0.
Proof. intros Hg. rewrite (sum_below_ext N g (λ _, 0)), sum_below_const by done. lra. Qed.

Lemma sum_below_swap M N (g : nat → nat → R) :
  sum_below M (λ i, sum_below N (g i)) = sum_below N (λ j, sum_below M (λ i, g i j)).
Proof.
  induction M as [|M IH].
  - rewrite sum_below_0, sum_below_zero; [done|]. intros k _. by rewrite sum_below_0.
  - rewrite sum_below_S, IH, <-sum_below_plus. apply sum_below_ext. intros j _. by rewrite sum_below_S.
Qed.

Lemma sum_below_delta N i g : (i < N)%nat → sum_below N (λ k, (if decide (k = i) then 1 else 0) * g k) = g i.
Proof.
  intros Hi. rewrite <-(sum_below_point N i (g i)) by done. apply sum_below_ext. intros k _.
  case_decide; [subst; lra|lra].
Qed.

Lemma sum_below_squares N g : 0 <= sum_below N (λ k, g k * g k).
Proof.
  rewrite <-(sum_below_zero N (λ _, 0)) at 1 by done. apply sum_below_le. intros k _. nra.
Qed.

(** ** Square matrices *)

Section Square.
Context (n : nat).

Definition mat := nat → nat → R.

(** Equality of the coefficients below [n]. *)
Definition meq (a b : mat) : Prop := ∀ i j, (i < n)%nat → (j < n)%nat → a i j = b i j.
Definition mprod (a b : mat) : mat := λ i j, sum_below n (λ k, a i k * b k j).
Definition mtrans (a : mat) : mat := λ i j, a j i.
Definition mone : mat := λ i j, if decide (i = j) then 1 else 0.

#[export] Instance meq_equivalence : Equivalence meq.
Proof.
  split.
  - by intros a i j _ _.
  - intros a b Hab i j Hi Hj. by rewrite Hab.
  - intros a b c Hab Hbc i j Hi Hj. by rewrite Hab, Hbc.
Qed.

#[export] Instance mprod_proper : Proper (meq ==> meq ==> meq) mprod.
Proof.
  intros a a' Ha b b' Hb i j Hi Hj. apply sum_below_ext. intros k Hk. by rewrite Ha, Hb.
Qed.

#[export] Instance mtrans_proper : Proper (meq ==> meq) mtrans.
Proof. intros a a' Ha i j Hi Hj. by apply Ha. Qed.

Lemma mprod_assoc a b c : meq (mprod (mprod a b) c) (mprod a (mprod b c)).
Proof.
  intros i j _ _. unfold mprod.
  rewrite (sum_below_ext n _ (λ k, sum_below n (λ l, a i l * b l k * c k j))).
  - rewrite sum_below_swap. apply sum_below_ext. intros l _. rewrite <-sum_below_scale.
    apply sum_below_ext. intros k _. lra.
  - intros k _. rewrite Rmult_comm, <-sum_below_scale. apply sum_below_ext. intros l _. lra.
Qed.

Lemma mprod_one_l a : meq (mprod mone a) a.
Proof.
  intros i j Hi _. unfold mprod, mone. rewrite <-(sum_below_delta n i (λ k, a k j)) by done.
  apply sum_below_ext. intros k _. destruct (decide (i = k)), (decide (k = i)); (done || congruence).
Qed.

Lemma mprod_one_r a : meq (mprod a mone) a.
Proof.
  intros i j _ Hj. unfold mprod, mone. rewrite <-(sum_below_delta n j (a i)) by done.
  apply sum_below_ext. intros k _. destruct (decide (k = j)); lra.
Qed.

Lemma mtrans_prod a b : meq (mtrans (mprod a b)) (mprod (mtrans b) (mtrans a)).
Proof. intros i j _ _. apply sum_below_ext. intros k _. unfold mtrans. lra. Qed.

Lemma mtrans_one : meq (mtrans mone) mone.
Proof. intros i j _ _. unfold mtrans, mone. destruct (decide (j = i)), (decide (i = j)); (done || congruence). Qed.

Lemma mtrans_trans a : meq (mtrans (mtrans a)) a.
Proof. by intros i j _ _. Qed.

(** The Gram matrix of the rows: it is symmetric, and no vector makes it
    negative. *)
Definition gram (a : mat) : mat := mprod a (mtrans a).

#[export] Instance gram_proper : Proper (meq ==> meq) gram.
Proof. intros a a' Ha. unfold gram. by rewrite Ha. Qed.

Lemma gram_symmetric a : meq (mtrans (gram a)) (gram a).
Proof. unfold gram. by rewrite mtrans_prod, mtrans_trans. Qed.

Definition quadratic (a : mat) (x : nat → R) : R := sum_below n (λ i, sum_below n (λ j, x i * a i j * x j)).

Lemma quadratic_proper a b x : meq a b → quadratic a x = quadratic b x.
Proof.
  intros Hab. apply sum_below_ext. intros i Hi. apply sum_below_ext. intros j Hj. by rewrite Hab.
Qed.

Lemma gram_quadratic a x : quadratic (gram a) x = sum_below n (λ k, sum_below n (λ i, x i * a i k) * sum_below n (λ i, x i * a i k)).
Proof.
  unfold quadratic, gram, mprod, mtrans.
  transitivity (sum_below n (λ i, sum_below n (λ k, x i * a i k * sum_below n (λ j, x j * a j k)))).
  - apply sum_below_ext. intros i _.
    transitivity (sum_below n (λ j, sum_below n (λ k, x i * a i k * (x j * a j k)))).
    + apply sum_below_ext. intros j _.
      rewrite <-(sum_below_scale n (x i)), Rmult_comm, <-(sum_below_scale n (x j)). apply sum_below_ext. intros k _. lra.
    + rewrite sum_below_swap. apply sum_below_ext. intros k _. apply sum_below_scale.
  - rewrite sum_below_swap. apply sum_below_ext. intros k _.
    transitivity (sum_below n (λ i, sum_below n (λ j, x j * a j k) * (x i * a i k))).
    + apply sum_below_ext. intros i _. lra.
    + by rewrite sum_below_scale.
Qed.

Lemma gram_nonnegative a x : 0 <= quadratic (gram a) x.
Proof. rewrite gram_quadratic. apply sum_below_squares. Qed.

(** ** Lower triangular matrices *)

Definition lower (a : mat) : Prop := ∀ i j, (i < j < n)%nat → a i j = 0.
Definition diagonal_nonzero (a : mat) : Prop := ∀ i, (i < n)%nat → a i i ≠ 0.

(** A sum of which all terms but the last below [S i] are known. *)
Lemma sum_below_last i g : (i < n)%nat → (∀ k, (i < k < n)%nat → g k = 0) → sum_below n g = sum_below i g + g i.
Proof.
  intros Hi Hg. rewrite <-sum_below_S. replace n with (S i + (n - S i))%nat by lia. clear Hi.
  assert (∀ d, (S i + d <= n)%nat → sum_below (S i + d) g = sum_below (S i) g) as Hd.
  { induction d as [|d IH]; intros Hle; [by rewrite Nat.add_0_r|].
    rewrite Nat.add_succ_r, sum_below_S, IH, Hg by lia. lra. }
  destruct (decide (S i <= n)%nat); [apply Hd; lia|]. by replace (n - S i)%nat with 0%nat by lia; rewrite Nat.add_0_r.
Qed.

Lemma lower_prod a b : lower a → lower b →
  lower (mprod a b) ∧ ∀ i, (i < n)%nat → mprod a b i i = a i i * b i i.
Proof.
  intros Ha Hb. split.
  - intros i j Hij. apply sum_below_zero. intros k Hk. destruct (decide (i < k)%nat).
    + rewrite Ha by lia. lra.
    + rewrite Hb by lia. lra.
  - intros i Hi. unfold mprod. rewrite (sum_below_last i) by (done || (intros k Hk; rewrite Ha by lia; lra)).
    rewrite sum_below_zero; [lra|]. intros k Hk. rewrite Hb by lia. lra.
Qed.

(** Such a matrix with a nonzero diagonal cancels on the left. *)
Lemma lower_cancel a x y : lower a → diagonal_nonzero a → meq (mprod a x) (mprod a y) → meq x y.
Proof.
  intros Ha Hd Hxy. assert (∀ i, (i < n)%nat → ∀ j, (j < n)%nat → x i j = y i j) as Heq; [|by intros i j Hi Hj; apply Heq].
  intros i. induction i as [i IH] using lt_wf_ind. intros Hi j Hj.
  pose proof (Hxy i j Hi Hj) as Hij. unfold mprod in Hij.
  rewrite !(sum_below_last i) in Hij by (done || (intros k Hk; rewrite Ha by lia; lra)).
  rewrite (sum_below_ext i _ (λ k, a i k * y k j)) in Hij by (intros k Hk; by rewrite IH by lia).
  apply (Rmult_eq_reg_l (a i i)); [lra|by apply Hd].
Qed.

(** A right inverse is a left inverse. *)
Lemma lower_inverse a u : lower a → diagonal_nonzero a → meq (mprod a u) mone → meq (mprod u a) mone.
Proof.
  intros Ha Hd Hu. apply (lower_cancel a); [done..|]. by rewrite <-mprod_assoc, Hu, mprod_one_l, mprod_one_r.
Qed.

Lemma gram_inverse a u : lower a → diagonal_nonzero a → meq (mprod a u) mone →
  meq (mprod (mprod (mtrans u) u) (gram a)) mone ∧ meq (mprod (gram a) (mprod (mtrans u) u)) mone.
Proof.
  intros Ha Hd Hu. pose proof (lower_inverse a u Ha Hd Hu) as Hl.
  assert (meq (mprod (mtrans u) (mtrans a)) mone) as Ht by (rewrite <-mtrans_prod, Hu; apply mtrans_one).
  assert (meq (mprod (mtrans a) (mtrans u)) mone) as Ht2 by (rewrite <-mtrans_prod, Hl; apply mtrans_one).
  unfold gram. split.
  - rewrite mprod_assoc, <-(mprod_assoc u), Hl, mprod_one_l. done.
  - rewrite mprod_assoc, <-(mprod_assoc (mtrans a)), Ht2, mprod_one_l. done.
Qed.

End Square.

(** ** Eigen's matrices *)

Class MatrixExact `{MatrixOps R} : Prop := {
  mmul_sized r n c a b : sized r n a → sized n c b → sized r c (mmul a b);
  mmul_coeff r n c a b i j : sized r n a → sized n c b → (i < r)%nat → (j < c)%nat →
    coeff (mmul a b) i j = sum_below n (λ k, coeff a i k * coeff b k j);
  solve_lower_sized n c t b : sized n n t → sized n c b → sized n c (solve_lower_ t b);
  (* only the lower triangle of [t] is read *)
  solve_lower_coeff n c t b i j : sized n n t → sized n c b → diagonal_nonzero n (coeff t) →
    (i < n)%nat → (j < c)%nat →
    sum_below (S i) (λ k, coeff t i k * coeff (solve_lower_ t b) k j) = coeff b i j;
  LLT_gram n m l : sized n n m → meq n (mtrans (coeff m)) (coeff m) → LLT m = Some l →
    sized n n l ∧ lower n (coeff l) ∧ diagonal_nonzero n (coeff l) ∧ meq n (gram n (coeff l)) (coeff m);
  eigen_decomposition n m vals vecs : sized n n m → meq n (mtrans (coeff m)) (coeff m) →
    SelfAdjointEigenSolver m = Some (vals, vecs) →
    sized n n vecs ∧ length vals = n ∧
    ∀ i j, (i < n)%nat → (j < n)%nat →
      sum_below n (λ k, nth k vals 0 * (coeff vecs i k * coeff vecs j k)) = coeff m i j;
}.

(** The matrix with given coefficients. *)
Definition tabulate (r c : nat) (f : mat) : Matrix R := mkMatrix r ((λ j, (λ i, f i j) <$> seq 0 r) <$> seq 0 c).

Lemma nth_map_seq {A} (f : nat → A) n i d : (i < n)%nat → nth i (f <$> seq 0 n) d = f i.
Proof.
  intros Hi. rewrite nth_lookup, list_lookup_fmap, lookup_seq_lt by done. done.
Qed.

Lemma tabulate_sized r c f : sized r c (tabulate r c f).
Proof.
  split_and!; [|done|unfold cols; cbn; by rewrite length_fmap, length_seq].
  unfold matrix_ok. cbn. apply Forall_fmap, Forall_true. intros j. cbn. by rewrite length_fmap, length_seq.
Qed.

Lemma tabulate_coeff r c f i j : (i < r)%nat → (j < c)%nat → coeff (tabulate r c f) i j = f i j.
Proof. intros Hi Hj. unfold coeff, tabulate. cbn [columns]. by rewrite nth_map_seq, nth_map_seq. Qed.

Lemma Identity_sized n : sized n n (Identity n).
Proof. apply (tabulate_sized n n (λ i j, if (i =? j)%nat then of_Z 1 else of_Z 0)). Qed.

Lemma Identity_coeff n : meq n (coeff (Identity n)) mone.
Proof.
  intros i j Hi Hj.
  transitivity (if (i =? j)%nat then 1 else 0);
    [exact (tabulate_coeff n n (λ i j, if (i =? j)%nat then of_Z 1 else of_Z 0) i j Hi Hj)|].
  unfold mone. destruct (decide (i = j)) as [->|Hne]; [by rewrite Nat.eqb_refl|]. by rewrite (proj2 (Nat.eqb_neq i j)).
Qed.

Lemma transpose_sized r c m : sized r c m → sized c r (transpose m).
Proof.
  intros (Hok & Hr & Hc). split_and!; [|exact Hc|unfold cols; cbn; by rewrite length_fmap, length_seq].
  unfold matrix_ok. cbn. apply Forall_fmap, Forall_true. intros i. cbn. by rewrite length_fmap.
Qed.

Lemma transpose_coeff r c m i j : sized r c m → (i < c)%nat → (j < r)%nat → coeff (transpose m) i j = coeff m j i.
Proof.
  intros (Hok & Hr & Hc) Hi Hj. unfold coeff at 1, transpose. cbn [columns]. rewrite Hr, nth_map_seq by done.
  unfold coeff. rewrite !nth_lookup, list_lookup_fmap.
  destruct (lookup_lt_is_Some_2 (columns m) i) as [v Hv]; [unfold cols in Hc; lia|]. rewrite Hv. cbn. by rewrite nth_lookup.
Qed.

Section Products.
Context `{MatrixExact}.

Lemma product_ok r n c a b : sized r n a → sized n c b →
  product a b = Ret (mmul a b) ∧ sized r c (mmul a b).
Proof.
  intros Ha Hb. split; [|by eapply mmul_sized]. destruct Ha as (_ & _ & Hca), Hb as (_ & Hrb & _).
  unfold product. by rewrite Hca, Hrb, Nat.eqb_refl.
Qed.

Lemma mmul_meq n a b : sized n n a → sized n n b → meq n (coeff (mmul a b)) (mprod n (coeff a) (coeff b)).
Proof. intros Ha Hb i j Hi Hj. by apply (mmul_coeff n n n). Qed.

Lemma transpose_meq n a : sized n n a → meq n (coeff (transpose a)) (mtrans (coeff a)).
Proof. intros Ha i j Hi Hj. by apply (transpose_coeff n n). Qed.

(** [t * t.transpose()]. *)
Lemma square_ok n t : sized n n t → ∃ w, product t (transpose t) = Ret w ∧ sized n n w ∧
  meq n (coeff w) (gram n (coeff t)).
Proof.
  intros Ht. pose proof (transpose_sized n n t Ht) as Hs. destruct (product_ok n n n t (transpose t) Ht Hs) as [Hp Hw].
  exists (mmul t (transpose t)). split; [done|]. split; [done|]. by rewrite mmul_meq, transpose_meq.
Qed.

(** [t.triangularView<Lower>().solve(id)] is the inverse of a lower triangular [t]. *)
Lemma solve_identity n t : sized n n t → lower n (coeff t) → diagonal_nonzero n (coeff t) →
  ∃ u, solve_lower t (Identity n) = Ret u ∧ sized n n u ∧ meq n (mprod n (coeff t) (coeff u)) mone.
Proof.
  intros Ht Hl Hd. exists (solve_lower_ t (Identity n)). split; [|split].
  - unfold solve_lower. destruct Ht as (_ & Hr & Hc). destruct (Identity_sized n) as (_ & Hri & _).
    by rewrite Hr, Hc, Hri, !Nat.eqb_refl.
  - apply solve_lower_sized; [done|apply Identity_sized].
  - intros i j Hi Hj. rewrite <-(Identity_coeff n i j Hi Hj).
    rewrite <-(solve_lower_coeff n n t (Identity n) i j) by (done || apply Identity_sized).
    unfold mprod. rewrite sum_below_S. apply sum_below_last; [done|]. intros k Hk. rewrite Hl by lia. lra.
Qed.

End Products.

(** ** A concrete instance

    Products are sums in order, triangular systems are solved by forward
    substitution; the decompositions handle matrices with one row and diagonal
    matrices, and fail on others. *)

(** The first [i] coefficients of the solution. *)
Fixpoint forward (t : mat) (b : nat → R) (i : nat) : list R :=
  match i with
  | O => []
  | S i => let xs := forward t b i in xs ++ [(b i - sum_below i (λ k, t i k * nth k xs 0)) / t i i]
  end.

Lemma forward_length t b i : length (forward t b i) = i.
Proof. induction i as [|i IH]; [done|]. cbn [forward]. rewrite length_app, IH. cbn. lia. Qed.

Lemma forward_prefix t b i n k : (k < i)%nat → (i <= n)%nat → nth k (forward t b n) 0 = nth k (forward t b i) 0.
Proof.
  intros Hk. induction n as [|n IH]; intros Hi; [lia|]. destruct (decide (i = S n)) as [->|]; [done|].
  cbn [forward]. rewrite app_nth1 by (rewrite forward_length; lia). apply IH. lia.
Qed.

Lemma forward_solves t b n i : (i < n)%nat → t i i ≠ 0 →
  sum_below (S i) (λ k, t i k * nth k (forward t b n) 0) = b i.
Proof.
  intros Hi Hd. rewrite sum_below_S.
  rewrite (sum_below_ext i _ (λ k, t i k * nth k (forward t b i) 0)) by (intros k Hk; by rewrite (forward_prefix t b i) by lia).
  rewrite (forward_prefix t b (S i)) by lia. cbn [forward]. rewrite app_nth2; rewrite forward_length; [|lia].
  rewrite Nat.sub_diag. cbn [nth]. field. done.
Qed.

Definition one_row_LLT (m : Matrix R) : option (Matrix R) :=
  if decide (rows m = 1%nat) then
    if Rlt_dec 0 (coeff m 0 0) then Some (tabulate 1 1 (λ _ _, sqrt (coeff m 0 0))) else None
  else None.

Definition is_diagonal (n : nat) (a : mat) : bool :=
  forallb (λ i, forallb (λ j, if decide (i = j) then true else if Req_EM_T (a i j) 0 then true else false) (seq 0 n)) (seq 0 n).

Lemma is_diagonal_spec n a : is_diagonal n a = true → ∀ i j, (i < n)%nat → (j < n)%nat → i ≠ j → a i j = 0.
Proof.
  unfold is_diagonal. rewrite forallb_forall. intros Ha i j Hi Hj Hne.
  specialize (Ha i). rewrite in_seq, forallb_forall in Ha. specialize (Ha ltac:(lia) j). rewrite in_seq in Ha.
  specialize (Ha ltac:(lia)). rewrite decide_False in Ha by done. by destruct (Req_EM_T (a i j) 0).
Qed.

Definition diagonal_eigen (m : Matrix R) : option (list R * Matrix R) :=
  if is_diagonal (rows m) (coeff m)
  then Some ((λ i, coeff m i i) <$> seq 0 (rows m), tabulate (rows m) (rows m) mone) else None.

Definition forward_solve (t b : Matrix R) : Matrix R :=
  tabulate (rows t) (cols b) (λ i j, nth i (forward (coeff t) (λ k, coeff b k j) (rows t)) 0).

#[export] Instance R_matrix : MatrixOps R := {
  mmul a b := tabulate (rows a) (cols b) (λ i j, sum_below (cols a) (λ k, coeff a i k * coeff b k j));
  solve_lower_ := forward_solve;
  LLT := one_row_LLT;
  SelfAdjointEigenSolver := diagonal_eigen;
  inverse m := forward_solve m (Identity (rows m));  (* of a lower triangular matrix *)
}.

#[export] Instance R_matrix_exact : MatrixExact.
Proof.
  split.
  - intros r n c a b (_ & Ha & _) (_ & _ & Hb). cbn. rewrite Ha, Hb. apply tabulate_sized.
  - intros r n c a b i j (_ & Ha & Hca) (_ & _ & Hb) Hi Hj. cbn [mmul R_matrix]. rewrite Ha, Hb, Hca. by rewrite tabulate_coeff.
  - intros n c t b (_ & Ht & _) (_ & _ & Hb). cbn. unfold forward_solve. rewrite Ht, Hb. apply tabulate_sized.
  - intros n c t b i j (_ & Ht & _) (_ & _ & Hb) Hd Hi Hj. cbn [solve_lower_ R_matrix]. unfold forward_solve. rewrite Ht, Hb.
    rewrite <-(forward_solves (coeff t) (λ k, coeff b k j) n i Hi (Hd i Hi)).
    apply sum_below_ext. intros k Hk. by rewrite tabulate_coeff by lia.
  - intros n m l (_ & Hr & _) _. unfold LLT, R_matrix, one_row_LLT. rewrite Hr.
    destruct (decide (n = 1%nat)) as [->|]; [|done]. destruct (Rlt_dec 0 (coeff m 0 0)) as [Hp|]; [|done]. intros [= <-].
    pose proof (sqrt_lt_R0 _ Hp). split; [apply tabulate_sized|]. split_and!.
    + intros i j Hij. lia.
    + intros i Hi. rewrite tabulate_coeff by done. lra.
    + intros i j Hi Hj. assert (i = 0 ∧ j = 0)%nat as [-> ->] by lia. unfold gram, mprod, mtrans.
      rewrite sum_below_S, sum_below_0, !tabulate_coeff by lia. rewrite Rplus_0_l. by apply sqrt_sqrt, Rlt_le.
  - intros n m vals vecs (_ & Hr & _) _. unfold SelfAdjointEigenSolver, R_matrix, diagonal_eigen. rewrite Hr.
    destruct (is_diagonal n (coeff m)) eqn:E; [|done]. intros [= <- <-].
    split; [apply tabulate_sized|]. split; [by rewrite length_fmap, length_seq|]. intros i j Hi Hj.
    transitivity (sum_below n (λ k, (if decide (k = i) then 1 else 0) * (coeff m k k * mone j k))).
    + apply sum_below_ext. intros k Hk. rewrite (nth_map_seq (λ i, coeff m i i)), !tabulate_coeff by done. unfold mone at 1.
      destruct (decide (i = k)), (decide (k = i)); try congruence; lra.
    + rewrite sum_below_delta by done. unfold mone. destruct (decide (j = i)) as [->|]; [lra|].
      rewrite (is_diagonal_spec n _ E i j) by (done || congruence). lra.
Qed.
