(* ===== verification/MvNormalProps.v ===== *)
(** The multivariate normal and Wishart generators in exact arithmetic: the square
    root of the covariance, normal vectors as its images of independent normal
    numbers, Wishart matrices as Gram matrices of a factor of the scale times a
    random triangular matrix, and inverse Wishart matrices as their inverses. *)

From S2P Require Import Prelude.
From S2P Require Import Num.
From S2P Require Import NumR.
From S2P Require Import Eigen.
From S2P Require Import MatrixOps.
From S2P Require Import Evaluate.
From S2P Require Import Reject.
From S2P Require Import Continuous.
From S2P Require Import GammaBeta.
From S2P Require Import MvNormal.
From S2P Require Import WishartFactor.
From S2P Require Import MatrixR.
From S2P Require Import RejectProps.
From S2P Require Import ContinuousProps.
From S2P Require Import GammaProps.
From Stdlib Require Import Reals Lra.

#[local] Open Scope R_scope.

(** ** The square root of a covariance *)

Section Roots.
Context `{MatrixExact}.

Lemma times_diagonal_ok n v d : sized n n v → length d = n →
  ∃ m, times_diagonal v d = Ret m ∧ sized n n m ∧
    ∀ i k, (i < n)%nat → (k < n)%nat → coeff m i k = coeff v i k * nth k d 0.
Proof.
  intros Hv Hd. pose proof Hv as (Hok & Hr & Hc). unfold times_diagonal. rewrite Hc, Hd, Nat.eqb_refl.
  eexists. split; [done|]. split.
  - split; [|split; [done|unfold cols in *; cbn; rewrite length_zip_with; lia]].
    unfold matrix_ok. cbn. apply zip_with_columns_ok; [|done]. intros c x Hl. by rewrite length_fmap.
  - intros i k Hi Hk. unfold coeff. cbn [columns]. destruct (column_lookup n n v k Hv Hk) as [Hck Hl].
    rewrite !(nth_lookup _ k), lookup_zip_with, Hck. cbn.
    destruct (lookup_lt_is_Some_2 d k) as [x Hx]; [lia|]. rewrite Hx. cbn.
    rewrite !nth_lookup, list_lookup_fmap. by destruct (lookup_lt_is_Some_2 (column v k) i) as [y ->]; [lia|].
Qed.

Lemma clipped_root_square x : nth 0 (clipped_roots [x]) 0 * nth 0 (clipped_roots [x]) 0 = Rmax x 0.
Proof.
  cbn. unfold Rmax. destruct (Rlt_dec x 0), (Rle_dec x 0); try lra.
  - rewrite sqrt_0. lra.
  - rewrite sqrt_sqrt; lra.
  - apply sqrt_sqrt. lra.
Qed.

(** The Gram matrix of the clipped roots has the positive eigenvalues of the
    matrix. *)
Lemma eigen_root n m vals vecs : sized n n m → meq n (mtrans (coeff m)) (coeff m) →
  SelfAdjointEigenSolver m = Some (vals, vecs) →
  ∃ lt, times_diagonal vecs (clipped_roots vals) = Ret lt ∧ sized n n lt ∧
    meq n (gram n (coeff lt)) (λ i j, sum_below n (λ k, Rmax (nth k vals 0) 0 * (coeff vecs i k * coeff vecs j k))).
Proof.
  intros Hm Hs He. destruct (eigen_decomposition n m vals vecs Hm Hs He) as (Hv & Hl & _).
  destruct (times_diagonal_ok n vecs (clipped_roots vals) Hv) as (lt & Ht & Hlt & Hc);
    [unfold clipped_roots; by rewrite length_fmap|].
  exists lt. split; [done|]. split; [done|]. intros i j Hi Hj. apply sum_below_ext. intros k Hk. unfold mtrans.
  rewrite !Hc by done. destruct (lookup_lt_is_Some_2 vals k) as [x Hx]; [lia|].
  rewrite !(nth_lookup vals), Hx. cbn [default]. rewrite <-clipped_root_square. unfold clipped_roots.
  rewrite !nth_lookup, !list_lookup_fmap, Hx. cbn. lra.
Qed.

(** [get_lt] of a symmetric matrix returns a square root of it, [lt * lt^T =
    mat]: the Cholesky factor where that exists, and otherwise a root from the
    eigenvalues if none is negative.  Negative eigenvalues are replaced by 0, so
    that the result is the root of another matrix; when both decompositions fail,
    it throws. *)
Theorem get_lt_root n m : sized n n m → meq n (mtrans (coeff m)) (coeff m) →
  (∀ l, LLT m = Some l →
     get_lt m = Ret l ∧ sized n n l ∧ lower n (coeff l) ∧ diagonal_nonzero n (coeff l) ∧
     meq n (gram n (coeff l)) (coeff m)) ∧
  (∀ vals vecs, LLT m = None → SelfAdjointEigenSolver m = Some (vals, vecs) →
     ∃ lt, get_lt m = Ret lt ∧ sized n n lt ∧
       meq n (gram n (coeff lt)) (λ i j, sum_below n (λ k, Rmax (nth k vals 0) 0 * (coeff vecs i k * coeff vecs j k))) ∧
       (Forall (λ x, 0 <= x) vals → meq n (gram n (coeff lt)) (coeff m))) ∧
  (LLT m = None → SelfAdjointEigenSolver m = None →
     get_lt m = Throw (runtime_error "The matrix cannot be solved!")).
Proof.
  intros Hm Hs. unfold get_lt. split_and!.
  - intros l Hl. rewrite Hl. by destruct (LLT_gram n m l Hm Hs Hl) as (? & ? & ? & ?).
  - intros vals vecs Hl He. rewrite Hl, He. destruct (eigen_root n m vals vecs Hm Hs He) as (lt & Ht & Hlt & Hg).
    exists lt. split; [done|]. split; [done|]. split; [done|]. intros Hpos. rewrite Hg. intros i j Hi Hj.
    destruct (eigen_decomposition n m vals vecs Hm Hs He) as (_ & Hlv & Hrec).
    rewrite <-Hrec by done. apply sum_below_ext. intros k Hk. destruct (lookup_lt_is_Some_2 vals k) as [x Hx]; [lia|].
    rewrite (nth_lookup vals), Hx. cbn [default]. rewrite Rmax_left; [done|]. exact (Forall_lookup_1 _ _ _ _ Hpos Hx).
  - intros Hl He. by rewrite Hl, He.
Qed.

End Roots.

(** ** Normal vectors *)

Section Normal.
Context {St : Type} `{UniformSource R St} `{PacketMath R} `{MatrixExact} `{Traversal} (lanes fuel : nat).

Lemma storage_coeff n c (l : list R) i s : length l = (n * c)%nat → (i < n)%nat → (s < c)%nat →
  coeff (of_storage n c l) i s = nth (s * n + i) l 0.
Proof.
  unfold coeff, of_storage. cbn [columns]. revert l s. induction c as [|c IH]; intros l s Hl Hi Hs; [lia|].
  cbn [chunks]. destruct s as [|s]; cbn [nth].
  - rewrite !nth_lookup, lookup_take_lt by done. done.
  - rewrite IH by (rewrite ?length_drop; lia). rewrite !nth_lookup, lookup_drop. do 2 f_equal. lia.
Qed.

Lemma colwise_add n c (m : Matrix R) v : sized n c m → length v = n →
  ∃ x, colwise fadd m v = Ret x ∧ sized n c x ∧
    ∀ i s, (i < n)%nat → (s < c)%nat → coeff x i s = coeff m i s + nth i v 0.
Proof.
  intros Hm Hv. pose proof Hm as (Hok & Hr & Hc). unfold colwise. rewrite Hr, Hv, Nat.eqb_refl. eexists. split; [done|]. split.
  - split; [|split; [done|unfold cols in *; cbn; by rewrite length_fmap]]. unfold matrix_ok in *. cbn. apply Forall_fmap.
    rewrite Hr in Hok. eapply Forall_impl; [exact Hok|]. intros l Hl. cbn in *. rewrite length_zip_with. lia.
  - intros i s Hi Hs. unfold coeff. cbn [columns]. destruct (column_lookup n c m s Hm Hs) as [Hcs Hl].
    rewrite !(nth_lookup _ s), list_lookup_fmap, Hcs. cbn. rewrite !nth_lookup, lookup_zip_with.
    destruct (lookup_lt_is_Some_2 (column m s) i) as [y ->]; [lia|].
    destruct (lookup_lt_is_Some_2 v i) as [z ->]; [lia|]. done.
Qed.

(** The product with the numbers [z] as columns, and the mean added. *)
Lemma affine_ok n c lt mean z : sized n n lt → length mean = n → length z = (n * c)%nat →
  ∃ y x, product lt (of_storage n c z) = Ret y ∧ colwise fadd y mean = Ret x ∧ sized n c x ∧
    ∀ i s, (i < n)%nat → (s < c)%nat →
      coeff x i s = sum_below n (λ k, coeff lt i k * nth (s * n + k) z 0) + nth i mean 0.
Proof.
  intros Hlt Hmean Hz. destruct (of_storage_ok n c z Hz) as [Hs _]. destruct (product_ok n n c lt _ Hlt Hs) as [Hp Hy].
  destruct (colwise_add n c _ mean Hy Hmean) as (x & Hx & Hsx & Hc).
  exists (mmul lt (of_storage n c z)), x. split; [done|]. split; [done|]. split; [done|]. intros i s Hi Hls.
  rewrite Hc by done. f_equal. rewrite (mmul_coeff n n c) by done. apply sum_below_ext. intros k Hk.
  by rewrite storage_coeff.
Qed.

(** [MvNormalGen] draws [n] normal numbers for each sample and returns their
    image under [lt] plus the mean: sample [s] has the numbers [s * n] to
    [s * n + n - 1], so that distinct samples have distinct numbers. *)
Theorem mv_normal_affine n (g : MvNormalGen.t R) s' (rng rng' : St) :
  sized n n (MvNormalGen.lt g) → length (MvNormalGen.mean g) = n →
  (∀ samples z, draw_normals lanes fuel (n * samples) (MvNormalGen.stdnorm g) rng = Ret (z, s', rng') →
     length z = (n * samples)%nat →
     ∃ x, MvNormalGen.generate_n lanes fuel g rng samples = Ret (x, MvNormalGen.with_stdnorm g s', rng') ∧
       sized n samples x ∧
       ∀ i s, (i < n)%nat → (s < samples)%nat →
         coeff x i s = sum_below n (λ k, coeff (MvNormalGen.lt g) i k * nth (s * n + k) z 0) + nth i (MvNormalGen.mean g) 0) ∧
  (∀ z, draw_normals lanes fuel n (MvNormalGen.stdnorm g) rng = Ret (z, s', rng') → length z = n →
     ∃ x, MvNormalGen.generate lanes fuel g rng = Ret (x, MvNormalGen.with_stdnorm g s', rng') ∧ sized n 1 x ∧
       ∀ i, (i < n)%nat →
         coeff x i 0 = sum_below n (λ k, coeff (MvNormalGen.lt g) i k * nth k z 0) + nth i (MvNormalGen.mean g) 0).
Proof.
  intros Hlt Hmean. split.
  - intros samples z Hz Hl. unfold MvNormalGen.generate_n. rewrite Hmean, Hz. cbn [mbind outcome_bind].
    destruct (affine_ok n samples _ _ z Hlt Hmean Hl) as (y & x & -> & Hx & Hs & Hc). cbn [mbind outcome_bind].
    rewrite Hx. by exists x.
  - intros z Hz Hl. unfold MvNormalGen.generate. rewrite Hmean, Hz. cbn [mbind outcome_bind].
    destruct (affine_ok n 1 _ _ z Hlt Hmean) as (y & x & -> & Hx & Hs & Hc); [lia|]. cbn [mbind outcome_bind].
    rewrite Hx. exists x. split; [done|]. split; [done|]. intros i Hi. rewrite Hc by (done || lia). done.
Qed.

End Normal.

(** ** Wishart matrices *)

Section Wishart.
Context {St : Type} `{UniformSource R St} `{PacketMath R} `{PacketFilter R} `{MatrixExact} `{Traversal}
  `{Uninitialised R} `{!UninitialisedLaws R} (lanes fuel n : nat).
Context (g : WishartGen.t R) (Hchol : sized n n (WishartGen.chol g)) (Hlen : length (WishartGen.chisqs g) = n).

#[local] Abbreviation L := (WishartGen.chol g).

(** A Wishart matrix of the factor [a]: symmetric, and no vector makes it
    negative. *)
Definition wishart_of (a w : Matrix R) : Prop :=
  sized n n w ∧ meq n (coeff w) (gram n (mprod n (coeff L) (coeff a))) ∧
  meq n (mtrans (coeff w)) (coeff w) ∧ ∀ x, 0 <= quadratic n (coeff w) x.

Lemma wishart_gram a w : sized n n w → meq n (coeff w) (gram n (mprod n (coeff L) (coeff a))) → wishart_of a w.
Proof.
  intros Hs Hw. split; [done|]. split; [done|]. split.
  - rewrite Hw. apply gram_symmetric.
  - intros x. rewrite (quadratic_proper n _ _ x Hw). apply gram_nonnegative.
Qed.

(** C38. One sample of [WishartGen] is [(L A) (L A)^T], where [A] is lower
    triangular with the roots of the chi-squared numbers on its diagonal and the
    normal numbers below it, each of them once: folding the storage of the matrix
    puts every number below the diagonal. *)
Theorem wishart_sample s' z ds (rng rng1 rng2 : St) :
  draw_normals lanes fuel (n * (n - 1) / 2) (WishartGen.stdnorm g) rng = Ret (z, s', rng1) →
  length z = (n * (n - 1) / 2)%nat →
  chi_draws fuel (WishartGen.chisqs g) rng1 = Ret (ds, rng2) →
  ∃ a w, bartlett n z ds a ∧ wishart_of a w ∧
    WishartGen.generate lanes fuel g rng = Ret (w, WishartGen.with_generators g s' (WishartGen.chisqs g), rng2).
Proof.
  intros Hz Hlz Hd. pose proof Hchol as (_ & Hr & _).
  destruct (random_factor_ok lanes fuel n (WishartGen.stdnorm g) s' (WishartGen.chisqs g) z ds rng rng1 rng2)
    as (a & Ha & Hb); [done..|]. pose proof (bartlett_sized _ _ _ _ Hb) as Hsa.
  destruct (product_ok n n n L a Hchol Hsa) as [Hp Ht].
  destruct (square_ok n (mmul L a) Ht) as (w & Hw & Hsw & Hg).
  exists a, w. split; [done|]. split; [apply wishart_gram; [done|by rewrite Hg, mmul_meq]|].
  unfold WishartGen.generate. rewrite Hr, Ha. cbn [mbind outcome_bind]. rewrite Hp. cbn [mbind outcome_bind].
  by rewrite Hw.
Qed.

(** The blocks of a product. *)
Lemma block_product samples a l : sized n (n * samples) a → (l < samples)%nat →
  sized n (n * samples) (mmul L a) ∧ meq n (coeff (block n (mmul L a) l)) (mprod n (coeff L) (coeff (block n a l))).
Proof.
  intros Ha Hl. split; [by eapply mmul_sized|]. intros i j Hi Hj.
  assert (∀ m : Matrix R, coeff (block n m l) i j = coeff m i (j + l * n)) as Hb
    by (intros m; unfold coeff; pose proof (block_column n m l j Hj) as Hc; unfold column in Hc; by rewrite Hc).
  rewrite Hb, (mmul_coeff n n (n * samples)) by (done || nia). apply sum_below_ext. intros k Hk.
  unfold coeff. pose proof (block_column n a l j Hj) as Hc. unfold column in Hc. by rewrite Hc.
Qed.

Lemma square_loop_ok samples tmp todo : ∀ j m, sized n (n * samples) tmp → sized n (n * samples) m → (j + todo = samples)%nat →
  ∃ m', WishartGen.square_loop todo n j tmp m = Ret m' ∧ sized n (n * samples) m' ∧
    (∀ l, (j <= l < samples)%nat → meq n (coeff (block n m' l)) (gram n (coeff (block n tmp l)))) ∧
    ∀ k l, (k < n)%nat → (l < j)%nat → column m' (k + l * n) = column m (k + l * n).
Proof.
  induction todo as [|todo IH]; intros j m Ht Hm Hj; cbn [WishartGen.square_loop].
  - exists m. split; [done|]. split; [done|]. split; [intros l Hl; lia|done].
  - rewrite (middle_block n samples) by (done || lia). cbn [mbind outcome_bind].
    destruct (square_ok n (block n tmp j)) as (w & -> & Hw & Hg); [apply (block_sized n samples); [done|lia]|].
    cbn [mbind outcome_bind].
    destruct (set_block n samples m w j) as (m1 & -> & Hm1 & Hc1); [done|done|lia|]. cbn [mbind outcome_bind].
    destruct (IH (j + 1)%nat m1) as (m' & -> & Hm' & Hblk & Hkeep); [done|done|lia|].
    exists m'. split; [done|]. split; [done|]. split.
    + intros l Hl. destruct (decide (l = j)) as [->|]; [|apply Hblk; lia]. rewrite <-Hg.
      assert (block n m' j = w) as ->; [|done].
      apply (sized_ext n n); [apply (block_sized n samples); [done|lia]|done|]. intros k Hk.
      by rewrite block_column, Hkeep, Hc1, decide_True by lia.
    + intros k l Hk Hl. rewrite Hkeep, Hc1, decide_False by lia. done.
Qed.

(** Every block of a matrix of Wishart samples is such a Gram matrix as well,
    of its own chi-squared numbers and of its own part of the normal numbers. *)
Theorem wishart_samples samples s' cs' z ds (rng rng1 rng2 : St) :
  draw_normals lanes fuel (samples * n * (n - 1) / 2) (WishartGen.stdnorm g) rng = Ret (z, s', rng1) →
  length z = (samples * n * (n - 1) / 2)%nat →
  chi_rows lanes fuel samples (WishartGen.chisqs g) rng1 = Ret (ds, cs', rng2) → Forall (λ x, length x = samples) ds →
  ∃ m, WishartGen.generate_n lanes fuel g rng samples = Ret (m, WishartGen.with_generators g s' cs', rng2) ∧
    sized n (n * samples) m ∧
    ∀ l, (l < samples)%nat → ∃ a, wishart_of a (block n m l) ∧
      bartlett n (take (under_diagonal (n - 1)) (drop (l * under_diagonal (n - 1)) z)) (chi_column l ds) a.
Proof.
  intros Hz Hlz Hd Hds. pose proof Hchol as (_ & Hr & _).
  destruct (random_factors_ok lanes fuel n samples (WishartGen.stdnorm g) s' (WishartGen.chisqs g) cs' z ds rng rng1 rng2)
    as (a & Ha & Hsa & Hblocks); [done..|].
  destruct (product_ok n n (n * samples) L a Hchol Hsa) as [Hp Ht].
  destruct (square_loop_ok samples (mmul L a) samples 0 a Ht Hsa eq_refl) as (m & Hm & Hsm & Hg & _).
  exists m. split.
  - unfold WishartGen.generate_n. rewrite Hr, Ha. cbn [mbind outcome_bind]. rewrite Hp. cbn [mbind outcome_bind].
    by rewrite Hm.
  - split; [done|]. intros l Hl. exists (block n a l). split; [|by apply Hblocks].
    apply wishart_gram; [by apply (block_sized n samples)|]. rewrite Hg by lia.
    by rewrite (proj2 (block_product samples a l Hsa Hl)).
Qed.

(** ** Inverse Wishart matrices *)

(** A factor with positive chi-squared numbers. *)
Lemma bartlett_lower_triangular z ds a : bartlett n z ds a → length ds = n → Forall (λ d, 0 < d) ds →
  lower n (coeff a) ∧ diagonal_nonzero n (coeff a).
Proof.
  intros Hb Hl Hd. split.
  - intros i j Hij. by apply (bartlett_upper _ _ _ _ Hb).
  - intros i Hi. rewrite (bartlett_diagonal _ _ _ _ Hb) by done.
    destruct (lookup_lt_is_Some_2 ds i) as [d Hdi]; [lia|]. rewrite nth_lookup, Hdi. cbn.
    pose proof (sqrt_lt_R0 d (Forall_lookup_1 _ _ _ _ Hd Hdi)). lra.
Qed.

(** [w] is the inverse of [t * t^T], on both sides. *)
Definition inverse_gram (t : mat) (w : Matrix R) : Prop :=
  sized n n w ∧ meq n (mprod n (coeff w) (gram n t)) mone ∧ meq n (mprod n (gram n t) (coeff w)) mone.

#[local] Instance inverse_gram_proper : Proper (meq n ==> eq ==> iff) inverse_gram.
Proof. intros t t' Ht w _ <-. unfold inverse_gram. by rewrite Ht. Qed.

(** The triangular system of a factor. *)
Lemma inverse_ok t : sized n n t → lower n (coeff t) → diagonal_nonzero n (coeff t) →
  ∃ u w, solve_lower t (Identity n) = Ret u ∧ product (transpose u) u = Ret w ∧ sized n n u ∧
    inverse_gram (coeff t) w.
Proof.
  intros Ht Htl Htd. destruct (solve_identity n t Ht Htl Htd) as (u & Hu & Hsu & Hinv).
  pose proof (transpose_sized n n u Hsu) as Hsut. destruct (product_ok n n n (transpose u) u Hsut Hsu) as [Hp Hw].
  exists u, (mmul (transpose u) u). split; [done|]. split; [done|]. split; [done|]. split; [done|].
  destruct (gram_inverse n (coeff t) (coeff u) Htl Htd Hinv) as [Hgl Hgr].
  by rewrite mmul_meq, transpose_meq by done.
Qed.

Context (HL : lower n (coeff L)) (HLd : diagonal_nonzero n (coeff L)).

(** The product [t = L A] has such a triangular system. *)
Lemma factor_triangular t z ds a : meq n (coeff t) (mprod n (coeff L) (coeff a)) →
  bartlett n z ds a → length ds = n → Forall (λ d, 0 < d) ds → lower n (coeff t) ∧ diagonal_nonzero n (coeff t).
Proof.
  intros Ht Hb Hl Hd. destruct (bartlett_lower_triangular z ds a Hb Hl Hd) as [Ha Had].
  destruct (lower_prod n _ _ HL Ha) as [Hlow Hdiag]. split.
  - intros i j Hij. rewrite Ht by lia. by apply Hlow.
  - intros i Hi. rewrite Ht, Hdiag by done. apply Rmult_integral_contrapositive_currified; [by apply HLd|by apply Had].
Qed.

(** One sample of [InvWishartGen] is the inverse of the Wishart matrix [(L A)
    (L A)^T] of its factor [L] of the inverse scale, on both sides, for positive
    chi-squared numbers. *)
Theorem inv_wishart_inverse s' z ds (rng rng1 rng2 : St) :
  draw_normals lanes fuel (n * (n - 1) / 2) (WishartGen.stdnorm g) rng = Ret (z, s', rng1) →
  length z = (n * (n - 1) / 2)%nat →
  chi_draws fuel (WishartGen.chisqs g) rng1 = Ret (ds, rng2) → length ds = n → Forall (λ d, 0 < d) ds →
  ∃ a w, bartlett n z ds a ∧ inverse_gram (mprod n (coeff L) (coeff a)) w ∧
    InvWishartGen.generate lanes fuel g rng = Ret (w, WishartGen.with_generators g s' (WishartGen.chisqs g), rng2).
Proof.
  intros Hz Hlz Hd Hld Hpos. pose proof Hchol as (_ & Hr & _).
  destruct (random_factor_ok lanes fuel n (WishartGen.stdnorm g) s' (WishartGen.chisqs g) z ds rng rng1 rng2)
    as (a & Ha & Hb); [done..|]. pose proof (bartlett_sized _ _ _ _ Hb) as Hsa.
  destruct (product_ok n n n L a Hchol Hsa) as [Hp Ht]. pose proof (mmul_meq n L a Hchol Hsa) as Hta.
  destruct (factor_triangular (mmul L a) z ds a) as [Htl Htd]; [done..|].
  destruct (inverse_ok (mmul L a) Ht Htl Htd) as (u & w & Hu & Hw & _ & Hi).
  exists a, w. split; [done|]. split; [by rewrite <-Hta|].
  unfold InvWishartGen.generate. rewrite Hr, Ha. cbn [mbind outcome_bind]. rewrite Hp. cbn [mbind outcome_bind].
  rewrite Hu. cbn [mbind outcome_bind]. by rewrite Hw.
Qed.

(** The loop replaces every block by its inverse. *)
Lemma solve_loop_ok samples todo : ∀ j tmp m, sized n (n * samples) tmp → sized n (n * samples) m → (j + todo = samples)%nat →
  (∀ l, (j <= l < samples)%nat → lower n (coeff (block n tmp l)) ∧ diagonal_nonzero n (coeff (block n tmp l))) →
  ∃ tmp' m', InvWishartGen.solve_loop todo n j tmp m = Ret (tmp', m') ∧ sized n (n * samples) tmp' ∧
    (∀ l, (j <= l < samples)%nat → inverse_gram (coeff (block n tmp l)) (block n tmp' l)) ∧
    ∀ k l, (k < n)%nat → (l < j)%nat → column tmp' (k + l * n) = column tmp (k + l * n).
Proof.
  induction todo as [|todo IH]; intros j tmp m Ht Hm Hj Htri; cbn [InvWishartGen.solve_loop].
  - exists tmp, m. split; [done|]. split; [done|]. split; [intros l Hl; lia|done].
  - rewrite (middle_block n samples) by (done || lia). cbn [mbind outcome_bind].
    destruct (inverse_ok (block n tmp j)) as (u & w & -> & Hw & Hu & Hinv);
      [apply (block_sized n samples); [done|lia]|by apply Htri; lia..|]. cbn [mbind outcome_bind].
    destruct (set_block n samples m u j) as (m1 & -> & Hm1 & _); [done|done|lia|]. cbn [mbind outcome_bind].
    rewrite Hw. cbn [mbind outcome_bind].
    destruct (set_block n samples tmp w j) as (t1 & -> & Ht1 & Hc1); [done|by apply Hinv|lia|]. cbn [mbind outcome_bind].
    assert (∀ l, (j < l < samples)%nat → block n t1 l = block n tmp l) as Hsame.
    { intros l Hl. apply (sized_ext n n); [apply (block_sized n samples); [done|lia]..|]. intros k Hk.
      by rewrite !block_column, Hc1, decide_False by lia. }
    destruct (IH (j + 1)%nat t1 m1) as (tmp' & m' & -> & Htmp' & Hblk & Hkeep);
      [done|done|lia|intros l Hl; rewrite Hsame by lia; apply Htri; lia|].
    exists tmp', m'. split; [done|]. split; [done|]. split.
    + intros l Hl. destruct (decide (l = j)) as [->|]; [|rewrite <-Hsame by lia; apply Hblk; lia].
      assert (block n tmp' j = w) as ->; [|done].
      apply (sized_ext n n); [apply (block_sized n samples); [done|lia]|by apply Hinv|]. intros k Hk.
      by rewrite block_column, Hkeep, Hc1, decide_True by lia.
    + intros k l Hk Hl. rewrite Hkeep, Hc1, decide_False by lia. done.
Qed.

(** C39. Every block of a matrix of inverse Wishart samples is the inverse of the
    Wishart matrix of its own normal and chi-squared numbers. *)
Theorem inv_wishart_samples samples s' cs' z ds (rng rng1 rng2 : St) :
  draw_normals lanes fuel (samples * n * (n - 1) / 2) (WishartGen.stdnorm g) rng = Ret (z, s', rng1) →
  length z = (samples * n * (n - 1) / 2)%nat →
  chi_rows lanes fuel samples (WishartGen.chisqs g) rng1 = Ret (ds, cs', rng2) →
  length ds = n → Forall (λ x, length x = samples ∧ Forall (λ d, 0 < d) x) ds →
  ∃ m, InvWishartGen.generate_n lanes fuel g rng samples = Ret (m, WishartGen.with_generators g s' cs', rng2) ∧
    sized n (n * samples) m ∧
    ∀ l, (l < samples)%nat → ∃ a, inverse_gram (mprod n (coeff L) (coeff a)) (block n m l) ∧
      bartlett n (take (under_diagonal (n - 1)) (drop (l * under_diagonal (n - 1)) z)) (chi_column l ds) a.
Proof.
  intros Hz Hlz Hd Hld Hds. pose proof Hchol as (_ & Hr & _).
  assert (∀ l, (l < samples)%nat → length (chi_column l ds) = n ∧ Forall (λ d, 0 < d) (chi_column l ds)) as Hcol.
  { intros l Hl. unfold chi_column. rewrite length_fmap. split; [done|]. apply Forall_fmap.
    eapply Forall_impl; [exact Hds|]. intros x [Hx Hpos]. cbn. destruct (lookup_lt_is_Some_2 x l) as [d Hxl]; [lia|].
    rewrite nth_lookup, Hxl. by eapply Forall_lookup_1. }
  destruct (random_factors_ok lanes fuel n samples (WishartGen.stdnorm g) s' (WishartGen.chisqs g) cs' z ds rng rng1 rng2)
    as (a & Ha & Hsa & Hblocks); [done|done|done|by eapply Forall_impl; [exact Hds|intros x [? _]]|done|].
  destruct (product_ok n n (n * samples) L a Hchol Hsa) as [Hp Ht].
  destruct (solve_loop_ok samples samples 0 (mmul L a) a Ht Hsa eq_refl) as (m & m' & Hm & Hsm & Hi & _).
  { intros l [_ Hl]. destruct (Hcol l Hl) as [Hlc Hpos].
    eapply factor_triangular; [by apply (block_product samples)|by apply Hblocks|done..]. }
  exists m. split; [|split; [done|]].
  - unfold InvWishartGen.generate_n. rewrite Hr, Ha. cbn [mbind outcome_bind]. rewrite Hp. cbn [mbind outcome_bind].
    by rewrite Hm.
  - intros l Hl. exists (block n a l). split; [|by apply Hblocks].
    rewrite <-(proj2 (block_product samples a l Hsa Hl)). apply Hi. lia.
Qed.

End Wishart.

(** ** Concrete inputs

    A cached normal number, chi-squared generators with two degrees of freedom and
    uniform numbers of one half. *)

#[local] Instance R_tape : UniformSource R (list R) := tape 4.
#[local] Instance R_lanes : PacketMath R := lane_packets 4.
#[local] Instance R_filter : PacketFilter R := list_filter 4 0.
#[local] Instance R_zeros : Uninitialised R := zeros 0.
#[local] Instance R_zeros_laws : UninitialisedLaws R := zeros_laws 0.
#[local] Instance in_fours : Traversal := packets_first 4.

Definition diagonal_4_9 : Matrix R := tabulate 2 2 (λ i j, if (i =? j)%nat then nth i [4; 9] 0 else 0).

Lemma diagonal_decomposes : SelfAdjointEigenSolver diagonal_4_9 = Some ([4; 9], tabulate 2 2 mone).
Proof.
  unfold SelfAdjointEigenSolver, R_matrix, diagonal_eigen. unfold is_diagonal, diagonal_4_9. cbn.
  rewrite (decide_False (P := 0%nat = 1%nat)), (decide_False (P := 1%nat = 0%nat)), !decide_True by done. cbn. by destruct (Req_dec_T 0 0).
Qed.

Lemma get_lt_root_witness : ∃ lt, get_lt diagonal_4_9 = Ret lt ∧ meq 2 (gram 2 (coeff lt)) (coeff diagonal_4_9).
Proof.
  destruct (get_lt_root 2 diagonal_4_9) as (_ & Heig & _).
  - apply tabulate_sized.
  - intros i j Hi Hj. unfold mtrans, diagonal_4_9. rewrite !tabulate_coeff by done.
    destruct (Nat.eqb_spec j i), (Nat.eqb_spec i j); congruence.
  - destruct (Heig _ _ eq_refl diagonal_decomposes) as (lt & Hlt & _ & _ & Hg). exists lt. split; [exact Hlt|].
    apply Hg. repeat constructor; lra.
Defined.

Definition cached_normal : StdNormalGen.t R := StdNormalGen.mk true [3].
Definition affine : MvNormalGen.t R := MvNormalGen.mk [5] (tabulate 1 1 (λ _ _, 2)) cached_normal.

Lemma mv_normal_affine_witness : ∃ x,
  MvNormalGen.generate 4 1 affine [] = Ret (x, MvNormalGen.with_stdnorm affine (StdNormalGen.mk false [3]), []) ∧
  coeff x 0 0 = 11.
Proof.
  destruct (mv_normal_affine 4 1 1 affine (StdNormalGen.mk false [3]) [] []) as [_ Hone].
  - apply tabulate_sized.
  - done.
  - destruct (Hone [3] eq_refl eq_refl) as (x & Hx & _ & Hc). exists x. split; [exact Hx|]. rewrite Hc by lia.
    rewrite sum_below_S, sum_below_0. cbn. lra.
Defined.

Definition two_by_two : WishartGen.t R :=
  WishartGen.mk 2 (Identity 2) cached_normal [ChiSquaredGen.create 4 2; ChiSquaredGen.create 4 2].
Definition exponential_half : R := 2 * (- ln (1 - / 2) / 1).

Lemma exponential_half_pos : 0 < exponential_half.
Proof. pose proof (ln_unit_neg (1 - / 2) ltac:(lra)). unfold exponential_half. lra. Qed.

Lemma chi_squared_two rng : ChiSquaredGen.call 1 (ChiSquaredGen.create 4 2) (/ 2 :: rng) = Ret (exponential_half, rng).
Proof.
  unfold ChiSquaredGen.call, GammaGen.call, ChiSquaredGen.create. cbn [GammaGen.alpha GammaGen.create].
  assert (fmul 2 half = 1) as -> by (unfold half; cbn; lra).
  rewrite (proj2 (R_fltb_false 1 (of_Z 1))), (proj2 (R_feq 1 (of_Z 1))) by (cbn; lra). reflexivity.
Qed.

Lemma two_chi_draws : chi_draws 1 (WishartGen.chisqs two_by_two) [/ 2; / 2] = Ret ([exponential_half; exponential_half], []).
Proof. cbn [chi_draws WishartGen.chisqs two_by_two]. rewrite chi_squared_two. cbn [mbind outcome_bind]. by rewrite chi_squared_two. Qed.

#[local] Abbreviation after := (WishartGen.with_generators two_by_two (StdNormalGen.mk false [3]) (WishartGen.chisqs two_by_two)).

Lemma identity_lower : lower 2 (coeff (Identity 2)) ∧ diagonal_nonzero 2 (coeff (Identity 2)).
Proof.
  split.
  - intros i j Hij. rewrite Identity_coeff by lia. unfold mone. by rewrite decide_False by lia.
  - intros i Hi. rewrite Identity_coeff by lia. unfold mone. rewrite decide_True by done. lra.
Qed.

Lemma wishart_sample_witness : ∃ w, WishartGen.generate 4 1 two_by_two [/ 2; / 2] = Ret (w, after, []) ∧
  meq 2 (mtrans (coeff w)) (coeff w).
Proof.
  destruct (wishart_sample 4 1 2 two_by_two (Identity_sized 2) eq_refl (StdNormalGen.mk false [3]) [3]
    [exponential_half; exponential_half] [/ 2; / 2] [/ 2; / 2] []) as (a & w & _ & Hw & Hg);
    [done|done|exact two_chi_draws|].
  exists w. split; [exact Hg|apply Hw].
Defined.

Lemma inv_wishart_inverse_witness : ∃ a w, InvWishartGen.generate 4 1 two_by_two [/ 2; / 2] = Ret (w, after, []) ∧
  meq 2 (mprod 2 (coeff w) (gram 2 (mprod 2 (coeff (Identity 2)) (coeff a)))) mone.
Proof.
  destruct (inv_wishart_inverse 4 1 2 two_by_two (Identity_sized 2) eq_refl (proj1 identity_lower) (proj2 identity_lower)
    (StdNormalGen.mk false [3]) [3] [exponential_half; exponential_half] [/ 2; / 2] [/ 2; / 2] [])
    as (a & w & _ & Hw & Hg); [done|done|exact two_chi_draws|done|repeat constructor; exact exponential_half_pos|].
  exists a, w. split; [exact Hg|apply Hw].
Defined.

(** A matrix of one sample. *)
Lemma two_chi_rows : chi_rows 4 1 1 (WishartGen.chisqs two_by_two) [/ 2; / 2] =
  Ret ([[exponential_half]; [exponential_half]], WishartGen.chisqs two_by_two, []).
Proof.
  assert (∀ rng, evaluate 4 (keeping (ChiSquaredGen.call 1)) (ChiSquaredGen.packetOp 1) 1 (ChiSquaredGen.create 4 2) (/ 2 :: rng) =
    Ret ([exponential_half], ChiSquaredGen.create 4 2, rng)) as Hone.
  { intros rng. unfold evaluate, evaluate_with. cbn [length replicate packets before_packets in_fours packets_first].
    change (1 / 4)%nat with 0%nat. cbn [take drop each each_packet Nat.add Nat.mul mbind outcome_bind].
    unfold keeping. by rewrite chi_squared_two. }
  cbn [chi_rows WishartGen.chisqs two_by_two]. rewrite Hone. cbn [mbind outcome_bind]. by rewrite Hone.
Qed.

Lemma wishart_samples_witness : ∃ m, WishartGen.generate_n 4 1 two_by_two [/ 2; / 2] 1 = Ret (m, after, []) ∧
  meq 2 (mtrans (coeff (block 2 m 0))) (coeff (block 2 m 0)).
Proof.
  destruct (wishart_samples 4 1 2 two_by_two (Identity_sized 2) eq_refl 1 (StdNormalGen.mk false [3])
    (WishartGen.chisqs two_by_two) [3] [[exponential_half]; [exponential_half]] [/ 2; / 2] [/ 2; / 2] [])
    as (m & Hm & _ & Hb); [done|done|exact two_chi_rows|by repeat constructor|].
  exists m. split; [exact Hm|]. destruct (Hb 0%nat ltac:(lia)) as (a & Ha & _). apply Ha.
Defined.

Lemma inv_wishart_samples_witness : ∃ a m, InvWishartGen.generate_n 4 1 two_by_two [/ 2; / 2] 1 = Ret (m, after, []) ∧
  meq 2 (mprod 2 (coeff (block 2 m 0)) (gram 2 (mprod 2 (coeff (Identity 2)) (coeff a)))) mone.
Proof.
  destruct (inv_wishart_samples 4 1 2 two_by_two (Identity_sized 2) eq_refl (proj1 identity_lower) (proj2 identity_lower)
    1 (StdNormalGen.mk false [3])
    (WishartGen.chisqs two_by_two) [3] [[exponential_half]; [exponential_half]] [/ 2; / 2] [/ 2; / 2] [])
    as (m & Hm & _ & Hb); [done|done|exact two_chi_rows|done| |].
  - repeat constructor; exact exponential_half_pos.
  - destruct (Hb 0%nat ltac:(lia)) as (a & Ha & _). exists a, m. split; [exact Hm|]. apply Ha.
Defined.
